(* ===== verification/_CoqProject ===== *)
-Q . S2P
Prelude.v
Primitives.v
Fields.v
SfcCommon.v
BinaryTree.v
Csarray.v
CsInvariant.v
CsRebalance.v
CsCounts.v
CsBuild.v
CsUtil.v
TreeProperties.v
SfcBox.v
Morton.v
Hilbert.v
Sfc.v
BoxOverlap.v
Octree.v
OctreeNodes.v
OctreeBuild.v
OctreeQueries.v
OctreeProperties.v
SfcProperties.v
IndexRanges.v
Doubles.v
DomainDecomp.v
Layout.v
DomainProperties.v
FocusRebalance.v
FocusInject.v
FocusTree.v
FocusOps.v
FocusUpdate.v
FocusProperties.v
GlobalTree.v
GlobalProperties.v
Exchange.v
Distribute.v
Replay.v
Halos.v
HaloExchange.v
ExchangeProperties.v
Scalars.v
FloatBox.v
GlobalBox.v
Traversal.v
DualTraversal.v
NodeLookup.v
Macs.v
SourceCenter.v
Peers.v
Marking.v
ExactGeometry.v
ExactCoords.v
Continuum.v
TraversalProperties.v
GeometryProperties.v
Neighbors.v
NeighborSearch.v
IjLoop.v
Interactions.v
NeighborProperties.v
Treelets.v
TreeletSync.v
TreeletWorld.v
TreeletCells.v
TreeletProperties.v
FocusedOctree.v
FocusCounts.v
FocusTrees.v
FocusedProperties.v
Domain.v
DomainLayout.v
DomainHalos.v
HaloSearch.v
SyncPass.v
SyncFinish.v
SyncDistribute.v
SyncStep.v
SyncProperties.v
