(* ===== verification/Prelude.v ===== *)
(** * Verification of the Cornerstone octree library of SPH-EXA

    SPH-EXA is a simulation code whose particles are distributed over MPI ranks by the
    Cornerstone library ([src/domain/include/cstone/]).  Cornerstone is the part with the
    program's own algorithms; this development models its CPU code and proves it correct.

    ** The program and the files that model it

    Keys.  A particle has a key on a space filling curve, an unsigned integer of 32 or 64
    bits (parameter [k : KeyType]) of which 30 or 63 are used, three per octree level.
    - [Primitives]: [primitives/stl.hpp, clz.hpp, math.hpp, gather.hpp] (searches, bit
      counts, rounding, gather, scatter, key sort).
    - [SfcCommon]: [tree/definitions.h], [sfc/common.hpp] (ranges, levels, prefixes).
    - [SfcBox], [Morton], [Hilbert], [Sfc]: [sfc/box.hpp, morton.hpp, hilbert.hpp, sfc.hpp].
    - [BoxOverlap]: the integer part of [traversal/boxoverlap.hpp].

    Trees.  A cornerstone array is the sorted list of the first keys of the leaves of an
    octree, closed by the end of the curve ([CsInvariant.csTree]).
    - [Csarray]: [tree/csarray.hpp] (counts, rebalance, construction), [tree/cs_util.hpp];
      [CsInvariant], [CsRebalance], [CsCounts], [CsBuild], [CsUtil] hold its lemmas.
    - [Octree]: [tree/octree.hpp] (internal nodes, links, sweeps, class [Octree]).
      [OctreeNodes] defines octrees as an inductive type, the abstract specification;
      [OctreeBuild] and [OctreeQueries] show that the arrays represent such a tree.
    - [BinaryTree]: [tree/btree.hpp], binary radix trees over sorted keys.
    - [FocusRebalance], [FocusInject], [FocusTree], [FocusOps], [FocusUpdate]: the focused
      octree of one rank ([focus/rebalance.hpp, inject.hpp, octree_focus.hpp]).

    Ranks.
    - [IndexRanges], [DomainDecomp], [Layout]: [domain/index_ranges.hpp,
      buffer_description.hpp, domaindecomp.hpp, layout.hpp].  [Doubles] holds the conversions between
      integers and doubles and bounds the rounding of quotients and products, from which
      [DomainDecomp.targetCount_spec] shows that the targets of [uniformBins] are ordered.
    - [GlobalTree]: [tree/update_mpi.hpp] and the tree part of [domain/assignment.hpp], on a
      list of ranks; a collective operation takes the values of all ranks.
    - [Exchange], [Distribute], [Replay]: [domain/domaindecomp_mpi.hpp] and the exchange part
      of [domain/assignment.hpp].  A message is a value; a rank gets any interleaving of the
      messages that are sent to it in which those of one sender keep their order
      ([Exchange.interleaves]), which is what MPI guarantees.
    - [Halos], [HaloExchange]: [halos/halos.hpp, halo_peers.hpp, exchange_halos.hpp],
      [domain/exchange_keys.hpp], [focus/peer_flags.hpp].
    - [Treelets], [TreeletSync], [TreeletWorld], [TreeletCells]: [focus/exchange_focus.hpp]; the last two
      state what all ranks hold together ([treeletWorld], [cellWorld]).
    - [FocusedOctree], [FocusTrees], [FocusCounts]: class [FocusedOctree] of [focus/octree_focus_mpi.hpp];
      [focusWorld] states what the objects of all ranks hold together.
    - [Domain]: class [Domain] of [domain/domain.hpp], the state of a rank between the calls of [sync],
      and class [GlobalAssignment] with it.  Messages and results of reductions are arguments, so that
      a theorem about all ranks quantifies over every arrival order.  Its lemmas are in [DomainLayout]
      (what the buffers of all ranks hold), [DomainHalos] (the end of [sync]), [FocusTrees] (criteria),
      [HaloSearch] (halo discovery), [SyncPass] (one pass on all ranks), [SyncFinish] (the loop and the end
      of [sync] on all ranks, neighbor search on the result), [SyncDistribute] (box, keys, tree and particle
      exchange on all ranks) and [SyncStep] (a whole call on all ranks).

    Coordinates and traversals.
    - [Scalars]: the class [Scalar] of the operations on coordinates.  Its instances are
      [spec_float] at single and double precision and the rationals.
    - [FloatBox]: the coordinate part of [sfc/box.hpp, sfc.hpp, boxoverlap.hpp], [util/array.hpp].
    - [GlobalBox]: [sfc/box_mpi.hpp], the bounding box of the particles of all ranks.
    - [Traversal], [DualTraversal], [NodeLookup]: [traversal/traversal.hpp].
    - [Macs], [Peers], [Marking]: [traversal/macs.hpp, collisions.hpp, peers.hpp].
    - [SourceCenter]: [focus/source_center.hpp].
    - [ExactGeometry], [ExactCoords]: lemmas on the rational instance.
    - [Continuum]: [tree/continuum.hpp], leaf arrays for a concentration instead of particles.
    - [Neighbors], [NeighborSearch]: [findneighbors.hpp].
    - [IjLoop], [Interactions]: [traversal/ijloop/ijloop.hpp, common.hpp, cpu_alwaystraverse.hpp,
      cpu_fullnblist.hpp] and [src/sph/include/sph/neighborhood.hpp].  The concept
      [NeighborhoodBuilder] is a class, what a builder promises is [NeighborhoodLaws], and
      the two builders are instances of both.

    Fields.
    - [Fields]: [fields/field_states.hpp, data_util.hpp], the reuse of the memory of particle fields.

    The files [*Properties] and [Fields] hold the claims: every claim is a theorem with a number C<n>, and
    the claims that have hypotheses have a witness, an instance on concrete data.

    ** How code is modelled

    Arrays are lists; a read or write out of bounds is [None], so a theorem that a function
    returns [Some] includes memory safety.  Unsigned integers are [Z] with [wrap]; sums and
    products that the code computes at 32 or 64 bits are wrapped where they can overflow.  An
    [assert] that guards an access to an array or a step of a protocol is [None] when it fails.
    Assertions that only restrict the arguments of arithmetic functions ([nodeRange], [treeLevel],
    the encodings of the curves, the predicates on intervals of boxes) are left out: these functions
    are total, and the lemmas on them assume the range.  Indices of tree nodes (signed 32-bit
    numbers) are mathematical integers in the leaf arrays and octrees; [BinaryTree] bounds them.  Loops over index ranges are [for_loop]; parallel loops are
    loops over an arbitrary permutation of the indices where the iterations share data.

    ** What the theorems show

    - Leaf arrays ([TreeProperties]): construction terminates with a balanced tree and exact
      counts; an update keeps the invariant; the rebalance step refines its specification;
      counting does not depend on the order of the threads.  The guided search of [computeNodeCounts]
      can overflow its signed integers with more than 2^30 keys of 32 bits, so these theorems take
      [searchableKeys]; [findSearchBounds_overflow] shows that it fails from 2^31 keys on.
    - Internal octree ([OctreeProperties]): construction yields the linked tree of the leaves,
      rebalancing and navigation work on it, sweeps compute sums over leaves; the binary radix tree is
      the trie of its keys.
    - Curves ([SfcProperties]): encoding and decoding are inverse, the Hilbert curve is
      continuous, boxes of nodes are exact.
    - Domain decomposition and global tree ([DomainProperties], [GlobalProperties]): all
      replicas stay equal, the first assignment terminates, no particle is lost.
    - Exchange ([ExchangeProperties]): every particle arrives at its rank for every arrival
      order, the result is sorted, and a repeated exchange of further properties is
      consistent with the first one if all particles for a rank fit into one message, and
      loses properties if they do not.
    - Halos ([ExchangeProperties]): every leaf for which a rank has reserved space holds the
      particles of that leaf after the halo exchange, for every arrival order.
    - Focus trees of all ranks ([TreeletProperties]): after the synchronization every rank keeps
      exactly the keys that their owners also have, the trees stay valid, and the exchange of
      cell properties gives every leaf the value of its owner, for every arrival order.
    - Class FocusedOctree ([FocusedProperties]): the update of the tree on all ranks establishes
      [focusWorld], and on it the counts of all nodes are those of the particles of all ranks.
    - Class Domain ([SyncProperties]): a call of [sync] on all ranks takes the state between two calls to
      such a state again, loses no particle and leaves every rank with sorted arrays that hold the
      particles of its key range and every particle of any rank in their search radius (exactly if the lower
      corner of the box is a multiple of the cell size, otherwise up to the size of a grid cell); and the
      neighbor search on a rank finds the neighbors of its particles among the particles of all ranks.
      The theorems are about exact coordinates and assume what the code does not check: that the global
      tree has not lost leaves, that no rank reports a failure in the last pass, and that the positions
      from which properties are gathered are inside of the resized arrays ([SyncFinish.gatherFits]).
    - Focused octree ([FocusProperties]): the combined update keeps a valid tree and resolves
      all mandatory keys in any execution order.
    - Traversals ([TraversalProperties]): the stackless traversal is the recursive one, the
      dual traversal covers all pairs of leaves; for exact coordinates and trees of at most nine
      levels peers are found exactly and mutually.
    - Geometry ([GeometryProperties]): halo discovery, acceptance marks, containment, mass
      centers and the global box are exact for exact coordinates; the construction of a leaf array for a
      bounded concentration returns the counts of its leaves.
    - Neighbors ([NeighborProperties]): for exact coordinates the search finds exactly the particles in
      the search radius, taking periodic images into account, and both neighborhoods compute the same
      interactions for every schedule of the threads if the lists have room for all neighbors.
    - Fields ([Fields]): releasing and acquiring fields never loses memory and never touches a conserved field.
    Theorems of kind error show inputs on which the code fails; they are listed as findings.

    ** Bounds and fuel

    Loops without a structural measure take fuel and return [None] when it runs out; the
    theorems state that they return [Some] for the given or for all sufficient fuel.
    - [computeOctree] and [assignLoop]: every round refines or merges by at least one level,
      2 * maxTreeLevel + 1 rounds are enough.
    - [singleTraversal]: every node is visited at most once.
    - [dualTraversal]: the stack holds at most seven pairs per combined level above the
      deepest, so 128 entries are enough for subtrees of at most 18 combined levels.
    - [sendLoop]: every message carries at least one particle, so the number of particles
      plus one is enough.
    - Searches: the length of the range bounds the number of steps; in binary radix trees the step of a
      search is halved or doubled, 32 steps are enough for indices of 32 bits.

    ** Not modelled

    - CUDA kernels and the branches for accelerators: they implement the same operations
      with device memory.
    - Floating point error: the definitions run at single and double precision, but theorems
      on coordinates are stated for the rational instance, where rounding does not occur.
    - The byte layout of packed messages, except for its size.
    - [domain/domain.hpp]: the compile-time checks of the scratch buffers and the printed diagnostics.
    - SPH kernels, gravity, input and output ([src/sph], [src/ryoanji], [src/main]):
      floating point physics and orchestration without algorithms on discrete data. *)

From Stdlib Require Export ZArith Lia Bool.
From stdpp Require Export base list list_numbers numbers option sorting sets.

#[global] Set Default Goal Selector "!".
Open Scope Z_scope.

(** ** Machine words *)

(** Value of an unsigned [w]-bit integer after wrap-around. *)
Definition wrap (w x : Z) : Z := x mod 2 ^ w.

Definition u32 (x : Z) : Z := wrap 32 x.
Definition u64 (x : Z) : Z := wrap 64 x.

(** Two's complement reading of a [w]-bit pattern (conversion to a signed type). *)
Definition swrap (w x : Z) : Z := (x + 2 ^ (w - 1)) mod 2 ^ w - 2 ^ (w - 1).

Definition i32 (x : Z) : Z := swrap 32 x.

(** ** Checked array access

    A C++ array is a [list], an index is a [Z].  Reading or writing outside of the
    bounds is undefined behaviour in C++ and is the value [None] here, so that a
    theorem that an operation returns [Some] also says that it stays inside its
    arrays. *)
Definition zlen {A} (l : list A) : Z := Z.of_nat (length l).

Definition aget {A} (l : list A) (i : Z) : option A :=
  if i <? 0 then None else l !! Z.to_nat i.

Definition aset {A} (l : list A) (i : Z) (v : A) : option (list A) :=
  if (i <? 0) || (zlen l <=? i) then None else Some (<[Z.to_nat i := v]> l).

Declare Scope arr_scope.
Delimit Scope arr_scope with arr.
Open Scope arr_scope.
Notation "l .[ i ]" := (aget l i) (at level 1, left associativity, format "l .[ i ]") : arr_scope.
Notation "'let?' p ':=' e 'in' k" := (match e with Some p => k | None => None end)
  (at level 10, p pattern, e at level 100, k at level 200) : arr_scope.

(** [vector::resize]: keeps the old elements that still fit, pads with [d]. *)
Definition aresize {A} (d : A) (l : list A) (n : Z) : list A :=
  take (Z.to_nat n) l ++ replicate (Z.to_nat n - length l) d.

(** ** Loops *)

(** Left-to-right monadic fold: [for (x : xs) s = f(x, s)], stops at the first error. *)
Fixpoint foldM {A S} (f : A -> S -> option S) (xs : list A) (s : S) : option S :=
  match xs with
  | [] => Some s
  | x :: xs => let? s' := f x s in foldM f xs s'
  end.

(** [for (int i = lo; i < hi; ++i) s = body(i, s)]. *)
Definition for_loop {S} (lo hi : Z) (body : Z -> S -> option S) (s : S) : option S :=
  foldM body (seqZ lo (hi - lo)) s.

(** [for (int i = 0; i < n; ++i) out[i] = f(i)], every iteration independent. *)
Definition mapM_range {A} (lo hi : Z) (f : Z -> option A) : option (list A) :=
  mapM f (seqZ lo (hi - lo)).

(** [std::exclusive_scan] with addition [add] and initial value [acc]. *)
Fixpoint exclusive_scan_with (add : Z -> Z -> Z) (acc : Z) (l : list Z) : list Z :=
  match l with
  | [] => []
  | x :: l => acc :: exclusive_scan_with add (add acc x) l
  end.

(** Scan of [TreeNodeIndex] values (signed; overflow is undefined in C++). *)
Definition exclusive_scan (acc : Z) (l : list Z) : list Z := exclusive_scan_with Z.add acc l.

(** Scan of 32-bit unsigned values ([LocalIndex]), which wraps around. *)
Definition exclusive_scan_u32 (acc : Z) (l : list Z) : list Z :=
  exclusive_scan_with (fun a b => u32 (a + b)) acc l.

Definition zsum (l : list Z) : Z := foldr Z.add 0 l.

(** ** Lemmas on words *)

Lemma wrap_small w x : 0 <= x < 2 ^ w -> wrap w x = x.
Proof. intros; unfold wrap; apply Z.mod_small; lia. Qed.

Lemma wrap_range w x : 0 <= w -> 0 <= wrap w x < 2 ^ w.
Proof. intros; unfold wrap; apply Z.mod_pos_bound; apply Z.pow_pos_nonneg; lia. Qed.

Lemma u32_small x : 0 <= x < 4294967296 -> u32 x = x.
Proof. intros; apply wrap_small; lia. Qed.

Lemma u64_small x : 0 <= x < 18446744073709551616 -> u64 x = x.
Proof. intros; apply wrap_small; lia. Qed.

Lemma swrap_small w x : 0 < w -> - 2 ^ (w - 1) <= x < 2 ^ (w - 1) -> swrap w x = x.
Proof.
  intros Hw Hx; unfold swrap.
  assert (2 ^ w = 2 * 2 ^ (w - 1)) as ->.
  { rewrite <- Z.pow_succ_r by lia. f_equal; lia. }
  rewrite Z.mod_small; lia.
Qed.

Lemma i32_small x : -2147483648 <= x < 2147483648 -> i32 x = x.
Proof. intros; apply swrap_small; lia. Qed.

(** ** Lemmas on arrays *)

Section Arrays.
Context {A : Type}.
Implicit Types (l : list A) (i j : Z) (v : A).

Lemma zlen_nonneg l : 0 <= zlen l.
Proof. unfold zlen; lia. Qed.

Lemma zlen_app l1 l2 : zlen (l1 ++ l2) = zlen l1 + zlen l2.
Proof. unfold zlen; rewrite length_app; lia. Qed.

Lemma zlen_cons v l : zlen (v :: l) = 1 + zlen l.
Proof. unfold zlen; simpl; lia. Qed.

Lemma zlen_nil : zlen (@nil A) = 0.
Proof. reflexivity. Qed.

Lemma aget_nat l (n : nat) : l.[Z.of_nat n] = l !! n.
Proof. unfold aget. destruct (Z.ltb_spec (Z.of_nat n) 0); [lia|]. by rewrite Nat2Z.id. Qed.

Lemma aget_lookup l i : 0 <= i -> l.[i] = l !! Z.to_nat i.
Proof. intros; unfold aget. by destruct (Z.ltb_spec i 0); [lia|]. Qed.

Lemma aget_Some_range l i v : l.[i] = Some v -> 0 <= i < zlen l.
Proof.
  unfold aget, zlen. destruct (Z.ltb_spec i 0); [done|].
  intros ?%lookup_lt_Some. lia.
Qed.

Lemma aget_is_Some l i : 0 <= i < zlen l -> exists v, l.[i] = Some v.
Proof.
  intros Hi. rewrite aget_lookup by lia. apply lookup_lt_is_Some. unfold zlen in Hi. lia.
Qed.

Lemma aget_None l i : ~ (0 <= i < zlen l) -> l.[i] = None.
Proof.
  intros Hi. destruct (l.[i]) eqn:E; [|done]. apply aget_Some_range in E. lia.
Qed.

Lemma aget_elem l i v : l.[i] = Some v -> v ∈ l.
Proof.
  intros H. pose proof (aget_Some_range _ _ _ H). rewrite aget_lookup in H by lia.
  by eapply list_elem_of_lookup_2.
Qed.

Lemma elem_aget l v : v ∈ l -> exists i, l.[i] = Some v.
Proof. intros [n Hn]%list_elem_of_lookup. exists (Z.of_nat n). by rewrite aget_nat. Qed.

Lemma aget_app_l l1 l2 i : i < zlen l1 -> (l1 ++ l2).[i] = l1.[i].
Proof.
  intros. unfold aget, zlen in *. destruct (Z.ltb_spec i 0); [done|].
  apply lookup_app_l. lia.
Qed.

Lemma aget_app_r l1 l2 i : zlen l1 <= i -> (l1 ++ l2).[i] = l2.[i - zlen l1].
Proof.
  intros. unfold aget, zlen in *. destruct (Z.ltb_spec i 0); [lia|].
  destruct (Z.ltb_spec (i - Z.of_nat (length l1)) 0); [lia|].
  rewrite lookup_app_r by lia. f_equal. lia.
Qed.

Lemma aget_cons_0 v l : (v :: l).[0] = Some v.
Proof. reflexivity. Qed.

Lemma aget_cons_S v l i : 0 < i -> (v :: l).[i] = l.[i - 1].
Proof.
  intros. change (v :: l) with ([v] ++ l). rewrite aget_app_r; unfold zlen; simpl; [done|lia].
Qed.

Lemma aget_middle l1 v l2 : (l1 ++ v :: l2).[zlen l1] = Some v.
Proof. rewrite aget_app_r by lia. by rewrite Z.sub_diag. Qed.

Lemma aset_Some l i v : 0 <= i < zlen l -> aset l i v = Some (<[Z.to_nat i := v]> l).
Proof.
  intros. unfold aset. destruct (Z.ltb_spec i 0); [lia|].
  destruct (Z.leb_spec (zlen l) i); [lia|]. done.
Qed.

Lemma aset_inv l i v l' : aset l i v = Some l' -> 0 <= i < zlen l /\ l' = <[Z.to_nat i := v]> l.
Proof.
  unfold aset. destruct (Z.ltb_spec i 0); [done|].
  destruct (Z.leb_spec (zlen l) i); simpl; [done|]. intros [= <-]. split; [lia|done].
Qed.

Lemma aset_zlen l i v l' : aset l i v = Some l' -> zlen l' = zlen l.
Proof. intros [_ ->]%aset_inv. unfold zlen. by rewrite length_insert. Qed.

Lemma aget_aset_eq l i v l' : aset l i v = Some l' -> l'.[i] = Some v.
Proof.
  intros [Hi ->]%aset_inv. rewrite aget_lookup by lia.
  apply list_lookup_insert_eq. unfold zlen in Hi. lia.
Qed.

Lemma aget_aset_ne l i j v l' : aset l i v = Some l' -> i <> j -> l'.[j] = l.[j].
Proof.
  intros [Hi ->]%aset_inv Hne. unfold aget. destruct (Z.ltb_spec j 0); [done|].
  apply list_lookup_insert_ne. lia.
Qed.

Lemma aset_middle l1 l2 v v' : aset (l1 ++ v :: l2) (zlen l1) v' = Some (l1 ++ v' :: l2).
Proof.
  rewrite aset_Some.
  - f_equal. unfold zlen. rewrite Nat2Z.id. rewrite insert_app_r_alt by lia.
    by rewrite Nat.sub_diag.
  - rewrite zlen_app, zlen_cons. pose proof (zlen_nonneg l1). pose proof (zlen_nonneg l2). lia.
Qed.

Lemma zlen_aresize d l n : 0 <= n -> zlen (aresize d l n) = n.
Proof.
  intros. unfold zlen, aresize. rewrite length_app, length_take, length_replicate. lia.
Qed.

Lemma list_eq_aget l1 l2 :
  zlen l1 = zlen l2 -> (forall i, 0 <= i < zlen l1 -> l1.[i] = l2.[i]) -> l1 = l2.
Proof.
  intros Hlen H. apply list_eq_same_length with (length l1); [unfold zlen in *; lia|done|].
  intros n x y Hn Hx Hy. specialize (H (Z.of_nat n)). rewrite !aget_nat, Hx, Hy in H.
  unfold zlen in H. specialize (H ltac:(lia)). congruence.
Qed.

Lemma zlen_zero_inv l : zlen l = 0 -> l = [].
Proof. destruct l; [done|]. rewrite zlen_cons. pose proof (zlen_nonneg l). lia. Qed.

Lemma aget_split l i v :
  l.[i] = Some v -> exists l1 l2, l = l1 ++ v :: l2 /\ zlen l1 = i.
Proof.
  intros H. pose proof (aget_Some_range _ _ _ H) as Hr. rewrite aget_lookup in H by lia.
  exists (take (Z.to_nat i) l), (drop (S (Z.to_nat i)) l). split.
  - symmetry. by apply take_drop_middle.
  - unfold zlen in *. rewrite length_take. lia.
Qed.

End Arrays.

Create Rewrite HintDb zlen.
#[export] Hint Rewrite @zlen_app @zlen_cons @zlen_nil : zlen.

Lemma zlen_map {A B} (f : A -> B) l : zlen (f <$> l) = zlen l.
Proof. unfold zlen. by rewrite length_fmap. Qed.

Lemma aget_map {A B} (f : A -> B) (l : list A) i : (f <$> l).[i] = f <$> l.[i].
Proof. unfold aget. destruct (Z.ltb_spec i 0); [done|]. apply list_lookup_fmap. Qed.

Lemma zlen_seqZ m n : 0 <= n -> zlen (seqZ m n) = n.
Proof. intros. unfold zlen. rewrite length_seqZ. lia. Qed.

Lemma aget_seqZ m n i : 0 <= i < n -> (seqZ m n).[i] = Some (m + i).
Proof.
  intros. rewrite aget_lookup by lia. apply lookup_seqZ. lia.
Qed.

(** ** Lemmas on loops *)

Lemma foldM_app {A S} (f : A -> S -> option S) xs ys s :
  foldM f (xs ++ ys) s = (let? s' := foldM f xs s in foldM f ys s').
Proof.
  revert s; induction xs as [|x xs IH]; intros s; simpl; [done|].
  destruct (f x s); simpl; [apply IH|done].
Qed.

Lemma for_loop_nil {S} lo hi (body : Z -> S -> option S) s : hi <= lo -> for_loop lo hi body s = Some s.
Proof. intros. unfold for_loop. by rewrite seqZ_nil by lia. Qed.

Lemma for_loop_cons {S} lo hi (body : Z -> S -> option S) s :
  lo < hi -> for_loop lo hi body s = (let? s' := body lo s in for_loop (lo + 1) hi body s').
Proof.
  intros. unfold for_loop. rewrite seqZ_cons by lia. simpl.
  replace (Z.succ lo) with (lo + 1) by lia.
  by replace (Z.pred (hi - lo)) with (hi - (lo + 1)) by lia.
Qed.

(** Invariant rule: [I i s] holds on entry of iteration [i]; every iteration succeeds. *)
Lemma for_loop_inv {S} (I : Z -> S -> Prop) lo hi (body : Z -> S -> option S) s :
  lo <= hi -> I lo s ->
  (forall i t, lo <= i < hi -> I i t -> exists t', body i t = Some t' /\ I (i + 1) t') ->
  exists t, for_loop lo hi body s = Some t /\ I hi t.
Proof.
  intros Hle. remember (Z.to_nat (hi - lo)) as n eqn:Hn.
  revert lo s Hle Hn. induction n as [|n IH]; intros lo s Hle Hn HI Hstep.
  - assert (lo = hi) as <- by lia. exists s. by rewrite for_loop_nil by lia.
  - destruct (Hstep lo s) as (t & Ht & HIt); [lia|done|].
    destruct (IH (lo + 1) t) as (u & Hu & HIu); [lia|lia|done| |].
    + intros i v Hi. apply Hstep. lia.
    + exists u. rewrite for_loop_cons by lia. rewrite Ht. simpl. done.
Qed.

Lemma mapM_range_Some {A} lo hi (f : Z -> option A) (g : Z -> A) :
  (forall i, lo <= i < hi -> f i = Some (g i)) ->
  mapM_range lo hi f = Some (g <$> seqZ lo (hi - lo)).
Proof.
  intros H. unfold mapM_range. apply mapM_Some_2.
  apply Forall2_fmap_r. apply Forall_Forall2_diag. apply Forall_forall.
  intros i Hi%elem_of_seqZ. apply H. lia.
Qed.

(** ** Scans *)

Lemma exclusive_scan_with_length add acc l : length (exclusive_scan_with add acc l) = length l.
Proof. revert acc; induction l as [|x l IH]; intros; simpl; [done|]. by rewrite IH. Qed.

Lemma exclusive_scan_length acc l : length (exclusive_scan acc l) = length l.
Proof. apply exclusive_scan_with_length. Qed.

Lemma zsum_app l1 l2 : zsum (l1 ++ l2) = zsum l1 + zsum l2.
Proof. induction l1 as [|x l1 IH]; simpl in *; lia. Qed.

Lemma zsum_cons x l : zsum (x :: l) = x + zsum l.
Proof. done. Qed.

Lemma exclusive_scan_lookup acc l (n : nat) :
  (n < length l)%nat -> exclusive_scan acc l !! n = Some (acc + zsum (take n l)).
Proof.
  revert acc n; induction l as [|x l IH]; intros acc [|n] Hn; simpl in *; [lia|lia| |].
  - f_equal; lia.
  - unfold exclusive_scan in *; simpl. rewrite IH by lia. f_equal; lia.
Qed.

Lemma exclusive_scan_app acc l1 l2 :
  exclusive_scan acc (l1 ++ l2) = exclusive_scan acc l1 ++ exclusive_scan (acc + zsum l1) l2.
Proof.
  unfold exclusive_scan. revert acc; induction l1 as [|x l1 IH]; intros acc; simpl.
  - f_equal; lia.
  - rewrite IH. do 3 f_equal. lia.
Qed.

Lemma zsum_bounds l M : Forall (fun x => 0 <= x <= M) l -> 0 <= zsum l <= zlen l * M.
Proof. induction 1 as [|x l Hx _ IH]; simpl; autorewrite with zlen; [done|]. lia. Qed.

Lemma zsum_elem_le l x : Forall (fun x => 0 <= x) l -> x ∈ l -> x <= zsum l.
Proof.
  intros H Hx. revert H. induction Hx as [x l|x y l _ IH]; intros [Hy Hl]%Forall_cons; simpl.
  - assert (0 <= zsum l); [|lia]. clear -Hl. induction Hl; simpl; lia.
  - specialize (IH Hl). lia.
Qed.

(** Total array read, for statements about indices that are in range. *)
Definition nthz (l : list Z) (i : Z) : Z := default 0 (l.[i]).

Lemma nthz_get l i : 0 <= i < zlen l -> l.[i] = Some (nthz l i).
Proof. intros Hi. destruct (aget_is_Some l i Hi) as [v Hv]. unfold nthz. by rewrite Hv. Qed.

Lemma nthz_Some l i v : l.[i] = Some v -> nthz l i = v.
Proof. intros H. unfold nthz. by rewrite H. Qed.

(** Sum of the first [i] elements. *)
Definition prefixSum (l : list Z) (i : Z) : Z := zsum (take (Z.to_nat i) l).

Lemma prefixSum_0 l : prefixSum l 0 = 0.
Proof. unfold prefixSum. by rewrite take_0. Qed.

Lemma prefixSum_succ l i v : l.[i] = Some v -> prefixSum l (i + 1) = prefixSum l i + v.
Proof.
  intros H. pose proof (aget_Some_range _ _ _ H) as Hr. rewrite aget_lookup in H by lia.
  unfold prefixSum. replace (Z.to_nat (i + 1)) with (S (Z.to_nat i)) by lia.
  rewrite (take_S_r _ _ _ H), zsum_app. simpl. lia.
Qed.

Lemma prefixSum_all l : prefixSum l (zlen l) = zsum l.
Proof. unfold prefixSum, zlen. by rewrite Nat2Z.id, firstn_all. Qed.

Lemma prefixSum_nonneg l i : Forall (fun v => 0 <= v) l -> 0 <= prefixSum l i.
Proof.
  unfold prefixSum. intros H%(Forall_take _ (Z.to_nat i)).
  induction H as [|v l' Hv _ IH]; simpl; lia.
Qed.

Lemma prefixSum_mono l i j : Forall (fun v => 0 <= v) l -> 0 <= i <= j -> prefixSum l i <= prefixSum l j.
Proof.
  intros H Hij. unfold prefixSum. rewrite <- (take_drop (Z.to_nat i) (take (Z.to_nat j) l)).
  rewrite take_take, Nat.min_l, zsum_app by lia.
  assert (0 <= zsum (drop (Z.to_nat i) (take (Z.to_nat j) l))); [|lia].
  apply (Forall_take _ (Z.to_nat j)), (Forall_drop _ (Z.to_nat i)) in H.
  induction H as [|v l' Hv _ IH]; simpl; lia.
Qed.

Lemma exclusive_scan_get acc l i : 0 <= i < zlen l -> (exclusive_scan acc l).[i] = Some (acc + prefixSum l i).
Proof.
  intros Hi. rewrite aget_lookup by lia. apply exclusive_scan_lookup. unfold zlen in Hi. lia.
Qed.

Lemma prefixSum_app_l l1 l2 i : i <= zlen l1 -> prefixSum (l1 ++ l2) i = prefixSum l1 i.
Proof.
  intros Hi. unfold prefixSum, zlen in *. rewrite take_app_le by lia. done.
Qed.

(** ** Automation *)

Create HintDb cstone discriminated.
#[export] Hint Resolve zlen_nonneg : cstone.

(** Turn boolean comparisons of the code into propositions. *)
Ltac zbool :=
  repeat match goal with
  | H : (_ <? _) = true |- _ => apply Z.ltb_lt in H
  | H : (_ <? _) = false |- _ => apply Z.ltb_ge in H
  | H : (_ <=? _) = true |- _ => apply Z.leb_le in H
  | H : (_ <=? _) = false |- _ => apply Z.leb_gt in H
  | H : (_ =? _) = true |- _ => apply Z.eqb_eq in H
  | H : (_ =? _) = false |- _ => apply Z.eqb_neq in H
  | H : (_ && _) = true |- _ => apply andb_true_iff in H as [? ?]
  | H : (_ || _) = false |- _ => apply orb_false_iff in H as [? ?]
  | H : negb _ = true |- _ => apply negb_true_iff in H
  | H : negb _ = false |- _ => apply negb_false_iff in H
  end.

(** Case split on the first comparison that the goal branches on. *)
Ltac zcase :=
  match goal with
  | |- context [if ?b then _ else _] => let E := fresh "Hc" in destruct b eqn:E; zbool
  end.

(** Split a hypothesis [(let? x := e in k) = Some _]. *)
Ltac bind_inv H :=
  let x := fresh "r" in let E := fresh "Hr" in
  match type of H with
  | match ?e with Some _ => _ | None => None end = Some _ =>
      destruct e as [x|] eqn:E; simpl in H; [|discriminate H]
  end.

(** ** Loops that fill a block of an array *)

Lemma foldM_ext {A S} (f g : A -> S -> option S) xs s :
  (forall x t, x ∈ xs -> f x t = g x t) -> foldM f xs s = foldM g xs s.
Proof.
  revert s; induction xs as [|x xs IH]; intros s H; simpl; [done|].
  rewrite H by set_solver. destruct (g x s); simpl; [|done]. apply IH. set_solver.
Qed.

Lemma for_loop_ext {S} lo hi (f g : Z -> S -> option S) s :
  (forall i t, lo <= i < hi -> f i t = g i t) -> for_loop lo hi f s = for_loop lo hi g s.
Proof. intros H. apply foldM_ext. intros i t Hi%elem_of_seqZ. apply H. lia. Qed.

(** Writing [g lo], [g (lo+1)], ... to consecutive cells replaces the block [mid]. *)
Lemma write_loop_block {A} (g : Z -> A) (f : Z -> option A) off lo n pre mid post :
  zlen mid = n -> zlen pre = off + lo ->
  (forall i, lo <= i < lo + n -> f i = Some (g i)) ->
  for_loop lo (lo + n) (fun i dst => let? v := f i in aset dst (off + i) v)
    (pre ++ mid ++ post) = Some (pre ++ (g <$> seqZ lo n) ++ post).
Proof.
  revert lo n pre. induction mid as [|x mid IH]; intros lo n pre Hn Hoff Hf.
  - rewrite zlen_nil in Hn. subst n. by rewrite for_loop_nil by lia.
  - rewrite zlen_cons in Hn. pose proof (zlen_nonneg mid).
    rewrite for_loop_cons by lia. rewrite (Hf lo) by lia. simpl.
    rewrite <- Hoff, aset_middle. simpl. rewrite seqZ_cons by lia. simpl.
    rewrite (cons_middle (g lo)), (app_assoc pre).
    specialize (IH (lo + 1) (n - 1) (pre ++ [g lo])).
    replace (lo + n) with (lo + 1 + (n - 1)) by lia. rewrite IH.
    + rewrite <- app_assoc. simpl.
      replace (Z.succ lo) with (lo + 1) by lia. by replace (Z.pred n) with (n - 1) by lia.
    + lia.
    + autorewrite with zlen. lia.
    + intros; apply Hf; lia.
Qed.

(** Writes of [g j] to the cells [j = off + i] for [i] in [order], in any order. *)
Lemma foldM_writes {A} (body : Z -> list A -> option (list A)) (g : Z -> A) off n order st :
  zlen st = n ->
  (forall i, i ∈ order -> 0 <= off + i < n) ->
  (forall i st, i ∈ order -> zlen st = n -> body i st = aset st (off + i) (g (off + i))) ->
  exists st', foldM body order st = Some st' /\ zlen st' = n /\
    (forall j, j - off ∈ order -> st'.[j] = Some (g j)) /\
    (forall j, j - off ∉ order -> st'.[j] = st.[j]).
Proof.
  revert st. induction order as [|i order IH]; intros st Hlen Hr Hb; simpl.
  { exists st. repeat split; [done|]. intros j Hj. by apply not_elem_of_nil in Hj. }
  assert (Hi : 0 <= off + i < zlen st) by (rewrite Hlen; apply Hr; by left).
  rewrite Hb by (done || by left). assert (Hset := aset_Some st (off + i) (g (off + i)) Hi). rewrite Hset.
  destruct (IH (<[Z.to_nat (off + i) := g (off + i)]> st)) as (st' & Hf & Hl & Hin & Hout).
  - by rewrite (aset_zlen _ _ _ _ Hset).
  - intros i' Hi'. apply Hr. by right.
  - intros i' st1 Hi'. apply Hb. by right.
  - exists st'. split; [done|]. split; [done|]. split.
    + intros j Hj. destruct (decide (j - off ∈ order)) as [|Hno]; [by apply Hin|].
      assert (j = off + i) as -> by (apply elem_of_cons in Hj as [|]; [lia|done]).
      rewrite Hout by done. by eapply aget_aset_eq.
    + intros j Hj. rewrite Hout by (intros Hj'; apply Hj; by right). eapply aget_aset_ne; [done|]. intros <-; apply Hj; rewrite Z.add_simpl_l; by left.
Qed.

Lemma for_loop_shift {S} d lo hi (body : Z -> S -> option S) s :
  for_loop (lo + d) (hi + d) body s = for_loop lo hi (fun i => body (i + d)) s.
Proof.
  unfold for_loop. replace (hi + d - (lo + d)) with (hi - lo) by lia.
  rewrite (Z.add_comm lo d), <- (fmap_add_seqZ d lo (hi - lo)). generalize (seqZ lo (hi - lo)). intros l. revert s.
  induction l as [|x l IH]; intros s; simpl; [done|]. rewrite Z.add_comm. destruct (body (x + d) s); [apply IH|done].
Qed.

(** A scan at width [w] is the exact one while the sums fit; the last element is not read. *)
Lemma zsum_nonneg l : Forall (fun x => 0 <= x) l -> 0 <= zsum l.
Proof. induction 1; simpl; lia. Qed.

Lemma exclusive_scan_wrap_init w acc l x :
  0 <= acc -> Forall (fun x => 0 <= x) l -> acc + zsum l < 2 ^ w ->
  exclusive_scan_with (fun a b => wrap w (a + b)) acc (l ++ [x]) = exclusive_scan acc (l ++ [x]).
Proof.
  unfold exclusive_scan. revert acc. induction l as [|y l IH]; intros acc Ha Hl Hsum; [done|].
  apply Forall_cons in Hl as [Hy Hl]. rewrite zsum_cons in Hsum. pose proof (zsum_nonneg l Hl). simpl.
  rewrite wrap_small by lia. by rewrite IH by (done || lia).
Qed.

(** Loops that write [g i] to cell [i]. *)
Lemma write_loop_range {A} (body : Z -> list A -> option (list A)) (g : Z -> A) lo hi n st :
  zlen st = n -> 0 <= lo -> hi <= n ->
  (forall i st, lo <= i < hi -> zlen st = n -> body i st = aset st i (g i)) ->
  exists st', for_loop lo hi body st = Some st' /\ zlen st' = n /\
    (forall j, lo <= j < hi -> st'.[j] = Some (g j)) /\ (forall j, ~ (lo <= j < hi) -> st'.[j] = st.[j]).
Proof.
  intros Hz Hlo Hhi Hb. destruct (foldM_writes body g 0 n (seqZ lo (hi - lo)) st Hz) as (st' & E & Hz' & Hin & Hout).
  - intros i Hi%elem_of_seqZ. lia.
  - intros i st1 Hi%elem_of_seqZ Hst. rewrite Z.add_0_l. apply Hb; [lia|done].
  - exists st'. split; [done|]. split; [done|]. split; intros j Hj; [apply Hin|apply Hout]; rewrite Z.sub_0_r, elem_of_seqZ; lia.
Qed.

Lemma write_loop_all {A} (body : Z -> list A -> option (list A)) (g : Z -> A) n st :
  zlen st = n -> (forall i st, 0 <= i < n -> zlen st = n -> body i st = aset st i (g i)) ->
  for_loop 0 n body st = Some (g <$> seqZ 0 n).
Proof.
  intros Hz Hb. pose proof (zlen_nonneg st).
  destruct (write_loop_range body g 0 n n st Hz ltac:(lia) ltac:(lia) Hb) as (st' & -> & Hz' & Hin & _).
  f_equal. apply list_eq_aget; [by rewrite zlen_map, zlen_seqZ by lia|]. intros i Hi.
  by rewrite Hin, aget_map, aget_seqZ by lia.
Qed.

(** ** Loops that append blocks

    [body i] overwrites the block that a scan of the block lengths reserved for it. *)
Definition blocks {A} (outs : Z -> list A) (i : Z) : list A := concat (outs <$> seqZ 0 i).

Lemma blocks_succ {A} (outs : Z -> list A) i : 0 <= i -> blocks outs (i + 1) = blocks outs i ++ outs i.
Proof.
  intros. unfold blocks. rewrite seqZ_app, fmap_app, concat_app by lia. simpl. by rewrite app_nil_r.
Qed.

Lemma blocks_mono {A} (outs : Z -> list A) i j : 0 <= i <= j -> zlen (blocks outs i) <= zlen (blocks outs j).
Proof.
  intros [Hi Hij]. replace j with (i + Z.of_nat (Z.to_nat (j - i))) by lia.
  generalize (Z.to_nat (j - i)). intros w. induction w as [|w IH]; [rewrite Z.add_0_r; lia|].
  replace (i + Z.of_nat (S w)) with (i + Z.of_nat w + 1) by lia.
  rewrite blocks_succ, zlen_app by lia. pose proof (zlen_nonneg (outs (i + Z.of_nat w))). lia.
Qed.

Lemma scatter_blocks {A} (body : Z -> list A -> option (list A)) (outs : Z -> list A) n st rest :
  0 <= n -> 0 <= rest -> zlen st = zlen (blocks outs n) + rest ->
  (forall i pre mid post, 0 <= i < n -> zlen pre = zlen (blocks outs i) -> zlen mid = zlen (outs i) ->
     body i (pre ++ mid ++ post) = Some (pre ++ outs i ++ post)) ->
  exists r, for_loop 0 n body st = Some (blocks outs n ++ r) /\ zlen r = rest.
Proof.
  intros Hn Hrest Hlen Hbody.
  destruct (for_loop_inv (fun i t => exists r, t = blocks outs i ++ r /\
    zlen r = zlen (blocks outs n) + rest - zlen (blocks outs i)) 0 n body st) as (t & Hrun & r & -> & Hr).
  - done.
  - exists st. split; [done|]. change (zlen (blocks outs 0)) with 0. lia.
  - intros i t Hi (r & -> & Hr). pose proof (blocks_mono outs (i + 1) n ltac:(lia)) as Hle.
    rewrite blocks_succ, zlen_app in Hle by lia. pose proof (zlen_nonneg (outs i)).
    exists (blocks outs (i + 1) ++ drop (length (outs i)) r). split.
    + rewrite <- (take_drop (length (outs i)) r) at 1. rewrite Hbody.
      * rewrite blocks_succ by lia. by rewrite <- app_assoc.
      * done.
      * done.
      * unfold zlen in *. rewrite length_take. lia.
    + eexists. split; [done|]. rewrite blocks_succ, zlen_app by lia. unfold zlen in *. rewrite length_drop. lia.
  - exists r. split; [done|lia].
Qed.

Lemma fmap_concat {A B} (f : A -> B) (ls : list (list A)) : f <$> concat ls = concat ((fun l : list A => f <$> l) <$> ls).
Proof. induction ls as [|l ls IH]; [done|]. cbn [concat fmap list_fmap]. rewrite fmap_app. by f_equal. Qed.

(** An index into concatenated blocks lies in one of them. *)
Lemma blocks_index {A} (outs : Z -> list A) (n : nat) j :
  0 <= j < zlen (blocks outs (Z.of_nat n)) ->
  exists c, 0 <= c < Z.of_nat n /\ zlen (blocks outs c) <= j < zlen (blocks outs (c + 1)) /\
    (blocks outs (Z.of_nat n)).[j] = (outs c).[j - zlen (blocks outs c)].
Proof.
  induction n as [|n IH]; intros Hj; [change (zlen (blocks outs (Z.of_nat 0))) with 0 in Hj; lia|].
  replace (Z.of_nat (S n)) with (Z.of_nat n + 1) in * by lia. pose proof Hj as Hj'. rewrite blocks_succ, zlen_app in Hj by lia.
  destruct (Z.lt_ge_cases j (zlen (blocks outs (Z.of_nat n)))) as [Hlt|Hge].
  - destruct IH as (c & Hc & Hr & E); [lia|]. exists c. split; [lia|]. split; [done|].
    rewrite blocks_succ by lia. by rewrite aget_app_l by lia.
  - exists (Z.of_nat n). split; [lia|]. split; [lia|]. rewrite blocks_succ by lia. by rewrite aget_app_r by lia.
Qed.

Lemma blocks_get {A} (outs : Z -> list A) n c j :
  0 <= c < n -> 0 <= j < zlen (outs c) -> (blocks outs n).[zlen (blocks outs c) + j] = (outs c).[j].
Proof.
  intros Hc Hj. replace n with ((c + 1) + (n - (c + 1))) by lia. unfold blocks at 1.
  rewrite seqZ_app, fmap_app, concat_app by lia. fold (blocks outs (c + 1)).
  rewrite blocks_succ by lia. rewrite aget_app_l by (rewrite zlen_app; lia). rewrite aget_app_r by lia.
  f_equal. lia.
Qed.

Lemma elem_of_concat {A} (x : A) (ls : list (list A)) : x ∈ concat ls <-> exists l, l ∈ ls /\ x ∈ l.
Proof.
  induction ls as [|l ls IH]; simpl.
  - split; [intros H; by apply not_elem_of_nil in H|intros (l & H & _); by apply not_elem_of_nil in H].
  - rewrite elem_of_app, IH. split.
    + intros [H|(l' & Hl' & H)]; [exists l; split; [by left|done]|exists l'; split; [by right|done]].
    + intros (l' & [->|Hl']%elem_of_cons & H); [by left|right; by exists l'].
Qed.

Lemma elem_of_blocks_range {A} (outs : Z -> list A) lo n x :
  x ∈ concat (outs <$> seqZ lo n) <-> exists c, lo <= c < lo + n /\ x ∈ outs c.
Proof.
  rewrite elem_of_concat. split.
  - intros (l & (c & -> & Hc%elem_of_seqZ)%list_elem_of_fmap & Hx). exists c. split; [lia|done].
  - intros (c & Hc & Hx). exists (outs c). split; [|done]. apply list_elem_of_fmap. exists c. split; [done|].
    apply elem_of_seqZ. lia.
Qed.

Lemma elem_of_blocks {A} (outs : Z -> list A) n x : x ∈ blocks outs n <-> exists c, 0 <= c < n /\ x ∈ outs c.
Proof. unfold blocks. by rewrite elem_of_blocks_range. Qed.

(** ** Parts of a list *)

(** The elements [a .. b - 1]. *)
Definition slice {A} (l : list A) (a b : Z) : list A := take (Z.to_nat (b - a)) (drop (Z.to_nat a) l).

Lemma slice_empty {A} (l : list A) a : slice l a a = [].
Proof. unfold slice. by rewrite Z.sub_diag. Qed.

Lemma slice_snoc {A} (l : list A) a i v : 0 <= a <= i -> l.[i] = Some v -> slice l a (i + 1) = slice l a i ++ [v].
Proof.
  intros Ha Hi. unfold slice. replace (Z.to_nat (i + 1 - a)) with (S (Z.to_nat (i - a))) by lia. apply take_S_r.
  rewrite lookup_drop. rewrite aget_lookup in Hi by lia. rewrite <- Hi. f_equal. lia.
Qed.

Lemma slice_app {A} (l : list A) a b c : 0 <= a <= b -> b <= c -> slice l a c = slice l a b ++ slice l b c.
Proof.
  intros Ha Hb. unfold slice. replace (Z.to_nat (c - a)) with (Z.to_nat (b - a) + Z.to_nat (c - b))%nat by lia.
  rewrite <- take_take_drop, drop_drop. do 3 f_equal. lia.
Qed.

Lemma slice_zlen {A} (l : list A) a b : 0 <= a <= b -> b <= zlen l -> zlen (slice l a b) = b - a.
Proof. intros Ha Hb. unfold slice, zlen in *. rewrite length_take, length_drop. lia. Qed.

(** ** Loops over mapped lists *)

Lemma foldM_fmap {A B S} (f : B -> S -> option S) (g : A -> B) l s : foldM f (g <$> l) s = foldM (fun a => f (g a)) l s.
Proof. revert s. induction l as [|a l IH]; intros s; [done|]. cbn [foldM fmap list_fmap]. destruct (f (g a) s); [apply IH|done]. Qed.

Lemma nthz_seqZ l : nthz l <$> seqZ 0 (zlen l) = l.
Proof.
  apply list_eq. intros i. rewrite list_lookup_fmap. destruct (decide (i < length l)%nat) as [Hi|Hi].
  - destruct (lookup_lt_is_Some_2 l i Hi) as [x Hx]. rewrite Hx. rewrite (proj2 (lookup_seqZ 0 (zlen l) i (Z.of_nat i))) by (unfold zlen; lia). cbn. f_equal.
    apply nthz_Some. rewrite aget_lookup by lia. by rewrite Nat2Z.id.
  - rewrite (lookup_ge_None_2 l i) by lia. rewrite (lookup_ge_None_2 (seqZ 0 (zlen l)) i); [done|]. rewrite length_seqZ. unfold zlen. lia.
Qed.

Lemma for_loop_list {A S} (l : list A) (f : Z -> S -> option S) (g : A -> S -> option S) st :
  (forall n v st, l.[n] = Some v -> f n st = g v st) -> for_loop 0 (zlen l) f st = foldM g l st.
Proof.
  unfold for_loop. rewrite Z.sub_0_r. revert f st. induction l as [|a l IH]; intros f st H; [done|]. rewrite zlen_cons. pose proof (zlen_nonneg l).
  rewrite seqZ_cons by lia. cbn [foldM]. rewrite (H 0 a st) by done. destruct (g a st) as [st1|]; [|done].
  rewrite <- (IH (fun n => f (n + 1)) st1).
  - rewrite <- (foldM_fmap f (fun n => n + 1)). f_equal. replace (Z.pred (1 + zlen l)) with (zlen l) by lia. change (Z.succ 0) with (1 + 0).
    rewrite <- (fmap_add_seqZ 1 0 (zlen l)). apply list_fmap_ext. intros _ n _. lia.
  - intros n v st2 Hv. apply H. pose proof (aget_Some_range _ _ _ Hv). rewrite aget_lookup in Hv |- * by lia. replace (Z.to_nat (n + 1)) with (Datatypes.S (Z.to_nat n)) by lia. exact Hv.
Qed.

Lemma foldM_filter {A S} (P : A -> bool) (f : A -> S -> option S) l st :
  foldM (fun a st => if P a then f a st else Some st) l st = foldM f (filter (fun a => P a = true) l) st.
Proof.
  revert st. induction l as [|a l IH]; intros st; [done|]. cbn [foldM]. rewrite filter_cons. destruct (P a).
  - rewrite decide_True by done. cbn [foldM]. destruct (f a st); [apply IH|done].
  - rewrite decide_False by done. apply IH.
Qed.

Lemma filter_ext_elem {A} (P Q : A -> Prop) `{!forall x, Decision (P x), !forall x, Decision (Q x)} (l : list A) : (forall x, x ∈ l -> P x <-> Q x) -> filter P l = filter Q l.
Proof.
  induction l as [|a l IH]; intros Hl; [done|]. rewrite !filter_cons, IH by (intros x Hx; apply Hl; by right). pose proof (Hl a ltac:(by left)). destruct (decide (P a)), (decide (Q a)); tauto || done.
Qed.

Lemma slice_fmap {A B} (f : A -> B) (l : list A) a b : slice (f <$> l) a b = f <$> slice l a b.
Proof. unfold slice. by rewrite <- fmap_drop, <- fmap_take. Qed.
