(* ===== verification/Primitives.v ===== *)
(** * Device-compatible primitives

    [cstone/primitives/stl.hpp], [clz.hpp], [math.hpp] and [gather.hpp]: minimum,
    maximum and absolute value, the two binary searches, leading and trailing zero
    counts with their De Bruijn fallbacks, integer rounding, and the gather, scatter
    and key-sort routines that the tree code is built from. *)

From S2P Require Import Prelude.

(** ** stl.hpp *)

(** [stl::min] and [stl::max] return the first argument on a tie. *)
Definition stl_min (a b : Z) : Z := if b <? a then b else a.
Definition stl_max (a b : Z) : Z := if a <? b then b else a.

(** Host branch of [stl::abs] on a [w]-bit signed integer. *)
Definition stl_abs (w a : Z) : Z :=
  let mask := Z.shiftr a (w - 1) in
  swrap w (Z.lxor a mask - mask).

(** The loop that [stl::lower_bound] and [stl::upper_bound] share; [right x] is the
    test that sends the search to the right of an element [x]. *)
Fixpoint bound_loop (fuel : nat) (right : Z -> bool) (l : list Z) (first count : Z) : option Z :=
  match fuel with
  | O => None
  | S fuel =>
      if 0 <? count then
        let step := count / 2 in
        let it := first + step in
        let? x := l.[it] in
        if right x then bound_loop fuel right l (it + 1) (count - (step + 1))
        else bound_loop fuel right l first step
      else Some first
  end.

Definition bound_search (right : Z -> bool) (l : list Z) (first last : Z) : option Z :=
  bound_loop (S (Z.to_nat (last - first))) right l first (last - first).

(** Iterators are indices into [l]; the search range is [first, last). *)
Definition lower_bound (l : list Z) (first last value : Z) : option Z :=
  bound_search (fun x => x <? value) l first last.

Definition upper_bound (l : list Z) (first last value : Z) : option Z :=
  bound_search (fun x => negb (value <? x)) l first last.

(** ** clz.hpp *)

Definition debruijn32 : list Z :=
  [0; 31; 9; 30; 3; 8; 13; 29; 2; 5; 7; 21; 12; 24; 28; 19;
   1; 10; 4; 14; 6; 22; 25; 20; 11; 15; 23; 26; 16; 27; 17; 18].

Definition debruijn64 : list Z :=
  [0; 47; 1; 56; 48; 27; 2; 60; 57; 49; 41; 37; 28; 16; 3; 61;
   54; 58; 35; 52; 50; 42; 21; 44; 38; 32; 29; 23; 17; 11; 4; 62;
   46; 55; 26; 59; 40; 36; 15; 53; 34; 51; 20; 43; 31; 22; 10; 45;
   25; 39; 14; 33; 19; 30; 9; 24; 13; 18; 8; 12; 7; 6; 5; 63].

(** [x |= x >> s]. *)
Definition smear (s x : Z) : Z := Z.lor x (Z.shiftr x s).

Definition clz32 (x : Z) : option Z :=
  let x := smear 16 (smear 8 (smear 4 (smear 2 (smear 1 x)))) in
  let x := u32 (x + 1) in
  debruijn32.[Z.shiftr (u32 (x * 0x076be629)) 27].

Definition clz64 (x : Z) : option Z :=
  let x := smear 32 (smear 16 (smear 8 (smear 4 (smear 2 (smear 1 x))))) in
  let? d := debruijn64.[Z.shiftr (u64 (x * 0x03f79d71b4cb0a89)) 58] in
  Some (63 - d).

(** [__builtin_clz] on a non-zero [w]-bit integer: zeros above the leading one. *)
Definition builtin_clz (w x : Z) : Z := w - 1 - Z.log2 x.

(** The branch taken with GCC and clang, for both widths. *)
Definition countLeadingZeros (w x : Z) : Z := if x =? 0 then w else builtin_clz w x.

(** The portable branch (neither CUDA nor GCC nor clang). *)
Definition countLeadingZeros32_portable (x : Z) : option Z :=
  if x =? 0 then Some (8 * 8) else clz32 x.

Definition countLeadingZeros64_portable (x : Z) : option Z :=
  if x =? 0 then Some (8 * 8) else clz64 x.

(** [__builtin_ctz] on a non-zero integer: zeros below the lowest one. *)
Fixpoint pos_trailing (p : positive) : Z :=
  match p with
  | xO p => Z.succ (pos_trailing p)
  | _ => 0
  end.

Definition countTrailingZeros (x : Z) : Z :=
  match x with
  | Zpos p => pos_trailing p
  | _ => 0
  end.

(** ** math.hpp *)

Definition iceil (dividend divisor : Z) : Z := u64 (u64 (dividend + divisor) - 1) / divisor.
Definition round_up (n m : Z) : Z := u64 ((u64 (u64 (n + m) - 1) / m) * m).
Definition butterfly (i : Z) : Z := if i =? 0 then 0 else u32 (1 + countTrailingZeros i).

(** ** gather.hpp *)

(** [destination[i] = source[ordering[i]]]. *)
Definition gather {A} (ordering : list Z) (source destination : list A) : option (list A) :=
  for_loop 0 (zlen ordering) (fun i dst =>
    let? o := ordering.[i] in
    let? v := source.[o] in
    aset dst i v) destination.

(** [destination[ordering[i]] = source[i]]. *)
Definition scatter {A} (ordering : list Z) (source destination : list A) : option (list A) :=
  for_loop 0 (zlen ordering) (fun i dst =>
    let? o := ordering.[i] in
    let? v := source.[i] in
    aset dst o v) destination.

(** [dst[smap[i]] = src[gmap[i]]]. *)
Definition gatherScatter {A} (gmap smap : list Z) (src dst : list A) : option (list A) :=
  for_loop 0 (zlen gmap) (fun i dst =>
    let? s := smap.[i] in
    let? g := gmap.[i] in
    let? v := src.[g] in
    aset dst s v) dst.

(** [omp_copy]: [out[i] = first[i]] for the whole input. *)
Definition omp_copy {A} (input out : list A) : option (list A) :=
  for_loop 0 (zlen input) (fun i out => let? v := input.[i] in aset out i v) out.

(** [std::stable_sort] of key/value pairs by the first component. *)
Fixpoint stable_insert (p : Z * Z) (l : list (Z * Z)) : list (Z * Z) :=
  match l with
  | [] => [p]
  | q :: l => if fst q <? fst p then q :: stable_insert p l else p :: q :: l
  end.

Fixpoint stable_sort (l : list (Z * Z)) : list (Z * Z) :=
  match l with
  | [] => []
  | p :: l => stable_insert p (stable_sort l)
  end.

(** Keys and values are zipped, sorted by key, and written back. *)
Definition sort_by_key (keys values : list Z) : option (list Z * list Z) :=
  if zlen values <? zlen keys then None
  else
    let n := length keys in
    let sorted := stable_sort (zip keys values) in
    Some (fst <$> sorted, (snd <$> sorted) ++ drop n values).

(** ** Minimum, maximum, absolute value *)

Lemma stl_min_min a b : stl_min a b = Z.min a b.
Proof. unfold stl_min. zcase; lia. Qed.

Lemma stl_max_max a b : stl_max a b = Z.max a b.
Proof. unfold stl_max. zcase; lia. Qed.

(** The bit trick computes the absolute value of every [w]-bit integer except the
    smallest one, which has no positive counterpart and is returned unchanged. *)
Lemma stl_abs_spec w a :
  1 < w -> - 2 ^ (w - 1) <= a < 2 ^ (w - 1) ->
  stl_abs w a = if a =? - 2 ^ (w - 1) then a else Z.abs a.
Proof.
  intros Hw Ha. unfold stl_abs. rewrite Z.shiftr_div_pow2 by lia.
  assert (0 < 2 ^ (w - 1)) by (apply Z.pow_pos_nonneg; lia).
  destruct (Z.ltb_spec a 0) as [Hneg|Hpos].
  - assert (a / 2 ^ (w - 1) = -1) as -> by (symmetry; apply Z.div_unique with (a + 2 ^ (w - 1)); lia).
    rewrite Z.lxor_m1_r. unfold Z.lnot. zcase.
    + subst a. unfold swrap. assert (2 ^ w = 2 * 2 ^ (w - 1)) as ->.
      { rewrite <- Z.pow_succ_r by lia. f_equal; lia. }
      replace (Z.pred (- - 2 ^ (w - 1)) - -1 + 2 ^ (w - 1)) with (2 * 2 ^ (w - 1)) by lia.
      rewrite Z.mod_same by lia. lia.
    + rewrite swrap_small by lia. lia.
  - rewrite Z.div_small by lia. rewrite Z.lxor_0_r, Z.sub_0_r, swrap_small by lia.
    zcase; lia.
Qed.

(** ** Binary search *)

(** [m] is the partition point of [right] in [l[first, last)]. *)
Definition partition_point (right : Z -> bool) (l : list Z) (first last m : Z) : Prop :=
  first <= m <= last /\
  (forall i x, first <= i < m -> l.[i] = Some x -> right x = true) /\
  (forall i x, m <= i < last -> l.[i] = Some x -> right x = false).

Lemma bound_loop_correct fuel right l first count m :
  0 <= first -> (0 <= count < Z.of_nat fuel) -> first + count <= zlen l ->
  partition_point right l first (first + count) m ->
  bound_loop fuel right l first count = Some m.
Proof.
  revert first count. induction fuel as [|fuel IH]; intros first count Hf Hc Hl Hp; [lia|].
  simpl. destruct Hp as (Hm & Hlo & Hhi). zcase; [|f_equal; lia].
  assert (0 <= count / 2 < count) by (split; [apply Z.div_pos|apply Z.div_lt_upper_bound]; lia).
  destruct (aget_is_Some l (first + count / 2)) as [x Hx]; [lia|].
  rewrite Hx. simpl. destruct (right x) eqn:Hr.
  - assert (first + count / 2 < m).
    { destruct (Z.lt_ge_cases (first + count / 2) m); [done|].
      rewrite (Hhi (first + count / 2) x) in Hr; [done|lia|done]. }
    apply IH; [lia|lia|lia|]. repeat split; try lia.
    + intros i y Hi. apply Hlo; lia.
    + intros i y Hi. apply Hhi; lia.
  - assert (m <= first + count / 2).
    { destruct (Z.lt_ge_cases (first + count / 2) m); [|lia].
      rewrite (Hlo (first + count / 2) x) in Hr; [done|lia|done]. }
    apply IH; [lia|lia|lia|]. repeat split; try lia.
    + intros i y Hi. apply Hlo; lia.
    + intros i y Hi. apply Hhi; lia.
Qed.

Lemma bound_search_correct right l first last m :
  0 <= first <= last -> last <= zlen l -> partition_point right l first last m ->
  bound_search right l first last = Some m.
Proof.
  intros. unfold bound_search. apply bound_loop_correct; [lia|lia|lia|].
  by replace (first + (last - first)) with last by lia.
Qed.

(** An array sorted in ascending order. *)
Definition zsorted (l : list Z) : Prop :=
  forall i j x y, i <= j -> l.[i] = Some x -> l.[j] = Some y -> x <= y.

(** A predicate that holds on a prefix of the range has a partition point. *)
Lemma partition_point_exists right l first last :
  0 <= first <= last -> last <= zlen l ->
  (forall i j x y, first <= i <= j -> j < last -> l.[i] = Some x -> l.[j] = Some y ->
     right y = true -> right x = true) ->
  exists m, partition_point right l first last m.
Proof.
  intros Hfl. remember (Z.to_nat (last - first)) as n eqn:Hn. revert last Hfl Hn.
  induction n as [|n IH]; intros last Hfl Hn Hl Hmono.
  - exists first. repeat split; [lia|lia| |]; intros; lia.
  - destruct (IH (last - 1)) as (m & Hm & Hlo & Hhi); [lia|lia|lia| |].
    { intros i j x y Hij Hj. apply Hmono; lia. }
    destruct (aget_is_Some l (last - 1)) as [y Hy]; [lia|].
    destruct (right y) eqn:Hr.
    + exists last. repeat split; [lia|lia| |]; [|intros; lia].
      intros i x Hi Hx. apply (Hmono i (last - 1) x y); [lia|lia|done|done|done].
    + exists m. repeat split; [lia|lia|done|].
      intros i x Hi Hx. destruct (decide (i = last - 1)) as [->|]; [congruence|].
      apply (Hhi i x); [lia|done].
Qed.

Section SortedSearch.
Context (l : list Z) (first last : Z).
Hypothesis Hsorted : zsorted l.
Hypothesis Hrange : 0 <= first <= last.
Hypothesis Hlast : last <= zlen l.

Lemma lower_bound_sorted value :
  exists m, lower_bound l first last value = Some m /\ first <= m <= last /\
    (forall i x, first <= i < m -> l.[i] = Some x -> x < value) /\
    (forall i x, m <= i < last -> l.[i] = Some x -> value <= x).
Proof using Hsorted Hrange Hlast.
  destruct (partition_point_exists (fun x => x <? value) l first last) as (m & Hm); [done|done| |].
  - intros i j x y Hij Hj Hx Hy Hlt. zbool. apply Z.ltb_lt.
    specialize (Hsorted i j x y ltac:(lia) Hx Hy). lia.
  - exists m. unfold lower_bound. rewrite (bound_search_correct _ _ _ _ m); [|done..].
    destruct Hm as (? & Hlo & Hhi). repeat split; try lia.
    + intros i x Hi Hx. specialize (Hlo i x Hi Hx). by zbool.
    + intros i x Hi Hx. specialize (Hhi i x Hi Hx). by zbool.
Qed.

Lemma upper_bound_sorted value :
  exists m, upper_bound l first last value = Some m /\ first <= m <= last /\
    (forall i x, first <= i < m -> l.[i] = Some x -> x <= value) /\
    (forall i x, m <= i < last -> l.[i] = Some x -> value < x).
Proof using Hsorted Hrange Hlast.
  destruct (partition_point_exists (fun x => negb (value <? x)) l first last) as (m & Hm);
    [done|done| |].
  - intros i j x y Hij Hj Hx Hy Hlt. zbool. apply negb_true_iff, Z.ltb_ge.
    specialize (Hsorted i j x y ltac:(lia) Hx Hy). lia.
  - exists m. unfold upper_bound. rewrite (bound_search_correct _ _ _ _ m); [|done..].
    destruct Hm as (? & Hlo & Hhi). repeat split; try lia.
    + intros i x Hi Hx. specialize (Hlo i x Hi Hx). by zbool.
    + intros i x Hi Hx. specialize (Hhi i x Hi Hx). by zbool.
Qed.

End SortedSearch.

(** Number of elements below [v]: where both searches land in a sorted array. *)
Definition count_lt (v : Z) (l : list Z) : Z := zlen (filter (fun x => x < v) l).

Lemma count_lt_app v l1 l2 : count_lt v (l1 ++ l2) = count_lt v l1 + count_lt v l2.
Proof. unfold count_lt. by rewrite filter_app, zlen_app. Qed.

Lemma count_lt_range v l : 0 <= count_lt v l <= zlen l.
Proof. unfold count_lt, zlen. pose proof (length_filter (fun x => x < v) l). lia. Qed.

Lemma count_lt_all v l : Forall (fun x => x < v) l -> count_lt v l = zlen l.
Proof.
  intros H. unfold count_lt. induction H as [|x l Hx _ IH]; [done|].
  rewrite filter_cons_True by done. by rewrite !zlen_cons, IH.
Qed.

Lemma count_lt_none v l : Forall (fun x => v <= x) l -> count_lt v l = 0.
Proof.
  intros H. unfold count_lt. induction H as [|x l Hx _ IH]; [done|].
  rewrite filter_cons_False by lia. done.
Qed.

Lemma count_lt_mono v w l : v <= w -> count_lt v l <= count_lt w l.
Proof.
  intros Hvw. unfold count_lt, zlen. induction l as [|x l IH]; [simpl; lia|].
  rewrite !filter_cons. repeat case_decide; simpl; lia.
Qed.

(** The partition point of a range split is the number of small elements. *)
Lemma count_lt_split l v m :
  0 <= m <= zlen l ->
  (forall i x, 0 <= i < m -> l.[i] = Some x -> x < v) ->
  (forall i x, m <= i < zlen l -> l.[i] = Some x -> v <= x) ->
  count_lt v l = m.
Proof.
  intros Hm Hlo Hhi. rewrite <- (take_drop (Z.to_nat m) l), count_lt_app.
  rewrite count_lt_all, count_lt_none.
  - unfold zlen in *. rewrite length_take. lia.
  - apply Forall_lookup. intros i x Hx. rewrite lookup_drop in Hx.
    pose proof (lookup_lt_Some _ _ _ Hx).
    apply (Hhi (Z.of_nat (Z.to_nat m + i))); [unfold zlen; lia|by rewrite aget_nat].
  - apply Forall_lookup. intros i x Hx. apply lookup_take_Some in Hx as [Hx Hi].
    apply (Hlo (Z.of_nat i)); [lia|by rewrite aget_nat].
Qed.

Lemma lower_bound_count l v :
  zsorted l -> lower_bound l 0 (zlen l) v = Some (count_lt v l).
Proof.
  intros Hs. destruct (lower_bound_sorted l 0 (zlen l) Hs) with (value := v)
    as (m & Hm & Hr & Hlo & Hhi); [pose proof (zlen_nonneg l); lia|lia|].
  rewrite Hm. f_equal. symmetry. apply count_lt_split; [lia|done|done].
Qed.

Lemma lower_bound_unique l first last v m :
  0 <= first <= last -> last <= zlen l -> first <= m <= last ->
  (forall i x, first <= i < m -> l.[i] = Some x -> x < v) ->
  (forall i x, m <= i < last -> l.[i] = Some x -> v <= x) ->
  lower_bound l first last v = Some m.
Proof.
  intros Hr Hl Hm Hlo Hhi. apply bound_search_correct; [done|done|].
  split; [done|]. split; intros i x Hi Hx.
  - apply Z.ltb_lt. eauto.
  - apply Z.ltb_ge. eauto.
Qed.

Lemma upper_bound_unique l first last v m :
  0 <= first <= last -> last <= zlen l -> first <= m <= last ->
  (forall i x, first <= i < m -> l.[i] = Some x -> x <= v) ->
  (forall i x, m <= i < last -> l.[i] = Some x -> v < x) ->
  upper_bound l first last v = Some m.
Proof.
  intros Hr Hl Hm Hlo Hhi. apply bound_search_correct; [done|done|].
  split; [done|]. split; intros i x Hi Hx.
  - apply negb_true_iff, Z.ltb_ge. eauto.
  - apply negb_false_iff, Z.ltb_lt. eauto.
Qed.

(** ** Leading and trailing zeros *)

(** [y] has bit [i] set when [x] has a bit set in the window [i, i + m). *)
Definition smeared (m x y : Z) : Prop :=
  forall i, 0 <= i -> (Z.testbit y i = true <-> exists j, i <= j < i + m /\ Z.testbit x j = true).

Lemma smeared_init x : smeared 1 x x.
Proof.
  intros i Hi. split.
  - intros H. exists i. split; [lia|done].
  - intros (j & Hj & H). by replace i with j by lia.
Qed.

Lemma smeared_step m x y : 0 < m -> smeared m x y -> smeared (2 * m) x (smear m y).
Proof.
  intros Hm H i Hi. unfold smear. rewrite Z.lor_spec, Z.shiftr_spec, orb_true_iff by lia.
  rewrite (H i), (H (i + m)) by lia. split.
  - intros [(j & Hj & Hb)|(j & Hj & Hb)]; exists j; split; lia || done.
  - intros (j & Hj & Hb). destruct (Z.lt_ge_cases j (i + m)); [left|right]; exists j; split; lia || done.
Qed.

Lemma smeared_ones m x y :
  0 < x < 2 ^ m -> smeared m x y -> y = Z.ones (Z.log2 x + 1).
Proof.
  intros Hx H. pose proof (Z.log2_nonneg x). apply Z.bits_inj'. intros i Hi.
  assert (Z.log2 x < m) by (apply Z.log2_lt_pow2; lia).
  rewrite Z.testbit_ones_nonneg by lia. apply eq_true_iff_eq. rewrite (H i Hi), Z.ltb_lt. split.
  - intros (j & Hj & Hb). destruct (Z.lt_ge_cases (Z.log2 x) j); [|lia].
    by rewrite Z.bits_above_log2 in Hb by lia.
  - intros Hlt. exists (Z.log2 x). split; [lia|]. apply Z.bit_log2. lia.
Qed.

Lemma smear32_ones x :
  0 < x < 2 ^ 32 ->
  smear 16 (smear 8 (smear 4 (smear 2 (smear 1 x)))) = Z.ones (Z.log2 x + 1).
Proof.
  intros Hx. apply (smeared_ones 32); [done|].
  apply (smeared_step 16), (smeared_step 8), (smeared_step 4), (smeared_step 2), (smeared_step 1);
    [lia..|]. apply smeared_init.
Qed.

Lemma smear64_ones x :
  0 < x < 2 ^ 64 ->
  smear 32 (smear 16 (smear 8 (smear 4 (smear 2 (smear 1 x))))) = Z.ones (Z.log2 x + 1).
Proof.
  intros Hx. apply (smeared_ones 64); [done|].
  apply (smeared_step 32), (smeared_step 16), (smeared_step 8), (smeared_step 4), (smeared_step 2),
    (smeared_step 1); [lia..|]. apply smeared_init.
Qed.

(** Check a statement on the integers below a literal bound one by one. *)
Lemma forallb_below (n : nat) (P : Z -> bool) :
  forallb (fun i => P (Z.of_nat i)) (seq 0 n) = true ->
  forall x, 0 <= x < Z.of_nat n -> P x = true.
Proof.
  intros H x Hx. rewrite forallb_forall in H. specialize (H (Z.to_nat x)).
  rewrite Z2Nat.id in H by lia. apply H. apply in_seq. lia.
Qed.

Definition oeqb (a b : option Z) : bool := bool_decide (a = b).

Lemma clz32_correct x : 0 < x < 2 ^ 32 -> clz32 x = Some (builtin_clz 32 x).
Proof.
  intros Hx. unfold clz32, builtin_clz. rewrite smear32_ones by done.
  assert (0 <= Z.log2 x < 32) as Hn by (split; [apply Z.log2_nonneg|apply Z.log2_lt_pow2; lia]).
  revert Hn. generalize (Z.log2 x). intros n Hn.
  set (P n := oeqb (debruijn32.[Z.shiftr (u32 (u32 (Z.ones (n + 1) + 1) * 0x076be629)) 27])
                   (Some (32 - 1 - n))).
  assert (P n = true) as HP by (apply (forallb_below 32); [by vm_compute|lia]).
  by apply bool_decide_eq_true in HP.
Qed.

Lemma clz64_correct x : 0 < x < 2 ^ 64 -> clz64 x = Some (builtin_clz 64 x).
Proof.
  intros Hx. unfold clz64, builtin_clz. rewrite smear64_ones by done.
  assert (0 <= Z.log2 x < 64) as Hn by (split; [apply Z.log2_nonneg|apply Z.log2_lt_pow2; lia]).
  revert Hn. generalize (Z.log2 x). intros n Hn.
  set (P n := oeqb (let? d := debruijn64.[Z.shiftr (u64 (Z.ones (n + 1) * 0x03f79d71b4cb0a89)) 58] in
                    Some (63 - d)) (Some (64 - 1 - n))).
  assert (P n = true) as HP by (apply (forallb_below 64); [by vm_compute|lia]).
  by apply bool_decide_eq_true in HP.
Qed.

Lemma pos_trailing_nonneg p : 0 <= pos_trailing p.
Proof. induction p; simpl; lia. Qed.

(** The count is the exponent of the largest power of two that divides the input. *)
Lemma countTrailingZeros_spec x :
  0 < x -> exists q, x = (2 * q + 1) * 2 ^ countTrailingZeros x /\ 0 <= countTrailingZeros x /\ 0 <= q.
Proof.
  destruct x as [|p|p]; try lia. intros _. simpl. induction p as [p _|p IH|].
  - exists (Z.pos p). simpl. lia.
  - destruct IH as (q & Hq & Hn & Hq0). exists q. simpl.
    rewrite Z.pow_succ_r by lia. repeat split; lia.
  - exists 0. simpl. lia.
Qed.

(** ** Gather, scatter, sort *)

Lemma gather_correct {A} (ordering : list Z) (source destination : list A) (g : Z -> A) :
  zlen ordering <= zlen destination ->
  (forall i o, ordering.[i] = Some o -> source.[o] = Some (g o)) ->
  gather ordering source destination = Some ((g <$> ordering) ++ drop (length ordering) destination).
Proof.
  intros Hlen Hsrc. unfold gather.
  set (h i := default 0 (ordering.[i])).
  rewrite (for_loop_ext _ _ _ (fun i dst =>
    let? v := (let? o := ordering.[i] in source.[o]) in aset dst (0 + i) v)).
  2:{ intros i t Hi. by destruct (ordering.[i]). }
  rewrite <- (take_drop (length ordering) destination) at 1.
  pose proof (write_loop_block (fun i => g (h i)) (fun i => let? o := ordering.[i] in source.[o])
    0 0 (zlen ordering) [] (take (length ordering) destination) (drop (length ordering) destination))
    as Hw.
  rewrite (Z.add_0_l (zlen ordering)) in Hw. simpl in Hw. rewrite Hw.
  - do 2 f_equal. apply list_eq_aget.
    + rewrite !zlen_map, zlen_seqZ by auto with cstone. done.
    + intros i Hi. rewrite zlen_map, zlen_seqZ in Hi by auto with cstone.
      rewrite !aget_map, aget_seqZ, Z.add_0_l by lia. simpl. unfold h.
      destruct (aget_is_Some ordering i Hi) as [o Ho]. by rewrite Ho.
  - unfold zlen in *. rewrite length_take. lia.
  - done.
  - intros i Hi. unfold h. destruct (aget_is_Some ordering i) as [o Ho]; [lia|].
    rewrite Ho. simpl. eauto.
Qed.

Lemma scatter_correct {A} (ordering : list Z) (source destination : list A) :
  NoDup ordering -> zlen ordering <= zlen source ->
  (forall i o, ordering.[i] = Some o -> 0 <= o < zlen destination) ->
  exists out, scatter ordering source destination = Some out /\
    zlen out = zlen destination /\
    (forall i o, ordering.[i] = Some o -> out.[o] = source.[i]) /\
    (forall j, j ∉ ordering -> out.[j] = destination.[j]).
Proof.
  intros Hnd Hlen Hr.
  destruct (for_loop_inv (fun n out => zlen out = zlen destination /\
      (forall i o, i < n -> ordering.[i] = Some o -> out.[o] = source.[i]) /\
      (forall j, (forall i, i < n -> ordering.[i] <> Some j) -> out.[j] = destination.[j]))
    0 (zlen ordering) (fun i dst => let? o := ordering.[i] in let? v := source.[i] in aset dst o v)
    destination) as (out & Ho & Hl & Hw & Hn); [auto with cstone| | |].
  - split; [done|]. split; [|done]. intros i o Hi ?%aget_Some_range. lia.
  - intros i t Hi (Hl & Hw & Hn).
    destruct (aget_is_Some ordering i Hi) as [o Ho]. destruct (aget_is_Some source i) as [v Hv]; [lia|].
    rewrite Ho, Hv. simpl. specialize (Hr i o Ho) as Hro.
    rewrite aset_Some by lia. eexists; split; [done|].
    assert (aset t o v = Some (<[Z.to_nat o:=v]> t)) as Hset by (apply aset_Some; lia).
    repeat split.
    + erewrite aset_zlen by done. done.
    + intros j p Hj Hp. destruct (decide (j = i)) as [->|].
      * rewrite Ho in Hp. injection Hp as <-. rewrite Hv. by eapply aget_aset_eq.
      * rewrite <- (Hw j p) by (lia || done). eapply aget_aset_ne; [done|].
        intros ->. apply n. pose proof (aget_Some_range _ _ _ Hp). pose proof (aget_Some_range _ _ _ Ho).
        rewrite aget_lookup in Hp, Ho by lia.
        pose proof (NoDup_lookup _ _ _ _ Hnd Hp Ho). lia.
    + intros j Hj. rewrite <- Hn by (intros i0 Hi0; apply Hj; lia).
      eapply aget_aset_ne; [done|]. intros ->. apply (Hj i); [lia|done].
  - exists out. split; [done|]. split; [done|]. split.
    + intros i o Hio. apply Hw; [|done]. apply aget_Some_range in Hio. lia.
    + intros j Hj. apply Hn. intros i _ Hi. apply Hj. by eapply aget_elem.
Qed.

Lemma stable_insert_perm p l : stable_insert p l ≡ₚ p :: l.
Proof.
  induction l as [|q l IH]; simpl; [done|]. zcase; [|done]. rewrite IH. by constructor.
Qed.

Lemma stable_sort_perm l : stable_sort l ≡ₚ l.
Proof. induction l as [|p l IH]; simpl; [done|]. by rewrite stable_insert_perm, IH. Qed.

Definition key_le (p q : Z * Z) : Prop := fst p <= fst q.

Lemma stable_insert_sorted p l :
  StronglySorted key_le l -> StronglySorted key_le (stable_insert p l).
Proof.
  induction 1 as [|q l Hs IH Hq]; simpl.
  - by repeat constructor.
  - zcase; constructor; [done| | |].
    + rewrite stable_insert_perm. constructor; [unfold key_le; lia|done].
    + by constructor.
    + constructor; [unfold key_le; lia|]. eapply Forall_impl; [done|].
      unfold key_le. simpl. lia.
Qed.

Lemma stable_sort_sorted l : StronglySorted key_le (stable_sort l).
Proof. induction l; simpl; [constructor|by apply stable_insert_sorted]. Qed.

Lemma zsorted_StronglySorted l : zsorted l -> StronglySorted Z.le l.
Proof.
  induction l as [|x l IH]; intros Hs; constructor.
  - apply IH. intros i j a b Hij Ha Hb. pose proof (aget_Some_range _ _ _ Ha). pose proof (aget_Some_range _ _ _ Hb). apply (Hs (i + 1) (j + 1)); [lia|..]; rewrite aget_cons_S by lia; by rewrite Z.add_simpl_r.
  - apply Forall_forall. intros y [j Hj]%elem_aget. pose proof (aget_Some_range _ _ _ Hj). apply (Hs 0 (j + 1)); [lia|done|]. rewrite aget_cons_S by lia. by rewrite Z.add_simpl_r.
Qed.

Lemma StronglySorted_zsorted l : StronglySorted Z.le l -> zsorted l.
Proof.
  intros H i j x y Hij Hx Hy.
  pose proof (aget_Some_range _ _ _ Hx). pose proof (aget_Some_range _ _ _ Hy).
  destruct (decide (i = j)) as [->|]; [assert (x = y) by congruence; lia|].
  apply aget_split in Hx as (l1 & l2 & -> & Hl1).
  rewrite aget_app_r in Hy by lia. rewrite aget_cons_S in Hy by lia. apply aget_elem in Hy.
  clear -H Hy. induction l1 as [|z l1 IH]; simpl in H; inversion H; subst; [|auto].
  rewrite Forall_forall in *. auto.
Qed.

(** [sort_by_key] returns the keys in ascending order and moves the values along. *)
Lemma sort_by_key_correct keys values :
  zlen keys = zlen values ->
  exists keys' values', sort_by_key keys values = Some (keys', values') /\
    zsorted keys' /\ zip keys' values' ≡ₚ zip keys values /\
    zlen keys' = zlen keys /\ zlen values' = zlen values.
Proof.
  intros Hlen. unfold sort_by_key. destruct (Z.ltb_spec (zlen values) (zlen keys)); [lia|].
  unfold zlen in Hlen. rewrite drop_ge, app_nil_r by lia.
  eexists _, _. split; [done|].
  pose proof (stable_sort_perm (zip keys values)) as Hp.
  pose proof (Permutation_length Hp) as Hpl. rewrite length_zip in Hpl.
  split; [|split; [|unfold zlen; rewrite !length_fmap; lia]].
  - apply StronglySorted_zsorted. pose proof (stable_sort_sorted (zip keys values)) as Hs.
    clear -Hs. induction Hs as [|p l Hs IH Hf]; simpl; constructor; [done|].
    apply Forall_fmap. eapply Forall_impl; [done|]. done.
  - by rewrite zip_fst_snd.
Qed.

(** Executable test of sortedness. *)
Fixpoint zsortedb (l : list Z) : bool :=
  match l with
  | x :: ((y :: _) as r) => (x <=? y) && zsortedb r
  | _ => true
  end.

Lemma zsortedb_sound l : zsortedb l = true -> zsorted l.
Proof.
  intros H. apply StronglySorted_zsorted, Sorted_StronglySorted; [intros x y z; lia|].
  induction l as [|x [|y r] IH]; [constructor|repeat constructor|].
  cbn in H. apply andb_true_iff in H as [Hxy%Z.leb_le Hr]. constructor; [by apply IH|by constructor].
Qed.

(** ** Positions in sorted arrays *)

Section Positions.
Context (l : list Z).
Hypothesis Hsorted : zsorted l.

Lemma count_lt_gt i x v : l.[i] = Some x -> x < v -> i < count_lt v l.
Proof using Hsorted.
  intros Hi Hx. pose proof (aget_Some_range _ _ _ Hi).
  destruct (lower_bound_sorted l 0 (zlen l) Hsorted ltac:(lia) ltac:(lia) v) as (m & Hm & Hr & _ & Hhi).
  rewrite lower_bound_count in Hm by done. injection Hm as ->.
  destruct (Z.lt_ge_cases i m); [done|]. specialize (Hhi i x ltac:(lia) Hi). lia.
Qed.

Lemma count_lt_le i x v : l.[i] = Some x -> v <= x -> count_lt v l <= i.
Proof using Hsorted.
  intros Hi Hx. pose proof (aget_Some_range _ _ _ Hi).
  destruct (lower_bound_sorted l 0 (zlen l) Hsorted ltac:(lia) ltac:(lia) v) as (m & Hm & Hr & Hlo & _).
  rewrite lower_bound_count in Hm by done. injection Hm as ->.
  destruct (Z.le_gt_cases m i); [done|]. specialize (Hlo i x ltac:(lia) Hi). lia.
Qed.

(** A sub-range that contains the position gives the same search result. *)
Lemma lower_bound_within lo hi v :
  0 <= lo -> hi <= zlen l -> lo <= count_lt v l <= hi -> lower_bound l lo hi v = Some (count_lt v l).
Proof using Hsorted.
  intros Hlo Hhi Hm. apply lower_bound_unique; [lia|lia|lia| |].
  - intros i x Hi Hx. destruct (Z.lt_ge_cases x v) as [|Hge]; [done|].
    pose proof (count_lt_le i x v Hx Hge). lia.
  - intros i x Hi Hx. destruct (Z.le_gt_cases v x) as [|Hgt]; [done|].
    pose proof (count_lt_gt i x v Hx Hgt). lia.
Qed.

(** In an array without duplicates, an element is at the position that counts the smaller ones. *)
Lemma elem_position v : NoDup l -> v ∈ l -> l.[count_lt v l] = Some v.
Proof using Hsorted.
  intros Hnd [i Hi]%elem_aget. pose proof (aget_Some_range _ _ _ Hi) as Hr.
  assert (count_lt v l = i) as ->; [|done].
  pose proof (count_lt_le i v v Hi ltac:(lia)). pose proof (count_lt_range v l).
  destruct (decide (count_lt v l = i)) as [|Hne]; [done|].
  destruct (aget_is_Some l (count_lt v l) ltac:(lia)) as [w Hw].
  assert (w <= v) by (eapply Hsorted; [|exact Hw|exact Hi]; lia).
  destruct (decide (w = v)) as [->|].
  - rewrite aget_lookup in Hw, Hi by lia. pose proof (NoDup_lookup _ _ _ _ Hnd Hw Hi). lia.
  - pose proof (count_lt_gt _ w v Hw ltac:(lia)). lia.
Qed.

Lemma position_elem i v : NoDup l -> l.[i] = Some v -> i = count_lt v l.
Proof using Hsorted.
  intros Hnd Hi. pose proof (elem_position v Hnd (aget_elem _ _ _ Hi)) as Hp.
  pose proof (aget_Some_range _ _ _ Hi). pose proof (aget_Some_range _ _ _ Hp).
  rewrite aget_lookup in Hi, Hp by lia. pose proof (NoDup_lookup _ _ _ _ Hnd Hi Hp). lia.
Qed.

End Positions.

Lemma count_lt_perm v l l' : l ≡ₚ l' -> count_lt v l = count_lt v l'.
Proof. intros H. unfold count_lt, zlen. by rewrite H. Qed.

Lemma count_lt_succ v l : NoDup l -> v ∈ l -> count_lt (v + 1) l = count_lt v l + 1.
Proof.
  intros Hnd Hv. apply elem_of_Permutation in Hv as [l' Hl']. rewrite !(count_lt_perm _ _ _ Hl').
  rewrite Hl' in Hnd. apply NoDup_cons in Hnd as [Hv Hnd]. unfold count_lt.
  rewrite filter_cons_True, filter_cons_False by lia. rewrite zlen_cons.
  assert (filter (fun x => x < v + 1) l' = filter (fun x => x < v) l') as ->; [|lia].
  clear Hnd Hl'. induction l' as [|x l' IH]; [done|]. rewrite !filter_cons.
  assert (x <> v) by set_solver. rewrite IH by set_solver. repeat case_decide; (done || lia).
Qed.
