(* ===== verification/Fields.v ===== *)
(** * Particle fields

    [cstone/fields/field_states.hpp] and [cstone/fields/data_util.hpp]: which particle fields are in use, and the reuse of their memory.
    The state of the object is the list of states and the memory of each field; an exception is a value next to the state at which it
    was thrown. *)

From stdpp Require Import strings relations.
From S2P Require Import Prelude.
#[local] Open Scope Z_scope.

(** ** data_util.hpp *)

(** The position of a name, the number of names if it is unknown. *)
Fixpoint getFieldIndex (field : string) (fieldNames : list string) : Z :=
  match fieldNames with
  | [] => 0
  | name :: fieldNames => if decide (field = name) then 0 else 1 + getFieldIndex field fieldNames
  end.

Inductive FieldError := WrongState (idx : Z) | AlreadyInUse (idx : Z) | NotAvailable (idx : Z) | UnknownField (field : string).

Fixpoint fieldStringsToInt (subsetNames allNames : list string) : FieldError + list Z :=
  match subsetNames with
  | [] => inr []
  | name :: subsetNames =>
      let i := getFieldIndex name allNames in
      if i =? zlen allNames then inl (UnknownField name)
      else match fieldStringsToInt subsetNames allNames with
        | inl e => inl e
        | inr indices => inr (i :: indices)
        end
  end.

(** ** field_states.hpp *)

Inductive State := unused | conserved | dependent | released.

#[export] Instance State_eq_dec : EqDecision State.
Proof. solve_decision. Defined.

Section Class.
(** Names and types of the fields are fixed; [Memory] is what a field points to. *)
Context (fieldNames : list string) {Ty : Type} `{!EqDecision Ty} (fieldTypes : list Ty) {Memory : Type}.

Record FieldStates := mkFieldStates { fieldStates_ : list State; data_ : list Memory }.

(** The state after a call and the exception that it throws; [None] is an access out of bounds. *)
Definition Outcome : Type := option (FieldStates * option FieldError).

Definition newFieldStates (memory : list Memory) : FieldStates := mkFieldStates (replicate (length fieldNames) unused) memory.

(** The calls for the fields of a parameter pack, up to the first exception. *)
Fixpoint forFields {A} (one : A -> FieldStates -> Outcome) (fields : list A) (f : FieldStates) : Outcome :=
  match fields with
  | [] => Some (f, None)
  | field :: fields =>
      let? (f, e) := one field f in
      match e with
      | Some e => Some (f, Some e)
      | None => forFields one fields f
      end
  end.

Definition setStateIdx (state : State) (idx : Z) (f : FieldStates) : Outcome :=
  let? states := aset (fieldStates_ f) idx state in
  Some (mkFieldStates states (data_ f), None).

Definition setState (state : State) (field : string) (f : FieldStates) : Outcome :=
  let idx := getFieldIndex field fieldNames in
  if idx =? zlen (fieldStates_ f) then Some (f, Some (UnknownField field)) else setStateIdx state idx f.

Definition setConserved : list string -> FieldStates -> Outcome := forFields (setState conserved).
Definition setDependent : list string -> FieldStates -> Outcome := forFields (setState dependent).

Definition isAllocatedIdx (fieldIdx : Z) (f : FieldStates) : bool :=
  match (fieldStates_ f).[fieldIdx] with Some state => negb (bool_decide (state = unused)) | None => false end.
Definition isConserved (fieldIdx : Z) (f : FieldStates) : bool :=
  match (fieldStates_ f).[fieldIdx] with Some state => bool_decide (state = conserved) | None => false end.
Definition isAllocated (field : string) (f : FieldStates) : bool := isAllocatedIdx (getFieldIndex field fieldNames) f.

Definition releaseIdx (idx : Z) (f : FieldStates) : Outcome :=
  let? state := (fieldStates_ f).[idx] in
  if negb (bool_decide (state = dependent)) then Some (f, Some (WrongState idx))
  else
    let? states := aset (fieldStates_ f) idx released in
    Some (mkFieldStates states (data_ f), None).

Definition releaseOne (field : string) : FieldStates -> Outcome := releaseIdx (getFieldIndex field fieldNames).
Definition release : list string -> FieldStates -> Outcome := forFields releaseOne.

(** Exchange of the memory of two fields. *)
Definition swapFields (i j : Z) (data : list Memory) : option (list Memory) :=
  let? a := data.[i] in
  let? b := data.[j] in
  let? data := aset data i b in
  aset data j a.

(** The loop over the fields [candidates]. *)
Fixpoint acquireFrom (candidates : list Z) (fieldIdx : Z) (f : FieldStates) : Outcome :=
  match candidates with
  | [] => Some (f, Some (NotAvailable fieldIdx))
  | i :: candidates =>
      let? state := (fieldStates_ f).[i] in
      if bool_decide (state = released) then
        let? type1 := fieldTypes.[i] in
        let? type2 := fieldTypes.[fieldIdx] in
        if bool_decide (type1 = type2) then
          let? data := swapFields i fieldIdx (data_ f) in
          let? states := aset (fieldStates_ f) i unused in
          let? states := aset states fieldIdx dependent in
          Some (mkFieldStates states data, None)
        else acquireFrom candidates fieldIdx f
      else acquireFrom candidates fieldIdx f
  end.

Definition acquireIdx (fieldIdx : Z) (f : FieldStates) : Outcome :=
  let? state := (fieldStates_ f).[fieldIdx] in
  if negb (bool_decide (state = unused)) then Some (f, Some (AlreadyInUse fieldIdx))
  else acquireFrom (seqZ 0 (zlen (fieldStates_ f))) fieldIdx f.

Definition acquireOne (field : string) : FieldStates -> Outcome := acquireIdx (getFieldIndex field fieldNames).
Definition acquire : list string -> FieldStates -> Outcome := forFields acquireOne.

(** ** Guarantees *)

(** One state, type and memory per field. *)
Definition wellFormed (f : FieldStates) : Prop := zlen (fieldStates_ f) = zlen fieldNames /\ zlen fieldTypes = zlen fieldNames /\ zlen (data_ f) = zlen fieldNames.

(** The memory of field [i] and its type, if it is allocated. *)
Definition heldAt (f : FieldStates) (i : Z) : list (Ty * Memory) :=
  match (fieldStates_ f).[i], fieldTypes.[i], (data_ f).[i] with
  | Some state, Some type, Some memory => if decide (state = unused) then [] else [(type, memory)]
  | _, _, _ => []
  end.
Definition held (f : FieldStates) : list (Ty * Memory) := seqZ 0 (zlen fieldNames) ≫= heldAt f.

(** The field [i] can pass its memory on to the field [idx]. *)
Definition suitable (f : FieldStates) (i idx : Z) : Prop := (fieldStates_ f).[i] = Some released /\ exists type, fieldTypes.[i] = Some type /\ fieldTypes.[idx] = Some type.

(** The memory of [i] becomes that of [idx]. *)
Definition passedOn (f f' : FieldStates) (i idx : Z) : Prop :=
  (fieldStates_ f').[i] = Some unused /\ (fieldStates_ f').[idx] = Some dependent /\ (data_ f').[i] = (data_ f).[idx] /\ (data_ f').[idx] = (data_ f).[i] /\
  forall j, j <> i -> j <> idx -> (fieldStates_ f').[j] = (fieldStates_ f).[j] /\ (data_ f').[j] = (data_ f).[j].

Lemma getFieldIndex_range field names : 0 <= getFieldIndex field names <= zlen names /\ (field ∈ names -> names.[getFieldIndex field names] = Some field).
Proof using.
  induction names as [|name names IH]; [split; [done|by intros ?%not_elem_of_nil]|]. cbn [getFieldIndex]. rewrite zlen_cons. destruct IH as [IH1 IH2]. pose proof (zlen_nonneg names). case_decide as Hd; [subst; split; [lia|done]|]. split; [lia|]. intros [->|Hin]%elem_of_cons; [done|]. rewrite aget_cons_S by lia. replace (1 + getFieldIndex field names - 1) with (getFieldIndex field names) by lia. by apply IH2.
Qed.

Lemma aset_run {A} (l : list A) i v : 0 <= i < zlen l -> exists l', aset l i v = Some l' /\ zlen l' = zlen l /\ l'.[i] = Some v /\ forall j, j <> i -> l'.[j] = l.[j].
Proof using.
  intros Hi. pose proof (aset_Some l i v Hi) as E. eexists. split; [exact E|]. split; [exact (aset_zlen _ _ _ _ E)|]. split; [exact (aget_aset_eq _ _ _ _ E)|]. intros j Hj. by apply (aget_aset_ne _ _ _ _ _ E).
Qed.

Lemma swapFields_run i j data : i <> j -> 0 <= i < zlen data -> 0 <= j < zlen data -> exists data', swapFields i j data = Some data' /\ zlen data' = zlen data /\ data'.[i] = data.[j] /\ data'.[j] = data.[i] /\ forall l, l <> i -> l <> j -> data'.[l] = data.[l].
Proof using.
  intros Hij Hi Hj. unfold swapFields. destruct (aget_is_Some data i Hi) as [x Ex], (aget_is_Some data j Hj) as [y Ey]. rewrite Ex, Ey. cbn beta iota. destruct (aset_run data i y Hi) as (d1 & -> & Z1 & G1 & N1). cbn beta iota. destruct (aset_run d1 j x ltac:(lia)) as (d2 & -> & Z2 & G2 & N2). exists d2. split; [done|]. split; [lia|]. split; [by rewrite N2|]. split; [done|]. intros l Hl1 Hl2. by rewrite N2, N1.
Qed.

(** Only a dependent field can be released; it keeps its memory. *)
Lemma releaseIdx_run idx f : 0 <= idx < zlen (fieldStates_ f) -> exists f' e, releaseIdx idx f = Some (f', e) /\
  ((fieldStates_ f).[idx] = Some dependent /\ e = None /\ (fieldStates_ f').[idx] = Some released /\ data_ f' = data_ f /\ zlen (fieldStates_ f') = zlen (fieldStates_ f) /\ (forall j, j <> idx -> (fieldStates_ f').[j] = (fieldStates_ f).[j]) \/
   (fieldStates_ f).[idx] <> Some dependent /\ e = Some (WrongState idx) /\ f' = f).
Proof using.
  intros Hi. unfold releaseIdx. destruct (aget_is_Some _ _ Hi) as [state Es]. rewrite Es. cbn beta iota. case_bool_decide as Hd; cbn [negb].
  - subst state. destruct (aset_run (fieldStates_ f) idx released Hi) as (states & -> & Z1 & G1 & N1). cbn beta iota. eexists _, _. split; [done|]. left. done.
  - eexists _, _. split; [done|]. right. split; [|done]. congruence.
Qed.

(** The first suitable candidate passes its memory on. *)
Lemma acquireFrom_run idx f : wellFormed f -> 0 <= idx < zlen fieldNames -> (fieldStates_ f).[idx] = Some unused -> forall candidates, Forall (fun i => 0 <= i < zlen fieldNames) candidates -> exists f' e, acquireFrom candidates idx f = Some (f', e) /\
  ((exists before i after, candidates = before ++ i :: after /\ suitable f i idx /\ Forall (fun j => ~ suitable f j idx) before /\ e = None /\ wellFormed f' /\ passedOn f f' i idx) \/
   (Forall (fun j => ~ suitable f j idx) candidates /\ e = Some (NotAvailable idx) /\ f' = f)).
Proof using.
  intros (W1 & W2 & W3) Hidx Hun. induction candidates as [|i candidates IH]; intros Hc; cbn [acquireFrom]; [eexists _, _; split; [done|]; by right|]. apply Forall_cons in Hc as [Hi Hc]. destruct (IH Hc) as (f' & e & E & Hcase).
  assert (Hskip : ~ suitable f i idx -> exists f' e, acquireFrom candidates idx f = Some (f', e) /\ ((exists before i0 after, i :: candidates = before ++ i0 :: after /\ suitable f i0 idx /\ Forall (fun j => ~ suitable f j idx) before /\ e = None /\ wellFormed f' /\ passedOn f f' i0 idx) \/ (Forall (fun j => ~ suitable f j idx) (i :: candidates) /\ e = Some (NotAvailable idx) /\ f' = f))).
  { intros Hns. exists f', e. split; [done|]. destruct Hcase as [(before & j & after & -> & Hs & Hb & H)|(Hb & H)]; [left; exists (i :: before), j, after; split; [done|]; split; [done|]; split; [by constructor|done]|right; split; [by constructor|done]]. }
  destruct (aget_is_Some (fieldStates_ f) i ltac:(lia)) as [state Es]. rewrite Es. cbn beta iota. case_bool_decide as Hr; [|apply Hskip; intros [? _]; congruence]. destruct (aget_is_Some fieldTypes i ltac:(lia)) as [t1 E1], (aget_is_Some fieldTypes idx ltac:(lia)) as [t2 E2]. rewrite E1, E2. cbn beta iota. case_bool_decide as Ht; [|apply Hskip; intros (_ & t & ? & ?); congruence]. subst state t2.
  assert (Hne : i <> idx) by (intros ->; congruence). destruct (swapFields_run i idx (data_ f) Hne ltac:(lia) ltac:(lia)) as (data & -> & D1 & D2 & D3 & D4). cbn beta iota. destruct (aset_run (fieldStates_ f) i unused ltac:(lia)) as (s1 & -> & Z1 & G1 & N1). cbn beta iota. destruct (aset_run s1 idx dependent ltac:(lia)) as (s2 & -> & Z2 & G2 & N2). cbn beta iota.
  eexists _, _. split; [done|]. left. exists [], i, candidates. split; [done|]. split; [split; [done|by exists t1]|]. split; [done|]. split; [done|]. split; [split; cbn; lia|]. split; [cbn; by rewrite N2|]. split; [done|]. split; [done|]. split; [done|]. intros j Hj1 Hj2. cbn. split; [by rewrite N2, N1|by apply D4].
Qed.

(** A field can be acquired exactly if it is unused and a released field of its type is available; otherwise nothing changes. *)
Lemma acquireIdx_run idx f : wellFormed f -> 0 <= idx < zlen fieldNames -> exists f' e, acquireIdx idx f = Some (f', e) /\
  ((fieldStates_ f).[idx] = Some unused /\ (exists i, suitable f i idx /\ (forall j, 0 <= j < i -> ~ suitable f j idx) /\ e = None /\ wellFormed f' /\ passedOn f f' i idx) \/
   (fieldStates_ f).[idx] = Some unused /\ (forall i, ~ suitable f i idx) /\ e = Some (NotAvailable idx) /\ f' = f \/
   (fieldStates_ f).[idx] <> Some unused /\ e = Some (AlreadyInUse idx) /\ f' = f).
Proof using.
  intros Hwf Hidx. pose proof Hwf as (W1 & W2 & W3). unfold acquireIdx. destruct (aget_is_Some (fieldStates_ f) idx ltac:(lia)) as [state Es]. rewrite Es. cbn beta iota. case_bool_decide as Hu; cbn [negb]; [subst state|eexists _, _; split; [done|]; right; right; split; [congruence|done]].
  destruct (acquireFrom_run idx f Hwf Hidx Es (seqZ 0 (zlen (fieldStates_ f)))) as (f' & e & E & Hcase); [apply Forall_forall; intros i Hi%elem_of_seqZ; lia|]. exists f', e. split; [done|]. destruct Hcase as [(before & i & after & Ec & Hs & Hb & H)|(Hb & H)].
  - left. split; [done|]. exists i. split; [done|]. split; [|done]. intros j Hj Hsj. rewrite Forall_forall in Hb. apply (Hb j); [|done].
    assert (Ei : (seqZ 0 (zlen (fieldStates_ f))).[zlen before] = Some i) by (rewrite Ec, aget_app_r by lia; by rewrite Z.sub_diag). pose proof (zlen_nonneg before). pose proof (aget_Some_range _ _ _ Ei) as Hz. rewrite zlen_seqZ in Hz by lia. rewrite aget_seqZ in Ei by lia. injection Ei as Ei. apply (aget_elem _ j). assert (Ej : (before ++ i :: after).[j] = before.[j]) by (apply aget_app_l; lia). rewrite <- Ej, <- Ec, aget_seqZ by lia. done.
  - right. left. split; [done|]. split; [|done]. intros i Hs. rewrite Forall_forall in Hb. apply (Hb i); [|done]. destruct Hs as [Hs _]. pose proof (aget_Some_range _ _ _ Hs). apply elem_of_seqZ. lia.
Qed.

(** *** Sequences of calls *)

(** What no call of [release] or [acquire] changes: the allocated memory of each type, and the conserved fields. *)
Definition keeps (f f' : FieldStates) : Prop := wellFormed f' /\ held f' ≡ₚ held f /\
  forall i, ((fieldStates_ f').[i] = Some conserved <-> (fieldStates_ f).[i] = Some conserved) /\ ((fieldStates_ f).[i] = Some conserved -> (data_ f').[i] = (data_ f).[i]).

Lemma keeps_refl f : wellFormed f -> keeps f f.
Proof using. done. Qed.

Lemma keeps_trans f1 f2 f3 : keeps f1 f2 -> keeps f2 f3 -> keeps f1 f3.
Proof using.
  intros (W1 & H1 & C1) (W2 & H2 & C2). split; [done|]. split; [by rewrite H2|]. intros i. destruct (C1 i) as [S1 D1], (C2 i) as [S2 D2]. split; [by rewrite S2|]. intros Hc. rewrite D2 by by apply S1. by apply D1.
Qed.

Lemma bind_moved {A} (g g' : Z -> list A) i j (js : list Z) : NoDup js -> i ∈ js -> j ∈ js -> i <> j -> g' i = g j -> g' j = g i -> (forall l, l <> i -> l <> j -> g' l = g l) -> js ≫= g' ≡ₚ js ≫= g.
Proof using.
  intros Hnd Hi Hj Hij E1 E2 E3. apply elem_of_Permutation in Hi as [js1 P1]. assert (Hj1 : j ∈ js1) by (rewrite P1 in Hj; apply elem_of_cons in Hj as [->|?]; done). apply elem_of_Permutation in Hj1 as [js2 P2]. rewrite P1, P2 in Hnd |- *. apply NoDup_cons in Hnd as [Hi1 Hnd]. apply NoDup_cons in Hnd as [Hj2 _]. rewrite !bind_cons, E1, E2, !app_assoc. apply Permutation_app; [apply Permutation_app_comm|]. apply reflexive_eq, Forall_bind_ext, Forall_forall. intros l Hl. apply E3; intros ->; [apply Hi1, elem_of_cons; by right|done].
Qed.

Lemma held_passedOn f f' i idx : wellFormed f -> wellFormed f' -> 0 <= idx < zlen fieldNames -> (fieldStates_ f).[idx] = Some unused -> suitable f i idx -> passedOn f f' i idx -> held f' ≡ₚ held f.
Proof using.
  intros (W1 & W2 & W3) (V1 & V2 & V3) Hidx Hun (Hs & t & Ht1 & Ht2) (P1 & P2 & P3 & P4 & P5). pose proof (aget_Some_range _ _ _ Hs) as Hi. assert (Hne : i <> idx) by (intros ->; congruence). apply (bind_moved (heldAt f) (heldAt f') i idx).
  - apply NoDup_seqZ.
  - apply elem_of_seqZ. lia.
  - apply elem_of_seqZ. lia.
  - done.
  - unfold heldAt. rewrite P1, Hun, Ht1, Ht2, P3. by destruct ((data_ f).[idx]).
  - unfold heldAt. rewrite P2, Hs, Ht1, Ht2, P4. by destruct ((data_ f).[i]).
  - intros l Hl1 Hl2. unfold heldAt. by destruct (P5 l Hl1 Hl2) as [-> ->].
Qed.

Lemma acquireIdx_keeps idx f f' e : wellFormed f -> 0 <= idx < zlen fieldNames -> acquireIdx idx f = Some (f', e) -> keeps f f'.
Proof using.
  intros Hwf Hidx E. destruct (acquireIdx_run idx f Hwf Hidx) as (f1 & e1 & E1 & Hcase). rewrite E in E1. injection E1 as <- <-. destruct Hcase as [(Hun & i & Hs & _ & _ & Hwf' & Hp)|[(_ & _ & _ & ->)|(_ & _ & ->)]]; [|by apply keeps_refl..].
  split; [done|]. split; [by apply (held_passedOn f f' i idx)|]. destruct Hp as (P1 & P2 & P3 & P4 & P5), Hs as [Hs _]. intros j. destruct (decide (j = i)) as [->|Hji]; [rewrite P1, Hs; split; [split; congruence|congruence]|]. destruct (decide (j = idx)) as [->|Hjd]; [rewrite P2, Hun; split; [split; congruence|congruence]|]. by destruct (P5 j Hji Hjd) as [-> ->].
Qed.

Lemma releaseIdx_keeps idx f f' e : wellFormed f -> 0 <= idx < zlen fieldNames -> releaseIdx idx f = Some (f', e) -> keeps f f'.
Proof using.
  intros Hwf Hidx E. pose proof Hwf as (W1 & W2 & W3). destruct (releaseIdx_run idx f ltac:(lia)) as (f1 & e1 & E1 & Hcase). rewrite E in E1. injection E1 as <- <-. destruct Hcase as [(Hd & _ & Hr & Hda & Hz & Ho)|(_ & _ & ->)]; [|by apply keeps_refl].
  split; [split; [lia|]; by rewrite Hda|]. split.
  - apply reflexive_eq, Forall_bind_ext, Forall_forall. intros i _. unfold heldAt. rewrite Hda. destruct (decide (i = idx)) as [->|Hne]; [by rewrite Hr, Hd|by rewrite (Ho i Hne)].
  - intros i. rewrite Hda. split; [|done]. destruct (decide (i = idx)) as [->|Hne]; [rewrite Hr, Hd; split; congruence|by rewrite (Ho i Hne)].
Qed.

Lemma forFields_keeps {A} (one : A -> FieldStates -> Outcome) fields f f' e : (forall field f f' e, field ∈ fields -> wellFormed f -> one field f = Some (f', e) -> keeps f f') -> wellFormed f -> forFields one fields f = Some (f', e) -> keeps f f'.
Proof using.
  revert f. induction fields as [|field fields IH]; intros f Hone Hwf E; cbn [forFields] in E; [injection E as <- <-; by apply keeps_refl|]. destruct (one field f) as [[f1 e1]|] eqn:E1; [|done]. assert (H1 : keeps f f1) by (eapply Hone; [apply elem_of_cons; by left|done|done]). destruct e1 as [e1|]; [by injection E as <- <-|]. eapply keeps_trans; [exact H1|]. apply IH; [|apply H1|done]. intros field' g g' e' Hf. apply Hone, elem_of_cons. by right.
Qed.

(** A call of [release] or [acquire], which may throw. *)
Inductive fieldStep (f f' : FieldStates) : Prop :=
  | step_release fields e : release fields f = Some (f', e) -> fieldStep f f'
  | step_acquire fields e : acquire fields f = Some (f', e) -> fieldStep f f'.

Lemma index_known field f : wellFormed f -> is_Some ((fieldStates_ f).[getFieldIndex field fieldNames]) -> 0 <= getFieldIndex field fieldNames < zlen fieldNames.
Proof using. intros (W1 & _) [state Hs]. pose proof (aget_Some_range _ _ _ Hs). lia. Qed.

Lemma fieldStep_keeps f f' : wellFormed f -> fieldStep f f' -> keeps f f'.
Proof using.
  intros Hwf [fields e E|fields e E]; (eapply forFields_keeps; [|done|exact E]); intros field g g' e' _ Hg E'.
  - apply (releaseIdx_keeps (getFieldIndex field fieldNames) g g' e' Hg); [|done]. apply (index_known field g Hg). unfold releaseOne, releaseIdx in E'. destruct ((fieldStates_ g).[_]); [by eexists|done].
  - apply (acquireIdx_keeps (getFieldIndex field fieldNames) g g' e' Hg); [|done]. apply (index_known field g Hg). unfold acquireOne, acquireIdx in E'. destruct ((fieldStates_ g).[_]); [by eexists|done].
Qed.

End Class.
Arguments FieldStates Memory : clear implicits.

(** ** Claims *)

(** C33: After any sequence of calls of [release] and [acquire], whether they throw or not, the allocated memory of each type is the same as
    before, conserved fields are untouched and no other field has become conserved.  In each of these states a known field can be
    acquired exactly if it is unused and a released field of its type exists; it then becomes a dependent field with the memory of the
    first such field, which becomes unused; and it can be released exactly if it is dependent.  All other calls throw and change
    nothing. *)
Theorem fieldStates_guarantees fieldNames {Ty} `{!EqDecision Ty} (fieldTypes : list Ty) {Memory} (f f' : FieldStates Memory) :
  wellFormed fieldNames fieldTypes f -> rtc (fieldStep fieldNames fieldTypes) f f' ->
  keeps fieldNames fieldTypes f f' /\
  forall field, field ∈ fieldNames -> let idx := getFieldIndex field fieldNames in
    (exists f1 e, acquireOne fieldNames fieldTypes field f' = Some (f1, e) /\
      ((fieldStates_ f').[idx] = Some unused /\ (exists i, suitable fieldTypes f' i idx /\ (forall j, 0 <= j < i -> ~ suitable fieldTypes f' j idx) /\ e = None /\ wellFormed fieldNames fieldTypes f1 /\ passedOn f' f1 i idx) \/
       (fieldStates_ f').[idx] = Some unused /\ (forall i, ~ suitable fieldTypes f' i idx) /\ e = Some (NotAvailable idx) /\ f1 = f' \/
       (fieldStates_ f').[idx] <> Some unused /\ e = Some (AlreadyInUse idx) /\ f1 = f')) /\
    (exists f1 e, releaseOne fieldNames field f' = Some (f1, e) /\
      ((fieldStates_ f').[idx] = Some dependent /\ e = None /\ (fieldStates_ f1).[idx] = Some released /\ data_ f1 = data_ f' /\ zlen (fieldStates_ f1) = zlen (fieldStates_ f') /\ (forall j, j <> idx -> (fieldStates_ f1).[j] = (fieldStates_ f').[j]) \/
       (fieldStates_ f').[idx] <> Some dependent /\ e = Some (WrongState idx) /\ f1 = f')).
Proof.
  intros Hwf Hsteps. assert (Hk : keeps fieldNames fieldTypes f f').
  { induction Hsteps as [f|f f1 f2 Hs _ IH]; [by apply keeps_refl|]. pose proof (fieldStep_keeps fieldNames fieldTypes f f1 Hwf Hs) as H1. eapply keeps_trans; [exact H1|]. apply IH, H1. }
  split; [done|]. destruct Hk as (Hwf' & _). intros field Hin idx. destruct (getFieldIndex_range field fieldNames) as [Hr Hg]. specialize (Hg Hin). apply aget_Some_range in Hg. fold idx in Hg. split; [by apply acquireIdx_run|]. apply releaseIdx_run. destruct Hwf' as (-> & _). done.
Qed.

(** Four fields, one of another type; [y] has been released. *)
Definition someNames : list string := ["x"; "y"; "h"; "c"]%string.
Definition someTypes : list Z := [0; 0; 1; 0].
Definition someFields : FieldStates Z := mkFieldStates [conserved; dependent; dependent; unused] [10; 11; 12; 13].
Definition passedFields : FieldStates Z := mkFieldStates [conserved; unused; released; dependent] [10; 13; 12; 11].

Lemma fieldStates_guarantees_witness :
  keeps someNames someTypes someFields passedFields /\
  exists f1 e, acquireOne someNames someTypes "y" passedFields = Some (f1, e) /\ (e = None \/ f1 = passedFields).
Proof.
  destruct (fieldStates_guarantees someNames someTypes someFields passedFields) as [Hk Hf].
  - repeat split; reflexivity.
  - apply rtc_l with (mkFieldStates [conserved; released; released; unused] [10; 11; 12; 13]); [by apply (step_release someNames someTypes _ _ ["y"; "h"]%string None)|]. apply rtc_once. by apply (step_acquire someNames someTypes _ _ ["c"]%string None).
  - split; [exact Hk|]. destruct (Hf "y"%string) as [(f1 & e & E & H) _]; [apply elem_of_cons; right; apply elem_of_cons; by left|]. exists f1, e. split; [exact E|]. destruct H as [(_ & i & _ & _ & He & _)|[(_ & _ & _ & He)|(_ & _ & He)]]; [by left|by right..].
Defined.

(** The call for the field [y] throws: the released field has another type. *)
Example acquire_other_type : acquire someNames someTypes ["y"]%string passedFields = Some (passedFields, Some (NotAvailable 1)).
Proof. reflexivity. Qed.

(** The fields of a call up to the one that throws have been released. *)
Example release_partly : release someNames ["y"; "x"; "h"]%string someFields = Some (mkFieldStates [conserved; released; dependent; unused] [10; 11; 12; 13], Some (WrongState 0)).
Proof. reflexivity. Qed.

(** An unknown field throws in [setConserved]; in [release] and [acquire] its state is read beyond the end of the array. *)
Lemma unknown_field fieldNames {Ty} `{!EqDecision Ty} (fieldTypes : list Ty) {Memory} (f : FieldStates Memory) field : wellFormed fieldNames fieldTypes f -> field ∉ fieldNames ->
  setConserved fieldNames [field] f = Some (f, Some (UnknownField field)) /\ release fieldNames [field] f = None /\ acquire fieldNames fieldTypes [field] f = None.
Proof.
  intros (W1 & _) Hni. assert (Hi : getFieldIndex field fieldNames = zlen fieldNames). { clear W1. induction fieldNames as [|name names IH]; [done|]. cbn [getFieldIndex]. rewrite decide_False by (intros ->; apply Hni, elem_of_cons; by left). rewrite zlen_cons, IH; [lia|]. intros H. apply Hni, elem_of_cons. by right. }
  unfold setConserved, release, acquire. cbn [forFields]. unfold setState, releaseOne, releaseIdx, acquireOne, acquireIdx. rewrite Hi, W1, Z.eqb_refl. rewrite aget_None by lia. done.
Qed.

(** The positions of known fields are found, the first unknown field is reported. *)
Lemma fieldStringsToInt_run subset names : (Forall (fun name => name ∈ names) subset /\ exists indices, fieldStringsToInt subset names = inr indices /\ (aget names <$> indices) = (Some <$> subset)) \/
  exists before name after, subset = before ++ name :: after /\ Forall (fun name => name ∈ names) before /\ (name ∉ names) /\ fieldStringsToInt subset names = inl (UnknownField name).
Proof.
  assert (Hk : forall name, if getFieldIndex name names =? zlen names then name ∉ names else name ∈ names /\ names.[getFieldIndex name names] = Some name).
  { intros name. destruct (getFieldIndex_range name names) as [Hr Hin]. destruct (Z.eqb_spec (getFieldIndex name names) (zlen names)) as [He|He]; [intros H; specialize (Hin H); apply aget_Some_range in Hin; lia|]. clear Hin Hr. induction names as [|n names IH]; [done|]. cbn [getFieldIndex] in *. case_decide as Hd; [subst; split; [apply elem_of_cons; by left|done]|]. rewrite zlen_cons in He. destruct IH as [I1 I2]; [lia|]. split; [apply elem_of_cons; by right|]. pose proof (aget_Some_range _ _ _ I2). rewrite aget_cons_S by lia. by replace (1 + getFieldIndex name names - 1) with (getFieldIndex name names) by lia. }
  induction subset as [|name subset IH]; [left; split; [done|by exists []]|]. cbn [fieldStringsToInt]. specialize (Hk name). destruct (Z.eqb_spec (getFieldIndex name names) (zlen names)) as [He|He]; [right; by exists [], name, subset|]. destruct Hk as [Hin Hg]. destruct IH as [(Hf & indices & -> & Ei)|(before & n & after & -> & Hb & Hn & ->)].
  - left. split; [by constructor|]. eexists. split; [done|]. by rewrite !fmap_cons, Ei, Hg.
  - right. exists (name :: before), n, after. split; [done|]. split; [by constructor|done].
Qed.
