(* ===== verification/SfcCommon.v ===== *)
(** * Space filling curve keys

    [cstone/tree/definitions.h] and [cstone/sfc/common.hpp]: the key types, the
    arithmetic on SFC keys that does not depend on the curve (node ranges, common
    prefixes, Warren-Salmon placeholder keys, octal digits) and [spanSfcRange], which
    covers a key range with octree nodes.  The functions are total: the assertions of [nodeRange] and
    [treeLevel] on their arguments are premises of the lemmas instead. *)

From S2P Require Import Prelude Primitives.

(** ** definitions.h *)

(** The two unsigned integer types that keys are instantiated with. *)
Inductive KeyType := Key32 | Key64.

#[export] Instance KeyType_eq_dec : EqDecision KeyType.
Proof. solve_decision. Defined.

Definition keyBits (k : KeyType) : Z := match k with Key32 => 32 | Key64 => 64 end.
Definition unusedBits (k : KeyType) : Z := match k with Key32 => 2 | Key64 => 1 end.
Definition maxTreeLevel (k : KeyType) : Z := match k with Key32 => 10 | Key64 => 21 end.

(** Wrap-around of the key type. *)
Definition kwrap (k : KeyType) (x : Z) : Z := wrap (keyBits k) x.

Definition removeKey (k : KeyType) : Z := kwrap k (u64 (Z.shiftl 1 (3 * maxTreeLevel k))).
Definition maxCoord (k : KeyType) : Z := u32 (Z.shiftl 1 (maxTreeLevel k)).

(** A vector of [n] keys is a tree of [n - 1] nodes (asserts a non-empty vector). *)
Definition nNodes {A} (tree : list A) : Z := zlen tree - 1.

(** ** common.hpp *)

Definition pad (k : KeyType) (prefix length : Z) : Z :=
  kwrap k (Z.shiftl prefix (3 * maxTreeLevel k - length)).

Definition nodeRange (k : KeyType) (treeLevel : Z) : Z :=
  let shifts := u32 (maxTreeLevel k - treeLevel) in
  kwrap k (u64 (Z.shiftl 1 (u32 (3 * shifts)))).

Definition log8ceil (k : KeyType) (n : Z) : Z :=
  if n =? 0 then 0
  else
    let lz := countLeadingZeros (keyBits k) (kwrap k (n - 1)) in
    u32 (maxTreeLevel k - u32 (lz - unusedBits k) / 3).

Definition isPowerOf8 (k : KeyType) (n : Z) : bool :=
  let lz := u32 (countLeadingZeros (keyBits k) (kwrap k (n - 1)) - unusedBits k) in
  (lz mod 3 =? 0) && (Z.land n (kwrap k (n - 1)) =? 0).

Definition commonPrefix (k : KeyType) (key1 key2 : Z) : Z :=
  i32 (u32 (countLeadingZeros (keyBits k) (Z.lxor key1 key2) - unusedBits k)).

Definition treeLevel (k : KeyType) (codeRange : Z) : Z :=
  u32 (countLeadingZeros (keyBits k) (kwrap k (codeRange - 1)) - unusedBits k) / 3.

Definition encodePlaceholderBit (k : KeyType) (code prefixLength : Z) : Z :=
  let nShifts := 3 * maxTreeLevel k - prefixLength in
  let ret := Z.shiftr code nShifts in
  let placeHolderMask := kwrap k (Z.shiftl 1 prefixLength) in
  Z.lor placeHolderMask ret.

Definition encodePlaceholderBit2K (k : KeyType) (k1 k2 : Z) : Z :=
  let prefixLength :=
    u32 (countLeadingZeros (keyBits k) (kwrap k (k2 - k1 - 1)) - unusedBits k) in
  encodePlaceholderBit k k1 prefixLength.

Definition decodePrefixLength (k : KeyType) (code : Z) : Z :=
  u32 (keyBits k - 1 - countLeadingZeros (keyBits k) code).

Definition decodePlaceholderBit (k : KeyType) (code : Z) : Z :=
  let prefixLength := decodePrefixLength k code in
  let placeHolderMask := kwrap k (Z.shiftl 1 prefixLength) in
  let ret := Z.lxor code placeHolderMask in
  kwrap k (Z.shiftl ret (3 * maxTreeLevel k - prefixLength)).

Definition decodePlaceholderBit2K (k : KeyType) (code : Z) : Z * Z :=
  let prefixLength := decodePrefixLength k code in
  let placeHolderMask := kwrap k (Z.shiftl 1 prefixLength) in
  let ret := Z.lxor code placeHolderMask in
  let nShifts := 3 * maxTreeLevel k - prefixLength in
  let k1 := kwrap k (Z.shiftl ret nShifts) in
  (k1, kwrap k (k1 + kwrap k (Z.shiftl 1 nShifts))).

(** Node lookup by placeholder key in the level-sorted node array. *)
Definition locateNode (k : KeyType) (nodeKey : Z) (prefixes levelRange : list Z) : option Z :=
  let? numNodes := levelRange.[maxTreeLevel k + 1] in
  let level := decodePrefixLength k nodeKey / 3 in
  let? first := levelRange.[level] in
  let? last := levelRange.[level + 1] in
  let? it := lower_bound prefixes first last nodeKey in
  if it =? numNodes then Some numNodes
  else
    let? p := prefixes.[it] in
    Some (if p =? nodeKey then it else numNodes).

(** Overload that takes the key range of the node. *)
Definition locateNodeKeys (k : KeyType) (startKey endKey : Z) (prefixes levelRange : list Z) : option Z :=
  let prefixLength :=
    u32 (countLeadingZeros (keyBits k) (kwrap k (endKey - startKey - 1)) - unusedBits k) in
  locateNode k (encodePlaceholderBit k startKey prefixLength) prefixes levelRange.

Definition maskKey (k : KeyType) (key : Z) : Z :=
  if (key =? 0) || (key =? nodeRange k 0) then key else Z.lor key (nodeRange k 0).

Definition unmaskKey (k : KeyType) (key : Z) : Z :=
  if key =? nodeRange k 0 then key else Z.land key (kwrap k (nodeRange k 0 - 1)).

Definition isMasked (k : KeyType) (key : Z) : bool := nodeRange k 0 <? key.

Definition octalDigit (k : KeyType) (code position : Z) : Z :=
  Z.land (Z.shiftr code (u32 (3 * u32 (maxTreeLevel k - position)))) 7.

Definition isAncestor (k : KeyType) (a b : Z) : bool :=
  let alen := decodePrefixLength k a in
  let blen := decodePrefixLength k b in
  let a := kwrap k (Z.shiftl a (stl_max 0 (blen - alen))) in
  let commonBits := countLeadingZeros (keyBits k) (Z.lxor a b) in
  1 + countLeadingZeros (keyBits k) b + stl_max 0 (alen - 3) <=? commonBits.

Definition digitWeight (digit : Z) : Z :=
  let fourGeqMask := - Z.b2z (4 <=? digit) in
  Z.land (7 - digit) fourGeqMask - Z.land digit (Z.lnot fourGeqMask).

Definition enclosingBoxCode (k : KeyType) (key treeLevel : Z) : Z :=
  let mask := kwrap k (nodeRange k treeLevel - 1) in
  kwrap k (Z.land key (Z.lnot mask)).

Definition smallestCommonBox (k : KeyType) (firstKey secondKey : Z) : Z * Z :=
  let commonLevel := Z.quot (commonPrefix k firstKey secondKey) 3 in
  let nodeStart := enclosingBoxCode k firstKey commonLevel in
  (nodeStart, kwrap k (nodeStart + nodeRange k commonLevel)).

Definition zeroLowBits (k : KeyType) (code nBits : Z) : Z :=
  let nLowerBits := u32 (3 * maxTreeLevel k - nBits) in
  let mask := kwrap k (kwrap k (Z.shiftl 1 nLowerBits) - 1) in
  Z.land code (Z.lnot mask).

Definition lastNzPlace (k : KeyType) (x : Z) : Z :=
  if x =? 0 then maxTreeLevel k else maxTreeLevel k - countTrailingZeros x / 3.

Definition makePrefix (k : KeyType) (a : Z) : Z :=
  if a =? 0 then 1
  else
    let level := lastNzPlace k a in
    encodePlaceholderBit k a (3 * level).

Definition octalPower (k : KeyType) (pos : Z) : Z :=
  kwrap k (Z.shiftl 1 (3 * (maxTreeLevel k - pos))).

(** [while (numDigits--) { *output++ = a; a += power; }]: the codes written and the
    final value of [a]. *)
Fixpoint spanDigits (k : KeyType) (numDigits : nat) (a power : Z) : list Z * Z :=
  match numDigits with
  | O => ([], a)
  | S n => let '(out, a') := spanDigits k n (kwrap k (a + power)) power in (a :: out, a')
  end.

(** Body of both loops of [spanSfcRange] on the state ([numValues], output, [a]).  A
    negative [numDigits] would make [while (numDigits--)] run past zero. *)
Definition spanStep (k : KeyType) (numDigits pos : Z) (st : Z * list Z * Z) : option (Z * list Z * Z) :=
  let '(numValues, out, a) := st in
  if numDigits <? 0 then None
  else
    let '(vals, a') := spanDigits k (Z.to_nat numDigits) a (octalPower k pos) in
    Some (numValues + numDigits, out ++ vals, a').

(** Number of values and the values stored behind [output]. *)
Definition spanSfcRange (k : KeyType) (a b : Z) : option (Z * list Z) :=
  let ab_first_diff_pos :=
    u32 (countLeadingZeros (keyBits k) (Z.lxor a b) + 3 - unusedBits k) / 3 in
  let a_last_nz_pos := lastNzPlace k a in
  let b_last_nz_pos := lastNzPlace k b in
  let? st := foldM (fun pos st =>
      let '(_, _, a) := st in
      spanStep k ((8 - octalDigit k a pos) mod 8) pos st)
    (reverse (seqZ (ab_first_diff_pos + 1) (a_last_nz_pos - ab_first_diff_pos))) (0, [], a) in
  let? st := foldM (fun pos st =>
      let '(_, _, a) := st in
      spanStep k (octalDigit k b pos - octalDigit k a pos) pos st)
    (seqZ ab_first_diff_pos (b_last_nz_pos - ab_first_diff_pos + 1)) st in
  let '(numValues, out, _) := st in
  Some (numValues, out).

(** Overload that only counts. *)
Definition spanSfcRangeCount (k : KeyType) (a b : Z) : option Z :=
  let? r := spanSfcRange k a b in Some (fst r).

(** ** Powers of eight *)

Lemma pow8_pow2 n : 0 <= n -> 8 ^ n = 2 ^ (3 * n).
Proof. intros. change 8 with (2 ^ 3). by rewrite <- Z.pow_mul_r by lia. Qed.

Lemma pow8_pos n : 0 <= n -> 0 < 8 ^ n.
Proof. intros. apply Z.pow_pos_nonneg; lia. Qed.

Lemma pow8_succ n : 0 <= n -> 8 ^ (n + 1) = 8 * 8 ^ n.
Proof. intros. rewrite Z.pow_add_r by lia. lia. Qed.

Lemma pow8_mono m n : 0 <= m <= n -> 8 ^ m <= 8 ^ n.
Proof. intros. apply Z.pow_le_mono_r; lia. Qed.

Lemma pow8_mono_inv m n : 0 <= n -> 8 ^ m < 8 ^ n -> m < n.
Proof. intros. apply (Z.pow_lt_mono_r_iff 8); lia. Qed.

Lemma pow8_inj m n : 0 <= m -> 0 <= n -> 8 ^ m = 8 ^ n -> m = n.
Proof. intros. apply (Z.pow_inj_r 8); lia. Qed.

Lemma pow8_divide m n : 0 <= m <= n -> (8 ^ m | 8 ^ n).
Proof. intros. exists (8 ^ (n - m)). rewrite <- Z.pow_add_r by lia. f_equal; lia. Qed.

#[export] Hint Resolve pow8_pos pow8_mono pow8_divide : cstone.

(** Number of key bits in use, and the largest key. *)
Definition keyMax (k : KeyType) : Z := 8 ^ maxTreeLevel k.

Lemma keyBits_eq k : keyBits k = 3 * maxTreeLevel k + unusedBits k.
Proof. by destruct k. Qed.

Lemma maxTreeLevel_pos k : 0 < maxTreeLevel k <= 21.
Proof. destruct k; simpl; lia. Qed.

Lemma unusedBits_pos k : 1 <= unusedBits k <= 2.
Proof. destruct k; simpl; lia. Qed.

Lemma keyMax_bound k : 2 * keyMax k <= 2 ^ keyBits k.
Proof. destruct k; vm_compute; congruence. Qed.

Lemma keyMax_pos k : 0 < keyMax k.
Proof. destruct k; by vm_compute. Qed.

#[export] Hint Resolve keyMax_pos maxTreeLevel_pos : cstone.

(** The facts about a key type that arithmetic needs. *)
Ltac kfacts k :=
  pose proof (keyBits_eq k); pose proof (maxTreeLevel_pos k); pose proof (unusedBits_pos k);
  pose proof (keyMax_bound k); pose proof (keyMax_pos k).

Lemma kwrap_small k x : 0 <= x < 2 * keyMax k -> kwrap k x = x.
Proof. intros. kfacts k. apply wrap_small. lia. Qed.

Lemma pow8_le_keyMax k n : 0 <= n <= maxTreeLevel k -> 0 < 8 ^ n <= keyMax k.
Proof. intros. split; [auto with cstone lia|]. unfold keyMax. apply pow8_mono. lia. Qed.

Lemma nodeRange_pow8 k level :
  0 <= level <= maxTreeLevel k -> nodeRange k level = 8 ^ (maxTreeLevel k - level).
Proof.
  intros. kfacts k. unfold nodeRange. rewrite (u32_small (maxTreeLevel k - level)), u32_small by lia.
  rewrite Z.shiftl_1_l, <- pow8_pow2 by lia.
  pose proof (pow8_le_keyMax k (maxTreeLevel k - level) ltac:(lia)).
  rewrite u64_small, kwrap_small by (destruct k; unfold keyMax, maxTreeLevel in *; lia). done.
Qed.

Lemma nodeRange_0 k : nodeRange k 0 = keyMax k.
Proof. kfacts k. rewrite nodeRange_pow8 by lia. by rewrite Z.sub_0_r. Qed.

Lemma removeKey_keyMax k : removeKey k = keyMax k.
Proof. by destruct k. Qed.

Lemma octalPower_pow8 k pos :
  0 <= pos <= maxTreeLevel k -> octalPower k pos = 8 ^ (maxTreeLevel k - pos).
Proof.
  intros. unfold octalPower. rewrite Z.shiftl_1_l, <- pow8_pow2 by lia.
  pose proof (pow8_le_keyMax k (maxTreeLevel k - pos) ltac:(lia)).
  apply kwrap_small. lia.
Qed.

(** ** Leading zeros of key ranges *)

Lemma countLeadingZeros_log2 w x : 0 < x -> countLeadingZeros w x = w - 1 - Z.log2 x.
Proof. intros. unfold countLeadingZeros, builtin_clz. zcase; lia. Qed.

(** [x] fits in [n] bits exactly when it has at least [w - n] leading zeros. *)
Lemma countLeadingZeros_bits w x n :
  0 <= n -> 0 <= x -> n <= w -> (x < 2 ^ n <-> w - n <= countLeadingZeros w x).
Proof.
  intros Hn Hx Hw. unfold countLeadingZeros. destruct (Z.eqb_spec x 0) as [->|].
  - split; intros; [lia|]. apply Z.pow_pos_nonneg; lia.
  - unfold builtin_clz. split; intros H.
    + assert (Z.log2 x < n) by (apply Z.log2_lt_pow2; lia). lia.
    + apply Z.log2_lt_pow2; lia.
Qed.

Lemma countLeadingZeros_range w x :
  0 < w -> 0 <= x < 2 ^ w -> 0 <= countLeadingZeros w x <= w.
Proof.
  intros Hw Hx. unfold countLeadingZeros. zcase; [lia|]. unfold builtin_clz.
  pose proof (Z.log2_nonneg x). assert (Z.log2 x < w) by (apply Z.log2_lt_pow2; lia). lia.
Qed.

Lemma countLeadingZeros_pow8_pred k n :
  0 <= n <= maxTreeLevel k -> countLeadingZeros (keyBits k) (8 ^ n - 1) = keyBits k - 3 * n.
Proof.
  intros Hn. destruct (decide (n = 0)) as [->|]; [by destruct k|].
  rewrite countLeadingZeros_log2 by (assert (8 ^ 1 <= 8 ^ n) by (apply pow8_mono; lia); lia).
  rewrite pow8_pow2 by lia. rewrite (Z.sub_1_r (2 ^ _)), Z.log2_pred_pow2 by lia. lia.
Qed.

Lemma treeLevel_pow8 k n :
  0 <= n <= maxTreeLevel k -> treeLevel k (8 ^ n) = maxTreeLevel k - n.
Proof.
  intros Hn. kfacts k. pose proof (pow8_le_keyMax k n Hn).
  unfold treeLevel. rewrite kwrap_small by lia. rewrite countLeadingZeros_pow8_pred by done.
  rewrite u32_small by lia. replace (keyBits k - 3 * n - unusedBits k) with ((maxTreeLevel k - n) * 3) by lia.
  apply Z.div_mul. lia.
Qed.

(** ** Octal digits *)

Lemma land_7 x : Z.land x 7 = x mod 8.
Proof. change 7 with (Z.ones 3). by rewrite Z.land_ones by lia. Qed.

(** [octalDigit] at position [pos] is the digit of weight [8^(max-pos)]. *)
Lemma octalDigit_div k code pos :
  0 <= pos <= maxTreeLevel k ->
  octalDigit k code pos = (code / 8 ^ (maxTreeLevel k - pos)) mod 8.
Proof.
  intros. kfacts k. unfold octalDigit. rewrite (u32_small (maxTreeLevel k - pos)), u32_small by lia.
  rewrite land_7, Z.shiftr_div_pow2, <- pow8_pow2 by lia. done.
Qed.

Lemma octalDigit_range k code pos : 0 <= octalDigit k code pos < 8.
Proof. unfold octalDigit. rewrite land_7. apply Z.mod_pos_bound. lia. Qed.

(** ** Enclosing boxes *)

Lemma land_lnot_ones x n : 0 <= n -> Z.land x (Z.lnot (Z.ones n)) = 2 ^ n * (x / 2 ^ n).
Proof.
  intros Hn. rewrite <- Z.ldiff_land, Z.ldiff_ones_r by lia.
  rewrite Z.shiftr_div_pow2, Z.shiftl_mul_pow2 by lia. lia.
Qed.

Lemma enclosingBoxCode_floor k key level :
  0 <= level <= maxTreeLevel k -> 0 <= key < 2 * keyMax k ->
  enclosingBoxCode k key level =
    8 ^ (maxTreeLevel k - level) * (key / 8 ^ (maxTreeLevel k - level)).
Proof.
  intros Hl Hk. kfacts k. pose proof (pow8_le_keyMax k (maxTreeLevel k - level) ltac:(lia)).
  unfold enclosingBoxCode. rewrite nodeRange_pow8 by done.
  rewrite (kwrap_small k (_ - 1)) by lia.
  assert (8 ^ (maxTreeLevel k - level) - 1 = Z.ones (3 * (maxTreeLevel k - level))) as ->
    by (rewrite Z.ones_equiv, pow8_pow2; lia).
  rewrite land_lnot_ones, <- pow8_pow2 by lia. apply kwrap_small.
  split; [|pose proof (Z.mul_div_le key (8 ^ (maxTreeLevel k - level))); lia].
  apply Z.mul_nonneg_nonneg; [lia|]. apply Z.div_pos; lia.
Qed.

(** Two keys agree above bit [n] exactly when their XOR has no bit there. *)
Lemma lxor_lt_pow2 a b n :
  0 <= n -> 0 <= a -> 0 <= b -> (Z.lxor a b < 2 ^ n <-> a / 2 ^ n = b / 2 ^ n).
Proof.
  intros Hn Ha Hb. assert (0 <= Z.lxor a b) by (apply Z.lxor_nonneg; lia).
  assert (0 < 2 ^ n) by (apply Z.pow_pos_nonneg; lia).
  assert (Z.lxor a b < 2 ^ n <-> Z.lxor a b / 2 ^ n = 0) as -> by (rewrite Z.div_small_iff; lia).
  rewrite <- !Z.shiftr_div_pow2, Z.shiftr_lxor by lia. split.
  - intros H1. by apply Z.lxor_eq_0_iff.
  - intros ->. apply Z.lxor_nilpotent.
Qed.

(** ** Placeholder-bit keys *)

Lemma land_pow2_small n r : 0 <= n -> 0 <= r < 2 ^ n -> Z.land (2 ^ n) r = 0.
Proof.
  intros Hn Hr. apply Z.bits_inj'. intros i Hi. rewrite Z.land_spec, Z.pow2_bits_eqb, Z.bits_0 by lia.
  destruct (Z.eqb_spec n i) as [<-|]; [|done]. simpl. rewrite <- (Z.mod_small r (2 ^ n)) by lia.
  by apply Z.mod_pow2_bits_high; lia.
Qed.

Lemma lor_pow2_small n r : 0 <= n -> 0 <= r < 2 ^ n -> Z.lor (2 ^ n) r = 2 ^ n + r.
Proof.
  intros Hn Hr. pose proof (land_pow2_small n r Hn Hr).
  rewrite Z.add_nocarry_lxor by done. by rewrite Z.lxor_lor.
Qed.

Lemma lxor_pow2_small n r : 0 <= n -> 0 <= r < 2 ^ n -> Z.lxor (2 ^ n + r) (2 ^ n) = r.
Proof.
  intros Hn Hr. rewrite Z.add_nocarry_lxor by by apply land_pow2_small.
  rewrite (Z.lxor_comm (2 ^ n)), Z.lxor_assoc, Z.lxor_nilpotent. apply Z.lxor_0_r.
Qed.

Lemma keyMax_pow2 k : keyMax k = 2 ^ (3 * maxTreeLevel k).
Proof. by destruct k. Qed.

Lemma pow2_le_keyMax k n : 0 <= n <= 3 * maxTreeLevel k -> 0 < 2 ^ n <= keyMax k.
Proof.
  intros. split; [apply Z.pow_pos_nonneg; lia|]. rewrite keyMax_pow2. apply Z.pow_le_mono_r; lia.
Qed.

(** Value of an encoded key: a one bit in front of the leading [len] key bits. *)
Lemma encodePlaceholderBit_val k code len :
  0 <= len <= 3 * maxTreeLevel k -> 0 <= code < keyMax k ->
  encodePlaceholderBit k code len = 2 ^ len + code / 2 ^ (3 * maxTreeLevel k - len).
Proof.
  intros Hl Hc. pose proof (pow2_le_keyMax k len Hl). unfold encodePlaceholderBit.
  rewrite Z.shiftl_1_l, kwrap_small by lia. rewrite Z.shiftr_div_pow2 by lia.
  apply lor_pow2_small; [lia|]. split.
  - apply Z.div_pos; [lia|]. apply Z.pow_pos_nonneg; lia.
  - apply Z.div_lt_upper_bound; [apply Z.pow_pos_nonneg; lia|].
    rewrite <- Z.pow_add_r by lia. replace (_ - len + len) with (3 * maxTreeLevel k) by lia.
    rewrite <- keyMax_pow2. lia.
Qed.

Lemma log2_placeholder n r : 0 <= n -> 0 <= r < 2 ^ n -> Z.log2 (2 ^ n + r) = n.
Proof. intros. apply Z.log2_unique; [lia|]. rewrite Z.pow_succ_r by lia. lia. Qed.

Lemma decodePrefixLength_val k n r :
  0 <= n <= 3 * maxTreeLevel k -> 0 <= r < 2 ^ n -> decodePrefixLength k (2 ^ n + r) = n.
Proof.
  intros Hn Hr. kfacts k. unfold decodePrefixLength.
  rewrite countLeadingZeros_log2, log2_placeholder by lia. rewrite u32_small; lia.
Qed.

Lemma decodePlaceholderBit_val k n r :
  0 <= n <= 3 * maxTreeLevel k -> 0 <= r < 2 ^ n ->
  decodePlaceholderBit k (2 ^ n + r) = r * 2 ^ (3 * maxTreeLevel k - n).
Proof.
  intros Hn Hr. pose proof (pow2_le_keyMax k n Hn). unfold decodePlaceholderBit.
  rewrite decodePrefixLength_val by done. rewrite Z.shiftl_1_l, (kwrap_small k (2 ^ n)) by lia.
  rewrite lxor_pow2_small by lia. rewrite Z.shiftl_mul_pow2 by lia. apply kwrap_small.
  pose proof (Z.pow_pos_nonneg 2 (3 * maxTreeLevel k - n) ltac:(lia) ltac:(lia)).
  split; [nia|]. rewrite keyMax_pow2.
  replace (3 * maxTreeLevel k) with (n + (3 * maxTreeLevel k - n)) at 2 by lia.
  rewrite Z.pow_add_r by lia. nia.
Qed.

Lemma decodePlaceholderBit2K_val k n r :
  0 <= n <= 3 * maxTreeLevel k -> 0 <= r < 2 ^ n ->
  decodePlaceholderBit2K k (2 ^ n + r) =
    (r * 2 ^ (3 * maxTreeLevel k - n), (r + 1) * 2 ^ (3 * maxTreeLevel k - n)).
Proof.
  intros Hn Hr. pose proof (decodePlaceholderBit_val k n r Hn Hr) as Hd.
  pose proof (pow2_le_keyMax k (3 * maxTreeLevel k - n) ltac:(lia)).
  unfold decodePlaceholderBit2K. unfold decodePlaceholderBit in Hd.
  rewrite decodePrefixLength_val in * by done. rewrite Hd. rewrite (Z.shiftl_1_l (3 * _ - n)).
  rewrite (kwrap_small k (2 ^ (3 * _ - n))) by lia. f_equal.
  rewrite kwrap_small; [lia|]. split; [nia|]. rewrite keyMax_pow2.
  replace (3 * maxTreeLevel k) with (n + (3 * maxTreeLevel k - n)) at 3 by lia.
  rewrite Z.pow_add_r by lia. nia.
Qed.

(** Every non-zero key of the placeholder format splits into its one bit and a rest. *)
Lemma placeholder_split k p :
  0 < p < 2 * keyMax k ->
  exists n r, p = 2 ^ n + r /\ 0 <= n <= 3 * maxTreeLevel k /\ 0 <= r < 2 ^ n.
Proof.
  intros Hp. kfacts k. exists (Z.log2 p), (p - 2 ^ Z.log2 p).
  pose proof (Z.log2_spec p ltac:(lia)) as Hs. rewrite Z.pow_succ_r in Hs by apply Z.log2_nonneg.
  pose proof (Z.log2_nonneg p).
  assert (Z.log2 p < 3 * maxTreeLevel k + 1).
  { apply Z.log2_lt_pow2; [lia|]. rewrite Z.pow_add_r by lia. rewrite <- keyMax_pow2. lia. }
  repeat split; lia.
Qed.

(** Encoding a node of level [level] and decoding it gives back its first key. *)
Lemma decode_encode k code level :
  0 <= level <= maxTreeLevel k -> 0 <= code < keyMax k -> (8 ^ (maxTreeLevel k - level) | code) ->
  decodePlaceholderBit k (encodePlaceholderBit k code (3 * level)) = code /\
  decodePrefixLength k (encodePlaceholderBit k code (3 * level)) = 3 * level.
Proof.
  intros Hl Hc [q ->]. rewrite encodePlaceholderBit_val by lia.
  replace (3 * maxTreeLevel k - 3 * level) with (3 * (maxTreeLevel k - level)) by lia.
  rewrite <- (pow8_pow2 (maxTreeLevel k - level)) by lia. pose proof (pow8_pos (maxTreeLevel k - level) ltac:(lia)).
  rewrite Z.div_mul by lia.
  assert (0 <= q < 2 ^ (3 * level)).
  { split; [nia|]. rewrite keyMax_pow2 in Hc.
    replace (3 * maxTreeLevel k) with (3 * level + 3 * (maxTreeLevel k - level)) in Hc by lia.
    rewrite Z.pow_add_r, <- !pow8_pow2 in * by lia. nia. }
  rewrite decodePlaceholderBit_val, decodePrefixLength_val by (lia || done).
  replace (3 * maxTreeLevel k - 3 * level) with (3 * (maxTreeLevel k - level)) by lia.
  by rewrite <- (pow8_pow2 (maxTreeLevel k - level)) by lia.
Qed.

(** Decoding a placeholder key and encoding it again with its own length is the identity. *)
Lemma encode_decode k p :
  0 < p < 2 * keyMax k ->
  encodePlaceholderBit k (decodePlaceholderBit k p) (decodePrefixLength k p) = p.
Proof.
  intros Hp. destruct (placeholder_split k p Hp) as (n & r & -> & Hn & Hr).
  rewrite decodePlaceholderBit_val, decodePrefixLength_val by done.
  pose proof (Z.pow_pos_nonneg 2 (3 * maxTreeLevel k - n) ltac:(lia) ltac:(lia)).
  rewrite encodePlaceholderBit_val; [by rewrite Z.div_mul by lia|lia|].
  split; [nia|]. rewrite keyMax_pow2.
  replace (3 * maxTreeLevel k) with (n + (3 * maxTreeLevel k - n)) at 2 by lia.
  rewrite Z.pow_add_r by lia. nia.
Qed.

Lemma decodePlaceholderBit2K_fst k p :
  0 < p < 2 * keyMax k -> fst (decodePlaceholderBit2K k p) = decodePlaceholderBit k p.
Proof.
  intros Hp. destruct (placeholder_split k p Hp) as (n & r & -> & Hn & Hr).
  by rewrite decodePlaceholderBit2K_val, decodePlaceholderBit_val.
Qed.

(** ** Octree nodes as key ranges *)

(** [a, b) is the key range of an octree node: its length is a power of eight and its
    start is a multiple of its length. *)
Definition isNode (k : KeyType) (a b : Z) : Prop :=
  exists n, 0 <= n <= maxTreeLevel k /\ 0 <= a /\ (8 ^ n | a) /\ b = a + 8 ^ n /\ b <= keyMax k.

(** The nodes that start at the keys of [l] follow each other and cover [a, b). *)
Inductive cs_chain (k : KeyType) : Z -> list Z -> Z -> Prop :=
| chain_nil a : cs_chain k a [] a
| chain_cons a b l c : isNode k a b -> cs_chain k b l c -> cs_chain k a (a :: l) c.

#[export] Hint Constructors cs_chain : cstone.

Lemma cs_chain_app k a l1 b l2 c :
  cs_chain k a l1 b -> cs_chain k b l2 c -> cs_chain k a (l1 ++ l2) c.
Proof. induction 1; simpl; eauto with cstone. Qed.

Lemma cs_chain_app_inv k a l1 l2 c :
  cs_chain k a (l1 ++ l2) c -> exists b, cs_chain k a l1 b /\ cs_chain k b l2 c.
Proof.
  revert a; induction l1 as [|x l1 IH]; intros a H; simpl in *; [eauto with cstone|].
  inversion H; subst. destruct (IH b) as (d & H1 & H2); eauto with cstone.
Qed.

Lemma isNode_lt k a b : isNode k a b -> 0 <= a < b /\ b <= keyMax k.
Proof. intros (n & Hn & Ha & _ & -> & Hb). pose proof (pow8_pos n ltac:(lia)). lia. Qed.

Lemma cs_chain_le k a l b : cs_chain k a l b -> a <= b.
Proof. induction 1 as [|a b l c Hn _ IH]; [lia|]. apply isNode_lt in Hn. lia. Qed.

(** Consecutive nodes that satisfy [N] and cover [a, b). *)
Inductive chain_of (N : Z -> Z -> Prop) : Z -> list Z -> Z -> Prop :=
| chain_of_nil a : chain_of N a [] a
| chain_of_cons a b l c : N a b -> chain_of N b l c -> chain_of N a (a :: l) c.

#[export] Hint Constructors chain_of : cstone.

Lemma chain_of_app N a l1 b l2 c : chain_of N a l1 b -> chain_of N b l2 c -> chain_of N a (l1 ++ l2) c.
Proof. induction 1; simpl; eauto with cstone. Qed.

Lemma chain_of_cs k N a l b : (forall x y, N x y -> isNode k x y) -> chain_of N a l b -> cs_chain k a l b.
Proof. intros HN. induction 1; eauto with cstone. Qed.

(** A node inside of [lo, hi) whose parent is not inside. *)
Definition spanNode (k : KeyType) (lo hi a b : Z) : Prop :=
  exists n, 0 <= n <= maxTreeLevel k /\ 0 <= a /\ (8 ^ n | a) /\ b = a + 8 ^ n /\ b <= keyMax k /\
    (a / 8 ^ (n + 1) * 8 ^ (n + 1) < lo \/ hi < a / 8 ^ (n + 1) * 8 ^ (n + 1) + 8 ^ (n + 1)).

Lemma spanNode_isNode k lo hi a b : spanNode k lo hi a b -> isNode k a b.
Proof. intros (n & Hn & Ha & Hd & Hb & Hk & _). by exists n. Qed.

Lemma spanNode_lt k lo hi a b : spanNode k lo hi a b -> a < b.
Proof. intros (n & Hn & _ & _ & -> & _). pose proof (pow8_pos n ltac:(lia)). lia. Qed.

(** Equally sized consecutive nodes with the same parent. *)
Lemma spanDigits_chain k lo hi (n : nat) a m :
  0 <= m <= maxTreeLevel k -> 0 <= a -> (8 ^ m | a) -> a + Z.of_nat n * 8 ^ m <= keyMax k ->
  (n <> 0%nat -> (a + (Z.of_nat n - 1) * 8 ^ m) / 8 ^ (m + 1) = a / 8 ^ (m + 1)) ->
  (n <> 0%nat -> a / 8 ^ (m + 1) * 8 ^ (m + 1) < lo \/ hi < a / 8 ^ (m + 1) * 8 ^ (m + 1) + 8 ^ (m + 1)) ->
  exists vals, spanDigits k n a (8 ^ m) = (vals, a + Z.of_nat n * 8 ^ m) /\
    chain_of (spanNode k lo hi) a vals (a + Z.of_nat n * 8 ^ m) /\ length vals = n.
Proof.
  intros Hm. pose proof (pow8_pos m ltac:(lia)). pose proof (pow8_pos (m + 1) ltac:(lia)). revert a.
  induction n as [|n IH]; intros a Ha Hd Hle Hsame Hmax; simpl.
  - exists []. rewrite Z.add_0_r. auto with cstone.
  - rewrite kwrap_small by (kfacts k; nia). specialize (Hsame ltac:(done)). specialize (Hmax ltac:(done)).
    assert (Hsib : n <> 0%nat -> (a + 8 ^ m) / 8 ^ (m + 1) = a / 8 ^ (m + 1)).
    { intros Hn. apply Z.le_antisymm; [|apply Z.div_le_mono; lia]. rewrite <- Hsame. apply Z.div_le_mono; [lia|]. nia. }
    destruct (IH (a + 8 ^ m)) as (vals & -> & Hc & Hl); [lia| |nia| | |].
    { apply Z.divide_add_r; [done|apply Z.divide_refl]. }
    { intros Hn. rewrite (Hsib Hn), <- Hsame. f_equal. lia. }
    { intros Hn. rewrite (Hsib Hn). exact Hmax. }
    exists (a :: vals).
    replace (a + 8 ^ m + Z.of_nat n * 8 ^ m) with (a + Z.of_nat (S n) * 8 ^ m) in * by lia.
    split; [done|]. split; [|simpl; lia].
    eapply chain_of_cons; [|done]. exists m. repeat split; (done || lia || nia).
Qed.

Lemma spanStep_chain k lo hi nd pos st v out a a0 :
  st = (v, out, a) -> 0 <= pos <= maxTreeLevel k -> 0 <= a -> (8 ^ (maxTreeLevel k - pos) | a) ->
  0 <= nd -> a + nd * 8 ^ (maxTreeLevel k - pos) <= keyMax k ->
  (0 < nd -> let D := 8 ^ (maxTreeLevel k - pos + 1) in
    (a + (nd - 1) * 8 ^ (maxTreeLevel k - pos)) / D = a / D /\ (a / D * D < lo \/ hi < a / D * D + D)) ->
  chain_of (spanNode k lo hi) a0 out a -> v = zlen out ->
  exists out', spanStep k nd pos st =
      Some (zlen out', out', a + nd * 8 ^ (maxTreeLevel k - pos)) /\
    chain_of (spanNode k lo hi) a0 out' (a + nd * 8 ^ (maxTreeLevel k - pos)).
Proof.
  intros -> Hp Ha Hd Hnd Hle Hpar Hc ->. unfold spanStep. destruct (Z.ltb_spec nd 0); [lia|].
  rewrite octalPower_pow8 by done.
  destruct (spanDigits_chain k lo hi (Z.to_nat nd) a (maxTreeLevel k - pos)) as (vals & -> & Hv & Hl);
    [lia|done|done|rewrite Z2Nat.id; lia|intros; rewrite Z2Nat.id by lia; apply Hpar; lia|intros; apply Hpar; lia|].
  rewrite Z2Nat.id in * by lia. exists (out ++ vals). split.
  - rewrite zlen_app. by replace (zlen vals) with nd by (unfold zlen; rewrite Hl; lia).
  - by eapply chain_of_app.
Qed.

Lemma reverse_seqZ_S m (n : nat) :
  reverse (seqZ m (Z.of_nat (S n))) = (m + Z.of_nat n) :: reverse (seqZ m (Z.of_nat n)).
Proof.
  replace (Z.of_nat (S n)) with (Z.of_nat n + 1) by lia.
  rewrite seqZ_app by lia. simpl. rewrite reverse_app. done.
Qed.

Lemma multiple_le D q c a : 0 < D -> q * D < a + D -> a <= c * D -> q * D <= c * D.
Proof. intros. assert (q < c + 1) by (apply (Z.mul_lt_mono_pos_r D); lia). nia. Qed.

(** Multiples: the next multiple of [8d] above a multiple of [d]. *)
Lemma round_up_digit d a :
  0 < d -> (d | a) -> exists q, a + (8 - a / d mod 8) mod 8 * d = q * (8 * d) /\ q * (8 * d) < a + 8 * d.
Proof.
  intros Hd [c ->]. rewrite Z.div_mul by lia. pose proof (Z.mod_pos_bound c 8 ltac:(lia)).
  pose proof (Z.div_mod c 8 ltac:(lia)) as Hc. destruct (decide (c mod 8 = 0)) as [E|E].
  - exists (c / 8). rewrite E. change ((8 - 0) mod 8) with 0. nia.
  - exists (c / 8 + 1). rewrite Z.mod_small by lia. nia.
Qed.

(** The parent of the nodes up to that multiple starts before [lo]. *)
Lemma round_up_parent d a lo hi :
  0 < d -> (d | a) -> a < lo + d -> 0 < (8 - a / d mod 8) mod 8 ->
  (a + ((8 - a / d mod 8) mod 8 - 1) * d) / (8 * d) = a / (8 * d) /\
  (a / (8 * d) * (8 * d) < lo \/ hi < a / (8 * d) * (8 * d) + 8 * d).
Proof.
  intros Hd [c ->] Hlo. rewrite Z.div_mul by lia. pose proof (Z.mod_pos_bound c 8 ltac:(lia)). pose proof (Z.div_mod c 8 ltac:(lia)) as Hc.
  destruct (decide (c mod 8 = 0)) as [E|E]; [by rewrite E|]. intros _. rewrite Z.mod_small by lia.
  replace (c * d / (8 * d)) with (c / 8) by (rewrite Z.div_mul_cancel_r by lia; done).
  replace (c * d + (8 - c mod 8 - 1) * d) with ((c / 8 * 8 + 7) * d) by nia.
  rewrite Z.div_mul_cancel_r by lia. split; [|left; nia]. symmetry. apply (Z.div_unique _ _ _ 7); lia.
Qed.

(** First loop: round [a] up to a multiple of the node size at position [f]. *)
Lemma span_loop1 k a0 hi f B (n : nat) v out a :
  0 <= f -> f + Z.of_nat n <= maxTreeLevel k -> B <= keyMax k ->
  (8 ^ (maxTreeLevel k - f) | B) -> 0 <= a <= B ->
  (8 ^ (maxTreeLevel k - (f + Z.of_nat n)) | a) -> a < a0 + 8 ^ (maxTreeLevel k - (f + Z.of_nat n)) ->
  chain_of (spanNode k a0 hi) a0 out a -> v = zlen out ->
  exists out' a', foldM (fun pos st => let '(_, _, a) := st in
        spanStep k ((8 - octalDigit k a pos) mod 8) pos st)
      (reverse (seqZ (f + 1) (Z.of_nat n))) (v, out, a) = Some (zlen out', out', a') /\
    chain_of (spanNode k a0 hi) a0 out' a' /\ a <= a' <= B /\ (8 ^ (maxTreeLevel k - f) | a').
Proof.
  revert v out a. induction n as [|n IH]; intros v out a Hf Hfn HB HdB Ha Hd Hnear Hc Hv.
  - exists out, a. simpl. subst v. rewrite Z.add_0_r in Hd. repeat split; (done || lia).
  - rewrite reverse_seqZ_S. cbn [foldM]. remember (f + 1 + Z.of_nat n) as pos eqn:Hpos.
    replace (f + Z.of_nat (S n)) with pos in Hd, Hnear by lia.
    rewrite octalDigit_div by lia. set (d := 8 ^ (maxTreeLevel k - pos)) in *.
    assert (0 < d) by (apply pow8_pos; lia).
    destruct (round_up_digit d a ltac:(lia) Hd) as (q & Hq & Hqb).
    assert (8 * d = 8 ^ (maxTreeLevel k - (f + Z.of_nat n))) as H8.
    { subst d. rewrite <- pow8_succ by lia. f_equal. lia. }
    assert (q * (8 * d) <= B).
    { assert ((8 * d | B)) as [c Hc'].
      { rewrite H8. etrans; [|exact HdB]. apply pow8_divide. lia. }
      rewrite Hc' in Ha |- *. apply multiple_le with a; lia. }
    pose proof (Z.mod_pos_bound (8 - (a / d) mod 8) 8 ltac:(lia)).
    destruct (spanStep_chain k a0 hi ((8 - a / d mod 8) mod 8) pos (v, out, a) v out a a0)
      as (out1 & Hs & Hc1); [done|lia|lia|done|lia|fold d; lia| |done|done|].
    { intros Hnd. cbn zeta. rewrite pow8_succ by lia. fold d. apply (round_up_parent d a a0); [lia|done|done|lia]. }
    fold d in Hs, Hc1. rewrite Hs. simpl. rewrite Hq in Hc1 |- *.
    destruct (IH (zlen out1) out1 (q * (8 * d))) as (out2 & a2 & -> & Hc2 & Hr & Hd2);
      [lia|lia|lia|done|lia| | |done|done|].
    + rewrite <- H8. apply Z.divide_factor_r.
    + rewrite <- H8. destruct Hd as [c ->]. assert (q * 8 - 8 < c) by nia. nia.
    + exists out2, a2. repeat split; (done || lia || nia).
Qed.

(** Second loop: append the remaining digits of [b]. *)
Lemma span_loop2 k lo a0 b pos (n : nat) v out a :
  0 <= pos -> pos + Z.of_nat n = maxTreeLevel k + 1 \/ (8 ^ (maxTreeLevel k - (pos + Z.of_nat n) + 1) | b) ->
  pos + Z.of_nat n <= maxTreeLevel k + 1 -> b <= keyMax k ->
  0 <= a <= b -> (pos <= maxTreeLevel k -> (8 ^ (maxTreeLevel k - pos) | a)) ->
  a / 8 ^ (maxTreeLevel k - pos + 1) = b / 8 ^ (maxTreeLevel k - pos + 1) ->
  (n = 0%nat -> a = b) -> chain_of (spanNode k lo b) a0 out a -> v = zlen out ->
  exists out', foldM (fun pos st => let '(_, _, a) := st in
        spanStep k (octalDigit k b pos - octalDigit k a pos) pos st)
      (seqZ pos (Z.of_nat n)) (v, out, a) = Some (zlen out', out', b) /\ chain_of (spanNode k lo b) a0 out' b.
Proof.
  revert pos v out a. induction n as [|n IH]; intros pos v out a Hp Hb Hn HB Ha Hd He Hz Hc Hv.
  - assert (a = b) as -> by auto. exists out. by subst v.
  - rewrite Nat2Z.inj_succ in *. rewrite seqZ_cons by lia. cbn [foldM].
    specialize (Hd ltac:(lia)).
    rewrite !octalDigit_div by lia. set (d := 8 ^ (maxTreeLevel k - pos)) in *.
    assert (0 < d) by (apply pow8_pos; lia). rewrite pow8_succ in He by lia. fold d in He. pose proof He as He8.
    rewrite (Z.mul_comm 8 d), <- !Z.div_div in He by lia.
    assert ((b / d) mod 8 - (a / d) mod 8 = b / d - a / d) as ->.
    { pose proof (Z.div_mod (b / d) 8 ltac:(lia)). pose proof (Z.div_mod (a / d) 8 ltac:(lia)). lia. }
    assert (a / d <= b / d) by (apply Z.div_le_mono; lia).
    assert (a = a / d * d) as Hae by (destruct Hd as [c ->]; by rewrite Z.div_mul by lia).
    assert (a + (b / d - a / d) * d = b / d * d) as Hnew by nia.
    pose proof (Z.mul_div_le b d ltac:(lia)).
    destruct (spanStep_chain k lo b (b / d - a / d) pos (v, out, a) v out a a0)
      as (out1 & Hs & Hc1); [done|lia|lia|done|lia|fold d; lia| |done|done|].
    { intros Hnd. cbn zeta. rewrite pow8_succ by lia. fold d. pose proof (Z.mul_succ_div_gt b (8 * d) ltac:(lia)). split; [|right; lia].
      apply Z.le_antisymm; [rewrite He8; apply Z.div_le_mono; lia|apply Z.div_le_mono; nia]. }
    fold d in Hs, Hc1. rewrite Hs. simpl. rewrite Hnew in Hc1 |- *. rewrite Z.pred_succ.
    replace (Z.succ pos) with (pos + 1) by lia.
    apply IH; try (done || lia).
    + destruct Hb as [Hb|Hb]; [left; lia|right].
      by replace (pos + 1 + Z.of_nat n) with (pos + Z.succ (Z.of_nat n)) by lia.
    + split; [|lia]. apply Z.mul_nonneg_nonneg; [apply Z.div_pos|]; lia.
    + intros. apply Z.divide_mul_r. apply pow8_divide. lia.
    + replace (maxTreeLevel k - (pos + 1) + 1) with (maxTreeLevel k - pos) by lia. fold d.
      by rewrite Z.div_mul by lia.
    + intros ->. destruct Hb as [Hb|Hb].
      * subst d. replace (maxTreeLevel k - pos) with 0 by lia.
        rewrite Z.pow_0_r, Z.div_1_r. lia.
      * replace (maxTreeLevel k - (pos + Z.succ (Z.of_nat 0)) + 1) with (maxTreeLevel k - pos) in Hb by lia.
        fold d in Hb. destruct Hb as [c ->]. by rewrite Z.div_mul by lia.
Qed.

Lemma lastNzPlace_spec k x :
  0 <= x <= keyMax k ->
  0 <= lastNzPlace k x <= maxTreeLevel k /\ (8 ^ (maxTreeLevel k - lastNzPlace k x) | x) /\
  (0 < x -> ~ (8 ^ (maxTreeLevel k - lastNzPlace k x + 1) | x)).
Proof.
  intros Hx. kfacts k. unfold lastNzPlace. zcase.
  { subst x. rewrite Z.sub_diag. split; [lia|]. split; [apply Z.divide_0_r|lia]. }
  destruct (countTrailingZeros_spec x) as (q & Hq & Hc0 & Hq0); [lia|].
  set (c := countTrailingZeros x) in *.
  assert (c <= 3 * maxTreeLevel k).
  { destruct (Z.le_gt_cases c (3 * maxTreeLevel k)) as [|Hgt]; [done|].
    assert (2 ^ (3 * maxTreeLevel k + 1) <= 2 ^ c) by (apply Z.pow_le_mono_r; lia).
    rewrite Z.pow_add_r, <- keyMax_pow2 in * by lia. nia. }
  pose proof (Z.div_mod c 3 ltac:(lia)). pose proof (Z.mod_pos_bound c 3 ltac:(lia)).
  split; [lia|]. replace (maxTreeLevel k - (maxTreeLevel k - c / 3)) with (c / 3) by lia. split.
  - rewrite Hq, pow8_pow2 by lia. apply Z.divide_mul_r. exists (2 ^ (c - 3 * (c / 3))).
    rewrite <- Z.pow_add_r by lia. f_equal. lia.
  - intros _ [m Hm]. rewrite pow8_pow2 in Hm by lia.
    replace (3 * (c / 3 + 1)) with (1 + (2 - c mod 3) + c) in Hm by lia.
    rewrite !Z.pow_add_r in Hm by lia. rewrite Hq in Hm.
    pose proof (Z.pow_pos_nonneg 2 c ltac:(lia) Hc0).
    assert (2 * q + 1 = m * (2 ^ 1 * 2 ^ (2 - c mod 3))) by nia. lia.
Qed.

(** Position of the first differing octal digit of two keys. *)
Lemma first_diff_spec k a b :
  0 <= a < b -> b <= keyMax k ->
  let f := u32 (countLeadingZeros (keyBits k) (Z.lxor a b) + 3 - unusedBits k) / 3 in
  0 <= f <= maxTreeLevel k /\
  a / 8 ^ (maxTreeLevel k - f + 1) = b / 8 ^ (maxTreeLevel k - f + 1) /\
  a / 8 ^ (maxTreeLevel k - f) < b / 8 ^ (maxTreeLevel k - f).
Proof.
  intros Ha Hb f. kfacts k. assert (0 <= Z.lxor a b) by (apply Z.lxor_nonneg; lia).
  assert (Z.lxor a b <> 0) by (rewrite Z.lxor_eq_0_iff; lia).
  assert (Z.lxor a b < 2 ^ (3 * maxTreeLevel k + 1)).
  { apply lxor_lt_pow2; [lia..|]. rewrite !Z.div_small; try done; rewrite Z.pow_add_r, <- keyMax_pow2; lia. }
  assert (Z.log2 (Z.lxor a b) < 3 * maxTreeLevel k + 1) by (apply Z.log2_lt_pow2; lia).
  pose proof (Z.log2_nonneg (Z.lxor a b)). pose proof (Z.log2_spec (Z.lxor a b) ltac:(lia)) as Hs.
  unfold f. rewrite countLeadingZeros_log2 by lia. rewrite u32_small by lia. clear f.
  set (t := Z.log2 (Z.lxor a b)) in *.
  replace (keyBits k - 1 - t + 3 - unusedBits k) with (3 * maxTreeLevel k + 2 - t) by lia.
  remember ((3 * maxTreeLevel k + 2 - t) / 3) as f eqn:Hf.
  assert (0 <= f <= maxTreeLevel k /\ 3 * (maxTreeLevel k - f) <= t < 3 * (maxTreeLevel k - f) + 3)
    as (Hf1 & Hf2) by (subst f; Z.div_mod_to_equations; lia).
  split; [done|]. rewrite !pow8_pow2 by lia. split.
  - apply lxor_lt_pow2; [lia..|]. eapply Z.lt_le_trans; [apply Hs|]. apply Z.pow_le_mono_r; lia.
  - assert (a / 2 ^ (3 * (maxTreeLevel k - f)) <= b / 2 ^ (3 * (maxTreeLevel k - f)))
      by (apply Z.div_le_mono; [apply Z.pow_pos_nonneg|]; lia).
    assert (a / 2 ^ (3 * (maxTreeLevel k - f)) <> b / 2 ^ (3 * (maxTreeLevel k - f))); [|lia].
    rewrite <- lxor_lt_pow2 by lia.
    assert (2 ^ (3 * (maxTreeLevel k - f)) <= 2 ^ t) by (apply Z.pow_le_mono_r; lia). lia.
Qed.

(** [spanSfcRange] stays in range, stores as many codes as it reports, and the codes
    are the starts of consecutive octree nodes that cover exactly [a, b), none of which could
    be replaced by its parent. *)
Lemma spanSfcRange_maximal k a b :
  0 <= a < b -> b <= keyMax k ->
  exists out, spanSfcRange k a b = Some (zlen out, out) /\ chain_of (spanNode k a b) a out b.
Proof.
  intros Ha Hb. kfacts k. destruct (first_diff_spec k a b Ha Hb) as (Hf & Heq & Hlt).
  unfold spanSfcRange.
  remember (u32 (countLeadingZeros (keyBits k) (Z.lxor a b) + 3 - unusedBits k) / 3) as f eqn:Hfe.
  clear Hfe. destruct (lastNzPlace_spec k a) as (Hla & Hda & _); [lia|].
  destruct (lastNzPlace_spec k b) as (Hlb & Hdb & _); [lia|].
  set (F := 8 ^ (maxTreeLevel k - f)) in *. assert (0 < F) by (apply pow8_pos; lia).
  assert (8 ^ (maxTreeLevel k - f + 1) = 8 * F) as H8 by (apply pow8_succ; lia).
  pose proof (Z.mul_div_le b F ltac:(lia)). pose proof (Z.mul_succ_div_gt a F ltac:(lia)).
  assert (f <= lastNzPlace k b).
  { destruct (Z.le_gt_cases f (lastNzPlace k b)) as [|Hgt]; [done|].
    assert ((8 * F | b)) as [c Hc].
    { rewrite <- H8. etrans; [|exact Hdb]. apply pow8_divide. lia. }
    rewrite H8 in Heq. rewrite Hc, Z.div_mul in Heq by lia.
    pose proof (Z.mul_div_le a (8 * F) ltac:(lia)). nia. }
  assert (exists out1 a1, foldM (fun pos st => let '(_, _, a) := st in
        spanStep k ((8 - octalDigit k a pos) mod 8) pos st)
      (reverse (seqZ (f + 1) (lastNzPlace k a - f))) (0, [], a) = Some (zlen out1, out1, a1) /\
    chain_of (spanNode k a b) a out1 a1 /\ a <= a1 <= b / F * F /\ (F | a1)) as (out1 & a1 & -> & Hc1 & Hr1 & Hd1).
  { destruct (Z.le_gt_cases (lastNzPlace k a) f) as [Hle|Hgt].
    - exists [], a. rewrite seqZ_nil by lia. split; [done|]. split; [constructor|].
      split; [nia|]. etrans; [|exact Hda]. apply pow8_divide. lia.
    - replace (lastNzPlace k a - f) with (Z.of_nat (Z.to_nat (lastNzPlace k a - f))) by lia.
      apply span_loop1; try done; try lia.
      + fold F. apply Z.divide_factor_r.
      + nia.
      + by replace (f + Z.of_nat (Z.to_nat (lastNzPlace k a - f))) with (lastNzPlace k a) by lia.
      + constructor. }
  simpl. replace (lastNzPlace k b - f + 1) with (Z.of_nat (Z.to_nat (lastNzPlace k b - f + 1))) by lia.
  destruct (span_loop2 k a a b f (Z.to_nat (lastNzPlace k b - f + 1)) (zlen out1) out1 a1)
    as (out2 & -> & Hc2); try done; try lia.
  - right. replace (maxTreeLevel k - (f + Z.of_nat (Z.to_nat (lastNzPlace k b - f + 1))) + 1)
      with (maxTreeLevel k - lastNzPlace k b) by lia. done.
  - apply Z.le_antisymm.
    + apply Z.div_le_mono; lia.
    + rewrite <- Heq. apply Z.div_le_mono; lia.
  - exists out2. done.
Qed.

Lemma spanSfcRange_chain k a b :
  0 <= a < b -> b <= keyMax k ->
  exists out, spanSfcRange k a b = Some (zlen out, out) /\ cs_chain k a out b.
Proof.
  intros Ha Hb. destruct (spanSfcRange_maximal k a b Ha Hb) as (out & E & Hc). exists out. split; [done|].
  eapply chain_of_cs; [apply spanNode_isNode|done].
Qed.

(** ** Common prefixes *)

Lemma commonPrefix_val k a b :
  0 <= a < keyMax k -> 0 <= b < keyMax k -> a <> b ->
  commonPrefix k a b = 3 * maxTreeLevel k - 1 - Z.log2 (Z.lxor a b) /\
  0 <= Z.log2 (Z.lxor a b) < 3 * maxTreeLevel k.
Proof.
  intros Ha Hb Hne. kfacts k. assert (0 <= Z.lxor a b) by (apply Z.lxor_nonneg; lia).
  assert (Z.lxor a b <> 0) by (rewrite Z.lxor_eq_0_iff; lia).
  assert (Z.lxor a b < 2 ^ (3 * maxTreeLevel k)).
  { apply lxor_lt_pow2; [lia..|]. rewrite !Z.div_small; try done; rewrite <- keyMax_pow2; lia. }
  assert (Z.log2 (Z.lxor a b) < 3 * maxTreeLevel k) by (apply Z.log2_lt_pow2; lia).
  pose proof (Z.log2_nonneg (Z.lxor a b)).
  unfold commonPrefix. rewrite countLeadingZeros_log2 by lia. rewrite u32_small by lia.
  rewrite i32_small by lia. lia.
Qed.

Lemma commonPrefix_same k a : commonPrefix k a a = 3 * maxTreeLevel k.
Proof. unfold commonPrefix. rewrite Z.lxor_nilpotent. by destruct k. Qed.

(** The level of the smallest common node of two keys. *)
Lemma commonLevel_spec k a b :
  0 <= a < keyMax k -> 0 <= b < keyMax k ->
  let level := Z.quot (commonPrefix k a b) 3 in
  0 <= level <= maxTreeLevel k /\
  a / 8 ^ (maxTreeLevel k - level) = b / 8 ^ (maxTreeLevel k - level) /\
  (forall n, 0 <= n < maxTreeLevel k - level -> a / 8 ^ n <> b / 8 ^ n).
Proof.
  intros Ha Hb level. kfacts k. unfold level. clear level.
  destruct (decide (a = b)) as [->|Hne].
  { rewrite commonPrefix_same, Z.mul_comm, Z.quot_mul by lia. split; [lia|]. split; [done|]. lia. }
  destruct (commonPrefix_val k a b Ha Hb Hne) as (-> & Ht).
  assert (0 <= Z.lxor a b) by (apply Z.lxor_nonneg; lia).
  assert (Z.lxor a b <> 0) by (rewrite Z.lxor_eq_0_iff; lia).
  pose proof (Z.log2_spec (Z.lxor a b) ltac:(lia)) as Hs.
  set (t := Z.log2 (Z.lxor a b)) in *. rewrite Z.quot_div_nonneg by lia.
  remember ((3 * maxTreeLevel k - 1 - t) / 3) as level eqn:Hl.
  assert (0 <= level <= maxTreeLevel k /\ t + 1 <= 3 * (maxTreeLevel k - level) < t + 4)
    as (Hl1 & Hl2) by (subst level; Z.div_mod_to_equations; lia).
  split; [done|]. split.
  - rewrite pow8_pow2 by lia. apply lxor_lt_pow2; [lia..|].
    eapply Z.lt_le_trans; [apply Hs|]. apply Z.pow_le_mono_r; lia.
  - intros n Hn. rewrite pow8_pow2, <- lxor_lt_pow2 by lia.
    assert (2 ^ (3 * n) <= 2 ^ t) by (apply Z.pow_le_mono_r; lia). lia.
Qed.

(** A node contains a key exactly when the key agrees with its start above its size. *)
Lemma node_contains n a x :
  0 <= n -> (8 ^ n | a) -> (a <= x < a + 8 ^ n <-> x / 8 ^ n = a / 8 ^ n).
Proof.
  intros Hn [c ->]. pose proof (pow8_pos n Hn). rewrite Z.div_mul by lia. split.
  - intros Hx. symmetry. apply Z.div_unique with (x - c * 8 ^ n); lia.
  - intros Hx. pose proof (Z.div_mod x (8 ^ n) ltac:(lia)). pose proof (Z.mod_pos_bound x (8 ^ n) ltac:(lia)).
    nia.
Qed.

(** The envelope is an octree node that contains both keys, and every octree node that
    contains both keys contains the envelope. *)
Lemma smallestCommonBox_spec k a b :
  0 <= a < keyMax k -> 0 <= b < keyMax k ->
  let '(s, e) := smallestCommonBox k a b in
  isNode k s e /\ (s <= a < e) /\ (s <= b < e) /\
  (forall s' e', isNode k s' e' -> s' <= a < e' -> s' <= b < e' -> s' <= s /\ e <= e').
Proof.
  intros Ha Hb. kfacts k. destruct (commonLevel_spec k a b Ha Hb) as (Hl & Heq & Hmin).
  unfold smallestCommonBox. remember (Z.quot (commonPrefix k a b) 3) as level eqn:Hle. clear Hle.
  rewrite enclosingBoxCode_floor by lia. rewrite nodeRange_pow8 by lia.
  set (n := maxTreeLevel k - level) in *. assert (0 <= n <= maxTreeLevel k) by (subst n; lia).
  pose proof (pow8_pos n ltac:(lia)). pose proof (pow8_le_keyMax k n ltac:(lia)).
  pose proof (Z.mul_div_le a (8 ^ n) ltac:(lia)). pose proof (Z.mul_succ_div_gt a (8 ^ n) ltac:(lia)).
  assert (8 ^ n * (a / 8 ^ n) + 8 ^ n <= keyMax k).
  { assert ((8 ^ n | keyMax k)) as [c Hc] by (apply pow8_divide; lia). rewrite Hc in Ha |- *.
    assert (a / 8 ^ n < c) by (apply Z.div_lt_upper_bound; lia). nia. }
  assert (0 <= 8 ^ n * (a / 8 ^ n)) by (apply Z.mul_nonneg_nonneg; [lia|apply Z.div_pos; lia]).
  rewrite kwrap_small by lia. split; [|split; [lia|split]].
  - exists n. repeat split; try lia. apply Z.divide_factor_l.
  - apply node_contains; [lia|apply Z.divide_factor_l|]. rewrite <- Heq.
    rewrite (Z.mul_comm (8 ^ n)), Z.div_mul by lia. done.
  - intros s' e' (m & Hm & Hs' & Hd & -> & He') Hsa Hsb.
    apply node_contains in Hsa as Ea; [|lia|done]. apply node_contains in Hsb as Eb; [|lia|done].
    assert (n <= m) by (destruct (Z.le_gt_cases n m); [done|]; exfalso; apply (Hmin m); lia).
    pose proof (pow8_pos m ltac:(lia)). destruct Hd as [c ->].
    rewrite Z.div_mul in Ea by lia. subst c.
    assert (8 ^ m = 8 ^ n * 8 ^ (m - n)) as Hmn by (rewrite <- Z.pow_add_r by lia; f_equal; lia).
    rewrite Hmn in *. rewrite <- Z.div_div in * by lia.
    pose proof (pow8_pos (m - n) ltac:(lia)). set (x := a / 8 ^ n) in *.
    pose proof (Z.mul_div_le x (8 ^ (m - n)) ltac:(lia)).
    pose proof (Z.mul_succ_div_gt x (8 ^ (m - n)) ltac:(lia)). nia.
Qed.

(** ** Powers of eight and logarithms *)

Lemma land_pred_pow2 n : 0 < n -> Z.land n (n - 1) = 0 -> n = 2 ^ Z.log2 n.
Proof.
  intros Hn H. pose proof (Z.log2_spec n Hn) as Hs. pose proof (Z.log2_nonneg n).
  destruct (decide (n = 2 ^ Z.log2 n)) as [|Hne]; [done|]. exfalso.
  assert (Z.log2 (n - 1) = Z.log2 n) as Hl by (apply Z.log2_unique; lia).
  assert (Z.testbit (Z.land n (n - 1)) (Z.log2 n) = true) as Hb.
  { rewrite Z.land_spec, Z.bit_log2 by lia. rewrite <- Hl. rewrite Z.bit_log2 by lia. done. }
  by rewrite H, Z.bits_0 in Hb.
Qed.

Lemma land_pow2_pred m : 0 <= m -> Z.land (2 ^ m) (2 ^ m - 1) = 0.
Proof. intros. apply land_pow2_small; [lia|]. pose proof (Z.pow_pos_nonneg 2 m ltac:(lia) ltac:(lia)). lia. Qed.

(** On the keys in use, [isPowerOf8] decides the powers of eight. *)
Lemma isPowerOf8_iff k n :
  0 < n <= keyMax k ->
  isPowerOf8 k n = true <-> exists m, 0 <= m <= maxTreeLevel k /\ n = 8 ^ m.
Proof.
  intros Hn. kfacts k. unfold isPowerOf8. rewrite kwrap_small by lia. split.
  - intros [Hz%Z.eqb_eq Hl%Z.eqb_eq]%andb_true_iff.
    pose proof (land_pred_pow2 n ltac:(lia) Hl) as Hp. pose proof (Z.log2_nonneg n).
    set (t := Z.log2 n) in *.
    assert (t <= 3 * maxTreeLevel k).
    { apply (Z.pow_le_mono_r_iff 2); [lia..|]. rewrite <- keyMax_pow2. lia. }
    assert (countLeadingZeros (keyBits k) (n - 1) = keyBits k - t) as Hc.
    { rewrite Hp. destruct (decide (t = 0)) as [->|]; [simpl; destruct k; done|].
      assert (2 ^ 1 <= 2 ^ t) by (apply Z.pow_le_mono_r; lia).
      rewrite countLeadingZeros_log2 by lia. rewrite (Z.sub_1_r (2 ^ t)), Z.log2_pred_pow2 by lia. lia. }
    rewrite Hc, u32_small in Hz by lia.
    exists (t / 3). assert (t = 3 * (t / 3)) as Ht by (Z.div_mod_to_equations; lia).
    split; [lia|]. rewrite Hp, pow8_pow2 by lia. f_equal. lia.
  - intros (m & Hm & ->). rewrite countLeadingZeros_pow8_pred by done. rewrite u32_small by lia.
    apply andb_true_iff. split; apply Z.eqb_eq.
    + replace (keyBits k - 3 * m - unusedBits k) with ((maxTreeLevel k - m) * 3) by lia.
      by apply Z.mod_mul.
    + rewrite pow8_pow2 by lia. apply land_pow2_pred. lia.
Qed.

(** [log8ceil] is the smallest level whose node count reaches [n]. *)
Lemma log8ceil_spec k n :
  0 < n <= keyMax k ->
  0 <= log8ceil k n <= maxTreeLevel k /\ n <= 8 ^ log8ceil k n /\
  (forall m, 0 <= m < log8ceil k n -> 8 ^ m < n).
Proof.
  intros Hn. kfacts k. unfold log8ceil. zcase; [lia|]. rewrite kwrap_small by lia.
  pose proof (countLeadingZeros_range (keyBits k) (n - 1) ltac:(lia) ltac:(lia)) as Hcr.
  assert (unusedBits k <= countLeadingZeros (keyBits k) (n - 1)).
  { replace (unusedBits k) with (keyBits k - 3 * maxTreeLevel k) by lia.
    apply countLeadingZeros_bits; [lia..|]. rewrite <- keyMax_pow2. lia. }
  set (c := countLeadingZeros (keyBits k) (n - 1)) in *.
  rewrite (u32_small (c - unusedBits k)) by lia.
  assert (0 <= (c - unusedBits k) / 3 <= maxTreeLevel k) by (Z.div_mod_to_equations; lia).
  rewrite u32_small by lia.
  assert (forall m, 0 <= m <= maxTreeLevel k -> (n <= 8 ^ m <-> maxTreeLevel k - (c - unusedBits k) / 3 <= m)) as Hiff.
  { intros m Hm. transitivity (n - 1 < 2 ^ (3 * m)); [rewrite pow8_pow2; lia|].
    rewrite (countLeadingZeros_bits (keyBits k)) by lia. fold c. Z.div_mod_to_equations; lia. }
  split; [lia|]. split; [apply Hiff; lia|]. intros m Hm.
  destruct (Z.le_gt_cases n (8 ^ m)) as [Hle|]; [|done]. apply Hiff in Hle; lia.
Qed.

Lemma log8ceil_pow8 k j : 0 <= j <= maxTreeLevel k -> log8ceil k (8 ^ j) = j.
Proof.
  intros Hj. pose proof (pow8_le_keyMax k j Hj).
  destruct (log8ceil_spec k (8 ^ j)) as (Hl & Hle & Hmin); [lia|].
  destruct (Z.lt_trichotomy (log8ceil k (8 ^ j)) j) as [Hlt|[|Hgt]]; [|done|].
  - assert (8 ^ (log8ceil k (8 ^ j) + 1) <= 8 ^ j) by (apply pow8_mono; lia).
    rewrite pow8_succ in * by lia. pose proof (pow8_pos (log8ceil k (8 ^ j)) ltac:(lia)). lia.
  - specialize (Hmin j ltac:(lia)). lia.
Qed.
