(* ===== verification/BinaryTree.v ===== *)
(** * Binary radix trees

    [cstone/tree/btree.hpp]: the construction of the internal nodes of a binary radix tree over sorted keys, one node per index and
    independent of all others.  The nodes form the binary trie of the keys. *)

From S2P Require Import Prelude Primitives SfcCommon.
#[local] Open Scope Z_scope.

(** ** The code *)

(** The result of a computation with [TreeNodeIndex]; signed overflow is undefined. *)
Definition int32 (x : Z) : option Z := if (- 2 ^ 31 <=? x) && (x <? 2 ^ 31) then Some x else None.

Definition isLeafIndex (nodeIndex : Z) : bool := nodeIndex <? 0.
Definition storeLeafIndex (index : Z) : Z := index + i32 (u64 (- Z.shiftl 1 31)).
Definition loadLeafIndex (index : Z) : Z := index - i32 (u64 (- Z.shiftl 1 31)).

Record BinaryNode := mkBinaryNode { childLeft : Z; childRight : Z; bn_prefix : Z }.

(** The loop that halves its step, starting at [position] in direction [d]: a proposed position is kept if [accept] says so. *)
Fixpoint halvingSearch (fuel : nat) (accept : Z -> option bool) (d step position : Z) : option Z :=
  match fuel with
  | O => None
  | S fuel =>
      let step := Z.quot (step + 1) 2 in
      let? proposed := int32 (position + step * d) in
      let? accepted := accept proposed in
      let position := if accepted : bool then proposed else position in
      if 1 <? step then halvingSearch fuel accept d step position else Some position
  end.

Definition findSplit (k : KeyType) (sortedSfcCodes : list Z) (first last : Z) : option Z :=
  let? firstCode := sortedSfcCodes.[first] in
  let? lastCode := sortedSfcCodes.[last] in
  if firstCode =? lastCode then Some (Z.shiftr (first + last) 1)
  else
    let cpr := commonPrefix k firstCode lastCode in
    let accept newSplit :=
      if newSplit <? last then
        let? splitCode := sortedSfcCodes.[newSplit] in
        Some (cpr <? commonPrefix k firstCode splitCode)
      else Some false in
    halvingSearch 32 accept 1 (last - first) first.

(** The key at [index] exists and has more than [minPrefixLength] bits in common with the one at [firstIndex]. *)
Definition sharesPrefix (k : KeyType) (codes : list Z) (nCodes firstIndex minPrefixLength index : Z) : option bool :=
  if (0 <=? index) && (index <? nCodes) then
    let? a := codes.[firstIndex] in
    let? b := codes.[index] in
    Some (minPrefixLength <? commonPrefix k a b)
  else Some false.

(** The loop that doubles [searchRange]. *)
Fixpoint searchLimit (fuel : nat) (accept : Z -> option bool) (firstIndex d searchRange : Z) : option Z :=
  match fuel with
  | O => None
  | S fuel =>
      let? secondIndex := int32 (firstIndex + searchRange * d) in
      let? accepted := accept secondIndex in
      if accepted : bool then
        let? searchRange := int32 (searchRange * 2) in
        searchLimit fuel accept firstIndex d searchRange
      else Some searchRange
  end.

(** Direction and number of shared bits that are not enough. *)
Definition nodeDirection (k : KeyType) (codes : list Z) (firstIndex : Z) : option (Z * Z) :=
  if 0 <? firstIndex then
    let? c := codes.[firstIndex] in
    let? next := codes.[firstIndex + 1] in
    let? previous := codes.[firstIndex - 1] in
    let d := if commonPrefix k c previous <? commonPrefix k c next then 1 else -1 in
    let? other := codes.[firstIndex - d] in
    Some (d, commonPrefix k c other)
  else Some (1, -1).

Definition constructInternalNode (k : KeyType) (codes : list Z) (nCodes firstIndex : Z) : option BinaryNode :=
  let? (d, minPrefixLength) := nodeDirection k codes firstIndex in
  let accept := sharesPrefix k codes nCodes firstIndex minPrefixLength in
  let? searchRange := searchLimit 32 accept firstIndex d 2 in
  let? secondIndex := halvingSearch 32 accept d searchRange firstIndex in
  let? firstCode := codes.[firstIndex] in
  let? secondCode := codes.[secondIndex] in
  let prefixLength := commonPrefix k firstCode secondCode in
  let prefix := zeroLowBits k firstCode prefixLength in
  let? gamma := findSplit k codes (Z.min secondIndex firstIndex) (Z.max secondIndex firstIndex) in
  let left := if Z.min secondIndex firstIndex =? gamma then storeLeafIndex gamma else gamma in
  let right := if Z.max secondIndex firstIndex =? gamma + 1 then storeLeafIndex (gamma + 1) else gamma + 1 in
  Some (mkBinaryNode left right (encodePlaceholderBit k prefix prefixLength)).

(** The nodes are constructed in parallel, in any order of the indices. *)
Definition createBinaryTree (k : KeyType) (tree : list Z) (order : list Z) (binaryTree : list BinaryNode) : option (list BinaryNode) :=
  foldM (fun idx binaryTree =>
    let? node := constructInternalNode k tree (zlen tree) idx in
    aset binaryTree idx node) order binaryTree.

(** ** The trie *)

Inductive RadixTree := RadixLeaf (i : Z) | RadixNode (i prefix : Z) (left right : RadixTree).

Fixpoint radixLeaves (t : RadixTree) : list Z :=
  match t with RadixLeaf i => [i] | RadixNode _ _ l r => radixLeaves l ++ radixLeaves r end.

Fixpoint radixNodes (t : RadixTree) : list Z :=
  match t with RadixLeaf _ => [] | RadixNode i _ l r => i :: radixNodes l ++ radixNodes r end.

(** The tree at a stored index. *)
Inductive storedTree (get : Z -> option BinaryNode) : Z -> RadixTree -> Prop :=
  | stored_leaf i : 0 <= i < 2 ^ 31 -> storedTree get (storeLeafIndex i) (RadixLeaf i)
  | stored_node i node l r : 0 <= i -> get i = Some node -> storedTree get (childLeft node) l -> storedTree get (childRight node) r ->
      storedTree get i (RadixNode i (bn_prefix node) l r).

(** Every node has the bits that all keys below it start with behind a placeholder bit; those on the left continue with 0, those on the
    right with 1. *)
Fixpoint radixSorted (k : KeyType) (codes : list Z) (t : RadixTree) : Prop :=
  match t with
  | RadixLeaf _ => True
  | RadixNode _ prefix l r => exists len, 0 <= len < 3 * maxTreeLevel k /\ 2 ^ len <= prefix < 2 ^ (len + 1) /\
      Forall (fun i => encodePlaceholderBit k (nthz codes i) (len + 1) = 2 * prefix) (radixLeaves l) /\
      Forall (fun i => encodePlaceholderBit k (nthz codes i) (len + 1) = 2 * prefix + 1) (radixLeaves r) /\
      radixSorted k codes l /\ radixSorted k codes r
  end.

Example binaryTree_run : createBinaryTree Key32 [0; 8 ^ 9; 2 * 8 ^ 9; 5 * 8 ^ 9; 8 ^ 10] [0; 1; 2; 3] (replicate 4 (mkBinaryNode 0 0 0)) =
  Some [mkBinaryNode 2 (storeLeafIndex 3) 1; mkBinaryNode (storeLeafIndex 0) (storeLeafIndex 1) 4; mkBinaryNode 1 (storeLeafIndex 2) 2; mkBinaryNode 2 (storeLeafIndex 3) 1].
Proof. vm_compute. reflexivity. Qed.

Lemma leafIndex_stored i : 0 <= i < 2 ^ 31 -> isLeafIndex (storeLeafIndex i) = true /\ loadLeafIndex (storeLeafIndex i) = i.
Proof. intros Hi. unfold isLeafIndex, loadLeafIndex, storeLeafIndex. change (i32 (u64 (- Z.shiftl 1 31))) with (- 2 ^ 31). split; [|lia]. apply Z.ltb_lt. lia. Qed.

Lemma int32_small x : - 2 ^ 31 <= x < 2 ^ 31 -> int32 x = Some x.
Proof. intros Hx. unfold int32. by rewrite (proj2 (Z.leb_le _ _) (proj1 Hx)), (proj2 (Z.ltb_lt _ _) (proj2 Hx)). Qed.

(** ** The searches *)

(** Both searches find the largest [t] for which the position [first + t * d] is accepted, when the accepted positions are those up to it. *)
Section Search.
Context (accept : Z -> option bool) (d first limit : Z).
Hypothesis Hd : d = 1 \/ d = -1.
Hypothesis Hfirst : 0 <= first < 2 ^ 29.
Hypothesis Hlimit : 0 <= limit < 2 ^ 29.
Hypothesis Haccept : forall t, 1 <= t -> accept (first + t * d) = Some (t <=? limit).

Lemma halvingSearch_run fuel : forall t step, (1 <= fuel)%nat -> 0 <= t <= limit -> limit < t + step -> 1 <= step <= 2 ^ Z.of_nat fuel -> step < 2 ^ 30 -> halvingSearch fuel accept d step (first + t * d) = Some (first + limit * d).
Proof using Hd Hfirst Hlimit Haccept.
  induction fuel as [|fuel IH]; intros t step Hf Ht Hl Hs Hb; [lia|]. cbn [halvingSearch]. set (step' := Z.quot (step + 1) 2). assert (Hq : step' = (step + 1) / 2) by (apply Z.quot_div_nonneg; lia). rewrite Nat2Z.inj_succ, Z.pow_succ_r in Hs by lia.
  assert (H2 : 1 <= step' <= step /\ step <= 2 * step' /\ step' <= 2 ^ Z.of_nat fuel) by (rewrite Hq; Z.div_mod_to_equations; lia). clearbody step'.
  replace (first + t * d + step' * d) with (first + (t + step') * d) by lia. rewrite int32_small by (destruct Hd as [->| ->]; lia). cbn beta iota. rewrite (Haccept (t + step')) by lia. cbn beta iota.
  destruct (Z.leb_spec (t + step') limit) as [Hle|Hgt]; destruct (Z.ltb_spec 1 step') as [H1|H1].
  - apply IH; try lia. destruct fuel; [cbn in *; lia|lia].
  - do 3 f_equal. lia.
  - apply IH; try lia. destruct fuel; [cbn in *; lia|lia].
  - do 3 f_equal. lia.
Qed.

Lemma searchLimit_run fuel : forall range, 1 <= range < 2 ^ 30 -> range <= 2 * Z.max 1 limit -> limit < range * 2 ^ (Z.of_nat fuel - 1) -> exists r, searchLimit fuel accept first d range = Some r /\ limit < r /\ 1 <= r <= 2 * Z.max 1 limit.
Proof using Hd Hfirst Hlimit Haccept.
  induction fuel as [|fuel IH]; intros range Hr Hm Hl; [cbn in Hl; lia|]. cbn [searchLimit]. rewrite int32_small by (destruct Hd as [->| ->]; lia). cbn beta iota. rewrite (Haccept range) by lia. cbn beta iota. destruct (Z.leb_spec range limit) as [Hle|Hgt].
  - rewrite int32_small by lia. cbn beta iota. assert (Hf : (1 <= fuel)%nat) by (destruct fuel; [cbn in Hl; lia|lia]). apply IH; [lia|lia|]. replace (Z.of_nat (S fuel) - 1) with (Z.succ (Z.of_nat fuel - 1)) in Hl by lia. rewrite Z.pow_succ_r in Hl by lia. lia.
  - exists range. split; [done|]. lia.
Qed.

End Search.

(** ** Common prefixes *)

Section Prefix.
Context (k : KeyType).
Local Abbreviation T := (3 * maxTreeLevel k).

Lemma prefix_iff a b p : 0 <= a < keyMax k -> 0 <= b < keyMax k -> 0 <= p <= T -> (p <= commonPrefix k a b <-> a / 2 ^ (T - p) = b / 2 ^ (T - p)).
Proof.
  intros Ha Hb Hp. destruct (decide (a = b)) as [->|Hne]; [rewrite commonPrefix_same; split; [done|lia]|]. destruct (commonPrefix_val k a b Ha Hb Hne) as [-> Hr].
  assert (0 <= Z.lxor a b) by (apply Z.lxor_nonneg; lia). assert (Z.lxor a b <> 0) by (rewrite Z.lxor_eq_0_iff; lia). pose proof (Z.log2_spec (Z.lxor a b) ltac:(lia)) as Hs. rewrite <- (lxor_lt_pow2 a b (T - p)) by lia. set (x := Z.lxor a b) in *. split; intros H1.
  - apply Z.lt_le_trans with (2 ^ Z.succ (Z.log2 x)); [lia|]. apply Z.pow_le_mono_r; lia.
  - apply Z.log2_lt_pow2 in H1; lia.
Qed.

Lemma prefix_range a b : 0 <= a < keyMax k -> 0 <= b < keyMax k -> 0 <= commonPrefix k a b <= T /\ (a <> b -> commonPrefix k a b < T).
Proof.
  intros Ha Hb. kfacts k. destruct (decide (a = b)) as [->|Hne]; [rewrite commonPrefix_same; lia|]. destruct (commonPrefix_val k a b Ha Hb Hne) as [-> Hr]. lia.
Qed.

Lemma prefix_end a : 0 <= a < keyMax k -> commonPrefix k a (keyMax k) = -1.
Proof.
  intros Ha. pose proof (maxTreeLevel_pos k). assert (Ek : keyMax k = 2 ^ T) by (by rewrite keyMax_pow2). assert (H0 : 0 <= Z.lxor a (keyMax k)) by (apply Z.lxor_nonneg; lia).
  assert (H1 : 2 ^ T <= Z.lxor a (keyMax k)). { apply Z.nlt_ge. rewrite lxor_lt_pow2, <- Ek by lia. rewrite Z.div_small, Z.div_same by lia. done. }
  assert (H2 : Z.lxor a (keyMax k) < 2 ^ Z.succ T). { apply lxor_lt_pow2; [lia..|]. rewrite Z.pow_succ_r, <- Ek by lia. rewrite !Z.div_small by lia. done. }
  assert (Hl : Z.log2 (Z.lxor a (keyMax k)) = T) by (apply Z.log2_unique; lia). unfold commonPrefix. rewrite countLeadingZeros_log2, Hl by lia. by destruct k.
Qed.

(** Keys between two keys share at least as many bits with both. *)
Lemma prefix_between a b c p : 0 <= a <= b -> b <= c < keyMax k -> 0 <= p <= T -> (p <= commonPrefix k a c <-> p <= commonPrefix k a b /\ p <= commonPrefix k b c).
Proof.
  intros Hab Hbc Hp. rewrite !prefix_iff by lia. assert (0 < 2 ^ (T - p)) by (apply Z.pow_pos_nonneg; lia). pose proof (Z.div_le_mono a b (2 ^ (T - p)) ltac:(lia) ltac:(lia)). pose proof (Z.div_le_mono b c (2 ^ (T - p)) ltac:(lia) ltac:(lia)). lia.
Qed.

Lemma prefix_min a b c : 0 <= a <= b -> b <= c < keyMax k -> commonPrefix k a c = Z.min (commonPrefix k a b) (commonPrefix k b c).
Proof.
  intros Hab Hbc. pose proof (prefix_range a b ltac:(lia) ltac:(lia)). pose proof (prefix_range b c ltac:(lia) ltac:(lia)). pose proof (prefix_range a c ltac:(lia) ltac:(lia)).
  pose proof (prefix_between a b c (commonPrefix k a c) Hab Hbc ltac:(lia)). pose proof (prefix_between a b c (Z.min (commonPrefix k a b) (commonPrefix k b c)) Hab Hbc ltac:(lia)). lia.
Qed.

(** Of three keys in order, two share more bits than the other two. *)
Lemma prefix_split a b c : 0 <= a < b -> b < c < keyMax k -> commonPrefix k a b <> commonPrefix k b c.
Proof.
  intros Hab Hbc E. pose proof (prefix_range a b ltac:(lia) ltac:(lia)) as [R1 R2]. specialize (R2 ltac:(lia)). set (p := commonPrefix k a b) in *.
  assert (E1 : a / 2 ^ (T - p) = b / 2 ^ (T - p)) by (apply prefix_iff; lia). assert (E2 : b / 2 ^ (T - p) = c / 2 ^ (T - p)) by (apply prefix_iff; lia). assert (N1 : a / 2 ^ (T - (p + 1)) <> b / 2 ^ (T - (p + 1))) by (rewrite <- prefix_iff by lia; lia). assert (N2 : b / 2 ^ (T - (p + 1)) <> c / 2 ^ (T - (p + 1))) by (rewrite <- prefix_iff by lia; lia).
  set (q := 2 ^ (T - (p + 1))) in *. assert (Hq : 0 < q) by (apply Z.pow_pos_nonneg; lia). assert (Eq : 2 ^ (T - p) = q * 2) by (unfold q; replace (T - p) with (Z.succ (T - (p + 1))) by lia; rewrite Z.pow_succ_r by lia; lia). rewrite Eq, <- !Z.div_div in E1, E2 by lia. pose proof (Z.div_le_mono a b q ltac:(lia) ltac:(lia)). pose proof (Z.div_le_mono b c q ltac:(lia) ltac:(lia)). Z.div_mod_to_equations. lia.
Qed.

(** The bits of a shared prefix behind the placeholder bit. *)
Lemma prefix_bits a b p : 0 <= a < keyMax k -> 0 <= b < keyMax k -> 0 <= p <= T -> p <= commonPrefix k a b -> encodePlaceholderBit k a p = encodePlaceholderBit k b p.
Proof. intros Ha Hb Hp Hc. rewrite !encodePlaceholderBit_val by lia. f_equal. by apply prefix_iff. Qed.

Lemma placeholder_zeroed a p : 0 <= a < keyMax k -> 0 <= p <= T -> encodePlaceholderBit k (zeroLowBits k a p) p = encodePlaceholderBit k a p.
Proof.
  intros Ha Hp. kfacts k. assert (HT : 0 <= T - p <= T) by lia. unfold encodePlaceholderBit, zeroLowBits. f_equal. rewrite u32_small by (destruct k; cbn in *; lia). rewrite Z.shiftl_1_l. assert (0 < 2 ^ (T - p) <= keyMax k) by (split; [apply Z.pow_pos_nonneg; lia|rewrite keyMax_pow2; apply Z.pow_le_mono_r; lia]). rewrite !kwrap_small by (rewrite ?kwrap_small; lia).
  replace (2 ^ (T - p) - 1) with (Z.ones (T - p)) by (rewrite Z.ones_equiv; lia). rewrite Z.shiftr_land, <- Z.lnot_shiftr by lia. rewrite (Z.shiftr_div_pow2 (Z.ones _)), Z.ones_equiv by lia. rewrite (Z.div_small (Z.pred _)) by lia. change (Z.lnot 0) with (-1). apply Z.land_m1_r.
Qed.

End Prefix.

(** ** Nodes *)

(** Keys without duplicates; [m] of them are on the curve, and the last one may be the end of the curve. *)
Record radixCodes (k : KeyType) (codes : list Z) (m : Z) : Prop := {
  rc_count : 2 <= m <= zlen codes /\ zlen codes <= 2 ^ 29;
  rc_nonneg : forall i, 0 <= i < zlen codes -> 0 <= nthz codes i;
  rc_sorted : forall i j, 0 <= i < j -> j < zlen codes -> nthz codes i < nthz codes j;
  rc_keys : forall i, 0 <= i < m -> nthz codes i < keyMax k;
  rc_end : zlen codes = m \/ (zlen codes = m + 1 /\ nthz codes m = keyMax k)
}.

(** The last index before a property is lost. *)
Lemma last_holding (P : Z -> Prop) `{!forall i, Decision (P i)} l h : l < h -> P l -> ~ P h -> exists g, l <= g < h /\ P g /\ ~ P (g + 1).
Proof.
  intros Hlt Hl Hh. revert Hh. replace h with (l + 1 + Z.of_nat (Z.to_nat (h - l - 1))) by lia. generalize (Z.to_nat (h - l - 1)) as n. clear Hlt h. induction n as [|n IH]; intros Hh; [exists l; rewrite Z.add_0_r in Hh; split; [lia|done]|]. destruct (decide (P (l + 1 + Z.of_nat n))) as [Hp|Hp].
  - exists (l + 1 + Z.of_nat n). split; [lia|]. split; [done|]. by replace (l + 1 + Z.of_nat n + 1) with (l + 1 + Z.of_nat (S n)) by lia.
  - destruct (IH Hp) as (g & Hg & Hd). exists g. split; [lia|done].
Qed.

Lemma stored_nodes get j t i : storedTree get j t -> i ∈ radixNodes t -> is_Some (get i).
Proof.
  induction 1 as [|j node l r Hj Hg _ IH1 _ IH2]; intros Hin; [by apply not_elem_of_nil in Hin|]. apply elem_of_cons in Hin as [->|[Hin|Hin]%elem_of_app]; [by eexists|by apply IH1|by apply IH2].
Qed.

Lemma stored_get get get' j t : storedTree get j t -> (forall i, i ∈ radixNodes t -> get' i = get i) -> storedTree get' j t.
Proof.
  induction 1 as [i Hi|i node l r Hi Hg _ IH1 _ IH2]; intros Hget; [by constructor|]. cbn [radixNodes] in Hget. apply (stored_node _ i node l r); [done| | |].
  - rewrite <- Hg. apply Hget, elem_of_cons. by left.
  - apply IH1. intros j Hj. apply Hget, elem_of_cons. right. apply elem_of_app. by left.
  - apply IH2. intros j Hj. apply Hget, elem_of_cons. right. apply elem_of_app. by right.
Qed.

Section Nodes.
Context (k : KeyType) (codes : list Z) (m : Z).
Hypothesis Hrc : radixCodes k codes m.
Local Abbreviation T := (3 * maxTreeLevel k).
Local Abbreviation n := (zlen codes).

(** The number of common bits of two keys, -1 outside of the curve. *)
Definition delta (i j : Z) : Z := if decide (0 <= i < m /\ 0 <= j < m) then commonPrefix k (nthz codes i) (nthz codes j) else -1.

Lemma code_range i : 0 <= i < m -> 0 <= nthz codes i < keyMax k /\ codes.[i] = Some (nthz codes i).
Proof using Hrc. intros Hi. destruct Hrc as [C1 C2 C3 C4 C5]. split; [split; [apply C2; lia|by apply C4]|]. apply nthz_get. lia. Qed.

Lemma code_le i j : 0 <= i <= j -> j < m -> nthz codes i <= nthz codes j.
Proof using Hrc. intros Hi Hj. destruct Hrc as [C1 C2 C3 C4 C5]. destruct (decide (i = j)) as [->|]; [lia|]. specialize (C3 i j). lia. Qed.

Lemma delta_in i j : 0 <= i < m -> 0 <= j < m -> delta i j = commonPrefix k (nthz codes i) (nthz codes j) /\ 0 <= delta i j <= T /\ (i <> j -> delta i j < T).
Proof using Hrc.
  intros Hi Hj. unfold delta. rewrite decide_True by lia. destruct (code_range i Hi) as [R1 _], (code_range j Hj) as [R2 _]. destruct (prefix_range k _ _ R1 R2) as [H1 H2]. split; [done|]. split; [done|]. intros Hne. apply H2. destruct Hrc as [C1 C2 C3 C4 C5]. destruct (Z.lt_total i j) as [H|[H|H]]; [specialize (C3 i j); lia|lia|specialize (C3 j i); lia].
Qed.

Lemma delta_out i j : ~ (0 <= i < m /\ 0 <= j < m) -> delta i j = -1.
Proof using. intros H. unfold delta. by rewrite decide_False. Qed.

Lemma delta_ge i j : -1 <= delta i j.
Proof using Hrc. destruct (decide (0 <= i < m /\ 0 <= j < m)) as [[Hi Hj]|H]; [destruct (delta_in i j Hi Hj) as (_ & ? & _); lia|]. rewrite delta_out; [lia|done]. Qed.

Lemma delta_sym i j : delta i j = delta j i.
Proof using. unfold delta. destruct (decide (0 <= i < m /\ 0 <= j < m)); [rewrite decide_True by lia|rewrite decide_False by lia; done]. unfold commonPrefix. by rewrite Z.lxor_comm. Qed.

Lemma delta_min i j l : i <= j <= l -> delta i l = Z.min (delta i j) (delta j l).
Proof using Hrc.
  intros Hij. pose proof (delta_ge i j). pose proof (delta_ge j l). destruct (decide (0 <= i < m)) as [Hi|Hi]; [|rewrite (delta_out i l), (delta_out i j) by tauto; lia]. destruct (decide (0 <= l < m)) as [Hl|Hl]; [|rewrite (delta_out i l), (delta_out j l) by tauto; lia].
  destruct (delta_in i l) as (-> & _); [lia..|]. destruct (delta_in i j) as (-> & _); [lia..|]. destruct (delta_in j l) as (-> & _); [lia..|]. destruct (code_range i ltac:(lia)) as [R1 _], (code_range l ltac:(lia)) as [R2 _]. apply prefix_min; [|split; [|lia]]; [|apply code_le; lia]. split; [lia|apply code_le; lia].
Qed.

Lemma delta_split i j l : 0 <= i < j -> j < l < m -> delta i j <> delta j l.
Proof using Hrc.
  intros Hij Hl. destruct (delta_in i j) as (-> & _); [lia..|]. destruct (delta_in j l) as (-> & _); [lia..|]. destruct Hrc as [C1 C2 C3 C4 C5]. apply prefix_split; [split; [apply C2; lia|apply C3; lia]|split; [apply C3; lia|apply C4; lia]].
Qed.

Lemma sharesPrefix_delta i low j : 0 <= i < m -> -1 <= low -> sharesPrefix k codes n i low j = Some (low <? delta i j).
Proof using Hrc.
  intros Hi Hlow. unfold sharesPrefix. destruct (code_range i Hi) as [R1 E1]. pose proof Hrc as [C1 C2 C3 C4 C5]. destruct (decide (0 <= j < m)) as [Hj|Hj].
  - destruct (code_range j Hj) as [R2 E2]. rewrite (proj2 (Z.leb_le 0 j)), (proj2 (Z.ltb_lt j n)) by lia. cbn [andb]. rewrite E1, E2. cbn beta iota. by destruct (delta_in i j Hi Hj) as (-> & _).
  - rewrite (delta_out i j) by tauto. rewrite (proj2 (Z.ltb_ge low (-1))) by lia. destruct ((0 <=? j) && (j <? n)) eqn:Ej; [|done]. apply andb_true_iff in Ej as [H1%Z.leb_le H2%Z.ltb_lt]. assert (j = m /\ nthz codes m = keyMax k) as [-> Em] by (destruct C5 as [?|[? ?]]; [lia|split; [lia|done]]). rewrite E1, (nthz_get codes m) by lia. cbn beta iota. rewrite Em, prefix_end by lia. by rewrite (proj2 (Z.ltb_ge low (-1))) by lia.
Qed.

Lemma nodeDirection_delta i : 0 <= i < m -> i + 1 < n -> 0 < delta i (i + 1) + 1 \/ 0 < i -> nodeDirection k codes i = Some (let d := if delta i (i - 1) <? delta i (i + 1) then 1 else -1 in (d, delta i (i - d))).
Proof using Hrc.
  intros Hi Hn Hne. unfold nodeDirection. destruct (Z.ltb_spec 0 i) as [H0|H0].
  - assert (Hc : forall j, 0 <= j < n -> (codes.[j] = Some (nthz codes j)) /\ commonPrefix k (nthz codes i) (nthz codes j) = delta i j).
    { intros j Hj. split; [by apply nthz_get|]. pose proof Hrc as [C1 C2 C3 C4 C5]. destruct (decide (j < m)); [by destruct (delta_in i j) as (-> & _); [lia..|]|]. rewrite (delta_out i j) by lia. destruct (code_range i Hi) as [R1 _]. assert (j = m) as -> by lia. destruct C5 as [?|[_ ->]]; [lia|]. by apply prefix_end. }
    rewrite (proj1 (Hc i ltac:(lia))), (proj1 (Hc (i + 1) ltac:(lia))), (proj1 (Hc (i - 1) ltac:(lia))). cbn beta iota zeta. rewrite (proj2 (Hc (i + 1) ltac:(lia))), (proj2 (Hc (i - 1) ltac:(lia))). destruct (delta i (i - 1) <? delta i (i + 1)).
    + rewrite (proj1 (Hc (i - 1) ltac:(lia))). cbn beta iota. by rewrite (proj2 (Hc (i - 1) ltac:(lia))).
    + replace (i - -1) with (i + 1) by lia. rewrite (proj1 (Hc (i + 1) ltac:(lia))). cbn beta iota. by rewrite (proj2 (Hc (i + 1) ltac:(lia))).
  - assert (i = 0) as -> by lia. rewrite (delta_out 0 (0 - 1)) by lia. rewrite (proj2 (Z.ltb_lt (-1) (delta 0 (0 + 1)))) by lia. cbn zeta. by rewrite (delta_out 0 (0 - 1)) by lia.
Qed.

(** The keys [l .. h] are all keys that start with their common bits. *)
Definition block (l h : Z) : Prop := 0 <= l <= h /\ h < m /\ delta (l - 1) l < delta l h /\ delta h (h + 1) < delta l h.

(** The split of a block: left of it one more bit is common, at it the common bits end. *)
Definition splitAt (l h g : Z) : Prop := l <= g < h /\ delta l h < delta l g /\ delta g (g + 1) = delta l h.

Lemma split_exists l h : 0 <= l < h -> h < m -> exists g, splitAt l h g.
Proof using Hrc.
  intros Hl Hh. destruct (delta_in l h) as (_ & Hr & Hne); [lia..|]. specialize (Hne ltac:(lia)). destruct (delta_in l l) as (E1 & _); [lia..|]. rewrite commonPrefix_same in E1.
  destruct (last_holding (fun g => delta l h < delta l g) l h) as (g & Hg & H1 & H2); [lia|lia|lia|]. exists g. split; [lia|]. split; [done|]. pose proof (delta_min l g (g + 1) ltac:(lia)). pose proof (delta_min l (g + 1) h ltac:(lia)). lia.
Qed.

Lemma block_left l h g : block l h -> splitAt l h g -> block l g.
Proof using. intros (B1 & B2 & B3 & B4) (S1 & S2 & S3). repeat split; lia. Qed.

Lemma block_right l h g : block l h -> splitAt l h g -> block (g + 1) h.
Proof using Hrc.
  intros (B1 & B2 & B3 & B4) (S1 & S2 & S3). pose proof (delta_min l (g + 1) h ltac:(lia)). assert (Hlt : delta l h < delta (g + 1) h). { destruct (decide (g + 1 = h)) as [->|Hne]; [destruct (delta_in h h) as (-> & _); [lia..|]; rewrite commonPrefix_same; destruct (delta_in l h) as (_ & _ & ?); lia|]. pose proof (delta_split g (g + 1) h ltac:(lia) ltac:(lia)). lia. }
  repeat split; try lia. rewrite Z.add_simpl_r. lia.
Qed.

Lemma findSplit_run l h g : 0 <= l < h -> h < m -> splitAt l h g -> findSplit k codes l h = Some g.
Proof using Hrc.
  intros Hl Hh (S1 & S2 & S3). pose proof (rc_count _ _ _ Hrc). unfold findSplit. destruct (code_range l ltac:(lia)) as [R1 ->], (code_range h ltac:(lia)) as [R2 ->]. cbn beta iota. pose proof (rc_sorted _ _ _ Hrc l h ltac:(lia) ltac:(lia)). rewrite (proj2 (Z.eqb_neq _ _)) by lia. cbn zeta. destruct (delta_in l h) as (<- & _); [lia..|].
  match goal with |- halvingSearch _ ?accept _ _ _ = _ => pose proof (halvingSearch_run accept 1 l (g - l) ltac:(by left) ltac:(lia) ltac:(lia)) as Hrun end. specialize (fun H => Hrun H 32%nat 0 (h - l)). rewrite Z.add_0_r in Hrun. replace (l + (g - l) * 1) with g in Hrun by lia. apply Hrun; [|lia|lia|lia|change (2 ^ Z.of_nat 32) with (2 ^ 32); lia|lia]. intros t Ht. rewrite Z.mul_1_r. destruct (Z.ltb_spec (l + t) h) as [H1|H1].
  - destruct (code_range (l + t) ltac:(lia)) as [R3 ->]. cbn beta iota. f_equal. destruct (delta_in l (l + t)) as (<- & _); [lia..|]. destruct (Z.leb_spec t (g - l)) as [H2|H2].
    + apply Z.ltb_lt. pose proof (delta_min l (l + t) g ltac:(lia)). lia.
    + apply Z.ltb_ge. pose proof (delta_min l g (g + 1) ltac:(lia)). pose proof (delta_min l (g + 1) (l + t) ltac:(lia)). lia.
  - f_equal. symmetry. apply Z.leb_gt. lia.
Qed.

(** The end of a block at which its node is stored: the one that has more bits in common with the key beyond it. *)
Definition nodeOf (left : bool) (l h : Z) : Prop := if left then delta h (h + 1) <= delta (l - 1) l else delta (l - 1) l <= delta h (h + 1) /\ h + 1 < n.
Definition nodeIndex (left : bool) (l h : Z) : Z := if left then l else h.

(** From its index the search finds the other end of the block. *)
Lemma nodeRange_run left l h : block l h -> l < h -> nodeOf left l h ->
  let i := nodeIndex left l h in
  exists d low, nodeDirection k codes i = Some (d, low) /\ (exists r, searchLimit 32 (sharesPrefix k codes n i low) i d 2 = Some r /\ halvingSearch 32 (sharesPrefix k codes n i low) d r i = Some (nodeIndex (negb left) l h)).
Proof using Hrc.
  intros (B1 & B2 & B3 & B4) Hlh Hno i. pose proof (rc_count _ _ _ Hrc) as [C1 C2]. set (d := if left then 1 else -1). set (low := delta i (i - d)).
  assert (Hi : 0 <= i < m /\ i + 1 < n) by (unfold i, nodeIndex; destruct left; cbn in Hno; lia).
  pose proof (delta_min l (l + 1) h ltac:(lia)) as M1. pose proof (delta_min l (h - 1) h ltac:(lia)) as M2. destruct (delta_in l h) as (_ & Hr & _); [lia..|].
  assert (Ed : nodeDirection k codes i = Some (d, low)).
  { rewrite (nodeDirection_delta i) by (unfold i, nodeIndex in *; destruct left; lia). unfold low, d, i, nodeIndex in *. rewrite (delta_sym _ (_ - 1)). destruct left; [rewrite (proj2 (Z.ltb_lt _ _)) by lia; done|]. rewrite (delta_sym (h - 1) h), (delta_sym h (h - 1)). rewrite (proj2 (Z.ltb_ge _ _)) by lia. done. }
  assert (Hacc : forall t, 1 <= t -> sharesPrefix k codes n i low (i + t * d) = Some (t <=? h - l)).
  { intros t Ht. rewrite sharesPrefix_delta; [|lia|apply delta_ge]. f_equal. unfold low, d, i, nodeIndex in *. destruct left; cbn in Hno.
    - rewrite Z.mul_1_r, (delta_sym l (l - 1)). destruct (Z.leb_spec t (h - l)); [apply Z.ltb_lt; pose proof (delta_min l (l + t) h ltac:(lia)); lia|apply Z.ltb_ge; pose proof (delta_min l (h + 1) (l + t) ltac:(lia)); pose proof (delta_min l h (h + 1) ltac:(lia)); lia].
    - replace (h + t * -1) with (h - t) by lia. replace (h - -1) with (h + 1) by lia. rewrite (delta_sym h (h - t)). destruct (Z.leb_spec t (h - l)); [apply Z.ltb_lt; pose proof (delta_min l (h - t) h ltac:(lia)); lia|apply Z.ltb_ge; pose proof (delta_min (h - t) (l - 1) h ltac:(lia)); pose proof (delta_min (l - 1) l h ltac:(lia)); lia]. }
  assert (Hd : d = 1 \/ d = -1) by (unfold d; destruct left; lia). exists d, low. split; [done|].
  destruct (searchLimit_run (sharesPrefix k codes n i low) d i (h - l) Hd ltac:(lia) ltac:(lia) Hacc 32 2) as (r & -> & R1 & R2); [lia|lia|change (Z.of_nat 32 - 1) with 31; lia|]. exists r. split; [done|].
  replace i with (i + 0 * d) at 2 by lia. rewrite (halvingSearch_run (sharesPrefix k codes n i low) d i (h - l) Hd ltac:(lia) ltac:(lia) Hacc 32 0 r); [|lia|lia|lia|change (2 ^ Z.of_nat 32) with (2 ^ 32); lia|lia]. f_equal. unfold i, d, nodeIndex. destruct left; cbn [negb]; lia.
Qed.

Lemma node_run left l h g : block l h -> l < h -> nodeOf left l h -> splitAt l h g ->
  constructInternalNode k codes n (nodeIndex left l h) = Some (mkBinaryNode (if l =? g then storeLeafIndex l else g) (if g + 1 =? h then storeLeafIndex (g + 1) else g + 1) (encodePlaceholderBit k (nthz codes l) (delta l h))).
Proof using Hrc.
  intros Hb Hlh Hno Hs. destruct (nodeRange_run left l h Hb Hlh Hno) as (d & low & Ed & r & Er & Eh). destruct Hb as (B1 & B2 & _). unfold constructInternalNode. rewrite Ed. cbn beta iota zeta. rewrite Er. cbn beta iota. rewrite Eh. cbn beta iota.
  assert (Hi : forall left, 0 <= nodeIndex left l h < m) by (intros []; cbn; lia). destruct (code_range _ (Hi left)) as [R1 ->], (code_range _ (Hi (negb left))) as [R2 ->]. cbn beta iota.
  replace (Z.min (nodeIndex (negb left) l h) (nodeIndex left l h)) with l by (destruct left; cbn; lia). replace (Z.max (nodeIndex (negb left) l h) (nodeIndex left l h)) with h by (destruct left; cbn; lia). rewrite (findSplit_run l h g) by (done || lia). cbn beta iota.
  destruct (delta_in (nodeIndex left l h) (nodeIndex (negb left) l h) (Hi left) (Hi (negb left))) as (E1 & D1 & _). rewrite <- E1. assert (E2 : delta (nodeIndex left l h) (nodeIndex (negb left) l h) = delta l h) by (destruct left; cbn; [done|apply delta_sym]). rewrite E2 in D1 |- *. rewrite placeholder_zeroed by lia. rewrite (prefix_bits k (nthz codes (nodeIndex left l h)) (nthz codes l)).
  - f_equal. f_equal; [destruct (Z.eqb_spec l g) as [->|]; done|by rewrite Z.eqb_sym].
  - lia.
  - apply code_range. lia.
  - lia.
  - destruct left; cbn [nodeIndex] in *; [rewrite commonPrefix_same; lia|]. destruct (delta_in h l) as (<- & _); [lia..|]. rewrite delta_sym. lia.
Qed.

(** The bits of the keys left and right of a split. *)
Lemma split_bits l h g i : block l h -> splitAt l h g -> l <= i <= h ->
  encodePlaceholderBit k (nthz codes i) (delta l h + 1) = 2 * encodePlaceholderBit k (nthz codes l) (delta l h) + (if i <=? g then 0 else 1).
Proof using Hrc.
  intros Hb Hs Hi. pose proof (block_right l h g Hb Hs) as (_ & _ & Hr1 & _). rewrite Z.add_simpl_r in Hr1. destruct Hb as (B1 & B2 & _), Hs as (S1 & S2 & S3). destruct (delta_in l h) as (E1 & D1 & D2); [lia..|]. specialize (D2 ltac:(lia)). set (p := delta l h) in *.
  destruct (code_range l ltac:(lia)) as [Rl _], (code_range h ltac:(lia)) as [Rh _], (code_range i ltac:(lia)) as [Ri _]. pose proof (rc_count _ _ _ Hrc). pose proof (rc_sorted _ _ _ Hrc l h ltac:(lia) ltac:(lia)).
  assert (Ei : encodePlaceholderBit k (nthz codes i) (p + 1) = encodePlaceholderBit k (nthz codes (if i <=? g then l else h)) (p + 1)).
  { destruct (Z.leb_spec i g) as [H1|H1]; apply prefix_bits; try lia.
    - destruct (delta_in i l) as (<- & _); [lia..|]. rewrite delta_sym. pose proof (delta_min l i g ltac:(lia)). lia.
    - destruct (delta_in i h) as (<- & _); [lia..|]. pose proof (delta_min (g + 1) i h ltac:(lia)). lia. }
  rewrite Ei. rewrite !encodePlaceholderBit_val by (destruct (i <=? g); lia). set (q := 2 ^ (T - (p + 1))). assert (Hq : 0 < q) by (apply Z.pow_pos_nonneg; lia). assert (Eq : 2 ^ (T - p) = q * 2) by (unfold q; replace (T - p) with (Z.succ (T - (p + 1))) by lia; rewrite Z.pow_succ_r by lia; lia). rewrite Eq, Z.pow_add_r, <- Z.div_div by lia. change (2 ^ 1) with 2.
  assert (H1 : nthz codes l / 2 ^ (T - p) = nthz codes h / 2 ^ (T - p)) by (apply prefix_iff; lia). assert (H2 : nthz codes l / q <> nthz codes h / q) by (unfold q; rewrite <- prefix_iff by lia; lia). rewrite Eq, <- !Z.div_div in H1 by lia. pose proof (Z.div_le_mono (nthz codes l) (nthz codes h) q ltac:(lia) ltac:(lia)). destruct (i <=? g); Z.div_mod_to_equations; lia.
Qed.

(** ** The tree *)

Lemma subtree size : forall left l h, h - l <= Z.of_nat size -> block l h -> nodeOf left l h ->
  exists t, storedTree (constructInternalNode k codes n) (if l =? h then storeLeafIndex l else nodeIndex left l h) t /\ radixLeaves t = seqZ l (h - l + 1) /\ radixNodes t ≡ₚ seqZ (if left then l else l + 1) (h - l) /\ radixSorted k codes t.
Proof using Hrc.
  pose proof (rc_count _ _ _ Hrc). induction size as [|size IH]; intros left l h Hsz Hb Hno; destruct Hb as (B1 & B2 & B3 & B4); (destruct (Z.eqb_spec l h) as [<-|Hne]; [exists (RadixLeaf l); split; [constructor; lia|]; rewrite Z.sub_diag; done|]); [lia|].
  assert (Hb : block l h) by done. assert (Hlh : l < h) by lia. destruct (split_exists l h ltac:(lia) B2) as [g Hs]. pose proof (node_run left l h g Hb Hlh Hno Hs) as En. pose proof Hs as (S1 & S2 & S3).
  destruct (IH false l g) as (t1 & T1 & L1 & N1 & R1); [lia|by apply (block_left l h g)|cbn; lia|]. destruct (IH true (g + 1) h) as (t2 & T2 & L2 & N2 & R2); [lia|by apply (block_right l h g)|cbn; rewrite Z.add_simpl_r; lia|].
  assert (Hix : 0 <= nodeIndex left l h) by (destruct left; cbn; lia). eexists. split; [apply (stored_node _ _ _ t1 t2 Hix En T1 T2)|]. cbn [radixLeaves radixNodes radixSorted bn_prefix]. rewrite L1, L2. split; [|split].
  - replace (h - l + 1) with ((g - l + 1) + (h - (g + 1) + 1)) by lia. rewrite (seqZ_app l (g - l + 1)) by lia. by replace (l + (g - l + 1)) with (g + 1) by lia.
  - rewrite N1, N2. cbn [nodeIndex]. destruct left; cbn [nodeIndex].
    + replace (h - l) with (1 + ((g - l) + (h - (g + 1)))) by lia. rewrite (seqZ_app l 1) by lia. rewrite (seqZ_app (l + 1) (g - l)) by lia. change (seqZ l 1) with [l]. replace (l + 1 + (g - l)) with (g + 1) by lia. done.
    + replace (h - l) with ((g - l) + ((h - (g + 1)) + 1)) by lia. rewrite (seqZ_app (l + 1) (g - l)) by lia. replace (l + 1 + (g - l)) with (g + 1) by lia. rewrite (seqZ_app (g + 1) (h - (g + 1))) by lia. replace (g + 1 + (h - (g + 1))) with h by lia. change (seqZ h 1) with [h]. rewrite app_assoc. by rewrite <- Permutation_cons_append.
  - destruct (delta_in l h) as (_ & D1 & D2); [lia..|]. specialize (D2 ltac:(lia)). destruct (code_range l ltac:(lia)) as [Rl _]. exists (delta l h). split; [lia|]. split; [|split; [|split; [|done]]].
    + rewrite encodePlaceholderBit_val by lia. assert (0 < 2 ^ (T - delta l h)) by (apply Z.pow_pos_nonneg; lia). assert (0 <= nthz codes l / 2 ^ (T - delta l h) < 2 ^ delta l h). { split; [apply Z.div_pos; lia|]. apply Z.div_lt_upper_bound; [lia|]. rewrite <- Z.pow_add_r by lia. replace (T - delta l h + delta l h) with T by lia. rewrite <- keyMax_pow2. lia. } rewrite Z.pow_add_r by lia. lia.
    + apply Forall_forall. intros i Hi%elem_of_seqZ. rewrite (split_bits l h g i Hb Hs) by lia. rewrite (proj2 (Z.leb_le i g)) by lia. lia.
    + apply Forall_forall. intros i Hi%elem_of_seqZ. rewrite (split_bits l h g i Hb Hs) by lia. rewrite (proj2 (Z.leb_gt i g)) by lia. lia.
Qed.

Lemma curve_block : block 0 (m - 1) /\ nodeOf true 0 (m - 1) /\ (m < n -> nodeOf false 0 (m - 1)).
Proof using Hrc.
  pose proof (rc_count _ _ _ Hrc). destruct (delta_in 0 (m - 1)) as (_ & D1 & _); [lia..|]. unfold block, nodeOf. rewrite (delta_out (0 - 1) 0), (delta_out (m - 1) (m - 1 + 1)) by lia. lia.
Qed.

Lemma tree_exists : exists t, storedTree (constructInternalNode k codes n) 0 t /\ radixLeaves t = seqZ 0 m /\ radixNodes t ≡ₚ seqZ 0 (m - 1) /\ radixSorted k codes t.
Proof using Hrc.
  pose proof (rc_count _ _ _ Hrc). destruct curve_block as (Hb & Hno & _). destruct (subtree (Z.to_nat m) true 0 (m - 1) ltac:(lia) Hb Hno) as (t & T1 & L1 & N1 & R1).
  exists t. rewrite Z.sub_0_r in L1, N1. rewrite (proj2 (Z.eqb_neq 0 (m - 1))) in T1 by lia. replace (m - 1 + 1) with m in L1 by lia. done.
Qed.

(** All nodes are constructed; the one beyond the end of the curve has the same keys as the root. *)
Lemma nodes_exist i : 0 <= i < n - 1 -> is_Some (constructInternalNode k codes n i).
Proof using Hrc.
  intros Hi. pose proof (rc_count _ _ _ Hrc). destruct (decide (i < m - 1)) as [Hlt|Hge].
  - destruct tree_exists as (t & Hst & _ & Hn & _). assert (Hin : i ∈ radixNodes t) by (rewrite Hn; apply elem_of_seqZ; lia). by apply (stored_nodes _ 0 t).
  - assert (Ei : i = m - 1) by (destruct (rc_end _ _ _ Hrc) as [?|[? _]]; lia). destruct curve_block as (Hb & _ & Hno). destruct (split_exists 0 (m - 1)) as [g Hs]; [lia|lia|]. eexists. subst i. apply (node_run false 0 (m - 1) g Hb); [lia|apply Hno; lia|done].
Qed.

Lemma createBinaryTree_run order binaryTree : order ≡ₚ seqZ 0 (n - 1) -> zlen binaryTree = n - 1 ->
  exists nodes t, createBinaryTree k codes order binaryTree = Some nodes /\ zlen nodes = n - 1 /\ storedTree (fun i => nodes.[i]) 0 t /\ radixLeaves t = seqZ 0 m /\ radixNodes t ≡ₚ seqZ 0 (m - 1) /\ radixSorted k codes t.
Proof using Hrc.
  intros Ho Hz. pose proof (rc_count _ _ _ Hrc). set (g := fun i => default (mkBinaryNode 0 0 0) (constructInternalNode k codes n i)). assert (Hr : forall i, i ∈ order -> 0 <= i < n - 1) by (intros i; rewrite Ho; intros Hi%elem_of_seqZ; lia).
  destruct (foldM_writes (fun idx binaryTree => let? node := constructInternalNode k codes (zlen codes) idx in aset binaryTree idx node) g 0 (n - 1) order binaryTree) as (nodes & E1 & Z1 & G1 & _); [done|by intros i Hi%Hr| |].
  { intros i st Hi%Hr _. destruct (nodes_exist i Hi) as [node En]. unfold g. rewrite !Z.add_0_l, En. done. }
  destruct tree_exists as (t & Hst & HL & HN & HS). exists nodes, t. split; [exact E1|]. split; [done|]. split; [|done].
  assert (Hget : forall i, i ∈ radixNodes t -> nodes.[i] = constructInternalNode k codes n i). { intros i. rewrite HN. intros Hi%elem_of_seqZ. rewrite (G1 i) by (rewrite Z.sub_0_r, Ho; apply elem_of_seqZ; lia). destruct (nodes_exist i ltac:(lia)) as [node En]. unfold g. by rewrite En. }
  by apply (stored_get (constructInternalNode k codes n)).
Qed.

End Nodes.
