(* ===== verification/Csarray.v ===== *)
(** * The cornerstone leaf array

    [cstone/tree/csarray.hpp] and the invariant check of [cstone/tree/cs_util.hpp]:
    node searches, particle counts per leaf with and without a guess, the rebalance
    decision, the rebalance step, tree construction from particle keys, treelets and
    spanning trees.  Arrays are lists, out-of-range accesses are [None]; node indices
    ([TreeNodeIndex], signed) are mathematical integers, counts and keys wrap at their
    width. *)

From S2P Require Import Prelude Primitives SfcCommon.

(** ** Node searches and counts *)

Definition eightSiblings : Z := 8.

Definition findNodeBelow (tree : list Z) (numNodes key : Z) : option Z :=
  let? it := upper_bound tree 0 numNodes key in Some (it - 1).

Definition findNodeAbove (tree : list Z) (numNodes key : Z) : option Z :=
  lower_bound tree 0 numNodes key.

(** The codes [codesStart, codesEnd) are the whole list [codes]. *)
Definition calculateNodeCount (nodeStart nodeEnd : Z) (codes : list Z) (maxCount : Z) : option Z :=
  let? rangeStart := lower_bound codes 0 (zlen codes) nodeStart in
  let? rangeEnd := lower_bound codes 0 (zlen codes) nodeEnd in
  let count := u64 (rangeEnd - rangeStart) in
  Some (u32 (stl_min count maxCount)).

(** Signed arithmetic in [std::make_signed_t<KeyType>], undefined on overflow. *)
Definition sint (k : KeyType) (x : Z) : option Z :=
  if (- 2 ^ (keyBits k - 1) <=? x) && (x <? 2 ^ (keyBits k - 1)) then Some x else None.

(** The doubling search of [findSearchBounds]. *)
Fixpoint searchBoundLoop (fuel : nat) (k : KeyType) (codes : list Z)
    (nCodes firstIdx d targetCodeTimesD searchRange secondIndex : Z) : option Z :=
  match fuel with
  | O => None
  | S fuel =>
      if (0 <=? secondIndex) && (secondIndex <? nCodes) then
        let? code := codes.[secondIndex] in
        let? dCode := sint k (d * swrap (keyBits k) code) in
        if dCode <=? targetCodeTimesD then
          let? searchRange := sint k (searchRange * 2) in
          let? step := sint k (searchRange * d) in
          let? secondIndex := sint k (firstIdx + step) in
          searchBoundLoop fuel k codes nCodes firstIdx d targetCodeTimesD searchRange secondIndex
        else Some secondIndex
      else Some secondIndex
  end.

(** Index range of [codes] that the guess [firstIdx] is narrowed to.  The number of codes is converted to the signed type;
    [targetCode * d] is an unsigned product. *)
Definition findSearchBounds (k : KeyType) (firstIdx targetCode : Z) (codes : list Z) : option (Z * Z) :=
  let nCodes := swrap (keyBits k) (zlen codes) in
  if nCodes =? 0 then Some (0, 0)
  else
    let firstIdx := stl_max firstIdx 0 in
    let? lastIdx := sint k (nCodes - 1) in
    let firstIdx := stl_min lastIdx firstIdx in
    if nodeRange k 0 <=? targetCode then
      let? it := lower_bound codes 0 (zlen codes) targetCode in
      Some (it, zlen codes)
    else
      let? c := codes.[firstIdx] in
      let d := if c <? targetCode then 1 else -1 in
      let targetCodeTimesD := swrap (keyBits k) (targetCode * d) in
      let? secondIndex := sint k (firstIdx + d) in
      let? secondIndex := searchBoundLoop (S (length codes)) k codes nCodes firstIdx d targetCodeTimesD 1 secondIndex in
      let secondIndex := stl_max 0 secondIndex in
      let secondIndex := stl_min nCodes secondIndex in
      Some (stl_min firstIdx secondIndex, stl_max firstIdx secondIndex).

Definition updateNodeCount (k : KeyType) (nodeIdx : Z) (tree : list Z) (firstGuess secondGuess : Z)
    (codes : list Z) (maxCount : Z) : option Z :=
  let? nodeStart := tree.[nodeIdx] in
  let? nodeEnd := tree.[nodeIdx + 1] in
  let? (lo, hi) := findSearchBounds k firstGuess nodeStart codes in
  let? rangeStart := lower_bound codes lo hi nodeStart in
  let? (lo, hi) := findSearchBounds k secondGuess nodeEnd codes in
  let? rangeEnd := lower_bound codes lo hi nodeEnd in
  let count := u32 (rangeEnd - rangeStart) in
  Some (stl_min count maxCount).

(** [for (i = lo; i < hi; ++i) counts[i] = 0]. *)
Definition zeroCounts (lo hi : Z) (counts : list Z) : option (list Z) :=
  for_loop lo hi (fun i counts => aset counts i 0) counts.

(** Range of nodes that can hold particles. *)
Definition populatedNodes (tree : list Z) (nNodes : Z) (keys : list Z) : option (Z * Z) :=
  match keys with
  | [] => Some (nNodes, nNodes)
  | front :: _ =>
      let? back := keys.[zlen keys - 1] in
      let? up := upper_bound tree 0 nNodes front in
      let? lastNode := upper_bound tree 0 nNodes back in
      Some (up - 1, lastNode)
  end.

(** In-place [std::exclusive_scan] of [counts[lo, hi)] with 32-bit unsigned sums. *)
Definition scanCounts (lo hi : Z) (counts : list Z) : list Z :=
  take (Z.to_nat lo) counts ++
  exclusive_scan_u32 0 (take (Z.to_nat (hi - lo)) (drop (Z.to_nat lo) counts)) ++
  drop (Z.to_nat hi) counts.

(** Iteration [i] of the loop with guesses; [populatedTree] is [tree + firstNode]. *)
Definition guessedCountBody (k : KeyType) (tree : list Z) (nNodes : Z) (keys : list Z)
    (maxCount firstNode i : Z) (counts : list Z) : option (list Z) :=
  let? firstGuess := counts.[i + firstNode] in
  let? secondGuess := counts.[stl_min (i + firstNode + 1) (nNodes - 1)] in
  let? c := updateNodeCount k (firstNode + i) tree
              (swrap (keyBits k) firstGuess) (swrap (keyBits k) secondGuess) keys maxCount in
  aset counts (i + firstNode) c.

(** Iteration [i] of the loop without guesses. *)
Definition countBody (tree keys : list Z) (maxCount firstNode i : Z) (counts : list Z) : option (list Z) :=
  let? a := tree.[firstNode + i] in
  let? b := tree.[firstNode + i + 1] in
  let? c := calculateNodeCount a b keys maxCount in
  aset counts (i + firstNode) c.

(** [order nNonZeroNodes] is the order in which the iterations of the parallel loop
    take effect on [counts]. *)
Definition computeNodeCountsOrder (order : Z -> list Z) (k : KeyType) (tree counts : list Z) (nNodes : Z)
    (keys : list Z) (maxCount : Z) (useCountsAsGuess : bool) : option (list Z) :=
  let? (firstNode, lastNode) := populatedNodes tree nNodes keys in
  let? counts := zeroCounts 0 firstNode counts in
  let? counts := zeroCounts lastNode nNodes counts in
  let nNonZeroNodes := lastNode - firstNode in
  if useCountsAsGuess then
    let counts := scanCounts firstNode (firstNode + nNonZeroNodes) counts in
    foldM (guessedCountBody k tree nNodes keys maxCount firstNode) (order nNonZeroNodes) counts
  else foldM (countBody tree keys maxCount firstNode) (order nNonZeroNodes) counts.

(** Sequential order. *)
Definition computeNodeCounts : KeyType -> list Z -> list Z -> Z -> list Z -> Z -> bool -> option (list Z) :=
  computeNodeCountsOrder (seqZ 0).

(** ** Rebalance decision *)

Definition siblingAndLevel (k : KeyType) (csTree : list Z) (nodeIdx : Z) : option (Z * Z) :=
  let? thisNode := csTree.[nodeIdx] in
  let? next := csTree.[nodeIdx + 1] in
  let range := kwrap k (next - thisNode) in
  let level := treeLevel k range in
  if level =? 0 then Some (-1, level)
  else
    let siblingIdx := octalDigit k thisNode level in
    let? groupEnd := csTree.[nodeIdx - siblingIdx + 8] in
    let? groupStart := csTree.[nodeIdx - siblingIdx] in
    let siblings := groupEnd =? kwrap k (groupStart + nodeRange k (level - 1)) in
    Some (if siblings then siblingIdx else -1, level).

(** [size_t(g[0]) + ... + size_t(g[7])] with [g = counts + first]. *)
Definition groupCount (counts : list Z) (first : Z) : option Z :=
  let? gs := mapM_range first (first + 8) (fun j => counts.[j]) in
  Some (u64 (zsum gs)).

Definition calculateNodeOp (k : KeyType) (tree : list Z) (nodeIdx : Z) (counts : list Z)
    (bucketSize : Z) : option Z :=
  let? (siblingIdx, level) := siblingAndLevel k tree nodeIdx in
  let? countMerge :=
    (if 0 <? siblingIdx then
       let? parentCount := groupCount counts (nodeIdx - siblingIdx) in
       Some (parentCount <=? bucketSize)
     else Some false) in
  if countMerge then Some 0
  else
    let? count := counts.[nodeIdx] in
    if (u32 (bucketSize * 512) <? count) && (u32 (level + 3) <? maxTreeLevel k) then Some 4096
    else if (u32 (bucketSize * 64) <? count) && (u32 (level + 2) <? maxTreeLevel k) then Some 512
    else if (u32 (bucketSize * 8) <? count) && (u32 (level + 1) <? maxTreeLevel k) then Some 64
    else if (bucketSize <? count) && (level <? maxTreeLevel k) then Some 8
    else Some 1.

(** Convergence flag and the decisions written to [nodeOps]. *)
Definition rebalanceDecision (k : KeyType) (tree counts : list Z) (nNodes bucketSize : Z)
    (nodeOps : list Z) : option (bool * list Z) :=
  for_loop 0 nNodes (fun i st =>
    let '(converged, nodeOps) := st in
    let? decision := calculateNodeOp k tree i counts bucketSize in
    let? nodeOps := aset nodeOps i decision in
    Some (if decision =? 1 then converged else false, nodeOps)) (true, nodeOps).

(** ** Rebalance step *)

Definition processNode (k : KeyType) (nodeIndex : Z) (oldTree nodeOps newTree : list Z) : option (list Z) :=
  let? thisNode := oldTree.[nodeIndex] in
  let? next := oldTree.[nodeIndex + 1] in
  let range := kwrap k (next - thisNode) in
  let level := treeLevel k range in
  let? opEnd := nodeOps.[nodeIndex + 1] in
  let? opStart := nodeOps.[nodeIndex] in
  let opCode := opEnd - opStart in
  let newNodeIndex := opStart in
  if opCode =? 1 then aset newTree newNodeIndex thisNode
  else if opCode =? 8 then
    for_loop 0 8 (fun sibling newTree =>
      aset newTree (newNodeIndex + sibling) (kwrap k (thisNode + kwrap k (sibling * nodeRange k (u32 (level + 1))))))
      newTree
  else if 8 <? opCode then
    let levelDiff := log8ceil Key32 (u32 opCode) in
    for_loop 0 opCode (fun sibling newTree =>
      aset newTree (newNodeIndex + sibling)
        (kwrap k (thisNode + kwrap k (sibling * nodeRange k (u32 (level + levelDiff)))))) newTree
  else Some newTree.

(** New leaf array and the scanned [nodeOps]; [newTree] may hold old data. *)
Definition rebalanceTree (k : KeyType) (tree newTree nodeOps : list Z) : option (list Z * list Z) :=
  let numNodes := nNodes tree in
  let scanned := exclusive_scan 0 (take (Z.to_nat (numNodes + 1)) nodeOps) ++
                 drop (Z.to_nat (numNodes + 1)) nodeOps in
  let? total := scanned.[numNodes] in
  let newTree := aresize 0 newTree (total + 1) in
  let? newTree := for_loop 0 numNodes (fun i newTree => processNode k i tree scanned newTree) newTree in
  let? treeBack := tree.[zlen tree - 1] in
  let? newTree := aset newTree (zlen newTree - 1) treeBack in
  Some (newTree, scanned).

(** ** Tree construction *)

Definition updateOctree (k : KeyType) (keys : list Z) (bucketSize : Z) (tree counts : list Z)
    (maxCount : Z) : option (bool * list Z * list Z) :=
  let nodeOps := replicate (Z.to_nat (nNodes tree + 1)) 0 in
  let? (converged, nodeOps) := rebalanceDecision k tree counts (nNodes tree) bucketSize nodeOps in
  let? (newTree, _) := rebalanceTree k tree [] nodeOps in
  let tree := newTree in
  let counts := aresize 0 counts (nNodes tree) in
  let? counts := computeNodeCounts k tree counts (nNodes tree) keys maxCount true in
  Some (converged, tree, counts).

(** [while (!updateOctree(...)) ;] with a bound on the number of iterations. *)
Fixpoint updateOctreeLoop (fuel : nat) (k : KeyType) (keys : list Z) (bucketSize : Z)
    (tree counts : list Z) (maxCount : Z) : option (list Z * list Z) :=
  match fuel with
  | O => None
  | S fuel =>
      let? (converged, tree, counts) := updateOctree k keys bucketSize tree counts maxCount in
      if converged : bool then Some (tree, counts)
      else updateOctreeLoop fuel k keys bucketSize tree counts maxCount
  end.

Definition computeOctree (fuel : nat) (k : KeyType) (keys : list Z) (bucketSize maxCount : Z) :
    option (list Z * list Z) :=
  updateOctreeLoop fuel k keys bucketSize [0; nodeRange k 0] [u32 (zlen keys)] maxCount.

Definition updateTreelet (k : KeyType) (treelet counts : list Z) (bucketSize : Z) : option (list Z) :=
  let nodeOps := replicate (Z.to_nat (nNodes treelet + 1)) 0 in
  let? (_, nodeOps) := rebalanceDecision k treelet counts (nNodes treelet) bucketSize nodeOps in
  let? (newTreelet, _) := rebalanceTree k treelet [] nodeOps in
  Some newTreelet.

(** Copy of the codes of one interval behind [offset]. *)
Definition writeAt (out : list Z) (offset : Z) (vals : list Z) : option (list Z) :=
  for_loop 0 (zlen vals) (fun i out => let? v := vals.[i] in aset out (offset + i) v) out.

Definition computeSpanningTree (k : KeyType) (spanningKeys : list Z) : option (list Z) :=
  let numIntervals := zlen spanningKeys - 1 in
  let? offsets := mapM_range 0 numIntervals (fun i =>
    let? a := spanningKeys.[i] in
    let? b := spanningKeys.[i + 1] in
    spanSfcRangeCount k a b) in
  let offsets := exclusive_scan 0 (offsets ++ [0]) in
  let? total := offsets.[zlen offsets - 1] in
  let spanningTree := replicate (Z.to_nat (total + 1)) 0 in
  let? spanningTree := for_loop 0 numIntervals (fun i spanningTree =>
    let? a := spanningKeys.[i] in
    let? b := spanningKeys.[i + 1] in
    let? offset := offsets.[i] in
    let? r := spanSfcRange k a b in
    writeAt spanningTree offset (snd r)) spanningTree in
  aset spanningTree (zlen spanningTree - 1) (nodeRange k 0).

(** ** cs_util.hpp *)

(** Loop body of [checkOctreeInvariants] for node [i]. *)
Definition checkNode (k : KeyType) (tree : list Z) (nNodes i : Z) : option bool :=
  let? a := tree.[i] in
  let? b := tree.[i + 1] in
  let range := kwrap k (b - a) in
  Some (negb ((i + 1 <? nNodes) && (b <=? a)) && negb (range =? 0) && isPowerOf8 k range).

Definition checkOctreeInvariants (k : KeyType) (tree : list Z) (nNodes : Z) : option bool :=
  if nNodes <? 1 then Some false
  else
    let? t0 := tree.[0] in
    let? tn := tree.[nNodes] in
    if negb (t0 =? 0) || negb (tn =? nodeRange k 0) then Some false
    else for_loop 0 nNodes (fun i (ok : bool) => if ok then checkNode k tree nNodes i else Some false) true.

Definition makeRootNodeTree (k : KeyType) : list Z := [0; nodeRange k 0].

Definition makeNLevelGrid (k : KeyType) (level : Z) : list Z :=
  let ticksPerDim := u32 (Z.shiftl 1 level) in
  let nNodes := kwrap k (u32 (u32 (ticksPerDim * ticksPerDim) * ticksPerDim)) in
  let tickRange := nodeRange k level in
  (fun i => kwrap k (i * tickRange)) <$> seqZ 0 nNodes.

Definition makeUniformNLevelTree (k : KeyType) (nParticles bucketSize : Z) : list Z :=
  let level := log8ceil k (kwrap k (nParticles / bucketSize)) in
  makeNLevelGrid k level ++ [nodeRange k 0].

(** The loop over the levels; [nLevels] is [(sizeof(I) * 8) / 3]. *)
Definition codeFromIndices (k : KeyType) (indices : list Z) : option Z :=
  let nLevels := keyBits k / 3 in
  for_loop 0 nLevels (fun idx ret =>
    let? index := indices.[idx] in
    if index <? 8 then
      let treeLevel := nLevels - idx - 1 in
      Some (kwrap k (ret + kwrap k (Z.shiftl index (3 * treeLevel))))
    else None) 0.

(** [OctreeMaker::divide] on the vector of keys [tree]; the indices are stored as [unsigned char]. *)
Definition divide (k : KeyType) (idx : list Z) (level : Z) (tree : list Z) : option (list Z) :=
  let indices := (fun i => wrap 8 i) <$> idx in
  let? code := codeFromIndices k indices in
  if negb (bool_decide (code ∈ tree)) then None
  else
    let? indices := aset indices level 1 in
    let? code := codeFromIndices k indices in
    if bool_decide (code ∈ tree) then None
    else
      for_loop 1 8 (fun sibling tree =>
        let? indices := aset indices level sibling in
        let? code := codeFromIndices k indices in
        Some (tree ++ [code])) tree.

Definition makeTree (tree : list Z) : list Z := merge_sort Z.le tree.
