(* ===== verification/CsInvariant.v ===== *)
(** * The invariant of cornerstone arrays

    What a leaf array promises to its clients: consecutive keys delimit octree nodes
    (power-of-eight length, aligned start) that cover the whole curve.  The lemmas here
    give the index view of that chain and the sibling-group structure that the
    rebalance decision relies on. *)

From S2P Require Import Prelude Primitives SfcCommon Csarray.

(** A key sequence whose nodes cover [a, b), closed by the key [b]. *)
Definition treelet (k : KeyType) (a : Z) (tree : list Z) (b : Z) : Prop :=
  exists l, tree = l ++ [b] /\ cs_chain k a l b.

(** A cornerstone octree: a key sequence that covers the whole curve. *)
Definition csTree (k : KeyType) (tree : list Z) : Prop := treelet k 0 tree (keyMax k).

(** ** From chains to indices *)

Lemma treelet_cons k a x tree b :
  treelet k a (x :: tree) b ->
  (x = a /\ tree = [] /\ a = b) \/ (x = a /\ exists y, isNode k a y /\ treelet k y tree b).
Proof.
  intros (l & Hl & Hc). destruct l as [|z l]; simpl in Hl; injection Hl as -> ->.
  - inversion Hc; subst. by left.
  - right. inversion Hc; subst. split; [done|]. eexists; split; [done|]. by exists l.
Qed.

Lemma treelet_nonempty k a tree b : treelet k a tree b -> 0 < zlen tree.
Proof. intros (l & -> & _). autorewrite with zlen. pose proof (zlen_nonneg l). lia. Qed.

Lemma treelet_first k a tree b : treelet k a tree b -> tree.[0] = Some a.
Proof.
  intros Ht. destruct tree as [|x tree].
  { apply treelet_nonempty in Ht. unfold zlen in Ht. simpl in Ht. lia. }
  apply treelet_cons in Ht as [(-> & _)|(-> & _)]; done.
Qed.

Lemma treelet_last k a tree b : treelet k a tree b -> tree.[zlen tree - 1] = Some b.
Proof.
  intros (l & -> & _). autorewrite with zlen. replace (zlen l + (1 + 0) - 1) with (zlen l) by lia.
  apply aget_middle.
Qed.

Lemma treelet_isNode k a tree b i :
  treelet k a tree b -> 0 <= i < zlen tree - 1 -> isNode k (nthz tree i) (nthz tree (i + 1)).
Proof.
  revert a i. induction tree as [|x tree IH]; intros a i Ht Hi; [unfold zlen in Hi; simpl in Hi; lia|].
  rewrite zlen_cons in Hi. apply treelet_cons in Ht as [(_ & -> & _)|(-> & y & Hn & Ht)].
  { unfold zlen in Hi. simpl in Hi. lia. }
  destruct (decide (i = 0)) as [->|].
  - unfold nthz at 1. simpl. unfold nthz. rewrite aget_cons_S by lia.
    replace (0 + 1 - 1) with 0 by lia. by rewrite (treelet_first _ _ _ _ Ht).
  - unfold nthz. rewrite !aget_cons_S by lia. replace (i + 1 - 1) with (i - 1 + 1) by lia.
    apply (IH y); [done|lia].
Qed.

Lemma treelet_intro k a tree b :
  0 < zlen tree -> tree.[0] = Some a -> tree.[zlen tree - 1] = Some b ->
  (forall i, 0 <= i < zlen tree - 1 -> isNode k (nthz tree i) (nthz tree (i + 1))) ->
  treelet k a tree b.
Proof.
  revert a. induction tree as [|x tree IH]; intros a Hp H0 Hl Hn; [done|].
  rewrite zlen_cons in *. injection H0 as ->. destruct tree as [|y tree].
  - rewrite (zlen_nil (A:=Z)) in Hl. injection Hl as ->. exists []. split; [done|constructor].
  - rewrite zlen_cons in *. pose proof (zlen_nonneg tree).
    assert (isNode k a y) as Hay by (apply (Hn 0); lia).
    destruct (IH y) as (l & Hl' & Hc).
    + lia.
    + done.
    + rewrite aget_cons_S in Hl by lia.
      by replace (1 + zlen tree - 1) with (1 + (1 + zlen tree) - 1 - 1) by lia.
    + intros i Hi. specialize (Hn (i + 1) ltac:(lia)). unfold nthz in *.
      rewrite !(aget_cons_S a) in Hn by lia.
      replace (i + 1 - 1) with i in Hn by lia. by replace (i + 1 + 1 - 1) with (i + 1) in Hn by lia.
    + exists (a :: l). rewrite Hl'. split; [done|]. by eapply chain_cons.
Qed.

(** ** Alignment arithmetic *)

(** Distinct multiples of [d] are at least [d] apart. *)
Lemma multiples_apart d x y : 0 < d -> (d | x) -> (d | y) -> x < y -> x + d <= y.
Proof. intros Hd [p ->] [q ->] Hlt. assert (p < q) by nia. nia. Qed.

Lemma pow8_divide_trans m n x : 0 <= m <= n -> (8 ^ n | x) -> (8 ^ m | x).
Proof. intros Hmn Hx. etrans; [|exact Hx]. by apply pow8_divide. Qed.

(** ** Index view of a cornerstone tree *)

Section Nodes.
Context (k : KeyType) (n : Z) (T : Z -> Z).
Hypothesis Hn : 0 < n.
Hypothesis HT : forall i, 0 <= i < n -> isNode k (T i) (T (i + 1)).
Hypothesis HT0 : T 0 = 0.
Hypothesis HTn : T n = keyMax k.

Lemma nodes_step i : 0 <= i < n -> T i < T (i + 1).
Proof using HT. intros Hi. apply HT, isNode_lt in Hi. lia. Qed.

Lemma nodes_mono i j : 0 <= i -> i < j -> j <= n -> T i < T j.
Proof using HT.
  intros Hi Hij. replace j with (i + 1 + Z.of_nat (Z.to_nat (j - i - 1))) by lia.
  generalize (Z.to_nat (j - i - 1)). intros m. induction m as [|m IH]; intros Hj.
  - rewrite Z.add_0_r. apply nodes_step. lia.
  - specialize (IH ltac:(lia)). pose proof (nodes_step (i + 1 + Z.of_nat m) ltac:(lia)).
    replace (i + 1 + Z.of_nat (S m)) with (i + 1 + Z.of_nat m + 1) by lia. lia.
Qed.

Lemma nodes_mono_le i j : 0 <= i -> i <= j -> j <= n -> T i <= T j.
Proof using HT.
  intros. destruct (decide (i = j)) as [->|]; [lia|]. pose proof (nodes_mono i j). lia.
Qed.

Lemma nodes_lt_inv i j : 0 <= i <= n -> 0 <= j <= n -> T i < T j -> i < j.
Proof using HT.
  intros Hi Hj H. destruct (Z.lt_ge_cases i j) as [|Hge]; [done|].
  pose proof (nodes_mono_le j i ltac:(lia) Hge ltac:(lia)). lia.
Qed.

Lemma nodes_inj i j : 0 <= i <= n -> 0 <= j <= n -> T i = T j -> i = j.
Proof using HT.
  intros Hi Hj H. destruct (Z.lt_trichotomy i j) as [Hlt|[|Hgt]]; [|done|].
  - pose proof (nodes_mono i j). lia.
  - pose proof (nodes_mono j i). lia.
Qed.

(** Every key of the curve lies in exactly one leaf. *)
Lemma nodes_locate x : 0 <= x < keyMax k -> exists i, 0 <= i < n /\ T i <= x < T (i + 1).
Proof using Hn HT HT0 HTn.
  intros Hx.
  assert (forall m : nat, Z.of_nat m <= n -> x < T (Z.of_nat m) ->
            exists i, 0 <= i < n /\ T i <= x < T (i + 1)) as Hgen.
  { induction m as [|m IH]; intros Hm Hlt; [change (Z.of_nat 0) with 0 in Hlt; rewrite HT0 in Hlt; lia|].
    destruct (Z.lt_ge_cases x (T (Z.of_nat m))) as [|Hge]; [apply IH; [lia|done]|].
    exists (Z.of_nat m). replace (Z.of_nat m + 1) with (Z.of_nat (S m)) by lia. lia. }
  apply (Hgen (Z.to_nat n)); rewrite Z2Nat.id by lia; lia.
Qed.

Lemma nodes_locate_unique x i j :
  0 <= i < n -> 0 <= j < n -> T i <= x < T (i + 1) -> T j <= x < T (j + 1) -> i = j.
Proof using HT.
  intros Hi Hj Hxi Hxj.
  assert (i < j + 1) by (apply nodes_lt_inv; lia). assert (j < i + 1) by (apply nodes_lt_inv; lia). lia.
Qed.

(** *** The sibling group of a node *)

Section Group.
Context (i m : Z).
Hypothesis Hi : 0 <= i < n.
Hypothesis Hm : 0 <= m < maxTreeLevel k.
Hypothesis Hsize : T (i + 1) = T i + 8 ^ m.
Hypothesis Hal : (8 ^ m | T i).

Let P := 8 ^ (m + 1).
Let p := T i / P * P.
Let s := (T i / 8 ^ m) mod 8.

Lemma group_size : P = 8 * 8 ^ m /\ 0 < 8 ^ m.
Proof using All. split; [apply pow8_succ; lia|apply pow8_pos; lia]. Qed.

Lemma group_offset : T i = p + s * 8 ^ m /\ 0 <= s < 8 /\ (P | p) /\ 0 <= p /\ p + P <= keyMax k.
Proof using All.
  destruct group_size as [HP Hpos]. unfold p, s. rewrite HP.
  pose proof (HT i Hi) as Hnode. apply isNode_lt in Hnode.
  destruct Hal as [c Hc]. rewrite Hc in Hnode |- *. rewrite Z.div_mul by lia.
  rewrite (Z.mul_comm 8), <- Z.div_div, Z.div_mul by lia.
  pose proof (Z.div_mod c 8 ltac:(lia)). pose proof (Z.mod_pos_bound c 8 ltac:(lia)).
  split; [lia|]. split; [lia|]. split; [apply Z.divide_factor_r|].
  assert (0 <= c) by nia. assert (0 <= c / 8) by (apply Z.div_pos; lia). split; [nia|].
  assert ((P | keyMax k)) as [q Hq] by (apply pow8_divide; lia).
  rewrite HP in Hq. rewrite Hq in Hnode |- *. assert (c < 8 * q) by nia.
  assert (c / 8 < q) by (apply Z.div_lt_upper_bound; lia). nia.
Qed.

(** A leaf that starts inside the parent range is no bigger than the siblings. *)
Lemma group_small q :
  0 <= q < n -> p <= T q < p + P ->
  exists r, 0 <= r <= m /\ T (q + 1) = T q + 8 ^ r /\ T (q + 1) <= p + P.
Proof using All.
  intros Hq Hr. destruct group_size as [HP Hpos]. destruct group_offset as (Ho & Hs & Hdp & Hp0 & Hpk).
  destruct (HT q Hq) as (r & Hrm & Hq0 & Hdq & Hq1 & Hqk).
  destruct (Z.le_gt_cases r m) as [Hle|Hgt].
  - exists r. split; [lia|]. split; [done|]. rewrite Hq1.
    apply multiples_apart; [apply pow8_pos; lia|done| |lia].
    apply Z.divide_add_r; apply pow8_divide_trans with (m + 1); try lia; [done|apply Z.divide_refl].
  - exfalso. assert (P <= 8 ^ r) by (apply pow8_mono; lia).
    assert (T q = p) as Hqp.
    { destruct (decide (T q = p)) as [|Hne]; [done|].
      assert (p + P <= T q); [|lia]. apply multiples_apart; [lia|done| |lia].
      apply pow8_divide_trans with r; [lia|done]. }
    assert (i = q) as -> by (apply (nodes_locate_unique (T i)); [done|done|nia|nia]).
    assert (8 ^ m = 8 ^ r) as E by lia. apply pow8_inj in E; lia.
Qed.

(** The first leaf of the parent range starts at its first key. *)
Lemma group_start : exists j, 0 <= j <= i /\ T j = p.
Proof using All.
  destruct group_size as [HP Hpos]. destruct group_offset as (Ho & Hs & Hdp & Hp0 & Hpk).
  destruct (nodes_locate p) as (j & Hj & Hpj); [lia|].
  assert (T j = p) as Hjp.
  { destruct (decide (T j = p)) as [|Hne]; [done|]. exfalso.
    destruct (HT j Hj) as (r & Hrm & Hj0 & Hdj & Hj1 & Hjk).
    destruct (Z.le_gt_cases r (m + 1)) as [Hle|Hgt].
    - assert (T j + 8 ^ r <= p); [|lia]. apply multiples_apart; [apply pow8_pos; lia|done| |lia].
      apply pow8_divide_trans with (m + 1); [lia|done].
    - assert (p + P <= T j + 8 ^ r).
      { apply multiples_apart; [lia|done| |lia]. apply Z.divide_add_r.
        - apply pow8_divide_trans with r; [lia|done].
        - apply pow8_divide. lia. }
      assert (i = j) as -> by (apply (nodes_locate_unique (T i)); [done|done|nia|nia]).
      assert (8 ^ m = 8 ^ r) as E by lia. apply pow8_inj in E; lia. }
  exists j. split; [|done]. split; [lia|].
  assert (j < i + 1); [|lia]. apply nodes_lt_inv; [lia|lia|nia].
Qed.

(** The parent range ends at a leaf boundary. *)
Lemma group_end : exists e, i < e <= n /\ T e = p + P.
Proof using All.
  destruct group_size as [HP Hpos]. destruct group_offset as (Ho & Hs & Hdp & Hp0 & Hpk).
  destruct (nodes_locate (p + P - 1)) as (q & Hq & Hqx); [lia|].
  assert (p <= T q).
  { destruct group_start as (j & Hj & Hjp). destruct (Z.le_gt_cases p (T q)) as [|Hgt]; [done|].
    assert (q < j) by (apply nodes_lt_inv; lia).
    pose proof (nodes_mono_le (q + 1) j ltac:(lia) ltac:(lia) ltac:(lia)). lia. }
  destruct (group_small q) as (r & _ & _ & Hle); [lia|lia|].
  exists (q + 1). split; [|lia]. split; [|lia]. apply nodes_lt_inv; [lia|lia|nia].
Qed.

(** Leaves of the parent range are at most one sibling wide. *)
Lemma group_width u v :
  0 <= u <= v -> v <= n -> p <= T u -> T v <= p + P -> T v - T u <= (v - u) * 8 ^ m.
Proof using All.
  intros Hu Hv Hpu. replace v with (u + Z.of_nat (Z.to_nat (v - u))) in * by lia.
  generalize dependent (Z.to_nat (v - u)). intros w. induction w as [|w IH]; intros Huv Hv Hle.
  - rewrite Z.add_0_r. lia.
  - replace (u + Z.of_nat (S w)) with (u + Z.of_nat w + 1) in * by lia.
    pose proof (nodes_mono_le u (u + Z.of_nat w) ltac:(lia) ltac:(lia) ltac:(lia)).
    pose proof (nodes_step (u + Z.of_nat w) ltac:(lia)).
    specialize (IH ltac:(lia) ltac:(lia) ltac:(lia)).
    destruct (group_small (u + Z.of_nat w)) as (r & Hr & Hw & _); [lia|lia|].
    assert (8 ^ r <= 8 ^ m) by (apply pow8_mono; lia). lia.
Qed.

(** The reads of [siblingAndLevel] stay inside the tree. *)
Lemma group_bounds : 0 <= i - s /\ i - s + 8 <= n /\ p <= T (i - s) /\ T (i - s + 8) <= p + P.
Proof using All.
  destruct group_size as [HP Hpos]. destruct group_offset as (Ho & Hs & Hdp & Hp0 & Hpk).
  destruct group_start as (j & Hj & Hjp). destruct group_end as (e & He & Hep).
  pose proof (group_width j i ltac:(lia) ltac:(lia) ltac:(lia) ltac:(nia)).
  pose proof (group_width i e ltac:(lia) ltac:(lia) ltac:(nia) ltac:(lia)).
  assert (s <= i - j) by nia. assert (8 - s <= e - i) by nia.
  pose proof (nodes_mono_le j (i - s) ltac:(lia) ltac:(lia) ltac:(lia)).
  pose proof (nodes_mono_le (i - s + 8) e ltac:(lia) ltac:(lia) ltac:(lia)). lia.
Qed.

(** When the group test succeeds, the eight siblings are adjacent leaves. *)
Lemma group_full :
  T (i - s + 8) = T (i - s) + P -> forall c, 0 <= c <= 8 -> T (i - s + c) = p + c * 8 ^ m.
Proof using All.
  intros Htest c Hc. destruct group_size as [HP Hpos].
  destruct group_offset as (Ho & Hs & Hdp & Hp0 & Hpk). destruct group_bounds as (H1 & H2 & H3 & H4).
  pose proof (nodes_mono_le (i - s) (i - s + c) ltac:(lia) ltac:(lia) ltac:(lia)).
  pose proof (nodes_mono_le (i - s + c) (i - s + 8) ltac:(lia) ltac:(lia) ltac:(lia)).
  pose proof (group_width (i - s) (i - s + c) ltac:(lia) ltac:(lia) ltac:(lia) ltac:(lia)).
  pose proof (group_width (i - s + c) (i - s + 8) ltac:(lia) ltac:(lia) ltac:(lia) ltac:(lia)).
  lia.
Qed.

End Group.
End Nodes.

(** ** Decision procedure *)

Definition isNodeb (k : KeyType) (a b : Z) : bool :=
  let n := Z.log2 (b - a) / 3 in
  (b - a =? 8 ^ n) && (n <=? maxTreeLevel k) && (0 <=? a) && (a mod 8 ^ n =? 0) && (b <=? keyMax k).

Lemma isNodeb_iff k a b : isNodeb k a b = true <-> isNode k a b.
Proof.
  unfold isNodeb, isNode. split.
  - intros H. zbool. exists (Z.log2 (b - a) / 3). pose proof (Z.log2_nonneg (b - a)).
    assert (0 <= Z.log2 (b - a) / 3) by (apply Z.div_pos; lia).
    pose proof (pow8_pos (Z.log2 (b - a) / 3) ltac:(lia)).
    repeat split; try lia. apply Z.mod_divide; lia.
  - intros (m & Hm & Ha & Hd & -> & Hk). replace (a + 8 ^ m - a) with (8 ^ m) by lia.
    assert (Z.log2 (8 ^ m) / 3 = m) as ->.
    { rewrite pow8_pow2, Z.log2_pow2 by lia. rewrite Z.mul_comm. apply Z.div_mul. lia. }
    pose proof (pow8_pos m ltac:(lia)). apply Z.mod_divide in Hd; [|lia]. rewrite Hd, !Z.eqb_refl.
    repeat (apply andb_true_iff; split); try done; apply Z.leb_le; lia.
Qed.

Fixpoint treeletb (k : KeyType) (a : Z) (tree : list Z) (b : Z) : bool :=
  match tree with
  | [] => false
  | x :: rest =>
      (x =? a) && match rest with
                  | [] => a =? b
                  | y :: _ => isNodeb k a y && treeletb k y rest b
                  end
  end.

Lemma treeletb_iff k a tree b : treeletb k a tree b = true <-> treelet k a tree b.
Proof.
  revert a. induction tree as [|x rest IH]; intros a.
  { split; [done|]. intros (l & E & _). by destruct l. }
  cbn [treeletb]. rewrite andb_true_iff, Z.eqb_eq. split.
  - intros [-> H]. destruct rest as [|y r].
    + apply Z.eqb_eq in H as ->. exists []. split; [done|constructor].
    + apply andb_true_iff in H as [Hn (l & El & Hc)%IH]. apply isNodeb_iff in Hn.
      exists (a :: l). rewrite El. split; [done|]. by eapply chain_cons.
  - intros [(-> & -> & ->)|(-> & y & Hn & Ht)]%treelet_cons; (split; [done|]); [apply Z.eqb_refl|].
    destruct rest as [|y' r]; [by destruct Ht as ([] & ? & _)|].
    pose proof (treelet_first _ _ _ _ Ht) as E. injection E as ->.
    apply andb_true_iff. split; [by apply isNodeb_iff|by apply IH].
Qed.

#[export] Instance treelet_dec k a tree b : Decision (treelet k a tree b).
Proof.
  destruct (treeletb k a tree b) eqn:E.
  - left. by apply treeletb_iff.
  - right. intros H%treeletb_iff. congruence.
Defined.

#[export] Instance csTree_dec k tree : Decision (csTree k tree).
Proof. apply treelet_dec. Defined.
