(* ===== verification/CsRebalance.v ===== *)
(** * The rebalance step

    [rebalanceTree] applies the decisions in [nodeOps] to a leaf array: 0 removes a leaf,
    1 keeps it, [8^j] replaces it by its descendants [j] levels below.  Shown here: what
    the scan-and-scatter implementation computes, when the result is a cornerstone tree
    again, and that the decisions of [rebalanceDecision] meet that condition. *)

From S2P Require Import Prelude Primitives SfcCommon Csarray CsInvariant.

(** ** Reference semantics *)

(** What a leaf [a, b) with decision [op] contributes to the new tree. *)
Definition splitKeys (a b op : Z) : list Z := (fun j => a + j * ((b - a) / op)) <$> seqZ 0 op.

(** Decisions that [processNode] can execute on a leaf of size [8^m]. *)
Definition opFits (m op : Z) : Prop := op = 0 \/ exists j, 0 <= j <= m /\ j <= 10 /\ op = 8 ^ j.

Lemma opFits_nonneg m op : opFits m op -> 0 <= op.
Proof. intros [->|(j & Hj & _ & ->)]; [done|]. pose proof (pow8_pos j). lia. Qed.

Lemma zlen_splitKeys a b op : 0 <= op -> zlen (splitKeys a b op) = op.
Proof. intros. unfold splitKeys. rewrite zlen_map. by apply zlen_seqZ. Qed.

Lemma splitKeys_1 a b : splitKeys a b 1 = [a].
Proof. unfold splitKeys. simpl. f_equal. lia. Qed.

Lemma splitKeys_0 a b : splitKeys a b 0 = [].
Proof. done. Qed.

Lemma pow8_quot m j : 0 <= j <= m -> 8 ^ m / 8 ^ j = 8 ^ (m - j).
Proof.
  intros. replace (8 ^ m) with (8 ^ (m - j) * 8 ^ j) by (rewrite <- Z.pow_add_r by lia; f_equal; lia).
  apply Z.div_mul. pose proof (pow8_pos j). lia.
Qed.

(** A loop that stores [g sibling] behind index [off]. *)
Lemma store_block {A} (g : Z -> A) (f : Z -> A) off n pre mid post :
  zlen mid = n -> zlen pre = off -> (forall i, 0 <= i < n -> f i = g i) ->
  for_loop 0 n (fun i dst => aset dst (off + i) (f i)) (pre ++ mid ++ post)
    = Some (pre ++ (g <$> seqZ 0 n) ++ post).
Proof.
  intros Hm Hp Hf. apply (write_loop_block g (fun i => Some (f i)) off 0 n); [done|lia|].
  intros i Hi. rewrite Hf by lia. done.
Qed.

Lemma kwrap_child k a m j c :
  0 <= j <= m -> m <= maxTreeLevel k -> 0 <= a -> a + 8 ^ m <= keyMax k -> 0 <= c < 8 ^ j ->
  kwrap k (a + kwrap k (c * 8 ^ (m - j))) = a + c * 8 ^ (m - j).
Proof.
  intros Hj Hm Ha Hk Hc. pose proof (pow8_pos (m - j) ltac:(lia)).
  assert (8 ^ m = 8 ^ j * 8 ^ (m - j)) as E by (rewrite <- Z.pow_add_r by lia; f_equal; lia).
  assert (c * 8 ^ (m - j) < 8 ^ m) by nia.
  rewrite (kwrap_small k (c * 8 ^ (m - j))) by nia. apply kwrap_small. nia.
Qed.

(** [processNode] overwrites exactly the block that the scan reserved for it. *)
Lemma processNode_block k i tree ops newTree a m op o pre mid post :
  tree.[i] = Some a -> tree.[i + 1] = Some (a + 8 ^ m) ->
  0 <= m <= maxTreeLevel k -> 0 <= a -> a + 8 ^ m <= keyMax k ->
  ops.[i] = Some o -> ops.[i + 1] = Some (o + op) -> opFits m op ->
  newTree = pre ++ mid ++ post -> zlen pre = o -> zlen mid = op ->
  processNode k i tree ops newTree = Some (pre ++ splitKeys a (a + 8 ^ m) op ++ post).
Proof.
  intros Ha Hb Hm Ha0 Hk Ho Ho1 Hop -> Hpre Hmid. kfacts k.
  pose proof (pow8_le_keyMax k m Hm).
  unfold processNode. rewrite Ha, Hb, Ho, Ho1. rewrite kwrap_small by lia.
  replace (a + 8 ^ m - a) with (8 ^ m) by lia. rewrite treeLevel_pow8 by done.
  replace (o + op - o) with op by lia.
  destruct Hop as [->|(j & Hj & Hj10 & ->)].
  { apply zlen_zero_inv in Hmid as ->. by rewrite splitKeys_0. }
  assert (Hsplit : forall f : Z -> Z, (forall c, 0 <= c < 8 ^ j -> f c = a + c * 8 ^ (m - j)) ->
    for_loop 0 (8 ^ j) (fun c dst => aset dst (o + c) (f c)) (pre ++ mid ++ post) =
      Some (pre ++ splitKeys a (a + 8 ^ m) (8 ^ j) ++ post)).
  { intros f Hf. unfold splitKeys. replace (a + 8 ^ m - a) with (8 ^ m) by lia.
    rewrite pow8_quot by lia. by apply store_block. }
  assert (forall l, l = maxTreeLevel k - m + j -> nodeRange k (u32 l) = 8 ^ (m - j)) as HnR.
  { intros l ->. rewrite u32_small, nodeRange_pow8 by lia. f_equal; lia. }
  destruct (decide (j = 0)) as [->|].
  - change (8 ^ 0) with 1 in *. rewrite splitKeys_1. simpl.
    destruct mid as [|x [|]]; rewrite ?zlen_cons in Hmid; [done| |pose proof (zlen_nonneg l); lia].
    rewrite <- Hpre. apply aset_middle.
  - assert (8 ^ 1 <= 8 ^ j) as Hge by (apply pow8_mono; lia). change (8 ^ 1) with 8 in Hge.
    replace (8 ^ j =? 1) with false by (symmetry; apply Z.eqb_neq; lia).
    destruct (Z.eqb_spec (8 ^ j) 8) as [E8|].
    + rewrite <- E8 at 1. apply Hsplit. intros c Hc.
      assert (j = 1) as -> by (apply pow8_inj; lia).
      rewrite HnR by done. apply kwrap_child; lia.
    + replace (8 <? 8 ^ j) with true by (symmetry; apply Z.ltb_lt; lia).
      apply Hsplit. intros c Hc. rewrite (u32_small (8 ^ j)).
      * rewrite log8ceil_pow8 by (simpl; lia). rewrite HnR by done. apply kwrap_child; lia.
      * assert (8 ^ j <= 8 ^ 10) by (apply pow8_mono; lia). lia.
Qed.

(** ** The scan-and-scatter implementation *)

Definition leafOutput (tree ops : list Z) (i : Z) : list Z :=
  splitKeys (nthz tree i) (nthz tree (i + 1)) (nthz ops i).

Definition newLeaves (tree ops : list Z) (lo hi : Z) : list Z :=
  concat (leafOutput tree ops <$> seqZ lo (hi - lo)).

Lemma newLeaves_nil tree ops lo : newLeaves tree ops lo lo = [].
Proof. unfold newLeaves. by rewrite Z.sub_diag. Qed.

Lemma newLeaves_cons tree ops lo hi :
  lo < hi -> newLeaves tree ops lo hi = leafOutput tree ops lo ++ newLeaves tree ops (lo + 1) hi.
Proof.
  intros. unfold newLeaves. rewrite seqZ_cons by lia. simpl.
  replace (Z.succ lo) with (lo + 1) by lia. by replace (Z.pred (hi - lo)) with (hi - (lo + 1)) by lia.
Qed.

Lemma newLeaves_snoc tree ops lo hi :
  lo <= hi -> newLeaves tree ops lo (hi + 1) = newLeaves tree ops lo hi ++ leafOutput tree ops hi.
Proof.
  intros. unfold newLeaves. replace (hi + 1 - lo) with (hi - lo + 1) by lia.
  rewrite seqZ_app by lia. rewrite fmap_app, concat_app. simpl. rewrite app_nil_r.
  by replace (lo + (hi - lo)) with hi by lia.
Qed.

(** Every decision of [ops] can be executed on its leaf. *)
Definition opsFit (k : KeyType) (tree ops : list Z) : Prop :=
  zlen ops = nNodes tree /\
  forall i, 0 <= i < nNodes tree ->
    exists m, 0 <= m <= maxTreeLevel k /\ nthz tree (i + 1) = nthz tree i + 8 ^ m /\
      opFits m (nthz ops i).

Lemma opsFit_nonneg k tree ops : opsFit k tree ops -> Forall (fun v => 0 <= v) ops.
Proof.
  intros [Hlen Hops]. apply Forall_forall. intros v [i Hi]%elem_aget.
  pose proof (aget_Some_range _ _ _ Hi). destruct (Hops i) as (m & _ & _ & Hfit); [lia|].
  rewrite (nthz_Some _ _ _ Hi) in Hfit. by eapply opFits_nonneg.
Qed.

Lemma zlen_newLeaves k tree ops i :
  opsFit k tree ops -> 0 <= i <= nNodes tree -> zlen (newLeaves tree ops 0 i) = prefixSum ops i.
Proof.
  intros Hfit Hi. replace i with (Z.of_nat (Z.to_nat i)) in * by lia.
  generalize dependent (Z.to_nat i). intros n. induction n as [|n IH]; intros Hi.
  { by rewrite newLeaves_nil, prefixSum_0. }
  specialize (IH ltac:(lia)). destruct Hfit as [Hlen Hops].
  replace (Z.of_nat (S n)) with (Z.of_nat n + 1) by lia.
  rewrite newLeaves_snoc, zlen_app, IH by lia.
  rewrite (prefixSum_succ _ _ (nthz ops (Z.of_nat n))) by (apply nthz_get; lia).
  destruct (Hops (Z.of_nat n)) as (m & _ & _ & Hm); [lia|].
  unfold leafOutput. rewrite zlen_splitKeys by by eapply opFits_nonneg. done.
Qed.

Lemma list_split_at {A} (l : list A) (n : Z) :
  0 <= n <= zlen l -> exists l1 l2, l = l1 ++ l2 /\ zlen l1 = n /\ zlen l2 = zlen l - n.
Proof.
  intros Hn. exists (take (Z.to_nat n) l), (drop (Z.to_nat n) l). rewrite take_drop.
  unfold zlen in *. rewrite length_take, length_drop. split; [done|]. lia.
Qed.

(** The loop over all leaves: each iteration extends the finished prefix. *)
Lemma processNodes_spec k tree a b ops x rest newTree :
  treelet k a tree b -> opsFit k tree ops -> zlen newTree = zsum ops + 1 ->
  let scanned := exclusive_scan 0 (ops ++ [x]) ++ rest in
  exists c, for_loop 0 (nNodes tree) (fun i newTree => processNode k i tree scanned newTree) newTree
    = Some (newLeaves tree ops 0 (nNodes tree) ++ [c]).
Proof.
  intros Ht Hfit Hnew scanned. pose proof Hfit as [Hlen Hops].
  pose proof (opsFit_nonneg _ _ _ Hfit) as Hpos.
  pose proof (treelet_nonempty _ _ _ _ Ht) as Hne. unfold nNodes in *.
  assert (Hscan : forall i, 0 <= i <= zlen ops -> scanned.[i] = Some (prefixSum ops i)).
  { intros i Hi. unfold scanned. assert (zlen (exclusive_scan 0 (ops ++ [x])) = zlen ops + 1) as Hl.
    { unfold zlen. rewrite exclusive_scan_length, length_app. simpl. lia. }
    rewrite aget_app_l by lia. rewrite exclusive_scan_get by (rewrite zlen_app; change (zlen [x]) with 1; lia).
    by rewrite prefixSum_app_l by lia. }
  destruct (for_loop_inv (fun i t => exists r, t = newLeaves tree ops 0 i ++ r /\
              zlen r = zsum ops + 1 - prefixSum ops i) 0 (zlen tree - 1)
              (fun i newTree => processNode k i tree scanned newTree) newTree) as (t & Hrun & r & -> & Hr).
  - lia.
  - exists newTree. rewrite newLeaves_nil, prefixSum_0. split; [done|lia].
  - intros i t Hi (r & -> & Hr).
    destruct (Hops i Hi) as (m & Hm & Hstep & Hfits).
    pose proof (opFits_nonneg _ _ Hfits) as Hop0.
    pose proof (prefixSum_succ ops i (nthz ops i) ltac:(apply nthz_get; lia)) as Hsum.
    pose proof (prefixSum_mono ops (i + 1) (zlen ops) Hpos ltac:(lia)) as Hle. rewrite prefixSum_all in Hle.
    destruct (list_split_at r (nthz ops i)) as (mid & post & -> & Hmid & Hpost); [lia|].
    exists (newLeaves tree ops 0 (i + 1) ++ post). split.
    + destruct (treelet_isNode _ _ _ _ i Ht Hi) as (m' & Hm' & Hi0 & _ & _ & Hik).
      rewrite (processNode_block k i tree scanned _ (nthz tree i) m (nthz ops i) (prefixSum ops i)
                 (newLeaves tree ops 0 i) mid post).
      * rewrite newLeaves_snoc by lia. rewrite <- app_assoc. unfold leafOutput. rewrite Hstep. reflexivity.
      * apply nthz_get; lia.
      * rewrite <- Hstep. apply nthz_get; lia.
      * done.
      * done.
      * lia.
      * apply Hscan. lia.
      * rewrite <- Hsum. apply Hscan. lia.
      * done.
      * reflexivity.
      * apply (zlen_newLeaves k); [done|unfold nNodes; lia].
      * done.
    + exists post. split; [done|]. lia.
  - rewrite <- Hlen, prefixSum_all in Hr. destruct r as [|c [|]]; rewrite ?zlen_cons in Hr.
    + change (zlen (@nil Z)) with 0 in Hr. lia.
    + exists c. rewrite Hrun. done.
    + pose proof (zlen_nonneg l). lia.
Qed.

(** [rebalanceTree] computes the reference semantics, whatever [newTree] held before. *)
Lemma rebalanceTree_spec k tree a b old ops x rest :
  treelet k a tree b -> opsFit k tree ops ->
  rebalanceTree k tree old (ops ++ x :: rest) =
    Some (newLeaves tree ops 0 (nNodes tree) ++ [b], exclusive_scan 0 (ops ++ [x]) ++ rest).
Proof.
  intros Ht Hfit. pose proof Hfit as [Hlen _]. pose proof (opsFit_nonneg _ _ _ Hfit) as Hpos.
  pose proof (treelet_nonempty _ _ _ _ Ht) as Hne.
  assert (length (ops ++ [x]) = Z.to_nat (nNodes tree + 1)) as Hl.
  { rewrite length_app. unfold zlen in Hlen. simpl. lia. }
  unfold rebalanceTree. replace (ops ++ x :: rest) with ((ops ++ [x]) ++ rest) by by rewrite <- app_assoc.
  rewrite <- Hl, take_app_length, drop_app_length.
  assert ((exclusive_scan 0 (ops ++ [x]) ++ rest).[nNodes tree] = Some (zsum ops)) as Htot.
  { rewrite aget_app_l.
    - rewrite exclusive_scan_get by (rewrite zlen_app; change (zlen [x]) with 1; unfold nNodes in *; lia).
      by rewrite <- Hlen, prefixSum_app_l, prefixSum_all by lia.
    - unfold zlen at 1. rewrite exclusive_scan_length, Hl. unfold nNodes in *. lia. }
  rewrite Htot.
  assert (0 <= zsum ops) by (rewrite <- prefixSum_all; by apply prefixSum_nonneg).
  destruct (processNodes_spec k tree a b ops x rest (aresize 0 old (zsum ops + 1)) Ht Hfit) as [c Hrun].
  { rewrite zlen_aresize by lia. done. }
  rewrite Hrun, (treelet_last _ _ _ _ Ht).
  rewrite zlen_app. change (zlen [c]) with 1.
  replace (zlen (newLeaves tree ops 0 (nNodes tree)) + 1 - 1)
    with (zlen (newLeaves tree ops 0 (nNodes tree))) by lia.
  by rewrite aset_middle.
Qed.

(** ** When the result is a cornerstone tree *)

(** Leaves [g .. g+7] are the children of one node and are replaced by it. *)
Definition mergedGroup (k : KeyType) (tree ops : list Z) (g : Z) : Prop :=
  0 <= g /\ g + 8 <= nNodes tree /\ nthz ops g = 1 /\
  (forall c, 1 <= c < 8 -> nthz ops (g + c) = 0) /\ isNode k (nthz tree g) (nthz tree (g + 8)).

(** Leaves are only removed as part of a merged group. *)
Definition mergesAreGroups (k : KeyType) (tree ops : list Z) : Prop :=
  forall i, 0 <= i < nNodes tree -> nthz ops i = 0 -> exists g, mergedGroup k tree ops g /\ g < i < g + 8.

Lemma splitKeys_chain k a m j :
  0 <= j <= m -> m <= maxTreeLevel k -> 0 <= a -> (8 ^ m | a) -> a + 8 ^ m <= keyMax k ->
  cs_chain k a (splitKeys a (a + 8 ^ m) (8 ^ j)) (a + 8 ^ m).
Proof.
  intros Hj Hm Ha Hd Hk. unfold splitKeys. replace (a + 8 ^ m - a) with (8 ^ m) by lia.
  rewrite pow8_quot by lia.
  assert (8 ^ m = 8 ^ j * 8 ^ (m - j)) as E by (rewrite <- Z.pow_add_r by lia; f_equal; lia).
  pose proof (pow8_pos (m - j) ltac:(lia)) as Hp. pose proof (pow8_pos j ltac:(lia)) as Hpj.
  assert (Hgen : forall n : nat, forall c, 0 <= c -> c + Z.of_nat n = 8 ^ j ->
    cs_chain k (a + c * 8 ^ (m - j)) ((fun j0 => a + j0 * 8 ^ (m - j)) <$> seqZ c (Z.of_nat n)) (a + 8 ^ m)).
  { induction n as [|n IH]; intros c Hc Hn.
    - simpl. replace (a + 8 ^ m) with (a + c * 8 ^ (m - j)) by nia. constructor.
    - rewrite seqZ_cons by lia. simpl. apply chain_cons with (a + (c + 1) * 8 ^ (m - j)).
      + exists (m - j). split; [lia|]. split; [nia|]. split.
        * apply Z.divide_add_r; [by apply pow8_divide_trans with m; [lia|]|apply Z.divide_factor_r].
        * split; [lia|]. nia.
      + replace (Z.succ c) with (c + 1) by lia. replace (Z.pred (Z.of_nat (S n))) with (Z.of_nat n) by lia.
        apply IH; lia. }
  specialize (Hgen (Z.to_nat (8 ^ j)) 0 ltac:(lia) ltac:(lia)).
  rewrite Z2Nat.id in Hgen by lia. by replace (a + 0 * 8 ^ (m - j)) with a in Hgen by lia.
Qed.

Section Chain.
Context (k : KeyType) (tree ops : list Z) (a b : Z).
Hypothesis Ht : treelet k a tree b.
Hypothesis Hfit : opsFit k tree ops.
Hypothesis Hmerge : mergesAreGroups k tree ops.

Local Abbreviation T := (nthz tree).
Local Abbreviation n := (nNodes tree).

Lemma plain_leaf_chain i :
  0 <= i < n -> nthz ops i <> 0 -> cs_chain k (T i) (leafOutput tree ops i) (T (i + 1)).
Proof using Ht Hfit.
  intros Hi Hop. destruct Hfit as [_ Hops]. destruct (Hops i Hi) as (m & Hm & Hstep & [?|(j & Hj & _ & Hopj)]); [done|].
  destruct (treelet_isNode _ _ _ _ i Ht Hi) as (m' & Hm' & Hi0 & Hdiv & HT & Hik).
  assert (m' = m) as -> by (apply pow8_inj; lia).
  unfold leafOutput. rewrite Hopj, Hstep. apply splitKeys_chain; [lia|lia|lia|done|lia].
Qed.

Lemma merged_group_output g :
  mergedGroup k tree ops g -> newLeaves tree ops g (g + 8) = [T g].
Proof.
  intros (Hg & Hgn & H1 & H0 & _). rewrite newLeaves_cons by lia.
  unfold leafOutput at 1. rewrite H1, splitKeys_1. simpl. f_equal.
  unfold newLeaves. replace (g + 8 - (g + 1)) with 7 by lia.
  apply concat_nil_Forall. apply Forall_fmap, Forall_forall. intros i Hi%elem_of_seqZ. simpl.
  unfold leafOutput. replace i with (g + (i - g)) by lia. by rewrite H0 by lia.
Qed.

Lemma newLeaves_split lo mid hi :
  lo <= mid <= hi -> newLeaves tree ops lo hi = newLeaves tree ops lo mid ++ newLeaves tree ops mid hi.
Proof.
  intros. unfold newLeaves. replace (hi - lo) with ((mid - lo) + (hi - mid)) by lia.
  rewrite seqZ_app by lia. rewrite fmap_app, concat_app. by replace (lo + (mid - lo)) with mid by lia.
Qed.

(** From every leaf that is not removed, the rest of the output covers the rest of the range. *)
Lemma newLeaves_suffix_chain (w : nat) i :
  n - i = Z.of_nat w -> 0 <= i -> (i < n -> nthz ops i <> 0) ->
  cs_chain k (T i) (newLeaves tree ops i n) (T n).
Proof using Ht Hfit Hmerge.
  revert i. induction w as [w IH] using lt_wf_ind. intros i Hw Hi Hop.
  destruct (decide (i = n)) as [->|Hin]; [rewrite newLeaves_nil; constructor|].
  specialize (Hop ltac:(lia)).
  destruct (decide (i + 1 < n /\ nthz ops (i + 1) = 0)) as [[Hlt Hz]|Hno].
  - destruct (Hmerge (i + 1) ltac:(lia) Hz) as (g & Hg & Hgi).
    pose proof Hg as (Hg0 & Hgn & Hg1 & Hgc & Hnode).
    assert (g = i) as ->.
    { destruct (decide (g = i)) as [|Hne]; [done|]. exfalso. apply Hop.
      replace i with (g + (i - g)) by lia. apply Hgc. lia. }
    rewrite (newLeaves_split i (i + 8)), merged_group_output by (done || lia). simpl.
    apply chain_cons with (T (i + 8)); [done|]. apply (IH (Z.to_nat (n - (i + 8)))); [lia|lia|lia|].
    intros Hlt8 Hz8. destruct (Hmerge (i + 8) ltac:(lia) Hz8) as (g' & (_ & _ & Hg1' & _) & Hgi').
    assert (nthz ops g' = 0); [|lia]. replace g' with (i + (g' - i)) by lia. apply Hgc. lia.
  - rewrite newLeaves_cons by lia. apply cs_chain_app with (T (i + 1)).
    + apply plain_leaf_chain; [lia|done].
    + apply (IH (Z.to_nat (n - (i + 1)))); [lia|lia|lia|]. intros Hlt Hz. apply Hno. done.
Qed.

Lemma newLeaves_treelet : treelet k a (newLeaves tree ops 0 n ++ [b]) b.
Proof using Ht Hfit Hmerge.
  pose proof (treelet_nonempty _ _ _ _ Ht) as Hne.
  eexists. split; [done|].
  rewrite <- (nthz_Some _ _ _ (treelet_first _ _ _ _ Ht)), <- (nthz_Some _ _ _ (treelet_last _ _ _ _ Ht)).
  apply (newLeaves_suffix_chain (Z.to_nat n)); unfold nNodes in *; [lia|lia|].
  intros Hn Hz. destruct (Hmerge 0 ltac:(unfold nNodes; lia) Hz) as (g & (Hg & _) & Hgi). lia.
Qed.

End Chain.

(** ** The rebalance decision *)

(** Leaves [g .. g+7] are the eight children of a node of size [8^(m+1)]. *)
Definition fullGroup (k : KeyType) (tree : list Z) (g m : Z) : Prop :=
  0 <= g /\ g + 8 <= nNodes tree /\ 0 <= m < maxTreeLevel k /\ (8 ^ (m + 1) | nthz tree g) /\
  forall c, 0 <= c <= 8 -> nthz tree (g + c) = nthz tree g + c * 8 ^ m.

Section Decision.
Context (k : KeyType) (tree : list Z).
Hypothesis Ht : csTree k tree.

Local Abbreviation T := (nthz tree).
Local Abbreviation n := (nNodes tree).

Lemma cs_nodes i : 0 <= i < n -> isNode k (T i) (T (i + 1)).
Proof using Ht. intros. by eapply treelet_isNode. Qed.

Lemma cs_first : T 0 = 0.
Proof using Ht. apply nthz_Some. by eapply treelet_first. Qed.

Lemma cs_last : T n = keyMax k.
Proof using Ht. apply nthz_Some. by eapply treelet_last. Qed.

Lemma cs_get i : 0 <= i <= n -> tree.[i] = Some (T i).
Proof. intros. apply nthz_get. unfold nNodes in *. lia. Qed.

Lemma cs_nonempty : 0 < n.
Proof using Ht.
  pose proof (treelet_nonempty _ _ _ _ Ht) as Hne. pose proof cs_first as H0. pose proof cs_last as Hn.
  kfacts k. unfold nNodes in *. destruct (decide (zlen tree = 1)) as [E|]; [|lia].
  rewrite E, Z.sub_diag in Hn. lia.
Qed.

Lemma cs_range i : 0 <= i <= n -> 0 <= T i <= keyMax k.
Proof using Ht.
  intros Hi. pose proof cs_first as H0. pose proof cs_last as Hn.
  pose proof (nodes_mono_le k n T cs_nodes 0 i ltac:(lia) ltac:(lia) ltac:(lia)).
  pose proof (nodes_mono_le k n T cs_nodes i n ltac:(lia) ltac:(lia) ltac:(lia)). lia.
Qed.

(** A leaf of a full group has the size of the group, and its octal digit is its position. *)
Lemma fullGroup_member g m m' i :
  fullGroup k tree g m -> g <= i < g + 8 -> 0 <= m' -> T (i + 1) = T i + 8 ^ m' ->
  m' = m /\ (T i / 8 ^ m) mod 8 = i - g.
Proof.
  intros (Hg & Hgn & Hm & [q Hq] & HT) Hi Hm' Hstep.
  pose proof (HT (i - g) ltac:(lia)) as H1. pose proof (HT (i - g + 1) ltac:(lia)) as H2.
  replace (g + (i - g)) with i in H1 by lia. replace (g + (i - g + 1)) with (i + 1) in H2 by lia.
  split; [apply pow8_inj; lia|].
  rewrite H1, Hq, pow8_succ by lia. pose proof (pow8_pos m ltac:(lia)).
  replace (q * (8 * 8 ^ m) + (i - g) * 8 ^ m) with ((q * 8 + (i - g)) * 8 ^ m) by lia.
  rewrite Z.div_mul by lia. rewrite Z.add_comm, Z.mod_add by lia. apply Z.mod_small. lia.
Qed.

Lemma siblingAndLevel_spec i m :
  0 <= i < n -> 0 <= m <= maxTreeLevel k -> T (i + 1) = T i + 8 ^ m -> (8 ^ m | T i) ->
  exists s, siblingAndLevel k tree i = Some (s, maxTreeLevel k - m) /\
    ((s = -1 /\ forall g m', fullGroup k tree g m' -> ~ g <= i < g + 8) \/
     (0 <= s < 8 /\ fullGroup k tree (i - s) m)).
Proof using Ht.
  intros Hi Hm Hstep Hdiv. kfacts k. pose proof (pow8_le_keyMax k m Hm).
  unfold siblingAndLevel. rewrite !cs_get by lia. rewrite Hstep.
  replace (T i + 8 ^ m - T i) with (8 ^ m) by lia. rewrite kwrap_small, treeLevel_pow8 by lia.
  destruct (Z.eqb_spec (maxTreeLevel k - m) 0) as [E|Hml].
  { exists (-1). split; [done|]. left. split; [done|]. intros g m' Hg Hgi.
    destruct (fullGroup_member g m' m i Hg Hgi ltac:(lia) Hstep) as [-> _].
    destruct Hg as (_ & _ & Hm' & _). lia. }
  rewrite octalDigit_div by lia. replace (maxTreeLevel k - (maxTreeLevel k - m)) with m by lia.
  set (s := (T i / 8 ^ m) mod 8).
  pose proof (group_offset k n T cs_nonempty cs_nodes cs_first cs_last i m Hi ltac:(lia) Hstep Hdiv)
    as (Ho & Hs & Hdp & Hp0 & Hpk). fold s in Ho, Hs.
  pose proof (group_bounds k n T cs_nonempty cs_nodes cs_first cs_last i m Hi ltac:(lia) Hstep Hdiv)
    as (Hb1 & Hb2 & Hb3 & Hb4). fold s in Hb1, Hb2, Hb3, Hb4.
  pose proof (group_full k n T cs_nonempty cs_nodes cs_first cs_last i m Hi ltac:(lia) Hstep Hdiv) as Hfull.
  fold s in Hfull.
  rewrite !cs_get by lia. rewrite nodeRange_pow8 by lia.
  replace (maxTreeLevel k - (maxTreeLevel k - m - 1)) with (m + 1) by lia.
  pose proof (isNode_lt _ _ _ (cs_nodes (i - s) ltac:(lia))). pose proof (pow8_le_keyMax k (m + 1) ltac:(lia)).
  rewrite kwrap_small by lia.
  destruct (Z.eqb_spec (T (i - s + 8)) (T (i - s) + 8 ^ (m + 1))) as [Heq|Hne].
  - exists s. split; [done|]. right. split; [done|]. specialize (Hfull Heq).
    pose proof (Hfull 0 ltac:(lia)) as Hp. rewrite Z.add_0_r, Z.mul_0_l, Z.add_0_r in Hp.
    split; [lia|]. split; [lia|]. split; [lia|]. rewrite Hp. split; [done|]. exact Hfull.
  - exists (-1). split; [done|]. left. split; [done|]. intros g m' Hg Hgi.
    destruct (fullGroup_member g m' m i Hg Hgi ltac:(lia) Hstep) as [-> Hdig].
    fold s in Hdig. destruct Hg as (Hg0 & Hgn & _ & _ & HT). apply Hne.
    replace (i - s) with g by lia. rewrite HT, pow8_succ by lia. lia.
Qed.

(** *** The decision for one leaf *)

Section Op.
Context (counts : list Z) (bucketSize : Z).
Hypothesis Hcounts : zlen counts = n.
Hypothesis Hrange : Forall (fun c => 0 <= c < 4294967296) counts.
Hypothesis Hbucket : 0 <= bucketSize /\ bucketSize * 512 < 4294967296.

Definition groupSum (g : Z) : Z := zsum (nthz counts <$> seqZ g 8).

(** A full group with few enough particles to be replaced by the parent. *)
Definition mergeable (g : Z) : Prop := exists m, fullGroup k tree g m /\ groupSum g <= bucketSize.

(** The split factor as a function of count and level. *)
Definition splitFactor (count level : Z) : Z :=
  if (bucketSize * 512 <? count) && (level + 3 <? maxTreeLevel k) then 8 ^ 4
  else if (bucketSize * 64 <? count) && (level + 2 <? maxTreeLevel k) then 8 ^ 3
  else if (bucketSize * 8 <? count) && (level + 1 <? maxTreeLevel k) then 8 ^ 2
  else if (bucketSize <? count) && (level <? maxTreeLevel k) then 8 ^ 1
  else 8 ^ 0.

Lemma count_get i : 0 <= i < n -> counts.[i] = Some (nthz counts i) /\ 0 <= nthz counts i < 4294967296.
Proof using Hcounts Hrange.
  intros Hi. pose proof (nthz_get counts i ltac:(lia)) as E. split; [done|].
  rewrite Forall_forall in Hrange. by eapply Hrange, aget_elem.
Qed.

Lemma groupSum_bounds g c :
  0 <= g -> g + 8 <= n -> 0 <= c < 8 -> nthz counts (g + c) <= groupSum g /\ 0 <= groupSum g < 8 * 4294967296.
Proof using Hcounts Hrange.
  intros Hg Hgn Hc. unfold groupSum.
  assert (Forall (fun x => 0 <= x <= 4294967295) (nthz counts <$> seqZ g 8)) as Hall.
  { apply Forall_fmap, Forall_forall. intros j Hj%elem_of_seqZ. simpl.
    destruct (count_get j ltac:(lia)) as [_ ?]. lia. }
  pose proof (zsum_bounds _ _ Hall) as Hb. rewrite zlen_map, zlen_seqZ in Hb by lia. split; [|lia].
  apply zsum_elem_le; [eapply Forall_impl; [exact Hall|simpl; lia]|].
  apply list_elem_of_fmap. exists (g + c). split; [done|]. apply elem_of_seqZ. lia.
Qed.

Lemma groupCount_sum g : 0 <= g -> g + 8 <= n -> groupCount counts g = Some (groupSum g).
Proof using Hcounts Hrange.
  intros Hg Hgn. unfold groupCount. rewrite (mapM_range_Some _ _ _ (nthz counts)).
  - replace (g + 8 - g) with 8 by lia. fold (groupSum g).
    pose proof (groupSum_bounds g 0 Hg Hgn ltac:(lia)). rewrite u64_small by lia. done.
  - intros j Hj. apply count_get. lia.
Qed.

Lemma splitFactor_pow8 count level :
  0 <= level <= maxTreeLevel k ->
  exists j, 0 <= j <= 4 /\ j <= maxTreeLevel k - level /\ splitFactor count level = 8 ^ j.
Proof.
  intros Hl. unfold splitFactor. repeat zcase.
  - exists 4. lia.
  - exists 3. lia.
  - exists 2. lia.
  - exists 1. lia.
  - exists 0. lia.
Qed.

Lemma splitFactor_1 count level :
  0 <= level <= maxTreeLevel k ->
  splitFactor count level = 1 <-> count <= bucketSize \/ level = maxTreeLevel k.
Proof using Hbucket.
  intros Hl. unfold splitFactor.
  repeat zcase; (split; [intros Hs; (discriminate Hs || lia)|intros Hs; (reflexivity || lia)]).
Qed.

Lemma calculateNodeOp_spec i m :
  0 <= i < n -> 0 <= m <= maxTreeLevel k -> T (i + 1) = T i + 8 ^ m -> (8 ^ m | T i) ->
  exists op, calculateNodeOp k tree i counts bucketSize = Some op /\
    ((op = 0 /\ exists g, mergeable g /\ g < i < g + 8) \/
     (op = splitFactor (nthz counts i) (maxTreeLevel k - m) /\ forall g, mergeable g -> ~ g < i < g + 8)).
Proof using Ht Hcounts Hrange Hbucket.
  intros Hi Hm Hstep Hdiv. kfacts k. unfold calculateNodeOp.
  destruct (siblingAndLevel_spec i m Hi Hm Hstep Hdiv) as (s & Hsib & Hs). rewrite Hsib.
  destruct (count_get i Hi) as [Hc Hcr]. rewrite Hc.
  rewrite !(u32_small (maxTreeLevel k - m + _)), !(u32_small (bucketSize * _)) by lia.
  fold (splitFactor (nthz counts i) (maxTreeLevel k - m)).
  assert (Hrest : (if (bucketSize * 512 <? nthz counts i) && (maxTreeLevel k - m + 3 <? maxTreeLevel k) then Some 4096
    else if (bucketSize * 64 <? nthz counts i) && (maxTreeLevel k - m + 2 <? maxTreeLevel k) then Some 512
    else if (bucketSize * 8 <? nthz counts i) && (maxTreeLevel k - m + 1 <? maxTreeLevel k) then Some 64
    else if (bucketSize <? nthz counts i) && (maxTreeLevel k - m <? maxTreeLevel k) then Some 8
    else Some 1) = Some (splitFactor (nthz counts i) (maxTreeLevel k - m))).
  { unfold splitFactor. repeat zcase; done. }
  destruct (Z.ltb_spec 0 s) as [Hpos|Hneg].
  - destruct Hs as [[? _]|[Hs Hg]]; [lia|]. pose proof Hg as (Hg0 & Hgn & _).
    rewrite groupCount_sum by lia. destruct (Z.leb_spec (groupSum (i - s)) bucketSize).
    + exists 0. split; [done|]. left. split; [done|]. exists (i - s). split; [by exists m|lia].
    + eexists. split; [exact Hrest|]. right. split; [done|]. intros g (m' & Hg' & Hsum) Hgi.
      destruct (fullGroup_member g m' m i Hg' ltac:(lia) ltac:(lia) Hstep) as [<- Hd1].
      destruct (fullGroup_member (i - s) m m i Hg ltac:(lia) ltac:(lia) Hstep) as [_ Hd2].
      assert (g = i - s) as -> by lia. lia.
  - eexists. split; [exact Hrest|]. right. split; [done|]. intros g (m' & Hg' & Hsum) Hgi.
    destruct Hs as [[_ Hno]|[Hs Hg]]; [by apply (Hno g m' Hg'); lia|].
    destruct (fullGroup_member g m' m i Hg' ltac:(lia) ltac:(lia) Hstep) as [<- Hd1].
    destruct (fullGroup_member (i - s) m m i Hg ltac:(lia) ltac:(lia) Hstep) as [_ Hd2]. lia.
Qed.

End Op.
End Decision.

(** The decisions for all leaves, as a list. *)
Definition nodeOpsOf (k : KeyType) (tree counts : list Z) (bucketSize : Z) : list Z :=
  (fun i => default 0 (calculateNodeOp k tree i counts bucketSize)) <$> seqZ 0 (nNodes tree).

Lemma zlen_nodeOpsOf k tree counts bucketSize :
  0 <= nNodes tree -> zlen (nodeOpsOf k tree counts bucketSize) = nNodes tree.
Proof. intros. unfold nodeOpsOf. rewrite zlen_map. by apply zlen_seqZ. Qed.

Lemma nthz_nodeOpsOf k tree counts bucketSize i op :
  0 <= i < nNodes tree -> calculateNodeOp k tree i counts bucketSize = Some op ->
  nthz (nodeOpsOf k tree counts bucketSize) i = op.
Proof.
  intros Hi Hop. apply nthz_Some. unfold nodeOpsOf. rewrite aget_map, aget_seqZ, Z.add_0_l by lia. simpl.
  by rewrite Hop.
Qed.

(** The decision loop stores all decisions and reports whether all of them are 1. *)
Lemma rebalanceDecision_run k tree counts bucketSize nodeOps :
  (forall i, 0 <= i < nNodes tree -> exists op, calculateNodeOp k tree i counts bucketSize = Some op) ->
  0 <= nNodes tree <= zlen nodeOps ->
  let ops := nodeOpsOf k tree counts bucketSize in
  rebalanceDecision k tree counts (nNodes tree) bucketSize nodeOps =
    Some (forallb (Z.eqb 1) ops, ops ++ drop (Z.to_nat (nNodes tree)) nodeOps).
Proof.
  intros Hdef Hlen ops. pose proof (zlen_nodeOpsOf k tree counts bucketSize ltac:(lia)) as Hops. fold ops in Hops.
  unfold rebalanceDecision.
  edestruct (for_loop_inv (fun i st => st = (forallb (Z.eqb 1) (take (Z.to_nat i) ops),
    take (Z.to_nat i) ops ++ drop (Z.to_nat i) nodeOps))) as (st & Hrun & Hst); [| | |].
  4: { rewrite Hrun, Hst. replace (Z.to_nat (nNodes tree)) with (length ops) by (unfold zlen in Hops; lia).
       by rewrite firstn_all. }
  - lia.
  - simpl. by rewrite drop_0.
  - intros i st Hi ->. destruct (Hdef i Hi) as [op Hop]. simpl. rewrite Hop.
    assert (ops !! Z.to_nat i = Some op) as Hget.
    { rewrite <- aget_lookup by lia. rewrite nthz_get by lia. f_equal. by apply nthz_nodeOpsOf. }
    destruct (drop (Z.to_nat i) nodeOps) as [|x r] eqn:Hd.
    { apply (f_equal length) in Hd. rewrite length_drop in Hd. unfold zlen in Hlen. simpl in Hd. lia. }
    assert (aset (take (Z.to_nat i) ops ++ x :: r) i op = Some (take (Z.to_nat i) ops ++ op :: r)) as ->.
    { replace i with (zlen (take (Z.to_nat i) ops)) at 2 by (unfold zlen in *; rewrite length_take; lia).
      apply aset_middle. }
    eexists. split; [done|]. simpl.
    replace (Z.to_nat (i + 1)) with (S (Z.to_nat i)) by lia.
    rewrite (take_S_r _ _ _ Hget), forallb_app, <- app_assoc. simpl. f_equal.
    + rewrite andb_true_r. change (match op with Z.pos q => _ | _ => _ end) with (1 =? op).
      rewrite (Z.eqb_sym 1). destruct (op =? 1); by rewrite ?andb_true_r, ?andb_false_r.
    + do 2 f_equal. replace (S (Z.to_nat i)) with (Z.to_nat i + 1)%nat by lia.
      rewrite <- drop_drop, Hd. done.
Qed.

(** ** One rebalance of a cornerstone tree *)

(** Inputs of a rebalance: a tree, a count per leaf and a bucket size without overflow. *)
Record rebalanceInput (k : KeyType) (tree counts : list Z) (bucketSize : Z) : Prop := {
  ri_tree : csTree k tree;
  ri_counts : zlen counts = nNodes tree;
  ri_range : Forall (fun c => 0 <= c < 4294967296) counts;
  ri_bucket : 0 <= bucketSize /\ bucketSize * 512 < 4294967296
}.

Section Step.
Context (k : KeyType) (tree counts : list Z) (bucketSize : Z).
Hypothesis Hin : rebalanceInput k tree counts bucketSize.

Local Abbreviation T := (nthz tree).
Local Abbreviation n := (nNodes tree).
Local Abbreviation ops := (nodeOpsOf k tree counts bucketSize).

(** Level of leaf [i]. *)
Definition leafLevel (i : Z) : Z := treeLevel k (T (i + 1) - T i).

Lemma leaf_size i :
  0 <= i < n -> exists m, 0 <= m <= maxTreeLevel k /\ T (i + 1) = T i + 8 ^ m /\ (8 ^ m | T i) /\
    leafLevel i = maxTreeLevel k - m.
Proof using Hin.
  intros Hi. destruct (cs_nodes k tree (ri_tree _ _ _ _ Hin) i Hi) as (m & Hm & _ & Hd & HT & _).
  exists m. repeat split; try done; [lia|lia|]. unfold leafLevel. rewrite HT.
  replace (T i + 8 ^ m - T i) with (8 ^ m) by lia. by apply treeLevel_pow8.
Qed.

(** The decision for leaf [i]: 0 inside a mergeable group, otherwise the split factor. *)
Lemma nodeOp_cases i :
  0 <= i < n -> calculateNodeOp k tree i counts bucketSize = Some (nthz ops i) /\
    ((nthz ops i = 0 /\ exists g, mergeable k tree counts bucketSize g /\ g < i < g + 8) \/
     (nthz ops i = splitFactor k bucketSize (nthz counts i) (leafLevel i) /\
      forall g, mergeable k tree counts bucketSize g -> ~ g < i < g + 8)).
Proof using Hin.
  intros Hi. destruct Hin as [Ht Hc Hr Hb]. destruct (leaf_size i Hi) as (m & Hm & Hs & Hd & ->).
  destruct (calculateNodeOp_spec k tree Ht counts bucketSize Hc Hr Hb i m Hi Hm Hs Hd) as (op & Hop & Hcases).
  by rewrite (nthz_nodeOpsOf k tree counts bucketSize i op Hi Hop).
Qed.

Lemma ops_fit : opsFit k tree ops.
Proof using Hin.
  pose proof (cs_nonempty k tree (ri_tree _ _ _ _ Hin)).
  split; [apply zlen_nodeOpsOf; lia|]. intros i Hi. destruct (leaf_size i Hi) as (m & Hm & Hs & _ & Hl).
  exists m. split; [done|]. split; [done|].
  destruct (nodeOp_cases i Hi) as [_ [[H0 _]|[Hsf _]]]; [by left|right].
  rewrite Hsf. destruct (splitFactor_pow8 k bucketSize (nthz counts i) (leafLevel i)) as (j & Hj & Hjm & ->); [lia|].
  exists j. lia.
Qed.

(** The first leaf of a mergeable group is kept, the other seven are removed. *)
Lemma mergeable_merged g : mergeable k tree counts bucketSize g -> mergedGroup k tree ops g.
Proof using Hin.
  intros Hg. pose proof Hin as [Ht Hc Hr Hb]. pose proof Hg as (m & Hfull & Hsum).
  pose proof Hfull as (Hg0 & Hgn & Hm & Hdiv & HT).
  assert (Hout : forall g', mergeable k tree counts bucketSize g' -> ~ g' < g < g' + 8).
  { intros g' (m' & Hfull' & _) Hgg. destruct (leaf_size g ltac:(lia)) as (mg & Hmg & Hsg & _ & _).
    destruct (fullGroup_member k tree g' m' mg g Hfull' ltac:(lia) ltac:(lia) Hsg) as [-> Hd1].
    destruct (fullGroup_member k tree g m m' g Hfull ltac:(lia) ltac:(lia) Hsg) as [-> Hd2]. lia. }
  repeat split; try lia.
  - destruct (nodeOp_cases g ltac:(lia)) as [_ [[_ (g' & Hg' & Hin')]|[-> _]]]; [by destruct (Hout g' Hg')|].
    pose proof (groupSum_bounds tree counts Hc Hr g 0 ltac:(lia) ltac:(lia) ltac:(lia)) as [Hle _].
    rewrite Z.add_0_r in Hle. destruct (leaf_size g ltac:(lia)) as (mg & Hmg & _ & _ & Hl).
    apply splitFactor_1; [done|lia|]. left. lia.
  - intros c Hc'. destruct (nodeOp_cases (g + c) ltac:(lia)) as [_ [[H0 _]|[_ Hno]]]; [done|].
    destruct (Hno g Hg). lia.
  - exists (m + 1). pose proof (cs_range k tree Ht g ltac:(lia)). rewrite (HT 8) by lia. rewrite pow8_succ by lia.
    pose proof (cs_range k tree Ht (g + 8) ltac:(lia)). rewrite HT in * by lia.
    rewrite pow8_succ in Hdiv by lia. repeat split; (done || lia).
Qed.

Lemma merges_are_groups : mergesAreGroups k tree ops.
Proof using Hin.
  intros i Hi H0. destruct (nodeOp_cases i Hi) as [_ [[_ (g & Hg & Hgi)]|[Hsf _]]].
  - exists g. split; [by apply mergeable_merged|done].
  - exfalso. destruct (leaf_size i Hi) as (m & Hm & _ & _ & Hl).
    destruct (splitFactor_pow8 k bucketSize (nthz counts i) (leafLevel i)) as (j & Hj & _ & E); [lia|].
    pose proof (pow8_pos j). lia.
Qed.

Lemma decision_run :
  rebalanceDecision k tree counts n bucketSize (replicate (Z.to_nat (n + 1)) 0) =
    Some (forallb (Z.eqb 1) ops, ops ++ [0]).
Proof using Hin.
  pose proof (cs_nonempty k tree (ri_tree _ _ _ _ Hin)).
  rewrite rebalanceDecision_run.
  - rewrite drop_replicate. replace (Z.to_nat (n + 1) - Z.to_nat n)%nat with 1%nat by lia. done.
  - intros i Hi. destruct (nodeOp_cases i Hi) as [-> _]. by eexists.
  - unfold zlen. rewrite length_replicate. lia.
Qed.

(** The tree that one [updateOctree] step installs. *)
Definition nextTree : list Z := newLeaves tree ops 0 n ++ [keyMax k].

Lemma rebalance_run old :
  rebalanceTree k tree old (ops ++ [0]) = Some (nextTree, exclusive_scan 0 (ops ++ [0])).
Proof using Hin.
  rewrite (rebalanceTree_spec k tree 0 (keyMax k) old ops 0 []); [|apply Hin|apply ops_fit].
  by rewrite app_nil_r.
Qed.

Lemma nextTree_csTree : csTree k nextTree.
Proof using Hin. apply newLeaves_treelet; [apply Hin|apply ops_fit|apply merges_are_groups]. Qed.

End Step.
