(* ===== verification/CsCounts.v ===== *)
(** * Particle counts of the leaves

    The guided search of [findSearchBounds] finds the same position as a search of the
    whole key array, for every guess; the leaf counts of [computeNodeCounts] are therefore
    independent of the guesses and of the order in which the parallel loop runs. *)

From S2P Require Import Prelude Primitives SfcCommon Csarray CsInvariant CsRebalance.

(** Sorted particle keys on the curve. *)
Record sortedKeys (k : KeyType) (keys : list Z) : Prop := {
  sk_sorted : zsorted keys;
  sk_range : Forall (fun x => 0 <= x < keyMax k) keys;
  sk_size : zlen keys < 4294967296
}.

(** Keys that the guided search can index: it doubles its step in the signed type of the key's width. *)
Record searchableKeys (k : KeyType) (keys : list Z) : Prop := {
  sk_keys : sortedKeys k keys;
  sk_search : zlen keys <= 2 ^ (keyBits k - 2)
}.

(** 64-bit keys in an array indexed by 32-bit numbers always are; with 32-bit keys there are at most [2 ^ 30]. *)
Lemma searchable64 keys : sortedKeys Key64 keys -> searchableKeys Key64 keys.
Proof. intros H. split; [done|]. pose proof (sk_size _ _ H). change (2 ^ (keyBits Key64 - 2)) with (2 ^ 62). lia. Qed.

Lemma searchable_all k l : Forall (searchableKeys k) l -> Forall (sortedKeys k) l.
Proof. intros H. eapply Forall_impl; [exact H|]. by intros keys [? _]. Qed.

(** ** The guided search *)

Lemma sint_small k x : - 2 ^ (keyBits k - 1) <= x < 2 ^ (keyBits k - 1) -> sint k x = Some x.
Proof. intros Hx. unfold sint. destruct (Z.leb_spec (- 2 ^ (keyBits k - 1)) x); [|lia]. destruct (Z.ltb_spec x (2 ^ (keyBits k - 1))); [done|lia]. Qed.

Lemma search_range k : 2 ^ (keyBits k - 1) = 2 * 2 ^ (keyBits k - 2) /\ 0 < 2 ^ (keyBits k - 2) /\ keyMax k <= 2 ^ (keyBits k - 1).
Proof. destruct k; vm_compute; split; [done|split; [done|congruence]|done|split; [done|congruence]]. Qed.

Section Search.
Context (k : KeyType) (codes : list Z).
Hypothesis Hkeys : sortedKeys k codes.

Lemma key_at i x : codes.[i] = Some x -> 0 <= x < keyMax k.
Proof using Hkeys.
  intros Hx. pose proof (sk_range _ _ Hkeys) as Hr. rewrite Forall_forall in Hr. by eapply Hr, aget_elem.
Qed.

Lemma key_signed x : 0 <= x < keyMax k -> swrap (keyBits k) x = x /\ swrap (keyBits k) (- x) = - x.
Proof.
  intros Hx. kfacts k. assert (keyMax k <= 2 ^ (keyBits k - 1)) by (destruct k; vm_compute; congruence).
  rewrite !swrap_small; lia.
Qed.

(** Position of a value relative to the first position that is not below it. *)
Lemma count_lt_below i x v : codes.[i] = Some x -> x < v -> i < count_lt v codes.
Proof using Hkeys.
  intros Hi Hx. pose proof (aget_Some_range _ _ _ Hi).
  destruct (lower_bound_sorted codes 0 (zlen codes) (sk_sorted _ _ Hkeys) ltac:(lia) ltac:(lia) v)
    as (m & Hm & Hr & _ & Hhi).
  rewrite lower_bound_count in Hm by apply Hkeys. injection Hm as ->.
  destruct (Z.lt_ge_cases i m); [done|]. specialize (Hhi i x ltac:(lia) Hi). lia.
Qed.

Lemma count_lt_above i x v : codes.[i] = Some x -> v <= x -> count_lt v codes <= i.
Proof using Hkeys.
  intros Hi Hx. pose proof (aget_Some_range _ _ _ Hi).
  destruct (lower_bound_sorted codes 0 (zlen codes) (sk_sorted _ _ Hkeys) ltac:(lia) ltac:(lia) v)
    as (m & Hm & Hr & Hlo & _).
  rewrite lower_bound_count in Hm by apply Hkeys. injection Hm as ->.
  destruct (Z.le_gt_cases m i); [done|]. specialize (Hlo i x ltac:(lia) Hi). lia.
Qed.

(** A sub-range that contains the position gives the same search result. *)
Lemma lower_bound_subrange lo hi v :
  0 <= lo -> hi <= zlen codes -> lo <= count_lt v codes <= hi ->
  lower_bound codes lo hi v = Some (count_lt v codes).
Proof using Hkeys.
  intros Hlo Hhi Hm. apply lower_bound_unique; [lia|lia|lia| |].
  - intros i x Hi Hx. destruct (Z.lt_ge_cases x v) as [|Hge]; [done|].
    pose proof (count_lt_above i x v Hx Hge). lia.
  - intros i x Hi Hx. destruct (Z.le_gt_cases v x) as [|Hgt]; [done|].
    pose proof (count_lt_below i x v Hx Hgt). lia.
Qed.

Section Guided.
Hypothesis Hsearch : zlen codes <= 2 ^ (keyBits k - 2).

(** The doubling loop ends, either outside of the array or past the target, and its signed numbers do not overflow. *)
Lemma searchBoundLoop_spec (fuel : nat) firstIdx d target searchRange :
  d = 1 \/ d = -1 -> 0 <= target < keyMax k -> 0 <= firstIdx < zlen codes ->
  (0 < fuel)%nat -> 1 <= searchRange -> zlen codes + 1 < searchRange + Z.of_nat fuel ->
  exists r second, searchBoundLoop fuel k codes (zlen codes) firstIdx d (swrap (keyBits k) (target * d))
      searchRange (firstIdx + searchRange * d) = Some second /\ second = firstIdx + r * d /\ 1 <= r /\
    (0 <= second < zlen codes -> exists c, codes.[second] = Some c /\ d * target < d * c).
Proof using Hkeys Hsearch.
  intros Hd Htgt Hfirst. revert searchRange. induction fuel as [|fuel IH]; intros sr Hfuel Hsr Hlen; [lia|].
  cbn [searchBoundLoop]. destruct (search_range k) as (E2 & H2 & HK).
  destruct ((0 <=? firstIdx + sr * d) && (firstIdx + sr * d <? zlen codes)) eqn:Hin.
  - zbool. destruct (aget_is_Some codes (firstIdx + sr * d) ltac:(lia)) as [c Hc]. rewrite Hc.
    pose proof (key_at _ _ Hc) as Hcr. pose proof (key_signed c Hcr) as [Hs1 Hs2]. pose proof (key_signed target Htgt) as [Ht1 Ht2].
    rewrite Hs1, (sint_small k (d * c)) by (destruct Hd as [->| ->]; lia).
    assert (swrap (keyBits k) (target * d) = d * target) as Etd.
    { destruct Hd as [->| ->]; [by rewrite Z.mul_1_r, Z.mul_1_l|]. replace (target * -1) with (- target) by lia. lia. }
    rewrite Etd in *. destruct (Z.leb_spec (d * c) (d * target)) as [Hle|Hgt].
    + rewrite !sint_small by (destruct Hd as [->| ->]; lia). apply IH; [destruct Hd as [->| ->]; lia|lia|lia].
    + exists sr, (firstIdx + sr * d). split; [done|]. split; [done|]. split; [done|]. intros _.
      exists c. split; [done|lia].
  - exists sr, (firstIdx + sr * d). split; [done|]. split; [done|]. split; [done|].
    intros [Hlo Hhi]. apply andb_false_iff in Hin as [H|H]; zbool; lia.
Qed.

(** The bounds found from any guess contain the position that a full search finds. *)
Lemma findSearchBounds_spec firstIdx target :
  0 <= target -> exists lo hi, findSearchBounds k firstIdx target codes = Some (lo, hi) /\
    0 <= lo /\ hi <= zlen codes /\ lo <= count_lt target codes <= hi.
Proof using Hkeys Hsearch.
  intros Htgt. pose proof (zlen_nonneg codes) as Hn. pose proof (count_lt_range target codes) as Hm. destruct (search_range k) as (E2 & H2 & HK).
  unfold findSearchBounds. kfacts k. rewrite swrap_small by lia. rewrite !stl_max_max. destruct (Z.eqb_spec (zlen codes) 0) as [E|Hne].
  { exists 0, 0. split; [done|]. lia. }
  rewrite sint_small by lia. rewrite stl_min_min. rewrite nodeRange_0. destruct (Z.leb_spec (keyMax k) target).
  { rewrite lower_bound_count by apply Hkeys. eexists _, _. split; [done|]. lia. }
  set (f := Z.min (zlen codes - 1) (Z.max firstIdx 0)). assert (0 <= f < zlen codes) as Hf by lia.
  destruct (aget_is_Some codes f Hf) as [c Hc]. rewrite Hc.
  set (d := if c <? target then 1 else -1). assert (Hd : d = 1 \/ d = -1) by (unfold d; zcase; lia). rewrite sint_small by lia.
  destruct (searchBoundLoop_spec (S (length codes)) f d target 1) as (r & second & Hrun & Hsec & Hr & Hexit);
    [done|lia|done|lia|lia|unfold zlen; lia|].
  rewrite Z.mul_1_l in Hrun. rewrite Hrun, !stl_min_min, !stl_max_max. eexists _, _. split; [done|].
  assert (Hside : (d = 1 /\ f < count_lt target codes) \/ (d = -1 /\ count_lt target codes <= f)).
  { unfold d. zcase; [left|right]; (split; [done|]).
    - by apply count_lt_below with c.
    - by apply count_lt_above with c. }
  assert (Hin : 0 <= second < zlen codes ->
    (d = 1 /\ count_lt target codes <= second) \/ (d = -1 /\ second < count_lt target codes)).
  { intros Hs. destruct (Hexit Hs) as (cs & Hcs & Hlt). destruct Hd as [Hd|Hd]; rewrite Hd in Hlt; [left|right].
    - split; [done|]. apply count_lt_above with cs; [done|lia].
    - split; [done|]. apply count_lt_below with cs; [done|lia]. }
  destruct Hd as [Hd|Hd]; rewrite Hd in *; lia.
Qed.

End Guided.

(** Number of keys in [a, b), capped at [maxCount]. *)
Definition cappedCount (a b maxCount : Z) : Z := Z.min (count_lt b codes - count_lt a codes) maxCount.

Lemma updateNodeCount_spec nodeIdx tree a b guess1 guess2 maxCount :
  tree.[nodeIdx] = Some a -> tree.[nodeIdx + 1] = Some b -> 0 <= a <= b ->
  zlen codes <= 2 ^ (keyBits k - 2) -> updateNodeCount k nodeIdx tree guess1 guess2 codes maxCount = Some (cappedCount a b maxCount).
Proof using Hkeys.
  intros Ha Hb Hab Hsearch. pose proof (sk_size _ _ Hkeys) as Hsz.
  unfold updateNodeCount. rewrite Ha, Hb.
  destruct (findSearchBounds_spec Hsearch guess1 a ltac:(lia)) as (lo1 & hi1 & -> & H1 & H2 & H3).
  rewrite lower_bound_subrange by done.
  destruct (findSearchBounds_spec Hsearch guess2 b ltac:(lia)) as (lo2 & hi2 & -> & H4 & H5 & H6).
  rewrite lower_bound_subrange by done.
  pose proof (count_lt_mono a b codes ltac:(lia)). pose proof (count_lt_range a codes). pose proof (count_lt_range b codes).
  rewrite u32_small by lia. by rewrite stl_min_min.
Qed.

Lemma calculateNodeCount_spec a b maxCount :
  a <= b -> 0 <= maxCount < 4294967296 -> calculateNodeCount a b codes maxCount = Some (cappedCount a b maxCount).
Proof using Hkeys.
  intros Hab Hmax. pose proof (sk_size _ _ Hkeys) as Hsz.
  unfold calculateNodeCount. rewrite !lower_bound_count by apply Hkeys.
  pose proof (count_lt_mono a b codes ltac:(lia)). pose proof (count_lt_range a codes). pose proof (count_lt_range b codes).
  rewrite u64_small, stl_min_min, u32_small by lia. done.
Qed.

End Search.

(** ** Counts of all leaves *)

Definition leafCounts (tree keys : list Z) (maxCount : Z) : list Z :=
  (fun i => cappedCount keys (nthz tree i) (nthz tree (i + 1)) maxCount) <$> seqZ 0 (nNodes tree).

Lemma zlen_leafCounts tree keys maxCount :
  0 <= nNodes tree -> zlen (leafCounts tree keys maxCount) = nNodes tree.
Proof. intros. unfold leafCounts. rewrite zlen_map. by apply zlen_seqZ. Qed.

Lemma leafCounts_get tree keys maxCount i :
  0 <= i < nNodes tree ->
  (leafCounts tree keys maxCount).[i] = Some (cappedCount keys (nthz tree i) (nthz tree (i + 1)) maxCount).
Proof. intros. unfold leafCounts. by rewrite aget_map, aget_seqZ, Z.add_0_l by lia. Qed.

Lemma zeroCounts_spec lo hi counts :
  0 <= lo -> hi <= zlen counts ->
  exists counts', zeroCounts lo hi counts = Some counts' /\ zlen counts' = zlen counts /\
    (forall j, lo <= j < hi -> counts'.[j] = Some 0) /\
    (forall j, ~ lo <= j < hi -> counts'.[j] = counts.[j]).
Proof.
  intros Hlo Hhi. unfold zeroCounts, for_loop.
  destruct (foldM_writes (fun i counts => aset counts i 0) (fun _ => 0) 0 (zlen counts)
    (seqZ lo (hi - lo)) counts) as (c' & Hrun & Hlen & Hin & Hout); [done| | |].
  - intros i Hi%elem_of_seqZ. lia.
  - intros. by rewrite Z.add_0_l.
  - exists c'. split; [done|]. split; [done|]. split; intros j Hj.
    + apply Hin. apply elem_of_seqZ. lia.
    + apply Hout. rewrite elem_of_seqZ. lia.
Qed.

Section Counts.
Context (k : KeyType) (tree keys : list Z) (maxCount : Z).
Hypothesis Ht : csTree k tree.
Hypothesis Hkeys : sortedKeys k keys.
Hypothesis Hmax : 0 <= maxCount < 4294967296.

Local Abbreviation T := (nthz tree).
Local Abbreviation n := (nNodes tree).

(** [upper_bound] on the leaf starts returns the successor of the leaf that contains the key. *)
Lemma upper_bound_leaf x :
  0 <= x < keyMax k -> exists i, upper_bound tree 0 n x = Some (i + 1) /\ 0 <= i < n /\ T i <= x < T (i + 1).
Proof using Ht.
  intros Hx. destruct (nodes_locate k n T (cs_nonempty k tree Ht) (cs_nodes k tree Ht) (cs_first k tree Ht)
    (cs_last k tree Ht) x Hx)
    as (i & Hi & HTi).
  exists i. split; [|done]. assert (zlen tree = n + 1) by (unfold nNodes; lia).
  apply upper_bound_unique; [lia|lia|lia| |]; intros j y Hj Hy; apply nthz_Some in Hy as <-.
  - pose proof (nodes_mono_le k n T (cs_nodes k tree Ht) j i). lia.
  - pose proof (nodes_mono_le k n T (cs_nodes k tree Ht) (i + 1) j). lia.
Qed.

(** The leaves outside of [firstNode, lastNode) hold no particles. *)
Lemma populatedNodes_spec :
  exists first last, populatedNodes tree n keys = Some (first, last) /\ 0 <= first <= last /\ last <= n /\
    forall i, 0 <= i < n -> ~ first <= i < last -> cappedCount keys (T i) (T (i + 1)) maxCount = 0.
Proof using Ht Hkeys Hmax.
  pose proof (cs_nonempty k tree Ht) as Hn. unfold populatedNodes. destruct keys as [|front rest] eqn:E.
  { exists n, n. split; [done|]. split; [lia|]. split; [lia|]. intros i Hi _.
    unfold cappedCount. change (count_lt (T (i + 1)) [] - count_lt (T i) []) with 0. lia. }
  rewrite <- E in *. assert (keys.[0] = Some front) as Hfront by by rewrite E.
  pose proof (aget_Some_range _ _ _ Hfront) as Hlen.
  destruct (aget_is_Some keys (zlen keys - 1) ltac:(lia)) as [back Hback]. rewrite Hback.
  destruct (upper_bound_leaf front (key_at k keys Hkeys _ _ Hfront)) as (i1 & -> & Hi1 & HT1).
  destruct (upper_bound_leaf back (key_at k keys Hkeys _ _ Hback)) as (i2 & -> & Hi2 & HT2).
  pose proof (sk_sorted _ _ Hkeys 0 (zlen keys - 1) front back ltac:(lia) Hfront Hback) as Hfb.
  assert (i1 < i2 + 1) by (apply (nodes_lt_inv k n T (cs_nodes k tree Ht)); lia).
  exists (i1 + 1 - 1), (i2 + 1). split; [done|]. split; [lia|]. split; [lia|]. intros i Hi Hout.
  assert (Hm : 0 <= maxCount) by lia. unfold cappedCount.
  pose proof (count_lt_range (T i) keys). pose proof (count_lt_range (T (i + 1)) keys).
  pose proof (count_lt_mono (T i) (T (i + 1)) keys ltac:(pose proof (nodes_mono k n T (cs_nodes k tree Ht) i (i + 1)); lia)).
  destruct (Z.lt_ge_cases i i1) as [Hlt|Hge].
  - pose proof (nodes_mono_le k n T (cs_nodes k tree Ht) (i + 1) i1 ltac:(lia) ltac:(lia) ltac:(lia)).
    pose proof (count_lt_above k keys Hkeys 0 front (T (i + 1)) Hfront ltac:(lia)). lia.
  - pose proof (nodes_mono_le k n T (cs_nodes k tree Ht) (i2 + 1) i ltac:(lia) ltac:(lia) ltac:(lia)).
    pose proof (count_lt_below k keys Hkeys (zlen keys - 1) back (T i) Hback ltac:(lia)). lia.
Qed.

Lemma zlen_scanCounts lo hi counts : 0 <= lo <= hi -> hi <= zlen counts -> zlen (scanCounts lo hi counts) = zlen counts.
Proof.
  intros Hlo Hhi. unfold scanCounts, exclusive_scan_u32, zlen in *.
  rewrite !length_app, exclusive_scan_with_length, !length_take, !length_drop. lia.
Qed.

Lemma scanCounts_outside lo hi counts j :
  0 <= lo <= hi -> hi <= zlen counts -> 0 <= j -> ~ lo <= j < hi -> (scanCounts lo hi counts).[j] = counts.[j].
Proof.
  intros Hlo Hhi Hj Hout. unfold scanCounts, exclusive_scan_u32, zlen in *. rewrite !aget_lookup by lia.
  destruct (Z.lt_ge_cases j lo).
  - rewrite lookup_app_l by (rewrite length_take; lia). apply lookup_take_lt. lia.
  - rewrite lookup_app_r by (rewrite length_take; lia).
    rewrite lookup_app_r by (rewrite exclusive_scan_with_length, !length_take, length_drop; lia).
    rewrite exclusive_scan_with_length, !length_take, length_drop, lookup_drop. f_equal. lia.
Qed.

Lemma guessedCountBody_write first i counts :
  zlen keys <= 2 ^ (keyBits k - 2) -> zlen counts = n -> 0 <= first -> 0 <= i -> first + i < n ->
  guessedCountBody k tree n keys maxCount first i counts =
    aset counts (first + i) (cappedCount keys (T (first + i)) (T (first + i + 1)) maxCount).
Proof using Ht Hkeys Hmax.
  intros Hsearch Hc Hf Hi Hn. unfold guessedCountBody.
  destruct (aget_is_Some counts (i + first) ltac:(lia)) as [g1 ->].
  rewrite stl_min_min. destruct (aget_is_Some counts (Z.min (i + first + 1) (n - 1)) ltac:(lia)) as [g2 ->].
  pose proof (cs_range k tree Ht (first + i) ltac:(lia)).
  pose proof (nodes_mono k n T (cs_nodes k tree Ht) (first + i) (first + i + 1) ltac:(lia) ltac:(lia) ltac:(lia)).
  erewrite updateNodeCount_spec; [|done|by apply cs_get; lia|by apply cs_get; lia|lia|done].
  by rewrite (Z.add_comm i first).
Qed.

Lemma countBody_write first i counts :
  zlen counts = n -> 0 <= first -> 0 <= i -> first + i < n ->
  countBody tree keys maxCount first i counts =
    aset counts (first + i) (cappedCount keys (T (first + i)) (T (first + i + 1)) maxCount).
Proof using Ht Hkeys Hmax.
  intros Hc Hf Hi Hn. unfold countBody. rewrite !cs_get by lia.
  pose proof (nodes_mono k n T (cs_nodes k tree Ht) (first + i) (first + i + 1) ltac:(lia) ltac:(lia) ltac:(lia)).
  rewrite (calculateNodeCount_spec k) by (done || lia). by rewrite (Z.add_comm i first).
Qed.

(** The counts are exact up to [maxCount], for every order of the parallel loop and
    whatever [counts] held before. *)
Lemma computeNodeCountsOrder_spec order counts useGuess :
  (useGuess = true -> zlen keys <= 2 ^ (keyBits k - 2)) -> zlen counts = n -> (forall m, 0 <= m -> order m ≡ₚ seqZ 0 m) ->
  computeNodeCountsOrder order k tree counts n keys maxCount useGuess = Some (leafCounts tree keys maxCount).
Proof using Ht Hkeys Hmax.
  intros Hsearch Hc Horder. pose proof (cs_nonempty k tree Ht) as Hn.
  unfold computeNodeCountsOrder. destruct populatedNodes_spec as (first & last & -> & Hfl & Hln & Hzero).
  destruct (zeroCounts_spec 0 first counts) as (c1 & -> & Hc1 & H1in & H1out); [lia|lia|].
  destruct (zeroCounts_spec last n c1) as (c2 & -> & Hc2 & H2in & H2out); [lia|lia|].
  assert (Hord : forall i, i ∈ order (last - first) <-> 0 <= i < last - first).
  { intros i. rewrite Horder by lia. rewrite elem_of_seqZ. lia. }
  assert (Hfill : forall body c0, zlen c0 = n ->
    (forall i st, 0 <= i -> first + i < n -> zlen st = n -> body i st =
       aset st (first + i) (cappedCount keys (T (first + i)) (T (first + i + 1)) maxCount)) ->
    (forall j, 0 <= j < n -> ~ first <= j < last -> c0.[j] = Some 0) ->
    foldM body (order (last - first)) c0 = Some (leafCounts tree keys maxCount)).
  { intros body c0 Hc0 Hbody Hout0.
    destruct (foldM_writes body (fun j => cappedCount keys (T j) (T (j + 1)) maxCount) first n
      (order (last - first)) c0) as (c' & -> & Hl' & Hin' & Hout'); [done| | |].
    - intros i Hi%Hord. lia.
    - intros i st Hi%Hord Hst. apply Hbody; [lia|lia|done].
    - f_equal. apply list_eq_aget; [rewrite zlen_leafCounts; lia|]. intros j Hj.
      rewrite leafCounts_get by lia. destruct (decide (first <= j < last)) as [Hin|Hno].
      + apply Hin', Hord. lia.
      + rewrite Hout' by (rewrite Hord; lia). rewrite Hzero by lia. apply Hout0; [lia|done]. }
  assert (Hpre : forall j, 0 <= j < n -> ~ first <= j < last -> c2.[j] = Some 0).
  { intros j Hj Hno. destruct (decide (last <= j)); [by apply H2in; lia|].
    rewrite H2out by lia. apply H1in. lia. }
  destruct useGuess; apply Hfill.
  - rewrite zlen_scanCounts; lia.
  - intros. apply guessedCountBody_write; (done || lia || by apply Hsearch).
  - intros j Hj Hno. rewrite scanCounts_outside by lia. by apply Hpre.
  - lia.
  - intros. apply countBody_write; (done || lia).
  - done.
Qed.

Lemma computeNodeCounts_spec counts useGuess :
  (useGuess = true -> zlen keys <= 2 ^ (keyBits k - 2)) -> zlen counts = n ->
  computeNodeCounts k tree counts n keys maxCount useGuess = Some (leafCounts tree keys maxCount).
Proof using Ht Hkeys Hmax. intros. by apply computeNodeCountsOrder_spec. Qed.

End Counts.

(** Executable test of the assumptions on particle keys. *)
Definition sortedKeysb (k : KeyType) (keys : list Z) : bool :=
  zsortedb keys && forallb (fun x => (0 <=? x) && (x <? keyMax k)) keys && (zlen keys <? 4294967296).

Lemma sortedKeysb_sound k keys : sortedKeysb k keys = true -> sortedKeys k keys.
Proof.
  unfold sortedKeysb. intros H. zbool. split; [by apply zsortedb_sound| |done].
  apply Forall_forall. intros x Hx%list_elem_of_In.
  match goal with H : forallb _ _ = true |- _ => rewrite forallb_forall in H; apply H in Hx end. zbool. lia.
Qed.

Definition searchableKeysb (k : KeyType) (keys : list Z) : bool := sortedKeysb k keys && (zlen keys <=? 2 ^ (keyBits k - 2)).

Lemma searchableKeysb_sound k keys : searchableKeysb k keys = true -> searchableKeys k keys.
Proof. unfold searchableKeysb. intros H. zbool. split; [by apply sortedKeysb_sound|done]. Qed.

(** ** Positions of leaves *)

(** Leaf boundaries are found at their index. *)
Lemma cs_sorted k L : csTree k L -> zsorted L.
Proof.
  intros Hcs i j x y Hij Hi Hj. pose proof (aget_Some_range _ _ _ Hi). pose proof (aget_Some_range _ _ _ Hj).
  apply nthz_Some in Hi, Hj. subst x y. pose proof (nodes_mono_le k _ _ (cs_nodes k _ Hcs)) as Hm. unfold nNodes in Hm. apply Hm; lia.
Qed.

Lemma cs_position k L i v : csTree k L -> L.[i] = Some v -> count_lt v L = i.
Proof.
  intros Hcs Hi. pose proof (cs_sorted k L Hcs) as Hs. pose proof (aget_Some_range _ _ _ Hi). apply Z.le_antisymm; [by apply (count_lt_le L Hs i v v)|].
  destruct (decide (i = 0)) as [->|]; [apply count_lt_range|]. enough (i - 1 < count_lt v L) by lia.
  apply (count_lt_gt L Hs (i - 1) (nthz L (i - 1)) v); [apply nthz_get; lia|]. apply nthz_Some in Hi. subst v.
  pose proof (nodes_mono k _ _ (cs_nodes k _ Hcs)) as Hm. unfold nNodes in Hm. apply Hm; lia.
Qed.

