(* ===== verification/CsBuild.v ===== *)
(** * Tree construction

    [updateOctree] iterated by [computeOctree]: every step keeps a cornerstone tree with
    exact counts, the iteration converges within [2 * maxTreeLevel + 1] steps, and the
    result is the coarsest tree in which no leaf above the last level exceeds the bucket
    size. *)

From S2P Require Import Prelude Primitives SfcCommon Csarray CsInvariant CsRebalance CsCounts.

(** ** Adjacent keys *)

Definition adj (l : list Z) (a b : Z) : Prop := exists l1 l2, l = l1 ++ a :: b :: l2.

Lemma adj_get l i a b : l.[i] = Some a -> l.[i + 1] = Some b -> adj l a b.
Proof.
  intros Ha Hb. apply aget_split in Ha as (l1 & l2 & -> & <-).
  rewrite aget_app_r in Hb by lia. replace (zlen l1 + 1 - zlen l1) with 1 in Hb by lia.
  destruct l2 as [|b' l2]; [done|]. injection Hb as ->. by exists l1, l2.
Qed.

Lemma adj_cons x l a b : adj (x :: l) a b -> (x = a /\ exists l', l = b :: l') \/ adj l a b.
Proof.
  intros ([|y l1] & l2 & E); injection E as -> ->; [left; eauto|right; by exists l1, l2].
Qed.

Lemma adj_app l c r a b : adj (l ++ c :: r) a b -> adj (l ++ [c]) a b \/ adj (c :: r) a b.
Proof.
  induction l as [|x l IH]; simpl; [by right|]. intros [[-> (l' & E)]|H]%adj_cons.
  - left. destruct l as [|y l]; injection E as -> _; [by exists [], []|by exists [], (l ++ [c])].
  - destruct (IH H) as [(l1 & l2 & ->)|?]; [left; by exists (x :: l1), l2|by right].
Qed.

Lemma adj_map_seqZ (f : Z -> Z) lo n a b :
  0 <= n -> adj ((f <$> seqZ lo n) ++ [f (lo + n)]) a b -> exists c, lo <= c < lo + n /\ a = f c /\ b = f (c + 1).
Proof.
  intros Hn (l1 & l2 & E).
  assert (E' : f <$> seqZ lo (n + 1) = l1 ++ a :: b :: l2) by (rewrite <- E, seqZ_app, fmap_app by lia; done).
  assert (Hlen : zlen l1 + 1 < n + 1).
  { apply (f_equal zlen) in E'. rewrite zlen_map, zlen_seqZ in E' by lia. autorewrite with zlen in E'.
    pose proof (zlen_nonneg l2). lia. }
  pose proof (zlen_nonneg l1). exists (lo + zlen l1). split; [lia|].
  assert (Hget : forall i, 0 <= i < n + 1 -> (l1 ++ a :: b :: l2).[i] = Some (f (lo + i))).
  { intros i Hi. by rewrite <- E', aget_map, aget_seqZ by lia. }
  split.
  - specialize (Hget (zlen l1) ltac:(lia)). rewrite aget_middle in Hget. congruence.
  - specialize (Hget (zlen l1 + 1) ltac:(lia)). rewrite aget_app_r in Hget by lia.
    replace (zlen l1 + 1 - zlen l1) with 1 in Hget by lia. injection Hget as ->. f_equal. lia.
Qed.

Lemma chain_head k a l b : cs_chain k a l b -> exists r, l ++ [b] = a :: r.
Proof. destruct 1; simpl; eauto. Qed.

(** ** Where the leaves of the next tree come from *)

Section Origin.
Context (k : KeyType) (tree counts : list Z) (bucketSize : Z).
Hypothesis Hin : rebalanceInput k tree counts bucketSize.

Local Abbreviation T := (nthz tree).
Local Abbreviation n := (nNodes tree).
Local Abbreviation ops := (nodeOpsOf k tree counts bucketSize).
Local Abbreviation merge := (mergeable k tree counts bucketSize).

(** A new leaf is a descendant of an unmerged leaf, by as many levels as its decision
    says, or the parent of a mergeable group. *)
Definition leafOrigin (a b : Z) : Prop :=
  (exists i j, 0 <= i < n /\ (forall g, merge g -> ~ g <= i < g + 8) /\ 0 <= j /\
     8 ^ j = splitFactor k bucketSize (nthz counts i) (leafLevel k tree i) /\
     T i <= a < b /\ b <= T (i + 1) /\ (b - a) * 8 ^ j = T (i + 1) - T i) \/
  (exists g, merge g /\ a = T g /\ b = T (g + 8)).

Lemma plain_leaf_origin i a b :
  0 <= i < n -> (forall g, merge g -> ~ g <= i < g + 8) ->
  adj (leafOutput tree ops i ++ [T (i + 1)]) a b -> leafOrigin a b.
Proof using Hin.
  intros Hi Hno Hadj. left.
  destruct (leaf_size k tree counts bucketSize Hin i Hi) as (m & Hm & HT & _ & Hl).
  destruct (nodeOp_cases k tree counts bucketSize Hin i Hi) as [_ [[_ (g & Hg & Hgi)]|[Hsf _]]].
  { destruct (Hno g Hg). lia. }
  destruct (splitFactor_pow8 k bucketSize (nthz counts i) (leafLevel k tree i)) as (j & Hj & Hjl & Ej); [lia|].
  pose proof (pow8_pos j ltac:(lia)). pose proof (pow8_pos (m - j) ltac:(lia)) as Hp.
  assert (8 ^ m = 8 ^ j * 8 ^ (m - j)) as E by (rewrite <- Z.pow_add_r by lia; f_equal; lia).
  unfold leafOutput, splitKeys in Hadj. rewrite Hsf, Ej, HT in Hadj.
  replace (T i + 8 ^ m - T i) with (8 ^ m) in Hadj by lia. rewrite pow8_quot in Hadj by lia.
  replace (T i + 8 ^ m) with (T i + (0 + 8 ^ j) * 8 ^ (m - j)) in Hadj by lia.
  apply (adj_map_seqZ (fun c => T i + c * 8 ^ (m - j))) in Hadj as (c & Hc & -> & ->); [|lia].
  exists i, j. repeat split; [lia|lia|done|lia|done|nia|lia|nia|nia].
Qed.

Lemma newLeaves_origin (w : nat) i a b :
  n - i = Z.of_nat w -> 0 <= i -> (i < n -> nthz ops i <> 0) ->
  adj (newLeaves tree ops i n ++ [T n]) a b -> leafOrigin a b.
Proof using Hin.
  pose proof Hin as [Ht _ _ _]. pose proof (ops_fit _ _ _ _ Hin) as Hfit.
  pose proof (merges_are_groups _ _ _ _ Hin) as Hmrg.
  revert i. induction w as [w IH] using lt_wf_ind. intros i Hw Hi Hop Hadj.
  destruct (decide (i = n)) as [->|Hin'].
  { rewrite newLeaves_nil in Hadj. apply adj_cons in Hadj as [[_ (? & ?)]|([] & ? & ?)]; done. }
  specialize (Hop ltac:(lia)).
  assert (Hsplit : forall i', i < i' <= n -> (i' < n -> nthz ops i' <> 0) ->
    adj (newLeaves tree ops i i' ++ [T i']) a b \/ leafOrigin a b).
  { intros i' Hi' Hop'. rewrite (newLeaves_split tree ops i i' n), <- app_assoc in Hadj by lia.
    pose proof (newLeaves_suffix_chain k tree ops 0 (keyMax k) Ht Hfit Hmrg (Z.to_nat (n - i')) i'
      ltac:(lia) ltac:(lia) Hop') as Hch.
    destruct (chain_head _ _ _ _ Hch) as (r & Er). rewrite Er in Hadj.
    apply adj_app in Hadj as [Hadj|Hadj]; [by left|right]. rewrite <- Er in Hadj.
    apply (IH (Z.to_nat (n - i')) ltac:(lia) i' ltac:(lia) ltac:(lia) Hop' Hadj). }
  destruct (decide (i + 1 < n /\ nthz ops (i + 1) = 0)) as [[Hlt Hz]|Hno].
  - destruct (nodeOp_cases k tree counts bucketSize Hin (i + 1) ltac:(lia)) as [_ [[_ (g & Hg & Hgi)]|[Hsf _]]].
    2: { destruct (leaf_size k tree counts bucketSize Hin (i + 1) ltac:(lia)) as (m & Hm & _ & _ & Hl).
         destruct (splitFactor_pow8 k bucketSize (nthz counts (i + 1)) (leafLevel k tree (i + 1))) as (j & Hj & _ & Ej);
           [lia|]. pose proof (pow8_pos j). lia. }
    pose proof (mergeable_merged _ _ _ _ Hin g Hg) as Hmg. pose proof Hmg as (Hg0 & Hgn & _ & Hgc & _).
    assert (g = i) as ->.
    { destruct (decide (g = i)) as [|Hne]; [done|]. destruct Hop.
      replace i with (g + (i - g)) by lia. apply Hgc. lia. }
    destruct (Hsplit (i + 8)) as [Hblk|]; [lia| |clear Hsplit|done].
    + intros Hlt8 Hz8. destruct (Hmrg (i + 8) ltac:(lia) Hz8) as (g' & (_ & _ & Hg1' & _) & Hgi').
      assert (nthz ops g' = 0); [|lia]. replace g' with (i + (g' - i)) by lia. apply Hgc. lia.
    + rewrite (merged_group_output k) in Hblk by done. right. exists i. split; [done|].
      apply adj_cons in Hblk as [[<- (l' & [= <- _])]|Hblk]; [done|].
      apply adj_cons in Hblk as [[_ (? & ?)]|([] & ? & ?)]; done.
  - destruct (Hsplit (i + 1)) as [Hblk|]; [lia|naive_solver| |done].
    rewrite newLeaves_cons, newLeaves_nil, app_nil_r in Hblk by lia.
    apply (plain_leaf_origin i); [lia| |done]. intros g Hg Hgi.
    pose proof (mergeable_merged _ _ _ _ Hin g Hg) as (Hg0 & Hgn & _ & Hgc & _).
    destruct (decide (g = i)) as [->|].
    + apply Hno. split; [lia|]. apply Hgc. lia.
    + apply Hop. replace i with (g + (i - g)) by lia. apply Hgc. lia.
Qed.

Lemma nextTree_origin a b : adj (nextTree k tree counts bucketSize) a b -> leafOrigin a b.
Proof using Hin.
  pose proof Hin as [Ht _ _ _]. pose proof (cs_nonempty k tree Ht) as Hn.
  unfold nextTree. rewrite <- (cs_last k tree Ht). apply (newLeaves_origin (Z.to_nat n)); [lia|lia|].
  intros _ Hz. destruct (merges_are_groups _ _ _ _ Hin 0 ltac:(lia) Hz) as (g & (Hg & _) & Hgi). lia.
Qed.

(** When every decision is 1, every leaf is within the bucket size or on the last level, and no eight siblings could be merged. *)
Lemma fixed_balanced : forallb (Z.eqb 1) ops = true ->
  (forall i, 0 <= i < n -> nthz counts i <= bucketSize \/ leafLevel k tree i = maxTreeLevel k) /\ (forall g m, fullGroup k tree g m -> bucketSize < groupSum counts g).
Proof using Hin.
  intros Hall. pose proof Hin as [Ht _ _ Hb]. pose proof (cs_nonempty k tree Ht).
  assert (Hone : forall i, 0 <= i < n -> nthz ops i = 1) by (intros i Hi; rewrite forallb_forall in Hall; symmetry; apply Z.eqb_eq, Hall, list_elem_of_In; eapply aget_elem, nthz_get; rewrite zlen_nodeOpsOf; lia). split.
  - intros i Hi. pose proof (Hone i Hi) as H1. destruct (leaf_size _ _ _ _ Hin i Hi) as (m & Hm & _ & _ & Hl).
    destruct (nodeOp_cases _ _ _ _ Hin i Hi) as [_ [[H0 _]|[Hsf _]]]; [lia|].
    rewrite H1 in Hsf. symmetry in Hsf. apply splitFactor_1 in Hsf; [done|done|lia].
  - intros g m Hg. destruct (Z.lt_ge_cases bucketSize (groupSum counts g)) as [|Hle]; [done|].
    destruct (mergeable_merged _ _ _ _ Hin g) as (Hg0 & Hgn & _ & H0 & _); [by exists m|].
    specialize (H0 1 ltac:(lia)). rewrite Hone in H0 by lia. lia.
Qed.

(** When every decision is 1 the tree does not change. *)
Lemma nextTree_fixed : forallb (Z.eqb 1) ops = true -> nextTree k tree counts bucketSize = tree.
Proof using Hin.
  intros Hall. pose proof Hin as [Ht _ _ _]. pose proof (cs_nonempty k tree Ht) as Hn.
  pose proof (zlen_nodeOpsOf k tree counts bucketSize ltac:(lia)) as Hlen.
  assert (Hone : forall i, 0 <= i < n -> nthz ops i = 1).
  { intros i Hi. rewrite forallb_forall in Hall. symmetry. apply Z.eqb_eq, Hall.
    apply list_elem_of_In. eapply aget_elem, nthz_get. lia. }
  assert (Hlv : forall w : nat, Z.of_nat w <= n -> newLeaves tree ops 0 (Z.of_nat w) = take w tree).
  { induction w as [|w IH]; intros Hw; [by rewrite newLeaves_nil|].
    replace (Z.of_nat (S w)) with (Z.of_nat w + 1) by lia. rewrite newLeaves_snoc, IH by lia.
    unfold leafOutput. rewrite Hone, splitKeys_1 by lia. symmetry. apply take_S_r.
    rewrite <- aget_nat. apply cs_get. lia. }
  unfold nextTree. replace n with (Z.of_nat (Z.to_nat n)) by lia. rewrite Hlv by lia.
  rewrite <- (cs_last k tree Ht). rewrite <- (take_S_r tree (Z.to_nat n)).
  - apply take_ge. unfold nNodes in *. unfold zlen in *. lia.
  - rewrite <- aget_lookup by lia. apply cs_get. lia.
Qed.

End Origin.

(** ** One update step *)

Lemma updateOctree_run k keys bucketSize tree counts maxCount :
  rebalanceInput k tree counts bucketSize -> searchableKeys k keys -> 0 <= maxCount < 4294967296 ->
  let next := nextTree k tree counts bucketSize in
  updateOctree k keys bucketSize tree counts maxCount =
    Some (forallb (Z.eqb 1) (nodeOpsOf k tree counts bucketSize), next, leafCounts next keys maxCount).
Proof.
  intros Hin [Hkeys Hsearch] Hmax next. pose proof (nextTree_csTree _ _ _ _ Hin) as Hnext. fold next in Hnext.
  pose proof (cs_nonempty k next Hnext).
  unfold updateOctree. rewrite decision_run by done. rewrite rebalance_run by done. fold next.
  rewrite computeNodeCounts_spec; [done|done|done|done|done|]. apply zlen_aresize. lia.
Qed.

(** ** Convergence *)

Section Converge.
Context (k : KeyType) (keys : list Z) (bucketSize maxCount : Z).
Hypothesis Hkeys : sortedKeys k keys.
Hypothesis Hmax : 0 <= maxCount < 4294967296.
Hypothesis Hbucket : 0 <= bucketSize /\ bucketSize * 512 < 4294967296.

Local Abbreviation cnt a b := (cappedCount keys a b maxCount).
Local Abbreviation countsOf tree := (leafCounts tree keys maxCount).
Local Abbreviation next tree := (nextTree k tree (countsOf tree) bucketSize).
Local Abbreviation merge tree := (mergeable k tree (countsOf tree) bucketSize).

Lemma cnt_range a b : a <= b -> 0 <= cnt a b < 4294967296.
Proof using Hmax. intros Hab. unfold cappedCount. pose proof (count_lt_mono a b keys Hab). lia. Qed.

Lemma cnt_sub a b c d : a <= b -> b <= c -> c <= d -> cnt b c <= cnt a d.
Proof using.
  intros. unfold cappedCount. pose proof (count_lt_mono a b keys). pose proof (count_lt_mono b c keys).
  pose proof (count_lt_mono c d keys). lia.
Qed.

(** The particles of adjacent ranges, with the cap, bound those of the union. *)
Lemma cnt_join a b c : a <= b -> b <= c -> cnt a c <= cnt a b + cnt b c.
Proof using Hmax.
  intros. unfold cappedCount. pose proof (count_lt_mono a b keys). pose proof (count_lt_mono b c keys). lia.
Qed.

Lemma exact_input tree : csTree k tree -> rebalanceInput k tree (countsOf tree) bucketSize.
Proof using Hmax Hbucket.
  intros Ht. pose proof (cs_nonempty k tree Ht). split; [done|apply zlen_leafCounts; lia| |done].
  unfold leafCounts. apply Forall_fmap, Forall_forall. intros i Hi%elem_of_seqZ. simpl. apply cnt_range.
  pose proof (nodes_mono k _ _ (cs_nodes k tree Ht) i (i + 1)). lia.
Qed.

Lemma nthz_counts tree i :
  0 <= i < nNodes tree -> nthz (countsOf tree) i = cnt (nthz tree i) (nthz tree (i + 1)).
Proof using. intros. by apply nthz_Some, leafCounts_get. Qed.

Lemma leaf_adj tree i : 0 <= i < nNodes tree -> adj tree (nthz tree i) (nthz tree (i + 1)).
Proof using. intros. apply adj_get with i; apply cs_get; lia. Qed.

Lemma groupSum_cnt tree g :
  0 <= g -> g + 8 <= nNodes tree ->
  groupSum (countsOf tree) g = zsum ((fun c => cnt (nthz tree (g + c)) (nthz tree (g + c + 1))) <$> seqZ 0 8).
Proof using.
  intros Hg Hgn. unfold groupSum. f_equal. apply list_eq_aget; [done|]. intros c Hc.
  rewrite zlen_map, zlen_seqZ in Hc by lia. rewrite !aget_map, !aget_seqZ by lia. simpl.
  rewrite nthz_counts by lia. done.
Qed.

Lemma group_cnt_le tree g (w : nat) :
  csTree k tree -> 0 <= g -> g + Z.of_nat w <= nNodes tree ->
  cnt (nthz tree g) (nthz tree (g + Z.of_nat w)) <=
    zsum ((fun c => cnt (nthz tree (g + c)) (nthz tree (g + c + 1))) <$> seqZ 0 (Z.of_nat w)).
Proof using Hmax.
  intros Ht Hg. pose proof (nodes_mono_le k _ _ (cs_nodes k tree Ht)) as Hmono.
  induction w as [|w IH]; intros Hw.
  - rewrite Z.add_0_r. unfold cappedCount. rewrite Z.sub_diag. simpl. lia.
  - replace (Z.of_nat (S w)) with (Z.of_nat w + 1) by lia. rewrite seqZ_app, fmap_app, zsum_app by lia. simpl.
    rewrite Z.add_0_r, !Z.add_assoc. replace (g + Z.of_nat 0 + 0 + Z.of_nat w) with (g + Z.of_nat w) by lia.
    pose proof (cnt_join (nthz tree g) (nthz tree (g + Z.of_nat w)) (nthz tree (g + Z.of_nat w + 1))
      ltac:(apply Hmono; lia) ltac:(apply Hmono; lia)). specialize (IH ltac:(lia)). lia.
Qed.

(** The parent of a mergeable group is within the bucket size. *)
Lemma merged_cnt tree g :
  csTree k tree -> merge tree g -> cnt (nthz tree g) (nthz tree (g + 8)) <= bucketSize.
Proof using Hmax.
  intros Ht (m & (Hg & Hgn & _) & Hsum). rewrite groupSum_cnt in Hsum by lia.
  pose proof (group_cnt_le tree g 8 Ht Hg ltac:(lia)) as Hle. change (Z.of_nat 8) with 8 in Hle. lia.
Qed.

(** After [t] steps the leaves that exceed the bucket size are below level [t]. *)
Definition splitsDone (t : Z) (tree : list Z) : Prop :=
  csTree k tree /\ forall a b, adj tree a b -> bucketSize < cnt a b -> b - a <= 8 ^ (maxTreeLevel k - t).

Lemma split_step t tree : 0 <= t < maxTreeLevel k -> splitsDone t tree -> splitsDone (t + 1) (next tree).
Proof using Hkeys Hmax Hbucket.
  intros Ht [Htree Hbig]. pose proof (exact_input tree Htree) as Hin.
  split; [by apply nextTree_csTree|]. intros a b Hadj Hbad.
  destruct (nextTree_origin _ _ _ _ Hin a b Hadj) as [(i & j & Hi & _ & Hj & Hsf & Ha & Hb & Hw)|(g & Hg & -> & ->)].
  - pose proof (cnt_sub (nthz tree i) a b (nthz tree (i + 1)) ltac:(lia) ltac:(lia) ltac:(lia)) as Hle.
    specialize (Hbig _ _ (leaf_adj tree i Hi) ltac:(lia)).
    destruct (leaf_size _ _ _ _ Hin i Hi) as (m & Hm & HT & _ & Hl). rewrite nthz_counts in Hsf by done.
    replace (maxTreeLevel k - t) with (maxTreeLevel k - (t + 1) + 1) in Hbig by lia. rewrite pow8_succ in Hbig by lia.
    pose proof (pow8_pos (maxTreeLevel k - (t + 1)) ltac:(lia)).
    destruct (decide (m = 0)) as [->|].
    + change (8 ^ 0) with 1 in HT. pose proof (pow8_pos j Hj). nia.
    + assert (j <> 0) as Hj0.
      { intros ->. symmetry in Hsf. apply splitFactor_1 in Hsf as [?|?]; [lia|lia|done|lia]. }
      assert (8 ^ 1 <= 8 ^ j) as Hp by (apply pow8_mono; lia). change (8 ^ 1) with 8 in Hp. nia.
  - pose proof (merged_cnt tree g Htree Hg). lia.
Qed.

(** After the splits, [s] more steps leave no mergeable group of leaf size below [8^s]. *)
Definition mergesDone (s : Z) (tree : list Z) : Prop :=
  splitsDone (maxTreeLevel k) tree /\ forall g m, fullGroup k tree g m -> merge tree g -> s <= m.

Lemma split_final tree i :
  splitsDone (maxTreeLevel k) tree -> 0 <= i < nNodes tree ->
  splitFactor k bucketSize (nthz (countsOf tree) i) (leafLevel k tree i) = 1.
Proof using Hkeys Hmax Hbucket.
  intros [Htree Hbig] Hi. destruct (leaf_size _ _ _ _ (exact_input tree Htree) i Hi) as (m & Hm & HT & _ & Hl).
  apply splitFactor_1; [done|lia|]. rewrite nthz_counts by done.
  destruct (Z.le_gt_cases (cnt (nthz tree i) (nthz tree (i + 1))) bucketSize) as [|Hgt]; [by left|right].
  specialize (Hbig _ _ (leaf_adj tree i Hi) Hgt). rewrite Z.sub_diag in Hbig. change (8 ^ 0) with 1 in Hbig.
  assert (8 ^ m <= 8 ^ 0) by (change (8 ^ 0) with 1; lia). destruct (decide (m = 0)) as [->|]; [lia|].
  assert (8 ^ 1 <= 8 ^ m) by (apply pow8_mono; lia). change (8 ^ 1) with 8 in *. change (8 ^ 0) with 1 in *. lia.
Qed.

Lemma splitsDone_step tree : splitsDone (maxTreeLevel k) tree -> splitsDone (maxTreeLevel k) (next tree).
Proof using Hkeys Hmax Hbucket.
  intros Hd. pose proof Hd as [Htree Hbig]. pose proof (exact_input tree Htree) as Hin.
  split; [by apply nextTree_csTree|]. intros a b Hadj Hbad.
  destruct (nextTree_origin _ _ _ _ Hin a b Hadj) as [(i & j & Hi & _ & Hj & Hsf & Ha & Hb & Hw)|(g & Hg & -> & ->)].
  - rewrite split_final in Hsf by done. rewrite Hsf in Hw. specialize (Hbig _ _ (leaf_adj tree i Hi)).
    assert (a = nthz tree i) as -> by lia. assert (b = nthz tree (i + 1)) as -> by lia. by apply Hbig.
  - pose proof (merged_cnt tree g Htree Hg). lia.
Qed.

(** The group view of a chain of eight adjacent old leaves. *)
Lemma old_group tree (T' : Z -> Z) g i0 (w : nat) :
  csTree k tree -> (w <= 8)%nat -> 0 <= i0 < nNodes tree -> nthz tree i0 = T' g ->
  (forall c, 0 <= c < 8 -> exists i, 0 <= i < nNodes tree /\
     nthz tree i = T' (g + c) /\ nthz tree (i + 1) = T' (g + c + 1)) ->
  i0 + Z.of_nat w <= nNodes tree /\ nthz tree (i0 + Z.of_nat w) = T' (g + Z.of_nat w).
Proof using.
  intros Ht Hw Hi0 H0 Hold. induction w as [|w IH]; [rewrite !Z.add_0_r; split; [lia|done]|].
  destruct (IH ltac:(lia)) as [Hle Heq]. destruct (Hold (Z.of_nat w) ltac:(lia)) as (i & Hi & Hi1 & Hi2).
  assert (i = i0 + Z.of_nat w) as ->.
  { apply (nodes_inj k _ _ (cs_nodes k tree Ht)); [lia|lia|congruence]. }
  replace (Z.of_nat (S w)) with (Z.of_nat w + 1) by lia. rewrite !Z.add_assoc. split; [lia|done].
Qed.

Lemma merge_step s tree : 0 <= s -> mergesDone s tree -> mergesDone (s + 1) (next tree).
Proof using Hkeys Hmax Hbucket.
  intros Hs [Hd Hmin]. pose proof (splitsDone_step tree Hd) as Hd'. split; [done|]. intros g m Hfull Hmrg.
  pose proof Hd as [Htree _]. pose proof (exact_input tree Htree) as Hin.
  destruct (Z.le_gt_cases (s + 1) m) as [|Hlt]; [done|exfalso].
  set (T' := nthz (next tree)). pose proof Hfull as (Hg & Hgn & Hm & Hdiv & HT'). fold T' in Hdiv, HT'.
  assert (Hold : forall c, 0 <= c < 8 -> exists i, 0 <= i < nNodes tree /\
     (forall g0, merge tree g0 -> ~ g0 <= i < g0 + 8) /\
     nthz tree i = T' (g + c) /\ nthz tree (i + 1) = T' (g + c + 1)).
  { intros c Hc. destruct (nextTree_origin _ _ _ _ Hin _ _ (leaf_adj (next tree) (g + c) ltac:(lia)))
      as [(i & j & Hi & Hno & Hj & Hsf & Ha & Hb & Hw)|(g0 & Hg0 & Ha & Hb)].
    - fold T' in Ha, Hb, Hw. rewrite split_final in Hsf by done. rewrite Hsf in Hw. exists i.
      repeat split; [lia|lia|done|lia|lia].
    - exfalso. fold T' in Ha, Hb. pose proof Hg0 as (m0 & Hf0 & _). specialize (Hmin g0 m0 Hf0 Hg0).
      destruct Hf0 as (_ & _ & Hm0 & _ & H8). rewrite (H8 8) in Hb by lia.
      pose proof (HT' c ltac:(lia)) as E1. pose proof (HT' (c + 1) ltac:(lia)) as E2.
      rewrite Z.add_assoc in E2.
      assert (8 ^ m = 8 ^ (m0 + 1)) as E by (rewrite pow8_succ by lia; lia). apply pow8_inj in E; lia. }
  destruct (Hold 0 ltac:(lia)) as (i0 & Hi0 & Hno0 & H0 & _). rewrite Z.add_0_r in H0.
  assert (Hgrp : forall c, 0 <= c <= 8 -> i0 + c <= nNodes tree /\ nthz tree (i0 + c) = T' (g + c)).
  { intros c Hc. replace c with (Z.of_nat (Z.to_nat c)) by lia. apply old_group; [done|lia|done|done|].
    intros c' Hc'. destruct (Hold c' Hc') as (i & Hi & _ & H1 & H2). by exists i. }
  apply (Hno0 i0); [|lia]. exists m. split.
  - split; [lia|]. destruct (Hgrp 8 ltac:(lia)) as [H8 _]. split; [lia|]. split; [done|].
    rewrite H0. split; [done|]. intros c Hc. destruct (Hgrp c Hc) as [_ ->]. by apply HT'.
  - destruct Hmrg as (m' & _ & Hsum). rewrite groupSum_cnt in Hsum |- * by (try destruct (Hgrp 8 ltac:(lia)); lia).
    etrans; [|exact Hsum]. apply Z.eq_le_incl. f_equal. apply list_fmap_ext. intros _ c Hc%list_elem_of_lookup_2.
    apply elem_of_seqZ in Hc. destruct (Hgrp c ltac:(lia)) as [_ ->]. rewrite <- !Z.add_assoc.
    by destruct (Hgrp (c + 1) ltac:(lia)) as [_ ->].
Qed.

(** What the construction promises: every leaf is within the bucket size or on the last
    level, and no eight siblings could be replaced by their parent. *)
Definition balanced (tree : list Z) : Prop :=
  csTree k tree /\
  (forall i, 0 <= i < nNodes tree ->
     nthz (countsOf tree) i <= bucketSize \/ leafLevel k tree i = maxTreeLevel k) /\
  (forall g m, fullGroup k tree g m -> bucketSize < groupSum (countsOf tree) g).

Local Abbreviation opsOf tree := (nodeOpsOf k tree (countsOf tree) bucketSize).

Lemma converged_balanced tree :
  csTree k tree -> forallb (Z.eqb 1) (opsOf tree) = true -> balanced tree.
Proof using Hkeys Hmax Hbucket. intros Ht Hall. split; [done|]. apply fixed_balanced; [by apply exact_input|done]. Qed.

Lemma mergesDone_converged tree :
  mergesDone (maxTreeLevel k) tree -> forallb (Z.eqb 1) (opsOf tree) = true.
Proof using Hkeys Hmax Hbucket.
  intros [Hd Hno]. pose proof Hd as [Ht _]. pose proof (exact_input tree Ht) as Hin.
  pose proof (cs_nonempty k tree Ht). apply forallb_forall. intros op Hop%list_elem_of_In.
  apply elem_aget in Hop as [i Hi]. pose proof (aget_Some_range _ _ _ Hi) as Hr.
  rewrite zlen_nodeOpsOf in Hr by lia. apply nthz_Some in Hi as <-. apply Z.eqb_eq. symmetry.
  destruct (nodeOp_cases _ _ _ _ Hin i Hr) as [_ [[_ (g & Hg & _)]|[-> _]]]; [|by apply split_final].
  pose proof Hg as (m & Hf & _). specialize (Hno g m Hf Hg). destruct Hf as (_ & _ & Hm & _). lia.
Qed.

(** The iterated rebalance step reaches a tree without changes: first all splits, then all merges. *)
Lemma merges_converge (n : nat) : forall s tree,
  0 <= s <= maxTreeLevel k -> maxTreeLevel k - s <= Z.of_nat n -> mergesDone s tree ->
  exists m : nat, (m <= n)%nat /\ forallb (Z.eqb 1) (opsOf (Nat.iter m (fun t => next t) tree)) = true.
Proof using Hkeys Hmax Hbucket.
  induction n as [|n IH]; intros s tree Hs Hn Hd; (destruct (decide (s = maxTreeLevel k)) as [->|Hne]; [exists 0%nat; split; [lia|by apply mergesDone_converged]|]); [lia|].
  destruct (IH (s + 1) (next tree)) as (m & Hm & Hc); [lia|lia|by apply merge_step; [lia|]|]. exists (S m). split; [lia|]. by rewrite Nat.iter_succ_r.
Qed.

Lemma splits_converge (n : nat) : forall t tree,
  0 <= t <= maxTreeLevel k -> 2 * maxTreeLevel k - t <= Z.of_nat n -> splitsDone t tree ->
  exists m : nat, (m <= n)%nat /\ forallb (Z.eqb 1) (opsOf (Nat.iter m (fun t => next t) tree)) = true.
Proof using Hkeys Hmax Hbucket.
  kfacts k. induction n as [|n IH]; intros t tree Ht Hn Hd; [lia|]. destruct (decide (t = maxTreeLevel k)) as [->|Hne].
  - apply (merges_converge _ 0); [lia|lia|]. split; [done|]. intros g m (_ & _ & Hm & _) _. lia.
  - destruct (IH (t + 1) (next tree)) as (m & Hm & Hc); [lia|lia|by apply split_step; [lia|]|]. exists (S m). split; [lia|]. by rewrite Nat.iter_succ_r.
Qed.

(** So it does from every cornerstone tree, in at most two steps per level. *)
Lemma next_converges tree : csTree k tree ->
  exists m : nat, Z.of_nat m <= 2 * maxTreeLevel k /\ forallb (Z.eqb 1) (opsOf (Nat.iter m (fun t => next t) tree)) = true.
Proof using Hkeys Hmax Hbucket.
  intros Hcs. kfacts k. destruct (splits_converge (Z.to_nat (2 * maxTreeLevel k)) 0 tree) as (m & Hm & Hc); [lia|lia| |exists m; split; [lia|done]].
  split; [done|]. intros a b (l1 & l2 & E) _. rewrite Z.sub_0_r. fold (keyMax k).
  assert (Ha : a ∈ tree) by (rewrite E; apply elem_of_app; right; by left).
  assert (Hb : b ∈ tree) by (rewrite E; apply elem_of_app; right; right; by left).
  assert (Hr : forall x, x ∈ tree -> 0 <= x <= keyMax k).
  { intros x [i Hi]%elem_aget. pose proof (aget_Some_range _ _ _ Hi). apply nthz_Some in Hi as <-. apply cs_range; [done|unfold nNodes; lia]. }
  pose proof (Hr a Ha). pose proof (Hr b Hb). lia.
Qed.

Hypothesis Hsearch : zlen keys <= 2 ^ (keyBits k - 2).

(** The construction loop stops at such a tree. *)
Lemma loop_run (m : nat) : forall fuel tree, csTree k tree ->
  forallb (Z.eqb 1) (opsOf (Nat.iter m (fun t => next t) tree)) = true -> (m < fuel)%nat ->
  exists r, updateOctreeLoop fuel k keys bucketSize tree (countsOf tree) maxCount = Some (r, countsOf r) /\ balanced r.
Proof using Hkeys Hmax Hbucket Hsearch.
  induction m as [|m IH]; intros fuel tree Ht Hc Hf; (destruct fuel as [|fuel]; [lia|]); pose proof (exact_input tree Ht) as Hin;
    cbn [updateOctreeLoop]; rewrite (updateOctree_run k keys bucketSize tree (countsOf tree) maxCount Hin (Build_searchableKeys _ _ Hkeys Hsearch) Hmax).
  - simpl in Hc. rewrite Hc. exists tree. rewrite (nextTree_fixed _ _ _ _ Hin) by done. split; [done|by apply converged_balanced].
  - destruct (forallb (Z.eqb 1) (opsOf tree)) eqn:Hall.
    + exists tree. rewrite (nextTree_fixed _ _ _ _ Hin) by done. split; [done|by apply converged_balanced].
    + apply IH; [by apply nextTree_csTree|by rewrite Nat.iter_succ_r in Hc|lia].
Qed.

Lemma root_csTree : csTree k (makeRootNodeTree k).
Proof using.
  clear. kfacts k. unfold makeRootNodeTree. rewrite nodeRange_0. exists [0]. split; [done|].
  apply chain_cons with (keyMax k); [|constructor]. exists (maxTreeLevel k).
  split; [lia|]. split; [lia|]. split; [apply Z.divide_0_r|]. unfold keyMax. lia.
Qed.

Lemma root_counts : zlen keys <= maxCount -> countsOf (makeRootNodeTree k) = [u32 (zlen keys)].
Proof using Hkeys.
  intros Hle. pose proof (sk_size _ _ Hkeys). pose proof (zlen_nonneg keys).
  assert (E : countsOf (makeRootNodeTree k) = [cnt 0 (keyMax k)]).
  { unfold makeRootNodeTree. by rewrite nodeRange_0. }
  rewrite E, u32_small by lia. f_equal. unfold cappedCount.
  rewrite (count_lt_none 0) by (eapply Forall_impl; [apply Hkeys|simpl; lia]).
  rewrite (count_lt_all (keyMax k)) by (eapply Forall_impl; [apply Hkeys|simpl; lia]). lia.
Qed.

(** The construction terminates with a balanced tree and its exact counts. *)
Lemma computeOctree_balanced fuel :
  zlen keys <= maxCount -> 2 * maxTreeLevel k < Z.of_nat fuel ->
  exists r, computeOctree fuel k keys bucketSize maxCount = Some (r, countsOf r) /\ balanced r.
Proof using Hkeys Hmax Hbucket Hsearch.
  intros Hle Hf. unfold computeOctree. change [0; nodeRange k 0] with (makeRootNodeTree k).
  rewrite <- root_counts by done. destruct (next_converges _ root_csTree) as (m & Hm & Hc). apply (loop_run m); [apply root_csTree|done|lia].
Qed.

End Converge.
