(* ===== verification/CsUtil.v ===== *)
(** * Spanning trees, uniform trees and the invariant check *)

From S2P Require Import Prelude Primitives SfcCommon Csarray CsInvariant CsRebalance CsCounts CsBuild.

(** ** Spanning trees *)

Lemma spanSfcRange_same k a : 0 <= a <= keyMax k -> spanSfcRange k a a = Some (0, []).
Proof.
  intros Ha. kfacts k. destruct (lastNzPlace_spec k a Ha) as (Hl & _). unfold spanSfcRange.
  rewrite Z.lxor_nilpotent. change (countLeadingZeros (keyBits k) 0) with (keyBits k).
  assert (u32 (keyBits k + 3 - unusedBits k) / 3 = maxTreeLevel k + 1) as -> by by destruct k.
  rewrite (seqZ_nil _ (lastNzPlace k a - (maxTreeLevel k + 1))) by lia.
  by rewrite (seqZ_nil _ (lastNzPlace k a - (maxTreeLevel k + 1) + 1)) by lia.
Qed.

Lemma spanSfcRange_chain_le k a b :
  0 <= a <= b -> b <= keyMax k ->
  exists out, spanSfcRange k a b = Some (zlen out, out) /\ cs_chain k a out b.
Proof.
  intros Hab Hb. destruct (decide (a = b)) as [->|]; [|apply spanSfcRange_chain; lia].
  exists []. rewrite spanSfcRange_same by lia. split; [done|constructor].
Qed.

(** The codes that [spanSfcRange] stores between two keys. *)
Definition spanCodes (k : KeyType) (a b : Z) : list Z := default [] (snd <$> spanSfcRange k a b).

Lemma spanCodes_chain k a b :
  0 <= a <= b -> b <= keyMax k ->
  spanSfcRange k a b = Some (zlen (spanCodes k a b), spanCodes k a b) /\ cs_chain k a (spanCodes k a b) b.
Proof.
  intros Hab Hb. destruct (spanSfcRange_chain_le k a b Hab Hb) as (out & E & Hc).
  unfold spanCodes. by rewrite E.
Qed.

Lemma writeAt_block out offset vals pre mid post :
  out = pre ++ mid ++ post -> zlen pre = offset -> zlen mid = zlen vals ->
  writeAt out offset vals = Some (pre ++ vals ++ post).
Proof.
  intros -> Hpre Hmid. unfold writeAt.
  pose proof (write_loop_block (nthz vals) (fun i => vals.[i]) offset 0 (zlen vals) pre mid post Hmid) as H.
  rewrite Z.add_0_l in H. rewrite H; [|lia|intros; apply nthz_get; lia]. do 3 f_equal.
  apply list_eq_aget; [rewrite zlen_map, zlen_seqZ; [done|apply zlen_nonneg]|].
  intros i Hi. rewrite zlen_map, zlen_seqZ in Hi by apply zlen_nonneg.
  rewrite aget_map, aget_seqZ by lia. simpl. symmetry. by apply nthz_get.
Qed.

(** Sorted keys that start at 0 and end at the end of the curve. *)
Record spanningKeys_ok (k : KeyType) (keys : list Z) : Prop := {
  sp_size : 1 < zlen keys;
  sp_first : keys.[0] = Some 0;
  sp_last : keys.[zlen keys - 1] = Some (keyMax k);
  sp_sorted : zsorted keys
}.

Section Spanning.
Context (k : KeyType) (keys : list Z).
Hypothesis Hsp : spanningKeys_ok k keys.

Local Abbreviation K := (nthz keys).
Local Abbreviation n := (zlen keys - 1).

Definition spanOut (i : Z) : list Z := spanCodes k (K i) (K (i + 1)).

Lemma span_sorted i j : 0 <= i <= j -> j <= n -> 0 <= K i <= K j /\ K j <= keyMax k.
Proof using Hsp.
  destruct Hsp as [Hsz H0 Hn Hs]. intros Hij Hj.
  pose proof (nthz_get keys i ltac:(lia)) as Gi. pose proof (nthz_get keys j ltac:(lia)) as Gj.
  pose proof (Hs 0 i _ _ ltac:(lia) H0 Gi). pose proof (Hs i j _ _ ltac:(lia) Gi Gj).
  pose proof (Hs j n _ _ ltac:(lia) Gj Hn). lia.
Qed.

Lemma spanOut_chain i :
  0 <= i < n -> spanSfcRange k (K i) (K (i + 1)) = Some (zlen (spanOut i), spanOut i) /\
    cs_chain k (K i) (spanOut i) (K (i + 1)).
Proof using Hsp.
  intros Hi. destruct (span_sorted i (i + 1) ltac:(lia) ltac:(lia)). by apply spanCodes_chain.
Qed.

Lemma blocks_chain (i : nat) :
  Z.of_nat i <= n -> cs_chain k 0 (blocks spanOut (Z.of_nat i)) (K (Z.of_nat i)).
Proof using Hsp.
  induction i as [|i IH]; intros Hi.
  - change (Z.of_nat 0) with 0. rewrite (nthz_Some _ _ _ (sp_first _ _ Hsp)). constructor.
  - replace (Z.of_nat (S i)) with (Z.of_nat i + 1) by lia. rewrite blocks_succ by lia.
    apply cs_chain_app with (K (Z.of_nat i)); [apply IH; lia|apply spanOut_chain; lia].
Qed.

Lemma spanOffsets i :
  0 <= i <= n ->
  (exclusive_scan 0 (((fun i => zlen (spanOut i)) <$> seqZ 0 n) ++ [0])).[i] = Some (zlen (blocks spanOut i)).
Proof using Hsp.
  intros Hi. pose proof (sp_size _ _ Hsp). rewrite exclusive_scan_get.
  2: { rewrite zlen_app, zlen_map, zlen_seqZ by lia. change (zlen [0]) with 1. lia. }
  rewrite prefixSum_app_l by (rewrite zlen_map, zlen_seqZ; lia). f_equal.
  replace i with (Z.of_nat (Z.to_nat i)) in * by lia. generalize dependent (Z.to_nat i). intros w.
  induction w as [|w IH]; intros Hw; [done|]. replace (Z.of_nat (S w)) with (Z.of_nat w + 1) by lia.
  rewrite blocks_succ, zlen_app, <- IH by lia. rewrite (prefixSum_succ _ _ (zlen (spanOut (Z.of_nat w)))); [lia|].
  by rewrite aget_map, aget_seqZ, Z.add_0_l by lia.
Qed.

(** The spanning tree is the concatenation of the covers of the intervals. *)
Lemma computeSpanningTree_run : computeSpanningTree k keys = Some (blocks spanOut n ++ [keyMax k]).
Proof using Hsp.
  pose proof (sp_size _ _ Hsp) as Hsz. unfold computeSpanningTree.
  rewrite (mapM_range_Some _ _ _ (fun i => zlen (spanOut i))).
  2: { intros i Hi. rewrite !nthz_get by lia. unfold spanSfcRangeCount.
       by destruct (spanOut_chain i Hi) as [-> _]. }
  rewrite Z.sub_0_r. set (offs := exclusive_scan 0 _).
  assert (zlen offs = n + 1) as Hol.
  { unfold offs, zlen at 1. rewrite exclusive_scan_length. fold (zlen (((fun i => zlen (spanOut i)) <$> seqZ 0 n) ++ [0])).
    rewrite zlen_app, zlen_map, zlen_seqZ by lia. done. }
  rewrite Hol. replace (n + 1 - 1) with n by lia. pose proof (spanOffsets n ltac:(lia)) as Hlast. fold offs in Hlast.
  rewrite Hlast. pose proof (zlen_nonneg (blocks spanOut n)).
  edestruct (scatter_blocks (fun i st => let? a := keys.[i] in let? b := keys.[i + 1] in let? offset := offs.[i] in
     let? r := spanSfcRange k a b in writeAt st offset (snd r)) spanOut n
     (replicate (Z.to_nat (zlen (blocks spanOut n) + 1)) 0) 1) as (r & -> & Hr).
  - lia.
  - lia.
  - unfold zlen at 1. rewrite length_replicate. lia.
  - intros i pre mid post Hi Hpre Hmid. rewrite (nthz_get keys i), (nthz_get keys (i + 1)) by lia.
    pose proof (spanOffsets i ltac:(lia)) as Ho. fold offs in Ho. rewrite Ho.
    destruct (spanOut_chain i Hi) as [-> _]. simpl. by apply writeAt_block with mid.
  - destruct r as [|x [|]]; rewrite ?zlen_cons in Hr; [done| |pose proof (zlen_nonneg l); lia].
    rewrite zlen_app. change (zlen [x]) with 1. rewrite Z.add_simpl_r, aset_middle. by rewrite nodeRange_0.
Qed.

Lemma spanningTree_csTree : csTree k (blocks spanOut n ++ [keyMax k]).
Proof using Hsp.
  pose proof (sp_size _ _ Hsp). eexists. split; [done|].
  rewrite <- (nthz_Some _ _ _ (sp_last _ _ Hsp)). replace n with (Z.of_nat (Z.to_nat n)) by lia.
  apply blocks_chain. lia.
Qed.

(** Every input key is a leaf boundary of the spanning tree. *)
Lemma spanningTree_contains x : x ∈ keys -> x ∈ blocks spanOut n ++ [keyMax k].
Proof using Hsp.
  pose proof (sp_size _ _ Hsp) as Hsz. intros [i Hi]%elem_aget. pose proof (aget_Some_range _ _ _ Hi) as Hr.
  apply nthz_Some in Hi as <-.
  assert (Hgen : forall w : nat, i + Z.of_nat w = n -> K i ∈ blocks spanOut n ++ [keyMax k]).
  { assert (Hrest : forall w : nat, forall j, 0 <= j -> j + Z.of_nat w = n ->
      exists l1 l2, blocks spanOut n ++ [keyMax k] = l1 ++ K j :: l2).
    { induction w as [|w IH]; intros j Hj Hw.
      - exists (blocks spanOut n), []. replace j with n by lia. by rewrite (nthz_Some _ _ _ (sp_last _ _ Hsp)).
      - assert (Hsplit : blocks spanOut n = blocks spanOut j ++ spanOut j ++ concat (spanOut <$> seqZ (j + 1) (n - (j + 1)))).
        { rewrite app_assoc, <- blocks_succ by lia. unfold blocks. replace n with ((j + 1) + (n - (j + 1))) at 1 by lia.
          rewrite seqZ_app, fmap_app, concat_app by lia. by rewrite Z.add_0_l. }
        destruct (spanOut_chain j ltac:(lia)) as [_ Hc]. destruct (spanOut j) as [|y l] eqn:E.
        + inversion Hc as [x Hx|]. destruct (IH (j + 1) ltac:(lia) ltac:(lia)) as (l1 & l2 & El).
          exists l1, l2. rewrite El. congruence.
        + inversion Hc; subst. rewrite Hsplit. eexists _, _. rewrite <- app_assoc. reflexivity. }
    intros w Hw. destruct (Hrest w i ltac:(lia) Hw) as (l1 & l2 & ->). apply elem_of_app. right. by left. }
  apply (Hgen (Z.to_nat (n - i))). lia.
Qed.

End Spanning.

(** ** The invariant check *)

Lemma checkNode_leaf k tree i :
  csTree k tree -> 0 <= i < nNodes tree -> checkNode k tree (nNodes tree) i = Some true.
Proof.
  intros Ht Hi. kfacts k. destruct (cs_nodes k tree Ht i Hi) as (m & Hm & Ha & Hd & Hb & Hk).
  pose proof (pow8_le_keyMax k m Hm). unfold checkNode. rewrite !cs_get by lia. rewrite Hb.
  replace (nthz tree i + 8 ^ m - nthz tree i) with (8 ^ m) by lia. rewrite kwrap_small by lia. f_equal.
  rewrite (proj2 (isPowerOf8_iff k (8 ^ m) ltac:(lia))) by by exists m.
  replace (8 ^ m =? 0) with false by (symmetry; apply Z.eqb_neq; lia).
  replace (nthz tree i + 8 ^ m <=? nthz tree i) with false by (symmetry; apply Z.leb_gt; lia).
  by rewrite andb_false_r.
Qed.

(** Every cornerstone tree passes the check. *)
Lemma checkOctreeInvariants_csTree k tree :
  csTree k tree -> checkOctreeInvariants k tree (nNodes tree) = Some true.
Proof.
  intros Ht. pose proof (cs_nonempty k tree Ht) as Hn. unfold checkOctreeInvariants.
  destruct (Z.ltb_spec (nNodes tree) 1); [lia|].
  rewrite !cs_get by lia. rewrite (cs_first k tree Ht), (cs_last k tree Ht), nodeRange_0, !Z.eqb_refl. simpl.
  destruct (for_loop_inv (fun _ ok => ok = true) 0 (nNodes tree) (fun i (ok : bool) =>
    if ok then checkNode k tree (nNodes tree) i else Some false) true) as (t & Hrun & ->); [lia|done| |done].
  intros i t Hi ->. exists true. split; [by apply checkNode_leaf|done].
Qed.

(** ** Uniform trees *)

Lemma makeNLevelGrid_split k level :
  0 <= level <= maxTreeLevel k -> level <= 10 ->
  makeNLevelGrid k level = splitKeys 0 (keyMax k) (8 ^ level).
Proof.
  intros Hl Hl10. kfacts k. unfold makeNLevelGrid, splitKeys. rewrite Z.shiftl_1_l.
  assert (2 ^ level <= 2 ^ 10) by (apply Z.pow_le_mono_r; lia). assert (0 < 2 ^ level) by (apply Z.pow_pos_nonneg; lia).
  assert (8 ^ level = 2 ^ level * 2 ^ level * 2 ^ level) as E.
  { rewrite pow8_pow2 by lia. rewrite <- !Z.pow_add_r by lia. f_equal. lia. }
  change (2 ^ 10) with 1024 in *.
  rewrite !(u32_small (2 ^ level)), (u32_small (2 ^ level * 2 ^ level)), (u32_small (2 ^ level * 2 ^ level * 2 ^ level)) by nia.
  rewrite <- E, Z.sub_0_r. pose proof (pow8_le_keyMax k level Hl). rewrite kwrap_small by lia.
  rewrite nodeRange_pow8 by lia. apply list_fmap_ext. intros _ i Hi%list_elem_of_lookup_2.
  apply elem_of_seqZ in Hi. unfold keyMax. rewrite pow8_quot by lia. rewrite Z.add_0_l.
  pose proof (pow8_pos (maxTreeLevel k - level) ltac:(lia)).
  assert (8 ^ level * 8 ^ (maxTreeLevel k - level) = keyMax k).
  { unfold keyMax. rewrite <- Z.pow_add_r by lia. f_equal. lia. }
  apply kwrap_small. nia.
Qed.

(** A uniform grid of up to [8^10] nodes is a cornerstone tree once closed. *)
Lemma uniform_csTree k level :
  0 <= level <= maxTreeLevel k -> level <= 10 -> csTree k (makeNLevelGrid k level ++ [nodeRange k 0]).
Proof.
  intros Hl Hl10. kfacts k. rewrite makeNLevelGrid_split, nodeRange_0 by done. eexists. split; [done|].
  pose proof (splitKeys_chain k 0 (maxTreeLevel k) level Hl ltac:(lia) ltac:(lia) ltac:(apply Z.divide_0_r)) as Hc.
  rewrite Z.add_0_l in Hc. fold (keyMax k) in Hc. apply Hc. lia.
Qed.

(** ** Counting is complete *)

Lemma leafCounts_zsum k tree keys maxCount :
  csTree k tree -> sortedKeys k keys -> zlen keys <= maxCount -> zsum (leafCounts tree keys maxCount) = zlen keys.
Proof.
  intros Ht Hkeys Hle. pose proof (cs_nonempty k tree Ht) as Hn.
  pose proof (nodes_mono_le k _ _ (cs_nodes k tree Ht)) as Hmono.
  assert (Hgen : forall w : nat, Z.of_nat w <= nNodes tree ->
    zsum ((fun i => cappedCount keys (nthz tree i) (nthz tree (i + 1)) maxCount) <$> seqZ 0 (Z.of_nat w)) =
      count_lt (nthz tree (Z.of_nat w)) keys).
  { induction w as [|w IH]; intros Hw.
    - change (Z.of_nat 0) with 0. rewrite (cs_first k tree Ht). rewrite count_lt_none; [done|].
      eapply Forall_impl; [apply Hkeys|simpl; lia].
    - replace (Z.of_nat (S w)) with (Z.of_nat w + 1) by lia.
      rewrite seqZ_app, fmap_app, zsum_app, IH, Z.add_0_l by lia. cbn [seqZ]. simpl. unfold cappedCount.
      replace (Z.of_nat 0 + Z.of_nat w) with (Z.of_nat w) by lia.
      pose proof (count_lt_range (nthz tree (Z.of_nat w + 1)) keys). pose proof (count_lt_range (nthz tree (Z.of_nat w)) keys).
      pose proof (count_lt_mono _ _ keys (Hmono (Z.of_nat w) (Z.of_nat w + 1) ltac:(lia) ltac:(lia) ltac:(lia))). lia. }
  unfold leafCounts. replace (nNodes tree) with (Z.of_nat (Z.to_nat (nNodes tree))) by lia. rewrite Hgen by lia.
  rewrite Z2Nat.id, (cs_last k tree Ht) by lia. apply count_lt_all. eapply Forall_impl; [apply Hkeys|simpl; lia].
Qed.

(** ** Trees from hierarchical indices *)

(** The value of the first [n] indices as octal digits of a key. *)
Definition indexSum (k : KeyType) (indices : list Z) (n : Z) : Z := zsum ((fun i => nthz indices i * 8 ^ (maxTreeLevel k - 1 - i)) <$> seqZ 0 n).

Lemma indexSum_succ k indices n : 0 <= n -> indexSum k indices (n + 1) = indexSum k indices n + nthz indices n * 8 ^ (maxTreeLevel k - 1 - n).
Proof. intros Hn. unfold indexSum. rewrite seqZ_app, fmap_app, zsum_app by lia. f_equal. change (seqZ (0 + n) 1) with [0 + n]. rewrite Z.add_0_l. cbn [fmap list_fmap]. rewrite zsum_cons. cbn. lia. Qed.

Lemma indexSum_bound k indices n : 0 <= n <= maxTreeLevel k -> (forall i, 0 <= i < n -> 0 <= nthz indices i < 8) -> 0 <= indexSum k indices n <= 8 ^ maxTreeLevel k - 8 ^ (maxTreeLevel k - n).
Proof.
  intros [H0 Hn] Hi. revert Hn Hi. apply (natlike_ind (fun n => n <= maxTreeLevel k -> (forall i, 0 <= i < n -> 0 <= nthz indices i < 8) -> 0 <= indexSum k indices n <= 8 ^ maxTreeLevel k - 8 ^ (maxTreeLevel k - n))); [|clear n H0|done].
  - intros _ _. rewrite Z.sub_0_r, Z.sub_diag. done.
  - intros n H0 IH Hn Hi. destruct IH as [I1 I2]; [lia|intros i Hr; apply Hi; lia|]. replace (Z.succ n) with (n + 1) by lia. rewrite indexSum_succ by lia. pose proof (Hi n ltac:(lia)) as Hd. replace (maxTreeLevel k - (n + 1)) with (maxTreeLevel k - 1 - n) by lia. replace (maxTreeLevel k - n) with (Z.succ (maxTreeLevel k - 1 - n)) in I2 by lia. rewrite Z.pow_succ_r in I2 by lia. pose proof (pow8_pos (maxTreeLevel k - 1 - n) ltac:(lia)). nia.
Qed.

Lemma codeFromIndices_val k indices : maxTreeLevel k <= zlen indices -> Forall (fun i => 0 <= i < 8) indices -> codeFromIndices k indices = Some (indexSum k indices (maxTreeLevel k)).
Proof.
  intros Hz Hf. kfacts k. assert (HL : keyBits k / 3 = maxTreeLevel k) by by destruct k. assert (Hd : forall i, 0 <= i < zlen indices -> 0 <= nthz indices i < 8) by (intros i Hi; rewrite Forall_forall in Hf; apply Hf; eapply aget_elem, nthz_get; done).
  unfold codeFromIndices. rewrite HL. match goal with |- for_loop _ _ ?body _ = _ => destruct (for_loop_inv (fun i ret => ret = indexSum k indices i) 0 (maxTreeLevel k) body 0) as (r & E & ->) end; [lia|done| |exact E]. intros i ret Hi ->. rewrite (nthz_get indices i) by lia. cbn beta iota. rewrite (proj2 (Z.ltb_lt _ _) (proj2 (Hd i ltac:(lia)))). eexists. split; [done|].
  pose proof (indexSum_bound k indices (i + 1) ltac:(lia) ltac:(intros j Hj; apply Hd; lia)) as Hb. rewrite indexSum_succ in Hb |- * by lia. pose proof (indexSum_bound k indices i ltac:(lia) ltac:(intros j Hj; apply Hd; lia)) as Hb'. rewrite Z.shiftl_mul_pow2 by lia. replace (maxTreeLevel k - i - 1) with (maxTreeLevel k - 1 - i) by lia. rewrite <- pow8_pow2 by lia. pose proof (Hd i ltac:(lia)). pose proof (pow8_pos (maxTreeLevel k - 1 - i) ltac:(lia)). pose proof (pow8_pos (maxTreeLevel k - (i + 1)) ltac:(lia)). fold (keyMax k) in *. rewrite !kwrap_small; [done|nia|rewrite kwrap_small; nia].
Qed.

(** The code of a child. *)
Lemma indexSum_set k indices level v indices' n : aset indices level v = Some indices' -> nthz indices level = 0 -> 0 <= level < n -> n <= maxTreeLevel k -> indexSum k indices' n = indexSum k indices n + v * 8 ^ (maxTreeLevel k - 1 - level).
Proof.
  intros Hs H0 Hl Hn. assert (Hne : forall i, i <> level -> nthz indices' i = nthz indices i) by (intros i Hi; unfold nthz; by rewrite (aget_aset_ne _ _ _ _ _ Hs) by done). assert (He : nthz indices' level = v) by (apply nthz_Some; exact (aget_aset_eq _ _ _ _ Hs)).
  unfold indexSum. replace n with (level + (1 + (n - level - 1))) by lia. rewrite !seqZ_app, !fmap_app, !zsum_app by lia. change (seqZ (0 + level) 1) with [0 + level]. rewrite Z.add_0_l. cbn [fmap list_fmap]. rewrite !zsum_cons, He, H0. change (zsum (@nil Z)) with 0.
  assert (Hx : forall l, (forall i, i ∈ l -> i <> level) -> (fun i => nthz indices' i * 8 ^ (maxTreeLevel k - 1 - i)) <$> l = (fun i => nthz indices i * 8 ^ (maxTreeLevel k - 1 - i)) <$> l) by (intros l Hl'; apply list_fmap_ext; intros j i Hi; rewrite Hne; [done|]; by apply Hl', (list_elem_of_lookup_2 _ j)).
  rewrite (Hx (seqZ 0 level)), (Hx (seqZ (level + 1) (n - level - 1))) by (intros i Hi%elem_of_seqZ; lia). lia.
Qed.

Lemma makeTree_unique tree tree' : tree ≡ₚ tree' -> zsorted tree' -> makeTree tree = tree'.
Proof.
  intros Hp Hs. apply (StronglySorted_unique Z.le); [apply StronglySorted_merge_sort; intros x y; lia|by apply zsorted_StronglySorted|]. unfold makeTree. by rewrite merge_sort_Permutation.
Qed.

(** A leaf of a cornerstone array can be replaced by its eight children. *)
Lemma leaf_split k c m l1 l2 : 1 <= m <= maxTreeLevel k -> csTree k (l1 ++ c :: c + 8 ^ m :: l2) -> csTree k (l1 ++ splitKeys c (c + 8 ^ m) 8 ++ c + 8 ^ m :: l2).
Proof.
  intros Hm (l & El & Hc). set (d := c + 8 ^ m) in *. destruct (exists_last (l := d :: l2)) as (r & z & Er); [done|]. rewrite Er in El |- *. rewrite app_comm_cons, app_assoc in El. apply app_inj_tail in El as [<- ->]. apply cs_chain_app_inv in Hc as (b & H1 & H2). inversion H2 as [|? y ? ? Hn H3]; subst. destruct (chain_head k y r (keyMax k) H3) as (r' & Ey). rewrite <- Er in Ey. injection Ey as <- _.
  exists (l1 ++ splitKeys c d 8 ++ r). rewrite !app_assoc. split; [done|]. rewrite <- app_assoc. apply (cs_chain_app k 0 l1 c _ _ H1). apply (cs_chain_app k c _ d _ _); [|done]. destruct Hn as (n & Hn & Hb & Hd & Ed & Hk). unfold d in Ed. assert (Emn : n = m) by (apply (Z.pow_inj_r 8); lia). subst n. apply (splitKeys_chain k c m 1); (done || lia).
Qed.

(** Dividing a leaf: the seven new keys follow its first key. *)
Lemma divide_run k idx level tree c l1 l2 : csTree k (makeTree tree) -> maxTreeLevel k <= zlen idx -> Forall (fun i => 0 <= i < 8) idx -> 0 <= level < maxTreeLevel k -> nthz idx level = 0 ->
  codeFromIndices k idx = Some c -> makeTree tree = l1 ++ c :: c + 8 ^ (maxTreeLevel k - level) :: l2 ->
  exists tree', divide k idx level tree = Some tree' /\ makeTree tree' = l1 ++ splitKeys c (c + 8 ^ (maxTreeLevel k - level)) 8 ++ c + 8 ^ (maxTreeLevel k - level) :: l2 /\ csTree k (makeTree tree').
Proof.
  intros Hcs Hz Hf Hl H0 Ec Et. set (w := 8 ^ (maxTreeLevel k - 1 - level)). set (d := c + 8 ^ (maxTreeLevel k - level)) in *. pose proof (pow8_pos (maxTreeLevel k - 1 - level) ltac:(lia)) as Hw. fold w in Hw.
  assert (Ed : d = c + 8 * w) by (unfold d, w; replace (maxTreeLevel k - level) with (Z.succ (maxTreeLevel k - 1 - level)) by lia; rewrite Z.pow_succ_r by lia; lia). assert (Hp : makeTree tree ≡ₚ tree) by apply merge_sort_Permutation.
  assert (Hchild : forall v, 0 <= v < 8 -> exists idx', aset idx level v = Some idx' /\ codeFromIndices k idx' = Some (c + v * w)).
  { intros v Hv. pose proof (aset_Some idx level v ltac:(lia)) as Es. eexists. split; [exact Es|]. rewrite codeFromIndices_val; [|by rewrite (aset_zlen _ _ _ _ Es)|]; [rewrite (indexSum_set k idx level v _ (maxTreeLevel k) Es H0) by lia; rewrite codeFromIndices_val in Ec by done; injection Ec as <-; done|]. apply Forall_insert; [done|lia]. }
  assert (Hid : (fun i => wrap 8 i) <$> idx = idx). { rewrite <- (list_fmap_id idx) at 2. apply list_fmap_ext. intros j i Hi. rewrite Forall_forall in Hf. specialize (Hf i (list_elem_of_lookup_2 _ _ _ Hi)). apply wrap_small. cbn. lia. }
  assert (Hs : zsorted (l1 ++ c :: d :: l2)) by (rewrite <- Et; by apply (cs_sorted k)). apply zsorted_StronglySorted in Hs. apply StronglySorted_app in Hs as (Hx & _ & Hs). inversion Hs as [|? ? Hs' Hc']; subst. inversion Hs' as [|? ? _ Hd']; subst.
  assert (Hni : c + 1 * w ∉ tree). { rewrite <- Hp, Et. intros [Hin|[Hin|[Hin|Hin]%elem_of_cons]%elem_of_cons]%elem_of_app; [|lia|lia|]; [specialize (Hx _ c Hin (list_elem_of_here _ _)); lia|]. rewrite Forall_forall in Hd'. specialize (Hd' _ Hin). lia. }
  set (news := (fun j => c + j * w) <$> seqZ 1 7). assert (Ed' : divide k idx level tree = Some (tree ++ news)).
  { unfold divide. rewrite Hid, Ec. cbn beta iota. rewrite bool_decide_eq_true_2 by (rewrite <- Hp, Et; apply elem_of_app; right; apply elem_of_cons; by left). cbn [negb]. destruct (Hchild 1 ltac:(lia)) as (i1 & E1 & E1'). rewrite E1. cbn beta iota. rewrite E1'. cbn beta iota. rewrite bool_decide_eq_false_2 by done.
    match goal with |- for_loop _ _ ?body _ = _ => destruct (for_loop_inv (fun i t => t = tree ++ ((fun j => c + j * w) <$> seqZ 1 (i - 1))) 1 8 body tree) as (r & E & ->) end; [lia|by rewrite app_nil_r| |exact E]. intros i t Hi ->. destruct (Hchild i ltac:(lia)) as (i2 & E2 & E2').
    assert (E3 : aset i1 level i = Some i2). { apply aset_inv in E1 as [_ ->]. apply aset_inv in E2 as [_ ->]. rewrite aset_Some by (unfold zlen in *; rewrite length_insert; lia). by rewrite list_insert_insert_eq. } rewrite E3. cbn beta iota. rewrite E2'. eexists. split; [done|]. rewrite <- app_assoc. f_equal. replace (i + 1 - 1) with (i - 1 + 1) by lia. rewrite seqZ_app, fmap_app by lia. by replace (1 + (i - 1)) with i by lia. }
  exists (tree ++ news). split; [done|]. assert (Esp : splitKeys c d 8 = c :: news). { unfold splitKeys, news. rewrite Ed. replace (c + 8 * w - c) with (w * 8) by lia. rewrite Z.div_mul by lia. change (seqZ 0 8) with (0 :: seqZ 1 7). rewrite fmap_cons. f_equal. lia. }
  assert (Hcs' : csTree k (l1 ++ splitKeys c d 8 ++ d :: l2)) by (apply leaf_split; [lia|]; unfold d in *; by rewrite <- Et). assert (Em : makeTree (tree ++ news) = l1 ++ splitKeys c d 8 ++ d :: l2).
  { apply makeTree_unique; [|by apply (cs_sorted k)]. rewrite <- Hp, Et, Esp. rewrite <- app_assoc. f_equiv. cbn [app]. f_equiv. change (d :: l2 ++ news) with ((d :: l2) ++ news). apply Permutation_app_comm. }
  rewrite Em. done.
Qed.

Example divide_example : (let? tree := divide Key32 (replicate 21 0) 0 (makeRootNodeTree Key32) in let? tree := divide Key32 (3 :: replicate 20 0) 1 tree in Some (makeTree tree)) =
  Some ([0; 1 * 8 ^ 9; 2 * 8 ^ 9] ++ splitKeys (3 * 8 ^ 9) (4 * 8 ^ 9) 8 ++ [4 * 8 ^ 9; 5 * 8 ^ 9; 6 * 8 ^ 9; 7 * 8 ^ 9; 8 ^ 10]).
Proof. vm_compute. reflexivity. Qed.

(** The assertions accept a node that is not a leaf of the tree: the result is not a cornerstone array. *)
Example divide_inner : exists tree, divide Key32 (replicate 21 0) 1 (makeRootNodeTree Key32) = Some tree /\ checkOctreeInvariants Key32 (makeTree tree) (nNodes (makeTree tree)) = Some false.
Proof. eexists. split; [vm_compute; reflexivity|vm_compute; reflexivity]. Qed.
