(* ===== verification/TreeProperties.v ===== *)
(** * Properties of the leaf array

    The claims about [cstone/tree/csarray.hpp] and [cstone/tree/cs_util.hpp]. *)

From S2P Require Import Prelude Primitives SfcCommon Csarray CsInvariant CsRebalance CsCounts CsBuild CsUtil.

(** Largest value of [unsigned], the default [maxCount]. *)
Definition unsignedMax : Z := 4294967295.

(** C3: tree construction from sorted particle keys (with 32-bit keys at most 2^30 of them, the range of the guided
    search) terminates within 2 * maxTreeLevel + 1
    updates and returns a cornerstone octree with the exact particle count of every leaf
    (capped at [maxCount]); every leaf holds at most [bucketSize] particles or is on the last
    level, no eight sibling leaves hold at most [bucketSize] particles together, and the
    counts add up to the number of particles. *)
Theorem computeOctree_correct k keys bucketSize maxCount fuel :
  searchableKeys k keys -> zlen keys <= maxCount -> maxCount <= unsignedMax ->
  0 <= bucketSize -> bucketSize * 512 <= unsignedMax -> 2 * maxTreeLevel k < Z.of_nat fuel ->
  exists tree counts, computeOctree fuel k keys bucketSize maxCount = Some (tree, counts) /\
    csTree k tree /\ counts = leafCounts tree keys maxCount /\ zsum counts = zlen keys /\
    (forall i, 0 <= i < nNodes tree -> nthz counts i <= bucketSize \/ leafLevel k tree i = maxTreeLevel k) /\
    (forall g m, fullGroup k tree g m -> bucketSize < groupSum counts g).
Proof.
  unfold unsignedMax. intros [Hk Hs] Hle Hmax Hb Hb512 Hf. pose proof (zlen_nonneg keys).
  destruct (computeOctree_balanced k keys bucketSize maxCount Hk ltac:(lia) ltac:(lia) Hs fuel Hle Hf)
    as (tree & Hrun & Ht & Hcnt & Hgrp).
  exists tree, (leafCounts tree keys maxCount). repeat (split; [done|]). split; [by eapply leafCounts_zsum|done].
Qed.

Definition witnessKeys : list Z := [5; 6; 6; 70; 70; 300; 8 ^ 9; 8 ^ 9 + 1; 3 * 8 ^ 9 + 7; 8 ^ 10 - 1].

Lemma computeOctree_correct_witness :
  exists tree counts, computeOctree 21 Key32 witnessKeys 2 unsignedMax = Some (tree, counts) /\
    csTree Key32 tree /\ counts = leafCounts tree witnessKeys unsignedMax /\ zsum counts = zlen witnessKeys /\
    (forall i, 0 <= i < nNodes tree -> nthz counts i <= 2 \/ leafLevel Key32 tree i = maxTreeLevel Key32) /\
    (forall g m, fullGroup Key32 tree g m -> 2 < groupSum counts g).
Proof.
  apply (computeOctree_correct Key32 witnessKeys 2 unsignedMax 21);
    [apply searchableKeysb_sound; vm_compute; reflexivity|vm_compute; congruence..|vm_compute; reflexivity].
Defined.

(** C4: one [updateOctree] step on a cornerstone tree with a count per leaf (and at most 2^30 particles with 32-bit keys) stays inside its
    arrays, installs a cornerstone tree again, recomputes its counts exactly and reports
    convergence exactly when no decision changes a leaf, in which case the tree is
    unchanged. *)
Theorem updateOctree_invariant k keys bucketSize tree counts maxCount :
  csTree k tree -> zlen counts = nNodes tree -> Forall (fun c => 0 <= c <= unsignedMax) counts ->
  searchableKeys k keys -> 0 <= maxCount <= unsignedMax -> 0 <= bucketSize -> bucketSize * 512 <= unsignedMax ->
  exists converged tree', updateOctree k keys bucketSize tree counts maxCount =
      Some (converged, tree', leafCounts tree' keys maxCount) /\ csTree k tree' /\
    (converged = true <-> forall i, 0 <= i < nNodes tree -> calculateNodeOp k tree i counts bucketSize = Some 1) /\
    (converged = true -> tree' = tree).
Proof.
  unfold unsignedMax. intros Ht Hlen Hc Hk Hmax Hb Hb512.
  assert (rebalanceInput k tree counts bucketSize) as Hin.
  { split; [done|done| |lia]. eapply Forall_impl; [exact Hc|]. simpl. lia. }
  pose proof (cs_nonempty k tree Ht).
  eexists _, _. split; [by apply updateOctree_run; [| |lia]|]. split; [by apply nextTree_csTree|]. split.
  - rewrite forallb_forall. split.
    + intros Hall i Hi. destruct (nodeOp_cases _ _ _ _ Hin i Hi) as [-> _]. f_equal. symmetry. apply Z.eqb_eq, Hall.
      apply list_elem_of_In. eapply aget_elem, nthz_get. rewrite zlen_nodeOpsOf; lia.
    + intros Hall op [i Hi]%list_elem_of_In%elem_aget. pose proof (aget_Some_range _ _ _ Hi) as Hr.
      rewrite zlen_nodeOpsOf in Hr by lia. apply nthz_Some in Hi as <-.
      by rewrite (nthz_nodeOpsOf _ _ _ _ _ _ Hr (Hall i Hr)).
  - by apply nextTree_fixed.
Qed.

Lemma updateOctree_invariant_witness :
  exists converged tree', updateOctree Key32 witnessKeys 4 (makeRootNodeTree Key32) [10] 7 =
      Some (converged, tree', leafCounts tree' witnessKeys 7) /\ csTree Key32 tree' /\
    (converged = true <-> forall i, 0 <= i < nNodes (makeRootNodeTree Key32) ->
       calculateNodeOp Key32 (makeRootNodeTree Key32) i [10] 4 = Some 1) /\
    (converged = true -> tree' = makeRootNodeTree Key32).
Proof.
  apply (updateOctree_invariant Key32 witnessKeys 4 (makeRootNodeTree Key32) [10] 7).
  - apply root_csTree.
  - reflexivity.
  - repeat constructor; vm_compute; congruence.
  - apply searchableKeysb_sound. vm_compute. reflexivity.
  - vm_compute. split; congruence.
  - lia.
  - vm_compute. congruence.
Defined.

(** C35: the leaf counts do not depend on the guesses nor on the scheduling of the parallel
    loop: with or without guesses, whatever the count array held before and in every order in
    which the iterations take effect, [computeNodeCounts] stays inside its arrays and stores
    for every leaf the number of keys in its range, capped at [maxCount].  The guided search doubles its step in the signed
    type of the key's width, so that with guesses there may be at most 2^30 keys of 32 bits (2^62 keys of 64 bits). *)
Theorem computeNodeCounts_any_order k tree keys maxCount order counts useGuess :
  csTree k tree -> sortedKeys k keys -> (useGuess = true -> zlen keys <= 2 ^ (keyBits k - 2)) -> 0 <= maxCount <= unsignedMax -> zlen counts = nNodes tree ->
  (forall m, 0 <= m -> order m ≡ₚ seqZ 0 m) ->
  computeNodeCountsOrder order k tree counts (nNodes tree) keys maxCount useGuess =
    Some ((fun i => Z.min (count_lt (nthz tree (i + 1)) keys - count_lt (nthz tree i) keys) maxCount)
            <$> seqZ 0 (nNodes tree)).
Proof. unfold unsignedMax. intros. by apply computeNodeCountsOrder_spec; [| |lia| | |]. Qed.

Lemma computeNodeCounts_any_order_witness :
  computeNodeCountsOrder (fun m => reverse (seqZ 0 m)) Key32 (makeNLevelGrid Key32 1 ++ [nodeRange Key32 0])
    [9; 4294967295; 0; 3; 17; 0; 0; 1] 8 witnessKeys 5 true =
    Some ((fun i => Z.min (count_lt (nthz (makeNLevelGrid Key32 1 ++ [nodeRange Key32 0]) (i + 1)) witnessKeys -
                           count_lt (nthz (makeNLevelGrid Key32 1 ++ [nodeRange Key32 0]) i) witnessKeys) 5) <$> seqZ 0 8).
Proof.
  apply (computeNodeCounts_any_order Key32 (makeNLevelGrid Key32 1 ++ [nodeRange Key32 0]) witnessKeys 5
    (fun m => reverse (seqZ 0 m)) [9; 4294967295; 0; 3; 17; 0; 0; 1] true).
  - apply uniform_csTree; vm_compute; [split|]; congruence.
  - apply sortedKeysb_sound. vm_compute. reflexivity.
  - intros _. vm_compute. congruence.
  - vm_compute. split; congruence.
  - reflexivity.
  - intros m _. apply reverse_Permutation.
Defined.

(** C34: [rebalanceTree] implements its reference semantics: on a key sequence that covers
    [a, b) and executable decisions (0, or [8^j] for a leaf at least [j] levels above the
    last one), the scatter through the scanned decisions writes the concatenation of what
    each leaf contributes and the closing key, whatever [newTree] held before. *)
Theorem rebalanceTree_refines k tree a b old ops last :
  treelet k a tree b -> opsFit k tree ops ->
  exists scanned, rebalanceTree k tree old (ops ++ [last]) =
    Some (concat ((fun i => splitKeys (nthz tree i) (nthz tree (i + 1)) (nthz ops i)) <$> seqZ 0 (nNodes tree)) ++ [b],
          scanned) /\
    forall i, 0 <= i <= nNodes tree -> scanned.[i] = Some (zsum (take (Z.to_nat i) ops)).
Proof.
  intros Ht Hfit. eexists. split.
  - rewrite (rebalanceTree_spec k tree a b old ops last []) by done. unfold newLeaves, leafOutput.
    by rewrite Z.sub_0_r.
  - intros i Hi. pose proof Hfit as [Hlen _]. rewrite app_nil_r.
    rewrite exclusive_scan_get by (rewrite zlen_app; change (zlen [last]) with 1; lia).
    by rewrite prefixSum_app_l by lia.
Qed.

Lemma rebalanceTree_refines_witness :
  exists scanned, rebalanceTree Key32 [0; 8 ^ 9; 2 * 8 ^ 9] [7; 7] ([8; 1] ++ [0]) =
    Some (concat ((fun i => splitKeys (nthz [0; 8 ^ 9; 2 * 8 ^ 9] i) (nthz [0; 8 ^ 9; 2 * 8 ^ 9] (i + 1))
                              (nthz [8; 1] i)) <$> seqZ 0 2) ++ [2 * 8 ^ 9], scanned) /\
    forall i, 0 <= i <= 2 -> scanned.[i] = Some (zsum (take (Z.to_nat i) [8; 1])).
Proof.
  apply (rebalanceTree_refines Key32 [0; 8 ^ 9; 2 * 8 ^ 9] 0 (2 * 8 ^ 9) [7; 7] [8; 1] 0).
  - apply treeletb_iff. vm_compute. reflexivity.
  - split; [reflexivity|]. intros i Hi. assert (i = 0 \/ i = 1) as [-> | ->] by (unfold nNodes, zlen in Hi; simpl in Hi; lia).
    + exists 9. split; [vm_compute; split; congruence|]. split; [reflexivity|]. right. exists 1. vm_compute. repeat split; congruence.
    + exists 9. split; [vm_compute; split; congruence|]. split; [reflexivity|]. right. exists 0. vm_compute. repeat split; congruence.
Defined.

(** The guided search is equivalent to a search of the whole key array: from every
    guess, also one outside of the array, the loop ends and the bounds it returns enclose the
    position that [lower_bound] finds in the whole array; no signed number overflows. *)
Theorem findSearchBounds_equivalent k codes firstIdx target :
  searchableKeys k codes -> 0 <= target ->
  exists lo hi, findSearchBounds k firstIdx target codes = Some (lo, hi) /\
    0 <= lo <= hi /\ hi <= zlen codes /\
    lower_bound codes lo hi target = lower_bound codes 0 (zlen codes) target.
Proof.
  intros [Hk Hs] Ht. destruct (findSearchBounds_spec k codes Hk Hs firstIdx target Ht) as (lo & hi & E & H1 & H2 & H3).
  exists lo, hi. split; [done|]. split; [lia|]. split; [done|].
  rewrite (lower_bound_subrange k codes Hk) by done. symmetry. apply lower_bound_count, Hk.
Qed.

Lemma findSearchBounds_equivalent_witness :
  exists lo hi, findSearchBounds Key32 (-3) 71 witnessKeys = Some (lo, hi) /\
    0 <= lo <= hi /\ hi <= zlen witnessKeys /\
    lower_bound witnessKeys lo hi 71 = lower_bound witnessKeys 0 (zlen witnessKeys) 71.
Proof.
  apply (findSearchBounds_equivalent Key32 witnessKeys (-3) 71);
    [apply searchableKeysb_sound; vm_compute; reflexivity|lia].
Defined.

(** With 2^31 or more keys of 32 bits the signed number of keys is negative: the search leaves the key array (or overflows) for
    every guess and every target on the curve. *)
Theorem findSearchBounds_overflow codes firstIdx target :
  2 ^ 31 <= zlen codes < 2 ^ 32 -> target < keyMax Key32 -> findSearchBounds Key32 firstIdx target codes = None.
Proof.
  intros Hz Ht. unfold findSearchBounds. cbn [keyBits].
  assert (Ew : swrap 32 (zlen codes) = zlen codes - 2 ^ 32).
  { unfold swrap. rewrite <- (Z.mod_unique (zlen codes + 2 ^ (32 - 1)) (2 ^ 32) 1 (zlen codes - 2 ^ 31)); [|left|]; change (2 ^ (32 - 1)) with (2 ^ 31); lia. }
  rewrite Ew. destruct (Z.eqb_spec (zlen codes - 2 ^ 32) 0); [lia|]. unfold sint. cbn [keyBits]. change (2 ^ (32 - 1)) with (2 ^ 31).
  destruct (_ && _); [|done]. rewrite nodeRange_0. destruct (Z.leb_spec (keyMax Key32) target); [lia|]. rewrite stl_min_min.
  assert (E : codes.[Z.min (zlen codes - 2 ^ 32 - 1) (stl_max firstIdx 0)] = None) by (apply aget_None; lia). by rewrite E.
Qed.

(** [computeSpanningTree] returns a cornerstone octree that has every input key as a
    leaf boundary, for sorted input that spans the curve; duplicate keys are allowed. *)
Theorem computeSpanningTree_correct k keys :
  1 < zlen keys -> keys.[0] = Some 0 -> keys.[zlen keys - 1] = Some (keyMax k) -> zsorted keys ->
  exists tree, computeSpanningTree k keys = Some tree /\ csTree k tree /\ (forall x, x ∈ keys -> x ∈ tree).
Proof.
  intros H1 H2 H3 H4. assert (spanningKeys_ok k keys) as Hsp by done.
  eexists. split; [by apply computeSpanningTree_run|]. split; [by apply spanningTree_csTree|].
  intros x. by apply spanningTree_contains.
Qed.

Lemma computeSpanningTree_correct_witness :
  exists tree, computeSpanningTree Key64 [0; 77; 77; 8 ^ 20 + 1; 8 ^ 21] = Some tree /\ csTree Key64 tree /\
    (forall x, x ∈ [0; 77; 77; 8 ^ 20 + 1; 8 ^ 21] -> x ∈ tree).
Proof.
  apply (computeSpanningTree_correct Key64 [0; 77; 77; 8 ^ 20 + 1; 8 ^ 21]);
    [reflexivity|reflexivity|reflexivity|apply zsortedb_sound; vm_compute; reflexivity].
Defined.

(** The invariant check accepts every cornerstone octree. *)
Theorem checkOctreeInvariants_complete k tree :
  csTree k tree -> checkOctreeInvariants k tree (nNodes tree) = Some true.
Proof. apply checkOctreeInvariants_csTree. Qed.

Lemma checkOctreeInvariants_complete_witness :
  checkOctreeInvariants Key32 (makeNLevelGrid Key32 2 ++ [nodeRange Key32 0]) 64 = Some true.
Proof.
  apply (checkOctreeInvariants_complete Key32 (makeNLevelGrid Key32 2 ++ [nodeRange Key32 0])).
  apply uniform_csTree; vm_compute; [split|]; congruence.
Defined.

(** Sixteen sorted keys with power-of-eight distances whose nodes are not octree nodes. *)
Definition misalignedTree : list Z :=
  [0] ++ ((fun i => 8 ^ 8 + i * 8 ^ 9) <$> seqZ 0 8) ++ ((fun i => 7 * 8 ^ 9 + 8 ^ 8 + i * 8 ^ 8) <$> seqZ 1 7).

(** The three conditions that the check tests (first and last key, sortedness,
    power-of-eight distances) do not imply the octree structure: a sequence of misaligned
    nodes is accepted although its second node is not a node of the octree. *)
Theorem checkOctreeInvariants_accepts_misaligned :
  checkOctreeInvariants Key32 misalignedTree (nNodes misalignedTree) = Some true /\
  ~ csTree Key32 misalignedTree /\ ~ isNode Key32 (nthz misalignedTree 1) (nthz misalignedTree 2).
Proof.
  split; [vm_compute; reflexivity|]. split.
  - intros H%treeletb_iff. vm_compute in H. congruence.
  - intros H%isNodeb_iff. vm_compute in H. congruence.
Qed.

(** the bound on the bucket size is needed: with [bucketSize = 2^23] the 32-bit product
    [bucketSize * 512] wraps to 0, so that one update of eight nearly empty leaves splits the
    first leaf and removes its seven siblings, and the result is not an octree. *)
Theorem updateOctree_bucket_overflow :
  exists converged tree' counts',
    updateOctree Key32 [] (2 ^ 23) (makeNLevelGrid Key32 1 ++ [nodeRange Key32 0]) (replicate 8 1) unsignedMax =
      Some (converged, tree', counts') /\
    zlen tree' = 4097 /\ checkOctreeInvariants Key32 tree' (nNodes tree') = Some false /\ ~ csTree Key32 tree'.
Proof.
  assert (H : match updateOctree Key32 [] (2 ^ 23) (makeNLevelGrid Key32 1 ++ [nodeRange Key32 0])
                      (replicate 8 1) unsignedMax with
              | Some (_, t, _) => (zlen t =? 4097) && bool_decide (checkOctreeInvariants Key32 t (nNodes t) = Some false)
              | None => false
              end = true) by (vm_compute; reflexivity).
  destruct (updateOctree Key32 [] _ _ _ _) as [[[c t] cs]|]; [|done].
  apply andb_true_iff in H as [Hz%Z.eqb_eq Hck%bool_decide_eq_true]. exists c, t, cs.
  repeat (split; [done|]). intros H. apply checkOctreeInvariants_csTree in H. congruence.
Qed.

(** [updateTreelet] reads outside of its treelet: for a single leaf that starts at
    octal digit 3 the sibling test accesses three keys before the first one. *)
Theorem updateTreelet_out_of_bounds :
  treelet Key32 (3 * 8 ^ 9) [3 * 8 ^ 9; 4 * 8 ^ 9] (4 * 8 ^ 9) /\
  octalDigit Key32 (3 * 8 ^ 9) 1 = 3 /\ updateTreelet Key32 [3 * 8 ^ 9; 4 * 8 ^ 9] [1] 64 = None.
Proof. split; [apply treeletb_iff; vm_compute; reflexivity|]. split; vm_compute; reflexivity. Qed.
