(* ===== verification/SfcBox.v ===== *)
(** * Integer boxes and periodic wrap-around

    The integer part of [cstone/sfc/box.hpp]: [pbcAdjust], [pbcDistance] and [IBox], the
    half-open integer boxes of octree cells. *)

From S2P Require Import Prelude Primitives.

(** [-R / 2] and [R / 2] are C++ integer divisions, which truncate. *)
Definition pbcAdjust (R x : Z) : Z :=
  let ret := if x <? 0 then x + R else x in
  if R <=? ret then ret - R else ret.

Definition pbcDistance (x R : Z) : Z :=
  let ret := if x <=? Z.quot (- R) 2 then x + R else x in
  if Z.quot R 2 <? ret then ret - R else ret.

Record IBox := mkIBox { xmin : Z; xmax : Z; ymin : Z; ymax : Z; zmin : Z; zmax : Z }.

#[export] Instance IBox_eq_dec : EqDecision IBox.
Proof. solve_decision. Defined.

Definition minExtent (b : IBox) : Z :=
  stl_min (stl_min (xmax b - xmin b) (ymax b - ymin b)) (zmax b - zmin b).

(** Lexicographic order of [operator<]. *)
Definition lexlt (l : list (Z * Z)) : bool :=
  foldr (fun p r => (fst p <? snd p) || ((fst p =? snd p) && r)) false l.

Definition IBox_lt (a b : IBox) : bool :=
  lexlt [(xmin a, xmin b); (xmax a, xmax b); (ymin a, ymin b); (ymax a, ymax b); (zmin a, zmin b); (zmax a, zmax b)].

(** An integer point in a half-open box. *)
Definition inIBox (b : IBox) (p : Z * Z * Z) : Prop :=
  let '(x, y, z) := p in xmin b <= x < xmax b /\ ymin b <= y < ymax b /\ zmin b <= z < zmax b.

Lemma pbcAdjust_mod R x : 0 < R -> - R <= x < 2 * R -> pbcAdjust R x = x mod R.
Proof.
  intros HR Hx. unfold pbcAdjust.
  pose proof (Z.mod_unique_pos x R (-1) (x + R)). pose proof (Z.mod_unique_pos x R 0 x).
  pose proof (Z.mod_unique_pos x R 1 (x - R)). repeat zcase; lia.
Qed.

(** The shortest representative: congruent to [x] and within half a period. *)
Lemma pbcDistance_shortest R x :
  0 < R -> Z.even R = true -> - R <= x <= R ->
  (R | pbcDistance x R - x) /\ - R / 2 < pbcDistance x R <= R / 2.
Proof.
  intros HR [h ->]%Z.even_spec Hx. unfold pbcDistance.
  assert (Z.quot (- (2 * h)) 2 = - h) as -> by (replace (- (2 * h)) with (- h * 2) by lia; apply Z.quot_mul; lia).
  assert (Z.quot (2 * h) 2 = h) as -> by (rewrite Z.mul_comm; apply Z.quot_mul; lia).
  assert (- (2 * h) / 2 = - h) as -> by (replace (- (2 * h)) with (- h * 2) by lia; apply Z.div_mul; lia).
  assert (2 * h / 2 = h) as -> by (rewrite Z.mul_comm; apply Z.div_mul; lia).
  assert (Hd : forall d, d = -1 \/ d = 0 \/ d = 1 -> (2 * h | d * (2 * h))) by (intros; by exists d).
  pose proof (Hd (-1) ltac:(lia)). pose proof (Hd 0 ltac:(lia)). pose proof (Hd 1 ltac:(lia)).
  repeat zcase; split; try lia.
  all: match goal with |- (_ | ?e) => first [replace e with (0 * (2 * h)) by lia; done|
    replace e with (1 * (2 * h)) by lia; done|replace e with (-1 * (2 * h)) by lia; done] end.
Qed.

(** With [R = 0] (open boundaries) the distance is unchanged. *)
Lemma pbcDistance_open x : pbcDistance x 0 = x.
Proof. unfold pbcDistance. simpl. repeat zcase; lia. Qed.
