(* ===== verification/Morton.v ===== *)
(** * Morton keys

    [cstone/sfc/morton.hpp]: bit expansion and compaction by masks and shifts for both key
    widths, encoding and decoding of integer coordinates, and the boxes of octree cells. *)

From S2P Require Import Prelude Primitives SfcCommon SfcBox.

Definition expandBits32 (v : Z) : Z :=
  let v := Z.land v 0x000003ff in
  let v := Z.land (u32 (v * 0x00010001)) 0xFF0000FF in
  let v := Z.land (u32 (v * 0x00000101)) 0x0F00F00F in
  let v := Z.land (u32 (v * 0x00000011)) 0xC30C30C3 in
  Z.land (u32 (v * 0x00000005)) 0x49249249.

Definition compactBits32 (v : Z) : Z :=
  let v := Z.land v 0x09249249 in
  let v := Z.land (Z.lxor v (Z.shiftr v 2)) 0x030c30c3 in
  let v := Z.land (Z.lxor v (Z.shiftr v 4)) 0x0300f00f in
  let v := Z.land (Z.lxor v (Z.shiftr v 8)) 0xff0000ff in
  Z.land (Z.lxor v (Z.shiftr v 16)) 0x000003ff.

Definition expandBits64 (v : Z) : Z :=
  let x := Z.land v 0x1fffff in
  let x := Z.land (Z.lor x (u64 (Z.shiftl x 32))) 0x001f00000000ffff in
  let x := Z.land (Z.lor x (u64 (Z.shiftl x 16))) 0x001f0000ff0000ff in
  let x := Z.land (Z.lor x (u64 (Z.shiftl x 8))) 0x100f00f00f00f00f in
  let x := Z.land (Z.lor x (u64 (Z.shiftl x 4))) 0x10c30c30c30c30c3 in
  Z.land (Z.lor x (u64 (Z.shiftl x 2))) 0x1249249249249249.

Definition compactBits64 (v : Z) : Z :=
  let v := Z.land v 0x1249249249249249 in
  let v := Z.land (Z.lxor v (Z.shiftr v 2)) 0x10c30c30c30c30c3 in
  let v := Z.land (Z.lxor v (Z.shiftr v 4)) 0x100f00f00f00f00f in
  let v := Z.land (Z.lxor v (Z.shiftr v 8)) 0x001f0000ff0000ff in
  let v := Z.land (Z.lxor v (Z.shiftr v 16)) 0x001f00000000ffff in
  Z.land (Z.lxor v (Z.shiftr v 32)) 0x00000000001fffff.

(** Overload selected by the key type. *)
Definition expandBits (k : KeyType) (v : Z) : Z :=
  match k with Key32 => expandBits32 v | Key64 => expandBits64 v end.

Definition compactBits (k : KeyType) (v : Z) : Z :=
  match k with Key32 => compactBits32 v | Key64 => compactBits64 v end.

Definition iMorton (k : KeyType) (ix iy iz : Z) : Z :=
  let xx := expandBits k ix in
  let yy := expandBits k iy in
  let zz := expandBits k iz in
  kwrap k (xx * 4 + yy * 2 + zz).

Definition iMortonLevel (k : KeyType) (ix iy iz treeLevel : Z) : Z :=
  let shifts := u32 (maxTreeLevel k - treeLevel) in
  iMorton k (u32 (Z.shiftl ix shifts)) (u32 (Z.shiftl iy shifts)) (u32 (Z.shiftl iz shifts)).

Definition idecodeMortonX (k : KeyType) (code : Z) : Z := u32 (compactBits k (Z.shiftr code 2)).
Definition idecodeMortonY (k : KeyType) (code : Z) : Z := u32 (compactBits k (Z.shiftr code 1)).
Definition idecodeMortonZ (k : KeyType) (code : Z) : Z := u32 (compactBits k code).

Definition decodeMorton (k : KeyType) (code : Z) : Z * Z * Z :=
  (idecodeMortonX k code, idecodeMortonY k code, idecodeMortonZ k code).

(** [IBox] takes signed integers. *)
Definition mortonIBox (k : KeyType) (keyStart level : Z) : IBox :=
  let cubeLength := u32 (Z.shiftl 1 (u32 (maxTreeLevel k - level))) in
  let '(ix, iy, iz) := decodeMorton k keyStart in
  mkIBox (i32 ix) (i32 (u32 (ix + cubeLength))) (i32 iy) (i32 (u32 (iy + cubeLength)))
         (i32 iz) (i32 (u32 (iz + cubeLength))).

Definition mortonIBoxKeys (k : KeyType) (keyStart keyEnd : Z) : IBox :=
  mortonIBox k keyStart (treeLevel k (kwrap k (keyEnd - keyStart))).

(** ** Functions that are linear in the bits of the argument *)

(** Sum of the weights of the bits of [x] below [n]. *)
Definition bitsum (w : Z -> Z) (n x : Z) : Z := zsum ((fun i => Z.b2z (Z.testbit x i) * w i) <$> seqZ 0 n).

Lemma bitsum_succ w n x : 0 <= n -> bitsum w (n + 1) x = bitsum w n x + Z.b2z (Z.testbit x n) * w n.
Proof.
  intros. unfold bitsum. rewrite seqZ_app, fmap_app, zsum_app by lia. simpl.
  replace (Z.of_nat 0 + (0 + n)) with n by lia. lia.
Qed.

Lemma bitsum_ext w w' n x y :
  (forall i, 0 <= i < n -> Z.testbit x i = Z.testbit y i) -> (forall i, 0 <= i < n -> w i = w' i) ->
  bitsum w n x = bitsum w' n y.
Proof.
  intros Hb Hw. unfold bitsum. f_equal. apply list_fmap_ext. intros _ i Hi%list_elem_of_lookup_2.
  apply elem_of_seqZ in Hi. by rewrite Hb, Hw by lia.
Qed.

(** Split off the lowest bit. *)
Lemma bitsum_low w n x :
  0 <= n -> bitsum w (n + 1) x = Z.b2z (Z.odd x) * w 0 + bitsum (fun i => w (i + 1)) n (x / 2).
Proof.
  intros. unfold bitsum. rewrite seqZ_cons by lia. replace (Z.pred (n + 1)) with n by lia.
  cbn [fmap list_fmap]. rewrite zsum_cons, Z.bit0_odd. f_equal. f_equal.
  change (Z.succ 0) with (1 + 0). rewrite <- (fmap_add_seqZ 1 0 n), <- list_fmap_compose. apply list_fmap_ext.
  intros _ i Hi%list_elem_of_lookup_2. apply elem_of_seqZ in Hi. simpl.
  rewrite Z.div2_bits by lia. by rewrite (Z.add_comm 1), <- Z.add_1_r.
Qed.

Lemma bitsum_scale c w n x : bitsum (fun i => c * w i) n x = c * bitsum w n x.
Proof.
  unfold bitsum. induction (seqZ 0 n) as [|i l IH]; cbn [fmap list_fmap]; rewrite ?zsum_cons; [simpl; lia|].
  rewrite IH. lia.
Qed.

Lemma land_low_bit n x : 0 <= n -> Z.land (x mod 2 ^ n) (Z.b2z (Z.testbit x n) * 2 ^ n) = 0.
Proof.
  intros Hn. destruct (Z.testbit x n); simpl; [|by rewrite Z.mul_0_l, Z.land_0_r].
  rewrite Z.mul_1_l, Z.land_comm. apply land_pow2_small; [done|]. apply Z.mod_pos_bound, Z.pow_pos_nonneg; lia.
Qed.

Lemma mod_pow2_succ n x : 0 <= n -> x mod 2 ^ (n + 1) = x mod 2 ^ n + Z.b2z (Z.testbit x n) * 2 ^ n.
Proof.
  intros Hn. rewrite Z.pow_add_r by lia. rewrite Z.rem_mul_r by (try apply Z.pow_nonzero; lia).
  rewrite Z.testbit_eqb by lia. rewrite Z.pow_1_r, Z.mul_comm.
  pose proof (Z.mod_pos_bound (x / 2 ^ n) 2 ltac:(lia)). destruct (Z.eqb_spec ((x / 2 ^ n) mod 2) 1); simpl; nia.
Qed.

(** A function that adds up over disjoint bits is the sum of the weights of the bits. *)
Lemma linear_bitsum f w (n : nat) :
  f 0 = 0 ->
  (forall a b, 0 <= a -> 0 <= b -> Z.land a b = 0 -> Z.land (f a) (f b) = 0 -> f (a + b) = f a + f b) ->
  (forall i, 0 <= i < Z.of_nat n -> f (2 ^ i) = w i) ->
  (forall i x, 0 <= i < Z.of_nat n -> Z.land (bitsum w i x) (w i) = 0) ->
  forall x, f (x mod 2 ^ Z.of_nat n) = bitsum w (Z.of_nat n) x.
Proof.
  intros H0 Hadd Hw Hdisj. induction n as [|n IH]; intros x.
  { simpl. by rewrite Z.mod_1_r. }
  replace (Z.of_nat (S n)) with (Z.of_nat n + 1) by lia. rewrite mod_pow2_succ, bitsum_succ by lia.
  rewrite <- IH; [|intros; apply Hw; lia|intros; apply Hdisj; lia].
  assert (0 <= x mod 2 ^ Z.of_nat n) by (apply Z.mod_pos_bound, Z.pow_pos_nonneg; lia).
  pose proof (land_low_bit (Z.of_nat n) x ltac:(lia)) as Hl.
  assert (0 < 2 ^ Z.of_nat n) by (apply Z.pow_pos_nonneg; lia).
  destruct (Z.testbit x (Z.of_nat n)) eqn:E; cbn [Z.b2z] in *; [|by rewrite !Z.mul_0_l, !Z.add_0_r].
  rewrite Z.mul_1_l in *. rewrite Hadd; [rewrite Hw by lia; lia|lia|lia|done|].
  rewrite Hw by lia. rewrite IH; [apply Hdisj; lia|intros; apply Hw; lia|intros; apply Hdisj; lia].
Qed.

Lemma bitsum_bound (B w : Z -> Z) (n : nat) x :
  0 < B 0 -> (forall i, 0 <= i < Z.of_nat n -> 0 <= w i /\ B i + w i <= B (i + 1)) ->
  0 <= bitsum w (Z.of_nat n) x < B (Z.of_nat n).
Proof.
  intros HB Hw. induction n as [|n IH]; [done|].
  specialize (IH ltac:(intros; apply Hw; lia)). destruct (Hw (Z.of_nat n) ltac:(lia)).
  replace (Z.of_nat (S n)) with (Z.of_nat n + 1) by lia. rewrite bitsum_succ by lia.
  destruct (Z.testbit x (Z.of_nat n)); simpl; lia.
Qed.

(** *** Bit homomorphisms *)

Definition lor_hom (f : Z -> Z) : Prop := forall a b, 0 <= a -> 0 <= b -> f (Z.lor a b) = Z.lor (f a) (f b).
Definition lxor_hom (f : Z -> Z) : Prop := forall a b, 0 <= a -> 0 <= b -> f (Z.lxor a b) = Z.lxor (f a) (f b).

Lemma lor_hom_add f a b :
  lor_hom f -> 0 <= a -> 0 <= b -> Z.land a b = 0 -> Z.land (f a) (f b) = 0 -> f (a + b) = f a + f b.
Proof.
  intros Hf Ha Hb H1 H2. rewrite !Z.add_nocarry_lxor, !Z.lxor_lor by done. by apply Hf.
Qed.

Lemma lxor_hom_add f a b :
  lxor_hom f -> 0 <= a -> 0 <= b -> Z.land a b = 0 -> Z.land (f a) (f b) = 0 -> f (a + b) = f a + f b.
Proof. intros Hf Ha Hb H1 H2. rewrite !Z.add_nocarry_lxor by done. by apply Hf. Qed.

Lemma u64_land x : u64 x = Z.land x (Z.ones 64).
Proof. unfold u64, wrap. by rewrite Z.land_ones by lia. Qed.

(** One step [x = (x | x << s) & m] of an expansion, [v = (v ^ v >> s) & m] of a compaction. *)
Definition expandStep (s m x : Z) : Z := Z.land (Z.lor x (u64 (Z.shiftl x s))) m.
Definition compactStep (s m v : Z) : Z := Z.land (Z.lxor v (Z.shiftr v s)) m.

Lemma expandStep_lor s m a b : 0 <= s -> expandStep s m (Z.lor a b) = Z.lor (expandStep s m a) (expandStep s m b).
Proof.
  intros Hs. unfold expandStep. rewrite !u64_land. apply Z.bits_inj'. intros i Hi.
  rewrite !Z.lor_spec, !Z.land_spec, !Z.lor_spec, !Z.land_spec, !Z.shiftl_spec, !Z.lor_spec by lia.
  by destruct (Z.testbit a i), (Z.testbit b i), (Z.testbit m i), (Z.testbit (Z.ones 64) i),
    (Z.testbit a (i - s)), (Z.testbit b (i - s)).
Qed.

Lemma compactStep_lxor s m a b : 0 <= s -> compactStep s m (Z.lxor a b) = Z.lxor (compactStep s m a) (compactStep s m b).
Proof.
  intros Hs. unfold compactStep. apply Z.bits_inj'. intros i Hi.
  rewrite !Z.lxor_spec, !Z.land_spec, !Z.lxor_spec, !Z.shiftr_spec, !Z.lxor_spec by lia.
  by destruct (Z.testbit a i), (Z.testbit b i), (Z.testbit m i), (Z.testbit a (i + s)), (Z.testbit b (i + s)).
Qed.

Lemma land_lxor_distr a b m : Z.land (Z.lxor a b) m = Z.lxor (Z.land a m) (Z.land b m).
Proof.
  apply Z.bits_inj'. intros i Hi. rewrite !Z.lxor_spec, !Z.land_spec, Z.lxor_spec.
  by destruct (Z.testbit a i), (Z.testbit b i), (Z.testbit m i).
Qed.

Lemma expandBits64_steps v :
  expandBits64 v = expandStep 2 0x1249249249249249 (expandStep 4 0x10c30c30c30c30c3 (expandStep 8 0x100f00f00f00f00f
    (expandStep 16 0x001f0000ff0000ff (expandStep 32 0x001f00000000ffff (Z.land v 0x1fffff))))).
Proof. reflexivity. Qed.

Lemma compactBits64_steps v :
  compactBits64 v = compactStep 32 0x1fffff (compactStep 16 0x001f00000000ffff (compactStep 8 0x001f0000ff0000ff
    (compactStep 4 0x100f00f00f00f00f (compactStep 2 0x10c30c30c30c30c3 (Z.land v 0x1249249249249249))))).
Proof. reflexivity. Qed.

Lemma compactBits32_steps v :
  compactBits32 v = compactStep 16 0x3ff (compactStep 8 0xff0000ff (compactStep 4 0x0300f00f
    (compactStep 2 0x030c30c3 (Z.land v 0x09249249)))).
Proof. reflexivity. Qed.

Lemma expandBits64_hom : lor_hom expandBits64.
Proof. intros a b _ _. rewrite !expandBits64_steps, Z.land_lor_distr_l. by rewrite !expandStep_lor by lia. Qed.

Lemma compactBits_hom k : lxor_hom (compactBits k).
Proof.
  intros a b _ _. destruct k; cbn [compactBits].
  - rewrite !compactBits32_steps, land_lxor_distr. by rewrite !compactStep_lxor by lia.
  - rewrite !compactBits64_steps, land_lxor_distr. by rewrite !compactStep_lxor by lia.
Qed.

(** ** Interleaving as arithmetic *)

(** Bit [i] of [x] becomes octal digit [i]. *)
Definition spread (n x : Z) : Z := bitsum (fun i => 8 ^ i) n x.

(** The lowest bits of the octal digits of [v]. *)
Definition collect (n v : Z) : Z := bitsum (fun i => if i mod 3 =? 0 then 2 ^ (i / 3) else 0) (3 * n) v.

Lemma spread_bound (n : nat) x : 0 <= spread (Z.of_nat n) x < 8 ^ Z.of_nat n.
Proof.
  apply (bitsum_bound (fun i => 8 ^ i)); [done|]. intros i Hi. rewrite pow8_succ by lia.
  pose proof (pow8_pos i). lia.
Qed.

Lemma collect_weight_bound (n : nat) x :
  0 <= bitsum (fun i => if i mod 3 =? 0 then 2 ^ (i / 3) else 0) (Z.of_nat n) x < 2 ^ ((Z.of_nat n + 2) / 3).
Proof.
  apply (bitsum_bound (fun i => 2 ^ ((i + 2) / 3))); [done|]. intros i Hi. destruct (Z.eqb_spec (i mod 3) 0) as [E|E].
  - assert ((i + 2) / 3 = i / 3) as -> by (Z.div_mod_to_equations; lia).
    assert ((i + 1 + 2) / 3 = i / 3 + 1) as -> by (Z.div_mod_to_equations; lia).
    assert (0 <= i / 3) by (apply Z.div_pos; lia). rewrite Z.pow_add_r by lia.
    assert (0 < 2 ^ (i / 3)) by (apply Z.pow_pos_nonneg; lia). lia.
  - assert ((i + 1 + 2) / 3 = (i + 2) / 3) as -> by (Z.div_mod_to_equations; lia). lia.
Qed.

Lemma expandBits_spread k x : 0 <= x < maxCoord k -> expandBits k x = spread (maxTreeLevel k) x.
Proof.
  intros Hx. destruct k; cbn [expandBits].
  - apply Z.eqb_eq. revert x Hx. apply (forallb_below 1024 (fun x => expandBits32 x =? spread 10 x)).
    vm_compute. reflexivity.
  - rewrite <- (Z.mod_small x (2 ^ 21)) at 1 by done. apply (linear_bitsum expandBits64 (fun i => 8 ^ i) 21).
    + done.
    + intros. by apply lor_hom_add; [apply expandBits64_hom|..].
    + intros i Hi. apply Z.eqb_eq. revert i Hi. apply (forallb_below 21 (fun i => expandBits64 (2 ^ i) =? 8 ^ i)).
      vm_compute. reflexivity.
    + intros i y Hi. replace i with (Z.of_nat (Z.to_nat i)) by lia. rewrite (pow8_pow2 (Z.of_nat _)) by lia.
      rewrite Z.land_comm. apply land_pow2_small; [lia|]. rewrite <- pow8_pow2 by lia. apply spread_bound.
Qed.

Lemma compactBits_collect k v : 0 <= v < 2 ^ keyBits k -> compactBits k v = collect (maxTreeLevel k) v.
Proof.
  intros Hv. set (w := fun i => if (i mod 3 =? 0) && (i <? 3 * maxTreeLevel k) then 2 ^ (i / 3) else 0).
  assert (Hw : forall n x, n <= 3 * maxTreeLevel k -> bitsum w n x = bitsum (fun i => if i mod 3 =? 0 then 2 ^ (i / 3) else 0) n x).
  { intros n x Hn. apply bitsum_ext; [done|]. intros i Hi. unfold w.
    replace (i <? 3 * maxTreeLevel k) with true by (symmetry; apply Z.ltb_lt; lia). by rewrite andb_true_r. }
  assert (bitsum w (keyBits k) v = collect (maxTreeLevel k) v) as <-.
  { destruct k.
    - change (keyBits Key32) with (30 + 1 + 1). rewrite !bitsum_succ by lia. rewrite Hw by (vm_compute; congruence).
      change (w 30) with 0. change (w (30 + 1)) with 0. rewrite !Z.mul_0_r, !Z.add_0_r. reflexivity.
    - change (keyBits Key64) with (63 + 1). rewrite !bitsum_succ by lia. rewrite Hw by (vm_compute; congruence).
      change (w 63) with 0. rewrite !Z.mul_0_r, !Z.add_0_r. reflexivity. }
  rewrite <- (Z.mod_small v (2 ^ keyBits k)) at 1 by done.
  replace (keyBits k) with (Z.of_nat (Z.to_nat (keyBits k))) by (destruct k; done).
  apply (linear_bitsum (compactBits k) w).
  - by destruct k.
  - intros. by apply lxor_hom_add; [apply compactBits_hom|..].
  - intros i Hi. apply Z.eqb_eq. revert i Hi.
    apply (forallb_below (Z.to_nat (keyBits k)) (fun i => compactBits k (2 ^ i) =? w i)).
    destruct k; vm_compute; reflexivity.
  - intros i y Hi. unfold w at 2. destruct (Z.eqb_spec (i mod 3) 0) as [E|]; [|by rewrite Z.land_0_r].
    destruct (Z.ltb_spec i (3 * maxTreeLevel k)); simpl; [|by rewrite Z.land_0_r].
    rewrite Z.land_comm. apply land_pow2_small; [apply Z.div_pos; lia|]. rewrite Hw by lia.
    replace i with (Z.of_nat (Z.to_nat i)) at 1 2 by lia.
    assert ((Z.of_nat (Z.to_nat i) + 2) / 3 = i / 3) as <- by (Z.div_mod_to_equations; lia).
    apply collect_weight_bound.
Qed.

Lemma spread_step n x : 0 <= n -> spread (n + 1) x = Z.b2z (Z.odd x) + 8 * spread n (x / 2).
Proof.
  intros Hn. unfold spread. rewrite bitsum_low by done. rewrite Z.mul_1_r. f_equal. rewrite <- bitsum_scale.
  apply bitsum_ext; [done|]. intros i Hi. by rewrite pow8_succ by lia.
Qed.

Lemma collect_step n v : 0 <= n -> collect (n + 1) v = Z.b2z (Z.odd v) + 2 * collect n (v / 8).
Proof.
  intros Hn. unfold collect. replace (3 * (n + 1)) with (3 * n + 1 + 1 + 1) by lia.
  rewrite !bitsum_low by lia. change (0 mod 3 =? 0) with true. change ((0 + 1) mod 3 =? 0) with false.
  change ((0 + 1 + 1) mod 3 =? 0) with false. change (2 ^ (0 / 3)) with 1. cbn beta iota.
  rewrite !Z.mul_0_r, !Z.add_0_l, Z.mul_1_r. f_equal. rewrite !Z.div_div by lia. rewrite <- bitsum_scale.
  apply bitsum_ext; [done|]. intros i Hi.
  assert ((i + 1 + 1 + 1) mod 3 = i mod 3) as -> by (Z.div_mod_to_equations; lia).
  assert ((i + 1 + 1 + 1) / 3 = i / 3 + 1) as -> by (Z.div_mod_to_equations; lia).
  assert (0 <= i / 3) by (apply Z.div_pos; lia). rewrite Z.pow_add_r by lia.
  destruct (i mod 3 =? 0); lia.
Qed.

Lemma collect_range (n : nat) v : 0 <= collect (Z.of_nat n) v < 2 ^ Z.of_nat n.
Proof.
  unfold collect. replace (3 * Z.of_nat n) with (Z.of_nat (3 * n)) by lia.
  assert (Z.of_nat n = (Z.of_nat (3 * n) + 2) / 3) as E by (Z.div_mod_to_equations; lia).
  rewrite E. apply collect_weight_bound.
Qed.

Definition interleave (n x y z : Z) : Z := spread n x * 4 + spread n y * 2 + spread n z.

Lemma odd_b2z x : Z.b2z (Z.odd x) = x mod 2.
Proof. rewrite Zmod_odd. by destruct (Z.odd x). Qed.

(** The coordinates come back from the interleaved key. *)
Lemma collect_interleave (n : nat) x y z :
  collect (Z.of_nat n) (interleave (Z.of_nat n) x y z / 4) = x mod 2 ^ Z.of_nat n /\
  collect (Z.of_nat n) (interleave (Z.of_nat n) x y z / 2) = y mod 2 ^ Z.of_nat n /\
  collect (Z.of_nat n) (interleave (Z.of_nat n) x y z) = z mod 2 ^ Z.of_nat n.
Proof.
  revert x y z. induction n as [|n IH]; intros x y z.
  { simpl. by rewrite !Z.mod_1_r. }
  destruct (IH (x / 2) (y / 2) (z / 2)) as (IHx & IHy & IHz). clear IH.
  replace (Z.of_nat (S n)) with (Z.of_nat n + 1) by lia. rewrite !collect_step by lia.
  assert (interleave (Z.of_nat n + 1) x y z =
    (x mod 2 * 4 + y mod 2 * 2 + z mod 2) + 8 * interleave (Z.of_nat n) (x / 2) (y / 2) (z / 2)) as ->.
  { unfold interleave. rewrite !spread_step, !odd_b2z by lia. lia. }
  set (I := interleave _ _ _ _) in *. rewrite !odd_b2z, !Z.div_div by lia.
  pose proof (Z.mod_pos_bound x 2 ltac:(lia)). pose proof (Z.mod_pos_bound y 2 ltac:(lia)). pose proof (Z.mod_pos_bound z 2 ltac:(lia)).
  assert (Hmod : forall u, u mod 2 ^ (Z.of_nat n + 1) = u mod 2 + 2 * ((u / 2) mod 2 ^ Z.of_nat n)).
  { intros u. rewrite (Z.add_comm (Z.of_nat n)), Z.pow_add_r, Z.pow_1_r by lia.
    rewrite Z.rem_mul_r by (try apply Z.pow_nonzero; lia). lia. }
  rewrite !Hmod, <- IHx, <- IHy, <- IHz. repeat split; f_equal.
  - Z.div_mod_to_equations; lia.
  - do 2 f_equal. Z.div_mod_to_equations; lia.
  - Z.div_mod_to_equations; lia.
  - do 2 f_equal. Z.div_mod_to_equations; lia.
  - Z.div_mod_to_equations; lia.
  - do 2 f_equal. Z.div_mod_to_equations; lia.
Qed.

(** The key comes back from its coordinates. *)
Lemma interleave_collect (n : nat) v :
  interleave (Z.of_nat n) (collect (Z.of_nat n) (v / 4)) (collect (Z.of_nat n) (v / 2)) (collect (Z.of_nat n) v)
    = v mod 8 ^ Z.of_nat n.
Proof.
  revert v. induction n as [|n IH]; intros v.
  { simpl. by rewrite Z.mod_1_r. }
  specialize (IH (v / 8)). replace (Z.of_nat (S n)) with (Z.of_nat n + 1) by lia.
  rewrite (Z.pow_add_r 8), Z.pow_1_r, (Z.mul_comm _ 8), Z.rem_mul_r by (try apply Z.pow_nonzero; lia). rewrite <- IH.
  unfold interleave. rewrite !spread_step, !collect_step, !odd_b2z by lia. rewrite !Z.div_div by lia.
  rewrite (Z.mul_comm 8 4), (Z.mul_comm 8 2).
  assert (Hlow : forall u c, (u mod 2 + 2 * c) mod 2 = u mod 2 /\ (u mod 2 + 2 * c) / 2 = c) by
    (intros; split; Z.div_mod_to_equations; lia).
  pose proof (Hlow (v / 4) (collect (Z.of_nat n) (v / (4 * 8)))) as [-> ->].
  pose proof (Hlow (v / 2) (collect (Z.of_nat n) (v / (2 * 8)))) as [-> ->].
  pose proof (Hlow v (collect (Z.of_nat n) (v / 8))) as [-> ->].
  assert (v / 4 mod 2 * 4 + v / 2 mod 2 * 2 + v mod 2 = v mod 8) by (Z.div_mod_to_equations; lia). lia.
Qed.

(** Coordinates of the ancestor at a coarser level. *)
Lemma collect_div (n j : nat) v :
  collect (Z.of_nat (n + j)) v / 2 ^ Z.of_nat j = collect (Z.of_nat n) (v / 8 ^ Z.of_nat j).
Proof.
  revert v. induction j as [|j IH]; intros v.
  { rewrite Nat.add_0_r. by rewrite !Z.div_1_r. }
  replace (Z.of_nat (n + S j)) with (Z.of_nat (n + j) + 1) by lia.
  replace (Z.of_nat (S j)) with (1 + Z.of_nat j) by lia.
  rewrite !Z.pow_add_r, !Z.pow_1_r by lia. rewrite <- !Z.div_div by (try apply Z.pow_pos_nonneg; lia).
  rewrite <- IH. f_equal. rewrite collect_step, odd_b2z by lia. Z.div_mod_to_equations; lia.
Qed.

Lemma spread_bound7 (n : nat) x : 0 <= spread (Z.of_nat n) x /\ 7 * spread (Z.of_nat n) x <= 8 ^ Z.of_nat n - 1.
Proof.
  revert x. induction n as [|n IH]; intros x; [done|]. specialize (IH (x / 2)).
  replace (Z.of_nat (S n)) with (Z.of_nat n + 1) by lia. rewrite spread_step, pow8_succ by lia.
  destruct (Z.odd x); simpl Z.b2z; lia.
Qed.

Lemma interleave_range (n : nat) x y z : 0 <= interleave (Z.of_nat n) x y z < 8 ^ Z.of_nat n.
Proof.
  unfold interleave. pose proof (spread_bound7 n x). pose proof (spread_bound7 n y). pose proof (spread_bound7 n z).
  pose proof (pow8_pos (Z.of_nat n)). lia.
Qed.

(** Coordinates of an [n]-level key. *)
Definition deinterleave (n : nat) (v : Z) : Z * Z * Z :=
  (collect (Z.of_nat n) (v / 4), collect (Z.of_nat n) (v / 2), collect (Z.of_nat n) v).

Lemma compactBits_shift k code s :
  0 <= s -> 0 <= code < keyMax k -> u32 (compactBits k (Z.shiftr code s)) = collect (maxTreeLevel k) (code / 2 ^ s).
Proof.
  intros Hs Hc. kfacts k. rewrite Z.shiftr_div_pow2 by done. assert (0 < 2 ^ s) by (apply Z.pow_pos_nonneg; lia).
  assert (0 <= code / 2 ^ s <= code).
  { split; [apply Z.div_pos; lia|]. apply Z.div_le_upper_bound; nia. }
  rewrite compactBits_collect by lia. apply u32_small.
  pose proof (collect_range (Z.to_nat (maxTreeLevel k)) (code / 2 ^ s)) as Hr. rewrite Z2Nat.id in Hr by lia.
  assert (2 ^ maxTreeLevel k <= 2 ^ 21) by (apply Z.pow_le_mono_r; lia). change (2 ^ 21) with 2097152 in *. lia.
Qed.

Lemma decodeMorton_ref k code : 0 <= code < keyMax k -> decodeMorton k code = deinterleave (Z.to_nat (maxTreeLevel k)) code.
Proof.
  intros Hc. kfacts k. unfold decodeMorton, idecodeMortonX, idecodeMortonY, idecodeMortonZ, deinterleave.
  rewrite <- (Z.shiftr_0_r code) at 3. rewrite !compactBits_shift by lia. rewrite Z2Nat.id by lia.
  change (2 ^ 2) with 4. change (2 ^ 1) with 2. change (2 ^ 0) with 1. by rewrite Z.div_1_r.
Qed.

(** The low bits of the coordinates of a node start are zero. *)
Lemma collect_mod (n j : nat) v : collect (Z.of_nat (n + j)) v mod 2 ^ Z.of_nat j = collect (Z.of_nat j) v.
Proof.
  revert v. induction j as [|j IH]; intros v; [apply Z.mod_1_r|].
  replace (Z.of_nat (n + S j)) with (Z.of_nat (n + j) + 1) by lia.
  replace (Z.of_nat (S j)) with (Z.of_nat j + 1) by lia. rewrite !collect_step by lia. rewrite <- (IH (v / 8)).
  rewrite (Z.add_comm (Z.of_nat j) 1), Z.pow_add_r, Z.pow_1_r by lia.
  rewrite Z.rem_mul_r by (try apply Z.pow_nonzero; lia). set (c := collect _ (v / 8)).
  rewrite odd_b2z. assert ((v mod 2 + 2 * c) mod 2 = v mod 2) as -> by (Z.div_mod_to_equations; lia).
  assert ((v mod 2 + 2 * c) / 2 = c) as -> by (Z.div_mod_to_equations; lia). lia.
Qed.

Lemma collect_zero (j : nat) s c : 0 <= s < 3 -> collect (Z.of_nat j) (c * 8 ^ Z.of_nat j / 2 ^ s) = 0.
Proof.
  intros Hs. revert c. induction j as [|j IH]; intros c; [done|].
  replace (Z.of_nat (S j)) with (Z.of_nat j + 1) by lia. rewrite collect_step, odd_b2z, pow8_succ by lia.
  specialize (IH c). assert (2 ^ s = 1 \/ 2 ^ s = 2 \/ 2 ^ s = 4) as Hp.
  { assert (s = 0 \/ s = 1 \/ s = 2) as [-> | [-> | ->]] by lia; lia. }
  set (d := c * 8 ^ Z.of_nat j) in *. replace (c * (8 * 8 ^ Z.of_nat j)) with (8 * d) by lia.
  assert (8 * d / 2 ^ s mod 2 = 0) as -> by (destruct Hp as [-> | [-> | ->]]; Z.div_mod_to_equations; lia).
  assert (8 * d / 2 ^ s / 8 = d / 2 ^ s) as -> by (destruct Hp as [-> | [-> | ->]]; Z.div_mod_to_equations; lia).
  lia.
Qed.
