(* ===== verification/Hilbert.v ===== *)
(** * Hilbert keys

    [cstone/sfc/hilbert.hpp]: the 3D and 2D encodings and decodings, bit by bit as in the
    source, and the boxes of octree cells.  Shown here: encoding and decoding are inverse to
    each other, consecutive keys belong to face-adjacent cells, and the key range of an octree
    node is the set of cells in its box. *)

From S2P Require Import Prelude Primitives SfcCommon SfcBox.

(** ** The code *)

Definition mortonToHilbert : list Z := [0; 1; 3; 2; 7; 6; 4; 5].

(** [!b] for an unsigned [b]. *)
Definition lnotu (b : Z) : Z := Z.b2z (b =? 0).

(** One iteration of [iHilbert] on ([key], [px], [py], [pz]). *)
Definition iHilbertStep (k : KeyType) (level : Z) (st : Z * (Z * Z * Z)) : Z * (Z * Z * Z) :=
  let '(key, (px, py, pz)) := st in
  let xi := Z.land (Z.shiftr px level) 1 in
  let yi := Z.land (Z.shiftr py level) 1 in
  let zi := Z.land (Z.shiftr pz level) 1 in
  let octant := Z.lor (Z.lor (Z.shiftl xi 2) (Z.shiftl yi 1)) zi in
  let key := kwrap k (kwrap k (Z.shiftl key 3) + nthz mortonToHilbert octant) in
  let px := Z.lxor px (u32 (- Z.land xi (Z.lor (lnotu yi) zi))) in
  let py := Z.lxor py (u32 (- Z.lor (Z.land xi (Z.lor yi zi)) (Z.land yi (lnotu zi)))) in
  let pz := Z.lxor pz (u32 (- Z.lor (Z.land (Z.land xi (lnotu yi)) (lnotu zi)) (Z.land yi (lnotu zi)))) in
  if negb (zi =? 0) then (key, (py, pz, px))
  else if yi =? 0 then (key, (pz, py, px))
  else (key, (px, py, pz)).

(** [for (level = n - 1; level >= 0; --level)]. *)
Fixpoint iHilbertLoop (k : KeyType) (n : nat) (st : Z * (Z * Z * Z)) : Z * (Z * Z * Z) :=
  match n with
  | O => st
  | S n => iHilbertLoop k n (iHilbertStep k (Z.of_nat n) st)
  end.

Definition iHilbert (k : KeyType) (px py pz : Z) : Z :=
  fst (iHilbertLoop k (Z.to_nat (maxTreeLevel k)) (0, (px, py, pz))).

(** One iteration of [decodeHilbert] on ([px], [py], [pz]). *)
Definition decodeHilbertStep (key level : Z) (st : Z * Z * Z) : Z * Z * Z :=
  let '(px, py, pz) := st in
  let octant := Z.land (Z.shiftr key (3 * level)) 7 in
  let xi := Z.shiftr octant 2 in
  let yi := Z.land (Z.shiftr octant 1) 1 in
  let zi := Z.land octant 1 in
  let '(px, py, pz) :=
    if negb (Z.lxor yi zi =? 0) then (pz, px, py)
    else if negb (Z.land (Z.land (lnotu xi) (lnotu yi)) (lnotu zi) =? 0) || negb (Z.land (Z.land xi yi) zi =? 0)
    then (pz, py, px)
    else (px, py, pz) in
  let mask := u32 (Z.shiftl 1 level - 1) in
  let px := Z.lxor px (Z.land mask (u32 (- Z.land xi (Z.lor yi zi)))) in
  let py := Z.lxor py (Z.land mask (u32 (- Z.lor (Z.land xi (Z.lor (lnotu yi) (lnotu zi)))
                                                  (Z.land (Z.land (lnotu xi) yi) zi)))) in
  let pz := Z.lxor pz (Z.land mask (u32 (- Z.lor (Z.land (Z.land xi (lnotu yi)) (lnotu zi)) (Z.land yi zi)))) in
  (Z.lor px (u32 (Z.shiftl xi level)),
   Z.lor py (u32 (Z.shiftl (Z.lxor xi yi) level)),
   Z.lor pz (u32 (Z.shiftl (Z.lxor yi zi) level))).

(** [for (level = 0; level < n; ++level)]. *)
Fixpoint decodeHilbertLoop (n : nat) (key : Z) : Z * Z * Z :=
  match n with
  | O => (0, 0, 0)
  | S n => decodeHilbertStep key (Z.of_nat n) (decodeHilbertLoop n key)
  end.

Definition decodeHilbert (k : KeyType) (key : Z) : Z * Z * Z :=
  decodeHilbertLoop (Z.to_nat (maxTreeLevel k)) key.

Definition hilbertIBox (k : KeyType) (keyStart level : Z) : IBox :=
  let maxCoord := u32 (Z.shiftl 1 (maxTreeLevel k)) in
  let cubeLength := Z.shiftr maxCoord level in
  let mask := u32 (Z.lnot (u32 (cubeLength - 1))) in
  let '(ix, iy, iz) := decodeHilbert k keyStart in
  let ix := Z.land ix mask in
  let iy := Z.land iy mask in
  let iz := Z.land iz mask in
  mkIBox (i32 ix) (i32 (u32 (ix + cubeLength))) (i32 iy) (i32 (u32 (iy + cubeLength)))
         (i32 iz) (i32 (u32 (iz + cubeLength))).

Definition hilbertIBoxKeys (k : KeyType) (keyStart keyEnd : Z) : IBox :=
  hilbertIBox k keyStart (treeLevel k (kwrap k (keyEnd - keyStart))).

(** One iteration of [iHilbert2D] on ([key], [px], [py]). *)
Definition iHilbert2DStep (k : KeyType) (level : Z) (st : Z * (Z * Z)) : Z * (Z * Z) :=
  let '(key, (px, py)) := st in
  let xi := Z.land (Z.shiftr px level) 1 in
  let yi := Z.land (Z.shiftr py level) 1 in
  let '(px, py) :=
    if yi =? 0 then (Z.lxor py (u32 (- xi)), Z.lxor px (u32 (- xi))) else (px, py) in
  (kwrap k (4 * key + 2 * xi + Z.lxor xi yi), (px, py)).

Fixpoint iHilbert2DLoop (k : KeyType) (n : nat) (st : Z * (Z * Z)) : Z * (Z * Z) :=
  match n with
  | O => st
  | S n => iHilbert2DLoop k n (iHilbert2DStep k (Z.of_nat n) st)
  end.

Definition iHilbert2D (k : KeyType) (px py : Z) : Z :=
  fst (iHilbert2DLoop k (Z.to_nat (maxTreeLevel k)) (0, (px, py))).

(** One iteration of [decodeHilbert2D] on ([x], [y]); [level] advances by two. *)
Definition decodeHilbert2DStep (key level : Z) (st : Z * Z) : Z * Z :=
  let '(x, y) := st in
  let sa := Z.land (Z.shiftr key (level + 1)) 1 in
  let sb := Z.land (Z.shiftr key level) 1 in
  let '(x, y) :=
    if Z.lxor sa sb =? 0 then (Z.lxor y (u32 (- sa)), Z.lxor x (u32 (- sa))) else (x, y) in
  (Z.lor (Z.shiftr x 1) (u32 (Z.shiftl sa 31)), Z.lor (Z.shiftr y 1) (u32 (Z.shiftl (Z.lxor sa sb) 31))).

Fixpoint decodeHilbert2DLoop (n : nat) (key : Z) : Z * Z :=
  match n with
  | O => (0, 0)
  | S n => decodeHilbert2DStep key (2 * Z.of_nat n) (decodeHilbert2DLoop n key)
  end.

Definition decodeHilbert2D (k : KeyType) (key : Z) : Z * Z :=
  let order := maxTreeLevel k in
  let '(x, y) := decodeHilbert2DLoop (Z.to_nat order) key in
  (Z.shiftr x (32 - order), Z.shiftr y (32 - order)).

(** The 32-bit instance, the only one the source comment allows ([order] = 10). *)
Definition decodeHilbert2DConstant (key : Z) : Z * Z :=
  let order := maxTreeLevel Key32 in
  let key := Z.lor key (u32 (Z.shiftl 0x55555555 (2 * order))) in
  let sr := Z.land (Z.shiftr key 1) 0x55555555 in
  let cs := Z.lxor (u32 (Z.land key 0x55555555 + sr)) 0x55555555 in
  let cs := Z.lxor cs (Z.shiftr cs 2) in
  let cs := Z.lxor cs (Z.shiftr cs 4) in
  let cs := Z.lxor cs (Z.shiftr cs 8) in
  let cs := Z.lxor cs (Z.shiftr cs 16) in
  let swap := Z.land cs 0x55555555 in
  let comp := Z.land (Z.shiftr cs 1) 0x55555555 in
  let t := Z.lxor (Z.land key swap) comp in
  let key := Z.lxor (Z.lxor (Z.lxor key sr) t) (u32 (Z.shiftl t 1)) in
  let key := Z.land key (Z.shiftl 1 (2 * order) - 1) in
  let t := Z.land (Z.lxor key (Z.shiftr key 1)) 0x22222222 in
  let key := Z.lxor (Z.lxor key t) (u32 (Z.shiftl t 1)) in
  let t := Z.land (Z.lxor key (Z.shiftr key 2)) 0x0C0C0C0C in
  let key := Z.lxor (Z.lxor key t) (u32 (Z.shiftl t 2)) in
  let t := Z.land (Z.lxor key (Z.shiftr key 4)) 0x00F000F0 in
  let key := Z.lxor (Z.lxor key t) (u32 (Z.shiftl t 4)) in
  let t := Z.land (Z.lxor key (Z.shiftr key 8)) 0x0000FF00 in
  let key := Z.lxor (Z.lxor key t) (u32 (Z.shiftl t 8)) in
  (Z.shiftr key 16, Z.land key 0xFFFF).

(** ** Reference curve on [n]-bit coordinates *)

Definition flip (b : bool) (m v : Z) : Z := if b then m - v else v.

(** Turn of the sub-cube at octant ([cx], [cy], [cz]); [m] is the largest coordinate. *)
Definition encTurn (m : Z) (cx cy cz : bool) (p : Z * Z * Z) : Z * Z * Z :=
  let '(x, y, z) := p in
  let x := flip (cx && (negb cy || cz)) m x in
  let y := flip ((cx && (cy || cz)) || (cy && negb cz)) m y in
  let z := flip ((cx && negb cy && negb cz) || (cy && negb cz)) m z in
  if cz then (y, z, x) else if negb cy then (z, y, x) else (x, y, z).

(** Turn back, from the bits of the Hilbert digit. *)
Definition decTurn (m : Z) (hx hy hz : bool) (p : Z * Z * Z) : Z * Z * Z :=
  let '(x, y, z) := p in
  let '(x, y, z) := if xorb hy hz then (z, x, y)
                    else if (negb hx && negb hy && negb hz) || (hx && hy && hz) then (z, y, x) else (x, y, z) in
  (flip (hx && (hy || hz)) m x,
   flip ((hx && (negb hy || negb hz)) || (negb hx && hy && hz)) m y,
   flip ((hx && negb hy && negb hz) || (hy && hz)) m z).

(** Hilbert digit of an octant: the Gray code. *)
Definition grayDigit (cx cy cz : bool) : Z :=
  4 * Z.b2z cx + 2 * Z.b2z (xorb cx cy) + Z.b2z (xorb (xorb cx cy) cz).

Definition low (n : nat) (p : Z * Z * Z) : Z * Z * Z :=
  let '(x, y, z) := p in (x mod 2 ^ Z.of_nat n, y mod 2 ^ Z.of_nat n, z mod 2 ^ Z.of_nat n).

Fixpoint hilbertEnc (n : nat) (p : Z * Z * Z) : Z :=
  match n with
  | O => 0
  | S n =>
      let '(x, y, z) := p in
      let cx := Z.testbit x (Z.of_nat n) in
      let cy := Z.testbit y (Z.of_nat n) in
      let cz := Z.testbit z (Z.of_nat n) in
      grayDigit cx cy cz * 8 ^ Z.of_nat n + hilbertEnc n (encTurn (2 ^ Z.of_nat n - 1) cx cy cz (low n p))
  end.

Fixpoint hilbertDec (n : nat) (key : Z) : Z * Z * Z :=
  match n with
  | O => (0, 0, 0)
  | S n =>
      let hx := Z.testbit key (3 * Z.of_nat n + 2) in
      let hy := Z.testbit key (3 * Z.of_nat n + 1) in
      let hz := Z.testbit key (3 * Z.of_nat n) in
      let '(x, y, z) := decTurn (2 ^ Z.of_nat n - 1) hx hy hz (hilbertDec n key) in
      (x + Z.b2z hx * 2 ^ Z.of_nat n, y + Z.b2z (xorb hx hy) * 2 ^ Z.of_nat n, z + Z.b2z (xorb hy hz) * 2 ^ Z.of_nat n)
  end.

(** *** Turning forth and back *)

Lemma turn_inverse m cx cy cz p :
  decTurn m cx (xorb cx cy) (xorb (xorb cx cy) cz) (encTurn m cx cy cz p) = p.
Proof. destruct p as [[x y] z]. destruct cx, cy, cz; unfold decTurn, encTurn, flip; simpl; repeat f_equal; lia. Qed.

Lemma turn_inverse' m hx hy hz p :
  encTurn m hx (xorb hx hy) (xorb hy hz) (decTurn m hx hy hz p) = p.
Proof. destruct p as [[x y] z]. destruct hx, hy, hz; unfold decTurn, encTurn, flip; simpl; repeat f_equal; lia. Qed.

(** All coordinates of [p] are in [0, 2^n). *)
Definition inCube (n : nat) (p : Z * Z * Z) : Prop :=
  let '(x, y, z) := p in 0 <= x < 2 ^ Z.of_nat n /\ 0 <= y < 2 ^ Z.of_nat n /\ 0 <= z < 2 ^ Z.of_nat n.

Lemma flip_range b n v : 0 <= v < n -> 0 <= flip b (n - 1) v < n.
Proof. unfold flip. destruct b; lia. Qed.

Lemma encTurn_inCube n cx cy cz p : inCube n p -> inCube n (encTurn (2 ^ Z.of_nat n - 1) cx cy cz p).
Proof.
  destruct p as [[x y] z]. intros (Hx & Hy & Hz). unfold encTurn.
  destruct cz; [|destruct (negb cy)]; repeat split; apply flip_range; done.
Qed.

Lemma decTurn_inCube n hx hy hz p : inCube n p -> inCube n (decTurn (2 ^ Z.of_nat n - 1) hx hy hz p).
Proof.
  destruct p as [[x y] z]. intros (Hx & Hy & Hz). unfold decTurn.
  destruct (xorb hy hz); [|destruct ((negb hx && negb hy && negb hz) || (hx && hy && hz))];
    repeat split; apply flip_range; done.
Qed.

Lemma pow2_nat_pos (n : nat) : 0 < 2 ^ Z.of_nat n.
Proof. apply Z.pow_pos_nonneg; lia. Qed.

Lemma low_inCube n p : inCube n (low n p).
Proof. destruct p as [[x y] z]. pose proof (pow2_nat_pos n). repeat split; apply Z.mod_pos_bound; lia. Qed.

Lemma low_small n p : inCube n p -> low n p = p.
Proof. destruct p as [[x y] z]. intros (Hx & Hy & Hz). unfold low. by rewrite !Z.mod_small. Qed.

Lemma grayDigit_range cx cy cz : 0 <= grayDigit cx cy cz < 8.
Proof. unfold grayDigit. destruct cx, cy, cz; simpl; lia. Qed.

Lemma hilbertEnc_range n p : 0 <= hilbertEnc n p < 8 ^ Z.of_nat n.
Proof.
  revert p. induction n as [|n IH]; intros p; [done|]. destruct p as [[x y] z]. cbn [hilbertEnc].
  replace (Z.of_nat (S n)) with (Z.of_nat n + 1) by lia. rewrite pow8_succ by lia.
  match goal with |- context [grayDigit ?a ?b ?c] => pose proof (grayDigit_range a b c) end.
  match goal with |- context [hilbertEnc n ?q] => specialize (IH q) end.
  pose proof (pow8_pos (Z.of_nat n) ltac:(lia)). nia.
Qed.

Lemma hilbertDec_inCube n key : inCube n (hilbertDec n key).
Proof.
  induction n as [|n IH]; [done|]. cbn [hilbertDec].
  match goal with |- context [decTurn _ ?a ?b ?c _] => pose proof (decTurn_inCube n a b c _ IH) as H end.
  destruct (decTurn _ _ _ _ _) as [[x y] z]. destruct H as (Hx & Hy & Hz).
  unfold inCube. replace (Z.of_nat (S n)) with (Z.of_nat n + 1) by lia. rewrite Z.pow_add_r, Z.pow_1_r by lia.
  assert (Hb : forall b, 0 <= Z.b2z b <= 1) by (intros []; simpl; lia).
  repeat match goal with |- context [Z.b2z ?b] => pose proof (Hb b); generalize dependent (Z.b2z b); intros end. nia.
Qed.

(** Only the lower [n] digits matter. *)
Lemma hilbertDec_ext n key key' :
  (forall i, 0 <= i < 3 * Z.of_nat n -> Z.testbit key i = Z.testbit key' i) -> hilbertDec n key = hilbertDec n key'.
Proof.
  induction n as [|n IH]; intros H; [done|]. cbn [hilbertDec].
  rewrite IH by (intros; apply H; lia). by rewrite !H by lia.
Qed.

(** Bits of a key composed of a digit and a lower part. *)
Lemma digit_bits (n : nat) d r (i : Z) :
  0 <= r < 8 ^ Z.of_nat n -> 0 <= i ->
  (i < 3 * Z.of_nat n -> Z.testbit (d * 8 ^ Z.of_nat n + r) i = Z.testbit r i) /\
  (3 * Z.of_nat n <= i -> Z.testbit (d * 8 ^ Z.of_nat n + r) i = Z.testbit d (i - 3 * Z.of_nat n)).
Proof.
  intros Hr Hi. rewrite pow8_pow2 in * by lia. set (e := 3 * Z.of_nat n) in *.
  assert (0 < 2 ^ e) by (apply Z.pow_pos_nonneg; lia). split; intros Hie.
  - rewrite <- (Z.mod_pow2_bits_low (d * 2 ^ e + r) e) by lia.
    rewrite Z.add_comm, Z.mod_add, Z.mod_small by lia. done.
  - replace i with ((i - e) + e) at 1 by lia. rewrite <- Z.div_pow2_bits by lia.
    rewrite Z.div_add_l by lia. rewrite Z.div_small by lia. by rewrite Z.add_0_r.
Qed.

Lemma grayDigit_bits cx cy cz :
  Z.testbit (grayDigit cx cy cz) 2 = cx /\ Z.testbit (grayDigit cx cy cz) 1 = xorb cx cy /\
  Z.testbit (grayDigit cx cy cz) 0 = xorb (xorb cx cy) cz.
Proof. by destruct cx, cy, cz. Qed.

Lemma split_bit v (n : nat) : 0 <= v -> v mod 2 ^ Z.of_nat (S n) = v mod 2 ^ Z.of_nat n + Z.b2z (Z.testbit v (Z.of_nat n)) * 2 ^ Z.of_nat n.
Proof.
  intros Hv. replace (Z.of_nat (S n)) with (Z.of_nat n + 1) by lia. rewrite Z.pow_add_r, Z.pow_1_r by lia.
  pose proof (pow2_nat_pos n). rewrite Z.rem_mul_r, Z.testbit_eqb by lia.
  pose proof (Z.mod_pos_bound (v / 2 ^ Z.of_nat n) 2 ltac:(lia)).
  destruct (Z.eqb_spec ((v / 2 ^ Z.of_nat n) mod 2) 1); simpl; nia.
Qed.

Lemma xorb_cancel a b : xorb a (xorb a b) = b.
Proof. by destruct a, b. Qed.

Lemma xorb_cancel' a b c : xorb (xorb a b) (xorb (xorb a b) c) = c.
Proof. by destruct a, b, c. Qed.

(** Decoding inverts encoding. *)
Lemma hilbertDec_Enc n x y z :
  0 <= x -> 0 <= y -> 0 <= z -> hilbertDec n (hilbertEnc n (x, y, z)) = low n (x, y, z).
Proof.
  revert x y z. induction n as [|n IH]; intros x y z Hx Hy Hz.
  { simpl. by rewrite !Z.mod_1_r. }
  cbn [hilbertEnc]. set (cx := Z.testbit x (Z.of_nat n)). set (cy := Z.testbit y (Z.of_nat n)).
  set (cz := Z.testbit z (Z.of_nat n)). set (q := encTurn _ cx cy cz _).
  assert (inCube n q) as Hq by apply encTurn_inCube, low_inCube.
  destruct (grayDigit_bits cx cy cz) as (G2 & G1 & G0).
  pose proof (hilbertEnc_range n q) as Hr.
  assert (Hlow : hilbertDec n (grayDigit cx cy cz * 8 ^ Z.of_nat n + hilbertEnc n q) = q).
  { rewrite (hilbertDec_ext n _ (hilbertEnc n q)) by (intros; apply digit_bits; [done|lia|lia]).
    destruct q as [[qx qy] qz]. destruct Hq as (? & ? & ?). rewrite IH by lia. by apply low_small. }
  cbn [hilbertDec]. rewrite Hlow.
  destruct (digit_bits n (grayDigit cx cy cz) (hilbertEnc n q) (3 * Z.of_nat n + 2) Hr ltac:(lia)) as [_ E2].
  destruct (digit_bits n (grayDigit cx cy cz) (hilbertEnc n q) (3 * Z.of_nat n + 1) Hr ltac:(lia)) as [_ E1].
  destruct (digit_bits n (grayDigit cx cy cz) (hilbertEnc n q) (3 * Z.of_nat n) Hr ltac:(lia)) as [_ E0].
  rewrite E2, E1, E0 by lia. rewrite Z.sub_diag, !Z.add_simpl_l, G2, G1, G0.
  unfold q. rewrite turn_inverse, xorb_cancel, xorb_cancel'. unfold low. rewrite !split_bit by done. done.
Qed.

(** Encoding inverts decoding. *)
Lemma hilbertEnc_Dec n key : 0 <= key -> hilbertEnc n (hilbertDec n key) = key mod 8 ^ Z.of_nat n.
Proof.
  intros Hk. induction n as [|n IH]; [by rewrite Z.mod_1_r|].
  cbn [hilbertDec]. set (hx := Z.testbit key (3 * Z.of_nat n + 2)). set (hy := Z.testbit key (3 * Z.of_nat n + 1)).
  set (hz := Z.testbit key (3 * Z.of_nat n)).
  destruct (decTurn (2 ^ Z.of_nat n - 1) hx hy hz (hilbertDec n key)) as [[x y] z] eqn:Et.
  pose proof (decTurn_inCube n hx hy hz _ (hilbertDec_inCube n key)) as Hc. rewrite Et in Hc. destruct Hc as (Hx & Hy & Hz).
  pose proof (pow2_nat_pos n). cbn [hilbertEnc].
  assert (Hbit : forall v b, 0 <= v < 2 ^ Z.of_nat n -> Z.testbit (v + Z.b2z b * 2 ^ Z.of_nat n) (Z.of_nat n) = b /\
    (v + Z.b2z b * 2 ^ Z.of_nat n) mod 2 ^ Z.of_nat n = v).
  { intros v b Hv. rewrite Z.mod_add, Z.mod_small by lia. split; [|done]. rewrite Z.testbit_eqb by lia.
    rewrite Z.div_add, Z.div_small by lia. by destruct b. }
  unfold low. destruct (Hbit x hx Hx) as [-> ->]. destruct (Hbit y (xorb hx hy) Hy) as [-> ->].
  destruct (Hbit z (xorb hy hz) Hz) as [-> ->]. rewrite <- Et, turn_inverse', IH.
  unfold grayDigit. rewrite xorb_cancel, xorb_cancel. replace (Z.of_nat (S n)) with (Z.of_nat n + 1) by lia.
  rewrite Z.pow_add_r, Z.pow_1_r by lia. pose proof (pow8_pos (Z.of_nat n) ltac:(lia)).
  rewrite Z.rem_mul_r by lia. unfold hx, hy, hz. rewrite !Z.testbit_eqb by lia. rewrite !Z.pow_add_r, <- !pow8_pow2 by lia.
  rewrite <- !Z.div_div by (try apply Z.pow_pos_nonneg; lia). set (K := key / 8 ^ Z.of_nat n).
  assert (Hb : forall c, Z.b2z (c mod 2 =? 1) = c mod 2).
  { intros c. pose proof (Z.mod_pos_bound c 2 ltac:(lia)). destruct (Z.eqb_spec (c mod 2) 1); simpl; lia. }
  rewrite !Hb. change (2 ^ 2) with 4. change (2 ^ 1) with 2.
  assert (4 * (K / 4 mod 2) + 2 * (K / 2 mod 2) + K mod 2 = K mod 8) by (Z.div_mod_to_equations; lia). nia.
Qed.

(** ** Cells of coarser levels *)

Definition divp (d : Z) (p : Z * Z * Z) : Z * Z * Z := let '(x, y, z) := p in (x / d, y / d, z / d).

Lemma flip_div b n d v : 0 < d -> 0 <= v < n * d -> flip b (n * d - 1) v / d = flip b (n - 1) (v / d).
Proof.
  intros Hd Hv. destruct b; simpl; [|done]. symmetry. pose proof (Z.div_mod v d ltac:(lia)).
  pose proof (Z.mod_pos_bound v d ltac:(lia)).
  apply Z.div_unique_pos with (d - 1 - v mod d); [lia|]. nia.
Qed.

Lemma decTurn_div n d hx hy hz x y z :
  0 < d -> 0 <= x < n * d -> 0 <= y < n * d -> 0 <= z < n * d ->
  divp d (decTurn (n * d - 1) hx hy hz (x, y, z)) = decTurn (n - 1) hx hy hz (divp d (x, y, z)).
Proof.
  intros Hd Hx Hy Hz. unfold decTurn, divp.
  destruct (xorb hy hz); [|destruct ((negb hx && negb hy && negb hz) || (hx && hy && hz))];
    by rewrite !flip_div by done.
Qed.

(** The cell of the ancestor node is the cell of the truncated key. *)
Lemma hilbertDec_div n j key :
  0 <= key -> divp (2 ^ Z.of_nat j) (hilbertDec (n + j) key) = hilbertDec n (key / 8 ^ Z.of_nat j).
Proof.
  intros Hk. pose proof (pow2_nat_pos j) as Hpj. induction n as [|n IH].
  { simpl. pose proof (hilbertDec_inCube j key) as H. destruct (hilbertDec j key) as [[x y] z].
    destruct H as (? & ? & ?). simpl. by rewrite !Z.div_small. }
  cbn [hilbertDec Nat.add].
  assert (Hbit : forall i, 0 <= i -> Z.testbit (key / 8 ^ Z.of_nat j) (3 * Z.of_nat n + i) =
    Z.testbit key (3 * Z.of_nat (n + j) + i)).
  { intros i Hi. rewrite pow8_pow2 by lia. rewrite Z.div_pow2_bits by lia. f_equal. lia. }
  rewrite (Hbit 2), (Hbit 1) by lia. specialize (Hbit 0 ltac:(lia)). rewrite !Z.add_0_r in Hbit. rewrite Hbit, <- IH.
  set (hx := Z.testbit key (3 * Z.of_nat (n + j) + 2)). set (hy := Z.testbit key (3 * Z.of_nat (n + j) + 1)).
  set (hz := Z.testbit key (3 * Z.of_nat (n + j))).
  pose proof (hilbertDec_inCube (n + j) key) as H. destruct (hilbertDec (n + j) key) as [[x y] z].
  destruct H as (Hx & Hy & Hz). replace (Z.of_nat (n + j)) with (Z.of_nat n + Z.of_nat j) in * by lia.
  rewrite Z.pow_add_r in * by lia. rewrite <- decTurn_div by done.
  destruct (decTurn (2 ^ Z.of_nat n * 2 ^ Z.of_nat j - 1) hx hy hz (x, y, z)) as [[x' y'] z']. simpl.
  rewrite !Z.mul_assoc, !Z.div_add by lia. done.
Qed.

(** ** Continuity *)

Definition dist1 (p q : Z * Z * Z) : Z :=
  let '(x, y, z) := p in let '(x', y', z') := q in Z.abs (x - x') + Z.abs (y - y') + Z.abs (z - z').

Lemma decTurn_dist m hx hy hz p q : dist1 (decTurn m hx hy hz p) (decTurn m hx hy hz q) = dist1 p q.
Proof.
  destruct p as [[x y] z], q as [[x' y'] z']. destruct hx, hy, hz; unfold decTurn, flip, dist1; simpl; lia.
Qed.

Lemma hilbertDec_start n : hilbertDec n 0 = (0, 0, 0).
Proof. induction n as [|n IH]; [done|]. cbn [hilbertDec]. rewrite IH, !Z.bits_0. unfold decTurn, flip. simpl. done. Qed.

Lemma hilbertDec_end n : hilbertDec n (8 ^ Z.of_nat n - 1) = (2 ^ Z.of_nat n - 1, 0, 0).
Proof.
  induction n as [|n IH]; [done|]. cbn [hilbertDec].
  replace (8 ^ Z.of_nat (S n) - 1) with (Z.ones (3 * Z.of_nat (S n))) by (rewrite Z.ones_equiv, pow8_pow2 by lia; lia).
  replace (8 ^ Z.of_nat n - 1) with (Z.ones (3 * Z.of_nat n)) in IH by (rewrite Z.ones_equiv, pow8_pow2 by lia; lia).
  rewrite (hilbertDec_ext n _ (Z.ones (3 * Z.of_nat n))), IH.
  - rewrite !Z.ones_spec_low by lia. unfold decTurn, flip. simpl.
    replace (Z.of_nat (S n)) with (Z.of_nat n + 1) by lia. rewrite Z.pow_add_r by lia. repeat f_equal; lia.
  - intros i Hi. rewrite !Z.ones_spec_low by lia. done.
Qed.

Lemma hilbertDec_digit n d r :
  0 <= r < 8 ^ Z.of_nat n ->
  hilbertDec (S n) (d * 8 ^ Z.of_nat n + r) =
    let '(x, y, z) := decTurn (2 ^ Z.of_nat n - 1) (Z.testbit d 2) (Z.testbit d 1) (Z.testbit d 0) (hilbertDec n r) in
    (x + Z.b2z (Z.testbit d 2) * 2 ^ Z.of_nat n, y + Z.b2z (xorb (Z.testbit d 2) (Z.testbit d 1)) * 2 ^ Z.of_nat n,
     z + Z.b2z (xorb (Z.testbit d 1) (Z.testbit d 0)) * 2 ^ Z.of_nat n).
Proof.
  intros Hr. cbn [hilbertDec].
  destruct (digit_bits n d r (3 * Z.of_nat n + 2) Hr ltac:(lia)) as [_ E2].
  destruct (digit_bits n d r (3 * Z.of_nat n + 1) Hr ltac:(lia)) as [_ E1].
  destruct (digit_bits n d r (3 * Z.of_nat n) Hr ltac:(lia)) as [_ E0].
  rewrite E2, E1, E0 by lia. rewrite Z.sub_diag, !Z.add_simpl_l.
  by rewrite (hilbertDec_ext n _ r) by (intros; apply digit_bits; [done|lia|lia]).
Qed.

(** Consecutive keys are cells that share a face. *)
Lemma hilbertDec_adjacent n key :
  0 <= key -> key + 1 < 8 ^ Z.of_nat n -> dist1 (hilbertDec n key) (hilbertDec n (key + 1)) = 1.
Proof.
  revert key. induction n as [|n IH]; intros key Hk Hlt; [change (8 ^ Z.of_nat 0) with 1 in Hlt; lia|].
  replace (Z.of_nat (S n)) with (Z.of_nat n + 1) in Hlt by lia. rewrite pow8_succ in Hlt by lia.
  pose proof (pow8_pos (Z.of_nat n) ltac:(lia)) as H8. pose proof (pow2_nat_pos n) as H2.
  pose proof (Z.div_mod key (8 ^ Z.of_nat n) ltac:(lia)) as Hdm.
  pose proof (Z.mod_pos_bound key (8 ^ Z.of_nat n) ltac:(lia)) as Hm.
  assert (0 <= key / 8 ^ Z.of_nat n < 8) as Hd by (split; [apply Z.div_pos|apply Z.div_lt_upper_bound]; lia).
  set (d := key / 8 ^ Z.of_nat n) in *. set (r := key mod 8 ^ Z.of_nat n) in *.
  replace key with (d * 8 ^ Z.of_nat n + r) by lia. rewrite hilbertDec_digit by done.
  destruct (decide (r + 1 < 8 ^ Z.of_nat n)) as [Hin|Hout].
  - replace (d * 8 ^ Z.of_nat n + r + 1) with (d * 8 ^ Z.of_nat n + (r + 1)) by lia. rewrite hilbertDec_digit by lia.
    specialize (IH r ltac:(lia) Hin).
    rewrite <- (decTurn_dist (2 ^ Z.of_nat n - 1) (Z.testbit d 2) (Z.testbit d 1) (Z.testbit d 0)) in IH.
    destruct (decTurn _ _ _ _ (hilbertDec n r)) as [[x y] z], (decTurn _ _ _ _ (hilbertDec n (r + 1))) as [[x' y'] z'].
    unfold dist1 in *. lia.
  - assert (r = 8 ^ Z.of_nat n - 1) as -> by lia.
    replace (d * 8 ^ Z.of_nat n + (8 ^ Z.of_nat n - 1) + 1) with ((d + 1) * 8 ^ Z.of_nat n + 0) by lia.
    rewrite hilbertDec_digit by lia. rewrite hilbertDec_end, hilbertDec_start.
    assert (d < 7) by nia.
    assert (d = 0 \/ d = 1 \/ d = 2 \/ d = 3 \/ d = 4 \/ d = 5 \/ d = 6) as Hcases by lia. clear -Hcases H2.
    destruct Hcases as [-> | [-> | [-> | [-> | [-> | [-> | ->]]]]]]; unfold decTurn, flip, dist1; simpl; lia.
Qed.

(** ** The code computes the reference curve *)

Lemma land1_bit p n : 0 <= n -> Z.land (Z.shiftr p n) 1 = Z.b2z (Z.testbit p n).
Proof.
  intros. change 1 with (Z.ones 1). rewrite Z.land_ones by lia. rewrite Z.shiftr_div_pow2, Z.testbit_eqb by lia.
  change (2 ^ 1) with 2. pose proof (Z.mod_pos_bound (p / 2 ^ n) 2 ltac:(lia)).
  destruct (Z.eqb_spec ((p / 2 ^ n) mod 2) 1); simpl; lia.
Qed.

(** Complement of the low bits. *)
Lemma lxor_complement v n : 0 <= n -> 0 <= v < 2 ^ n -> Z.lxor v (Z.ones n) = 2 ^ n - 1 - v.
Proof.
  intros Hn Hv. replace (2 ^ n - 1) with (Z.ones n) by (rewrite Z.ones_equiv; lia).
  assert (Z.ldiff v (Z.ones n) = 0).
  { rewrite Z.ldiff_ones_r, Z.shiftr_div_pow2, Z.div_small by lia. apply Z.shiftl_0_l. }
  rewrite Z.sub_nocarry_ldiff by done. apply Z.bits_inj'. intros i Hi.
  rewrite Z.lxor_spec, Z.ldiff_spec. destruct (Z.lt_ge_cases i n).
  - rewrite Z.ones_spec_low by lia. by destruct (Z.testbit v i).
  - rewrite Z.ones_spec_high by lia. rewrite <- (Z.mod_small v (2 ^ n)), Z.mod_pow2_bits_high by lia. done.
Qed.

Lemma flip_mod (b : bool) p n :
  0 <= n <= 32 -> (Z.lxor p (u32 (- Z.b2z b))) mod 2 ^ n = flip b (2 ^ n - 1) (p mod 2 ^ n).
Proof.
  intros Hn. assert (0 < 2 ^ n) by (apply Z.pow_pos_nonneg; lia). destruct b; simpl.
  - change (u32 (- (1))) with (Z.ones 32). rewrite <- lxor_complement by (try apply Z.mod_pos_bound; lia).
    rewrite <- !Z.land_ones by lia. apply Z.bits_inj'. intros i Hi.
    rewrite Z.land_spec, !Z.lxor_spec, Z.land_spec. destruct (Z.lt_ge_cases i n).
    + rewrite !Z.ones_spec_low by lia. by destruct (Z.testbit p i).
    + rewrite !(Z.ones_spec_high n) by lia. by rewrite !andb_false_r.
  - change (u32 (- (0))) with 0. by rewrite Z.lxor_0_r.
Qed.

Lemma flip_nonneg (b : bool) p : 0 <= p -> 0 <= Z.lxor p (u32 (- Z.b2z b)).
Proof. intros. apply Z.lxor_nonneg. pose proof (wrap_range 32 (- Z.b2z b) ltac:(lia)). unfold u32. lia. Qed.

Lemma lnotu_b2z b : lnotu (Z.b2z b) = Z.b2z (negb b).
Proof. by destruct b. Qed.

Lemma land_b2z a b : Z.land (Z.b2z a) (Z.b2z b) = Z.b2z (a && b).
Proof. by destruct a, b. Qed.

Lemma lor_b2z a b : Z.lor (Z.b2z a) (Z.b2z b) = Z.b2z (a || b).
Proof. by destruct a, b. Qed.

Lemma lxor_b2z a b : Z.lxor (Z.b2z a) (Z.b2z b) = Z.b2z (xorb a b).
Proof. by destruct a, b. Qed.

Lemma b2z_eqb0 b : (Z.b2z b =? 0) = negb b.
Proof. by destruct b. Qed.

Create Rewrite HintDb bits.
#[export] Hint Rewrite lnotu_b2z land_b2z lor_b2z lxor_b2z b2z_eqb0 negb_involutive : bits.

(** All three coordinates are non-negative. *)
Definition nonneg3 (p : Z * Z * Z) : Prop := let '(x, y, z) := p in 0 <= x /\ 0 <= y /\ 0 <= z.

Lemma iHilbertStep_spec k (n : nat) key px py pz :
  Z.of_nat n <= 32 -> nonneg3 (px, py, pz) -> 0 <= key -> key * 8 + 8 <= keyMax k ->
  let cx := Z.testbit px (Z.of_nat n) in let cy := Z.testbit py (Z.of_nat n) in
  let cz := Z.testbit pz (Z.of_nat n) in
  exists p, iHilbertStep k (Z.of_nat n) (key, (px, py, pz)) = (key * 8 + grayDigit cx cy cz, p) /\ nonneg3 p /\
    low n p = encTurn (2 ^ Z.of_nat n - 1) cx cy cz (low n (px, py, pz)).
Proof.
  intros Hn (Hx & Hy & Hz) Hk0 Hk cx cy cz. unfold iHilbertStep. rewrite !land1_bit by lia. fold cx cy cz.
  autorewrite with bits.
  assert (nthz mortonToHilbert (Z.lor (Z.lor (Z.shiftl (Z.b2z cx) 2) (Z.shiftl (Z.b2z cy) 1)) (Z.b2z cz)) = grayDigit cx cy cz)
    as -> by by destruct cx, cy, cz.
  pose proof (grayDigit_range cx cy cz). rewrite Z.shiftl_mul_pow2 by lia. change (2 ^ 3) with 8.
  rewrite !kwrap_small by (rewrite ?kwrap_small by lia; lia).
  unfold encTurn, low. rewrite <- !flip_mod by lia.
  destruct cz; [|destruct (negb cy)]; eexists; (split; [reflexivity|]); (split; [repeat split; by apply flip_nonneg|]); done.
Qed.

Lemma low_low n p : low n (low (S n) p) = low n p.
Proof.
  destruct p as [[x y] z]. unfold low. pose proof (pow2_nat_pos n).
  assert (H' : forall v, (v mod 2 ^ Z.of_nat (S n)) mod 2 ^ Z.of_nat n = v mod 2 ^ Z.of_nat n).
  { intros v. apply Z.mod_mod_divide.
    exists 2. replace (Z.of_nat (S n)) with (1 + Z.of_nat n) by lia. rewrite Z.pow_add_r by lia. done. }
  by rewrite !H'.
Qed.

Lemma hilbertEnc_low n p : hilbertEnc n p = hilbertEnc n (low n p).
Proof.
  destruct n as [|n]; [done|]. cbn [hilbertEnc]. rewrite low_low. destruct p as [[x y] z]. cbn [low].
  by rewrite !Z.mod_pow2_bits_low by lia.
Qed.

Lemma iHilbertLoop_spec k n key p :
  Z.of_nat n <= 32 -> nonneg3 p -> 0 <= key -> (key + 1) * 8 ^ Z.of_nat n <= keyMax k ->
  fst (iHilbertLoop k n (key, p)) = key * 8 ^ Z.of_nat n + hilbertEnc n p.
Proof.
  revert key p. induction n as [|n IH]; intros key p Hn Hp Hk Hkm; [simpl; lia|].
  cbn [iHilbertLoop]. destruct p as [[x y] z]. pose proof (pow8_pos (Z.of_nat n) ltac:(lia)).
  replace (8 ^ Z.of_nat (S n)) with (8 * 8 ^ Z.of_nat n) in * by (rewrite <- pow8_succ by lia; f_equal; lia).
  destruct (iHilbertStep_spec k n key x y z) as (p' & -> & Hp' & Hlow); [lia|done|lia|nia|].
  set (g := grayDigit _ _ _) in *. assert (0 <= g < 8) by apply grayDigit_range.
  rewrite IH; [|lia|done|lia|nia]. rewrite hilbertEnc_low, Hlow. cbn [hilbertEnc]. fold g.
  rewrite <- (low_small n (encTurn _ _ _ _ _)) at 1 by apply encTurn_inCube, low_inCube. rewrite <- hilbertEnc_low. lia.
Qed.

Lemma maxLevel_nat k : Z.of_nat (Z.to_nat (maxTreeLevel k)) = maxTreeLevel k.
Proof. by destruct k. Qed.

Lemma iHilbert_ref k px py pz :
  0 <= px -> 0 <= py -> 0 <= pz -> iHilbert k px py pz = hilbertEnc (Z.to_nat (maxTreeLevel k)) (px, py, pz).
Proof.
  intros. unfold iHilbert. kfacts k. rewrite iHilbertLoop_spec; [lia|rewrite maxLevel_nat; lia|done|lia|].
  rewrite maxLevel_nat. unfold keyMax. lia.
Qed.

(** [px ^= mask & -b; px |= c << level]. *)
Lemma decode_bit (b c : bool) v (n : nat) :
  Z.of_nat n < 32 -> 0 <= v < 2 ^ Z.of_nat n ->
  Z.lor (Z.lxor v (Z.land (u32 (Z.shiftl 1 (Z.of_nat n) - 1)) (u32 (- Z.b2z b)))) (u32 (Z.shiftl (Z.b2z c) (Z.of_nat n))) =
    flip b (2 ^ Z.of_nat n - 1) v + Z.b2z c * 2 ^ Z.of_nat n.
Proof.
  intros Hn Hv. pose proof (pow2_nat_pos n). assert (2 ^ Z.of_nat n <= 2 ^ 31) by (apply Z.pow_le_mono_r; lia).
  change (2 ^ 31) with 2147483648 in *. rewrite !Z.shiftl_mul_pow2 by lia. rewrite Z.mul_1_l.
  assert (Z.lxor v (Z.land (u32 (2 ^ Z.of_nat n - 1)) (u32 (- Z.b2z b))) = flip b (2 ^ Z.of_nat n - 1) v) as ->.
  { rewrite (u32_small (2 ^ Z.of_nat n - 1)) by lia.
    replace (2 ^ Z.of_nat n - 1) with (Z.ones (Z.of_nat n)) at 1 by (rewrite Z.ones_equiv; lia). destruct b; simpl.
    - change (u32 (- (1))) with (Z.ones 32). rewrite Z.land_ones by lia.
      rewrite (Z.mod_small (Z.ones _)) by (rewrite Z.ones_equiv; change (2 ^ 32) with 4294967296; lia).
      by apply lxor_complement; lia.
    - change (u32 (- (0))) with 0. by rewrite Z.land_0_r, Z.lxor_0_r. }
  pose proof (flip_range b (2 ^ Z.of_nat n) v Hv) as Hf. set (f := flip _ _ _) in *.
  destruct c; simpl.
  - rewrite Z.mul_1_l, u32_small by lia. rewrite Z.lor_comm, lor_pow2_small by lia. lia.
  - rewrite Z.mul_0_l. change (u32 0) with 0. rewrite Z.lor_0_r. lia.
Qed.

Lemma decodeHilbertStep_spec (n : nat) key p :
  0 <= key -> Z.of_nat n < 32 -> inCube n p ->
  decodeHilbertStep key (Z.of_nat n) p =
    let hx := Z.testbit key (3 * Z.of_nat n + 2) in
    let hy := Z.testbit key (3 * Z.of_nat n + 1) in
    let hz := Z.testbit key (3 * Z.of_nat n) in
    let '(x, y, z) := decTurn (2 ^ Z.of_nat n - 1) hx hy hz p in
    (x + Z.b2z hx * 2 ^ Z.of_nat n, y + Z.b2z (xorb hx hy) * 2 ^ Z.of_nat n, z + Z.b2z (xorb hy hz) * 2 ^ Z.of_nat n).
Proof.
  intros Hk Hn Hp. destruct p as [[px py] pz]. destruct Hp as (Hx & Hy & Hz). unfold decodeHilbertStep. cbn zeta.
  set (o := Z.land (Z.shiftr key (3 * Z.of_nat n)) 7).
  assert (Hbit : forall i, 0 <= i < 3 -> Z.testbit o i = Z.testbit key (3 * Z.of_nat n + i)).
  { intros i Hi. unfold o. rewrite Z.land_spec, Z.shiftr_spec by lia. change 7 with (Z.ones 3).
    rewrite Z.ones_spec_low by lia. rewrite andb_true_r. f_equal. lia. }
  assert (0 <= o < 8) by (unfold o; rewrite land_7; apply Z.mod_pos_bound; lia).
  assert (Z.shiftr o 2 = Z.b2z (Z.testbit o 2)) as ->.
  { rewrite <- land1_bit by lia. change 1 with (Z.ones 1). rewrite Z.land_ones by lia. symmetry. apply Z.mod_small.
    rewrite Z.shiftr_div_pow2 by lia. change (2 ^ 2) with 4. change (2 ^ 1) with 2. Z.div_mod_to_equations. lia. }
  rewrite land1_bit by lia. replace (Z.land o 1) with (Z.b2z (Z.testbit o 0)) by (rewrite <- land1_bit by lia; by rewrite Z.shiftr_0_r).
  rewrite !Hbit by lia. rewrite Z.add_0_r.
  set (hx := Z.testbit key (3 * Z.of_nat n + 2)). set (hy := Z.testbit key (3 * Z.of_nat n + 1)). set (hz := Z.testbit key (3 * Z.of_nat n)).
  autorewrite with bits. unfold decTurn.
  destruct (xorb hy hz); [|destruct ((negb hx && negb hy && negb hz) || (hx && hy && hz))]; by rewrite !decode_bit.
Qed.

Lemma decodeHilbertLoop_ref (n : nat) key : 0 <= key -> Z.of_nat n <= 32 -> decodeHilbertLoop n key = hilbertDec n key.
Proof.
  intros Hk. induction n as [|n IH]; intros Hn; [done|]. cbn [decodeHilbertLoop hilbertDec].
  rewrite IH by lia. rewrite decodeHilbertStep_spec; [done|done|lia|apply hilbertDec_inCube].
Qed.

Lemma decodeHilbert_ref k key : 0 <= key -> decodeHilbert k key = hilbertDec (Z.to_nat (maxTreeLevel k)) key.
Proof. intros. kfacts k. apply decodeHilbertLoop_ref; [done|]. rewrite maxLevel_nat. lia. Qed.
