(* ===== verification/Sfc.v ===== *)
(** * Space filling curves

    [cstone/sfc/sfc.hpp]: the selection between Morton and Hilbert keys, boxes of key ranges
    and neighbor keys.  The octree code relies on a curve only through the laws stated in
    the class [SfcLaws]; both curves are instances. *)

From S2P Require Import Prelude Primitives SfcCommon SfcBox Morton Hilbert.

(** The strong types [MortonKey] and [HilbertKey]. *)
Inductive SfcKind := MortonKey | HilbertKey.

#[export] Instance SfcKind_eq_dec : EqDecision SfcKind.
Proof. solve_decision. Defined.

Definition iSfcKey (s : SfcKind) (k : KeyType) (ix iy iz : Z) : Z :=
  match s with MortonKey => iMorton k ix iy iz | HilbertKey => iHilbert k ix iy iz end.

Definition decodeSfc (s : SfcKind) (k : KeyType) (key : Z) : Z * Z * Z :=
  match s with MortonKey => decodeMorton k key | HilbertKey => decodeHilbert k key end.

Definition sfcIBox (s : SfcKind) (k : KeyType) (keyStart level : Z) : IBox :=
  match s with MortonKey => mortonIBox k keyStart level | HilbertKey => hilbertIBox k keyStart level end.

Definition sfcIBoxKeys (s : SfcKind) (k : KeyType) (keyStart keyEnd : Z) : IBox :=
  sfcIBox s k keyStart (treeLevel k (kwrap k (keyEnd - keyStart))).

(** [ibox.xmin() + dx * shiftValue] mixes [int] and [unsigned] and is unsigned. *)
Definition sfcNeighbor (s : SfcKind) (k : KeyType) (ibox : IBox) (level dx dy dz : Z) : Z :=
  let pbcRange := u32 (Z.shiftl 1 (maxTreeLevel k)) in
  let shiftValue := u32 (xmax ibox - xmin ibox) in
  let x := pbcAdjust pbcRange (i32 (u32 (xmin ibox + u32 (dx * shiftValue)))) in
  let y := pbcAdjust pbcRange (i32 (u32 (ymin ibox + u32 (dy * shiftValue)))) in
  let z := pbcAdjust pbcRange (i32 (u32 (zmin ibox + u32 (dz * shiftValue)))) in
  let key := iSfcKey s k x y z in
  enclosingBoxCode k key level.

(** ** What the octree code relies on *)

(** A cell of the finest level. *)
Definition isCell (k : KeyType) (p : Z * Z * Z) : Prop :=
  let '(x, y, z) := p in 0 <= x < maxCoord k /\ 0 <= y < maxCoord k /\ 0 <= z < maxCoord k.

Definition encode3 (enc : Z -> Z -> Z -> Z) (p : Z * Z * Z) : Z := let '(x, y, z) := p in enc x y z.

(** A bijection between cells and keys that maps octree nodes to octree cubes. *)
Class SfcLaws (k : KeyType) (enc : Z -> Z -> Z -> Z) (dec : Z -> Z * Z * Z) : Prop := {
  sfc_enc_range : forall p, isCell k p -> 0 <= encode3 enc p < keyMax k;
  sfc_dec_range : forall key, 0 <= key < keyMax k -> isCell k (dec key);
  sfc_dec_enc : forall p, isCell k p -> dec (encode3 enc p) = p;
  sfc_enc_dec : forall key, 0 <= key < keyMax k -> encode3 enc (dec key) = key;
  sfc_coarse : forall j key key', 0 <= j <= maxTreeLevel k -> 0 <= key < keyMax k -> 0 <= key' < keyMax k ->
    (key / 8 ^ j = key' / 8 ^ j <-> divp (2 ^ j) (dec key) = divp (2 ^ j) (dec key'))
}.

Lemma maxCoord_pow2 k : maxCoord k = 2 ^ maxTreeLevel k.
Proof. by destruct k. Qed.

Lemma keyMax_nat k : 8 ^ Z.of_nat (Z.to_nat (maxTreeLevel k)) = keyMax k.
Proof. by destruct k. Qed.

Lemma isCell_inCube k p : isCell k p <-> inCube (Z.to_nat (maxTreeLevel k)) p.
Proof. destruct p as [[x y] z]. unfold isCell, inCube. by rewrite maxLevel_nat, maxCoord_pow2. Qed.

(** ** Hilbert *)

#[export] Instance Hilbert_laws k : SfcLaws k (iHilbert k) (decodeHilbert k).
Proof.
  assert (Henc : forall p, isCell k p -> encode3 (iHilbert k) p = hilbertEnc (Z.to_nat (maxTreeLevel k)) p).
  { intros [[x y] z] (? & ? & ?). apply iHilbert_ref; lia. }
  split.
  - intros p Hp. rewrite Henc by done. rewrite <- keyMax_nat. apply hilbertEnc_range.
  - intros key Hk. rewrite decodeHilbert_ref by lia. apply isCell_inCube, hilbertDec_inCube.
  - intros p Hp. rewrite Henc by done. pose proof (hilbertEnc_range (Z.to_nat (maxTreeLevel k)) p).
    rewrite decodeHilbert_ref by lia. apply isCell_inCube in Hp. destruct p as [[x y] z]. pose proof Hp as (? & ? & ?).
    rewrite hilbertDec_Enc by lia. by apply low_small.
  - intros key Hk. rewrite Henc.
    + rewrite decodeHilbert_ref, hilbertEnc_Dec, keyMax_nat by lia. by apply Z.mod_small.
    + rewrite decodeHilbert_ref by lia. apply isCell_inCube, hilbertDec_inCube.
  - intros j key key' Hj Hk Hk'. rewrite !decodeHilbert_ref by lia.
    assert (Hdiv : forall v, 0 <= v -> divp (2 ^ j) (hilbertDec (Z.to_nat (maxTreeLevel k)) v) =
      hilbertDec (Z.to_nat (maxTreeLevel k - j)) (v / 8 ^ j)).
    { intros v Hv. pose proof (hilbertDec_div (Z.to_nat (maxTreeLevel k - j)) (Z.to_nat j) v Hv) as E.
      rewrite Z2Nat.id in E by lia. rewrite <- E. do 2 f_equal. lia. }
    rewrite !Hdiv by lia. split; [congruence|].
    intros E. apply (f_equal (hilbertEnc (Z.to_nat (maxTreeLevel k - j)))) in E.
    assert (H8 : 0 < 8 ^ j) by (apply pow8_pos; lia).
    assert (Hsmall : forall v, 0 <= v < keyMax k -> 0 <= v / 8 ^ j < 8 ^ (maxTreeLevel k - j)).
    { intros v Hv. split; [apply Z.div_pos; lia|]. apply Z.div_lt_upper_bound; [lia|].
      rewrite <- Z.pow_add_r by lia. replace (j + (maxTreeLevel k - j)) with (maxTreeLevel k) by lia. apply Hv. }
    rewrite !hilbertEnc_Dec in E by (apply Z.div_pos; lia).
    rewrite Z2Nat.id in E by lia. by rewrite !Z.mod_small in E by auto.
Qed.

(** ** Morton *)

Lemma iMorton_interleave k p :
  isCell k p -> encode3 (iMorton k) p = let '(x, y, z) := p in interleave (maxTreeLevel k) x y z.
Proof.
  destruct p as [[x y] z]. intros (Hx & Hy & Hz). simpl. unfold iMorton. rewrite !expandBits_spread by done.
  fold (interleave (maxTreeLevel k) x y z). apply kwrap_small.
  kfacts k. pose proof (interleave_range (Z.to_nat (maxTreeLevel k)) x y z) as Hr. rewrite keyMax_nat, maxLevel_nat in Hr. lia.
Qed.

Lemma deinterleave_div n j v :
  divp (2 ^ Z.of_nat j) (deinterleave (n + j) v) = deinterleave n (v / 8 ^ Z.of_nat j).
Proof.
  unfold deinterleave, divp. rewrite !collect_div. pose proof (pow8_pos (Z.of_nat j)).
  rewrite !(Z.div_div v) by lia. by rewrite !(Z.mul_comm (8 ^ Z.of_nat j)).
Qed.

#[export] Instance Morton_laws k : SfcLaws k (iMorton k) (decodeMorton k).
Proof.
  kfacts k.
  assert (Hcell : forall v, 0 <= v < keyMax k -> isCell k (decodeMorton k v)).
  { intros v Hv. rewrite decodeMorton_ref by done. apply isCell_inCube. repeat split; apply collect_range. }
  split.
  - intros [[x y] z] Hp. rewrite iMorton_interleave by done.
    pose proof (interleave_range (Z.to_nat (maxTreeLevel k)) x y z) as Hr. by rewrite keyMax_nat, maxLevel_nat in Hr.
  - done.
  - intros [[x y] z] Hp. rewrite iMorton_interleave by done.
    pose proof (interleave_range (Z.to_nat (maxTreeLevel k)) x y z) as Hr. rewrite keyMax_nat, maxLevel_nat in Hr.
    rewrite decodeMorton_ref by done. unfold deinterleave.
    destruct (collect_interleave (Z.to_nat (maxTreeLevel k)) x y z) as (Ex & Ey & Ez). rewrite maxLevel_nat in *.
    rewrite Ex, Ey, Ez. destruct Hp as (? & ? & ?). rewrite maxCoord_pow2 in *. by rewrite !Z.mod_small.
  - intros key Hk. rewrite iMorton_interleave by auto. rewrite decodeMorton_ref by done. unfold deinterleave.
    rewrite <- (maxLevel_nat k) at 1. rewrite interleave_collect, keyMax_nat. by apply Z.mod_small.
  - intros j key key' Hj Hk Hk'. rewrite !decodeMorton_ref by done.
    assert (Hdiv : forall v, divp (2 ^ j) (deinterleave (Z.to_nat (maxTreeLevel k)) v) =
      deinterleave (Z.to_nat (maxTreeLevel k - j)) (v / 8 ^ j)).
    { intros v. pose proof (deinterleave_div (Z.to_nat (maxTreeLevel k - j)) (Z.to_nat j) v) as E.
      rewrite Z2Nat.id in E by lia. rewrite <- E. do 2 f_equal. lia. }
    rewrite !Hdiv. split; [congruence|].
    intros E. assert (H8 : 0 < 8 ^ j) by (apply pow8_pos; lia).
    assert (Hsmall : forall v, 0 <= v < keyMax k -> 0 <= v / 8 ^ j < 8 ^ (maxTreeLevel k - j)).
    { intros v Hv. split; [apply Z.div_pos; lia|]. apply Z.div_lt_upper_bound; [lia|].
      rewrite <- Z.pow_add_r by lia. replace (j + (maxTreeLevel k - j)) with (maxTreeLevel k) by lia. apply Hv. }
    pose proof (interleave_collect (Z.to_nat (maxTreeLevel k - j)) (key / 8 ^ j)) as E1.
    pose proof (interleave_collect (Z.to_nat (maxTreeLevel k - j)) (key' / 8 ^ j)) as E2.
    unfold deinterleave in E. rewrite !Z2Nat.id in * by lia. injection E as Ea Eb Ec.
    rewrite Ea, Eb, Ec in E1. rewrite Z.mod_small in E1, E2 by auto. congruence.
Qed.

#[export] Instance Sfc_laws s k : SfcLaws k (iSfcKey s k) (decodeSfc s k).
Proof. destruct s; apply _. Qed.

(** ** Boxes of octree nodes, for every curve *)

(** The cube of edge length [2^j] that contains the cell [p]. *)
Definition nodeBox (j : Z) (p : Z * Z * Z) : IBox :=
  let '(x, y, z) := divp (2 ^ j) p in
  mkIBox (x * 2 ^ j) (x * 2 ^ j + 2 ^ j) (y * 2 ^ j) (y * 2 ^ j + 2 ^ j) (z * 2 ^ j) (z * 2 ^ j + 2 ^ j).

Lemma div_interval d x q : 0 < d -> q * d <= x < q * d + d <-> x / d = q.
Proof.
  intros Hd. split.
  - intros Hx. symmetry. apply Z.div_unique_pos with (x - q * d); lia.
  - intros <-. pose proof (Z.div_mod x d ltac:(lia)). pose proof (Z.mod_pos_bound x d ltac:(lia)). lia.
Qed.

Lemma inIBox_nodeBox j p q : 0 <= j -> inIBox (nodeBox j p) q <-> divp (2 ^ j) q = divp (2 ^ j) p.
Proof.
  intros Hj. assert (0 < 2 ^ j) by (apply Z.pow_pos_nonneg; lia).
  destruct p as [[x y] z], q as [[x' y'] z']. unfold inIBox, nodeBox, divp. simpl. rewrite !div_interval by done.
  split; [intros (-> & -> & ->); done|intros [= -> -> ->]; done].
Qed.

Section Boxes.
Context {k : KeyType} {enc : Z -> Z -> Z -> Z} {dec : Z -> Z * Z * Z} `{!SfcLaws k enc dec}.

(** The cells in the box of a node are exactly the cells with keys in its range. *)
Lemma nodeBox_keys start j p :
  0 <= j <= maxTreeLevel k -> 0 <= start < keyMax k -> (8 ^ j | start) -> isCell k p ->
  inIBox (nodeBox j (dec start)) p <-> start <= encode3 enc p < start + 8 ^ j.
Proof.
  intros Hj Hs [c Hc] Hp. pose proof (pow8_pos j ltac:(lia)).
  rewrite inIBox_nodeBox by lia. rewrite <- (sfc_dec_enc (enc := enc) p) at 1 by done.
  rewrite <- sfc_coarse by (try apply (sfc_enc_range (enc := enc)); done || lia).
  rewrite Hc, Z.div_mul by lia. by rewrite <- div_interval.
Qed.
End Boxes.

Lemma small_int32 x k : 0 <= x <= maxCoord k -> i32 x = x /\ u32 x = x.
Proof.
  intros Hx. assert (maxCoord k <= 2097152) by (destruct k; vm_compute; congruence).
  rewrite i32_small, u32_small; lia.
Qed.

(** Multiples of [2^j] below [2^n] leave room for a whole cube. *)
Lemma cube_fits n j x : 0 <= j <= n -> 0 <= x < 2 ^ n -> 0 <= x / 2 ^ j * 2 ^ j /\ x / 2 ^ j * 2 ^ j + 2 ^ j <= 2 ^ n.
Proof.
  intros Hj Hx. assert (0 < 2 ^ j) by (apply Z.pow_pos_nonneg; lia).
  assert (2 ^ n = 2 ^ (n - j) * 2 ^ j) as E by (rewrite <- Z.pow_add_r by lia; f_equal; lia).
  assert (0 <= x / 2 ^ j) by (apply Z.div_pos; lia).
  assert (x / 2 ^ j < 2 ^ (n - j)) by (apply Z.div_lt_upper_bound; lia). nia.
Qed.

(** Rounding down by masking. *)
Lemma mask_floor n j x : 0 <= j <= n -> n <= 31 -> 0 <= x < 2 ^ n ->
  Z.land x (u32 (Z.lnot (2 ^ j - 1))) = x / 2 ^ j * 2 ^ j.
Proof.
  intros Hj Hn Hx. assert (0 < 2 ^ j) by (apply Z.pow_pos_nonneg; lia).
  assert (2 ^ n <= 2 ^ 31) by (apply Z.pow_le_mono_r; lia).
  unfold u32, wrap. rewrite <- Z.land_ones by lia. rewrite Z.land_assoc, Z.land_ones by lia.
  replace (2 ^ j - 1) with (Z.ones j) by (rewrite Z.ones_equiv; lia). rewrite land_lnot_ones by lia.
  pose proof (cube_fits n j x Hj Hx). rewrite Z.mod_small by lia. lia.
Qed.

Lemma hilbertIBox_nodeBox k start level :
  0 <= level <= maxTreeLevel k -> 0 <= start < keyMax k ->
  hilbertIBox k start level = nodeBox (maxTreeLevel k - level) (decodeHilbert k start).
Proof.
  intros Hl Hs. kfacts k. pose proof (sfc_dec_range (enc := iHilbert k) start Hs) as Hc.
  unfold hilbertIBox, nodeBox. rewrite Z.shiftl_1_l. fold (2 ^ maxTreeLevel k). rewrite <- maxCoord_pow2.
  assert (maxCoord k <= 2097152 /\ 0 < maxCoord k) by (destruct k; vm_compute; split; congruence).
  rewrite !(u32_small (maxCoord k)) by lia. rewrite maxCoord_pow2 in *. set (n := maxTreeLevel k) in *. set (j := n - level) in *.
  assert (Z.shiftr (2 ^ n) level = 2 ^ j) as ->.
  { rewrite Z.shiftr_div_pow2 by lia. unfold j. by rewrite Z.pow_sub_r by lia. }
  assert (0 < 2 ^ j) by (apply Z.pow_pos_nonneg; lia). assert (2 ^ j <= 2 ^ n) by (apply Z.pow_le_mono_r; lia).
  rewrite (u32_small (2 ^ j - 1)) by lia. destruct (decodeHilbert k start) as [[x y] z]. simpl.
  destruct Hc as (Hx & Hy & Hz). rewrite maxCoord_pow2 in *. fold n in Hx, Hy, Hz.
  rewrite !(mask_floor n j) by lia.
  pose proof (cube_fits n j x ltac:(lia) Hx). pose proof (cube_fits n j y ltac:(lia) Hy). pose proof (cube_fits n j z ltac:(lia) Hz).
  rewrite !u32_small by lia. rewrite !i32_small by lia. done.
Qed.

Lemma mortonIBox_nodeBox k start level :
  0 <= level <= maxTreeLevel k -> 0 <= start < keyMax k -> (8 ^ (maxTreeLevel k - level) | start) ->
  mortonIBox k start level = nodeBox (maxTreeLevel k - level) (decodeMorton k start).
Proof.
  intros Hl Hs [c Hdiv]. kfacts k. pose proof (sfc_dec_range (enc := iMorton k) start Hs) as Hc.
  unfold mortonIBox, nodeBox. set (n := maxTreeLevel k) in *. set (j := n - level) in *.
  assert (maxCoord k <= 2097152 /\ 0 < maxCoord k) by (destruct k; vm_compute; split; congruence).
  rewrite (u32_small j), Z.shiftl_1_l by lia. rewrite decodeMorton_ref in * by done. unfold deinterleave, divp in *.
  assert (0 < 2 ^ j) by (apply Z.pow_pos_nonneg; lia). assert (2 ^ j <= 2 ^ n) by (apply Z.pow_le_mono_r; lia).
  rewrite maxCoord_pow2 in *. fold n in Hc, H4 |- *.
  assert (Hexact : forall s, 0 <= s < 3 -> collect (Z.of_nat (Z.to_nat n)) (start / 2 ^ s) =
    collect (Z.of_nat (Z.to_nat n)) (start / 2 ^ s) / 2 ^ j * 2 ^ j).
  { intros s Hs'. pose proof (collect_mod (Z.to_nat (n - j)) (Z.to_nat j) (start / 2 ^ s)) as E.
    replace (Z.to_nat (n - j) + Z.to_nat j)%nat with (Z.to_nat n) in E by lia.
    rewrite Hdiv in E at 2. pose proof (collect_zero (Z.to_nat j) s c Hs') as E0. rewrite (Z2Nat.id j) in E, E0 by lia.
    rewrite E0 in E. pose proof (Z.div_mod (collect (Z.of_nat (Z.to_nat n)) (start / 2 ^ s)) (2 ^ j) ltac:(lia)).
    lia. }
  pose proof (Hexact 0 ltac:(lia)) as E0. pose proof (Hexact 1 ltac:(lia)) as E1. pose proof (Hexact 2 ltac:(lia)) as E2.
  change (2 ^ 2) with 4 in E2. change (2 ^ 1) with 2 in E1. change (2 ^ 0) with 1 in E0. rewrite Z.div_1_r in E0.
  destruct Hc as (Hx & Hy & Hz). rewrite maxCoord_pow2 in *. fold n in Hx, Hy, Hz.
  pose proof (cube_fits n j _ ltac:(lia) Hx). pose proof (cube_fits n j _ ltac:(lia) Hy). pose proof (cube_fits n j _ ltac:(lia) Hz).
  rewrite !(u32_small (2 ^ j)) by lia. rewrite <- E0, <- E1, <- E2 in *.
  rewrite !u32_small by lia. rewrite !i32_small by lia. done.
Qed.

Lemma sfcIBox_nodeBox s k start level :
  0 <= level <= maxTreeLevel k -> 0 <= start < keyMax k -> (8 ^ (maxTreeLevel k - level) | start) ->
  sfcIBox s k start level = nodeBox (maxTreeLevel k - level) (decodeSfc s k start).
Proof. intros. destruct s; [by apply mortonIBox_nodeBox|by apply hilbertIBox_nodeBox]. Qed.

(** ** Neighbor keys *)

Lemma unsigned_shift a b : -2147483648 <= a + b < 2147483648 -> i32 (u32 (a + u32 b)) = a + b.
Proof.
  intros H. unfold u32, wrap, i32, swrap. rewrite Z.add_mod_idemp_r by lia.
  rewrite Z.add_mod_idemp_l by lia. rewrite Z.mod_small; change (32 - 1) with 31 in *; lia.
Qed.

(** The shifted coordinate of a cube of edge length [2^j], wrapped into the box. *)
Lemma neighbor_coord k j X d :
  0 <= j <= maxTreeLevel k -> 0 <= X -> X * 2 ^ j + 2 ^ j <= maxCoord k -> -1 <= d <= 1 ->
  let x' := pbcAdjust (u32 (Z.shiftl 1 (maxTreeLevel k))) (i32 (u32 (X * 2 ^ j + u32 (d * 2 ^ j)))) in
  x' = (X * 2 ^ j + d * 2 ^ j) mod maxCoord k /\ 0 <= x' < maxCoord k /\ x' / 2 ^ j * 2 ^ j = x'.
Proof.
  intros Hj HX Hfit Hd x'. kfacts k.
  assert (maxCoord k <= 2097152 /\ 0 < maxCoord k) as [Hm Hm0] by (destruct k; vm_compute; split; congruence).
  assert (0 < 2 ^ j) by (apply Z.pow_pos_nonneg; lia).
  assert (x' = (X * 2 ^ j + d * 2 ^ j) mod maxCoord k) as E.
  { unfold x'. rewrite Z.shiftl_1_l, <- maxCoord_pow2, u32_small by lia. rewrite unsigned_shift by nia.
    apply pbcAdjust_mod; [lia|nia]. }
  rewrite E. split; [done|]. split; [apply Z.mod_pos_bound; lia|].
  assert (maxCoord k = 2 ^ (maxTreeLevel k - j) * 2 ^ j) as ->.
  { rewrite maxCoord_pow2, <- Z.pow_add_r by lia. f_equal. lia. }
  rewrite <- Z.mul_add_distr_r, Z.mul_mod_distr_r by (try apply Z.pow_nonzero; lia). by rewrite Z.div_mul by lia.
Qed.

(** The neighbor key is the start of the node whose cube is the shifted cube. *)
Lemma sfcNeighbor_shift s k start level dx dy dz :
  0 <= level <= maxTreeLevel k -> 0 <= start < keyMax k -> (8 ^ (maxTreeLevel k - level) | start) ->
  -1 <= dx <= 1 -> -1 <= dy <= 1 -> -1 <= dz <= 1 ->
  let b := sfcIBox s k start level in
  let L := 2 ^ (maxTreeLevel k - level) in
  let r := sfcNeighbor s k b level dx dy dz in
  0 <= r < keyMax k /\ (8 ^ (maxTreeLevel k - level) | r) /\
  (xmin (sfcIBox s k r level), ymin (sfcIBox s k r level), zmin (sfcIBox s k r level)) =
    ((xmin b + dx * L) mod maxCoord k, (ymin b + dy * L) mod maxCoord k, (zmin b + dz * L) mod maxCoord k).
Proof.
  intros Hl Hs Hdiv Hdx Hdy Hdz b L r. kfacts k. set (j := maxTreeLevel k - level) in *.
  pose proof (pow8_pos j ltac:(lia)) as H8. assert (0 < 2 ^ j) by (apply Z.pow_pos_nonneg; lia).
  assert (maxCoord k <= 2097152 /\ 0 < maxCoord k) as [Hm Hm0] by (destruct k; vm_compute; split; congruence).
  pose proof (sfc_dec_range (enc := iSfcKey s k) start Hs) as Hc.
  pose proof (sfcIBox_nodeBox s k start level Hl Hs Hdiv) as Eb. fold j b in Eb.
  unfold nodeBox in Eb. destruct (decodeSfc s k start) as [[X Y] W]. destruct Hc as (HX & HY & HW). simpl in Eb.
  rewrite maxCoord_pow2 in HX, HY, HW.
  pose proof (cube_fits (maxTreeLevel k) j X ltac:(lia) HX) as [HX0 HX1]. pose proof (cube_fits (maxTreeLevel k) j Y ltac:(lia) HY) as [HY0 HY1].
  pose proof (cube_fits (maxTreeLevel k) j W ltac:(lia) HW) as [HW0 HW1]. rewrite <- maxCoord_pow2 in *.
  assert (HXq : 0 <= X / 2 ^ j) by (apply Z.div_pos; lia). assert (HYq : 0 <= Y / 2 ^ j) by (apply Z.div_pos; lia).
  assert (HWq : 0 <= W / 2 ^ j) by (apply Z.div_pos; lia).
  unfold r, sfcNeighbor. rewrite Eb. cbn [xmin xmax ymin ymax zmin zmax]. unfold L.
  replace (X / 2 ^ j * 2 ^ j + 2 ^ j - X / 2 ^ j * 2 ^ j) with (2 ^ j) by lia. rewrite !(u32_small (2 ^ j)) by lia.
  destruct (neighbor_coord k j (X / 2 ^ j) dx ltac:(lia) HXq HX1 Hdx) as (Ex & Rx & Fx).
  destruct (neighbor_coord k j (Y / 2 ^ j) dy ltac:(lia) HYq HY1 Hdy) as (Ey & Ry & Fy).
  destruct (neighbor_coord k j (W / 2 ^ j) dz ltac:(lia) HWq HW1 Hdz) as (Ez & Rz & Fz).
  rewrite <- Ex, <- Ey, <- Ez. set (x' := pbcAdjust _ _) in *. set (y' := pbcAdjust _ _) in Ry, Fy |- *. set (z' := pbcAdjust _ _) in Rz, Fz |- *.
  assert (isCell k (x', y', z')) as Hcell by done.
  pose proof (sfc_enc_range (enc := iSfcKey s k) _ Hcell) as Hkey. pose proof (sfc_dec_enc (enc := iSfcKey s k) (dec := decodeSfc s k) _ Hcell) as Hde.
  simpl in Hkey, Hde. set (key := iSfcKey s k x' y' z') in *. rewrite enclosingBoxCode_floor by lia. fold j.
  set (r' := 8 ^ j * (key / 8 ^ j)). assert (0 <= r' <= key) as Hr'.
  { unfold r'. pose proof (Z.mul_div_le key (8 ^ j) ltac:(lia)). assert (0 <= key / 8 ^ j) by (apply Z.div_pos; lia). nia. }
  split; [lia|]. split; [unfold r'; apply Z.divide_factor_l|].
  rewrite sfcIBox_nodeBox; [|done|lia|unfold r'; apply Z.divide_factor_l]. fold j.
  assert (divp (2 ^ j) (decodeSfc s k r') = divp (2 ^ j) (x', y', z')) as E.
  { rewrite <- Hde. apply (sfc_coarse (enc := iSfcKey s k) (dec := decodeSfc s k)); [lia|lia|lia|].
    unfold r'. rewrite (Z.mul_comm (8 ^ j)). by rewrite Z.div_mul by lia. }
  unfold nodeBox. rewrite E. simpl. by rewrite Fx, Fy, Fz.
Qed.
