(* ===== verification/BoxOverlap.v ===== *)
(** * Box overlap

    The integer part of [cstone/traversal/boxoverlap.hpp]: overlap of ranges and boxes with
    periodic boundaries, containment of a box in a key range, and halo boxes. *)

From S2P Require Import Prelude Primitives SfcCommon Csarray SfcBox Morton Hilbert Sfc.

(** ** Definitions *)

Definition overlapTwoRanges (a b c d : Z) : bool := (c <? b) && (a <? d).

Definition overlapRange (a b c d R : Z) : bool :=
  overlapTwoRanges a b c d || overlapTwoRanges (a + R) (b + R) c d || overlapTwoRanges a b (c + R) (d + R).

Definition rangeSep (a b c d R : Z) : Z :=
  if overlapTwoRanges a b c d then 0
  else
    let d1 := pbcDistance (d - a) R in
    let d2 := pbcDistance (c - b) R in
    stl_min (Z.abs d1) (Z.abs d2).

Definition overlap (k : KeyType) (a b : IBox) : bool :=
  let maxCoord := u32 (Z.shiftl 1 (maxTreeLevel k)) in
  let xOverlap := overlapRange (xmin a) (xmax a) (xmin b) (xmax b) maxCoord in
  let yOverlap := overlapRange (ymin a) (ymax a) (ymin b) (ymax b) maxCoord in
  let zOverlap := overlapRange (zmin a) (zmax a) (zmin b) (zmax b) maxCoord in
  xOverlap && yOverlap && zOverlap.

Definition boxSeparation (a b : IBox) (pbc : Z * Z * Z) : Z * Z * Z :=
  let '(px, py, pz) := pbc in
  (rangeSep (xmin a) (xmax a) (xmin b) (xmax b) px, rangeSep (ymin a) (ymax a) (ymin b) (ymax b) py,
   rangeSep (zmin a) (zmax a) (zmin b) (zmax b) pz).

(** The overload for integer boxes. *)
Definition containedInBox (s : SfcKind) (k : KeyType) (codeStart codeEnd : Z) (box : IBox) : bool :=
  let pbcRange := Z.shiftl 1 (maxTreeLevel k) in
  if (stl_min (stl_min (xmin box) (ymin box)) (zmin box) <? 0) || (pbcRange <? stl_max (stl_max (xmax box) (ymax box)) (zmax box))
  then (codeStart =? 0) && (codeEnd =? nodeRange k 0)
  else
    let lowCode := iSfcKey s k (xmin box) (ymin box) (zmin box) in
    let highCode := iSfcKey s k (xmax box - 1) (ymax box - 1) (zmax box - 1) in
    let '(first, last) := smallestCommonBox k lowCode highCode in
    (codeStart <=? first) && (last <=? codeEnd).

(** The overload for a node given by its first and last key. *)
Definition containedInKeys (nodeStart nodeEnd codeStart codeEnd : Z) : bool :=
  negb ((nodeStart <? codeStart) || (codeEnd <? nodeEnd)).

(** The overload for a node in placeholder-bit format. *)
Definition containedInPrefix (k : KeyType) (prefixBitKey codeStart codeEnd : Z) : bool :=
  let prefixLength := decodePrefixLength k prefixBitKey in
  let firstPrefix := decodePlaceholderBit k prefixBitKey in
  let secondPrefix := kwrap k (firstPrefix + kwrap k (Z.shiftl 1 (3 * maxTreeLevel k - prefixLength))) in
  negb ((firstPrefix <? codeStart) || (codeEnd <? secondPrefix)).

Definition addDelta (k : KeyType) (value delta : Z) (pbc : bool) : Z :=
  let maxCoordinate := u32 (Z.shiftl 1 (maxTreeLevel k)) in
  let temp := value + delta in
  if pbc then temp else stl_min (stl_max 0 temp) maxCoordinate.

(** [dx], [dy], [dz] are the radius in grid units, rounded up ([toNBitIntCeil]); the flags
    say which dimensions are periodic. *)
Definition makeHaloBox (k : KeyType) (nodeBox : IBox) (dx dy dz : Z) (pbcX pbcY pbcZ : bool) : IBox :=
  mkIBox (addDelta k (xmin nodeBox) (- dx) pbcX) (addDelta k (xmax nodeBox) dx pbcX)
    (addDelta k (ymin nodeBox) (- dy) pbcY) (addDelta k (ymax nodeBox) dy pbcY)
    (addDelta k (zmin nodeBox) (- dz) pbcZ) (addDelta k (zmax nodeBox) dz pbcZ).

(** ** Ranges *)

Lemma overlapTwoRanges_iff a b c d : overlapTwoRanges a b c d = true <-> c < b /\ a < d.
Proof. unfold overlapTwoRanges. by rewrite andb_true_iff, !Z.ltb_lt. Qed.

(** Bounds on a range that [overlapRange] accepts. *)
Definition periodicRange (a b R : Z) : Prop := a < b /\ - R <= a < R /\ 0 < b <= 2 * R.

(** The three shifts that are tested are enough: two ranges share a point modulo [R]. *)
Lemma overlapRange_iff a b c d R :
  0 < R -> periodicRange a b R -> periodicRange c d R ->
  overlapRange a b c d R = true <-> exists x m, a <= x < b /\ c <= x + m * R < d.
Proof.
  intros HR (Hab & Ha & Hb) (Hcd & Hc & Hd). unfold overlapRange. rewrite !orb_true_iff, !overlapTwoRanges_iff. split.
  - intros [[H|H]|H].
    + exists (Z.max a c), 0. lia.
    + exists (Z.max (a + R) c - R), 1. lia.
    + exists (Z.max a (c + R)), (-1). lia.
  - intros (x & m & Hx & Hm). destruct (Z.lt_trichotomy m 0) as [|[->|]].
    + right. assert (m * R <= -1 * R) by (apply Z.mul_le_mono_nonneg_r; lia). lia.
    + left; left. lia.
    + left; right. assert (1 * R <= m * R) by (apply Z.mul_le_mono_nonneg_r; lia). lia.
Qed.

Lemma shiftl_maxCoord k : Z.shiftl 1 (maxTreeLevel k) = maxCoord k.
Proof. by destruct k. Qed.

Lemma u32_maxCoord k : u32 (Z.shiftl 1 (maxTreeLevel k)) = maxCoord k.
Proof. by destruct k. Qed.

(** ** Boxes *)

(** [smallestCommonBox] of two cells contains every cell between them. *)
Lemma corners_cover s k lo hi p first last :
  isCell k lo -> isCell k hi -> isCell k p ->
  (let '(x, y, z) := lo in let '(x', y', z') := hi in let '(px, py, pz) := p in
   x <= px <= x' /\ y <= py <= y' /\ z <= pz <= z') ->
  smallestCommonBox k (encode3 (iSfcKey s k) lo) (encode3 (iSfcKey s k) hi) = (first, last) ->
  first <= encode3 (iSfcKey s k) p < last.
Proof.
  intros Hlo Hhi Hp Hbetween E.
  pose proof (smallestCommonBox_spec k _ _ (sfc_enc_range (enc := iSfcKey s k) (dec := decodeSfc s k) lo Hlo) (sfc_enc_range (enc := iSfcKey s k) (dec := decodeSfc s k) hi Hhi)) as H.
  rewrite E in H. destruct H as ((j & Hj & Hf0 & Hdiv & Hlast & Hk) & H1 & H2 & _).
  pose proof (pow8_pos j ltac:(lia)). rewrite Hlast in *. assert (Hf : 0 <= first < keyMax k) by lia.
  apply (nodeBox_keys (dec := decodeSfc s k) first j lo Hj Hf Hdiv Hlo) in H1.
  apply (nodeBox_keys (dec := decodeSfc s k) first j hi Hj Hf Hdiv Hhi) in H2.
  apply (nodeBox_keys (dec := decodeSfc s k) first j p Hj Hf Hdiv Hp).
  destruct (nodeBox j (decodeSfc s k first)), lo as [[x y] z], hi as [[x' y'] z'], p as [[px py] pz]. simpl in *. lia.
Qed.

(** A box with volume inside of the periodic domain. *)
Definition domainBox (k : KeyType) (box : IBox) : Prop :=
  0 <= xmin box < xmax box /\ 0 <= ymin box < ymax box /\ 0 <= zmin box < zmax box /\
  xmax box <= maxCoord k /\ ymax box <= maxCoord k /\ zmax box <= maxCoord k.

Lemma domainBox_cell k box p : domainBox k box -> inIBox box p -> isCell k p.
Proof. unfold domainBox. destruct p as [[x y] z]. simpl. lia. Qed.

Lemma containedInBox_domain s k a b box :
  domainBox k box ->
  containedInBox s k a b box =
    let '(first, last) := smallestCommonBox k (encode3 (iSfcKey s k) (xmin box, ymin box, zmin box))
                            (encode3 (iSfcKey s k) (xmax box - 1, ymax box - 1, zmax box - 1)) in
    (a <=? first) && (last <=? b).
Proof.
  intros (? & ? & ? & ? & ? & ?). unfold containedInBox. rewrite !stl_min_min, !stl_max_max, shiftl_maxCoord.
  destruct (Z.ltb_spec (Z.min (Z.min (xmin box) (ymin box)) (zmin box)) 0); [lia|].
  destruct (Z.ltb_spec (maxCoord k) (Z.max (Z.max (xmax box) (ymax box)) (zmax box))); [lia|]. done.
Qed.
