(* ===== verification/Octree.v ===== *)
(** * The internal octree

    [cstone/tree/octree.hpp]: construction of the internal nodes over a leaf array, the
    parent/child links in level order, lookups and the bottom-up sweep. *)

From S2P Require Import Prelude Primitives SfcCommon Csarray.

Definition binaryKeyWeight (k : KeyType) (key level : Z) : Z :=
  zsum ((fun l => digitWeight (octalDigit k key l)) <$> seqZ 1 (level + 1)).

(** Iteration [tid] of the layout loop on ([prefixes], [internalToLeaf]). *)
Definition layoutBody (k : KeyType) (leaves : list Z) (numInternalNodes numLeafNodes tid : Z)
    (st : list Z * list Z) : option (list Z * list Z) :=
  let '(prefixes, internalToLeaf) := st in
  let? key := leaves.[tid] in
  let? next := leaves.[tid + 1] in
  let level := treeLevel k (kwrap k (next - key)) in
  let? prefixes := aset prefixes (tid + numInternalNodes) (encodePlaceholderBit k key (3 * level)) in
  let? internalToLeaf := aset internalToLeaf (tid + numInternalNodes) (tid + numInternalNodes) in
  let prefixLength := u32 (commonPrefix k key next) in
  if (prefixLength mod 3 =? 0) && (tid <? numLeafNodes - 1) then
    let octIndex := Z.quot (tid + binaryKeyWeight k key (prefixLength / 3)) 7 in
    let? prefixes := aset prefixes octIndex (encodePlaceholderBit k key prefixLength) in
    let? internalToLeaf := aset internalToLeaf octIndex octIndex in
    Some (prefixes, internalToLeaf)
  else Some (prefixes, internalToLeaf).

Definition createUnsortedLayoutCpu (k : KeyType) (leaves : list Z) (numInternalNodes numLeafNodes : Z)
    (prefixes internalToLeaf : list Z) : option (list Z * list Z) :=
  for_loop 0 numLeafNodes (layoutBody k leaves numInternalNodes numLeafNodes) (prefixes, internalToLeaf).

(** Iteration [i] of the link loop on ([childOffsets], [parents]). *)
Definition linkBody (k : KeyType) (prefixes leafToInternal levelRange : list Z) (i : Z)
    (st : list Z * list Z) : option (list Z * list Z) :=
  let '(childOffsets, parents) := st in
  let? idxA := leafToInternal.[i] in
  let? prefix := prefixes.[idxA] in
  let nodeKey := decodePlaceholderBit k prefix in
  let prefixLength := decodePrefixLength k prefix in
  let level := prefixLength / 3 in
  let childPrefix := encodePlaceholderBit k nodeKey (prefixLength + 3) in
  let? leafSearchStart := levelRange.[level + 1] in
  let? leafSearchEnd := levelRange.[level + 2] in
  let? childIdx := lower_bound prefixes leafSearchStart leafSearchEnd childPrefix in
  if childIdx =? leafSearchEnd then Some (childOffsets, parents)
  else
    let? p := prefixes.[childIdx] in
    if childPrefix =? p then
      let? childOffsets := aset childOffsets idxA childIdx in
      let? parents := aset parents (Z.quot (childIdx - 1) 8) idxA in
      Some (childOffsets, parents)
    else Some (childOffsets, parents).

Definition linkTreeCpu (k : KeyType) (prefixes : list Z) (numInternalNodes : Z) (leafToInternal levelRange : list Z)
    (childOffsets parents : list Z) : option (list Z * list Z) :=
  for_loop 0 numInternalNodes (linkBody k prefixes leafToInternal levelRange) (childOffsets, parents).

Definition getLevelRangeCpu (k : KeyType) (nodeKeys : list Z) (numNodes : Z) (levelRange : list Z) : option (list Z) :=
  let? levelRange := for_loop 0 (maxTreeLevel k + 1) (fun level levelRange =>
    let? it := lower_bound nodeKeys 0 numNodes (encodePlaceholderBit k 0 (3 * level)) in
    aset levelRange level it) levelRange in
  aset levelRange (maxTreeLevel k + 1) numNodes.

(** The arrays of [OctreeData] that [buildOctreeCpu] fills. *)
Record OctreeArrays := mkOctreeArrays {
  prefixes : list Z;
  childOffsets : list Z;
  parents : list Z;
  levelRange : list Z;
  internalToLeaf : list Z;
  leafToInternal : list Z
}.

Definition buildOctreeCpu (k : KeyType) (cstoneTree : list Z) (numLeafNodes numInternalNodes : Z) (o : OctreeArrays) :
    option OctreeArrays :=
  let numNodes := numInternalNodes + numLeafNodes in
  let? (pfx, i2l) := createUnsortedLayoutCpu k cstoneTree numInternalNodes numLeafNodes (prefixes o) (internalToLeaf o) in
  let? (sorted, i2lHead) := sort_by_key (take (Z.to_nat numNodes) pfx) (take (Z.to_nat numNodes) i2l) in
  let pfx := sorted ++ drop (Z.to_nat numNodes) pfx in
  let i2l := i2lHead ++ drop (Z.to_nat numNodes) i2l in
  let? l2i := for_loop 0 numNodes (fun i l2i => let? j := i2l.[i] in aset l2i j i) (leafToInternal o) in
  let? i2l := for_loop 0 numNodes (fun i i2l => let? j := i2l.[i] in aset i2l i (j - numInternalNodes)) i2l in
  let? range := getLevelRangeCpu k pfx numNodes (levelRange o) in
  let? children := for_loop 0 numNodes (fun i c => aset c i 0) (childOffsets o) in
  let? (children, par) := linkTreeCpu k pfx numInternalNodes l2i range children (parents o) in
  Some (mkOctreeArrays pfx children par range i2l l2i).

(** [OctreeData]: node counts and arrays. *)
Record OctreeData := mkOctreeData {
  numNodes : Z;
  numLeafNodes : Z;
  numInternalNodes : Z;
  arrays : OctreeArrays
}.

(** Sizes after [resize]; new elements hold arbitrary values, here 0. *)
Definition OctreeData_resize (k : KeyType) (o : OctreeData) (numCsLeafNodes : Z) : OctreeData :=
  let numLeaf := numCsLeafNodes in
  let numInternal := Z.quot (numLeaf - 1) 7 in
  let n := numLeaf + numInternal in
  let a := arrays o in
  mkOctreeData n numLeaf numInternal
    (mkOctreeArrays (aresize 0 (prefixes a) n) (aresize 0 (childOffsets a) (n + 1))
       (aresize 0 (parents a) (stl_max 1 (Z.quot (n - 1) 8))) (aresize 0 (levelRange a) (maxTreeLevel k + 2))
       (aresize 0 (internalToLeaf a) n) (aresize 0 (leafToInternal a) n)).

Definition updateInternalTree (k : KeyType) (leaves : list Z) (o : OctreeData) : option OctreeData :=
  let? a := buildOctreeCpu k leaves (numLeafNodes o) (numInternalNodes o) (arrays o) in
  Some (mkOctreeData (numNodes o) (numLeafNodes o) (numInternalNodes o) a).

(** [for (i = 1; i <= nodeLevel; ++i)] with the number of remaining iterations as fuel. *)
Fixpoint containingNodeLoop (fuel : nat) (k : KeyType) (nodeKey key : Z) (prefixes childOffsets : list Z)
    (i ret : Z) : option Z :=
  match fuel with
  | O => Some ret
  | S fuel =>
      let? c := childOffsets.[ret] in
      let? p := prefixes.[ret] in
      if (c =? 0) || (nodeKey =? p) then Some ret
      else containingNodeLoop fuel k nodeKey key prefixes childOffsets (i + 1) (c + octalDigit k key i)
  end.

Definition containingNode (k : KeyType) (nodeKey : Z) (prefixes childOffsets : list Z) : option Z :=
  let nodeLevel := decodePrefixLength k nodeKey / 3 in
  let key := decodePlaceholderBit k nodeKey in
  containingNodeLoop (Z.to_nat nodeLevel) k nodeKey key prefixes childOffsets 1 0.

(** [while (--level)]; [n] is the value of [level] before the decrement. *)
Fixpoint maxDepthLoop (n : nat) (levelOffsets : list Z) : option Z :=
  match n with
  | O => None
  | S O => Some 0
  | S (S m as level) =>
      let? a := levelOffsets.[Z.of_nat level] in
      let? b := levelOffsets.[Z.of_nat level - 1] in
      if negb (a =? b) then Some (Z.of_nat level - 1) else maxDepthLoop level levelOffsets
  end.

Definition maxDepth (levelOffsets : list Z) (level : Z) : option Z := maxDepthLoop (Z.to_nat level) levelOffsets.

(** Combination functions read the quantities of the eight children. *)
Definition upsweepLevel {T} (start last : Z) (childOffsets : list Z) (combine : Z -> Z -> list T -> option T)
    (quantities : list T) : option (list T) :=
  for_loop start last (fun i quantities =>
    let? firstChild := childOffsets.[i] in
    if firstChild =? 0 then Some quantities
    else let? q := combine i firstChild quantities in aset quantities i q) quantities.

(** [for (currentLevel = n - 1; currentLevel >= 0; --currentLevel)]. *)
Fixpoint upsweepLoop {T} (n : nat) (levelOffset childOffsets : list Z) (combine : Z -> Z -> list T -> option T)
    (quantities : list T) : option (list T) :=
  match n with
  | O => Some quantities
  | S n =>
      let? start := levelOffset.[Z.of_nat n] in
      let? last := levelOffset.[Z.of_nat n + 1] in
      let? quantities := upsweepLevel start last childOffsets combine quantities in
      upsweepLoop n levelOffset childOffsets combine quantities
  end.

Definition upsweep {T} (levelOffset childOffsets : list Z) (combine : Z -> Z -> list T -> option T)
    (quantities : list T) : option (list T) :=
  upsweepLoop (Z.to_nat (zlen levelOffset - 1)) levelOffset childOffsets combine quantities.

(** [SumCombination] on mathematical integers. *)
Definition SumCombination (nodeIdx c : Z) (Q : list Z) : option Z :=
  let? qs := mapM_range c (c + 8) (fun i => Q.[i]) in Some (zsum qs).

(** [NodeCount]: 64-bit sum of 32-bit counts, saturated at the largest 32-bit value. *)
Definition NodeCount (nodeIdx c : Z) (Q : list Z) : option Z :=
  let? qs := mapM_range c (c + 8) (fun i => Q.[i]) in
  Some (u32 (stl_min 0xFFFFFFFF (u64 (zsum qs)))).

(** ** The [Octree] class

    The vectors of the object are the arrays of [OctreeArrays] and the leaf array; member
    functions that write return the new object. *)
Module OctreeClass.

Record t := mk {
  numLeafNodes_ : Z;
  numInternalNodes_ : Z;
  arrays_ : OctreeArrays;
  cstoneTree_ : list Z
}.

(** Sizes after [resize]; new elements hold arbitrary values, here 0. *)
Definition resize (k : KeyType) (o : t) (numCsLeafNodes : Z) : t :=
  let numLeaf := numCsLeafNodes in
  let numInternal := Z.quot (numLeaf - 1) 7 in
  let n := numLeaf + numInternal in
  let a := arrays_ o in
  mk numLeaf numInternal
    (mkOctreeArrays (aresize 0 (prefixes a) n) (aresize 0 (childOffsets a) (n + 1))
       (aresize 0 (parents a) (Z.quot (n - 1) 8)) (aresize 0 (levelRange a) (maxTreeLevel k + 2))
       (aresize 0 (internalToLeaf a) n) (aresize 0 (leafToInternal a) n))
    (cstoneTree_ o).

Definition updateInternalTree (k : KeyType) (o : t) : option t :=
  let o := resize k o (nNodes (cstoneTree_ o)) in
  let? a := buildOctreeCpu k (cstoneTree_ o) (numLeafNodes_ o) (numInternalNodes_ o) (arrays_ o) in
  Some (mk (numLeafNodes_ o) (numInternalNodes_ o) a (cstoneTree_ o)).

Definition update (k : KeyType) (leaves : list Z) (numLeafNodes : Z) (o : t) : option t :=
  let? tree := omp_copy (take (Z.to_nat (numLeafNodes + 1)) leaves) (aresize 0 (cstoneTree_ o) (numLeafNodes + 1)) in
  updateInternalTree k (mk (numLeafNodes_ o) (numInternalNodes_ o) (arrays_ o) tree).

(** The child offsets serve as scratch space for the node operations and the prefixes as
    the new leaf array. *)
Definition rebalance (k : KeyType) (bucketSize : Z) (counts : list Z) (o : t) : option (bool * t) :=
  let a := arrays_ o in
  let? (converged, nodeOps) := rebalanceDecision k (cstoneTree_ o) counts (numLeafNodes_ o) bucketSize (childOffsets a) in
  let? (newTree, nodeOps) := rebalanceTree k (cstoneTree_ o) (prefixes a) nodeOps in
  let a := mkOctreeArrays (cstoneTree_ o) nodeOps (parents a) (levelRange a) (internalToLeaf a) (leafToInternal a) in
  let? o := updateInternalTree k (mk (numLeafNodes_ o) (numInternalNodes_ o) a newTree) in
  Some (converged, o).

Definition numTreeNodes (o : t) : option Z := (levelRange (arrays_ o)).[zlen (levelRange (arrays_ o)) - 1].

Definition isLeaf (o : t) (node : Z) : option bool :=
  let? c := (childOffsets (arrays_ o)).[node] in Some (c =? 0).

Definition child (o : t) (node octant : Z) : option Z :=
  let? c := (childOffsets (arrays_ o)).[node] in Some (c + octant).

Definition parent (o : t) (node : Z) : option Z :=
  if node =? 0 then Some 0 else (parents (arrays_ o)).[Z.quot (node - 1) 8].

Definition codeStart (k : KeyType) (o : t) (node : Z) : option Z :=
  let? p := (prefixes (arrays_ o)).[node] in Some (decodePlaceholderBit k p).

Definition codeEnd (k : KeyType) (o : t) (node : Z) : option Z :=
  let? p := (prefixes (arrays_ o)).[node] in
  Some (kwrap k (decodePlaceholderBit k p + u64 (Z.shiftl 1 (3 * maxTreeLevel k - decodePrefixLength k p)))).

Definition level (k : KeyType) (o : t) (node : Z) : option Z :=
  let? p := (prefixes (arrays_ o)).[node] in Some (decodePrefixLength k p / 3).

Definition toInternal (o : t) (node : Z) : option Z :=
  (leafToInternal (arrays_ o)).[node + numInternalNodes_ o].

Definition cstoneIndex (o : t) (node : Z) : option Z := (internalToLeaf (arrays_ o)).[node].

End OctreeClass.
