(* ===== verification/OctreeNodes.v ===== *)
(** * Octrees as trees

    The abstract view of a leaf array: an inductive octree whose nodes are named by
    placeholder-bit keys (the root is 1, the children of [p] are [8p .. 8p+7]).  Every
    cornerstone array is the leaf sequence of such a tree; the in-order position of an
    internal node is what [binaryKeyWeight] computes from a pair of adjacent leaves. *)

From S2P Require Import Prelude Primitives SfcCommon Csarray CsInvariant CsRebalance CsCounts CsBuild Octree.

Inductive otree := OLeaf | ONode (child : Z -> otree).

(** The eight children in order. *)
Definition octants : list Z := seqZ 0 8.

Fixpoint leafKeys (p : Z) (t : otree) : list Z :=
  match t with
  | OLeaf => [p]
  | ONode f => concat ((fun c => leafKeys (8 * p + c) (f c)) <$> octants)
  end.

(** Internal nodes in order: the left half of the children, the node, the right half. *)
Fixpoint innerKeys (p : Z) (t : otree) : list Z :=
  match t with
  | OLeaf => []
  | ONode f =>
      concat ((fun c => innerKeys (8 * p + c) (f c)) <$> seqZ 0 4) ++ [p] ++
      concat ((fun c => innerKeys (8 * p + c) (f c)) <$> seqZ 4 4)
  end.

Fixpoint depthLe (m : Z) (t : otree) : Prop :=
  match t with
  | OLeaf => 0 <= m
  | ONode f => 0 < m /\ forall c, 0 <= c < 8 -> depthLe (m - 1) (f c)
  end.

(** ** Node keys *)

(** Level and first SFC key of the node with placeholder key [p]. *)
Definition nodeLevel (p : Z) : Z := Z.log2 p / 3.
Definition nodeStart (k : KeyType) (p : Z) : Z := decodePlaceholderBit k p.

(** [p] names an octree node of level [l]: one more than [3 * l] significant bits. *)
Definition nodeAt (l p : Z) : Prop := 0 <= l /\ 8 ^ l <= p < 2 * 8 ^ l.

Lemma nodeAt_root : nodeAt 0 1.
Proof. unfold nodeAt. lia. Qed.

Lemma nodeAt_child l p c : nodeAt l p -> 0 <= c < 8 -> nodeAt (l + 1) (8 * p + c).
Proof. intros (Hl & Hp) Hc. unfold nodeAt. rewrite pow8_succ by lia. lia. Qed.

Lemma nodeAt_parent l p : nodeAt l p -> p <> 1 -> nodeAt (l - 1) (p / 8).
Proof.
  intros (Hl & Hp) Hne. assert (l <> 0) by (intros ->; lia).
  replace (8 ^ l) with (8 * 8 ^ (l - 1)) in Hp by (rewrite <- pow8_succ by lia; f_equal; lia).
  unfold nodeAt. Z.div_mod_to_equations. lia.
Qed.

Lemma nodeAt_level l p : nodeAt l p -> nodeLevel p = l.
Proof.
  intros (Hl & Hp). unfold nodeLevel.
  assert (Z.log2 p = 3 * l) as ->; [|rewrite Z.mul_comm; apply Z.div_mul; lia].
  apply Z.log2_unique; [lia|]. rewrite Z.pow_succ_r, <- pow8_pow2 by lia. lia.
Qed.

Lemma nodeAt_start k l p :
  nodeAt l p -> l <= maxTreeLevel k -> nodeStart k p = (p - 8 ^ l) * 8 ^ (maxTreeLevel k - l).
Proof.
  intros (Hl & Hp) Hm. unfold nodeStart. replace p with (2 ^ (3 * l) + (p - 8 ^ l)) at 1 by (rewrite pow8_pow2 by lia; lia).
  rewrite decodePlaceholderBit_val by (rewrite <- ?pow8_pow2 by lia; lia).
  f_equal. rewrite pow8_pow2 by lia. f_equal. lia.
Qed.

Lemma nodeAt_decode k l p : nodeAt l p -> l <= maxTreeLevel k -> decodePrefixLength k p = 3 * l.
Proof.
  intros (Hl & Hp) Hm. replace p with (2 ^ (3 * l) + (p - 8 ^ l)) by (rewrite pow8_pow2 by lia; lia).
  apply decodePrefixLength_val; [lia|]. rewrite <- pow8_pow2 by lia. lia.
Qed.

(** The range of a node is divided evenly among its children. *)
Lemma nodeStart_child k l p c :
  nodeAt l p -> l < maxTreeLevel k -> 0 <= c < 8 ->
  nodeStart k (8 * p + c) = nodeStart k p + c * 8 ^ (maxTreeLevel k - l - 1).
Proof.
  intros Hp Hl Hc. pose proof Hp as (Hl0 & _). rewrite (nodeAt_start k l p), (nodeAt_start k (l + 1) (8 * p + c)) by (try apply nodeAt_child; done || lia).
  rewrite pow8_succ by lia. replace (maxTreeLevel k - (l + 1)) with (maxTreeLevel k - l - 1) by lia.
  assert (8 ^ (maxTreeLevel k - l) = 8 * 8 ^ (maxTreeLevel k - l - 1)) as -> by (rewrite <- pow8_succ by lia; f_equal; lia).
  lia.
Qed.

Lemma encode_nodeStart k l p :
  nodeAt l p -> l <= maxTreeLevel k -> encodePlaceholderBit k (nodeStart k p) (3 * l) = p.
Proof.
  intros Hp Hl. rewrite <- (nodeAt_decode k l p Hp Hl). apply encode_decode.
  destruct Hp as (Hl0 & Hp). pose proof (pow8_le_keyMax k l ltac:(lia)). lia.
Qed.

(** Keys inside a node have the node as their truncation. *)
Lemma encode_inside k l p x :
  nodeAt l p -> l <= maxTreeLevel k -> nodeStart k p <= x < nodeStart k p + 8 ^ (maxTreeLevel k - l) ->
  encodePlaceholderBit k x (3 * l) = p.
Proof.
  intros Hp Hl Hx. pose proof Hp as (Hl0 & Hr). rewrite (nodeAt_start k l p) in Hx by done.
  assert (E : keyMax k = 8 ^ l * 8 ^ (maxTreeLevel k - l)) by (unfold keyMax; rewrite <- Z.pow_add_r by lia; f_equal; lia).
  pose proof (pow8_pos (maxTreeLevel k - l) ltac:(lia)).
  rewrite encodePlaceholderBit_val by (try nia; lia).
  replace (3 * maxTreeLevel k - 3 * l) with (3 * (maxTreeLevel k - l)) by lia. rewrite <- !pow8_pow2 by lia.
  assert (x / 8 ^ (maxTreeLevel k - l) = p - 8 ^ l) as ->; [|lia].
  symmetry. apply Z.div_unique_pos with (x - (p - 8 ^ l) * 8 ^ (maxTreeLevel k - l)); lia.
Qed.

(** ** Every cornerstone array is the leaf sequence of a tree *)

Lemma chain_cut k m a l b x :
  cs_chain k a l b -> 0 <= m -> a <= x <= b -> (8 ^ m | x) ->
  (forall u v, adj (l ++ [b]) u v -> v - u <= 8 ^ m) ->
  exists l1 l2, l = l1 ++ l2 /\ cs_chain k a l1 x /\ cs_chain k x l2 b.
Proof.
  intros Hc Hm. induction Hc as [a|a y l b Hn Hc IH]; intros Hx Hd Hsz.
  { assert (x = a) as -> by lia. exists [], []. repeat split; constructor. }
  destruct (decide (x = a)) as [->|].
  { exists [], (a :: l). split; [done|]. split; [constructor|]. by apply chain_cons with y. }
  destruct (chain_head _ _ _ _ Hc) as (r & Er).
  destruct Hn as (e & He & Ha & Hda & -> & Hk).
  assert (8 ^ e <= 8 ^ m) as Hle.
  { specialize (Hsz a (a + 8 ^ e)). simpl in Hsz. rewrite Er in Hsz. specialize (Hsz ltac:(by exists [], r)). lia. }
  assert (e <= m) by (apply (Z.pow_le_mono_r_iff 8); lia).
  assert (a + 8 ^ e <= x).
  { apply multiples_apart; [apply pow8_pos; lia|done| |lia]. apply pow8_divide_trans with m; [lia|done]. }
  destruct IH as (l1 & l2 & -> & H1 & H2); [lia|done| |].
  - intros u v (p1 & p2 & E). apply Hsz. exists (a :: p1), p2. simpl. by rewrite E.
  - exists (a :: l1), l2. split; [done|]. split; [|done]. apply chain_cons with (a + 8 ^ e); [|done].
    exists e. done.
Qed.

(** A chain over a node is the node itself or splits at its children. *)
Lemma chain_leaf_or_small k a m l :
  0 <= m -> (8 ^ (m + 1) | a) -> cs_chain k a l (a + 8 ^ (m + 1)) ->
  l = [a] \/ forall u v, adj (l ++ [a + 8 ^ (m + 1)]) u v -> v - u <= 8 ^ m.
Proof.
  intros Hm Hd Hc. pose proof (pow8_pos (m + 1) ltac:(lia)) as Hpos.
  assert (treelet k a (l ++ [a + 8 ^ (m + 1)]) (a + 8 ^ (m + 1))) as Ht by by exists l.
  destruct l as [|x l']; [inversion Hc; lia|]. assert (x = a) as -> by by inversion Hc.
  inversion Hc as [|? y ? ? Hn Hc']; subst.
  destruct Hn as (e & He & Ha & Hde & -> & Hk). pose proof (cs_chain_le _ _ _ _ Hc') as Hle.
  destruct (decide (e = m + 1)) as [->|Hne].
  { left. inversion Hc' as [|? y' ? ? Hn' Hc'']; subst; [done|]. apply isNode_lt in Hn'.
    apply cs_chain_le in Hc''. lia. }
  assert (e <= m) by (assert (e <= m + 1); [apply (Z.pow_le_mono_r_iff 8); lia|lia]).
  right. intros u v Hadj. assert (0 < 8 ^ e) by (apply pow8_pos; lia).
  apply adj_cons in Hadj as [[<- (r & Er)]|Hadj].
  { destruct (chain_head _ _ _ _ Hc') as (r' & Er'). pose proof (eq_trans (eq_sym Er') Er) as Eq. injection Eq as <- _.
    assert (8 ^ e <= 8 ^ m) by (apply pow8_mono; lia). lia. }
  assert (Hnode : isNode k u v /\ a < u /\ v <= a + 8 ^ (m + 1)).
  { clear Hc Ht Hd. revert Hc' Hadj. generalize (a + 8 ^ (m + 1)) as b. intros b Hc' Hadj.
    remember (a + 8 ^ e) as a0 eqn:Ea0. assert (a < a0) as Hlt by lia. clear Ea0 Hle Hk Hde.
    induction Hc' as [z|z w l b Hn Hc' IH]; [apply adj_cons in Hadj as [[_ (? & ?)]|([] & ? & ?)]; done|].
    apply adj_cons in Hadj as [[<- (r & Er)]|Hadj].
    - destruct (chain_head _ _ _ _ Hc') as (r' & Er'). pose proof (eq_trans (eq_sym Er') Er) as Eq. injection Eq as <- _.
      apply cs_chain_le in Hc'. repeat split; (done || lia).
    - apply IH; [done|]. apply isNode_lt in Hn. lia. }
  destruct Hnode as ((r & Hr & Hu & Hdu & -> & _) & Hau & Hub).
  assert (r <= m); [|assert (8 ^ r <= 8 ^ m) by (apply pow8_mono; lia); lia].
  destruct (Z.le_gt_cases r m) as [|Hgt]; [done|]. exfalso.
  assert (a + 8 ^ (m + 1) <= u); [|pose proof (pow8_pos r ltac:(lia)); lia].
  apply multiples_apart; [lia|done| |lia]. apply pow8_divide_trans with r; [lia|done].
Qed.

Lemma chain_octree k (w : nat) l p ls :
  nodeAt l p -> l + Z.of_nat w = maxTreeLevel k ->
  cs_chain k (nodeStart k p) ls (nodeStart k p + 8 ^ Z.of_nat w) ->
  exists t, depthLe (Z.of_nat w) t /\ ls = nodeStart k <$> leafKeys p t.
Proof.
  revert l p ls. induction w as [|w IH]; intros l p ls Hp Hl Hc.
  { exists OLeaf. split; [simpl; lia|]. simpl. change (8 ^ Z.of_nat 0) with 1 in Hc.
    inversion Hc as [|? y l' ? Hn Hc']; subst; [lia|]. apply isNode_lt in Hn.
    inversion Hc' as [|? y' l'' ? Hn' Hc'']; subst; [done|]. apply isNode_lt in Hn'. apply cs_chain_le in Hc''. lia. }
  pose proof Hp as (Hl0 & _). pose proof (nodeAt_start k l p Hp ltac:(lia)) as Hst.
  replace (Z.of_nat (S w)) with (Z.of_nat w + 1) in * by lia.
  replace (maxTreeLevel k - l) with (Z.of_nat w + 1) in Hst by lia.
  pose proof (pow8_pos (Z.of_nat w) ltac:(lia)) as H8.
  destruct (chain_leaf_or_small k (nodeStart k p) (Z.of_nat w) ls) as [->|Hsmall];
    [lia|rewrite Hst; apply Z.divide_factor_r|done|exists OLeaf; split; [simpl; lia|done]|].
  assert (Hchild : forall c, 0 <= c < 8 -> nodeStart k (8 * p + c) = nodeStart k p + c * 8 ^ Z.of_nat w).
  { intros c Hc'. rewrite (nodeStart_child k l) by (done || lia). do 3 f_equal. lia. }
  assert (Hcut : forall c : nat, (c <= 8)%nat -> exists ts lr, ls = concat ((fun c => nodeStart k <$> leafKeys (8 * p + c) (ts c)) <$> seqZ 0 (Z.of_nat c)) ++ lr /\
    (forall c', 0 <= c' < Z.of_nat c -> depthLe (Z.of_nat w) (ts c')) /\
    cs_chain k (nodeStart k p + Z.of_nat c * 8 ^ Z.of_nat w) lr (nodeStart k p + 8 ^ (Z.of_nat w + 1))).
  { induction c as [|c IHc]; intros Hc8.
    - exists (fun _ => OLeaf), ls. split; [done|]. split; [lia|]. by rewrite Z.mul_0_l, Z.add_0_r.
    - destruct (IHc ltac:(lia)) as (ts & lr & Els & Hts & Hlr).
      destruct (chain_cut k (Z.of_nat w) _ lr _ (nodeStart k p + (Z.of_nat c + 1) * 8 ^ Z.of_nat w) Hlr) as (l1 & l2 & -> & H1 & H2).
      + lia.
      + rewrite pow8_succ by lia. nia.
      + apply Z.divide_add_r; [|apply Z.divide_factor_r]. rewrite Hst. apply Z.divide_mul_r. apply pow8_divide. lia.
      + intros u v (p1 & p2 & E). apply Hsmall. rewrite Els, <- app_assoc. rewrite E. eexists _, _. by rewrite app_assoc.
      + destruct (IH (l + 1) (8 * p + Z.of_nat c) l1) as (t & Ht & El1).
        * apply nodeAt_child; [done|lia].
        * lia.
        * rewrite Hchild by lia. by replace (nodeStart k p + Z.of_nat c * 8 ^ Z.of_nat w + 8 ^ Z.of_nat w) with
            (nodeStart k p + (Z.of_nat c + 1) * 8 ^ Z.of_nat w) by lia.
        * exists (fun c' => if c' =? Z.of_nat c then t else ts c'), l2. repeat split.
          -- replace (Z.of_nat (S c)) with (Z.of_nat c + 1) by lia. rewrite seqZ_app, fmap_app, concat_app by lia.
             simpl. rewrite app_nil_r. replace (Z.of_nat 0 + (0 + Z.of_nat c)) with (Z.of_nat c) by lia.
             rewrite Z.eqb_refl, <- El1, <- app_assoc. rewrite Els. f_equal. f_equal. apply list_fmap_ext.
             intros _ c' Hc'%list_elem_of_lookup_2. apply elem_of_seqZ in Hc'.
             by replace (c' =? Z.of_nat c) with false by (symmetry; apply Z.eqb_neq; lia).
          -- intros c' Hc'. destruct (Z.eqb_spec c' (Z.of_nat c)); [done|]. apply Hts. lia.
          -- by replace (Z.of_nat (S c)) with (Z.of_nat c + 1) by lia. }
  destruct (Hcut 8%nat ltac:(lia)) as (ts & lr & Els & Hts & Hlr).
  assert (lr = []) as ->.
  { change (Z.of_nat 8) with 8 in Hlr. rewrite pow8_succ in Hlr by lia.
    inversion Hlr as [|? y l' ? Hn Hc']; subst; [done|]. apply isNode_lt in Hn. apply cs_chain_le in Hc'. lia. }
  exists (ONode ts). split.
  - split; [lia|]. intros c Hc'. replace (Z.of_nat w + 1 - 1) with (Z.of_nat w) by lia. by apply Hts.
  - rewrite Els, app_nil_r. cbn [leafKeys]. rewrite fmap_concat. by rewrite <- list_fmap_compose.
Qed.

Lemma csTree_octree k tree :
  csTree k tree -> exists t, depthLe (maxTreeLevel k) t /\ tree = (nodeStart k <$> leafKeys 1 t) ++ [keyMax k].
Proof.
  intros (ls & -> & Hc). kfacts k.
  destruct (chain_octree k (Z.to_nat (maxTreeLevel k)) 0 1 ls) as (t & Ht & ->).
  - apply nodeAt_root.
  - lia.
  - assert (nodeStart k 1 = 0) as -> by by destruct k. rewrite Z2Nat.id by lia. rewrite Z.add_0_l. exact Hc.
  - rewrite Z2Nat.id in Ht by lia. by exists t.
Qed.

(** ** Counting *)

Lemma blocks_halves {A} (g : Z -> list A) : blocks g 8 = blocks g 4 ++ concat (g <$> seqZ 4 4).
Proof. unfold blocks. change 8 with (4 + 4). by rewrite seqZ_app, fmap_app, concat_app by lia. Qed.

Lemma innerKeys_blocks p f :
  innerKeys p (ONode f) = blocks (fun c => innerKeys (8 * p + c) (f c)) 4 ++ [p] ++
    concat ((fun c => innerKeys (8 * p + c) (f c)) <$> seqZ 4 4).
Proof. done. Qed.

Lemma leafKeys_blocks p f : leafKeys p (ONode f) = blocks (fun c => leafKeys (8 * p + c) (f c)) 8.
Proof. done. Qed.

(** Position of the internal nodes of child [c] in the in-order sequence. *)
Definition innerOffset (p : Z) (f : Z -> otree) (c : Z) : Z :=
  zlen (blocks (fun c => innerKeys (8 * p + c) (f c)) c) + Z.b2z (4 <=? c).

Lemma innerKeys_get p f c i :
  0 <= c < 8 -> 0 <= i < zlen (innerKeys (8 * p + c) (f c)) ->
  (innerKeys p (ONode f)).[innerOffset p f c + i] = (innerKeys (8 * p + c) (f c)).[i].
Proof.
  intros Hc Hi. rewrite innerKeys_blocks. unfold innerOffset. set (g := fun c => innerKeys (8 * p + c) (f c)).
  change (innerKeys (8 * p + c) (f c)) with (g c) in *.
  pose proof (blocks_get g 8 c i Hc Hi) as Hget. rewrite blocks_halves in Hget.
  destruct (Z.leb_spec 4 c); simpl Z.b2z.
  - pose proof (blocks_mono g 4 c ltac:(lia)). rewrite aget_app_r in Hget by lia.
    rewrite aget_app_r by lia. rewrite aget_app_r by (change (zlen [p]) with 1; lia). change (zlen [p]) with 1.
    rewrite <- Hget. f_equal. lia.
  - pose proof (blocks_mono g (c + 1) 4 ltac:(lia)) as Hm. rewrite blocks_succ, zlen_app in Hm by lia.
    rewrite aget_app_l in Hget by lia. rewrite aget_app_l by lia. rewrite <- Hget. f_equal. lia.
Qed.

Lemma innerKeys_mid p f : (innerKeys p (ONode f)).[zlen (blocks (fun c => innerKeys (8 * p + c) (f c)) 4)] = Some p.
Proof. rewrite innerKeys_blocks. apply aget_middle. Qed.

Lemma zlen_innerKeys p f :
  zlen (innerKeys p (ONode f)) = zlen (blocks (fun c => innerKeys (8 * p + c) (f c)) 8) + 1.
Proof.
  rewrite innerKeys_blocks, blocks_halves, !zlen_app. change (zlen [p]) with 1. lia.
Qed.

(** A tree with [n] internal nodes has [7 n + 1] leaves. *)
Lemma leaf_inner_count p t : zlen (leafKeys p t) = 7 * zlen (innerKeys p t) + 1.
Proof.
  revert p. induction t as [|f IH]; intros p; [done|]. rewrite zlen_innerKeys, leafKeys_blocks.
  assert (Hgen : forall n : nat, zlen (blocks (fun c => leafKeys (8 * p + c) (f c)) (Z.of_nat n)) =
    7 * zlen (blocks (fun c => innerKeys (8 * p + c) (f c)) (Z.of_nat n)) + Z.of_nat n).
  { induction n as [|n IHn]; [done|]. replace (Z.of_nat (S n)) with (Z.of_nat n + 1) by lia.
    rewrite !blocks_succ, !zlen_app, IHn, IH by lia. lia. }
  specialize (Hgen 8%nat). change (Z.of_nat 8) with 8 in Hgen. lia.
Qed.

Lemma leafBlocks_count p f c :
  0 <= c -> zlen (blocks (fun c => leafKeys (8 * p + c) (f c)) c) =
    7 * zlen (blocks (fun c => innerKeys (8 * p + c) (f c)) c) + c.
Proof.
  intros Hc. replace c with (Z.of_nat (Z.to_nat c)) by lia. generalize (Z.to_nat c). intros n.
  induction n as [|n IHn]; [done|]. replace (Z.of_nat (S n)) with (Z.of_nat n + 1) by lia.
  rewrite !blocks_succ, !zlen_app, IHn, leaf_inner_count by lia. lia.
Qed.

Lemma leafKeys_nonempty p t : 0 < zlen (leafKeys p t).
Proof. rewrite leaf_inner_count. pose proof (zlen_nonneg (innerKeys p t)). lia. Qed.

(** ** Descendants *)

(** [q] is [p] or below it. *)
Definition below (p q : Z) : Prop := exists j, 0 <= j /\ p * 8 ^ j <= q < (p + 1) * 8 ^ j.

Lemma below_refl p : below p p.
Proof. exists 0. change (8 ^ 0) with 1. lia. Qed.

Lemma below_child p c q : 0 <= c < 8 -> below (8 * p + c) q -> below p q.
Proof.
  intros Hc (j & Hj & Hq). exists (j + 1). rewrite pow8_succ by lia. pose proof (pow8_pos j Hj). split; [lia|]. nia.
Qed.

Lemma leafKeys_below p t q : q ∈ leafKeys p t -> below p q.
Proof.
  revert p. induction t as [|f IH]; intros p Hq.
  - apply list_elem_of_singleton in Hq as ->. apply below_refl.
  - rewrite leafKeys_blocks in Hq. apply elem_of_blocks in Hq as (c & Hc & Hq).
    apply below_child with c; [lia|]. by apply (IH c).
Qed.

Lemma innerKeys_elem p f q :
  q ∈ innerKeys p (ONode f) <-> q = p \/ exists c, 0 <= c < 8 /\ q ∈ innerKeys (8 * p + c) (f c).
Proof.
  rewrite innerKeys_blocks, !elem_of_app, list_elem_of_singleton, elem_of_blocks, elem_of_blocks_range. split.
  - intros [(c & Hc & H)|[->|(c & Hc & H)]]; [right; exists c; split; [lia|done]|by left|right; exists c; split; [lia|done]].
  - intros [->|(c & Hc & H)]; [auto|]. destruct (Z.lt_ge_cases c 4); [left|right; right]; exists c; (split; [lia|done]).
Qed.

Lemma leafKeys_elem p f q :
  q ∈ leafKeys p (ONode f) <-> exists c, 0 <= c < 8 /\ q ∈ leafKeys (8 * p + c) (f c).
Proof. rewrite leafKeys_blocks. apply elem_of_blocks. Qed.

Lemma innerKeys_below p t q : q ∈ innerKeys p t -> below p q.
Proof.
  revert p. induction t as [|f IH]; intros p Hq; [by apply not_elem_of_nil in Hq|].
  apply innerKeys_elem in Hq as [->|(c & Hc & Hq)]; [apply below_refl|].
  apply below_child with c; [lia|]. by apply (IH c).
Qed.

(** Key range of the descendants of a node. *)
Lemma below_range k l p q :
  nodeAt l p -> below p q -> nodeLevel q <= maxTreeLevel k ->
  nodeAt (nodeLevel q) q /\ l <= nodeLevel q /\ nodeStart k p <= nodeStart k q /\
  nodeStart k q + 8 ^ (maxTreeLevel k - nodeLevel q) <= nodeStart k p + 8 ^ (maxTreeLevel k - l).
Proof.
  intros (Hl & Hp) (j & Hj & Hq) Hm. pose proof (pow8_pos j Hj) as H8.
  assert (nodeAt (l + j) q) as Hnq.
  { split; [lia|]. rewrite Z.pow_add_r by lia. nia. }
  rewrite (nodeAt_level _ _ Hnq) in *. split; [done|]. split; [lia|].
  rewrite (nodeAt_start k l p), (nodeAt_start k (l + j) q) by (done || lia).
  replace (maxTreeLevel k - l) with (j + (maxTreeLevel k - (l + j))) by lia. rewrite !(Z.pow_add_r 8) by lia.
  pose proof (pow8_pos (maxTreeLevel k - (l + j)) ltac:(lia)) as Hm8. set (M := 8 ^ (maxTreeLevel k - (l + j))) in *.
  set (J := 8 ^ j) in *. set (L := 8 ^ l) in *.
  assert ((p - L) * J <= q - L * J) by lia. assert (q - L * J + 1 <= (p - L + 1) * J) by lia.
  split; [nia|]. replace ((q - L * J) * M + M) with ((q - L * J + 1) * M) by lia.
  replace ((p - L) * (J * M) + J * M) with ((p - L + 1) * J * M) by lia. nia.
Qed.

Lemma depth_level l p t q :
  nodeAt l p -> forall m, depthLe m t -> q ∈ leafKeys p t -> l <= nodeLevel q <= l + m /\ nodeAt (nodeLevel q) q.
Proof.
  revert l p. induction t as [|f IH]; intros l p Hp m Hd Hq.
  - apply list_elem_of_singleton in Hq as ->. rewrite (nodeAt_level _ _ Hp). simpl in Hd. split; [lia|done].
  - destruct Hd as [Hm Hd]. apply leafKeys_elem in Hq as (c & Hc & Hq).
    destruct (IH c (l + 1) (8 * p + c) (nodeAt_child _ _ _ Hp Hc) (m - 1) (Hd c Hc) Hq). split; [lia|done].
Qed.

(** ** Boundaries between the halves of internal nodes *)

(** The leaves [j] and [j + 1] below [p] are separated by the middle of the internal node
    [q], which has in-order position [i]. *)
Inductive boundary : Z -> otree -> Z -> Z -> Z -> Prop :=
| boundary_here p f :
    boundary p (ONode f) (zlen (blocks (fun c => leafKeys (8 * p + c) (f c)) 4) - 1)
      (zlen (blocks (fun c => innerKeys (8 * p + c) (f c)) 4)) p
| boundary_below p f c j i q :
    0 <= c < 8 -> boundary (8 * p + c) (f c) j i q ->
    boundary p (ONode f) (zlen (blocks (fun c => leafKeys (8 * p + c) (f c)) c) + j) (innerOffset p f c + i) q.

Lemma boundary_inner p t j i q : boundary p t j i q -> 0 <= i < zlen (innerKeys p t) /\ (innerKeys p t).[i] = Some q.
Proof.
  induction 1 as [p f|p f c j i q Hc _ [Hi IH]].
  - pose proof (innerKeys_mid p f) as E. split; [by eapply aget_Some_range|done].
  - pose proof (innerKeys_get p f c i Hc Hi) as E. rewrite IH in E. split; [by eapply aget_Some_range|done].
Qed.

(** Every internal node has a boundary. *)
Lemma boundary_total p t i : 0 <= i < zlen (innerKeys p t) -> exists j q, boundary p t j i q.
Proof.
  revert p i. induction t as [|f IH]; intros p i Hi; [change (zlen (innerKeys p OLeaf)) with 0 in Hi; lia|].
  rewrite zlen_innerKeys in Hi. set (g := fun c => innerKeys (8 * p + c) (f c)) in *.
  destruct (Z.lt_trichotomy i (zlen (blocks g 4))) as [Hlt|[->|Hgt]].
  - destruct (blocks_index g 4 i ltac:(change (Z.of_nat 4) with 4; lia)) as (c & Hc & Hr & _). change (Z.of_nat 4) with 4 in Hc.
    rewrite blocks_succ, zlen_app in Hr by lia.
    destruct (IH c (8 * p + c) (i - zlen (blocks g c)) ltac:(unfold g in *; lia)) as (j & q & Hb).
    exists (zlen (blocks (fun c => leafKeys (8 * p + c) (f c)) c) + j), q.
    replace i with (innerOffset p f c + (i - zlen (blocks g c))).
    { apply boundary_below; [lia|done]. }
    unfold innerOffset. fold g. destruct (Z.leb_spec 4 c); simpl Z.b2z; lia.
  - eexists _, _. apply boundary_here.
  - pose proof (zlen_nonneg (blocks g 4)). destruct (blocks_index g 8 (i - 1) ltac:(change (Z.of_nat 8) with 8; lia)) as (c & Hc & Hr & _). change (Z.of_nat 8) with 8 in Hc.
    assert (4 <= c).
    { destruct (Z.le_gt_cases 4 c) as [|Hlt]; [done|]. pose proof (blocks_mono g (c + 1) 4 ltac:(lia)). lia. }
    rewrite blocks_succ, zlen_app in Hr by lia.
    destruct (IH c (8 * p + c) (i - 1 - zlen (blocks g c)) ltac:(unfold g in *; lia)) as (j & q & Hb).
    exists (zlen (blocks (fun c => leafKeys (8 * p + c) (f c)) c) + j), q.
    replace i with (innerOffset p f c + (i - 1 - zlen (blocks g c))).
    { apply boundary_below; [lia|done]. }
    unfold innerOffset. fold g. destruct (Z.leb_spec 4 c); simpl Z.b2z; lia.
Qed.

(** *** Common prefixes of keys in different children *)

Section Children.
Context (k : KeyType) (l p : Z).
Hypothesis Hp : nodeAt l p.
Hypothesis Hl : l < maxTreeLevel k.

Local Abbreviation D := (8 ^ (maxTreeLevel k - l - 1)).

(** [x] is a key of child [c] of [p]. *)
Definition inChild (c x : Z) : Prop := nodeStart k p + c * D <= x < nodeStart k p + (c + 1) * D.

Lemma inChild_div c x : 0 <= c < 8 -> inChild c x -> x / D = 8 * (p - 8 ^ l) + c /\ 0 <= x < keyMax k.
Proof using Hp Hl.
  intros Hc Hx. pose proof Hp as (Hl0 & Hr). unfold inChild in Hx. rewrite (nodeAt_start k l p) in Hx by (done || lia).
  assert (E1 : 8 ^ (maxTreeLevel k - l) = 8 * D) by (rewrite <- pow8_succ by lia; f_equal; lia). rewrite E1 in Hx.
  assert (E2 : keyMax k = 8 ^ l * (8 * D)).
  { unfold keyMax. rewrite <- E1, <- Z.pow_add_r by lia. f_equal. lia. }
  pose proof (pow8_pos (maxTreeLevel k - l - 1) ltac:(lia)). split.
  - symmetry. apply Z.div_unique_pos with (x - (8 * (p - 8 ^ l) + c) * D); nia.
  - rewrite E2. nia.
Qed.

Lemma inChild_digit c x : 0 <= c < 8 -> inChild c x -> octalDigit k x (l + 1) = c.
Proof using Hp Hl.
  intros Hc Hx. destruct Hp as (Hl0 & _). rewrite octalDigit_div by lia.
  replace (maxTreeLevel k - (l + 1)) with (maxTreeLevel k - l - 1) by lia.
  destruct (inChild_div c x Hc Hx) as [-> _]. rewrite Z.add_comm, Z.mul_comm, Z.mod_add by lia. apply Z.mod_small. lia.
Qed.

Lemma lxor_children c c' : 0 <= c < c' -> c' < 8 -> 0 < Z.lxor c c' < 8 /\ (Z.log2 (Z.lxor c c') = 2 <-> c < 4 <= c').
Proof using.
  intros Hc Hc'.
  set (P := fun c c' => implb (c <? c') ((0 <? Z.lxor c c') && (Z.lxor c c' <? 8) &&
    eqb (Z.log2 (Z.lxor c c') =? 2) ((c <? 4) && (4 <=? c')))).
  assert (H : P c c' = true).
  { apply (forallb_below 8 (P c)); [|lia]. revert c Hc. intros c Hc.
    apply (forallb_below 8 (fun c => forallb (fun i => P c (Z.of_nat i)) (seq 0 8))); [vm_compute; reflexivity|lia]. }
  unfold P in H. rewrite (proj2 (Z.ltb_lt c c')) in H by lia. simpl implb in H. zbool.
  match goal with H : eqb _ _ = true |- _ => apply eqb_prop in H; rename H into He end.
  split; [lia|]. rewrite <- Z.eqb_eq, He, andb_true_iff, Z.ltb_lt, Z.leb_le. done.
Qed.

(** The common prefix ends inside the octal digit of the children, at its first bit when
    the children are in different halves. *)
Lemma commonPrefix_children c c' x y :
  0 <= c < c' -> c' < 8 -> inChild c x -> inChild c' y ->
  3 * l <= commonPrefix k x y <= 3 * l + 2 /\ (commonPrefix k x y = 3 * l <-> c < 4 <= c').
Proof using Hp Hl.
  intros Hc Hc' Hx Hy. pose proof Hp as (Hl0 & _).
  destruct (inChild_div c x ltac:(lia) Hx) as [Ex Hxr]. destruct (inChild_div c' y ltac:(lia) Hy) as [Ey Hyr].
  assert (x <> y) as Hne by (intros ->; lia).
  destruct (commonPrefix_val k x y Hxr Hyr Hne) as [-> Hlog].
  destruct (lxor_children c c' Hc Hc') as [Hr Hiff].
  assert (E : Z.shiftr (Z.lxor x y) (3 * (maxTreeLevel k - l - 1)) = Z.lxor c c').
  { rewrite Z.shiftr_lxor, !Z.shiftr_div_pow2, <- !pow8_pow2, Ex, Ey by lia.
    assert (Hsum : forall d, 0 <= d < 8 -> 8 * (p - 8 ^ l) + d = Z.lxor (Z.shiftl (p - 8 ^ l) 3) d).
    { intros d Hd. rewrite <- Z.add_nocarry_lxor; [rewrite Z.shiftl_mul_pow2 by lia; lia|].
      apply Z.bits_inj'. intros i Hi. rewrite Z.land_spec, Z.bits_0. destruct (Z.lt_ge_cases i 3).
      - by rewrite Z.shiftl_spec_low by lia.
      - rewrite <- (Z.mod_small d (2 ^ 3)) by (change (2 ^ 3) with 8; lia). rewrite Z.mod_pow2_bits_high by lia. apply andb_false_r. }
    rewrite !Hsum by lia. rewrite (Z.lxor_comm _ c), Z.lxor_assoc, <- (Z.lxor_assoc (Z.shiftl _ 3)), Z.lxor_nilpotent, Z.lxor_0_l. done. }
  pose proof (Z.log2_shiftr (Z.lxor x y) (3 * (maxTreeLevel k - l - 1)) ltac:(pose proof (Z.lxor_nonneg x y); destruct (decide (Z.lxor x y = 0)) as [E0|];
    [rewrite E0, Z.shiftr_0_l in E; lia|lia])) as Hsh.
  rewrite E in Hsh. assert (Z.log2 (Z.lxor c c') < 3) by (apply Z.log2_lt_pow2; [lia|change (2 ^ 3) with 8; lia]).
  pose proof (Z.log2_nonneg (Z.lxor c c')).
  assert (3 * (maxTreeLevel k - l - 1) <= Z.log2 (Z.lxor x y)) as Hge.
  { apply Z.log2_le_pow2; [pose proof (Z.lxor_nonneg x y); destruct (decide (Z.lxor x y = 0)) as [E0|]; [rewrite E0, Z.shiftr_0_l in E; lia|lia]|].
    rewrite Z.shiftr_div_pow2 in E by lia. assert (0 < 2 ^ (3 * (maxTreeLevel k - l - 1))) by (apply Z.pow_pos_nonneg; lia).
    pose proof (Z.mul_div_le (Z.lxor x y) (2 ^ (3 * (maxTreeLevel k - l - 1))) ltac:(lia)). nia. }
  lia.
Qed.

End Children.

(** *** Leaves at a boundary *)

(** First keys of the leaves below [p]. *)
Definition leafStarts (k : KeyType) (p : Z) (t : otree) : list Z := nodeStart k <$> leafKeys p t.

Lemma zlen_leafStarts k p t : zlen (leafStarts k p t) = zlen (leafKeys p t).
Proof. apply zlen_map. Qed.

Lemma leafStarts_child k p f c j :
  0 <= c < 8 -> 0 <= j < zlen (leafKeys (8 * p + c) (f c)) ->
  (leafStarts k p (ONode f)).[zlen (blocks (fun c => leafKeys (8 * p + c) (f c)) c) + j] = (leafStarts k (8 * p + c) (f c)).[j].
Proof.
  intros Hc Hj. unfold leafStarts. rewrite leafKeys_blocks, !aget_map. f_equal.
  exact (blocks_get (fun c => leafKeys (8 * p + c) (f c)) 8 c j Hc Hj).
Qed.

(** A leaf of child [c] starts inside of child [c]. *)
Lemma leafStarts_inChild k l p f c j x :
  nodeAt l p -> depthLe (maxTreeLevel k - l) (ONode f) -> 0 <= c < 8 ->
  (leafStarts k (8 * p + c) (f c)).[j] = Some x -> inChild k l p c x.
Proof.
  intros Hp [Hm Hd] Hc Hx. pose proof Hp as (Hl0 & _). unfold leafStarts in Hx. rewrite aget_map in Hx.
  destruct ((leafKeys (8 * p + c) (f c)).[j]) as [q|] eqn:Eq; [|done]. injection Hx as <-. apply aget_elem in Eq.
  destruct (depth_level _ _ _ _ (nodeAt_child _ _ _ Hp Hc) _ (Hd c Hc) Eq) as [Hlev _].
  destruct (below_range k (l + 1) (8 * p + c) q (nodeAt_child _ _ _ Hp Hc) (leafKeys_below _ _ _ Eq) ltac:(lia)) as (_ & _ & H1 & H2).
  pose proof (pow8_pos (maxTreeLevel k - nodeLevel q) ltac:(lia)).
  rewrite (nodeStart_child k l p c) in H1, H2 by (done || lia).
  replace (maxTreeLevel k - (l + 1)) with (maxTreeLevel k - l - 1) in H2 by lia. unfold inChild. lia.
Qed.

Definition weightSum (k : KeyType) (x lo hi : Z) : Z :=
  zsum ((fun l => digitWeight (octalDigit k x l)) <$> seqZ lo (hi - lo + 1)).

Lemma weightSum_cons k x lo hi : lo <= hi -> weightSum k x lo hi = digitWeight (octalDigit k x lo) + weightSum k x (lo + 1) hi.
Proof.
  intros. unfold weightSum. rewrite seqZ_cons by lia. cbn [fmap list_fmap]. rewrite zsum_cons. do 2 f_equal.
  f_equal. f_equal; lia.
Qed.

Lemma digitWeight_val c : 0 <= c < 8 -> digitWeight c = if 4 <=? c then 7 - c else - c.
Proof.
  intros Hc. assert (H : (digitWeight c =? if 4 <=? c then 7 - c else - c) = true); [|by apply Z.eqb_eq].
  revert c Hc. apply (forallb_below 8 (fun c => digitWeight c =? if 4 <=? c then 7 - c else - c)). vm_compute. reflexivity.
Qed.

(** At a boundary the keys of the two leaves determine the internal node and its position. *)
Lemma boundary_keys k p t j i q :
  boundary p t j i q -> forall l, nodeAt l p -> depthLe (maxTreeLevel k - l) t ->
  0 <= j /\ j + 1 < zlen (leafKeys p t) /\ l <= nodeLevel q < maxTreeLevel k /\ nodeAt (nodeLevel q) q /\
  exists x y, (leafStarts k p t).[j] = Some x /\ (leafStarts k p t).[j + 1] = Some y /\
    commonPrefix k x y = 3 * nodeLevel q /\ encodePlaceholderBit k x (3 * nodeLevel q) = q /\
    7 * i = j + weightSum k x (l + 1) (nodeLevel q + 1).
Proof.
  induction 1 as [p f|p f c j i q Hc Hb IH]; intros l Hp Hd.
  - pose proof Hd as [Hm Hdc]. pose proof Hp as (Hl0 & _). rewrite (nodeAt_level l p Hp).
    set (g := fun c => leafKeys (8 * p + c) (f c)).
    assert (Hpos : forall c, 0 < zlen (g c)) by (intros; apply leafKeys_nonempty).
    assert (Hb3 : zlen (blocks g 4) = zlen (blocks g 3) + zlen (g 3)) by (change 4 with (3 + 1); rewrite blocks_succ, zlen_app by lia; done).
    assert (Hb4 : zlen (blocks g 8) >= zlen (blocks g 4) + zlen (g 4)).
    { pose proof (blocks_mono g (4 + 1) 8 ltac:(lia)) as H. rewrite blocks_succ, zlen_app in H by lia. lia. }
    pose proof (zlen_nonneg (blocks g 3)). pose proof (Hpos 3). pose proof (Hpos 4).
    destruct (aget_is_Some (leafStarts k (8 * p + 3) (f 3)) (zlen (g 3) - 1)) as [x Hx].
    { rewrite zlen_leafStarts. unfold g in *. lia. }
    destruct (aget_is_Some (leafStarts k (8 * p + 4) (f 4)) 0) as [y Hy].
    { rewrite zlen_leafStarts. unfold g in *. lia. }
    pose proof (leafStarts_inChild k l p f 3 _ x Hp Hd ltac:(lia) Hx) as Hcx.
    pose proof (leafStarts_inChild k l p f 4 _ y Hp Hd ltac:(lia) Hy) as Hcy.
    split; [lia|]. split; [rewrite leafKeys_blocks; fold g; lia|]. split; [lia|]. split; [done|].
    exists x, y. split; [|split; [|split; [|split]]].
    + rewrite <- Hx, <- (leafStarts_child k p f 3) by (unfold g in *; lia). fold g. f_equal. lia.
    + rewrite <- Hy, <- (leafStarts_child k p f 4) by (unfold g in *; lia). fold g. f_equal. lia.
    + apply (commonPrefix_children k l p Hp ltac:(lia) 3 4 x y); (done || lia).
    + apply encode_inside; [done|lia|]. unfold inChild in Hcx.
      assert (8 ^ (maxTreeLevel k - l) = 8 * 8 ^ (maxTreeLevel k - l - 1)) as -> by (rewrite <- pow8_succ by lia; f_equal; lia).
      pose proof (pow8_pos (maxTreeLevel k - l - 1) ltac:(lia)). lia.
    + unfold g. rewrite leafBlocks_count by lia. rewrite weightSum_cons by lia. unfold weightSum. rewrite seqZ_nil by lia.
      rewrite (inChild_digit k l p Hp ltac:(lia) 3 x ltac:(lia) Hcx). change (digitWeight 3) with (-3). simpl zsum. lia.
  - pose proof Hd as [Hm Hdc]. pose proof Hp as (Hl0 & _).
    destruct (IH (l + 1) (nodeAt_child _ _ _ Hp Hc)) as (Hj0 & Hj1 & Hlev & Hq & x & y & Hx & Hy & Hcp & Henc & Hi).
    { replace (maxTreeLevel k - (l + 1)) with (maxTreeLevel k - l - 1) by lia. by apply Hdc. }
    set (g := fun c => leafKeys (8 * p + c) (f c)).
    assert (Hfit : zlen (blocks g c) + zlen (g c) <= zlen (blocks g 8)).
    { pose proof (blocks_mono g (c + 1) 8 ltac:(lia)) as H. by rewrite blocks_succ, zlen_app in H by lia. }
    pose proof (zlen_nonneg (blocks g c)). change (leafKeys (8 * p + c) (f c)) with (g c) in Hj1.
    split; [lia|]. split; [rewrite leafKeys_blocks; fold g; lia|]. split; [lia|]. split; [done|].
    exists x, y. split; [|split; [|split; [|split]]].
    + rewrite <- Hx, <- (leafStarts_child k p f c) by (unfold g in *; lia). done.
    + rewrite <- Hy, <- (leafStarts_child k p f c) by (unfold g in *; lia). fold g. f_equal. lia.
    + done.
    + done.
    + pose proof (leafStarts_inChild k l p f c _ x Hp Hd Hc Hx) as Hcx.
      rewrite weightSum_cons by lia. rewrite (inChild_digit k l p Hp ltac:(lia) c x Hc Hcx), digitWeight_val by done.
      unfold innerOffset, g. rewrite leafBlocks_count by lia. destruct (Z.leb_spec 4 c); simpl Z.b2z; lia.
Qed.

(** Adjacent leaves that are not at a boundary have a common prefix that ends inside of an
    octal digit. *)
Lemma boundary_complete k p t l j x y :
  nodeAt l p -> depthLe (maxTreeLevel k - l) t ->
  (leafStarts k p t).[j] = Some x -> (leafStarts k p t).[j + 1] = Some y ->
  3 * l <= commonPrefix k x y /\ ((exists i q, boundary p t j i q) \/ commonPrefix k x y mod 3 <> 0).
Proof.
  revert p l j. induction t as [|f IH]; intros p l j Hp Hd Hx Hy.
  { pose proof (aget_Some_range _ _ _ Hx). pose proof (aget_Some_range _ _ _ Hy).
    rewrite zlen_leafStarts in *. change (zlen (leafKeys p OLeaf)) with 1 in *. lia. }
  pose proof Hd as [Hm Hdc]. pose proof Hp as (Hl0 & _). set (g := fun c => leafKeys (8 * p + c) (f c)).
  pose proof (aget_Some_range _ _ _ Hx) as Hjr. pose proof (aget_Some_range _ _ _ Hy) as Hjr'.
  rewrite zlen_leafStarts, leafKeys_blocks in Hjr, Hjr'. fold g in Hjr, Hjr'.
  destruct (blocks_index g 8 j ltac:(change (Z.of_nat 8) with 8; lia)) as (c & Hc & Hr & _). change (Z.of_nat 8) with 8 in Hc.
  pose proof Hr as Hr'. rewrite blocks_succ, zlen_app in Hr by lia.
  set (j' := j - zlen (blocks g c)). replace j with (zlen (blocks g c) + j') in Hx by (unfold j'; lia).
  pose proof (leafStarts_child k p f c j' Hc ltac:(unfold j', g in *; lia)) as Ec. fold g in Ec. rewrite Ec in Hx. clear Ec.
  pose proof (leafStarts_inChild k l p f c j' x Hp Hd Hc Hx) as Hcx.
  destruct (Z.lt_ge_cases (j + 1) (zlen (blocks g (c + 1)))) as [Hin|Hout].
  - rewrite blocks_succ, zlen_app in Hin by lia.
    replace (j + 1) with (zlen (blocks g c) + (j' + 1)) in Hy by (unfold j'; lia).
    pose proof (leafStarts_child k p f c (j' + 1) Hc ltac:(unfold j', g in *; lia)) as Ec. fold g in Ec. rewrite Ec in Hy.
    destruct (IH c (8 * p + c) (l + 1) j' (nodeAt_child _ _ _ Hp Hc)) as [Hge Hor]; [|done|done|].
    { replace (maxTreeLevel k - (l + 1)) with (maxTreeLevel k - l - 1) by lia. by apply Hdc. }
    split; [lia|]. destruct Hor as [(i & q & Hb)|Hno]; [left|by right].
    exists (innerOffset p f c + i), q. replace j with (zlen (blocks g c) + j') by (unfold j'; lia). by apply boundary_below.
  - assert (c < 7) by (destruct (decide (c = 7)) as [->|]; [|lia]; change (7 + 1) with 8 in *; lia).
    assert (j + 1 = zlen (blocks g (c + 1)) + 0) as Ej by lia. rewrite Ej in Hy.
    pose proof (leafKeys_nonempty (8 * p + (c + 1)) (f (c + 1))).
    pose proof (leafStarts_child k p f (c + 1) 0 ltac:(lia) ltac:(lia)) as Ec. fold g in Ec. rewrite Ec in Hy.
    pose proof (leafStarts_inChild k l p f (c + 1) 0 y Hp Hd ltac:(lia) Hy) as Hcy.
    destruct (commonPrefix_children k l p Hp ltac:(lia) c (c + 1) x y) as [Hcp Hiff]; [lia|lia|done|done|].
    split; [lia|]. destruct (decide (c = 3)) as [->|Hne3].
    + left. eexists _, _. replace j with (zlen (blocks g 4) - 1) by (change (3 + 1) with 4 in Ej; lia). apply boundary_here.
    + right. intros Hmod0. assert (commonPrefix k x y = 3 * l); [|lia]. Z.div_mod_to_equations. lia.
Qed.

(** ** The node set *)

Definition allKeys (p : Z) (t : otree) : list Z := innerKeys p t ++ leafKeys p t.

Lemma allKeys_below p t q : q ∈ allKeys p t -> below p q.
Proof. intros [?|?]%elem_of_app; [by eapply innerKeys_below|by eapply leafKeys_below]. Qed.

Lemma allKeys_root p t : p ∈ allKeys p t.
Proof.
  apply elem_of_app. destruct t as [|f]; [right; by left|left]. apply innerKeys_elem. by left.
Qed.

Lemma allKeys_elem p f q :
  q ∈ allKeys p (ONode f) <-> q = p \/ exists c, 0 <= c < 8 /\ q ∈ allKeys (8 * p + c) (f c).
Proof.
  unfold allKeys. rewrite elem_of_app, innerKeys_elem, leafKeys_elem. split.
  - intros [[->|(c & Hc & Hq)]|(c & Hc & Hq)]; [by left|right|right]; exists c; rewrite elem_of_app; auto.
  - intros [->|(c & Hc & [Hq|Hq]%elem_of_app)]; [by left; left|left; right; by exists c|right; by exists c].
Qed.

(** Internal nodes have all eight children. *)
Lemma inner_children p t q c : q ∈ innerKeys p t -> 0 <= c < 8 -> 8 * q + c ∈ allKeys p t.
Proof.
  revert p. induction t as [|f IH]; intros p Hq Hc; [by apply not_elem_of_nil in Hq|].
  apply allKeys_elem. right. apply innerKeys_elem in Hq as [->|(c' & Hc' & Hq)].
  - exists c. split; [done|]. apply allKeys_root.
  - exists c'. split; [done|]. by apply (IH c').
Qed.

(** Every node but the root is a child of an internal node. *)
Lemma parent_inner p t q : q ∈ allKeys p t -> q <> p -> q / 8 ∈ innerKeys p t.
Proof.
  revert p. induction t as [|f IH]; intros p Hq Hne.
  { apply elem_of_app in Hq as [Hq|Hq]; [by apply not_elem_of_nil in Hq|by apply list_elem_of_singleton in Hq]. }
  apply innerKeys_elem. apply allKeys_elem in Hq as [?|(c & Hc & Hq)]; [done|].
  destruct (decide (q = 8 * p + c)) as [->|Hne'].
  - left. Z.div_mod_to_equations. lia.
  - right. exists c. split; [done|]. by apply (IH c).
Qed.

(** Descendants of different siblings are different, and lie above their ancestors. *)
Lemma below_disjoint p c c' q : 1 <= p -> 0 <= c < 8 -> 0 <= c' < 8 -> below (8 * p + c) q -> below (8 * p + c') q -> c = c'.
Proof.
  intros Hp Hc Hc' (j & Hj & Hq) (j' & Hj' & Hq').
  assert (Hlev : forall n j, 0 <= j -> 8 * p <= n < 8 * p + 8 -> n * 8 ^ j <= q < (n + 1) * 8 ^ j -> q / 8 ^ j / 8 = p).
  { intros n i Hi Hn Hin. pose proof (pow8_pos i Hi). assert (q / 8 ^ i = n) as ->.
    { symmetry. apply Z.div_unique_pos with (q - n * 8 ^ i); lia. }
    Z.div_mod_to_equations. lia. }
  assert (Hsame : j = j').
  { pose proof (Hlev (8 * p + c) j Hj ltac:(lia) Hq) as E. pose proof (Hlev (8 * p + c') j' Hj' ltac:(lia) Hq') as E'.
    assert (0 <= q) by (pose proof (pow8_pos j Hj); nia).
    assert (Hno : forall i i', 0 <= i < i' -> q / 8 ^ i / 8 = p -> q / 8 ^ i' / 8 = p -> False).
    { intros i i' Hi Ei Ei'. rewrite !Z.div_div in Ei by (try apply Z.pow_nonzero; lia).
      assert (8 ^ (i + 1) <= 8 ^ i') as Hpow by (apply pow8_mono; lia). rewrite pow8_succ in Hpow by lia.
      pose proof (pow8_pos i ltac:(lia)). pose proof (Z.div_le_compat_l q (8 ^ i * 8) (8 ^ i') ltac:(lia) ltac:(lia)).
      pose proof (Z.div_lt_upper_bound (q / 8 ^ i') 8 p ltac:(lia) ltac:(lia)). lia. }
    destruct (Z.lt_trichotomy j j') as [Hlt|[|Hgt]]; [exfalso|done|exfalso].
    - by apply (Hno j j'); [lia|..].
    - by apply (Hno j' j); [lia|..]. }
  subst j'. pose proof (pow8_pos j Hj). nia.
Qed.

Lemma below_gt p c q : 1 <= p -> 0 <= c < 8 -> below (8 * p + c) q -> p < q.
Proof. intros Hp Hc (j & Hj & Hq). assert (1 <= 8 ^ j) by (pose proof (pow8_pos j Hj); lia). nia. Qed.

Lemma blocks_NoDup {A} (g : Z -> list A) (n : nat) lo :
  (forall c, lo <= c < lo + Z.of_nat n -> NoDup (g c)) ->
  (forall c c' x, lo <= c < lo + Z.of_nat n -> lo <= c' < lo + Z.of_nat n -> x ∈ g c -> x ∈ g c' -> c = c') ->
  NoDup (concat (g <$> seqZ lo (Z.of_nat n))).
Proof.
  revert lo. induction n as [|n IH]; intros lo Hnd Hdisj; [constructor|].
  rewrite seqZ_cons by lia. replace (Z.pred (Z.of_nat (S n))) with (Z.of_nat n) by lia. cbn [fmap list_fmap concat].
  apply NoDup_app. split; [apply Hnd; lia|]. split.
  - intros x Hx Hx'. apply elem_of_blocks_range in Hx' as (c & Hc & Hx').
    pose proof (Hdisj lo c x ltac:(lia) ltac:(lia) Hx Hx'). lia.
  - apply IH; intros; [apply Hnd; lia|]. eapply Hdisj; [lia|lia|done|done].
Qed.

Lemma innerKeys_perm p f : innerKeys p (ONode f) ≡ₚ p :: blocks (fun c => innerKeys (8 * p + c) (f c)) 8.
Proof. rewrite innerKeys_blocks, blocks_halves. by rewrite (Permutation_middle _ _ p). Qed.

Lemma allKeys_NoDup p t : 1 <= p -> NoDup (allKeys p t).
Proof.
  revert p. induction t as [|f IH]; intros p Hp; [apply NoDup_singleton|].
  assert (Hc : forall c, 0 <= c < 8 -> NoDup (innerKeys (8 * p + c) (f c)) /\ NoDup (leafKeys (8 * p + c) (f c)) /\
    forall x, x ∈ innerKeys (8 * p + c) (f c) -> x ∉ leafKeys (8 * p + c) (f c)).
  { intros c Hc. specialize (IH c (8 * p + c) ltac:(lia)). apply NoDup_app in IH as (H1 & H2 & H3). done. }
  unfold allKeys. apply NoDup_app. split; [|split].
  - rewrite innerKeys_perm. apply NoDup_cons. split.
    + intros (c & Hc' & Hx)%elem_of_blocks. apply innerKeys_below in Hx. apply below_gt in Hx; lia.
    + apply (blocks_NoDup _ 8 0); [intros; by apply Hc|]. intros c c' x H1 H2 Hx Hx'.
      apply innerKeys_below in Hx, Hx'. by eapply below_disjoint.
  - intros x Hx Hx'. apply leafKeys_elem in Hx' as (c' & Hc' & Hx'). apply innerKeys_elem in Hx as [->|(c & Hc'' & Hx)].
    + apply leafKeys_below in Hx'. apply below_gt in Hx'; lia.
    + assert (c = c') as <- by (eapply below_disjoint; [exact Hp|done|done|by eapply innerKeys_below|by eapply leafKeys_below]).
      destruct (Hc c Hc'') as (_ & _ & Hno). by apply (Hno x).
  - rewrite leafKeys_blocks. apply (blocks_NoDup _ 8 0); [intros; by apply Hc|]. intros c c' x H1 H2 Hx Hx'.
    apply leafKeys_below in Hx, Hx'. by eapply below_disjoint.
Qed.

(** Levels of the nodes. *)
Lemma allKeys_level p t l m q :
  nodeAt l p -> depthLe m t -> q ∈ allKeys p t ->
  nodeAt (nodeLevel q) q /\ l <= nodeLevel q <= l + m /\ (q ∈ innerKeys p t -> nodeLevel q < l + m).
Proof.
  revert p l m. induction t as [|f IH]; intros p l m Hp Hd Hq.
  - apply elem_of_app in Hq as [Hq|Hq]; [by apply not_elem_of_nil in Hq|]. apply list_elem_of_singleton in Hq as ->.
    rewrite (nodeAt_level _ _ Hp). simpl in Hd. split; [done|]. split; [lia|]. intros H. by apply not_elem_of_nil in H.
  - destruct Hd as [Hm Hd]. apply allKeys_elem in Hq as [->|(c & Hc & Hq)].
    + rewrite (nodeAt_level _ _ Hp). split; [done|]. lia.
    + destruct (IH c (8 * p + c) (l + 1) (m - 1) (nodeAt_child _ _ _ Hp Hc) (Hd c Hc) Hq) as (H1 & H2 & H3).
      split; [done|]. split; [lia|]. intros Hin. destruct (decide (q ∈ innerKeys (8 * p + c) (f c))) as [Hi|Hni]; [specialize (H3 Hi); lia|].
      exfalso. apply elem_of_app in Hq as [|Hleaf]; [done|]. pose proof (allKeys_NoDup p (ONode f)) as Hnd.
      destruct Hp as (Hl0 & Hpr). pose proof (pow8_pos l Hl0). apply NoDup_app in Hnd as (_ & Hdis & _); [|lia].
      apply (Hdis q Hin). apply leafKeys_elem. by exists c.
Qed.

(** ** End of a leaf *)

Lemma leafStarts_first k p t l : nodeAt l p -> depthLe (maxTreeLevel k - l) t -> (leafStarts k p t).[0] = Some (nodeStart k p).
Proof.
  revert p l. induction t as [|f IH]; intros p l Hp Hd; [done|]. pose proof Hd as [Hm Hdc]. pose proof Hp as (Hl0 & _).
  pose proof (leafKeys_nonempty (8 * p + 0) (f 0)).
  pose proof (leafStarts_child k p f 0 0 ltac:(lia) ltac:(lia)) as E. change (zlen (blocks _ 0) + 0) with 0 in E. rewrite E.
  rewrite (IH 0 (8 * p + 0) (l + 1)).
  - rewrite (nodeStart_child k l) by (done || lia). f_equal. lia.
  - apply nodeAt_child; [done|lia].
  - replace (maxTreeLevel k - (l + 1)) with (maxTreeLevel k - l - 1) by lia. apply Hdc. lia.
Qed.

Lemma leafStarts_end k p t l j q :
  nodeAt l p -> depthLe (maxTreeLevel k - l) t -> (leafKeys p t).[j] = Some q ->
  (leafStarts k p t ++ [nodeStart k p + 8 ^ (maxTreeLevel k - l)]).[j + 1] =
    Some (nodeStart k q + 8 ^ (maxTreeLevel k - nodeLevel q)).
Proof.
  revert p l j. induction t as [|f IH]; intros p l j Hp Hd Hq.
  { pose proof (aget_Some_range _ _ _ Hq) as Hr. change (zlen (leafKeys p OLeaf)) with 1 in Hr.
    assert (j = 0) as -> by lia. injection Hq as ->. by rewrite (nodeAt_level _ _ Hp). }
  pose proof Hd as [Hm Hdc]. pose proof Hp as (Hl0 & _). set (g := fun c => leafKeys (8 * p + c) (f c)).
  pose proof (aget_Some_range _ _ _ Hq) as Hjr. rewrite leafKeys_blocks in Hjr, Hq. fold g in Hjr, Hq.
  destruct (blocks_index g 8 j Hjr) as (c & Hc & Hr & Eg). change (Z.of_nat 8) with 8 in Hc, Eg.
  rewrite blocks_succ, zlen_app in Hr by lia. rewrite Hq in Eg. symmetry in Eg.
  assert (Hd' : forall c, 0 <= c < 8 -> depthLe (maxTreeLevel k - (l + 1)) (f c)).
  { intros c' Hc'. replace (maxTreeLevel k - (l + 1)) with (maxTreeLevel k - l - 1) by lia. by apply Hdc. }
  specialize (IH c (8 * p + c) (l + 1) _ (nodeAt_child _ _ _ Hp Hc) (Hd' c Hc) Eg).
  pose proof (zlen_leafStarts k (8 * p + c) (f c)) as Hzl. change (leafKeys (8 * p + c) (f c)) with (g c) in Hzl.
  destruct (Z.lt_ge_cases (j - zlen (blocks g c) + 1) (zlen (g c))) as [Hin|Hout].
  - rewrite aget_app_l in IH by lia. pose proof (leafStarts_child k p f c (j - zlen (blocks g c) + 1) Hc ltac:(unfold g in *; lia)) as Ec.
    fold g in Ec. rewrite aget_app_l.
    + rewrite <- IH, <- Ec. f_equal. lia.
    + rewrite zlen_leafStarts, leafKeys_blocks. fold g. pose proof (blocks_mono g (c + 1) 8 ltac:(lia)) as Hmo.
      rewrite blocks_succ, zlen_app in Hmo by lia. lia.
  - assert (j - zlen (blocks g c) + 1 = zlen (g c)) as Ej by lia. rewrite Ej, <- Hzl, aget_middle in IH. injection IH as <-.
    rewrite (nodeStart_child k l) by (done || lia). replace (maxTreeLevel k - (l + 1)) with (maxTreeLevel k - l - 1) by lia.
    replace (j + 1) with (zlen (blocks g (c + 1))) by (rewrite blocks_succ, zlen_app by lia; lia).
    destruct (decide (c = 7)) as [->|].
    + change (7 + 1) with 8. change (blocks g 8) with (leafKeys p (ONode f)). rewrite <- (zlen_leafStarts k p (ONode f)), aget_middle.
      assert (8 ^ (maxTreeLevel k - l) = 8 * 8 ^ (maxTreeLevel k - l - 1)) as -> by (rewrite <- pow8_succ by lia; f_equal; lia).
      f_equal. lia.
    + pose proof (leafKeys_nonempty (8 * p + (c + 1)) (f (c + 1))).
      pose proof (leafStarts_child k p f (c + 1) 0 ltac:(lia) ltac:(lia)) as Ec. fold g in Ec. rewrite Z.add_0_r in Ec.
      rewrite aget_app_l.
      * rewrite Ec, (leafStarts_first k _ _ (l + 1)); [|apply nodeAt_child; [done|lia]|apply Hd'; lia].
        rewrite (nodeStart_child k l) by (done || lia). f_equal. lia.
      * rewrite zlen_leafStarts, leafKeys_blocks. fold g. pose proof (blocks_mono g (c + 1 + 1) 8 ltac:(lia)) as Hmo.
        rewrite (blocks_succ g (c + 1)), zlen_app in Hmo by lia. change (leafKeys (8 * p + (c + 1)) (f (c + 1))) with (g (c + 1)) in *. lia.
Qed.
