(* ===== verification/OctreeBuild.v ===== *)
(** * Correctness of the internal octree construction

    [buildOctreeCpu] over the leaf array of an octree [t]: the unsorted layout holds the
    internal nodes in order followed by the leaves, sorting puts the nodes in level order,
    and the binary searches of [linkTreeCpu] connect every internal node with its eight
    children. *)

From S2P Require Import Prelude Primitives SfcCommon Csarray CsInvariant CsRebalance CsCounts CsBuild Octree OctreeNodes.

Lemma nodeStart_root k : nodeStart k 1 = 0.
Proof. by destruct k. Qed.

Section Build.
Context (k : KeyType) (t : otree).
Hypothesis Hdepth : depthLe (maxTreeLevel k) t.

(** The leaf array of [t] and its node counts. *)
Definition leafArray : list Z := leafStarts k 1 t ++ [keyMax k].

Local Abbreviation inner := (innerKeys 1 t).
Local Abbreviation leaf := (leafKeys 1 t).
Local Abbreviation nI := (zlen (innerKeys 1 t)).
Local Abbreviation nL := (zlen (leafKeys 1 t)).

Lemma depth_root : depthLe (maxTreeLevel k - 0) t.
Proof using Hdepth. by rewrite Z.sub_0_r. Qed.

Lemma leafArray_leaf j q :
  leaf.[j] = Some q -> leafArray.[j] = Some (nodeStart k q) /\
    leafArray.[j + 1] = Some (nodeStart k q + 8 ^ (maxTreeLevel k - nodeLevel q)) /\
    nodeAt (nodeLevel q) q /\ nodeLevel q <= maxTreeLevel k.
Proof using Hdepth.
  intros Hq. pose proof (aget_Some_range _ _ _ Hq).
  destruct (depth_level 0 1 t q nodeAt_root _ Hdepth (aget_elem _ _ _ Hq)) as [Hlev Hn].
  unfold leafArray. split.
  - rewrite aget_app_l by (rewrite zlen_leafStarts; lia). unfold leafStarts. by rewrite aget_map, Hq.
  - split; [|split; [done|lia]]. pose proof (leafStarts_end k 1 t 0 j q nodeAt_root depth_root Hq) as E.
    rewrite nodeStart_root, Z.add_0_l, Z.sub_0_r in E. exact E.
Qed.

Lemma inner_node i q : inner.[i] = Some q -> nodeAt (nodeLevel q) q /\ 0 <= nodeLevel q < maxTreeLevel k.
Proof using Hdepth.
  intros Hq%aget_elem. destruct (allKeys_level 1 t 0 (maxTreeLevel k) q nodeAt_root Hdepth) as (Hn & Hl & Hlt).
  - apply elem_of_app. by left.
  - specialize (Hlt Hq). split; [done|lia].
Qed.

(** ** The unsorted layout *)

(** State after the iterations below [tid]. *)
Definition layoutInv (tid : Z) (st : list Z * list Z) : Prop :=
  let '(pfx, i2l) := st in
  zlen pfx = nI + nL /\ zlen i2l = nI + nL /\
  (forall j, 0 <= j < tid -> pfx.[j + nI] = leaf.[j] /\ i2l.[j + nI] = Some (j + nI)) /\
  (forall j i q, boundary 1 t j i q -> j < tid -> pfx.[i] = Some q /\ i2l.[i] = Some i).

Lemma layout_leaf_write tid pfx i2l q :
  0 <= tid < nL -> leaf.[tid] = Some q -> layoutInv tid (pfx, i2l) ->
  exists pfx' i2l', aset pfx (tid + nI) q = Some pfx' /\ aset i2l (tid + nI) (tid + nI) = Some i2l' /\
    zlen pfx' = nI + nL /\ zlen i2l' = nI + nL /\
    (forall j, 0 <= j < tid + 1 -> pfx'.[j + nI] = leaf.[j] /\ i2l'.[j + nI] = Some (j + nI)) /\
    (forall j i q, boundary 1 t j i q -> j < tid -> pfx'.[i] = Some q /\ i2l'.[i] = Some i).
Proof using.
  intros Htid Hq (Hz1 & Hz2 & Hl & Hb). pose proof (zlen_nonneg inner).
  pose proof (aset_Some pfx (tid + nI) q ltac:(lia)) as E1. pose proof (aset_Some i2l (tid + nI) (tid + nI) ltac:(lia)) as E2.
  eexists _, _. split; [exact E1|]. split; [exact E2|].
  split; [by rewrite (aset_zlen _ _ _ _ E1)|]. split; [by rewrite (aset_zlen _ _ _ _ E2)|]. split.
  - intros j Hj. destruct (decide (j = tid)) as [->|].
    + by rewrite (aget_aset_eq _ _ _ _ E1), (aget_aset_eq _ _ _ _ E2).
    + rewrite (aget_aset_ne _ _ (j + nI) _ _ E1), (aget_aset_ne _ _ (j + nI) _ _ E2) by lia. apply Hl. lia.
  - intros j i q' Hbd Hj. destruct (boundary_inner _ _ _ _ _ Hbd) as [Hi _].
    rewrite (aget_aset_ne _ _ i _ _ E1), (aget_aset_ne _ _ i _ _ E2) by lia. by eapply Hb.
Qed.

Lemma binaryKeyWeight_sum x level : binaryKeyWeight k x level = weightSum k x 1 (level + 1).
Proof using. unfold binaryKeyWeight, weightSum. do 2 f_equal. f_equal. lia. Qed.

(** Iteration [tid]: the leaf prefix, and the internal node whose middle follows the leaf. *)
Lemma layoutBody_inv tid st :
  0 <= tid < nL -> layoutInv tid st ->
  exists st', layoutBody k leafArray nI nL tid st = Some st' /\ layoutInv (tid + 1) st'.
Proof using Hdepth.
  destruct st as [pfx i2l]. intros Htid Hinv. kfacts k. destruct (aget_is_Some leaf tid Htid) as [q Hq].
  destruct (leafArray_leaf tid q Hq) as (Ek & En & Hnq & Hlq). pose proof Hnq as (Hl0 & _).
  destruct (layout_leaf_write tid pfx i2l q Htid Hq Hinv) as (p1 & i1 & E1 & E2 & Hz1 & Hz2 & Hleaf & Hbound).
  pose proof (pow8_le_keyMax k (maxTreeLevel k - nodeLevel q) ltac:(lia)) as Hpow.
  unfold layoutBody. rewrite Ek, En. rewrite kwrap_small by lia.
  replace (nodeStart k q + 8 ^ (maxTreeLevel k - nodeLevel q) - nodeStart k q) with (8 ^ (maxTreeLevel k - nodeLevel q)) by lia.
  rewrite treeLevel_pow8 by lia. replace (maxTreeLevel k - (maxTreeLevel k - nodeLevel q)) with (nodeLevel q) by lia.
  rewrite encode_nodeStart by done. rewrite E1, E2.
  set (y := nodeStart k q + 8 ^ (maxTreeLevel k - nodeLevel q)) in *.
  assert (Hnob : (forall i q', ~ boundary 1 t tid i q') -> layoutInv (tid + 1) (p1, i1)).
  { intros Hno. split; [done|]. split; [done|]. split; [done|]. intros j i q' Hb Hj.
    apply (Hbound j); [done|]. destruct (decide (j = tid)) as [->|]; [by destruct (Hno i q')|lia]. }
  destruct (Z.ltb_spec tid (nL - 1)) as [Hin|Hlast].
  2: { rewrite andb_false_r. eexists. split; [done|]. apply Hnob. intros i q' Hb.
       destruct (boundary_keys k _ _ _ _ _ Hb 0 nodeAt_root depth_root) as (_ & Hj & _). lia. }
  assert (Ex : (leafStarts k 1 t).[tid] = Some (nodeStart k q)).
  { unfold leafArray in Ek. by rewrite aget_app_l in Ek by (rewrite zlen_leafStarts; lia). }
  assert (Ey : (leafStarts k 1 t).[tid + 1] = Some y).
  { unfold leafArray in En. by rewrite aget_app_l in En by (rewrite zlen_leafStarts; lia). }
  rewrite andb_true_r.
  destruct (boundary_complete k 1 t 0 tid _ _ nodeAt_root depth_root Ex Ey) as [Hcp0 [(i & q' & Hb)|Hno]].
  - destruct (boundary_keys k _ _ _ _ _ Hb 0 nodeAt_root depth_root)
      as (_ & _ & Hlev & _ & x' & y' & Ex' & Ey' & Hcp & Henc & Hi).
    rewrite Ex in Ex'. injection Ex' as <-. rewrite Ey in Ey'. injection Ey' as <-.
    destruct (boundary_inner _ _ _ _ _ Hb) as [Hir Hiq].
    rewrite Hcp, u32_small by lia. rewrite (Z.mul_comm 3), Z.mod_mul, Z.div_mul by lia. simpl Z.eqb. cbv iota.
    rewrite binaryKeyWeight_sum, Z.add_0_l in *. rewrite <- Hi, (Z.mul_comm 7), Z.quot_mul by lia.
    rewrite (Z.mul_comm _ 3), Henc.
    pose proof (aset_Some p1 i q' ltac:(lia)) as F1. pose proof (aset_Some i1 i i ltac:(lia)) as F2. rewrite F1, F2.
    eexists. split; [done|]. split; [by rewrite (aset_zlen _ _ _ _ F1)|]. split; [by rewrite (aset_zlen _ _ _ _ F2)|]. split.
    + intros j Hj. rewrite (aget_aset_ne _ _ (j + nI) _ _ F1), (aget_aset_ne _ _ (j + nI) _ _ F2) by lia. by apply Hleaf.
    + intros j i' q'' Hb' Hj. destruct (boundary_inner _ _ _ _ _ Hb') as [Hir' Hiq'].
      destruct (decide (i' = i)) as [->|].
      * rewrite (aget_aset_eq _ _ _ _ F1), (aget_aset_eq _ _ _ _ F2). split; [congruence|done].
      * rewrite (aget_aset_ne _ _ i' _ _ F1), (aget_aset_ne _ _ i' _ _ F2) by done.
        apply (Hbound j); [done|]. destruct (decide (j = tid)) as [->|]; [|lia].
        destruct (boundary_keys k _ _ _ _ _ Hb' 0 nodeAt_root depth_root) as (_ & _ & _ & _ & x2 & y2 & Ex2 & Ey2 & Hcp2 & Henc2 & Hi2).
        rewrite Ex in Ex2. injection Ex2 as <-. rewrite Ey in Ey2. injection Ey2 as <-.
        exfalso. assert (nodeLevel q'' = nodeLevel q') as El by lia. rewrite El, Z.add_0_l in Hi2. lia.
  - assert (commonPrefix k (nodeStart k q) y < 4294967296) as Hcp.
    { unfold commonPrefix, i32, swrap. change (2 ^ (32 - 1)) with 2147483648. change (2 ^ 32) with 4294967296.
      pose proof (Z.mod_pos_bound (u32 (countLeadingZeros (keyBits k) (Z.lxor (nodeStart k q) y) - unusedBits k) + 2147483648) 4294967296). lia. }
    rewrite u32_small by lia. destruct (Z.eqb_spec (commonPrefix k (nodeStart k q) y mod 3) 0) as [|_]; [done|].
    eexists. split; [done|]. apply Hnob. intros i q' Hb.
    destruct (boundary_keys k _ _ _ _ _ Hb 0 nodeAt_root depth_root) as (_ & _ & _ & _ & x' & y' & Ex' & Ey' & Hcp' & _).
    rewrite Ex in Ex'. injection Ex' as <-. rewrite Ey in Ey'. injection Ey' as <-.
    apply Hno. rewrite Hcp', Z.mul_comm. apply Z.mod_mul. lia.
Qed.

(** The layout holds the internal nodes followed by the leaves, numbered consecutively. *)
Lemma createUnsortedLayoutCpu_spec pfx i2l :
  zlen pfx = nI + nL -> zlen i2l = nI + nL ->
  createUnsortedLayoutCpu k leafArray nI nL pfx i2l = Some (allKeys 1 t, seqZ 0 (nI + nL)).
Proof using Hdepth.
  intros Hp Hi. pose proof (zlen_nonneg inner). pose proof (zlen_nonneg leaf). unfold createUnsortedLayoutCpu.
  destruct (for_loop_inv layoutInv 0 nL (layoutBody k leafArray nI nL) (pfx, i2l)) as ([pfx' i2l'] & E & Hinv); [lia| |apply layoutBody_inv|].
  { split; [done|]. split; [done|]. split; [lia|]. intros j i q Hb.
    destruct (boundary_keys k _ _ _ _ _ Hb 0 nodeAt_root depth_root) as (? & _). lia. }
  rewrite E. f_equal. destruct Hinv as (Hz1 & Hz2 & Hl & Hb). unfold allKeys.
  assert (Hget : forall i, 0 <= i < nI + nL -> pfx'.[i] = (inner ++ leaf).[i] /\ i2l'.[i] = Some i).
  { intros i Hi'. destruct (Z.lt_ge_cases i nI).
    - destruct (boundary_total 1 t i ltac:(lia)) as (j & q & Hbd). destruct (boundary_inner _ _ _ _ _ Hbd) as [_ Hq].
      destruct (boundary_keys k _ _ _ _ _ Hbd 0 nodeAt_root depth_root) as (_ & Hj & _).
      destruct (Hb j i q Hbd ltac:(lia)) as [-> ->]. by rewrite aget_app_l.
    - destruct (Hl (i - nI) ltac:(lia)) as [HA HB]. rewrite Z.sub_add in HA, HB. by rewrite HA, HB, aget_app_r. }
  f_equal; apply list_eq_aget; autorewrite with zlen; rewrite ?zlen_seqZ by lia; try lia; intros i Hir.
  - apply Hget. lia.
  - rewrite aget_seqZ by lia. rewrite Z.add_0_l. apply Hget. lia.
Qed.

(** ** Level order *)

Lemma zip_seqZ_get (l keys vals : list Z) n i v :
  zlen l = n -> zip keys vals ≡ₚ zip l (seqZ 0 n) -> vals.[i] = Some v -> zlen keys = zlen vals -> keys.[i] = l.[v].
Proof using.
  intros Hl Hp Hv Hz. pose proof (aget_Some_range _ _ _ Hv) as Hr. pose proof (zlen_nonneg l).
  destruct (aget_is_Some keys i ltac:(lia)) as [q Hq]. rewrite Hq. symmetry.
  assert (Hin : (q, v) ∈ zip l (seqZ 0 n)).
  { rewrite <- Hp. apply list_elem_of_lookup. exists (Z.to_nat i). rewrite aget_lookup in Hq, Hv by lia.
    apply lookup_zip_with_Some. by exists q, v. }
  apply list_elem_of_lookup in Hin as (m & (q' & v' & [= <- <-] & Hq' & Hv')%lookup_zip_with_Some).
  apply lookup_seqZ in Hv' as [-> Hm]. rewrite Z.add_0_l. by rewrite aget_nat.
Qed.

(** Result of sorting the numbered layout. *)
Record levelOrder (S V : list Z) : Prop := {
  lo_sorted : zsorted S;
  lo_perm : S ≡ₚ allKeys 1 t;
  lo_zlen : zlen S = nI + nL;
  lo_vlen : zlen V = nI + nL;
  lo_numbers : V ≡ₚ seqZ 0 (nI + nL);
  lo_get : forall i v, V.[i] = Some v -> S.[i] = (allKeys 1 t).[v]
}.

Lemma zlen_allKeys : zlen (allKeys 1 t) = nI + nL.
Proof using. apply zlen_app. Qed.

Lemma zip_fst (l1 l2 : list Z) : zlen l1 = zlen l2 -> (zip l1 l2).*1 = l1 /\ (zip l1 l2).*2 = l2.
Proof using. unfold zlen. intros H. split; [apply fst_zip|apply snd_zip]; lia. Qed.

Lemma sort_levelOrder :
  exists S V, sort_by_key (allKeys 1 t) (seqZ 0 (nI + nL)) = Some (S, V) /\ levelOrder S V.
Proof using.
  pose proof (zlen_nonneg inner). pose proof (zlen_nonneg leaf).
  assert (Hz : zlen (allKeys 1 t) = zlen (seqZ 0 (nI + nL))) by (rewrite zlen_allKeys, zlen_seqZ; lia).
  destruct (sort_by_key_correct _ _ Hz) as (S & V & E & Hs & Hp & HS & HV). exists S, V. split; [done|].
  destruct (zip_fst S V ltac:(lia)) as [F1 F2]. destruct (zip_fst _ _ Hz) as [G1 G2]. split.
  - done.
  - by rewrite <- F1, Hp, G1.
  - by rewrite HS, zlen_allKeys.
  - by rewrite HV, zlen_seqZ by lia.
  - by rewrite <- F2, Hp, G2.
  - intros i v Hv. eapply zip_seqZ_get; [apply zlen_allKeys|done|done|lia].
Qed.

(** ** Numbering *)

(** The first loop inverts the permutation [V]. *)
Lemma invert_loop V n l2i :
  V ≡ₚ seqZ 0 n -> zlen V = n -> zlen l2i = n -> 0 <= n ->
  exists L, for_loop 0 n (fun i l => let? j := V.[i] in aset l j i) l2i = Some L /\ zlen L = n /\
    (forall i j, V.[i] = Some j -> L.[j] = Some i) /\ (forall i j, L.[j] = Some i -> V.[i] = Some j).
Proof using.
  intros Hp HV Hl Hn.
  assert (Hin : forall j, j ∈ V <-> 0 <= j < n) by (intros j; rewrite Hp, elem_of_seqZ; lia).
  destruct (scatter_correct V (seqZ 0 n) l2i) as (L & E & HL & Hw & _).
  - rewrite Hp. apply NoDup_seqZ.
  - rewrite zlen_seqZ; lia.
  - intros i j Hj%aget_elem%Hin. lia.
  - assert (Hget : forall i j, V.[i] = Some j -> L.[j] = Some i).
    { intros i j Hj. rewrite (Hw _ _ Hj). pose proof (aget_Some_range _ _ _ Hj). by rewrite aget_seqZ by lia. }
    exists L. split; [|split; [lia|split; [done|]]].
    + rewrite <- E. unfold scatter. rewrite HV. apply for_loop_ext. intros i l Hi. rewrite aget_seqZ by lia. by rewrite Z.add_0_l.
    + intros i j Hi. pose proof (aget_Some_range _ _ _ Hi). assert (j ∈ V) as [i' Hi']%elem_aget by (apply Hin; lia).
      pose proof (Hget _ _ Hi') as Hj. congruence.
Qed.

(** The second loop subtracts the number of internal nodes in place. *)
Lemma offset_loop V n m :
  zlen V = n -> 0 <= n ->
  exists U, for_loop 0 n (fun i l => let? j := l.[i] in aset l i (j - m)) V = Some U /\ zlen U = n /\
    (forall i j, V.[i] = Some j -> U.[i] = Some (j - m)).
Proof using.
  intros HV Hn.
  destruct (for_loop_inv (fun i l => zlen l = n /\ forall i' j, V.[i'] = Some j -> l.[i'] = Some (if i' <? i then j - m else j)) 0 n
    (fun i l => let? j := l.[i] in aset l i (j - m)) V) as (U & E & HU & Hget); [done| | |].
  - split; [done|]. intros i' j Hj. pose proof (aget_Some_range _ _ _ Hj). destruct (Z.ltb_spec i' 0); [lia|done].
  - intros i l Hi [Hl Hget]. destruct (aget_is_Some V i ltac:(lia)) as [j Hj].
    rewrite (Hget _ _ Hj). rewrite Z.ltb_irrefl.
    pose proof (aset_Some l i (j - m) ltac:(lia)) as Hset. rewrite Hset. eexists. split; [done|].
    split; [by rewrite (aset_zlen _ _ _ _ Hset)|]. intros i' j' Hj'. destruct (decide (i = i')) as [<-|Hne].
    + rewrite (aget_aset_eq _ _ _ _ Hset). destruct (Z.ltb_spec i (i + 1)); [congruence|lia].
    + rewrite (aget_aset_ne _ _ _ _ _ Hset Hne), (Hget _ _ Hj'). destruct (Z.ltb_spec i' i), (Z.ltb_spec i' (i + 1)); done || lia.
  - exists U. split; [done|]. split; [done|]. intros i j Hj. rewrite (Hget _ _ Hj).
    pose proof (aget_Some_range _ _ _ Hj). destruct (Z.ltb_spec i n); [done|lia].
Qed.

(** ** Level ranges *)

Lemma allKeys_node q : q ∈ allKeys 1 t -> nodeAt (nodeLevel q) q /\ nodeLevel q <= maxTreeLevel k.
Proof using Hdepth.
  intros Hq. destruct (allKeys_level 1 t 0 (maxTreeLevel k) q nodeAt_root Hdepth Hq) as (Hn & Hl & _). split; [done|lia].
Qed.

Lemma encode_levelStart l : 0 <= l <= maxTreeLevel k -> encodePlaceholderBit k 0 (3 * l) = 8 ^ l.
Proof using.
  intros Hl. assert (Hp : nodeAt l (8 ^ l)) by (unfold nodeAt; pose proof (pow8_pos l); lia).
  rewrite <- (encode_nodeStart k l (8 ^ l)) by (done || lia). f_equal. rewrite (nodeAt_start k l) by (done || lia). lia.
Qed.

Lemma getLevelRangeCpu_spec S range :
  zsorted S -> S ≡ₚ allKeys 1 t -> zlen range = maxTreeLevel k + 2 ->
  exists R, getLevelRangeCpu k S (zlen S) range = Some R /\ zlen R = maxTreeLevel k + 2 /\
    forall l, 0 <= l <= maxTreeLevel k + 1 -> R.[l] = Some (count_lt (8 ^ l) S).
Proof using Hdepth.
  intros Hs Hp Hz. kfacts k. unfold getLevelRangeCpu, for_loop.
  destruct (foldM_writes (fun level range => let? it := lower_bound S 0 (zlen S) (encodePlaceholderBit k 0 (3 * level)) in aset range level it)
    (fun l => count_lt (8 ^ l) S) 0 (maxTreeLevel k + 2) (seqZ 0 (maxTreeLevel k + 1 - 0)) range) as (R & -> & HR & Hin & _); [done| | |].
  - intros i Hi%elem_of_seqZ. lia.
  - intros i st Hi%elem_of_seqZ Hst. rewrite encode_levelStart by lia. by rewrite lower_bound_count, Z.add_0_l.
  - pose proof (aset_Some R (maxTreeLevel k + 1) (zlen S) ltac:(lia)) as Hset. rewrite Hset. eexists. split; [done|].
    split; [by rewrite (aset_zlen _ _ _ _ Hset)|]. intros l Hl. destruct (decide (l = maxTreeLevel k + 1)) as [->|].
    + rewrite (aget_aset_eq _ _ _ _ Hset). f_equal. symmetry. apply count_lt_all, Forall_forall.
      intros q Hq. rewrite Hp in Hq. destruct (allKeys_node q Hq) as [(Hl0 & Hq') Hlm].
      pose proof (pow8_mono (nodeLevel q) (maxTreeLevel k) ltac:(lia)). rewrite pow8_succ by lia. lia.
    + rewrite (aget_aset_ne _ _ l _ _ Hset) by lia. apply Hin. rewrite Z.sub_0_r. apply elem_of_seqZ. lia.
Qed.

(** ** Links *)

Definition children (q : Z) : list Z := (fun c => 8 * q + c) <$> seqZ 0 8.

Lemma elem_children q x : x ∈ children q <-> x / 8 = q.
Proof using.
  unfold children. rewrite list_elem_of_fmap. split.
  - intros (c & -> & Hc%elem_of_seqZ). Z.div_mod_to_equations. lia.
  - intros <-. exists (x mod 8). split; [|apply elem_of_seqZ]; Z.div_mod_to_equations; lia.
Qed.

Lemma count_lt_children q l : count_lt (8 * q) (concat (children <$> l)) = 8 * count_lt q l.
Proof using.
  induction l as [|x l IH]; [done|]. change (concat (children <$> x :: l)) with (children x ++ concat (children <$> l)).
  change (x :: l) with ([x] ++ l). rewrite !count_lt_app, IH.
  assert (Hb : forall y, y ∈ children x -> 8 * x <= y < 8 * x + 8) by (intros y Hy%elem_children; Z.div_mod_to_equations; lia).
  destruct (Z.lt_ge_cases x q).
  - rewrite (count_lt_all (8 * q) (children x)), (count_lt_all q [x]); [|by repeat constructor|].
    + unfold children. rewrite zlen_map, zlen_seqZ by lia. change (zlen [x]) with 1. lia.
    + apply Forall_forall. intros y Hy%Hb. lia.
  - rewrite (count_lt_none (8 * q) (children x)), (count_lt_none q [x]); [lia|repeat constructor; lia|].
    apply Forall_forall. intros y Hy%Hb. lia.
Qed.

(** The nodes are the root and the children of the internal nodes. *)
Lemma allKeys_children : allKeys 1 t ≡ₚ 1 :: concat (children <$> inner).
Proof using.
  pose proof (allKeys_NoDup 1 t ltac:(lia)) as Hnd. pose proof Hnd as Hnd'. apply NoDup_app in Hnd' as (Hi & _ & _).
  assert (Hge : forall q, q ∈ inner -> 1 <= q).
  { intros q Hq%innerKeys_below. destruct Hq as (j & Hj & Hq). pose proof (pow8_pos j Hj). lia. }
  assert (Hch : forall x, x ∈ concat (children <$> inner) <-> x / 8 ∈ inner).
  { intros x. rewrite elem_of_concat. split.
    - intros (l & (q & -> & Hq)%list_elem_of_fmap & Hx%elem_children). by rewrite Hx.
    - intros Hx. exists (children (x / 8)). split; [by apply list_elem_of_fmap_2|by apply elem_children]. }
  apply NoDup_Permutation; [done| |].
  - apply NoDup_cons. split.
    + intros H%Hch%Hge. change (1 / 8) with 0 in H. lia.
    + clear -Hi. induction Hi as [|q l Hq _ IH]; [constructor|]. 
      change (concat (children <$> q :: l)) with (children q ++ concat (children <$> l)). apply NoDup_app. split; [|split; [|done]].
      * apply NoDup_fmap_2; [intros a b; lia|apply NoDup_seqZ].
      * intros x Hx%elem_children (l' & (q' & -> & Hq')%list_elem_of_fmap & Hx'%elem_children)%elem_of_concat. by subst.
  - intros x. rewrite elem_of_cons, Hch. split.
    + intros Hx. destruct (decide (x = 1)) as [->|Hne]; [by left|right]. by eapply parent_inner.
    + intros [->|Hx]; [apply allKeys_root|]. pose proof (inner_children 1 t (x / 8) (x mod 8) Hx) as H.
      replace (8 * (x / 8) + x mod 8) with x in H by (Z.div_mod_to_equations; lia). apply H. apply Z.mod_pos_bound. lia.
Qed.

Lemma child_position q : q ∈ inner -> count_lt (8 * q) (allKeys 1 t) = 1 + 8 * count_lt q inner.
Proof using.
  intros Hq%innerKeys_below. destruct Hq as (j & Hj & Hq). pose proof (pow8_pos j Hj).
  rewrite (count_lt_perm _ _ _ allKeys_children). change (1 :: concat (children <$> inner)) with ([1] ++ concat (children <$> inner)).
  rewrite count_lt_app, count_lt_children. rewrite (count_lt_all _ [1]); [done|repeat constructor; lia].
Qed.

Section Links.
Context (S V L R : list Z).
Hypothesis Hlo : levelOrder S V.
Hypothesis HL : forall i j, L.[j] = Some i -> V.[i] = Some j.
Hypothesis HLlen : zlen L = nI + nL.
Hypothesis HR : forall l, 0 <= l <= maxTreeLevel k + 1 -> R.[l] = Some (count_lt (8 ^ l) S).

(** Position of a node in level order. *)
Local Abbreviation pos q := (count_lt q S).

Lemma S_NoDup : NoDup S.
Proof using Hlo. rewrite (lo_perm _ _ Hlo). apply allKeys_NoDup. lia. Qed.

Lemma S_pos q : q ∈ allKeys 1 t -> S.[pos q] = Some q.
Proof using Hlo. intros Hq. apply elem_position; [apply Hlo|apply S_NoDup|by rewrite (lo_perm _ _ Hlo)]. Qed.

Lemma inner_pos i q : inner.[i] = Some q -> L.[i] = Some (pos q) /\ S.[pos q] = Some q.
Proof using Hlo HL HLlen.
  intros Hq. pose proof (aget_Some_range _ _ _ Hq). pose proof (zlen_nonneg leaf).
  assert (HSq : S.[pos q] = Some q) by (apply S_pos, elem_of_app; left; by eapply aget_elem). split; [|done].
  destruct (aget_is_Some L i ltac:(lia)) as [j Hj]. rewrite Hj. f_equal.
  apply position_elem; [apply Hlo|apply S_NoDup|]. rewrite (lo_get _ _ Hlo _ _ (HL _ _ Hj)). unfold allKeys. by rewrite aget_app_l by lia.
Qed.

(** The search range of the children's level contains their position. *)
Lemma child_search q l :
  q ∈ inner -> nodeAt l q -> l < maxTreeLevel k ->
  lower_bound S (count_lt (8 ^ (l + 1)) S) (count_lt (8 ^ (l + 2)) S) (8 * q) = Some (pos (8 * q)) /\
  pos (8 * q) < count_lt (8 ^ (l + 2)) S /\ S.[pos (8 * q)] = Some (8 * q).
Proof using Hlo.
  intros Hq (Hl & Hqr) Hlm. assert (H8 : S.[pos (8 * q)] = Some (8 * q)).
  { apply S_pos. replace (8 * q) with (8 * q + 0) by lia. apply inner_children; [done|lia]. }
  assert (E : 8 ^ (l + 2) = 64 * 8 ^ l) by (rewrite Z.pow_add_r by lia; lia). assert (E' := pow8_succ l Hl).
  assert (Hlt : pos (8 * q) < count_lt (8 ^ (l + 2)) S) by (eapply count_lt_gt; [apply Hlo|done|lia]).
  split; [|done]. pose proof (count_lt_range (8 ^ (l + 1)) S). pose proof (count_lt_range (8 ^ (l + 2)) S).
  apply lower_bound_within; [apply Hlo|lia|lia|]. split; [|lia]. apply count_lt_mono. lia.
Qed.

Lemma encode_child q l : nodeAt l q -> l < maxTreeLevel k -> encodePlaceholderBit k (decodePlaceholderBit k q) (3 * l + 3) = 8 * q.
Proof using.
  intros Hq Hl. pose proof (nodeAt_child l q 0 Hq ltac:(lia)) as Hc. rewrite Z.add_0_r in Hc.
  rewrite <- (encode_nodeStart k (l + 1) (8 * q)) by (done || lia). f_equal; [|lia].
  pose proof (nodeStart_child k l q 0 Hq ltac:(lia) ltac:(lia)) as E. rewrite Z.add_0_r, Z.mul_0_l, Z.add_0_r in E. by rewrite E.
Qed.

(** State after the iterations below [tid], starting from child offsets [ch0]. *)
Definition linkInv (ch0 : list Z) (np tid : Z) (st : list Z * list Z) : Prop :=
  let '(ch, par) := st in
  zlen ch = zlen ch0 /\ zlen par = np /\
  (forall i q, i < tid -> inner.[i] = Some q -> ch.[pos q] = Some (pos (8 * q)) /\ par.[count_lt q inner] = Some (pos q)) /\
  (forall j, (forall q, q ∈ inner -> j <> pos q) -> ch.[j] = ch0.[j]).

Lemma count_lt_inj l q q' : NoDup l -> q ∈ l -> q' ∈ l -> count_lt q l = count_lt q' l -> q = q'.
Proof using.
  intros Hnd Hq Hq' E. destruct (Z.lt_trichotomy q q') as [Hlt|[|Hlt]]; [|done|]; exfalso.
  - pose proof (count_lt_succ q l Hnd Hq). pose proof (count_lt_mono (q + 1) q' l ltac:(lia)). lia.
  - pose proof (count_lt_succ q' l Hnd Hq'). pose proof (count_lt_mono (q' + 1) q l ltac:(lia)). lia.
Qed.

Lemma linkBody_inv ch0 np tid st :
  zlen ch0 = nI + nL + 1 -> nI <= np -> 0 <= tid < nI -> linkInv ch0 np tid st ->
  exists st', linkBody k S L R tid st = Some st' /\ linkInv ch0 np (tid + 1) st'.
Proof using Hdepth Hlo HL HLlen HR.
  intros Hch0 Hnp Htid. destruct st as [ch par]. intros (Hz1 & Hz2 & Hlink & Hkeep).
  destruct (aget_is_Some inner tid Htid) as [q Hq]. pose proof (aget_elem _ _ _ Hq) as Hin.
  destruct (inner_pos tid q Hq) as [EL ES]. destruct (inner_node tid q Hq) as [Hn Hlev].
  destruct (child_search q (nodeLevel q) Hin Hn ltac:(lia)) as (Elb & Hlt & E8).
  pose proof (aget_Some_range _ _ _ ES) as Hpr. rewrite (lo_zlen _ _ Hlo) in Hpr.
  assert (Hnd : NoDup inner) by (pose proof (allKeys_NoDup 1 t ltac:(lia)) as H; by apply NoDup_app in H as (? & _)).
  assert (Epos : pos (8 * q) = 1 + 8 * count_lt q inner) by (rewrite (count_lt_perm _ _ _ (lo_perm _ _ Hlo)); by apply child_position).
  assert (Hrank : 0 <= count_lt q inner < nI).
  { split; [apply count_lt_range|]. pose proof (count_lt_succ q inner Hnd Hin). pose proof (count_lt_range (q + 1) inner). lia. }
  unfold linkBody. rewrite EL, ES, (nodeAt_decode k (nodeLevel q)) by (done || lia).
  rewrite (encode_child q (nodeLevel q)) by (done || lia). rewrite (Z.mul_comm 3), Z.div_mul by lia.
  rewrite !HR by lia. rewrite Elb, E8. destruct (Z.eqb_spec (pos (8 * q)) (count_lt (8 ^ (nodeLevel q + 2)) S)); [lia|].
  rewrite Z.eqb_refl.
  replace (Z.quot (pos (8 * q) - 1) 8) with (count_lt q inner).
  2: { rewrite Epos. replace (1 + 8 * count_lt q inner - 1) with (count_lt q inner * 8) by lia. by rewrite Z.quot_mul by lia. }
  pose proof (aset_Some ch (pos q) (pos (8 * q)) ltac:(lia)) as F1.
  pose proof (aset_Some par (count_lt q inner) (pos q) ltac:(lia)) as F2. rewrite F1, F2.
  eexists. split; [done|]. split; [by rewrite (aset_zlen _ _ _ _ F1)|]. split; [by rewrite (aset_zlen _ _ _ _ F2)|]. split.
  - intros i q' Hi Hq'. destruct (decide (q' = q)) as [->|Hne].
    + by rewrite (aget_aset_eq _ _ _ _ F1), (aget_aset_eq _ _ _ _ F2).
    + pose proof (aget_elem _ _ _ Hq') as Hin'. rewrite (aget_aset_ne _ _ _ _ _ F1), (aget_aset_ne _ _ _ _ _ F2).
      * apply (Hlink i); [|done]. destruct (decide (i = tid)) as [->|]; [congruence|lia].
      * intros E. by apply Hne, (count_lt_inj inner).
      * intros E. apply Hne, (count_lt_inj S); [apply S_NoDup|rewrite (lo_perm _ _ Hlo); apply elem_of_app; by left..|done].
  - intros j Hj. rewrite (aget_aset_ne _ _ _ _ _ F1); [by apply Hkeep|]. intros <-. by apply (Hj q).
Qed.

End Links.

(** ** The linked octree *)

(** The arrays describe [t]: nodes in level order, every internal node with the offset of
    its eight consecutive children and every child group with its parent, leaves without
    children and numbered in key order, and the first node of every level. *)
Record linked (o : OctreeArrays) : Prop := {
  lk_sorted : zsorted (prefixes o);
  lk_nodes : prefixes o ≡ₚ allKeys 1 t;
  lk_inner : forall i q, (prefixes o).[i] = Some q -> q ∈ inner ->
    exists c, (childOffsets o).[i] = Some c /\ i < c /\
      forall d, 0 <= d < 8 -> (prefixes o).[c + d] = Some (8 * q + d) /\ (parents o).[(c + d - 1) / 8] = Some i;
  lk_leaf : forall i q, (prefixes o).[i] = Some q -> q ∈ leaf -> (childOffsets o).[i] = Some 0;
  lk_leafIndex : forall j q, leaf.[j] = Some q ->
    exists i, (leafToInternal o).[nI + j] = Some i /\ (prefixes o).[i] = Some q /\ (internalToLeaf o).[i] = Some j;
  lk_levels : forall l, 0 <= l <= maxTreeLevel k + 1 -> (levelRange o).[l] = Some (count_lt (8 ^ l) (prefixes o));
  lk_rangeLen : zlen (levelRange o) = maxTreeLevel k + 2;
  lk_childLen : zlen (childOffsets o) = nI + nL + 1
}.

(** Sizes that [OctreeData::resize] gives the arrays. *)
Definition sized (o : OctreeArrays) : Prop :=
  zlen (prefixes o) = nI + nL /\ zlen (internalToLeaf o) = nI + nL /\ zlen (leafToInternal o) = nI + nL /\
  zlen (childOffsets o) = nI + nL + 1 /\ nI <= zlen (parents o) /\ zlen (levelRange o) = maxTreeLevel k + 2.

Lemma zero_loop ch n :
  0 <= n <= zlen ch -> exists Z0, for_loop 0 n (fun i c => aset c i 0) ch = Some Z0 /\ zlen Z0 = zlen ch /\
    forall i, 0 <= i < n -> Z0.[i] = Some 0.
Proof using.
  intros Hn. destruct (foldM_writes (fun i c => aset c i 0) (fun _ => 0) 0 (zlen ch) (seqZ 0 (n - 0)) ch) as (Z0 & E & Hz & Hin & _).
  - done.
  - intros i Hi%elem_of_seqZ. lia.
  - intros i st _ _. by rewrite Z.add_0_l.
  - exists Z0. split; [done|]. split; [done|]. intros i Hi. apply Hin, elem_of_seqZ. lia.
Qed.

Lemma child_links S V q :
  levelOrder S V -> q ∈ inner -> count_lt q S < count_lt (8 * q) S /\
  forall d, 0 <= d < 8 -> S.[count_lt (8 * q) S + d] = Some (8 * q + d) /\ (count_lt (8 * q) S + d - 1) / 8 = count_lt q inner.
Proof using.
  intros Hlo Hq. assert (Hge : 1 <= q) by (apply innerKeys_below in Hq as (j & Hj & Hq); pose proof (pow8_pos j Hj); lia).
  assert (Hmem : forall d, 0 <= d < 8 -> 8 * q + d ∈ S) by (intros; rewrite (lo_perm _ _ Hlo); by apply inner_children).
  assert (HqS : q ∈ S) by (rewrite (lo_perm _ _ Hlo); apply elem_of_app; by left).
  pose proof (S_NoDup S V Hlo) as Hnd. split.
  { pose proof (count_lt_succ q S Hnd HqS). pose proof (count_lt_mono (q + 1) (8 * q) S ltac:(lia)). lia. }
  assert (Hd : forall d : nat, (d < 8)%nat -> count_lt (8 * q + Z.of_nat d) S = count_lt (8 * q) S + Z.of_nat d).
  { induction d as [|d IH]; intros Hd; [by rewrite !Z.add_0_r|]. rewrite Nat2Z.inj_succ, Z.add_succ_r, <- Z.add_1_r.
    rewrite count_lt_succ by (done || apply Hmem; lia). rewrite IH; lia. }
  intros d Hd'. specialize (Hd (Z.to_nat d) ltac:(lia)). rewrite Z2Nat.id in Hd by lia. split.
  - rewrite <- Hd. apply elem_position; [apply Hlo|done|by apply Hmem].
  - rewrite (count_lt_perm _ _ _ (lo_perm _ _ Hlo)), child_position by done. Z.div_mod_to_equations. lia.
Qed.

Lemma take_drop_all (l : list Z) n : zlen l = n -> take (Z.to_nat n) l = l /\ drop (Z.to_nat n) l = [].
Proof using. unfold zlen. intros <-. rewrite Nat2Z.id. split; [by apply take_ge|by apply drop_ge]. Qed.

Lemma buildOctreeCpu_linked o :
  sized o -> exists o', buildOctreeCpu k leafArray nL nI o = Some o' /\ linked o' /\ sized o'.
Proof using Hdepth.
  intros (Hp & Hi & Hl & Hc & Hpar & Hr). pose proof (zlen_nonneg inner). pose proof (zlen_nonneg leaf).
  unfold buildOctreeCpu. rewrite createUnsortedLayoutCpu_spec by done.
  destruct (take_drop_all (allKeys 1 t) (nI + nL) zlen_allKeys) as [-> ->].
  destruct (take_drop_all (seqZ 0 (nI + nL)) (nI + nL)) as [-> ->]; [by rewrite zlen_seqZ by lia|].
  destruct sort_levelOrder as (S & V & -> & Hlo). rewrite !app_nil_r.
  destruct (invert_loop V (nI + nL) (leafToInternal o) (lo_numbers _ _ Hlo) (lo_vlen _ _ Hlo) Hl ltac:(lia)) as (L & -> & HLz & HVL & HLV).
  destruct (offset_loop V (nI + nL) nI (lo_vlen _ _ Hlo) ltac:(lia)) as (U & -> & HU & HVU).
  destruct (getLevelRangeCpu_spec S (levelRange o) (lo_sorted _ _ Hlo) (lo_perm _ _ Hlo) Hr) as (R & ER & HRz & HR).
  rewrite (lo_zlen _ _ Hlo) in ER. rewrite ER.
  destruct (zero_loop (childOffsets o) (nI + nL) ltac:(lia)) as (Z0 & -> & HZ & HZ0). unfold linkTreeCpu.
  destruct (for_loop_inv (linkInv S Z0 (zlen (parents o))) 0 nI (linkBody k S L R) (Z0, parents o)) as ([ch par] & E & Hinv); [done| | |].
  { split; [done|]. split; [done|]. split; [|done]. intros i q Hneg ?%aget_Some_range. lia. }
  { intros i st Hir Hst. eapply linkBody_inv; eauto. lia. }
  rewrite E. eexists. split; [done|]. destruct Hinv as (Hz1 & Hz2 & Hlink & Hkeep).
  assert (Hpos : forall i q, S.[i] = Some q -> i = count_lt q S) by (intros; apply position_elem; [apply Hlo|by eapply S_NoDup|done]).
  split; [split|]; cbn [prefixes childOffsets parents levelRange internalToLeaf leafToInternal].
  - apply Hlo.
  - apply Hlo.
  - intros i q Hq Hin. rewrite (Hpos _ _ Hq). destruct (elem_aget _ _ Hin) as [j Hj].
    destruct (Hlink j q (proj2 (aget_Some_range _ _ _ Hj)) Hj) as [Ec Ep]. exists (count_lt (8 * q) S). split; [done|].
    destruct (child_links S V q Hlo Hin) as [Hlt Hd]. split; [done|]. intros d Hdr. destruct (Hd d Hdr) as [Hs ->]. done.
  - intros i q Hq Hlf. pose proof (aget_Some_range _ _ _ Hq). rewrite (lo_zlen _ _ Hlo) in *. rewrite Hkeep; [by apply HZ0|].
    intros q' Hq' Hi'. assert (q' = q) as ->.
    { apply (count_lt_inj S); [by eapply S_NoDup|rewrite (lo_perm _ _ Hlo); apply elem_of_app; by left|by eapply aget_elem|].
      rewrite <- Hi'. by apply Hpos. }
    pose proof (allKeys_NoDup 1 t ltac:(lia)) as (_ & Hdis & _)%NoDup_app. by apply (Hdis q).
  - intros j q Hj. pose proof (aget_Some_range _ _ _ Hj). destruct (aget_is_Some L (nI + j) ltac:(lia)) as [i HLi].
    pose proof (HLV _ _ HLi) as HVi. exists i. split; [done|]. split.
    + rewrite (lo_get _ _ Hlo _ _ HVi). unfold allKeys. rewrite aget_app_r by lia. by rewrite Z.add_simpl_l.
    + rewrite (HVU _ _ HVi). f_equal. lia.
  - done.
  - done.
  - lia.
  - repeat split; cbn; try lia; apply Hlo.
Qed.

End Build.
