(* ===== verification/OctreeQueries.v ===== *)
(** * Queries on a linked octree

    [containingNode] finds the deepest node around a key, [upsweep] evaluates a quantity
    bottom-up, and the member functions of [Octree] agree with the tree they describe. *)

From S2P Require Import Prelude Primitives SfcCommon Csarray CsInvariant CsRebalance CsCounts CsBuild Octree OctreeNodes OctreeBuild.

(** The next octal digit of a key below [p] selects the child that contains it. *)
Lemma below_digit k l p lq q :
  nodeAt l p -> nodeAt lq q -> lq <= maxTreeLevel k -> l < lq -> below p q ->
  below (8 * p + octalDigit k (nodeStart k q) (l + 1)) q.
Proof.
  intros Hp Hq Hm Hl (j & Hj & Hr). pose proof Hp as (Hl0 & Hpr). pose proof Hq as (_ & Hqr).
  assert (Hnq : nodeAt (l + j) q) by (unfold nodeAt; rewrite Z.pow_add_r by lia; pose proof (pow8_pos j Hj); split; [lia|nia]).
  pose proof (nodeAt_level _ _ Hq). pose proof (nodeAt_level _ _ Hnq). assert (j = lq - l) as -> by lia.
  pose proof (pow8_succ (lq - l - 1) ltac:(lia)) as E8. replace (lq - l - 1 + 1) with (lq - l) in E8 by lia.
  pose proof (pow8_pos (lq - l - 1) ltac:(lia)) as H8. set (w := 8 ^ (lq - l - 1)) in *.
  set (c := q / w - 8 * p). assert (Hc : 0 <= c < 8).
  { unfold c. split; [|cut (q / w < 8 * p + 8); [lia|apply Z.div_lt_upper_bound; nia]].
    cut (8 * p <= q / w); [lia|]. apply Z.div_le_lower_bound; nia. }
  assert (Hb : below (8 * p + c) q).
  { exists (lq - l - 1). split; [lia|]. fold w. unfold c. replace (8 * p + (q / w - 8 * p)) with (q / w) by lia.
    pose proof (Z.mul_div_le q w H8). pose proof (Z.mul_succ_div_gt q w H8). lia. }
  assert (octalDigit k (nodeStart k q) (l + 1) = c) as ->; [|done].
  destruct (below_range k (l + 1) (8 * p + c) q (nodeAt_child _ _ _ Hp Hc) Hb ltac:(lia)) as (_ & _ & H1 & H2).
  apply (inChild_digit k l p Hp ltac:(lia)); [done|]. unfold inChild.
  rewrite (nodeStart_child k l p c Hp ltac:(lia) Hc) in H1, H2.
  replace (maxTreeLevel k - (l + 1)) with (maxTreeLevel k - l - 1) in H2 by lia.
  pose proof (pow8_pos (maxTreeLevel k - nodeLevel q) ltac:(lia)). lia.
Qed.

Lemma below_same_level l p q : nodeAt l p -> nodeAt l q -> below p q -> p = q.
Proof.
  intros Hp Hq (j & Hj & Hr). pose proof Hp as (Hl0 & Hpr). pose proof (pow8_pos j Hj).
  assert (Hnq : nodeAt (l + j) q) by (unfold nodeAt; rewrite Z.pow_add_r by lia; split; [lia|nia]).
  pose proof (nodeAt_level _ _ Hq). pose proof (nodeAt_level _ _ Hnq). assert (j = 0) as -> by lia. change (8 ^ 0) with 1 in Hr. lia.
Qed.

Lemma below_trans p q r : below p q -> below q r -> below p r.
Proof.
  intros (j & Hj & Hq) (i & Hi & Hr). exists (j + i). pose proof (pow8_pos i Hi). rewrite Z.pow_add_r by lia. split; [lia|nia].
Qed.

(** No node of the tree lies strictly below a leaf. *)
Lemma leaf_below_unique r t p q : 1 <= r -> q ∈ allKeys r t -> p ∈ leafKeys r t -> below p q -> p = q.
Proof.
  revert r. induction t as [|f IH]; intros r Hr Hq Hp Hb.
  { apply list_elem_of_singleton in Hp as ->. apply elem_of_app in Hq as [Hq|Hq]; [by apply not_elem_of_nil in Hq|].
    by apply list_elem_of_singleton in Hq. }
  apply leafKeys_elem in Hp as (c & Hc & Hp). pose proof (leafKeys_below _ _ _ Hp) as Hcp.
  apply allKeys_elem in Hq as [->|(c' & Hc' & Hq)].
  - pose proof (below_gt r c p Hr Hc Hcp). destruct Hb as (j & Hj & Hb). pose proof (pow8_pos j Hj). nia.
  - assert (c = c') as <-.
    { eapply below_disjoint; [exact Hr|done|done|by eapply below_trans|by eapply allKeys_below]. }
    apply (IH c (8 * r + c)); [lia|done..].
Qed.

Section Linked.
Context (k : KeyType) (t : otree) (o : OctreeArrays).
Hypothesis Hdepth : depthLe (maxTreeLevel k) t.
Hypothesis Ho : linked k t o.

Lemma prefixes_node i q : (prefixes o).[i] = Some q -> q ∈ allKeys 1 t /\ nodeAt (nodeLevel q) q /\ nodeLevel q <= maxTreeLevel k.
Proof using Hdepth Ho.
  intros Hq%aget_elem. rewrite (lk_nodes _ _ _ Ho) in Hq. split; [done|]. by apply (allKeys_node k t).
Qed.

Lemma child_zero i q : (prefixes o).[i] = Some q ->
  (q ∈ innerKeys 1 t /\ exists c, (childOffsets o).[i] = Some c /\ i < c /\
     forall d, 0 <= d < 8 -> (prefixes o).[c + d] = Some (8 * q + d) /\ (parents o).[(c + d - 1) / 8] = Some i) \/
  (q ∈ leafKeys 1 t /\ (childOffsets o).[i] = Some 0).
Proof using Hdepth Ho.
  intros Hq. destruct (prefixes_node i q Hq) as [[Hi|Hl]%elem_of_app _]; [left|right].
  - split; [done|]. by apply (lk_inner _ _ _ Ho).
  - split; [done|]. by eapply (lk_leaf _ _ _ Ho).
Qed.

Lemma prefixes_root : (prefixes o).[0] = Some 1.
Proof using Hdepth Ho.
  pose proof (allKeys_NoDup 1 t ltac:(lia)) as Hnd. rewrite <- (lk_nodes _ _ _ Ho) in Hnd.
  rewrite <- (elem_position (prefixes o) (lk_sorted _ _ _ Ho) 1 Hnd) by (rewrite (lk_nodes _ _ _ Ho); apply allKeys_root).
  f_equal. symmetry. apply count_lt_none, Forall_forall. intros q [i Hq]%elem_aget.
  destruct (prefixes_node i q Hq) as (_ & (Hl & Hr) & _). pose proof (pow8_pos (nodeLevel q) Hl). lia.
Qed.

(** *** Positions of the node keys *)

Definition pos (q : Z) : Z := count_lt q (prefixes o).

Lemma prefixes_NoDup : NoDup (prefixes o).
Proof using Ho. rewrite (lk_nodes _ _ _ Ho). apply allKeys_NoDup. lia. Qed.

Lemma node_pos q : q ∈ allKeys 1 t -> (prefixes o).[pos q] = Some q.
Proof using Ho. intros Hq. apply elem_position; [apply Ho|apply prefixes_NoDup|by rewrite (lk_nodes _ _ _ Ho)]. Qed.

Lemma pos_node i q : (prefixes o).[i] = Some q -> i = pos q.
Proof using Ho. intros Hi. apply position_elem; [apply Ho|apply prefixes_NoDup|done]. Qed.

Lemma pos_range q : q ∈ allKeys 1 t -> 0 <= pos q < zlen (prefixes o).
Proof using Ho. intros Hq. by eapply aget_Some_range, node_pos. Qed.

Lemma pos_inj q r : q ∈ allKeys 1 t -> r ∈ allKeys 1 t -> pos q = pos r -> q = r.
Proof using Ho. intros Hq Hr E. pose proof (node_pos q Hq) as E1. rewrite E, (node_pos r Hr) in E1. congruence. Qed.

Lemma pos_root : pos 1 = 0.
Proof using Hdepth Ho. symmetry. apply pos_node. apply prefixes_root. Qed.

Lemma index_node i : 0 <= i < zlen (prefixes o) -> exists q, (prefixes o).[i] = Some q /\ q ∈ allKeys 1 t /\ i = pos q.
Proof using Hdepth Ho.
  intros Hi. destruct (aget_is_Some (prefixes o) i Hi) as [q Hq]. exists q. split; [done|].
  split; [by apply (prefixes_node i)|by apply pos_node].
Qed.

Lemma pos_lt q r : q ∈ allKeys 1 t -> r ∈ allKeys 1 t -> pos q < pos r <-> q < r.
Proof using Ho.
  intros Hq Hr. pose proof (lk_sorted _ _ _ Ho) as Hs. split; intros H.
  - pose proof (Hs _ _ _ _ (Z.lt_le_incl _ _ H) (node_pos q Hq) (node_pos r Hr)). destruct (decide (q = r)) as [->|]; lia.
  - destruct (Z.lt_ge_cases (pos q) (pos r)) as [|Hge]; [done|]. pose proof (Hs _ _ _ _ Hge (node_pos r Hr) (node_pos q Hq)). lia.
Qed.

(** ** containingNode *)

Lemma containingNodeLoop_correct fuel q ret p l :
  nodeAt (nodeLevel q) q -> nodeLevel q <= maxTreeLevel k -> nodeAt l p -> nodeLevel q = l + Z.of_nat fuel ->
  (prefixes o).[ret] = Some p -> below p q ->
  exists i p', containingNodeLoop fuel k q (decodePlaceholderBit k q) (prefixes o) (childOffsets o) (l + 1) ret = Some i /\
    (prefixes o).[i] = Some p' /\ below p' q /\ (p' = q \/ p' ∈ leafKeys 1 t).
Proof using Hdepth Ho.
  revert ret p l. induction fuel as [|fuel IH]; intros ret p l Hq Hm Hp Hlev Hret Hb; cbn [containingNodeLoop].
  { exists ret, p. split; [done|]. split; [done|]. split; [done|]. left. apply (below_same_level l); [done| |done].
    by replace l with (nodeLevel q) by lia. }
  rewrite Hret. destruct (child_zero ret p Hret) as [(Hin & c & -> & Hc & Hch)|(Hlf & ->)].
  2: { exists ret, p. cbn. split; [done|]. split; [done|]. split; [done|by right]. }
  pose proof (aget_Some_range _ _ _ Hret). destruct (Z.eqb_spec c 0); [lia|]. cbn [orb].
  destruct (Z.eqb_spec q p) as [->|Hne]; [exists ret, p; by auto|].
  pose proof (octalDigit_range k (nodeStart k q) (l + 1)) as Hd. destruct (Hch _ Hd) as [Hpfx _].
  apply (IH _ (8 * p + octalDigit k (nodeStart k q) (l + 1)) (l + 1)); try done.
  - by apply nodeAt_child.
  - lia.
  - eapply below_digit; [done|exact Hq|done|lia|done].
Qed.

(** The node found is the deepest one of the tree that contains [q]. *)
Lemma containingNode_correct q :
  nodeAt (nodeLevel q) q -> nodeLevel q <= maxTreeLevel k ->
  exists i p, containingNode k q (prefixes o) (childOffsets o) = Some i /\ (prefixes o).[i] = Some p /\
    below p q /\ (p = q \/ p ∈ leafKeys 1 t).
Proof using Hdepth Ho.
  intros Hq Hm. unfold containingNode. rewrite (nodeAt_decode k (nodeLevel q)) by done.
  rewrite (Z.mul_comm 3), Z.div_mul by lia. pose proof Hq as (Hl & Hr). change 1 with (0 + 1) at 1.
  apply (containingNodeLoop_correct _ q 0 1 0); [done|done|apply nodeAt_root|lia|apply prefixes_root|].
  exists (nodeLevel q). lia.
Qed.

(** ** upsweep *)

Section Upsweep.
Context {T : Type} (combine : Z -> Z -> list T -> option T) (R : Z -> T -> Prop).

(** Node [q] holds a value that satisfies [R q]. *)
Definition holds (Q : list T) (j q : Z) : Prop := exists v, Q.[j] = Some v /\ R q v.

(** [combine] gives every node a value that satisfies [R] if its children have one. *)
Hypothesis Hcombine : forall i q c Q, q ∈ innerKeys 1 t ->
  (forall d, 0 <= d < 8 -> holds Q (c + d) (8 * q + d)) -> exists v, combine i c Q = Some v /\ R q v.

(** Leaves and the nodes from [first] on, or in [lo, hi), hold their value. *)
Definition swept (lo hi first : Z) (Q : list T) : Prop :=
  zlen Q = zlen (prefixes o) /\
  forall j q, (prefixes o).[j] = Some q -> q ∈ leafKeys 1 t \/ first <= j \/ lo <= j < hi -> holds Q j q.

Lemma children_later i q c : (prefixes o).[i] = Some q -> q ∈ innerKeys 1 t ->
  (forall d, 0 <= d < 8 -> (prefixes o).[c + d] = Some (8 * q + d)) ->
  forall l, i < count_lt (8 ^ (l + 1)) (prefixes o) -> count_lt (8 ^ l) (prefixes o) <= i -> 0 <= l ->
  forall d, 0 <= d < 8 -> count_lt (8 ^ (l + 1)) (prefixes o) <= c + d.
Proof using Hdepth Ho.
  intros Hq Hin Hc l Hlt Hle Hl d Hd. eapply count_lt_le; [apply Ho|by apply Hc|].
  assert (8 ^ l <= q); [|rewrite pow8_succ by lia; lia].
  destruct (Z.le_gt_cases (8 ^ l) q) as [|Hgt]; [done|]. pose proof (count_lt_gt _ (lk_sorted _ _ _ Ho) i q (8 ^ l) Hq Hgt). lia.
Qed.

Lemma upsweepLevel_swept l Q :
  0 <= l <= maxTreeLevel k -> swept 0 0 (count_lt (8 ^ (l + 1)) (prefixes o)) Q ->
  exists Q', upsweepLevel (count_lt (8 ^ l) (prefixes o)) (count_lt (8 ^ (l + 1)) (prefixes o)) (childOffsets o) combine Q = Some Q' /\
    swept 0 0 (count_lt (8 ^ l) (prefixes o)) Q'.
Proof using Hdepth Ho Hcombine.
  intros Hl HQ. set (a := count_lt (8 ^ l) (prefixes o)). set (b := count_lt (8 ^ (l + 1)) (prefixes o)) in *.
  assert (Hab : 0 <= a <= b) by (split; [apply count_lt_range|apply count_lt_mono; apply pow8_mono; lia]).
  assert (Hbn : b <= zlen (prefixes o)) by apply count_lt_range.
  unfold upsweepLevel.
  match goal with |- exists _, for_loop _ _ ?body _ = _ /\ _ => destruct (for_loop_inv (fun i Q => swept a i b Q) a b body Q) as (Q' & E & Hz & HQ') end.
  - lia.
  - destruct HQ as [Hz HQ]. split; [done|]. intros j q Hj Hor. apply HQ; [done|]. destruct Hor as [|[|]]; auto; lia.
  - intros i Q1 Hi [Hz HQ1]. destruct (aget_is_Some (prefixes o) i ltac:(lia)) as [q Hq].
    destruct (child_zero i q Hq) as [(Hin & c & -> & Hc & Hch)|(Hlf & ->)].
    + destruct (Z.eqb_spec c 0); [lia|].
      assert (Hlater : forall d, 0 <= d < 8 -> b <= c + d).
      { intros d Hd. apply (children_later i q c); [done|done|by intros; apply Hch|unfold b in Hi; lia|unfold a in Hi; lia|lia|done]. }
      destruct (Hcombine i q c Q1 Hin) as (v & -> & Hv); [intros d Hd; apply HQ1; [by apply Hch|right; left; by apply Hlater]|].
      pose proof (aset_Some Q1 i v ltac:(lia)) as F. rewrite F. eexists. split; [done|].
      split; [by rewrite (aset_zlen _ _ _ _ F)|]. intros j q' Hj Hor. destruct (decide (i = j)) as [<-|Hne].
      * exists v. split; [by rewrite (aget_aset_eq _ _ _ _ F)|congruence].
      * unfold holds. rewrite (aget_aset_ne _ _ _ _ _ F Hne). apply HQ1; [done|]. destruct Hor as [|[|]]; auto. right; right; lia.
    + cbn. eexists. split; [done|]. split; [done|]. intros j q' Hj Hor. apply HQ1; [done|].
      destruct (decide (i = j)) as [<-|]; [left; congruence|]. destruct Hor as [|[|]]; auto. right; right; lia.
  - exists Q'. split; [done|]. split; [done|]. intros j q Hj Hor. apply HQ'; [done|].
    destruct Hor as [|[|]]; [by left| |lia]. destruct (Z.lt_ge_cases j b); [right; right; lia|right; by left].
Qed.

Lemma upsweepLoop_swept (n : nat) Q :
  Z.of_nat n <= maxTreeLevel k + 1 -> swept 0 0 (count_lt (8 ^ Z.of_nat n) (prefixes o)) Q ->
  exists Q', upsweepLoop n (levelRange o) (childOffsets o) combine Q = Some Q' /\ swept 0 0 0 Q'.
Proof using Hdepth Ho Hcombine.
  revert Q. induction n as [|n IH]; intros Q Hn HQ; cbn [upsweepLoop].
  - exists Q. split; [done|]. destruct HQ as [Hz HQ]. split; [done|]. intros j q Hj _. apply HQ; [done|]. right; left.
    change (8 ^ Z.of_nat 0) with 1. pose proof (aget_Some_range _ _ _ Hj). rewrite count_lt_none; [lia|].
    apply Forall_forall. intros q' [i Hq']%elem_aget. destruct (prefixes_node _ _ Hq') as (_ & (Hl & Hr) & _).
    pose proof (pow8_pos _ Hl). lia.
  - rewrite !(lk_levels _ _ _ Ho) by lia. replace (Z.of_nat (S n)) with (Z.of_nat n + 1) in HQ by lia.
    destruct (upsweepLevel_swept (Z.of_nat n) Q ltac:(lia) HQ) as (Q1 & -> & HQ1). apply IH; [lia|done].
Qed.

(** After the sweep every node holds its quantity. *)
Lemma upsweep_holds Q :
  zlen Q = zlen (prefixes o) -> (forall j q, (prefixes o).[j] = Some q -> q ∈ leafKeys 1 t -> holds Q j q) ->
  exists Q', upsweep (levelRange o) (childOffsets o) combine Q = Some Q' /\ zlen Q' = zlen (prefixes o) /\
    forall j q, (prefixes o).[j] = Some q -> holds Q' j q.
Proof using Hdepth Ho Hcombine.
  intros Hz HQ. kfacts k. unfold upsweep. rewrite (lk_rangeLen _ _ _ Ho).
  destruct (upsweepLoop_swept (Z.to_nat (maxTreeLevel k + 2 - 1)) Q) as (Q' & E & Hz' & HQ'); [lia| |].
  - split; [done|]. intros j q Hj [?|[Hle|]]; [by apply HQ| |lia]. exfalso.
    rewrite Z2Nat.id in Hle by lia. destruct (prefixes_node j q Hj) as (_ & (Hl0 & Hr) & Hl).
    pose proof (count_lt_gt _ (lk_sorted _ _ _ Ho) j q (8 ^ (maxTreeLevel k + 2 - 1)) Hj) as Hgt.
    replace (maxTreeLevel k + 2 - 1) with (maxTreeLevel k + 1) in * by lia. pose proof (pow8_mono (nodeLevel q) (maxTreeLevel k) ltac:(lia)).
    rewrite pow8_succ in Hgt by lia. rewrite pow8_succ in Hle by lia. lia.
  - exists Q'. split; [done|]. split; [done|]. intros j q Hj. apply HQ'; [done|]. right; left. apply aget_Some_range in Hj. lia.
Qed.

End Upsweep.

(** A quantity that is a function of the node. *)
Lemma upsweep_correct {T} (combine : Z -> Z -> list T -> option T) (val : Z -> T) Q :
  (forall i q c Q, q ∈ innerKeys 1 t -> (forall d, 0 <= d < 8 -> Q.[c + d] = Some (val (8 * q + d))) -> combine i c Q = Some (val q)) ->
  zlen Q = zlen (prefixes o) -> (forall j q, (prefixes o).[j] = Some q -> q ∈ leafKeys 1 t -> Q.[j] = Some (val q)) ->
  exists Q', upsweep (levelRange o) (childOffsets o) combine Q = Some Q' /\ zlen Q' = zlen (prefixes o) /\
    forall j q, (prefixes o).[j] = Some q -> Q'.[j] = Some (val q).
Proof using Hdepth Ho.
  intros Hc Hz HQ. destruct (upsweep_holds combine (fun q v => v = val q)) with (Q := Q) as (Q' & E & Hz' & HQ').
  - intros i q c Q1 Hq H. exists (val q). split; [|done]. apply Hc; [done|]. intros d Hd. by destruct (H d Hd) as (v & -> & ->).
  - done.
  - intros j q Hj Hq. exists (val q). split; [by apply HQ|done].
  - exists Q'. split; [done|]. split; [done|]. intros j q Hj. by destruct (HQ' j q Hj) as (v & -> & ->).
Qed.

End Linked.

(** ** Sums over the leaves of a node *)

Definition inRange (k : KeyType) (q x : Z) : bool :=
  (nodeStart k q <=? x) && (x <? nodeStart k q + 8 ^ (maxTreeLevel k - nodeLevel q)).

(** Sum of the quantities of the leaves inside node [q]. *)
Definition nodeSum (k : KeyType) (leaves counts : list Z) (q : Z) : Z :=
  zsum ((fun '(x, c) => if inRange k q x then c else 0) <$> zip leaves counts).

Lemma interval_sum s D x c (n : nat) :
  0 < D ->
  zsum ((fun d => if (s + d * D <=? x) && (x <? s + d * D + D) then c else 0) <$> seqZ 0 (Z.of_nat n)) =
  if (s <=? x) && (x <? s + Z.of_nat n * D) then c else 0.
Proof.
  intros HD. induction n as [|n IH].
  { simpl. change (Z.of_nat 0) with 0. destruct (Z.leb_spec s x), (Z.ltb_spec x (s + 0 * D)); simpl; lia. }
  rewrite Nat2Z.inj_succ, <- Z.add_1_r, seqZ_app, fmap_app, zsum_app, IH by lia. simpl. rewrite !Z.add_0_l, Z.add_0_r.
  repeat match goal with |- context [?a <=? ?b] => destruct (Z.leb_spec a b) | |- context [?a <? ?b] => destruct (Z.ltb_spec a b) end; simpl; nia.
Qed.

Lemma zsum_fmap_swap {A B} (f : A -> B -> Z) (la : list A) (lb : list B) :
  zsum ((fun a => zsum (f a <$> lb)) <$> la) = zsum ((fun b => zsum ((fun a => f a b) <$> la)) <$> lb).
Proof.
  assert (Hadd : forall g h : B -> Z, zsum ((fun b => g b + h b) <$> lb) = zsum (g <$> lb) + zsum (h <$> lb)).
  { intros g h. induction lb as [|b lb IH]; [done|]. rewrite !fmap_cons, !zsum_cons, IH. lia. }
  induction la as [|a la IH].
  - simpl. clear. induction lb as [|b lb IH]; [done|]. rewrite fmap_cons, zsum_cons. lia.
  - rewrite fmap_cons, zsum_cons, IH, <- Hadd. done.
Qed.

Lemma nodeSum_children k leaves counts q l :
  nodeAt l q -> l < maxTreeLevel k ->
  zsum ((fun d => nodeSum k leaves counts (8 * q + d)) <$> seqZ 0 8) = nodeSum k leaves counts q.
Proof.
  intros Hq Hl. unfold nodeSum. rewrite zsum_fmap_swap. f_equal. apply list_fmap_ext. intros _ [x c] _.
  pose proof Hq as (Hl0 & _). pose proof (pow8_pos (maxTreeLevel k - l - 1) ltac:(lia)) as HD.
  change 8 with (Z.of_nat 8) at 2. set (D := 8 ^ (maxTreeLevel k - l - 1)) in *.
  transitivity (zsum ((fun d => if (nodeStart k q + d * D <=? x) && (x <? nodeStart k q + d * D + D) then c else 0) <$> seqZ 0 (Z.of_nat 8))).
  - f_equal. apply list_fmap_ext. intros i d Hd%lookup_seqZ. unfold inRange.
    rewrite (nodeStart_child k l q d) by (done || lia). rewrite (nodeAt_level (l + 1)) by (apply nodeAt_child; done || lia).
    unfold D. by replace (maxTreeLevel k - (l + 1)) with (maxTreeLevel k - l - 1) by lia.
  - rewrite interval_sum by done. unfold inRange. rewrite (nodeAt_level l q Hq). change (Z.of_nat 8) with 8.
    replace (8 ^ (maxTreeLevel k - l)) with (8 * D); [done|]. unfold D. rewrite <- pow8_succ by lia. f_equal. lia.
Qed.

Lemma nodeSum_nonneg k leaves counts q : Forall (fun c => 0 <= c) counts -> 0 <= nodeSum k leaves counts q.
Proof.
  intros Hc. unfold nodeSum. revert leaves. induction Hc as [|c counts Hc _ IH]; intros [|x leaves]; try (simpl; lia).
  change (zip (x :: leaves) (c :: counts)) with ((x, c) :: zip leaves counts). rewrite fmap_cons, zsum_cons.
  specialize (IH leaves). destruct (inRange k q x); lia.
Qed.

Lemma zsum_single (l : list Z) j v :
  l.[j] = Some v -> (forall i w, i <> j -> l.[i] = Some w -> w = 0) -> zsum l = v.
Proof.
  assert (Hz : forall l : list Z, (forall i w, l.[i] = Some w -> w = 0) -> zsum l = 0).
  { clear. induction l as [|x l IH]; intros H; [done|]. rewrite zsum_cons, (H 0 x (aget_cons_0 _ _)), IH; [lia|].
    intros i w Hi. apply (H (i + 1)). pose proof (aget_Some_range _ _ _ Hi). rewrite aget_cons_S by lia. by rewrite Z.add_simpl_r. }
  intros (l1 & l2 & -> & Hl)%aget_split Hne. rewrite zsum_app, zsum_cons, (Hz l1), (Hz l2); [lia| |].
  - intros i w Hi. pose proof (aget_Some_range _ _ _ Hi). apply (Hne (zlen l1 + 1 + i)); [lia|].
    rewrite aget_app_r by lia. rewrite aget_cons_S by lia. rewrite <- Hi. f_equal. lia.
  - intros i w Hi. pose proof (aget_Some_range _ _ _ Hi). apply (Hne i); [lia|]. by rewrite aget_app_l by lia.
Qed.

Lemma aget_zip {A B} (l1 : list A) (l2 : list B) i a b : (zip l1 l2).[i] = Some (a, b) <-> l1.[i] = Some a /\ l2.[i] = Some b.
Proof.
  unfold aget. destruct (Z.ltb_spec i 0) as [_|_]; [by split; [|intros [? _]]|]. rewrite lookup_zip_with_Some. split.
  - by intros (a' & b' & [= <- <-] & ? & ?).
  - intros [? ?]. by exists a, b.
Qed.

(** A leaf contains only itself. *)
Lemma nodeSum_leaf k t counts j q c :
  depthLe (maxTreeLevel k) t -> csTree k (leafArray k t) ->
  (leafKeys 1 t).[j] = Some q -> counts.[j] = Some c -> zlen counts <= zlen (leafKeys 1 t) ->
  nodeSum k (leafArray k t) counts q = c.
Proof.
  intros Hd Hcs Hq Hc Hlen. destruct (leafArray_leaf k t Hd j q Hq) as (Ek & En & _). unfold nodeSum.
  pose proof (aget_Some_range _ _ _ Hq). assert (Hn : nNodes (leafArray k t) = zlen (leafKeys 1 t)).
  { unfold nNodes, leafArray. rewrite zlen_app, zlen_leafStarts. change (zlen [keyMax k]) with 1. lia. }
  eapply zsum_single.
  - rewrite aget_map. rewrite (proj2 (aget_zip _ _ j _ _) (conj Ek Hc)). simpl. unfold inRange.
    destruct (Z.leb_spec (nodeStart k q) (nodeStart k q)); [|lia].
    destruct (Z.ltb_spec (nodeStart k q) (nodeStart k q + 8 ^ (maxTreeLevel k - nodeLevel q))) as [|Hge]; [done|].
    destruct (leafArray_leaf k t Hd j q Hq) as (_ & _ & (? & _) & ?). pose proof (pow8_pos (maxTreeLevel k - nodeLevel q) ltac:(lia)). lia.
  - intros i w Hne Hw. rewrite aget_map in Hw. destruct ((zip (leafArray k t) counts).[i]) as [[x c']|] eqn:E; [|done].
    simpl in Hw. injection Hw as <-. apply aget_zip in E as [Ex Ec']. pose proof (aget_Some_range _ _ _ Ec').
    unfold inRange. apply nthz_Some in Ek, En, Ex. rewrite <- En, <- Ek, <- Ex. destruct (Z.lt_ge_cases i j).
    + pose proof (nodes_mono k _ _ (cs_nodes k _ Hcs) i j ltac:(lia) ltac:(lia) ltac:(lia)). destruct (Z.leb_spec (nthz (leafArray k t) j) (nthz (leafArray k t) i)); [lia|done].
    + pose proof (nodes_mono_le k _ _ (cs_nodes k _ Hcs) (j + 1) i ltac:(lia) ltac:(lia) ltac:(lia)).
      destruct (Z.ltb_spec (nthz (leafArray k t) i) (nthz (leafArray k t) (j + 1))); [lia|by rewrite andb_false_r].
Qed.

Lemma min_zsum M l : 0 <= M -> Forall (fun c => 0 <= c) l -> Z.min M (zsum (Z.min M <$> l)) = Z.min M (zsum l).
Proof.
  intros HM H. assert (0 <= zsum l /\ 0 <= zsum (Z.min M <$> l) /\ Z.min M (zsum (Z.min M <$> l)) = Z.min M (zsum l)); [|tauto].
  induction H as [|c l Hc _ IH]; [simpl; lia|]. rewrite fmap_cons, !zsum_cons. revert IH. generalize (zsum (Z.min M <$> l)), (zsum l). intros a b. lia.
Qed.

(** ** Node counts *)

Lemma sum8 (Q : list Z) c (v : Z -> Z) :
  (forall d, 0 <= d < 8 -> Q.[c + d] = Some (v d)) ->
  mapM_range c (c + 8) (fun i => Q.[i]) = Some (v <$> seqZ 0 8).
Proof.
  intros H. rewrite (mapM_range_Some _ _ _ (fun i => v (i - c))).
  - f_equal. apply list_eq_aget; rewrite !zlen_map, !zlen_seqZ; try lia. intros i Hi.
    rewrite !aget_map, !aget_seqZ by lia. simpl. do 2 f_equal. lia.
  - intros i Hi. replace i with (c + (i - c)) at 1 by lia. apply H. lia.
Qed.

(** [NodeCount] gives every node the number of particles below it, saturated at 32 bits. *)
Lemma NodeCount_combine k t leaves counts i q c Q :
  depthLe (maxTreeLevel k) t -> Forall (fun c => 0 <= c) counts -> q ∈ innerKeys 1 t ->
  (forall d, 0 <= d < 8 -> Q.[c + d] = Some (Z.min 0xFFFFFFFF (nodeSum k leaves counts (8 * q + d)))) ->
  NodeCount i c Q = Some (Z.min 0xFFFFFFFF (nodeSum k leaves counts q)).
Proof.
  intros Hd Hc Hq HQ. unfold NodeCount. rewrite (sum8 Q c _ HQ). f_equal.
  destruct (elem_aget _ _ Hq) as [j Hj]. destruct (inner_node k t Hd j q Hj) as [Hn Hl].
  rewrite <- (nodeSum_children k leaves counts q (nodeLevel q) Hn ltac:(lia)).
  set (g := fun d => nodeSum k leaves counts (8 * q + d)).
  change (fun x : Z => Z.min 4294967295 (nodeSum k leaves counts (8 * q + x))) with (fun d => Z.min 0xFFFFFFFF (g d)).
  rewrite (list_fmap_compose g (Z.min 0xFFFFFFFF)).
  assert (Hg : Forall (fun c => 0 <= c) (g <$> seqZ 0 8)).
  { apply Forall_fmap, Forall_forall. intros d _. by apply nodeSum_nonneg. }
  pose proof (zsum_bounds (Z.min 0xFFFFFFFF <$> (g <$> seqZ 0 8)) 0xFFFFFFFF) as Hb.
  rewrite !zlen_map, zlen_seqZ in Hb by lia. destruct Hb as [Hb0 Hb1].
  { apply Forall_fmap. eapply Forall_impl; [exact Hg|]. simpl. lia. }
  rewrite <- (min_zsum 0xFFFFFFFF (g <$> seqZ 0 8)) by (done || lia). revert Hb0 Hb1. generalize (zsum (Z.min 4294967295 <$> (g <$> seqZ 0 8))).
  intros s Hs0 Hs1. by rewrite u64_small, stl_min_min, u32_small by lia.
Qed.

(** ** The [Octree] class *)

Import OctreeClass.

(** The object holds the linked octree [t] over its own leaf array. *)
Record octreeOf (k : KeyType) (t : otree) (o : OctreeClass.t) : Prop := {
  oo_depth : depthLe (maxTreeLevel k) t;
  oo_tree : cstoneTree_ o = leafArray k t;
  oo_numLeaf : numLeafNodes_ o = zlen (leafKeys 1 t);
  oo_numInner : numInternalNodes_ o = zlen (innerKeys 1 t);
  oo_linked : linked k t (arrays_ o);
  oo_sized : sized k t (arrays_ o)
}.

Lemma nNodes_leafArray k t : nNodes (leafArray k t) = zlen (leafKeys 1 t).
Proof. unfold nNodes, leafArray. rewrite zlen_app, zlen_leafStarts. change (zlen [keyMax k]) with 1. lia. Qed.

Lemma inner_count t : Z.quot (zlen (leafKeys 1 t) - 1) 7 = zlen (innerKeys 1 t).
Proof. rewrite leaf_inner_count. replace (7 * zlen (innerKeys 1 t) + 1 - 1) with (zlen (innerKeys 1 t) * 7) by lia. apply Z.quot_mul. lia. Qed.

Lemma updateInternalTree_octreeOf k o :
  csTree k (cstoneTree_ o) ->
  exists t o', updateInternalTree k o = Some o' /\ octreeOf k t o' /\ cstoneTree_ o' = cstoneTree_ o.
Proof.
  intros Hcs. destruct (csTree_octree _ _ Hcs) as (t & Hd & Et). change (cstoneTree_ o = leafArray k t) in Et.
  kfacts k. pose proof (zlen_nonneg (innerKeys 1 t)). pose proof (zlen_nonneg (leafKeys 1 t)).
  unfold updateInternalTree, resize. cbn [cstoneTree_ numLeafNodes_ numInternalNodes_ arrays_].
  rewrite Et, nNodes_leafArray, inner_count. set (n := zlen (leafKeys 1 t) + zlen (innerKeys 1 t)).
  match goal with |- context [buildOctreeCpu _ _ _ _ ?a] => destruct (buildOctreeCpu_linked k t Hd a) as (a' & -> & Hl & Hs) end.
  - pose proof (leaf_inner_count 1 t). unfold sized. cbn. rewrite !zlen_aresize by (try apply Z.quot_pos; lia). unfold n. repeat split; try lia.
    rewrite leaf_inner_count. replace (7 * zlen (innerKeys 1 t) + 1 + zlen (innerKeys 1 t) - 1) with (zlen (innerKeys 1 t) * 8) by lia.
    rewrite Z.quot_mul; lia.
  - exists t. eexists. split; [done|]. split; [|done]. by split.
Qed.

(** The same for the arrays of [OctreeData], whose leaf array is kept by the caller. *)
Record octreeDataOf (k : KeyType) (t : otree) (o : OctreeData) : Prop := {
  od_depth : depthLe (maxTreeLevel k) t;
  od_numLeaf : numLeafNodes o = zlen (leafKeys 1 t);
  od_numInner : numInternalNodes o = zlen (innerKeys 1 t);
  od_linked : linked k t (arrays o);
  od_sized : sized k t (arrays o);
  od_numNodes : numNodes o = zlen (prefixes (arrays o))
}.

Lemma updateInternalTree_octreeDataOf k tree o :
  csTree k tree ->
  exists t o', Octree.updateInternalTree k tree (OctreeData_resize k o (nNodes tree)) = Some o' /\
    octreeDataOf k t o' /\ tree = leafArray k t /\ numNodes o' = zlen (prefixes (arrays o')).
Proof.
  intros Hcs. destruct (csTree_octree _ _ Hcs) as (t & Hd & Et). change (tree = leafArray k t) in Et.
  kfacts k. pose proof (zlen_nonneg (innerKeys 1 t)). pose proof (zlen_nonneg (leafKeys 1 t)). pose proof (leaf_inner_count 1 t) as Hcount.
  unfold Octree.updateInternalTree, OctreeData_resize. cbn [numNodes numLeafNodes numInternalNodes arrays].
  assert (Hn : nNodes tree = zlen (leafKeys 1 t)) by (rewrite Et; apply nNodes_leafArray). rewrite Hn, inner_count.
  assert (Hq : Z.quot (zlen (leafKeys 1 t) + zlen (innerKeys 1 t) - 1) 8 = zlen (innerKeys 1 t)).
  { rewrite Hcount. replace (7 * zlen (innerKeys 1 t) + 1 + zlen (innerKeys 1 t) - 1) with (zlen (innerKeys 1 t) * 8) by lia. by rewrite Z.quot_mul by lia. }
  rewrite Hq. match goal with |- context [buildOctreeCpu _ _ _ _ ?a] => destruct (buildOctreeCpu_linked k t Hd a) as (a' & E & Hl & Hs) end.
  - unfold sized. cbn. rewrite stl_max_max, !zlen_aresize by lia. repeat split; lia.
  - rewrite Et, E. exists t. eexists. split; [done|]. assert (Hz : numNodes (mkOctreeData (zlen (leafKeys 1 t) + zlen (innerKeys 1 t)) (zlen (leafKeys 1 t)) (zlen (innerKeys 1 t)) a') = zlen (prefixes a')) by (cbn; destruct Hs as (Hz & _); lia).
    split; [by split|]. done.
Qed.

Lemma omp_copy_all (l out : list Z) : zlen out = zlen l -> omp_copy l out = Some l.
Proof.
  intros Hz. pose proof (zlen_nonneg l).
  assert (Hcopy := write_loop_block (nthz l) (fun i => l.[i]) 0 0 (zlen l) [] out []).
  rewrite !app_nil_r, !app_nil_l in Hcopy. etransitivity; [apply Hcopy|]; [done|done|intros; apply nthz_get; lia|].
  f_equal. apply list_eq_aget; rewrite zlen_map, zlen_seqZ by lia; [done|]. intros i Hi. rewrite aget_map, aget_seqZ by lia.
  simpl. symmetry. by apply nthz_get.
Qed.

Lemma update_octreeOf k tree o :
  csTree k tree ->
  exists t o', update k tree (nNodes tree) o = Some o' /\ octreeOf k t o' /\ cstoneTree_ o' = tree.
Proof.
  intros Hcs. unfold update. pose proof (treelet_nonempty _ _ _ _ Hcs).
  assert (Hn : nNodes tree + 1 = zlen tree) by (unfold nNodes; lia). rewrite Hn.
  destruct (take_drop_all tree (zlen tree) eq_refl) as [-> _]. rewrite omp_copy_all by (rewrite zlen_aresize; lia).
  destruct (updateInternalTree_octreeOf k (mk (numLeafNodes_ o) (numInternalNodes_ o) (arrays_ o) tree) Hcs) as (t & o' & E & Ho & Et).
  by exists t, o'.
Qed.

Lemma rebalance_octreeOf k t o counts bucketSize :
  octreeOf k t o -> rebalanceInput k (cstoneTree_ o) counts bucketSize ->
  exists t' o', rebalance k bucketSize counts o =
      Some (forallb (Z.eqb 1) (nodeOpsOf k (cstoneTree_ o) counts bucketSize), o') /\
    octreeOf k t' o' /\ cstoneTree_ o' = nextTree k (cstoneTree_ o) counts bucketSize.
Proof.
  intros Ho Hin. pose proof (oo_sized _ _ _ Ho) as (_ & _ & _ & Hc & _). unfold rebalance.
  pose proof (zlen_nonneg (innerKeys 1 t)). pose proof (zlen_nonneg (leafKeys 1 t)).
  assert (Hn : numLeafNodes_ o = nNodes (cstoneTree_ o)) by (rewrite (oo_tree _ _ _ Ho), nNodes_leafArray; apply Ho).
  rewrite Hn. rewrite rebalanceDecision_run.
  2: { intros i Hi. destruct (nodeOp_cases k _ _ _ Hin i Hi) as [-> _]. by eexists. }
  2: { rewrite <- Hn, (oo_numLeaf _ _ _ Ho). lia. }
  destruct (drop (Z.to_nat (nNodes (cstoneTree_ o))) (childOffsets (arrays_ o))) as [|x rest] eqn:Edrop.
  { exfalso. apply (f_equal (@length Z)) in Edrop. rewrite length_drop in Edrop. rewrite <- Hn, (oo_numLeaf _ _ _ Ho) in Edrop.
    unfold zlen in *. simpl in Edrop. lia. }
  rewrite (rebalanceTree_spec k _ 0 (keyMax k)); [|apply Hin|by apply ops_fit].
  match goal with |- context [updateInternalTree k ?o1] => destruct (updateInternalTree_octreeOf k o1) as (t' & o' & -> & Ho' & Et) end.
  { cbn. by apply nextTree_csTree. }
  exists t', o'. split; [done|]. split; [done|]. by rewrite Et.
Qed.

(** What the member functions say about the leaf array [tree]. *)
Record navigable (k : KeyType) (tree : list Z) (o : OctreeClass.t) : Prop := {
  nav_total : numTreeNodes o = Some (nNodes tree + Z.quot (nNodes tree - 1) 7);
  nav_root : level k o 0 = Some 0 /\ codeStart k o 0 = Some 0 /\ codeEnd k o 0 = Some (keyMax k) /\ parent o 0 = Some 0;
  nav_leaf : forall j, 0 <= j < nNodes tree -> exists i, toInternal o j = Some i /\ cstoneIndex o i = Some j /\
    isLeaf o i = Some true /\ codeStart k o i = Some (nthz tree j) /\ codeEnd k o i = Some (nthz tree (j + 1));
  nav_child : forall i d, 0 <= i < nNodes tree + Z.quot (nNodes tree - 1) 7 -> isLeaf o i = Some false -> 0 <= d < 8 ->
    exists c l s, child o i d = Some c /\ i < c /\ parent o c = Some i /\ level k o i = Some l /\ level k o c = Some (l + 1) /\
      codeStart k o i = Some s /\ codeStart k o c = Some (s + d * 8 ^ (maxTreeLevel k - l - 1)) /\
      codeEnd k o c = Some (s + (d + 1) * 8 ^ (maxTreeLevel k - l - 1))
}.

Section Navigation.
Context (k : KeyType) (t : otree) (o : OctreeClass.t).
Hypothesis Ho : octreeOf k t o.

Lemma node_access i q :
  (prefixes (arrays_ o)).[i] = Some q ->
  level k o i = Some (nodeLevel q) /\ codeStart k o i = Some (nodeStart k q) /\
  codeEnd k o i = Some (nodeStart k q + 8 ^ (maxTreeLevel k - nodeLevel q)).
Proof using Ho.
  intros Hq. destruct (prefixes_node k t _ (oo_depth _ _ _ Ho) (oo_linked _ _ _ Ho) i q Hq) as (Hin & Hn & Hl).
  pose proof Hn as (Hl0 & _). unfold level, codeStart, codeEnd. rewrite Hq, (nodeAt_decode k (nodeLevel q)) by done.
  split; [by rewrite (Z.mul_comm 3), Z.div_mul by lia|]. split; [done|]. f_equal. kfacts k.
  rewrite Z.shiftl_1_l. replace (3 * maxTreeLevel k - 3 * nodeLevel q) with (3 * (maxTreeLevel k - nodeLevel q)) by lia.
  rewrite <- pow8_pow2 by lia. pose proof (pow8_le_keyMax k (maxTreeLevel k - nodeLevel q) ltac:(lia)).
  assert (keyMax k <= 2 ^ 63) by by destruct k. rewrite u64_small by lia.
  destruct (below_range k 0 1 q nodeAt_root (allKeys_below _ _ _ Hin) Hl) as (_ & _ & Hs1 & Hs2).
  rewrite nodeStart_root in Hs1, Hs2. rewrite Z.sub_0_r in Hs2. change (0 + 8 ^ maxTreeLevel k) with (keyMax k) in Hs2.
  apply kwrap_small. unfold nodeStart in *. lia.
Qed.

Lemma numTreeNodes_total : numTreeNodes o = Some (zlen (leafKeys 1 t) + zlen (innerKeys 1 t)).
Proof using Ho.
  pose proof (oo_linked _ _ _ Ho) as Hl. kfacts k. unfold numTreeNodes. rewrite (lk_rangeLen _ _ _ Hl).
  replace (maxTreeLevel k + 2 - 1) with (maxTreeLevel k + 1) by lia. rewrite (lk_levels _ _ _ Hl) by lia. f_equal.
  destruct (oo_sized _ _ _ Ho) as (Hz & _). rewrite count_lt_all; [lia|]. apply Forall_forall. intros q Hq.
  rewrite (lk_nodes _ _ _ Hl) in Hq. destruct (allKeys_node k t (oo_depth _ _ _ Ho) q Hq) as [(Hl0 & Hr) Hlm].
  pose proof (pow8_mono (nodeLevel q) (maxTreeLevel k) ltac:(lia)). rewrite pow8_succ by lia. lia.
Qed.

Lemma octreeOf_navigable : navigable k (leafArray k t) o.
Proof using Ho.
  pose proof (oo_linked _ _ _ Ho) as Hl. pose proof (oo_depth _ _ _ Ho) as Hd. split.
  - rewrite nNodes_leafArray, inner_count. apply numTreeNodes_total.
  - destruct (node_access 0 1) as (-> & -> & ->); [by apply (prefixes_root k t)|]. by destruct k.
  - intros j Hj. rewrite nNodes_leafArray in Hj. destruct (aget_is_Some _ j Hj) as [q Hq].
    destruct (lk_leafIndex _ _ _ Hl j q Hq) as (i & Hi & Hp & Hli). exists i. unfold toInternal, cstoneIndex, isLeaf.
    rewrite (oo_numInner _ _ _ Ho), Z.add_comm, Hi, Hli, (lk_leaf _ _ _ Hl i q Hp (aget_elem _ _ _ Hq)).
    destruct (node_access i q Hp) as (_ & -> & ->). destruct (leafArray_leaf k t Hd j q Hq) as (Ea & Eb & _).
    by rewrite (nthz_Some _ _ _ Ea), (nthz_Some _ _ _ Eb).
  - intros i d Hi Hleaf Hdr. rewrite nNodes_leafArray, inner_count in Hi.
    destruct (oo_sized _ _ _ Ho) as (Hz & _). destruct (aget_is_Some (prefixes (arrays_ o)) i ltac:(lia)) as [q Hq].
    unfold isLeaf in Hleaf. destruct (child_zero k t _ Hd Hl i q Hq) as [(Hin & c & Hc & Hlt & Hch)|(_ & E)]; [|by rewrite E in Hleaf].
    destruct (Hch d Hdr) as [Hpc Hpar]. destruct (elem_aget _ _ Hin) as [j Hj]. destruct (inner_node k t Hd j q Hj) as [Hn Hlev].
    exists (c + d), (nodeLevel q), (nodeStart k q). unfold child, parent. rewrite Hc.
    destruct (node_access i q Hq) as (-> & -> & _). destruct (node_access (c + d) (8 * q + d) Hpc) as (-> & -> & ->).
    rewrite (nodeAt_level (nodeLevel q + 1) (8 * q + d)) by (by apply nodeAt_child). rewrite (nodeStart_child k (nodeLevel q)) by (done || lia).
    destruct (Z.eqb_spec (c + d) 0); [lia|]. rewrite Z.quot_div_nonneg, Hpar by lia.
    replace (maxTreeLevel k - (nodeLevel q + 1)) with (maxTreeLevel k - nodeLevel q - 1) by lia.
    repeat split; [lia|]. f_equal. lia.
Qed.

End Navigation.
