(* ===== verification/OctreeProperties.v ===== *)
(** * Properties of the internal octree

    The claims about [cstone/tree/octree.hpp] and [cstone/tree/btree.hpp]. *)

From S2P Require Import Prelude Primitives SfcCommon BinaryTree Csarray CsInvariant CsRebalance CsCounts CsBuild Octree OctreeNodes OctreeBuild OctreeQueries.
Import OctreeClass.

(** ** Concrete octrees *)

Definition emptyArrays : OctreeArrays := mkOctreeArrays [] [] [] [] [] [].
Definition emptyOctree : OctreeClass.t := mk 0 0 emptyArrays [].

(** Eight leaves, the first one split once more. *)
Definition leaves15 : list Z := [0; 8 ^ 8; 2 * 8 ^ 8; 3 * 8 ^ 8; 4 * 8 ^ 8; 5 * 8 ^ 8; 6 * 8 ^ 8; 7 * 8 ^ 8;
  8 ^ 9; 2 * 8 ^ 9; 3 * 8 ^ 9; 4 * 8 ^ 9; 5 * 8 ^ 9; 6 * 8 ^ 9; 7 * 8 ^ 9; 8 ^ 10].

Lemma leaves15_csTree : csTree Key32 leaves15.
Proof. apply (bool_decide_unpack _). vm_compute. exact I. Qed.

Definition octree15 : OctreeClass.t := default emptyOctree (update Key32 leaves15 15 emptyOctree).

Lemma octree15_octreeOf : exists t, octreeOf Key32 t octree15 /\ cstoneTree_ octree15 = leaves15.
Proof.
  destruct (update_octreeOf Key32 leaves15 emptyOctree leaves15_csTree) as (t & o & E & Ho & Et). exists t.
  unfold octree15. change (nNodes leaves15) with 15 in E. rewrite E. split; [exact Ho|exact Et].
Qed.

(** ** Claims *)

(** C5: the internal tree built over a cornerstone tree is the octree with those leaves: the
    node keys are sorted by level and position and are exactly the nodes of an octree [t]
    whose leaf array is the input, every internal node is linked to its eight children and
    they to it, leaves have no children, and [levelRange] delimits the levels. *)
Theorem updateInternalTree_linked k tree o :
  csTree k tree ->
  exists t o', Octree.updateInternalTree k tree (OctreeData_resize k o (nNodes tree)) = Some o' /\
    tree = leafArray k t /\ depthLe (maxTreeLevel k) t /\ linked k t (arrays o') /\
    numLeafNodes o' = zlen (leafKeys 1 t) /\ numInternalNodes o' = zlen (innerKeys 1 t) /\ numNodes o' = zlen (prefixes (arrays o')).
Proof.
  intros Hcs. destruct (updateInternalTree_octreeDataOf k tree o Hcs) as (t & o' & E & [Hd Hl Hi Hlk _] & Et & Hn). by exists t, o'.
Qed.

Lemma updateInternalTree_linked_witness :
  exists t o', Octree.updateInternalTree Key32 leaves15 (OctreeData_resize Key32 (mkOctreeData 0 0 0 emptyArrays) (nNodes leaves15)) = Some o' /\
    leaves15 = leafArray Key32 t /\ depthLe (maxTreeLevel Key32) t /\ linked Key32 t (arrays o') /\
    numLeafNodes o' = zlen (leafKeys 1 t) /\ numInternalNodes o' = zlen (innerKeys 1 t) /\ numNodes o' = zlen (prefixes (arrays o')).
Proof. apply (updateInternalTree_linked Key32 leaves15 (mkOctreeData 0 0 0 emptyArrays)), leaves15_csTree. Defined.

(** C6: after [Octree::update] the member functions navigate the tree: leaf [j] of the leaf
    array is found by [toInternal], [cstoneIndex] is its inverse, [codeStart] and [codeEnd]
    are its keys; [child] and [parent] are inverse to each other and octant [d] of a node
    starts [d] eighths of its key range further. *)
Theorem Octree_update_navigable k tree o :
  csTree k tree -> exists o', update k tree (nNodes tree) o = Some o' /\ cstoneTree_ o' = tree /\ navigable k tree o'.
Proof.
  intros Hcs. destruct (update_octreeOf k tree o Hcs) as (t & o' & E & Ho & Et). exists o'. split; [done|]. split; [done|].
  rewrite <- Et, (oo_tree _ _ _ Ho). by apply octreeOf_navigable.
Qed.

Lemma Octree_update_navigable_witness :
  exists o', update Key32 leaves15 (nNodes leaves15) emptyOctree = Some o' /\ cstoneTree_ o' = leaves15 /\ navigable Key32 leaves15 o'.
Proof. apply (Octree_update_navigable Key32 leaves15 emptyOctree), leaves15_csTree. Defined.

(** [Octree::rebalance], which reuses the child offsets as scratch space and swaps the
    leaf array with the node keys, installs the rebalanced leaf array and a navigable
    internal tree over it, and reports convergence exactly when all decisions keep their
    leaf. *)
Theorem Octree_rebalance_correct k t o counts bucketSize :
  octreeOf k t o -> rebalanceInput k (cstoneTree_ o) counts bucketSize ->
  exists converged o', rebalance k bucketSize counts o = Some (converged, o') /\
    csTree k (cstoneTree_ o') /\ navigable k (cstoneTree_ o') o' /\
    rebalanceTree k (cstoneTree_ o) [] (nodeOpsOf k (cstoneTree_ o) counts bucketSize ++ [0]) =
      Some (cstoneTree_ o', exclusive_scan 0 (nodeOpsOf k (cstoneTree_ o) counts bucketSize ++ [0])) /\
    converged = forallb (Z.eqb 1) (nodeOpsOf k (cstoneTree_ o) counts bucketSize).
Proof.
  intros Ho Hin. destruct (rebalance_octreeOf k t o counts bucketSize Ho Hin) as (t' & o' & E & Ho' & Et).
  eexists _, o'. split; [exact E|]. rewrite Et. split; [by apply nextTree_csTree|]. split; [|split; [by apply rebalance_run|done]].
  rewrite <- Et, (oo_tree _ _ _ Ho'). by apply octreeOf_navigable.
Qed.

Definition counts15 : list Z := [20; 1; 1; 1; 1; 1; 1; 1; 2; 2; 2; 2; 2; 2; 2].

Lemma Octree_rebalance_correct_witness :
  exists converged o', rebalance Key32 4 counts15 octree15 = Some (converged, o') /\
    csTree Key32 (cstoneTree_ o') /\ navigable Key32 (cstoneTree_ o') o' /\
    rebalanceTree Key32 (cstoneTree_ octree15) [] (nodeOpsOf Key32 (cstoneTree_ octree15) counts15 4 ++ [0]) =
      Some (cstoneTree_ o', exclusive_scan 0 (nodeOpsOf Key32 (cstoneTree_ octree15) counts15 4 ++ [0])) /\
    converged = forallb (Z.eqb 1) (nodeOpsOf Key32 (cstoneTree_ octree15) counts15 4).
Proof.
  destruct octree15_octreeOf as (t & Ho & Et). apply (Octree_rebalance_correct Key32 t octree15 counts15 4 Ho).
  rewrite Et. split; [apply leaves15_csTree|reflexivity|repeat constructor; vm_compute; congruence|lia].
Defined.

(** [containingNode] returns the deepest node of the tree around a node key: the node
    itself if it is part of the tree, otherwise the leaf it lies in. *)
Theorem containingNode_deepest k t o q :
  octreeOf k t o -> nodeAt (nodeLevel q) q -> nodeLevel q <= maxTreeLevel k ->
  exists i p, containingNode k q (prefixes (arrays_ o)) (childOffsets (arrays_ o)) = Some i /\
    (prefixes (arrays_ o)).[i] = Some p /\ below p q /\ (p = q \/ isLeaf o i = Some true) /\
    (q ∈ prefixes (arrays_ o) -> p = q).
Proof.
  intros Ho Hq Hm. pose proof (oo_depth _ _ _ Ho) as Hd. pose proof (oo_linked _ _ _ Ho) as Hl.
  destruct (containingNode_correct k t _ Hd Hl q Hq Hm) as (i & p & E & Hp & Hb & Hor). exists i, p.
  split; [done|]. split; [done|]. split; [done|]. split.
  - destruct Hor as [->|Hlf]; [by left|right]. unfold isLeaf. by rewrite (lk_leaf _ _ _ Hl i p Hp Hlf).
  - intros Hin. destruct Hor as [|Hlf]; [done|]. rewrite (lk_nodes _ _ _ Hl) in Hin. by apply (leaf_below_unique 1 t); [lia|..].
Qed.

Lemma containingNode_deepest_witness :
  exists i p, containingNode Key32 100 (prefixes (arrays_ octree15)) (childOffsets (arrays_ octree15)) = Some i /\
    (prefixes (arrays_ octree15)).[i] = Some p /\ below p 100 /\ (p = 100 \/ isLeaf octree15 i = Some true) /\
    (100 ∈ prefixes (arrays_ octree15) -> p = 100).
Proof.
  destruct octree15_octreeOf as (t & Ho & _). apply (containingNode_deepest Key32 t octree15 100 Ho).
  - vm_compute. repeat split; congruence.
  - vm_compute. congruence.
Defined.

(** The bottom-up sweep with [NodeCount], started from the leaf counts at the positions
    that [toInternal] gives, stores at every node the number of particles in the leaves
    inside of its key range, saturated at the largest 32-bit value. *)
Theorem upsweep_NodeCount k t o counts Q :
  octreeOf k t o -> csTree k (cstoneTree_ o) -> zlen counts = nNodes (cstoneTree_ o) ->
  Forall (fun c => 0 <= c <= 0xFFFFFFFF) counts ->
  zlen Q = zlen (prefixes (arrays_ o)) -> (forall j i, toInternal o j = Some i -> 0 <= j -> Q.[i] = counts.[j]) ->
  exists Q', upsweep (levelRange (arrays_ o)) (childOffsets (arrays_ o)) NodeCount Q = Some Q' /\
    forall i q, (prefixes (arrays_ o)).[i] = Some q -> Q'.[i] = Some (Z.min 0xFFFFFFFF (nodeSum k (cstoneTree_ o) counts q)).
Proof.
  intros Ho Hcs Hlen Hc Hz HQ. pose proof (oo_depth _ _ _ Ho) as Hd. pose proof (oo_linked _ _ _ Ho) as Hl.
  assert (Hpos : Forall (fun c => 0 <= c) counts) by (eapply Forall_impl; [exact Hc|]; simpl; lia).
  destruct (upsweep_correct k t _ Hd Hl NodeCount (fun q => Z.min 0xFFFFFFFF (nodeSum k (cstoneTree_ o) counts q))) with (Q := Q)
    as (Q' & E & _ & HQ'); [|done| |by exists Q'].
  - intros i q c Q1 Hq HQ1. by apply (NodeCount_combine k t).
  - intros i q Hi Hq. destruct (elem_aget _ _ Hq) as [j Hj]. pose proof (aget_Some_range _ _ _ Hj) as Hr.
    destruct (lk_leafIndex _ _ _ Hl j q Hj) as (i' & Hi' & Hp & _).
    assert (i' = i) as ->.
    { rewrite (position_elem _ (lk_sorted _ _ _ Hl) i q), (position_elem _ (lk_sorted _ _ _ Hl) i' q); try done;
        rewrite (lk_nodes _ _ _ Hl); apply allKeys_NoDup; lia. }
    rewrite (HQ j i); [|unfold toInternal; rewrite (oo_numInner _ _ _ Ho), Z.add_comm; done|lia].
    rewrite (oo_tree _ _ _ Ho) in *. rewrite nNodes_leafArray in Hlen. destruct (aget_is_Some counts j ltac:(lia)) as [c Hcj].
    rewrite (nodeSum_leaf k t counts j q c) by (done || lia). rewrite Hcj. f_equal.
    rewrite Forall_forall in Hc. specialize (Hc c (aget_elem _ _ _ Hcj)). simpl in Hc. lia.
Qed.

Definition quantities15 : list Z := [0; 0; 2; 2; 2; 2; 2; 2; 2; 20; 1; 1; 1; 1; 1; 1; 1].

Lemma upsweep_NodeCount_witness :
  exists Q', upsweep (levelRange (arrays_ octree15)) (childOffsets (arrays_ octree15)) NodeCount quantities15 = Some Q' /\
    forall i q, (prefixes (arrays_ octree15)).[i] = Some q ->
      Q'.[i] = Some (Z.min 0xFFFFFFFF (nodeSum Key32 (cstoneTree_ octree15) counts15 q)).
Proof.
  destruct octree15_octreeOf as (t & Ho & Et). pose proof (oo_sized _ _ _ Ho) as Hs.
  apply (upsweep_NodeCount Key32 t octree15 counts15 quantities15 Ho).
  - rewrite Et. apply leaves15_csTree.
  - rewrite Et. reflexivity.
  - repeat constructor; vm_compute; congruence.
  - vm_compute. reflexivity.
  - intros j i Hi Hj. assert (Hb : forallb (fun j => oeqb (let? i := toInternal octree15 (Z.of_nat j) in quantities15.[i]) (counts15.[Z.of_nat j])) (seq 0 15) = true).
    { vm_compute. reflexivity. }
    assert (0 <= j < 15) as Hr.
    { unfold toInternal in Hi. apply aget_Some_range in Hi. destruct Hs as (_ & _ & Hz & _). rewrite Hz in Hi.
      rewrite (oo_numInner _ _ _ Ho), <- nNodes_leafArray with (k := Key32), <- (oo_tree _ _ _ Ho), Et in Hi. change (nNodes leaves15) with 15 in Hi. lia. }
    apply (forallb_below 15 (fun j => oeqb (let? i := toInternal octree15 j in quantities15.[i]) (counts15.[j]))) with (x := j) in Hb; [|lia].
    unfold oeqb in Hb. apply bool_decide_eq_true in Hb. by rewrite Hi in Hb.
Defined.

(** ** Binary radix trees *)

(** C7: The nodes that [createBinaryTree] constructs in any order of the threads from sorted keys without duplicates form the binary trie of
    the keys: the construction stays in bounds and terminates, the tree with root 0 has the keys on the curve as its leaves, in order,
    and all nodes but the one for the end of the curve as its inner nodes, each once; a node has the bits that all keys below it
    start with as its prefix, the keys on its left continue with 0 and those on its right with 1. *)
Theorem createBinaryTree_trie k codes m order binaryTree : radixCodes k codes m -> order ≡ₚ seqZ 0 (zlen codes - 1) -> zlen binaryTree = zlen codes - 1 ->
  exists nodes t, createBinaryTree k codes order binaryTree = Some nodes /\ zlen nodes = zlen codes - 1 /\
    storedTree (aget nodes) 0 t /\ radixLeaves t = seqZ 0 m /\ radixNodes t ≡ₚ seqZ 0 (m - 1) /\ radixSorted k codes t.
Proof. intros Hrc. by apply createBinaryTree_run. Qed.

(** Every cornerstone array of at least two leaves is such a list of keys. *)
Lemma csTree_radixCodes k tree : csTree k tree -> 2 <= nNodes tree -> zlen tree <= 2 ^ 29 -> radixCodes k tree (nNodes tree).
Proof.
  intros Hcs Hn Hz. unfold nNodes in *. pose proof (cs_nodes k _ Hcs) as Hnd. pose proof (nodes_mono k _ _ Hnd) as Hm. unfold nNodes in Hm. pose proof (nthz_Some _ _ _ (treelet_first _ _ _ _ Hcs)) as E0. pose proof (nthz_Some _ _ _ (treelet_last _ _ _ _ Hcs)) as E1. split.
  - lia.
  - intros i Hi. destruct (decide (i = 0)) as [->|]; [lia|]. specialize (Hm 0 i). lia.
  - intros i j Hi Hj. apply Hm; lia.
  - intros i Hi. rewrite <- E1. apply Hm; lia.
  - right. split; [lia|done].
Qed.

Lemma createBinaryTree_trie_witness :
  exists nodes t, createBinaryTree Key32 leaves15 (reverse (seqZ 0 15)) (replicate 15 (mkBinaryNode 0 0 0)) = Some nodes /\ zlen nodes = 15 /\
    storedTree (aget nodes) 0 t /\ radixLeaves t = seqZ 0 15 /\ radixNodes t ≡ₚ seqZ 0 14 /\ radixSorted Key32 leaves15 t.
Proof.
  apply (createBinaryTree_trie Key32 leaves15 15 (reverse (seqZ 0 15)) (replicate 15 (mkBinaryNode 0 0 0))).
  - apply (csTree_radixCodes Key32 leaves15 leaves15_csTree); vm_compute; congruence.
  - rewrite reverse_Permutation. reflexivity.
  - reflexivity.
Defined.
