(* ===== verification/SfcProperties.v ===== *)
(** * Properties of the space-filling curves

    The claims about [cstone/sfc/*.hpp] and [cstone/primitives/clz.hpp]. *)

From S2P Require Import Prelude Primitives SfcCommon SfcBox Morton Hilbert Sfc.

(** C30: both curves are bijections, one direction: the key of a grid cell is in range and
    decodes to the cell. *)
Theorem decodeSfc_iSfcKey s k ix iy iz :
  isCell k (ix, iy, iz) ->
  0 <= iSfcKey s k ix iy iz < keyMax k /\ decodeSfc s k (iSfcKey s k ix iy iz) = (ix, iy, iz).
Proof.
  intros Hc. split; [apply (sfc_enc_range (enc := iSfcKey s k) (ix, iy, iz) Hc)|].
  apply (sfc_dec_enc (enc := iSfcKey s k) (ix, iy, iz) Hc).
Qed.

Lemma decodeSfc_iSfcKey_witness :
  0 <= iSfcKey HilbertKey Key64 5 1000 2097151 < keyMax Key64 /\
  decodeSfc HilbertKey Key64 (iSfcKey HilbertKey Key64 5 1000 2097151) = (5, 1000, 2097151).
Proof. apply (decodeSfc_iSfcKey HilbertKey Key64 5 1000 2097151). vm_compute. repeat split; congruence. Defined.

(** The other direction: every key below [2^(3 maxTreeLevel)] decodes to a grid cell
    whose key it is. *)
Theorem iSfcKey_decodeSfc s k key :
  0 <= key < keyMax k ->
  let '(ix, iy, iz) := decodeSfc s k key in isCell k (ix, iy, iz) /\ iSfcKey s k ix iy iz = key.
Proof.
  intros Hk. pose proof (sfc_dec_range (enc := iSfcKey s k) key Hk) as Hr. pose proof (sfc_enc_dec (enc := iSfcKey s k) key Hk) as He.
  destruct (decodeSfc s k key) as [[ix iy] iz]. done.
Qed.

Lemma iSfcKey_decodeSfc_witness :
  let '(ix, iy, iz) := decodeSfc MortonKey Key32 123456789 in isCell Key32 (ix, iy, iz) /\ iSfcKey MortonKey Key32 ix iy iz = 123456789.
Proof. apply (iSfcKey_decodeSfc MortonKey Key32 123456789). vm_compute. split; congruence. Defined.

(** C31: the Hilbert curve is continuous: consecutive keys decode to cells that differ by one
    in exactly one coordinate. *)
Theorem decodeHilbert_continuous k key :
  0 <= key -> key + 1 < keyMax k -> dist1 (decodeHilbert k key) (decodeHilbert k (key + 1)) = 1.
Proof.
  intros H0 H1. rewrite !decodeHilbert_ref by lia. apply hilbertDec_adjacent; [done|]. by rewrite keyMax_nat.
Qed.

Lemma decodeHilbert_continuous_witness : dist1 (decodeHilbert Key32 536870911) (decodeHilbert Key32 (536870911 + 1)) = 1.
Proof. apply (decodeHilbert_continuous Key32 536870911); vm_compute; congruence. Defined.

(** C32: the integer box of an octree node contains exactly the cells whose keys are in the
    key range of the node. *)
Theorem sfcIBox_exact s k keyStart level ix iy iz :
  0 <= level <= maxTreeLevel k -> 0 <= keyStart < keyMax k -> (8 ^ (maxTreeLevel k - level) | keyStart) ->
  isCell k (ix, iy, iz) ->
  inIBox (sfcIBox s k keyStart level) (ix, iy, iz) <->
    keyStart <= iSfcKey s k ix iy iz < keyStart + 8 ^ (maxTreeLevel k - level).
Proof.
  intros Hl Hs Hd Hc. rewrite sfcIBox_nodeBox by done.
  apply (nodeBox_keys (enc := iSfcKey s k)); [lia|done|done|done].
Qed.

Lemma sfcIBox_exact_witness :
  inIBox (sfcIBox HilbertKey Key32 (3 * 8 ^ 8) 2) (7, 300, 12) <->
    3 * 8 ^ 8 <= iSfcKey HilbertKey Key32 7 300 12 < 3 * 8 ^ 8 + 8 ^ (maxTreeLevel Key32 - 2).
Proof.
  apply (sfcIBox_exact HilbertKey Key32 (3 * 8 ^ 8) 2 7 300 12).
  - vm_compute. split; congruence.
  - vm_compute. split; congruence.
  - by exists 3.
  - vm_compute. repeat split; congruence.
Defined.

(** [sfcNeighbor] returns the first key of the node of the same size whose box is the
    shifted box, with periodic wrap-around at the domain boundary. *)
Theorem sfcNeighbor_correct s k keyStart level dx dy dz :
  0 <= level <= maxTreeLevel k -> 0 <= keyStart < keyMax k -> (8 ^ (maxTreeLevel k - level) | keyStart) ->
  -1 <= dx <= 1 -> -1 <= dy <= 1 -> -1 <= dz <= 1 ->
  let b := sfcIBox s k keyStart level in
  let L := 2 ^ (maxTreeLevel k - level) in
  let n := sfcIBox s k (sfcNeighbor s k b level dx dy dz) level in
  (8 ^ (maxTreeLevel k - level) | sfcNeighbor s k b level dx dy dz) /\
  xmin n = (xmin b + dx * L) mod maxCoord k /\ ymin n = (ymin b + dy * L) mod maxCoord k /\
  zmin n = (zmin b + dz * L) mod maxCoord k.
Proof.
  intros Hl Hs Hd Hx Hy Hz b L n.
  destruct (sfcNeighbor_shift s k keyStart level dx dy dz Hl Hs Hd Hx Hy Hz) as (_ & Hdiv & [= E1 E2 E3]). done.
Qed.

Lemma sfcNeighbor_correct_witness :
  let b := sfcIBox HilbertKey Key64 0 3 in
  let L := 2 ^ (maxTreeLevel Key64 - 3) in
  let n := sfcIBox HilbertKey Key64 (sfcNeighbor HilbertKey Key64 b 3 (-1) 0 1) 3 in
  (8 ^ (maxTreeLevel Key64 - 3) | sfcNeighbor HilbertKey Key64 b 3 (-1) 0 1) /\
  xmin n = (xmin b + -1 * L) mod maxCoord Key64 /\ ymin n = (ymin b + 0 * L) mod maxCoord Key64 /\
  zmin n = (zmin b + 1 * L) mod maxCoord Key64.
Proof.
  apply (sfcNeighbor_correct HilbertKey Key64 0 3 (-1) 0 1); [|vm_compute; split; congruence|by exists 0|lia..].
  vm_compute. split; congruence.
Defined.

(** [spanSfcRange] covers [a, b) with octree nodes: the keys it writes, closed with [b],
    are consecutive node boundaries, and the number it returns is their number. *)
Theorem spanSfcRange_cover k a b :
  0 <= a < b -> b <= keyMax k -> exists out, spanSfcRange k a b = Some (zlen out, out) /\ cs_chain k a out b.
Proof. apply spanSfcRange_chain. Qed.

Lemma spanSfcRange_cover_witness : exists out, spanSfcRange Key64 7 100000 = Some (zlen out, out) /\ cs_chain Key64 7 out 100000.
Proof. apply (spanSfcRange_cover Key64 7 100000); [lia|vm_compute; congruence]. Defined.

(** [smallestCommonBox] is an octree node that contains both keys and is contained in
    every node with that property. *)
Theorem smallestCommonBox_least k firstKey secondKey :
  0 <= firstKey < keyMax k -> 0 <= secondKey < keyMax k ->
  let '(s, e) := smallestCommonBox k firstKey secondKey in
  isNode k s e /\ (s <= firstKey < e) /\ (s <= secondKey < e) /\
  (forall s' e', isNode k s' e' -> s' <= firstKey < e' -> s' <= secondKey < e' -> s' <= s /\ e <= e').
Proof. apply smallestCommonBox_spec. Qed.

Lemma smallestCommonBox_least_witness :
  let '(s, e) := smallestCommonBox Key32 511 513 in
  isNode Key32 s e /\ (s <= 511 < e) /\ (s <= 513 < e) /\
  (forall s' e', isNode Key32 s' e' -> s' <= 511 < e' -> s' <= 513 < e' -> s' <= s /\ e <= e').
Proof. apply (smallestCommonBox_least Key32 511 513); vm_compute; split; congruence. Defined.

(** The Warren-Salmon placeholder encoding is a round trip: an aligned start key and
    level are recovered from the encoded node key. *)
Theorem decodePlaceholderBit_encode k code level :
  0 <= level <= maxTreeLevel k -> 0 <= code < keyMax k -> (8 ^ (maxTreeLevel k - level) | code) ->
  decodePlaceholderBit k (encodePlaceholderBit k code (3 * level)) = code /\
  decodePrefixLength k (encodePlaceholderBit k code (3 * level)) = 3 * level.
Proof. apply decode_encode. Qed.

Lemma decodePlaceholderBit_encode_witness :
  decodePlaceholderBit Key32 (encodePlaceholderBit Key32 (5 * 8 ^ 7) (3 * 3)) = 5 * 8 ^ 7 /\
  decodePrefixLength Key32 (encodePlaceholderBit Key32 (5 * 8 ^ 7) (3 * 3)) = 3 * 3.
Proof.
  apply (decodePlaceholderBit_encode Key32 (5 * 8 ^ 7) 3); [vm_compute; split; congruence|vm_compute; split; congruence|by exists 5].
Defined.

(** The De Bruijn multiplication of the portable [clz64] counts the leading zeros like
    the compiler builtin on every non-zero 64-bit integer, and so does [clz32] on every
    non-zero 32-bit integer. *)
Theorem clz_equivalent x :
  0 < x < 2 ^ 64 ->
  countLeadingZeros64_portable x = Some (countLeadingZeros 64 x) /\
  (x < 2 ^ 32 -> countLeadingZeros32_portable x = Some (countLeadingZeros 32 x)).
Proof.
  intros Hx. unfold countLeadingZeros64_portable, countLeadingZeros32_portable, countLeadingZeros.
  destruct (Z.eqb_spec x 0); [lia|]. split; [by apply clz64_correct|]. intros. apply clz32_correct. lia.
Qed.

Lemma clz_equivalent_witness :
  countLeadingZeros64_portable 12345 = Some (countLeadingZeros 64 12345) /\
  (12345 < 2 ^ 32 -> countLeadingZeros32_portable 12345 = Some (countLeadingZeros 32 12345)).
Proof. apply (clz_equivalent 12345). vm_compute. split; congruence. Defined.

(** On the input 0 the portable 32-bit [countLeadingZeros] returns 64, where the
    builtin branch of the same function returns 32. *)
Theorem countLeadingZeros32_zero :
  countLeadingZeros32_portable 0 = Some 64 /\ countLeadingZeros 32 0 = 32.
Proof. split; reflexivity. Qed.
