(* ===== verification/IndexRanges.v ===== *)
(** * Index ranges and buffer descriptions

    [cstone/domain/index_ranges.hpp], [cstone/domain/buffer_description.hpp] and the byte
    offsets of [cstone/util/pack_buffers.hpp]: the send lists of the particle exchange and
    the placement of received particles in the local buffers.  [LocalIndex] is a 32-bit
    unsigned and [size_t] a 64-bit unsigned integer. *)

From S2P Require Import Prelude Primitives SfcCommon.

(** ** IndexPair *)

Record IndexPair := mkIndexPair { start : Z; end_ : Z }.

(** [TreeNodeIndex] is a signed type, [count] does not wrap on indices in use. *)
Definition count (p : IndexPair) : Z := end_ p - start p.

#[export] Instance IndexPair_eq_dec : EqDecision IndexPair.
Proof. solve_decision. Defined.

(** ** IndexRanges *)

Record IndexRanges := mkIndexRanges { totalCount_ : Z; offsets_ : list Z; scan_ : list Z }.

Definition emptyRanges : IndexRanges := mkIndexRanges 0 [] [0].

Definition addRange (lower upper : Z) (r : IndexRanges) : IndexRanges :=
  if lower =? upper then r
  else
    let total := u64 (totalCount_ r + u32 (upper - lower)) in
    mkIndexRanges total (offsets_ r ++ [lower]) (scan_ r ++ [u32 total]).

Definition rangeStart (r : IndexRanges) (i : Z) : option Z := (offsets_ r).[i].

Definition rangesCount (r : IndexRanges) (i : Z) : option Z :=
  let? b := (scan_ r).[i + 1] in
  let? a := (scan_ r).[i] in
  Some (u32 (b - a)).

Definition rangeEnd (r : IndexRanges) (i : Z) : option Z :=
  let? s := rangeStart r i in
  let? c := rangesCount r i in
  Some (u32 (u64 (s + c))).

Definition nRanges (r : IndexRanges) : Z := zlen (offsets_ r).

(** ** SendList *)

Definition sendListTotal (data : list IndexRanges) : Z :=
  foldl (fun n r => u64 (n + totalCount_ r)) 0 data.

Definition maxNumRanges (sendList : list IndexRanges) : Z :=
  foldl (fun ret m => stl_max ret (nRanges m)) 0 sendList.

(** ** SendRanges *)

Definition numRanks (sends : list Z) : Z := zlen sends - 1.

Definition sendCount (sends : list Z) (rank : Z) : option Z :=
  let? b := sends.[rank + 1] in
  let? a := sends.[rank] in
  Some (if a <=? b then u32 (b - a) else 0).

(** ** ExchangeLog *)

Definition ExchangeLog := list (Z * Z).

Definition addExchange (rank location : Z) (log : ExchangeLog) : ExchangeLog := log ++ [(rank, location)].

Definition logLookup (rank : Z) (log : ExchangeLog) : option Z :=
  snd <$> find (fun e => fst e =? rank) log.

(** ** Byte offsets *)

(** [sizes]: element sizes in bytes.  The trailing element of the C++ array is zero, so the
    last entry of the scan is the number of bytes needed. *)
Definition computeByteOffsets (count alignment : Z) (sizes : list Z) : list Z :=
  exclusive_scan_with (fun a b => u64 (a + b)) 0 ((fun s => round_up (u64 (s * count)) alignment) <$> (sizes ++ [0])).

Definition lastOffset (offsets : list Z) : option Z := offsets.[zlen offsets - 1].

(** Accumulation over the ranks other than [thisRank] with something to send. *)
Definition addSendBytes (alignment numBytesHeader thisRank : Z) (sizes : list Z) (rank sendCount total : Z) : option Z :=
  if (rank =? thisRank) || (sendCount =? 0) then Some total
  else
    let? particleBytes := lastOffset (computeByteOffsets sendCount alignment sizes) in
    Some (u64 (total + u64 (numBytesHeader + particleBytes))).

Definition computeTotalSendBytes (alignment : Z) (sendList : list IndexRanges) (thisRank numBytesHeader : Z) (sizes : list Z) : option Z :=
  for_loop 0 (zlen sendList) (fun rank total =>
    let? m := sendList.[rank] in
    addSendBytes alignment numBytesHeader thisRank sizes rank (totalCount_ m) total) 0.

Definition computeTotalSendBytesRanges (alignment : Z) (sends : list Z) (thisRank numBytesHeader : Z) (sizes : list Z) : option Z :=
  for_loop 0 (numRanks sends) (fun rank total =>
    let? n := sendCount sends rank in
    addSendBytes alignment numBytesHeader thisRank sizes rank n total) 0.

(** ** BufferDescription *)

Record BufferDescription := mkBufferDescription { bstart : Z; bend : Z; bsize : Z }.

Definition exchangeBufferSize (bufDesc : BufferDescription) (numPresent numAssigned : Z) : Z :=
  let numIncoming := u32 (numAssigned - numPresent) in
  let fitHead := numIncoming <=? bstart bufDesc in
  let fitTail := numIncoming <=? u32 (bsize bufDesc - bend bufDesc) in
  if fitHead || fitTail then bsize bufDesc else u32 (bend bufDesc + numIncoming).

(** [None] where the assertion fails. *)
Definition receiveStart (bufDesc : BufferDescription) (numIncoming : Z) : option Z :=
  let fitHead := numIncoming <=? bstart bufDesc in
  if fitHead || (numIncoming <=? u32 (bsize bufDesc - bend bufDesc)) then
    Some (if fitHead then u32 (bstart bufDesc - numIncoming) else bend bufDesc)
  else None.

Definition assignedEnvelope (bufDesc : BufferDescription) (numIncoming : Z) : Z * Z :=
  if numIncoming <=? bstart bufDesc then (u32 (bstart bufDesc - numIncoming), bend bufDesc)
  else (bstart bufDesc, u32 (bend bufDesc + numIncoming)).

(** [ordering + o1.start] is the ordering with the first elements dropped. *)
Definition extractLocallyOwnedImpl {A} (d : A) (o1 : BufferDescription) (numPresent numAssigned : Z)
    (ordering : list Z) (buffer : list A) : option (list A) :=
  let temp := replicate (Z.to_nat numAssigned) d in
  let? temp := gather (take (Z.to_nat numPresent) (drop (Z.to_nat (bstart o1)) ordering)) buffer temp in
  let n := u32 (numAssigned - numPresent) in
  let? rStart := receiveStart o1 n in
  for_loop 0 n (fun i temp => let? v := buffer.[rStart + i] in aset temp (numPresent + i) v) temp.

(** ** Invariant of IndexRanges *)

(** The ranges added so far, none empty. *)
Definition holdsRanges (r : IndexRanges) (l : list (Z * Z)) : Prop :=
  Forall (fun '(a, b) => 0 <= a < b /\ b < 4294967296) l /\
  zsum ((fun '(a, b) => b - a) <$> l) < 4294967296 /\
  totalCount_ r = zsum ((fun '(a, b) => b - a) <$> l) /\ offsets_ r = fst <$> l /\
  zlen (scan_ r) = zlen l + 1 /\
  forall i, 0 <= i <= zlen l -> (scan_ r).[i] = Some (prefixSum ((fun '(a, b) => b - a) <$> l) i).

Lemma emptyRanges_holds : holdsRanges emptyRanges [].
Proof.
  split; [constructor|]. split; [done|]. split; [done|]. split; [done|]. split; [done|].
  intros i Hi. change (zlen (@nil (Z * Z))) with 0 in Hi. by replace i with 0 by lia.
Qed.

Lemma lengths_nonneg (l : list (Z * Z)) :
  Forall (fun '(a, b) => 0 <= a < b /\ b < 4294967296) l -> Forall (fun x => 0 <= x) ((fun '(a, b) => b - a) <$> l).
Proof. intros H. apply Forall_fmap. eapply Forall_impl; [exact H|]. intros [a b] ?. simpl. lia. Qed.

Lemma addRange_holds r l lower upper :
  holdsRanges r l -> 0 <= lower <= upper -> upper < 4294967296 -> totalCount_ r + (upper - lower) < 4294967296 ->
  holdsRanges (addRange lower upper r) (if lower =? upper then l else l ++ [(lower, upper)]).
Proof.
  intros (Hl & Hsum & Ht & Ho & Hz & Hs) Hr Hu Htot. unfold addRange. destruct (Z.eqb_spec lower upper); [by repeat split|].
  pose proof (zsum_nonneg _ (lengths_nonneg l Hl)). unfold holdsRanges. cbn [totalCount_ offsets_ scan_].
  rewrite (u32_small (upper - lower)) by lia. rewrite u64_small by lia. rewrite u32_small by lia.
  rewrite !fmap_app, zsum_app. cbn [fmap list_fmap]. rewrite zsum_cons. change (zsum []) with 0.
  split; [apply Forall_app; split; [done|constructor; [lia|constructor]]|].
  split; [lia|]. split; [lia|]. split; [by rewrite Ho|]. split; [rewrite !zlen_app, Hz; change (zlen [(lower, upper)]) with 1; change (zlen [totalCount_ r + (upper - lower)]) with 1; lia|].
  intros i Hi. rewrite zlen_app in Hi. change (zlen [(lower, upper)]) with 1 in Hi.
  destruct (decide (i = zlen l + 1)) as [->|].
  - rewrite aget_app_r by lia. rewrite Hz, Z.sub_diag, aget_cons_0. f_equal.
    assert (Hlen : zlen l + 1 = zlen (((fun '(a, b) => b - a) <$> l) ++ [upper - lower])) by (rewrite zlen_app, zlen_map; done).
    rewrite Hlen, prefixSum_all, zsum_app, zsum_cons. change (zsum []) with 0. lia.
  - rewrite aget_app_l by lia. rewrite prefixSum_app_l by (rewrite zlen_map; lia). apply Hs. lia.
Qed.

Lemma holdsRanges_get r l i a b :
  holdsRanges r l -> l.[i] = Some (a, b) -> rangeStart r i = Some a /\ rangeEnd r i = Some b /\ rangesCount r i = Some (b - a).
Proof.
  intros (Hl & _ & Ht & Ho & Hz & Hs) Hi. pose proof (aget_Some_range _ _ _ Hi) as Hr.
  assert (Hab : 0 <= a < b /\ b < 4294967296) by (rewrite Forall_forall in Hl; apply (Hl (a, b)); by eapply aget_elem).
  assert (Ec : rangesCount r i = Some (b - a)).
  { unfold rangesCount. rewrite !Hs by lia. f_equal.
    rewrite (prefixSum_succ _ i (b - a)) by (by rewrite aget_map, Hi). rewrite u32_small; lia. }
  assert (Es : rangeStart r i = Some a) by (unfold rangeStart; by rewrite Ho, aget_map, Hi).
  split; [done|]. split; [|done]. unfold rangeEnd. rewrite Es, Ec. f_equal.
  rewrite u64_small, u32_small by lia. lia.
Qed.
