(* ===== verification/Doubles.v ===== *)
(** * Double precision

    The IEEE binary64 operations of the target counts in [cstone/domain/domaindecomp.hpp], which are those of the Standard
    Library's [SpecFloat] with 53 bits: conversion from and to integers, division and multiplication.  Values are compared as
    integers, scaled by [2 ^ 300], below which no bit of the numbers that occur here lies. *)

From Stdlib Require Import SpecFloat.
From S2P Require Import Prelude.

(** Conversion of an integer, rounded to nearest even. *)
Definition toDouble (x : Z) : spec_float := binary_normalize 53 1024 x 0 false.

(** Conversion to [uint64_t], defined on non-negative finite values. *)
Definition toUint64 (f : spec_float) : option Z :=
  match f with
  | S754_zero _ => Some 0
  | S754_finite false m e => let v := Z.shiftl (Z.pos m) e in if v <? 2 ^ 64 then Some v else None
  | _ => None
  end.

(** ** Binary digits *)

Lemma Zdigits2_log2 p : Z.pos (digits2_pos p) = Z.log2 (Z.pos p) + 1.
Proof.
  induction p as [p IH|p IH|]; [| |done]; cbn [digits2_pos]; rewrite Pos2Z.inj_succ, IH.
  - change (Z.pos p~1) with (2 * Z.pos p + 1). rewrite Z.log2_succ_double by lia. lia.
  - change (Z.pos p~0) with (2 * Z.pos p). rewrite Z.log2_double by lia. lia.
Qed.

Lemma digits_bounds d p : 2 ^ d <= Z.pos p < 2 ^ (d + 1) -> 0 <= d -> Z.pos (digits2_pos p) = d + 1.
Proof. intros H Hd. rewrite Zdigits2_log2. f_equal. apply Z.log2_unique; [done|]. lia. Qed.

(** ** Rounding *)

(** [x / 2 ^ n] rounded to nearest, ties to even. *)
Definition roundShift (x n : Z) : Z :=
  let q := x / 2 ^ n in
  let r := x mod 2 ^ n in
  match 2 * r ?= 2 ^ n with Lt => q | Gt => q + 1 | Eq => if Z.even q then q else q + 1 end.

Lemma roundShift_bounds x n : 0 <= n -> x / 2 ^ n <= roundShift x n <= x / 2 ^ n + 1.
Proof. intros Hn. unfold roundShift. destruct (_ ?= _); [destruct (Z.even _)| |]; lia. Qed.

Lemma roundShift_mono x y n : 0 <= n -> x <= y -> roundShift x n <= roundShift y n.
Proof.
  intros Hn Hxy. pose proof (Z.pow_pos_nonneg 2 n ltac:(lia) Hn) as Hp. pose proof (Z.div_le_mono x y (2 ^ n) Hp Hxy) as Hq.
  destruct (Z.lt_ge_cases (x / 2 ^ n) (y / 2 ^ n)).
  - pose proof (roundShift_bounds x n Hn). pose proof (roundShift_bounds y n Hn). lia.
  - assert (E : x / 2 ^ n = y / 2 ^ n) by lia. pose proof (Z.div_mod x (2 ^ n) ltac:(lia)). pose proof (Z.div_mod y (2 ^ n) ltac:(lia)).
    unfold roundShift. rewrite E in *. destruct (Z.compare_spec (2 * (x mod 2 ^ n)) (2 ^ n)), (Z.compare_spec (2 * (y mod 2 ^ n)) (2 ^ n)), (Z.even (y / 2 ^ n)); lia.
Qed.

Lemma roundShift_multiple q n : 0 <= n -> roundShift (q * 2 ^ n) n = q.
Proof.
  intros Hn. pose proof (Z.pow_pos_nonneg 2 n ltac:(lia) Hn) as Hp. unfold roundShift.
  rewrite Z.mod_mul, Z.div_mul by lia. destruct (Z.compare_spec (2 * 0) (2 ^ n)); [lia|done|lia].
Qed.

Lemma roundShift_scale x n t : 0 <= n -> 0 <= t -> roundShift (x * 2 ^ t) (n + t) = roundShift x n.
Proof.
  intros Hn Ht. pose proof (Z.pow_pos_nonneg 2 n ltac:(lia) Hn). pose proof (Z.pow_pos_nonneg 2 t ltac:(lia) Ht). unfold roundShift.
  rewrite Z.pow_add_r by lia. rewrite Z.div_mul_cancel_r, Zmult_mod_distr_r by lia.
  rewrite Z.mul_assoc, <-Zmult_compare_compat_r by lia. done.
Qed.

(** ** Right shifts with sticky bits *)

(** Truncated mantissa, rounding bit and sticky bit of [x / 2 ^ n]. *)
Definition shifted (x n : Z) : shr_record :=
  {| shr_m := x / 2 ^ n; shr_r := 2 ^ n <=? 2 * (x mod 2 ^ n); shr_s := negb (2 * (x mod 2 ^ n) =? 0) && negb (2 * (x mod 2 ^ n) =? 2 ^ n) |}.

Lemma shr_1_div m r s : 0 <= m -> shr_1 {| shr_m := m; shr_r := r; shr_s := s |} = {| shr_m := m / 2; shr_r := Z.odd m; shr_s := r || s |}.
Proof.
  intros Hm. destruct m as [|[p|p|]|p]; try done; try lia; cbn -[Z.div].
  - f_equal. change (Z.pos p~1) with (2 * Z.pos p + 1). symmetry. Z.div_mod_to_equations; lia.
  - f_equal. change (Z.pos p~0) with (2 * Z.pos p). symmetry. Z.div_mod_to_equations; lia.
Qed.

Lemma shifted_0 x : shifted x 0 = {| shr_m := x; shr_r := false; shr_s := false |}.
Proof. unfold shifted. rewrite Z.pow_0_r, Z.div_1_r, Z.mod_1_r. done. Qed.

Lemma shifted_S x n : 0 <= x -> 0 <= n -> shr_1 (shifted x n) = shifted x (n + 1).
Proof.
  intros Hx Hn. pose proof (Z.pow_pos_nonneg 2 n ltac:(lia) Hn) as Hp. unfold shifted at 1. rewrite shr_1_div by (apply Z.div_pos; lia).
  assert (E : x mod 2 ^ (n + 1) = 2 ^ n * (x / 2 ^ n mod 2) + x mod 2 ^ n) by (rewrite Z.pow_add_r, Z.pow_1_r, Z.rem_mul_r by lia; lia).
  pose proof (Z.mod_pos_bound x (2 ^ n) Hp) as Hr. unfold shifted. rewrite E. rewrite Zmod_odd. clear E.
  rewrite Z.pow_add_r, Z.pow_1_r, Z.div_div by lia. set (b := x / 2 ^ n). set (r := x mod 2 ^ n) in *. set (w := 2 ^ n) in *.
  destruct (Z.odd b); f_equal; rewrite ?Z.mul_1_r, ?Z.mul_0_r; repeat match goal with
    | |- context [?a <=? ?c] => destruct (Z.leb_spec a c) | |- context [?a =? ?c] => destruct (Z.eqb_spec a c) end; simpl; done || lia.
Qed.

Lemma shr_iter x p : 0 <= x -> forall n, 0 <= n -> SpecFloat.iter_pos shr_1 p (shifted x n) = shifted x (n + Z.pos p).
Proof.
  intros Hx. induction p as [p IH|p IH|]; intros n Hn; cbn [SpecFloat.iter_pos].
  - rewrite shifted_S, !IH by lia. f_equal. lia.
  - rewrite !IH by lia. f_equal. lia.
  - by rewrite shifted_S.
Qed.

Lemma shr_shifted x e n : 0 <= x -> 0 <= n -> shr {| shr_m := x; shr_r := false; shr_s := false |} e n = (shifted x n, e + n).
Proof.
  intros Hx Hn. rewrite <-shifted_0. destruct n as [|p|p]; cbn [shr]; [by rewrite Z.add_0_r| |lia]. by rewrite shr_iter.
Qed.

Lemma round_shifted x n : 0 <= n -> round_nearest_even (shr_m (shifted x n)) (loc_of_shr_record (shifted x n)) = roundShift x n.
Proof.
  intros Hn. pose proof (Z.pow_pos_nonneg 2 n ltac:(lia) Hn) as Hp. pose proof (Z.mod_pos_bound x (2 ^ n) Hp) as Hr.
  unfold shifted, roundShift. cbn [shr_m loc_of_shr_record]. destruct (Z.compare_spec (2 * (x mod 2 ^ n)) (2 ^ n)), (Z.leb_spec (2 ^ n) (2 * (x mod 2 ^ n))),
    (Z.eqb_spec (2 * (x mod 2 ^ n)) 0), (Z.eqb_spec (2 * (x mod 2 ^ n)) (2 ^ n)); simpl; done || lia.
Qed.

(** ** Normal numbers *)

Definition scale : Z := 300.

(** A positive normal number with an exponent between [lo] and [hi], and its scaled value [v]. *)
Definition normalOf (lo hi : Z) (f : spec_float) (v : Z) : Prop :=
  exists m e, f = S754_finite false m e /\ 2 ^ 52 <= Z.pos m < 2 ^ 53 /\ lo <= e <= hi /\ v = Z.pos m * 2 ^ (e + scale).

(** The second half of the rounding: a mantissa of 53 bits, or the next power of two. *)
Definition renormal (m e : Z) : spec_float :=
  let '(mrs, e') := shr_fexp 53 1024 m e loc_Exact in
  match shr_m mrs with
  | Z0 => S754_zero false
  | Zpos m => if e' <=? 1024 - 53 then S754_finite false m e' else S754_infinity false
  | _ => S754_nan
  end.

Lemma renormal_ok m e : 2 ^ 52 <= m <= 2 ^ 53 -> -200 <= e <= 200 -> normalOf e (e + 1) (renormal m e) (m * 2 ^ (e + scale)).
Proof.
  intros Hm He. unfold renormal, shr_fexp. destruct m as [|p|p]; [lia| |lia]. cbn [Zdigits2].
  destruct (Z.eq_dec (Z.pos p) (2 ^ 53)) as [Ep|Np].
  - rewrite (digits_bounds 53) by (change (53 + 1) with 54; lia).
    replace (fexp 53 1024 (53 + 1 + e) - e) with 1 by (unfold fexp, emin; lia). cbn [shr_record_of_loc]. rewrite shr_shifted by lia. rewrite Ep.
    change (shr_m (shifted (2 ^ 53) 1)) with (Z.pos (2 ^ 52)). cbv iota. destruct (Z.leb_spec (e + 1) (1024 - 53)); [|lia].
    exists (2 ^ 52)%positive, (e + 1). split; [done|]. split; [lia|]. split; [lia|]. change (Z.pos (2 ^ 52)) with (2 ^ 52). rewrite <-!Z.pow_add_r by (unfold scale; lia). f_equal. lia.
  - rewrite (digits_bounds 52) by (change (52 + 1) with 53; lia).
    replace (fexp 53 1024 (52 + 1 + e) - e) with 0 by (unfold fexp, emin; lia). cbn [shr_record_of_loc shr shr_m].
    destruct (Z.leb_spec e (1024 - 53)); [|lia]. exists p, e. split; [done|]. split; [lia|]. split; [lia|done].
Qed.

(** Rounding of an exact value with at least 53 bits. *)
Definition rounded (x : Z) : Z := let n := Z.log2 x - 52 in roundShift x n * 2 ^ n.

Lemma roundShift_mantissa x n : 0 <= n -> 2 ^ (52 + n) <= x < 2 ^ (53 + n) -> 2 ^ 52 <= roundShift x n <= 2 ^ 53.
Proof.
  intros Hn Hx. pose proof (Z.pow_pos_nonneg 2 n ltac:(lia) Hn). rewrite !Z.pow_add_r in Hx by lia.
  rewrite <-(roundShift_multiple (2 ^ 52) n), <-(roundShift_multiple (2 ^ 53) n) by done. split; apply roundShift_mono; lia.
Qed.

Lemma round_aux_exact p e : 52 <= Z.log2 (Z.pos p) -> -200 <= e -> e + Z.log2 (Z.pos p) - 52 <= 200 ->
  normalOf (e + Z.log2 (Z.pos p) - 52) (e + Z.log2 (Z.pos p) - 51) (binary_round_aux 53 1024 false (Z.pos p) e loc_Exact) (rounded (Z.pos p * 2 ^ (e + scale))).
Proof.
  intros Hd He Hn. pose proof (Z.log2_spec (Z.pos p) ltac:(lia)) as Hs. set (n := Z.log2 (Z.pos p) - 52) in *.
  change (binary_round_aux 53 1024 false (Z.pos p) e loc_Exact) with
    (let '(mrs', e') := shr_fexp 53 1024 (Z.pos p) e loc_Exact in renormal (round_nearest_even (shr_m mrs') (loc_of_shr_record mrs')) e').
  unfold shr_fexp. cbn [Zdigits2]. rewrite Zdigits2_log2. replace (fexp 53 1024 (Z.log2 (Z.pos p) + 1 + e) - e) with n by (unfold fexp, emin; lia).
  cbn [shr_record_of_loc]. rewrite shr_shifted, round_shifted by lia.
  assert (Hm : 2 ^ 52 <= roundShift (Z.pos p) n <= 2 ^ 53) by (apply roundShift_mantissa; [lia|]; replace (52 + n) with (Z.log2 (Z.pos p)) by lia; replace (53 + n) with (Z.succ (Z.log2 (Z.pos p))) by lia; done).
  pose proof (renormal_ok (roundShift (Z.pos p) n) (e + n) Hm ltac:(lia)) as Hr.
  replace (rounded (Z.pos p * 2 ^ (e + scale))) with (roundShift (Z.pos p) n * 2 ^ (e + n + scale)); [by replace (e + Z.log2 (Z.pos p) - 52) with (e + n) by lia; replace (e + Z.log2 (Z.pos p) - 51) with (e + n + 1) by lia|].
  unfold rounded. rewrite Z.log2_mul_pow2 by (unfold scale; lia). replace (e + scale + Z.log2 (Z.pos p) - 52) with (n + (e + scale)) by lia.
  rewrite roundShift_scale by (unfold scale; lia). do 2 f_equal. lia.
Qed.

Lemma normalOf_weaken lo hi lo' hi' f v : lo' <= lo -> hi <= hi' -> normalOf lo hi f v -> normalOf lo' hi' f v.
Proof. intros Hl Hh (m & e & Ef & Hm & He & Hv). exists m, e. split; [done|]. split; [done|]. split; [lia|done]. Qed.

Lemma rounded_mono x y : 52 <= Z.log2 x -> x <= y -> rounded x <= rounded y.
Proof.
  intros Hd Hxy. assert (Hx : 0 < x) by (destruct (Z.lt_ge_cases 0 x); [done|]; rewrite Z.log2_nonpos in Hd by done; lia).
  pose proof (Z.log2_le_mono x y Hxy) as Hl. pose proof (Z.log2_spec x Hx) as Sx. pose proof (Z.log2_spec y ltac:(lia)) as Sy. unfold rounded.
  destruct (Z.eq_dec (Z.log2 x) (Z.log2 y)) as [E|Ne]; [rewrite E; apply Z.mul_le_mono_nonneg_r; [apply Z.pow_nonneg; lia|apply roundShift_mono; lia]|].
  transitivity (2 ^ (Z.log2 x + 1)); [|transitivity (2 ^ Z.log2 y); [apply Z.pow_le_mono_r; lia|]].
  - replace (Z.log2 x + 1) with (53 + (Z.log2 x - 52)) by lia. rewrite Z.pow_add_r by lia. apply Z.mul_le_mono_nonneg_r; [apply Z.pow_nonneg; lia|].
    apply roundShift_mantissa; [lia|]. replace (52 + (Z.log2 x - 52)) with (Z.log2 x) by lia. by replace (53 + (Z.log2 x - 52)) with (Z.succ (Z.log2 x)) by lia.
  - replace (Z.log2 y) with (52 + (Z.log2 y - 52)) at 1 by lia. rewrite Z.pow_add_r by lia. apply Z.mul_le_mono_nonneg_r; [apply Z.pow_nonneg; lia|].
    apply roundShift_mantissa; [lia|]. replace (52 + (Z.log2 y - 52)) with (Z.log2 y) by lia. by replace (53 + (Z.log2 y - 52)) with (Z.succ (Z.log2 y)) by lia.
Qed.

Lemma rounded_scale x t : 52 <= Z.log2 x -> 0 <= t -> rounded (x * 2 ^ t) = rounded x * 2 ^ t.
Proof.
  intros Hd Ht. assert (Hx : 0 < x) by (destruct (Z.lt_ge_cases 0 x); [done|]; rewrite Z.log2_nonpos in Hd by done; lia).
  unfold rounded. rewrite Z.log2_mul_pow2 by done. replace (t + Z.log2 x - 52) with (Z.log2 x - 52 + t) by lia.
  rewrite roundShift_scale, Z.pow_add_r by lia. lia.
Qed.

(** Numbers with at most 53 bits are not changed. *)
Lemma rounded_mantissa x n : 1 <= x < 2 ^ 53 -> 52 <= n -> rounded (x * 2 ^ n) = x * 2 ^ n.
Proof.
  intros Hx Hn. pose proof (Z.log2_nonneg x). unfold rounded. rewrite Z.log2_mul_pow2 by lia.
  assert (Hl : Z.log2 x < 53) by (apply Z.log2_lt_pow2; lia). replace (x * 2 ^ n) with (x * 2 ^ (52 - Z.log2 x) * 2 ^ (n + Z.log2 x - 52)) by (rewrite <-Z.mul_assoc, <-Z.pow_add_r by lia; do 2 f_equal; lia).
  by rewrite roundShift_multiple by lia.
Qed.

(** ** The operations *)

Lemma iter_xO m p : Z.pos (Pos.iter xO m p) = Z.pos m * 2 ^ Z.pos p.
Proof.
  induction p as [|p IH] using Pos.peano_ind; [simpl; lia|]. rewrite Pos.iter_succ. change (Z.pos (Pos.iter xO m p)~0) with (2 * Z.pos (Pos.iter xO m p)).
  rewrite IH, Pos2Z.inj_succ, Z.pow_succ_r by lia. lia.
Qed.

Lemma toDouble_ok x : 1 <= x < 2 ^ 53 -> normalOf (-52) 1 (toDouble x) (x * 2 ^ scale).
Proof.
  intros Hx. destruct x as [|m|m]; [lia| |lia]. unfold toDouble. cbn [binary_normalize]. unfold binary_round, shl_align. rewrite Zdigits2_log2.
  pose proof (Z.log2_nonneg (Z.pos m)). assert (Hl : Z.log2 (Z.pos m) < 53) by (apply Z.log2_lt_pow2; lia).
  replace (fexp 53 1024 (Z.log2 (Z.pos m) + 1 + 0)) with (Z.log2 (Z.pos m) - 52) by (unfold fexp, emin; lia). rewrite Z.sub_0_r.
  rewrite <-(rounded_mantissa (Z.pos m) scale) by (unfold scale; lia). destruct (Z.log2 (Z.pos m) - 52) as [|q|q] eqn:Eq; [|lia|].
  - eapply normalOf_weaken; [| |apply (round_aux_exact m 0)]; lia.
  - set (m' := Pos.iter xO m q). assert (Em : Z.pos m' = Z.pos m * 2 ^ Z.pos q) by apply iter_xO.
    assert (El : Z.log2 (Z.pos m') = 52) by (rewrite Em, Z.log2_mul_pow2 by lia; lia).
    replace (Z.pos m * 2 ^ scale) with (Z.pos m' * 2 ^ (Z.neg q + scale)) by (rewrite Em, <-Z.mul_assoc, <-Z.pow_add_r by (unfold scale; lia); do 2 f_equal; unfold scale; lia).
    eapply normalOf_weaken; [| |apply (round_aux_exact m' (Z.neg q))]; lia.
Qed.

(** The product is the rounded exact product. *)
Lemma SFmul_ok f g u v : normalOf (-52) 1 f u -> normalOf (-107) 50 g v ->
  exists w, normalOf (-200) 200 (SFmul 53 1024 f g) w /\ w * 2 ^ scale = rounded (u * v).
Proof.
  intros (m1 & e1 & -> & Hm1 & He1 & ->) (m2 & e2 & -> & Hm2 & He2 & ->). cbn [SFmul xorb].
  assert (Hp : 2 ^ 104 <= Z.pos (m1 * m2) < 2 ^ 106) by (rewrite Pos2Z.inj_mul; change (2 ^ 104) with (2 ^ 52 * 2 ^ 52); change (2 ^ 106) with (2 ^ 53 * 2 ^ 53); nia).
  assert (H1 : 104 <= Z.log2 (Z.pos (m1 * m2))) by (apply Z.log2_le_pow2; lia). assert (H2 : Z.log2 (Z.pos (m1 * m2)) < 106) by (apply Z.log2_lt_pow2; lia).
  exists (rounded (Z.pos (m1 * m2) * 2 ^ (e1 + e2 + scale))). split; [eapply normalOf_weaken; [| |apply round_aux_exact]; lia|].
  rewrite <-rounded_scale by (rewrite ?Z.log2_mul_pow2 by (unfold scale; lia); unfold scale; lia). f_equal.
  rewrite Pos2Z.inj_mul, <-Z.mul_assoc, <-Z.pow_add_r by (unfold scale; lia).
  replace (e1 + e2 + scale + scale) with ((e1 + scale) + (e2 + scale)) by lia. rewrite (Z.pow_add_r 2 (e1 + scale)) by (unfold scale; lia). lia.
Qed.

Lemma toUint64_ok lo hi f v : -200 <= lo -> normalOf lo hi f v -> v / 2 ^ scale < 2 ^ 64 -> toUint64 f = Some (v / 2 ^ scale).
Proof.
  intros Hlo (m & e & -> & Hm & He & ->) Hv. unfold toUint64.
  assert (E : Z.shiftl (Z.pos m) e = Z.pos m * 2 ^ (e + scale) / 2 ^ scale).
  { destruct (Z.le_gt_cases 0 e); [rewrite Z.shiftl_mul_pow2, Z.pow_add_r, Z.mul_assoc, Z.div_mul by (unfold scale; lia); done|].
    rewrite <-(Z.opp_involutive e) at 1. rewrite Z.shiftl_opp_r, Z.shiftr_div_pow2 by lia.
    replace (2 ^ scale) with (2 ^ (- e) * 2 ^ (e + scale)) by (rewrite <-Z.pow_add_r by (unfold scale; lia); f_equal; lia).
    rewrite Z.div_mul_cancel_r by (apply Z.pow_nonzero; unfold scale; lia). done. }
  rewrite E. destruct (Z.ltb_spec (Z.pos m * 2 ^ (e + scale) / 2 ^ scale) (2 ^ 64)); [done|lia].
Qed.

(** The record a division hands to the rounding: rounding and sticky bit of the remainder. *)
Lemma new_location_record D r q : 0 <= r < D ->
  shr_record_of_loc q (new_location D r) = {| shr_m := q; shr_r := D <=? 2 * r; shr_s := negb (r =? 0) && negb (2 * r =? D) |}.
Proof.
  intros Hr. unfold new_location, new_location_even, new_location_odd. destruct (Z.even D) eqn:Ev; destruct (Z.eqb_spec r 0) as [->|N0]; try (destruct (Z.leb_spec D (2 * 0)); [lia|done]).
  - destruct (Z.compare_spec (2 * r) D), (Z.leb_spec D (2 * r)), (Z.eqb_spec (2 * r) D); done || lia.
  - assert (2 * r <> D) by (intros <-; by rewrite Z.even_mul in Ev).
    destruct (Z.compare_spec (2 * r + 1) D), (Z.leb_spec D (2 * r)), (Z.eqb_spec (2 * r) D); done || lia.
Qed.

Lemma round_quotient D r q n : 0 <= r < D -> n = 0 \/ n = 1 -> 2 ^ (52 + n) <= q < 2 ^ (53 + n) -> forall e, exists mrs,
  shr (shr_record_of_loc q (new_location D r)) e n = (mrs, e + n) /\
  let M := round_nearest_even (shr_m mrs) (loc_of_shr_record mrs) in 2 ^ 52 <= M <= 2 ^ 53 /\ 2 * M * 2 ^ n * D <= 2 * (q * D + r) + 2 ^ n * D.
Proof.
  intros Hr Hn Hq e. rewrite new_location_record by done. destruct Hn as [-> | ->].
  - eexists. split; [cbn [shr]; by rewrite Z.add_0_r|]. change (52 + 0) with 52 in Hq. change (53 + 0) with 53 in Hq. change (2 ^ 0) with 1. cbn [shr_m loc_of_shr_record].
    destruct (Z.leb_spec D (2 * r)), (Z.eqb_spec r 0), (Z.eqb_spec (2 * r) D); cbn [negb andb round_nearest_even]; [..|destruct (Z.even q)| |]; try (split; [lia|nia]).
    all: try (destruct (Z.even q); split; [lia|nia| |]); try lia; try nia.
  - eexists. split; [cbn [shr SpecFloat.iter_pos]; by rewrite shr_1_div by lia|]. change (52 + 1) with 53 in Hq. change (53 + 1) with 54 in Hq. change (2 ^ 1) with 2.
    pose proof (Z.div2_odd q) as Hd. rewrite Z.div2_div in Hd. set (h := q / 2) in *. cbn [shr_m loc_of_shr_record].
    assert (Hh : 2 ^ 52 <= h < 2 ^ 53) by (destruct (Z.odd q); simpl Z.b2z in Hd; lia).
    destruct (Z.odd q); simpl Z.b2z in Hd; destruct (_ || _) eqn:Eo; cbn [round_nearest_even]; [|destruct (Z.even h)| |]; (split; [lia|]); nia.
Qed.

(** The quotient is at most one unit in the last place of 53 bits above the exact one. *)
Lemma SFdiv_ok f g u v : normalOf (-52) 1 f u -> normalOf (-52) 1 g v ->
  exists w, normalOf (-107) 50 (SFdiv 53 1024 f g) w /\ 2 ^ 53 * (w * v) <= (2 ^ 53 + 1) * (u * 2 ^ scale).
Proof.
  intros (m1 & e1 & -> & Hm1 & He1 & ->) (m2 & e2 & -> & Hm2 & He2 & ->). cbn [SFdiv xorb]. unfold SFdiv_core_binary. cbn [Zdigits2].
  rewrite !(digits_bounds 52) by (change (52 + 1) with 53; lia). replace (Z.min (fexp 53 1024 (52 + 1 + e1 - (52 + 1 + e2))) (e1 - e2)) with (e1 - e2 - 53) by (unfold fexp, emin; lia).
  replace (e1 - e2 - (e1 - e2 - 53)) with 53 by lia. cbv iota. rewrite Z.shiftl_mul_pow2 by lia. set (e := e1 - e2 - 53).
  pose proof (Z_div_mod (Z.pos m1 * 2 ^ 53) (Z.pos m2) ltac:(lia)) as Hdm. destruct (Z.div_eucl (Z.pos m1 * 2 ^ 53) (Z.pos m2)) as [q r]. destruct Hdm as [Hx Hr].
  assert (Hq : 2 ^ 52 <= q < 2 ^ 54) by (change (2 ^ 54) with (2 * 2 ^ 53); change (2 ^ 53) with (2 * 2 ^ 52) in *; nia).
  assert (H1 : 52 <= Z.log2 q) by (apply Z.log2_le_pow2; lia). assert (H2 : Z.log2 q < 54) by (apply Z.log2_lt_pow2; lia). pose proof (Z.log2_spec q ltac:(lia)) as Hs.
  set (n := Z.log2 q - 52). destruct (round_quotient (Z.pos m2) r q n Hr ltac:(lia) ltac:(replace (52 + n) with (Z.log2 q) by lia; by replace (53 + n) with (Z.succ (Z.log2 q)) by lia) e) as (mrs & Em & HM & Hle).
  change (binary_round_aux 53 1024 false q e (new_location (Z.pos m2) r)) with
    (let '(mrs', e') := shr_fexp 53 1024 q e (new_location (Z.pos m2) r) in renormal (round_nearest_even (shr_m mrs') (loc_of_shr_record mrs')) e').
  unfold shr_fexp. destruct q as [|qp|]; [lia| |lia]. cbn [Zdigits2]. rewrite Zdigits2_log2. replace (fexp 53 1024 (Z.log2 (Z.pos qp) + 1 + e) - e) with n by (unfold fexp, emin; lia).
  rewrite Em. set (M := round_nearest_even (shr_m mrs) (loc_of_shr_record mrs)) in *.
  exists (M * 2 ^ (e + n + scale)). split; [eapply normalOf_weaken; [| |apply renormal_ok]; lia|].
  assert (Hp : 0 < 2 ^ n) by (apply Z.pow_pos_nonneg; lia).
  assert (Hb : 2 ^ n * 2 ^ 52 * Z.pos m2 <= Z.pos m1 * 2 ^ 53) by (rewrite <-Z.pow_add_r by lia; replace (n + 52) with (Z.log2 (Z.pos qp)) by lia; nia).
  assert (HE : 2 ^ 53 * (M * 2 ^ n * Z.pos m2) <= (2 ^ 53 + 1) * (Z.pos m1 * 2 ^ 53)) by (replace (Z.pos qp * Z.pos m2 + r) with (Z.pos m1 * 2 ^ 53) in Hle by lia; nia).
  assert (Hs1 : 2 ^ (e + n + scale) * 2 ^ (e2 + scale) = 2 ^ n * 2 ^ (e1 - 53 + scale + scale)) by (rewrite <-!Z.pow_add_r by (unfold scale; lia); f_equal; lia).
  assert (Hs2 : 2 ^ (e1 + scale) * 2 ^ scale = 2 ^ 53 * 2 ^ (e1 - 53 + scale + scale)) by (rewrite <-!Z.pow_add_r by (unfold scale; lia); f_equal; lia).
  pose proof (Z.pow_pos_nonneg 2 (e1 - 53 + scale + scale) ltac:(lia) ltac:(unfold scale; lia)) as Hp2. set (P := 2 ^ (e1 - 53 + scale + scale)) in *. clearbody P.
  replace (M * 2 ^ (e + n + scale) * (Z.pos m2 * 2 ^ (e2 + scale))) with (M * 2 ^ n * Z.pos m2 * P) by (transitivity (M * Z.pos m2 * (2 ^ (e + n + scale) * 2 ^ (e2 + scale))); [rewrite Hs1|]; ring).
  replace (Z.pos m1 * 2 ^ (e1 + scale) * 2 ^ scale) with (Z.pos m1 * 2 ^ 53 * P) by (transitivity (Z.pos m1 * (2 ^ (e1 + scale) * 2 ^ scale)); [rewrite Hs2|]; ring).
  nia.
Qed.
