(* ===== verification/DomainDecomp.v ===== *)
(** * Domain decomposition

    [cstone/domain/domaindecomp.hpp]: assignment of the space-filling curve to ranks and the
    index ranges derived from it.  The bin boundaries are computed in double precision
    ([Doubles]); [targetCount_spec] shows that these targets are in order and at most the total. *)

From Stdlib Require Import SpecFloat.
From S2P Require Import Prelude Primitives SfcCommon Csarray CsInvariant CsRebalance IndexRanges Doubles.

(** [uint64_t targetCount = i * (double(total) / numBins)]. *)
Definition targetCount (total numBins i : Z) : option Z :=
  toUint64 (SFmul 53 1024 (toDouble i) (SFdiv 53 1024 (toDouble total) (toDouble numBins))).

(** ** uniformBins *)

(** [countScan]: a zero followed by the inclusive 64-bit scan of the counts. *)
Definition countScan (counts : list Z) : list Z :=
  exclusive_scan_with (fun a b => u64 (a + b)) 0 (counts ++ [0]).

Definition uniformBins (counts bins binCounts : list Z) : option (list Z * list Z) :=
  let scan := countScan counts in
  let numBins := zlen bins - 1 in
  let? total := scan.[zlen scan - 1] in
  let? bins := aset bins 0 0 in
  let? bins := aset bins numBins (zlen counts) in
  let? bins := for_loop 1 numBins (fun i bins =>
    let? target := targetCount total numBins i in
    let? it := lower_bound scan 0 (zlen scan) target in
    aset bins i it) bins in
  let? binCounts := for_loop 1 numBins (fun i binCounts =>
    let? b := bins.[i] in
    let? a := bins.[i - 1] in
    let? sb := scan.[b] in
    let? sa := scan.[a] in
    aset binCounts (i - 1) (u32 (u64 (sb - sa)))) binCounts in
  let? b := bins.[numBins - 1] in
  let? sb := scan.[b] in
  let? binCounts := aset binCounts (zlen binCounts - 1) (u32 (u64 (total - sb))) in
  Some (bins, binCounts).

(** ** SfcAssignment *)

Record SfcAssignment := mkSfcAssignment {
  rankBoundaries_ : list Z;
  counts_ : list Z;
  numNodesPerRank_ : list Z;
  treeOffsets_ : list Z
}.

Definition newSfcAssignment (numRanks : Z) : SfcAssignment :=
  mkSfcAssignment (replicate (Z.to_nat (numRanks + 1)) 0) (replicate (Z.to_nat numRanks) 0)
    (replicate (Z.to_nat numRanks) 0) (replicate (Z.to_nat (numRanks + 1)) 0).

Definition setRank (rank a count : Z) (s : SfcAssignment) : option SfcAssignment :=
  let? b := aset (rankBoundaries_ s) rank a in
  if rank <? zlen (counts_ s) then
    let? c := aset (counts_ s) rank count in
    Some (mkSfcAssignment b c (numNodesPerRank_ s) (treeOffsets_ s))
  else Some (mkSfcAssignment b (counts_ s) (numNodesPerRank_ s) (treeOffsets_ s)).

Definition assignmentRanks (s : SfcAssignment) : Z := zlen (rankBoundaries_ s) - 1.

Definition findRank (s : SfcAssignment) (key : Z) : option Z :=
  let? it := upper_bound (rankBoundaries_ s) 0 (zlen (rankBoundaries_ s)) key in Some (it - 1).

Definition makeSfcAssignment (numRanks : Z) (counts tree : list Z) : option SfcAssignment :=
  let ret := newSfcAssignment numRanks in
  let? (offsets, binCounts) := uniformBins counts (treeOffsets_ ret) (counts_ ret) in
  let? boundaries := gather offsets tree (rankBoundaries_ ret) in
  let? nodes := for_loop 0 numRanks (fun i nodes =>
    let? b := offsets.[i + 1] in
    let? a := offsets.[i] in
    aset nodes i (b - a)) (numNodesPerRank_ ret) in
  Some (mkSfcAssignment boundaries binCounts nodes offsets).

(** ** Index ranges *)

(** Iteration [rank]; the searches range over the whole key array. *)
Definition translateRank (s : SfcAssignment) (focusTree : list Z) (rank : Z) : option IndexPair :=
  let? a := (rankBoundaries_ s).[rank] in
  let? b := (rankBoundaries_ s).[rank + 1] in
  let? startIndex := findNodeAbove focusTree (zlen focusTree) a in
  let? endIndex := findNodeBelow focusTree (zlen focusTree) b in
  Some (mkIndexPair startIndex (if endIndex <? startIndex then startIndex else endIndex)).

Definition translateAssignment (s : SfcAssignment) (focusTree : list Z) : option (list IndexPair) :=
  mapM_range 0 (assignmentRanks s) (translateRank s focusTree).

(** Lexicographic order of [std::tuple]. *)
Definition pair_ltb (p q : IndexPair) : bool :=
  (start p <? start q) || ((start p =? start q) && (end_ p <? end_ q)).

Fixpoint insertPair (p : IndexPair) (l : list IndexPair) : list IndexPair :=
  match l with
  | [] => [p]
  | q :: l => if pair_ltb q p then q :: insertPair p l else p :: q :: l
  end.

Fixpoint sortPairs (l : list IndexPair) : list IndexPair :=
  match l with [] => [] | p :: l => insertPair p (sortPairs l) end.

Definition extractPeerRanges (peers : list Z) (myRank : Z) (focusAssignment : list IndexPair) : option (list IndexPair) :=
  let ranges := replicate (length peers + 1) (mkIndexPair 0 0) in
  let? ranges := gather peers focusAssignment ranges in
  let? mine := focusAssignment.[myRank] in
  let? ranges := aset ranges (zlen ranges - 1) mine in
  Some (sortPairs ranges).

Definition createSendRanges (s : SfcAssignment) (particleKeys : list Z) : option (list Z) :=
  for_loop 0 (assignmentRanks s + 1) (fun rank ret =>
    let? rangeStart := (rankBoundaries_ s).[rank] in
    let? it := lower_bound particleKeys 0 (zlen particleKeys) rangeStart in
    aset ret rank (u32 it)) (replicate (Z.to_nat (assignmentRanks s + 1)) 0).

Definition shiftSendRanges (ranges : list Z) (thisRank numIncoming : Z) : option (list Z) :=
  for_loop (thisRank + 1) (numRanks ranges + 1) (fun rank ranges =>
    let? v := ranges.[rank] in aset ranges rank (u32 (v + numIncoming))) ranges.

Definition initialDomainSplits (k : KeyType) (numRanks level : Z) : option (list Z) :=
  let delta := nodeRange k 0 / numRanks in
  let? ret := aset (replicate (Z.to_nat (numRanks + 1)) 0) 0 0 in
  let? ret := for_loop 1 numRanks (fun i ret => aset ret i (enclosingBoxCode k (kwrap k (kwrap k i * delta)) level)) ret in
  aset ret (zlen ret - 1) (nodeRange k 0).

(** ** Valid assignments *)

(** The ranks' key ranges are in order and cover the curve. *)
Record validAssignment (k : KeyType) (s : SfcAssignment) : Prop := {
  va_ranks : 1 <= assignmentRanks s;
  va_sorted : zsorted (rankBoundaries_ s);
  va_first : (rankBoundaries_ s).[0] = Some 0;
  va_last : (rankBoundaries_ s).[assignmentRanks s] = Some (keyMax k)
}.

Section Assignment.
Context (k : KeyType) (s : SfcAssignment).
Hypothesis Hs : validAssignment k s.

Local Abbreviation B := (nthz (rankBoundaries_ s)).
Local Abbreviation nR := (assignmentRanks s).

Lemma boundary_get r : 0 <= r <= nR -> (rankBoundaries_ s).[r] = Some (B r).
Proof using. intros. apply nthz_get. unfold assignmentRanks in *. lia. Qed.

Lemma boundary_mono r r' : 0 <= r <= r' -> r' <= nR -> B r <= B r'.
Proof using Hs. intros Hr Hr'. apply (va_sorted _ _ Hs r r'); [lia|apply boundary_get; lia..]. Qed.

Lemma boundary_ends : B 0 = 0 /\ B nR = keyMax k.
Proof using Hs. split; apply nthz_Some, Hs. Qed.

(** [findRank] returns the rank whose key range contains the key. *)
Lemma findRank_iff key r :
  0 <= r < nR -> findRank s key = Some r <-> B r <= key < B (r + 1).
Proof using Hs.
  intros Hr. unfold findRank. pose proof (va_ranks _ _ Hs). unfold assignmentRanks in *.
  destruct (upper_bound_sorted (rankBoundaries_ s) 0 (zlen (rankBoundaries_ s)) (va_sorted _ _ Hs) ltac:(lia) ltac:(lia) key) as (m & -> & Hm & Hlo & Hhi).
  split.
  - intros [= <-]. rewrite Z.sub_add. split; [apply (Hlo (m - 1)); [lia|]|apply (Hhi m); [lia|]]; apply nthz_get; lia.
  - intros [H1 H2]. f_equal. destruct (Z.lt_ge_cases r m) as [Hlt|Hge].
    + destruct (Z.lt_ge_cases (r + 1) m) as [Hlt'|]; [|lia].
      pose proof (Hlo (r + 1) (B (r + 1)) ltac:(lia) (nthz_get (rankBoundaries_ s) (r + 1) ltac:(lia))). lia.
    + pose proof (Hhi r (B r) ltac:(lia) (nthz_get (rankBoundaries_ s) r ltac:(lia))). lia.
Qed.

(** Every key on the curve has a rank. *)
Lemma findRank_total key : 0 <= key < keyMax k -> exists r, 0 <= r < nR /\ findRank s key = Some r.
Proof using Hs.
  intros Hk. destruct boundary_ends as [H0 Hn]. pose proof (va_ranks _ _ Hs) as Hr1.
  assert (Hex : forall m : nat, Z.of_nat m <= nR -> key < B (Z.of_nat m) -> exists r, 0 <= r < Z.of_nat m /\ B r <= key < B (r + 1)).
  { induction m as [|m IH]; intros Hm Hlt; [change (Z.of_nat 0) with 0 in Hlt; lia|].
    destruct (Z.lt_ge_cases key (B (Z.of_nat m))) as [Hlt'|Hge].
    - destruct (IH ltac:(lia) Hlt') as (r & Hr & ?). exists r. split; [lia|done].
    - exists (Z.of_nat m). split; [lia|]. by replace (Z.of_nat m + 1) with (Z.of_nat (S m)) by lia. }
  destruct (Hex (Z.to_nat nR)) as (r & Hr & HB); [lia|rewrite Z2Nat.id by lia; lia|].
  exists r. split; [lia|]. apply findRank_iff; [lia|done].
Qed.

Lemma createSendRanges_run keys :
  zsorted keys -> zlen keys < 4294967296 ->
  createSendRanges s keys = Some ((fun r => count_lt (B r) keys) <$> seqZ 0 (nR + 1)).
Proof using Hs.
  intros Hk Hlen. pose proof (va_ranks _ _ Hs). unfold createSendRanges. apply write_loop_all.
  - unfold zlen at 1. rewrite length_replicate. lia.
  - intros r st Hr Hst. rewrite boundary_get by lia. rewrite lower_bound_count by done.
    pose proof (count_lt_range (B r) keys). by rewrite u32_small by lia.
Qed.

(** The particles of a range are those whose key [findRank] maps to the rank. *)
Lemma sendRange_iff keys p key r :
  zsorted keys -> keys.[p] = Some key -> 0 <= r < nR ->
  findRank s key = Some r <-> count_lt (B r) keys <= p < count_lt (B (r + 1)) keys.
Proof using Hs.
  intros Hk Hp Hr. rewrite findRank_iff by done. split.
  - intros [H1 H2]. split; [by eapply count_lt_le|by eapply count_lt_gt].
  - intros [H1 H2]. split.
    + destruct (Z.le_gt_cases (B r) key) as [|Hgt]; [done|]. pose proof (count_lt_gt _ Hk _ _ _ Hp Hgt). lia.
    + destruct (Z.lt_ge_cases key (B (r + 1))) as [|Hge]; [done|]. pose proof (count_lt_le _ Hk _ _ _ Hp Hge). lia.
Qed.

Lemma translateRank_spec ftree r :
  csTree k ftree -> 0 <= r < nR ->
  exists p, translateRank s ftree r = Some p /\ 0 <= start p <= end_ p /\ end_ p <= nNodes ftree /\
    forall i, 0 <= i < nNodes ftree -> start p <= i < end_ p <-> B r <= nthz ftree i /\ nthz ftree (i + 1) <= B (r + 1).
Proof using Hs.
  intros Hf Hr. unfold translateRank. rewrite !boundary_get by lia. unfold findNodeAbove, findNodeBelow.
  pose proof (treelet_nonempty _ _ _ _ Hf) as Hne. destruct boundary_ends as [H0 Hn].
  pose proof (nodes_mono_le k _ _ (cs_nodes k _ Hf)) as Hmono. unfold nNodes in *.
  assert (Hsorted : zsorted ftree).
  { intros i j x y Hij Hx Hy. pose proof (aget_Some_range _ _ _ Hx). pose proof (aget_Some_range _ _ _ Hy).
    rewrite (nthz_get ftree) in Hx, Hy by lia. injection Hx as <-. injection Hy as <-. apply Hmono; lia. }
  destruct (lower_bound_sorted ftree 0 (zlen ftree) Hsorted ltac:(lia) ltac:(lia) (B r)) as (m & -> & Hm & Hmlo & Hmhi).
  destruct (upper_bound_sorted ftree 0 (zlen ftree) Hsorted ltac:(lia) ltac:(lia) (B (r + 1))) as (u & -> & Hu & Hulo & Huhi).
  pose proof (boundary_mono 0 (r + 1) ltac:(lia) ltac:(lia)). pose proof (boundary_mono r nR ltac:(lia) ltac:(lia)).
  assert (m <= zlen ftree - 1).
  { destruct (Z.le_gt_cases m (zlen ftree - 1)) as [|Hgt]; [done|]. pose proof (Hmlo (zlen ftree - 1) (keyMax k) ltac:(lia) (treelet_last _ _ _ _ Hf)). lia. }
  assert (1 <= u).
  { destruct (Z.le_gt_cases 1 u) as [|Hgt]; [done|]. pose proof (Huhi 0 0 ltac:(lia) (treelet_first _ _ _ _ Hf)). lia. }
  eexists. split; [done|]. cbn [start end_]. split; [destruct (Z.ltb_spec (u - 1) m); lia|].
  split; [destruct (Z.ltb_spec (u - 1) m); lia|]. intros i Hi.
  pose proof (nthz_get ftree i ltac:(lia)) as Gi. pose proof (nthz_get ftree (i + 1) ltac:(lia)) as Gi1.
  assert (Ha : m <= i <-> B r <= nthz ftree i).
  { split; [intros; by apply (Hmhi i); [lia|]|]. intros Hle. destruct (Z.le_gt_cases m i); [done|]. pose proof (Hmlo i _ ltac:(lia) Gi). lia. }
  assert (Hb : i < u - 1 <-> nthz ftree (i + 1) <= B (r + 1)).
  { split; [intros; by apply (Hulo (i + 1)); [lia|]|]. intros Hle. destruct (Z.lt_ge_cases i (u - 1)); [done|]. pose proof (Huhi (i + 1) _ ltac:(lia) Gi1). lia. }
  rewrite <- Ha, <- Hb. destruct (Z.ltb_spec (u - 1) m); lia.
Qed.

Lemma translateAssignment_run ftree :
  csTree k ftree -> exists out, translateAssignment s ftree = Some out /\ zlen out = nR /\
    forall r p, out.[r] = Some p -> translateRank s ftree r = Some p.
Proof using Hs.
  intros Hf. pose proof (va_ranks _ _ Hs).
  set (g r := default (mkIndexPair 0 0) (translateRank s ftree r)).
  assert (Hg : forall r, 0 <= r < nR -> translateRank s ftree r = Some (g r)).
  { intros r Hr. unfold g. destruct (translateRank_spec ftree r Hf Hr) as (p & -> & _). done. }
  exists (g <$> seqZ 0 nR). unfold translateAssignment. rewrite (mapM_range_Some 0 nR _ g Hg), Z.sub_0_r.
  split; [done|]. split; [rewrite zlen_map, zlen_seqZ; lia|]. intros r p Hp. pose proof (aget_Some_range _ _ _ Hp) as Hr.
  rewrite zlen_map, zlen_seqZ in Hr by lia. rewrite aget_map, aget_seqZ in Hp by lia. injection Hp as <-. by apply Hg.
Qed.

End Assignment.

(** ** Bins *)

(** The target in bin [i]. *)
Definition target (total numBins i : Z) : Z := default 0 (targetCount total numBins i).

(** The double precision targets are defined, in order and at most the total. *)
Lemma targetCount_spec total numBins : 0 <= total < 2 ^ 53 -> 1 <= numBins < 2 ^ 53 ->
  (forall i, 1 <= i < numBins -> targetCount total numBins i = Some (target total numBins i) /\ target total numBins i <= total) /\
  (forall i j, 1 <= i <= j -> j < numBins -> target total numBins i <= target total numBins j).
Proof.
  intros Ht Hn. destruct (Z.eq_dec total 0) as [->|Ht0].
  - assert (E : forall i, 1 <= i < numBins -> targetCount 0 numBins i = Some 0).
    { intros i Hi. unfold targetCount. destruct (toDouble_ok numBins ltac:(lia)) as (m & e & -> & _). by destruct (toDouble_ok i ltac:(lia)) as (m' & e' & -> & _). }
    unfold target. split; [intros i Hi; rewrite E by done; simpl; split; [done|lia]|]. intros i j Hi Hj. rewrite !E by lia. done.
  - destruct (SFdiv_ok _ _ _ _ (toDouble_ok total ltac:(lia)) (toDouble_ok numBins ltac:(lia))) as (v & Hv & Hle).
    pose proof (Z.pow_pos_nonneg 2 scale ltac:(lia) ltac:(unfold scale; lia)) as Hs.
    assert (Hc : 2 ^ 53 * (v * numBins) <= (2 ^ 53 + 1) * (total * 2 ^ scale)).
    { apply (Z.mul_le_mono_pos_r _ _ (2 ^ scale) Hs). rewrite <-!Z.mul_assoc in *. exact Hle. }
    assert (Hvl : 52 <= Z.log2 v) by (destruct Hv as (m & e & _ & Hm & He & ->); rewrite Z.log2_mul_pow2 by (unfold scale; lia); pose proof (Z.log2_nonneg (Z.pos m)); unfold scale; lia).
    assert (Hv0 : 0 < v) by (destruct (Z.lt_ge_cases 0 v); [done|]; rewrite Z.log2_nonpos in Hvl by done; lia).
    assert (Hl : forall i, 1 <= i -> 52 <= Z.log2 (i * v)) by (intros i Hi; etransitivity; [exact Hvl|]; apply Z.log2_le_mono; nia).
    assert (E : forall i, 1 <= i < numBins -> targetCount total numBins i = Some (rounded (i * v) / 2 ^ scale) /\ rounded (i * v) / 2 ^ scale <= total).
    { intros i Hi. destruct (SFmul_ok _ _ _ _ (toDouble_ok i ltac:(lia)) Hv) as (w & Hw & Ew).
      replace (i * 2 ^ scale * v) with (i * v * 2 ^ scale) in Ew by ring. rewrite rounded_scale in Ew by (apply Hl || unfold scale; lia). apply Z.mul_reg_r in Ew as ->; [|lia].
      assert (Hb : i * v <= total * 2 ^ scale).
      { apply (Z.mul_le_mono_pos_l _ _ (2 ^ 53 * numBins)); [lia|]. assert (0 <= total * 2 ^ scale) by nia. assert (i * (2 ^ 53 + 1) <= 2 ^ 53 * numBins) by lia.
        transitivity (i * (2 ^ 53 + 1) * (total * 2 ^ scale)); [|by apply Z.mul_le_mono_nonneg_r].
        replace (2 ^ 53 * numBins * (i * v)) with (i * (2 ^ 53 * (v * numBins))) by ring. rewrite <-Z.mul_assoc. apply Z.mul_le_mono_nonneg_l; [lia|done]. }
      assert (Hq : rounded (i * v) / 2 ^ scale <= total).
      { rewrite <-(Z.div_mul total (2 ^ scale)) by lia. apply Z.div_le_mono; [done|]. rewrite <-(rounded_mantissa total scale) by (unfold scale; lia). apply rounded_mono; [apply Hl; lia|done]. }
      split; [|done]. unfold targetCount. apply (toUint64_ok (-200) 200); [lia|done|]. lia. }
    unfold target. split; [intros i Hi; by destruct (E i Hi) as [-> ?]|]. intros i j Hi Hj. destruct (E i ltac:(lia)) as [-> _], (E j ltac:(lia)) as [-> _]. simpl.
    apply Z.div_le_mono; [done|]. apply rounded_mono; [apply Hl; lia|nia].
Qed.

Section Bins.
Context (counts : list Z).
Hypothesis Hcounts : Forall (fun c => 0 <= c < 4294967296) counts.
Hypothesis Htotal : zsum counts < 2 ^ 53.

Local Abbreviation n := (zlen counts).

Lemma counts_nonneg : Forall (fun c => 0 <= c) counts.
Proof using Hcounts. eapply Forall_impl; [exact Hcounts|]. simpl. lia. Qed.

Lemma countScan_zlen : zlen (countScan counts) = n + 1.
Proof using. unfold countScan, zlen. rewrite exclusive_scan_with_length, length_app. simpl. lia. Qed.

Lemma countScan_get i : 0 <= i <= n -> (countScan counts).[i] = Some (prefixSum counts i).
Proof using Hcounts Htotal.
  intros Hi. unfold countScan, u64. rewrite exclusive_scan_wrap_init by (apply counts_nonneg || lia).
  rewrite exclusive_scan_get by (rewrite zlen_app; change (zlen [0]) with 1; lia). by rewrite prefixSum_app_l by lia.
Qed.

Lemma countScan_sorted : zsorted (countScan counts).
Proof using Hcounts Htotal.
  intros i j x y Hij Hx Hy. pose proof (aget_Some_range _ _ _ Hx). pose proof (aget_Some_range _ _ _ Hy). rewrite countScan_zlen in *.
  rewrite countScan_get in Hx, Hy by lia. injection Hx as <-. injection Hy as <-. apply prefixSum_mono; [apply counts_nonneg|lia].
Qed.

(** Bin boundary [i]. *)
Definition binStart (numBins : Z) (i : Z) : Z :=
  if i <=? 0 then 0 else if i <? numBins then count_lt (target (zsum counts) numBins i) (countScan counts) else n.

Context (numBins : Z).
Hypothesis Hbins : 1 <= numBins < 2147483648.
Local Abbreviation S i := (binStart numBins i).
Local Abbreviation T i := (target (zsum counts) numBins i).

Lemma targets_ordered :
  (forall i, 1 <= i < numBins -> targetCount (zsum counts) numBins i = Some (T i) /\ T i <= zsum counts) /\
  (forall i j, 1 <= i <= j -> j < numBins -> T i <= T j).
Proof using Hcounts Htotal Hbins. apply targetCount_spec; [|lia]. split; [apply zsum_nonneg, counts_nonneg|done]. Qed.

Lemma target_position i : 1 <= i < numBins -> 0 <= count_lt (T i) (countScan counts) <= n.
Proof using Hcounts Htotal Hbins.
  intros Hi. pose proof (count_lt_range (T i) (countScan counts)) as Hr. split; [lia|].
  eapply count_lt_le; [apply countScan_sorted|apply (countScan_get n); pose proof (zlen_nonneg counts); lia|].
  rewrite prefixSum_all. by apply targets_ordered.
Qed.

Lemma binStart_range i : 0 <= S i <= n.
Proof using Hcounts Htotal Hbins.
  unfold binStart. pose proof (zlen_nonneg counts). destruct (Z.leb_spec i 0); [lia|].
  destruct (Z.ltb_spec i numBins); [apply target_position; lia|lia].
Qed.

Lemma binStart_mono i j : i <= j -> S i <= S j.
Proof using Hcounts Htotal Hbins.
  intros Hij. pose proof (binStart_range i). pose proof (binStart_range j). unfold binStart in *.
  destruct (Z.leb_spec i 0), (Z.leb_spec j 0), (Z.ltb_spec i numBins), (Z.ltb_spec j numBins); try lia.
  apply count_lt_mono, targets_ordered; lia.
Qed.

Local Abbreviation binArray := (binStart numBins <$> seqZ 0 (numBins + 1)).

Lemma binArray_get i : 0 <= i <= numBins -> binArray.[i] = Some (S i).
Proof using. intros Hi. by rewrite aget_map, aget_seqZ by lia. Qed.

Lemma binStart_end : S numBins = n.
Proof using Hbins. unfold binStart. destruct (Z.leb_spec numBins 0); [lia|]. by rewrite Z.ltb_irrefl. Qed.

Lemma bin_count i : 0 <= prefixSum counts (S (i + 1)) - prefixSum counts (S i) <= zsum counts.
Proof using Hcounts Htotal Hbins.
  pose proof (binStart_range i). pose proof (binStart_range (i + 1)). pose proof (binStart_mono i (i + 1) ltac:(lia)).
  pose proof (prefixSum_mono counts (S i) (S (i + 1)) counts_nonneg ltac:(lia)).
  pose proof (prefixSum_mono counts (S (i + 1)) n counts_nonneg ltac:(lia)). pose proof (prefixSum_nonneg counts (S i) counts_nonneg).
  rewrite prefixSum_all in *. lia.
Qed.

Lemma bins_loop bins :
  zlen bins = numBins + 1 -> bins.[0] = Some 0 -> bins.[numBins] = Some n ->
  for_loop 1 numBins (fun i bins =>
    let? target := targetCount (zsum counts) numBins i in
    let? it := lower_bound (countScan counts) 0 (zlen (countScan counts)) target in
    aset bins i it) bins = Some binArray.
Proof using Hcounts Htotal Hbins.
  intros Hb Hfirst Hlast.
  match goal with |- for_loop _ _ ?body _ = _ =>
    destruct (write_loop_range body (binStart numBins) 1 numBins (numBins + 1) bins) as (b2 & -> & Hb2 & Hin & Hout) end; [done|lia|lia| |].
  - intros i st Hi Hst. destruct (proj1 targets_ordered i Hi) as [-> _]. rewrite lower_bound_count by apply countScan_sorted.
    f_equal. unfold binStart. destruct (Z.leb_spec i 0); [lia|]. destruct (Z.ltb_spec i numBins); [done|lia].
  - f_equal. apply list_eq_aget; [rewrite zlen_map, zlen_seqZ; lia|]. intros i Hi. rewrite binArray_get by lia.
    destruct (decide (1 <= i < numBins)); [by apply Hin|]. rewrite Hout by done.
    destruct (decide (i = numBins)) as [->|]; [by rewrite binStart_end|]. by assert (i = 0) as -> by lia.
Qed.

Lemma binCounts_loop binCounts :
  zlen binCounts = numBins ->
  exists c, for_loop 1 numBins (fun i binCounts =>
      let? b := binArray.[i] in
      let? a := binArray.[i - 1] in
      let? sb := (countScan counts).[b] in
      let? sa := (countScan counts).[a] in
      aset binCounts (i - 1) (u32 (u64 (sb - sa)))) binCounts = Some c /\ zlen c = numBins /\
    forall i, 0 <= i < numBins - 1 -> c.[i] = Some (u32 (prefixSum counts (S (i + 1)) - prefixSum counts (S i))).
Proof using Hcounts Htotal Hbins.
  intros Hc. change (2 ^ 64) with 18446744073709551616 in Htotal.
  match goal with |- context [for_loop 1 numBins ?b binCounts] => set (body := b) end.
  destruct (write_loop_range (fun j => body (j + 1)) (fun i => u32 (prefixSum counts (S (i + 1)) - prefixSum counts (S i))) 0 (numBins - 1) numBins binCounts)
    as (c & E & Hz & Hin & _); [done|lia|lia| |].
  - intros i st Hi Hst. unfold body. rewrite Z.add_simpl_r, !binArray_get by lia. rewrite !countScan_get by apply binStart_range.
    rewrite u64_small; [done|]. pose proof (bin_count i). lia.
  - exists c. split; [|done]. rewrite <- (for_loop_shift 1 0 (numBins - 1) body) in E.
    by replace (numBins - 1 + 1) with numBins in E by lia.
Qed.

Lemma uniformBins_run bins binCounts :
  zlen bins = numBins + 1 -> zlen binCounts = numBins ->
  uniformBins counts bins binCounts =
    Some (binArray, (fun i => u32 (prefixSum counts (S (i + 1)) - prefixSum counts (S i))) <$> seqZ 0 numBins).
Proof using Hcounts Htotal Hbins.
  intros Hb Hc. unfold uniformBins. pose proof (zlen_nonneg counts).
  rewrite countScan_zlen, Z.add_simpl_r, (countScan_get n), prefixSum_all by lia. rewrite Hb, Z.add_simpl_r.
  pose proof (aset_Some bins 0 0 ltac:(lia)) as E0. rewrite E0. set (b0 := <[_ := _]> bins) in *.
  assert (Hb0 : zlen b0 = numBins + 1) by (rewrite <- Hb; by eapply aset_zlen).
  pose proof (aset_Some b0 numBins n ltac:(lia)) as E1. rewrite E1. rewrite <- countScan_zlen, bins_loop.
  - destruct (binCounts_loop binCounts Hc) as (c & -> & Hz & Hin). rewrite binArray_get by lia.
    rewrite countScan_get by apply binStart_range. rewrite Hz.
    pose proof (aset_Some c (numBins - 1) (u32 (u64 (zsum counts - prefixSum counts (S (numBins - 1))))) ltac:(lia)) as E3. rewrite E3.
    do 2 f_equal. apply list_eq_aget; [rewrite zlen_map, zlen_seqZ, (aset_zlen _ _ _ _ E3); lia|].
    intros i Hi. rewrite (aset_zlen _ _ _ _ E3), Hz in Hi. rewrite aget_map, aget_seqZ by lia. simpl. rewrite Z.add_0_l.
    destruct (decide (i = numBins - 1)) as [->|].
    + rewrite (aget_aset_eq _ _ _ _ E3). do 2 f_equal. pose proof (bin_count (numBins - 1)) as Hd.
      rewrite Z.sub_add, binStart_end, prefixSum_all in *. rewrite u64_small; lia.
    + rewrite (aget_aset_ne _ _ i _ _ E3) by lia. apply Hin. lia.
  - by rewrite (aset_zlen _ _ _ _ E1).
  - rewrite (aget_aset_ne _ _ 0 _ _ E1) by lia. by rewrite (aget_aset_eq _ _ _ _ E0).
  - by rewrite (aget_aset_eq _ _ _ _ E1).
Qed.

(** The assignment made from a cornerstone tree. *)
Lemma makeSfcAssignment_run k tree :
  csTree k tree -> zlen counts = nNodes tree ->
  exists s, makeSfcAssignment numBins counts tree = Some s /\ assignmentRanks s = numBins /\ validAssignment k s /\
    treeOffsets_ s = binArray /\ rankBoundaries_ s = nthz tree <$> binArray /\
    counts_ s = (fun i => u32 (prefixSum counts (S (i + 1)) - prefixSum counts (S i))) <$> seqZ 0 numBins /\
    numNodesPerRank_ s = (fun i => S (i + 1) - S i) <$> seqZ 0 numBins.
Proof using Hcounts Htotal Hbins.
  intros Hcs Hlen. pose proof (treelet_nonempty _ _ _ _ Hcs). assert (Hz : zlen tree = n + 1) by (unfold nNodes in *; lia).
  unfold makeSfcAssignment, newSfcAssignment. cbn [treeOffsets_ counts_ rankBoundaries_ numNodesPerRank_].
  rewrite uniformBins_run by (unfold zlen; rewrite length_replicate; lia).
  assert (Hin : forall i o, binArray.[i] = Some o -> 0 <= o <= n).
  { intros i o Ho. pose proof (aget_Some_range _ _ _ Ho) as Hr. rewrite zlen_map, zlen_seqZ in Hr by lia.
    rewrite binArray_get in Ho by lia. injection Ho as <-. apply binStart_range. }
  rewrite (gather_correct _ tree _ (nthz tree)).
  2: { rewrite zlen_map, zlen_seqZ by lia. unfold zlen. rewrite length_replicate. lia. }
  2: { intros i o Ho%Hin. apply nthz_get. lia. }
  rewrite (drop_ge (replicate _ _)), app_nil_r by (rewrite length_replicate, length_fmap, length_seqZ; lia).
  rewrite (write_loop_all _ (fun i => S (i + 1) - S i)).
  2: { unfold zlen. rewrite length_replicate. lia. }
  2: { intros i st Hi Hst. by rewrite !binArray_get by lia. }
  eexists. split; [done|]. unfold assignmentRanks. cbn [treeOffsets_ counts_ rankBoundaries_ numNodesPerRank_].
  assert (Hr : zlen (nthz tree <$> binArray) = numBins + 1) by (rewrite !zlen_map, zlen_seqZ; lia).
  split; [lia|]. split; [|done].
  assert (Hget : forall i, 0 <= i <= numBins -> (nthz tree <$> binArray).[i] = Some (nthz tree (S i))).
  { intros i Hi. by rewrite aget_map, binArray_get by lia. }
  split; unfold assignmentRanks; cbn [rankBoundaries_]; rewrite ?Hr, ?Z.add_simpl_r.
  - lia.
  - intros i j x y Hij Hx Hy. pose proof (aget_Some_range _ _ _ Hx). pose proof (aget_Some_range _ _ _ Hy). rewrite Hr in *.
    rewrite Hget in Hx, Hy by lia. injection Hx as <-. injection Hy as <-.
    apply (nodes_mono_le k _ _ (cs_nodes k _ Hcs)); [apply binStart_range|by apply binStart_mono|].
    pose proof (binStart_range j). lia.
  - rewrite Hget by lia. f_equal. unfold binStart. simpl. apply nthz_Some. by eapply treelet_first.
  - rewrite Hget, binStart_end by lia. f_equal. apply nthz_Some. rewrite <- (treelet_last _ _ _ _ Hcs). f_equal. lia.
Qed.

End Bins.

(** ** Initial splits *)

(** Boundary [i] of the initial decomposition. *)
Definition splitKey (k : KeyType) (numRanks level i : Z) : Z :=
  if i <=? 0 then 0
  else if i <? numRanks then
    8 ^ (maxTreeLevel k - level) * (i * (keyMax k / numRanks) / 8 ^ (maxTreeLevel k - level))
  else keyMax k.

Section Splits.
Context (k : KeyType) (numRanks level : Z).
Hypothesis Hranks : 0 < numRanks.
Hypothesis Hfit : numRanks <= keyMax k.
Hypothesis Hlevel : 0 <= level <= maxTreeLevel k.

Lemma split_product i : 0 <= i <= numRanks -> 0 <= i * (keyMax k / numRanks) <= keyMax k.
Proof using Hranks.
  clear Hlevel Hfit. intros Hi. kfacts k. pose proof (Z.mul_div_le (keyMax k) numRanks Hranks). pose proof (Z.div_pos (keyMax k) numRanks ltac:(lia) Hranks). nia.
Qed.

Lemma initialDomainSplits_run : initialDomainSplits k numRanks level = Some (splitKey k numRanks level <$> seqZ 0 (numRanks + 1)).
Proof using Hranks Hfit Hlevel.
  kfacts k. unfold initialDomainSplits. rewrite nodeRange_pow8 by lia. rewrite Z.sub_0_r. change (8 ^ maxTreeLevel k) with (keyMax k).
  set (z := replicate _ _). assert (Hz : zlen z = numRanks + 1) by (unfold z, zlen; rewrite length_replicate; lia).
  pose proof (aset_Some z 0 0 ltac:(lia)) as E0. rewrite E0. set (z0 := <[_ := _]> z) in *.
  assert (Hz0 : zlen z0 = numRanks + 1) by (rewrite <- Hz; by eapply aset_zlen).
  match goal with |- context [for_loop 1 numRanks ?body z0] =>
    destruct (write_loop_range body (splitKey k numRanks level) 1 numRanks (numRanks + 1) z0) as (z1 & -> & Hz1 & Hin & Hout) end; [done|lia|lia| |].
  - intros i st Hi Hst. pose proof (split_product i ltac:(lia)). rewrite (kwrap_small k i) by lia. rewrite kwrap_small by lia.
    rewrite enclosingBoxCode_floor by lia. f_equal. unfold splitKey. destruct (Z.leb_spec i 0); [lia|]. destruct (Z.ltb_spec i numRanks); [done|lia].
  - rewrite Hz1, Z.add_simpl_r. pose proof (aset_Some z1 numRanks (keyMax k) ltac:(lia)) as E1. rewrite E1. f_equal.
    apply list_eq_aget; [rewrite zlen_map, zlen_seqZ, (aset_zlen _ _ _ _ E1); lia|]. intros i Hi. rewrite (aset_zlen _ _ _ _ E1), Hz1 in Hi.
    rewrite aget_map, aget_seqZ by lia. simpl. rewrite Z.add_0_l. destruct (decide (i = numRanks)) as [->|].
    + rewrite (aget_aset_eq _ _ _ _ E1). unfold splitKey. destruct (Z.leb_spec numRanks 0); [lia|]. by rewrite Z.ltb_irrefl.
    + rewrite (aget_aset_ne _ _ i _ _ E1) by lia. destruct (decide (1 <= i)); [apply Hin; lia|]. assert (i = 0) as -> by lia.
      rewrite Hout by lia. rewrite (aget_aset_eq _ _ _ _ E0). done.
Qed.

Lemma splitKey_mono i j : 0 <= i <= j -> j <= numRanks -> 0 <= splitKey k numRanks level i <= splitKey k numRanks level j.
Proof using Hranks Hlevel.
  intros Hi Hj. kfacts k. pose proof (pow8_pos (maxTreeLevel k - level) ltac:(lia)) as H8. unfold splitKey.
  assert (Hb : forall x, 0 <= x <= keyMax k -> 0 <= 8 ^ (maxTreeLevel k - level) * (x / 8 ^ (maxTreeLevel k - level)) <= keyMax k).
  { intros x Hx. pose proof (Z.mul_div_le x _ H8). pose proof (Z.div_pos x _ ltac:(lia) H8). nia. }
  pose proof (Hb _ (split_product i ltac:(lia))). pose proof (Hb _ (split_product j ltac:(lia))).
  destruct (Z.leb_spec i 0), (Z.leb_spec j 0), (Z.ltb_spec i numRanks), (Z.ltb_spec j numRanks); try lia.
  split; [lia|]. apply Z.mul_le_mono_nonneg_l; [lia|]. apply Z.div_le_mono; [lia|].
  pose proof (Z.div_pos (keyMax k) numRanks ltac:(lia) Hranks). nia.
Qed.

Lemma splitKey_aligned i : (8 ^ (maxTreeLevel k - level) | splitKey k numRanks level i).
Proof using Hlevel.
  unfold splitKey. destruct (Z.leb_spec i 0); [apply Z.divide_0_r|]. destruct (Z.ltb_spec i numRanks); [apply Z.divide_factor_l|].
  exists (8 ^ level). unfold keyMax. rewrite <- Z.pow_add_r by lia. f_equal. lia.
Qed.

End Splits.
