(* ===== verification/Layout.v ===== *)
(** * Particle buffer layout

    [cstone/domain/layout.hpp]: complements and enumerations of index ranges, extraction of
    marked ranges, offsets of the leaves in the particle buffers, and reordering. *)

From S2P Require Import Prelude Primitives SfcCommon IndexRanges.

(** ** Ranges *)

(** One range of [invertRanges]; [None] where the assertion fails. *)
Definition invertStep (range : IndexPair) (st : Z * list IndexPair) : option (Z * list IndexPair) :=
  let '(currentIndex, invertedRanges) := st in
  if start range =? end_ range then Some st
  else if currentIndex <=? start range then
    Some (end_ range,
          if currentIndex <? start range then invertedRanges ++ [mkIndexPair currentIndex (start range)] else invertedRanges)
  else None.

Definition invertRanges (first : Z) (ranges : list IndexPair) (last : Z) : option (list IndexPair) :=
  let? (currentIndex, invertedRanges) := foldM invertStep ranges (first, []) in
  Some (if currentIndex <? last then invertedRanges ++ [mkIndexPair currentIndex last] else invertedRanges).

(** [std::iota] over [n] cells from [pos]. *)
Definition iota (pos n value : Z) (dst : list Z) : option (list Z) :=
  for_loop 0 n (fun j dst => aset dst (pos + j) (value + j)) dst.

Definition enumerateRanges (ranges : list IndexPair) : option (list Z) :=
  let rangeCounts := exclusive_scan 0 ((count <$> ranges) ++ [0]) in
  let? total := rangeCounts.[zlen rangeCounts - 1] in
  for_loop 0 (zlen ranges) (fun i ret =>
    let? pos := rangeCounts.[i] in
    let? r := ranges.[i] in
    iota pos (count r) (start r) ret) (replicate (Z.to_nat total) 0).

(** ** extractMarkedElements *)

(** [while (first < second && flags[first + 1] == flags[first]) first++]. *)
Fixpoint skipUnmarked (fuel : nat) (flags : list Z) (first second : Z) : option Z :=
  match fuel with
  | O => None
  | S fuel =>
      if first <? second then
        let? b := flags.[first + 1] in
        let? a := flags.[first] in
        if b =? a then skipUnmarked fuel flags (first + 1) second else Some first
      else Some first
  end.

(** [while (first < second && flags[first + 1] > flags[first]) first++]. *)
Fixpoint skipMarked (fuel : nat) (flags : list Z) (first second : Z) : option Z :=
  match fuel with
  | O => None
  | S fuel =>
      if first <? second then
        let? b := flags.[first + 1] in
        let? a := flags.[first] in
        if a <? b then skipMarked fuel flags (first + 1) second else Some first
      else Some first
  end.

Fixpoint extractLoop (fuel : nat) (source flags : list Z) (firstReqIdx secondReqIdx : Z) (requestKeys : list Z) :
    option (list Z) :=
  match fuel with
  | O => None
  | S fuel =>
      if firstReqIdx =? secondReqIdx then Some requestKeys
      else
        let? first := skipUnmarked (S (Z.to_nat (secondReqIdx - firstReqIdx))) flags firstReqIdx secondReqIdx in
        if first =? secondReqIdx then extractLoop fuel source flags first secondReqIdx requestKeys
        else
          let? a := source.[first] in
          let? last := skipMarked (S (Z.to_nat (secondReqIdx - first))) flags first secondReqIdx in
          let? b := source.[last] in
          extractLoop fuel source flags last secondReqIdx (requestKeys ++ [a; b])
  end.

Definition extractMarkedElements (fuel : nat) (source flags : list Z) (firstReqIdx secondReqIdx : Z) : option (list Z) :=
  extractLoop fuel source flags firstReqIdx secondReqIdx [].

(** ** computeNodeLayout *)

(** Iteration [i]; [-int(b) & c] is [c] or 0. *)
Definition layoutEntry (focusLeafCounts flags leafToInternal : list Z) (idx : IndexPair) (i : Z) : option Z :=
  let? c := focusLeafCounts.[i] in
  if (start idx <=? i) && (i <? end_ idx) then Some (u32 (Z.land (-1) c))
  else
    let? j := leafToInternal.[i] in
    let? f := flags.[j] in
    Some (u32 (Z.land (- Z.b2z (negb (f =? 0))) c)).

Definition computeNodeLayout (focusLeafCounts flags leafToInternal : list Z) (idx : IndexPair) (layout : list Z) : option (list Z) :=
  let? layout := for_loop 0 (zlen focusLeafCounts) (fun i layout =>
    let? v := layoutEntry focusLeafCounts flags leafToInternal idx i in aset layout i v) layout in
  Some (exclusive_scan_u32 0 layout).

(** ** checkLayout *)

Definition checkLeaf (focusAssignment : list IndexPair) (layout : list Z) (maxParticles i ret : Z) : option Z :=
  let? b := layout.[i + 1] in
  let? a := layout.[i] in
  let peerFound := existsb (fun r => (start r <=? i) && (i <? end_ r)) focusAssignment in
  let ret := if (a <? b) && negb peerFound then 1 else ret in
  Some (if maxParticles <? u32 (b - a) then -1 else ret).

Definition checkLayout (myRank : Z) (focusAssignment : list IndexPair) (layout ftree : list Z) (maxParticles : Z) : option Z :=
  let? mine := focusAssignment.[myRank] in
  let? ret := for_loop 0 (start mine) (checkLeaf focusAssignment layout maxParticles) 0 in
  for_loop (end_ mine) (nNodes ftree) (checkLeaf focusAssignment layout maxParticles) ret.

(** ** gatherArrays *)

(** [rawPtr(array) + outputOffset]: write [vals] from cell [off] on. *)
Definition writeFrom {A} (vals dst : list A) (off : Z) : option (list A) :=
  for_loop 0 (zlen vals) (fun i dst => let? v := vals.[i] in aset dst (off + i) v) dst.

(** Gather into the buffer from cell [off] on. *)
Definition gatherAt {A} (ordering : list Z) (source destination : list A) (off : Z) : option (list A) :=
  for_loop 0 (zlen ordering) (fun i dst =>
    let? o := ordering.[i] in
    let? v := source.[o] in
    aset dst (off + i) v) destination.

(** A scratch buffer of the same type: gather into it and swap.  Result: (array, scratch). *)
Definition gatherSwap {A} (ordering : list Z) (outputOffset : Z) (array scratch : list A) : option (list A * list A) :=
  let? scratch := gatherAt ordering array scratch outputOffset in
  Some (scratch, array).

(** A scratch buffer of another type: gather into its front and copy back. *)
Definition gatherCopy {A} (ordering : list Z) (outputOffset : Z) (array scratch : list A) : option (list A * list A) :=
  let? scratch := gatherAt ordering array scratch 0 in
  let? array := writeFrom (take (length ordering) scratch) array outputOffset in
  Some (array, scratch).

(** ** Complements *)

(** Some range of [l] contains [i]. *)
Definition covers (l : list IndexPair) (i : Z) : Prop := exists r, r ∈ l /\ start r <= i < end_ r.

Lemma covers_cons r l i : covers (r :: l) i <-> start r <= i < end_ r \/ covers l i.
Proof.
  unfold covers. split.
  - intros (r' & [->|Hr]%elem_of_cons & Hi); [by left|right; by exists r'].
  - intros [Hi|(r' & Hr & Hi)]; [exists r|exists r']; (split; [by constructor|done]).
Qed.

Lemma covers_app l1 l2 i : covers (l1 ++ l2) i <-> covers l1 i \/ covers l2 i.
Proof.
  unfold covers. split.
  - intros (r & [Hr|Hr]%elem_of_app & Hi); [left|right]; by exists r.
  - intros [(r & Hr & Hi)|(r & Hr & Hi)]; exists r; (split; [apply elem_of_app; by auto|done]).
Qed.

Lemma covers_nil i : ~ covers [] i.
Proof. intros (r & Hr & _). by apply not_elem_of_nil in Hr. Qed.

Lemma covers_within l i lo hi : Forall (fun r => lo <= start r /\ end_ r <= hi) l -> covers l i -> lo <= i < hi.
Proof. intros Hl (r & Hr & Hi). rewrite Forall_forall in Hl. specialize (Hl r Hr). simpl in Hl. lia. Qed.

(** The non-empty ranges are in order and inside of [first, last]. *)
Fixpoint rangesIn (first : Z) (ranges : list IndexPair) (last : Z) : Prop :=
  match ranges with
  | [] => first <= last
  | r :: rs =>
      if start r =? end_ r then rangesIn first rs last
      else first <= start r < end_ r /\ rangesIn (end_ r) rs last
  end.

Lemma rangesIn_covers first ranges last i : rangesIn first ranges last -> covers ranges i -> first <= i < last.
Proof.
  revert first. induction ranges as [|r rs IH]; intros first Hr Hc; [by apply covers_nil in Hc|].
  simpl in Hr. apply covers_cons in Hc as [Hi|Hc]; destruct (Z.eqb_spec (start r) (end_ r)); try lia.
  - destruct Hr as [Hr Hrs]. assert (end_ r <= last); [|lia]. clear -Hrs. revert Hrs. generalize (end_ r).
    induction rs as [|r' rs IH]; intros e Hrs; simpl in Hrs; [done|]. destruct (start r' =? end_ r'); [by apply IH|].
    destruct Hrs as [Hr' Hrs]. specialize (IH _ Hrs). lia.
  - by apply IH.
  - destruct Hr as [Hr Hrs]. specialize (IH _ Hrs Hc). lia.
Qed.

Lemma complement_loop ranges cur last acc :
  rangesIn cur ranges last ->
  exists cur' mid, foldM invertStep ranges (cur, acc) = Some (cur', acc ++ mid) /\ cur <= cur' <= last /\
    Forall (fun r => start r < end_ r) mid /\ Forall (fun r => cur <= start r /\ end_ r <= cur') mid /\
    (forall i, cur <= i < cur' -> covers mid i <-> ~ covers ranges i) /\ (forall i, cur' <= i -> ~ covers ranges i).
Proof.
  revert cur acc. induction ranges as [|r rs IH]; intros cur acc Hr; simpl in Hr.
  { exists cur, []. simpl. rewrite app_nil_r. repeat split; try done; try lia. intros. apply covers_nil. }
  cbn [foldM invertStep]. destruct (Z.eqb_spec (start r) (end_ r)) as [He|Hne].
  - destruct (IH cur acc Hr) as (cur' & mid & E & Hc & H1 & H2 & H3 & H4). exists cur', mid. split; [done|]. split; [done|].
    split; [done|]. split; [done|]. split; intros i Hi; rewrite covers_cons.
    + rewrite (H3 i Hi). split; [|tauto]. intros Hn [?|?]; [lia|done].
    + intros [?|?]; [lia|by apply (H4 i)].
  - destruct Hr as [Hr Hrs]. destruct (Z.leb_spec cur (start r)); [|lia].
    destruct (IH (end_ r) (if cur <? start r then acc ++ [mkIndexPair cur (start r)] else acc) Hrs) as (cur' & mid & E & Hc & H1 & H2 & H3 & H4).
    exists cur', ((if cur <? start r then [mkIndexPair cur (start r)] else []) ++ mid).
    split; [rewrite E; f_equal; f_equal; destruct (cur <? start r); simpl; [by rewrite <- app_assoc|done]|].
    assert (Hgap : forall i, covers (if cur <? start r then [mkIndexPair cur (start r)] else []) i <-> cur <= i < start r).
    { intros i. destruct (Z.ltb_spec cur (start r)).
      - rewrite covers_cons. cbn [start end_]. split; [intros [?|?%covers_nil]; done|by left].
      - split; [by intros ?%covers_nil|lia]. }
    assert (Hmid : forall i, covers mid i -> end_ r <= i) by (intros i Hi; pose proof (covers_within _ _ _ _ H2 Hi); lia).
    split; [lia|]. split; [|split; [|split]].
    + apply Forall_app. split; [|done]. destruct (Z.ltb_spec cur (start r)); repeat constructor. done.
    + apply Forall_app. split; [destruct (Z.ltb_spec cur (start r)); repeat constructor; cbn; lia|].
      eapply Forall_impl; [exact H2|]. intros ?. simpl. lia.
    + intros i Hi. rewrite covers_app, Hgap, covers_cons. destruct (Z.lt_ge_cases i (end_ r)) as [Hlt|Hge].
      * assert (Hnr : ~ covers rs i) by (intros Hcov; pose proof (rangesIn_covers _ _ _ _ Hrs Hcov); lia).
        split; [intros [?|Hm%Hmid]; [|lia]; intros [?|?]; [lia|done]|]. intros Hn. left. destruct (Z.lt_ge_cases i (start r)); [lia|]. exfalso. apply Hn. left. lia.
      * pose proof (H3 i ltac:(lia)) as Hi3. split; [|intros Hn; right; apply Hi3; tauto].
        intros [?|Hm] [?|Hr']; try lia. by apply Hi3 in Hm.
    + intros i Hi. rewrite covers_cons. intros [?|?]; [lia|by apply (H4 i)].
Qed.

(** The result covers exactly the indices of [first, last) that the input does not. *)
Lemma invertRanges_complement first ranges last :
  rangesIn first ranges last ->
  exists out, invertRanges first ranges last = Some out /\ Forall (fun r => start r < end_ r) out /\
    Forall (fun r => first <= start r /\ end_ r <= last) out /\
    forall i, first <= i < last -> covers out i <-> ~ covers ranges i.
Proof.
  intros Hr. unfold invertRanges. destruct (complement_loop ranges first last [] Hr) as (cur & mid & -> & Hc & H1 & H2 & H3 & H4).
  rewrite app_nil_l. eexists. split; [done|]. destruct (Z.ltb_spec cur last) as [Hlt|Hge].
  - split; [apply Forall_app; by repeat constructor|]. split.
    + apply Forall_app. split; [eapply Forall_impl; [exact H2|]; intros ?; simpl; lia|]. repeat constructor; cbn; lia.
    + intros i Hi. rewrite covers_app, covers_cons. cbn [start end_].
      assert (Hm : covers mid i -> i < cur) by (intros Hm; pose proof (covers_within _ _ _ _ H2 Hm); lia).
      destruct (Z.lt_ge_cases i cur) as [Hl|Hg].
      * rewrite <- (H3 i) by lia. split; [intros [?|[?|?%covers_nil]]; [done|lia|done]|by left].
      * split; [intros _; by apply H4|]. intros _. right; left. lia.
  - split; [done|]. split; [eapply Forall_impl; [exact H2|]; intros ?; simpl; lia|]. intros i Hi. apply H3. lia.
Qed.

(** ** Enumeration *)

Lemma iota_block (pre mid post : list Z) n value :
  zlen mid = n -> iota (zlen pre) n value (pre ++ mid ++ post) = Some (pre ++ seqZ value n ++ post).
Proof.
  intros Hm. unfold iota. pose proof (zlen_nonneg mid).
  pose proof (write_loop_block (fun j => value + j) (fun j => Some (value + j)) (zlen pre) 0 n pre mid post Hm ltac:(lia) ltac:(done)) as H0.
  rewrite Z.add_0_l in H0. rewrite H0. do 3 f_equal. pose proof (fmap_add_seqZ value 0 n) as Hs. rewrite Z.add_0_r in Hs. done.
Qed.

(** [enumerateRanges] lists the indices of the ranges one after the other. *)
Lemma enumerateRanges_concat ranges :
  Forall (fun r => start r <= end_ r) ranges ->
  enumerateRanges ranges = Some (concat ((fun r => seqZ (start r) (count r)) <$> ranges)).
Proof.
  intros Hr. unfold enumerateRanges. set (d := mkIndexPair 0 0). set (g i := default d (ranges.[i])).
  assert (Hg : forall i, 0 <= i < zlen ranges -> ranges.[i] = Some (g i)).
  { intros i Hi. unfold g. destruct (aget_is_Some _ _ Hi) as [r ->]. done. }
  assert (Hc : forall i, 0 <= i < zlen ranges -> 0 <= count (g i)).
  { intros i Hi. rewrite Forall_forall in Hr. specialize (Hr (g i) (aget_elem _ _ _ (Hg i Hi))). unfold count. simpl in Hr. lia. }
  set (outs i := seqZ (start (g i)) (count (g i))).
  assert (Hblk : forall m : nat, Z.of_nat m <= zlen ranges -> zlen (blocks outs (Z.of_nat m)) = prefixSum (count <$> ranges) (Z.of_nat m)).
  { induction m as [|m IH]; intros Hm; [done|]. replace (Z.of_nat (S m)) with (Z.of_nat m + 1) by lia.
    rewrite blocks_succ, zlen_app, IH by lia. rewrite (prefixSum_succ _ _ (count (g (Z.of_nat m)))) by (rewrite aget_map, Hg by lia; done).
    unfold outs at 1. rewrite zlen_seqZ; [done|]. apply Hc. lia. }
  pose proof (zlen_nonneg ranges). assert (Hz : zlen ((count <$> ranges) ++ [0]) = zlen ranges + 1) by (rewrite zlen_app, zlen_map; done).
  assert (Hscan : forall i, 0 <= i <= zlen ranges -> (exclusive_scan 0 ((count <$> ranges) ++ [0])).[i] = Some (zlen (blocks outs i))).
  { intros i Hi. rewrite exclusive_scan_get by lia. rewrite prefixSum_app_l by (rewrite zlen_map; lia).
    specialize (Hblk (Z.to_nat i) ltac:(lia)). rewrite Z2Nat.id in Hblk by lia. by rewrite Hblk. }
  assert (Hsl : zlen (exclusive_scan 0 ((count <$> ranges) ++ [0])) = zlen ranges + 1) by (unfold zlen at 1; rewrite exclusive_scan_length; exact Hz).
  rewrite Hsl, Z.add_simpl_r, Hscan by lia.
  destruct (scatter_blocks (fun i ret => let? pos := (exclusive_scan 0 ((count <$> ranges) ++ [0])).[i] in let? r := ranges.[i] in iota pos (count r) (start r) ret)
    outs (zlen ranges) (replicate (Z.to_nat (zlen (blocks outs (zlen ranges)))) 0) 0) as (r & -> & Hr0); [lia|lia| | |].
  - unfold zlen at 1. rewrite length_replicate. pose proof (zlen_nonneg (blocks outs (zlen ranges))). lia.
  - intros i pre mid post Hi Hpre Hmid. rewrite Hscan, Hg by lia. rewrite <- Hpre. rewrite iota_block; [done|].
    rewrite Hmid. unfold outs. apply zlen_seqZ. by apply Hc.
  - apply zlen_zero_inv in Hr0 as ->. rewrite app_nil_r. f_equal. unfold blocks, outs. f_equal.
    apply list_eq_aget; rewrite ?zlen_map, ?zlen_seqZ by lia; [done|]. intros i Hi. by rewrite !aget_map, aget_seqZ, Hg by lia.
Qed.

(** ** Marked ranges *)

Section Marked.
Context (source flags : list Z) (last : Z).
Hypothesis Hflags : zlen flags = last + 1.
Hypothesis Hsource : zlen source = last + 1.

(** Leaf [i] is marked when the flags increase there; the flags never decrease. *)
Definition marked (i : Z) : Prop := nthz flags i < nthz flags (i + 1).
Hypothesis Hmono : forall i, 0 <= i < last -> nthz flags i <= nthz flags (i + 1).

Lemma skipUnmarked_spec fuel first second :
  0 <= first <= second -> second <= last -> second - first < Z.of_nat fuel ->
  exists m, skipUnmarked fuel flags first second = Some m /\ first <= m <= second /\
    (forall i, first <= i < m -> ~ marked i) /\ (m < second -> marked m).
Proof using Hflags Hmono.
  revert first. induction fuel as [|fuel IH]; intros first Hf Hs Hfuel; [lia|]. cbn [skipUnmarked].
  destruct (Z.ltb_spec first second) as [Hlt|Hge].
  2: { exists first. split; [done|]. split; [lia|]. split; [lia|lia]. }
  rewrite (nthz_get flags (first + 1)), (nthz_get flags first) by lia.
  destruct (Z.eqb_spec (nthz flags (first + 1)) (nthz flags first)) as [He|Hne].
  - destruct (IH (first + 1)) as (m & E & Hm & Hno & Hyes); [lia|lia|lia|]. exists m. split; [done|]. split; [lia|]. split; [|done].
    intros i Hi. destruct (decide (i = first)) as [->|]; [unfold marked; lia|]. apply Hno. lia.
  - exists first. split; [done|]. split; [lia|]. split; [lia|]. intros _. unfold marked. specialize (Hmono first ltac:(lia)). lia.
Qed.

Lemma skipMarked_spec fuel first second :
  0 <= first <= second -> second <= last -> second - first < Z.of_nat fuel ->
  exists m, skipMarked fuel flags first second = Some m /\ first <= m <= second /\
    (forall i, first <= i < m -> marked i) /\ (m < second -> ~ marked m).
Proof using Hflags.
  revert first. induction fuel as [|fuel IH]; intros first Hf Hs Hfuel; [lia|]. cbn [skipMarked].
  destruct (Z.ltb_spec first second) as [Hlt|Hge].
  2: { exists first. split; [done|]. split; [lia|]. split; [lia|lia]. }
  rewrite (nthz_get flags (first + 1)), (nthz_get flags first) by lia.
  destruct (Z.ltb_spec (nthz flags first) (nthz flags (first + 1))) as [Hm|Hle].
  - destruct (IH (first + 1)) as (m & E & Hmr & Hyes & Hno); [lia|lia|lia|]. exists m. split; [done|]. split; [lia|]. split; [|done].
    intros i Hi. destruct (decide (i = first)) as [->|]; [done|]. apply Hyes. lia.
  - exists first. split; [done|]. split; [lia|]. split; [lia|]. intros _. unfold marked. lia.
Qed.

(** Keys of the ranges [rs]: start and end of each. *)
Definition rangeKeys (rs : list IndexPair) : list Z := concat ((fun r => [nthz source (start r); nthz source (end_ r)]) <$> rs).

Lemma extractLoop_spec fuel first second acc :
  0 <= first <= second -> second <= last -> 2 * (second - first) + 1 <= Z.of_nat fuel ->
  exists rs, extractLoop fuel source flags first second acc = Some (acc ++ rangeKeys rs) /\
    Forall (fun r => first <= start r < end_ r /\ end_ r <= second) rs /\
    StronglySorted (fun r r' => end_ r < start r') rs /\
    (forall i, first <= i < second -> covers rs i <-> marked i).
Proof using Hflags Hsource Hmono.
  revert first acc. induction fuel as [|fuel IH]; intros first acc Hf Hs Hfuel; [lia|]. cbn [extractLoop].
  destruct (Z.eqb_spec first second) as [->|Hne].
  { exists []. rewrite app_nil_r. split; [done|]. split; [constructor|]. split; [constructor|lia]. }
  destruct (skipUnmarked_spec (S (Z.to_nat (second - first))) first second) as (a & -> & Ha & Hno & Hyes); [lia|lia|lia|].
  destruct (Z.eqb_spec a second) as [->|Hane].
  { destruct fuel as [|fuel]; [lia|]. cbn [extractLoop]. rewrite Z.eqb_refl. exists []. rewrite app_nil_r. split; [done|].
    split; [constructor|]. split; [constructor|]. intros i Hi. split; [by intros ?%covers_nil|intros Hm; by apply Hno in Hi]. }
  rewrite (nthz_get source a) by lia.
  destruct (skipMarked_spec (S (Z.to_nat (second - a))) a second) as (b & -> & Hb & Hmk & Hbno); [lia|lia|lia|].
  rewrite (nthz_get source b) by lia. specialize (Hyes ltac:(lia)).
  assert (Hab : a < b) by (destruct (Z.lt_ge_cases a b); [done|]; assert (a = b) as -> by lia; by destruct (Hbno ltac:(lia))).
  destruct (IH b (acc ++ [nthz source a; nthz source b])) as (rs & -> & Hin & Hsort & Hcov); [lia|lia|lia|].
  exists (mkIndexPair a b :: rs). split; [by rewrite <- app_assoc|]. split; [|split].
  - constructor; [cbn; lia|]. eapply Forall_impl; [exact Hin|]. intros r. simpl. lia.
  - constructor; [done|]. apply Forall_forall. intros r Hr. cbn. rewrite Forall_forall in Hin. pose proof (Hin r Hr) as Hr'. simpl in Hr'.
    destruct (decide (start r = b)) as [Heq|]; [|lia]. exfalso. apply (Hbno ltac:(lia)). apply (Hcov b ltac:(lia)). exists r. split; [done|lia].
  - intros i Hi. rewrite covers_cons. cbn [start end_]. destruct (Z.lt_ge_cases i b) as [Hlt|Hge].
    + assert (Hncov : ~ covers rs i).
      { intros (r & Hr & Hri). rewrite Forall_forall in Hin. specialize (Hin r Hr). simpl in Hin. lia. }
      split; [intros [?|?]; [apply Hmk; lia|done]|]. intros Hm. left. destruct (Z.lt_ge_cases i a) as [Hia|]; [|lia].
      by destruct (Hno i ltac:(lia)).
    + rewrite <- (Hcov i) by lia. split; [intros [?|?]; [lia|done]|by right].
Qed.

End Marked.

(** ** Node layout *)

Section NodeLayout.
Context (focusLeafCounts flags leafToInternal : list Z) (idx : IndexPair).
Hypothesis Hcounts : Forall (fun c => 0 <= c < 4294967296) focusLeafCounts.
Hypothesis Htotal : zsum focusLeafCounts < 4294967296.
Hypothesis Hlti : zlen leafToInternal = zlen focusLeafCounts.
Hypothesis Hflags : forall i j, leafToInternal.[i] = Some j -> 0 <= j < zlen flags.

(** Leaf [i] is assigned or a halo. *)
Definition present (i : Z) : bool :=
  ((start idx <=? i) && (i <? end_ idx)) || negb (nthz flags (nthz leafToInternal i) =? 0).

(** Particles of leaf [i] in the local buffers. *)
Definition presentCount (i : Z) : Z := if present i then nthz focusLeafCounts i else 0.

Lemma count_elem i : 0 <= i < zlen focusLeafCounts -> 0 <= nthz focusLeafCounts i < 4294967296.
Proof using Hcounts.
  intros Hi. rewrite Forall_forall in Hcounts. apply (Hcounts (nthz focusLeafCounts i)). by eapply aget_elem, nthz_get.
Qed.

Lemma layoutEntry_spec i : 0 <= i < zlen focusLeafCounts -> layoutEntry focusLeafCounts flags leafToInternal idx i = Some (presentCount i).
Proof using Hcounts Hlti Hflags.
  intros Hi. pose proof (count_elem i Hi) as Hc. unfold layoutEntry, presentCount, present. rewrite (nthz_get focusLeafCounts) by done.
  assert (Hm1 : forall c, 0 <= c < 4294967296 -> u32 (Z.land (-1) c) = c) by (intros c ?; rewrite Z.land_m1_l; by apply u32_small).
  destruct ((start idx <=? i) && (i <? end_ idx)); [by rewrite Hm1|].
  rewrite (nthz_get leafToInternal) by lia. pose proof (Hflags i _ (nthz_get leafToInternal i ltac:(lia))). rewrite (nthz_get flags) by done.
  cbn [orb]. destruct (nthz flags (nthz leafToInternal i) =? 0); cbn [negb Z.b2z]; [by rewrite Z.land_0_l|].
  change (- (1)) with (-1). by rewrite Hm1.
Qed.

Lemma present_sum (l : list Z) : l = presentCount <$> seqZ 0 (zlen focusLeafCounts) -> Forall (fun x => 0 <= x) l /\ zsum l <= zsum focusLeafCounts.
Proof using Hcounts.
  intros ->. pose proof (zlen_nonneg focusLeafCounts) as Hn. split.
  - apply Forall_fmap, Forall_forall. intros i Hi%elem_of_seqZ. simpl. unfold presentCount. pose proof (count_elem i ltac:(lia)). destruct (present i); lia.
  - assert (H : forall m : nat, Z.of_nat m <= zlen focusLeafCounts -> zsum (presentCount <$> seqZ 0 (Z.of_nat m)) <= prefixSum focusLeafCounts (Z.of_nat m)).
    { induction m as [|m IH]; intros Hm; [done|]. replace (Z.of_nat (S m)) with (Z.of_nat m + 1) by lia.
      rewrite seqZ_app, fmap_app, zsum_app by lia. rewrite (prefixSum_succ _ _ (nthz focusLeafCounts (Z.of_nat m))) by (apply nthz_get; lia).
      assert (presentCount (Z.of_nat m) <= nthz focusLeafCounts (Z.of_nat m)).
      { unfold presentCount. pose proof (count_elem (Z.of_nat m) ltac:(lia)). destruct (present (Z.of_nat m)); lia. }
      specialize (IH ltac:(lia)). change (seqZ (0 + Z.of_nat m) 1) with [0 + Z.of_nat m]. rewrite Z.add_0_l.
      change (presentCount <$> [Z.of_nat m]) with [presentCount (Z.of_nat m)]. rewrite zsum_cons. change (zsum []) with 0. lia. }
    specialize (H (Z.to_nat (zlen focusLeafCounts)) ltac:(lia)). rewrite Z2Nat.id in H by lia. by rewrite prefixSum_all in H.
Qed.

(** Offset of leaf [i]: the particles of the present leaves before it. *)
Lemma computeNodeLayout_spec layout :
  zlen layout = zlen focusLeafCounts + 1 ->
  exists out, computeNodeLayout focusLeafCounts flags leafToInternal idx layout = Some out /\
    zlen out = zlen focusLeafCounts + 1 /\
    forall i, 0 <= i <= zlen focusLeafCounts -> out.[i] = Some (zsum (presentCount <$> seqZ 0 i)).
Proof using Hcounts Htotal Hlti Hflags.
  intros Hz. pose proof (zlen_nonneg focusLeafCounts) as Hn. unfold computeNodeLayout. set (n := zlen focusLeafCounts) in *.
  match goal with |- context [for_loop 0 n ?body layout] =>
    destruct (write_loop_range body presentCount 0 n (n + 1) layout Hz ltac:(lia) ltac:(lia)) as (l1 & -> & Hz1 & Hin & _) end.
  { intros i st Hi _. by rewrite layoutEntry_spec by done. }
  destruct (aget_is_Some l1 n ltac:(lia)) as [x Hx].
  assert (El : l1 = (presentCount <$> seqZ 0 n) ++ [x]).
  { apply list_eq_aget; [rewrite zlen_app, zlen_map, zlen_seqZ by lia; change (zlen [x]) with 1; lia|]. intros i Hi.
    destruct (decide (i = n)) as [->|].
    - rewrite aget_app_r; rewrite zlen_map, zlen_seqZ by lia; [by rewrite Z.sub_diag|lia].
    - rewrite aget_app_l by (rewrite zlen_map, zlen_seqZ; lia). rewrite aget_map, aget_seqZ by lia. apply Hin. lia. }
  destruct (present_sum _ eq_refl) as [Hpos Hle]. fold n in Hpos, Hle.
  eexists. split; [done|]. split; [unfold zlen, exclusive_scan_u32; rewrite exclusive_scan_with_length; exact Hz1|].
  intros i Hi. rewrite El. unfold exclusive_scan_u32, u32.
  rewrite (exclusive_scan_wrap_init 32) by (done || (change (2 ^ 32) with 4294967296; lia)).
  rewrite exclusive_scan_get by (rewrite zlen_app, zlen_map, zlen_seqZ by lia; change (zlen [x]) with 1; lia).
  rewrite prefixSum_app_l by (rewrite zlen_map, zlen_seqZ; lia). rewrite Z.add_0_l. f_equal. unfold prefixSum.
  rewrite <- fmap_take. do 2 f_equal. apply list_eq_aget.
  - rewrite zlen_seqZ by lia. unfold zlen. rewrite length_take, length_seqZ. lia.
  - intros j Hj. assert (0 <= j < i) by (unfold zlen in Hj; rewrite length_take, length_seqZ in Hj; lia).
    rewrite aget_seqZ by lia. rewrite aget_lookup, lookup_take_lt by lia. apply lookup_seqZ. lia.
Qed.

End NodeLayout.

(** ** checkLayout *)

(** Leaf [i] outside of the local range is in order. *)
Definition leafInOrder (focusAssignment : list IndexPair) (layout : list Z) (maxParticles i : Z) : Prop :=
  (nthz layout i < nthz layout (i + 1) -> covers focusAssignment i) /\ u32 (nthz layout (i + 1) - nthz layout i) <= maxParticles.

Lemma existsb_covers l i : existsb (fun r => (start r <=? i) && (i <? end_ r)) l = true <-> covers l i.
Proof.
  rewrite existsb_exists. unfold covers. split.
  - intros (r & Hr%list_elem_of_In & H). zbool. exists r. split; [done|lia].
  - intros (r & Hr & H). exists r. split; [by apply list_elem_of_In|]. apply andb_true_iff. rewrite Z.leb_le, Z.ltb_lt. lia.
Qed.

(** A violation sets the result to a non-zero value and nothing sets it back to zero. *)
Lemma checkLoop_spec fa layout maxP lo hi ret :
  lo <= hi -> 0 <= lo -> hi < zlen layout ->
  exists r, for_loop lo hi (checkLeaf fa layout maxP) ret = Some r /\
    (r = 0 <-> ret = 0 /\ forall i, lo <= i < hi -> leafInOrder fa layout maxP i).
Proof.
  intros Hlh Hlo Hhi.
  destruct (for_loop_inv (fun j r => r = 0 <-> ret = 0 /\ forall i, lo <= i < j -> leafInOrder fa layout maxP i)
    lo hi (checkLeaf fa layout maxP) ret) as (r & E & Hr); [done| | |by exists r].
  - split; [intros ->; split; [done|lia]|by intros [? _]].
  - intros j r Hj Hr. unfold checkLeaf. rewrite (nthz_get layout (j + 1)), (nthz_get layout j) by lia.
    eexists. split; [done|].
    assert (Hsplit : (forall i, lo <= i < j + 1 -> leafInOrder fa layout maxP i) <->
      (forall i, lo <= i < j -> leafInOrder fa layout maxP i) /\ leafInOrder fa layout maxP j).
    { split; [intros H; split; [intros; apply H; lia|apply H; lia]|]. intros [H1 H2] i Hi. destruct (decide (i = j)) as [->|]; [done|apply H1; lia]. }
    rewrite Hsplit. unfold leafInOrder at 2. pose proof (existsb_covers fa j) as Hcov.
    destruct (Z.ltb_spec maxP (u32 (nthz layout (j + 1) - nthz layout j))) as [Hbig|Hsmall].
    + split; [done|]. intros (_ & _ & _ & ?). lia.
    + destruct (Z.ltb_spec (nthz layout j) (nthz layout (j + 1))) as [Hlt|Hge]; cbn [andb].
      * destruct (existsb _ fa); cbn [negb].
        { assert (covers fa j) by by apply Hcov. rewrite Hr. tauto. }
        split; [done|]. intros (_ & _ & H & _). apply Hcov in H; [done|done].
      * assert (nthz layout j < nthz layout (j + 1) -> covers fa j) by lia. rewrite Hr. tauto.
Qed.

(** ** Reordering *)

Section Gather.
Context {A : Type} (ordering : list Z) (g : Z -> A).

Lemma gatherAt_block (array pre mid post : list A) :
  (forall i o, ordering.[i] = Some o -> array.[o] = Some (g o)) -> zlen mid = zlen ordering ->
  gatherAt ordering array (pre ++ mid ++ post) (zlen pre) = Some (pre ++ (g <$> ordering) ++ post).
Proof using.
  intros Ho Hm. unfold gatherAt. set (h i := g (nthz ordering i)).
  pose proof (write_loop_block h (fun i => let? o := ordering.[i] in array.[o]) (zlen pre) 0 (zlen ordering) pre mid post Hm ltac:(lia)) as H.
  rewrite Z.add_0_l in H. etransitivity; [|etransitivity; [apply H|]].
  - apply for_loop_ext. intros i dst Hi. by destruct (ordering.[i]).
  - intros i Hi. rewrite (nthz_get ordering) by lia. apply Ho with i. apply nthz_get. lia.
  - do 3 f_equal. pose proof (zlen_nonneg ordering). apply list_eq_aget; rewrite ?zlen_map, ?zlen_seqZ by lia; [done|].
    intros i Hi. rewrite !aget_map, aget_seqZ by lia. rewrite (nthz_get ordering i) by lia. done.
Qed.

Lemma writeFrom_block (vals pre mid post : list A) :
  zlen mid = zlen vals -> writeFrom vals (pre ++ mid ++ post) (zlen pre) = Some (pre ++ vals ++ post).
Proof using.
  intros Hm. pose proof (zlen_nonneg vals). unfold writeFrom. destruct vals as [|d vals'].
  { change (zlen (@nil A)) with 0 in *. apply zlen_zero_inv in Hm as ->. done. }
  set (vals := d :: vals') in *. set (h i := default d (vals.[i])).
  assert (Hh : forall i, 0 <= i < zlen vals -> vals.[i] = Some (h i)) by (intros i Hi; unfold h; destruct (aget_is_Some _ _ Hi) as [v ->]; done).
  pose proof (write_loop_block h (fun i => vals.[i]) (zlen pre) 0 (zlen vals) pre mid post Hm ltac:(lia)) as H0.
  rewrite Z.add_0_l in H0. rewrite H0 by done. do 3 f_equal. apply list_eq_aget; rewrite ?zlen_map, ?zlen_seqZ by lia; [done|].
  intros i Hi. by rewrite aget_map, aget_seqZ, Hh by lia.
Qed.

(** Splitting a buffer at the output range. *)
Lemma buffer_split (l : list A) off n :
  0 <= off -> 0 <= n -> off + n <= zlen l ->
  exists pre mid post, l = pre ++ mid ++ post /\ zlen pre = off /\ zlen mid = n.
Proof using.
  intros Ho Hn Hl. exists (take (Z.to_nat off) l), (take (Z.to_nat n) (drop (Z.to_nat off) l)), (drop (Z.to_nat n) (drop (Z.to_nat off) l)).
  rewrite !take_drop. split; [done|]. unfold zlen in *. rewrite !length_take, length_drop. lia.
Qed.

End Gather.
