(* ===== verification/DomainProperties.v ===== *)
(** * Properties of the domain decomposition

    The claims about [cstone/domain/domaindecomp.hpp], [layout.hpp], [index_ranges.hpp] and
    [buffer_description.hpp]. *)

From S2P Require Import Prelude Primitives SfcCommon Csarray CsInvariant CsRebalance CsCounts CsUtil IndexRanges DomainDecomp Layout.

(** ** Assignment of the curve to ranks *)

(** C19: with sorted particle keys on the curve, [createSendRanges] partitions the local
    particles: the ranges of ranks 0, 1, ... follow each other from 0 to the number of
    particles, and a particle is in the range of a rank exactly when [findRank] maps its key
    to that rank, which exists for every key. *)
Theorem createSendRanges_partition k s keys :
  validAssignment k s -> sortedKeys k keys ->
  exists r, createSendRanges s keys = Some r /\ numRanks r = assignmentRanks s /\
    r.[0] = Some 0 /\ r.[numRanks r] = Some (zlen keys) /\ zsorted r /\
    (forall p key rank, keys.[p] = Some key -> 0 <= rank < numRanks r ->
       findRank s key = Some rank <-> nthz r rank <= p < nthz r (rank + 1)) /\
    (forall p key, keys.[p] = Some key -> exists rank, 0 <= rank < numRanks r /\ findRank s key = Some rank).
Proof.
  intros Hs [Hsort Hrange Hsize]. pose proof (va_ranks _ _ Hs) as Hr1. rewrite (createSendRanges_run k s Hs keys Hsort Hsize).
  eexists. split; [done|]. set (f := fun r => count_lt (nthz (rankBoundaries_ s) r) keys).
  assert (Hz : numRanks (f <$> seqZ 0 (assignmentRanks s + 1)) = assignmentRanks s).
  { unfold numRanks. rewrite zlen_map, zlen_seqZ; lia. }
  assert (Hget : forall i, 0 <= i <= assignmentRanks s -> (f <$> seqZ 0 (assignmentRanks s + 1)).[i] = Some (f i)).
  { intros i Hi. by rewrite aget_map, aget_seqZ by lia. }
  destruct (boundary_ends k s Hs) as [B0 Bn]. rewrite Hz. split; [done|]. split; [|split; [|split; [|split]]].
  - rewrite Hget by lia. unfold f. rewrite B0, count_lt_none; [done|]. eapply Forall_impl; [exact Hrange|]. simpl. lia.
  - rewrite Hget by lia. unfold f. rewrite Bn, count_lt_all; [done|]. eapply Forall_impl; [exact Hrange|]. simpl. lia.
  - intros i j x y Hij Hx Hy. pose proof (aget_Some_range _ _ _ Hx) as Hix. pose proof (aget_Some_range _ _ _ Hy) as Hiy.
    rewrite zlen_map, zlen_seqZ in Hix, Hiy by lia. rewrite Hget in Hx, Hy by lia. injection Hx as <-. injection Hy as <-.
    apply count_lt_mono, (boundary_mono k s Hs); lia.
  - intros p key rank Hp Hrk. rewrite (sendRange_iff k s Hs keys p key rank) by done.
    by rewrite (nthz_Some _ _ _ (Hget rank ltac:(lia))), (nthz_Some _ _ _ (Hget (rank + 1) ltac:(lia))).
  - intros p key Hp. apply (findRank_total k s Hs). rewrite Forall_forall in Hrange. apply (Hrange key). by eapply aget_elem.
Qed.

(** Three ranks; the second one owns nothing. *)
Definition assignment3 : SfcAssignment := mkSfcAssignment [0; 4096; 4096; 8 ^ 10] [3; 0; 2] [1; 0; 1] [0; 1; 1; 2].

Lemma assignment3_valid : validAssignment Key32 assignment3.
Proof. split; [vm_compute; congruence|apply zsortedb_sound; reflexivity|reflexivity|reflexivity]. Qed.

Lemma createSendRanges_partition_witness :
  exists r, createSendRanges assignment3 [1; 4095; 4096; 5000; 8 ^ 10 - 1] = Some r /\ numRanks r = assignmentRanks assignment3 /\
    r.[0] = Some 0 /\ r.[numRanks r] = Some (zlen [1; 4095; 4096; 5000; 8 ^ 10 - 1]) /\ zsorted r /\
    (forall p key rank, [1; 4095; 4096; 5000; 8 ^ 10 - 1].[p] = Some key -> 0 <= rank < numRanks r ->
       findRank assignment3 key = Some rank <-> nthz r rank <= p < nthz r (rank + 1)) /\
    (forall p key, [1; 4095; 4096; 5000; 8 ^ 10 - 1].[p] = Some key -> exists rank, 0 <= rank < numRanks r /\ findRank assignment3 key = Some rank).
Proof.
  apply (createSendRanges_partition Key32 assignment3 [1; 4095; 4096; 5000; 8 ^ 10 - 1] assignment3_valid).
  apply sortedKeysb_sound. vm_compute. reflexivity.
Defined.

(** [makeSfcAssignment] on a cornerstone tree and its leaf counts gives every rank a
    contiguous group of leaves: the key ranges cover the curve and start at leaf boundaries,
    the node offsets are the bin boundaries from 0 to the number of leaves, and every rank's
    particle count is the sum over its leaves (as a 32-bit number). *)
Theorem makeSfcAssignment_valid k numRanks counts tree :
  csTree k tree -> zlen counts = nNodes tree -> Forall (fun c => 0 <= c < 4294967296) counts -> zsum counts < 2 ^ 53 ->
  1 <= numRanks < 2147483648 ->
  exists s, makeSfcAssignment numRanks counts tree = Some s /\ assignmentRanks s = numRanks /\ validAssignment k s /\
    zsorted (treeOffsets_ s) /\ (treeOffsets_ s).[0] = Some 0 /\ (treeOffsets_ s).[numRanks] = Some (nNodes tree) /\
    (forall r, 0 <= r <= numRanks -> nthz (rankBoundaries_ s) r = nthz tree (nthz (treeOffsets_ s) r)) /\
    (forall r, 0 <= r < numRanks -> nthz (numNodesPerRank_ s) r = nthz (treeOffsets_ s) (r + 1) - nthz (treeOffsets_ s) r /\
       nthz (counts_ s) r = u32 (prefixSum counts (nthz (treeOffsets_ s) (r + 1)) - prefixSum counts (nthz (treeOffsets_ s) r))).
Proof.
  intros Hcs Hlen Hc Htot Hr.
  destruct (makeSfcAssignment_run counts Hc Htot numRanks Hr k tree Hcs Hlen) as (s & E & Hn & Hv & Eo & Eb & Ec & En).
  exists s. split; [done|]. split; [done|]. split; [done|].
  assert (Hget : forall i, 0 <= i <= numRanks -> (treeOffsets_ s).[i] = Some (binStart counts numRanks i)) by (intros; rewrite Eo; by apply binArray_get).
  split; [|split; [|split; [|split]]].
  - intros i j x y Hij Hx Hy. pose proof (aget_Some_range _ _ _ Hx) as Hix. pose proof (aget_Some_range _ _ _ Hy) as Hiy.
    rewrite Eo, zlen_map, zlen_seqZ in Hix, Hiy by lia. rewrite Hget in Hx, Hy by lia. injection Hx as <-. injection Hy as <-.
    by apply binStart_mono.
  - by rewrite Hget by lia.
  - rewrite Hget, binStart_end by lia. by rewrite Hlen.
  - intros r Hrr. rewrite (nthz_Some _ _ _ (Hget r Hrr)). apply nthz_Some. by rewrite Eb, aget_map, <- Eo, Hget.
  - intros r Hrr. rewrite (nthz_Some _ _ _ (Hget r ltac:(lia))), (nthz_Some _ _ _ (Hget (r + 1) ltac:(lia))).
    split; apply nthz_Some; [rewrite En|rewrite Ec]; by rewrite aget_map, aget_seqZ by lia.
Qed.

Definition uniform8 : list Z := (fun i => i * 8 ^ 9) <$> seqZ 0 9.

Lemma makeSfcAssignment_valid_witness :
  exists s, makeSfcAssignment 3 [4; 0; 7; 1; 1; 9; 2; 2] uniform8 = Some s /\ assignmentRanks s = 3 /\ validAssignment Key32 s /\
    zsorted (treeOffsets_ s) /\ (treeOffsets_ s).[0] = Some 0 /\ (treeOffsets_ s).[3] = Some (nNodes uniform8) /\
    (forall r, 0 <= r <= 3 -> nthz (rankBoundaries_ s) r = nthz uniform8 (nthz (treeOffsets_ s) r)) /\
    (forall r, 0 <= r < 3 -> nthz (numNodesPerRank_ s) r = nthz (treeOffsets_ s) (r + 1) - nthz (treeOffsets_ s) r /\
       nthz (counts_ s) r = u32 (prefixSum [4; 0; 7; 1; 1; 9; 2; 2] (nthz (treeOffsets_ s) (r + 1)) -
                                 prefixSum [4; 0; 7; 1; 1; 9; 2; 2] (nthz (treeOffsets_ s) r))).
Proof.
  apply (makeSfcAssignment_valid Key32 3 [4; 0; 7; 1; 1; 9; 2; 2] uniform8).
  - apply (bool_decide_unpack _). vm_compute. exact I.
  - reflexivity.
  - repeat constructor; vm_compute; congruence.
  - reflexivity.
  - lia.
Defined.

(** [translateAssignment] maps every rank to the leaves of the focus tree that lie
    entirely inside of its key range. *)
Theorem translateAssignment_exact k s focusTree :
  validAssignment k s -> csTree k focusTree ->
  exists out, translateAssignment s focusTree = Some out /\ zlen out = assignmentRanks s /\
    forall rank p, out.[rank] = Some p -> 0 <= start p <= end_ p /\ end_ p <= nNodes focusTree /\
      forall i, 0 <= i < nNodes focusTree -> start p <= i < end_ p <->
        nthz (rankBoundaries_ s) rank <= nthz focusTree i /\ nthz focusTree (i + 1) <= nthz (rankBoundaries_ s) (rank + 1).
Proof.
  intros Hs Hf. destruct (translateAssignment_run k s Hs focusTree Hf) as (out & E & Hz & Hout). exists out.
  split; [done|]. split; [done|]. intros rank p Hp. pose proof (aget_Some_range _ _ _ Hp) as Hr. rewrite Hz in Hr.
  destruct (translateRank_spec k s Hs focusTree rank Hf Hr) as (p' & E' & H1 & H2 & H3). rewrite (Hout _ _ Hp) in E'. by injection E' as <-.
Qed.

Lemma translateAssignment_exact_witness :
  exists out, translateAssignment assignment3 uniform8 = Some out /\ zlen out = assignmentRanks assignment3 /\
    forall rank p, out.[rank] = Some p -> 0 <= start p <= end_ p /\ end_ p <= nNodes uniform8 /\
      forall i, 0 <= i < nNodes uniform8 -> start p <= i < end_ p <->
        nthz (rankBoundaries_ assignment3) rank <= nthz uniform8 i /\ nthz uniform8 (i + 1) <= nthz (rankBoundaries_ assignment3) (rank + 1).
Proof.
  apply (translateAssignment_exact Key32 assignment3 uniform8 assignment3_valid). apply (bool_decide_unpack _). vm_compute. exact I.
Defined.

(** The initial decomposition: [initialDomainSplits] returns sorted boundaries from 0 to
    the end of the curve that are node boundaries of level [level], and
    [computeSpanningTree] turns them into a cornerstone tree with all of them as leaf
    boundaries. *)
Theorem initialDomainSplits_tree k nRanks level :
  0 < nRanks -> nRanks <= keyMax k -> 0 <= level <= maxTreeLevel k ->
  exists splits tree, initialDomainSplits k nRanks level = Some splits /\ zlen splits = nRanks + 1 /\ zsorted splits /\
    splits.[0] = Some 0 /\ splits.[nRanks] = Some (keyMax k) /\ Forall (fun x => (8 ^ (maxTreeLevel k - level) | x)) splits /\
    computeSpanningTree k splits = Some tree /\ csTree k tree /\ (forall x, x ∈ splits -> x ∈ tree).
Proof.
  intros Hr Hfit Hl. rewrite (initialDomainSplits_run k nRanks level Hr Hfit Hl).
  set (splits := splitKey k nRanks level <$> seqZ 0 (nRanks + 1)).
  assert (Hz : zlen splits = nRanks + 1) by (unfold splits; rewrite zlen_map, zlen_seqZ; lia).
  assert (Hget : forall i, 0 <= i <= nRanks -> splits.[i] = Some (splitKey k nRanks level i)) by (intros i Hi; unfold splits; by rewrite aget_map, aget_seqZ by lia).
  assert (H0 : splits.[0] = Some 0) by (rewrite Hget by lia; done).
  assert (Hn : splits.[nRanks] = Some (keyMax k)).
  { rewrite Hget by lia. unfold splitKey. destruct (Z.leb_spec nRanks 0); [lia|]. by rewrite Z.ltb_irrefl. }
  assert (Hs : zsorted splits).
  { intros i j x y Hij Hx Hy. pose proof (aget_Some_range _ _ _ Hx). pose proof (aget_Some_range _ _ _ Hy).
    rewrite Hget in Hx, Hy by lia. injection Hx as <-. injection Hy as <-. apply splitKey_mono; lia. }
  assert (Hsp : spanningKeys_ok k splits) by (split; [lia|done|by rewrite Hz, Z.add_simpl_r|done]).
  exists splits. eexists. split; [done|]. split; [done|]. split; [done|]. split; [done|]. split; [done|]. split.
  { apply Forall_forall. intros x [i Hi]%elem_aget. pose proof (aget_Some_range _ _ _ Hi). rewrite Hget in Hi by lia. injection Hi as <-. by apply splitKey_aligned. }
  split; [by apply computeSpanningTree_run|]. split; [by apply spanningTree_csTree|]. intros x. by apply spanningTree_contains.
Qed.

Lemma initialDomainSplits_tree_witness :
  exists splits tree, initialDomainSplits Key64 3 5 = Some splits /\ zlen splits = 3 + 1 /\ zsorted splits /\
    splits.[0] = Some 0 /\ splits.[3] = Some (keyMax Key64) /\ Forall (fun x => (8 ^ (maxTreeLevel Key64 - 5) | x)) splits /\
    computeSpanningTree Key64 splits = Some tree /\ csTree Key64 tree /\ (forall x, x ∈ splits -> x ∈ tree).
Proof. apply (initialDomainSplits_tree Key64 3 5); [lia|vm_compute; congruence|vm_compute; split; congruence]. Defined.

(** ** Placement of received particles *)

(** after growing the buffer to [exchangeBufferSize], the received particles fit: the
    receive range is inside of the buffer, does not overlap the particles present, and
    together with them forms the contiguous [assignedEnvelope]. *)
Theorem exchange_placement o1 numPresent numAssigned :
  0 <= bstart o1 <= bend o1 -> bend o1 <= bsize o1 < 4294967296 -> 0 <= numPresent <= numAssigned ->
  bend o1 + (numAssigned - numPresent) < 4294967296 ->
  let n := numAssigned - numPresent in
  let o1e := mkBufferDescription (bstart o1) (bend o1) (exchangeBufferSize o1 numPresent numAssigned) in
  bsize o1 <= bsize o1e < 4294967296 /\
  exists r, receiveStart o1e n = Some r /\ 0 <= r /\ r + n <= bsize o1e /\
    (r + n <= bstart o1 \/ bend o1 <= r) /\
    assignedEnvelope o1e n = (Z.min r (bstart o1), Z.max (r + n) (bend o1)) /\
    Z.max (r + n) (bend o1) - Z.min r (bstart o1) = (bend o1 - bstart o1) + n.
Proof.
  intros Hs He Hp Ho n o1e. unfold o1e, receiveStart, assignedEnvelope, exchangeBufferSize. cbn [bstart bend bsize].
  rewrite (u32_small (numAssigned - numPresent)) by lia. fold n. rewrite (u32_small (bsize o1 - bend o1)) by lia.
  destruct (Z.leb_spec n (bstart o1)) as [Hh|Hh]; cbn [orb].
  - split; [lia|]. rewrite u32_small by lia. eexists. split; [done|]. repeat split; try lia. f_equal; lia.
  - destruct (Z.leb_spec n (bsize o1 - bend o1)) as [Ht|Ht].
    + split; [lia|]. rewrite u32_small by lia. destruct (Z.leb_spec n (bsize o1 - bend o1)); [|lia].
      eexists. split; [done|]. repeat split; try lia. rewrite u32_small by lia. f_equal; lia.
    + rewrite (u32_small (bend o1 + n)) by lia. split; [lia|]. rewrite u32_small by lia. destruct (Z.leb_spec n (bend o1 + n - bend o1)); [|lia].
      eexists. split; [done|]. repeat split; try lia. f_equal; lia.
Qed.

Lemma exchange_placement_witness :
  let n := 50 - 20 in
  let o1e := mkBufferDescription 10 100 (exchangeBufferSize (mkBufferDescription 10 100 105) 20 50) in
  105 <= bsize o1e < 4294967296 /\
  exists r, receiveStart o1e n = Some r /\ 0 <= r /\ r + n <= bsize o1e /\
    (r + n <= 10 \/ 100 <= r) /\ assignedEnvelope o1e n = (Z.min r 10, Z.max (r + n) 100) /\
    Z.max (r + n) 100 - Z.min r 10 = (100 - 10) + n.
Proof. apply (exchange_placement (mkBufferDescription 10 100 105) 20 50); cbn; lia. Defined.

(** A send manifest gives back the ranges that were added, in order and without the
    empty ones, and its total is the number of particles in them. *)
Theorem addRange_manifest ranges :
  Forall (fun '(a, b) => 0 <= a <= b /\ b < 4294967296) ranges -> zsum ((fun '(a, b) => b - a) <$> ranges) < 4294967296 ->
  let r := foldl (fun r '(a, b) => addRange a b r) emptyRanges ranges in
  let nonEmpty := filter (fun p => fst p <> snd p) ranges in
  totalCount_ r = zsum ((fun '(a, b) => b - a) <$> ranges) /\ nRanges r = zlen nonEmpty /\
  forall i a b, nonEmpty.[i] = Some (a, b) -> rangeStart r i = Some a /\ rangeEnd r i = Some b /\ rangesCount r i = Some (b - a).
Proof.
  intros Hr Hsum r nonEmpty.
  assert (Hgen : forall rs r0 l0, Forall (fun '(a, b) => 0 <= a <= b /\ b < 4294967296) rs -> holdsRanges r0 l0 ->
    totalCount_ r0 + zsum ((fun '(a, b) => b - a) <$> rs) < 4294967296 ->
    holdsRanges (foldl (fun r '(a, b) => addRange a b r) r0 rs) (l0 ++ filter (fun p => fst p <> snd p) rs) /\
    zsum ((fun '(a, b) => b - a) <$> filter (fun p => fst p <> snd p) rs) = zsum ((fun '(a, b) => b - a) <$> rs)).
  { clear. induction rs as [|[a b] rs IH]; intros r0 l0 Hrs H0 Hs.
    - rewrite app_nil_r. done.
    - apply Forall_cons in Hrs as [Hab Hrs]. rewrite fmap_cons, zsum_cons in Hs.
      assert (Hpos : 0 <= zsum ((fun '(a, b) => b - a) <$> rs)).
      { apply zsum_nonneg, Forall_fmap. eapply Forall_impl; [exact Hrs|]. intros [a' b'] ?. simpl. lia. }
      pose proof (addRange_holds r0 l0 a b H0 ltac:(lia) ltac:(lia) ltac:(lia)) as H1.
      assert (Ht : totalCount_ (addRange a b r0) = totalCount_ r0 + (b - a)).
      { destruct H0 as (_ & _ & Ht0 & _). destruct H1 as (_ & _ & Ht1 & _). rewrite Ht1, Ht0.
        destruct (Z.eqb_spec a b); [lia|]. rewrite fmap_app, zsum_app. simpl. lia. }
      destruct (IH _ _ Hrs H1) as [H2 H3]; [lia|]. cbn [foldl]. rewrite fmap_cons, zsum_cons.
      destruct (Z.eqb_spec a b) as [->|Hne].
      + rewrite filter_cons_False by (simpl; tauto). split; [done|]. rewrite H3. lia.
      + rewrite filter_cons_True by done. rewrite fmap_cons, zsum_cons, H3. split; [by rewrite <- app_assoc in H2|done]. }
  destruct (Hgen ranges emptyRanges [] Hr emptyRanges_holds) as [Hh Hs]; [simpl; lia|]. fold nonEmpty r in Hh, Hs.
  split; [destruct Hh as (_ & _ & Ht & _); rewrite Ht; exact Hs|]. split.
  - destruct Hh as (_ & _ & _ & Ho & _). unfold nRanges. by rewrite Ho, zlen_map.
  - intros i a b Hi. by apply (holdsRanges_get r nonEmpty).
Qed.

Lemma addRange_manifest_witness :
  let r := foldl (fun r '(a, b) => addRange a b r) emptyRanges [(6, 10); (12, 12); (14, 18)] in
  let nonEmpty := filter (fun p => fst p <> snd p) [(6, 10); (12, 12); (14, 18)] in
  totalCount_ r = zsum ((fun '(a, b) => b - a) <$> [(6, 10); (12, 12); (14, 18)]) /\ nRanges r = zlen nonEmpty /\
  forall i a b, nonEmpty.[i] = Some (a, b) -> rangeStart r i = Some a /\ rangeEnd r i = Some b /\ rangesCount r i = Some (b - a).
Proof. apply (addRange_manifest [(6, 10); (12, 12); (14, 18)]); [repeat constructor; vm_compute; congruence|reflexivity]. Defined.

(** ** Layout *)

(** [invertRanges] returns non-empty ranges inside of [first, last) that cover exactly
    the indices the input ranges do not cover. *)
Theorem invertRanges_correct first ranges last :
  rangesIn first ranges last ->
  exists out, invertRanges first ranges last = Some out /\ Forall (fun r => start r < end_ r) out /\
    Forall (fun r => first <= start r /\ end_ r <= last) out /\
    forall i, first <= i < last -> covers out i <-> ~ covers ranges i.
Proof. apply invertRanges_complement. Qed.

Lemma invertRanges_correct_witness :
  exists out, invertRanges 0 [mkIndexPair 2 5; mkIndexPair 5 5; mkIndexPair 7 9] 12 = Some out /\ Forall (fun r => start r < end_ r) out /\
    Forall (fun r => 0 <= start r /\ end_ r <= 12) out /\
    forall i, 0 <= i < 12 -> covers out i <-> ~ covers [mkIndexPair 2 5; mkIndexPair 5 5; mkIndexPair 7 9] i.
Proof. apply (invertRanges_correct 0 [mkIndexPair 2 5; mkIndexPair 5 5; mkIndexPair 7 9] 12). cbn. lia. Defined.

(** When the flags never decrease, [extractMarkedElements] terminates within
    2 (second - first) + 1 iterations of its loop and returns the source elements at the
    start and end of ranges that cover exactly the marked indices; neighboring ranges are
    fused, so that consecutive ranges do not touch. *)
Theorem extractMarkedElements_correct fuel source flags last firstReqIdx secondReqIdx :
  zlen source = last + 1 -> zlen flags = last + 1 -> (forall i, 0 <= i < last -> nthz flags i <= nthz flags (i + 1)) ->
  0 <= firstReqIdx <= secondReqIdx -> secondReqIdx <= last -> 2 * (secondReqIdx - firstReqIdx) + 1 <= Z.of_nat fuel ->
  exists rs, extractMarkedElements fuel source flags firstReqIdx secondReqIdx = Some (rangeKeys source rs) /\
    Forall (fun r => firstReqIdx <= start r < end_ r /\ end_ r <= secondReqIdx) rs /\
    StronglySorted (fun r r' => end_ r < start r') rs /\
    (forall i, firstReqIdx <= i < secondReqIdx -> covers rs i <-> nthz flags i < nthz flags (i + 1)).
Proof.
  intros Hs Hf Hm Hi Hl Hfuel. destruct (extractLoop_spec source flags last Hf Hs Hm fuel firstReqIdx secondReqIdx [] Hi Hl Hfuel) as (rs & E & H1 & H2 & H3).
  exists rs. split; [exact E|]. done.
Qed.

Lemma extractMarkedElements_correct_witness :
  exists rs, extractMarkedElements 9 [10; 11; 12; 13; 14] [0; 0; 3; 5; 5] 0 4 = Some (rangeKeys [10; 11; 12; 13; 14] rs) /\
    Forall (fun r => 0 <= start r < end_ r /\ end_ r <= 4) rs /\
    StronglySorted (fun r r' => end_ r < start r') rs /\
    (forall i, 0 <= i < 4 -> covers rs i <-> nthz [0; 0; 3; 5; 5] i < nthz [0; 0; 3; 5; 5] (i + 1)).
Proof.
  apply (extractMarkedElements_correct 9 [10; 11; 12; 13; 14] [0; 0; 3; 5; 5] 4 0 4); [reflexivity|reflexivity| |lia|lia|lia].
  intros i Hi. assert (i = 0 \/ i = 1 \/ i = 2 \/ i = 3) as [->|[->|[->| ->]]] by lia; vm_compute; congruence.
Defined.

(** Flags that decrease, such as the 0/1 flags 1, 0, keep the loop of
    [extractMarkedElements] from ever advancing: no number of iterations is enough. *)
Theorem extractMarkedElements_diverges source fuel :
  zlen source = 2 -> extractMarkedElements fuel source [1; 0] 0 1 = None.
Proof.
  intros Hz. unfold extractMarkedElements. destruct source as [|a [|b [|c source]]]; try (unfold zlen in Hz; simpl in Hz; lia).
  assert (H : forall acc, extractLoop fuel [a; b] [1; 0] 0 1 acc = None); [|apply H].
  induction fuel as [|fuel IH]; intros acc; [done|]. apply IH.
Qed.

Lemma extractMarkedElements_diverges_witness : extractMarkedElements 1000 [5; 6] [1; 0] 0 1 = None.
Proof. apply (extractMarkedElements_diverges [5; 6] 1000). reflexivity. Defined.

(** [computeNodeLayout] stores at every leaf the number of particles of the assigned
    and halo leaves before it; absent leaves take no space and the last entry is the total. *)
Theorem computeNodeLayout_offsets focusLeafCounts flags leafToInternal idx layout :
  Forall (fun c => 0 <= c < 4294967296) focusLeafCounts -> zsum focusLeafCounts < 4294967296 ->
  zlen leafToInternal = zlen focusLeafCounts -> (forall i j, leafToInternal.[i] = Some j -> 0 <= j < zlen flags) ->
  zlen layout = zlen focusLeafCounts + 1 ->
  exists out, computeNodeLayout focusLeafCounts flags leafToInternal idx layout = Some out /\
    zlen out = zlen focusLeafCounts + 1 /\ out.[0] = Some 0 /\
    forall i, 0 <= i < zlen focusLeafCounts -> nthz out (i + 1) - nthz out i =
      (if present flags leafToInternal idx i then nthz focusLeafCounts i else 0).
Proof.
  intros Hc Ht Hl Hf Hz. destruct (computeNodeLayout_spec focusLeafCounts flags leafToInternal idx Hc Ht Hl Hf layout Hz) as (out & E & Ho & Hget).
  pose proof (zlen_nonneg focusLeafCounts). exists out. split; [done|]. split; [done|]. split; [by rewrite Hget by lia|].
  intros i Hi. rewrite (nthz_Some _ _ _ (Hget i ltac:(lia))), (nthz_Some _ _ _ (Hget (i + 1) ltac:(lia))).
  rewrite seqZ_app, fmap_app, zsum_app by lia. change (seqZ (0 + i) 1) with [0 + i]. rewrite Z.add_0_l.
  match goal with |- context [zsum (?f <$> [i])] => change (f <$> [i]) with [f i] end. rewrite zsum_cons. unfold presentCount. change (zsum []) with 0. lia.
Qed.

Lemma computeNodeLayout_offsets_witness :
  exists out, computeNodeLayout [5; 6; 7] [1; 0; 0; 1] [1; 2; 3] (mkIndexPair 0 1) [0; 0; 0; 0] = Some out /\
    zlen out = zlen [5; 6; 7] + 1 /\ out.[0] = Some 0 /\
    forall i, 0 <= i < zlen [5; 6; 7] -> nthz out (i + 1) - nthz out i =
      (if present [1; 0; 0; 1] [1; 2; 3] (mkIndexPair 0 1) i then nthz [5; 6; 7] i else 0).
Proof.
  apply (computeNodeLayout_offsets [5; 6; 7] [1; 0; 0; 1] [1; 2; 3] (mkIndexPair 0 1) [0; 0; 0; 0]);
    [repeat constructor; vm_compute; congruence|reflexivity|reflexivity| |reflexivity].
  intros i j Hj%aget_elem. rewrite !elem_of_cons in Hj. change (zlen [1; 0; 0; 1]) with 4.
  destruct Hj as [->|[->|[->|Hj]]]; [lia..|by apply not_elem_of_nil in Hj].
Defined.

(** [checkLayout] returns 0 exactly when every leaf outside of the local range that has
    particles belongs to some rank and no such leaf has more than [maxParticles]. *)
Theorem checkLayout_correct myRank focusAssignment layout ftree maxParticles mine :
  focusAssignment.[myRank] = Some mine -> 0 <= start mine <= end_ mine -> end_ mine <= nNodes ftree -> nNodes ftree < zlen layout ->
  exists ret, checkLayout myRank focusAssignment layout ftree maxParticles = Some ret /\
    (ret = 0 <-> forall i, 0 <= i < nNodes ftree -> ~ (start mine <= i < end_ mine) -> leafInOrder focusAssignment layout maxParticles i).
Proof.
  intros Hm Hs He Hz. unfold checkLayout. rewrite Hm.
  destruct (checkLoop_spec focusAssignment layout maxParticles 0 (start mine) 0) as (r1 & -> & H1); [lia..|].
  destruct (checkLoop_spec focusAssignment layout maxParticles (end_ mine) (nNodes ftree) r1) as (r2 & -> & H2); [lia..|].
  exists r2. split; [done|]. rewrite H2, H1. split.
  - intros [[_ Ha] Hb] i Hi Hno. destruct (Z.lt_ge_cases i (start mine)); [apply Ha|apply Hb]; lia.
  - intros H. split; [split; [done|]|]; intros i Hi; apply H; lia.
Qed.

Lemma checkLayout_correct_witness :
  exists ret, checkLayout 0 [mkIndexPair 1 2; mkIndexPair 2 3] [0; 0; 5; 9] [0; 1; 2; 3] 4 = Some ret /\
    (ret = 0 <-> forall i, 0 <= i < nNodes [0; 1; 2; 3] -> ~ (1 <= i < 2) ->
       leafInOrder [mkIndexPair 1 2; mkIndexPair 2 3] [0; 0; 5; 9] 4 i).
Proof.
  apply (checkLayout_correct 0 [mkIndexPair 1 2; mkIndexPair 2 3] [0; 0; 5; 9] [0; 1; 2; 3] 4 (mkIndexPair 1 2));
    [reflexivity|cbn; lia|vm_compute; congruence|reflexivity].
Defined.

(** Both ways of reordering an array, gathering into a scratch buffer that is swapped
    in and gathering into the front of a scratch buffer that is copied back, leave the
    gathered elements in the output range of the array. *)
Theorem gatherArrays_agree {A} (ordering : list Z) (outputOffset : Z) (array scratch : list A) (g : Z -> A) :
  (forall i o, ordering.[i] = Some o -> array.[o] = Some (g o)) -> zlen scratch = zlen array ->
  0 <= outputOffset -> outputOffset + zlen ordering <= zlen array ->
  exists a1 s1 a2 s2, gatherSwap ordering outputOffset array scratch = Some (a1, s1) /\
    gatherCopy ordering outputOffset array scratch = Some (a2, s2) /\
    zlen a1 = zlen array /\ zlen a2 = zlen array /\
    forall i, 0 <= i < zlen ordering -> a1.[outputOffset + i] = (g <$> ordering).[i] /\ a2.[outputOffset + i] = (g <$> ordering).[i].
Proof.
  intros Ho Hz Hoff Hfit. pose proof (zlen_nonneg ordering).
  destruct (buffer_split scratch outputOffset (zlen ordering)) as (p1 & m1 & q1 & E1 & Hp1 & Hm1); [lia..|].
  destruct (buffer_split scratch 0 (zlen ordering)) as (p2 & m2 & q2 & E2 & Hp2 & Hm2); [lia..|]. apply zlen_zero_inv in Hp2 as ->.
  destruct (buffer_split array outputOffset (zlen ordering)) as (p3 & m3 & q3 & E3 & Hp3 & Hm3); [lia..|].
  exists (p1 ++ (g <$> ordering) ++ q1), array, (p3 ++ (g <$> ordering) ++ q3), ((g <$> ordering) ++ q2).
  assert (Hget : forall (p q : list A) i, zlen p = outputOffset -> 0 <= i < zlen ordering -> (p ++ (g <$> ordering) ++ q).[outputOffset + i] = (g <$> ordering).[i]).
  { intros p q i Hp Hi. rewrite aget_app_r by lia. rewrite aget_app_l by (rewrite zlen_map; lia). f_equal. lia. }
  split; [|split; [|split; [|split]]].
  - unfold gatherSwap. rewrite E1, <- Hp1. by rewrite (gatherAt_block ordering g array p1 m1 q1 Ho Hm1).
  - unfold gatherCopy. rewrite E2. change 0 with (zlen (@nil A)). rewrite (gatherAt_block ordering g array [] m2 q2 Ho Hm2). cbn [app].
    rewrite take_app_length' by (by rewrite length_fmap). rewrite E3, <- Hp3, writeFrom_block by (rewrite zlen_map; lia). done.
  - apply (f_equal zlen) in E1. rewrite !zlen_app in *. rewrite zlen_map. lia.
  - apply (f_equal zlen) in E3. rewrite !zlen_app in *. rewrite zlen_map. lia.
  - intros i Hi. by rewrite !Hget.
Qed.

Lemma gatherArrays_agree_witness :
  exists a1 s1 a2 s2, gatherSwap [2; 0] 1 [7; 8; 9] [0; 0; 0] = Some (a1, s1) /\ gatherCopy [2; 0] 1 [7; 8; 9] [0; 0; 0] = Some (a2, s2) /\
    zlen a1 = zlen [7; 8; 9] /\ zlen a2 = zlen [7; 8; 9] /\
    forall i, 0 <= i < zlen [2; 0] -> a1.[1 + i] = (nthz [7; 8; 9] <$> [2; 0]).[i] /\ a2.[1 + i] = (nthz [7; 8; 9] <$> [2; 0]).[i].
Proof.
  apply (gatherArrays_agree [2; 0] 1 [7; 8; 9] [0; 0; 0] (nthz [7; 8; 9])); [|reflexivity|lia|vm_compute; congruence].
  intros i o Ho%aget_elem. apply nthz_get. rewrite !elem_of_cons in Ho. change (zlen [7; 8; 9]) with 3.
  destruct Ho as [->|[->|Ho]]; [lia..|by apply not_elem_of_nil in Ho].
Defined.
