(* ===== verification/FocusRebalance.v ===== *)
(** * Rebalancing of the focused octree

    [cstone/focus/rebalance.hpp], [cstone/focus/inject.hpp] and [CombinedUpdate] of
    [cstone/focus/octree_focus.hpp]: the decision per tree node, the keys that must be
    resolved, and the update of the locally essential tree. *)

From S2P Require Import Prelude Primitives SfcCommon Csarray SfcBox Morton Hilbert Sfc Octree BoxOverlap.

(** ** Decisions *)

(** [unsigned] products wrap around. *)
Definition mergeCountAndMacOp (k : KeyType) (nodeIdx : Z) (nodeKeys childOffsets parents counts macs : list Z)
    (focusStart focusEnd bucketSize : Z) : option Z :=
  let siblingGroup := Z.quot (nodeIdx - 1) 8 in
  let? parent := if negb (nodeIdx =? 0) then parents.[siblingGroup] else Some 0 in
  let? nodeKey := nodeKeys.[nodeIdx] in
  let level := decodePrefixLength k nodeKey / 3 in
  let? merge :=
    if negb (nodeIdx =? 0) then
      let? parentCount := counts.[parent] in
      let? parentMac := macs.[parent] in
      let? parentKey := nodeKeys.[parent] in
      let countMerge := parentCount <=? bucketSize in
      let macMerge := parentMac =? 0 in
      let firstGroupKey := decodePlaceholderBit k parentKey in
      let lastGroupKey := kwrap k (firstGroupKey + kwrap k (8 * nodeRange k level)) in
      let inFringe := overlapTwoRanges firstGroupKey lastGroupKey focusStart focusEnd in
      Some (countMerge || (macMerge && negb inFringe))
    else Some false in
  if merge : bool then Some 0
  else
    let nodeStart := decodePlaceholderBit k nodeKey in
    let? c := childOffsets.[nodeIdx] in
    let isLeaf := c =? 0 in
    let inFocus := (focusStart <=? nodeStart) && (nodeStart <? focusEnd) in
    let? mac := macs.[nodeIdx] in
    let? count := counts.[nodeIdx] in
    if isLeaf && (negb (mac =? 0) || inFocus) then
      if (level + 3 <? maxTreeLevel k) && (u32 (4096 * bucketSize) <? count) then Some 4096
      else if (level + 2 <? maxTreeLevel k) && (u32 (512 * bucketSize) <? count) then Some 512
      else if (level + 1 <? maxTreeLevel k) && (u32 (64 * bucketSize) <? count) then Some 64
      else if (level <? maxTreeLevel k) && (bucketSize <? count) then Some 8
      else Some 1
    else Some 1.

Definition macRefineOp (k : KeyType) (nodeKey mac : Z) : Z :=
  let level := decodePrefixLength k nodeKey / 3 in
  if (level <? maxTreeLevel k) && negb (mac =? 0) then 8 else 1.

(** [while (nodeOps[a] == 0) a = parents[(a - 1) / 8]]; [None] if the loop is still running
    after [fuel] tests. *)
Fixpoint closestNonZeroAncestor (fuel : nat) (parents nodeOps : list Z) (a : Z) : option Z :=
  match fuel with
  | O => None
  | S fuel =>
      let? op := nodeOps.[a] in
      if op =? 0 then
        let? p := parents.[Z.quot (a - 1) 8] in
        closestNonZeroAncestor fuel parents nodeOps p
      else Some a
  end.

(** A node has at most as many proper ancestors as its index in level order. *)
Definition nzAncestorOp (k : KeyType) (nodeIdx : Z) (prefixes parents nodeOps : list Z) : option Z :=
  if nodeIdx =? 0 then nodeOps.[0]
  else
    let? a := closestNonZeroAncestor (S (Z.to_nat nodeIdx)) parents nodeOps nodeIdx in
    let? own := prefixes.[nodeIdx] in
    let? anc := prefixes.[a] in
    if decodePlaceholderBit k own =? decodePlaceholderBit k anc then nodeOps.[a] else Some 0.

Definition rebalanceDecisionEssential (k : KeyType) (nodeKeys childOffsets parents counts macs : list Z)
    (focusStart focusEnd bucketSize : Z) (nodeOps : list Z) : option (list Z) :=
  for_loop 0 (zlen nodeKeys) (fun i nodeOps =>
    let? op := mergeCountAndMacOp k i nodeKeys childOffsets parents counts macs focusStart focusEnd bucketSize in
    aset nodeOps i op) nodeOps.

(** One iteration of [protectAncestors] on the number of changes and the operations, which
    are read and overwritten in place. *)
Definition protectBody (k : KeyType) (nodeKeys parents : list Z) (i : Z) (st : Z * list Z) : option (Z * list Z) :=
  let '(numChanges, nodeOps) := st in
  let? opDecision := nzAncestorOp k i nodeKeys parents nodeOps in
  let numChanges := if negb (opDecision =? 1) then numChanges + 1 else numChanges in
  let? nodeOps := aset nodeOps i opDecision in
  Some (numChanges, nodeOps).

(** The iterations run in parallel; [order] is the order in which they take effect. *)
Definition protectAncestorsIn (order : list Z) (k : KeyType) (nodeKeys parents nodeOps : list Z) : option (bool * list Z) :=
  let? (numChanges, nodeOps) := foldM (protectBody k nodeKeys parents) order (0, nodeOps) in
  Some (numChanges =? 0, nodeOps).

Definition protectAncestors (k : KeyType) (nodeKeys parents nodeOps : list Z) : option (bool * list Z) :=
  protectAncestorsIn (seqZ 0 (zlen nodeKeys)) k nodeKeys parents nodeOps.

(** ** Mandatory keys *)

Inductive ResolutionStatus := converged | cancelMerge | rebalance | failed.

#[export] Instance ResolutionStatus_eq_dec : EqDecision ResolutionStatus.
Proof. solve_decision. Defined.

(** Underlying integer of the enumeration, by which [std::max] compares. *)
Definition statusValue (s : ResolutionStatus) : Z :=
  match s with converged => 0 | cancelMerge => 1 | rebalance => 2 | failed => 3 end.

Definition status_max (a b : ResolutionStatus) : ResolutionStatus := if statusValue a <? statusValue b then b else a.

(** [for (i = firstSibling; i < firstSibling + 8; ++i) if (nodeOps[i] == 0) nodeOps[i] = 1]. *)
Definition keepSiblings (firstSibling : Z) (nodeOps : list Z) : option (list Z) :=
  for_loop firstSibling (firstSibling + 8) (fun i nodeOps =>
    let? op := nodeOps.[i] in if op =? 0 then aset nodeOps i 1 else Some nodeOps) nodeOps.

(** The [do ... while (parent != 0)] loop. *)
Fixpoint undoMergesLoop (fuel : nat) (childOffsets parents : list Z) (parent : Z) (nodeOps : list Z) : option (list Z) :=
  match fuel with
  | O => None
  | S fuel =>
      let? parent := parents.[Z.quot (parent - 1) 8] in
      let? firstSibling := childOffsets.[parent] in
      let? nodeOps := keepSiblings firstSibling nodeOps in
      if negb (parent =? 0) then undoMergesLoop fuel childOffsets parents parent nodeOps else Some nodeOps
  end.

Definition enforceKeySingle (k : KeyType) (key : Z) (nodeKeys childOffsets parents nodeOps : list Z) :
    option (ResolutionStatus * list Z) :=
  if (key =? 0) || (key =? nodeRange k 0) then Some (converged, nodeOps)
  else
    let nodeKeyWant := makePrefix k key in
    let? nodeIdx := containingNode k nodeKeyWant nodeKeys childOffsets in
    let? nodeKeyHave := nodeKeys.[nodeIdx] in
    let nodeLevelHave := decodePrefixLength k nodeKeyHave / 3 in
    let trySplit := negb (nodeKeyHave =? nodeKeyWant) && (nodeLevelHave <? maxTreeLevel k) in
    let? op := nodeOps.[nodeIdx] in
    let undoMerges := (op =? 0) || trySplit in
    let? (status, nodeOps) :=
      if undoMerges && (0 <? nodeIdx) then
        let? nodeOps := undoMergesLoop (Z.to_nat nodeIdx) childOffsets parents nodeIdx nodeOps in
        Some (cancelMerge, nodeOps)
      else Some (converged, nodeOps) in
    if trySplit then
      let keyPos := lastNzPlace k key in
      let maxAddLevels := 1 in
      let levelDiff := i32 (u32 (keyPos - nodeLevelHave)) in
      let status := if maxAddLevels <? levelDiff then failed else rebalance in
      let levelDiff := stl_min levelDiff maxAddLevels in
      let? op := nodeOps.[nodeIdx] in
      let? nodeOps := aset nodeOps nodeIdx (stl_max op (Z.shiftl 1 (3 * levelDiff))) in
      Some (status, nodeOps)
    else Some (status, nodeOps).

Definition enforceKeys (k : KeyType) (mandatoryKeys nodeKeys childOffsets parents nodeOps : list Z) :
    option (ResolutionStatus * list Z) :=
  foldM (fun key '(status, nodeOps) =>
    let? (s, nodeOps) := enforceKeySingle k key nodeKeys childOffsets parents nodeOps in
    Some (status_max s status, nodeOps)) mandatoryKeys (converged, nodeOps).

(** ** Particle counts of selected leaves *)

(** 64-bit sum of the global counts between two keys, saturated at 32 bits. *)
Definition rangeCountBody (leaves counts leavesFocus leavesFocusIdx : list Z) (i : Z) (countsFocus : list Z) : option (list Z) :=
  let? leafIdx := leavesFocusIdx.[i] in
  let? startKey := leavesFocus.[leafIdx] in
  let? endKey := leavesFocus.[leafIdx + 1] in
  let? startIdx := findNodeBelow leaves (zlen leaves) startKey in
  let? endIdx := findNodeAbove leaves (zlen leaves) endKey in
  let? cs := mapM_range startIdx endIdx (fun j => counts.[j]) in
  let globCount := foldl (fun s c => u64 (s + c)) 0 cs in
  aset countsFocus leafIdx (u32 (Z.min 0xFFFFFFFF globCount)).

Definition rangeCount (leaves counts leavesFocus leavesFocusIdx countsFocus : list Z) : option (list Z) :=
  for_loop 0 (zlen leavesFocusIdx) (rangeCountBody leaves counts leavesFocus leavesFocusIdx) countsFocus.

(** ** Key injection *)

(** [std::sort] on integers and [std::unique] followed by [erase]. *)
Definition std_sort (l : list Z) : list Z := merge_sort Z.le l.

Fixpoint std_unique (l : list Z) : list Z :=
  match l with
  | [] => []
  | x :: rest =>
      match rest with
      | [] => [x]
      | y :: _ => if x =? y then std_unique rest else x :: std_unique rest
      end
  end.

Definition injectKeys (k : KeyType) (tree keys : list Z) : option (list Z) :=
  let spanningKeys := std_unique (std_sort (keys ++ [0] ++ [nodeRange k 0])) in
  let? spanningTree := computeSpanningTree k spanningKeys in
  Some (std_unique (std_sort (tree ++ spanningTree))).

(** ** The combined update *)

(** [internalToLeaf] stores the operations of all nodes and the child offsets those of the
    leaves; the node keys receive the new leaf array, which is then swapped with the old
    one. *)
Definition updateFocus (k : KeyType) (tree : OctreeData) (leaves : list Z) (bucketSize focusStart focusEnd : Z)
    (mandatoryKeys counts macs : list Z) : option (bool * OctreeData * list Z) :=
  let a := arrays tree in
  let? nodeOpsAll := rebalanceDecisionEssential k (prefixes a) (childOffsets a) (parents a) counts macs
    focusStart focusEnd bucketSize (internalToLeaf a) in
  let allMandatoryKeys := [focusStart; focusEnd] ++ mandatoryKeys in
  let? (status, nodeOpsAll) := enforceKeys k allMandatoryKeys (prefixes a) (childOffsets a) (parents a) nodeOpsAll in
  let? (conv, nodeOpsAll) := protectAncestors k (prefixes a) (parents a) nodeOpsAll in
  let leafToInternalSpan := take (Z.to_nat (numLeafNodes tree)) (drop (Z.to_nat (numInternalNodes tree)) (leafToInternal a)) in
  let? nodeOps := gather leafToInternalSpan nodeOpsAll (childOffsets a) in
  let conv :=
    match status with
    | cancelMerge => forallb (fun i => i =? 1) (take (Z.to_nat (numLeafNodes tree)) nodeOps)
    | rebalance => false
    | _ => conv
    end in
  let? (newLeaves, nodeOps) := rebalanceTree k leaves (prefixes a) nodeOps in
  let? (conv, newLeaves) :=
    match status with
    | failed => let? newLeaves := injectKeys k newLeaves allMandatoryKeys in Some (false, newLeaves)
    | _ => Some (conv, newLeaves)
    end in
  let tree := mkOctreeData (numNodes tree) (numLeafNodes tree) (numInternalNodes tree)
    (mkOctreeArrays leaves nodeOps (parents a) (levelRange a) nodeOpsAll (leafToInternal a)) in
  let? tree := updateInternalTree k newLeaves (OctreeData_resize k tree (nNodes newLeaves)) in
  Some (conv, tree, newLeaves).
