(* ===== verification/FocusInject.v ===== *)
(** * Key injection

    [injectKeys] merges a spanning tree of the mandatory keys into a leaf array: the union of
    two cornerstone trees, sorted and without duplicates, is a cornerstone tree. *)

From S2P Require Import Prelude Primitives SfcCommon Csarray CsInvariant CsRebalance CsCounts CsUtil Octree FocusRebalance.

(** ** Sorting and duplicates *)

Lemma std_unique_cons x y l :
  std_unique (x :: y :: l) = if x =? y then std_unique (y :: l) else x :: std_unique (y :: l).
Proof. done. Qed.

Lemma std_unique_elem l x : x ∈ std_unique l <-> x ∈ l.
Proof.
  induction l as [|y [|z l] IH]; [done|done|]. rewrite std_unique_cons. destruct (Z.eqb_spec y z) as [->|Hne].
  - rewrite IH. rewrite !elem_of_cons. tauto.
  - rewrite elem_of_cons, IH. by rewrite (elem_of_cons (z :: l)).
Qed.

Lemma std_unique_sorted l : StronglySorted Z.le l -> StronglySorted Z.lt (std_unique l).
Proof.
  induction l as [|y [|z l] IH]; intros Hs; [constructor|repeat constructor|]. rewrite std_unique_cons.
  apply StronglySorted_inv in Hs as [Hs Hy]. destruct (Z.eqb_spec y z) as [->|Hne]; [by apply IH|].
  constructor; [by apply IH|]. apply Forall_forall. intros x Hx. apply (proj1 (std_unique_elem _ _)) in Hx.
  apply StronglySorted_inv in Hs as [_ Hz]. rewrite Forall_cons in Hy. destruct Hy as [Hyz Hy].
  rewrite Forall_forall in Hz. apply elem_of_cons in Hx as [->|Hx]; [lia|]. specialize (Hz x Hx). lia.
Qed.

(** The ascending list of the elements of [l]. *)
Definition sortedSet (l : list Z) : list Z := std_unique (std_sort l).

Lemma sortedSet_elem l x : x ∈ sortedSet l <-> x ∈ l.
Proof. unfold sortedSet, std_sort. rewrite std_unique_elem. by rewrite (merge_sort_Permutation Z.le l). Qed.

Lemma sortedSet_sorted l : StronglySorted Z.lt (sortedSet l).
Proof. apply std_unique_sorted. apply (StronglySorted_merge_sort Z.le). Qed.

Lemma StronglySorted_get (l : list Z) i j x y :
  StronglySorted Z.lt l -> i < j -> l.[i] = Some x -> l.[j] = Some y -> x < y.
Proof.
  intros Hs. revert i j. induction Hs as [|z l _ IH Hz]; intros i j Hij Hx Hy.
  { apply aget_Some_range in Hx. change (zlen (@nil Z)) with 0 in Hx. lia. }
  pose proof (aget_Some_range _ _ _ Hx). rewrite (aget_cons_S z l j) in Hy by lia.
  destruct (decide (i = 0)) as [->|].
  - injection Hx as <-. rewrite Forall_forall in Hz. apply Hz. by eapply aget_elem.
  - rewrite aget_cons_S in Hx by lia. eapply (IH (i - 1) (j - 1)); [lia|done|done].
Qed.

(** ** Unions of cornerstone trees *)

Lemma isNode_nested k u v u' v' x :
  isNode k u v -> isNode k u' v' -> u <= x < v -> u' <= x < v' -> (u' <= u /\ v <= v') \/ (u <= u' /\ v' <= v).
Proof.
  assert (Hle : forall u v u' v' m m', 0 <= m <= m' -> (8 ^ m | u) -> v = u + 8 ^ m -> (8 ^ m' | u') -> v' = u' + 8 ^ m' ->
    u <= x < v -> u' <= x < v' -> u' <= u /\ v <= v').
  { clear. intros u v u' v' m m' Hm Hd -> Hd' -> Hx Hx'. pose proof (pow8_pos m ltac:(lia)).
    assert (Hm' : (8 ^ m | u')) by (by eapply pow8_divide_trans; [|exact Hd']; lia).
    assert (Hm'' : (8 ^ m | u' + 8 ^ m')) by (apply Z.divide_add_r; [done|apply pow8_divide; lia]). split.
    - destruct (Z.le_gt_cases u' u) as [|Hgt]; [done|]. pose proof (multiples_apart (8 ^ m) u u' ltac:(lia) Hd Hm' Hgt). lia.
    - assert (u < u' + 8 ^ m') as Hlt by lia. pose proof (multiples_apart (8 ^ m) _ _ ltac:(lia) Hd Hm'' Hlt). lia. }
  intros (m & Hm & _ & Hd & Hv & _) (m' & Hm' & _ & Hd' & Hv' & _) Hx Hx'. destruct (Z.le_gt_cases m m').
  - left. by apply (Hle u v u' v' m m'); [lia|..].
  - right. by apply (Hle u' v' u v m' m); [lia|..].
Qed.

Section Union.
Context (k : KeyType) (t1 t2 S : list Z).
Hypothesis H1 : csTree k t1.
Hypothesis H2 : csTree k t2.
Hypothesis HS : StronglySorted Z.lt S.
Hypothesis Helem : forall x, x ∈ S <-> x ∈ t1 \/ x ∈ t2.

(** The node of a tree around a key and no key of the tree inside of it. *)
Lemma csTree_around t x :
  csTree k t -> 0 <= x < keyMax k ->
  exists u v, isNode k u v /\ u <= x < v /\ u ∈ t /\ v ∈ t /\ forall y, y ∈ t -> ~ u < y < v.
Proof using.
  clear. intros Ht Hx. pose proof (treelet_nonempty _ _ _ _ Ht) as Hne. unfold nNodes in *.
  destruct (nodes_locate k (zlen t - 1) (nthz t)) with (x := x) as (i & Hi & Hxi); try done.
  - assert (zlen t <> 1); [|lia]. intros E. pose proof (treelet_first _ _ _ _ Ht) as F. pose proof (treelet_last _ _ _ _ Ht) as L.
    rewrite E in L. change (1 - 1) with 0 in L. rewrite F in L. kfacts k. injection L as L. lia.
  - intros i Hi. by eapply treelet_isNode.
  - apply nthz_Some. by eapply treelet_first.
  - apply nthz_Some. by eapply treelet_last.
  - exists (nthz t i), (nthz t (i + 1)). split; [by eapply treelet_isNode|]. split; [done|].
    split; [eapply aget_elem, nthz_get; lia|]. split; [eapply aget_elem, nthz_get; lia|].
    intros y [j Hj]%elem_aget Hy. pose proof (aget_Some_range _ _ _ Hj) as Hr. apply nthz_Some in Hj as <-.
    assert (HT : forall i, 0 <= i < zlen t - 1 -> isNode k (nthz t i) (nthz t (i + 1))) by (intros; by eapply treelet_isNode).
    pose proof (nodes_lt_inv k _ _ HT i j ltac:(lia) ltac:(lia) ltac:(lia)).
    pose proof (nodes_lt_inv k _ _ HT j (i + 1) ltac:(lia) ltac:(lia) ltac:(lia)). lia.
Qed.

Lemma csTree_bounds t x : csTree k t -> x ∈ t -> 0 <= x <= keyMax k.
Proof using.
  clear. intros Ht [i Hi]%elem_aget. pose proof (aget_Some_range _ _ _ Hi). apply nthz_Some in Hi as <-.
  destruct (decide (i = zlen t - 1)) as [->|].
  - rewrite (nthz_Some _ _ _ (treelet_last _ _ _ _ Ht)). kfacts k. lia.
  - pose proof (treelet_isNode _ _ _ _ i Ht ltac:(lia)) as Hn%isNode_lt. lia.
Qed.

Lemma union_step a b :
  a ∈ S -> b ∈ S -> a < b -> (forall x, x ∈ S -> ~ a < x < b) -> isNode k a b.
Proof using H1 H2 Helem.
  clear HS.
  intros Ha Hb Hab Hgap. assert (Hr : forall x, x ∈ S -> 0 <= x <= keyMax k).
  { intros x [Hx|Hx]%Helem; [by apply (csTree_bounds t1)|by apply (csTree_bounds t2)]. }
  pose proof (Hr a Ha). pose proof (Hr b Hb).
  destruct (csTree_around t1 a H1 ltac:(lia)) as (u & v & Hn & Hx & Hu & Hv & Hno).
  destruct (csTree_around t2 a H2 ltac:(lia)) as (u' & v' & Hn' & Hx' & Hu' & Hv' & Hno').
  assert (Hor : u = a \/ u' = a).
  { apply Helem in Ha as [Ha|Ha]; [left; specialize (Hno a Ha)|right; specialize (Hno' a Ha)]; lia. }
  assert (Hgap1 : ~ a < v < b) by (apply Hgap, Helem; by left).
  assert (Hgap2 : ~ a < v' < b) by (apply Hgap, Helem; by right).
  assert (Hb' : ~ u < b < v \/ ~ u' < b < v') by (apply Helem in Hb as [Hb|Hb]; [left; by apply Hno|right; by apply Hno']).
  destruct (isNode_nested k u v u' v' a Hn Hn' Hx Hx') as [[Hs Ht]|[Hs Ht]].
  - assert (u = a) as -> by lia. assert (b = v) as ->; [|done].
    apply Helem in Hb as [Hb|Hb]; [specialize (Hno b Hb)|specialize (Hno' b Hb)]; lia.
  - assert (u' = a) as -> by lia. assert (b = v') as ->; [|done].
    apply Helem in Hb as [Hb|Hb]; [specialize (Hno b Hb)|specialize (Hno' b Hb)]; lia.
Qed.

Lemma union_csTree : csTree k S.
Proof using H1 H2 HS Helem.
  assert (Hr : forall x, x ∈ S -> 0 <= x <= keyMax k) by (intros x [Hx|Hx]%Helem; [by apply (csTree_bounds t1)|by apply (csTree_bounds t2)]).
  assert (Hmin : 0 ∈ S) by (apply Helem; left; eapply aget_elem, treelet_first; exact H1).
  assert (Hmax : keyMax k ∈ S) by (apply Helem; left; eapply aget_elem, treelet_last; exact H1).
  assert (Hpos : 0 < zlen S) by (apply elem_aget in Hmin as [i Hi]; apply aget_Some_range in Hi; lia).
  apply treelet_intro; [done| | |].
  - pose proof (nthz_get S 0 ltac:(lia)) as E. rewrite E. f_equal. apply elem_aget in Hmin as [i Hi].
    pose proof (aget_Some_range _ _ _ Hi). pose proof (Hr _ (aget_elem _ _ _ E)).
    destruct (decide (i = 0)) as [->|]; [by apply nthz_Some|].
    pose proof (StronglySorted_get S 0 i _ _ HS ltac:(lia) E Hi). lia.
  - pose proof (nthz_get S (zlen S - 1) ltac:(lia)) as E. rewrite E. f_equal. apply elem_aget in Hmax as [i Hi].
    pose proof (aget_Some_range _ _ _ Hi). pose proof (Hr _ (aget_elem _ _ _ E)).
    destruct (decide (i = zlen S - 1)) as [->|]; [by apply nthz_Some|].
    pose proof (StronglySorted_get S i (zlen S - 1) _ _ HS ltac:(lia) Hi E). lia.
  - intros i Hi. pose proof (nthz_get S i ltac:(lia)) as Ei. pose proof (nthz_get S (i + 1) ltac:(lia)) as Ej.
    apply union_step; [by eapply aget_elem..| |].
    + by apply (StronglySorted_get S i (i + 1)); [|lia|..].
    + intros x [j Hj]%elem_aget Hx.
      destruct (Z.le_gt_cases j i) as [Hle|Hgt].
      * destruct (decide (j = i)) as [->|]; [rewrite Ei in Hj; injection Hj; lia|].
        pose proof (StronglySorted_get S j i _ _ HS ltac:(lia) Hj Ei). lia.
      * destruct (decide (j = i + 1)) as [->|]; [rewrite Ej in Hj; injection Hj; lia|].
        pose proof (StronglySorted_get S (i + 1) j _ _ HS ltac:(lia) Ej Hj). lia.
Qed.

End Union.

(** ** injectKeys *)

Lemma zsorted_strict l : StronglySorted Z.lt l -> zsorted l.
Proof.
  intros Hs i j x y Hij Hx Hy. destruct (decide (i = j)) as [->|]; [rewrite Hx in Hy; injection Hy; lia|].
  pose proof (StronglySorted_get l i j x y Hs ltac:(lia) Hx Hy). lia.
Qed.

Lemma sortedSet_spanning k keys :
  Forall (fun x => 0 <= x <= keyMax k) keys -> spanningKeys_ok k (sortedSet (keys ++ [0] ++ [nodeRange k 0])).
Proof.
  intros Hk. kfacts k. rewrite nodeRange_0. set (S := sortedSet _). pose proof (sortedSet_sorted (keys ++ [0] ++ [keyMax k])) as HS. fold S in HS.
  assert (Hr : forall x, x ∈ S -> 0 <= x <= keyMax k).
  { intros x Hx. apply (proj1 (sortedSet_elem _ _)), elem_of_app in Hx as [Hx|Hx]; [rewrite Forall_forall in Hk; by apply Hk|].
    apply elem_of_cons in Hx as [->|Hx]; [lia|]. apply list_elem_of_singleton in Hx as ->. lia. }
  assert (Hmin : 0 ∈ S) by (apply sortedSet_elem, elem_of_app; right; by left).
  assert (Hmax : keyMax k ∈ S) by (apply sortedSet_elem, elem_of_app; right; right; by left).
  apply elem_aget in Hmin as [i Hi]. apply elem_aget in Hmax as [j Hj].
  pose proof (aget_Some_range _ _ _ Hi). pose proof (aget_Some_range _ _ _ Hj).
  assert (i = 0) as ->.
  { destruct (decide (i = 0)) as [|]; [done|]. pose proof (nthz_get S 0 ltac:(lia)) as E.
    pose proof (StronglySorted_get S 0 i _ _ HS ltac:(lia) E Hi). pose proof (Hr _ (aget_elem _ _ _ E)). lia. }
  assert (j = zlen S - 1) as ->.
  { destruct (decide (j = zlen S - 1)) as [|]; [done|]. pose proof (nthz_get S (zlen S - 1) ltac:(lia)) as E.
    pose proof (StronglySorted_get S j (zlen S - 1) _ _ HS ltac:(lia) Hj E). pose proof (Hr _ (aget_elem _ _ _ E)). lia. }
  split; [|done|done|by apply zsorted_strict].
  destruct (decide (zlen S = 1)) as [E|]; [|lia]. rewrite E in Hj. change (1 - 1) with 0 in Hj. rewrite Hi in Hj. injection Hj. lia.
Qed.

(** The result is a cornerstone tree with the old leaves and the injected keys. *)
Lemma injectKeys_run k tree keys :
  csTree k tree -> Forall (fun x => 0 <= x <= keyMax k) keys ->
  exists tree', injectKeys k tree keys = Some tree' /\ csTree k tree' /\
    (forall x, x ∈ tree -> x ∈ tree') /\ (forall x, x ∈ keys -> x ∈ tree').
Proof.
  intros Ht Hk. pose proof (sortedSet_spanning k keys Hk) as Hsp. unfold injectKeys. fold (sortedSet (keys ++ [0] ++ [nodeRange k 0])).
  set (span := sortedSet (keys ++ [0] ++ [nodeRange k 0])) in *.
  rewrite (computeSpanningTree_run k span Hsp). eexists. split; [done|].
  match goal with |- context [std_unique (std_sort ?l)] => fold (sortedSet l) end. split; [|split].
  - eapply union_csTree; [exact Ht|exact (spanningTree_csTree k span Hsp)|apply sortedSet_sorted|].
    intros x. by rewrite sortedSet_elem, elem_of_app.
  - intros x Hx. apply sortedSet_elem, elem_of_app. by left.
  - intros x Hx. apply sortedSet_elem, elem_of_app. right. apply spanningTree_contains; [done|].
    apply sortedSet_elem, elem_of_app. by left.
Qed.
