(* ===== verification/FocusTree.v ===== *)
(** * Operations on the nodes of an octree

    The effect of one operation per tree node, independent of the arrays that store them: an
    operation 0 removes a node and its siblings in favour of the parent, a non-zero operation
    of a leaf splits it.  Shown here: which leaf array results, that it is a cornerstone tree
    and which keys it contains. *)

From S2P Require Import Prelude Primitives SfcCommon Csarray CsInvariant CsRebalance CsCounts CsUtil Octree OctreeNodes OctreeBuild OctreeQueries.

(** ** The closest ancestor that is kept *)

Inductive nzAnc (op : Z -> Z) : Z -> Z -> Prop :=
| nz_here q : op q <> 0 -> nzAnc op q q
| nz_up q a : op q = 0 -> nzAnc op (q / 8) a -> nzAnc op q a.

Fixpoint nzAncOf (n : nat) (op : Z -> Z) (q : Z) : Z :=
  match n with
  | O => q
  | S n => if op q =? 0 then nzAncOf n op (q / 8) else q
  end.

Definition closestNz (op : Z -> Z) (q : Z) : Z := nzAncOf (Z.to_nat (nodeLevel q)) op q.

(** The operation of the closest kept ancestor if [q] is its left-most descendant. *)
Definition protectedOp (k : KeyType) (op : Z -> Z) (q : Z) : Z :=
  let a := closestNz op q in if nodeStart k q =? nodeStart k a then op a else 0.

Lemma nzAnc_det op q a b : nzAnc op q a -> nzAnc op q b -> a = b.
Proof. intros H. revert b. induction H as [q Hq|q a Hq _ IH]; intros b Hb; inversion Hb; subst; [done|done|done|auto]. Qed.

Lemma nzAnc_nonzero op q a : nzAnc op q a -> op a <> 0.
Proof. by induction 1. Qed.

Lemma node_one p : nodeAt 0 p -> p = 1.
Proof. intros (_ & H). change (8 ^ 0) with 1 in H. lia. Qed.

Lemma closestNz_spec op q : op 1 <> 0 -> nodeAt (nodeLevel q) q -> nzAnc op q (closestNz op q).
Proof.
  intros H1 Hq. unfold closestNz. pose proof Hq as (Hl & _).
  assert (Hgen : forall n q, nodeAt (Z.of_nat n) q -> nzAnc op q (nzAncOf n op q)).
  { clear - H1. induction n as [|n IH]; intros q Hq; cbn [nzAncOf].
    - apply node_one in Hq as ->. by constructor.
    - destruct (Z.eqb_spec (op q) 0) as [E|]; [|by constructor]. apply nz_up; [done|]. apply IH.
      replace (Z.of_nat n) with (Z.of_nat (S n) - 1) by lia. apply nodeAt_parent; [done|].
      intros ->. destruct Hq as (_ & Hq). rewrite Nat2Z.inj_succ, Z.pow_succ_r in Hq by lia. pose proof (pow8_pos (Z.of_nat n)). lia. }
  apply Hgen. by rewrite Z2Nat.id by lia.
Qed.

Lemma protectedOp_nz k op q a :
  op 1 <> 0 -> nodeAt (nodeLevel q) q -> nzAnc op q a ->
  protectedOp k op q = if nodeStart k q =? nodeStart k a then op a else 0.
Proof. intros H1 Hq Ha. unfold protectedOp. by rewrite (nzAnc_det op q _ _ (closestNz_spec op q H1 Hq) Ha). Qed.

Lemma protectedOp_keep k op q : op 1 <> 0 -> nodeAt (nodeLevel q) q -> op q <> 0 -> protectedOp k op q = op q.
Proof. intros H1 Hq Ho. rewrite (protectedOp_nz k op q q) by (done || by constructor). by rewrite Z.eqb_refl. Qed.

Lemma children_of q : exists c, 0 <= c < 8 /\ q = 8 * (q / 8) + c.
Proof. exists (q mod 8). pose proof (Z.mod_pos_bound q 8). pose proof (Z.div_mod q 8). lia. Qed.

Lemma div8_child q c : 0 <= c < 8 -> (8 * q + c) / 8 = q.
Proof. intros. symmetry. apply Z.div_unique_pos with c; lia. Qed.

Section Tree.
Context (k : KeyType) (t : otree).
Hypothesis Hdepth : depthLe (maxTreeLevel k) t.

Local Abbreviation inner := (innerKeys 1 t).
Local Abbreviation leaf := (leafKeys 1 t).

Lemma tree_parent q : q ∈ allKeys 1 t -> q <> 1 -> q / 8 ∈ allKeys 1 t.
Proof using. intros Hq Hne. apply elem_of_app. left. by apply parent_inner. Qed.

Lemma nzAnc_ext op op' q a :
  (forall r, r ∈ allKeys 1 t -> op r = op' r) -> op 1 <> 0 -> q ∈ allKeys 1 t -> nzAnc op q a -> nzAnc op' q a.
Proof using.
  intros He H1 Hq Ha. induction Ha as [q Ho|q a Ho _ IH].
  - constructor. by rewrite <- He.
  - apply nz_up; [by rewrite <- He|]. apply IH, tree_parent; [done|]. congruence.
Qed.

Lemma protectedOp_ext op op' q :
  (forall r, r ∈ allKeys 1 t -> op r = op' r) -> op 1 <> 0 -> q ∈ allKeys 1 t -> protectedOp k op q = protectedOp k op' q.
Proof using Hdepth.
  intros He H1 Hq. destruct (allKeys_node k t Hdepth q Hq) as [Hn _].
  assert (H1' : op' 1 <> 0) by (rewrite <- He; [done|apply allKeys_root]).
  pose proof (closestNz_spec op q H1 Hn) as Ha. pose proof (nzAnc_ext op op' q _ He H1 Hq Ha) as Hb.
  rewrite (protectedOp_nz k op q _ H1 Hn Ha), (protectedOp_nz k op' q _ H1' Hn Hb).
  rewrite He; [done|]. clear Hb. induction Ha as [q Ho|q a Ho _ IH]; [done|].
  apply IH; [apply tree_parent; [done|congruence]|]. apply (allKeys_node k t Hdepth), tree_parent; [done|congruence].
Qed.

(** Overwriting the operation of one node by its protected value changes no protected value. *)
Lemma protectedOp_update op op' q r :
  op 1 <> 0 -> q ∈ allKeys 1 t -> r ∈ allKeys 1 t -> op' q = protectedOp k op q ->
  (forall x, x ∈ allKeys 1 t -> x <> q -> op' x = op x) -> protectedOp k op' r = protectedOp k op r.
Proof using Hdepth.
  intros H1 Hq Hr Heq Hne. destruct (allKeys_node k t Hdepth q Hq) as [Hnq _]. destruct (allKeys_node k t Hdepth r Hr) as [Hnr _].
  pose proof (closestNz_spec op q H1 Hnq) as Haq. set (a := closestNz op q) in *.
  rewrite (protectedOp_nz k op q a H1 Hnq Haq) in Heq. pose proof (nzAnc_nonzero _ _ _ Haq) as Ha0.
  assert (Hsame : op' q = op q -> protectedOp k op' r = protectedOp k op r).
  { intros E. symmetry. apply protectedOp_ext; [|done|done]. intros x Hx. destruct (decide (x = q)) as [->|]; [done|by rewrite Hne]. }
  destruct (decide (op q = 0)) as [Hz|Hnz].
  2: { apply Hsame. rewrite Heq. assert (a = q) as -> by (by apply (nzAnc_det op q); [|constructor]). by rewrite Z.eqb_refl. }
  destruct (Z.eqb_spec (nodeStart k q) (nodeStart k a)) as [Es|]; [|by apply Hsame; rewrite Heq].
  assert (Hq1 : q <> 1) by (intros ->; done).
  assert (H1' : op' 1 <> 0) by (rewrite Hne; [done|apply allKeys_root|done]).
  pose proof (closestNz_spec op r H1 Hnr) as Har. set (b := closestNz op r) in *.
  assert (Hcase : (nzAnc op' r q /\ b = a) \/ (nzAnc op' r b /\ op' b = op b)).
  { clear Hnr Hsame. clearbody b. induction Har as [r Ho|r b Ho Hb IH].
    - right. assert (r <> q) by congruence. split; [constructor|]; by rewrite Hne.
    - destruct (decide (r = q)) as [->|Hrq].
      + left. split; [constructor; congruence|]. apply (nzAnc_det op q); [by apply nz_up|done].
      + assert (Hr1 : r <> 1) by congruence. assert (op' r = 0) by (by rewrite Hne).
        destruct (IH (tree_parent r Hr Hr1)) as [[Hx ?]|[Hx ?]]; [left|right]; (split; [by apply nz_up|done]). }
  rewrite (protectedOp_nz k op r b H1 Hnr Har). destruct Hcase as [[Hn ->]|[Hn Hb]].
  - rewrite (protectedOp_nz k op' r q H1' Hnr Hn), Es, Heq. done.
  - by rewrite (protectedOp_nz k op' r b H1' Hnr Hn), Hb.
Qed.

(** ** Consistent operations *)

(** Siblings are removed together, below a removed node everything is removed, internal
    nodes are kept or removed and leaves are split within the maximum depth. *)
Record opsOk (op : Z -> Z) : Prop := {
  ok_root : op 1 <> 0;
  ok_group : forall q c c', q ∈ inner -> 0 <= c < 8 -> 0 <= c' < 8 -> op (8 * q + c) = 0 -> op (8 * q + c') = 0;
  ok_closed : forall q c, q ∈ inner -> 0 <= c < 8 -> op q = 0 -> op (8 * q + c) = 0;
  ok_inner : forall q, q ∈ inner -> op q = 0 \/ op q = 1;
  ok_leaf : forall q, q ∈ leaf -> opFits (maxTreeLevel k - nodeLevel q) (op q)
}.

(** The leaves of the subtree [s] at the kept node [p] after the operations. *)
Fixpoint focusLeaves (op : Z -> Z) (p : Z) (s : otree) : list Z :=
  match s with
  | OLeaf => splitKeys (nodeStart k p) (nodeStart k p + 8 ^ (maxTreeLevel k - nodeLevel p)) (op p)
  | ONode f => if op (8 * p) =? 0 then [nodeStart k p] else concat ((fun c => focusLeaves op (8 * p + c) (f c)) <$> octants)
  end.

Lemma focusLeaves_node op p f :
  focusLeaves op p (ONode f) =
    if op (8 * p) =? 0 then [nodeStart k p] else blocks (fun c => focusLeaves op (8 * p + c) (f c)) 8.
Proof using. done. Qed.

(** [s] is the part of the tree at node [p]. *)
Definition subtree (p : Z) (s : otree) : Prop :=
  nodeAt (nodeLevel p) p /\ depthLe (maxTreeLevel k - nodeLevel p) s /\
  (forall q, q ∈ innerKeys p s -> q ∈ inner) /\ (forall q, q ∈ leafKeys p s -> q ∈ leaf).

Lemma subtree_root : subtree 1 t.
Proof using Hdepth. split; [apply nodeAt_root|]. change (nodeLevel 1) with 0. by rewrite Z.sub_0_r. Qed.

Lemma subtree_child p f c : subtree p (ONode f) -> 0 <= c < 8 -> subtree (8 * p + c) (f c).
Proof using.
  intros (Hn & [Hm Hd] & Hi & Hl) Hc. pose proof (nodeAt_child _ _ _ Hn Hc) as Hn'. unfold subtree.
  rewrite (nodeAt_level _ _ Hn'). split; [done|]. split; [|split].
  - replace (maxTreeLevel k - (nodeLevel p + 1)) with (maxTreeLevel k - nodeLevel p - 1) by lia. by apply Hd.
  - intros q Hq. apply Hi, innerKeys_elem. right. by exists c.
  - intros q Hq. apply Hl, leafKeys_elem. by exists c.
Qed.

Lemma subtree_inner p f : subtree p (ONode f) -> p ∈ inner.
Proof using. intros (_ & _ & Hi & _). apply Hi, innerKeys_elem. by left. Qed.

Lemma subtree_start p f c : subtree p (ONode f) -> 0 <= c < 8 ->
  nodeStart k (8 * p + c) = nodeStart k p + c * 8 ^ (maxTreeLevel k - nodeLevel p - 1) /\ 0 <= nodeLevel p < maxTreeLevel k.
Proof using.
  intros (Hn & [Hm _] & _) Hc. pose proof Hn as (Hl & _). split; [|lia]. apply nodeStart_child; [done|lia|done].
Qed.

Section Ops.
Context (op : Z -> Z).
Hypothesis Hok : opsOk op.

Lemma zero_below p s : subtree p s -> op p = 0 -> forall q, q ∈ allKeys p s -> op q = 0.
Proof using Hok.
  revert p. induction s as [|f IH]; intros p Hs Hp q Hq.
  { apply elem_of_app in Hq as [Hq|Hq]; [by apply not_elem_of_nil in Hq|by apply list_elem_of_singleton in Hq as ->]. }
  apply allKeys_elem in Hq as [->|(c & Hc & Hq)]; [done|].
  apply (IH c (8 * p + c)); [by apply subtree_child| |done].
  apply (ok_closed _ Hok); [by eapply subtree_inner|done|done].
Qed.

Lemma zero_up s : forall p a q, nzAnc op (p / 8) a -> (forall r, r ∈ allKeys p s -> op r = 0) -> q ∈ allKeys p s -> nzAnc op q a.
Proof using.
  induction s as [|f IH]; intros p a q Ha Hz Hq.
  { apply elem_of_app in Hq as [Hq|Hq]; [by apply not_elem_of_nil in Hq|]. apply list_elem_of_singleton in Hq as ->.
    apply nz_up; [|done]. apply Hz, allKeys_root. }
  assert (Hp : nzAnc op p a) by (apply nz_up; [apply Hz, allKeys_root|done]).
  apply allKeys_elem in Hq as [->|(c & Hc & Hq)]; [done|]. apply (IH c (8 * p + c)); [by rewrite div8_child| |done].
  intros r Hr. apply Hz, allKeys_elem. right. by exists c.
Qed.

(** What the leaves of a subtree contribute to the new leaf array. *)
Definition leafOut (q : Z) : list Z :=
  splitKeys (nodeStart k q) (nodeStart k q + 8 ^ (maxTreeLevel k - nodeLevel q)) (protectedOp k op q).

Lemma first_leaf s : forall p, subtree p s ->
  concat ((fun q => if nodeStart k q =? nodeStart k p then [nodeStart k p] else []) <$> leafKeys p s) = [nodeStart k p].
Proof using.
  clear Hok. induction s as [|f IH]; intros p Hs.
  { simpl. by rewrite Z.eqb_refl. }
  rewrite leafKeys_blocks. set (g := fun q => if nodeStart k q =? nodeStart k p then [nodeStart k p] else []).
  assert (Hgen : forall n : nat, (n <= 7)%nat -> concat (g <$> blocks (fun c => leafKeys (8 * p + c) (f c)) (Z.of_nat n + 1)) = [nodeStart k p]).
  { induction n as [|n IHn]; intros Hn; rewrite blocks_succ, fmap_app, concat_app by lia.
    - change (blocks _ (Z.of_nat 0)) with (@nil Z). simpl app.
      destruct (subtree_start p f 0 Hs ltac:(lia)) as [E _]. rewrite Z.mul_0_l, (Z.add_0_r (nodeStart k p)) in E.
      pose proof (IH 0 (8 * p + 0) (subtree_child p f 0 Hs ltac:(lia))) as IH0. rewrite E in IH0. exact IH0.
    - replace (Z.of_nat (S n)) with (Z.of_nat n + 1) by lia. rewrite IHn by lia.
      replace (concat (g <$> leafKeys (8 * p + (Z.of_nat n + 1)) (f (Z.of_nat n + 1)))) with (@nil Z); [done|].
      symmetry. apply concat_nil_Forall, Forall_fmap, Forall_forall. intros q Hq. simpl. unfold g.
      assert (Hc : 0 <= Z.of_nat n + 1 < 8) by lia. destruct (subtree_start p f _ Hs Hc) as [E Hl].
      pose proof (subtree_child p f _ Hs Hc) as (Hnc & Hdc & _). pose proof (leafKeys_below _ _ _ Hq) as Hb.
      destruct (depth_level _ _ _ _ Hnc _ Hdc Hq) as [Hlq _].
      destruct (below_range k _ _ q Hnc Hb ltac:(lia)) as (_ & _ & Hge & _). rewrite E in Hge.
      pose proof (pow8_pos (maxTreeLevel k - nodeLevel p - 1) ltac:(lia)).
      destruct (Z.eqb_spec (nodeStart k q) (nodeStart k p)); [nia|done]. }
  exact (Hgen 7%nat ltac:(lia)).
Qed.

Lemma subtree_leaf_node p s q : subtree p s -> q ∈ leafKeys p s -> nodeAt (nodeLevel q) q.
Proof using. intros (Hn & Hd & _) Hq. by destruct (depth_level _ _ _ _ Hn _ Hd Hq). Qed.

(** The new leaf array is obtained leaf by leaf. *)
Lemma leafOut_focus s : forall p, subtree p s -> op p <> 0 -> concat (leafOut <$> leafKeys p s) = focusLeaves op p s.
Proof using Hok.
  pose proof (ok_root _ Hok) as H1. induction s as [|f IH]; intros p Hs Hp.
  { simpl. rewrite app_nil_r. unfold leafOut. rewrite protectedOp_keep; [done|done|apply Hs|done]. }
  pose proof (subtree_inner p f Hs) as Hin. rewrite focusLeaves_node. destruct (Z.eqb_spec (op (8 * p)) 0) as [Hz|Hnz].
  - rewrite <- (first_leaf _ p Hs). f_equal. apply list_fmap_ext. intros _ q Hq%list_elem_of_lookup_2.
    pose proof (subtree_leaf_node p (ONode f) q Hs Hq) as Hnq.
    assert (Hanc : nzAnc op q p).
    { apply leafKeys_elem in Hq as (c & Hc & Hq). apply (zero_up (f c) (8 * p + c)).
      - rewrite div8_child by done. by constructor.
      - apply zero_below; [by apply subtree_child|]. apply (ok_group _ Hok p 0); [done|lia|done|by rewrite Z.add_0_r].
      - apply elem_of_app. by right. }
    unfold leafOut. rewrite (protectedOp_nz k op q p H1 Hnq Hanc). destruct (ok_inner _ Hok p Hin) as [|E]; [done|].
    destruct (Z.eqb_spec (nodeStart k q) (nodeStart k p)) as [Es|]; [|by rewrite splitKeys_0]. by rewrite E, splitKeys_1, Es.
  - rewrite leafKeys_blocks.
    assert (Hgen : forall n : nat, (n <= 8)%nat -> concat (leafOut <$> blocks (fun c => leafKeys (8 * p + c) (f c)) (Z.of_nat n)) =
      blocks (fun c => focusLeaves op (8 * p + c) (f c)) (Z.of_nat n)).
    { induction n as [|n IHn]; intros Hn; [done|]. replace (Z.of_nat (S n)) with (Z.of_nat n + 1) by lia.
      rewrite !blocks_succ, fmap_app, concat_app, IHn by lia. f_equal. apply IH; [apply subtree_child; [done|lia]|].
      intros E. apply Hnz. rewrite <- (Z.add_0_r (8 * p)). apply (ok_group _ Hok p (Z.of_nat n)); [done|lia|lia|done]. }
    exact (Hgen 8%nat ltac:(lia)).
Qed.

Lemma children_kept p f c : subtree p (ONode f) -> op (8 * p) <> 0 -> 0 <= c < 8 -> op (8 * p + c) <> 0.
Proof using Hok.
  intros Hs Hnz Hc E. apply Hnz. rewrite <- (Z.add_0_r (8 * p)). by apply (ok_group _ Hok p c); [eapply subtree_inner|..|lia|].
Qed.

(** The new leaf array is a cornerstone tree. *)
Lemma focusLeaves_chain s : forall p, subtree p s -> op p <> 0 ->
  cs_chain k (nodeStart k p) (focusLeaves op p s) (nodeStart k p + 8 ^ (maxTreeLevel k - nodeLevel p)).
Proof using Hok.
  induction s as [|f IH]; intros p Hs Hp; pose proof Hs as (Hn & Hd & _ & Hlf); pose proof Hn as (Hl0 & Hr).
  - simpl in Hd. assert (Hm : 0 <= maxTreeLevel k - nodeLevel p <= maxTreeLevel k) by lia.
    destruct (ok_leaf _ Hok p) as [|(j & Hj & _ & E)]; [apply Hlf; by left|done|].
    destruct (below_range k 0 1 p nodeAt_root) as (_ & _ & Hs1 & Hs2); [exists (nodeLevel p); lia|lia|].
    rewrite nodeStart_root, Z.sub_0_r in *. fold (keyMax k) in Hs2.
    simpl. rewrite E. apply splitKeys_chain; [lia|lia|lia| |lia]. rewrite (nodeAt_start k (nodeLevel p)) by (done || lia). apply Z.divide_factor_r.
  - destruct Hd as [Hm _]. rewrite focusLeaves_node. destruct (Z.eqb_spec (op (8 * p)) 0) as [Hz|Hnz].
    + destruct (below_range k 0 1 p nodeAt_root) as (_ & _ & Hs1 & Hs2); [exists (nodeLevel p); lia|lia|].
      rewrite nodeStart_root, Z.sub_0_r in *. fold (keyMax k) in Hs2. eapply chain_cons; [|constructor].
      exists (maxTreeLevel k - nodeLevel p). repeat split; try lia. rewrite (nodeAt_start k (nodeLevel p)) by (done || lia). apply Z.divide_factor_r.
    + pose proof (pow8_succ (maxTreeLevel k - nodeLevel p - 1) ltac:(lia)) as E8.
      replace (maxTreeLevel k - nodeLevel p - 1 + 1) with (maxTreeLevel k - nodeLevel p) in E8 by lia.
      set (D := 8 ^ (maxTreeLevel k - nodeLevel p - 1)) in *.
      assert (Hgen : forall n : nat, (n <= 8)%nat ->
        cs_chain k (nodeStart k p) (blocks (fun c => focusLeaves op (8 * p + c) (f c)) (Z.of_nat n)) (nodeStart k p + Z.of_nat n * D)).
      { induction n as [|n IHn]; intros Hn8; [rewrite Z.add_0_r; constructor|]. replace (Z.of_nat (S n)) with (Z.of_nat n + 1) by lia.
        rewrite blocks_succ by lia. eapply cs_chain_app; [apply IHn; lia|].
        assert (Hc : 0 <= Z.of_nat n < 8) by lia. pose proof (IH _ _ (subtree_child p f _ Hs Hc) (children_kept p f _ Hs Hnz Hc)) as Hch.
        destruct (subtree_start p f _ Hs Hc) as [E _]. rewrite E, (nodeAt_level (nodeLevel p + 1) (8 * p + Z.of_nat n)) in Hch by by apply nodeAt_child.
        replace (maxTreeLevel k - (nodeLevel p + 1)) with (maxTreeLevel k - nodeLevel p - 1) in Hch by lia. fold D in Hch.
        replace (nodeStart k p + Z.of_nat n * D + D) with (nodeStart k p + (Z.of_nat n + 1) * D) in Hch by lia. exact Hch. }
      rewrite E8. exact (Hgen 8%nat ltac:(lia)).
Qed.

(** ** Keys of the new leaf array *)

Lemma focusLeaves_start s : forall p, subtree p s -> op p <> 0 -> nodeStart k p ∈ focusLeaves op p s.
Proof using Hok.
  intros p Hs Hp. pose proof (focusLeaves_chain s p Hs Hp) as Hc. pose proof Hs as ((Hl & _) & Hd & _).
  assert (0 <= maxTreeLevel k - nodeLevel p) by (destruct s; [exact Hd|destruct Hd; lia]).
  pose proof (pow8_pos (maxTreeLevel k - nodeLevel p) ltac:(lia)). inversion Hc; [lia|by left].
Qed.

Lemma in_focusLeaves s x : forall p, subtree p s -> op p <> 0 ->
  forall q s', subtree q s' -> q ∈ allKeys p s -> (q ∈ leafKeys p s -> s' = OLeaf) -> op q <> 0 -> 
  (q ∈ leafKeys p s -> x ∈ focusLeaves op q s') -> (q ∉ leafKeys p s -> x = nodeStart k q) -> x ∈ focusLeaves op p s.
Proof using Hok.
  induction s as [|f IH]; intros p Hs Hp q s' Hs' Hq Hlf Ho Hx1 Hx2.
  - apply elem_of_app in Hq as [Hq|Hq]; [by apply not_elem_of_nil in Hq|]. rewrite (Hlf Hq) in *. specialize (Hx1 Hq).
    by apply list_elem_of_singleton in Hq as ->.
  - destruct (decide (q = p)) as [->|Hne].
    { rewrite Hx2; [by apply focusLeaves_start|]. intros (c & Hc & Hp')%leafKeys_elem. pose proof Hs as ((Hl0 & Hr) & _).
      pose proof (pow8_pos (nodeLevel p) Hl0). pose proof (below_gt p c p ltac:(lia) Hc (leafKeys_below _ _ _ Hp')). lia. }
    apply allKeys_elem in Hq as [|(c & Hc & Hq)]; [done|]. pose proof (subtree_child p f c Hs Hc) as Hsc.
    assert (Hoc : op (8 * p + c) <> 0) by (intros E; apply Ho; by apply (zero_below (8 * p + c) (f c))).
    assert (Hnz : op (8 * p) <> 0).
    { intros E. apply Hoc. apply (ok_group _ Hok p 0); [by eapply subtree_inner|lia|done|by rewrite Z.add_0_r]. }
    rewrite focusLeaves_node. destruct (Z.eqb_spec (op (8 * p)) 0); [done|]. apply elem_of_blocks. exists c. split; [lia|].
    assert (Hiff : q ∈ leafKeys p (ONode f) <-> q ∈ leafKeys (8 * p + c) (f c)).
    { rewrite leafKeys_elem. split; [|intros; by exists c]. intros (c' & Hc' & Hq').
      assert (c' = c) as ->; [|done]. pose proof Hs as ((Hl0 & Hr) & _). pose proof (pow8_pos (nodeLevel p) Hl0).
      apply (below_disjoint p c' c q); [lia|done|done|by apply leafKeys_below in Hq'|by apply allKeys_below in Hq]. }
    apply (IH c (8 * p + c) Hsc Hoc q s'); rewrite <- ?Hiff; done.
Qed.

End Ops.

(** [key] is the start of a kept node, or a leaf is split and has a child that starts there. *)
Definition resolved (op : Z -> Z) (key : Z) : Prop :=
  key = 0 \/ key = keyMax k \/ (exists q, q ∈ allKeys 1 t /\ op q <> 0 /\ nodeStart k q = key) \/
  exists q, q ∈ leaf /\ 8 <= op q /\ nodeLevel q < maxTreeLevel k /\
    nodeStart k q <= key < nodeStart k q + 8 ^ (maxTreeLevel k - nodeLevel q) /\ (8 ^ (maxTreeLevel k - nodeLevel q - 1) | key).

Lemma resolved_mono op op' key :
  (forall q, q ∈ allKeys 1 t -> 0 <= op q <= op' q) -> resolved op key -> resolved op' key.
Proof using.
  intros Hle [|[|[(q & Hq & Ho & E)|(q & Hq & Ho & Hr)]]]; [by left|by right; left|right; right; left|right; right; right]; exists q.
  - specialize (Hle q Hq). split; [done|]. split; [lia|done].
  - specialize (Hle q ltac:(apply elem_of_app; by right)). split; [done|]. split; [lia|done].
Qed.

Lemma splitKeys_child a m j i : 1 <= j <= m -> 0 <= i < 8 -> a + i * 8 ^ (m - 1) ∈ splitKeys a (a + 8 ^ m) (8 ^ j).
Proof using.
  clear. intros Hj Hi. unfold splitKeys. replace (a + 8 ^ m - a) with (8 ^ m) by lia. rewrite pow8_quot by lia.
  pose proof (pow8_pos (j - 1) ltac:(lia)). pose proof (pow8_succ (j - 1) ltac:(lia)) as E. replace (j - 1 + 1) with j in E by lia.
  apply list_elem_of_fmap. exists (i * 8 ^ (j - 1)). split.
  - rewrite <- Z.mul_assoc, <- Z.pow_add_r by lia. do 3 f_equal. lia.
  - apply elem_of_seqZ. nia.
Qed.

Lemma leaf_subtree q : q ∈ leaf -> subtree q OLeaf.
Proof using Hdepth.
  intros Hq. destruct (allKeys_node k t Hdepth q) as [Hn Hl]; [apply elem_of_app; by right|]. split; [done|]. split; [simpl; lia|].
  split; intros r Hr; [by apply not_elem_of_nil in Hr|]. by apply list_elem_of_singleton in Hr as ->.
Qed.

Lemma start_subtree q : q ∈ inner -> exists s, subtree q s.
Proof using Hdepth.
  intros Hq. assert (Hgen : forall s p, subtree p s -> q ∈ innerKeys p s -> exists s', subtree q s').
  { induction s as [|f IH]; intros p Hs Hp; [by apply not_elem_of_nil in Hp|].
    apply innerKeys_elem in Hp as [->|(c & Hc & Hp)]; [by eexists|]. apply (IH c (8 * p + c)); [by apply subtree_child|done]. }
  apply (Hgen t 1 subtree_root Hq).
Qed.

Lemma inner_not_leaf q : q ∈ inner -> q ∉ leaf.
Proof using. intros Hi Hl. pose proof (allKeys_NoDup 1 t ltac:(lia)) as Hnd. apply NoDup_app in Hnd as (_ & Hnd & _). by apply (Hnd q). Qed.

(** Resolved keys are part of the new leaf array. *)
Lemma resolved_in op key :
  opsOk op -> resolved op key -> key ∈ focusLeaves op 1 t ++ [keyMax k].
Proof using Hdepth.
  intros Hok Hres. pose proof (ok_root _ Hok) as H1. apply elem_of_app. destruct Hres as [->|[->|[(q & Hq & Ho & <-)|(q & Hq & Ho & Hlev & Hr & Hdiv)]]].
  - left. rewrite <- (nodeStart_root k). apply focusLeaves_start; [done|apply subtree_root|done].
  - right. by apply list_elem_of_singleton.
  - left. destruct (decide (q ∈ leaf)) as [Hl|Hl].
    + eapply (in_focusLeaves op Hok t _ 1 subtree_root H1 q OLeaf); [by apply leaf_subtree|done|done|done| |done].
      intros _. apply focusLeaves_start; [done|by apply leaf_subtree|done].
    + assert (Hi : q ∈ inner) by (apply elem_of_app in Hq as [|]; done). destruct (start_subtree q Hi) as [s Hs].
      by apply (in_focusLeaves op Hok t _ 1 subtree_root H1 q s).
  - left. eapply (in_focusLeaves op Hok t _ 1 subtree_root H1 q OLeaf); [by apply leaf_subtree|apply elem_of_app; by right|done|lia| |done].
    intros _. simpl. destruct (allKeys_node k t Hdepth q) as [Hn Hl]; [apply elem_of_app; by right|]. pose proof Hn as (Hl0 & _).
    destruct (ok_leaf _ Hok q Hq) as [|(j & Hj & _ & E)]; [lia|]. rewrite E.
    assert (1 <= j) by (destruct (decide (j = 0)) as [->|]; [change (8 ^ 0) with 1 in E; lia|lia]).
    pose proof (pow8_pos (maxTreeLevel k - nodeLevel q - 1) ltac:(lia)) as HD.
    pose proof (pow8_succ (maxTreeLevel k - nodeLevel q - 1) ltac:(lia)) as E8.
    replace (maxTreeLevel k - nodeLevel q - 1 + 1) with (maxTreeLevel k - nodeLevel q) in E8 by lia.
    assert (Hds : (8 ^ (maxTreeLevel k - nodeLevel q - 1) | nodeStart k q)).
    { rewrite (nodeAt_start k (nodeLevel q)) by done. apply Z.divide_mul_r, pow8_divide. lia. }
    destruct (Z.divide_sub_r _ _ _ Hdiv Hds) as [i Hi]. replace key with (nodeStart k q + i * 8 ^ (maxTreeLevel k - nodeLevel q - 1)) by lia.
    apply splitKeys_child; [lia|]. nia.
Qed.

(** Keeping every node reproduces the leaf array, which is therefore a cornerstone tree. *)
Lemma keep_all : opsOk (fun _ => 1).
Proof using Hdepth.
  split; [done|done|done|by right|]. intros q Hq. right. exists 0.
  destruct (allKeys_node k t Hdepth q) as [_ Hl]; [apply elem_of_app; by right|]. split; [lia|done].
Qed.

Lemma focusLeaves_keep s : forall p, focusLeaves (fun _ => 1) p s = leafStarts k p s.
Proof using.
  induction s as [|f IH]; intros p; [by cbn [focusLeaves]; rewrite splitKeys_1|].
  rewrite focusLeaves_node. cbn [Z.eqb]. unfold leafStarts. rewrite leafKeys_blocks. unfold blocks.
  change (1 =? 0) with false. cbn [Z.eqb]. generalize (seqZ 0 8). intros l. induction l as [|c l IHl]; [done|].
  rewrite !fmap_cons. cbn [concat]. rewrite fmap_app. by rewrite IHl, IH.
Qed.

Lemma leafArray_csTree : csTree k (leafArray k t).
Proof using Hdepth.
  exists (leafStarts k 1 t). split; [done|]. rewrite <- focusLeaves_keep.
  pose proof (focusLeaves_chain _ keep_all t 1 subtree_root ltac:(done)) as Hc. by rewrite nodeStart_root, Z.sub_0_r in Hc.
Qed.

(** A key strictly inside of a leaf is not in the leaf array. *)
Lemma inside_not_leaf q key :
  q ∈ leaf -> nodeStart k q < key < nodeStart k q + 8 ^ (maxTreeLevel k - nodeLevel q) -> key ∉ leafArray k t.
Proof using Hdepth.
  intros Hq Hk Hin. apply elem_aget in Hq as [j Hj]. destruct (leafArray_leaf k t Hdepth j q Hj) as (E1 & E2 & _).
  apply elem_aget in Hin as [i Hi]. pose proof (aget_Some_range _ _ _ Hi). pose proof (aget_Some_range _ _ _ E1). pose proof (aget_Some_range _ _ _ E2).
  pose proof (cs_nodes k _ leafArray_csTree) as Hcs. unfold nNodes in Hcs.
  rewrite <- (nthz_Some _ _ _ E2), <- (nthz_Some _ _ _ E1), <- (nthz_Some _ _ _ Hi) in Hk.
  pose proof (nodes_lt_inv k _ _ Hcs j i ltac:(lia) ltac:(lia) ltac:(lia)).
  pose proof (nodes_lt_inv k _ _ Hcs i (j + 1) ltac:(lia) ltac:(lia) ltac:(lia)). lia.
Qed.

(** ** When nothing changes *)

Section Unchanged.
Context (op : Z -> Z).
Hypothesis Hok : opsOk op.

Lemma protectedOp_cases q :
  q ∈ allKeys 1 t -> (op q <> 0 /\ protectedOp k op q = op q) \/
    (op q = 0 /\ exists a, nzAnc op q a /\ op a = 1 /\ protectedOp k op q = if nodeStart k q =? nodeStart k a then 1 else 0).
Proof using Hdepth Hok.
  intros Hq. destruct (allKeys_node k t Hdepth q Hq) as [Hn _]. pose proof (ok_root _ Hok) as H1.
  destruct (decide (op q = 0)) as [Hz|Hnz]; [right|left; split; [done|by apply protectedOp_keep]]. split; [done|].
  pose proof (closestNz_spec op q H1 Hn) as Ha. exists (closestNz op q). split; [done|].
  assert (E : op (closestNz op q) = 1); [|split; [done|by rewrite (protectedOp_nz k op q _ H1 Hn Ha), E]].
  assert (Hin : closestNz op q ∈ inner); [|pose proof (nzAnc_nonzero _ _ _ Ha); destruct (ok_inner _ Hok _ Hin); [done|done]].
  destruct Ha as [|q a _ Ha]; [done|]. assert (Hq1 : q <> 1) by congruence. pose proof (parent_inner 1 t q Hq Hq1) as Hp. clear Hn Hq Hz.
  generalize dependent (q / 8). intros p Ha Hp. clear Hq1. induction Ha as [p Hnz|p a Hz _ IH]; [done|]. apply IH.
  apply parent_inner; [apply elem_of_app; by left|]. congruence.
Qed.

Lemma first_leaf_exists s : forall p, subtree p s -> exists q, q ∈ leafKeys p s /\ nodeStart k q = nodeStart k p.
Proof using.
  clear Hok. induction s as [|f IH]; intros p Hs; [exists p; split; [by left|done]|].
  destruct (IH 0 (8 * p + 0) (subtree_child p f 0 Hs ltac:(lia))) as (q & Hq & E). exists q. split; [apply leafKeys_elem; exists 0; split; [lia|done]|].
  destruct (subtree_start p f 0 Hs ltac:(lia)) as [E0 _]. rewrite E, E0. lia.
Qed.

(** If no leaf changes, neither does an internal node. *)
Lemma leaves_decide : (forall q, q ∈ leaf -> protectedOp k op q = 1) -> forall q, q ∈ allKeys 1 t -> protectedOp k op q = 1.
Proof using Hdepth Hok.
  intros Hl q Hq. pose proof (ok_root _ Hok) as H1. apply elem_of_app in Hq as [Hi|Hlf]; [|by apply Hl].
  assert (Hq : q ∈ allKeys 1 t) by (apply elem_of_app; by left).
  destruct (protectedOp_cases q Hq) as [[Hnz ->]|(Hz & a & Ha & Ea & ->)]; [by destruct (ok_inner _ Hok q Hi)|].
  destruct (Z.eqb_spec (nodeStart k q) (nodeStart k a)) as [|Hne]; [done|]. exfalso.
  assert (Hgen : forall s p, subtree p s -> q ∈ innerKeys p s -> exists s', subtree q s').
  { induction s as [|f IH]; intros p Hs Hp; [by apply not_elem_of_nil in Hp|].
    apply innerKeys_elem in Hp as [->|(c & Hc & Hp)]; [by eexists|]. apply (IH c (8 * p + c)); [by apply subtree_child|done]. }
  destruct (Hgen t 1 subtree_root Hi) as [s Hs]. clear Hgen. destruct (first_leaf_exists s q Hs) as (x & Hx & Ex).
  assert (Hax : nzAnc op x a).
  { apply (zero_up op s q); [|by apply zero_below|apply elem_of_app; by right]. inversion Ha; subst; done. }
  pose proof (Hl x) as Hlx. rewrite (protectedOp_nz k op x a H1) in Hlx; [|by eapply subtree_leaf_node|done].
  rewrite Ex in Hlx. destruct (Z.eqb_spec (nodeStart k q) (nodeStart k a)); [done|]. destruct Hs as (_ & _ & _ & Hlf). specialize (Hlx (Hlf x Hx)). done.
Qed.

Lemma splitKeys_range m j a x : 0 <= j <= m -> x ∈ splitKeys a (a + 8 ^ m) (8 ^ j) -> a <= x < a + 8 ^ m.
Proof using.
  clear. intros Hj (i & -> & Hi%elem_of_seqZ)%list_elem_of_fmap. replace (a + 8 ^ m - a) with (8 ^ m) by lia. rewrite pow8_quot by lia.
  pose proof (pow8_pos (m - j) ltac:(lia)). assert (8 ^ m = 8 ^ j * 8 ^ (m - j)) as E by (rewrite <- Z.pow_add_r by lia; f_equal; lia). nia.
Qed.

Lemma protectedOp_leaf q : q ∈ leaf -> opFits (maxTreeLevel k - nodeLevel q) (protectedOp k op q).
Proof using Hdepth Hok.
  intros Hq. destruct (protectedOp_cases q) as [[_ ->]|(_ & a & _ & _ & ->)]; [apply elem_of_app; by right|by apply (ok_leaf _ Hok)|].
  destruct (nodeStart k q =? nodeStart k a); [right; exists 0|by left].
  destruct (allKeys_node k t Hdepth q) as [_ Hl]; [apply elem_of_app; by right|]. split; [lia|done].
Qed.

Lemma leaf_start_inj q q' : q ∈ leaf -> q' ∈ leaf -> nodeStart k q = nodeStart k q' -> q = q'.
Proof using Hdepth.
  clear Hok. intros [i Hi]%elem_aget [j Hj]%elem_aget E. destruct (leafArray_leaf k t Hdepth i q Hi) as (Ei & Ei' & _).
  destruct (leafArray_leaf k t Hdepth j q' Hj) as (Ej & Ej' & _). pose proof (cs_nodes k _ leafArray_csTree) as Hcs. unfold nNodes in Hcs.
  pose proof (aget_Some_range _ _ _ Ei). pose proof (aget_Some_range _ _ _ Ei'). pose proof (aget_Some_range _ _ _ Ej). pose proof (aget_Some_range _ _ _ Ej').
  assert (i = j) as ->; [|congruence].
  apply (nodes_inj k _ _ Hcs); [lia|lia|]. by rewrite (nthz_Some _ _ _ Ei), (nthz_Some _ _ _ Ej).
Qed.

(** The leaf array stays the same exactly if every leaf is kept as it is. *)
Lemma focusLeaves_unchanged :
  focusLeaves op 1 t ++ [keyMax k] = leafArray k t <-> forall q, q ∈ leaf -> protectedOp k op q = 1.
Proof using Hdepth Hok.
  rewrite <- (leafOut_focus op Hok t 1 subtree_root (ok_root _ Hok)). split.
  - intros E q Hq. unfold leafArray in E. apply app_inj_tail in E as [E _].
    destruct (allKeys_node k t Hdepth q) as [(Hl0 & _) Hl]; [apply elem_of_app; by right|].
    destruct (protectedOp_leaf q Hq) as [Hz|(j & Hj & _ & Hv)].
    + exfalso. assert (Hs : nodeStart k q ∈ concat (leafOut op <$> leaf)).
      { rewrite E. apply list_elem_of_fmap. by exists q. }
      apply elem_of_concat in Hs as (out & (q' & -> & Hq')%list_elem_of_fmap & Hs).
      unfold leafOut in Hs. destruct (protectedOp_leaf q' Hq') as [Hz'|(j & Hj & _ & Hv)]; [rewrite Hz' in Hs; by apply not_elem_of_nil in Hs|].
      pose proof Hs as Hs'. rewrite Hv in Hs'. apply splitKeys_range in Hs'; [|done].
      destruct (decide (nodeStart k q = nodeStart k q')) as [Eq|Hne].
      * apply leaf_start_inj in Eq as ->; [|done|done]. rewrite Hz in Hs. by apply not_elem_of_nil in Hs.
      * apply (inside_not_leaf q' (nodeStart k q) Hq' ltac:(lia)). apply elem_of_app. left. apply list_elem_of_fmap. by exists q.
    + destruct (decide (j = 0)) as [->|Hj0]; [done|]. exfalso.
      pose proof (pow8_pos (maxTreeLevel k - nodeLevel q - 1) ltac:(lia)) as HD.
      pose proof (pow8_succ (maxTreeLevel k - nodeLevel q - 1) ltac:(lia)) as E8.
      replace (maxTreeLevel k - nodeLevel q - 1 + 1) with (maxTreeLevel k - nodeLevel q) in E8 by lia.
      apply (inside_not_leaf q (nodeStart k q + 1 * 8 ^ (maxTreeLevel k - nodeLevel q - 1)) Hq ltac:(lia)).
      apply elem_of_app. left. rewrite <- E. apply elem_of_concat. exists (leafOut op q). split; [apply list_elem_of_fmap; by exists q|].
      unfold leafOut. rewrite Hv. apply splitKeys_child; lia.
  - intros H. unfold leafArray. f_equal. unfold leafStarts. induction (leafKeys 1 t) as [|q l IH]; [done|].
    rewrite !fmap_cons. cbn [concat]. rewrite IH by (intros; apply H; by right). unfold leafOut at 1. rewrite H by by left. by rewrite splitKeys_1.
Qed.

End Unchanged.

End Tree.
