(* ===== verification/FocusOps.v ===== *)
(** * The focus update on the arrays of an octree

    The loops of [cstone/focus/rebalance.hpp] in terms of one operation per tree node: the
    decision, the mandatory keys and the protection of left-most descendants. *)

From S2P Require Import Prelude Primitives SfcCommon Csarray CsInvariant CsRebalance CsCounts CsUtil SfcBox Morton Hilbert Sfc Octree OctreeNodes OctreeBuild OctreeQueries BoxOverlap FocusRebalance FocusTree.

Section Arrays.
Context (k : KeyType) (t : otree) (o : OctreeArrays).
Hypothesis Hdepth : depthLe (maxTreeLevel k) t.
Hypothesis Ho : linked k t o.
Hypothesis Hlen : zlen (prefixes o) = zlen (innerKeys 1 t) + zlen (leafKeys 1 t).

Local Abbreviation inner := (innerKeys 1 t).
Local Abbreviation leaf := (leafKeys 1 t).
Local Abbreviation P := (prefixes o).
Local Abbreviation n := (zlen (prefixes o)).

(** ** Nodes and positions *)

Local Abbreviation pos := (pos o).
Local Abbreviation prefixes_NoDup := (prefixes_NoDup k t o Ho).
Local Abbreviation node_pos := (node_pos k t o Ho).
Local Abbreviation pos_node := (pos_node k t o Ho).
Local Abbreviation pos_range := (pos_range k t o Ho).
Local Abbreviation pos_inj := (pos_inj k t o Ho).
Local Abbreviation pos_root := (pos_root k t o Hdepth Ho).
Local Abbreviation index_node := (index_node k t o Hdepth Ho).

(** The operation of node [q] in the array [A]. *)
Definition opOf (A : list Z) (q : Z) : Z := nthz A (pos q).

Lemma opOf_get A q : zlen A = n -> q ∈ allKeys 1 t -> A.[pos q] = Some (opOf A q).
Proof using Ho. intros HA Hq. apply nthz_get. rewrite HA. by apply pos_range. Qed.

Lemma opOf_set A A' i q v r :
  aset A i v = Some A' -> i = pos q -> q ∈ allKeys 1 t -> r ∈ allKeys 1 t ->
  opOf A' r = if decide (r = q) then v else opOf A r.
Proof using Ho.
  intros E -> Hq Hr. unfold opOf, nthz. destruct (decide (r = q)) as [->|Hne]; [by rewrite (aget_aset_eq _ _ _ _ E)|].
  rewrite (aget_aset_ne _ _ _ _ _ E); [done|]. intros F. apply Hne. symmetry. by apply pos_inj.
Qed.

(** Links of a node that is not the root. *)
Lemma node_links q :
  q ∈ allKeys 1 t -> q <> 1 ->
  q / 8 ∈ inner /\ 0 < pos q /\ pos (q / 8) < pos q /\ P.[pos (q / 8)] = Some (q / 8) /\
  (parents o).[Z.quot (pos q - 1) 8] = Some (pos (q / 8)) /\
  exists c, (childOffsets o).[pos (q / 8)] = Some c /\ 0 < c /\ forall d, 0 <= d < 8 -> P.[c + d] = Some (8 * (q / 8) + d).
Proof using Hdepth Ho.
  intros Hq Hne. pose proof (parent_inner 1 t q Hq Hne) as Hin. assert (Hp : q / 8 ∈ allKeys 1 t) by (apply elem_of_app; by left).
  pose proof (node_pos _ Hp) as Epos. pose proof (pos_range _ Hp) as Hr. destruct (lk_inner _ _ _ Ho _ _ Epos Hin) as (c & Hc & Hlt & Hch).
  destruct (children_of q) as (d & Hd & E). destruct (Hch d Hd) as [E1 E2]. rewrite <- E in E1. rewrite (pos_node _ _ E1) in E2.
  assert (pos q = c + d) as Ecd by (symmetry; by apply pos_node). rewrite Z.quot_div_nonneg by lia.
  split; [done|]. split; [lia|]. split; [lia|]. split; [done|]. split; [done|]. exists c. split; [done|]. split; [lia|].
  intros d' Hd'. by apply Hch.
Qed.

Lemma node_level q : q ∈ allKeys 1 t -> decodePrefixLength k q / 3 = nodeLevel q /\ decodePlaceholderBit k q = nodeStart k q.
Proof using Hdepth.
  intros Hq. destruct (allKeys_node k t Hdepth q Hq) as [Hn Hl]. split; [|done].
  rewrite (nodeAt_decode k (nodeLevel q)) by done. by rewrite (Z.mul_comm 3), Z.div_mul by lia.
Qed.

(** ** Protection of left-most descendants *)

Lemma closestNonZeroAncestor_run A (m : nat) : forall fuel q,
  zlen A = n -> opOf A 1 <> 0 -> q ∈ allKeys 1 t -> nodeAt (Z.of_nat m) q -> pos q < Z.of_nat fuel ->
  closestNonZeroAncestor fuel (parents o) A (pos q) = Some (pos (nzAncOf m (opOf A) q)) /\ nzAncOf m (opOf A) q ∈ allKeys 1 t.
Proof using Hdepth Ho.
  induction m as [|m IH]; intros fuel q HA H1 Hq Hm Hf; (destruct fuel as [|fuel]; [pose proof (pos_range q Hq); lia|]);
    cbn [closestNonZeroAncestor nzAncOf]; rewrite (opOf_get A q HA Hq).
  - apply node_one in Hm as ->. destruct (Z.eqb_spec (opOf A 1) 0); [done|]. split; [done|apply allKeys_root].
  - destruct (Z.eqb_spec (opOf A q) 0) as [E|]; [|by split].
    assert (Hne : q <> 1) by congruence. destruct (node_links q Hq Hne) as (Hin & _ & Hlt & _ & -> & _).
    apply IH; [done|done|apply elem_of_app; by left| |lia].
    replace (Z.of_nat m) with (Z.of_nat (S m) - 1) by lia. by apply nodeAt_parent.
Qed.

Lemma nzAncestorOp_run A q :
  zlen A = n -> opOf A 1 <> 0 -> q ∈ allKeys 1 t ->
  nzAncestorOp k (pos q) P (parents o) A = Some (protectedOp k (opOf A) q).
Proof using Hdepth Ho.
  intros HA H1 Hq. unfold nzAncestorOp. destruct (Z.eqb_spec (pos q) 0) as [E|].
  { assert (q = 1) as -> by (apply pos_inj; [done|apply allKeys_root|by rewrite pos_root]).
    rewrite <- pos_root, opOf_get by (done || apply allKeys_root). by rewrite protectedOp_keep by (done || apply nodeAt_root). }
  destruct (allKeys_node k t Hdepth q Hq) as [Hn _]. pose proof Hn as (Hl & _).
  destruct (closestNonZeroAncestor_run A (Z.to_nat (nodeLevel q)) (S (Z.to_nat (pos q))) q HA H1 Hq) as [-> Ha];
    [by rewrite Z2Nat.id by lia|pose proof (pos_range q Hq); lia|].
  fold (closestNz (opOf A) q) in *. rewrite (node_pos q Hq), (node_pos _ Ha). unfold protectedOp, nodeStart.
  destruct (decodePlaceholderBit k q =? decodePlaceholderBit k (closestNz (opOf A) q)); [by apply opOf_get|done].
Qed.

(** State of [protectAncestors] when the iterations in [done] have taken effect. *)
Definition protecting (A : list Z) (done : list Z) (st : Z * list Z) : Prop :=
  let '(numChanges, B) := st in
  zlen B = n /\ opOf B 1 <> 0 /\ (forall r, r ∈ allKeys 1 t -> protectedOp k (opOf B) r = protectedOp k (opOf A) r) /\
  (forall r, r ∈ allKeys 1 t -> pos r ∈ done -> opOf B r = protectedOp k (opOf A) r) /\
  0 <= numChanges /\ (numChanges = 0 <-> forall r, r ∈ allKeys 1 t -> pos r ∈ done -> protectedOp k (opOf A) r = 1).

Lemma protectBody_step A done q st :
  q ∈ allKeys 1 t -> protecting A done st ->
  exists st', protectBody k P (parents o) (pos q) st = Some st' /\ protecting A (done ++ [pos q]) st'.
Proof using Hdepth Ho.
  destruct st as [nc B]. intros Hq (HB & H1 & Hsame & Hdone & Hnc & Hiff). cbn [protectBody].
  rewrite (nzAncestorOp_run B q HB H1 Hq), (Hsame q Hq).
  pose proof (aset_Some B (pos q) (protectedOp k (opOf A) q) ltac:(rewrite HB; by apply pos_range)) as E. rewrite E.
  assert (Hop := fun r Hr => opOf_set B _ _ q _ r E eq_refl Hq Hr). eexists. split; [done|].
  assert (Hupd : forall r, r ∈ allKeys 1 t -> protectedOp k (opOf (<[Z.to_nat (pos q):=protectedOp k (opOf A) q]> B)) r = protectedOp k (opOf A) r).
  { intros r Hr. rewrite <- (Hsame r Hr). apply (protectedOp_update k t Hdepth _ _ q); [done|done|done| |].
    - rewrite Hop by done. rewrite decide_True by done. by rewrite Hsame.
    - intros x Hx Hne. rewrite Hop by done. by rewrite decide_False. }
  split; [by rewrite (aset_zlen _ _ _ _ E)|]. split; [|split; [done|split; [|split]]].
  - rewrite Hop by (apply allKeys_root). case_decide as Hc; [|done]. subst q. rewrite <- (Hsame 1 Hq).
    by rewrite protectedOp_keep by (done || apply nodeAt_root).
  - intros r Hr Hin. rewrite Hop by done. case_decide as Hc; [by subst|]. apply Hdone; [done|].
    apply elem_of_app in Hin as [|Hin]; [done|]. apply list_elem_of_singleton in Hin. by apply pos_inj in Hin.
  - destruct (negb (protectedOp k (opOf A) q =? 1)); lia.
  - assert (Hsplit : (forall r, r ∈ allKeys 1 t -> pos r ∈ done ++ [pos q] -> protectedOp k (opOf A) r = 1) <->
      (forall r, r ∈ allKeys 1 t -> pos r ∈ done -> protectedOp k (opOf A) r = 1) /\ protectedOp k (opOf A) q = 1).
    { split.
      - intros H. split; [intros r Hr Hin; apply H; [done|]; apply elem_of_app; by left|]. apply H; [done|]. apply elem_of_app. right. by left.
      - intros [H Hx] r Hr [Hin|Hin]%elem_of_app; [by apply H|]. apply list_elem_of_singleton in Hin. apply pos_inj in Hin as ->; done. }
    rewrite Hsplit, <- Hiff. destruct (Z.eqb_spec (protectedOp k (opOf A) q) 1); simpl; [tauto|]. split; [lia|tauto].
Qed.

(** Whatever the order of the iterations, every entry receives its protected operation. *)
Lemma protectAncestorsIn_run order A :
  zlen A = n -> opOf A 1 <> 0 -> order ≡ₚ seqZ 0 n ->
  exists conv B, protectAncestorsIn order k P (parents o) A = Some (conv, B) /\ zlen B = n /\
    (forall r, r ∈ allKeys 1 t -> opOf B r = protectedOp k (opOf A) r) /\
    (conv = true <-> forall r, r ∈ allKeys 1 t -> protectedOp k (opOf A) r = 1).
Proof using Hdepth Ho.
  intros HA H1 Hperm. unfold protectAncestorsIn.
  assert (Hall : forall i, i ∈ order -> exists q, q ∈ allKeys 1 t /\ i = pos q).
  { intros i Hi. rewrite Hperm in Hi. apply elem_of_seqZ in Hi. destruct (index_node i ltac:(lia)) as (q & _ & Hq & E). by exists q. }
  assert (Hgen : forall todo done st, (forall i, i ∈ todo -> i ∈ order) -> protecting A done st ->
    exists st', foldM (protectBody k P (parents o)) todo st = Some st' /\ protecting A (done ++ todo) st').
  { clear Hperm HA H1. induction todo as [|i todo IH]; intros done st Hin Hst; simpl; [exists st; by rewrite app_nil_r|].
    destruct (Hall i ltac:(apply Hin; by left)) as (q & Hq & ->). destruct (protectBody_step A done q st Hq Hst) as (st' & -> & Hst').
    destruct (IH _ st' ltac:(intros; apply Hin; by right) Hst') as (st'' & E & H). exists st''. split; [done|]. by rewrite <- app_assoc in H. }
  destruct (Hgen order [] (0, A)) as ([nc B] & -> & HB & _ & _ & Hdone & Hnc & Hiff); [done| |].
  { split; [done|]. split; [done|]. split; [done|]. split; [intros r _ Hr; by apply not_elem_of_nil in Hr|]. split; [done|].
    split; [|done]. intros _ r _ Hr. by apply not_elem_of_nil in Hr. }
  assert (Hcov : forall r, r ∈ allKeys 1 t -> pos r ∈ [] ++ order).
  { intros r Hr. simpl. rewrite Hperm. apply elem_of_seqZ. pose proof (pos_range r Hr). lia. }
  exists (nc =? 0), B. split; [done|]. split; [done|]. split; [intros r Hr; apply Hdone; auto|].
  rewrite Z.eqb_eq, Hiff. split; intros H r; auto.
Qed.

(** ** Undoing merges *)

Definition raise (v : Z) : Z := if v =? 0 then 1 else v.

(** [r] has a sibling (or is itself) [q] or an ancestor of [q] below the root. *)
Inductive support : Z -> Z -> Prop :=
| sup_here q r : r / 8 = q / 8 -> support q r
| sup_up q r : q / 8 <> 1 -> support (q / 8) r -> support q r.

Lemma keepSiblings_run A c q :
  zlen A = n -> q ∈ inner -> (forall d, 0 <= d < 8 -> P.[c + d] = Some (8 * q + d)) ->
  exists A', keepSiblings c A = Some A' /\ zlen A' = n /\
    forall r, r ∈ allKeys 1 t -> opOf A' r = if decide (r / 8 = q) then raise (opOf A r) else opOf A r.
Proof using Hdepth Ho.
  intros HA Hq Hch. assert (Hnode : forall d, 0 <= d < 8 -> 8 * q + d ∈ allKeys 1 t) by (intros; by apply inner_children).
  unfold keepSiblings.
  destruct (for_loop_inv (fun i B => zlen B = n /\ forall r, r ∈ allKeys 1 t ->
      opOf B r = if decide (r / 8 = q /\ pos r < i) then raise (opOf A r) else opOf A r) c (c + 8)
      (fun i nodeOps => let? op := nodeOps.[i] in if op =? 0 then aset nodeOps i 1 else Some nodeOps) A) as (B & E & HB & Hop).
  - lia.
  - split; [done|]. intros r Hr. case_decide as Hc; [|done]. destruct Hc as [Hc Hp].
    destruct (children_of r) as (d & Hd & Er). rewrite Hc in Er. pose proof (pos_node _ _ (Hch d Hd)) as Ep. rewrite <- Er in Ep. lia.
  - intros i B Hi [HB Hop]. pose proof (Hch (i - c) ltac:(lia)) as Ei. replace (c + (i - c)) with i in Ei by lia.
    set (x := 8 * q + (i - c)) in *. assert (Hx : x ∈ allKeys 1 t) by (apply Hnode; lia).
    pose proof (pos_node _ _ Ei) as Ep. assert (Hxq : x / 8 = q) by (apply div8_child; lia).
    pose proof (opOf_get B x HB Hx) as Eg. rewrite <- Ep in Eg. rewrite Eg.
    assert (Hother : forall r, r ∈ allKeys 1 t -> r <> x -> (r / 8 = q /\ pos r < i) <-> (r / 8 = q /\ pos r < i + 1)).
    { intros r Hr Hne. assert (pos r <> i) by (intros F; apply Hne, pos_inj; [done|done|lia]). lia. }
    assert (Hbx : opOf B x = opOf A x) by (rewrite Hop by done; rewrite decide_False by lia; done).
    destruct (Z.eqb_spec (opOf B x) 0) as [Ez|Enz].
    + pose proof (aset_Some B i 1 ltac:(rewrite HB, Ep; by apply pos_range)) as F. rewrite F. eexists. split; [done|].
      split; [by rewrite (aset_zlen _ _ _ _ F)|]. intros r Hr. rewrite (opOf_set B _ i x 1 r F Ep Hx Hr).
      destruct (decide (r = x)) as [->|Hne].
      * rewrite decide_True by lia. unfold raise. rewrite <- Hbx, Ez. done.
      * rewrite Hop by done. destruct (Hother r Hr Hne). do 2 case_decide; tauto.
    + exists B. split; [done|]. split; [done|]. intros r Hr. destruct (decide (r = x)) as [->|Hne].
      * rewrite decide_True by lia. unfold raise. rewrite <- Hbx. destruct (Z.eqb_spec (opOf B x) 0); done.
      * rewrite Hop by done. destruct (Hother r Hr Hne). do 2 case_decide; tauto.
  - exists B. split; [done|]. split; [done|]. intros r Hr. rewrite Hop by done.
    destruct (decide (r / 8 = q)) as [Hc|Hc]; [|rewrite decide_False by tauto; done]. rewrite decide_True; [done|]. split; [done|].
    destruct (children_of r) as (d & Hd & Er). rewrite Hc in Er. pose proof (pos_node _ _ (Hch d Hd)) as Ep. rewrite <- Er in Ep. lia.
Qed.

Lemma raise_raise v : raise (raise v) = raise v.
Proof using. clear. unfold raise. destruct (Z.eqb_spec v 0); [done|]. destruct (Z.eqb_spec v 0); done. Qed.

(** All groups on the path from [q] to the root are kept. *)
Lemma undoMergesLoop_run (fuel : nat) : forall q A,
  zlen A = n -> q ∈ allKeys 1 t -> q <> 1 -> pos q <= Z.of_nat fuel ->
  exists A', undoMergesLoop fuel (childOffsets o) (parents o) (pos q) A = Some A' /\ zlen A' = n /\
    forall r, r ∈ allKeys 1 t -> (support q r -> opOf A' r = raise (opOf A r)) /\ (~ support q r -> opOf A' r = opOf A r).
Proof using Hdepth Ho.
  induction fuel as [|fuel IH]; intros q A HA Hq Hne Hf; destruct (node_links q Hq Hne) as (Hin & Hpos & Hlt & _ & Epar & c & Ec & Hc0 & Hch); [lia|].
  cbn [undoMergesLoop]. rewrite Epar, Ec. destruct (keepSiblings_run A c (q / 8) HA Hin Hch) as (B & -> & HB & HopB).
  assert (Hp : q / 8 ∈ allKeys 1 t) by (apply elem_of_app; by left).
  destruct (Z.eqb_spec (pos (q / 8)) 0) as [E0|E0]; cbn [negb].
  - assert (Eq : q / 8 = 1) by (apply pos_inj; [done|apply allKeys_root|by rewrite pos_root]). exists B. split; [done|]. split; [done|].
    intros r Hr. rewrite HopB by done. split.
    + intros Hs. rewrite decide_True; [done|]. inversion Hs; congruence.
    + intros Hs. rewrite decide_False; [done|]. intros E. apply Hs. by constructor.
  - assert (Hp1 : q / 8 <> 1) by (intros E; rewrite E, pos_root in E0; done).
    destruct (IH (q / 8) B HB Hp Hp1 ltac:(lia)) as (A' & -> & HA' & Hop). exists A'. split; [done|]. split; [done|].
    intros r Hr. destruct (Hop r Hr) as [H1 H2]. rewrite HopB in H1, H2 by done. split.
    + intros Hs. destruct (decide (r / 8 = q / 8)) as [E|E].
      * (* the group of [q] may also be raised further up *)
        destruct (decide (opOf A' r = raise (raise (opOf A r)))) as [F|F]; [by rewrite F, raise_raise|].
        apply H2. intros Hs'. by apply F, H1.
      * apply H1. inversion Hs; [congruence|done].
    + intros Hs. rewrite decide_False in H2; [|intros E; apply Hs; by constructor]. apply H2. intros Hs'. apply Hs. by apply sup_up.
Qed.

Lemma support_self q : support q q.
Proof using. clear. by constructor. Qed.

Lemma support_parent q r : support q r -> r / 8 <> 1 -> support q (r / 8).
Proof using.
  clear. induction 1 as [q r E|q r Hq Hs IH]; intros Hr.
  - apply sup_up; [congruence|]. constructor. by rewrite E.
  - apply sup_up; [done|]. by apply IH.
Qed.

Lemma support_group q r r' : support q r -> r' / 8 = r / 8 -> support q r'.
Proof using. clear. intros Hs. revert r'. induction Hs as [q r E|q r Hq Hs IH]; intros r' E'; [constructor; congruence|]. apply sup_up; auto. Qed.

End Arrays.
