(* ===== verification/FocusUpdate.v ===== *)
(** * The focus update

    The decisions of [mergeCountAndMacOp] are consistent, enforcing a key keeps them
    consistent and resolves the key, and [updateFocus] as a whole installs a cornerstone tree
    with all mandatory keys. *)

From S2P Require Import Prelude Primitives SfcCommon Csarray CsInvariant CsRebalance CsCounts CsUtil SfcBox Morton Hilbert Sfc Octree OctreeNodes OctreeBuild OctreeQueries BoxOverlap FocusRebalance FocusInject FocusTree FocusOps.

(** ** Consistency of operations *)

Section Consistent.
Context (k : KeyType) (t : otree).
Hypothesis Hdepth : depthLe (maxTreeLevel k) t.

Lemma opsOk_nonneg op q : opsOk k t op -> q ∈ allKeys 1 t -> 0 <= op q.
Proof using.
  intros Hok [Hi|Hl]%elem_of_app; [destruct (ok_inner _ _ _ Hok q Hi); lia|]. eapply opFits_nonneg. by apply (ok_leaf _ _ _ Hok).
Qed.

Lemma raise_cases op op' q r :
  (support q r -> op' r = raise (op r)) /\ (~ support q r -> op' r = op r) -> op' r = raise (op r) \/ op' r = op r.
Proof using.
  intros [H1 H2]. destruct (decide (op' r = raise (op r))) as [|Hne]; [by left|right]. apply H2. intros Hs. by apply Hne, H1.
Qed.

Lemma opsOk_raise op op' q :
  opsOk k t op -> (forall r, r ∈ allKeys 1 t -> (support q r -> op' r = raise (op r)) /\ (~ support q r -> op' r = op r)) ->
  opsOk k t op'.
Proof using Hdepth.
  intros Hok Hop. assert (Hnz : forall v, raise v <> 0) by (intros v; unfold raise; destruct (Z.eqb_spec v 0); lia).
  assert (Hzero : forall r, r ∈ allKeys 1 t -> op' r = 0 -> ~ support q r /\ op r = 0).
  { intros r Hr Hz. destruct (Hop r Hr) as [H1 H2]. assert (~ support q r) by (intros Hs; apply (Hnz (op r)); by rewrite <- H1). split; [done|]. by rewrite <- H2. }
  assert (Hroot : op' 1 <> 0) by (intros E; apply (ok_root _ _ _ Hok); by apply Hzero; [apply allKeys_root|]). split; [done|..].
  - intros p c c' Hp Hc Hc' Hz. apply Hzero in Hz as [Hs Hz]; [|by apply inner_children].
    destruct (Hop (8 * p + c') (inner_children _ _ _ _ Hp Hc')) as [_ H2]. rewrite H2; [by eapply (ok_group _ _ _ Hok p c c')|].
    intros Hs'. apply Hs. eapply support_group; [exact Hs'|]. by rewrite !div8_child.
  - intros p c Hp Hc Hz. assert (Hpk : p ∈ allKeys 1 t) by (apply elem_of_app; by left). assert (Hp1 : p <> 1) by congruence.
    apply Hzero in Hz as [Hs Hz]; [|done]. destruct (Hop (8 * p + c) (inner_children _ _ _ _ Hp Hc)) as [_ H2].
    rewrite H2; [by apply (ok_closed _ _ _ Hok)|]. intros Hs'. apply Hs. rewrite <- (div8_child p c Hc). apply support_parent; [done|]. by rewrite div8_child.
  - intros p Hp. destruct (raise_cases op op' q p) as [E|E]; [apply Hop, elem_of_app; by left|..]; rewrite E;
      (destruct (ok_inner _ _ _ Hok p Hp) as [F|F]; rewrite F; auto).
  - intros p Hp. destruct (raise_cases op op' q p) as [E|E]; [apply Hop, elem_of_app; by right|..]; rewrite E; [|by apply (ok_leaf _ _ _ Hok)].
    unfold raise. destruct (Z.eqb_spec (op p) 0); [|by apply (ok_leaf _ _ _ Hok)]. right. exists 0.
    destruct (allKeys_node k t Hdepth p) as [_ Hl]; [apply elem_of_app; by right|]. split; [lia|]. done.
Qed.

Lemma opsOk_split op op' q :
  opsOk k t op -> q ∈ leafKeys 1 t -> op q <> 0 -> nodeLevel q < maxTreeLevel k -> op' q = Z.max (op q) 8 ->
  (forall r, r ∈ allKeys 1 t -> r <> q -> op' r = op r) -> opsOk k t op'.
Proof using.
  intros Hok Hq Hnz Hl Hopq Hop. pose proof (opsOk_nonneg op q Hok ltac:(apply elem_of_app; by right)) as H0.
  assert (Hz : forall r, r ∈ allKeys 1 t -> op' r = 0 <-> op r = 0).
  { intros r Hr. destruct (decide (r = q)) as [->|]; [rewrite Hopq; lia|by rewrite Hop]. } split.
  - rewrite Hz by apply allKeys_root. apply Hok.
  - intros p c c' Hp Hc Hc'. rewrite !Hz by by apply inner_children. by apply (ok_group _ _ _ Hok).
  - intros p c Hp Hc. rewrite !Hz by (by apply inner_children || (apply elem_of_app; by left)). by apply (ok_closed _ _ _ Hok).
  - intros p Hp. rewrite Hop; [by apply (ok_inner _ _ _ Hok)|apply elem_of_app; by left|]. intros ->. by apply (inner_not_leaf t q).
  - intros p Hp. destruct (decide (p = q)) as [->|]; [|rewrite Hop; [by apply (ok_leaf _ _ _ Hok)|apply elem_of_app; by right|done]].
    rewrite Hopq. destruct (ok_leaf _ _ _ Hok q Hp) as [|(j & Hj & Hj' & E)]; [done|]. right. exists (Z.max j 1). split; [lia|]. split; [lia|].
    rewrite E. destruct (decide (j = 0)) as [->|]; [done|]. rewrite (Z.max_l j 1) by lia.
    pose proof (pow8_mono 1 j ltac:(lia)). change (8 ^ 1) with 8 in *. lia.
Qed.

End Consistent.

Section Update.
Context (k : KeyType) (t : otree) (o : OctreeArrays).
Hypothesis Hdepth : depthLe (maxTreeLevel k) t.
Hypothesis Ho : linked k t o.

Local Abbreviation inner := (innerKeys 1 t).
Local Abbreviation leaf := (leafKeys 1 t).
Local Abbreviation P := (prefixes o).
Local Abbreviation n := (zlen (prefixes o)).
Local Abbreviation at_ := (opOf o).
Local Abbreviation node := (pos o).

(** ** Decisions *)

Section Decision.
Context (counts macs : list Z) (focusStart focusEnd bucketSize : Z).

(** Quantities that do not increase from a node to its children: particle counts, and a
    multipole criterion that fails for a node only if it fails for its parent. *)
Record focusInput : Prop := {
  fi_counts : zlen counts = n;
  fi_macs : zlen macs = n;
  fi_mono : forall i p, 0 < i < n -> (parents o).[Z.quot (i - 1) 8] = Some p ->
    nthz counts i <= nthz counts p /\ (nthz macs p = 0 -> nthz macs i = 0)
}.

Hypothesis Hin : focusInput.

(** The children of [r] are merged. *)
Definition mergeChildren (r : Z) : bool :=
  (at_ counts r <=? bucketSize) ||
  ((at_ macs r =? 0) && negb (overlapTwoRanges (nodeStart k r) (nodeStart k r + 8 ^ (maxTreeLevel k - nodeLevel r)) focusStart focusEnd)).

Lemma mergeChildren_down q c :
  q ∈ inner -> 0 <= c < 8 -> 8 * q + c ∈ inner -> mergeChildren q = true -> mergeChildren (8 * q + c) = true.
Proof using Hdepth Ho Hin.
  intros Hq Hc Hx Hm. set (x := 8 * q + c) in *. assert (Hxk : x ∈ allKeys 1 t) by (apply elem_of_app; by left).
  assert (Hqk : q ∈ allKeys 1 t) by (apply elem_of_app; by left).
  destruct (allKeys_node k t Hdepth q Hqk) as [Hnq _]. pose proof Hnq as (Hl0 & Hr). pose proof (pow8_pos (nodeLevel q) Hl0).
  assert (Hx1 : x <> 1) by (unfold x; lia). assert (Hxq : x / 8 = q) by by apply div8_child.
  destruct (node_links k t o Hdepth Ho x Hxk Hx1) as (_ & Hpos & _ & _ & Hpar & _). rewrite Hxq in Hpar.
  destruct (fi_mono Hin (node x) (node q)) as [Hcnt Hmac]; [pose proof (pos_range k t o Ho x Hxk); lia|done|].
  fold (opOf o counts x) in Hcnt. fold (opOf o counts q) in Hcnt. fold (opOf o macs x) in Hmac. fold (opOf o macs q) in Hmac.
  unfold mergeChildren in *. apply orb_true_iff in Hm as [Hm|Hm]; apply orb_true_iff; [left; zbool; apply Z.leb_le; lia|right].
  zbool. apply andb_true_iff. split; [apply Z.eqb_eq; auto|]. apply negb_true_iff.
  destruct (overlapTwoRanges (nodeStart k x) _ _ _) eqn:E; [|done]. apply overlapTwoRanges_iff in E.
  match goal with H : overlapTwoRanges _ _ _ _ = false |- _ => rewrite <- H; symmetry; apply overlapTwoRanges_iff end.
  destruct (allKeys_node k t Hdepth x Hxk) as [_ Hlx].
  destruct (below_range k (nodeLevel q) q x Hnq) as (_ & _ & Hb1 & Hb2); [apply below_child with c; [done|apply below_refl]|done|]. lia.
Qed.

Lemma mergeCountAndMacOp_run q :
  q ∈ allKeys 1 t ->
  exists v, mergeCountAndMacOp k (node q) P (childOffsets o) (parents o) counts macs focusStart focusEnd bucketSize = Some v /\
    (v = 0 <-> q <> 1 /\ mergeChildren (q / 8) = true) /\ (q ∈ inner -> v = 0 \/ v = 1) /\
    (q ∈ leaf -> opFits (maxTreeLevel k - nodeLevel q) v).
Proof using Hdepth Ho Hin.
  intros Hq. pose proof (pos_range k t o Ho q Hq) as Hr. destruct (node_level k t Hdepth q Hq) as [Elev Estart].
  destruct (allKeys_node k t Hdepth q Hq) as [Hn Hl]. pose proof Hn as (Hl0 & _). kfacts k.
  assert (Hget : forall A r, zlen A = n -> r ∈ allKeys 1 t -> A.[node r] = Some (at_ A r)) by (intros; by apply (opOf_get k t)).
  unfold mergeCountAndMacOp. rewrite (node_pos k t o Ho q Hq), Elev, Estart. cbv zeta.
  assert (Hsplit : exists v, (let? c := (childOffsets o).[node q] in
      let inFocus := (focusStart <=? nodeStart k q) && (nodeStart k q <? focusEnd) in
      let? mac := macs.[node q] in
      let? count := counts.[node q] in
      if (c =? 0) && (negb (mac =? 0) || inFocus) then
        if (nodeLevel q + 3 <? maxTreeLevel k) && (u32 (4096 * bucketSize) <? count) then Some 4096
        else if (nodeLevel q + 2 <? maxTreeLevel k) && (u32 (512 * bucketSize) <? count) then Some 512
        else if (nodeLevel q + 1 <? maxTreeLevel k) && (u32 (64 * bucketSize) <? count) then Some 64
        else if (nodeLevel q <? maxTreeLevel k) && (bucketSize <? count) then Some 8
        else Some 1
      else Some 1) = Some v /\ v <> 0 /\ (q ∈ inner -> v = 1) /\ (q ∈ leaf -> opFits (maxTreeLevel k - nodeLevel q) v)).
  { rewrite (Hget macs q), (Hget counts q) by (done || apply Hin).
    assert (Hfit : forall j, 0 <= j <= 4 -> nodeLevel q + j <= maxTreeLevel k -> opFits (maxTreeLevel k - nodeLevel q) (8 ^ j))
      by (intros j ? ?; right; exists j; split; [lia|]; split; [lia|done]).
    destruct (child_zero k t o Hdepth Ho (node q) q (node_pos k t o Ho q Hq)) as [(Hqi & c & -> & Hc & _)|(Hql & ->)].
    - destruct (Z.eqb_spec c 0); [lia|]. simpl. exists 1. split; [done|]. split; [done|]. split; [done|]. intros _. apply (Hfit 0); lia.
    - assert (Hno : q ∈ inner -> forall v, v = 1) by (intros Hqi; by destruct (inner_not_leaf t q)). cbn [Z.eqb andb].
      repeat match goal with |- context [if ?b then _ else _] => destruct b eqn:?; zbool end;
        (eexists; split; [done|]; split; [done|]; split; [intros; by apply Hno|]; intros _).
      + apply (Hfit 4); lia.
      + apply (Hfit 3); lia.
      + apply (Hfit 2); lia.
      + apply (Hfit 1); lia.
      + apply (Hfit 0); lia.
      + apply (Hfit 0); lia. }
  cbv zeta in Hsplit. destruct (decide (q = 1)) as [->|Hne].
  - rewrite (pos_root k t o Hdepth Ho) in *. cbn [Z.eqb negb]. destruct Hsplit as (v & -> & Hv & Hi & Hlf). exists v.
    split; [done|]. split; [split; [done|intros [? _]; done]|]. split; [right; by apply Hi|done].
  - destruct (node_links k t o Hdepth Ho q Hq Hne) as (Hpi & Hpos & _ & Epk & Epar & _).
    assert (Hpk : q / 8 ∈ allKeys 1 t) by (apply elem_of_app; by left).
    destruct (Z.eqb_spec (node q) 0); [lia|]. cbn [negb]. rewrite Epar, Epk.
    rewrite (Hget counts (q / 8)), (Hget macs (q / 8)) by (done || apply Hin).
    destruct (allKeys_node k t Hdepth (q / 8) Hpk) as [Hnp Hlp]. pose proof Hnp as (Hl1 & Hrp).
    pose proof (nodeAt_parent _ _ Hn Hne) as Hnp'.
    pose proof (nodeAt_level _ _ Hnp') as Elp.
    assert (Egroup : kwrap k (decodePlaceholderBit k (q / 8) + kwrap k (8 * nodeRange k (nodeLevel q))) =
      nodeStart k (q / 8) + 8 ^ (maxTreeLevel k - nodeLevel (q / 8))).
    { change (decodePlaceholderBit k (q / 8)) with (nodeStart k (q / 8)).
      rewrite nodeRange_pow8 by lia. replace (8 * 8 ^ (maxTreeLevel k - nodeLevel q)) with (8 ^ (maxTreeLevel k - nodeLevel (q / 8))).
      2: { rewrite <- pow8_succ by lia. f_equal. lia. }
      destruct (below_range k 0 1 (q / 8) nodeAt_root) as (_ & _ & Hs1 & Hs2); [by apply (allKeys_below 1 t)|done|].
      rewrite nodeStart_root, Z.sub_0_r in *. fold (keyMax k) in Hs2. pose proof (pow8_pos (maxTreeLevel k - nodeLevel (q / 8)) ltac:(lia)).
      rewrite (kwrap_small k (8 ^ _)) by lia. apply kwrap_small. lia. }
    rewrite Egroup. change (decodePlaceholderBit k (q / 8)) with (nodeStart k (q / 8)). fold (mergeChildren (q / 8)).
    destruct (mergeChildren (q / 8)).
    + exists 0. split; [done|]. split; [tauto|]. split; [by left|]. intros _. by left.
    + destruct Hsplit as (v & -> & Hv & Hi & Hlf). exists v. split; [done|]. split; [split; [done|intros [_ ?]; done]|].
      split; [right; by apply Hi|done].
Qed.

Lemma rebalanceDecisionEssential_run A :
  zlen A = n ->
  exists B, rebalanceDecisionEssential k P (childOffsets o) (parents o) counts macs focusStart focusEnd bucketSize A = Some B /\
    zlen B = n /\ opsOk k t (at_ B) /\ forall q, q ∈ allKeys 1 t -> at_ B q = 0 <-> q <> 1 /\ mergeChildren (q / 8) = true.
Proof using Hdepth Ho Hin.
  intros HA. unfold rebalanceDecisionEssential.
  set (g := fun i => default 0 (mergeCountAndMacOp k i P (childOffsets o) (parents o) counts macs focusStart focusEnd bucketSize)).
  match goal with |- context [for_loop 0 n ?body A] => destruct (write_loop_range body g 0 n n A HA) as (B & -> & HB & Hg & _) end; [lia|lia| |].
  { intros i st Hi Hst. destruct (index_node k t o Hdepth Ho i Hi) as (q & _ & Hq & ->). unfold g.
    destruct (mergeCountAndMacOp_run q Hq) as (v & E & _). by rewrite E. }
  exists B. split; [done|]. split; [done|].
  assert (Hop : forall q, q ∈ allKeys 1 t -> (at_ B q = 0 <-> q <> 1 /\ mergeChildren (q / 8) = true) /\ (q ∈ inner -> at_ B q = 0 \/ at_ B q = 1) /\
    (q ∈ leaf -> opFits (maxTreeLevel k - nodeLevel q) (at_ B q))).
  { intros q Hq. destruct (mergeCountAndMacOp_run q Hq) as (v & E & Hv).
    assert (at_ B q = v) as ->; [|done]. unfold opOf. rewrite (nthz_Some _ _ _ (Hg (node q) (pos_range k t o Ho q Hq))). unfold g. by rewrite E. }
  split; [|intros q Hq; by apply Hop].
  assert (Hch : forall q c, q ∈ inner -> 0 <= c < 8 -> at_ B (8 * q + c) = 0 <-> mergeChildren q = true).
  { intros q c Hq Hc. rewrite (proj1 (Hop (8 * q + c) (inner_children _ _ _ _ Hq Hc))), div8_child by done.
    split; [by intros [_ ?]|]. intros Hm. split; [|done].
    destruct (elem_aget _ _ Hq) as [j Hj]. destruct (inner_node k t Hdepth j q Hj) as [(Hl0 & Hr) _]. pose proof (pow8_pos _ Hl0). lia. }
  split.
  - rewrite (proj1 (Hop 1 (allKeys_root 1 t))). intros [? _]. done.
  - intros q c c' Hq Hc Hc'. by rewrite !Hch.
  - intros q c Hq Hc Hz. apply Hch; [done|done|]. assert (Hqk : q ∈ allKeys 1 t) by (apply elem_of_app; by left).
    apply (Hop q Hqk) in Hz as [Hne Hm]. destruct (children_of q) as (d & Hd & E). rewrite E.
    apply mergeChildren_down; [by apply parent_inner|done|by rewrite <- E|done].
  - intros q Hq. apply Hop; [apply elem_of_app; by left|done].
  - intros q Hq. apply Hop; [apply elem_of_app; by right|done].
Qed.

End Decision.

(** ** Mandatory keys *)

(** The node that a key asks for: the largest one that starts there. *)
Lemma makePrefix_node key :
  0 < key < keyMax k ->
  nodeAt (lastNzPlace k key) (makePrefix k key) /\ lastNzPlace k key <= maxTreeLevel k /\ nodeStart k (makePrefix k key) = key /\
  (8 ^ (maxTreeLevel k - lastNzPlace k key) | key) /\ ~ (8 ^ (maxTreeLevel k - lastNzPlace k key + 1) | key).
Proof using.
  clear. intros Hk. destruct (lastNzPlace_spec k key ltac:(lia)) as (Hl & Hdiv & Hno). unfold makePrefix.
  destruct (Z.eqb_spec key 0); [lia|]. cbv zeta. split; [|split; [lia|split; [|split; [done|apply Hno; lia]]]].
  - kfacts k. rewrite encodePlaceholderBit_val by lia.
    replace (3 * maxTreeLevel k - 3 * lastNzPlace k key) with (3 * (maxTreeLevel k - lastNzPlace k key)) by lia. rewrite <- !pow8_pow2 by lia.
    pose proof (pow8_pos (maxTreeLevel k - lastNzPlace k key) ltac:(lia)).
    assert (key / 8 ^ (maxTreeLevel k - lastNzPlace k key) < 8 ^ lastNzPlace k key).
    { apply Z.div_lt_upper_bound; [lia|]. rewrite <- Z.pow_add_r by lia.
      replace (maxTreeLevel k - lastNzPlace k key + lastNzPlace k key) with (maxTreeLevel k) by lia. fold (keyMax k). lia. }
    assert (0 <= key / 8 ^ (maxTreeLevel k - lastNzPlace k key)) by (apply Z.div_pos; lia). split; lia.
  - apply (decode_encode k key (lastNzPlace k key)); [lia|lia|done].
Qed.

(** What enforcing [key] on the operations [A] guarantees. *)
Record enforced (A : list Z) (key : Z) (s : ResolutionStatus) (A' : list Z) : Prop := {
  en_len : zlen A' = n;
  en_ok : opsOk k t (at_ A');
  en_mono : forall q, q ∈ allKeys 1 t -> at_ A q <= at_ A' q;
  en_resolved : s <> failed -> resolved k t (at_ A') key;
  en_missing : s = rebalance \/ s = failed -> key ∉ leafArray k t
}.

(** Undoing the merges above [q], if there is something to undo, keeps [q]. *)
Lemma undo_run A q (trySplit : bool) :
  zlen A = n -> opsOk k t (at_ A) -> q ∈ allKeys 1 t ->
  exists st B, (if ((at_ A q =? 0) || trySplit) && (0 <? node q)
      then let? nodeOps := undoMergesLoop (Z.to_nat (node q)) (childOffsets o) (parents o) (node q) A in Some (cancelMerge, nodeOps)
      else Some (converged, A)) = Some (st, B) /\ (st = converged \/ st = cancelMerge) /\ zlen B = n /\ opsOk k t (at_ B) /\
    (forall r, r ∈ allKeys 1 t -> at_ A r <= at_ B r) /\ at_ B q <> 0.
Proof using Hdepth Ho.
  intros HA Hok Hq. pose proof (pos_range k t o Ho q Hq) as Hr. destruct (Z.ltb_spec 0 (node q)) as [Hp|Hp].
  - rewrite andb_true_r. destruct ((at_ A q =? 0) || trySplit) eqn:E.
    + assert (Hq1 : q <> 1) by (intros ->; rewrite (pos_root k t o Hdepth Ho) in Hp; lia).
      destruct (undoMergesLoop_run k t o Hdepth Ho (Z.to_nat (node q)) q A HA Hq Hq1 ltac:(lia)) as (B & -> & HB & Hop).
      exists cancelMerge, B. split; [done|]. split; [by right|]. split; [done|]. split; [by eapply opsOk_raise|]. split.
      * intros r Hrk. pose proof (opsOk_nonneg k t _ r Hok Hrk). destruct (raise_cases (at_ A) (at_ B) q r (Hop r Hrk)) as [F|F]; rewrite F; [|lia].
        unfold raise. destruct (Z.eqb_spec (at_ A r) 0); lia.
      * destruct (Hop q Hq) as [F _]. rewrite F by apply support_self. unfold raise. destruct (Z.eqb_spec (at_ A q) 0); lia.
    + exists converged, A. apply orb_false_iff in E as [E _]. zbool. split; [done|]. split; [by left|]. done.
  - rewrite andb_false_r. exists converged, A. split; [done|]. split; [by left|]. split; [done|]. split; [done|]. split; [done|].
    assert (q = 1) as -> by (apply (pos_inj k t o Ho); [done|apply allKeys_root|]; rewrite (pos_root k t o Hdepth Ho); lia). apply Hok.
Qed.

(** A node above the wanted one ends at a higher level and starts before the key. *)
Lemma above_wanted key q :
  0 < key < keyMax k -> q ∈ allKeys 1 t -> below q (makePrefix k key) -> q <> makePrefix k key ->
  nodeLevel q < lastNzPlace k key /\ nodeStart k q < key < nodeStart k q + 8 ^ (maxTreeLevel k - nodeLevel q).
Proof using Hdepth.
  intros Hk Hq Hb Hne. destruct (makePrefix_node key Hk) as (Hw & Hlw & Hstart & Hdiv & Hno). set (want := makePrefix k key) in *.
  pose proof (nodeAt_level _ _ Hw) as Elw. set (lw := lastNzPlace k key) in *. destruct (allKeys_node k t Hdepth q Hq) as [Hnq Hlq].
  destruct (below_range k _ q want Hnq Hb ltac:(lia)) as (_ & Hle & Hs1 & Hs2). rewrite Elw, Hstart in *. pose proof Hw as (Hl0 & _).
  pose proof Hnq as (Hlq0 & _). pose proof (pow8_pos (maxTreeLevel k - lw) ltac:(lia)).
  assert (Hlt : nodeLevel q < lw).
  { destruct (decide (nodeLevel q = lw)) as [E|]; [|lia]. exfalso. apply Hne. rewrite E in Hnq. by apply (below_same_level lw). }
  split; [done|]. split; [|lia]. assert (nodeStart k q <> key); [|lia]. intros E. apply Hno. rewrite <- E.
  rewrite (nodeAt_start k (nodeLevel q)) by done. apply Z.divide_mul_r, pow8_divide. lia.
Qed.

Lemma enforceKeySingle_run key A :
  zlen A = n -> opsOk k t (at_ A) -> 0 <= key <= keyMax k ->
  exists s A', enforceKeySingle k key P (childOffsets o) (parents o) A = Some (s, A') /\ enforced A key s A'.
Proof using Hdepth Ho.
  intros HA Hok Hk. unfold enforceKeySingle. rewrite nodeRange_0.
  destruct (Z.eqb_spec key 0) as [->|H0]; [exists converged, A; split; [done|]; split; [done|done|done|by left|by intros [|]]|].
  destruct (Z.eqb_spec key (keyMax k)) as [->|Hmax]; [exists converged, A; split; [done|]; split; [done|done|done|by right; left|by intros [|]]|].
  cbn [orb]. assert (Hkey : 0 < key < keyMax k) by lia. destruct (makePrefix_node key Hkey) as (Hw & Hlw & Hstart & Hdiv & Hno).
  pose proof (nodeAt_level _ _ Hw) as Elw. pose proof Hw as (Hl0 & _). pose proof Hw as Hw'. rewrite <- Elw in Hw'.
  destruct (containingNode_correct k t o Hdepth Ho _ Hw' ltac:(lia)) as (i & q & -> & Hi & Hb & Hor). rewrite Hi.
  destruct (prefixes_node k t o Hdepth Ho i q Hi) as (Hq & Hnq & Hlq). destruct (node_level k t Hdepth q Hq) as [Elev _]. rewrite Elev.
  pose proof (pos_node k t o Ho i q Hi) as ->. cbv zeta. rewrite (opOf_get k t o Ho A q HA Hq). pose proof Hnq as (Hlq0 & _).
  set (trySplit := negb (q =? makePrefix k key) && (nodeLevel q <? maxTreeLevel k)).
  destruct (undo_run A q trySplit HA Hok Hq) as (st & B & -> & Hst & HB & HokB & HleB & HqB).
  destruct (Z.eqb_spec q (makePrefix k key)) as [Eq|Hne]; cbn [negb andb] in trySplit; subst trySplit.
  - exists st, B. split; [done|]. split; [done|done|done| |].
    + intros _. right; right; left. exists q. split; [done|]. split; [done|]. by rewrite Eq.
    + intros [-> | ->]; by destruct Hst.
  - destruct Hor as [|Hql]; [done|]. destruct (above_wanted key q Hkey Hq Hb Hne) as [Hlt Hr]. kfacts k.
    destruct (Z.ltb_spec (nodeLevel q) (maxTreeLevel k)) as [HlM|]; [|lia].
    rewrite (u32_small (lastNzPlace k key - nodeLevel q)), i32_small by lia. rewrite (opOf_get k t o Ho B q HB Hq).
    replace (stl_min (lastNzPlace k key - nodeLevel q) 1) with 1 by (rewrite stl_min_min; lia). change (Z.shiftl 1 (3 * 1)) with 8.
    rewrite stl_max_max. pose proof (aset_Some B (node q) (Z.max (at_ B q) 8) ltac:(rewrite HB; by apply (pos_range k t o Ho))) as E. rewrite E.
    set (C := <[Z.to_nat (node q):=Z.max (at_ B q) 8]> B) in *.
    assert (Hop : forall r, r ∈ allKeys 1 t -> at_ C r = if decide (r = q) then Z.max (at_ B q) 8 else at_ B r)
      by (intros r Hrk; by apply (opOf_set k t o Ho B C (node q))).
    assert (HopQ : at_ C q = Z.max (at_ B q) 8) by (rewrite Hop by done; by rewrite decide_True).
    eexists _, C. split; [done|]. split.
    + by rewrite (aset_zlen _ _ _ _ E).
    + apply (opsOk_split k t (at_ B) (at_ C) q); [done|done|done|lia|done|]. intros r Hrk Hne'. rewrite Hop by done. by rewrite decide_False.
    + intros r Hrk. rewrite Hop by done. specialize (HleB r Hrk). case_decide; [subst; lia|done].
    + destruct (Z.ltb_spec 1 (lastNzPlace k key - nodeLevel q)); [done|]. intros _. right; right; right. exists q.
      split; [done|]. split; [lia|]. split; [lia|]. split; [lia|].
      by replace (maxTreeLevel k - nodeLevel q - 1) with (maxTreeLevel k - lastNzPlace k key) by lia.
    + intros _. by apply (inside_not_leaf k t Hdepth q).
Qed.

Lemma status_max_cases a b : status_max a b = a \/ status_max a b = b.
Proof using. clear. unfold status_max. destruct (statusValue a <? statusValue b); auto. Qed.

Lemma status_max_failed a b : status_max a b <> failed -> a <> failed /\ b <> failed.
Proof using. clear. destruct a, b; simpl; intros H; split; intros ?; try done; by apply H. Qed.

(** All keys are resolved, or the status says that they must be injected. *)
Lemma enforceKeys_run keys A :
  zlen A = n -> opsOk k t (at_ A) -> Forall (fun x => 0 <= x <= keyMax k) keys ->
  exists s A', enforceKeys k keys P (childOffsets o) (parents o) A = Some (s, A') /\ zlen A' = n /\ opsOk k t (at_ A') /\
    (s <> failed -> forall x, x ∈ keys -> resolved k t (at_ A') x) /\
    (s = rebalance \/ s = failed -> exists x, x ∈ keys /\ x ∉ leafArray k t).
Proof using Hdepth Ho.
  intros HA Hok Hk. unfold enforceKeys.
  assert (Hgen : forall todo done st B, (forall x, x ∈ done ++ todo -> x ∈ keys) -> zlen B = n -> opsOk k t (at_ B) ->
    (st <> failed -> forall x, x ∈ done -> resolved k t (at_ B) x) ->
    (st = rebalance \/ st = failed -> exists x, x ∈ keys /\ x ∉ leafArray k t) ->
    exists s A', foldM (fun key '(status, nodeOps) =>
        let? (s, nodeOps) := enforceKeySingle k key P (childOffsets o) (parents o) nodeOps in
        Some (status_max s status, nodeOps)) todo (st, B) = Some (s, A') /\ zlen A' = n /\ opsOk k t (at_ A') /\
      (s <> failed -> forall x, x ∈ done ++ todo -> resolved k t (at_ A') x) /\
      (s = rebalance \/ s = failed -> exists x, x ∈ keys /\ x ∉ leafArray k t)).
  { induction todo as [|key todo IH]; intros done st B Hin HB HokB Hres Hmiss; cbn [foldM]; [exists st, B; by rewrite app_nil_r|].
    assert (Hkin : key ∈ keys) by (apply Hin; set_solver).
    destruct (enforceKeySingle_run key B HB HokB) as (s & C & -> & [HC HokC Hle Hr Hm]); [rewrite Forall_forall in Hk; by apply Hk|].
    destruct (IH (done ++ [key]) (status_max s st) C) as (s' & A' & E & H).
    - intros x Hx. apply Hin. by rewrite <- app_assoc in Hx.
    - done.
    - done.
    - intros [Hs Hst]%status_max_failed x [Hx|Hx]%elem_of_app; [|apply list_elem_of_singleton in Hx as ->; by apply Hr].
      eapply resolved_mono; [|by apply Hres]. intros q Hq. split; [by apply (opsOk_nonneg k t)|by apply Hle].
    - intros Hs. destruct (status_max_cases s st) as [E|E]; rewrite E in Hs; [|by apply Hmiss]. exists key. auto.
    - exists s', A'. split; [done|]. by rewrite <- app_assoc in H. }
  apply (Hgen keys [] converged A); [done|done|done|intros _ x Hx; by apply not_elem_of_nil in Hx|by intros [|]].
Qed.

End Update.

(** ** The combined update *)

Lemma gather_front (ordering : list Z) (src dst : list Z) (g : Z -> Z) :
  (forall i, 0 <= i < zlen ordering -> exists j, ordering.[i] = Some j /\ src.[j] = Some (g i)) -> zlen ordering <= zlen dst ->
  gather ordering src dst = Some ((g <$> seqZ 0 (zlen ordering)) ++ drop (Z.to_nat (zlen ordering)) dst).
Proof.
  intros Hg Hle. unfold gather. pose proof (zlen_nonneg ordering).
  pose proof (write_loop_block g (fun i => let? j := ordering.[i] in src.[j]) 0 0 (zlen ordering) [] (take (Z.to_nat (zlen ordering)) dst)
    (drop (Z.to_nat (zlen ordering)) dst)) as E.
  simpl app in E. rewrite take_drop in E. rewrite Z.add_0_l in E. rewrite <- E.
  - apply for_loop_ext. intros i st Hi. destruct (Hg i Hi) as (j & -> & ->). by rewrite Z.add_0_l.
  - unfold zlen in *. rewrite length_take. lia.
  - done.
  - intros i Hi. destruct (Hg i ltac:(lia)) as (j & -> & ->). done.
Qed.

Section Combined.
Context (k : KeyType) (t : otree) (o : OctreeData).
Hypothesis Ho : octreeDataOf k t o.

Local Abbreviation a := (arrays o).
Local Abbreviation leaf := (leafKeys 1 t).

(** The operations of the leaves after protection, in leaf order. *)
Definition leafOps (op : Z -> Z) : list Z := protectedOp k op <$> leaf.

Lemma leafOps_get op j q : leaf.[j] = Some q -> nthz (leafOps op) j = protectedOp k op q.
Proof using. clear. intros E. apply nthz_Some. unfold leafOps. by rewrite aget_map, E. Qed.

Lemma gather_leafOps B op :
  zlen B = zlen (prefixes a) -> (forall r, r ∈ allKeys 1 t -> opOf a B r = protectedOp k op r) ->
  exists x rest, gather (take (Z.to_nat (numLeafNodes o)) (drop (Z.to_nat (numInternalNodes o)) (leafToInternal a))) B (childOffsets a) =
    Some (leafOps op ++ x :: rest).
Proof using Ho.
  intros HB Hop. destruct Ho as [Hd Hnl Hni Hl (Hz1 & _ & Hz3 & Hz4 & _) _]. rewrite Hnl, Hni.
  pose proof (zlen_nonneg (innerKeys 1 t)). pose proof (zlen_nonneg leaf).
  set (span := take _ (drop _ _)). assert (Hspan : zlen span = zlen leaf).
  { unfold span, zlen in *. rewrite length_take, length_drop. lia. }
  rewrite (gather_front span B (childOffsets a) (nthz (leafOps op))).
  - rewrite Hspan. destruct (drop (Z.to_nat (zlen leaf)) (childOffsets a)) as [|x rest] eqn:E.
    { exfalso. apply (f_equal (@length Z)) in E. rewrite length_drop in E. unfold zlen in *. simpl in E. lia. }
    exists x, rest. do 2 f_equal. apply list_eq_aget; unfold leafOps; rewrite !zlen_map, zlen_seqZ by lia; [done|].
    intros i Hi. rewrite aget_map, aget_seqZ by lia. simpl. rewrite Z.add_0_l. symmetry. apply nthz_get. by rewrite zlen_map.
  - intros i Hi. rewrite Hspan in Hi. destruct (aget_is_Some leaf i Hi) as [q Hq].
    destruct (lk_leafIndex _ _ _ Hl i q Hq) as (j & Hj & Hp & _). exists j. split.
    + unfold span. rewrite aget_lookup in Hj |- * by lia. rewrite lookup_take_lt, lookup_drop by lia. rewrite <- Hj. f_equal. lia.
    + rewrite (leafOps_get op i q Hq). assert (Hqk : q ∈ allKeys 1 t) by (apply elem_of_app; right; by eapply aget_elem).
      rewrite <- Hop by done. rewrite (pos_node k t a Hl j q Hp). by apply (opOf_get k t).
  - unfold zlen in *. lia.
Qed.

Lemma leafOps_fit op : opsOk k t op -> opsFit k (leafArray k t) (leafOps op).
Proof using Ho.
  intros Hok. pose proof (od_depth _ _ _ Ho) as Hd. split; [by unfold leafOps; rewrite zlen_map, nNodes_leafArray|].
  intros j Hj. rewrite nNodes_leafArray in Hj. destruct (aget_is_Some leaf j Hj) as [q Hq].
  destruct (leafArray_leaf k t Hd j q Hq) as (E1 & E2 & (Hl0 & _) & Hl). exists (maxTreeLevel k - nodeLevel q). split; [lia|].
  rewrite (nthz_Some _ _ _ E1), (nthz_Some _ _ _ E2). split; [done|]. rewrite (leafOps_get op j q Hq).
  apply (protectedOp_leaf k t Hd op Hok). by eapply aget_elem.
Qed.

(** [rebalanceTree] with these operations builds the tree described by the node operations. *)
Lemma newLeaves_focus op :
  opsOk k t op -> newLeaves (leafArray k t) (leafOps op) 0 (nNodes (leafArray k t)) = focusLeaves k op 1 t.
Proof using Ho.
  intros Hok. pose proof (od_depth _ _ _ Ho) as Hd. rewrite <- (leafOut_focus k t op Hok t 1 (subtree_root k t Hd) (ok_root _ _ _ Hok)).
  unfold newLeaves. f_equal. rewrite Z.sub_0_r, nNodes_leafArray. pose proof (zlen_nonneg leaf).
  apply list_eq_aget; rewrite !zlen_map, zlen_seqZ by lia; [done|]. intros j Hj. rewrite !aget_map, aget_seqZ by lia.
  destruct (aget_is_Some leaf j Hj) as [q Hq]. rewrite Hq. simpl. f_equal. unfold leafOutput, leafOut.
  destruct (leafArray_leaf k t Hd j q Hq) as (E1 & E2 & _). rewrite Z.add_0_l.
  by rewrite (nthz_Some _ _ _ E1), (nthz_Some _ _ _ E2), (leafOps_get op j q Hq).
Qed.

Lemma focusLeaves_csTree op : opsOk k t op -> csTree k (focusLeaves k op 1 t ++ [keyMax k]).
Proof using Ho.
  intros Hok. pose proof (od_depth _ _ _ Ho) as Hd. eexists. split; [done|].
  pose proof (focusLeaves_chain k t op Hok t 1 (subtree_root k t Hd) (ok_root _ _ _ Hok)) as Hc. by rewrite nodeStart_root, Z.sub_0_r in Hc.
Qed.

(** The update returns a cornerstone tree with all mandatory keys and its internal tree, and
    reports convergence exactly if the leaves did not change. *)
Lemma updateFocus_run bucketSize focusStart focusEnd mandatoryKeys counts macs :
  focusInput a counts macs -> Forall (fun x => 0 <= x <= keyMax k) ([focusStart; focusEnd] ++ mandatoryKeys) ->
  exists conv o' leaves', updateFocus k o (leafArray k t) bucketSize focusStart focusEnd mandatoryKeys counts macs = Some (conv, o', leaves') /\
    csTree k leaves' /\ (forall x, x ∈ [focusStart; focusEnd] ++ mandatoryKeys -> x ∈ leaves') /\
    (exists t', octreeDataOf k t' o' /\ leaves' = leafArray k t') /\ (conv = true <-> leaves' = leafArray k t).
Proof using Ho.
  intros Hin Hkeys. pose proof Ho as [Hd Hnl Hni Hl (Hz1 & Hz2 & Hz3 & Hz4 & _) _]. unfold updateFocus. cbv zeta.
  destruct (rebalanceDecisionEssential_run k t a Hd Hl counts macs focusStart focusEnd bucketSize Hin (internalToLeaf a)) as (A & -> & HA & HokA & _);
    [lia|].
  set (keys := [focusStart; focusEnd] ++ mandatoryKeys) in *.
  destruct (enforceKeys_run k t a Hd Hl keys A HA HokA Hkeys) as (s & B & -> & HB & HokB & Hres & Hmiss).
  unfold protectAncestors. destruct (protectAncestorsIn_run k t a Hd Hl (seqZ 0 (zlen (prefixes a))) B HB (ok_root _ _ _ HokB)) as (conv & C & -> & HC & Hop & Hconv); [done|].
  set (op := opOf a B) in *. destruct (gather_leafOps C op HC Hop) as (x & rest & ->).
  rewrite (rebalanceTree_spec k (leafArray k t) 0 (keyMax k)); [|by apply leafArray_csTree|by apply leafOps_fit].
  rewrite newLeaves_focus by done. set (F := focusLeaves k op 1 t ++ [keyMax k]). pose proof (focusLeaves_csTree op HokB) as HF. fold F in HF.
  pose proof (focusLeaves_unchanged k t Hd op HokB) as Hsame. fold F in Hsame.
  set (o1 := mkOctreeData _ _ _ _).
  assert (Hall : conv = true <-> F = leafArray k t).
  { rewrite Hconv, Hsame. split; [intros H q Hq; apply H, elem_of_app; by right|by apply leaves_decide]. }
  assert (Hfinish : forall c leaves', csTree k leaves' -> (forall x, x ∈ keys -> x ∈ leaves') -> (c = true <-> leaves' = leafArray k t) ->
    exists conv o' leaves'', (let? tree := updateInternalTree k leaves' (OctreeData_resize k o1 (nNodes leaves')) in Some (c, tree, leaves')) = Some (conv, o', leaves'') /\
      csTree k leaves'' /\ (forall x, x ∈ keys -> x ∈ leaves'') /\ (exists t', octreeDataOf k t' o' /\ leaves'' = leafArray k t') /\
      (conv = true <-> leaves'' = leafArray k t)).
  { intros c leaves' Hcs Hk Hc. destruct (updateInternalTree_octreeDataOf k leaves' o1 Hcs) as (t' & o' & -> & Hoo & Et & _).
    exists c, o', leaves'. split; [done|]. split; [done|]. split; [done|]. split; [by exists t'|done]. }
  assert (HresF : s <> failed -> forall x, x ∈ keys -> x ∈ F) by (intros Hs y Hy; apply (resolved_in k t Hd op y HokB); by apply Hres).
  assert (Hchanged : forall leaves', (s = rebalance \/ s = failed) -> (forall x, x ∈ keys -> x ∈ leaves') -> leaves' <> leafArray k t).
  { intros leaves' Hs Hk E. destruct (Hmiss Hs) as (y & Hy & Hno). apply Hno. rewrite <- E. by apply Hk. }
  destruct s.
  - apply Hfinish; [done|by apply HresF|done].
  - apply Hfinish; [done|by apply HresF|]. rewrite Hsame.
    rewrite Hnl, take_app_length' by (unfold leafOps, zlen; rewrite length_fmap; lia). unfold leafOps.
    rewrite forallb_forall. split.
    + intros H q Hq. apply Z.eqb_eq, H. apply list_elem_of_In, list_elem_of_fmap. by exists q.
    + intros H y Hy%list_elem_of_In%list_elem_of_fmap. destruct Hy as (q & -> & Hq). apply Z.eqb_eq. by apply H.
  - apply Hfinish; [done|by apply HresF|]. split; [done|]. intros E. exfalso. by apply (Hchanged F); [left|apply HresF|].
  - destruct (injectKeys_run k F keys HF Hkeys) as (leaves' & -> & Hcs & _ & Hk). apply Hfinish; [done|done|]. split; [done|].
    intros E. exfalso. by apply (Hchanged leaves'); [right|..].
Qed.

End Combined.
