(* ===== verification/FocusProperties.v ===== *)
(** * Properties of the focused octree

    The claims about [cstone/focus/] and [cstone/traversal/boxoverlap.hpp]. *)

From S2P Require Import Prelude Primitives SfcCommon Csarray CsInvariant CsRebalance CsCounts CsUtil SfcBox Morton Hilbert Sfc Octree OctreeNodes OctreeBuild OctreeQueries BoxOverlap FocusRebalance FocusInject FocusTree FocusOps FocusUpdate.

(** ** Particle counts of selected leaves *)

(** Sum of the counts of the leaves that start in [a, b). *)
Definition countBetween (leaves counts : list Z) (a b : Z) : Z :=
  zsum ((fun '(x, c) => if (a <=? x) && (x <? b) then c else 0) <$> zip leaves counts).

Lemma countBetween_slice k leaves counts i e :
  csTree k leaves -> zlen counts = nNodes leaves -> 0 <= i <= e -> e <= nNodes leaves ->
  countBetween leaves counts (nthz leaves i) (nthz leaves e) = zsum (nthz counts <$> seqZ i (e - i)).
Proof.
  intros Hcs Hlen Hi He. pose proof (cs_nodes k _ Hcs) as HT. unfold nNodes in *.
  assert (Hsel : forall j, 0 <= j < zlen counts -> ((nthz leaves i <=? nthz leaves j) && (nthz leaves j <? nthz leaves e)) = (i <=? j) && (j <? e)).
  { intros j Hj. apply eq_true_iff_eq. rewrite !andb_true_iff, !Z.leb_le, !Z.ltb_lt. split.
    - intros [H1 H2]. split; [|apply (nodes_lt_inv k _ _ HT); lia]. destruct (Z.le_gt_cases i j); [done|].
      pose proof (nodes_mono k _ _ HT j i ltac:(lia) ltac:(lia) ltac:(lia)). lia.
    - intros [H1 H2]. split; [apply (nodes_mono_le k _ _ HT)|apply (nodes_mono k _ _ HT)]; lia. }
  transitivity (zsum ((fun j => if (i <=? j) && (j <? e) then nthz counts j else 0) <$> seqZ 0 (zlen counts))).
  - unfold countBetween. f_equal. pose proof (zlen_nonneg counts). apply list_eq_aget.
    + rewrite !zlen_map, zlen_seqZ by lia. unfold zlen in *. rewrite length_zip_with. lia.
    + intros j Hj. rewrite zlen_map in Hj. assert (Hjc : 0 <= j < zlen counts) by (unfold zlen in *; rewrite length_zip_with in Hj; lia).
      rewrite !aget_map, aget_seqZ, Z.add_0_l by lia. simpl.
      rewrite (proj2 (aget_zip leaves counts j (nthz leaves j) (nthz counts j))); [|split; apply nthz_get; lia]. simpl. by rewrite Hsel.
  - replace (zlen counts) with (i + ((e - i) + (zlen counts - e))) by lia. rewrite !seqZ_app by lia. rewrite !fmap_app, !zsum_app, Z.add_0_l.
    assert (Hz : forall lo m, (forall j, lo <= j < lo + m -> (i <=? j) && (j <? e) = false) ->
      zsum ((fun j => if (i <=? j) && (j <? e) then nthz counts j else 0) <$> seqZ lo m) = 0).
    { intros lo m Hno. assert (Hall : Forall (fun x => x = 0) ((fun j => if (i <=? j) && (j <? e) then nthz counts j else 0) <$> seqZ lo m)).
      { apply Forall_fmap, Forall_forall. intros j Hj%elem_of_seqZ. simpl. by rewrite Hno. }
      induction Hall as [|x l -> _ IH]; [done|]. rewrite zsum_cons. lia. }
    rewrite (Hz 0 i), (Hz (i + (e - i))).
    + rewrite Z.add_0_l, Z.add_0_r. f_equal. apply list_fmap_ext. intros _ j Hj%list_elem_of_lookup_2%elem_of_seqZ.
      destruct (Z.leb_spec i j); [|lia]. destruct (Z.ltb_spec j e); [done|lia].
    + intros j Hj. destruct (Z.leb_spec i j); [|done]. destruct (Z.ltb_spec j e); [lia|done].
    + intros j Hj. destruct (Z.leb_spec i j); [lia|done].
Qed.

Lemma u64_sum l acc :
  0 <= acc -> Forall (fun c => 0 <= c) l -> acc + zsum l < 2 ^ 64 -> foldl (fun s c => u64 (s + c)) acc l = acc + zsum l.
Proof.
  revert acc. induction l as [|c l IH]; intros acc Ha Hl Hs; [simpl; lia|]. apply Forall_cons in Hl as [Hc Hl]. rewrite zsum_cons in *.
  pose proof (zsum_nonneg l Hl). cbn [foldl]. rewrite u64_small by lia. rewrite IH by (done || lia). lia.
Qed.

Section RangeCount.
Context (k : KeyType) (leaves counts leavesFocus : list Z).
Hypothesis Hcs : csTree k leaves.
Hypothesis Hlen : zlen counts = nNodes leaves.
Hypothesis Hcounts : Forall (fun c => 0 <= c <= 0xFFFFFFFF) counts.
Hypothesis Hsize : zlen counts < 2 ^ 32.

Definition focusCount (leafIdx : Z) : Z :=
  Z.min 0xFFFFFFFF (countBetween leaves counts (nthz leavesFocus leafIdx) (nthz leavesFocus (leafIdx + 1))).

Lemma locate_key x : x ∈ leaves -> exists i, 0 <= i <= nNodes leaves /\ nthz leaves i = x /\
  findNodeBelow leaves (zlen leaves) x = Some i /\ findNodeAbove leaves (zlen leaves) x = Some i.
Proof using Hcs.
  intros [i Hi]%elem_aget. pose proof (aget_Some_range _ _ _ Hi). pose proof (cs_nodes k _ Hcs) as HT. unfold nNodes in *. exists i. split; [lia|].
  split; [by apply nthz_Some|]. apply nthz_Some in Hi as <-. split.
  - unfold findNodeBelow. rewrite (upper_bound_unique leaves 0 (zlen leaves) (nthz leaves i) (i + 1)); [f_equal; lia|lia|lia|lia|..];
      intros j y Hj Hy; apply nthz_Some in Hy as <-; [apply (nodes_mono_le k _ _ HT)|apply (nodes_mono k _ _ HT)]; lia.
  - unfold findNodeAbove. apply lower_bound_unique; [lia|lia|lia|..];
      intros j y Hj Hy; apply nthz_Some in Hy as <-; [apply (nodes_mono k _ _ HT)|apply (nodes_mono_le k _ _ HT)]; lia.
Qed.

Lemma rangeCountBody_run idx i leafIdx out :
  idx.[i] = Some leafIdx -> 0 <= leafIdx < nNodes leavesFocus -> nthz leavesFocus leafIdx <= nthz leavesFocus (leafIdx + 1) ->
  nthz leavesFocus leafIdx ∈ leaves -> nthz leavesFocus (leafIdx + 1) ∈ leaves ->
  rangeCountBody leaves counts leavesFocus idx i out = aset out leafIdx (focusCount leafIdx).
Proof using All.
  intros Hi Hr Hle Ha Hb. unfold rangeCountBody. rewrite Hi. unfold nNodes in Hr. rewrite !nthz_get by lia.
  destruct (locate_key _ Ha) as (s & Hs & Es & -> & _). destruct (locate_key _ Hb) as (e & He & Ee & _ & ->).
  pose proof (cs_nodes k _ Hcs) as HT.
  assert (Hse : s <= e).
  { destruct (Z.le_gt_cases s e); [done|]. pose proof (nodes_mono k _ _ HT e s ltac:(unfold nNodes in *; lia) ltac:(lia) ltac:(unfold nNodes in *; lia)). lia. }
  rewrite (mapM_range_Some s e _ (nthz counts)) by (intros j Hj; apply nthz_get; lia). unfold focusCount.
  rewrite <- Es, <- Ee, (countBetween_slice k) by (done || lia).
  assert (Hpos : Forall (fun c => 0 <= c <= 0xFFFFFFFF) (nthz counts <$> seqZ s (e - s))).
  { apply Forall_fmap, Forall_forall. intros j Hj%elem_of_seqZ. simpl. rewrite Forall_forall in Hcounts. apply Hcounts.
    eapply aget_elem, nthz_get. lia. }
  pose proof (zsum_bounds _ _ Hpos) as Hb2. rewrite zlen_map, zlen_seqZ in Hb2 by lia.
  rewrite u64_sum; [|done|eapply Forall_impl; [exact Hpos|]; simpl; lia|lia]. rewrite Z.add_0_l. f_equal. apply u32_small. lia.
Qed.

End RangeCount.

(** ** Concrete inputs *)

(** Eight leaves of level one, the first of them split once more, and the node array that
    [updateInternalTree] builds for them. *)
Definition focusLeaves15 : list Z := [0; 8 ^ 8; 2 * 8 ^ 8; 3 * 8 ^ 8; 4 * 8 ^ 8; 5 * 8 ^ 8; 6 * 8 ^ 8; 7 * 8 ^ 8;
  8 ^ 9; 2 * 8 ^ 9; 3 * 8 ^ 9; 4 * 8 ^ 9; 5 * 8 ^ 9; 6 * 8 ^ 9; 7 * 8 ^ 9; 8 ^ 10].

Definition emptyFocusTree : OctreeData := mkOctreeData 0 0 0 (mkOctreeArrays [] [] [] [] [] []).

Definition focusTree15 : OctreeData :=
  default emptyFocusTree (Octree.updateInternalTree Key32 focusLeaves15 (OctreeData_resize Key32 emptyFocusTree (nNodes focusLeaves15))).

Lemma focusLeaves15_csTree : csTree Key32 focusLeaves15.
Proof. apply (bool_decide_unpack _). vm_compute. exact I. Qed.

Lemma focusTree15_octree : exists t, octreeDataOf Key32 t focusTree15 /\ focusLeaves15 = leafArray Key32 t.
Proof.
  destruct (updateInternalTree_octreeDataOf Key32 focusLeaves15 emptyFocusTree focusLeaves15_csTree) as (t & o & E & Ho & Et & _).
  exists t. unfold focusTree15. rewrite E. split; [exact Ho|exact Et].
Qed.

(** Counts and criteria of the 17 nodes in level order. *)
Definition focusCounts15 : list Z := [41; 27; 2; 2; 2; 2; 2; 2; 2; 20; 1; 1; 1; 1; 1; 1; 1].
Definition focusMacs15 : list Z := [1; 1; 0; 0; 1; 0; 0; 0; 0; 1; 0; 0; 0; 0; 0; 0; 0].

Lemma focusInput15 : focusInput (arrays focusTree15) focusCounts15 focusMacs15.
Proof.
  split; [vm_compute; reflexivity|vm_compute; reflexivity|]. intros i p Hi Hp.
  assert (Hb : forallb (fun i => match (parents (arrays focusTree15)).[Z.quot (Z.of_nat i - 1) 8] with
    | Some p => (Z.of_nat i <=? 0) || ((nthz focusCounts15 (Z.of_nat i) <=? nthz focusCounts15 p) &&
                  (negb (nthz focusMacs15 p =? 0) || (nthz focusMacs15 (Z.of_nat i) =? 0)))
    | None => true end) (seq 0 17) = true) by (vm_compute; reflexivity).
  assert (Hr : 0 <= i < Z.of_nat 17) by (change (zlen (prefixes (arrays focusTree15))) with 17 in Hi; lia).
  pose proof (forallb_below 17 (fun i => match (parents (arrays focusTree15)).[Z.quot (i - 1) 8] with
    | Some p => (i <=? 0) || ((nthz focusCounts15 i <=? nthz focusCounts15 p) && (negb (nthz focusMacs15 p =? 0) || (nthz focusMacs15 i =? 0)))
    | None => true end) Hb i Hr) as H. cbv beta in H. rewrite Hp in H.
  clear Hb Hp. revert H. generalize (nthz focusCounts15 i), (nthz focusCounts15 p), (nthz focusMacs15 i), (nthz focusMacs15 p).
  intros c c' m m' H. apply orb_true_iff in H as [H|H]; [zbool; lia|]. apply andb_true_iff in H as [Hc Hm]. apply Z.leb_le in Hc.
  split; [exact Hc|]. intros ->. cbn in Hm. by apply Z.eqb_eq.
Qed.

(** ** Claims *)

(** C9: [CombinedUpdate::updateFocus] on an octree with counts and multipole criteria that do
    not increase towards the leaves installs a cornerstone tree and the internal tree over
    it, the new tree contains the focus boundaries and every mandatory key, whatever their
    depth, and the return value says exactly whether the leaves stayed the same. *)
Theorem updateFocus_correct k t o leaves bucketSize focusStart focusEnd mandatoryKeys counts macs :
  octreeDataOf k t o -> leaves = leafArray k t -> focusInput (arrays o) counts macs ->
  Forall (fun x => 0 <= x <= keyMax k) ([focusStart; focusEnd] ++ mandatoryKeys) ->
  exists conv o' leaves',
    updateFocus k o leaves bucketSize focusStart focusEnd mandatoryKeys counts macs = Some (conv, o', leaves') /\
    csTree k leaves' /\ (forall x, x ∈ [focusStart; focusEnd] ++ mandatoryKeys -> x ∈ leaves') /\
    (exists t', octreeDataOf k t' o' /\ leaves' = leafArray k t') /\ (conv = true <-> leaves' = leaves).
Proof. intros Ho -> Hin Hk. by apply updateFocus_run. Qed.

Lemma updateFocus_correct_witness :
  exists conv o' leaves',
    updateFocus Key32 focusTree15 focusLeaves15 4 0 (2 * 8 ^ 8) [3 * 8 ^ 9 + 8 ^ 8; 5 * 8 ^ 9 + 8 ^ 5] focusCounts15 focusMacs15 = Some (conv, o', leaves') /\
    csTree Key32 leaves' /\ (forall x, x ∈ [0; 2 * 8 ^ 8] ++ [3 * 8 ^ 9 + 8 ^ 8; 5 * 8 ^ 9 + 8 ^ 5] -> x ∈ leaves') /\
    (exists t', octreeDataOf Key32 t' o' /\ leaves' = leafArray Key32 t') /\ (conv = true <-> leaves' = focusLeaves15).
Proof.
  destruct focusTree15_octree as (t & Ho & Et).
  apply (updateFocus_correct Key32 t focusTree15 focusLeaves15 4 0 (2 * 8 ^ 8) [3 * 8 ^ 9 + 8 ^ 8; 5 * 8 ^ 9 + 8 ^ 5] focusCounts15 focusMacs15 Ho Et focusInput15).
  repeat constructor; vm_compute; congruence.
Defined.

(** [protectAncestors] reads and overwrites the operations in place from parallel
    iterations; in whatever order the iterations take effect, the walks to the closest kept
    ancestor terminate, every node ends up with the operation of that ancestor if it is its
    left-most descendant and with 0 otherwise, and the result is true exactly if all of
    these are 1. *)
Theorem protectAncestors_any_order k t o order nodeOps :
  octreeDataOf k t o -> order ≡ₚ seqZ 0 (zlen (prefixes (arrays o))) ->
  zlen nodeOps = zlen (prefixes (arrays o)) -> opOf (arrays o) nodeOps 1 <> 0 ->
  exists conv nodeOps', protectAncestorsIn order k (prefixes (arrays o)) (parents (arrays o)) nodeOps = Some (conv, nodeOps') /\
    zlen nodeOps' = zlen nodeOps /\
    (forall i q, (prefixes (arrays o)).[i] = Some q -> nodeOps'.[i] = Some (protectedOp k (opOf (arrays o) nodeOps) q)) /\
    (conv = true <-> forall i v, nodeOps'.[i] = Some v -> v = 1).
Proof.
  intros [Hd _ _ Hl _] Hperm Hz H1. destruct (protectAncestorsIn_run k t (arrays o) Hd Hl order nodeOps Hz H1 Hperm) as (conv & B & E & HB & Hop & Hconv).
  assert (Hget : forall i q, (prefixes (arrays o)).[i] = Some q -> q ∈ allKeys 1 t /\ B.[i] = Some (protectedOp k (opOf (arrays o) nodeOps) q)).
  { intros i q Hi. destruct (prefixes_node k t _ Hd Hl i q Hi) as [Hq _]. split; [done|]. rewrite <- Hop by done.
    rewrite (pos_node k t _ Hl i q Hi). by apply (opOf_get k t). }
  exists conv, B. split; [done|]. split; [lia|]. split; [intros; by apply Hget|]. rewrite Hconv. split.
  - intros H i v Hv. pose proof (aget_Some_range _ _ _ Hv). destruct (index_node k t _ Hd Hl i ltac:(lia)) as (q & Hi & Hq & _).
    destruct (Hget i q Hi) as [_ E']. rewrite E' in Hv. injection Hv as <-. by apply H.
  - intros H r Hr. destruct (Hget _ _ (node_pos k t _ Hl r Hr)) as [_ E']. by apply H in E'.
Qed.

Definition focusOps15 : list Z := [1; 1; 1; 1; 1; 1; 1; 1; 1; 0; 0; 0; 0; 0; 0; 0; 0].

Lemma protectAncestors_any_order_witness :
  exists conv nodeOps', protectAncestorsIn (reverse (seqZ 0 17)) Key32 (prefixes (arrays focusTree15)) (parents (arrays focusTree15)) focusOps15 = Some (conv, nodeOps') /\
    zlen nodeOps' = zlen focusOps15 /\
    (forall i q, (prefixes (arrays focusTree15)).[i] = Some q -> nodeOps'.[i] = Some (protectedOp Key32 (opOf (arrays focusTree15) focusOps15) q)) /\
    (conv = true <-> forall i v, nodeOps'.[i] = Some v -> v = 1).
Proof.
  destruct focusTree15_octree as (t & Ho & _). apply (protectAncestors_any_order Key32 t focusTree15 (reverse (seqZ 0 17)) focusOps15 Ho).
  - change (zlen (prefixes (arrays focusTree15))) with 17. apply reverse_Permutation.
  - vm_compute. reflexivity.
  - vm_compute. congruence.
Defined.

(** [injectKeys] returns a cornerstone tree that refines the old one and has every
    injected key as a leaf boundary. *)
Theorem injectKeys_correct k tree keys :
  csTree k tree -> Forall (fun x => 0 <= x <= keyMax k) keys ->
  exists tree', injectKeys k tree keys = Some tree' /\ csTree k tree' /\
    (forall x, x ∈ tree -> x ∈ tree') /\ (forall x, x ∈ keys -> x ∈ tree').
Proof. apply injectKeys_run. Qed.

Lemma injectKeys_correct_witness :
  exists tree', injectKeys Key32 focusLeaves15 [77; 8 ^ 9 + 1; 77] = Some tree' /\ csTree Key32 tree' /\
    (forall x, x ∈ focusLeaves15 -> x ∈ tree') /\ (forall x, x ∈ [77; 8 ^ 9 + 1; 77] -> x ∈ tree').
Proof.
  apply (injectKeys_correct Key32 focusLeaves15 [77; 8 ^ 9 + 1; 77]); [apply focusLeaves15_csTree|]. repeat constructor; vm_compute; congruence.
Defined.

(** [rangeCount] stores for each selected leaf of the focus tree the number of particles
    that the global tree has between its two keys, saturated at the largest 32-bit value, if
    both keys are part of the global tree, and leaves the other entries alone. *)
Theorem rangeCount_exact k leaves counts leavesFocus leavesFocusIdx countsFocus :
  csTree k leaves -> zlen counts = nNodes leaves -> Forall (fun c => 0 <= c <= 0xFFFFFFFF) counts -> zlen counts < 2 ^ 32 ->
  zlen countsFocus = nNodes leavesFocus -> zsorted leavesFocus ->
  Forall (fun j => 0 <= j < nNodes leavesFocus /\ nthz leavesFocus j ∈ leaves /\ nthz leavesFocus (j + 1) ∈ leaves) leavesFocusIdx ->
  exists out, rangeCount leaves counts leavesFocus leavesFocusIdx countsFocus = Some out /\ zlen out = zlen countsFocus /\
    (forall j, j ∈ leavesFocusIdx -> out.[j] =
       Some (Z.min 0xFFFFFFFF (countBetween leaves counts (nthz leavesFocus j) (nthz leavesFocus (j + 1))))) /\
    (forall j, j ∉ leavesFocusIdx -> out.[j] = countsFocus.[j]).
Proof.
  intros Hcs Hlen Hc Hsize Hout Hs Hidx. unfold rangeCount. pose proof (zlen_nonneg leavesFocusIdx). rewrite Forall_forall in Hidx.
  destruct (for_loop_inv (fun i out => zlen out = zlen countsFocus /\
      (forall j, (exists i', 0 <= i' < i /\ leavesFocusIdx.[i'] = Some j) -> out.[j] = Some (focusCount leaves counts leavesFocus j)) /\
      (forall j, (forall i', 0 <= i' < i -> leavesFocusIdx.[i'] <> Some j) -> out.[j] = countsFocus.[j])) 0 (zlen leavesFocusIdx)
      (rangeCountBody leaves counts leavesFocus leavesFocusIdx) countsFocus) as (out & E & Hz & Hin & Hno).
  - lia.
  - split; [done|]. split; [intros j (i' & ? & _); lia|done].
  - intros i out Hi (Hz & Hin & Hno). destruct (aget_is_Some leavesFocusIdx i Hi) as [x Hx].
    destruct (Hidx x (aget_elem _ _ _ Hx)) as (Hr & Ha & Hb).
    assert (Hle : nthz leavesFocus x <= nthz leavesFocus (x + 1)) by (eapply (Hs x (x + 1)); [lia|apply nthz_get; unfold nNodes in Hr; lia..]).
    rewrite (rangeCountBody_run k leaves counts leavesFocus Hcs Hlen Hc Hsize leavesFocusIdx i x out Hx Hr Hle Ha Hb).
    pose proof (aset_Some out x (focusCount leaves counts leavesFocus x) ltac:(lia)) as F. rewrite F. eexists. split; [done|].
    split; [by rewrite (aset_zlen _ _ _ _ F)|]. split.
    + intros j (i' & Hi' & Hj). destruct (decide (x = j)) as [<-|Hne]; [by eapply aget_aset_eq|]. rewrite (aget_aset_ne _ _ _ _ _ F Hne).
      apply Hin. exists i'. split; [|done]. assert (i' <> i) by congruence. lia.
    + intros j Hj. rewrite (aget_aset_ne _ _ _ _ _ F); [apply Hno; intros i' Hi'; apply Hj; lia|]. intros ->. apply (Hj i); [lia|done].
  - exists out. split; [done|]. split; [done|]. split.
    + intros j [i Hi]%elem_aget. apply Hin. exists i. split; [|done]. by eapply aget_Some_range.
    + intros j Hj. apply Hno. intros i' _ E'. by apply aget_elem in E'.
Qed.

Lemma rangeCount_exact_witness :
  exists out, rangeCount focusLeaves15 [20; 1; 1; 1; 1; 1; 1; 4294967295; 2; 2; 2; 2; 2; 2; 2] [0; 8 ^ 9; 2 * 8 ^ 9; 8 ^ 10] [0; 2; 0] [5; 6; 7] = Some out /\
    zlen out = zlen [5; 6; 7] /\
    (forall j, j ∈ [0; 2; 0] -> out.[j] = Some (Z.min 0xFFFFFFFF (countBetween focusLeaves15 [20; 1; 1; 1; 1; 1; 1; 4294967295; 2; 2; 2; 2; 2; 2; 2]
       (nthz [0; 8 ^ 9; 2 * 8 ^ 9; 8 ^ 10] j) (nthz [0; 8 ^ 9; 2 * 8 ^ 9; 8 ^ 10] (j + 1))))) /\
    (forall j, j ∉ [0; 2; 0] -> out.[j] = [5; 6; 7].[j]).
Proof.
  apply (rangeCount_exact Key32 focusLeaves15 [20; 1; 1; 1; 1; 1; 1; 4294967295; 2; 2; 2; 2; 2; 2; 2] [0; 8 ^ 9; 2 * 8 ^ 9; 8 ^ 10] [0; 2; 0] [5; 6; 7]).
  - apply focusLeaves15_csTree.
  - reflexivity.
  - repeat constructor; vm_compute; congruence.
  - vm_compute. reflexivity.
  - reflexivity.
  - apply zsorted_strict. repeat constructor.
  - apply (bool_decide_unpack _). vm_compute. exact I.
Defined.

(** two integer boxes overlap according to [overlap] exactly if they have a cell in common
    in the periodic domain, as long as neither box extends further than one domain length
    beyond it. *)
Theorem overlap_exact k a b :
  periodicRange (xmin a) (xmax a) (maxCoord k) -> periodicRange (ymin a) (ymax a) (maxCoord k) -> periodicRange (zmin a) (zmax a) (maxCoord k) ->
  periodicRange (xmin b) (xmax b) (maxCoord k) -> periodicRange (ymin b) (ymax b) (maxCoord k) -> periodicRange (zmin b) (zmax b) (maxCoord k) ->
  overlap k a b = true <->
    exists x y z m1 m2 m3, inIBox a (x, y, z) /\ inIBox b (x + m1 * maxCoord k, y + m2 * maxCoord k, z + m3 * maxCoord k).
Proof.
  intros Hxa Hya Hza Hxb Hyb Hzb. unfold overlap. rewrite u32_maxCoord. assert (HR : 0 < maxCoord k) by by destruct k.
  rewrite !andb_true_iff, !overlapRange_iff by done. split.
  - intros [[(x & m1 & Hx) (y & m2 & Hy)] (z & m3 & Hz)]. exists x, y, z, m1, m2, m3. simpl. lia.
  - intros (x & y & z & m1 & m2 & m3 & Ha & Hb). simpl in *. split; [split|]; [exists x, m1|exists y, m2|exists z, m3]; lia.
Qed.

Lemma overlap_exact_witness :
  overlap Key32 (mkIBox (-5) 3 0 10 0 10) (mkIBox 1020 1030 2 4 8 20) = true <->
    exists x y z m1 m2 m3, inIBox (mkIBox (-5) 3 0 10 0 10) (x, y, z) /\
      inIBox (mkIBox 1020 1030 2 4 8 20) (x + m1 * maxCoord Key32, y + m2 * maxCoord Key32, z + m3 * maxCoord Key32).
Proof. apply (overlap_exact Key32 (mkIBox (-5) 3 0 10 0 10) (mkIBox 1020 1030 2 4 8 20)); vm_compute; repeat split; congruence. Defined.

(** [containedIn] accepts a box inside of the domain only if the keys of all its cells lie
    in the given key range, and for the range of an octree node this is exact; a box that
    reaches across the boundary is only accepted for the whole curve. *)
Theorem containedIn_exact s k codeStart codeEnd box :
  (domainBox k box ->
    (containedInBox s k codeStart codeEnd box = true ->
       forall x y z, inIBox box (x, y, z) -> codeStart <= iSfcKey s k x y z < codeEnd) /\
    (isNode k codeStart codeEnd -> (forall x y z, inIBox box (x, y, z) -> codeStart <= iSfcKey s k x y z < codeEnd) ->
       containedInBox s k codeStart codeEnd box = true)) /\
  (Z.min (Z.min (xmin box) (ymin box)) (zmin box) < 0 \/ maxCoord k < Z.max (Z.max (xmax box) (ymax box)) (zmax box) ->
    containedInBox s k codeStart codeEnd box = true <-> codeStart = 0 /\ codeEnd = keyMax k).
Proof.
  split.
  - intros Hbox. pose proof Hbox as (Hx & Hy & Hz & HX & HY & HZ). rewrite containedInBox_domain by done.
    set (lo := (xmin box, ymin box, zmin box)). set (hi := (xmax box - 1, ymax box - 1, zmax box - 1)).
    assert (Hlo : isCell k lo) by (unfold lo; simpl; lia). assert (Hhi : isCell k hi) by (unfold hi; simpl; lia).
    destruct (smallestCommonBox k (encode3 (iSfcKey s k) lo) (encode3 (iSfcKey s k) hi)) as [first last] eqn:E. split.
    + intros H x y z Hin. zbool. pose proof (domainBox_cell k box (x, y, z) Hbox Hin) as Hc.
      pose proof (corners_cover s k lo hi (x, y, z) first last Hlo Hhi Hc) as Hcov. simpl in Hcov, Hin. specialize (Hcov ltac:(lia) E). lia.
    + intros Hn Hall. pose proof (smallestCommonBox_spec k _ _ (sfc_enc_range (enc := iSfcKey s k) (dec := decodeSfc s k) lo Hlo)
        (sfc_enc_range (enc := iSfcKey s k) (dec := decodeSfc s k) hi Hhi)) as Hsc. rewrite E in Hsc. destruct Hsc as (_ & _ & _ & Hmin).
      destruct (Hmin codeStart codeEnd Hn) as [H1 H2]; [apply Hall; simpl; lia..|].
      apply andb_true_iff. split; apply Z.leb_le; lia.
  - intros Hout. unfold containedInBox. rewrite !stl_min_min, !stl_max_max, shiftl_maxCoord.
    match goal with |- context [if ?b then _ else _] => assert (b = true) as -> end.
    { apply orb_true_iff. destruct Hout; [left|right]; apply Z.ltb_lt; lia. }
    rewrite andb_true_iff, !Z.eqb_eq. by rewrite nodeRange_0.
Qed.

Lemma containedIn_exact_witness :
  (forall x y z, inIBox (mkIBox 0 300 100 500 3 9) (x, y, z) -> 0 <= iSfcKey HilbertKey Key32 x y z < 8 ^ 9) /\
  (containedInBox HilbertKey Key32 0 (8 ^ 10) (mkIBox (-1) 300 100 500 3 9) = true <-> 0 = 0 /\ 8 ^ 10 = keyMax Key32).
Proof.
  split.
  - apply (containedIn_exact HilbertKey Key32 0 (8 ^ 9) (mkIBox 0 300 100 500 3 9)); [vm_compute; repeat split; congruence|vm_compute; reflexivity].
  - apply (containedIn_exact HilbertKey Key32 0 (8 ^ 10) (mkIBox (-1) 300 100 500 3 9)). left. vm_compute. reflexivity.
Defined.
