(* ===== verification/GlobalTree.v ===== *)
(** * The global tree and its assignment to ranks

    [cstone/tree/update_mpi.hpp] and the CPU part of [cstone/domain/assignment.hpp]: every rank
    keeps a copy of the global tree, counts its own particles and adds the counts of all ranks
    with a collective reduction.  The ranks run in lockstep; a collective operation is a
    function of the contributions of all ranks. *)

From S2P Require Import Prelude Primitives SfcCommon Csarray CsInvariant CsRebalance CsCounts CsBuild CsUtil Octree OctreeNodes OctreeBuild OctreeQueries IndexRanges DomainDecomp FocusRebalance FocusInject.

(** ** Definitions *)

(** What a rank stores of the global tree: the octree, its leaves and their counts. *)
Record GlobalTree := mkGlobalTree { g_tree : OctreeData; g_leaves : list Z; g_counts : list Z }.

Definition unsigned_max : Z := 0xFFFFFFFF.

(** The part before the reduction: rebalance, internal tree, local counts. *)
Definition globalRebalance (k : KeyType) (bucketSize : Z) (keys : list Z) (g : GlobalTree) : option (bool * GlobalTree) :=
  let tree := g_tree g in
  let a := arrays tree in
  let? (conv, nodeOps) := rebalanceDecision k (g_leaves g) (g_counts g) (nNodes (g_leaves g)) bucketSize (childOffsets a) in
  let? (newLeaves, nodeOps) := rebalanceTree k (g_leaves g) (prefixes a) nodeOps in
  let tree := mkOctreeData (numNodes tree) (numLeafNodes tree) (numInternalNodes tree)
    (mkOctreeArrays (g_leaves g) nodeOps (parents a) (levelRange a) (internalToLeaf a) (leafToInternal a)) in
  let? tree := updateInternalTree k newLeaves (OctreeData_resize k tree (nNodes newLeaves)) in
  let counts := aresize 0 (g_counts g) (numLeafNodes tree) in
  let? counts := computeNodeCounts k newLeaves counts (numLeafNodes tree) keys unsigned_max true in
  Some (conv, mkGlobalTree tree newLeaves counts).

(** The loop after the reduction on ([counts], [maxCount]), shared by both overloads. *)
Definition maxCounts (counts_reduced counts : list Z) : option (list Z * Z) :=
  for_loop 0 (zlen counts) (fun i '(counts, maxCount) =>
    let? c := counts.[i] in
    let? r := counts_reduced.[i] in
    let c := Z.max c r in
    let? counts := aset counts i c in
    Some (counts, Z.max c maxCount)) (counts, 0).

Definition globalReduce (counts_reduced : list Z) (st : bool * GlobalTree) : option (Z * GlobalTree) :=
  let '(conv, g) := st in
  let? (counts, maxCount) := maxCounts counts_reduced (g_counts g) in
  Some (if conv then 0 else maxCount, mkGlobalTree (g_tree g) (g_leaves g) counts).

(** The reduction operator [sumCapped] of [update_mpi_gpu.cuh]: 32-bit sums, capped where
    they would wrap around. *)
Definition sumCapped (ins inout : list Z) : list Z :=
  zip_with (fun a b => if Z.max a b <=? u32 (a + b) then u32 (a + b) else unsigned_max) ins inout.

Section World.
(** [MPI_Allreduce] with [MPI_SUM] on [unsigned] vectors, one per rank. *)
Context (mpiAllreduce : list (list Z) -> list Z).

(** The overload on leaf arrays; one (keys, tree, counts) per rank. *)
Definition updateOctreeGlobalLeaves (k : KeyType) (bucketSize : Z) (ranks : list (list Z * list Z * list Z)) :
    option (list (bool * list Z * list Z)) :=
  let? locals := mapM (fun '(keys, tree, counts) => updateOctree k keys bucketSize tree counts unsigned_max) ranks in
  let counts_reduced := mpiAllreduce ((fun '(_, _, counts) => counts) <$> locals) in
  mapM (fun '(conv, tree, counts) =>
    let? (counts, _) := maxCounts counts_reduced counts in Some (conv, tree, counts)) locals.

(** The overload on linked octrees; one pair of particle keys and global tree per rank. *)
Definition updateOctreeGlobal (k : KeyType) (bucketSize : Z) (ranks : list (list Z * GlobalTree)) :
    option (list (Z * GlobalTree)) :=
  let? locals := mapM (fun '(keys, g) => globalRebalance k bucketSize keys g) ranks in
  let counts_reduced := mpiAllreduce ((fun l => g_counts (snd l)) <$> locals) in
  mapM (globalReduce counts_reduced) locals.

(** Constructor of [GlobalAssignment]. *)
Definition newGlobalAssignment (k : KeyType) (nRanks bucketSize : Z) : option GlobalTree :=
  let level := log8ceil k (kwrap k (100 * nRanks)) in
  let? initialBoundaries := initialDomainSplits k nRanks level in
  let? leaves := computeSpanningTree k initialBoundaries in
  let nodeCounts := replicate (Z.to_nat (nNodes leaves)) (u32 (bucketSize - 1)) in
  let empty := mkOctreeData 0 0 0 (mkOctreeArrays [] [] [] [] [] []) in
  let? tree := updateInternalTree k leaves (OctreeData_resize k empty (nNodes leaves)) in
  Some (mkGlobalTree tree leaves nodeCounts).

(** The common value of a condition that all ranks evaluate before they enter a collective
    operation; [None] if they disagree, which leaves some of them waiting forever. *)
Definition unanimous (conditions : list bool) : option bool :=
  if forallb (fun b => b) conditions then Some true
  else if forallb negb conditions then Some false
  else None.

(** [while (updateOctreeGlobal(...) > bucketSize) ;]. *)
Fixpoint assignLoop (fuel : nat) (k : KeyType) (bucketSize : Z) (keys : list (list Z)) (gs : list GlobalTree) :
    option (list GlobalTree) :=
  match fuel with
  | O => None
  | S fuel =>
      let? rs := updateOctreeGlobal k bucketSize (zip keys gs) in
      let? again := unanimous ((fun r => bucketSize <? fst r) <$> rs) in
      if again : bool then assignLoop fuel k bucketSize keys (snd <$> rs) else Some (snd <$> rs)
  end.

(** The tree update of [GlobalAssignment::assign] on the sorted keys of every rank; returns
    the new value of [firstCall_]. *)
Definition assignTree (fuel : nat) (k : KeyType) (bucketSize : Z) (firstCall : bool) (keys : list (list Z)) (gs : list GlobalTree) :
    option (bool * list GlobalTree) :=
  let? rs := updateOctreeGlobal k bucketSize (zip keys gs) in
  let? rebuild := unanimous ((fun r => firstCall || (u32 (8 * bucketSize) <=? fst r)) <$> rs) in
  if rebuild : bool then
    let? gs := assignLoop fuel k bucketSize keys (snd <$> rs) in Some (false, gs)
  else Some (firstCall, snd <$> rs).

(** The rest of [assign] on one rank: assignment, send ranges and required buffer size. *)
Definition assignRank (numRanks myRank : Z) (o1 : BufferDescription) (keys : list Z) (g : GlobalTree) :
    option (SfcAssignment * list Z * Z) :=
  let? assignment := makeSfcAssignment numRanks (g_counts g) (g_leaves g) in
  let? exchanges := createSendRanges assignment keys in
  let? numPresent := sendCount exchanges myRank in
  let? numAssigned := (counts_ assignment).[myRank] in
  Some (assignment, exchanges, exchangeBufferSize o1 numPresent numAssigned).

End World.

(** Documented behaviour of the reduction: element-wise sums in [unsigned] arithmetic. *)
Class SumsUnsigned (mpiAllreduce : list (list Z) -> list Z) : Prop :=
  allreduce_sum : forall n vectors, vectors <> [] -> Forall (fun v => zlen v = n) vectors ->
    mpiAllreduce vectors = (fun i => u32 (zsum ((fun v => nthz v i) <$> vectors))) <$> seqZ 0 n.

(** A reference implementation. *)
Definition addVectors (a b : list Z) : list Z := zip_with (fun x y => u32 (x + y)) a b.

Definition sumVectors (vectors : list (list Z)) : list Z :=
  match vectors with
  | [] => []
  | v :: rest => foldl addVectors (u32 <$> v) rest
  end.

Lemma aget_zip_with (f : Z -> Z -> Z) a b i x y : a.[i] = Some x -> b.[i] = Some y -> (zip_with f a b).[i] = Some (f x y).
Proof.
  intros Ha Hb. pose proof (aget_Some_range _ _ _ Ha). rewrite aget_lookup in * by lia. rewrite lookup_zip_with, Ha. simpl. by rewrite Hb.
Qed.

#[export] Instance sumVectors_SumsUnsigned : SumsUnsigned sumVectors.
Proof.
  intros n vectors Hne Hlen. destruct vectors as [|v rest]; [done|]. apply Forall_cons in Hlen as [Hv Hrest]. cbn [sumVectors].
  assert (Hgen : forall acc sums, zlen acc = n -> (forall i, 0 <= i < n -> acc.[i] = Some (u32 (sums i))) ->
    zlen (foldl addVectors acc rest) = n /\
    forall i, 0 <= i < n -> (foldl addVectors acc rest).[i] = Some (u32 (sums i + zsum ((fun v => nthz v i) <$> rest)))).
  { clear Hv Hne. induction Hrest as [|w rest Hw _ IH]; intros acc sums Hz Hacc.
    - split; [done|]. intros i Hi. rewrite Hacc by done. simpl. do 2 f_equal. lia.
    - cbn [foldl]. destruct (IH (addVectors acc w) (fun i => sums i + nthz w i)) as [Hz' Hget].
      + unfold addVectors, zlen in *. rewrite length_zip_with. lia.
      + intros i Hi. unfold addVectors. rewrite (aget_zip_with _ _ _ _ _ _ (Hacc i Hi) (nthz_get w i ltac:(lia))).
        f_equal. unfold u32, wrap. by rewrite Z.add_mod_idemp_l.
      + split; [done|]. intros i Hi. rewrite Hget by done. rewrite fmap_cons, zsum_cons. do 2 f_equal. lia. }
  destruct (Hgen (u32 <$> v) (nthz v)) as [Hz Hget]; [by rewrite zlen_map| |].
  { intros i Hi. rewrite aget_map, (nthz_get v i) by lia. done. }
  pose proof (zlen_nonneg v). apply list_eq_aget; [rewrite Hz, zlen_map, zlen_seqZ; lia|].
  intros i Hi. rewrite Hz in Hi. rewrite Hget, aget_map, aget_seqZ by lia. cbn [fmap option_fmap option_map]. by rewrite fmap_cons, zsum_cons, Z.add_0_l.
Qed.

Lemma zsum_Permutation l l' : l ≡ₚ l' -> zsum l = zsum l'.
Proof. induction 1; rewrite ?zsum_cons in *; lia. Qed.

Lemma capped_sum a s :
  0 <= a <= unsigned_max -> 0 <= s ->
  (let b := Z.min unsigned_max s in if Z.max a b <=? u32 (a + b) then u32 (a + b) else unsigned_max) = Z.min unsigned_max (a + s).
Proof.
  unfold unsigned_max. intros Ha Hs. cbn zeta. set (b := Z.min 4294967295 s). assert (0 <= b <= 4294967295) by lia.
  destruct (Z.le_gt_cases 4294967296 (a + b)) as [Hw|Hw].
  - assert (E : u32 (a + b) = a + b - 4294967296) by (symmetry; apply (Z.mod_unique _ _ 1); [left|]; change (2 ^ 32) with 4294967296; lia).
    rewrite E. destruct (Z.leb_spec (Z.max a b) (a + b - 4294967296)); lia.
  - rewrite u32_small by lia. destruct (Z.leb_spec (Z.max a b) (a + b)); lia.
Qed.

Lemma sumCapped_fold (n : nat) acc rest :
  length acc = n -> Forall (fun c => 0 <= c <= unsigned_max) acc ->
  Forall (fun v => length v = n /\ Forall (fun c => 0 <= c <= unsigned_max) v) rest ->
  foldr sumCapped acc rest = (fun i => Z.min unsigned_max (zsum ((fun v => nthz v i) <$> (acc :: rest)))) <$> seqZ 0 (Z.of_nat n).
Proof.
  intros Hl Ha Hrest. induction Hrest as [|v rest [Hv Hc] Hr IH]; cbn [foldr].
  - apply list_eq_aget; [rewrite zlen_map, zlen_seqZ; unfold zlen; lia|]. intros i Hi. rewrite (nthz_get acc i Hi).
    rewrite aget_map, aget_seqZ by (unfold zlen in Hi; lia). rewrite Z.add_0_l. cbn [fmap option_fmap option_map]. f_equal.
    rewrite Forall_forall in Ha. pose proof (Ha _ (aget_elem _ _ _ (nthz_get acc i Hi))). cbn. lia.
  - rewrite IH. unfold sumCapped. apply list_eq_aget; [unfold zlen; rewrite length_zip_with, !length_fmap, !length_seqZ; lia|].
    intros i Hi. unfold zlen in Hi. rewrite length_zip_with, length_fmap, length_seqZ in Hi.
    erewrite aget_zip_with; [|apply nthz_get; unfold zlen; lia|rewrite aget_map, aget_seqZ by lia; reflexivity].
    rewrite aget_map, aget_seqZ, Z.add_0_l by lia. cbn [fmap option_fmap option_map]. f_equal. rewrite !fmap_cons, !zsum_cons.
    rewrite Forall_forall in Hc. pose proof (Hc _ (aget_elem _ _ _ (nthz_get v i ltac:(unfold zlen; lia)))) as Hx.
    assert (0 <= nthz acc i) by (rewrite Forall_forall in Ha; apply (Ha _ (aget_elem _ _ _ (nthz_get acc i ltac:(unfold zlen; lia))))).
    rewrite (Z.add_shuffle3 (nthz acc i) (nthz v i)). apply capped_sum; [done|]. apply Z.add_nonneg_nonneg; [done|].
    apply zsum_nonneg, Forall_fmap. eapply Forall_impl; [exact Hr|]. intros w [Hw Hwc]. simpl. rewrite Forall_forall in Hwc.
    apply (Hwc _ (aget_elem _ _ _ (nthz_get w i ltac:(unfold zlen; lia)))).
Qed.

Lemma mapM_exists {A B} (f : A -> option B) (R : A -> B -> Prop) l :
  (forall x, x ∈ l -> exists y, f x = Some y /\ R x y) -> exists ys, mapM f l = Some ys /\ Forall2 R l ys.
Proof.
  intros H. assert (exists ys, Forall2 (fun x y => f x = Some y /\ R x y) l ys) as (ys & Hys).
  { induction l as [|x l IH]; [by exists []|]. destruct (H x ltac:(by left)) as (y & Hy).
    destruct IH as (ys & Hys); [intros; apply H; by right|]. exists (y :: ys). by constructor. }
  exists ys. split; [apply mapM_Some_2|]; (eapply Forall2_impl; [exact Hys|]; by intros x y [? ?]).
Qed.

(** ** One update *)

(** A rank's copy of the global tree [leaves] with [counts]. *)
Record globalCopy (k : KeyType) (leaves counts : list Z) (g : GlobalTree) : Prop := {
  gc_leaves : g_leaves g = leaves;
  gc_counts : g_counts g = counts;
  gc_tree : exists t, octreeDataOf k t (g_tree g) /\ leaves = leafArray k t
}.

Lemma globalRebalance_run k bucketSize keys leaves counts g :
  rebalanceInput k leaves counts bucketSize -> searchableKeys k keys -> globalCopy k leaves counts g ->
  let next := nextTree k leaves counts bucketSize in
  exists g', globalRebalance k bucketSize keys g = Some (forallb (Z.eqb 1) (nodeOpsOf k leaves counts bucketSize), g') /\
    globalCopy k next (leafCounts next keys unsigned_max) g'.
Proof.
  intros Hin [Hkeys Hsearch] [El Ec (t & Ho & Et)] next. unfold globalRebalance. rewrite El, Ec.
  destruct Ho as [Hd Hnl Hni Hl (_ & _ & _ & Hz4 & _) _].
  assert (Hn : nNodes leaves = zlen (leafKeys 1 t)) by (rewrite Et; apply nNodes_leafArray).
  pose proof (zlen_nonneg (innerKeys 1 t)). pose proof (zlen_nonneg (leafKeys 1 t)).
  rewrite rebalanceDecision_run; [|intros i Hi; destruct (nodeOp_cases k _ _ _ Hin i Hi) as [-> _]; by eexists|lia].
  destruct (drop (Z.to_nat (nNodes leaves)) (childOffsets (arrays (g_tree g)))) as [|x rest] eqn:Edrop.
  { exfalso. apply (f_equal (@length Z)) in Edrop. rewrite length_drop in Edrop. unfold zlen in *. simpl in Edrop. lia. }
  rewrite (rebalanceTree_spec k _ 0 (keyMax k)); [|apply Hin|by apply ops_fit]. fold (nextTree k leaves counts bucketSize). fold next.
  pose proof (nextTree_csTree k leaves counts bucketSize Hin) as Hcs. fold next in Hcs.
  match goal with |- context [OctreeData_resize k ?o1 _] => destruct (updateInternalTree_octreeDataOf k next o1 Hcs) as (t' & o' & -> & Ho' & Et' & _) end.
  pose proof (od_numLeaf _ _ _ Ho') as Hnl'. assert (Hn' : numLeafNodes o' = nNodes next) by (rewrite Hnl', Et', nNodes_leafArray; done).
  rewrite Hn'. pose proof (cs_nonempty k next Hcs). rewrite computeNodeCounts_spec; [|done|done|done|done|apply zlen_aresize; lia].
  eexists. split; [done|]. split; [done|done|by exists t'].
Qed.

Lemma maxCounts_run reduced counts (total : Z -> Z) :
  (forall i, 0 <= i < zlen counts -> reduced.[i] = Some (total i) /\ nthz counts i <= total i /\ 0 <= total i) ->
  exists m, maxCounts reduced counts = Some (total <$> seqZ 0 (zlen counts), m) /\ 0 <= m /\
    (forall i, 0 <= i < zlen counts -> total i <= m) /\ (m = 0 \/ exists i, 0 <= i < zlen counts /\ m = total i).
Proof.
  intros H. unfold maxCounts. pose proof (zlen_nonneg counts).
  destruct (for_loop_inv (fun i st => let '(cs, m) := st in zlen cs = zlen counts /\
      (forall j, 0 <= j < i -> cs.[j] = Some (total j)) /\ (forall j, i <= j -> cs.[j] = counts.[j]) /\ 0 <= m /\
      (forall j, 0 <= j < i -> total j <= m) /\ (m = 0 \/ exists j, 0 <= j < i /\ m = total j)) 0 (zlen counts)
    (fun i '(counts, maxCount) =>
      let? c := counts.[i] in
      let? r := reduced.[i] in
      let? counts := aset counts i (Z.max c r) in
      Some (counts, Z.max (Z.max c r) maxCount)) (counts, 0)) as ([cs m] & E & Hz & Hdone & _ & Hm0 & Hle & Hmax).
  - lia.
  - split; [done|]. split; [intros; lia|]. split; [done|]. split; [done|]. split; [intros; lia|by left].
  - intros i [cs m] Hi (Hz & Hdone & Hrest & Hm0 & Hle & Hmax). destruct (H i Hi) as (-> & Hc & Ht0).
    rewrite (Hrest i) by lia. rewrite (nthz_get counts i Hi). replace (Z.max (nthz counts i) (total i)) with (total i) by lia.
    pose proof (aset_Some cs i (total i) ltac:(lia)) as F. rewrite F. eexists. split; [done|].
    split; [by rewrite (aset_zlen _ _ _ _ F)|]. split; [|split; [|split; [lia|split]]].
    + intros j Hj. destruct (decide (i = j)) as [<-|]; [by eapply aget_aset_eq|]. rewrite (aget_aset_ne _ _ _ _ _ F) by done. apply Hdone. lia.
    + intros j Hj. rewrite (aget_aset_ne _ _ _ _ _ F) by lia. apply Hrest. lia.
    + intros j Hj. destruct (decide (i = j)) as [<-|]; [lia|]. specialize (Hle j ltac:(lia)). lia.
    + destruct (Z.le_gt_cases m (total i)).
      * right. exists i. split; lia.
      * replace (Z.max (total i) m) with m by lia. destruct Hmax as [|(j & Hj & ->)]; [by left|]. right. exists j. split; [lia|done].
  - exists m. split; [|done]. rewrite E. do 2 f_equal. apply list_eq_aget; [rewrite zlen_map, zlen_seqZ; lia|].
    intros i Hi. rewrite Hz in Hi. rewrite Hdone, aget_map, aget_seqZ by lia. done.
Qed.

Definition listMax (l : list Z) : Z := foldr Z.max 0 l.

Lemma listMax_ge l x : x ∈ l -> x <= listMax l.
Proof. induction 1 as [x l|x y l _ IH]; simpl; unfold listMax in *; simpl; lia. Qed.

Lemma listMax_unique l m : 0 <= m -> (forall x, x ∈ l -> x <= m) -> m = 0 \/ m ∈ l -> m = listMax l.
Proof.
  intros H0 Hle Hm. apply Z.le_antisymm.
  - destruct Hm as [->|Hm]; [|by apply listMax_ge]. clear. induction l as [|x l IH]; unfold listMax in *; simpl; lia.
  - clear Hm. induction l as [|x l IH]; unfold listMax in *; simpl; [done|]. specialize (Hle x ltac:(by left)) as Hx. specialize (IH ltac:(intros; apply Hle; by right)). lia.
Qed.

(** ** Counts over all ranks *)

Definition nodeTotal (keys : list (list Z)) (a b : Z) : Z := zsum ((fun ks => count_lt b ks - count_lt a ks) <$> keys).

Definition totalCounts (keys : list (list Z)) (leaves : list Z) : list Z :=
  (fun i => nodeTotal keys (nthz leaves i) (nthz leaves (i + 1))) <$> seqZ 0 (nNodes leaves).

Lemma nodeTotal_rank keys ks a b : a <= b -> ks ∈ keys -> 0 <= count_lt b ks - count_lt a ks <= nodeTotal keys a b.
Proof.
  intros Hab Hin. assert (Hpos : Forall (fun x => 0 <= x) ((fun ks => count_lt b ks - count_lt a ks) <$> keys)).
  { apply Forall_fmap, Forall_forall. intros x _. simpl. pose proof (count_lt_mono a b x Hab). lia. }
  pose proof (count_lt_mono a b ks Hab). split; [lia|]. apply zsum_elem_le; [done|]. apply list_elem_of_fmap. by exists ks.
Qed.

Section Step.
Context (mpiAllreduce : list (list Z) -> list Z) `{!SumsUnsigned mpiAllreduce}.
Context (k : KeyType) (bucketSize : Z) (leaves counts : list Z) (keys : list (list Z)).
Hypothesis Hin : rebalanceInput k leaves counts bucketSize.
Hypothesis Hkeys : Forall (searchableKeys k) keys.
Hypothesis Hne : keys <> [].

Local Abbreviation next := (nextTree k leaves counts bucketSize).
Local Abbreviation conv := (forallb (Z.eqb 1) (nodeOpsOf k leaves counts bucketSize)).

Hypothesis Hfits : forall i, 0 <= i < nNodes next -> nodeTotal keys (nthz next i) (nthz next (i + 1)) <= unsigned_max.

Lemma next_mono i : 0 <= i < nNodes next -> nthz next i <= nthz next (i + 1).
Proof using Hin.
  intros Hi. pose proof (nextTree_csTree k leaves counts bucketSize Hin) as Hcs. pose proof (cs_nodes k _ Hcs i Hi) as Hn%isNode_lt. lia.
Qed.

(** The sum that every rank receives for leaf [i]. *)
Lemma reduced_get i :
  0 <= i < nNodes next ->
  (mpiAllreduce ((fun ks => leafCounts next ks unsigned_max) <$> keys)).[i] = Some (nodeTotal keys (nthz next i) (nthz next (i + 1))).
Proof using All.
  intros Hi. pose proof (next_mono i Hi) as Hle.
  rewrite (allreduce_sum (nNodes next)).
  - rewrite aget_map, aget_seqZ, Z.add_0_l by lia. cbn [fmap option_fmap option_map]. f_equal. rewrite <- list_fmap_compose.
    assert (E : zsum ((fun v => nthz v i) ∘ (fun ks => leafCounts next ks unsigned_max) <$> keys) = nodeTotal keys (nthz next i) (nthz next (i + 1))).
    { unfold nodeTotal. f_equal. apply list_fmap_ext. intros _ ks Hks%list_elem_of_lookup_2. simpl.
      rewrite (nthz_Some _ _ _ (leafCounts_get next ks unsigned_max i Hi)). unfold cappedCount.
      pose proof (nodeTotal_rank keys ks _ _ Hle Hks). specialize (Hfits i Hi). lia. }
    rewrite E. apply u32_small. specialize (Hfits i Hi). unfold unsigned_max in Hfits. split; [|lia].
    destruct keys as [|ks rest]; [done|]. pose proof (nodeTotal_rank (ks :: rest) ks _ _ Hle ltac:(by left)). lia.
  - intros E. apply fmap_nil_inv in E. done.
  - apply Forall_fmap, Forall_forall. intros ks _. simpl. apply zlen_leafCounts. lia.
Qed.

(** After the update all ranks hold the same tree with the counts of all particles. *)
Lemma updateOctreeGlobal_run gs :
  Forall (globalCopy k leaves counts) gs -> length gs = length keys ->
  exists rs, updateOctreeGlobal mpiAllreduce k bucketSize (zip keys gs) = Some rs /\ length rs = length keys /\
    Forall (fun r => fst r = (if conv then 0 else listMax (totalCounts keys next)) /\ globalCopy k next (totalCounts keys next) (snd r)) rs.
Proof using All.
  intros Hgs Hlen. unfold updateOctreeGlobal. pose proof (nextTree_csTree k leaves counts bucketSize Hin) as Hcs. pose proof (cs_nonempty k _ Hcs).
  destruct (mapM_exists (fun '(ks, g) => globalRebalance k bucketSize ks g)
    (fun x y => fst y = conv /\ globalCopy k next (leafCounts next (fst x) unsigned_max) (snd y)) (zip keys gs)) as (locals & -> & Hloc).
  { intros [ks g] Hx. apply list_elem_of_lookup_1 in Hx as [i Hx]. apply lookup_zip_with_Some in Hx as (ks' & g' & [= <- <-] & H1 & H2).
    destruct (globalRebalance_run k bucketSize ks leaves counts g Hin) as (g' & E & Hc).
    - rewrite Forall_forall in Hkeys. by apply Hkeys, list_elem_of_lookup_2 with i.
    - rewrite Forall_forall in Hgs. by apply Hgs, list_elem_of_lookup_2 with i.
    - exists (conv, g'). split; [done|]. split; [done|exact Hc]. }
  assert (Ecounts : (fun l => g_counts (snd l)) <$> locals = (fun ks => leafCounts next ks unsigned_max) <$> keys).
  { assert (Ek : keys = (zip keys gs).*1) by (symmetry; apply fst_zip; lia). rewrite Ek at 1. clear - Hloc. 
    induction Hloc as [|x y l l' [_ Hc] _ IH]; [done|]. rewrite !fmap_cons, IH. f_equal. by rewrite (gc_counts _ _ _ _ Hc). }
  rewrite Ecounts. set (red := mpiAllreduce _).
  destruct (mapM_exists (globalReduce red)
    (fun _ r => fst r = (if conv then 0 else listMax (totalCounts keys next)) /\ globalCopy k next (totalCounts keys next) (snd r)) locals) as (rs & -> & Hrs).
  { intros [c g] Hx. apply list_elem_of_lookup_1 in Hx as [i Hx]. destruct (Forall2_lookup_r _ _ _ _ _ Hloc Hx) as ([ks g0] & Hz & Hc & Hg).
    apply lookup_zip_with_Some in Hz as (ks' & g' & [= <- <-] & Hks & _). apply list_elem_of_lookup_2 in Hks.
    simpl in Hc, Hg. subst c. destruct Hg as [El Ec Ht]. unfold globalReduce. rewrite Ec.
    destruct (maxCounts_run red (leafCounts next ks unsigned_max) (fun i => nodeTotal keys (nthz next i) (nthz next (i + 1)))) as (m & E & Hm0 & Hge & Hm).
    { rewrite zlen_leafCounts by lia. intros j Hj. split; [by apply reduced_get|]. rewrite (nthz_Some _ _ _ (leafCounts_get next ks unsigned_max j Hj)).
      pose proof (nodeTotal_rank keys ks _ _ (next_mono j Hj) Hks). unfold cappedCount. lia. }
    rewrite E, zlen_leafCounts by lia. eexists. split; [done|]. cbn [fst snd]. rewrite zlen_leafCounts in Hge, Hm by lia.
    split; [|by split]. replace m with (listMax (totalCounts keys next)); [done|]. symmetry. apply listMax_unique; [done| |].
    - intros x (j & -> & Hj%elem_of_seqZ)%list_elem_of_fmap. apply Hge. lia.
    - destruct Hm as [->|(j & Hj & ->)]; [by left|right]. apply list_elem_of_fmap. exists j. split; [done|]. apply elem_of_seqZ. lia. }
  exists rs. split; [done|]. split.
  - apply Forall2_length in Hrs, Hloc. rewrite length_zip in Hloc. lia.
  - apply Forall_forall. intros r Hr. apply list_elem_of_lookup_1 in Hr as [i Hr]. by destruct (Forall2_lookup_r _ _ _ _ _ Hrs Hr) as (_ & _ & ?).
Qed.

End Step.

(** ** All particles as one key array *)

Definition allParticles (keys : list (list Z)) : list Z := std_sort (concat keys).

Lemma count_lt_concat v keys : count_lt v (concat keys) = zsum (count_lt v <$> keys).
Proof. induction keys as [|ks keys IH]; [done|]. cbn [concat]. by rewrite fmap_cons, zsum_cons, count_lt_app, IH. Qed.

Lemma nodeTotal_all keys a b : nodeTotal keys a b = count_lt b (allParticles keys) - count_lt a (allParticles keys).
Proof.
  unfold allParticles, std_sort. rewrite !(count_lt_perm _ _ _ (merge_sort_Permutation Z.le (concat keys))), !count_lt_concat.
  unfold nodeTotal. induction keys as [|ks keys IH]; [done|]. rewrite !fmap_cons, !zsum_cons, IH. lia.
Qed.

Lemma zlen_allParticles keys : zlen (allParticles keys) = zsum (zlen <$> keys).
Proof.
  unfold allParticles, std_sort. unfold zlen at 1. rewrite (merge_sort_Permutation Z.le (concat keys)). fold (zlen (concat keys)).
  induction keys as [|ks keys IH]; [done|]. cbn [concat]. by rewrite fmap_cons, zsum_cons, zlen_app, IH.
Qed.

Lemma allParticles_sorted k keys : Forall (sortedKeys k) keys -> zsum (zlen <$> keys) <= unsigned_max -> sortedKeys k (allParticles keys).
Proof.
  intros Hk Hsz. split.
  - intros i j x y Hij Hx Hy. assert (Hs : StronglySorted Z.le (allParticles keys)) by apply (StronglySorted_merge_sort Z.le).
    revert i j Hij Hx Hy. induction Hs as [|z l _ IH Hz]; intros i j Hij Hx Hy.
    { apply aget_Some_range in Hx. change (zlen (@nil Z)) with 0 in Hx. lia. }
    pose proof (aget_Some_range _ _ _ Hx). destruct (decide (i = 0)) as [->|].
    + injection Hx as <-. apply aget_elem, elem_of_cons in Hy as [->|Hy]; [lia|]. rewrite Forall_forall in Hz. by apply Hz.
    + rewrite aget_cons_S in Hx, Hy by lia. by apply (IH (i - 1) (j - 1)); [lia|..].
  - apply Forall_forall. intros x Hx. unfold allParticles, std_sort in Hx. rewrite (merge_sort_Permutation Z.le (concat keys)) in Hx.
    apply elem_of_concat in Hx as (ks & Hks & Hx). rewrite Forall_forall in Hk. pose proof (sk_range _ _ (Hk ks Hks)) as Hr.
    rewrite Forall_forall in Hr. by apply Hr.
  - rewrite zlen_allParticles. unfold unsigned_max in Hsz. lia.
Qed.

Lemma unanimous_same b l : l <> [] -> Forall (fun x => x = b) l -> unanimous l = Some b.
Proof.
  intros Hne Hl. unfold unanimous. assert (Hall : forall f : bool -> bool, forallb f l = f b).
  { intros f. induction Hl as [|x l -> Hl IH]; [done|]. simpl. destruct l; [by rewrite andb_true_r|]. rewrite IH by done. apply andb_diag. }
  rewrite !Hall. by destruct b.
Qed.

(** ** The tree update of [assign] *)

Section Assign.
Context (mpiAllreduce : list (list Z) -> list Z) `{!SumsUnsigned mpiAllreduce}.
Context (k : KeyType) (bucketSize : Z) (keys : list (list Z)).
Hypothesis Hkeys : Forall (searchableKeys k) keys.
Hypothesis Hne : keys <> [].
Hypothesis Hsize : zsum (zlen <$> keys) <= unsigned_max.
Hypothesis Hbucket : 0 <= bucketSize /\ bucketSize * 512 < 4294967296.

Local Abbreviation U := (allParticles keys).
Local Abbreviation countsOf tree := (leafCounts tree (allParticles keys) unsigned_max).
Local Abbreviation next tree := (nextTree k tree (leafCounts tree (allParticles keys) unsigned_max) bucketSize).
Local Abbreviation opsOf tree := (nodeOpsOf k tree (leafCounts tree (allParticles keys) unsigned_max) bucketSize).

Lemma union_sorted : sortedKeys k U.
Proof using Hkeys Hsize. apply allParticles_sorted; [by apply searchable_all|done]. Qed.

Lemma totalCounts_all tree : csTree k tree -> totalCounts keys tree = countsOf tree.
Proof using Hsize.
  intros Hcs. unfold totalCounts, leafCounts. apply list_fmap_ext. intros _ i _. rewrite nodeTotal_all. unfold cappedCount.
  pose proof (count_lt_range (nthz tree (i + 1)) U). pose proof (count_lt_range (nthz tree i) U). rewrite zlen_allParticles in *. lia.
Qed.

Lemma total_fits a b : nodeTotal keys a b <= unsigned_max.
Proof using Hsize.
  rewrite nodeTotal_all. pose proof (count_lt_range b U). pose proof (count_lt_range a U). rewrite zlen_allParticles in *. lia.
Qed.

(** One update of all ranks from any replicated counts. *)
Lemma global_step leaves counts gs :
  rebalanceInput k leaves counts bucketSize -> Forall (globalCopy k leaves counts) gs -> length gs = length keys ->
  let tree := nextTree k leaves counts bucketSize in
  exists rs, updateOctreeGlobal mpiAllreduce k bucketSize (zip keys gs) = Some rs /\ length rs = length keys /\ csTree k tree /\
    Forall (fun r => fst r = (if forallb (Z.eqb 1) (nodeOpsOf k leaves counts bucketSize) then 0 else listMax (countsOf tree)) /\
      globalCopy k tree (countsOf tree) (snd r)) rs.
Proof using All.
  intros Hin Hgs Hlen tree. pose proof (nextTree_csTree k leaves counts bucketSize Hin) as Hcs. fold tree in Hcs.
  destruct (updateOctreeGlobal_run mpiAllreduce k bucketSize leaves counts keys Hin Hkeys Hne) with (gs := gs) as (rs & E & Hrs & Hall);
    [intros; apply total_fits|done|done|]. fold tree in Hall. rewrite (totalCounts_all tree Hcs) in Hall. by exists rs.
Qed.

Lemma converges tree : csTree k tree ->
  exists m : nat, Z.of_nat m <= 2 * maxTreeLevel k /\ forallb (Z.eqb 1) (opsOf (Nat.iter m (fun t => next t) tree)) = true.
Proof using Hkeys Hsize Hbucket. intros Hcs. apply next_converges; [apply union_sorted|unfold unsigned_max; lia|done|done]. Qed.

(** Every leaf is within the bucket size or at the last level. *)
Definition resolvedTree (tree : list Z) : Prop :=
  forall i, 0 <= i < nNodes tree -> nthz (countsOf tree) i <= bucketSize \/ leafLevel k tree i = maxTreeLevel k.

Lemma assignLoop_run (m : nat) : forall fuel tree gs,
  csTree k tree -> Forall (globalCopy k tree (countsOf tree)) gs -> length gs = length keys ->
  forallb (Z.eqb 1) (opsOf (Nat.iter m (fun t => next t) tree)) = true -> (m < fuel)%nat ->
  exists tree' gs', assignLoop mpiAllreduce fuel k bucketSize keys gs = Some gs' /\ length gs' = length keys /\ csTree k tree' /\
    Forall (globalCopy k tree' (countsOf tree')) gs' /\ resolvedTree tree'.
Proof using All.
  assert (Hmax : 0 <= unsigned_max < 4294967296) by (unfold unsigned_max; lia).
  induction m as [|m IH]; intros fuel tree gs Hcs Hgs Hlen Hm Hf; (destruct fuel as [|fuel]; [lia|]); cbn [assignLoop];
    pose proof (exact_input k U bucketSize unsigned_max Hmax Hbucket tree Hcs) as Hin;
    destruct (global_step tree (countsOf tree) gs Hin Hgs Hlen) as (rs & -> & Hlrs & Hcs' & Hrs).
  all: assert (Hnil : rs <> []) by (intros ->; destruct keys; done).
  all: assert (Hdone : Forall (globalCopy k (next tree) (countsOf (next tree))) (snd <$> rs))
    by (apply Forall_fmap; eapply Forall_impl; [exact Hrs|]; by intros r [_ ?]).
  all: assert (Hls : length (snd <$> rs) = length keys) by (by rewrite length_fmap).
  all: assert (Hconv : forallb (Z.eqb 1) (opsOf tree) = true -> resolvedTree (next tree)).
  1, 3: intros Hc; rewrite (nextTree_fixed _ _ _ _ Hin Hc);
    destruct (converged_balanced k U bucketSize unsigned_max union_sorted Hmax Hbucket tree Hcs Hc) as (_ & Hb & _); exact Hb.
  - simpl in Hm. rewrite Hm in Hrs. rewrite (unanimous_same false).
    + exists (next tree), (snd <$> rs). split; [done|]. split; [done|]. split; [done|]. split; [done|]. by apply Hconv.
    + intros E. by apply fmap_nil_inv in E.
    + apply Forall_fmap. eapply Forall_impl; [exact Hrs|]. intros [ret g] [E _]. simpl in *. rewrite E. apply Z.ltb_ge. lia.
  - destruct (forallb (Z.eqb 1) (opsOf tree)) eqn:Hc.
    + rewrite (unanimous_same false).
      * exists (next tree), (snd <$> rs). split; [done|]. split; [done|]. split; [done|]. split; [done|]. by apply Hconv.
      * intros E. by apply fmap_nil_inv in E.
      * apply Forall_fmap. eapply Forall_impl; [exact Hrs|]. intros [ret g] [E _]. simpl in *. rewrite E. apply Z.ltb_ge. lia.
    + rewrite (unanimous_same (bucketSize <? listMax (countsOf (next tree)))).
      * destruct (Z.ltb_spec bucketSize (listMax (countsOf (next tree)))) as [Hgt|Hle].
        -- apply (IH fuel (next tree)); [done|done|done| |lia]. by rewrite Nat.iter_succ_r in Hm.
        -- exists (next tree), (snd <$> rs). split; [done|]. split; [done|]. split; [done|]. split; [done|].
           intros i Hi. left. pose proof (zlen_leafCounts (next tree) U unsigned_max ltac:(lia)) as Hz.
           pose proof (listMax_ge (countsOf (next tree)) (nthz (countsOf (next tree)) i)) as Hge.
           assert (nthz (countsOf (next tree)) i ∈ countsOf (next tree)) as Hx by (eapply aget_elem, nthz_get; lia). specialize (Hge Hx). lia.
      * intros E. by apply fmap_nil_inv in E.
      * apply Forall_fmap. eapply Forall_impl; [exact Hrs|]. intros [ret g] [E _]. simpl in *. by rewrite E.
Qed.

(** [assign] ends with the same tree and exact counts on all ranks; the first call, and every
    call that finds an overfull leaf, ends with a tree within the bucket size. *)
Lemma assignTree_run fuel firstCall leaves counts gs :
  rebalanceInput k leaves counts bucketSize -> Forall (globalCopy k leaves counts) gs -> length gs = length keys ->
  2 * maxTreeLevel k < Z.of_nat fuel ->
  exists tree gs', assignTree mpiAllreduce fuel k bucketSize firstCall keys gs = Some (false, gs') /\
    length gs' = length keys /\ csTree k tree /\ Forall (globalCopy k tree (countsOf tree)) gs' /\ (firstCall = true -> resolvedTree tree).
Proof using All.
  intros Hin Hgs Hlen Hf. unfold assignTree. destruct (global_step leaves counts gs Hin Hgs Hlen) as (rs & -> & Hlrs & Hcs & Hrs).
  set (tree := nextTree k leaves counts bucketSize) in *.
  set (ret := if forallb (Z.eqb 1) (nodeOpsOf k leaves counts bucketSize) then 0 else listMax (countsOf tree)) in *.
  assert (Hdone : Forall (globalCopy k tree (countsOf tree)) (snd <$> rs)) by (apply Forall_fmap; eapply Forall_impl; [exact Hrs|]; by intros r [_ ?]).
  assert (Hls : length (snd <$> rs) = length keys) by (by rewrite length_fmap).
  rewrite (unanimous_same (firstCall || (u32 (8 * bucketSize) <=? ret))).
  - destruct (firstCall || (u32 (8 * bucketSize) <=? ret)) eqn:Hc.
    + destruct (converges tree Hcs) as (m & Hm & Hi).
      destruct (assignLoop_run m fuel tree (snd <$> rs) Hcs Hdone Hls Hi ltac:(lia)) as (tree' & gs' & -> & Hl' & Hcs' & Hg' & Hr').
      exists tree', gs'. by repeat split.
    + apply orb_false_iff in Hc as [-> _]. exists tree, (snd <$> rs). by repeat split.
  - intros E. apply fmap_nil_inv in E. subst rs. by destruct keys.
  - apply Forall_fmap. eapply Forall_impl; [exact Hrs|]. intros [r g] [E _]. simpl in *. by rewrite E.
Qed.

End Assign.

(** ** Assignment of the particles *)

Section Conserve.
Context (k : KeyType) (keys : list (list Z)) (leaves : list Z).
Hypothesis Hkeys : Forall (sortedKeys k) keys.
Hypothesis Hne : keys <> [].
Hypothesis Hranks : zlen keys < 2147483648.
Hypothesis Hsize : zsum (zlen <$> keys) <= unsigned_max.
Hypothesis Hcs : csTree k leaves.

Local Abbreviation U := (allParticles keys).
Local Abbreviation counts := (leafCounts leaves (allParticles keys) unsigned_max).
Local Abbreviation nRanks := (zlen keys).

Lemma counts_prefix j : 0 <= j <= nNodes leaves -> prefixSum counts j = count_lt (nthz leaves j) U.
Proof using Hkeys Hsize Hcs.
  intros Hj. pose proof (allParticles_sorted k keys Hkeys Hsize) as HU. pose proof (cs_nonempty k leaves Hcs).
  replace j with (Z.of_nat (Z.to_nat j)) in * by lia. generalize dependent (Z.to_nat j). intros w. induction w as [|w IH]; intros Hw.
  - change (Z.of_nat 0) with 0. rewrite prefixSum_0, (nthz_Some _ _ _ (treelet_first _ _ _ _ Hcs)), count_lt_none; [done|].
    eapply Forall_impl; [apply HU|]. simpl. lia.
  - rewrite Nat2Z.inj_succ, <- Z.add_1_r. rewrite (prefixSum_succ _ _ _ (leafCounts_get leaves U unsigned_max (Z.of_nat w) ltac:(lia))), IH by lia.
    unfold cappedCount. pose proof (count_lt_range (nthz leaves (Z.of_nat w + 1)) U). pose proof (count_lt_range (nthz leaves (Z.of_nat w)) U).
    rewrite zlen_allParticles in *. lia.
Qed.

(** Every rank is assigned as many particles as all ranks together send to it. *)
Lemma assignRank_conserves myRank o1 g ks :
  globalCopy k leaves counts g -> 0 <= myRank < nRanks -> ks ∈ keys ->
  exists s e, assignRank nRanks myRank o1 ks g = Some (s, e, exchangeBufferSize o1 (nthz e (myRank + 1) - nthz e myRank) (nthz (counts_ s) myRank)) /\
    makeSfcAssignment nRanks counts leaves = Some s /\ assignmentRanks s = nRanks /\ validAssignment k s /\ createSendRanges s ks = Some e /\
    (forall r, 0 <= r < nRanks -> nthz e (r + 1) - nthz e r = count_lt (nthz (rankBoundaries_ s) (r + 1)) ks - count_lt (nthz (rankBoundaries_ s) r) ks) /\
    (forall r, 0 <= r < nRanks -> nthz (counts_ s) r = nodeTotal keys (nthz (rankBoundaries_ s) r) (nthz (rankBoundaries_ s) (r + 1))).
Proof using All.
  intros [El Ec _] Hr Hks. pose proof (cs_nonempty k leaves Hcs). pose proof (allParticles_sorted k keys Hkeys Hsize) as HU.
  assert (Hlen : zlen counts = nNodes leaves) by (apply zlen_leafCounts; lia).
  assert (Hrange : Forall (fun c => 0 <= c < 4294967296) counts).
  { unfold leafCounts. apply Forall_fmap, Forall_forall. intros i Hi%elem_of_seqZ. simpl. unfold cappedCount, unsigned_max.
    pose proof (cs_nodes k _ Hcs i ltac:(lia)) as Hn%isNode_lt. pose proof (count_lt_mono (nthz leaves i) (nthz leaves (i + 1)) U ltac:(lia)). lia. }
  assert (Hsum : zsum counts = zlen U) by (eapply leafCounts_zsum; [exact Hcs|exact HU|rewrite zlen_allParticles; lia]).
  assert (Htot : zsum counts < 2 ^ 53) by (rewrite Hsum, zlen_allParticles; unfold unsigned_max in Hsize; lia).
  destruct (makeSfcAssignment_run counts Hrange Htot nRanks ltac:(lia) k leaves Hcs Hlen) as (s & Es & Hns & Hv & Eo & Eb & Ecs & _).
  assert (Hksort : sortedKeys k ks) by (rewrite Forall_forall in Hkeys; by apply Hkeys). destruct Hksort as [Hs1 Hs2 Hs3].
  pose proof (createSendRanges_run k s Hv ks Hs1 Hs3) as Ee. rewrite Hns in Ee. set (e := _ <$> seqZ 0 (nRanks + 1)) in Ee.
  assert (He : forall r, 0 <= r <= nRanks -> e.[r] = Some (count_lt (nthz (rankBoundaries_ s) r) ks)) by (intros r Hr'; unfold e; by rewrite aget_map, aget_seqZ by lia).
  assert (Hd : forall r, 0 <= r < nRanks -> nthz e (r + 1) - nthz e r = count_lt (nthz (rankBoundaries_ s) (r + 1)) ks - count_lt (nthz (rankBoundaries_ s) r) ks).
  { intros r Hr'. by rewrite (nthz_Some _ _ _ (He r ltac:(lia))), (nthz_Some _ _ _ (He (r + 1) ltac:(lia))). }
  assert (HB : forall r, 0 <= r <= nRanks -> nthz (rankBoundaries_ s) r = nthz leaves (binStart counts nRanks r)).
  { intros r Hr'. apply nthz_Some. by rewrite Eb, aget_map, binArray_get by lia. }
  assert (Hc : forall r, 0 <= r < nRanks -> (counts_ s).[r] = Some (nodeTotal keys (nthz (rankBoundaries_ s) r) (nthz (rankBoundaries_ s) (r + 1)))).
  { intros r Hr'. rewrite Ecs, aget_map, aget_seqZ, Z.add_0_l by lia. cbn [fmap option_fmap option_map]. f_equal.
    pose proof (binStart_range counts Hrange Htot nRanks ltac:(lia) r) as H1. pose proof (binStart_range counts Hrange Htot nRanks ltac:(lia) (r + 1)) as H2. rewrite Hlen in H1, H2.
    rewrite !counts_prefix, nodeTotal_all, !HB by lia. pose proof (binStart_mono counts Hrange Htot nRanks ltac:(lia) r (r + 1) ltac:(lia)) as Hm.
    pose proof (nodes_mono_le k _ _ (cs_nodes k _ Hcs) (binStart counts nRanks r) (binStart counts nRanks (r + 1)) ltac:(lia) Hm ltac:(lia)) as Hle.
    pose proof (count_lt_mono _ _ U Hle). apply u32_small. pose proof (count_lt_range (nthz leaves (binStart counts nRanks (r + 1))) U).
    pose proof (count_lt_range (nthz leaves (binStart counts nRanks r)) U). rewrite zlen_allParticles in *. unfold unsigned_max in *. lia. }
  exists s, e. split; [|split; [done|split; [done|split; [done|split; [done|split; [done|]]]]]].
  - unfold assignRank. rewrite El, Ec, Es, Ee. unfold sendCount. rewrite !He by lia. rewrite (nthz_Some _ _ _ (Hc myRank Hr)), (Hc myRank Hr), Hd by lia.
    pose proof (boundary_mono k s Hv myRank (myRank + 1) ltac:(lia) ltac:(lia)) as Hle. pose proof (count_lt_mono _ _ ks Hle) as Hm.
    destruct (Z.leb_spec (count_lt (nthz (rankBoundaries_ s) myRank) ks) (count_lt (nthz (rankBoundaries_ s) (myRank + 1)) ks)); [|lia].
    rewrite u32_small; [done|]. pose proof (count_lt_range (nthz (rankBoundaries_ s) (myRank + 1)) ks). pose proof (count_lt_range (nthz (rankBoundaries_ s) myRank) ks). lia.
  - intros r Hr'. apply nthz_Some. by apply Hc.
Qed.

End Conserve.

(** ** The constructor *)

Lemma newGlobalAssignment_run k nRanks bucketSize :
  1 <= nRanks -> 100 * nRanks <= keyMax k -> 1 <= bucketSize -> bucketSize * 512 < 4294967296 ->
  exists leaves counts g, newGlobalAssignment k nRanks bucketSize = Some g /\ globalCopy k leaves counts g /\
    rebalanceInput k leaves counts bucketSize.
Proof.
  intros Hr Hfit Hb Hb512. kfacts k. unfold newGlobalAssignment. rewrite (kwrap_small k (100 * nRanks)) by lia.
  destruct (log8ceil_spec k (100 * nRanks) ltac:(lia)) as (Hl & _). set (level := log8ceil k (100 * nRanks)) in *.
  rewrite (initialDomainSplits_run k nRanks level ltac:(lia) ltac:(lia) Hl). set (splits := splitKey k nRanks level <$> seqZ 0 (nRanks + 1)).
  assert (Hz : zlen splits = nRanks + 1) by (unfold splits; rewrite zlen_map, zlen_seqZ; lia).
  assert (Hget : forall i, 0 <= i <= nRanks -> splits.[i] = Some (splitKey k nRanks level i)) by (intros i Hi; unfold splits; by rewrite aget_map, aget_seqZ by lia).
  assert (Hsp : spanningKeys_ok k splits).
  { split; [lia|by rewrite Hget by lia| |].
    - rewrite Hz, Z.add_simpl_r, Hget by lia. unfold splitKey. destruct (Z.leb_spec nRanks 0); [lia|]. by rewrite Z.ltb_irrefl.
    - intros i j x y Hij Hx Hy. pose proof (aget_Some_range _ _ _ Hx). pose proof (aget_Some_range _ _ _ Hy).
      rewrite Hget in Hx, Hy by lia. injection Hx as <-. injection Hy as <-. apply splitKey_mono; lia. }
  rewrite (computeSpanningTree_run k splits Hsp). pose proof (spanningTree_csTree k splits Hsp) as Hcs.
  set (leaves := blocks _ _ ++ [keyMax k]) in *.
  match goal with |- context [OctreeData_resize k ?o1 _] => destruct (updateInternalTree_octreeDataOf k leaves o1 Hcs) as (t & o & -> & Ho & Et & _) end.
  pose proof (cs_nonempty k leaves Hcs). rewrite u32_small by lia.
  eexists leaves, _, _. split; [done|]. split; [split; [done|done|by exists t]|].
  split; [done|cbn [g_counts]; unfold zlen; rewrite length_replicate; lia| |lia]. cbn [g_counts]. apply Forall_replicate. lia.
Qed.

(** ** Send ranges *)

(** The send ranges of a rank with sorted keys. *)
Definition sendsOf (s : SfcAssignment) (ks : list Z) : list Z :=
  (fun r => count_lt (nthz (rankBoundaries_ s) r) ks) <$> seqZ 0 (assignmentRanks s + 1).

Lemma sendsOf_get s ks r : 0 <= r <= assignmentRanks s -> (sendsOf s ks).[r] = Some (count_lt (nthz (rankBoundaries_ s) r) ks).
Proof. intros Hr. unfold sendsOf. by rewrite aget_map, aget_seqZ by lia. Qed.

Lemma sendsOf_partition k s ks :
  validAssignment k s -> sortedKeys k ks ->
  zlen (sendsOf s ks) = assignmentRanks s + 1 /\ zsorted (sendsOf s ks) /\ (sendsOf s ks).[0] = Some 0 /\
  (sendsOf s ks).[assignmentRanks s] = Some (zlen ks).
Proof.
  intros Hv [_ Hr _]. pose proof (va_ranks _ _ Hv). rewrite !sendsOf_get by lia.
  rewrite (nthz_Some _ _ _ (va_first _ _ Hv)), (nthz_Some _ _ _ (va_last _ _ Hv)). split; [unfold sendsOf; rewrite zlen_map, zlen_seqZ; lia|].
  split; [|split; f_equal; [apply count_lt_none|apply count_lt_all]; (eapply Forall_impl; [exact Hr|]); simpl; lia].
  intros i j x y Hij Hx Hy. pose proof (aget_Some_range _ _ _ Hx) as H1. pose proof (aget_Some_range _ _ _ Hy) as H2.
  unfold sendsOf in H1, H2. rewrite zlen_map, zlen_seqZ in H1, H2 by lia. rewrite sendsOf_get in Hx, Hy by lia.
  injection Hx as <-. injection Hy as <-. apply count_lt_mono, (boundary_mono k s Hv); lia.
Qed.
