(* ===== verification/GlobalProperties.v ===== *)
(** * Properties of the global tree

    The claims about [cstone/tree/update_mpi.hpp] and [cstone/domain/assignment.hpp]: all
    ranks hold the same tree, the update loop of the first assignment terminates, and no
    particle is lost between the ranks. *)

From S2P Require Import Prelude Primitives SfcCommon Csarray CsInvariant CsRebalance CsCounts CsUtil Octree OctreeNodes OctreeBuild OctreeQueries IndexRanges DomainDecomp FocusRebalance FocusInject GlobalTree.

(** Every leaf holds at most [bucketSize] particles or is at the last level. *)
Definition withinBucket (k : KeyType) (bucketSize : Z) (tree counts : list Z) : Prop :=
  forall i, 0 <= i < nNodes tree -> nthz counts i <= bucketSize \/ leafLevel k tree i = maxTreeLevel k.

(** C8: The first [assign] after construction terminates on all ranks: the loop over
    [updateOctreeGlobal] leaves all ranks with the same linked octree, whose leaf counts are
    the particles of all ranks together, and no leaf above the last level exceeds the bucket
    size.  At most [2 * maxTreeLevel + 1] rounds of the loop are needed.  There are fewer than
    2^32 particles on all ranks together (at most 2^30 on each with 32-bit keys), [bucketSize * 512]
    is below 2^32, and there are at most [keyMax / 100] ranks. *)
Theorem assign_first_call mpiAllreduce `{!SumsUnsigned mpiAllreduce} k bucketSize keys fuel :
  keys <> [] -> 100 * zlen keys <= keyMax k -> 1 <= bucketSize -> bucketSize * 512 < 4294967296 ->
  Forall (searchableKeys k) keys -> zsum (zlen <$> keys) <= unsigned_max -> 2 * maxTreeLevel k < Z.of_nat fuel ->
  exists g gs tree, newGlobalAssignment k (zlen keys) bucketSize = Some g /\
    assignTree mpiAllreduce fuel k bucketSize true keys (replicate (length keys) g) = Some (false, gs) /\
    length gs = length keys /\ csTree k tree /\ Forall (globalCopy k tree (totalCounts keys tree)) gs /\
    withinBucket k bucketSize tree (totalCounts keys tree).
Proof.
  intros Hne Hfit Hb Hb512 Hkeys Hsize Hfuel. assert (1 <= zlen keys) by (destruct keys; [done|rewrite zlen_cons; pose proof (zlen_nonneg keys); lia]).
  destruct (newGlobalAssignment_run k (zlen keys) bucketSize ltac:(lia) Hfit Hb Hb512) as (leaves & counts & g & Eg & Hg & Hin).
  destruct (assignTree_run mpiAllreduce k bucketSize keys Hkeys Hne Hsize ltac:(lia) fuel true leaves counts (replicate (length keys) g))
    as (tree & gs & E & Hl & Hcs & Hgs & Hr); [done|by apply Forall_replicate|apply length_replicate|done|].
  exists g, gs, tree. rewrite (totalCounts_all k keys Hsize tree Hcs). repeat (split; [done|]). exact (Hr eq_refl).
Qed.

(** Keys of two ranks, with more particles in the first octants. *)
Definition rankKeys : list (list Z) := [[0; 1; 2; 3; 64; 65; 4000]; [5; 6; 70; 1000000; 900000000]].

Lemma rankKeys_searchable : Forall (searchableKeys Key32) rankKeys.
Proof. apply Forall_cons; split; [|apply Forall_singleton]; apply searchableKeysb_sound; vm_compute; reflexivity. Qed.

Lemma assign_first_call_witness :
  exists g gs tree, newGlobalAssignment Key32 2 3 = Some g /\
    assignTree sumVectors 21 Key32 3 true rankKeys [g; g] = Some (false, gs) /\
    length gs = length rankKeys /\ csTree Key32 tree /\ Forall (globalCopy Key32 tree (totalCounts rankKeys tree)) gs /\
    withinBucket Key32 3 tree (totalCounts rankKeys tree).
Proof.
  apply (assign_first_call sumVectors Key32 3 rankKeys 21);
    [discriminate|vm_compute; congruence|lia|lia|exact rankKeys_searchable|vm_compute; congruence|vm_compute; reflexivity].
Defined.

(** A global update of replicated trees, whatever the old counts are, keeps the replicas
    equal: all ranks install the same rebalanced tree and the particle counts of all ranks,
    and return the same value, 0 on convergence and the largest count otherwise.  The number
    of particles in a leaf has to fit into 32 bits. *)
Theorem updateOctreeGlobal_replicated mpiAllreduce `{!SumsUnsigned mpiAllreduce} k bucketSize leaves counts keys gs :
  let next := nextTree k leaves counts bucketSize in
  rebalanceInput k leaves counts bucketSize -> Forall (searchableKeys k) keys -> keys <> [] ->
  (forall i, 0 <= i < nNodes next -> nodeTotal keys (nthz next i) (nthz next (i + 1)) <= unsigned_max) ->
  Forall (globalCopy k leaves counts) gs -> length gs = length keys ->
  exists rs, updateOctreeGlobal mpiAllreduce k bucketSize (zip keys gs) = Some rs /\ length rs = length keys /\ csTree k next /\
    Forall (fun '(maxCount, g) => globalCopy k next (totalCounts keys next) g /\
      maxCount = if forallb (Z.eqb 1) (nodeOpsOf k leaves counts bucketSize) then 0 else listMax (totalCounts keys next)) rs.
Proof.
  intros next Hin Hkeys Hne Hfit Hgs Hlen.
  destruct (updateOctreeGlobal_run mpiAllreduce k bucketSize leaves counts keys Hin Hkeys Hne Hfit gs Hgs Hlen) as (rs & E & Hl & Hrs).
  exists rs. split; [done|]. split; [done|]. split; [by apply nextTree_csTree|]. eapply Forall_impl; [exact Hrs|]. by intros [m g] [? ?].
Qed.

(** A rank's copy of [leaves] with [counts], linked by [updateInternalTree]. *)
Definition newCopy (k : KeyType) (leaves counts : list Z) : option GlobalTree :=
  let? tree := updateInternalTree k leaves (OctreeData_resize k (mkOctreeData 0 0 0 (mkOctreeArrays [] [] [] [] [] [])) (nNodes leaves)) in
  Some (mkGlobalTree tree leaves counts).

Lemma newCopy_run k leaves counts : csTree k leaves -> exists g, newCopy k leaves counts = Some g /\ globalCopy k leaves counts g.
Proof.
  intros Hcs. unfold newCopy. match goal with |- context [OctreeData_resize k ?o1 _] => destruct (updateInternalTree_octreeDataOf k leaves o1 Hcs) as (t & o & -> & Ho & Et & _) end.
  eexists. split; [done|]. split; [done|done|by exists t].
Qed.

Lemma updateOctreeGlobal_replicated_witness :
  let next := nextTree Key32 [0; 8 ^ 10] [12] 3 in
  exists g rs, newCopy Key32 [0; 8 ^ 10] [12] = Some g /\
    updateOctreeGlobal sumVectors Key32 3 (zip rankKeys [g; g]) = Some rs /\ length rs = length rankKeys /\ csTree Key32 next /\
    Forall (fun '(maxCount, g) => globalCopy Key32 next (totalCounts rankKeys next) g /\
      maxCount = if forallb (Z.eqb 1) (nodeOpsOf Key32 [0; 8 ^ 10] [12] 3) then 0 else listMax (totalCounts rankKeys next)) rs.
Proof.
  assert (Hcs : csTree Key32 [0; 8 ^ 10]) by (apply (bool_decide_unpack _); vm_compute; exact I).
  destruct (newCopy_run Key32 [0; 8 ^ 10] [12] Hcs) as (g & E & Hg). exists g.
  destruct (updateOctreeGlobal_replicated sumVectors Key32 3 [0; 8 ^ 10] [12] rankKeys [g; g]) as (rs & Hrs).
  - split; [exact Hcs|reflexivity|repeat constructor; lia|lia].
  - exact rankKeys_searchable.
  - discriminate.
  - intros i _. apply total_fits. vm_compute. congruence.
  - repeat (apply Forall_cons; split; [exact Hg|]). by apply Forall_nil.
  - reflexivity.
  - exists rs. split; [exact E|exact Hrs].
Defined.

(** C10: After [assign] all ranks compute the same assignment, and the particles add up: every
    rank splits all of its particles into one send range per rank, and what all ranks
    together send to a rank is the number of particles assigned to it.  There are fewer than
    2^32 particles on all ranks together and fewer than 2^31 ranks; that the targets of
    [uniformBins], computed in double precision, are ordered and at most the total then follows
    ([targetCount_spec]). *)
Theorem assign_conserves k keys leaves gs :
  Forall (sortedKeys k) keys -> keys <> [] -> zlen keys < 2147483648 -> zsum (zlen <$> keys) <= unsigned_max -> csTree k leaves ->
  Forall (globalCopy k leaves (totalCounts keys leaves)) gs -> length gs = length keys ->
  exists s sends, assignmentRanks s = zlen keys /\ validAssignment k s /\ length sends = length keys /\
    (forall p ks g e o1, keys.[p] = Some ks -> gs.[p] = Some g -> sends.[p] = Some e ->
      assignRank (zlen keys) p o1 ks g = Some (s, e, exchangeBufferSize o1 (nthz e (p + 1) - nthz e p) (nthz (counts_ s) p)) /\
      zlen e = zlen keys + 1 /\ zsorted e /\ e.[0] = Some 0 /\ e.[zlen keys] = Some (zlen ks)) /\
    (forall r, 0 <= r < zlen keys -> zsum ((fun e => nthz e (r + 1) - nthz e r) <$> sends) = nthz (counts_ s) r).
Proof.
  intros Hkeys Hne Hranks Hsize Hcs. rewrite (totalCounts_all k keys Hsize leaves Hcs). intros Hgs Hlen.
  rewrite Forall_forall in Hgs. pose proof Hkeys as Hsorted. rewrite Forall_forall in Hsorted.
  assert (Hrun := fun p o1 g ks Hg Hp Hks => assignRank_conserves k keys leaves Hkeys Hne Hranks Hsize Hcs p o1 g ks (Hgs g Hg) Hp Hks).
  destruct keys as [|ks0 rest] eqn:Ekeys; [done|]. rewrite <- Ekeys in *. destruct gs as [|g0 gs']; [by rewrite Ekeys in Hlen|].
  assert (Hn : 1 <= zlen keys) by (rewrite Ekeys, zlen_cons; pose proof (zlen_nonneg rest); lia).
  destruct (Hrun 0 (mkBufferDescription 0 0 0) g0 ks0) as (s & _ & _ & Es & Hns & Hv & _ & _ & Hc); [by left|lia|rewrite Ekeys; by left|].
  exists s, (sendsOf s <$> keys). split; [done|]. split; [done|]. split; [by rewrite length_fmap|]. split.
  - intros p ks g e o1 Hk Hg He. rewrite aget_map, Hk in He. injection He as <-. pose proof (aget_elem _ _ _ Hk) as Hks.
    rewrite <- Hns. destruct (sendsOf_partition k s ks Hv (Hsorted ks Hks)) as (? & ? & ? & ?). split; [|done].
    destruct (Hrun p o1 g ks) as (s' & e & E & Es' & _ & _ & Ee & _); [by eapply aget_elem|by eapply aget_Some_range|done|].
    rewrite Es in Es'. injection Es' as <-. pose proof (Hsorted ks Hks) as [Hs1 _ Hs3]. rewrite (createSendRanges_run k s Hv ks Hs1 Hs3) in Ee.
    injection Ee as <-. rewrite Hns. exact E.
  - intros r Hr. rewrite Hc by done. unfold nodeTotal. rewrite <- list_fmap_compose. f_equal. apply list_fmap_ext. intros _ ks _. simpl.
    by rewrite (nthz_Some _ _ _ (sendsOf_get s ks r ltac:(lia))), (nthz_Some _ _ _ (sendsOf_get s ks (r + 1) ltac:(lia))).
Qed.

Lemma assign_conserves_witness :
  let leaves := [0; 8 ^ 9; 2 * 8 ^ 9; 3 * 8 ^ 9; 4 * 8 ^ 9; 5 * 8 ^ 9; 6 * 8 ^ 9; 7 * 8 ^ 9; 8 ^ 10] in
  exists g s sends, newCopy Key32 leaves (totalCounts rankKeys leaves) = Some g /\
    assignmentRanks s = zlen rankKeys /\ validAssignment Key32 s /\ length sends = length rankKeys /\
    (forall p ks g' e o1, rankKeys.[p] = Some ks -> [g; g].[p] = Some g' -> sends.[p] = Some e ->
      assignRank (zlen rankKeys) p o1 ks g' = Some (s, e, exchangeBufferSize o1 (nthz e (p + 1) - nthz e p) (nthz (counts_ s) p)) /\
      zlen e = zlen rankKeys + 1 /\ zsorted e /\ e.[0] = Some 0 /\ e.[zlen rankKeys] = Some (zlen ks)) /\
    (forall r, 0 <= r < zlen rankKeys -> zsum ((fun e => nthz e (r + 1) - nthz e r) <$> sends) = nthz (counts_ s) r).
Proof.
  intros leaves. assert (Hcs : csTree Key32 leaves) by (apply (bool_decide_unpack _); vm_compute; exact I).
  destruct (newCopy_run Key32 leaves (totalCounts rankKeys leaves) Hcs) as (g & E & Hg). exists g.
  destruct (assign_conserves Key32 rankKeys leaves [g; g]) as (s & sends & Hs).
  - apply searchable_all, rankKeys_searchable.
  - discriminate.
  - reflexivity.
  - vm_compute. congruence.
  - exact Hcs.
  - repeat (apply Forall_cons; split; [exact Hg|]). by apply Forall_nil.
  - reflexivity.
  - exists s, sends. split; [exact E|exact Hs].
Defined.

(** C37: The reduction of the CPU version is an unguarded 32-bit sum: if the counts of a leaf
    on two ranks add up to 2^32 or more, both ranks keep their own count, so the replicas of
    the counts differ as soon as the local counts do. *)
Theorem maxCounts_replicas_diverge a b :
  0 <= a <= unsigned_max -> 0 <= b <= unsigned_max -> unsigned_max < a + b ->
  maxCounts (sumVectors [[a]; [b]]) [a] = Some ([a], a) /\ maxCounts (sumVectors [[a]; [b]]) [b] = Some ([b], b).
Proof.
  unfold unsigned_max. intros Ha Hb Hs. assert (E : sumVectors [[a]; [b]] = [a + b - 4294967296]).
  { unfold sumVectors, addVectors. simpl. f_equal. unfold u32, wrap. rewrite Z.add_mod_idemp_l by lia.
    symmetry. apply (Z.mod_unique _ _ 1); [left; lia|]. change (2 ^ 32) with 4294967296. lia. }
  rewrite E. assert (Hmax : forall c, a + b - 4294967296 <= c -> 0 <= c -> maxCounts [a + b - 4294967296] [c] = Some ([c], c)); [|split; apply Hmax; lia].
  intros c Hc Hc0. unfold maxCounts, for_loop. change (seqZ 0 (zlen [c] - 0)) with [0]. cbn [foldM].
  change ([c].[0]) with (Some c). change ([a + b - 4294967296].[0]) with (Some (a + b - 4294967296)). cbn -[Z.max].
  by rewrite (Z.max_l c), (Z.max_l c 0) by lia.
Qed.

Lemma maxCounts_replicas_diverge_witness :
  maxCounts (sumVectors [[4294967290]; [7]]) [4294967290] = Some ([4294967290], 4294967290) /\
  maxCounts (sumVectors [[4294967290]; [7]]) [7] = Some ([7], 7).
Proof. apply (maxCounts_replicas_diverge 4294967290 7); unfold unsigned_max; lia. Defined.

(** The guarded reduction operator adds without overflow: combining the vectors of the
    ranks in any order gives the sums, capped at the largest 32-bit value, so it may be
    declared commutative, as the code does. *)
Theorem sumCapped_any_order (n : nat) vectors first order :
  Forall (fun v => length v = n /\ Forall (fun c => 0 <= c <= unsigned_max) v) (first :: vectors) -> order ≡ₚ first :: vectors ->
  forall acc rest, order = acc :: rest ->
  foldr sumCapped acc rest = (fun i => Z.min unsigned_max (zsum ((fun v => nthz v i) <$> (first :: vectors)))) <$> seqZ 0 (Z.of_nat n).
Proof.
  intros Hall Hperm acc rest ->. rewrite <- Hperm in Hall. apply Forall_cons in Hall as [[Hl Ha] Hrest].
  rewrite (sumCapped_fold n acc rest Hl Ha Hrest). apply list_fmap_ext. intros _ i _. f_equal.
  apply zsum_Permutation. by rewrite Hperm.
Qed.

Lemma sumCapped_any_order_witness :
  foldr sumCapped [4294967290; 4] [[1; 2]; [7; 3]] =
  (fun i => Z.min unsigned_max (zsum ((fun v => nthz v i) <$> [[1; 2]; [4294967290; 4]; [7; 3]]))) <$> seqZ 0 2.
Proof.
  apply (sumCapped_any_order 2 [[4294967290; 4]; [7; 3]] [1; 2] [[4294967290; 4]; [1; 2]; [7; 3]]); [|apply perm_swap|reflexivity].
  repeat (apply Forall_cons; split; [split; [reflexivity|repeat constructor; vm_compute; congruence]|]). by apply Forall_nil.
Defined.
