(* ===== verification/Exchange.v ===== *)
(** * Particle exchange

    [exchangeParticles] of [cstone/domain/domaindecomp_mpi.hpp] and [redoExchange] of
    [cstone/domain/assignment.hpp].  The exchanged arrays have the same number of elements and
    are treated alike, so a particle is the tuple of their elements with one index, and the
    arrays are one list of particles.  A message is the encoded count and the packed elements.
    MPI delivers the messages of one sender with one tag in the order in which they were sent;
    the order of messages of different senders is arbitrary. *)

From S2P Require Import Prelude Primitives SfcCommon Csarray CsInvariant CsCounts IndexRanges DomainDecomp Layout.

(** ** Definitions *)

Definition INT_MAX : Z := 2147483647.
Definition alignment : Z := 8.
Definition headerBytes : Z := round_up 8 alignment.

(** [sizes] are the sizes of the array elements in bytes. *)
Definition numElementsFit (numBytesAvail : Z) (sizes : list Z) : Z :=
  let bytesPerElement := zsum sizes in
  let numBytesAvail := u64 (numBytesAvail - zlen sizes * alignment) in
  numBytesAvail / bytesPerElement.

(** Particles that fit into one message. *)
Definition maxMessage (sizes : list Z) : Z := numElementsFit (u64 (u64 (INT_MAX * 8) - headerBytes)) sizes.

Section Exchange.
Context {P : Type}.

Record Message := mkMessage { msgCount : Z; msgData : list P }.

(** Elements [first .. first + n - 1] of the ordering. *)
Definition packArrays (ordering : list Z) (particles : list P) (first n : Z) : option (list P) :=
  mapM_range first (first + n) (fun i => let? j := ordering.[i] in particles.[j]).

(** The loop over the messages to one rank. *)
Fixpoint sendLoop (fuel : nat) (numFit : Z) (ordering : list Z) (particles : list P) (first sendCount numSent : Z) : option (list Message) :=
  match fuel with
  | O => None
  | S fuel =>
      if numSent <? sendCount then
        let numRemaining := sendCount - numSent in
        let nextSendCount := stl_min numFit numRemaining in
        let? data := packArrays ordering particles (first + numSent) nextSendCount in
        let? rest := sendLoop fuel numFit ordering particles first sendCount (numSent + nextSendCount) in
        Some (mkMessage nextSendCount data :: rest)
      else Some []
  end.

Definition sendTo (sizes : list Z) (sends : list Z) (thisRank : Z) (ordering : list Z) (particles : list P) (destinationRank : Z) : option (list Message) :=
  let? sendCount := sendCount sends destinationRank in
  if (destinationRank =? thisRank) || (sendCount =? 0) then Some []
  else
    let? first := sends.[destinationRank] in
    sendLoop (Datatypes.S (Z.to_nat sendCount)) (maxMessage sizes) ordering particles first sendCount 0.

(** What a rank sends, by destination. *)
Definition sendMessages (sizes : list Z) (sends : list Z) (thisRank : Z) (ordering : list Z) (particles : list P) : option (list (list Message)) :=
  mapM_range 0 (numRanks sends) (sendTo sizes sends thisRank ordering particles).

(** The receive loop on the messages in the order of their arrival; waiting for a message that
    does not arrive is [None]. *)
Fixpoint receiveLoop (record : bool) (arrivals : list (Z * Message)) (receiveStart receiveEnd : Z) (receiveLog : ExchangeLog) (particles : list P) :
    option (ExchangeLog * list P * list (Z * Message)) :=
  if receiveStart =? receiveEnd then Some (receiveLog, particles, arrivals)
  else
    match arrivals with
    | [] => None
    | (receiveRank, msg) :: arrivals =>
        let receiveCount := msgCount msg in
        let? (receiveLocation, receiveLog) :=
          if record then Some (receiveStart, addExchange receiveRank receiveStart receiveLog)
          else (let? l := logLookup receiveRank receiveLog in Some (l, receiveLog)) in
        let? particles := writeFrom (take (Z.to_nat receiveCount) (msgData msg)) particles receiveLocation in
        receiveLoop record arrivals (u32 (receiveStart + receiveCount)) receiveEnd receiveLog particles
    end.

(** The sent messages, the log, the arrays, and the messages that are left. *)
Definition exchangeParticles (receiveLog : ExchangeLog) (sizes : list Z) (sends : list Z) (thisRank receiveStart receiveEnd : Z) (ordering : list Z)
    (arrivals : list (Z * Message)) (particles : list P) : option (list (list Message) * ExchangeLog * list P * list (Z * Message)) :=
  let record := bool_decide (receiveLog = []) in
  let? sent := sendMessages sizes sends thisRank ordering particles in
  let? (receiveLog, particles, rest) := receiveLoop record arrivals receiveStart receiveEnd receiveLog particles in
  Some (sent, receiveLog, particles, rest).

(** [ordering] is given by the caller, in the order after the first exchange. *)
Definition redoExchange (myRank numAssigned : Z) (exchanges : list Z) (recvLog : ExchangeLog) (o1e : BufferDescription) (ordering sizes : list Z)
    (arrivals : list (Z * Message)) (properties : list P) : option (list (list Message) * ExchangeLog * list P * list (Z * Message)) :=
  let? numPresent := sendCount exchanges myRank in
  let numRecv := u32 (numAssigned - numPresent) in
  let? recvStart := receiveStart o1e numRecv in
  let? exchangeO2 := shiftSendRanges exchanges myRank numRecv in
  exchangeParticles recvLog sizes exchangeO2 myRank recvStart (u32 (recvStart + numRecv)) ordering arrivals properties.

End Exchange.
Arguments Message P : clear implicits.

(** ** Sending *)

Section Sending.
Context {P : Type}.

(** The particles in the order given by [ordering]. *)
Definition inOrder (ordering : list Z) (particles sorted : list P) : Prop :=
  zlen sorted <= zlen ordering /\ forall i, 0 <= i < zlen sorted -> (let? j := ordering.[i] in particles.[j]) = sorted.[i].

Lemma packArrays_run ordering particles sorted first n : inOrder ordering particles sorted -> 0 <= first -> 0 <= n -> first + n <= zlen sorted ->
  packArrays ordering particles first n = Some (slice sorted first (first + n)).
Proof.
  intros [Hz Ho] Hf Hn Hl. unfold packArrays, mapM_range. replace (first + n - first) with n by lia. apply mapM_Some_2, Forall2_same_length_lookup.
  pose proof (slice_zlen sorted first (first + n) ltac:(lia) ltac:(lia)) as Hs. split; [rewrite length_seqZ; unfold zlen in Hs; lia|].
  intros i x y [-> Hi]%lookup_seqZ Hy. rewrite Ho by lia. unfold slice in Hy. apply lookup_take_Some in Hy as [Hy _]. rewrite lookup_drop in Hy.
  rewrite aget_lookup by lia. rewrite <- Hy. f_equal. lia.
Qed.

(** A message that the receiver accepts as a whole. *)
Definition wellFormed (m : Message P) : Prop := 1 <= msgCount m /\ zlen (msgData m) = msgCount m.

Lemma sendLoop_run ordering particles sorted first sendCount numFit : inOrder ordering particles sorted -> 1 <= numFit -> 0 <= first ->
  first + sendCount <= zlen sorted -> forall fuel numSent, 0 <= numSent <= sendCount -> sendCount - numSent < Z.of_nat fuel ->
  exists msgs, sendLoop fuel numFit ordering particles first sendCount numSent = Some msgs /\ Forall wellFormed msgs /\
    concat (msgData <$> msgs) = slice sorted (first + numSent) (first + sendCount) /\ (sendCount - numSent <= numFit -> (length msgs <= 1)%nat).
Proof.
  intros Ho Hfit Hf Hl. induction fuel as [|fuel IH]; intros numSent Hn Hfuel; [lia|]. cbn [sendLoop].
  destruct (Z.ltb_spec numSent sendCount) as [Hlt|Hge].
  - rewrite stl_min_min. set (c := Z.min numFit (sendCount - numSent)). assert (Hc : 1 <= c <= sendCount - numSent) by lia.
    rewrite (packArrays_run _ _ sorted) by (done || lia).
    destruct (IH (numSent + c)) as (msgs & -> & Hw & Hcat & Hone); [lia|lia|]. eexists. split; [done|]. split; [|split].
    + apply Forall_cons. split; [|done]. split; cbn [msgCount msgData]; [lia|]. destruct Ho as [Hz _]. rewrite slice_zlen by lia. lia.
    + cbn [fmap list_fmap concat msgData]. rewrite Hcat. destruct Ho as [Hz _]. replace (first + (numSent + c)) with (first + numSent + c) by lia. symmetry. apply slice_app; lia.
    + intros Hle. cbn [length]. assert (c = sendCount - numSent) as Ec by lia. destruct fuel as [|fuel]; [lia|].
      replace msgs with (@nil (Message P)); [done|]. clear -Hcat Hw Ec. replace (numSent + c) with sendCount in Hcat by lia. rewrite slice_empty in Hcat.
      destruct msgs as [|m msgs]; [done|]. apply Forall_cons in Hw as [[H1 H2] _]. cbn in Hcat. apply app_eq_nil in Hcat as [E _]. rewrite E in H2. change (zlen (@nil P)) with 0 in H2. lia.
  - exists []. assert (numSent = sendCount) as -> by lia. split; [done|]. split; [by apply Forall_nil|]. split; [by rewrite slice_empty|]. simpl. lia.
Qed.

End Sending.

(** ** Receiving *)

Section Receiving.
Context {P : Type}.

Definition arrivedData (arrivals : list (Z * Message P)) : list P := concat ((fun e => msgData e.2) <$> arrivals).

(** The log of the arrivals with their locations from [start] on. *)
Fixpoint arrivalLog (arrivals : list (Z * Message P)) (start : Z) : ExchangeLog :=
  match arrivals with
  | [] => []
  | (p, m) :: arrivals => (p, start) :: arrivalLog arrivals (start + msgCount m)
  end.

Lemma receiveLoop_record arrivals : forall log pre mid post,
  Forall (fun e => wellFormed e.2) arrivals -> zlen mid = zlen (arrivedData arrivals) -> zlen pre + zlen mid < 4294967296 ->
  receiveLoop true arrivals (zlen pre) (zlen pre + zlen mid) log (pre ++ mid ++ post) =
    Some (log ++ arrivalLog arrivals (zlen pre), pre ++ arrivedData arrivals ++ post, []).
Proof.
  induction arrivals as [|[p m] arrivals IH]; intros log pre mid post Hw Hm Hlt; cbn [receiveLoop].
  - change (zlen (arrivedData [])) with 0 in Hm. destruct mid as [|x mid]; [|rewrite zlen_cons in Hm; pose proof (zlen_nonneg mid); lia].
    change (zlen (@nil P)) with 0. rewrite Z.add_0_r, Z.eqb_refl. cbn. by rewrite app_nil_r.
  - apply Forall_cons in Hw as [[Hc Hd] Hw]. cbn [snd] in Hc, Hd. unfold arrivedData in Hm. cbn [fmap list_fmap concat snd] in Hm. fold (arrivedData arrivals) in Hm. rewrite zlen_app in Hm.
    pose proof (zlen_nonneg (arrivedData arrivals)). pose proof (zlen_nonneg pre). destruct (Z.eqb_spec (zlen pre) (zlen pre + zlen mid)) as [|_]; [lia|].
    set (d := msgData m) in *. set (n := length d). assert (Hn : zlen d = Z.of_nat n) by done.
    rewrite take_ge by (unfold zlen in *; lia).
    assert (Ht : zlen (take n mid) = zlen d) by (unfold zlen in *; rewrite length_take; lia). assert (Hr : zlen (drop n mid) = zlen (arrivedData arrivals)) by (unfold zlen in *; rewrite length_drop; lia).
    replace (pre ++ mid ++ post) with (pre ++ take n mid ++ drop n mid ++ post) by by rewrite (app_assoc (take n mid)), take_drop.
    rewrite (writeFrom_block d pre (take n mid) (drop n mid ++ post) Ht).
    rewrite u32_small by lia. replace (zlen pre + msgCount m) with (zlen (pre ++ d)) by (rewrite zlen_app; lia).
    replace (zlen pre + zlen mid) with (zlen (pre ++ d) + zlen (drop n mid)) by (rewrite zlen_app; lia).
    rewrite (app_assoc pre d (drop n mid ++ post)), IH by (done || rewrite ?zlen_app; lia). unfold addExchange. cbn [arrivalLog].
    replace (zlen (pre ++ d)) with (zlen pre + msgCount m) by (rewrite zlen_app; lia). unfold arrivedData. cbn [fmap list_fmap concat snd]. fold d. by rewrite <- !app_assoc.
Qed.

(** *** Arbitrary interleaving of the senders *)

(** The messages of every sender arrive in their order. *)
Definition interleaves (queue : Z -> list (Message P)) (ranks : list Z) (arrivals : list (Z * Message P)) : Prop :=
  Forall (fun e => e.1 ∈ ranks) arrivals /\ forall p, p ∈ ranks -> snd <$> filter (fun e => e.1 = p) arrivals = queue p.

Lemma interleaves_perm queue ranks arrivals : NoDup ranks -> interleaves queue ranks arrivals ->
  arrivedData arrivals ≡ₚ ranks ≫= (fun p => concat (msgData <$> queue p)).
Proof.
  intros Hnd [Hin Hq]. assert (Hsplit : forall rs arr, NoDup rs -> Forall (fun e : Z * Message P => e.1 ∈ rs) arr -> arrivedData arr ≡ₚ rs ≫= (fun p => arrivedData (filter (fun e => e.1 = p) arr))).
  { clear. induction rs as [|p rs IH]; intros arr Hnd Hin.
    - destruct arr as [|e arr]; [done|]. by apply Forall_cons in Hin as [?%not_elem_of_nil _].
    - apply NoDup_cons in Hnd as [Hp Hnd]. rewrite bind_cons.
      assert (Hparts : arrivedData arr ≡ₚ arrivedData (filter (fun e => e.1 = p) arr) ++ arrivedData (filter (fun e => e.1 <> p) arr)).
      { clear. unfold arrivedData. induction arr as [|e arr IH]; [done|]. rewrite !filter_cons. destruct (decide (e.1 = p)) as [E|E].
        - rewrite decide_False by tauto. cbn [fmap list_fmap concat]. by rewrite IH, app_assoc.
        - rewrite decide_True by done. cbn [fmap list_fmap concat]. rewrite IH, !app_assoc. f_equiv. apply Permutation_app_comm. }
      rewrite Hparts. f_equiv. rewrite (IH (filter (fun e => e.1 <> p) arr) Hnd).
      + apply reflexive_eq. apply Forall_bind_ext, Forall_forall. intros q Hq. f_equal. rewrite list_filter_filter. apply list_filter_iff. intros e. split; [tauto|]. intros E. split; [done|].
        intros E'. apply Hp. congruence.
      + apply Forall_forall. intros e [He Hea]%list_elem_of_filter. rewrite Forall_forall in Hin. specialize (Hin e Hea). apply elem_of_cons in Hin as [|]; [by destruct He|done]. }
  rewrite (Hsplit ranks arrivals Hnd Hin). apply reflexive_eq. apply Forall_bind_ext, Forall_forall. intros p Hp. rewrite <- (Hq p Hp). unfold arrivedData. by rewrite <- list_fmap_compose.
Qed.

(** *** Replay *)

(** The region as blocks of the senders in the order [order]; [f p] is the block of [p]. *)
Definition region (order : list Z) (f : Z -> list P) : list P := order ≫= f.

Definition updBlock (f : Z -> list P) (p : Z) (d : list P) (q : Z) : list P := if decide (q = p) then d else f q.

(** The log that belongs to blocks of the sizes [size] from [start] on. *)
Fixpoint blockLog (order : list Z) (size : Z -> Z) (start : Z) : ExchangeLog :=
  match order with
  | [] => []
  | p :: order => (p, start) :: blockLog order size (start + size p)
  end.

Lemma region_upd_other order f p d : p ∉ order -> region order (updBlock f p d) = region order f.
Proof.
  intros Hp. apply Forall_bind_ext, Forall_forall. intros q Hq. unfold updBlock. rewrite decide_False; [done|]. by intros ->.
Qed.

(** A message is written over the block of its sender. *)
Lemma replay_write order size f p d : forall pre post, NoDup order -> p ∈ order -> Forall (fun q => zlen (f q) = size q) order -> zlen d = size p ->
  exists loc, logLookup p (blockLog order size (zlen pre)) = Some loc /\
    writeFrom d (pre ++ region order f ++ post) loc = Some (pre ++ region order (updBlock f p d) ++ post).
Proof.
  induction order as [|q order IH]; intros pre post Hnd Hp Hs Hd; [by apply not_elem_of_nil in Hp|].
  apply NoDup_cons in Hnd as [Hq Hnd]. apply Forall_cons in Hs as [Hsq Hs]. unfold logLookup. cbn [blockLog find fst]. unfold region. rewrite !bind_cons. fold (region order f).
  fold (region order (updBlock f p d)). destruct (Z.eqb_spec q p) as [->|Hne].
  - exists (zlen pre). split; [done|]. rewrite (region_upd_other order f p d Hq). unfold updBlock at 1. rewrite decide_True by done.
    rewrite <- !app_assoc. apply writeFrom_block. lia.
  - apply elem_of_cons in Hp as [->|Hp]; [done|]. unfold updBlock at 1. rewrite decide_False by done.
    destruct (IH (pre ++ f q) post Hnd Hp Hs Hd) as (loc & El & Ew). exists loc. rewrite zlen_app, Hsq in El. split; [exact El|]. by rewrite <- !app_assoc in Ew |- *.
Qed.

(** Replaying a logged exchange puts the message of every sender where its message of the
    logged exchange was put, in whatever order the messages arrive. *)
Lemma replay_run order size pre post (data : Z -> list P) : NoDup order -> forall arrivals f receiveStart receiveEnd,
  NoDup (fst <$> arrivals) -> Forall (fun e : Z * Message P => e.1 ∈ order /\ wellFormed e.2 /\ msgCount e.2 = size e.1 /\ msgData e.2 = data e.1) arrivals ->
  Forall (fun q => zlen (f q) = size q) order -> 0 <= receiveStart -> receiveEnd < 4294967296 -> receiveEnd - receiveStart = zsum ((fun e => msgCount e.2) <$> arrivals) ->
  receiveLoop false arrivals receiveStart receiveEnd (blockLog order size (zlen pre)) (pre ++ region order f ++ post) =
    Some (blockLog order size (zlen pre), pre ++ region order (fun q => if decide (q ∈ fst <$> arrivals) then data q else f q) ++ post, []).
Proof.
  intros Hnd. induction arrivals as [|[p m] arrivals IH]; intros f rs re Hna Ha Hf H0 Hlt Hsum; cbn [receiveLoop].
  - change (zsum _) with 0 in Hsum. destruct (Z.eqb_spec rs re); [done|lia].
  - apply Forall_cons in Ha as [(Hp & [Hc Hd] & Hsz & Hdata) Ha]. cbn [fst snd] in *. rewrite fmap_cons, zsum_cons in Hsum. cbn [snd] in Hsum.
    assert (Hpos : 0 <= zsum ((fun e : Z * Message P => msgCount e.2) <$> arrivals)).
    { clear -Ha. induction Ha as [|e arrivals (_ & [Hc _] & _) _ IHa]; [done|]. rewrite fmap_cons, zsum_cons. lia. }
    destruct (Z.eqb_spec rs re) as [|_]; [lia|]. rewrite take_ge by (unfold zlen in Hd; lia). rewrite Hdata in *.
    destruct (replay_write order size f p (data p) pre post Hnd Hp Hf ltac:(lia)) as (loc & -> & ->). rewrite fmap_cons in Hna. apply NoDup_cons in Hna as [Hpn Hna]. cbn [fst] in Hpn.
    rewrite u32_small by lia. rewrite (IH (updBlock f p (data p)) (rs + msgCount m) re Hna Ha); [| |lia|done|lia].
    + do 3 f_equal. f_equal. f_equal. apply Forall_bind_ext, Forall_forall. intros q _. rewrite fmap_cons. cbn [fst]. unfold updBlock. destruct (decide (q ∈ fst <$> arrivals)) as [Hq|Hq].
      * by rewrite decide_True by (by right).
      * destruct (decide (q = p)) as [->|Hne]; [by rewrite decide_True by (by left)|]. rewrite decide_False; [done|]. by intros [|]%elem_of_cons.
    + rewrite Forall_forall in Hf |- *. intros q Hq. unfold updBlock. destruct (decide (q = p)) as [->|]; [lia|by apply Hf].
Qed.

(** The log of a recorded exchange with one message per sender. *)
Lemma arrivalLog_blocks (arrivals : list (Z * Message P)) size start : Forall (fun e => msgCount e.2 = size e.1) arrivals ->
  arrivalLog arrivals start = blockLog (fst <$> arrivals) size start.
Proof. revert start. induction arrivals as [|[p m] arrivals IH]; intros start H; [done|]. apply Forall_cons in H as [E H]. cbn in *. by rewrite E, IH. Qed.

End Receiving.
