(* ===== verification/Distribute.v ===== *)
(** * Distribution of the particles

    [GlobalAssignment::distribute] of [cstone/domain/assignment.hpp] with the key computation
    and the buffer functions of [cstone/primitives/primitives_acc.hpp] that it calls.  The map
    from a particle to its key (the curve key of its coordinates) is an argument. *)

From S2P Require Import Prelude Primitives SfcCommon Csarray CsInvariant CsCounts IndexRanges DomainDecomp Layout Octree FocusRebalance GlobalTree Exchange.

(** ** Definitions *)

(** [std::span(data + first, n)]: the elements, or [None] if they are not in the buffer. *)
Definition subspan {A} (l : list A) (first n : Z) : option (list A) :=
  if (0 <=? first) && (0 <=? n) && (first + n <=? zlen l) then Some (slice l first (first + n)) else None.

(** A buffer that is too small is enlarged. *)
Definition reallocateBytes (n : Z) (buffer : list Z) : list Z := buffer ++ replicate (Z.to_nat (n - zlen buffer)) 0.

Definition sequence (first n : Z) (buffer : list Z) : option (list Z) :=
  iota first n first (reallocateBytes (u32 (first + n)) buffer).

(** The sort of a part of two buffers. *)
Definition sortByKey (first n : Z) (keys values : list Z) : option (list Z * list Z) :=
  let? keyView := subspan keys first n in
  let? valueView := subspan values first n in
  let? (keyView, valueView) := sort_by_key keyView valueView in
  let? keys := writeFrom keyView keys first in
  let? values := writeFrom valueView values first in
  Some (keys, values).

Section Distribute.
Context {P : Type} (k : KeyType) (sfcKey : P -> Z).

(** A particle with the key [removeKey] keeps it. *)
Definition computeParticleKeys (first n : Z) (particles : list P) (keys : list Z) : option (list Z) :=
  for_loop 0 n (fun i keys =>
    let? key := keys.[first + i] in
    if negb (key =? removeKey k) then
      let? p := particles.[first + i] in
      aset keys (first + i) (sfcKey p)
    else Some keys) keys.

(** The first part of [assign]: the keys of the assigned range, and the ordering that sorts them. *)
Definition assignKeys (o1 : BufferDescription) (particles : list P) (keys ordering : list Z) : option (list Z * list Z) :=
  let numPart := u32 (bend o1 - bstart o1) in
  let? keys := computeParticleKeys (bstart o1) numPart particles keys in
  let? ordering := sequence (bstart o1) numPart ordering in
  sortByKey (bstart o1) numPart keys ordering.

(** What [distribute] leaves behind: the messages that it sends, the log, the buffers, the
    result, and the messages that it does not consume. *)
Record Distributed := mkDistributed {
  d_sent : list (list (Message P));
  d_recvLog : ExchangeLog;
  d_particles : list P;
  d_keys : list Z;
  d_ordering : list Z;
  d_start : Z;
  d_keyView : list Z;
  d_rest : list (Z * Message P)
}.

Definition distribute (myRank numAssigned : Z) (exchanges : list Z) (o1e : BufferDescription) (sizes : list Z)
    (arrivals : list (Z * Message P)) (ordering keys : list Z) (particles : list P) : option Distributed :=
  let? numPresent := sendCount exchanges myRank in
  let? numSendDown := exchanges.[myRank] in
  let numRecv := u32 (numAssigned - numPresent) in
  let? recvStart := receiveStart o1e numRecv in
  let? (sent, recvLog, particles, rest) :=
    exchangeParticles [] sizes exchanges myRank recvStart (u32 (recvStart + numRecv)) (drop (Z.to_nat (bstart o1e)) ordering) arrivals particles in
  let '(newStart, newEnd) := assignedEnvelope o1e numRecv in
  let envelopeSize := u32 (newEnd - newStart) in
  let? keys := computeParticleKeys recvStart numRecv particles keys in
  let? ordering := sequence recvStart numRecv ordering in
  let? (keys, ordering) := sortByKey newStart envelopeSize keys ordering in
  let? keyView := subspan keys newStart envelopeSize in
  let? assigned := subspan keyView numSendDown numAssigned in
  Some (mkDistributed sent recvLog particles keys ordering newStart assigned rest).

End Distribute.

(** ** Sorted lists of pairs *)

Section Filters.
Context {A : Type} (Q : A -> Prop) `{forall x, Decision (Q x)}.

Lemma filter_all (l : list A) : Forall Q l -> filter Q l = l.
Proof. induction 1 as [|x l Hx _ IH]; [done|]. by rewrite filter_cons_True, IH. Qed.

Lemma filter_none (l : list A) : Forall (fun x => ~ Q x) l -> filter Q l = [].
Proof. induction 1 as [|x l Hx _ IH]; [done|]. by rewrite filter_cons_False, IH. Qed.

End Filters.

(** The elements with keys in a range are a slice of a sorted list. *)
Lemma filter_sorted_slice {V} (key : V -> Z) (l : list V) a b : zsorted (key <$> l) -> a <= b ->
  slice l (count_lt a (key <$> l)) (count_lt b (key <$> l)) = filter (fun p => a <= key p < b) l.
Proof.
  intros Hs Hab. set (ks := key <$> l) in *. set (ca := count_lt a ks). set (cb := count_lt b ks). assert (Hz : zlen ks = zlen l) by apply zlen_map.
  pose proof (count_lt_range a ks). pose proof (count_lt_range b ks). assert (Hle : ca <= cb) by by apply count_lt_mono.
  assert (Hl : l = slice l 0 ca ++ slice l ca cb ++ slice l cb (zlen l)).
  { rewrite <- slice_app, <- slice_app by lia. unfold slice. rewrite Z2Nat.inj_0, drop_0, take_ge; [done|unfold zlen; lia]. }
  assert (Hel : forall x y p, 0 <= x -> y <= zlen l -> p ∈ slice l x y -> exists i, x <= i < y /\ ks.[i] = Some (key p)).
  { intros x y p Hx Hy [i Hi]%list_elem_of_lookup. unfold slice in Hi. apply lookup_take_Some in Hi as [Hi Hlt]. rewrite lookup_drop in Hi.
    exists (x + Z.of_nat i). split; [lia|]. unfold ks. rewrite aget_map, aget_lookup by lia. replace (Z.to_nat (x + Z.of_nat i)) with (Z.to_nat x + i)%nat by lia. by rewrite Hi. }
  rewrite Hl at 2. rewrite !filter_app. rewrite (filter_none _ (slice l 0 ca)), (filter_none _ (slice l cb (zlen l))).
  - rewrite app_nil_r. cbn [app]. symmetry. apply filter_all. apply Forall_forall. intros p Hp. destruct (Hel ca cb p ltac:(lia) ltac:(lia) Hp) as (i & Hi & Hk). split.
    + destruct (Z.le_gt_cases a (key p)); [done|]. pose proof (count_lt_gt ks Hs i (key p) a Hk ltac:(lia)). lia.
    + destruct (Z.lt_ge_cases (key p) b); [done|]. pose proof (count_lt_le ks Hs i (key p) b Hk ltac:(lia)). lia.
  - apply Forall_forall. intros p Hp. destruct (Hel cb (zlen l) p ltac:(lia) ltac:(lia) Hp) as (i & Hi & Hk). intros [_ Hb].
    pose proof (count_lt_gt ks Hs i (key p) b Hk ltac:(lia)). lia.
  - apply Forall_forall. intros p Hp. destruct (Hel 0 ca p ltac:(lia) ltac:(lia) Hp) as (i & Hi & Hk). intros [Ha _].
    pose proof (count_lt_le ks Hs i (key p) a Hk ltac:(lia)). lia.
Qed.

(** *** Stability *)

Lemma stable_insert_front p l : Forall (fun e => p.1 <= e.1) l -> stable_insert p l = p :: l.
Proof. intros H. destruct l as [|q l]; [done|]. apply Forall_cons in H as [Hq _]. simpl. destruct (Z.ltb_spec q.1 p.1); [lia|done]. Qed.

Lemma stable_insert_filter (Q : Z * Z -> Prop) `{forall e, Decision (Q e)} p l : StronglySorted key_le l ->
  filter Q (stable_insert p l) = if decide (Q p) then stable_insert p (filter Q l) else filter Q l.
Proof.
  induction 1 as [|q l Hs IH Hq]; [done|]. cbn [stable_insert]. destruct (Z.ltb_spec q.1 p.1) as [Hlt|Hge].
  - rewrite !filter_cons, IH. destruct (decide (Q q)), (decide (Q p)); cbn [stable_insert]; try done. by destruct (Z.ltb_spec q.1 p.1); [|lia].
  - rewrite (filter_cons _ p). destruct (decide (Q p)); [|done]. symmetry. apply stable_insert_front, Forall_forall. intros e [_ He]%list_elem_of_filter.
    apply elem_of_cons in He as [->|He]; [done|]. rewrite Forall_forall in Hq. specialize (Hq e He). unfold key_le in Hq. lia.
Qed.

Lemma stable_sort_filter (Q : Z * Z -> Prop) `{forall e, Decision (Q e)} l : filter Q (stable_sort l) = stable_sort (filter Q l).
Proof.
  induction l as [|p l IH]; [done|]. cbn [stable_sort]. rewrite (stable_insert_filter Q p _ (stable_sort_sorted l)), filter_cons, IH. by destruct (decide (Q p)).
Qed.

Lemma stable_sort_id l : StronglySorted key_le l -> stable_sort l = l.
Proof. induction 1 as [|p l Hs IH Hp]; [done|]. cbn [stable_sort]. rewrite IH. by apply stable_insert_front. Qed.

Lemma zsorted_pairs (l : list (Z * Z)) : zsorted (fst <$> l) -> StronglySorted key_le l.
Proof.
  induction l as [|e l IH]; intros Hs; constructor.
  - apply IH. intros i j x y Hij Hx Hy. pose proof (aget_Some_range _ _ _ Hx). pose proof (aget_Some_range _ _ _ Hy).
    apply (Hs (i + 1) (j + 1)); [lia|..]; rewrite fmap_cons, aget_cons_S by lia; by rewrite Z.add_simpl_r.
  - apply Forall_forall. intros e' He'. assert (Hin : e'.1 ∈ fst <$> l) by by apply list_elem_of_fmap_2. apply list_elem_of_lookup in Hin as [j Hj]. rewrite <- aget_nat in Hj.
    apply (Hs 0 (Z.of_nat j + 1)); [lia|done|]. rewrite fmap_cons, aget_cons_S by lia. by rewrite Z.add_simpl_r.
Qed.

(** A sorted list is the part below a range, the part in the range and the part above. *)
Lemma sorted_three l a b : a <= b -> StronglySorted key_le l -> l = filter (fun e => e.1 < a) l ++ filter (fun e => a <= e.1 < b) l ++ filter (fun e => b <= e.1) l.
Proof.
  intros Hab. induction 1 as [|e l Hs IH He]; [done|]. assert (Habove : forall v, v <= e.1 -> filter (fun e => e.1 < v) l = []).
  { intros v Hv. apply filter_none. eapply Forall_impl; [exact He|]. unfold key_le. simpl. lia. }
  rewrite !filter_cons. destruct (decide (e.1 < a)) as [H1|H1].
  - rewrite (decide_False (P := a <= e.1 < b)), (decide_False (P := b <= e.1)) by lia. cbn [app]. by rewrite <- IH.
  - rewrite (Habove a) in * by lia. cbn [app] in *. destruct (decide (a <= e.1 < b)) as [H2|H2].
    + rewrite decide_False by lia. cbn [app]. by rewrite <- IH.
    + rewrite decide_True by lia. assert (E : filter (fun e => a <= e.1 < b) l = []) by (apply filter_none; eapply Forall_impl; [exact He|]; unfold key_le; simpl; lia).
      rewrite E in *. cbn [app] in *. by rewrite <- IH.
Qed.

(** Sorting new elements with keys in a range into a sorted list moves the elements below and above the range as blocks. *)
Lemma stable_sort_blocks own new mixed a b : a <= b -> mixed = new ++ own \/ mixed = own ++ new -> StronglySorted key_le own -> Forall (fun e => a <= e.1 < b) new ->
  exists mid, stable_sort mixed = filter (fun e => e.1 < a) own ++ mid ++ filter (fun e => b <= e.1) own.
Proof.
  intros Hab Hm Hs Hn. exists (filter (fun e => a <= e.1 < b) (stable_sort mixed)). rewrite (sorted_three (stable_sort mixed) a b Hab (stable_sort_sorted mixed)) at 1.
  assert (Hkeep : forall Q : Z * Z -> Prop, forall dec : (forall e, Decision (Q e)), (forall e, Q e -> ~ (a <= e.1 < b)) -> filter Q (stable_sort mixed) = filter Q own).
  { intros Q dec HQ. rewrite (stable_sort_filter Q). assert (E : filter Q new = []) by (apply filter_none; eapply Forall_impl; [exact Hn|]; intros e He Hq; exact (HQ e Hq He)).
    assert (Em : filter Q mixed = filter Q own) by (destruct Hm as [->| ->]; rewrite filter_app, E; [done|by rewrite app_nil_r]). rewrite Em, <- (stable_sort_filter Q), (stable_sort_id own Hs). done. }
  rewrite (Hkeep (fun e => e.1 < a)), (Hkeep (fun e => b <= e.1)) by lia. done.
Qed.

(** A list of pairs of keys and positions that refer to elements with these keys. *)
Section Referenced.
Context {P : Type} (sfcKey : P -> Z) (get : Z -> option P).

Definition refers (e : Z * Z) (x : P) : Prop := get e.2 = Some x /\ sfcKey x = e.1.

Lemma refers_filter l xs a b : Forall2 refers l xs -> Forall2 refers (filter (fun e => a <= e.1 < b) l) (filter (fun x => a <= sfcKey x < b) xs).
Proof.
  induction 1 as [|e x l xs [He1 He2] _ IH]; [constructor|]. rewrite !filter_cons, He2. destruct (decide (a <= e.1 < b)); [|done]. by constructor.
Qed.

Lemma refers_keys l xs : Forall2 refers l xs -> sfcKey <$> xs = fst <$> l.
Proof. induction 1 as [|e x l xs [_ He] _ IH]; [done|]. rewrite !fmap_cons. by rewrite IH, He. Qed.

Lemma refers_perm l l' xs : l ≡ₚ l' -> Forall2 refers l xs -> exists xs', xs ≡ₚ xs' /\ Forall2 refers l' xs'.
Proof.
  intros Hp. revert xs. induction Hp as [|e l l' _ IH|e1 e2 l|l l1 l2 _ IH1 _ IH2]; intros xs H.
  - exists xs. apply Forall2_nil_inv_l in H as ->. done.
  - apply Forall2_cons_inv_l in H as (x & xs' & Hx & H & ->). destruct (IH xs' H) as (ys & Hy & Hys). exists (x :: ys). split; [by f_equiv|by constructor].
  - apply Forall2_cons_inv_l in H as (x1 & ys & Hx1 & H & ->). apply Forall2_cons_inv_l in H as (x2 & zs & Hx2 & H & ->).
    exists (x2 :: x1 :: zs). split; [constructor|]. constructor; [done|]. by constructor.
  - destruct (IH1 xs H) as (ys & Hy & Hys). destruct (IH2 ys Hys) as (zs & Hz & Hzs). exists zs. split; [by etransitivity|done].
Qed.

End Referenced.

(** ** Blocks of a buffer *)

(** [l'] is [l] with [vals] written from position [off] on. *)
Record written {A} (l l' : list A) (off : Z) (vals : list A) : Prop := {
  w_len : zlen l' = zlen l;
  w_in : forall i, 0 <= i < zlen vals -> l'.[off + i] = vals.[i];
  w_out : forall i, ~ (off <= i < off + zlen vals) -> l'.[i] = l.[i]
}.

Lemma block_written {A} (pre mid vals post : list A) : zlen mid = zlen vals -> written (pre ++ mid ++ post) (pre ++ vals ++ post) (zlen pre) vals.
Proof.
  intros Hm. split.
  - rewrite !zlen_app. lia.
  - intros i Hi. rewrite aget_app_r, aget_app_l by lia. f_equal. lia.
  - intros i Hi. destruct (Z.lt_ge_cases i (zlen pre)); [by rewrite !aget_app_l by lia|]. rewrite !(aget_app_r pre), !(aget_app_r _ post) by lia. f_equal. lia.
Qed.

Lemma slice_zip {A B} (l : list A) (l' : list B) a b : slice (zip l l') a b = zip (slice l a b) (slice l' a b).
Proof. unfold slice. by rewrite zip_with_drop, zip_with_take. Qed.

Lemma slice_get {A} (l : list A) a b i : 0 <= a -> 0 <= i < b - a -> (slice l a b).[i] = l.[a + i].
Proof. intros Ha Hi. unfold slice. rewrite !aget_lookup by lia. rewrite lookup_take_lt, lookup_drop by lia. f_equal. lia. Qed.

Lemma slice_block {A} (pre mid post : list A) a b : zlen pre = a -> zlen mid = b - a -> slice (pre ++ mid ++ post) a b = mid.
Proof. intros <- Hm. pose proof (zlen_nonneg mid). unfold slice. rewrite drop_app_length', take_app_length'; [done| |]; unfold zlen in *; lia. Qed.

Lemma slice_eq {A} (l v : list A) a b : 0 <= a -> b = a + zlen v -> b <= zlen l -> (forall i, 0 <= i < zlen v -> l.[a + i] = v.[i]) -> slice l a b = v.
Proof.
  intros Ha -> Hb H. pose proof (zlen_nonneg v). pose proof (slice_zlen l a (a + zlen v) ltac:(lia) Hb). apply list_eq_aget; [lia|]. intros i Hi. rewrite slice_get by lia. apply H. lia.
Qed.

Lemma subspan_run {A} (l : list A) first n : 0 <= first -> 0 <= n -> first + n <= zlen l -> subspan l first n = Some (slice l first (first + n)).
Proof. intros H1 H2 H3. unfold subspan. by rewrite !(proj2 (Z.leb_le _ _)) by lia. Qed.

Lemma slice_slice {A} (l : list A) x y c e : 0 <= x <= y -> 0 <= c <= e -> e <= y - x -> slice (slice l x y) c e = slice l (x + c) (x + e).
Proof.
  intros Hx Hc He. unfold slice. rewrite skipn_firstn_comm, drop_drop, take_take. f_equal; [lia|]. f_equal. lia.
Qed.

Lemma sorted_slice l a b : zsorted l -> 0 <= a -> zsorted (slice l a b).
Proof.
  intros Hs Ha i j x y Hij Hx Hy. pose proof (aget_Some_range _ _ _ Hx). pose proof (aget_Some_range _ _ _ Hy).
  assert (Hz : zlen (slice l a b) <= b - a \/ b < a) by (unfold slice, zlen; rewrite length_take; lia). destruct Hz as [Hz|Hz].
  - rewrite slice_get in Hx, Hy by lia. by apply (Hs (a + i) (a + j)); [lia|..].
  - unfold slice, zlen in H. rewrite length_take in H. lia.
Qed.

Section Steps.
Context {P : Type} (k : KeyType) (sfcKey : P -> Z).

Lemma receiveLoop_written arrivals receiveStart receiveEnd particles : Forall (fun e : Z * Message P => wellFormed e.2) arrivals -> 0 <= receiveStart ->
  receiveEnd = receiveStart + zlen (arrivedData arrivals) -> receiveEnd <= zlen particles -> receiveEnd < 4294967296 ->
  exists particles', receiveLoop true arrivals receiveStart receiveEnd [] particles = Some (arrivalLog arrivals receiveStart, particles', []) /\
    written particles particles' receiveStart (arrivedData arrivals).
Proof using.
  intros Hw H0 -> Hle Hlt. pose proof (zlen_nonneg (arrivedData arrivals)).
  destruct (buffer_split particles receiveStart (zlen (arrivedData arrivals)) ltac:(lia) ltac:(lia) Hle) as (pre & mid & post & -> & <- & Hm).
  eexists. rewrite <- Hm. rewrite (receiveLoop_record arrivals [] pre mid post Hw Hm) by lia. split; [done|]. by apply block_written.
Qed.

Lemma computeParticleKeys_written first (D particles : list P) keys : 0 <= first -> first + zlen D <= zlen keys ->
  (forall i, first <= i < first + zlen D -> nthz keys i <> removeKey k) ->
  (forall i, 0 <= i < zlen D -> particles.[first + i] = D.[i]) ->
  exists keys', computeParticleKeys k sfcKey first (zlen D) particles keys = Some keys' /\ written keys keys' first (sfcKey <$> D).
Proof using.
  intros H0 Hle Hkeep HD. pose proof (zlen_nonneg D). unfold computeParticleKeys.
  destruct (for_loop_inv (fun i dst => zlen dst = zlen keys /\ (forall j, 0 <= j < i -> dst.[first + j] = (sfcKey <$> D).[j]) /\ forall j, ~ (first <= j < first + i) -> dst.[j] = keys.[j])
    0 (zlen D) (fun i keys => let? key := keys.[first + i] in if negb (key =? removeKey k) then let? p := particles.[first + i] in aset keys (first + i) (sfcKey p) else Some keys) keys) as (keys' & E & Hz & Hin & Hout); [done| | |].
  - split; [done|]. split; [lia|done].
  - intros i dst Hi (Hz & Hin & Hout). rewrite (Hout (first + i)), (nthz_get keys (first + i)) by lia. cbn beta iota. rewrite (proj2 (Z.eqb_neq _ _) (Hkeep (first + i) ltac:(lia))). cbn [negb].
    rewrite HD by lia. destruct (aget_is_Some D i Hi) as [x Hx]. rewrite Hx. pose proof (aset_Some dst (first + i) (sfcKey x) ltac:(lia)) as Es. rewrite Es. eexists. split; [done|]. split; [rewrite (aset_zlen _ _ _ _ Es); lia|]. split; intros j Hj.
    + destruct (decide (j = i)) as [->|]; [rewrite (aget_aset_eq _ _ _ _ Es), aget_map, Hx; done|]. rewrite (aget_aset_ne _ _ _ _ _ Es) by lia. apply Hin. lia.
    + rewrite (aget_aset_ne _ _ _ _ _ Es) by lia. apply Hout. lia.
  - exists keys'. split; [done|]. split; [lia|by rewrite zlen_map|by rewrite zlen_map].
Qed.

Lemma sequence_written first n buffer : 0 <= first -> 0 <= n -> first + n < 4294967296 ->
  exists buffer' full, sequence first n buffer = Some buffer' /\ written full buffer' first (seqZ first n) /\
    zlen full = Z.max (zlen buffer) (first + n) /\ forall i, i < zlen buffer -> full.[i] = buffer.[i].
Proof using.
  intros H0 Hn Hlt. unfold sequence, reallocateBytes. rewrite u32_small by lia. set (full := buffer ++ _). pose proof (zlen_nonneg buffer).
  assert (Hz : zlen full = Z.max (zlen buffer) (first + n)) by (unfold full, zlen in *; rewrite length_app, length_replicate; lia).
  assert (Hf : forall i, i < zlen buffer -> full.[i] = buffer.[i]) by (intros i Hi; by apply aget_app_l).
  generalize dependent full. intros full Hz Hf. destruct (buffer_split full first n ltac:(lia) ltac:(lia) ltac:(lia)) as (pre & mid & post & E & <- & Hm). subst full.
  eexists _, _. rewrite (iota_block pre mid post n (zlen pre) Hm). split; [done|]. split; [|done]. apply block_written. rewrite zlen_seqZ; lia.
Qed.

(** Sorting a view keeps the elements that it refers to. *)
Lemma sortByKey_run get first n keys values xs : 0 <= first -> 0 <= n -> first + n <= zlen keys -> first + n <= zlen values ->
  let pairs := zip (slice keys first (first + n)) (slice values first (first + n)) in Forall2 (refers sfcKey get) pairs xs ->
  exists keys' values' xs', sortByKey first n keys values = Some (keys', values') /\ zlen keys' = zlen keys /\ zlen values' = zlen values /\
    slice keys' first (first + n) = fst <$> stable_sort pairs /\ slice values' first (first + n) = snd <$> stable_sort pairs /\ xs ≡ₚ xs' /\
    Forall2 (refers sfcKey get) (stable_sort pairs) xs' /\ forall i, ~ (first <= i < first + n) -> keys'.[i] = keys.[i].
Proof using.
  intros H0 Hn Hk Hv pairs Hx. unfold sortByKey. rewrite !subspan_run by lia.
  pose proof (slice_zlen keys first (first + n) ltac:(lia) Hk) as Hzk. pose proof (slice_zlen values first (first + n) ltac:(lia) Hv) as Hzv.
  unfold sort_by_key. destruct (Z.ltb_spec (zlen (slice values first (first + n))) (zlen (slice keys first (first + n)))); [lia|]. fold pairs.
  rewrite drop_ge by (unfold zlen in Hzk, Hzv; lia). rewrite app_nil_r. pose proof (stable_sort_perm pairs) as Hp. set (sorted := stable_sort pairs) in *.
  pose proof (Permutation_length Hp) as Hl. unfold pairs in Hl. rewrite length_zip in Hl. assert (Hls : zlen sorted = n) by (unfold zlen in *; lia).
  destruct (buffer_split keys first n H0 Hn Hk) as (pre & mid & post & -> & Hpre & Hm). destruct (buffer_split values first n H0 Hn Hv) as (pre' & mid' & post' & -> & Hpre' & Hm').
  assert (Ek : writeFrom (fst <$> sorted) (pre ++ mid ++ post) first = Some (pre ++ (fst <$> sorted) ++ post)) by (rewrite <- Hpre; apply writeFrom_block; rewrite zlen_map; lia).
  assert (Ev : writeFrom (snd <$> sorted) (pre' ++ mid' ++ post') first = Some (pre' ++ (snd <$> sorted) ++ post')) by (rewrite <- Hpre'; apply writeFrom_block; rewrite zlen_map; lia).
  cbn beta iota. rewrite Ek, Ev. symmetry in Hp. destruct (refers_perm sfcKey get _ _ xs Hp Hx) as (xs' & Hxs & Hr). exists (pre ++ (fst <$> sorted) ++ post), (pre' ++ (snd <$> sorted) ++ post'), xs'.
  rewrite !slice_block by (rewrite ?zlen_map; lia). rewrite !zlen_app, !zlen_map. split; [done|]. split; [lia|]. split; [lia|].
  do 4 (split; [done|]). rewrite <- Hpre. intros i Hi. apply (block_written pre mid (fst <$> sorted) post); rewrite zlen_map; lia.
Qed.

End Steps.

Lemma written_Forall {A} (P : A -> Prop) (l l' : list A) off vals : Forall P l -> Forall P vals -> written l l' off vals -> Forall P l'.
Proof.
  intros Hl Hv [Hz Hin Hout]. rewrite Forall_forall in Hl, Hv |- *. intros x [i Hi]%elem_aget. destruct (decide (off <= i < off + zlen vals)) as [Hr|Hr].
  - apply Hv, (aget_elem _ (i - off)). rewrite <- Hin by lia. by replace (off + (i - off)) with i by lia.
  - apply Hl, (aget_elem _ i). by rewrite <- Hout.
Qed.

Lemma sort_Forall (Q : Z -> Prop) first n keys keys' values : 0 <= first -> slice keys' first (first + n) = fst <$> stable_sort (zip (slice keys first (first + n)) (slice values first (first + n))) ->
  (forall i, ~ (first <= i < first + n) -> keys'.[i] = keys.[i]) -> Forall Q keys -> Forall Q keys'.
Proof.
  intros H0 Hs Ho HQ. rewrite Forall_forall in HQ |- *. intros x [i Hi]%elem_aget. destruct (decide (first <= i < first + n)) as [Hr|Hr]; [|apply HQ, (aget_elem _ i); by rewrite <- Ho].
  assert (Hx : x ∈ slice keys' first (first + n)) by (apply (aget_elem _ (i - first)); rewrite slice_get by lia; by replace (first + (i - first)) with i by lia).
  rewrite Hs, (stable_sort_perm _) in Hx. apply list_elem_of_fmap in Hx as ([key v] & -> & Hx). apply elem_of_zip_l in Hx. unfold slice in Hx. apply elem_of_take in Hx as (m & Hm & _). rewrite lookup_drop in Hm. apply HQ. by eapply list_elem_of_lookup_2.
Qed.

(** ** One rank *)

(** The buffers of a rank before the exchange: [own] are the particles of the assigned range in
    curve order, [ordering] gives their positions and [keys] their keys.  No cell outside of this range holds the key of
    particles that are to be removed. *)
Record ready {P} (k : KeyType) (sfcKey : P -> Z) (o : BufferDescription) (ordering keys : list Z) (particles own : list P) : Prop := {
  rd_range : 0 <= bstart o <= bend o /\ bend o <= bsize o < 4294967296;
  rd_particles : zlen particles = bsize o;
  rd_keys : zlen keys = bsize o;
  rd_ordering : bend o <= zlen ordering;
  rd_own : zlen own = bend o - bstart o;
  rd_order : forall i, 0 <= i < zlen own -> exists j x, ordering.[bstart o + i] = Some j /\ bstart o <= j < bend o /\ particles.[j] = Some x /\
    own.[i] = Some x /\ keys.[bstart o + i] = Some (sfcKey x);
  rd_sorted : zsorted (sfcKey <$> own);
  rd_kept : forall i, 0 <= i < bstart o \/ bend o <= i < bsize o -> nthz keys i <> removeKey k
}.

(** The position where particles are received does not overlap the present ones. *)
Lemma placement o n : 0 <= bstart o <= bend o -> bend o <= bsize o < 4294967296 -> 0 <= n -> n <= bstart o \/ n <= bsize o - bend o ->
  exists r, receiveStart o n = Some r /\ 0 <= r /\ r + n <= bsize o /\
    (r + n = bstart o /\ assignedEnvelope o n = (r, bend o) \/ r = bend o /\ assignedEnvelope o n = (bstart o, bend o + n)).
Proof.
  intros Hs He Hn Hfit. unfold receiveStart, assignedEnvelope. destruct (Z.leb_spec n (bstart o)) as [Hh|Hh]; cbn [orb].
  - rewrite u32_small by lia. exists (bstart o - n). split; [done|]. split; [lia|]. split; [lia|]. left. split; [lia|done].
  - rewrite !u32_small by lia. destruct (Z.leb_spec n (bsize o - bend o)); [|lia]. exists (bend o). split; [done|]. split; [lia|]. split; [lia|]. by right.
Qed.

(** Buffers of the size that is required for the exchange have room for the received particles. *)
Lemma size_fits o numPresent numAssigned : 0 <= bstart o <= bend o -> bend o <= bsize o < 4294967296 -> 0 <= numAssigned - numPresent < 4294967296 ->
  exchangeBufferSize o numPresent numAssigned = bsize o -> numAssigned - numPresent <= bstart o \/ numAssigned - numPresent <= bsize o - bend o.
Proof.
  intros Hs He Hn. unfold exchangeBufferSize. rewrite (u32_small (numAssigned - numPresent)), (u32_small (bsize o - bend o)) by lia.
  destruct (Z.leb_spec (numAssigned - numPresent) (bstart o)); [by left|]. destruct (Z.leb_spec (numAssigned - numPresent) (bsize o - bend o)); [by right|]. cbn [orb].
  intros Hm. right. destruct (Z.lt_ge_cases (bend o + (numAssigned - numPresent)) 4294967296); [rewrite u32_small in Hm by lia; lia|].
  unfold u32, wrap in Hm. change (2 ^ 32) with 4294967296 in Hm. rewrite <- (Z.mod_unique (bend o + (numAssigned - numPresent)) 4294967296 1 (bend o + (numAssigned - numPresent) - 4294967296)) in Hm by lia. lia.
Qed.

Section Rank.
Context {P : Type} (k : KeyType) (sfcKey : P -> Z) (o : BufferDescription) (ordering keys : list Z) (particles own : list P).
Hypothesis Hready : ready k sfcKey o ordering keys particles own.

Lemma ready_inOrder : inOrder (drop (Z.to_nat (bstart o)) ordering) particles own.
Proof using Hready.
  destruct Hready as [Hr _ _ Ho Hz Hget _ _]. split; [unfold zlen in *; rewrite length_drop; lia|]. intros i Hi. destruct (Hget i Hi) as (j & x & E1 & _ & E2 & E3 & _).
  assert (E : (drop (Z.to_nat (bstart o)) ordering).[i] = ordering.[bstart o + i]) by (rewrite !aget_lookup, lookup_drop by lia; f_equal; lia). by rewrite E, E1, E2.
Qed.

(** The pairs of keys and positions of a view refer to the elements [xs]. *)
Lemma refers_view (get : Z -> option P) ks vs first xs : 0 <= first -> first + zlen xs <= zlen ks -> first + zlen xs <= zlen vs ->
  (forall i, 0 <= i < zlen xs -> exists key j x, ks.[first + i] = Some key /\ vs.[first + i] = Some j /\ xs.[i] = Some x /\ get j = Some x /\ sfcKey x = key) ->
  Forall2 (refers sfcKey get) (zip (slice ks first (first + zlen xs)) (slice vs first (first + zlen xs))) xs.
Proof using.
  intros H0 Hk Hv H. pose proof (zlen_nonneg xs). pose proof (slice_zlen ks first (first + zlen xs) ltac:(lia) Hk) as Hzk. pose proof (slice_zlen vs first (first + zlen xs) ltac:(lia) Hv) as Hzv.
  apply Forall2_same_length_lookup. split; [rewrite length_zip; unfold zlen in *; lia|]. intros i [key j] x Hz Hx.
  apply lookup_zip_with_Some in Hz as (key' & j' & E & Hkey & Hj). injection E as <- <-.
  assert (Hi : 0 <= Z.of_nat i < zlen xs) by (apply lookup_lt_Some in Hx; unfold zlen; lia).
  destruct (H (Z.of_nat i) Hi) as (key' & j' & x' & E1 & E2 & E3 & E4 & E5). rewrite aget_nat, Hx in E3. injection E3 as <-.
  rewrite <- aget_nat, slice_get, E1 in Hkey by lia. injection Hkey as <-. rewrite <- aget_nat, slice_get, E2 in Hj by lia. injection Hj as <-. by split.
Qed.

(** The view that is sorted, before it is sorted. *)
Lemma envelope_refers ks vs full ps r D : written keys ks r (sfcKey <$> D) -> written full vs r (seqZ r (zlen D)) -> zlen full = Z.max (zlen ordering) (r + zlen D) ->
  (forall i, i < zlen ordering -> full.[i] = ordering.[i]) -> written particles ps r D -> 0 <= r -> r + zlen D <= bsize o ->
  forall first n, r + zlen D = bstart o /\ first = r /\ n = zlen D + zlen own \/ r = bend o /\ first = bstart o /\ n = zlen D + zlen own ->
  first + n <= zlen ks /\ first + n <= zlen vs /\ let pairs := zip (slice ks first (first + n)) (slice vs first (first + n)) in
  (pairs = zip (sfcKey <$> D) (seqZ r (zlen D)) ++ zip (sfcKey <$> own) (slice ordering (bstart o) (bend o)) \/
   pairs = zip (sfcKey <$> own) (slice ordering (bstart o) (bend o)) ++ zip (sfcKey <$> D) (seqZ r (zlen D))) /\
  exists xs, xs ≡ₚ own ++ D /\ Forall2 (refers sfcKey (aget ps)) pairs xs.
Proof using Hready.
  intros [Kl Ki Ko] [Vl Vi Vo] Hfull Hf [Pl Pi Po] Hr Hn first n Hcase. destruct Hready as [Hrg Hzp Hzk Hzo Hz Hget _ _]. rewrite zlen_map in Ki, Ko. rewrite zlen_seqZ in Vi, Vo by apply zlen_nonneg.
  pose proof (zlen_nonneg D).
  assert (Hnew : forall i, 0 <= i < zlen D -> exists key j x, ks.[r + i] = Some key /\ vs.[r + i] = Some j /\ D.[i] = Some x /\ ps.[j] = Some x /\ sfcKey x = key).
  { intros i Hi. destruct (aget_is_Some D i Hi) as [x Hx]. exists (sfcKey x), (r + i), x. rewrite Ki, Vi, Pi, aget_map, Hx, aget_seqZ by lia. done. }
  assert (Hold : forall i, 0 <= i < zlen own -> exists key j x, ks.[bstart o + i] = Some key /\ vs.[bstart o + i] = Some j /\ own.[i] = Some x /\ ps.[j] = Some x /\ sfcKey x = key).
  { intros i Hi. destruct (Hget i Hi) as (j & x & E1 & Hj & E2 & E3 & E4). exists (sfcKey x), j, x. rewrite Ko, Vo, Po by lia. rewrite Hf by lia. done. }
  assert (Hsz : zlen own + zlen D = n) by lia. split; [lia|]. split; [lia|]. intros pairs.
  pose proof (refers_view (aget ps) ks vs r D Hr ltac:(lia) ltac:(lia) Hnew) as R1. pose proof (refers_view (aget ps) ks vs (bstart o) own ltac:(lia) ltac:(lia) ltac:(lia) Hold) as R2.
  rewrite (slice_eq ks (sfcKey <$> D) r) in R1 by (rewrite ?zlen_map; lia || done). rewrite (slice_eq vs (seqZ r (zlen D)) r) in R1 by (rewrite ?zlen_seqZ by lia; lia || done).
  assert (E1 : slice ks (bstart o) (bstart o + zlen own) = sfcKey <$> own).
  { apply slice_eq; rewrite ?zlen_map; try lia. intros i Hi. destruct (Hold i Hi) as (key & j & x & -> & _ & Hx & _ & <-). by rewrite aget_map, Hx. }
  assert (E2 : slice vs (bstart o) (bstart o + zlen own) = slice ordering (bstart o) (bend o)).
  { apply slice_eq; rewrite ?slice_zlen by lia; try lia. intros i Hi. rewrite slice_get by lia. rewrite Vo, Hf by lia. done. }
  assert (E3 : slice ks r (r + zlen D) = sfcKey <$> D) by (apply slice_eq; rewrite ?zlen_map; lia || done).
  assert (E4 : slice vs r (r + zlen D) = seqZ r (zlen D)) by (apply slice_eq; rewrite ?zlen_seqZ by lia; lia || done).
  assert (Hl : length (sfcKey <$> D) = length (seqZ r (zlen D))) by (rewrite length_fmap, length_seqZ; unfold zlen; lia).
  assert (Hl' : length (sfcKey <$> own) = length (slice ordering (bstart o) (bend o))) by (rewrite length_fmap; pose proof (slice_zlen ordering (bstart o) (bend o) ltac:(lia) ltac:(lia)) as Hso; unfold zlen in *; lia).
  rewrite E1, E2 in R2. unfold pairs. destruct Hcase as [(E & -> & En)|(E & -> & En)].
  - rewrite (slice_app ks r (r + zlen D)), (slice_app vs r (r + zlen D)), E3, E4 by lia. replace (r + n) with (bstart o + zlen own) by lia. rewrite E, E1, E2, zip_with_app by done.
    split; [by left|]. exists (D ++ own). split; [apply Permutation_app_comm|]. by apply Forall2_app.
  - rewrite (slice_app ks (bstart o) (bstart o + zlen own)), (slice_app vs (bstart o) (bstart o + zlen own)), E1, E2 by lia.
    replace (bstart o + zlen own) with r by lia. replace (bstart o + n) with (r + zlen D) by lia. rewrite E3, E4, zip_with_app by done.
    split; [by right|]. exists (own ++ D). split; [done|]. by apply Forall2_app.
Qed.

(** The assigned particles are a slice of the sorted view. *)
Lemma assigned_slice get ks vs xs D a b : zsorted ks -> Forall2 (refers sfcKey get) (zip ks vs) xs -> zlen ks = zlen vs -> xs ≡ₚ own ++ D -> a <= b ->
  Forall (fun x => a <= sfcKey x < b) D -> let c := count_lt a (sfcKey <$> own) in let e := count_lt b (sfcKey <$> own) + zlen D in
  0 <= c <= e /\ e <= zlen ks /\ exists assigned, slice ks c e = sfcKey <$> assigned /\ Forall2 (refers sfcKey get) (zip (slice ks c e) (slice vs c e)) assigned /\
    assigned ≡ₚ filter (fun x => a <= sfcKey x < b) own ++ D.
Proof using.
  intros Hs Hr Hz Hp Hab HD c e. assert (Hfst : fst <$> zip ks vs = ks) by (apply fst_zip; unfold zlen in Hz; lia).
  assert (Hkeys : sfcKey <$> xs = ks) by (rewrite <- Hfst; by eapply refers_keys).
  assert (Hcnt : forall v, count_lt v ks = count_lt v (sfcKey <$> own) + count_lt v (sfcKey <$> D)).
  { intros v. rewrite <- Hkeys, <- count_lt_app, <- fmap_app. apply count_lt_perm. by rewrite Hp. }
  assert (Hca : count_lt a ks = c) by (rewrite Hcnt, (count_lt_none a (sfcKey <$> D)); [lia|]; apply Forall_fmap; eapply Forall_impl; [exact HD|]; simpl; lia).
  assert (Hcb : count_lt b ks = e) by (rewrite Hcnt, (count_lt_all b (sfcKey <$> D)), zlen_map; [done|]; apply Forall_fmap; eapply Forall_impl; [exact HD|]; simpl; lia).
  pose proof (count_lt_range a ks). pose proof (count_lt_range b ks). pose proof (count_lt_mono a b ks Hab). rewrite Hca, Hcb in *. split; [lia|]. split; [lia|].
  exists (filter (fun x => a <= sfcKey x < b) xs). pose proof (refers_filter sfcKey get _ _ a b Hr) as Hf.
  rewrite <- (filter_sorted_slice fst (zip ks vs) a b) in Hf by (rewrite ?Hfst; done). rewrite Hfst, Hca, Hcb, slice_zip in Hf. split; [|split; [exact Hf|]].
  - rewrite (refers_keys sfcKey get _ _ Hf). symmetry. apply fst_zip. pose proof (slice_zlen ks c e ltac:(lia) ltac:(lia)). pose proof (slice_zlen vs c e ltac:(lia) ltac:(lia)). unfold zlen in *. lia.
  - rewrite Hp, filter_app. by rewrite (filter_all _ D HD).
Qed.

(** A view of sorted references gives the elements in this order. *)
Lemma refers_inOrder (ps : list P) ks vs x y xs : 0 <= x <= y -> y <= zlen ks -> y <= zlen vs ->
  Forall2 (refers sfcKey (aget ps)) (zip (slice ks x y) (slice vs x y)) xs -> inOrder (drop (Z.to_nat x) vs) ps xs.
Proof using.
  intros Hx Hk Hv Hr. pose proof (slice_zlen ks x y Hx Hk) as H1. pose proof (slice_zlen vs x y Hx Hv) as H2.
  pose proof (Forall2_length _ _ _ Hr) as Hl. rewrite length_zip in Hl. split; [unfold zlen in *; rewrite length_drop; lia|]. intros i Hi.
  rewrite Forall2_same_length_lookup in Hr. destruct Hr as [_ Hr]. destruct (aget_is_Some xs i Hi) as [e He]. rewrite He. rewrite aget_lookup in He by lia.
  destruct (aget_is_Some (slice ks x y) i) as [key Hkey]; [unfold zlen in *; lia|]. destruct (aget_is_Some (slice vs x y) i) as [j Hj]; [unfold zlen in *; lia|].
  destruct (Hr (Z.to_nat i) (key, j) e) as [Hg _]; [|exact He|].
  - apply lookup_zip_with_Some. exists key, j. rewrite <- !aget_lookup by lia. done.
  - rewrite slice_get in Hj by (unfold zlen in *; lia). rewrite aget_lookup, lookup_drop by lia. rewrite aget_lookup in Hj by lia.
    replace (Z.to_nat x + Z.to_nat i)%nat with (Z.to_nat (x + i)) by lia. by rewrite Hj.
Qed.

(** The ordering of the particles that are sent to other ranks is kept: the particles below the assigned ones
    come first, those above come after the received ones. *)
Definition orderingKept (ca cb n first : Z) (ordering' : list Z) : Prop :=
  forall i, 0 <= i < zlen own -> (i < ca -> ordering'.[first + i] = ordering.[bstart o + i]) /\ (cb <= i -> ordering'.[first + n + i] = ordering.[bstart o + i]).

Lemma stable_sort_keys l : zsorted (fst <$> stable_sort l).
Proof using.
  apply StronglySorted_zsorted. pose proof (stable_sort_sorted l) as Hs. induction Hs as [|p l' Hs IH Hf]; simpl; constructor; [done|]. apply Forall_fmap. eapply Forall_impl; [exact Hf|]. done.
Qed.

Lemma sorted_kept a b D r pairs sorted first size ordering' : a <= b -> Forall (fun x => a <= sfcKey x < b) D ->
  (pairs = zip (sfcKey <$> D) (seqZ r (zlen D)) ++ zip (sfcKey <$> own) (slice ordering (bstart o) (bend o)) \/
   pairs = zip (sfcKey <$> own) (slice ordering (bstart o) (bend o)) ++ zip (sfcKey <$> D) (seqZ r (zlen D))) ->
  sorted = stable_sort pairs -> 0 <= first -> slice ordering' first (first + size) = snd <$> sorted -> size = zlen D + zlen own -> first + size <= zlen ordering' ->
  orderingKept (count_lt a (sfcKey <$> own)) (count_lt b (sfcKey <$> own)) (zlen D) first ordering'.
Proof using Hready.
  intros Hab HD Hmixed -> H0 Eo Hsize Hle. destruct Hready as [Hrg _ _ Hzo Hz _ Hsort _]. pose proof (zlen_nonneg D).
  set (O := zip (sfcKey <$> own) (slice ordering (bstart o) (bend o))) in *. pose proof (slice_zlen ordering (bstart o) (bend o) ltac:(lia) ltac:(lia)) as Hso.
  assert (Hfst : fst <$> O = sfcKey <$> own) by (apply fst_zip; rewrite length_fmap; unfold zlen in *; lia).
  assert (Hsnd : snd <$> O = slice ordering (bstart o) (bend o)) by (apply snd_zip; rewrite length_fmap; unfold zlen in *; lia).
  assert (HO : StronglySorted key_le O) by (apply zsorted_pairs; by rewrite Hfst).
  assert (HN : Forall (fun e => a <= e.1 < b) (zip (sfcKey <$> D) (seqZ r (zlen D)))).
  { apply Forall_forall. intros [key j] (i & Hi)%list_elem_of_lookup. apply lookup_zip_with_Some in Hi as (key' & j' & E & Hkey & _). injection E as <- <-.
    rewrite list_lookup_fmap in Hkey. destruct (D !! i) as [x|] eqn:Ex; [|done]. injection Hkey as <-. rewrite Forall_forall in HD. by apply HD, (list_elem_of_lookup_2 _ i). }
  destruct (stable_sort_blocks O _ pairs a b Hab Hmixed HO HN) as (mid & Es). pose proof (sorted_three O a b Hab HO) as EO.
  set (lo := filter (fun e => e.1 < a) O) in *. set (hi := filter (fun e => b <= e.1) O) in *. set (om := filter (fun e => a <= e.1 < b) O) in *.
  assert (Hcount : forall v, count_lt v (sfcKey <$> own) = zlen (filter (fun e => e.1 < v) O)).
  { intros v. rewrite <- Hfst. unfold count_lt. clear. induction O as [|e O IH]; [done|]. rewrite fmap_cons, !filter_cons. destruct (decide (e.1 < v)); [rewrite !zlen_cons; by rewrite IH|done]. }
  assert (Hlo : count_lt a (sfcKey <$> own) = zlen lo) by by rewrite Hcount.
  assert (HzO : zlen O = zlen own) by (rewrite <- (zlen_map fst), Hfst; apply zlen_map).
  assert (Hhi : count_lt b (sfcKey <$> own) = zlen O - zlen hi).
  { rewrite Hcount. unfold hi, zlen. rewrite <- (Permutation_length (filter_app_complement (fun e : Z * Z => e.1 < b) O)) at 1. rewrite length_app.
    rewrite (list_filter_iff (fun x : Z * Z => ~ x.1 < b) (fun e => b <= e.1)) by (intros e; lia). lia. }
  assert (Hzs : zlen (stable_sort pairs) = size) by (rewrite <- (zlen_map snd), <- Eo, slice_zlen; lia). rewrite Es in Eo, Hzs. rewrite !zlen_app in Hzs.
  assert (Hget : forall i, 0 <= i < zlen own -> (snd <$> O).[i] = ordering.[bstart o + i]) by (intros i Hi; rewrite Hsnd, slice_get by lia; done).
  assert (Hget' : forall i, 0 <= i < size -> ordering'.[first + i] = (snd <$> (lo ++ mid ++ hi)).[i]) by (intros i Hi; rewrite <- Eo, slice_get by lia; done).
  assert (HzL : zlen O = zlen lo + (zlen om + zlen hi)) by (rewrite EO at 1; by rewrite !zlen_app). clearbody lo om hi. pose proof (zlen_nonneg om). pose proof (zlen_nonneg mid). intros i Hi. rewrite <- Hget by done. split; intros Hcut.
  - rewrite Hget' by lia. rewrite EO, !aget_map, !aget_app_l by lia. done.
  - rewrite <- Z.add_assoc, Hget' by lia. rewrite EO, !aget_map, !aget_app_r by lia. do 2 f_equal. lia.
Qed.

(** Positions of present or received particles. *)
Definition inEnvelope (r n j : Z) : Prop := bstart o <= j < bend o \/ r <= j < r + n.

Lemma sorted_positions D r pairs : 
  (pairs = zip (sfcKey <$> D) (seqZ r (zlen D)) ++ zip (sfcKey <$> own) (slice ordering (bstart o) (bend o)) \/
   pairs = zip (sfcKey <$> own) (slice ordering (bstart o) (bend o)) ++ zip (sfcKey <$> D) (seqZ r (zlen D))) ->
  Forall (inEnvelope r (zlen D)) (snd <$> stable_sort pairs).
Proof using Hready.
  intros Hm. rewrite (stable_sort_perm pairs). apply Forall_fmap. destruct Hready as [Hrg _ _ Hzo Hz Hget _ _].
  assert (H1 : Forall (inEnvelope r (zlen D) ∘ snd) (zip (sfcKey <$> D) (seqZ r (zlen D)))).
  { apply Forall_forall. intros [key j] (i & Hi)%list_elem_of_lookup. apply lookup_zip_with_Some in Hi as (key' & j' & E & _ & Hj). injection E as <- <-. apply lookup_seqZ in Hj. right. simpl. lia. }
  assert (H2 : Forall (inEnvelope r (zlen D) ∘ snd) (zip (sfcKey <$> own) (slice ordering (bstart o) (bend o)))).
  { apply Forall_forall. intros [key j] (i & Hi)%list_elem_of_lookup. apply lookup_zip_with_Some in Hi as (key' & j' & E & Hk & Hj). injection E as <- <-.
    apply lookup_lt_Some in Hk. rewrite length_fmap in Hk. rewrite <- aget_nat, slice_get in Hj by (unfold zlen in Hz; lia).
    destruct (Hget (Z.of_nat i)) as (j' & x & E & Hj' & _); [unfold zlen; lia|]. rewrite E in Hj. injection Hj as <-. left. simpl. lia. }
  destruct Hm as [->| ->]; by apply Forall_app.
Qed.

Lemma distribute_rank sizes exchanges myRank a b arrivals sent : let ks := sfcKey <$> own in let n := zlen (arrivedData arrivals) in
  let numAssigned := count_lt b ks - count_lt a ks + n in
  a <= b -> exchanges.[myRank] = Some (count_lt a ks) -> exchanges.[myRank + 1] = Some (count_lt b ks) ->
  sendMessages sizes exchanges myRank (drop (Z.to_nat (bstart o)) ordering) particles = Some sent ->
  Forall (fun e => wellFormed e.2) arrivals -> Forall (fun x => a <= sfcKey x < b) (arrivedData arrivals) ->
  numAssigned < 4294967296 -> n <= bstart o \/ n <= bsize o - bend o ->
  exists d assigned, distribute k sfcKey myRank numAssigned exchanges o sizes arrivals ordering keys particles = Some d /\
    d_sent d = sent /\ d_rest d = [] /\ d_keyView d = sfcKey <$> assigned /\ zsorted (d_keyView d) /\
    assigned ≡ₚ filter (fun x => a <= sfcKey x < b) own ++ arrivedData arrivals /\
    inOrder (drop (Z.to_nat (d_start d + count_lt a ks)) (d_ordering d)) (d_particles d) assigned /\
    (exists r, receiveStart o n = Some r /\ d_recvLog d = arrivalLog arrivals r /\ written particles (d_particles d) r (arrivedData arrivals) /\ (r + n = bstart o \/ r = bend o) /\ 0 <= r /\ r + n <= bsize o /\
      Forall (inEnvelope r n) (slice (d_ordering d) (d_start d) (d_start d + (n + zlen own))) /\ d_start d + (n + zlen own) <= zlen (d_ordering d) /\ d_start d = Z.min r (bstart o)) /\
    orderingKept (count_lt a ks) (count_lt b ks) n (d_start d) (d_ordering d) /\
    forall Q : Z -> Prop, Forall Q keys -> Forall (fun x => Q (sfcKey x)) (arrivedData arrivals) -> Forall Q (d_keys d).
Proof using Hready.
  intros ks n numAssigned Hab Ea Eb Hsent Hw HD Hlt Hfit. destruct (rd_range _ _ _ _ _ _ _ Hready) as [Hr1 Hr2].
  pose proof (rd_own _ _ _ _ _ _ _ Hready) as Hz. pose proof (zlen_nonneg (arrivedData arrivals)) as Hn0. fold n in Hn0.
  pose proof (count_lt_mono a b ks Hab). pose proof (count_lt_range a ks). pose proof (count_lt_range b ks).
  assert (Hks : zlen ks = zlen own) by apply zlen_map.
  unfold distribute, sendCount. rewrite Ea, Eb. cbn beta iota. destruct (Z.leb_spec (count_lt a ks) (count_lt b ks)); [|lia].
  rewrite (u32_small (count_lt b ks - count_lt a ks)) by lia. replace (numAssigned - (count_lt b ks - count_lt a ks)) with n by lia. rewrite (u32_small n) by lia.
  destruct (placement o n Hr1 Hr2 Hn0 Hfit) as (r & -> & Hr0 & Hrn & Henv). cbn beta iota. rewrite (u32_small (r + n)) by lia.
  unfold exchangeParticles. rewrite Hsent. cbn beta iota. rewrite bool_decide_true by done.
  destruct (receiveLoop_written arrivals r (r + n) particles Hw Hr0 eq_refl) as (ps & -> & Hps); [rewrite (rd_particles _ _ _ _ _ _ _ Hready); lia|lia|]. cbn beta iota.
  destruct (computeParticleKeys_written k sfcKey r (arrivedData arrivals) ps keys Hr0) as (keys1 & Ek & Hkeys1); [rewrite (rd_keys _ _ _ _ _ _ _ Hready); fold n; lia|fold n; intros i Hi; apply (rd_kept _ _ _ _ _ _ _ Hready); lia|by apply Hps|].
  destruct (sequence_written r n ordering Hr0 Hn0 ltac:(lia)) as (ord1 & full & Es & Hord1 & Hfull & Hf).
  set (first := (assignedEnvelope o n).1). set (size := n + zlen own).
  assert (Hcase : r + n = bstart o /\ first = r /\ size = n + zlen own \/ r = bend o /\ first = bstart o /\ size = n + zlen own).
  { unfold first. destruct Henv as [[? ->]|[? ->]]; [left|right]; done. }
  assert (Eenv : assignedEnvelope o n = (first, first + size)).
  { unfold first, size. destruct Henv as [[? ->]|[? ->]]; cbn [fst]; f_equal; lia. }
  fold n in Ek. rewrite Eenv, Ek. cbn beta iota. rewrite Es. cbn beta iota. rewrite (u32_small (first + size - first)) by lia. replace (first + size - first) with size by lia.
  destruct (envelope_refers keys1 ord1 full ps r (arrivedData arrivals) Hkeys1 Hord1 Hfull Hf Hps Hr0 Hrn first size Hcase) as (Hk1 & Hk2 & Hmixed & xs & Hxs & Href).
  destruct (sortByKey_run sfcKey (aget ps) first size keys1 ord1 xs ltac:(lia) ltac:(lia) Hk1 Hk2 Href) as (keys2 & ord2 & xs' & -> & Hz1 & Hz2 & Ek2 & Eo2 & Hperm & Href' & Hko). cbn beta iota.
  rewrite subspan_run by lia. cbn beta iota. assert (Hxs' : xs' ≡ₚ own ++ arrivedData arrivals) by (by rewrite <- Hperm).
  pose proof (slice_zlen keys2 first (first + size) ltac:(lia) ltac:(lia)) as Hs1. pose proof (slice_zlen ord2 first (first + size) ltac:(lia) ltac:(lia)) as Hs2.
  set (sorted := stable_sort _) in *. rewrite <- (zip_fst_snd sorted), <- Ek2, <- Eo2 in Href'.
  assert (Hsort : zsorted (slice keys2 first (first + size))) by (rewrite Ek2; apply stable_sort_keys).
  destruct (assigned_slice (aget ps) _ _ xs' (arrivedData arrivals) a b Hsort Href' ltac:(lia) Hxs' Hab HD) as (Hc & He & assigned & Ev & Hra & Hpa).
  fold ks n in Hc, He, Ev, Hra, Hpa. rewrite subspan_run by lia. replace (count_lt a ks + numAssigned) with (count_lt b ks + n) by lia.
  eexists _, assigned. split; [done|]. cbn [d_sent d_rest d_keyView d_start d_ordering d_particles d_recvLog d_keys]. split; [done|]. split; [done|]. split; [exact Ev|]. split; [by apply sorted_slice; [|lia]|].
  split; [exact Hpa|]. split; [rewrite !slice_slice in Hra by lia; by eapply refers_inOrder; [| | |exact Hra]; lia|]. split; [|split].
  - exists r. split; [done|]. split; [done|]. split; [done|]. split; [destruct Hcase as [(? & _)|(? & _)]; [by left|by right]|]. split; [done|]. split; [done|]. fold size. split; [rewrite Eo2; by apply sorted_positions|]. split; lia.
  - eapply (sorted_kept a b (arrivedData arrivals) r _ sorted first size ord2); try done; fold ks n; lia.
  - intros Q HQ HQD. apply (sort_Forall Q first size keys1 keys2 ord1 ltac:(lia) Ek2 Hko). apply (written_Forall Q keys keys1 r (sfcKey <$> arrivedData arrivals) HQ); [by apply Forall_fmap|done].
Qed.

End Rank.

(** ** All ranks *)

Section Sends.
Context {P : Type} (ordering : list Z) (particles own : list P) (sends sizes : list Z).
Hypothesis Hown : inOrder ordering particles own.
Hypothesis Hfit : 1 <= maxMessage sizes.
Hypothesis Hsends : zsorted sends.
Hypothesis Hranges : Forall (fun x => 0 <= x <= zlen own) sends.
Hypothesis Hsize : zlen own < 4294967296.

(** What rank [me] sends to rank [q]. *)
Definition sentData (me q : Z) : list P := if decide (q = me) then [] else slice own (nthz sends q) (nthz sends (q + 1)).

Lemma sendTo_run me q : 0 <= q < numRanks sends ->
  exists msgs, sendTo sizes sends me ordering particles q = Some msgs /\ Forall wellFormed msgs /\ concat (msgData <$> msgs) = sentData me q /\
    (zlen (sentData me q) <= maxMessage sizes -> (length msgs <= 1)%nat).
Proof using All.
  intros Hq. unfold numRanks in Hq. unfold sendTo, sendCount. pose proof (nthz_get sends q ltac:(lia)) as Ea. pose proof (nthz_get sends (q + 1) ltac:(lia)) as Eb. rewrite Ea, Eb. cbn beta iota.
  pose proof (Hsends q (q + 1) _ _ ltac:(lia) Ea Eb) as Hab. rewrite Forall_forall in Hranges. pose proof (Hranges _ (aget_elem _ _ _ Ea)) as Ha. pose proof (Hranges _ (aget_elem _ _ _ Eb)) as Hb.
  destruct (Z.leb_spec (nthz sends q) (nthz sends (q + 1))); [|lia]. rewrite u32_small by lia. unfold sentData. destruct (decide (q = me)) as [->|Hne].
  { rewrite Z.eqb_refl. cbn [orb]. exists []. repeat split; [by apply Forall_nil|simpl; lia]. }
  destruct (Z.eqb_spec q me) as [|_]; [done|]. cbn [orb]. destruct (Z.eqb_spec (nthz sends (q + 1) - nthz sends q) 0) as [E0|Hpos].
  { exists []. split; [done|]. split; [by apply Forall_nil|]. replace (nthz sends (q + 1)) with (nthz sends q) by lia. rewrite slice_empty. split; [done|simpl; lia]. }
  destruct (sendLoop_run ordering particles own (nthz sends q) (nthz sends (q + 1) - nthz sends q) (maxMessage sizes) Hown Hfit ltac:(lia) ltac:(lia)
    (S (Z.to_nat (nthz sends (q + 1) - nthz sends q))) 0 ltac:(lia) ltac:(lia)) as (msgs & -> & Hw & Hcat & Hone).
  exists msgs. split; [done|]. split; [done|]. rewrite Z.add_0_r in Hcat. replace (nthz sends q + (nthz sends (q + 1) - nthz sends q)) with (nthz sends (q + 1)) in Hcat by lia.
  split; [done|]. rewrite slice_zlen by lia. intros Hle. apply Hone. lia.
Qed.

Lemma sendMessages_run me : 0 <= numRanks sends -> exists sent, sendMessages sizes sends me ordering particles = Some sent /\ zlen sent = numRanks sends /\
  forall q, 0 <= q < numRanks sends -> exists msgs, sent.[q] = Some msgs /\ Forall wellFormed msgs /\ concat (msgData <$> msgs) = sentData me q /\
    (zlen (sentData me q) <= maxMessage sizes -> (length msgs <= 1)%nat).
Proof using All.
  intros Hn. unfold sendMessages, mapM_range. rewrite Z.sub_0_r.
  destruct (mapM_exists (sendTo sizes sends me ordering particles) (fun q msgs => Forall wellFormed msgs /\ concat (msgData <$> msgs) = sentData me q /\
    (zlen (sentData me q) <= maxMessage sizes -> (length msgs <= 1)%nat)) (seqZ 0 (numRanks sends))) as (sent & -> & Hs).
  { intros q Hq%elem_of_seqZ. destruct (sendTo_run me q ltac:(lia)) as (msgs & E & Hrest). by exists msgs. }
  exists sent. split; [done|]. pose proof (Forall2_length _ _ _ Hs) as Hl. rewrite length_seqZ in Hl. split; [unfold zlen; lia|]. intros q Hq.
  destruct (aget_is_Some sent q) as [msgs Hm]; [unfold zlen; lia|]. exists msgs. split; [done|]. rewrite Forall2_same_length_lookup in Hs. destruct Hs as [_ Hs].
  apply (Hs (Z.to_nat q) q msgs); [rewrite lookup_seqZ; lia|]. by rewrite <- aget_lookup by lia.
Qed.

End Sends.

Lemma filter_bind {A B} (Q : B -> Prop) `{forall x, Decision (Q x)} (f : A -> list B) l : filter Q (l ≫= f) = l ≫= (fun x => filter Q (f x)).
Proof. induction l as [|x l IH]; [done|]. rewrite !bind_cons, filter_app. by rewrite IH. Qed.

Lemma bind_extract {A} (f : Z -> list A) l p : NoDup l -> p ∈ l -> l ≫= f ≡ₚ f p ++ (l ≫= fun q => if decide (q = p) then [] else f q).
Proof.
  intros Hnd Hp. induction l as [|q l IH]; [by apply not_elem_of_nil in Hp|]. apply NoDup_cons in Hnd as [Hq Hnd]. rewrite !bind_cons. destruct (decide (q = p)) as [->|Hne].
  - cbn [app]. f_equiv. apply reflexive_eq. apply Forall_bind_ext, Forall_forall. intros r Hr. rewrite decide_False; [done|]. by intros ->.
  - apply elem_of_cons in Hp as [->|Hp]; [done|]. rewrite (IH Hnd Hp), !app_assoc. f_equiv. apply Permutation_app_comm.
Qed.

(** The messages that a rank sends to [p]. *)
Definition messagesTo {P} (p : Z) (sent : list (list (Message P))) : list (Message P) := default [] (sent.[p]).

(** The messages for the send ranges of an assignment. *)
Lemma sendsOf_messages {Q} k s sizes ks me ordering (ps xs : list Q) : validAssignment k s -> 1 <= maxMessage sizes -> inOrder ordering ps xs -> zlen ks = zlen xs -> zlen ks < 4294967296 ->
  exists sent, sendMessages sizes (sendsOf s ks) me ordering ps = Some sent /\
  forall q, 0 <= q < assignmentRanks s -> Forall wellFormed (messagesTo q sent) /\ concat (msgData <$> messagesTo q sent) = sentData xs (sendsOf s ks) me q /\
    (zlen (sentData xs (sendsOf s ks) me q) <= maxMessage sizes -> (length (messagesTo q sent) <= 1)%nat).
Proof.
  intros Hs Hfit Ho Hlen Hlt. pose proof (va_ranks _ _ Hs). assert (Hz : zlen (sendsOf s ks) = assignmentRanks s + 1) by (unfold sendsOf; rewrite zlen_map, zlen_seqZ; lia).
  destruct (sendMessages_run ordering ps xs (sendsOf s ks) sizes Ho Hfit) with (me := me) as (sent & E & Hzs & Hq).
  - intros i j x y Hij Hx Hy. pose proof (aget_Some_range _ _ _ Hx). pose proof (aget_Some_range _ _ _ Hy).
    rewrite sendsOf_get in Hx, Hy by lia. injection Hx as <-. injection Hy as <-. apply count_lt_mono, (boundary_mono k s Hs); lia.
  - unfold sendsOf. apply Forall_fmap, Forall_forall. intros r Hr. simpl. rewrite <- Hlen. apply count_lt_range.
  - lia.
  - unfold numRanks. lia.
  - exists sent. split; [done|]. intros q Hq'. unfold numRanks in Hq. destruct (Hq q ltac:(lia)) as (msgs & Em & Hrest). unfold messagesTo. by rewrite Em.
Qed.

Section World.
Context {P : Type} (sfcKey : P -> Z) (k : KeyType) (s : SfcAssignment) (sizes : list Z).
Context (o : Z -> BufferDescription) (ordering keys sends : Z -> list Z) (particles own : Z -> list P).
Hypothesis Hs : validAssignment k s.
Hypothesis Hfit : 1 <= maxMessage sizes.
Hypothesis Hready : forall p, 0 <= p < assignmentRanks s -> ready k sfcKey (o p) (ordering p) (keys p) (particles p) (own p).
Hypothesis Hsends : forall p, 0 <= p < assignmentRanks s -> createSendRanges s (sfcKey <$> own p) = Some (sends p).

Local Abbreviation n := (assignmentRanks s).
Local Abbreviation B := (nthz (rankBoundaries_ s)).
Local Abbreviation ks p := (sfcKey <$> own p).
Local Abbreviation inRange p := (fun x => B p <= sfcKey x < B (p + 1)).

Lemma sends_eq p : 0 <= p < n -> zlen (ks p) < 4294967296 /\ zsorted (ks p) /\ sends p = sendsOf s (ks p).
Proof using Hs Hready Hsends.
  intros Hp. destruct (Hready p Hp) as [Hr1 _ _ _ Hz _ Hsort]. assert (Hlt : zlen (ks p) < 4294967296) by (rewrite zlen_map; lia). split; [done|]. split; [done|].
  specialize (Hsends p Hp). rewrite (createSendRanges_run k s Hs _ Hsort Hlt) in Hsends. by injection Hsends as <-.
Qed.

(** What rank [q] sends to rank [p]. *)
Lemma sentData_filter p q : 0 <= p < n -> 0 <= q < n -> sentData (own q) (sends q) q p = if decide (q = p) then [] else filter (inRange p) (own q).
Proof using Hs Hready Hsends.
  intros Hp Hq. destruct (sends_eq q Hq) as (_ & Hsort & ->). unfold sentData. destruct (decide (p = q)) as [->|Hne]; [by rewrite decide_True|]. rewrite decide_False by done.
  rewrite (nthz_Some _ _ _ (sendsOf_get s (ks q) p ltac:(lia))), (nthz_Some _ _ _ (sendsOf_get s (ks q) (p + 1) ltac:(lia))).
  apply filter_sorted_slice; [done|]. apply (boundary_mono k s Hs); lia.
Qed.

Lemma world_sends p : 0 <= p < n -> exists sent, sendMessages sizes (sends p) p (drop (Z.to_nat (bstart (o p))) (ordering p)) (particles p) = Some sent /\
  forall q, 0 <= q < n -> Forall wellFormed (messagesTo q sent) /\ concat (msgData <$> messagesTo q sent) = sentData (own p) (sends p) p q /\
    (zlen (sentData (own p) (sends p) p q) <= maxMessage sizes -> (length (messagesTo q sent) <= 1)%nat).
Proof using Hs Hfit Hready Hsends.
  intros Hp. destruct (sends_eq p Hp) as (Hlt & Hsort & ->). apply (sendsOf_messages k); [done|done|by eapply ready_inOrder, Hready|by rewrite zlen_map|done].
Qed.

(** The particles of rank [p] on all ranks. *)
Definition assignedTo (p : Z) : list P := filter (fun x => findRank s (sfcKey x) = Some p) (seqZ 0 n ≫= own).

Lemma assignedTo_split p : 0 <= p < n -> assignedTo p ≡ₚ filter (inRange p) (own p) ++ (seqZ 0 n ≫= fun q => sentData (own q) (sends q) q p).
Proof using Hs Hready Hsends.
  intros Hp. unfold assignedTo. rewrite (list_filter_iff _ (inRange p)) by (intros x; by apply (findRank_iff k s Hs)). rewrite filter_bind.
  rewrite (bind_extract _ (seqZ 0 n) p (NoDup_seqZ 0 n)) by (apply elem_of_seqZ; lia). f_equiv. apply reflexive_eq. apply Forall_bind_ext, Forall_forall. intros q Hq%elem_of_seqZ.
  by rewrite sentData_filter by lia.
Qed.

Section Arrive.
Context (sent : Z -> list (list (Message P))).
Hypothesis Hsent : forall q, 0 <= q < n -> sendMessages sizes (sends q) q (drop (Z.to_nat (bstart (o q))) (ordering q)) (particles q) = Some (sent q).

Lemma sent_to p q : 0 <= p < n -> 0 <= q < n -> Forall wellFormed (messagesTo p (sent q)) /\ concat (msgData <$> messagesTo p (sent q)) = sentData (own q) (sends q) q p /\
  (zlen (sentData (own q) (sends q) q p) <= maxMessage sizes -> (length (messagesTo p (sent q)) <= 1)%nat).
Proof using All.
  intros Hp Hq. destruct (world_sends q Hq) as (sent' & E & Hr). rewrite (Hsent q Hq) in E. injection E as <-. by apply Hr.
Qed.

Context (p : Z) (arrivals : list (Z * Message P)).
Hypothesis Hp : 0 <= p < n.
Hypothesis Harr : interleaves (fun q => messagesTo p (sent q)) (seqZ 0 n) arrivals.

Lemma arrivals_wellFormed : Forall (fun e => wellFormed e.2) arrivals.
Proof using All.
  destruct Harr as [Hin Hq]. rewrite Forall_forall in Hin. apply Forall_forall. intros [q m] He. pose proof (Hin _ He) as Hr. cbn [fst] in Hr. pose proof Hr as Hr'%elem_of_seqZ.
  destruct (sent_to p q Hp ltac:(lia)) as (Hw & _ & _). rewrite Forall_forall in Hw. apply Hw. rewrite <- (Hq q Hr). apply list_elem_of_fmap. exists (q, m). split; [done|]. by apply list_elem_of_filter.
Qed.

Lemma arrivals_data : arrivedData arrivals ≡ₚ seqZ 0 n ≫= fun q => sentData (own q) (sends q) q p.
Proof using All.
  rewrite (interleaves_perm _ _ _ (NoDup_seqZ 0 n) Harr). apply reflexive_eq. apply Forall_bind_ext, Forall_forall. intros q Hq%elem_of_seqZ.
  destruct (sent_to p q Hp ltac:(lia)) as (_ & E & _). exact E.
Qed.

Lemma world_distribute numAssigned : numAssigned = zlen (assignedTo p) -> numAssigned < 4294967296 ->
  exchangeBufferSize (o p) (nthz (sends p) (p + 1) - nthz (sends p) p) numAssigned = bsize (o p) ->
  exists d assigned, distribute k sfcKey p numAssigned (sends p) (o p) sizes arrivals (ordering p) (keys p) (particles p) = Some d /\
    d_sent d = sent p /\ d_rest d = [] /\ d_keyView d = sfcKey <$> assigned /\ zsorted (d_keyView d) /\ assigned ≡ₚ assignedTo p /\
    inOrder (drop (Z.to_nat (d_start d + nthz (sends p) p)) (d_ordering d)) (d_particles d) assigned /\
    numAssigned - (nthz (sends p) (p + 1) - nthz (sends p) p) = zlen (arrivedData arrivals) /\
    (exists r, receiveStart (o p) (zlen (arrivedData arrivals)) = Some r /\ d_recvLog d = arrivalLog arrivals r /\ written (particles p) (d_particles d) r (arrivedData arrivals) /\
      (r + zlen (arrivedData arrivals) = bstart (o p) \/ r = bend (o p)) /\ 0 <= r /\ r + zlen (arrivedData arrivals) <= bsize (o p) /\
      Forall (inEnvelope (o p) r (zlen (arrivedData arrivals))) (slice (d_ordering d) (d_start d) (d_start d + (zlen (arrivedData arrivals) + zlen (own p)))) /\
      d_start d + (zlen (arrivedData arrivals) + zlen (own p)) <= zlen (d_ordering d) /\ d_start d = Z.min r (bstart (o p))) /\
    orderingKept (o p) (ordering p) (own p) (nthz (sends p) p) (nthz (sends p) (p + 1)) (zlen (arrivedData arrivals)) (d_start d) (d_ordering d) /\
    forall Q : Z -> Prop, Forall Q (keys p) -> Forall (fun x => Q (sfcKey x)) (seqZ 0 n ≫= own) -> Forall Q (d_keys d).
Proof using All.
  intros Hc Hlt Hsz. destruct (sends_eq p Hp) as (Hl & Hsort & Es). pose proof (assignedTo_split p Hp) as Hsplit. rewrite <- arrivals_data in Hsplit.
  pose proof (sendsOf_get s (ks p) p ltac:(lia)) as E1. pose proof (sendsOf_get s (ks p) (p + 1) ltac:(lia)) as E2. rewrite <- Es in E1, E2.
  pose proof (boundary_mono k s Hs p (p + 1) ltac:(lia) ltac:(lia)) as Hab. rewrite (nthz_Some _ _ _ E1), (nthz_Some _ _ _ E2) in *.
  assert (Hown : zlen (filter (inRange p) (own p)) = count_lt (B (p + 1)) (ks p) - count_lt (B p) (ks p)).
  { rewrite <- (filter_sorted_slice sfcKey (own p) _ _ Hsort Hab). rewrite slice_zlen; [done|split; [apply count_lt_range|by apply count_lt_mono]|]. rewrite <- (zlen_map sfcKey). apply count_lt_range. }
  assert (Hnum : numAssigned = count_lt (B (p + 1)) (ks p) - count_lt (B p) (ks p) + zlen (arrivedData arrivals)).
  { rewrite Hc, <- Hown, <- zlen_app. unfold zlen. by rewrite Hsplit. }
  assert (HD : Forall (inRange p) (arrivedData arrivals)).
  { rewrite arrivals_data. apply Forall_forall. intros x (q & Hx & Hq%elem_of_seqZ)%list_elem_of_bind. rewrite sentData_filter in Hx by lia.
    destruct (decide (q = p)); [by apply not_elem_of_nil in Hx|]. by apply list_elem_of_filter in Hx as [? _]. }
  destruct (rd_range _ _ _ _ _ _ _ (Hready p Hp)) as [Hr1 Hr2]. pose proof (count_lt_mono _ _ (ks p) Hab). pose proof (zlen_nonneg (arrivedData arrivals)). pose proof (count_lt_range (B p) (ks p)).
  destruct (distribute_rank k sfcKey (o p) (ordering p) (keys p) (particles p) (own p) (Hready p Hp) sizes (sends p) p (B p) (B (p + 1)) arrivals (sent p) Hab E1 E2 (Hsent p Hp)
    arrivals_wellFormed HD ltac:(lia)) as (d & assigned & Ed & Hd1 & Hd2 & Hd3 & Hd4 & Hd5 & Hd6 & Hd7 & Hd8 & Hd9).
  - by apply (size_fits (o p) (count_lt (B (p + 1)) (ks p) - count_lt (B p) (ks p)) numAssigned) in Hsz; [|lia..]; lia.
  - exists d, assigned. rewrite Hnum. do 5 (split; [done|]). split; [by rewrite Hd5, Hsplit|]. split; [done|]. split; [lia|]. split; [done|]. split; [done|]. intros Q HQ HQall. apply Hd9; [done|]. rewrite arrivals_data. rewrite Forall_forall in HQall |- *.
    intros x (q & Hx & Hq%elem_of_seqZ)%list_elem_of_bind. apply HQall, list_elem_of_bind. exists q. rewrite sentData_filter in Hx by lia. destruct (decide (q = p)); [by apply not_elem_of_nil in Hx|]. apply list_elem_of_filter in Hx as [_ ?]. split; [done|]. apply elem_of_seqZ. lia.
Qed.

End Arrive.

End World.

(** ** The assigned range *)

(** The keys of the assigned range in ascending order, and the positions of their particles. *)
Lemma assignKeys_run {P} k (sfcKey : P -> Z) o particles keys ordering :
  0 <= bstart o <= bend o -> bend o <= bsize o < 4294967296 -> zlen particles = bsize o -> zlen keys = bsize o -> Forall (fun key => key <> removeKey k) keys ->
  exists keys' ordering' own, assignKeys k sfcKey o particles keys ordering = Some (keys', ordering') /\
    ready k sfcKey o ordering' keys' particles own /\ own ≡ₚ slice particles (bstart o) (bend o) /\ slice ordering' (bstart o) (bend o) ≡ₚ seqZ (bstart o) (bend o - bstart o).
Proof.
  intros Hs He Hzp Hzk Hkept. rewrite Forall_forall in Hkept. assert (Hkept' : forall i, 0 <= i < bsize o -> nthz keys i <> removeKey k) by (intros i Hi; apply Hkept, (aget_elem _ i), nthz_get; lia). unfold assignKeys. rewrite (u32_small (bend o - bstart o)) by lia. set (n := bend o - bstart o). set (D := slice particles (bstart o) (bend o)).
  assert (HzD : zlen D = n) by (apply slice_zlen; lia). assert (HD : forall i, 0 <= i < zlen D -> particles.[bstart o + i] = D.[i]) by (intros i Hi; unfold D; rewrite slice_get; [done|lia|lia]).
  destruct (computeParticleKeys_written k sfcKey (bstart o) D particles keys ltac:(lia) ltac:(lia) ltac:(intros i Hi; apply Hkept'; lia) HD) as (keys1 & Ek & [Kl Ki Ko]). rewrite HzD in Ek. rewrite Ek. cbn beta iota. rewrite zlen_map in Ki, Ko.
  destruct (sequence_written (bstart o) n ordering ltac:(lia) ltac:(lia) ltac:(lia)) as (ord1 & full & -> & [Ol Oi Oo] & Hfull & _). cbn beta iota. rewrite zlen_seqZ in Oi, Oo by lia.
  pose proof (refers_view sfcKey (aget particles) keys1 ord1 (bstart o) D ltac:(lia) ltac:(lia) ltac:(lia)) as Hr. rewrite HzD in Hr.
  destruct (sortByKey_run sfcKey (aget particles) (bstart o) n keys1 ord1 D) as (keys2 & ord2 & own & Es & Hz1 & Hz2 & Ek2 & Eo2 & Hperm & Href & Hko); try lia.
  { apply Hr. intros i Hi. destruct (aget_is_Some D i ltac:(lia)) as [x Hx]. exists (sfcKey x), (bstart o + i), x. rewrite Ki, Oi, aget_map, Hx, aget_seqZ by lia. rewrite HD by lia. done. }
  set (pairs := zip _ _) in *. exists keys2, ord2, own. split; [done|].
  assert (Eseq : slice ord1 (bstart o) (bstart o + n) = seqZ (bstart o) n) by (apply slice_eq; rewrite ?zlen_seqZ by lia; try lia; done).
  assert (Hpos : slice ord2 (bstart o) (bend o) ≡ₚ seqZ (bstart o) n).
  { replace (bend o) with (bstart o + n) by lia. rewrite Eo2, (stable_sort_perm pairs). unfold pairs. rewrite snd_zip, Eseq; [done|]. pose proof (slice_zlen keys1 (bstart o) (bstart o + n) ltac:(lia) ltac:(lia)).
    pose proof (slice_zlen ord1 (bstart o) (bstart o + n) ltac:(lia) ltac:(lia)). unfold zlen in *. lia. }
  assert (Hown : zlen own = n) by (rewrite <- HzD; unfold zlen; by rewrite Hperm). replace (bend o) with (bstart o + n) in Hpos by lia.
  split; [|split; [by rewrite <- Hperm|by replace (bend o) with (bstart o + n) by lia]]. split; try lia.
  - intros i Hi. rewrite Forall2_same_length_lookup in Href. destruct Href as [_ Href]. destruct (aget_is_Some own i Hi) as [x Hx].
    assert (Hp : exists e, (stable_sort pairs).[i] = Some e).
    { apply aget_is_Some. rewrite <- (zlen_map snd), <- Eo2, slice_zlen by lia. lia. }
    destruct Hp as [[key j] Hp]. pose proof Hx as Hx'. rewrite aget_lookup in Hx' by lia. pose proof Hp as Hp'. rewrite aget_lookup in Hp' by lia. destruct (Href _ _ _ Hp' Hx') as [Hj Hkey]. cbn [fst snd] in Hj, Hkey.
    assert (Eo : ord2.[bstart o + i] = Some j) by (rewrite <- (slice_get ord2 (bstart o) (bstart o + n)) by lia; by rewrite Eo2, aget_map, Hp).
    exists j, x. split; [done|]. split; [|split; [done|split; [done|]]].
    + assert (Hin : j ∈ slice ord2 (bstart o) (bstart o + n)) by (apply (aget_elem _ i); rewrite slice_get by lia; done). rewrite Hpos in Hin. apply elem_of_seqZ in Hin. lia.
    + rewrite <- (slice_get keys2 (bstart o) (bstart o + n)) by lia. rewrite Ek2, aget_map, Hp. cbn. by rewrite Hkey.
  - rewrite (refers_keys sfcKey _ _ _ Href). apply stable_sort_keys.
  - intros i Hi. unfold nthz. rewrite Hko, Ko by lia. apply Hkept'. lia.
Qed.

(** The keys of particles that carry further properties. *)
Lemma assignKeys_pairs {P R} k (sfcKey : P -> Z) o (particles : list P) (properties : list R) keys ordering : zlen particles = zlen properties ->
  assignKeys k (fun x => sfcKey x.1) o (zip particles properties) keys ordering = assignKeys k sfcKey o particles keys ordering.
Proof.
  intros Hz. unfold assignKeys. set (n := u32 _). assert (E : computeParticleKeys k (fun x => sfcKey x.1) (bstart o) n (zip particles properties) keys = computeParticleKeys k sfcKey (bstart o) n particles keys); [|by rewrite E].
  unfold computeParticleKeys. apply for_loop_ext. intros i st _. destruct (st.[bstart o + i]) as [key|]; [|done]. destruct (negb _); [|done]. destruct (particles.[bstart o + i]) as [x|] eqn:Ex.
  - pose proof (aget_Some_range _ _ _ Ex) as Hr. destruct (aget_is_Some properties (bstart o + i) ltac:(lia)) as [y Ey]. assert (Ezip : (zip particles properties).[bstart o + i] = Some (x, y)); [|by rewrite Ezip].
    rewrite aget_lookup in Ex by lia. rewrite aget_lookup in Ey by lia. rewrite aget_lookup by lia. apply lookup_zip_with_Some. by exists x, y.
  - destruct ((zip particles properties).[bstart o + i]) as [[x y]|] eqn:Ezip; [|done]. pose proof (aget_Some_range _ _ _ Ezip). rewrite aget_lookup in Ezip by lia. apply lookup_zip_with_Some in Ezip as (x' & y' & _ & Ex' & _). by rewrite aget_lookup, Ex' in Ex by lia.
Qed.

(** Buffers that grow. *)
Lemma ready_grow {P} k (sfcKey : P -> Z) o ordering keys keys' particles particles' own size : ready k sfcKey o ordering keys particles own -> bsize o <= size < 4294967296 -> zlen particles' = size -> zlen keys' = size ->
  (forall i, 0 <= i < bsize o -> particles'.[i] = particles.[i] /\ keys'.[i] = keys.[i]) -> (forall i, bsize o <= i < size -> nthz keys' i <> removeKey k) ->
  ready k sfcKey (mkBufferDescription (bstart o) (bend o) size) ordering keys' particles' own.
Proof.
  intros [R1 R2 R3 R4 R5 R6 R7 R8] Hs Hzp Hzk Hsame Hnew. split; cbn [bstart bend bsize]; try done.
  - lia.
  - intros i Hi. destruct (R6 i Hi) as (j & x & E1 & E2 & E3 & E4 & E5). exists j, x. rewrite (proj1 (Hsame j ltac:(lia))), (proj2 (Hsame (bstart o + i) ltac:(lia))). done.
  - intros i Hi. destruct (Z.lt_ge_cases i (bsize o)); [|apply Hnew; lia]. unfold nthz. rewrite (proj2 (Hsame i ltac:(lia))). apply R8. lia.
Qed.
