(* ===== verification/Replay.v ===== *)
(** * Repeated exchange

    [GlobalAssignment::redoExchange]: further particle properties are exchanged after the particles
    themselves, with the ordering and the log of the first exchange. *)

From S2P Require Import Prelude Primitives SfcCommon Csarray CsInvariant CsCounts IndexRanges DomainDecomp Layout Octree FocusRebalance GlobalTree Exchange Distribute.

(** ** Sending again *)

Lemma shiftSendRanges_run ranges thisRank n : 0 <= thisRank < numRanks ranges -> 0 <= n -> Forall (fun x => 0 <= x /\ x + n < 4294967296) ranges ->
  exists shifted, shiftSendRanges ranges thisRank n = Some shifted /\ zlen shifted = zlen ranges /\
    forall r, 0 <= r < zlen ranges -> nthz shifted r = nthz ranges r + (if thisRank <? r then n else 0).
Proof.
  intros Hr Hn Hx. unfold shiftSendRanges. unfold numRanks in *. replace (zlen ranges - 1 + 1) with (zlen ranges) by lia.
  match goal with |- context [for_loop _ _ ?bd _] =>
    destruct (for_loop_inv (fun i st => zlen st = zlen ranges /\ forall r, 0 <= r < zlen ranges -> st.[r] = Some (nthz ranges r + (if (thisRank <? r) && (r <? i) then n else 0)))
      (thisRank + 1) (zlen ranges) bd ranges) as (out & -> & Hz & Hout) end.
  - lia.
  - split; [done|]. intros r Hrr. rewrite (nthz_get ranges r Hrr). f_equal. destruct (Z.ltb_spec thisRank r), (Z.ltb_spec r (thisRank + 1)); cbn [andb]; lia.
  - intros i st Hi [Hz Hst]. rewrite (Hst i) by lia. destruct (Z.ltb_spec i i) as [|_]; [lia|]. rewrite andb_false_r, Z.add_0_r. cbn beta iota.
    rewrite Forall_forall in Hx. pose proof (Hx _ (aget_elem _ _ _ (nthz_get ranges i ltac:(lia)))) as Hxi. rewrite u32_small by lia.
    pose proof (aset_Some st i (nthz ranges i + n) ltac:(lia)) as Es. eexists. split; [exact Es|]. split; [unfold zlen in *; by rewrite length_insert|]. intros r Hrr.
    destruct (decide (r = i)) as [->|Hne].
    + rewrite (aget_aset_eq _ _ _ _ Es). destruct (Z.ltb_spec thisRank i), (Z.ltb_spec i (i + 1)); cbn [andb]; f_equal; lia.
    + rewrite (aget_aset_ne _ _ _ _ _ Es) by done. rewrite Hst by done. do 2 f_equal. destruct (Z.ltb_spec thisRank r), (Z.ltb_spec r i), (Z.ltb_spec r (i + 1)); cbn [andb]; lia.
  - exists out. split; [done|]. split; [done|]. intros r Hrr. apply nthz_Some. rewrite Hout by done. do 2 f_equal. destruct (Z.ltb_spec r (zlen ranges)); [|lia]. by rewrite andb_true_r.
Qed.

Section Resend.
Context {R : Type} (props : list R).

Lemma packArrays_ext ordering1 ordering2 first1 first2 n : (forall i, 0 <= i < n -> ordering1.[first1 + i] = ordering2.[first2 + i]) ->
  packArrays ordering1 props first1 n = packArrays ordering2 props first2 n.
Proof.
  intros H. unfold packArrays, mapM_range. replace (first1 + n - first1) with n by lia. replace (first2 + n - first2) with n by lia.
  apply Forall2_mapM_ext, Forall2_same_length_lookup. split; [by rewrite !length_seqZ|]. intros i x y [-> Hi]%lookup_seqZ [-> _]%lookup_seqZ. by rewrite H by lia.
Qed.

Lemma sendLoop_ext fit ordering1 ordering2 first1 first2 count : 1 <= fit -> (forall i, 0 <= i < count -> ordering1.[first1 + i] = ordering2.[first2 + i]) ->
  forall fuel sent, 0 <= sent -> sendLoop fuel fit ordering1 props first1 count sent = sendLoop fuel fit ordering2 props first2 count sent.
Proof.
  intros Hfit H. induction fuel as [|fuel IH]; intros sent Hs; [done|]. cbn [sendLoop]. destruct (Z.ltb_spec sent count); [|done]. rewrite stl_min_min.
  rewrite (packArrays_ext ordering1 ordering2 (first1 + sent) (first2 + sent)), IH; [done|lia|]. intros i Hi. rewrite <- !Z.add_assoc. apply H. lia.
Qed.

(** Repeating the sends with the new ordering and shifted ranges sends the same particles. *)
Lemma resend sizes sends shifted me ordering1 ordering2 : 1 <= maxMessage sizes -> zlen shifted = zlen sends -> zsorted sends -> 0 <= me < numRanks sends ->
  (forall q, 0 <= q < zlen sends -> nthz shifted q = nthz sends q + (if me <? q then nthz shifted (me + 1) - nthz sends (me + 1) else 0)) ->
  (forall i, 0 <= i < nthz sends me -> ordering2.[i] = ordering1.[i]) ->
  (forall i, nthz sends (me + 1) <= i < nthz sends (numRanks sends) -> ordering2.[nthz shifted (me + 1) - nthz sends (me + 1) + i] = ordering1.[i]) -> 0 <= nthz sends 0 ->
  sendMessages sizes shifted me ordering2 props = sendMessages sizes sends me ordering1 props.
Proof.
  intros Hfit Hz Hsort Hme Hsh Hlo Hhi H0. unfold numRanks in *. unfold sendMessages, numRanks. rewrite Hz. apply Forall_mapM_ext, Forall_forall. intros q Hq%elem_of_seqZ.
  assert (Hmono : forall a b, 0 <= a <= b -> b < zlen sends -> nthz sends a <= nthz sends b) by (intros a b Ha Hb; apply (Hsort a b); [lia|apply nthz_get; lia..]).
  unfold sendTo, sendCount. rewrite (nthz_get shifted (q + 1)), (nthz_get shifted q), (nthz_get sends (q + 1)), (nthz_get sends q) by lia. cbn beta iota.
  destruct (Z.eqb_spec q me) as [->|Hne].
  { by destruct (nthz shifted me <=? nthz shifted (me + 1)), (nthz sends me <=? nthz sends (me + 1)). }
  set (n := nthz shifted (me + 1) - nthz sends (me + 1)) in *.
  assert (Hq1 : nthz shifted q = nthz sends q + (if me <? q then n else 0)) by (apply Hsh; lia).
  assert (Hq2 : nthz shifted (q + 1) = nthz sends (q + 1) + (if me <? q then n else 0)).
  { rewrite Hsh by lia. f_equal. destruct (Z.ltb_spec me (q + 1)), (Z.ltb_spec me q); lia. }
  rewrite Hq1, Hq2. pose proof (Hmono q (q + 1) ltac:(lia) ltac:(lia)). pose proof (Hmono 0 q ltac:(lia) ltac:(lia)).
  destruct (Z.leb_spec (nthz sends q + (if me <? q then n else 0)) (nthz sends (q + 1) + (if me <? q then n else 0))) as [_|]; [|lia]. destruct (Z.leb_spec (nthz sends q) (nthz sends (q + 1))) as [_|]; [|lia].
  replace (nthz sends (q + 1) + (if me <? q then n else 0) - (nthz sends q + (if me <? q then n else 0))) with (nthz sends (q + 1) - nthz sends q) by lia.
  cbn [orb]. destruct (u32 (nthz sends (q + 1) - nthz sends q) =? 0); [done|]. apply sendLoop_ext; [done| |lia]. intros i Hi.
  assert (Hu : u32 (nthz sends (q + 1) - nthz sends q) <= nthz sends (q + 1) - nthz sends q) by (apply Z.mod_le; lia). destruct (Z.ltb_spec me q).
  - pose proof (Hmono (me + 1) q ltac:(lia) ltac:(lia)). pose proof (Hmono (q + 1) (zlen sends - 1) ltac:(lia) ltac:(lia)). rewrite <- Hhi by lia. f_equal. lia.
  - pose proof (Hmono (q + 1) me ltac:(lia) ltac:(lia)). rewrite Z.add_0_r. apply Hlo. lia.
Qed.

End Resend.

(** ** One message per sender *)

Lemma NoDup_senders {M} (arrivals : list (Z * M)) : (forall q, (length (filter (fun e => e.1 = q) arrivals) <= 1)%nat) -> NoDup (fst <$> arrivals).
Proof.
  induction arrivals as [|[p m] l IH]; intros H; [constructor|]. rewrite fmap_cons. apply NoDup_cons. split.
  - intros (e & Ee & He)%list_elem_of_fmap. specialize (H p). rewrite filter_cons_True in H by done. assert (Hin : e ∈ filter (fun e => e.1 = p) l) by by apply list_elem_of_filter.
    destruct (filter (fun e => e.1 = p) l); [by apply not_elem_of_nil in Hin|]. simpl in H. lia.
  - apply IH. intros q. specialize (H q). rewrite filter_cons in H. destruct (decide _); simpl in H; lia.
Qed.

Section Single.
Context {Q : Type} (queue : Z -> list (Message Q)) (ranks : list Z) (arrivals : list (Z * Message Q)).
Hypothesis Harr : interleaves queue ranks arrivals.
Hypothesis Hone : forall q, q ∈ ranks -> (length (queue q) <= 1)%nat.

Lemma single_NoDup : NoDup (fst <$> arrivals).
Proof using All.
  destruct Harr as [Hin Hq]. apply NoDup_senders. intros q. destruct (decide (q ∈ ranks)) as [Hr|Hr].
  - rewrite <- (length_fmap snd), (Hq q Hr). by apply Hone.
  - rewrite filter_none; [simpl; lia|]. eapply Forall_impl; [exact Hin|]. intros e He <-. by apply Hr.
Qed.

Lemma single_queue q m : (q, m) ∈ arrivals -> q ∈ ranks /\ queue q = [m].
Proof using All.
  destruct Harr as [Hin Hq]. intros He. rewrite Forall_forall in Hin. pose proof (Hin _ He) as Hr. split; [done|]. specialize (Hone q Hr).
  assert (Hm : m ∈ queue q) by (rewrite <- (Hq q Hr); apply list_elem_of_fmap; exists (q, m); split; [done|]; by apply list_elem_of_filter).
  destruct (queue q) as [|m1 [|m2 l]]; [by apply not_elem_of_nil in Hm|by apply list_elem_of_singleton in Hm as ->|simpl in Hone; lia].
Qed.

Lemma single_elem q : q ∈ ranks -> queue q <> [] -> q ∈ fst <$> arrivals.
Proof using All.
  destruct Harr as [_ Hq]. intros Hr Hne. rewrite <- (Hq q Hr) in Hne. destruct (filter (fun e => e.1 = q) arrivals) as [|e l] eqn:E; [done|].
  assert (He : e ∈ filter (fun e => e.1 = q) arrivals) by (rewrite E; by left). apply list_elem_of_filter in He as [<- He]. by apply list_elem_of_fmap_2.
Qed.

End Single.

(** A region is a sequence of blocks of given sizes. *)
Lemma region_split {Q} (size : Z -> Z) (order : list Z) : forall mid : list Q, NoDup order -> Forall (fun q => 0 <= size q) order -> zlen mid = zsum (size <$> order) ->
  exists f, Forall (fun q => zlen (f q) = size q) order /\ region order f = mid.
Proof.
  induction order as [|p order IH]; intros mid Hnd Hs Hm.
  - exists (fun _ => []). split; [by apply Forall_nil|]. cbn in Hm. by apply zlen_zero_inv in Hm as ->.
  - apply NoDup_cons in Hnd as [Hp Hnd]. apply Forall_cons in Hs as [Hsp Hs]. rewrite fmap_cons, zsum_cons in Hm.
    assert (Hpos : 0 <= zsum (size <$> order)) by (apply zsum_nonneg, Forall_fmap; exact Hs).
    destruct (IH (drop (Z.to_nat (size p)) mid) Hnd Hs) as (f & Hf & Ef); [unfold zlen in *; rewrite length_drop; lia|].
    exists (updBlock f p (take (Z.to_nat (size p)) mid)). split.
    + apply Forall_cons. split; [unfold updBlock; rewrite decide_True by done; unfold zlen in *; rewrite length_take; lia|]. rewrite Forall_forall in Hf |- *. intros q Hq.
      unfold updBlock. rewrite decide_False by (by intros ->). by apply Hf.
    + unfold region. rewrite bind_cons. fold (region order (updBlock f p (take (Z.to_nat (size p)) mid))). rewrite region_upd_other, Ef by done.
      unfold updBlock. rewrite decide_True by done. apply take_drop.
Qed.

Section ReplaySingle.
Context {P R : Type} (queue1 : Z -> list (Message P)) (queue2 : Z -> list (Message R)) (ranks : list Z) (arrivals1 : list (Z * Message P)) (arrivals2 : list (Z * Message R)).
Hypothesis Harr1 : interleaves queue1 ranks arrivals1.
Hypothesis Harr2 : interleaves queue2 ranks arrivals2.
Hypothesis Hone1 : forall q, q ∈ ranks -> (length (queue1 q) <= 1)%nat.
Hypothesis Hone2 : forall q, q ∈ ranks -> (length (queue2 q) <= 1)%nat.
Hypothesis Hwf1 : forall q, q ∈ ranks -> Forall wellFormed (queue1 q).
Hypothesis Hwf2 : forall q, q ∈ ranks -> Forall wellFormed (queue2 q).

Local Abbreviation data1 q := (concat (msgData <$> queue1 q)).
Local Abbreviation data2 q := (concat (msgData <$> queue2 q)).

Hypothesis Hsame : forall q, q ∈ ranks -> zlen (data1 q) = zlen (data2 q).

Lemma queue_size1 q m : queue1 q = [m] -> q ∈ ranks -> msgCount m = zlen (data1 q) /\ msgData m = data1 q /\ 1 <= msgCount m.
Proof using Hwf1. intros E Hr. specialize (Hwf1 q Hr). rewrite E in *. apply Forall_cons in Hwf1 as [[H1 H2] _]. cbn. rewrite app_nil_r. done. Qed.

Lemma queue_size2 q m : queue2 q = [m] -> q ∈ ranks -> msgCount m = zlen (data2 q) /\ msgData m = data2 q /\ 1 <= msgCount m.
Proof using Hwf2. intros E Hr. specialize (Hwf2 q Hr). rewrite E in *. apply Forall_cons in Hwf2 as [[H1 H2] _]. cbn. rewrite app_nil_r. done. Qed.

(** The same ranks send in both exchanges. *)
Lemma senders_same q : q ∈ fst <$> arrivals1 <-> q ∈ fst <$> arrivals2.
Proof using All.
  split; intros ([q' m] & -> & He)%list_elem_of_fmap; cbn [fst].
  - destruct (single_queue queue1 ranks arrivals1 Harr1 Hone1 q' m He) as [Hr E]. destruct (queue_size1 q' m E Hr) as (H1 & _ & H2).
    apply (single_elem queue2 ranks arrivals2 Harr2 Hone2 q' Hr). intros E2. pose proof (Hsame q' Hr) as Hs. rewrite E2 in Hs. change (zlen (concat (msgData <$> []))) with 0 in Hs. lia.
  - destruct (single_queue queue2 ranks arrivals2 Harr2 Hone2 q' m He) as [Hr E]. destruct (queue_size2 q' m E Hr) as (H1 & _ & H2).
    apply (single_elem queue1 ranks arrivals1 Harr1 Hone1 q' Hr). intros E2. pose proof (Hsame q' Hr) as Hs. rewrite E2 in Hs. change (zlen (concat (msgData <$> []))) with 0 in Hs. lia.
Qed.

Lemma zsum_senders : zsum ((fun e => msgCount e.2) <$> arrivals2) = zlen (arrivedData arrivals1).
Proof using All.
  pose proof (single_NoDup queue1 ranks arrivals1 Harr1 Hone1) as N1. pose proof (single_NoDup queue2 ranks arrivals2 Harr2 Hone2) as N2.
  assert (Hp : (fst <$> arrivals1) ≡ₚ (fst <$> arrivals2)) by (apply NoDup_Permutation; [done|done|apply senders_same]).
  transitivity (zsum ((fun q => zlen (data2 q)) <$> (fst <$> arrivals2))).
  - rewrite <- list_fmap_compose. f_equal. apply list_fmap_ext. intros i [q m] He%list_elem_of_lookup_2. destruct (single_queue queue2 ranks arrivals2 Harr2 Hone2 q m He) as [Hr E].
    destruct (queue_size2 q m E Hr) as (Ec & _). exact Ec.
  - rewrite <- (zsum_Permutation _ _ (fmap_Permutation _ _ _ Hp)). clear Hp N1 N2 Harr2 Hone2. assert (Hall : forall q m, (q, m) ∈ arrivals1 -> zlen (data2 q) = zlen (msgData m)).
    { intros q m He. destruct (single_queue queue1 ranks arrivals1 Harr1 Hone1 q m He) as [Hr E]. destruct (queue_size1 q m E Hr) as (_ & -> & _). by rewrite Hsame. }
    clear -Hall. induction arrivals1 as [|[q m] l IH]; [done|]. rewrite !fmap_cons, zsum_cons. cbn [fst]. unfold arrivedData. cbn [fmap list_fmap concat snd]. rewrite zlen_app.
    fold (arrivedData l). rewrite <- IH by (intros q' m' He; apply Hall; by right). rewrite (Hall q m) by by left. done.
Qed.

Lemma replay_single r props : 0 <= r -> r + zlen (arrivedData arrivals1) <= zlen props -> r + zlen (arrivedData arrivals1) < 4294967296 ->
  let log := arrivalLog arrivals1 r in
  exists props', receiveLoop (bool_decide (log = [])) arrivals2 r (r + zlen (arrivedData arrivals1)) log props = Some (log, props', []) /\
    written props props' r ((fst <$> arrivals1) ≫= (fun q => data2 q)).
Proof using All.
  intros Hr Hle Hlt log. pose proof (single_NoDup queue1 ranks arrivals1 Harr1 Hone1) as N1. pose proof (single_NoDup queue2 ranks arrivals2 Harr2 Hone2) as N2.
  set (order := fst <$> arrivals1) in *. set (size q := zlen (data2 q)). assert (Hcounts : Forall (fun e => msgCount e.2 = size e.1) arrivals1).
  { apply Forall_forall. intros [q m] He. destruct (single_queue queue1 ranks arrivals1 Harr1 Hone1 q m He) as [Hq E]. destruct (queue_size1 q m E Hq) as (Ec & _). cbn [fst snd]. rewrite Ec. by apply Hsame. }
  assert (Hlog : log = blockLog order size r) by by apply arrivalLog_blocks.
  assert (Hlen : zlen (arrivedData arrivals1) = zsum (size <$> order)).
  { rewrite <- zsum_senders. unfold order. rewrite (zsum_Permutation (size <$> (fst <$> arrivals1)) (size <$> (fst <$> arrivals2))).
    - rewrite <- list_fmap_compose. f_equal. apply list_fmap_ext. intros i [q m] He%list_elem_of_lookup_2. destruct (single_queue queue2 ranks arrivals2 Harr2 Hone2 q m He) as [Hq E]. destruct (queue_size2 q m E Hq) as (Ec & _). exact Ec.
    - apply fmap_Permutation, NoDup_Permutation; [done|done|apply senders_same]. }
  pose proof (zlen_nonneg (arrivedData arrivals1)) as Hn0. destruct (buffer_split props r (zlen (arrivedData arrivals1)) Hr Hn0 Hle) as (pre & mid & post & -> & Hpre & Hm).
  destruct (region_split size order mid N1) as (f & Hf & Ef); [apply Forall_forall; intros q _; apply zlen_nonneg|lia|].
  assert (Hw : written (pre ++ mid ++ post) (pre ++ region order (fun q => data2 q) ++ post) r (region order (fun q => data2 q))).
  { rewrite <- Hpre. apply block_written. rewrite Hm, Hlen. unfold region. clear. induction order as [|q order IH]; [done|]. rewrite bind_cons, zlen_app, fmap_cons, zsum_cons. by rewrite IH. }
  exists (pre ++ region order (fun q => data2 q) ++ post). split; [|exact Hw]. assert (Hcase : arrivals1 = [] \/ arrivals1 <> []) by (clear; destruct arrivals1; [by left|by right]).
  destruct Hcase as [Ea|Ea].
  - assert (Ha2 : arrivals2 = []).
    { apply fmap_nil_inv with fst. apply elem_of_nil_inv. intros q Hq%senders_same. rewrite Ea in Hq. by apply not_elem_of_nil in Hq. }
    assert (Hd : arrivedData arrivals1 = []) by by rewrite Ea. rewrite Ha2. rewrite Hd in *. change (zlen (@nil P)) with 0 in *. rewrite Z.add_0_r. unfold log, order. rewrite Ea. cbn [receiveLoop arrivalLog].
    rewrite Z.eqb_refl. apply zlen_zero_inv in Hm as ->. done.
  - assert (Hne : log <> []) by (unfold log; clear -Ea; by destruct arrivals1 as [|[p m] l]). rewrite bool_decide_false by done. rewrite Hlog, <- Ef, <- Hpre.
    rewrite (replay_run order size pre post (fun q => data2 q) N1 arrivals2 f (zlen pre) (zlen pre + zlen (arrivedData arrivals1)) N2); [| |exact Hf|lia|lia|rewrite zsum_senders; lia].
    + do 3 f_equal. f_equal. f_equal. apply Forall_bind_ext, Forall_forall. intros q Hq. rewrite decide_True; [done|]. by apply senders_same.
    + apply Forall_forall. intros [q m] He. destruct (single_queue queue2 ranks arrivals2 Harr2 Hone2 q m He) as [Hq E]. destruct (queue_size2 q m E Hq) as (H1 & H2 & H3). cbn [fst snd].
      split; [apply senders_same; apply list_elem_of_fmap; by exists (q, m)|]. split; [split; [done|by rewrite H2]|]. done.
Qed.

End ReplaySingle.

(** ** Several messages of one rank *)

(** No message holds more particles than fit, and the first one is filled. *)
Lemma sendLoop_counts {P} numFit ordering (particles : list P) first sendCount : forall fuel numSent msgs, 1 <= numFit -> numSent <= sendCount ->
  sendLoop fuel numFit ordering particles first sendCount numSent = Some msgs ->
  Forall (fun m => msgCount m <= Z.min numFit (sendCount - numSent)) msgs /\
  (numSent < sendCount -> exists m rest, msgs = m :: rest /\ msgCount m = Z.min numFit (sendCount - numSent)).
Proof.
  induction fuel as [|fuel IH]; intros numSent msgs Hfit Hle E; [done|]. cbn [sendLoop] in E. destruct (Z.ltb_spec numSent sendCount) as [Hlt|Hge].
  - rewrite stl_min_min in E. set (c := Z.min numFit (sendCount - numSent)) in *. destruct (packArrays ordering particles (first + numSent) c) as [data|]; [|done].
    destruct (sendLoop fuel numFit ordering particles first sendCount (numSent + c)) as [rest|] eqn:Er; [|done]. injection E as <-. split; [|intros _; by eexists _, _].
    apply Forall_cons. split; [cbn [msgCount]; lia|]. assert (Hle' : numSent + c <= sendCount) by lia. destruct (IH _ _ Hfit Hle' Er) as [Hr _]. eapply Forall_impl; [exact Hr|]. simpl. lia.
  - injection E as <-. split; [by apply Forall_nil|lia].
Qed.

Section Counts.
Context {P : Type} (sizes sends ordering : list Z) (me : Z) (particles : list P) (sent : list (list (Message P))) (p : Z).
Hypothesis Hfit : 1 <= maxMessage sizes.
Hypothesis Hsent : sendMessages sizes sends me ordering particles = Some sent.
Hypothesis Hp : 0 <= p < numRanks sends.
Hypothesis Hc : 0 <= nthz sends (p + 1) - nthz sends p < 4294967296.

Lemma messagesTo_eq : sendTo sizes sends me ordering particles p = Some (messagesTo p sent).
Proof using Hsent Hp.
  unfold sendMessages, mapM_range in Hsent. rewrite Z.sub_0_r in Hsent. apply mapM_Some_1 in Hsent as H2. pose proof (Forall2_length _ _ _ H2) as Hl. rewrite length_seqZ in Hl.
  destruct (aget_is_Some sent p) as [msgs Hm]; [unfold zlen; lia|]. unfold messagesTo. rewrite Hm. rewrite Forall2_same_length_lookup in H2. destruct H2 as [_ H2].
  apply (H2 (Z.to_nat p) p msgs); [rewrite lookup_seqZ; lia|]. by rewrite <- aget_lookup by lia.
Qed.

Lemma sendTo_cases : p = me /\ messagesTo p sent = [] \/ nthz sends (p + 1) = nthz sends p /\ messagesTo p sent = [] \/
  p <> me /\ 0 < nthz sends (p + 1) - nthz sends p /\ sendLoop (Datatypes.S (Z.to_nat (nthz sends (p + 1) - nthz sends p))) (maxMessage sizes) ordering particles (nthz sends p) (nthz sends (p + 1) - nthz sends p) 0 = Some (messagesTo p sent).
Proof using Hsent Hp Hc.
  pose proof messagesTo_eq as E. unfold numRanks in Hp. unfold sendTo, sendCount in E. rewrite (nthz_get sends p), (nthz_get sends (p + 1)) in E by lia. cbn beta iota in E.
  destruct (Z.leb_spec (nthz sends p) (nthz sends (p + 1))); [|lia]. rewrite u32_small in E by lia. destruct (Z.eqb_spec p me) as [Hme|Hme]; cbn [orb] in E; [left; split; [done|]; by injection E|].
  right. destruct (Z.eqb_spec (nthz sends (p + 1) - nthz sends p) 0) as [H0|H0]; [left; split; [lia|]; by injection E|]. right. split; [done|]. split; [lia|done].
Qed.

Lemma message_counts m : m ∈ messagesTo p sent -> p <> me /\ 0 < nthz sends (p + 1) - nthz sends p /\ msgCount m <= Z.min (maxMessage sizes) (nthz sends (p + 1) - nthz sends p).
Proof using All.
  intros Hm. destruct sendTo_cases as [[_ E]|[[_ E]|(Hne & Hpos & E)]]; [by rewrite E in Hm; apply not_elem_of_nil in Hm..|].
  destruct (sendLoop_counts _ _ _ _ _ _ 0 _ Hfit (proj1 Hc) E) as [Ha _]. rewrite Forall_forall in Ha. specialize (Ha m Hm). cbn beta in Ha. rewrite Z.sub_0_r in Ha. done.
Qed.

Lemma first_count : p <> me -> 0 < nthz sends (p + 1) - nthz sends p ->
  exists m rest, messagesTo p sent = m :: rest /\ msgCount m = Z.min (maxMessage sizes) (nthz sends (p + 1) - nthz sends p).
Proof using All.
  intros Hne Hpos. destruct sendTo_cases as [[? _]|[[? _]|(_ & _ & E)]]; [done|lia|]. destruct (sendLoop_counts _ _ _ _ _ _ 0 _ Hfit (proj1 Hc) E) as [_ Hf]. rewrite Z.sub_0_r in Hf. by apply Hf.
Qed.

End Counts.

Section Overwrite.
Context {P : Type}.
Implicit Types (arrivals pre post : list (Z * Message P)).

Lemma arrivedData_app pre post : arrivedData (pre ++ post) = arrivedData pre ++ arrivedData post.
Proof. unfold arrivedData. by rewrite fmap_app, concat_app. Qed.

Lemma arrivedData_cons e post : arrivedData (e :: post) = msgData e.2 ++ arrivedData post.
Proof. done. Qed.

(** The log locates a rank at the first message that it has sent. *)
Lemma logLookup_first pre q m post r : Forall (fun e => wellFormed e.2) pre -> q ∉ (fst <$> pre) ->
  logLookup q (arrivalLog (pre ++ (q, m) :: post) r) = Some (r + zlen (arrivedData pre)).
Proof.
  revert r. unfold logLookup. induction pre as [|[q' m'] pre IH]; intros r Hw Hq; cbn [app arrivalLog find fst].
  - rewrite Z.eqb_refl. change (zlen (arrivedData (@nil (Z * Message P)))) with 0. by rewrite Z.add_0_r.
  - apply Forall_cons in Hw as [[_ Hd] Hw]. cbn [fst snd] in *. rewrite fmap_cons in Hq. apply not_elem_of_cons in Hq as [Hne Hq]. cbn [fst] in Hne.
    destruct (Z.eqb_spec q' q) as [->|_]; [done|]. rewrite (IH _ Hw Hq), arrivedData_cons, zlen_app. cbn [snd]. f_equal. lia.
Qed.

(** The first message of [q] in the arrivals. *)
Lemma first_message arrivals q m rest : snd <$> filter (fun e => e.1 = q) arrivals = (m :: rest) ->
  exists pre post, arrivals = pre ++ (q, m) :: post /\ (q ∉ (fst <$> pre)) /\ snd <$> filter (fun e => e.1 = q) post = rest.
Proof.
  induction arrivals as [|[q' m'] arrivals IH]; intros E; [done|]. rewrite filter_cons in E. cbn [fst] in E. destruct (decide (q' = q)) as [->|Hne].
  - rewrite fmap_cons in E. injection E as -> <-. exists [], arrivals. split; [done|]. split; [by apply not_elem_of_nil|done].
  - destruct (IH E) as (pre & post & -> & Hq & Hr). exists ((q', m') :: pre), post. split; [done|]. split; [|done]. rewrite fmap_cons. apply not_elem_of_cons. split; [by intros ->|done].
Qed.

(** Position [i] belongs to the first message of some rank. *)
Definition firstBlock (r : Z) arrivals (i : Z) : Prop := exists pre q m post, arrivals = pre ++ (q, m) :: post /\ (q ∉ (fst <$> pre)) /\
  r + zlen (arrivedData pre) <= i < r + zlen (arrivedData pre) + msgCount m.

(** The location of a further message of a rank is outside of all first messages. *)
Lemma later_outside r pre q m post : Forall (fun e => wellFormed e.2) (pre ++ (q, m) :: post) -> q ∈ (fst <$> pre) ->
  ~ firstBlock r (pre ++ (q, m) :: post) (r + zlen (arrivedData pre)).
Proof.
  intros Hw Hq (pre' & q' & m' & post' & E & Hq' & Hi). destruct (app_eq_inv _ _ _ _ E) as [(l & E1 & E2)|(l & E1 & E2)].
  - destruct l as [|e l]; [injection E2 as <- <- <-; rewrite app_nil_r in E1; by rewrite E1 in Hq|]. injection E2 as <- ->.
    rewrite E1, arrivedData_app, arrivedData_cons, !zlen_app in Hi. cbn [snd] in Hi. pose proof (zlen_nonneg (arrivedData l)). rewrite E, Forall_app, Forall_cons in Hw. destruct Hw as (_ & [_ Hd] & _). cbn [snd] in Hd. lia.
  - destruct l as [|e l]; [injection E2 as <- <- <-; rewrite app_nil_r in E1; by rewrite <- E1 in Hq|]. injection E2 as <- ->.
    rewrite E1, arrivedData_app, arrivedData_cons, !zlen_app in Hi. cbn [snd] in Hi. pose proof (zlen_nonneg (arrivedData l)). rewrite Forall_app, Forall_cons in Hw. destruct Hw as (_ & [Hm Hd] & _). cbn [snd] in *. lia.
Qed.

(** Replaying messages that the log locates inside of [B] leaves the rest of the array alone. *)
Lemma replay_outside (B : Z -> Prop) log size arrivals : Forall (fun e => wellFormed e.2 /\ exists loc, logLookup e.1 log = Some loc /\ 0 <= loc /\ loc + msgCount e.2 <= size /\
    forall i, loc <= i < loc + msgCount e.2 -> B i) arrivals ->
  forall r (props : list P), zlen props = size -> 0 <= r -> r + zlen (arrivedData arrivals) < 4294967296 ->
  exists props', receiveLoop false arrivals r (r + zlen (arrivedData arrivals)) log props = Some (log, props', []) /\ zlen props' = size /\ forall i, ~ B i -> props'.[i] = props.[i].
Proof.
  induction 1 as [|[q m] arrivals [[Hm Hd] (loc & El & H0 & Hle & HB)] _ IH]; intros r props Hz Hr Hlt; cbn [receiveLoop].
  - change (zlen (arrivedData (@nil (Z * Message P)))) with 0. rewrite Z.add_0_r, Z.eqb_refl. by exists props.
  - cbn [fst snd] in *. rewrite arrivedData_cons, zlen_app in *. cbn [snd] in *. pose proof (zlen_nonneg (arrivedData arrivals)). destruct (Z.eqb_spec r (r + (zlen (msgData m) + zlen (arrivedData arrivals)))) as [|_]; [lia|].
    rewrite El. cbn beta iota. rewrite take_ge by (unfold zlen in Hd; lia). destruct (buffer_split props loc (zlen (msgData m)) H0 ltac:(lia) ltac:(lia)) as (pre & mid & post & Ep & Hpre & Hmid).
    rewrite Ep, <- Hpre, (writeFrom_block _ _ _ _ Hmid). cbn beta iota. pose proof (block_written pre mid (msgData m) post Hmid) as [W1 _ W2]. rewrite u32_small by lia.
    destruct (IH (r + msgCount m) (pre ++ msgData m ++ post)) as (props' & E & Hz' & Hout); [rewrite W1, <- Ep; done|lia|lia|]. exists props'.
    split; [rewrite <- E; f_equal; lia|]. split; [done|]. intros i Hi. rewrite Hout by done. apply W2. intros Hin. apply Hi, HB. lia.
Qed.

End Overwrite.

(** ** All ranks *)

Lemma sentData_fmap {A B} (f : A -> B) (own : list A) sends p q : sentData (f <$> own) sends p q = f <$> sentData own sends p q.
Proof. unfold sentData. destruct (decide (q = p)); [done|]. apply slice_fmap. Qed.

Section Redo.
Context {P R : Type} (sfcKey : P -> Z) (k : KeyType) (s : SfcAssignment) (sizes sizes2 : list Z).
Context (o : Z -> BufferDescription) (ordering keys sends : Z -> list Z) (particles own : Z -> list P).
Hypothesis Hs : validAssignment k s.
Hypothesis Hfit : 1 <= maxMessage sizes.
Hypothesis Hfit2 : 1 <= maxMessage sizes2.
Hypothesis Hready : forall p, 0 <= p < assignmentRanks s -> ready k sfcKey (o p) (ordering p) (keys p) (particles p) (own p).
Hypothesis Hsends : forall p, 0 <= p < assignmentRanks s -> createSendRanges s (sfcKey <$> own p) = Some (sends p).
Context (prop : P -> R) (props : Z -> list R).
Hypothesis Hprops : forall p, 0 <= p < assignmentRanks s -> zlen (props p) = zlen (particles p) /\ forall j, bstart (o p) <= j < bend (o p) -> (props p).[j] = prop <$> (particles p).[j].

Local Abbreviation n := (assignmentRanks s).
Local Abbreviation B := (nthz (rankBoundaries_ s)).

Lemma props_inOrder p : 0 <= p < n -> inOrder (drop (Z.to_nat (bstart (o p))) (ordering p)) (props p) (prop <$> own p).
Proof using Hready Hprops.
  intros Hp. destruct (ready_inOrder _ _ _ _ _ _ _ (Hready p Hp)) as [Hz Hget]. destruct (Hready p Hp) as [Hrg _ _ Hzo Hzw Ho _ _]. destruct (Hprops p Hp) as [_ Hpr].
  split; [by rewrite zlen_map|]. rewrite zlen_map. intros i Hi. destruct (Ho i Hi) as (j & x & E1 & Hj & E2 & E3 & _).
  assert (E : (drop (Z.to_nat (bstart (o p))) (ordering p)).[i] = (ordering p).[bstart (o p) + i]) by (rewrite !aget_lookup, lookup_drop by lia; f_equal; lia).
  rewrite E, E1, aget_map, E3. rewrite Hpr, E2 by lia. done.
Qed.

(** The messages of the repeated exchange carry the properties of the particles of the first one. *)
Lemma props_sends p : 0 <= p < n -> exists sent, sendMessages sizes2 (sends p) p (drop (Z.to_nat (bstart (o p))) (ordering p)) (props p) = Some sent /\
  forall q, 0 <= q < n -> Forall wellFormed (messagesTo q sent) /\ concat (msgData <$> messagesTo q sent) = prop <$> sentData (own p) (sends p) p q /\
    (zlen (sentData (own p) (sends p) p q) <= maxMessage sizes2 -> (length (messagesTo q sent) <= 1)%nat).
Proof using Hs Hfit2 Hready Hsends Hprops.
  intros Hp. destruct (sends_eq sfcKey k s o ordering keys sends particles own Hs Hready Hsends p Hp) as (Hlt & Hsort & ->).
  destruct (sendsOf_messages k s sizes2 (sfcKey <$> own p) p _ (props p) (prop <$> own p) Hs Hfit2 (props_inOrder p Hp)) as (sent & E & Hq); [by rewrite !zlen_map|done|].
  exists sent. split; [done|]. intros q Hq'. destruct (Hq q Hq') as (Hw & Hc & Hone). rewrite sentData_fmap in Hc, Hone. by rewrite zlen_map in Hone.
Qed.

Context (sent : Z -> list (list (Message P))) (arr : Z -> list (Z * Message P)) (d : Z -> @Distributed P).
Hypothesis Hsent : forall q, 0 <= q < n -> sendMessages sizes (sends q) q (drop (Z.to_nat (bstart (o q))) (ordering q)) (particles q) = Some (sent q).
Hypothesis Harr : forall p, 0 <= p < n -> interleaves (fun q => messagesTo p (sent q)) (seqZ 0 n) (arr p).
Hypothesis Hcount : forall p, 0 <= p < n -> zlen (assignedTo sfcKey s own p) < 4294967296 /\
  exchangeBufferSize (o p) (nthz (sends p) (p + 1) - nthz (sends p) p) (zlen (assignedTo sfcKey s own p)) = bsize (o p).
Hypothesis Hd : forall p, 0 <= p < n -> distribute k sfcKey p (zlen (assignedTo sfcKey s own p)) (sends p) (o p) sizes (arr p) (ordering p) (keys p) (particles p) = Some (d p).

Local Abbreviation inc p := (zlen (arrivedData (arr p))).

Lemma redo_setup p : 0 <= p < n -> exists r assigned, receiveStart (o p) (inc p) = Some r /\ 0 <= r /\ r + inc p <= bsize (o p) /\ (r + inc p = bstart (o p) \/ r = bend (o p)) /\
  zlen (assignedTo sfcKey s own p) - (nthz (sends p) (p + 1) - nthz (sends p) p) = inc p /\ d_recvLog (d p) = arrivalLog (arr p) r /\
  written (particles p) (d_particles (d p)) r (arrivedData (arr p)) /\ Forall (inEnvelope (o p) r (inc p)) (slice (d_ordering (d p)) (d_start (d p)) (d_start (d p) + (inc p + zlen (own p)))) /\
  d_start (d p) + (inc p + zlen (own p)) <= zlen (d_ordering (d p)) /\ d_start (d p) = Z.min r (bstart (o p)) /\
  orderingKept (o p) (ordering p) (own p) (nthz (sends p) p) (nthz (sends p) (p + 1)) (inc p) (d_start (d p)) (d_ordering (d p)) /\
  assigned ≡ₚ assignedTo sfcKey s own p /\ inOrder (drop (Z.to_nat (d_start (d p) + nthz (sends p) p)) (d_ordering (d p))) (d_particles (d p)) assigned /\
  d_keyView (d p) = sfcKey <$> assigned.
Proof using Hs Hfit Hready Hsends Hsent Harr Hcount Hd.
  intros Hp. destruct (Hcount p Hp) as [Hlt Hsz].
  destruct (world_distribute sfcKey k s sizes o ordering keys sends particles own Hs Hfit Hready Hsends sent Hsent p (arr p) Hp (Harr p Hp) _ eq_refl Hlt Hsz)
    as (d' & assigned & Ed & _ & _ & H3 & _ & H5 & H6 & H7 & (r & R1 & R2 & R3 & R4 & R5 & R6 & R7 & R8 & R9) & H9 & _).
  rewrite (Hd p Hp) in Ed. injection Ed as <-. exists r, assigned. done.
Qed.

Lemma sends_facts p : 0 <= p < n -> zlen (sends p) = n + 1 /\ zsorted (sends p) /\ (forall q, 0 <= q <= n -> 0 <= nthz (sends p) q <= zlen (own p)).
Proof using Hs Hready Hsends.
  intros Hp. destruct (sends_eq sfcKey k s o ordering keys sends particles own Hs Hready Hsends p Hp) as (Hlt & Hsort & ->). pose proof (va_ranks _ _ Hs).
  assert (Hz : zlen (sendsOf s (sfcKey <$> own p)) = n + 1) by (unfold sendsOf; rewrite zlen_map, zlen_seqZ; lia). split; [done|]. split.
  - intros i j x y Hij Hx Hy. pose proof (aget_Some_range _ _ _ Hx). pose proof (aget_Some_range _ _ _ Hy). rewrite sendsOf_get in Hx, Hy by lia. injection Hx as <-. injection Hy as <-.
    apply count_lt_mono, (boundary_mono k s Hs); lia.
  - intros q Hq. rewrite (nthz_Some _ _ _ (sendsOf_get s (sfcKey <$> own p) q ltac:(lia))), <- (zlen_map sfcKey (own p)). apply count_lt_range.
Qed.

(** Every rank sends the properties of the particles that it has sent before. *)
Lemma redo_sends p : 0 <= p < n -> exists shifted, shiftSendRanges (sends p) p (inc p) = Some shifted /\
  sendMessages sizes2 shifted p (drop (Z.to_nat (d_start (d p))) (d_ordering (d p))) (props p) =
  sendMessages sizes2 (sends p) p (drop (Z.to_nat (bstart (o p))) (ordering p)) (props p).
Proof using Hs Hfit Hfit2 Hready Hsends Hsent Harr Hcount Hd.
  intros Hp. destruct (redo_setup p Hp) as (r & assigned & _ & R2 & R3 & R4 & _ & _ & _ & _ & R8 & R9 & R10 & _). destruct (sends_facts p Hp) as (Hz & Hsort & Hb).
  destruct (rd_range _ _ _ _ _ _ _ (Hready p Hp)) as [Hr1 Hr2]. pose proof (rd_own _ _ _ _ _ _ _ (Hready p Hp)) as Hown. pose proof (zlen_nonneg (arrivedData (arr p))).
  destruct (shiftSendRanges_run (sends p) p (inc p)) as (shifted & E & Hzs & Hsh); [unfold numRanks; lia|lia| |].
  { apply Forall_forall. intros x (i & Hi)%list_elem_of_lookup. rewrite <- aget_nat in Hi. pose proof (aget_Some_range _ _ _ Hi). apply nthz_Some in Hi. specialize (Hb (Z.of_nat i) ltac:(lia)). lia. }
  exists shifted. split; [done|].
  assert (Hpos : forall x l i, 0 <= x -> 0 <= i -> (drop (Z.to_nat x) l).[i] = (l : list Z).[x + i]) by (intros x l i Hx Hi; rewrite !aget_lookup, lookup_drop by lia; f_equal; lia).
  assert (Hn : nthz shifted (p + 1) - nthz (sends p) (p + 1) = inc p) by (rewrite Hsh by lia; destruct (Z.ltb_spec p (p + 1)); lia).
  apply resend; unfold numRanks; rewrite ?Hn, ?Hz, ?Z.add_simpl_r; try done; try lia.
  - intros q Hq. apply Hsh. lia.
  - intros i Hi. pose proof (Hb p ltac:(lia)). rewrite !Hpos by lia. apply (R10 i); lia.
  - intros i Hi. pose proof (Hb (p + 1) ltac:(lia)). pose proof (Hb n ltac:(lia)). rewrite !Hpos by lia. rewrite Z.add_assoc. apply (R10 i); lia.
  - apply Hb. lia.
Qed.

(** After the repeated exchange every present or received particle has its property. *)
Lemma props_match p r props' j : 0 <= p < n -> written (particles p) (d_particles (d p)) r (arrivedData (arr p)) -> written (props p) props' r (prop <$> arrivedData (arr p)) ->
  r + inc p = bstart (o p) \/ r = bend (o p) -> inEnvelope (o p) r (inc p) j -> props'.[j] = prop <$> (d_particles (d p)).[j].
Proof using Hprops.
  intros Hp [_ W1 W2] [_ V1 V2] Hr Hj. rewrite zlen_map in V1, V2. destruct (Hprops p Hp) as [_ Hpr]. destruct (decide (r <= j < r + inc p)) as [Hin|Hout].
  - replace j with (r + (j - r)) by lia. rewrite W1, V1 by lia. apply aget_map.
  - destruct Hj as [Hj|Hj]; [|lia]. rewrite W2, V2 by done. by apply Hpr.
Qed.

(** *** Any number of messages *)

Section Chunks.
Context (sent2 : Z -> list (list (Message R))).
Hypothesis Hsent2 : forall q, 0 <= q < n -> sendMessages sizes2 (sends q) q (drop (Z.to_nat (bstart (o q))) (ordering q)) (props q) = Some (sent2 q).
Hypothesis Hless : maxMessage sizes2 <= maxMessage sizes.

Lemma sends_range p q : 0 <= p < n -> 0 <= q < n -> 0 <= p < numRanks (sends q) /\ 0 <= nthz (sends q) (p + 1) - nthz (sends q) p < 4294967296.
Proof using Hs Hready Hsends.
  intros Hp Hq. destruct (sends_facts q Hq) as (Hz & Hsort & Hb). unfold numRanks. split; [lia|]. pose proof (Hb p ltac:(lia)). pose proof (Hb (p + 1) ltac:(lia)).
  assert (nthz (sends q) p <= nthz (sends q) (p + 1)) by (apply (Hsort p (p + 1)); [lia|apply nthz_get; lia..]).
  destruct (rd_range _ _ _ _ _ _ _ (Hready q Hq)). pose proof (rd_own _ _ _ _ _ _ _ (Hready q Hq)). lia.
Qed.

Lemma queue2_to p q : 0 <= p < n -> 0 <= q < n -> Forall wellFormed (messagesTo p (sent2 q)) /\ concat (msgData <$> messagesTo p (sent2 q)) = prop <$> sentData (own q) (sends q) q p.
Proof using Hs Hfit2 Hready Hsends Hprops Hsent2.
  intros Hp Hq. destruct (props_sends q Hq) as (sent' & E & Hr). rewrite (Hsent2 q Hq) in E. injection E as <-. by destruct (Hr p Hp) as (H1 & H2 & _).
Qed.

Lemma same_length p arr2 : 0 <= p < n -> interleaves (fun q => messagesTo p (sent2 q)) (seqZ 0 n) arr2 -> zlen (arrivedData arr2) = inc p.
Proof using Hs Hfit Hfit2 Hready Hsends Hprops Hsent Harr Hsent2.
  intros Hp H2. pose proof (interleaves_perm _ _ _ (NoDup_seqZ 0 n) H2) as E2. pose proof (arrivals_data sfcKey k s sizes o ordering keys sends particles own Hs Hfit Hready Hsends sent Hsent p (arr p) Hp (Harr p Hp)) as E1.
  unfold zlen. rewrite E1, E2. f_equal. assert (Hall : forall q, q ∈ seqZ 0 n -> length (concat (msgData <$> messagesTo p (sent2 q))) = length (sentData (own q) (sends q) q p)).
  { intros q Hq%elem_of_seqZ. destruct (queue2_to p q Hp ltac:(lia)) as [_ ->]. by rewrite length_fmap. }
  clear -Hall. induction (seqZ 0 n) as [|q l IH]; [done|]. rewrite !bind_cons, !length_app, Hall by by left. rewrite IH; [done|]. intros q' Hq'. apply Hall. by right.
Qed.

(** Every message of the repeated exchange is written into the block of the first message of its sender. *)
Lemma chunk_location p r q m : 0 <= p < n -> 0 <= q < n -> 0 <= r -> m ∈ messagesTo p (sent2 q) ->
  exists loc, logLookup q (arrivalLog (arr p) r) = Some loc /\ 0 <= loc /\ loc + msgCount m <= r + inc p /\ forall i, loc <= i < loc + msgCount m -> firstBlock r (arr p) i.
Proof using Hs Hfit Hfit2 Hready Hsends Hsent Harr Hsent2 Hless.
  intros Hp Hq Hr Hm. destruct (sends_range p q Hp Hq) as [Hpn Hc]. destruct (message_counts _ _ _ _ _ _ _ Hfit2 (Hsent2 q Hq) Hpn Hc m Hm) as (Hne & Hpos & Hle).
  destruct (first_count _ _ _ _ _ _ _ Hfit (Hsent q Hq) Hpn Hc Hne Hpos) as (m1 & rest & E1 & Hm1). destruct (Harr p Hp) as [_ Hin]. specialize (Hin q ltac:(apply elem_of_seqZ; lia)). rewrite E1 in Hin.
  pose proof (arrivals_wellFormed sfcKey k s sizes o ordering keys sends particles own Hs Hfit Hready Hsends sent Hsent p (arr p) Hp (Harr p Hp)) as Hw.
  destruct (first_message _ _ _ _ Hin) as (pre & post & Ea & Hnq & _). rewrite Ea in Hw |- *. apply Forall_app in Hw as [Hw1 [[Hm1' Hd1] _]%Forall_cons]. cbn [snd] in *.
  exists (r + zlen (arrivedData pre)). pose proof (zlen_nonneg (arrivedData pre)). pose proof (zlen_nonneg (arrivedData post)).
  split; [by apply logLookup_first|]. split; [lia|]. split; [rewrite arrivedData_app, arrivedData_cons, !zlen_app; cbn [snd]; lia|].
  intros i Hi. exists pre, q, m1, post. split; [done|]. split; [done|]. lia.
Qed.

Lemma chunks_run p arr2 : 0 <= p < n -> interleaves (fun q => messagesTo p (sent2 q)) (seqZ 0 n) arr2 -> exists r props',
  redoExchange p (zlen (assignedTo sfcKey s own p)) (sends p) (d_recvLog (d p)) (o p) (drop (Z.to_nat (d_start (d p))) (d_ordering (d p))) sizes2 arr2 (props p) = Some (sent2 p, d_recvLog (d p), props', []) /\
  receiveStart (o p) (inc p) = Some r /\ forall i, ~ firstBlock r (arr p) i -> props'.[i] = (props p).[i].
Proof using All.
  intros Hp H2. destruct (redo_setup p Hp) as (r & assigned & R1 & R2 & R3 & R4 & R5 & R6 & _). destruct (redo_sends p Hp) as (shifted & Esh & Esend).
  destruct (sends_facts p Hp) as (Hz & Hsort & Hb). destruct (sends_range p p Hp Hp) as [_ Hc]. destruct (Hprops p Hp) as [Hzp _]. pose proof (rd_particles _ _ _ _ _ _ _ (Hready p Hp)) as Hpz. destruct (rd_range _ _ _ _ _ _ _ (Hready p Hp)) as [_ Hr2].
  pose proof (same_length p arr2 Hp H2) as Hl. pose proof (zlen_nonneg (arrivedData (arr p))) as Hn0.
  assert (Hmsgs : Forall (fun e => wellFormed e.2 /\ exists loc, logLookup e.1 (arrivalLog (arr p) r) = Some loc /\ 0 <= loc /\ loc + msgCount e.2 <= bsize (o p) /\
    forall i, loc <= i < loc + msgCount e.2 -> firstBlock r (arr p) i) arr2).
  { destruct H2 as [Hin Hqs]. apply Forall_forall. intros [q m] He. rewrite Forall_forall in Hin. pose proof (Hin _ He) as Hq. cbn [fst snd] in *. pose proof Hq as Hq'%elem_of_seqZ.
    assert (Hm : m ∈ messagesTo p (sent2 q)) by (rewrite <- (Hqs q Hq); apply list_elem_of_fmap; exists (q, m); split; [done|]; by apply list_elem_of_filter).
    destruct (queue2_to p q Hp ltac:(lia)) as [Hw _]. rewrite Forall_forall in Hw. split; [by apply Hw|]. destruct (chunk_location p r q m Hp ltac:(lia) R2 Hm) as (loc & L1 & L2 & L3 & L4). exists loc. split; [done|]. split; [done|]. split; [lia|done]. }
  destruct (replay_outside (firstBlock r (arr p)) (arrivalLog (arr p) r) (bsize (o p)) arr2 Hmsgs r (props p)) as (props' & Er & _ & Hout); [lia|done|lia|].
  exists r, props'. split; [|done]. unfold redoExchange, sendCount. rewrite (nthz_get (sends p) (p + 1)), (nthz_get (sends p) p) by lia. cbn beta iota.
  destruct (Z.leb_spec (nthz (sends p) p) (nthz (sends p) (p + 1))); [|lia]. rewrite (u32_small (nthz (sends p) (p + 1) - nthz (sends p) p)) by lia. rewrite R5, (u32_small (inc p)), R1, Esh by lia. cbn beta iota.
  unfold exchangeParticles. rewrite Esend, (Hsent2 p Hp), (u32_small (r + inc p)) by lia. cbn beta iota. rewrite R6. rewrite Hl in Er. case_bool_decide as Hlog; [|by rewrite Er].
  assert (Ea : arr p = []) by (clear -Hlog; by destruct (arr p) as [|[q m] l]). rewrite Ea in *. change (zlen (arrivedData (@nil (Z * Message P)))) with 0 in *. rewrite Z.add_0_r in *.
  destruct arr2 as [|[q m] arr2]; cbn [receiveLoop] in Er |- *; rewrite Z.eqb_refl in Er |- *; congruence.
Qed.

(** The first particle of the second message of a rank. *)
Lemma stale_position p q : 0 <= p < n -> 0 <= q < n -> p <> q -> maxMessage sizes < nthz (sends q) (p + 1) - nthz (sends q) p ->
  exists j x, x ∈ own q /\ findRank s (sfcKey x) = Some p /\ (d_particles (d p)).[j] = Some x /\ ~ (bstart (o p) <= j < bend (o p)) /\ 
    forall r, receiveStart (o p) (inc p) = Some r -> ~ firstBlock r (arr p) j.
Proof using Hs Hfit Hready Hsends Hsent Harr Hcount Hd.
  intros Hp Hq Hne Hmany. destruct (sends_range p q Hp Hq) as [Hpn Hc]. destruct (first_count _ _ _ _ _ _ _ Hfit (Hsent q Hq) Hpn Hc Hne ltac:(lia)) as (m1 & rest & E1 & Hm1).
  destruct (sent_to sfcKey k s sizes o ordering keys sends particles own Hs Hfit Hready Hsends sent Hsent p q Hp Hq) as (Hwq & Hcat & _). destruct (sends_facts q Hq) as (_ & _ & Hb).
  assert (Hlen : zlen (sentData (own q) (sends q) q p) = nthz (sends q) (p + 1) - nthz (sends q) p).
  { unfold sentData. rewrite decide_False by done. apply slice_zlen; [pose proof (Hb p ltac:(lia)); lia|apply Hb; lia]. }
  destruct rest as [|m2 rest].
  { rewrite E1 in Hcat, Hwq. cbn in Hcat. rewrite app_nil_r in Hcat. apply Forall_cons in Hwq as [[_ Hd1] _]. rewrite Hcat in Hd1. lia. }
  destruct (Harr p Hp) as [_ Hin]. specialize (Hin q ltac:(apply elem_of_seqZ; lia)). rewrite E1 in Hin. destruct (first_message _ _ _ _ Hin) as (pre & post & Ea & Hnq & Hin2).
  destruct (first_message _ _ _ _ Hin2) as (mid & post2 & -> & _ & _). rewrite app_comm_cons, app_assoc in Ea. set (before := pre ++ (q, m1) :: mid) in *.
  destruct (redo_setup p Hp) as (r & assigned & R1 & R2 & R3 & R4 & R5 & R6 & R7 & _).
  pose proof (arrivals_wellFormed sfcKey k s sizes o ordering keys sends particles own Hs Hfit Hready Hsends sent Hsent p (arr p) Hp (Harr p Hp)) as Hw. rewrite Ea in Hw.
  pose proof Hw as [_ [[Hm2 Hd2] _]%Forall_cons]%Forall_app. cbn [snd] in *. destruct (msgData m2) as [|x data] eqn:Edata; [change (zlen (@nil P)) with 0 in Hd2; lia|].
  assert (Hx : x ∈ sentData (own q) (sends q) q p).
  { rewrite <- Hcat, E1. cbn [fmap list_fmap concat]. rewrite Edata. apply elem_of_app. right. apply elem_of_app. left. by left. }
  rewrite (sentData_filter sfcKey k s o ordering keys sends particles own Hs Hready Hsends p q Hp Hq), decide_False in Hx by congruence. apply list_elem_of_filter in Hx as [Hrange Hx].
  assert (Hinc : zlen (arrivedData before) < inc p).
  { rewrite Ea, arrivedData_app, arrivedData_cons, !zlen_app. cbn [snd]. rewrite Edata. pose proof (zlen_nonneg (arrivedData post2)). lia. }
  pose proof (zlen_nonneg (arrivedData before)). exists (r + zlen (arrivedData before)), x. split; [done|]. split; [by apply (findRank_iff k s Hs)|]. split; [|split].
  - rewrite (w_in _ _ _ _ R7) by lia. rewrite Ea, arrivedData_app, aget_app_r by lia. rewrite Z.sub_diag, arrivedData_cons. cbn [snd]. by rewrite Edata.
  - destruct (rd_range _ _ _ _ _ _ _ (Hready p Hp)). lia.
  - intros r' Er'. rewrite R1 in Er'. injection Er' as <-. rewrite Ea. apply later_outside; [done|]. unfold before. rewrite fmap_app, fmap_cons. apply elem_of_app. right. by left.
Qed.

End Chunks.

(** *** One message for each rank *)

Hypothesis Hsmall : forall p q, 0 <= p < n -> 0 <= q < n -> zlen (sentData (own q) (sends q) q p) <= maxMessage sizes /\ zlen (sentData (own q) (sends q) q p) <= maxMessage sizes2.

Lemma first_to p q : 0 <= p < n -> 0 <= q < n -> Forall wellFormed (messagesTo p (sent q)) /\ concat (msgData <$> messagesTo p (sent q)) = sentData (own q) (sends q) q p /\ (length (messagesTo p (sent q)) <= 1)%nat.
Proof using Hs Hfit Hready Hsends Hsent Hsmall.
  intros Hp Hq. destruct (sent_to sfcKey k s sizes o ordering keys sends particles own Hs Hfit Hready Hsends sent Hsent p q Hp Hq) as (H1 & H2 & H3).
  split; [done|]. split; [done|]. apply H3, Hsmall; done.
Qed.

Lemma redo_to (sent2 : Z -> list (list (Message R))) :
  (forall q, 0 <= q < n -> sendMessages sizes2 (sends q) q (drop (Z.to_nat (bstart (o q))) (ordering q)) (props q) = Some (sent2 q)) ->
  forall p q, 0 <= p < n -> 0 <= q < n -> Forall wellFormed (messagesTo p (sent2 q)) /\ concat (msgData <$> messagesTo p (sent2 q)) = prop <$> sentData (own q) (sends q) q p /\
    (length (messagesTo p (sent2 q)) <= 1)%nat.
Proof using Hs Hfit2 Hready Hsends Hprops Hsmall.
  intros Hsent2 p q Hp Hq. destruct (props_sends q Hq) as (sent' & E & Hr). rewrite (Hsent2 q Hq) in E. injection E as <-. destruct (Hr p Hp) as (H1 & H2 & H3).
  split; [done|]. split; [done|]. apply H3, Hsmall; done.
Qed.

(** The received data, by sender. *)
Lemma arrived_bind p : 0 <= p < n -> arrivedData (arr p) = (fst <$> arr p) ≫= (fun q => sentData (own q) (sends q) q p).
Proof using Hs Hfit Hready Hsends Hsent Hsmall Harr.
  intros Hp. assert (Hall : forall q m, (q, m) ∈ arr p -> msgData m = sentData (own q) (sends q) q p).
  { intros q m He. destruct (single_queue (fun q => messagesTo p (sent q)) (seqZ 0 n) (arr p) (Harr p Hp)) with (q := q) (m := m) as [Hq E]; [|done|].
    - intros q' Hq'%elem_of_seqZ. by apply first_to; [|lia].
    - apply elem_of_seqZ in Hq. destruct (first_to p q Hp ltac:(lia)) as (_ & C & _). rewrite E in C. cbn in C. by rewrite app_nil_r in C. }
  clear -Hall. induction (arr p) as [|[q m] l IH]; [done|]. rewrite fmap_cons, bind_cons. unfold arrivedData. cbn [fmap list_fmap concat snd fst]. f_equal; [apply Hall; by left|]. apply IH. intros. apply Hall. by right.
Qed.

Lemma bind_data (sent2 : Z -> list (list (Message R))) :
  (forall q, 0 <= q < n -> sendMessages sizes2 (sends q) q (drop (Z.to_nat (bstart (o q))) (ordering q)) (props q) = Some (sent2 q)) ->
  forall p (l : list (Z * Message P)), 0 <= p < n -> Forall (fun e => e.1 ∈ seqZ 0 n) l ->
  ((fst <$> l) ≫= fun q => concat (msgData <$> messagesTo p (sent2 q))) = prop <$> ((fst <$> l) ≫= fun q => sentData (own q) (sends q) q p).
Proof using Hs Hfit2 Hready Hsends Hprops Hsmall.
  intros Hsent2 p l Hp. induction l as [|[q m] l IH]; intros Hl; [done|]. apply Forall_cons in Hl as [Hq%elem_of_seqZ Hl]. rewrite fmap_cons, !bind_cons, fmap_app. cbn [fst] in *.
  destruct (redo_to sent2 Hsent2 p q Hp ltac:(lia)) as (_ & -> & _). by rewrite IH.
Qed.

Lemma redo_world (sent2 : Z -> list (list (Message R))) :
  (forall q, 0 <= q < n -> sendMessages sizes2 (sends q) q (drop (Z.to_nat (bstart (o q))) (ordering q)) (props q) = Some (sent2 q)) ->
  forall p arr2, 0 <= p < n -> interleaves (fun q => messagesTo p (sent2 q)) (seqZ 0 n) arr2 ->
  exists assigned props', redoExchange p (zlen (assignedTo sfcKey s own p)) (sends p) (d_recvLog (d p)) (o p) (drop (Z.to_nat (d_start (d p))) (d_ordering (d p))) sizes2 arr2 (props p) =
      Some (sent2 p, d_recvLog (d p), props', []) /\ assigned ≡ₚ assignedTo sfcKey s own p /\ d_keyView (d p) = sfcKey <$> assigned /\
    inOrder (drop (Z.to_nat (d_start (d p) + nthz (sends p) p)) (d_ordering (d p))) (d_particles (d p)) assigned /\
    inOrder (drop (Z.to_nat (d_start (d p) + nthz (sends p) p)) (d_ordering (d p))) props' (prop <$> assigned).
Proof using All.
  intros Hsent2 p arr2 Hp Harr2. destruct (redo_setup p Hp) as (r & assigned & R1 & R2 & R3 & R4 & R5 & R6 & R7 & R7' & R8 & R9 & R10 & R11 & R12 & R13).
  destruct (sends_facts p Hp) as (Hz & Hsort & Hb). destruct (rd_range _ _ _ _ _ _ _ (Hready p Hp)) as [Hr1 Hr2]. destruct (Hprops p Hp) as [Hzp Hpr].
  pose proof (rd_particles _ _ _ _ _ _ _ (Hready p Hp)) as Hpz. pose proof (zlen_nonneg (arrivedData (arr p))) as Hn0.
  destruct (replay_single (fun q => messagesTo p (sent q)) (fun q => messagesTo p (sent2 q)) (seqZ 0 n) (arr p) arr2 (Harr p Hp) Harr2) with (r := r) (props := props p) as (props' & Er & Hw).
  1-5: intros q Hq%elem_of_seqZ; destruct (first_to p q Hp ltac:(lia)) as (W1 & C1 & L1); destruct (redo_to sent2 Hsent2 p q Hp ltac:(lia)) as (W2 & C2 & L2); try done.
  { by rewrite C1, C2, zlen_map. }
  all: try lia.
  rewrite (bind_data sent2 Hsent2 p (arr p) Hp (proj1 (Harr p Hp))), <- (arrived_bind p Hp) in Hw. rewrite <- R6 in Er. exists assigned, props'. destruct (redo_sends p Hp) as (shifted & Esh & Esend). split.
  - unfold redoExchange, sendCount. rewrite (nthz_get (sends p) (p + 1)), (nthz_get (sends p) p) by lia. cbn beta iota.
    pose proof (Hb p ltac:(lia)). pose proof (Hb (p + 1) ltac:(lia)). pose proof (rd_own _ _ _ _ _ _ _ (Hready p Hp)).
    assert (Hab : nthz (sends p) p <= nthz (sends p) (p + 1)) by (apply (Hsort p (p + 1)); [lia|apply nthz_get; lia..]).
    destruct (Z.leb_spec (nthz (sends p) p) (nthz (sends p) (p + 1))); [|lia]. rewrite (u32_small (nthz (sends p) (p + 1) - nthz (sends p) p)) by lia. rewrite R5, (u32_small (inc p)), R1, Esh by lia. cbn beta iota.
    unfold exchangeParticles. rewrite Esend, (Hsent2 p Hp). rewrite (u32_small (r + inc p)) by lia. rewrite Er. done.
  - split; [done|]. split; [done|]. split; [done|]. destruct R12 as [Hl Hget]. split; [by rewrite zlen_map|]. rewrite zlen_map. intros i Hi. pose proof (Hget i Hi) as Hi'.
    rewrite aget_map, <- Hi'. destruct ((drop (Z.to_nat (d_start (d p) + nthz (sends p) p)) (d_ordering (d p))).[i]) as [j|] eqn:Ej; [|done]. cbn beta iota. cbn beta iota in Hi'.
    apply (props_match p r props' j); try done. assert (Hza : zlen assigned = zlen (assignedTo sfcKey s own p)) by (unfold zlen; by rewrite R11).
    pose proof (Hb p ltac:(lia)). pose proof (Hb (p + 1) ltac:(lia)). rewrite aget_lookup, lookup_drop in Ej by lia. rewrite Forall_forall in R7'. apply R7'.
    apply (list_elem_of_lookup_2 _ (Z.to_nat (nthz (sends p) p + i))). rewrite <- aget_lookup, slice_get by lia. rewrite aget_lookup by lia. rewrite <- Ej. f_equal. lia.
Qed.

End Redo.
