(* ===== verification/Halos.v ===== *)
(** * Halo exchange

    [cstone/focus/peer_flags.hpp], [cstone/halos/halo_peers.hpp], [cstone/domain/exchange_keys.hpp],
    [cstone/halos/exchange_halos.hpp] and the class [Halos] of [cstone/halos/halos.hpp]: which ranks
    exchange halos, the requests for them, and their transfer.  The exchanged arrays are one list of
    particles, as in [Exchange]. *)

From S2P Require Import Prelude Primitives SfcCommon Csarray CsInvariant CsCounts IndexRanges DomainDecomp Layout Octree FocusRebalance GlobalTree Exchange Distribute.

(** ** Peer flags *)

Inductive PeerMask := focusPeerMask | haloPeerMask.

Definition maskValue (m : PeerMask) : Z := match m with focusPeerMask => 1 | haloPeerMask => 2 end.

(** [std::includes] of sorted ranges: every element of the second one is in the first one. *)
Fixpoint std_includes (range : list Z) (other : list Z) : bool :=
  match range with
  | [] => bool_decide (other = [])
  | x :: range' =>
      match other with
      | [] => true
      | y :: other' => if y <? x then false else if x <? y then std_includes range' other else std_includes range' other'
      end
  end.

(** The iteration for [rank] of [focusPeers]. *)
Definition focusPeerFlag (globalOffsets : list Z) (focusOffsets : list IndexPair) (myRank : Z) (globalTree focusTree : list Z) (rank : Z) (peerFlags : list Z) : option (list Z) :=
  if rank =? myRank then Some peerFlags
  else
    let? g1 := globalOffsets.[rank] in
    let? g2 := globalOffsets.[rank + 1] in
    let? f := focusOffsets.[rank] in
    let? glob := subspan globalTree g1 (g2 - g1) in
    let? foc := subspan focusTree (start f) (count f) in
    let isPeer := if zlen glob <? zlen foc then true else negb (std_includes glob foc) in
    if isPeer then let? v := peerFlags.[rank] in aset peerFlags rank (Z.lor v (maskValue focusPeerMask)) else Some peerFlags.

Definition focusPeers (globalOffsets : list Z) (focusOffsets : list IndexPair) (myRank : Z) (globalTree focusTree : list Z) : option (list Z) :=
  let numRanks := zlen globalOffsets - 1 in
  for_loop 0 numRanks (focusPeerFlag globalOffsets focusOffsets myRank globalTree focusTree) (replicate (Z.to_nat numRanks) 0).

Definition peerFlagsToList (peerFlags : list Z) (mask : PeerMask) : option (list Z) :=
  for_loop 0 (zlen peerFlags) (fun rank peersList =>
    let? f := peerFlags.[rank] in
    Some (if Z.land f (maskValue mask) =? 0 then peersList else peersList ++ [rank])) [].

(** The iteration for [rank] of [haloPeers]. *)
Definition haloPeerFlag (myRank : Z) (layout : list Z) (fAssignment : list IndexPair) (rank : Z) (peerFlags : list Z) : option (list Z) :=
  if rank =? myRank then Some peerFlags
  else
    let? a := fAssignment.[rank] in
    let? lEnd := layout.[end_ a] in
    let? lStart := layout.[start a] in
    if lStart <? lEnd then let? v := peerFlags.[rank] in aset peerFlags rank (Z.lor v (maskValue haloPeerMask)) else Some peerFlags.

Definition haloPeers (myRank : Z) (layout : list Z) (fAssignment : list IndexPair) : option (list Z) :=
  for_loop 0 (zlen fAssignment) (haloPeerFlag myRank layout fAssignment) (replicate (length fAssignment) 0).

(** [interiorPeerFlags] is the result of [MPI_Alltoall]. *)
Definition exchangePeers (exteriorPeerFlags interiorPeerFlags : list Z) : option (list Z * list Z) :=
  let? exteriorPeers := peerFlagsToList exteriorPeerFlags haloPeerMask in
  let? interiorPeers := peerFlagsToList interiorPeerFlags haloPeerMask in
  Some (exteriorPeers, interiorPeers).

(** ** Requests *)

(** The keys that are requested from [peer]; the number of iterations is at most twice the
    number of leaves of the peer. *)
Definition requestKeys (treeLeaves : list Z) (assignment : list IndexPair) (layout : list Z) (peer : Z) : option (list Z) :=
  let? a := assignment.[peer] in
  extractMarkedElements (Z.to_nat (2 * count a + 1)) treeLeaves layout (start a) (end_ a).

Definition addRequest (treeLeaves layout : list Z) (lowerKey upperKey : Z) (m : IndexRanges) : option IndexRanges :=
  let? lower := findNodeAbove treeLeaves (zlen treeLeaves) lowerKey in
  let? lowerIdx := layout.[lower] in
  let? upper := findNodeAbove treeLeaves (zlen treeLeaves) upperKey in
  let? upperIdx := layout.[upper] in
  Some (addRange lowerIdx upperIdx m).

(** The loop over the pairs of keys of a message. *)
Fixpoint addRequests (treeLeaves layout : list Z) (keys : list Z) (m : IndexRanges) : option IndexRanges :=
  match keys with
  | [] => Some m
  | [_] => None
  | lowerKey :: upperKey :: keys =>
      let? m := addRequest treeLeaves layout lowerKey upperKey m in
      addRequests treeLeaves layout keys m
  end.

(** [MPI_Recv] fails if the message is longer than the buffer. *)
Fixpoint receiveRequests (numMessages : nat) (treeLeaves layout : list Z) (arrivals : list (Z * list Z)) (ret : list IndexRanges) :
    option (list IndexRanges * list (Z * list Z)) :=
  match numMessages with
  | O => Some (ret, arrivals)
  | S numMessages =>
      match arrivals with
      | [] => None
      | (receiveRank, keys) :: arrivals =>
          if zlen treeLeaves <? zlen keys then None
          else
            let? m := ret.[receiveRank] in
            let? m := addRequests treeLeaves layout keys m in
            let? ret := aset ret receiveRank m in
            receiveRequests numMessages treeLeaves layout arrivals ret
      end
  end.

(** The sent messages with their destinations, the send list, and the messages that are left. *)
Definition exchangeRequestKeys (treeLeaves : list Z) (assignment : list IndexPair) (exteriorRanks interiorRanks layout : list Z) (arrivals : list (Z * list Z)) :
    option (list (Z * list Z) * list IndexRanges * list (Z * list Z)) :=
  let? sent := mapM (fun peer => let? keys := requestKeys treeLeaves assignment layout peer in Some (peer, keys)) exteriorRanks in
  let? (ret, rest) := receiveRequests (length interiorRanks) treeLeaves layout arrivals (replicate (length assignment) emptyRanges) in
  Some (sent, ret, rest).

(** ** The class Halos *)

Record Halos := mkHalos {
  h_myRank : Z;
  incomingHaloIndices_ : list IndexPair;
  outgoingHaloIndices_ : list IndexRanges;
  exteriorPeers_ : list Z;
  interiorPeers_ : list Z;
  haloEpoch_ : Z
}.

Definition newHalos (myRank : Z) : Halos := mkHalos myRank [] [] [] [] 0.

Definition setIncoming (assignment : list IndexPair) (layout : list Z) (peers : list Z) (incoming : list IndexPair) : option (list IndexPair) :=
  foldl (fun incoming peer =>
    let? incoming := incoming in
    let? a := assignment.[peer] in
    let? s := layout.[start a] in
    let? e := layout.[end_ a] in
    aset incoming peer (mkIndexPair s e)) (Some incoming) peers.

(** [interiorPeerFlags] and [arrivals] come from the other ranks. *)
Definition exchangeRequests (h : Halos) (leaves : list Z) (assignment : list IndexPair) (layout interiorPeerFlags : list Z) (arrivals : list (Z * list Z)) :
    option (list Z * list (Z * list Z) * Halos * list (Z * list Z)) :=
  let? exteriorPeerFlags := haloPeers (h_myRank h) layout assignment in
  let? (exteriorPeers, interiorPeers) := exchangePeers exteriorPeerFlags interiorPeerFlags in
  let? (sent, outgoing, rest) := exchangeRequestKeys leaves assignment exteriorPeers interiorPeers layout arrivals in
  let? incoming := setIncoming assignment layout exteriorPeers (replicate (length assignment) (mkIndexPair 0 0)) in
  Some (exteriorPeerFlags, sent, mkHalos (h_myRank h) incoming outgoing exteriorPeers interiorPeers (haloEpoch_ h), rest).

(** ** Transfer *)

Section Transfer.
Context {P : Type} (zero : P).

(** The send buffer, which is initialised with zeros. *)
Definition packHalos (outHalos : IndexRanges) (particles : list P) : option (list P) :=
  for_loop 0 (nRanges outHalos) (fun rangeIdx buffer =>
    let? first := rangeStart outHalos rangeIdx in
    let? n := rangesCount outHalos rangeIdx in
    let? off := (scan_ outHalos).[rangeIdx] in
    let? data := subspan particles first n in
    writeFrom data buffer off) (replicate (Z.to_nat (totalCount_ outHalos)) zero).

Definition sendHalos (outgoingHalos : list IndexRanges) (particles : list P) : option (list (Z * list P)) :=
  for_loop 0 (zlen outgoingHalos) (fun destinationRank sent =>
    let? m := outgoingHalos.[destinationRank] in
    if totalCount_ m =? 0 then Some sent
    else
      let? buffer := packHalos m particles in
      Some (sent ++ [(destinationRank, buffer)])) [].

(** A message of another size than expected is [None]: the buffer is too short or holds stale elements. *)
Fixpoint receiveHalos (numMessages : nat) (incomingHalos : list IndexPair) (arrivals : list (Z * list P)) (particles : list P) :
    option (list P * list (Z * list P)) :=
  match numMessages with
  | O => Some (particles, arrivals)
  | S numMessages =>
      match arrivals with
      | [] => None
      | (receiveRank, data) :: arrivals =>
          let? inHalos := incomingHalos.[receiveRank] in
          if zlen data =? u32 (count inHalos) then
            let? particles := writeFrom data particles (start inHalos) in
            receiveHalos numMessages incomingHalos arrivals particles
          else None
      end
  end.

Definition numIncoming (incomingHalos : list IndexPair) : nat := length (filter (fun r => 0 < u32 (count r)) incomingHalos).

(** The sent messages, the particles, and the messages that are left. *)
Definition haloexchange (incomingHalos : list IndexPair) (outgoingHalos : list IndexRanges) (arrivals : list (Z * list P)) (particles : list P) :
    option (list (Z * list P) * list P * list (Z * list P)) :=
  let? sent := sendHalos outgoingHalos particles in
  let? (particles, rest) := receiveHalos (numIncoming incomingHalos) incomingHalos arrivals particles in
  Some (sent, particles, rest).

Definition exchangeHalos (h : Halos) (arrivals : list (Z * list P)) (particles : list P) :
    option (list (Z * list P) * Halos * list P * list (Z * list P)) :=
  let? (sent, particles, rest) := haloexchange (incomingHaloIndices_ h) (outgoingHaloIndices_ h) arrivals particles in
  Some (sent, mkHalos (h_myRank h) (incomingHaloIndices_ h) (outgoingHaloIndices_ h) (exteriorPeers_ h) (interiorPeers_ h) (haloEpoch_ h + 1), particles, rest).

End Transfer.
