(* ===== verification/HaloExchange.v ===== *)
(** * Correctness of the halo exchange *)

From S2P Require Import Prelude Primitives SfcCommon Csarray CsInvariant CsCounts CsRebalance CsBuild IndexRanges DomainDecomp Layout Octree FocusRebalance GlobalTree Exchange Distribute Halos.

(** ** Peer lists *)

Lemma peerFlagsToList_run flags mask : peerFlagsToList flags mask = Some (filter (fun r => Z.land (nthz flags r) (maskValue mask) <> 0) (seqZ 0 (zlen flags))).
Proof.
  unfold peerFlagsToList. pose proof (zlen_nonneg flags). match goal with |- for_loop _ _ ?bd _ = _ =>
    destruct (for_loop_inv (fun i l => l = filter (fun r => Z.land (nthz flags r) (maskValue mask) <> 0) (seqZ 0 i)) 0 (zlen flags) bd []) as (l & -> & ->); [lia|done| |done] end.
  intros i l Hi ->. rewrite (nthz_get flags i) by lia. eexists. split; [done|]. rewrite seqZ_app, filter_app by lia. change (seqZ (0 + i) 1) with [0 + i]. rewrite Z.add_0_l, filter_cons, filter_nil.
  destruct (Z.eqb_spec (Z.land (nthz flags i) (maskValue mask)) 0) as [E|E]; [rewrite decide_False by tauto; by rewrite app_nil_r|by rewrite decide_True by done].
Qed.

(** Rank [q] has halos of rank [p]. *)
Definition isHaloPeer (p : Z) (layout : list Z) (assignment : list IndexPair) (q : Z) : bool :=
  match assignment.[q] with
  | Some a => negb (q =? p) && (nthz layout (start a) <? nthz layout (end_ a))
  | None => false
  end.

Lemma haloPeers_run p layout assignment :
  (forall q a, assignment.[q] = Some a -> 0 <= start a < zlen layout /\ 0 <= end_ a < zlen layout) ->
  haloPeers p layout assignment = Some ((fun q => if isHaloPeer p layout assignment q then 2 else 0) <$> seqZ 0 (zlen assignment)).
Proof.
  intros Ha. unfold haloPeers. pose proof (zlen_nonneg assignment). set (f q := if isHaloPeer p layout assignment q then 2 else 0).
  destruct (for_loop_inv (fun i st => zlen st = zlen assignment /\ (forall q, 0 <= q < i -> st.[q] = Some (f q)) /\ forall q, i <= q < zlen assignment -> st.[q] = Some 0)
    0 (zlen assignment) (haloPeerFlag p layout assignment) (replicate (length assignment) 0)) as (st & -> & Hz & Hst & _); [lia| | |].
  - split; [unfold zlen; by rewrite length_replicate|]. split; [lia|]. intros q Hq. rewrite aget_lookup by lia. apply lookup_replicate. unfold zlen in Hq. split; [done|lia].
  - intros i st Hi (Hz & Hlo & Hhi). unfold haloPeerFlag. destruct (aget_is_Some assignment i Hi) as [a Ea]. destruct (Ha i a Ea) as [H1 H2].
    assert (Hkeep : f i = 0 -> zlen st = zlen assignment /\ (forall q, 0 <= q < i + 1 -> st.[q] = Some (f q)) /\ (forall q, i + 1 <= q < zlen assignment -> st.[q] = Some 0)).
    { intros E. split; [done|]. split; [|intros q Hq; apply Hhi; lia]. intros q Hq. destruct (decide (q = i)) as [->|]; [rewrite E; apply Hhi; lia|apply Hlo; lia]. }
    unfold f, isHaloPeer in Hkeep. rewrite Ea in *. destruct (Z.eqb_spec i p) as [->|Hne]; [exists st; split; [done|by apply Hkeep]|]. cbn [negb andb] in Hkeep.
    rewrite (nthz_get layout (end_ a)), (nthz_get layout (start a)) by lia. destruct (nthz layout (start a) <? nthz layout (end_ a)) eqn:E; [|exists st; split; [done|by apply Hkeep]].
    rewrite (Hhi i) by lia. cbn [maskValue]. change (Z.lor 0 2) with 2. pose proof (aset_Some st i 2 ltac:(lia)) as Es. rewrite Es. eexists. split; [done|].
    split; [unfold zlen in *; by rewrite length_insert|]. split; intros q Hq.
    + destruct (decide (q = i)) as [->|]; [rewrite (aget_aset_eq _ _ _ _ Es); unfold f, isHaloPeer; rewrite Ea, E; by destruct (Z.eqb_spec i p)|]. rewrite (aget_aset_ne _ _ _ _ _ Es) by done. apply Hlo. lia.
    + rewrite (aget_aset_ne _ _ _ _ _ Es) by lia. apply Hhi. lia.
  - f_equal. apply list_eq_aget; [rewrite zlen_map, zlen_seqZ by lia; done|]. intros q Hq. rewrite Hst by lia. by rewrite aget_map, aget_seqZ by lia.
Qed.

(** ** Packing *)

Section Pack.
Context {P : Type} (zero : P) (particles : list P).

Definition rangeData (l : list (Z * Z)) : list P := l ≫= fun r => slice particles r.1 r.2.

Lemma rangeData_zlen l : Forall (fun r : Z * Z => 0 <= r.1 <= r.2 /\ r.2 <= zlen particles) l -> zlen (rangeData l) = zsum ((fun r => r.2 - r.1) <$> l).
Proof using.
  induction 1 as [|r l Hr _ IH]; [done|]. unfold rangeData. rewrite bind_cons, zlen_app, fmap_cons, zsum_cons. fold (rangeData l). rewrite IH, slice_zlen by lia. done.
Qed.

Lemma packHalos_run m l : holdsRanges m l -> Forall (fun r => r.2 <= zlen particles) l -> packHalos zero m particles = Some (rangeData l).
Proof using.
  intros Hm Hl. pose proof Hm as (Hr & Hsum & Ht & Ho & Hz & Hs). unfold packHalos. set (f := fun '(a, b) => b - a) in *.
  assert (Hr' : Forall (fun r : Z * Z => 0 <= r.1 <= r.2 /\ r.2 <= zlen particles) l).
  { rewrite Forall_forall in Hr, Hl |- *. intros [a b] Hab. specialize (Hr _ Hab). specialize (Hl _ Hab). simpl in *. lia. }
  assert (Hf : forall x : list (Z * Z), zsum (f <$> x) = zsum ((fun r => r.2 - r.1) <$> x)) by (intros x; f_equal; apply list_fmap_ext; by intros _ [a b] _).
  assert (En : nRanges m = zlen l) by (unfold nRanges; by rewrite Ho, zlen_map). rewrite En, Ht. pose proof (zlen_nonneg l).
  match goal with |- for_loop _ _ ?bd ?s0 = _ => destruct (for_loop_inv (fun i buf => exists rest, buf = rangeData (take (Z.to_nat i) l) ++ rest /\ zlen buf = zsum (f <$> l)) 0 (zlen l) bd s0) as (buf & -> & rest & -> & Hbuf) end.
  - lia.
  - eexists. split; [done|]. unfold zlen. rewrite length_replicate. rewrite Z2Nat.id; [done|]. rewrite Hf, <- rangeData_zlen by done. apply zlen_nonneg.
  - intros i buf Hi (rest & -> & Hbuf). destruct (aget_is_Some l i Hi) as [[a b] Hab]. destruct (holdsRanges_get m l i a b Hm Hab) as (-> & _ & ->). rewrite (Hs i) by lia. cbn beta iota.
    rewrite Forall_forall in Hr'. pose proof (Hr' _ (aget_elem _ _ _ Hab)) as Hr1. cbn [fst snd] in Hr1. rewrite subspan_run by lia. replace (a + (b - a)) with b by lia. cbn beta iota.
    assert (Htake : Forall (fun r : Z * Z => 0 <= r.1 <= r.2 /\ r.2 <= zlen particles) (take (Z.to_nat i) l)) by (apply Forall_take, Forall_forall; done).
    assert (Epre : prefixSum (f <$> l) i = zlen (rangeData (take (Z.to_nat i) l))) by (rewrite rangeData_zlen by done; unfold prefixSum; rewrite <- fmap_take; apply Hf). rewrite Epre.
    assert (El : l = take (Z.to_nat i) l ++ (a, b) :: drop (Z.to_nat (i + 1)) l).
    { replace (Z.to_nat (i + 1)) with (S (Z.to_nat i)) by lia. symmetry. apply take_drop_middle. by rewrite <- aget_lookup by lia. }
    assert (Hlen : b - a <= zlen rest).
    { assert (Et : zsum (f <$> l) = zlen (rangeData (take (Z.to_nat i) l)) + (b - a + zsum ((fun r => r.2 - r.1) <$> drop (Z.to_nat (i + 1)) l))).
      { rewrite rangeData_zlen by done. rewrite Hf. rewrite El at 1. rewrite fmap_app, zsum_app, fmap_cons, zsum_cons. done. }
      assert (0 <= zsum ((fun r : Z * Z => r.2 - r.1) <$> drop (Z.to_nat (i + 1)) l)).
      { apply zsum_nonneg, Forall_fmap, Forall_drop, Forall_forall. intros r Hrr. specialize (Hr' r Hrr). simpl. lia. }
      rewrite zlen_app in Hbuf. lia. }
    destruct (buffer_split rest 0 (b - a) ltac:(lia) ltac:(lia) ltac:(lia)) as (e & mid & post & -> & He & Hmid). apply zlen_zero_inv in He as ->. cbn [app].
    rewrite (writeFrom_block (slice particles a b)) by (rewrite slice_zlen; lia). eexists. split; [done|]. exists post. split.
    + assert (Es : take (Z.to_nat (i + 1)) l = take (Z.to_nat i) l ++ [(a, b)]).
      { replace (Z.to_nat (i + 1)) with (S (Z.to_nat i)) by lia. apply take_S_r. by rewrite <- aget_lookup by lia. }
      rewrite Es. unfold rangeData. rewrite bind_app. cbn [mbind list_bind fst snd]. by rewrite app_nil_r, <- app_assoc.
    + rewrite <- Hbuf, !zlen_app. rewrite slice_zlen by lia. rewrite ?zlen_nil. lia.
  - assert (Et : take (Z.to_nat (zlen l)) l = l) by (apply take_ge; unfold zlen; lia). rewrite Et in *. rewrite zlen_app, Hf, <- rangeData_zlen in Hbuf by done.
    assert (zlen rest = 0) as Hrest%zlen_zero_inv by lia. by rewrite Hrest, app_nil_r.
Qed.

Lemma sendHalos_run (N : Z) (M : Z -> IndexRanges) (f : Z -> bool) (data : Z -> list P) : 0 <= N ->
  (forall q, 0 <= q < N -> if f q then totalCount_ (M q) <> 0 /\ packHalos zero (M q) particles = Some (data q) else totalCount_ (M q) = 0) ->
  sendHalos zero (M <$> seqZ 0 N) particles = Some ((fun q => (q, data q)) <$> filter (fun q => f q = true) (seqZ 0 N)).
Proof using.
  intros HN H. unfold sendHalos. rewrite zlen_map, zlen_seqZ by lia.
  match goal with |- for_loop _ _ ?bd ?s0 = _ => destruct (for_loop_inv (fun i st => st = (fun q => (q, data q)) <$> filter (fun q => f q = true) (seqZ 0 i)) 0 N bd s0) as (st & -> & ->); [lia|done| |done] end.
  intros q st Hq ->. rewrite aget_map, aget_seqZ by lia. cbn [fmap option_fmap option_map]. rewrite Z.add_0_l. specialize (H q Hq). rewrite seqZ_app, filter_app, fmap_app by lia.
  change (seqZ (0 + q) 1) with [0 + q]. rewrite Z.add_0_l, filter_cons, filter_nil. destruct (f q) eqn:E.
  - destruct H as [H1 H2]. destruct (Z.eqb_spec (totalCount_ (M q)) 0); [done|]. rewrite H2. eexists. split; [done|]. by rewrite decide_True by done.
  - destruct (Z.eqb_spec (totalCount_ (M q)) 0); [|done]. eexists. split; [done|]. rewrite decide_False by done. by rewrite app_nil_r.
Qed.

End Pack.

(** ** Requests *)

(** The particles with keys in a range, in key order. *)
Definition particlesIn {P} (key : P -> Z) (all : list P) (x y : Z) : list P := filter (fun p => x <= key p < y) all.

Lemma particlesIn_app {P} (key : P -> Z) all x y z : zsorted (key <$> all) -> x <= y -> y <= z -> particlesIn key all x z = particlesIn key all x y ++ particlesIn key all y z.
Proof.
  intros Hs Hxy Hyz. unfold particlesIn. rewrite <- !filter_sorted_slice by (done || lia). apply slice_app; [split; [apply count_lt_range|by apply count_lt_mono]|by apply count_lt_mono].
Qed.

(** The ranges that belong to pairs of requested keys. *)
Lemma addRequests_run leaves layout k : csTree k leaves -> zlen layout = zlen leaves -> forall (rs : list (Z * Z)) m l,
  holdsRanges m l -> Forall (fun r : Z * Z => 0 <= r.1 < zlen leaves /\ 0 <= r.2 < zlen leaves /\ 0 <= nthz layout r.1 < nthz layout r.2 /\ nthz layout r.2 < 4294967296) rs ->
  zsum ((fun '(a, b) => b - a) <$> l) + zsum ((fun r => nthz layout r.2 - nthz layout r.1) <$> rs) < 4294967296 ->
  exists m', addRequests leaves layout (rs ≫= fun r => [nthz leaves r.1; nthz leaves r.2]) m = Some m' /\
    holdsRanges m' (l ++ ((fun r => (nthz layout r.1, nthz layout r.2)) <$> rs)).
Proof.
  intros Hcs Hz. pose proof (cs_sorted k leaves Hcs) as Hsort.
  assert (Hfind : forall i, 0 <= i < zlen leaves -> findNodeAbove leaves (zlen leaves) (nthz leaves i) = Some i).
  { intros i Hi. unfold findNodeAbove. rewrite (lower_bound_count leaves (nthz leaves i) Hsort). f_equal. apply (cs_position k); [done|]. by apply nthz_get. }
  induction rs as [|[i j] rs IH]; intros m l Hm Hr Hsum.
  - exists m. split; [done|]. by rewrite app_nil_r.
  - apply Forall_cons in Hr as [(H1 & H2 & H3 & H4) Hr]. cbn [fst snd] in *. rewrite fmap_cons, zsum_cons in Hsum. cbn [fst snd] in Hsum. rewrite bind_cons. cbn [app addRequests fst snd].
    unfold addRequest. rewrite !Hfind by done. rewrite (nthz_get layout i), (nthz_get layout j) by lia. cbn beta iota.
    assert (Hpos : 0 <= zsum ((fun r => nthz layout r.2 - nthz layout r.1) <$> rs)) by (apply zsum_nonneg, Forall_fmap; eapply Forall_impl; [exact Hr|]; simpl; lia).
    assert (Htot : totalCount_ m = zsum ((fun '(a, b) => b - a) <$> l)) by (destruct Hm as (_ & _ & E & _); done).
    pose proof (addRange_holds m l (nthz layout i) (nthz layout j) Hm ltac:(lia) H4 ltac:(lia)) as Hm'. destruct (Z.eqb_spec (nthz layout i) (nthz layout j)); [lia|].
    destruct (IH _ _ Hm' Hr) as (m' & E & Hh).
    + rewrite fmap_app, zsum_app. cbn [fmap list_fmap]. rewrite zsum_cons. change (zsum []) with 0. lia.
    + exists m'. split; [exact E|]. rewrite fmap_cons. cbn [fst snd]. by rewrite <- app_assoc in Hh.
Qed.

(** The leaves of consecutive ranges, and nothing between them. *)
Lemma ranges_blocks {P} (H : Z -> list P) (D : Z -> Z -> list P) (rs : list IndexPair) : forall a b,
  a <= b -> Forall (fun r => a <= start r < end_ r /\ end_ r <= b) rs -> StronglySorted (fun r r' => end_ r < start r') rs ->
  (forall i, a <= i < b -> ~ covers rs i -> H i = []) -> (forall r, r ∈ rs -> D (start r) (end_ r) = seqZ (start r) (end_ r - start r) ≫= H) ->
  rs ≫= (fun r => D (start r) (end_ r)) = seqZ a (b - a) ≫= H.
Proof.
  induction rs as [|r rs IH]; intros a b Hab Hin Hs Hno HD.
  - symmetry. assert (Hall : Forall (fun i => H i = []) (seqZ a (b - a))).
    { apply Forall_forall. intros i Hi%elem_of_seqZ. apply Hno; [lia|]. apply covers_nil. }
    clear -Hall. induction Hall as [|i l Hi _ IHl]; [done|]. by rewrite bind_cons, Hi.
  - apply Forall_cons in Hin as [Hr Hin]. inversion Hs as [|? ? Hs' Hlt]; subst. rewrite bind_cons, (HD r) by by left.
    assert (Hsplit : seqZ a (b - a) = seqZ a (start r - a) ++ seqZ (start r) (end_ r - start r) ++ seqZ (end_ r) (b - end_ r)).
    { replace (b - a) with ((start r - a) + ((end_ r - start r) + (b - end_ r))) by lia. rewrite seqZ_app by lia. f_equal. rewrite seqZ_app by lia. f_equal; f_equal; lia. }
    rewrite Hsplit, !bind_app. assert (Hpre : seqZ a (start r - a) ≫= H = []).
    { assert (Hall : Forall (fun i => H i = []) (seqZ a (start r - a))).
      { apply Forall_forall. intros i Hi%elem_of_seqZ. apply Hno; [lia|]. rewrite covers_cons. intros [?|(r' & Hr' & ?)]; [lia|]. rewrite Forall_forall in Hlt. specialize (Hlt r' Hr'). simpl in Hlt. lia. }
      clear -Hall. induction Hall as [|i l Hi _ IHl]; [done|]. by rewrite bind_cons, Hi. }
    rewrite Hpre. cbn [app]. f_equal. apply IH; [lia| |done| |].
    + rewrite Forall_forall in Hin, Hlt |- *. intros r' Hr'. specialize (Hin r' Hr'). specialize (Hlt r' Hr'). simpl in *. lia.
    + intros i Hi Hn. apply Hno; [lia|]. rewrite covers_cons. intros [?|?]; [lia|done].
    + intros r' Hr'. apply HD. by right.
Qed.

(** ** Receiving in any order *)

Lemma receiveRequests_run leaves layout (M : Z -> IndexRanges) (arrivals : list (Z * list Z)) : forall ret, NoDup (fst <$> arrivals) ->
  Forall (fun e => ret.[e.1] = Some emptyRanges /\ zlen e.2 <= zlen leaves /\ addRequests leaves layout e.2 emptyRanges = Some (M e.1)) arrivals ->
  exists ret', receiveRequests (length arrivals) leaves layout arrivals ret = Some (ret', []) /\ zlen ret' = zlen ret /\
    (forall q, q ∈ fst <$> arrivals -> ret'.[q] = Some (M q)) /\ (forall q, q ∉ fst <$> arrivals -> ret'.[q] = ret.[q]).
Proof.
  induction arrivals as [|[p keys] arrivals IH]; intros ret Hnd Ha.
  - exists ret. split; [done|]. split; [done|]. split; [by intros q ?%not_elem_of_nil|done].
  - apply Forall_cons in Ha as [(E1 & E2 & E3) Ha]. cbn [fst snd] in *. rewrite fmap_cons in Hnd. apply NoDup_cons in Hnd as [Hp Hnd]. cbn [length receiveRequests fst] in *.
    destruct (Z.ltb_spec (zlen leaves) (zlen keys)); [lia|]. rewrite E1, E3. cbn beta iota. pose proof (aset_Some ret p (M p) (aget_Some_range _ _ _ E1)) as Es. rewrite Es.
    destruct (IH (<[Z.to_nat p:=M p]> ret) Hnd) as (ret' & -> & Hz & Hin & Hout).
    { rewrite Forall_forall in Ha |- *. intros e He. destruct (Ha e He) as (F1 & F2). split; [|done]. rewrite (aget_aset_ne _ _ _ _ _ Es); [done|]. intros ->. apply Hp. by apply list_elem_of_fmap_2. }
    exists ret'. split; [done|]. split; [rewrite Hz; unfold zlen; by rewrite length_insert|]. split.
    + intros q Hq. rewrite fmap_cons in Hq. cbn [fst] in Hq. apply elem_of_cons in Hq as [->|Hq]; [|by apply Hin]. rewrite Hout by done. by rewrite (aget_aset_eq _ _ _ _ Es).
    + intros q Hq. rewrite fmap_cons in Hq. cbn [fst] in Hq. apply not_elem_of_cons in Hq as [Hne Hq]. rewrite Hout by done. by apply (aget_aset_ne _ _ _ _ _ Es).
Qed.

Section ReceiveHalos.
Context {P : Type} (incoming : list IndexPair).

(** Blocks of different senders do not overlap. *)
Definition disjointBlocks (senders : list Z) : Prop := forall q r a b, q ∈ senders -> r ∈ senders -> q <> r -> incoming.[q] = Some a -> incoming.[r] = Some b -> end_ a <= start b \/ end_ b <= start a.

Lemma receiveHalos_run (arrivals : list (Z * list P)) : forall particles, NoDup (fst <$> arrivals) -> disjointBlocks (fst <$> arrivals) ->
  Forall (fun e => exists a, incoming.[e.1] = Some a /\ 0 <= start a /\ end_ a <= zlen particles /\ end_ a < 4294967296 /\ zlen e.2 = end_ a - start a) arrivals ->
  exists particles', receiveHalos (length arrivals) incoming arrivals particles = Some (particles', []) /\ zlen particles' = zlen particles /\
    (forall q data a, (q, data) ∈ arrivals -> incoming.[q] = Some a -> slice particles' (start a) (end_ a) = data) /\
    (forall j, (forall q a, q ∈ fst <$> arrivals -> incoming.[q] = Some a -> ~ (start a <= j < end_ a)) -> particles'.[j] = particles.[j]).
Proof using.
  induction arrivals as [|[p data] arrivals IH]; intros particles Hnd Hdis Ha.
  - exists particles. split; [done|]. split; [done|]. split; [by intros q data a ?%not_elem_of_nil|done].
  - apply Forall_cons in Ha as [(a & E & H1 & H2 & H3 & H4) Ha]. cbn [fst snd] in *. rewrite fmap_cons in Hnd, Hdis. apply NoDup_cons in Hnd as [Hp Hnd]. cbn [length receiveHalos fst] in *. rewrite E. cbn beta iota.
    pose proof (zlen_nonneg data). unfold count. rewrite u32_small by lia. destruct (Z.eqb_spec (zlen data) (end_ a - start a)) as [_|]; [|lia].
    destruct (buffer_split particles (start a) (zlen data) ltac:(lia) ltac:(lia) ltac:(lia)) as (pre & mid & post & -> & Hpre & Hmid).
    pose proof (writeFrom_block data pre mid post ltac:(lia)) as Ew. rewrite Hpre in Ew. rewrite Ew. pose proof (block_written pre mid data post ltac:(lia)) as [Wl Wi Wo]. rewrite Hpre in Wi, Wo.
    set (now := pre ++ data ++ post) in *. destruct (IH now Hnd) as (particles' & -> & Hz & Hin & Hout).
    { intros q r b c Hq Hr. apply Hdis; by right. }
    { rewrite Forall_forall in Ha |- *. intros e He. destruct (Ha e He) as (b & Hb). exists b. by rewrite Wl. }
    exists particles'. split; [done|]. split; [by rewrite Hz|]. split.
    + intros q data' b Hq Hb. apply elem_of_cons in Hq as [[= -> ->]|Hq]; [|by apply (Hin q)]. rewrite E in Hb. injection Hb as <-.
      apply slice_eq; [lia|lia|rewrite Hz, Wl; lia|]. intros i Hi. rewrite Hout; [by apply Wi|]. intros r b Hr Hb. assert (Hne : p <> r) by (by intros ->).
      destruct (Hdis p r a b) as [?|?]; [by left|by right|done|done|done|lia|lia].
    + intros j Hj. rewrite Hout; [|intros q b Hq; apply Hj; by right]. apply Wo. specialize (Hj p a ltac:(by left) E). lia.
Qed.

End ReceiveHalos.

Lemma elem_of_rangeKeys source rs x : x ∈ rangeKeys source rs -> exists i, x = nthz source i /\ exists r, r ∈ rs /\ (i = start r \/ i = end_ r).
Proof.
  unfold rangeKeys. intros Hx. apply list_elem_of_In, in_concat in Hx as (l & Hl%list_elem_of_In & Hx%list_elem_of_In). apply list_elem_of_fmap in Hl as (r & -> & Hr).
  apply elem_of_cons in Hx as [->|Hx%list_elem_of_singleton]; [exists (start r)|subst x; exists (end_ r)]; (split; [done|]); exists r; (split; [done|]); [by left|by right].
Qed.

(** ** All ranks *)

(** Every rank [p] has a leaf array, an assignment of its leaves to ranks and a layout.  [all] are the
    particles of all ranks in key order.  The own leaves of a rank hold their particles; a leaf of another
    rank for which the layout reserves space has the size of its particles there, and its boundaries are
    leaf boundaries of its owner. *)
Record haloWorld {P} (key : P -> Z) (all : list P) (k : KeyType) (N : Z) (leaves : Z -> list Z) (assign : Z -> list IndexPair) (layout : Z -> list Z) (particles : Z -> list P) : Prop := {
  hw_sorted : zsorted (key <$> all);
  hw_tree : forall p, 0 <= p < N -> csTree k (leaves p);
  hw_assign : forall p, 0 <= p < N -> zlen (assign p) = N;
  hw_layout : forall p, 0 <= p < N -> zlen (layout p) = zlen (leaves p) /\ zsorted (layout p) /\ Forall (fun x => 0 <= x <= zlen (particles p)) (layout p) /\ zlen (particles p) < 4294967296;
  hw_ranges : forall p q a, 0 <= p < N -> (assign p).[q] = Some a -> 0 <= start a <= end_ a /\ end_ a < zlen (leaves p);
  hw_disjoint : forall p q r a b, 0 <= p < N -> q < r -> (assign p).[q] = Some a -> (assign p).[r] = Some b -> end_ a <= start b;
  hw_own : forall p a i, 0 <= p < N -> (assign p).[p] = Some a -> start a <= i < end_ a ->
    slice (particles p) (nthz (layout p) i) (nthz (layout p) (i + 1)) = particlesIn key all (nthz (leaves p) i) (nthz (leaves p) (i + 1));
  hw_halo : forall p q a b i, 0 <= p < N -> 0 <= q < N -> q <> p -> (assign p).[q] = Some a -> (assign q).[q] = Some b -> start a <= i < end_ a -> nthz (layout p) i < nthz (layout p) (i + 1) ->
    nthz (layout p) (i + 1) - nthz (layout p) i = zlen (particlesIn key all (nthz (leaves p) i) (nthz (leaves p) (i + 1))) /\
    (exists j, start b <= j <= end_ b /\ nthz (leaves q) j = nthz (leaves p) i) /\ (exists j, start b <= j <= end_ b /\ nthz (leaves q) j = nthz (leaves p) (i + 1))
}.

Section World.
Context {P : Type} (key : P -> Z) (all : list P) (k : KeyType) (N : Z) (leaves : Z -> list Z) (assign : Z -> list IndexPair) (layout : Z -> list Z) (particles : Z -> list P).
Hypothesis Hw : haloWorld key all k N leaves assign layout particles.

Local Abbreviation L p i := (nthz (leaves p) i).
Local Abbreviation W p i := (nthz (layout p) i).

(** The particles of leaf [i] in the buffers of rank [p]. *)
Definition leafData (p i : Z) : list P := if W p i <? W p (i + 1) then particlesIn key all (L p i) (L p (i + 1)) else [].

Lemma layout_mono p i j : 0 <= p < N -> 0 <= i <= j -> j < zlen (leaves p) -> W p i <= W p j.
Proof using Hw. intros Hp Hi Hj. destruct (hw_layout _ _ _ _ _ _ _ _ Hw p Hp) as (Hz & Hs & _). apply (Hs i j); [lia|apply nthz_get; lia..]. Qed.

Lemma layout_range p i : 0 <= p < N -> 0 <= i < zlen (leaves p) -> 0 <= W p i <= zlen (particles p).
Proof using Hw.
  intros Hp Hi. destruct (hw_layout _ _ _ _ _ _ _ _ Hw p Hp) as (Hz & _ & Hr & _). rewrite Forall_forall in Hr. apply Hr. apply (aget_elem _ i), nthz_get. lia.
Qed.

Lemma leaves_mono p i j : 0 <= p < N -> 0 <= i -> i < j -> j < zlen (leaves p) -> L p i < L p j.
Proof using Hw. intros Hp Hi Hij Hj. pose proof (nodes_mono k _ _ (cs_nodes k _ (hw_tree _ _ _ _ _ _ _ _ Hw p Hp))) as Hm. unfold nNodes in Hm. apply Hm; lia. Qed.

(** The own particles of a range of leaves. *)
Lemma own_range p a : 0 <= p < N -> (assign p).[p] = Some a -> forall n : nat, forall i, start a <= i -> i + Z.of_nat n <= end_ a ->
  slice (particles p) (W p i) (W p (i + Z.of_nat n)) = particlesIn key all (L p i) (L p (i + Z.of_nat n)).
Proof using Hw.
  intros Hp Ha. destruct (hw_ranges _ _ _ _ _ _ _ _ Hw p p a Hp Ha) as [Hr1 Hr2]. induction n as [|n IH]; intros i Hi Hn.
  - rewrite Z.add_0_r, slice_empty. symmetry. apply filter_none, Forall_forall. intros x _. lia.
  - replace (i + Z.of_nat (S n)) with (i + 1 + Z.of_nat n) by lia. rewrite (slice_app _ (W p i) (W p (i + 1))).
    + rewrite IH by lia. rewrite (hw_own _ _ _ _ _ _ _ _ Hw p a i Hp Ha) by lia. symmetry. apply particlesIn_app; [apply Hw| |].
      * pose proof (leaves_mono p i (i + 1) Hp ltac:(lia) ltac:(lia) ltac:(lia)). lia.
      * destruct (decide (n = 0%nat)) as [->|]; [by rewrite Z.add_0_r|]. pose proof (leaves_mono p (i + 1) (i + 1 + Z.of_nat n) Hp ltac:(lia) ltac:(lia) ltac:(lia)). lia.
    + split; [apply layout_range; [done|lia]|apply layout_mono; [done|lia|lia]].
    + apply layout_mono; [done|lia|lia].
Qed.

Section Pair.
Context (p q : Z) (a b : IndexPair).
Hypothesis Hp : 0 <= p < N.
Hypothesis Hq : 0 <= q < N.
Hypothesis Hne : q <> p.
Hypothesis Ha : (assign p).[q] = Some a.
Hypothesis Hb : (assign q).[q] = Some b.

(** The data of a range of leaves fills the space that the layout reserves. *)
Lemma leafData_zlen (n : nat) : forall i, start a <= i -> i + Z.of_nat n <= end_ a -> zlen (seqZ i (Z.of_nat n) ≫= leafData p) = W p (i + Z.of_nat n) - W p i.
Proof using Hw Hp Hq Hne Ha Hb.
  destruct (hw_ranges _ _ _ _ _ _ _ _ Hw p q a Hp Ha) as [Hr1 Hr2]. induction n as [|n IH]; intros i Hi Hn.
  - change (Z.of_nat 0) with 0. rewrite Z.add_0_r, Z.sub_diag. done.
  - rewrite seqZ_cons by lia. replace (Z.pred (Z.of_nat (S n))) with (Z.of_nat n) by lia. rewrite bind_cons, zlen_app. replace (Z.succ i) with (i + 1) by lia. rewrite IH by lia.
    replace (i + Z.of_nat (S n)) with (i + 1 + Z.of_nat n) by lia. unfold leafData. pose proof (layout_mono p i (i + 1) Hp ltac:(lia) ltac:(lia)) as Hm.
    destruct (Z.ltb_spec (W p i) (W p (i + 1))) as [Hlt|Hge]; [|change (zlen (@nil P)) with 0; lia].
    destruct (hw_halo _ _ _ _ _ _ _ _ Hw p q a b i Hp Hq Hne Ha Hb ltac:(lia) Hlt) as (E & _). lia.
Qed.

(** Where all leaves have space, the data is that of the key range. *)
Lemma leafData_range (n : nat) : forall i, start a <= i -> i + Z.of_nat n <= end_ a -> (forall j, i <= j < i + Z.of_nat n -> W p j < W p (j + 1)) ->
  particlesIn key all (L p i) (L p (i + Z.of_nat n)) = seqZ i (Z.of_nat n) ≫= leafData p.
Proof using Hw Hp Ha.
  destruct (hw_ranges _ _ _ _ _ _ _ _ Hw p q a Hp Ha) as [Hr1 Hr2]. induction n as [|n IH]; intros i Hi Hn Hm.
  - rewrite Z.add_0_r. apply filter_none, Forall_forall. intros x _. lia.
  - rewrite seqZ_cons by lia. replace (Z.pred (Z.of_nat (S n))) with (Z.of_nat n) by lia. rewrite bind_cons. replace (Z.succ i) with (i + 1) by lia.
    rewrite <- IH by (lia || (intros j Hj; apply Hm; lia)). replace (i + Z.of_nat (S n)) with (i + 1 + Z.of_nat n) by lia. unfold leafData.
    destruct (Z.ltb_spec (W p i) (W p (i + 1))) as [_|]; [|specialize (Hm i ltac:(lia)); lia]. apply particlesIn_app; [apply Hw| |].
    + pose proof (leaves_mono p i (i + 1) Hp ltac:(lia) ltac:(lia) ltac:(lia)). lia.
    + destruct (decide (n = 0%nat)) as [->|]; [by rewrite Z.add_0_r|]. pose proof (leaves_mono p (i + 1) (i + 1 + Z.of_nat n) Hp ltac:(lia) ltac:(lia) ltac:(lia)). lia.
Qed.

Lemma request_run : exists rs, requestKeys (leaves p) (assign p) (layout p) q = Some (rangeKeys (leaves p) rs) /\
  Forall (fun r => start a <= start r < end_ r /\ end_ r <= end_ a) rs /\ StronglySorted (fun r r' => end_ r < start r') rs /\
  (forall i, start a <= i < end_ a -> covers rs i <-> W p i < W p (i + 1)).
Proof using Hw Hp Ha.
  destruct (hw_ranges _ _ _ _ _ _ _ _ Hw p q a Hp Ha) as [Hr1 Hr2]. destruct (hw_layout _ _ _ _ _ _ _ _ Hw p Hp) as (Hz & _). unfold requestKeys. rewrite Ha. unfold count.
  apply (extractLoop_spec (leaves p) (layout p) (zlen (leaves p) - 1)); [lia|lia| |lia|lia|lia]. intros i Hi. apply layout_mono; [done|lia|lia].
Qed.

(** What is known of a requested range [r]: its position in the leaves of the owner. *)
Definition resolved (r : IndexPair) : Prop := let j1 := count_lt (L p (start r)) (leaves q) in let j2 := count_lt (L p (end_ r)) (leaves q) in
  start b <= j1 <= j2 /\ j2 <= end_ b /\ L q j1 = L p (start r) /\ L q j2 = L p (end_ r) /\
  W q j2 - W q j1 = W p (end_ r) - W p (start r) /\ 0 < W p (end_ r) - W p (start r) /\
  slice (particles q) (W q j1) (W q j2) = particlesIn key all (L p (start r)) (L p (end_ r)).

Lemma resolved_run r : start a <= start r < end_ r -> end_ r <= end_ a -> (forall i, start r <= i < end_ r -> W p i < W p (i + 1)) -> resolved r.
Proof using Hw Hp Hq Hne Ha Hb.
  intros H1 H2 Hm. destruct (hw_ranges _ _ _ _ _ _ _ _ Hw p q a Hp Ha) as [Hr1 Hr2]. destruct (hw_ranges _ _ _ _ _ _ _ _ Hw q q b Hq Hb) as [Hr3 Hr4].
  pose proof (hw_tree _ _ _ _ _ _ _ _ Hw q Hq) as Hcs.
  destruct (hw_halo _ _ _ _ _ _ _ _ Hw p q a b (start r) Hp Hq Hne Ha Hb ltac:(lia) (Hm (start r) ltac:(lia))) as (_ & (j1 & Hj1 & E1) & _).
  destruct (hw_halo _ _ _ _ _ _ _ _ Hw p q a b (end_ r - 1) Hp Hq Hne Ha Hb ltac:(lia) (Hm (end_ r - 1) ltac:(lia))) as (_ & _ & (j2 & Hj2 & E2)). rewrite Z.sub_add in E2.
  assert (P1 : count_lt (L p (start r)) (leaves q) = j1) by (rewrite <- E1; apply (cs_position k); [done|apply nthz_get; lia]).
  assert (P2 : count_lt (L p (end_ r)) (leaves q) = j2) by (rewrite <- E2; apply (cs_position k); [done|apply nthz_get; lia]).
  pose proof (leaves_mono p (start r) (end_ r) Hp ltac:(lia) ltac:(lia) ltac:(lia)) as Hlt. unfold resolved. rewrite P1, P2.
  assert (Hj : j1 <= j2). { destruct (Z.le_gt_cases j1 j2); [done|]. pose proof (leaves_mono q j2 j1 Hq ltac:(lia) ltac:(lia) ltac:(lia)). lia. }
  pose proof (own_range q b Hq Hb (Z.to_nat (j2 - j1)) j1 ltac:(lia) ltac:(lia)) as Ho. replace (j1 + Z.of_nat (Z.to_nat (j2 - j1))) with j2 in Ho by lia. rewrite E1, E2 in Ho.
  pose proof (leafData_range (Z.to_nat (end_ r - start r)) (start r) ltac:(lia) ltac:(lia)) as Hd. pose proof (leafData_zlen (Z.to_nat (end_ r - start r)) (start r) ltac:(lia) ltac:(lia)) as Hz.
  replace (start r + Z.of_nat (Z.to_nat (end_ r - start r))) with (end_ r) in Hd, Hz by lia. rewrite <- Hd, <- Ho in Hz by (intros j Hjj; apply Hm; lia).
  rewrite slice_zlen in Hz; [|split; [apply layout_range; [done|lia]|apply layout_mono; [done|lia|lia]]|apply layout_range; [done|lia]].
  assert (Hpos : W p (start r) < W p (end_ r)).
  { pose proof (Hm (start r) ltac:(lia)). pose proof (layout_mono p (start r + 1) (end_ r) Hp ltac:(lia) ltac:(lia)). lia. }
  repeat split; try lia; done.
Qed.

Lemma rangeKeys_bind rs : Forall resolved rs -> rangeKeys (leaves p) rs =
  ((fun r => (count_lt (L p (start r)) (leaves q), count_lt (L p (end_ r)) (leaves q))) <$> rs) ≫= fun r => [L q r.1; L q r.2].
Proof using.
  induction 1 as [|r rs (_ & _ & E1 & E2 & _) _ IH]; [done|]. rewrite fmap_cons, bind_cons. cbn [fst snd]. rewrite E1, E2, <- IH. done.
Qed.

(** The requested keys are distinct leaf boundaries of the owner, so they fit into its buffer. *)
Lemma rangeKeys_fit rs : Forall resolved rs -> Forall (fun r => start a <= start r < end_ r /\ end_ r <= end_ a) rs -> StronglySorted (fun r r' => end_ r < start r') rs ->
  zlen (rangeKeys (leaves p) rs) <= zlen (leaves q).
Proof using Hw Hp Hq Ha Hb.
  intros Hres Hin Hs. destruct (hw_ranges _ _ _ _ _ _ _ _ Hw p q a Hp Ha) as [Hr1 Hr2]. destruct (hw_ranges _ _ _ _ _ _ _ _ Hw q q b Hq Hb) as [Hr3 Hr4].
  assert (Hsub : forall x, x ∈ rangeKeys (leaves p) rs -> x ∈ leaves q).
  { intros x Hx. rewrite (rangeKeys_bind rs Hres) in Hx. apply list_elem_of_bind in Hx as ([j1 j2] & Hx & (r & E & Hr)%list_elem_of_fmap). injection E as -> ->. cbn [fst snd] in Hx.
    rewrite Forall_forall in Hres. destruct (Hres r Hr) as (G1 & G2 & _). apply elem_of_cons in Hx as [->|Hx%list_elem_of_singleton]; [|subst x]; eapply aget_elem, nthz_get; lia. }
  assert (Hnd : NoDup (rangeKeys (leaves p) rs)).
  { clear Hres Hsub. induction Hs as [|r rs Hs IH Hlt]; [constructor|]. apply Forall_cons in Hin as [Hr Hin].
    assert (Hgt : forall x, x ∈ rangeKeys (leaves p) rs -> L p (end_ r) < x).
    { intros x (i & E & Hi)%elem_of_rangeKeys. subst x. rewrite Forall_forall in Hlt, Hin. destruct Hi as (r' & Hr' & Hi). specialize (Hlt r' Hr'). specialize (Hin r' Hr'). simpl in Hlt, Hin.
      apply leaves_mono; [done|lia| |]; destruct Hi as [->| ->]; lia. }
    pose proof (leaves_mono p (start r) (end_ r) Hp ltac:(lia) ltac:(lia) ltac:(lia)). unfold rangeKeys. rewrite fmap_cons. cbn [concat app]. fold (rangeKeys (leaves p) rs).
    apply NoDup_cons. split; [|apply NoDup_cons; split; [intros Hx%Hgt; lia|by apply IH]]. intros [E|Hx%Hgt]%elem_of_cons; lia. }
  pose proof (submseteq_length _ _ (NoDup_submseteq _ _ Hnd Hsub)) as Hl. unfold zlen. lia.
Qed.

(** The send list of the owner for the requests of rank [p] gives the data of the requested leaves. *)
Lemma outgoing_run : exists keys m l, requestKeys (leaves p) (assign p) (layout p) q = Some keys /\ zlen keys <= zlen (leaves q) /\
  addRequests (leaves q) (layout q) keys emptyRanges = Some m /\ holdsRanges m l /\ Forall (fun r => r.2 <= zlen (particles q)) l /\
  rangeData (particles q) l = seqZ (start a) (end_ a - start a) ≫= leafData p.
Proof using Hw Hp Hq Hne Ha Hb.
  destruct request_run as (rs & E & Hin & Hs & Hc). destruct (hw_ranges _ _ _ _ _ _ _ _ Hw p q a Hp Ha) as [Hr1 Hr2]. destruct (hw_ranges _ _ _ _ _ _ _ _ Hw q q b Hq Hb) as [Hr3 Hr4].
  assert (Hcov : forall r i, r ∈ rs -> start r <= i < end_ r -> W p i < W p (i + 1)).
  { intros r i Hr Hi. rewrite Forall_forall in Hin. specialize (Hin r Hr). simpl in Hin. apply Hc; [lia|]. by exists r. }
  assert (Hres : Forall resolved rs).
  { apply Forall_forall. intros r Hr. rewrite Forall_forall in Hin. specialize (Hin r Hr). simpl in Hin. apply resolved_run; [lia|lia|]. intros i Hi. by apply (Hcov r). }
  set (rs2 := (fun r => (count_lt (L p (start r)) (leaves q), count_lt (L p (end_ r)) (leaves q))) <$> rs).
  assert (Hdata : rs ≫= (fun r => particlesIn key all (L p (start r)) (L p (end_ r))) = seqZ (start a) (end_ a - start a) ≫= leafData p).
  { apply (ranges_blocks (leafData p) (fun x y => particlesIn key all (L p x) (L p y)) rs (start a) (end_ a)); [lia|done|done| |].
    - intros i Hi Hnc. unfold leafData. destruct (Z.ltb_spec (W p i) (W p (i + 1))) as [Hlt|]; [|done]. by apply Hc in Hlt; [|lia].
    - intros r Hr. rewrite Forall_forall in Hin. specialize (Hin r Hr). simpl in Hin. pose proof (leafData_range (Z.to_nat (end_ r - start r)) (start r) ltac:(lia) ltac:(lia)) as Hd.
      rewrite Z2Nat.id in Hd by lia. replace (start r + (end_ r - start r)) with (end_ r) in Hd by lia. apply Hd. intros j Hj. by apply (Hcov r). }
  set (l := (fun r => (W q r.1, W q r.2)) <$> rs2).
  assert (Hl : rangeData (particles q) l = rs ≫= (fun r => particlesIn key all (L p (start r)) (L p (end_ r)))).
  { unfold l, rs2. clear -Hres. induction Hres as [|r rs (_ & _ & _ & _ & _ & _ & Hsl) _ IH]; [done|]. rewrite !fmap_cons. unfold rangeData in *. rewrite !bind_cons, IH. cbn [fst snd]. by rewrite Hsl. }
  assert (Hw2 : Forall (fun r : Z * Z => 0 <= r.1 < zlen (leaves q) /\ 0 <= r.2 < zlen (leaves q) /\ 0 <= W q r.1 < W q r.2 /\ W q r.2 < 4294967296 /\ W q r.2 <= zlen (particles q)) rs2).
  { unfold rs2. apply Forall_fmap. eapply Forall_impl; [exact Hres|]. intros r (G1 & G2 & _ & _ & G3 & G4 & _). simpl. pose proof (hw_layout _ _ _ _ _ _ _ _ Hw q Hq) as (_ & _ & _ & Hsz).
    pose proof (layout_range q (count_lt (L p (start r)) (leaves q)) Hq ltac:(lia)). pose proof (layout_range q (count_lt (L p (end_ r)) (leaves q)) Hq ltac:(lia)). lia. }
  assert (Hlr : Forall (fun r : Z * Z => 0 <= r.1 <= r.2 /\ r.2 <= zlen (particles q)) l) by (unfold l; apply Forall_fmap; eapply Forall_impl; [exact Hw2|]; intros r; simpl; lia).
  assert (Hsum : zsum ((fun r => W q r.2 - W q r.1) <$> rs2) < 4294967296).
  { assert (Ez : zsum ((fun r => W q r.2 - W q r.1) <$> rs2) = zlen (rangeData (particles q) l)) by (rewrite rangeData_zlen by done; unfold l; by rewrite <- list_fmap_compose). rewrite Ez, Hl, Hdata.
    pose proof (leafData_zlen (Z.to_nat (end_ a - start a)) (start a) ltac:(lia) ltac:(lia)) as Hz. rewrite Z2Nat.id in Hz by lia. rewrite Hz. replace (start a + (end_ a - start a)) with (end_ a) by lia.
    pose proof (hw_layout _ _ _ _ _ _ _ _ Hw p Hp) as (_ & _ & _ & Hsz). pose proof (layout_range p (start a) Hp ltac:(lia)). pose proof (layout_range p (end_ a) Hp ltac:(lia)). lia. }
  destruct (addRequests_run (leaves q) (layout q) k (hw_tree _ _ _ _ _ _ _ _ Hw q Hq) (proj1 (hw_layout _ _ _ _ _ _ _ _ Hw q Hq)) rs2 emptyRanges [] emptyRanges_holds) as (m & Em & Hm).
  - eapply Forall_impl; [exact Hw2|]. intros r. simpl. lia.
  - exact Hsum.
  - exists (rangeKeys (leaves p) rs), m, l. split; [done|]. split; [by apply rangeKeys_fit|]. split; [by rewrite (rangeKeys_bind rs Hres)|]. split; [exact Hm|]. split; [|by rewrite Hl].
    eapply Forall_impl; [exact Hlr|]. intros r. simpl. lia.
Qed.

End Pair.

(** *** Requests *)

Definition exteriorOf (p : Z) : list Z := filter (fun q => isHaloPeer p (layout p) (assign p) q = true) (seqZ 0 N).
Definition interiorOf (p : Z) : list Z := filter (fun q => isHaloPeer q (layout q) (assign q) p = true) (seqZ 0 N).
Definition flagsOf (p : Z) : list Z := (fun q => if isHaloPeer p (layout p) (assign p) q then 2 else 0) <$> seqZ 0 N.
Definition keysTo (p q : Z) : list Z := default [] (requestKeys (leaves p) (assign p) (layout p) q).
Definition outgoingTo (p q : Z) : IndexRanges := default emptyRanges (addRequests (leaves p) (layout p) (keysTo q p) emptyRanges).
Definition incomingFrom (p q : Z) : IndexPair :=
  match (assign p).[q] with Some a => if isHaloPeer p (layout p) (assign p) q then mkIndexPair (W p (start a)) (W p (end_ a)) else mkIndexPair 0 0 | None => mkIndexPair 0 0 end.

(** The state after the requests. *)
Definition halosOf (p epoch : Z) : Halos :=
  mkHalos p (incomingFrom p <$> seqZ 0 N) ((fun q => if isHaloPeer q (layout q) (assign q) p then outgoingTo p q else emptyRanges) <$> seqZ 0 N) (exteriorOf p) (interiorOf p) epoch.

Definition requestsOf (p : Z) : list (Z * list Z) := (fun q => (q, keysTo p q)) <$> exteriorOf p.

Lemma assign_get p q : 0 <= p < N -> 0 <= q < N -> exists a, (assign p).[q] = Some a.
Proof using Hw. intros Hp Hq. apply aget_is_Some. by rewrite (hw_assign _ _ _ _ _ _ _ _ Hw p Hp). Qed.

Lemma isHaloPeer_ne p q : isHaloPeer p (layout p) (assign p) q = true -> q <> p.
Proof using. unfold isHaloPeer. destruct ((assign p).[q]); [|done]. by destruct (Z.eqb_spec q p). Qed.

Lemma haloPeers_world p : 0 <= p < N -> haloPeers p (layout p) (assign p) = Some (flagsOf p).
Proof using Hw.
  intros Hp. rewrite haloPeers_run; [unfold flagsOf; by rewrite (hw_assign _ _ _ _ _ _ _ _ Hw p Hp)|]. intros q a Ha. destruct (hw_ranges _ _ _ _ _ _ _ _ Hw p q a Hp Ha). destruct (hw_layout _ _ _ _ _ _ _ _ Hw p Hp). lia.
Qed.

Lemma filter_flags (f : Z -> bool) (flags : list Z) : 0 <= N -> (forall q, 0 <= q < N -> flags.[q] = Some (if f q then 2 else 0)) -> zlen flags = N ->
  peerFlagsToList flags haloPeerMask = Some (filter (fun q => f q = true) (seqZ 0 N)).
Proof using.
  intros HN Hf Hz. rewrite peerFlagsToList_run, Hz. f_equal. assert (Hgen : forall l, Forall (fun q => 0 <= q < N) l ->
    filter (fun r => Z.land (nthz flags r) (maskValue haloPeerMask) <> 0) l = filter (fun q => f q = true) l).
  { induction 1 as [|q l Hq _ IH]; [done|]. rewrite !filter_cons, IH, (nthz_Some _ _ _ (Hf q Hq)). by destruct (f q). }
  apply Hgen, Forall_forall. intros q Hq%elem_of_seqZ. lia.
Qed.

Lemma setIncoming_run p peers : 0 <= p < N -> NoDup peers -> (forall q, q ∈ peers -> 0 <= q < N) -> forall st, zlen st = N ->
  exists out, setIncoming (assign p) (layout p) peers st = Some out /\ zlen out = N /\
    (forall q a, q ∈ peers -> (assign p).[q] = Some a -> out.[q] = Some (mkIndexPair (W p (start a)) (W p (end_ a)))) /\ (forall q, q ∉ peers -> out.[q] = st.[q]).
Proof using Hw.
  intros Hp. unfold setIncoming. induction peers as [|q peers IH]; intros Hnd Hin st Hz.
  - exists st. split; [done|]. split; [done|]. split; [by intros ? ? ?%not_elem_of_nil|done].
  - apply NoDup_cons in Hnd as [Hq Hnd]. cbn [foldl]. destruct (assign_get p q Hp (Hin q ltac:(by left))) as [a Ea]. rewrite Ea. cbn beta iota.
    destruct (hw_ranges _ _ _ _ _ _ _ _ Hw p q a Hp Ea) as [H1 H2]. destruct (hw_layout _ _ _ _ _ _ _ _ Hw p Hp) as [Hl _]. rewrite (nthz_get (layout p) (start a)), (nthz_get (layout p) (end_ a)) by lia. cbn beta iota.
    pose proof (Hin q ltac:(by left)) as Hqr. pose proof (aset_Some st q (mkIndexPair (W p (start a)) (W p (end_ a))) ltac:(lia)) as Es. rewrite Es.
    destruct (IH Hnd ltac:(intros; apply Hin; by right) (<[Z.to_nat q:=mkIndexPair (W p (start a)) (W p (end_ a))]> st)) as (out & -> & Ho & Hi & Hn); [unfold zlen in *; by rewrite length_insert|].
    exists out. split; [done|]. split; [done|]. split.
    + intros r b Hr Hb. apply elem_of_cons in Hr as [->|Hr]; [|by apply Hi]. rewrite Hn by done. rewrite (aget_aset_eq _ _ _ _ Es). rewrite Ea in Hb. by injection Hb as <-.
    + intros r Hr. apply not_elem_of_cons in Hr as [Hne Hr]. rewrite Hn by done. by apply (aget_aset_ne _ _ _ _ _ Es).
Qed.

Lemma peers_range p : (forall q, q ∈ exteriorOf p -> 0 <= q < N) /\ (forall q, q ∈ interiorOf p -> 0 <= q < N) /\ NoDup (exteriorOf p) /\ NoDup (interiorOf p).
Proof using.
  split; [intros q [_ Hq%elem_of_seqZ]%list_elem_of_filter; lia|]. split; [intros q [_ Hq%elem_of_seqZ]%list_elem_of_filter; lia|]. split; apply NoDup_filter, NoDup_seqZ.
Qed.

(** What the owner [q] of halos of [p] prepares. *)
Lemma outgoing_world p q a : 0 <= p < N -> 0 <= q < N -> q <> p -> (assign p).[q] = Some a -> requestKeys (leaves p) (assign p) (layout p) q = Some (keysTo p q) /\
  zlen (keysTo p q) <= zlen (leaves q) /\ addRequests (leaves q) (layout q) (keysTo p q) emptyRanges = Some (outgoingTo q p) /\
  exists l, holdsRanges (outgoingTo q p) l /\ Forall (fun r => r.2 <= zlen (particles q)) l /\ rangeData (particles q) l = seqZ (start a) (end_ a - start a) ≫= leafData p.
Proof using Hw.
  intros Hp Hq Hne Ha. destruct (assign_get q q Hq Hq) as [b Hb]. destruct (outgoing_run p q a b Hp Hq Hne Ha Hb) as (keys & m & l & E & Hz & Em & Hrest).
  assert (Ek : keysTo p q = keys) by (unfold keysTo; by rewrite E). unfold outgoingTo. rewrite Ek, Em. split; [done|]. split; [done|]. split; [done|]. by exists l.
Qed.

Lemma requests_world h p interior arrivals : h_myRank h = p -> 0 <= p < N -> zlen interior = N -> (forall q, 0 <= q < N -> interior.[q] = (flagsOf q).[p]) ->
  arrivals ≡ₚ (fun q => (q, keysTo q p)) <$> interiorOf p ->
  exchangeRequests h (leaves p) (assign p) (layout p) interior arrivals = Some (flagsOf p, requestsOf p, halosOf p (haloEpoch_ h), []).
Proof using Hw.
  intros Hrank Hp Hz Hint Harr. destruct (peers_range p) as (He & Hi & Ne & Ni). unfold exchangeRequests. rewrite Hrank, (haloPeers_world p Hp). cbn beta iota.
  unfold exchangePeers. rewrite (filter_flags (fun q => isHaloPeer p (layout p) (assign p) q)); [|lia|intros q Hq; unfold flagsOf; by rewrite aget_map, aget_seqZ by lia|unfold flagsOf; rewrite zlen_map, zlen_seqZ; lia]. cbn beta iota.
  rewrite (filter_flags (fun q => isHaloPeer q (layout q) (assign q) p)); [|lia|intros q Hq; rewrite Hint by done; unfold flagsOf; by rewrite aget_map, aget_seqZ by lia|done]. cbn beta iota.
  fold (exteriorOf p) (interiorOf p). unfold exchangeRequestKeys.
  assert (Esent : mapM (fun peer => let? keys := requestKeys (leaves p) (assign p) (layout p) peer in Some (peer, keys)) (exteriorOf p) = Some (requestsOf p)).
  { apply mapM_Some_2. unfold requestsOf. apply Forall2_fmap_r, Forall_Forall2_diag, Forall_forall. intros q Hq. apply list_elem_of_filter in Hq as [Hpeer Hq%elem_of_seqZ].
    destruct (assign_get p q Hp ltac:(lia)) as [a Ha]. destruct (outgoing_world p q a Hp ltac:(lia) (isHaloPeer_ne p q Hpeer) Ha) as (-> & _). done. }
  rewrite Esent. cbn beta iota. assert (Hzr : zlen (replicate (length (assign p)) emptyRanges) = N) by (pose proof (hw_assign _ _ _ _ _ _ _ _ Hw p Hp); unfold zlen in *; by rewrite length_replicate).
  assert (Hfst : fst <$> arrivals ≡ₚ interiorOf p) by (rewrite Harr, <- list_fmap_compose; apply reflexive_eq; apply list_fmap_id).
  assert (Hempty : forall q, 0 <= q < N -> (replicate (length (assign p)) emptyRanges).[q] = Some emptyRanges).
  { intros q Hq. rewrite aget_lookup by lia. apply lookup_replicate. split; [done|]. unfold zlen in Hzr. rewrite length_replicate in Hzr. lia. }
  destruct (receiveRequests_run (leaves p) (layout p) (outgoingTo p) arrivals (replicate (length (assign p)) emptyRanges)) as (ret & Eret & Hzret & Hin & Hout).
  { by rewrite Hfst. }
  { rewrite Harr. apply Forall_fmap, Forall_forall. intros q Hq. pose proof (Hi q Hq) as Hqr. cbn. split; [by apply Hempty|]. apply list_elem_of_filter in Hq as [Hpeer _].
    destruct (assign_get q p Hqr Hp) as [a Ha]. destruct (outgoing_world q p a Hqr Hp (isHaloPeer_ne q p Hpeer) Ha) as (_ & H1 & H2 & _). done. }
  assert (Elen : length (interiorOf p) = length arrivals) by (rewrite <- Hfst, length_fmap; done). rewrite Elen, Eret. cbn beta iota.
  destruct (setIncoming_run p (exteriorOf p) Hp Ne He (replicate (length (assign p)) (mkIndexPair 0 0))) as (incoming & Einc & Hzi & Hii & Hio).
  { pose proof (hw_assign _ _ _ _ _ _ _ _ Hw p Hp). unfold zlen in *. by rewrite length_replicate. }
  rewrite Einc. unfold halosOf. do 4 f_equal.
  - apply list_eq_aget; [rewrite zlen_map, zlen_seqZ; lia|]. intros q Hq. rewrite aget_map, aget_seqZ by lia. cbn [fmap option_fmap option_map]. rewrite Z.add_0_l. unfold incomingFrom.
    destruct (assign_get p q Hp ltac:(lia)) as [a Ea]. rewrite Ea. destruct (isHaloPeer p (layout p) (assign p) q) eqn:Eh.
    + apply Hii; [|done]. apply list_elem_of_filter. split; [done|]. apply elem_of_seqZ. lia.
    + rewrite Hio by (intros [E _]%list_elem_of_filter; congruence). rewrite aget_lookup by lia. apply lookup_replicate. split; [done|].
      pose proof (hw_assign _ _ _ _ _ _ _ _ Hw p Hp) as Hza. unfold zlen in Hza. lia.
  - apply list_eq_aget; [rewrite zlen_map, zlen_seqZ; lia|]. intros q Hq. rewrite aget_map, aget_seqZ by lia. cbn [fmap option_fmap option_map]. rewrite Z.add_0_l.
    destruct (isHaloPeer q (layout q) (assign q) p) eqn:Eh.
    + apply Hin. rewrite Hfst. apply list_elem_of_filter. split; [done|]. apply elem_of_seqZ. lia.
    + rewrite Hout; [apply Hempty; lia|]. rewrite Hfst. intros [E _]%list_elem_of_filter. congruence.
Qed.

(** *** Transfer *)

(** What rank [p] sends to rank [q]. *)
Definition haloDataTo (p q : Z) : list P := match (assign q).[p] with Some a => seqZ (start a) (end_ a - start a) ≫= leafData q | None => [] end.

Lemma haloDataTo_zlen p q a : 0 <= p < N -> 0 <= q < N -> p <> q -> (assign q).[p] = Some a -> zlen (haloDataTo p q) = W q (end_ a) - W q (start a).
Proof using Hw.
  intros Hp Hq Hne Ha. unfold haloDataTo. rewrite Ha. destruct (assign_get p p Hp Hp) as [b Hb]. destruct (hw_ranges _ _ _ _ _ _ _ _ Hw q p a Hq Ha) as [H1 H2].
  pose proof (leafData_zlen q p a b Hq Hp Hne Ha Hb (Z.to_nat (end_ a - start a)) (start a) ltac:(lia) ltac:(lia)) as Hz. rewrite Z2Nat.id in Hz by lia. rewrite Hz. f_equal. f_equal. lia.
Qed.

Lemma isHaloPeer_true p q a : (assign p).[q] = Some a -> isHaloPeer p (layout p) (assign p) q = true <-> q <> p /\ W p (start a) < W p (end_ a).
Proof using. intros Ha. unfold isHaloPeer. rewrite Ha, andb_true_iff, negb_true_iff, Z.eqb_neq, Z.ltb_lt. done. Qed.

Lemma sends_world zero p : 0 <= p < N ->
  sendHalos zero ((fun q => if isHaloPeer q (layout q) (assign q) p then outgoingTo p q else emptyRanges) <$> seqZ 0 N) (particles p) = Some ((fun q => (q, haloDataTo p q)) <$> interiorOf p).
Proof using Hw.
  intros Hp. apply (sendHalos_run zero (particles p) N _ (fun q => isHaloPeer q (layout q) (assign q) p)); [lia|]. intros q Hq. destruct (isHaloPeer q (layout q) (assign q) p) eqn:E; [|done].
  destruct (assign_get q p Hq Hp) as [a Ha]. pose proof (proj1 (isHaloPeer_true q p a Ha) E) as [Hne Hlt]. destruct (outgoing_world q p a Hq Hp Hne Ha) as (_ & _ & _ & l & Hh & Hl & Ed).
  pose proof (haloDataTo_zlen p q a Hp Hq Hne Ha) as Hz. unfold haloDataTo in *. rewrite Ha in *. split; [|rewrite (packHalos_run zero (particles p) _ l Hh Hl); by rewrite Ed].
  destruct Hh as (Hr & _ & -> & _). rewrite <- Ed in Hz. rewrite rangeData_zlen in Hz.
  - assert (Ez : zsum ((fun '(a, b) => b - a) <$> l) = zsum ((fun r : Z * Z => r.2 - r.1) <$> l)) by (f_equal; apply list_fmap_ext; by intros _ [x y] _). rewrite Ez, Hz. lia.
  - rewrite Forall_forall in Hr, Hl |- *. intros [x y] Hxy. specialize (Hr _ Hxy). specialize (Hl _ Hxy). simpl in *. lia.
Qed.

Lemma numIncoming_world p : 0 <= p < N -> numIncoming (incomingFrom p <$> seqZ 0 N) = length (exteriorOf p).
Proof using Hw.
  intros Hp. unfold numIncoming, exteriorOf. destruct (hw_layout _ _ _ _ _ _ _ _ Hw p Hp) as (_ & _ & _ & Hsz).
  assert (Hgen : forall l, Forall (fun q => 0 <= q < N) l -> length (filter (fun r => 0 < u32 (count r)) (incomingFrom p <$> l)) = length (filter (fun q => isHaloPeer p (layout p) (assign p) q = true) l)).
  { induction 1 as [|q l Hq _ IH]; [done|]. rewrite fmap_cons, !filter_cons. destruct (assign_get p q Hp Hq) as [a Ha]. destruct (hw_ranges _ _ _ _ _ _ _ _ Hw p q a Hp Ha) as [H1 H2].
    pose proof (layout_range p (start a) Hp ltac:(lia)). pose proof (layout_range p (end_ a) Hp ltac:(lia)). 
    assert (Hiff : 0 < u32 (count (incomingFrom p q)) <-> isHaloPeer p (layout p) (assign p) q = true).
    { unfold incomingFrom. rewrite Ha. pose proof (isHaloPeer_true p q a Ha) as Ht. destruct (isHaloPeer p (layout p) (assign p) q); [|done].
      unfold count. cbn [start end_]. destruct (proj1 Ht eq_refl). rewrite u32_small by lia. split; [done|lia]. }
    destruct (decide (0 < u32 (count (incomingFrom p q)))), (decide (isHaloPeer p (layout p) (assign p) q = true)); [|tauto|tauto|done]. cbn [length]. by rewrite IH. }
  apply Hgen, Forall_forall. intros q Hq%elem_of_seqZ. lia.
Qed.

Lemma transfer_world zero p epoch arrivals : 0 <= p < N -> arrivals ≡ₚ (fun q => (q, haloDataTo q p)) <$> exteriorOf p ->
  exists particles', exchangeHalos zero (halosOf p epoch) arrivals (particles p) = Some ((fun q => (q, haloDataTo p q)) <$> interiorOf p, halosOf p (epoch + 1), particles', []) /\
    zlen particles' = zlen (particles p) /\
    forall q a i, (assign p).[q] = Some a -> start a <= i < end_ a -> W p i < W p (i + 1) -> slice particles' (W p i) (W p (i + 1)) = particlesIn key all (L p i) (L p (i + 1)).
Proof using Hw.
  intros Hp Harr. unfold exchangeHalos, haloexchange. cbn [halosOf incomingHaloIndices_ outgoingHaloIndices_ h_myRank exteriorPeers_ interiorPeers_ haloEpoch_]. rewrite (sends_world zero p Hp). cbn beta iota.
  destruct (peers_range p) as (He & _ & Ne & _). rewrite (numIncoming_world p Hp). destruct (hw_layout _ _ _ _ _ _ _ _ Hw p Hp) as (_ & _ & _ & Hsz).
  assert (Hfst : fst <$> arrivals ≡ₚ exteriorOf p) by (rewrite Harr, <- list_fmap_compose; apply reflexive_eq; apply list_fmap_id).
  assert (Hinc : forall q a, q ∈ exteriorOf p -> (assign p).[q] = Some a -> q <> p /\ (incomingFrom p <$> seqZ 0 N).[q] = Some (mkIndexPair (W p (start a)) (W p (end_ a)))).
  { intros q a Hq Ha. pose proof (He q Hq). apply list_elem_of_filter in Hq as [E _]. split; [by eapply isHaloPeer_true in E as [? _]|]. rewrite aget_map, aget_seqZ by lia. cbn. unfold incomingFrom. by rewrite Z.add_0_l, Ha, E. }
  destruct (receiveHalos_run (incomingFrom p <$> seqZ 0 N) arrivals (particles p)) as (particles' & Er & Hz & Hin & Hout).
  { by rewrite Hfst. }
  { intros q r a b Hq Hr Hne Ea Eb. rewrite Hfst in Hq, Hr. destruct (assign_get p q Hp (He q Hq)) as [a' Ha']. destruct (assign_get p r Hp (He r Hr)) as [b' Hb'].
    destruct (Hinc q a' Hq Ha') as [_ E1]. destruct (Hinc r b' Hr Hb') as [_ E2]. rewrite E1 in Ea. rewrite E2 in Eb. injection Ea as <-. injection Eb as <-. cbn [start end_].
    destruct (hw_ranges _ _ _ _ _ _ _ _ Hw p q a' Hp Ha') as [Hr1 Hr2]. destruct (hw_ranges _ _ _ _ _ _ _ _ Hw p r b' Hp Hb') as [Hr3 Hr4]. destruct (Z.lt_ge_cases q r) as [Hlt|Hge].
    - left. pose proof (hw_disjoint _ _ _ _ _ _ _ _ Hw p q r a' b' Hp Hlt Ha' Hb'). apply layout_mono; [done|lia|lia].
    - right. pose proof (hw_disjoint _ _ _ _ _ _ _ _ Hw p r q b' a' Hp ltac:(lia) Hb' Ha'). apply layout_mono; [done|lia|lia]. }
  { rewrite Harr. apply Forall_fmap, Forall_forall. intros q Hq. cbn. destruct (assign_get p q Hp (He q Hq)) as [a Ha]. destruct (Hinc q a Hq Ha) as [Hne E]. eexists. split; [exact E|]. cbn [start end_].
    destruct (hw_ranges _ _ _ _ _ _ _ _ Hw p q a Hp Ha) as [Hr1 Hr2]. pose proof (layout_range p (start a) Hp ltac:(lia)). pose proof (layout_range p (end_ a) Hp ltac:(lia)).
    rewrite (haloDataTo_zlen q p a (He q Hq) Hp Hne Ha). lia. }
  assert (Elen : length (exteriorOf p) = length arrivals) by (rewrite <- Hfst, length_fmap; done). rewrite Elen, Er. exists particles'. split; [done|]. split; [done|].
  intros q a i Ha Hi Hlt. destruct (hw_ranges _ _ _ _ _ _ _ _ Hw p q a Hp Ha) as [Hr1 Hr2].
  assert (Hqr : 0 <= q < N) by (rewrite <- (hw_assign _ _ _ _ _ _ _ _ Hw p Hp); by eapply aget_Some_range). destruct (decide (q = p)) as [->|Hne].
  - rewrite <- (hw_own _ _ _ _ _ _ _ _ Hw p a i Hp Ha Hi). pose proof (layout_range p i Hp ltac:(lia)). pose proof (layout_range p (i + 1) Hp ltac:(lia)).
    pose proof (slice_zlen (particles p) (W p i) (W p (i + 1)) ltac:(lia) ltac:(lia)) as Hzs. apply slice_eq; [lia|lia|lia|]. intros j Hj. rewrite slice_get by lia. apply Hout. intros r b Hr Hb.
    rewrite Hfst in Hr. destruct (assign_get p r Hp (He r Hr)) as [b' Hb']. destruct (Hinc r b' Hr Hb') as [Hrp E]. rewrite E in Hb. injection Hb as <-. cbn [start end_].
    destruct (hw_ranges _ _ _ _ _ _ _ _ Hw p r b' Hp Hb') as [Hr3 Hr4]. destruct (Z.lt_ge_cases r p) as [Hrp'|Hrp'].
    + pose proof (hw_disjoint _ _ _ _ _ _ _ _ Hw p r p b' a Hp Hrp' Hb' Ha). pose proof (layout_mono p (end_ b') i Hp ltac:(lia) ltac:(lia)). lia.
    + pose proof (hw_disjoint _ _ _ _ _ _ _ _ Hw p p r a b' Hp ltac:(lia) Ha Hb'). pose proof (layout_mono p (i + 1) (start b') Hp ltac:(lia) ltac:(lia)). lia.
  - pose proof (layout_mono p (start a) i Hp ltac:(lia) ltac:(lia)) as M1. pose proof (layout_mono p (i + 1) (end_ a) Hp ltac:(lia) ltac:(lia)) as M2.
    assert (Hq : q ∈ exteriorOf p) by (apply list_elem_of_filter; split; [apply (isHaloPeer_true p q a Ha); split; [done|lia]|apply elem_of_seqZ; lia]).
    destruct (Hinc q a Hq Ha) as [_ Einc]. assert (Hel : (q, haloDataTo q p) ∈ arrivals) by (rewrite Harr; apply list_elem_of_fmap; by exists q).
    pose proof (Hin q _ _ Hel Einc) as Hdata. cbn [start end_] in Hdata. unfold haloDataTo in Hdata. rewrite Ha in Hdata.
    pose proof (layout_range p (start a) Hp ltac:(lia)). pose proof (layout_range p (end_ a) Hp ltac:(lia)).
    assert (Es : slice particles' (W p i) (W p (i + 1)) = slice (slice particles' (W p (start a)) (W p (end_ a))) (W p i - W p (start a)) (W p (i + 1) - W p (start a))) by (rewrite slice_slice by lia; f_equal; lia).
    destruct (assign_get q q Hqr Hqr) as [b Hb]. rewrite Es, Hdata. replace (end_ a - start a) with ((i - start a) + (1 + (end_ a - i - 1))) by lia. rewrite !seqZ_app, !bind_app by lia.
    replace (start a + (i - start a)) with i by lia. change (seqZ i 1 ≫= leafData p) with (leafData p i ++ []). rewrite app_nil_r.
    pose proof (leafData_zlen p q a b Hp Hqr Hne Ha Hb (Z.to_nat (i - start a)) (start a) ltac:(lia) ltac:(lia)) as Hz1. rewrite Z2Nat.id in Hz1 by lia. replace (start a + (i - start a)) with i in Hz1 by lia.
    destruct (hw_halo _ _ _ _ _ _ _ _ Hw p q a b i Hp Hqr Hne Ha Hb Hi Hlt) as (Hz2 & _). rewrite slice_block; [|lia|].
    + unfold leafData. destruct (Z.ltb_spec (W p i) (W p (i + 1))); [done|lia].
    + unfold leafData. destruct (Z.ltb_spec (W p i) (W p (i + 1))); lia.
Qed.

End World.

(** ** Messages between all ranks *)

(** The messages to rank [p], with their senders. *)
Definition addressed {M} (N : Z) (sent : Z -> list (Z * M)) (p : Z) : list (Z * M) :=
  seqZ 0 N ≫= fun q => (fun e => (q, e.2)) <$> filter (fun e => e.1 = p) (sent q).

Lemma addressed_single {M} N (R : Z -> Z -> bool) (f : Z -> Z -> M) p : 0 <= p < N ->
  addressed N (fun q => (fun r => (r, f q r)) <$> filter (fun r => R q r = true) (seqZ 0 N)) p = (fun q => (q, f q p)) <$> filter (fun q => R q p = true) (seqZ 0 N).
Proof.
  intros Hp. unfold addressed. assert (Hone : forall q, filter (fun e : Z * M => e.1 = p) ((fun r => (r, f q r)) <$> filter (fun r => R q r = true) (seqZ 0 N)) = if R q p then [(p, f q p)] else []).
  { intros q. assert (Hsplit : seqZ 0 N = seqZ 0 p ++ p :: seqZ (p + 1) (N - p - 1)).
    { replace N with (p + (1 + (N - p - 1))) at 1 by lia. rewrite !seqZ_app by lia. do 2 f_equal. }
    assert (Hnone : forall l, p ∉ l -> filter (fun e : Z * M => e.1 = p) ((fun r => (r, f q r)) <$> filter (fun r => R q r = true) l) = []).
    { intros l Hl. apply filter_none, Forall_fmap, Forall_forall. intros r [_ Hr]%list_elem_of_filter. simpl. by intros ->. }
    rewrite Hsplit, filter_app, fmap_app, filter_app, Hnone by (rewrite elem_of_seqZ; lia). rewrite filter_cons. cbn [app]. destruct (R q p).
    - rewrite decide_True by done. rewrite fmap_cons, filter_cons_True by done. by rewrite Hnone by (rewrite elem_of_seqZ; lia).
    - rewrite decide_False by done. apply Hnone. rewrite elem_of_seqZ. lia. }
  assert (Hgen : forall l, (l ≫= fun q => (fun e => (q, e.2)) <$> filter (fun e : Z * M => e.1 = p) ((fun r => (r, f q r)) <$> filter (fun r => R q r = true) (seqZ 0 N))) =
    (fun q => (q, f q p)) <$> filter (fun q => R q p = true) l); [|apply Hgen].
  induction l as [|q l IH]; [done|]. rewrite bind_cons, Hone, filter_cons. destruct (R q p).
  - rewrite decide_True by done. cbn [fmap list_fmap app snd]. by rewrite IH.
  - rewrite decide_False by done. exact IH.
Qed.
