(* ===== verification/ExchangeProperties.v ===== *)
(** * Properties of the particle and halo exchange

    The claims about [cstone/domain/domaindecomp_mpi.hpp], [cstone/domain/assignment.hpp], [cstone/halos/],
    [cstone/domain/exchange_keys.hpp] and [cstone/focus/peer_flags.hpp]. *)

From S2P Require Import Prelude Primitives SfcCommon Csarray CsInvariant CsRebalance CsCounts CsBuild Octree IndexRanges DomainDecomp Layout FocusRebalance GlobalTree Exchange Distribute Replay Halos HaloExchange.

(** ** Message sizes *)

Lemma round_up_bound n : 0 <= n < 2 ^ 63 -> n <= round_up n alignment <= n + 7.
Proof.
  intros Hn. unfold round_up, alignment. assert (Hu : forall x, 0 <= x < 2 ^ 64 -> u64 x = x) by (intros; by apply wrap_small).
  rewrite (Hu (n + 8)), (Hu (n + 8 - 1)) by lia. pose proof (Z.div_mod (n + 8 - 1) 8 ltac:(lia)). pose proof (Z.mod_pos_bound (n + 8 - 1) 8 ltac:(lia)). rewrite Hu by lia. lia.
Qed.

(** The number of particles per message is chosen such that the header and all packed and
    padded arrays are at most [INT_MAX] 8-byte elements, the largest count that MPI can
    transfer in one message. *)
Theorem message_fits sizes count : sizes <> [] -> Forall (fun s => 1 <= s) sizes -> zsum sizes <= INT_MAX -> zlen sizes <= 1024 -> 0 <= count <= maxMessage sizes ->
  exists bytes, lastOffset (computeByteOffsets count alignment sizes) = Some bytes /\ 0 <= bytes /\ headerBytes + bytes <= INT_MAX * 8.
Proof.
  intros Hne Hs Hsum Hlen Hc. unfold INT_MAX in *. set (pads := (fun s => round_up (u64 (s * count)) alignment) <$> sizes).
  assert (Hpos : 1 <= zsum sizes).
  { destruct sizes as [|x sizes]; [done|]. apply Forall_cons in Hs as [Hx Hs]. rewrite zsum_cons. assert (0 <= zsum sizes) by (apply zsum_nonneg; eapply Forall_impl; [exact Hs|]; simpl; lia). lia. }
  pose proof (zlen_nonneg sizes) as Hz0. assert (Hfit : count * zsum sizes <= 2147483647 * 8 - 8 - zlen sizes * 8).
  { unfold maxMessage, numElementsFit, INT_MAX, headerBytes, alignment in Hc. change (u64 (u64 (2147483647 * 8) - round_up 8 8)) with (2147483647 * 8 - 8) in Hc.
    rewrite (u64_small (2147483647 * 8 - 8 - zlen sizes * 8)) in Hc by lia. pose proof (Z.mul_div_le (2147483647 * 8 - 8 - zlen sizes * 8) (zsum sizes) ltac:(lia)). nia. }
  assert (Hpads : forall l, Forall (fun s => 1 <= s) l -> zsum l <= zsum sizes ->
    Forall (fun x => 0 <= x) ((fun s => round_up (u64 (s * count)) alignment) <$> l) /\ zsum ((fun s => round_up (u64 (s * count)) alignment) <$> l) <= count * zsum l + 7 * zlen l).
  { induction l as [|x l IH]; intros Hl Hsl; [split; [by apply Forall_nil|]; change (zlen (@nil Z)) with 0; simpl; lia|]. apply Forall_cons in Hl as [Hx Hl]. rewrite zsum_cons in Hsl.
    assert (0 <= zsum l) by (apply zsum_nonneg; eapply Forall_impl; [exact Hl|]; simpl; lia). destruct (IH Hl ltac:(lia)) as [I1 I2].
    assert (Hxc : 0 <= x * count <= count * zsum sizes) by nia. rewrite fmap_cons, !zsum_cons, zlen_cons. rewrite (u64_small (x * count)) by lia.
    pose proof (round_up_bound (x * count) ltac:(lia)). split; [apply Forall_cons; split; [lia|done]|lia]. }
  destruct (Hpads sizes Hs ltac:(lia)) as [H1 H2]. fold pads in H1, H2. pose proof (zsum_nonneg pads H1). exists (zsum pads).
  assert (Hzp : zlen pads = zlen sizes) by apply zlen_map.
  split; [|unfold headerBytes, alignment; change (round_up 8 8) with 8; lia]. unfold lastOffset, computeByteOffsets. rewrite fmap_app. fold pads.
  change ((fun s => round_up (u64 (s * count)) alignment) <$> [0]) with [round_up (u64 (0 * count)) alignment]. set (pad := round_up (u64 (0 * count)) alignment). clearbody pad.
  assert (Escan : exclusive_scan_with (fun a b => u64 (a + b)) 0 (pads ++ [pad]) = exclusive_scan 0 (pads ++ [pad])) by (apply (exclusive_scan_wrap_init 64); [done|done|lia]).
  rewrite Escan. assert (E : zlen (exclusive_scan 0 (pads ++ [pad])) - 1 = zlen pads) by (unfold zlen; rewrite exclusive_scan_length, length_app; simpl; lia).
  rewrite E, exclusive_scan_get by (rewrite zlen_app; change (zlen [pad]) with 1; lia). rewrite Z.add_0_l. f_equal. unfold prefixSum, zlen. rewrite Nat2Z.id. by rewrite take_app_length.
Qed.

Lemma message_fits_witness :
  exists bytes, lastOffset (computeByteOffsets (maxMessage [8; 8; 8; 4]) alignment [8; 8; 8; 4]) = Some bytes /\ 0 <= bytes /\ headerBytes + bytes <= INT_MAX * 8.
Proof. apply (message_fits [8; 8; 8; 4]); [discriminate|repeat (apply Forall_cons; split; [lia|]); by apply Forall_nil|vm_compute; congruence|vm_compute; congruence|split; vm_compute; congruence]. Defined.

(** ** Keys of the assigned range *)

(** C18: The first part of [assign] establishes the state that the exchange relies on, for buffers of
    fewer than 2^32 elements in which no particle is marked as removed (no key is [removeKey]): the
    keys of the assigned range are those of its particles in ascending order, and the
    ordering lists the positions of these particles, each once. *)
Theorem assignKeys_ready {P} k (sfcKey : P -> Z) o particles keys ordering :
  0 <= bstart o <= bend o -> bend o <= bsize o < 4294967296 -> zlen particles = bsize o -> zlen keys = bsize o -> Forall (fun key => key <> removeKey k) keys ->
  exists keys' ordering' own, assignKeys k sfcKey o particles keys ordering = Some (keys', ordering') /\
    ready k sfcKey o ordering' keys' particles own /\ own ≡ₚ slice particles (bstart o) (bend o) /\ slice ordering' (bstart o) (bend o) ≡ₚ seqZ (bstart o) (bend o - bstart o).
Proof. apply assignKeys_run. Qed.

Lemma assignKeys_ready_witness :
  exists keys' ordering' own, assignKeys Key32 Z.abs (mkBufferDescription 1 4 5) [9; -3; 1; 2; 9] [0; 0; 0; 0; 0] [] = Some (keys', ordering') /\
    ready Key32 Z.abs (mkBufferDescription 1 4 5) ordering' keys' [9; -3; 1; 2; 9] own /\ own ≡ₚ slice [9; -3; 1; 2; 9] 1 4 /\ slice ordering' 1 4 ≡ₚ seqZ 1 (4 - 1).
Proof.
  apply (assignKeys_ready Key32 Z.abs (mkBufferDescription 1 4 5) [9; -3; 1; 2; 9] [0; 0; 0; 0; 0] []); [vm_compute; intuition congruence..|].
  repeat (apply Forall_cons; split; [vm_compute; congruence|]). by apply Forall_nil.
Defined.

(** ** Distribution *)

(** A world of ranks with sorted particles: [own p] are the particles of rank [p] in the order of
    their keys, [sends p] its send ranges, and its buffers have the size that the exchange needs. *)
Record exchangeWorld {P} (sfcKey : P -> Z) (k : KeyType) (s : SfcAssignment) (sizes : list Z) (o : Z -> BufferDescription) (ordering keys sends : Z -> list Z) (particles own : Z -> list P) : Prop := {
  ew_valid : validAssignment k s;
  ew_message : 1 <= maxMessage sizes;
  ew_ready : forall p, 0 <= p < assignmentRanks s -> ready k sfcKey (o p) (ordering p) (keys p) (particles p) (own p);
  ew_sends : forall p, 0 <= p < assignmentRanks s -> createSendRanges s (sfcKey <$> own p) = Some (sends p);
  ew_counts : forall p, 0 <= p < assignmentRanks s -> (counts_ s).[p] = Some (zlen (assignedTo sfcKey s own p)) /\ zlen (assignedTo sfcKey s own p) < 4294967296 /\
    exchangeBufferSize (o p) (nthz (sends p) (p + 1) - nthz (sends p) p) (nthz (counts_ s) p) = bsize (o p)
}.

(** What rank [q] sends in the first exchange. *)
Definition firstSends {P} sizes (o : Z -> BufferDescription) (ordering sends : Z -> list Z) (particles : Z -> list P) (q : Z) : list (list (Message P)) :=
  default [] (sendMessages sizes (sends q) q (drop (Z.to_nat (bstart (o q))) (ordering q)) (particles q)).

Lemma firstSends_run {P} (sfcKey : P -> Z) k s sizes o ordering keys sends particles own q : exchangeWorld sfcKey k s sizes o ordering keys sends particles own -> 0 <= q < assignmentRanks s ->
  sendMessages sizes (sends q) q (drop (Z.to_nat (bstart (o q))) (ordering q)) (particles q) = Some (firstSends sizes o ordering sends particles q).
Proof. intros [H1 H2 H3 H4 _] Hq. destruct (world_sends sfcKey k s sizes o ordering keys sends particles own H1 H2 H3 H4 q Hq) as (sent & E & _). unfold firstSends. by rewrite E. Qed.

(** C11: The distribution delivers every particle to its rank: in whatever order the messages of
    the ranks interleave, every rank consumes exactly the messages that are sent to it and
    returns the sorted keys of all particles on all ranks whose keys [findRank] maps to it, and
    the new ordering gives these particles in this order. *)
Theorem distribute_correct {P} (sfcKey : P -> Z) k s sizes o ordering keys sends particles own :
  exchangeWorld sfcKey k s sizes o ordering keys sends particles own ->
  forall p arrivals, 0 <= p < assignmentRanks s ->
  interleaves (fun q => messagesTo p (firstSends sizes o ordering sends particles q)) (seqZ 0 (assignmentRanks s)) arrivals ->
  exists d assigned, distribute k sfcKey p (nthz (counts_ s) p) (sends p) (o p) sizes arrivals (ordering p) (keys p) (particles p) = Some d /\
    d_sent d = firstSends sizes o ordering sends particles p /\ d_rest d = [] /\
    assigned ≡ₚ filter (fun x => findRank s (sfcKey x) = Some p) (seqZ 0 (assignmentRanks s) ≫= own) /\
    d_keyView d = sfcKey <$> assigned /\ zsorted (d_keyView d) /\
    inOrder (drop (Z.to_nat (d_start d + nthz (sends p) p)) (d_ordering d)) (d_particles d) assigned.
Proof.
  intros Hw p arrivals Hp Harr. pose proof (fun q => firstSends_run sfcKey k s sizes o ordering keys sends particles own q Hw) as Hsent. destruct Hw as [H1 H2 H3 H4 H5].
  destruct (H5 p Hp) as (Ec & Hlt & Hsz). rewrite (nthz_Some _ _ _ Ec) in *.
  destruct (world_distribute sfcKey k s sizes o ordering keys sends particles own H1 H2 H3 H4 _ Hsent p arrivals Hp Harr _ eq_refl Hlt Hsz) as (d & assigned & Ed & D1 & D2 & D3 & D4 & D5 & D6 & _).
  by exists d, assigned.
Qed.

(** Two ranks with three particles each; a particle is its key. *)
Definition assignment2 : SfcAssignment := mkSfcAssignment [0; 100; 8 ^ 10] [4; 2] [1; 1] [0; 1; 2].
Definition desc2 (p : Z) : BufferDescription := if p =? 0 then mkBufferDescription 1 4 6 else mkBufferDescription 2 5 5.
Definition ordering2 (p : Z) : list Z := if p =? 0 then [0; 2; 3; 1] else [0; 0; 3; 2; 4].
Definition particles2 (p : Z) : list Z := if p =? 0 then [0; 150; 5; 50; 0; 0] else [0; 0; 30; 20; 200].
Definition keys2 (p : Z) : list Z := if p =? 0 then [0; 5; 50; 150; 0; 0] else [0; 0; 20; 30; 200].
Definition own2 (p : Z) : list Z := if p =? 0 then [5; 50; 150] else [20; 30; 200].
Definition sends2 (p : Z) : list Z := [0; 2; 3].
Definition key2 (x : Z) : Z := x.

Lemma world2 : exchangeWorld key2 Key32 assignment2 [8] desc2 ordering2 keys2 sends2 particles2 own2.
Proof.
  assert (Hp2 : forall p, 0 <= p < assignmentRanks assignment2 -> p = 0 \/ p = 1) by (intros p Hp; change (assignmentRanks assignment2) with 2 in Hp; lia).
  split.
  - split; [vm_compute; congruence|by apply zsortedb_sound|reflexivity|reflexivity].
  - vm_compute. congruence.
  - intros p Hp. assert (Hi3 : forall i, 0 <= i < 3 -> i = 0 \/ i = 1 \/ i = 2) by lia.
    destruct (Hp2 p Hp) as [->| ->]; (split; [vm_compute; intuition congruence|reflexivity|reflexivity|vm_compute; congruence|reflexivity| |by apply zsortedb_sound|
      intros i Hi; cbn in Hi; assert (Hi6 : i = 0 \/ i = 1 \/ i = 4 \/ i = 5) by lia; destruct Hi6 as [->|[->|[->| ->]]]; vm_compute; congruence]);
      (intros i Hi; change (zlen _) with 3 in Hi; destruct (Hi3 i Hi) as [->|[->| ->]]); eexists _, _; (split; [reflexivity|]); (split; [vm_compute; intuition congruence|]); repeat split; reflexivity.
  - intros p Hp. destruct (Hp2 p Hp) as [->| ->]; vm_compute; reflexivity.
  - intros p Hp. destruct (Hp2 p Hp) as [->| ->]; repeat split; vm_compute; reflexivity.
Qed.

(** The messages to a rank, of which there is one here. *)
Definition arrivals2 (p : Z) : list (Z * Message Z) := if p =? 0 then [(1, mkMessage 2 [20; 30])] else [(0, mkMessage 1 [150])].

Lemma arrivals2_interleave p : 0 <= p < 2 -> interleaves (fun q => messagesTo p (firstSends [8] desc2 ordering2 sends2 particles2 q)) (seqZ 0 (assignmentRanks assignment2)) (arrivals2 p).
Proof.
  intros Hp. assert (Hp2 : p = 0 \/ p = 1) by lia. split.
  - destruct Hp2 as [->| ->]; (apply Forall_cons; split; [|by apply Forall_nil]); apply elem_of_seqZ; vm_compute; intuition congruence.
  - intros q Hq%elem_of_seqZ. change (assignmentRanks assignment2) with 2 in Hq. assert (Hq2 : q = 0 \/ q = 1) by lia. destruct Hp2 as [->| ->], Hq2 as [->| ->]; vm_compute; reflexivity.
Qed.

Lemma distribute_correct_witness :
  exists d assigned, distribute Key32 key2 0 4 [0; 2; 3] (mkBufferDescription 1 4 6) [8] [(1, mkMessage 2 [20; 30])] [0; 2; 3; 1] [0; 5; 50; 150; 0; 0] [0; 150; 5; 50; 0; 0] = Some d /\
    d_sent d = firstSends [8] desc2 ordering2 sends2 particles2 0 /\ d_rest d = [] /\
    assigned ≡ₚ filter (fun x => findRank assignment2 (key2 x) = Some 0) (seqZ 0 (assignmentRanks assignment2) ≫= own2) /\
    d_keyView d = key2 <$> assigned /\ zsorted (d_keyView d) /\
    inOrder (drop (Z.to_nat (d_start d + 0)) (d_ordering d)) (d_particles d) assigned.
Proof.
  apply (distribute_correct key2 Key32 assignment2 [8] desc2 ordering2 keys2 sends2 particles2 own2 world2 0 (arrivals2 0)); [vm_compute; intuition congruence|].
  apply arrivals2_interleave. lia.
Defined.

(** ** Repeated exchange *)

(** C12: The repeated exchange of further properties is consistent with the first one: if every
    rank sends its particles to another rank in one message, then in whatever order the
    messages of both exchanges arrive, every rank finds the properties of the particles that
    are assigned to it through the ordering of the first exchange. *)
Theorem redoExchange_correct {P R} (sfcKey : P -> Z) k s sizes sizes2 o ordering keys sends particles own (prop : P -> R) props arrivals d :
  exchangeWorld sfcKey k s sizes o ordering keys sends particles own -> 1 <= maxMessage sizes2 ->
  (forall p, 0 <= p < assignmentRanks s ->
    interleaves (fun q => messagesTo p (firstSends sizes o ordering sends particles q)) (seqZ 0 (assignmentRanks s)) (arrivals p) /\
    distribute k sfcKey p (nthz (counts_ s) p) (sends p) (o p) sizes (arrivals p) (ordering p) (keys p) (particles p) = Some (d p)) ->
  (forall p q, 0 <= p < assignmentRanks s -> 0 <= q < assignmentRanks s ->
    nthz (sends q) (p + 1) - nthz (sends q) p <= maxMessage sizes /\ nthz (sends q) (p + 1) - nthz (sends q) p <= maxMessage sizes2) ->
  (forall p, 0 <= p < assignmentRanks s -> zlen (props p) = zlen (particles p) /\ forall j, bstart (o p) <= j < bend (o p) -> (props p).[j] = prop <$> (particles p).[j]) ->
  exists sent, forall p arrivals', 0 <= p < assignmentRanks s -> interleaves (fun q => messagesTo p (sent q)) (seqZ 0 (assignmentRanks s)) arrivals' ->
  exists assigned props', redoExchange p (nthz (counts_ s) p) (sends p) (d_recvLog (d p)) (o p) (drop (Z.to_nat (d_start (d p))) (d_ordering (d p))) sizes2 arrivals' (props p) =
      Some (sent p, d_recvLog (d p), props', []) /\ d_keyView (d p) = sfcKey <$> assigned /\
    inOrder (drop (Z.to_nat (d_start (d p) + nthz (sends p) p)) (d_ordering (d p))) (d_particles (d p)) assigned /\
    inOrder (drop (Z.to_nat (d_start (d p) + nthz (sends p) p)) (d_ordering (d p))) props' (prop <$> assigned).
Proof.
  intros Hw Hfit2 Hd Hsmall Hprops. pose proof (fun q => firstSends_run sfcKey k s sizes o ordering keys sends particles own q Hw) as Hsent. destruct Hw as [H1 H2 H3 H4 H5].
  set (sent2 q := default [] (sendMessages sizes2 (sends q) q (drop (Z.to_nat (bstart (o q))) (ordering q)) (props q))).
  assert (Hsent2 : forall q, 0 <= q < assignmentRanks s -> sendMessages sizes2 (sends q) q (drop (Z.to_nat (bstart (o q))) (ordering q)) (props q) = Some (sent2 q)).
  { intros q Hq. destruct (props_sends sfcKey k s sizes2 o ordering keys sends particles own H1 Hfit2 H3 H4 prop props Hprops q Hq) as (sent & E & _). unfold sent2. by rewrite E. }
  exists sent2. intros p arrivals' Hp Harr'. destruct (redo_world sfcKey k s sizes sizes2 o ordering keys sends particles own H1 H2 Hfit2 H3 H4 prop props Hprops
    (firstSends sizes o ordering sends particles) arrivals d Hsent) with (sent2 := sent2) (p := p) (arr2 := arrivals') as (assigned & props' & E & _ & E1 & E2 & E3); try done.
  - intros q Hq. by apply Hd.
  - intros q Hq. destruct (H5 q Hq) as (Ec & Hlt & Hsz). by rewrite (nthz_Some _ _ _ Ec) in Hsz.
  - intros q Hq. destruct (H5 q Hq) as (Ec & _). rewrite <- (nthz_Some _ _ _ Ec). by apply Hd.
  - intros q r Hq Hr. destruct (Hsmall q r Hq Hr) as [S1 S2]. assert (Hle : zlen (sentData (own r) (sends r) r q) <= Z.max 0 (nthz (sends r) (q + 1) - nthz (sends r) q)).
    { unfold sentData. destruct (decide (q = r)); [change (zlen []) with 0; lia|]. unfold slice, zlen. rewrite length_take. lia. } lia.
  - exists assigned, props'. destruct (H5 p Hp) as (Ec & _). rewrite (nthz_Some _ _ _ Ec). done.
Qed.

Definition noParticles : @Distributed Z := mkDistributed [] [] [] [] [] 0 [] [].
Definition distributed2 (p : Z) : @Distributed Z :=
  default noParticles (distribute Key32 key2 p (nthz (counts_ assignment2) p) (sends2 p) (desc2 p) [8] (arrivals2 p) (ordering2 p) (keys2 p) (particles2 p)).
Definition props2 (p : Z) : list Z := if p =? 0 then [7; 1500; 50; 500; 7; 7] else [7; 7; 300; 200; 2000].

Lemma redoExchange_correct_witness :
  exists sent, forall p arrivals', 0 <= p < assignmentRanks assignment2 -> interleaves (fun q => messagesTo p (sent q)) (seqZ 0 (assignmentRanks assignment2)) arrivals' ->
  exists assigned props', redoExchange p (nthz (counts_ assignment2) p) (sends2 p) (d_recvLog (distributed2 p)) (desc2 p)
        (drop (Z.to_nat (d_start (distributed2 p))) (d_ordering (distributed2 p))) [8; 4] arrivals' (props2 p) =
      Some (sent p, d_recvLog (distributed2 p), props', []) /\ d_keyView (distributed2 p) = key2 <$> assigned /\
    inOrder (drop (Z.to_nat (d_start (distributed2 p) + nthz (sends2 p) p)) (d_ordering (distributed2 p))) (d_particles (distributed2 p)) assigned /\
    inOrder (drop (Z.to_nat (d_start (distributed2 p) + nthz (sends2 p) p)) (d_ordering (distributed2 p))) props' (Z.mul 10 <$> assigned).
Proof.
  assert (Hp2 : forall p, 0 <= p < assignmentRanks assignment2 -> p = 0 \/ p = 1) by (intros p Hp; change (assignmentRanks assignment2) with 2 in Hp; lia).
  apply (redoExchange_correct key2 Key32 assignment2 [8] [8; 4] desc2 ordering2 keys2 sends2 particles2 own2 (Z.mul 10) props2 arrivals2 distributed2 world2).
  - vm_compute. congruence.
  - intros p Hp. split; [by apply arrivals2_interleave|]. destruct (Hp2 p Hp) as [->| ->]; vm_compute; reflexivity.
  - intros p q Hp Hq. destruct (Hp2 p Hp) as [->| ->]; split; vm_compute; congruence.
  - intros p Hp. destruct (Hp2 p Hp) as [->| ->]; (split; [reflexivity|]); intros j Hj; cbn in Hj.
    + assert (j = 1 \/ j = 2 \/ j = 3) as [->|[->| ->]] by lia; reflexivity.
    + assert (j = 2 \/ j = 3 \/ j = 4) as [->|[->| ->]] by lia; reflexivity.
Defined.

(** C38: If a rank sends more particles to another rank than fit into one message, the repeated
    exchange loses properties, although it returns on all ranks without an error and consumes all
    messages, for every arrival order of both exchanges.  The log lists the sender once per
    message and the lookup always returns the location of its first message, so the messages of
    the repeated exchange overwrite each other there, and the locations of the further messages
    are never written: at the position of some particle that the first exchange has received,
    outside of the range of the particles that were already present, the array of the property
    still has its old content.  This is stated for repeated messages that hold at most as many
    particles as those of the first exchange. *)
Theorem redo_chunks_overwrite {P R} (sfcKey : P -> Z) k s sizes sizes2 o ordering keys sends particles own (prop : P -> R) props arrivals d p q :
  exchangeWorld sfcKey k s sizes o ordering keys sends particles own -> 1 <= maxMessage sizes2 <= maxMessage sizes ->
  (forall p, 0 <= p < assignmentRanks s ->
    interleaves (fun q => messagesTo p (firstSends sizes o ordering sends particles q)) (seqZ 0 (assignmentRanks s)) (arrivals p) /\
    distribute k sfcKey p (nthz (counts_ s) p) (sends p) (o p) sizes (arrivals p) (ordering p) (keys p) (particles p) = Some (d p)) ->
  (forall p, 0 <= p < assignmentRanks s -> zlen (props p) = zlen (particles p) /\ forall j, bstart (o p) <= j < bend (o p) -> (props p).[j] = prop <$> (particles p).[j]) ->
  0 <= p < assignmentRanks s -> 0 <= q < assignmentRanks s -> p <> q -> maxMessage sizes < nthz (sends q) (p + 1) - nthz (sends q) p ->
  exists sent,
    (forall p arrivals', 0 <= p < assignmentRanks s -> interleaves (fun q => messagesTo p (sent q)) (seqZ 0 (assignmentRanks s)) arrivals' ->
      exists props', redoExchange p (nthz (counts_ s) p) (sends p) (d_recvLog (d p)) (o p) (drop (Z.to_nat (d_start (d p))) (d_ordering (d p))) sizes2 arrivals' (props p) = Some (sent p, d_recvLog (d p), props', [])) /\
    exists j x, x ∈ own q /\ findRank s (sfcKey x) = Some p /\ (d_particles (d p)).[j] = Some x /\ ~ (bstart (o p) <= j < bend (o p)) /\
      forall arrivals' sent' log' props' rest', interleaves (fun q => messagesTo p (sent q)) (seqZ 0 (assignmentRanks s)) arrivals' ->
        redoExchange p (nthz (counts_ s) p) (sends p) (d_recvLog (d p)) (o p) (drop (Z.to_nat (d_start (d p))) (d_ordering (d p))) sizes2 arrivals' (props p) = Some (sent', log', props', rest') -> props'.[j] = (props p).[j].
Proof.
  intros Hw [Hfit2 Hless] Hd Hprops Hp Hq Hne Hmany. pose proof (fun q => firstSends_run sfcKey k s sizes o ordering keys sends particles own q Hw) as Hsent. destruct Hw as [H1 H2 H3 H4 H5].
  set (sent2 q := firstSends sizes2 o ordering sends props q).
  assert (Hsent2 : forall q, 0 <= q < assignmentRanks s -> sendMessages sizes2 (sends q) q (drop (Z.to_nat (bstart (o q))) (ordering q)) (props q) = Some (sent2 q)).
  { intros r Hr. destruct (props_sends sfcKey k s sizes2 o ordering keys sends particles own H1 Hfit2 H3 H4 prop props Hprops r Hr) as (sent & E & _). unfold sent2, firstSends. by rewrite E. }
  assert (Harr : forall r, 0 <= r < assignmentRanks s -> interleaves (fun q => messagesTo r (firstSends sizes o ordering sends particles q)) (seqZ 0 (assignmentRanks s)) (arrivals r)) by (intros r Hr; by apply Hd).
  assert (Hcount : forall r, 0 <= r < assignmentRanks s -> nthz (counts_ s) r = zlen (assignedTo sfcKey s own r)) by (intros r Hr; destruct (H5 r Hr) as (Ec & _); by apply nthz_Some).
  assert (Hsize : forall r, 0 <= r < assignmentRanks s -> zlen (assignedTo sfcKey s own r) < 4294967296 /\
    exchangeBufferSize (o r) (nthz (sends r) (r + 1) - nthz (sends r) r) (zlen (assignedTo sfcKey s own r)) = bsize (o r)) by (intros r Hr; destruct (H5 r Hr) as (_ & Hlt & Hsz); by rewrite Hcount in Hsz).
  assert (Hdist : forall r, 0 <= r < assignmentRanks s -> distribute k sfcKey r (zlen (assignedTo sfcKey s own r)) (sends r) (o r) sizes (arrivals r) (ordering r) (keys r) (particles r) = Some (d r))
    by (intros r Hr; rewrite <- Hcount by done; by apply Hd).
  pose proof (chunks_run sfcKey k s sizes sizes2 o ordering keys sends particles own H1 H2 Hfit2 H3 H4 prop props Hprops _ arrivals d Hsent Harr Hsize Hdist sent2 Hsent2 Hless) as Hrun.
  exists sent2. split.
  - intros r arrivals' Hr Ha. destruct (Hrun r arrivals' Hr Ha) as (_ & props' & E & _). exists props'. by rewrite Hcount.
  - destruct (stale_position sfcKey k s sizes o ordering keys sends particles own H1 H2 H3 H4 _ arrivals d Hsent Harr Hsize Hdist p q Hp Hq Hne Hmany) as (j & x & J1 & J2 & J3 & J4 & J5).
    exists j, x. do 4 (split; [done|]). intros arrivals' sent' log' props' rest' Ha Er. destruct (Hrun p arrivals' Hp Ha) as (r & props'' & E & E1 & Hout). rewrite Hcount, E in Er by done. injection Er as _ _ <- _.
    by apply Hout, J5.
Qed.

(** [M] particles on rank 1 that belong to rank 0; a message of 8-byte elements holds 2147483645. *)
Section ManyParticles.
Context (M : Z).
Definition assignmentM : SfcAssignment := mkSfcAssignment [0; 100; 8 ^ 10] [M; 0] [1; 1] [0; 1; 2].
Definition descM (p : Z) : BufferDescription := if p =? 0 then mkBufferDescription 0 0 M else mkBufferDescription 0 M M.
Definition orderingM (p : Z) : list Z := if p =? 0 then [] else seqZ 0 M.
Definition bufferM (p : Z) : list Z := replicate (Z.to_nat M) (if p =? 0 then 0 else 5).
Definition ownM (p : Z) : list Z := if p =? 0 then [] else replicate (Z.to_nat M) 5.
Definition sendsM (p : Z) : list Z := if p =? 0 then [0; 0; 0] else [0; M; M].
Definition propsM (p : Z) : list Z := replicate (Z.to_nat M) (if p =? 0 then 7 else 50).
Definition arrivalsM (p : Z) : list (Z * Message Z) := if p =? 0 then pair 1 <$> messagesTo 0 (firstSends [8] descM orderingM sendsM bufferM 1) else [].
Definition distributedM (p : Z) : @Distributed Z :=
  default noParticles (distribute Key32 key2 p (nthz (counts_ assignmentM) p) (sendsM p) (descM p) [8] (arrivalsM p) (orderingM p) (bufferM p) (bufferM p)).

Hypothesis HM : 1 <= M < 4294967296.

Lemma ranksM p : 0 <= p < assignmentRanks assignmentM -> p = 0 \/ p = 1.
Proof. change (assignmentRanks assignmentM) with 2. lia. Qed.

Lemma zlen_bufferM (x : Z) : zlen (replicate (Z.to_nat M) x) = M.
Proof using HM. unfold zlen. rewrite length_replicate. lia. Qed.

Lemma get_bufferM (x i : Z) : 0 <= i < M -> (replicate (Z.to_nat M) x).[i] = Some x.
Proof. intros Hi. rewrite aget_lookup by lia. apply lookup_replicate. split; [done|lia]. Qed.

Lemma validM : validAssignment Key32 assignmentM.
Proof. split; [vm_compute; congruence|by apply zsortedb_sound|reflexivity|reflexivity]. Qed.

Lemma sortedM : zsorted (key2 <$> replicate (Z.to_nat M) 5).
Proof. intros i j x y _ Hx Hy. apply aget_elem, list_elem_of_fmap in Hx as (x' & -> & [-> _]%elem_of_replicate). apply aget_elem, list_elem_of_fmap in Hy as (y' & -> & [-> _]%elem_of_replicate). lia. Qed.

Lemma assignedM p : p = 0 \/ p = 1 -> zlen (assignedTo key2 assignmentM ownM p) = if p =? 0 then M else 0.
Proof using HM.
  intros Hp. unfold assignedTo. change (seqZ 0 (assignmentRanks assignmentM)) with [0; 1]. rewrite !bind_cons. change (ownM 0) with (@nil Z). change (ownM 1) with (replicate (Z.to_nat M) 5). cbn [app].
  change ([] ≫= ownM) with (@nil Z). rewrite app_nil_r. destruct Hp as [->| ->].
  - rewrite filter_all; [apply zlen_bufferM|]. by apply Forall_replicate.
  - rewrite filter_none; [done|]. by apply Forall_replicate.
Qed.

Lemma worldM : exchangeWorld key2 Key32 assignmentM [8] descM orderingM bufferM sendsM bufferM ownM.
Proof using HM.
  assert (Hsz : forall i, 0 <= i < M -> (seqZ 0 M).[i] = Some i) by (intros i Hi; rewrite aget_lookup by lia; apply lookup_seqZ; lia).
  split; [apply validM|by vm_compute| | |].
  - intros p [->| ->]%ranksM; (split; [cbn; lia|apply zlen_bufferM|apply zlen_bufferM| | | | |]).
    + done.
    + done.
    + intros i Hi. change (zlen (ownM 0)) with 0 in Hi. lia.
    + by apply zsortedb_sound.
    + intros i Hi. unfold bufferM, nthz. rewrite get_bufferM by (cbn in Hi; lia). done.
    + change (bend (descM 1)) with M. change (orderingM 1) with (seqZ 0 M). rewrite zlen_seqZ; lia.
    + change (bend (descM 1)) with M. change (bstart (descM 1)) with 0. rewrite Z.sub_0_r. apply zlen_bufferM.
    + change (bend (descM 1)) with M. change (bstart (descM 1)) with 0. intros i Hi. change (ownM 1) with (replicate (Z.to_nat M) 5) in *. rewrite zlen_bufferM in Hi. exists i, 5.
      rewrite Z.add_0_l. split; [by apply Hsz|]. split; [lia|]. unfold bufferM. cbn [Z.eqb]. rewrite !get_bufferM by lia. done.
    + apply sortedM.
    + intros i Hi. cbn in Hi. lia.
  - intros p [->| ->]%ranksM; [done|]. rewrite (createSendRanges_run Key32 assignmentM validM) by (apply sortedM || (rewrite zlen_map; change (ownM 1) with (replicate (Z.to_nat M) 5); rewrite zlen_bufferM; lia)).
    change (seqZ 0 (assignmentRanks assignmentM + 1)) with [0; 1; 2]. change (ownM 1) with (replicate (Z.to_nat M) 5). rewrite !fmap_cons.
    rewrite (count_lt_none (nthz (rankBoundaries_ assignmentM) 0)), !count_lt_all by (apply Forall_fmap, Forall_replicate; vm_compute; congruence). by rewrite zlen_map, zlen_bufferM.
  - intros p Hp%ranksM. rewrite assignedM by done. destruct Hp as [->| ->]; (split; [done|]); (split; [cbn; lia|]).
    + change (exchangeBufferSize (mkBufferDescription 0 0 M) 0 M = M). unfold exchangeBufferSize. cbn [bstart bend bsize]. rewrite !Z.sub_0_r, (u32_small M) by lia. by rewrite Z.leb_refl, orb_true_r.
    + change (exchangeBufferSize (mkBufferDescription 0 M M) (M - M) 0 = M). unfold exchangeBufferSize. by rewrite Z.sub_diag.
Qed.

Lemma sendsM_count p q : p = 0 \/ p = 1 -> q = 0 \/ q = 1 -> nthz (sendsM q) (p + 1) - nthz (sendsM q) p = if (p =? 0) && (q =? 1) then M else 0.
Proof. intros [->| ->] [->| ->]; [done|change (M - 0 = M); lia|done|change (M - M = 0); lia]. Qed.

Lemma messagesM p q : p = 0 \/ p = 1 -> q = 0 \/ q = 1 -> (p, q) <> (0, 1) -> messagesTo p (firstSends [8] descM orderingM sendsM bufferM q) = [].
Proof using HM.
  intros Hp Hq Hne. assert (Hq' : 0 <= q < assignmentRanks assignmentM) by (change (assignmentRanks assignmentM) with 2; lia).
  destruct (sendTo_cases [8] (sendsM q) _ q _ _ p (firstSends_run key2 Key32 assignmentM [8] descM orderingM bufferM sendsM bufferM ownM q worldM Hq')) as [[_ E]|[[_ E]|(H1 & H2 & _)]]; try done.
  - destruct Hq as [->| ->]; change (numRanks (sendsM _)) with 2; lia.
  - rewrite sendsM_count by done. destruct ((p =? 0) && (q =? 1)); lia.
  - rewrite sendsM_count in H2 by done. destruct Hp as [->| ->], Hq as [->| ->]; cbn in H2; (done || lia).
Qed.

Lemma arrivalsM_interleave p : 0 <= p < assignmentRanks assignmentM ->
  interleaves (fun q => messagesTo p (firstSends [8] descM orderingM sendsM bufferM q)) (seqZ 0 (assignmentRanks assignmentM)) (arrivalsM p).
Proof using HM.
  intros Hp%ranksM. assert (Hfilter : forall q (l : list (Message Z)), snd <$> filter (fun e => e.1 = q) (pair 1 <$> l) = if decide (1 = q) then l else []).
  { intros q l. induction l as [|m l IH]; [by destruct (decide (1 = q))|]. rewrite fmap_cons, filter_cons. cbn [fst]. destruct (decide (1 = q)); [|done]. by rewrite fmap_cons, IH. }
  split.
  - destruct Hp as [->| ->]; [|by apply Forall_nil]. apply Forall_fmap, Forall_forall. intros m _. by apply elem_of_seqZ.
  - intros q Hq%elem_of_seqZ. change (assignmentRanks assignmentM) with 2 in Hq. assert (Hq2 : q = 0 \/ q = 1) by lia. destruct Hp as [->| ->].
    + change (arrivalsM 0) with (pair 1 <$> messagesTo 0 (firstSends [8] descM orderingM sendsM bufferM 1)). rewrite Hfilter. destruct Hq2 as [->| ->]; [|done]. rewrite decide_False by done. by rewrite messagesM; [|auto..|discriminate].
    + by rewrite messagesM; [|auto..|discriminate].
Qed.

Lemma distributedM_run p : 0 <= p < assignmentRanks assignmentM ->
  distribute Key32 key2 p (nthz (counts_ assignmentM) p) (sendsM p) (descM p) [8] (arrivalsM p) (orderingM p) (bufferM p) (bufferM p) = Some (distributedM p).
Proof using HM.
  intros Hp. pose proof worldM as Hw. pose proof (fun q => firstSends_run key2 Key32 assignmentM [8] descM orderingM bufferM sendsM bufferM ownM q Hw) as Hsent. destruct Hw as [H1 H2 H3 H4 H5].
  destruct (H5 p Hp) as (Ec & Hlt & Hsz). rewrite (nthz_Some _ _ _ Ec) in Hsz.
  destruct (world_distribute key2 Key32 assignmentM [8] descM orderingM bufferM sendsM bufferM ownM H1 H2 H3 H4 _ Hsent p (arrivalsM p) Hp (arrivalsM_interleave p Hp) _ eq_refl Hlt Hsz) as (d & _ & Ed & _).
  unfold distributedM. rewrite (nthz_Some _ _ _ Ec), Ed. done.
Qed.

End ManyParticles.

(** One particle more than fits into a message. *)
Definition overfull : Z := maxMessage [8] + 1.

Lemma redo_chunks_overwrite_witness :
  exists sent,
    (forall p arrivals', 0 <= p < assignmentRanks (assignmentM overfull) -> interleaves (fun q => messagesTo p (sent q)) (seqZ 0 (assignmentRanks (assignmentM overfull))) arrivals' ->
      exists props', redoExchange p (nthz (counts_ (assignmentM overfull)) p) (sendsM overfull p) (d_recvLog (distributedM overfull p)) (descM overfull p) (drop (Z.to_nat (d_start (distributedM overfull p))) (d_ordering (distributedM overfull p))) [8] arrivals' (propsM overfull p) = Some (sent p, d_recvLog (distributedM overfull p), props', [])) /\
    exists j x, x ∈ ownM overfull 1 /\ findRank (assignmentM overfull) (key2 x) = Some 0 /\ (d_particles (distributedM overfull 0)).[j] = Some x /\ ~ (bstart (descM overfull 0) <= j < bend (descM overfull 0)) /\
      forall arrivals' sent' log' props' rest', interleaves (fun q => messagesTo 0 (sent q)) (seqZ 0 (assignmentRanks (assignmentM overfull))) arrivals' ->
        redoExchange 0 (nthz (counts_ (assignmentM overfull)) 0) (sendsM overfull 0) (d_recvLog (distributedM overfull 0)) (descM overfull 0) (drop (Z.to_nat (d_start (distributedM overfull 0))) (d_ordering (distributedM overfull 0))) [8] arrivals' (propsM overfull 0) = Some (sent', log', props', rest') -> props'.[j] = (propsM overfull 0).[j].
Proof.
  assert (HM : 1 <= overfull < 4294967296) by done. assert (Hmany : maxMessage [8] < overfull) by done. revert HM Hmany. generalize overfull. intros M HM Hmany.
  apply (redo_chunks_overwrite key2 Key32 (assignmentM M) [8] [8] (descM M) (orderingM M) (bufferM M) (sendsM M) (bufferM M) (ownM M) (Z.mul 10) (propsM M) (arrivalsM M) (distributedM M) 0 1 (worldM M HM)); try done.
  - intros p Hp. split; [by apply arrivalsM_interleave|by apply distributedM_run].
  - intros p [->| ->]%ranksM; (split; [unfold propsM, bufferM; by rewrite !zlen_bufferM|]); intros j Hj; cbn [descM Z.eqb bstart bend] in Hj; [lia|]. unfold propsM, bufferM. by rewrite !get_bufferM by lia.
  - by rewrite sendsM_count by auto.
Defined.

(** ** Peers of the focus tree *)

Lemma std_includes_iff range : forall other, StronglySorted Z.lt range -> StronglySorted Z.lt other -> std_includes range other = true <-> forall x, x ∈ other -> x ∈ range.
Proof.
  induction range as [|x range IH]; intros other Hr Ho; cbn [std_includes].
  - rewrite bool_decide_eq_true. split; [by intros ->|]. intros H. destruct other as [|y other]; [done|]. specialize (H y ltac:(by left)). by apply not_elem_of_nil in H.
  - destruct other as [|y other]; [split; [by intros _ z ?%not_elem_of_nil|done]|]. inversion Hr as [|? ? Hr' Hrx]; subst. inversion Ho as [|? ? Ho' Hoy]; subst. rewrite Forall_forall in Hrx, Hoy.
    destruct (Z.ltb_spec y x) as [Hyx|Hyx].
    + split; [done|]. intros H. specialize (H y ltac:(by left)). apply elem_of_cons in H as [->|H]; [lia|]. specialize (Hrx y H). lia.
    + destruct (Z.ltb_spec x y) as [Hxy|Hxy].
      * rewrite IH by done. split; intros H z Hz; [right; by apply H|]. specialize (H z Hz). apply elem_of_cons in H as [->|H]; [|done].
        apply elem_of_cons in Hz as [->|Hz]; [lia|]. specialize (Hoy x Hz). lia.
      * assert (x = y) as -> by lia. rewrite IH by done. split; intros H z Hz.
        -- apply elem_of_cons in Hz as [->|Hz]; [by left|right; by apply H].
        -- specialize (H z ltac:(by right)). apply elem_of_cons in H as [->|H]; [|done]. specialize (Hoy y Hz). lia.
Qed.

Lemma StronglySorted_lt_NoDup l : StronglySorted Z.lt l -> NoDup l.
Proof. induction 1 as [|x l Hs IH Hx]; constructor; [|done]. intros Hin. rewrite Forall_forall in Hx. specialize (Hx x Hin). lia. Qed.

(** A rank is a peer exactly if its part of the focus tree has a leaf boundary that its part of
    the global tree does not have; the comparison of the sizes does not change this. *)
Theorem focusPeers_exact globalOffsets focusOffsets myRank globalTree focusTree :
  1 <= zlen globalOffsets -> StronglySorted Z.lt globalTree -> StronglySorted Z.lt focusTree ->
  (forall r, 0 <= r < zlen globalOffsets - 1 -> exists f, focusOffsets.[r] = Some f /\ 0 <= start f <= end_ f /\ end_ f <= zlen focusTree /\
    0 <= nthz globalOffsets r <= nthz globalOffsets (r + 1) /\ nthz globalOffsets (r + 1) <= zlen globalTree) ->
  exists flags, focusPeers globalOffsets focusOffsets myRank globalTree focusTree = Some flags /\ zlen flags = zlen globalOffsets - 1 /\
    forall r f, 0 <= r < zlen globalOffsets - 1 -> focusOffsets.[r] = Some f -> exists v, flags.[r] = Some v /\
      (v = 0 \/ v = 1) /\ (v = 0 <-> r = myRank \/ forall x, x ∈ slice focusTree (start f) (end_ f) -> x ∈ slice globalTree (nthz globalOffsets r) (nthz globalOffsets (r + 1))).
Proof.
  intros Hn Hg Hf Ho. set (n := zlen globalOffsets - 1) in *.
  assert (Hss : forall l a b, StronglySorted Z.lt l -> StronglySorted Z.lt (slice l a b)).
  { intros l a b Hs. unfold slice. generalize (Z.to_nat a), (Z.to_nat (b - a)). intros i j. rewrite <- (take_drop i l) in Hs. apply StronglySorted_app in Hs as (_ & _ & Hs).
    rewrite <- (take_drop j (drop i l)) in Hs. by apply StronglySorted_app in Hs as (_ & Hs & _). }
  set (included r f := forall x, x ∈ slice focusTree (start f) (end_ f) -> x ∈ slice globalTree (nthz globalOffsets r) (nthz globalOffsets (r + 1))).
  set (good r v := forall f, focusOffsets.[r] = Some f -> (v = 0 \/ v = 1) /\ (v = 0 <-> r = myRank \/ included r f)).
  destruct (for_loop_inv (fun i st => zlen st = n /\ (forall r, 0 <= r < i -> exists v, st.[r] = Some v /\ good r v) /\ forall r, i <= r < n -> st.[r] = Some 0)
    0 n (focusPeerFlag globalOffsets focusOffsets myRank globalTree focusTree) (replicate (Z.to_nat n) 0)) as (flags & E & Hz & Hfl & _); [lia| | |].
  - split; [unfold zlen; rewrite length_replicate; lia|]. split; [lia|]. intros r Hr. rewrite aget_lookup by lia. apply lookup_replicate. split; [done|lia].
  - intros i st Hi (Hz & Hlo & Hhi). destruct (Ho i Hi) as (f & Ef & H1 & H2 & H3 & H4).
    assert (Hkeep : good i 0 -> zlen st = n /\ (forall r, 0 <= r < i + 1 -> exists v, st.[r] = Some v /\ good r v) /\ (forall r, i + 1 <= r < n -> st.[r] = Some 0)).
    { intros Hgood. split; [done|]. split; [|intros r Hr; apply Hhi; lia]. intros r Hr. destruct (decide (r = i)) as [->|]; [exists 0; split; [apply Hhi; lia|done]|apply Hlo; lia]. }
    unfold focusPeerFlag. destruct (Z.eqb_spec i myRank) as [->|Hne].
    { exists st. split; [done|]. apply Hkeep. intros f' _. split; [by left|]. split; [intros _; by left|done]. }
    rewrite (nthz_get globalOffsets i), (nthz_get globalOffsets (i + 1)), Ef by lia. cbn beta iota. unfold count. rewrite !subspan_run by lia. cbn beta iota.
    replace (start f + (end_ f - start f)) with (end_ f) by lia. replace (nthz globalOffsets i + (nthz globalOffsets (i + 1) - nthz globalOffsets i)) with (nthz globalOffsets (i + 1)) by lia.
    set (glob := slice globalTree _ _). set (foc := slice focusTree _ _). assert (Hinc : (if zlen glob <? zlen foc then true else negb (std_includes glob foc)) = false <-> included i f).
    { pose proof (std_includes_iff glob foc (Hss _ _ _ Hg) (Hss _ _ _ Hf)) as Hiff. fold glob foc in Hiff. destruct (Z.ltb_spec (zlen glob) (zlen foc)) as [Hlt|_].
      - split; [done|]. intros Hin. pose proof (submseteq_length _ _ (NoDup_submseteq _ _ (StronglySorted_lt_NoDup _ (Hss focusTree (start f) (end_ f) Hf)) Hin)) as Hl. unfold zlen in Hlt. fold glob foc in Hl. lia.
      - rewrite negb_false_iff. exact Hiff. }
    destruct (if zlen glob <? zlen foc then true else negb (std_includes glob foc)).
    + rewrite (Hhi i) by lia. change (Z.lor 0 (maskValue focusPeerMask)) with 1. pose proof (aset_Some st i 1 ltac:(lia)) as Es. rewrite Es. eexists. split; [done|].
      split; [unfold zlen in *; by rewrite length_insert|]. split; intros r Hr.
      * destruct (decide (r = i)) as [->|]; [|rewrite (aget_aset_ne _ _ _ _ _ Es) by done; apply Hlo; lia]. exists 1. split; [apply (aget_aset_eq _ _ _ _ Es)|]. intros f' Ef'. rewrite Ef in Ef'. injection Ef' as <-.
        split; [by right|]. split; [done|]. intros [?|Hin]; [done|]. by apply Hinc in Hin.
      * rewrite (aget_aset_ne _ _ _ _ _ Es) by lia. apply Hhi. lia.
    + exists st. split; [done|]. apply Hkeep. intros f' Ef'. rewrite Ef in Ef'. injection Ef' as <-. split; [by left|]. split; [|done]. intros _. right. by apply Hinc.
  - exists flags. split; [exact E|]. split; [done|]. intros r f Hr Er. destruct (Hfl r Hr) as (v & Ev & Hgood). exists v. split; [done|]. by apply Hgood.
Qed.

(** ** Halos *)


(** Two ranks with the eight leaves of level one, four leaves each; a particle is its key.  Rank 0 needs leaf 4,
    rank 1 needs leaves 1 and 3. *)
Definition haloLeaves (p : Z) : list Z := [0; 8 ^ 9; 2 * 8 ^ 9; 3 * 8 ^ 9; 4 * 8 ^ 9; 5 * 8 ^ 9; 6 * 8 ^ 9; 7 * 8 ^ 9; 8 ^ 10].
Definition haloAssign (p : Z) : list IndexPair := [mkIndexPair 0 4; mkIndexPair 4 8].
Definition haloLayout (p : Z) : list Z := if p =? 0 then [0; 1; 3; 3; 4; 6; 6; 6; 6] else [0; 0; 2; 2; 3; 5; 5; 5; 6].
Definition haloAll : list Z := [0; 8 ^ 9; 8 ^ 9 + 1; 3 * 8 ^ 9; 4 * 8 ^ 9; 4 * 8 ^ 9 + 5; 7 * 8 ^ 9].
Definition haloParticles (p : Z) : list Z := if p =? 0 then [0; 8 ^ 9; 8 ^ 9 + 1; 3 * 8 ^ 9; -1; -1] else [-1; -1; -1; 4 * 8 ^ 9; 4 * 8 ^ 9 + 5; 7 * 8 ^ 9].
Definition haloKey (x : Z) : Z := x.

Lemma haloWorld2 : haloWorld haloKey haloAll Key32 2 haloLeaves haloAssign haloLayout haloParticles.
Proof.
  assert (Hp2 : forall p, 0 <= p < 2 -> p = 0 \/ p = 1) by lia. assert (H4 : forall i, 0 <= i < 4 -> i = 0 \/ i = 1 \/ i = 2 \/ i = 3) by lia. assert (H8 : forall i, 4 <= i < 8 -> i = 4 \/ i = 5 \/ i = 6 \/ i = 7) by lia.
  assert (Hget : forall p q a, (haloAssign p).[q] = Some a -> q = 0 /\ a = mkIndexPair 0 4 \/ q = 1 /\ a = mkIndexPair 4 8).
  { intros p q a Ha. pose proof (aget_Some_range _ _ _ Ha) as Hr. change (zlen (haloAssign p)) with 2 in Hr. destruct (Hp2 q Hr) as [->| ->]; vm_compute in Ha; injection Ha as <-; [by left|by right]. }
  split.
  - by apply zsortedb_sound.
  - intros p Hp. apply (bool_decide_unpack _). vm_compute. exact I.
  - done.
  - intros p Hp. destruct (Hp2 p Hp) as [->| ->]; (split; [reflexivity|split; [by apply zsortedb_sound|split; [|reflexivity]]]); repeat (apply Forall_cons; split; [vm_compute; intuition congruence|]); by apply Forall_nil.
  - intros p q a Hp Ha. destruct (Hget p q a Ha) as [[_ ->]|[_ ->]]; vm_compute; intuition congruence.
  - intros p q r a b Hp Hqr Ha Hb. destruct (Hget p q a Ha) as [[-> ->]|[-> ->]], (Hget p r b Hb) as [[-> ->]|[-> ->]]; cbn; lia.
  - intros p a i Hp Ha Hi. destruct (Hget p p a Ha) as [[-> ->]|[-> ->]]; cbn [start end_] in Hi.
    + destruct (H4 i Hi) as [->|[->|[->| ->]]]; vm_compute; reflexivity.
    + destruct (H8 i Hi) as [->|[->|[->| ->]]]; vm_compute; reflexivity.
  - intros p q a b i Hp Hq Hne Ha Hb Hi Hlt. destruct (Hget p q a Ha) as [[-> ->]|[-> ->]], (Hget _ _ b Hb) as [[? ->]|[? ->]]; try lia; cbn [start end_] in *.
    + assert (p = 1) as -> by lia. split; [|split; [exists i; split; [lia|done]|exists (i + 1); split; [lia|done]]].
      destruct (H4 i Hi) as [->|[->|[->| ->]]]; vm_compute; try reflexivity; vm_compute in Hlt; congruence.
    + assert (p = 0) as -> by lia. split; [|split; [exists i; split; [lia|done]|exists (i + 1); split; [lia|done]]].
      destruct (H8 i Hi) as [->|[->|[->| ->]]]; vm_compute; try reflexivity; vm_compute in Hlt; congruence.
Qed.

