(* ===== verification/Scalars.v ===== *)
(** * Coordinate types

    The coordinate type [T] of the templates is [float] or [double].  The operations that the
    code applies to it are a class; the definitions of the geometry are polymorphic in it.
    Instances: IEEE double precision (the Standard Library's [SpecFloat] with 53 bits) and
    exact rational arithmetic. *)

From Stdlib Require Import SpecFloat QArith Qround Qabs.
From S2P Require Import Prelude.
#[local] Open Scope Z_scope.

(** ** Operations *)

Class Scalar (T : Type) := {
  s_ofZ : Z -> T;
  s_ratio : Z -> Z -> T;
  s_add : T -> T -> T;
  s_sub : T -> T -> T;
  s_mul : T -> T -> T;
  s_div : T -> T -> T;
  s_neg : T -> T;
  s_abs : T -> T;
  s_ltb : T -> T -> bool;
  s_leb : T -> T -> bool;
  s_rint : T -> T;
  s_floor : T -> T;
  s_ceil : T -> T;
  s_trunc : T -> option Z
}.

Declare Scope scalar_scope.
Delimit Scope scalar_scope with S.
Infix "+" := s_add : scalar_scope.
Infix "-" := s_sub : scalar_scope.
Infix "*" := s_mul : scalar_scope.
Infix "/" := s_div : scalar_scope.
Infix "<?" := s_ltb : scalar_scope.
Infix "<=?" := s_leb : scalar_scope.
Bind Scope scalar_scope with Scalar.

Section Derived.
Context {T : Type} `{!Scalar T}.
#[local] Open Scope scalar_scope.

(** [stl::min], [stl::max] and their standard library versions. *)
Definition s_min (a b : T) : T := if b <? a then b else a.
Definition s_max (a b : T) : T := if a <? b then b else a.

(** A [bool] as a factor. *)
Definition s_bool (b : bool) : T := s_ofZ (Z.b2z b).

(** Conversion to [int], undefined outside of its range. *)
Definition s_toInt (x : T) : option Z :=
  let? v := s_trunc x in
  if ((- 2147483648 <=? v) && (v <=? 2147483647))%Z then Some v else None.

(** ** Vectors *)

Record Vec3 := mkVec3 { vx : T; vy : T; vz : T }.

Definition vmap (f : T -> T) (a : Vec3) : Vec3 := mkVec3 (f (vx a)) (f (vy a)) (f (vz a)).
Definition vmap2 (f : T -> T -> T) (a b : Vec3) : Vec3 := mkVec3 (f (vx a) (vx b)) (f (vy a) (vy b)) (f (vz a) (vz b)).
Definition vadd : Vec3 -> Vec3 -> Vec3 := vmap2 s_add.
Definition vsub : Vec3 -> Vec3 -> Vec3 := vmap2 s_sub.
Definition vscale (a : Vec3) (s : T) : Vec3 := vmap (fun x => x * s) a.
Definition vabs : Vec3 -> Vec3 := vmap s_abs.
(** The fold expression associates to the right. *)
Definition norm2 (a : Vec3) : T := vx a * vx a + (vy a * vy a + vz a * vz a).

(** Element-wise minimum and maximum. *)
Definition vmin2 : Vec3 -> Vec3 -> Vec3 := vmap2 (fun a b => if a <? b then a else b).
Definition vmax2 : Vec3 -> Vec3 -> Vec3 := vmap2 (fun a b => if b <? a then a else b).

(** Reductions of [util::array]. *)
Definition vmin (a : Vec3) : T :=
  let ret := vx a in
  let ret := if ret <? vy a then ret else vy a in
  if ret <? vz a then ret else vz a.
Definition vmax (a : Vec3) : T :=
  let ret := vx a in
  let ret := if vy a <? ret then ret else vy a in
  if vz a <? ret then ret else vz a.

End Derived.
Arguments Vec3 T : clear implicits.

(** ** Double precision *)

Module Double.

Definition prec := 53%Z.
Definition emax := 1024%Z.

(** Rounding of a finite value to an integer with [round], on mantissa and exponent. *)
Definition toInteger (round : bool -> Z -> Z -> Z) (f : spec_float) : option Z :=
  match f with
  | S754_zero _ => Some 0
  | S754_finite s m e =>
      let m := if s then Z.neg m else Z.pos m in
      Some (if 0 <=? e then Z.shiftl m e else round s m (2 ^ (- e)))
  | _ => None
  end.

Definition floorZ (_ : bool) (m d : Z) : Z := m / d.
Definition ceilZ (_ : bool) (m d : Z) : Z := - (- m / d).
Definition truncZ (_ : bool) (m d : Z) : Z := Z.quot m d.

(** Nearest integer, ties to even. *)
Definition rintZ (_ : bool) (m d : Z) : Z :=
  let q := m / d in
  let r := m mod d in
  if 2 * r <? d then q else if d <? 2 * r then q + 1 else if Z.even q then q else q + 1.

Definition ofZ (x : Z) : spec_float := binary_normalize prec emax x 0 false.

Definition integral (round : bool -> Z -> Z -> Z) (f : spec_float) : spec_float :=
  match toInteger round f with Some v => ofZ v | None => f end.

#[export] Instance scalar : Scalar spec_float := {
  s_ofZ := ofZ;
  s_ratio p q := SFdiv prec emax (ofZ p) (ofZ q);
  s_add := SFadd prec emax;
  s_sub := SFsub prec emax;
  s_mul := SFmul prec emax;
  s_div := SFdiv prec emax;
  s_neg := SFopp;
  s_abs := SFabs;
  s_ltb := SFltb;
  s_leb := SFleb;
  s_rint := integral rintZ;
  s_floor := integral floorZ;
  s_ceil := integral ceilZ;
  s_trunc := toInteger truncZ
}.

End Double.

(** ** Exact arithmetic *)

Module Exact.

Definition ltb (x y : Q) : bool := negb (Qle_bool y x).

(** Nearest integer, ties to even. *)
Definition rint (x : Q) : Z :=
  let q := Qfloor x in
  let r := Qminus x (inject_Z q) in
  if ltb r (1 # 2) then q else if ltb (1 # 2) r then q + 1 else if Z.even q then q else q + 1.

#[export] Instance scalar : Scalar Q := {
  s_ofZ := inject_Z;
  s_ratio p q := Qdiv (inject_Z p) (inject_Z q);
  s_add := Qplus;
  s_sub := Qminus;
  s_mul := Qmult;
  s_div := Qdiv;
  s_neg := Qopp;
  s_abs := Qabs;
  s_ltb := ltb;
  s_leb := Qle_bool;
  s_rint x := inject_Z (rint x);
  s_floor x := inject_Z (Qfloor x);
  s_ceil x := inject_Z (Qceiling x);
  s_trunc x := Some (Z.quot (Qnum x) (Z.pos (Qden x)))
}.

End Exact.

#[export] Existing Instances Double.scalar Exact.scalar.

(** ** Order *)

(** What the comparisons of distances rely on: the comparison is a total order and the
    operations are monotone.  Exact rational numbers have these properties; IEEE doubles do
    not, because a NaN is neither less than nor at least another value. *)
Class MonotoneScalar (T : Type) `{!Scalar T} : Prop := {
  ms_asym : forall x y : T, s_ltb x y = true -> s_ltb y x = false;
  ms_trans : forall x y z : T, s_ltb y x = false -> s_ltb z y = false -> s_ltb z x = false;
  ms_ofZ : forall a b, a <= b -> s_ltb (s_ofZ b) (s_ofZ a) = false;
  ms_add : forall x x' y y' : T, s_ltb x' x = false -> s_ltb y' y = false -> s_ltb (s_add x' y') (s_add x y) = false;
  ms_square : forall x y : T, s_ltb x (s_ofZ 0) = false -> s_ltb y x = false -> s_ltb (s_mul y y) (s_mul x x) = false;
  ms_div : forall x y e : T, s_ltb (s_ofZ 0) e = true -> s_ltb y x = false -> s_ltb (s_div y e) (s_div x e) = false;
  ms_div_zero : forall e : T, s_ltb (s_ofZ 0) e = true -> s_ltb (s_div (s_ofZ 0) e) (s_ofZ 0) = false
}.

Lemma ltb_lt x y : Exact.ltb x y = true <-> (x < y)%Q.
Proof.
  unfold Exact.ltb. rewrite negb_true_iff. split; intros H.
  - apply Qnot_le_lt. intros Hle%Qle_bool_iff. congruence.
  - destruct (Qle_bool y x) eqn:E; [|done]. apply Qle_bool_iff in E. by apply Qlt_not_le in H.
Qed.

Lemma ltb_ge x y : Exact.ltb x y = false <-> (y <= x)%Q.
Proof. unfold Exact.ltb. rewrite negb_false_iff. apply Qle_bool_iff. Qed.

#[export] Instance Exact_monotone : MonotoneScalar Q.
Proof.
  split; cbn [s_ltb s_ofZ s_add s_mul s_div Exact.scalar]; intros *; rewrite ?ltb_lt, ?ltb_ge.
  - apply Qlt_le_weak.
  - apply Qle_trans.
  - by rewrite <- Zle_Qle.
  - apply Qplus_le_compat.
  - intros Hx Hxy. apply Qmult_le_compat_nonneg; (split; [|done]); [done|]. exact Hx.
  - intros He Hxy. unfold Qdiv. apply Qmult_le_compat_r; [done|]. apply Qlt_le_weak, Qinv_lt_0_compat. done.
  - intros He. unfold Qdiv. rewrite Qmult_0_l. apply Qle_refl.
Qed.
