(* ===== verification/FloatBox.v ===== *)
(** * Boxes and keys of coordinates

    The floating point part of [cstone/sfc/box.hpp], [cstone/sfc/sfc.hpp] and
    [cstone/sfc/common.hpp]: bounding boxes, periodic distances, conversions between integer
    and coordinate boxes, and the key of a point. *)

From S2P Require Import Prelude Primitives SfcCommon SfcBox Morton Hilbert Sfc Scalars BoxOverlap.

(** ** Definitions *)

Inductive BoundaryType := open | periodic | fixed | cubic_open.

#[export] Instance BoundaryType_eq_dec : EqDecision BoundaryType.
Proof. solve_decision. Defined.

Section FloatBox.
Context {T : Type} `{!Scalar T}.
#[local] Open Scope scalar_scope.

Definition normalize (d min max : T) : T := (d - min) / (max - min).

Record Box := mkBoxFields {
  bxmin : T; bxmax : T; bymin : T; bymax : T; bzmin : T; bzmax : T;
  lx : T; ly : T; lz : T;
  ilx : T; ily : T; ilz : T;
  boundaryX : BoundaryType; boundaryY : BoundaryType; boundaryZ : BoundaryType
}.

Definition Box_new (xmin xmax ymin ymax zmin zmax : T) (bx by_ bz : BoundaryType) : Box :=
  mkBoxFields xmin xmax ymin ymax zmin zmax (xmax - xmin) (ymax - ymin) (zmax - zmin)
    (s_ofZ 1 / (xmax - xmin)) (s_ofZ 1 / (ymax - ymin)) (s_ofZ 1 / (zmax - zmin)) bx by_ bz.

(** The constructor of a cube. *)
Definition Box_cube (xyzMin xyzMax : T) (b : BoundaryType) : Box :=
  mkBoxFields xyzMin xyzMax xyzMin xyzMax xyzMin xyzMax (xyzMax - xyzMin) (xyzMax - xyzMin) (xyzMax - xyzMin)
    (s_ofZ 1 / (xyzMax - xyzMin)) (s_ofZ 1 / (xyzMax - xyzMin)) (s_ofZ 1 / (xyzMax - xyzMin)) b b b.

Definition Box_minExtent (box : Box) : T := s_min (s_min (lx box) (ly box)) (lz box).
Definition Box_maxExtent (box : Box) : T := s_max (s_max (lx box) (ly box)) (lz box).

Definition isPeriodic (b : BoundaryType) : bool := bool_decide (b = periodic).

Definition applyPbc (dX : Vec3 T) (box : Box) : Vec3 T :=
  mkVec3 (vx dX - s_bool (isPeriodic (boundaryX box)) * lx box * s_rint (vx dX * ilx box))
         (vy dX - s_bool (isPeriodic (boundaryY box)) * ly box * s_rint (vy dX * ily box))
         (vz dX - s_bool (isPeriodic (boundaryZ box)) * lz box * s_rint (vz dX * ilz box)).

(** One coordinate of [putInBox]. *)
Definition putInRange (pbc : bool) (x xmin xmax l : T) : T :=
  if pbc && (xmax <? x) then x - l else if pbc && (x <? xmin) then x + l else x.

Definition putInBox (X : Vec3 T) (box : Box) : Vec3 T :=
  mkVec3 (putInRange (isPeriodic (boundaryX box)) (vx X) (bxmin box) (bxmax box) (lx box))
         (putInRange (isPeriodic (boundaryY box)) (vy X) (bymin box) (bymax box) (ly box))
         (putInRange (isPeriodic (boundaryZ box)) (vz X) (bzmin box) (bzmax box) (lz box)).

(** One coordinate of the legacy [applyPBC]. *)
Definition applyPBC1 (pbc : bool) (r x l : T) : T :=
  if pbc && (r <? x) then x - l else if pbc && (x <? s_neg r) then x + l else x.

Definition applyPBC (box : Box) (r xx yy zz : T) : T * T * T :=
  (applyPBC1 (isPeriodic (boundaryX box)) r xx (lx box),
   applyPBC1 (isPeriodic (boundaryY box)) r yy (ly box),
   applyPBC1 (isPeriodic (boundaryZ box)) r zz (lz box)).

(** ** Conversion of integer boxes *)

Definition centerAndSize (k : KeyType) (ibox : IBox) (box : Box) : Vec3 T * Vec3 T :=
  let maxCoord := u32 (Z.shiftl 1 (maxTreeLevel k)) in
  let uL := s_ofZ 1 / s_ofZ maxCoord in
  let halfUnitLengthX := s_ratio 1 2 * uL * lx box in
  let halfUnitLengthY := s_ratio 1 2 * uL * ly box in
  let halfUnitLengthZ := s_ratio 1 2 * uL * lz box in
  (mkVec3 (bxmin box + s_ofZ (xmax ibox + xmin ibox) * halfUnitLengthX)
          (bymin box + s_ofZ (ymax ibox + ymin ibox) * halfUnitLengthY)
          (bzmin box + s_ofZ (zmax ibox + zmin ibox) * halfUnitLengthZ),
   mkVec3 (s_ofZ (xmax ibox - xmin ibox) * halfUnitLengthX)
          (s_ofZ (ymax ibox - ymin ibox) * halfUnitLengthY)
          (s_ofZ (zmax ibox - zmin ibox) * halfUnitLengthZ)).

(** A coordinate box: its lower and upper corner. *)
Definition createFpBox (k : KeyType) (ibox : IBox) (box : Box) : Vec3 T * Vec3 T :=
  let '(center, size) := centerAndSize k ibox box in
  (vsub center size, vadd center size).

Definition createIBox (k : KeyType) (center size : Vec3 T) (box : Box) : option IBox :=
  let maxCoord := s_ofZ (u32 (Z.shiftl 1 (maxTreeLevel k))) in
  let Xmin := vsub center size in
  let Xmax := vadd center size in
  let xnMin := (vx Xmin - bxmin box) * ilx box in
  let ynMin := (vy Xmin - bymin box) * ily box in
  let znMin := (vz Xmin - bzmin box) * ilz box in
  let xnMax := (vx Xmax - bxmin box) * ilx box in
  let ynMax := (vy Xmax - bymin box) * ily box in
  let znMax := (vz Xmax - bzmin box) * ilz box in
  let? ixMin := s_toInt (s_floor (xnMin * maxCoord)) in
  let? iyMin := s_toInt (s_floor (ynMin * maxCoord)) in
  let? izMin := s_toInt (s_floor (znMin * maxCoord)) in
  let? ixMax := s_toInt (s_ceil (xnMax * maxCoord)) in
  let? iyMax := s_toInt (s_ceil (ynMax * maxCoord)) in
  let? izMax := s_toInt (s_ceil (znMax * maxCoord)) in
  Some (mkIBox ixMin ixMax iyMin iyMax izMin izMax).

(** The default of [shrinkLimit] is 0.05. *)
Definition limitBoxShrinking (fittingBox previousBox : Box) (shrinkLimit : T) : Box :=
  Box_new (s_min (bxmin fittingBox) (bxmin previousBox + shrinkLimit * lx previousBox))
          (s_max (bxmax fittingBox) (bxmax previousBox - shrinkLimit * lx previousBox))
          (s_min (bymin fittingBox) (bymin previousBox + shrinkLimit * ly previousBox))
          (s_max (bymax fittingBox) (bymax previousBox - shrinkLimit * ly previousBox))
          (s_min (bzmin fittingBox) (bzmin previousBox + shrinkLimit * lz previousBox))
          (s_max (bzmax fittingBox) (bzmax previousBox - shrinkLimit * lz previousBox))
          (boundaryX previousBox) (boundaryY previousBox) (boundaryZ previousBox).

(** ** Keys of coordinates *)

(** Conversion to [unsigned], undefined outside of its range. *)
Definition s_toUnsigned (x : T) : option Z :=
  let? v := s_trunc x in
  if ((0 <=? v) && (v <=? 0xFFFFFFFF))%Z then Some v else None.

Definition toNBitInt (k : KeyType) (x : T) : option Z :=
  let? result := s_toUnsigned (x * s_ofZ (2 ^ maxTreeLevel k)) in
  Some (stl_min result (2 ^ maxTreeLevel k - 1))%Z.

Definition toNBitIntCeil (k : KeyType) (x : T) : option Z :=
  let? result := s_toUnsigned (s_ceil (x * s_ofZ (2 ^ maxTreeLevel k))) in
  Some (stl_min result (2 ^ maxTreeLevel k - 1))%Z.

(** One coordinate of [sfc3D]. *)
Definition gridCoordinate (k : KeyType) (x xmin mx : T) : option Z :=
  let mcoord := (2 ^ maxTreeLevel k - 1)%Z in
  let? ix := s_toInt (s_floor (x * mx) - xmin * mx) in
  Some (stl_min ix mcoord).

Definition sfc3DScaled (s : SfcKind) (k : KeyType) (x y z xmin ymin zmin mx my mz : T) : option Z :=
  let? ix := gridCoordinate k x xmin mx in
  let? iy := gridCoordinate k y ymin my in
  let? iz := gridCoordinate k z zmin mz in
  Some (iSfcKey s k (u32 ix) (u32 iy) (u32 iz)).

Definition sfc3D (s : SfcKind) (k : KeyType) (x y z : T) (box : Box) : option Z :=
  let cubeLength := s_ofZ (2 ^ maxTreeLevel k) in
  sfc3DScaled s k x y z (bxmin box) (bymin box) (bzmin box) (cubeLength * ilx box) (cubeLength * ily box) (cubeLength * ilz box).

Definition computeSfcKeys (s : SfcKind) (k : KeyType) (x y z : list T) (particleKeys : list Z) (n : Z) (box : Box) : option (list Z) :=
  for_loop 0 n (fun i particleKeys =>
    let? key := particleKeys.[i] in
    if negb (key =? removeKey k)%Z then
      let? xi := x.[i] in
      let? yi := y.[i] in
      let? zi := z.[i] in
      let? key := sfc3D s k xi yi zi box in
      aset particleKeys i key
    else Some particleKeys) particleKeys.

(** ** Overlap of coordinate boxes *)

Definition containedInCoords (s : SfcKind) (k : KeyType) (codeStart codeEnd : Z) (center size : Vec3 T) (box : Box) : option bool :=
  let boxMin := vsub center size in
  let boxMax := vadd center size in
  let dFromMin := vmin (vsub boxMin (mkVec3 (bxmin box) (bymin box) (bzmin box))) in
  let dFromMax := vmax (vsub boxMax (mkVec3 (bxmax box) (bymax box) (bzmax box))) in
  if (dFromMin <? s_ofZ 0) || (s_ofZ 0 <? dFromMax) then Some ((codeStart =? 0) && (codeEnd =? nodeRange k 0))%Z
  else
    let gridDim := s_ofZ (2 ^ maxTreeLevel k) in
    let boxMax := vadd boxMax (vscale (mkVec3 (lx box) (ly box) (lz box)) (s_ofZ 1 / gridDim)) in
    let? lowCode := sfc3D s k (vx boxMin) (vy boxMin) (vz boxMin) box in
    let? highCode := sfc3D s k (vx boxMax) (vy boxMax) (vz boxMax) box in
    let '(envStart, envEnd) := smallestCommonBox k lowCode highCode in
    Some ((codeStart <=? envStart) && (envEnd <=? codeEnd))%Z.

(** [makeHaloBox] with a radius in coordinates, on a node box and on a key range. *)
Definition makeHaloBoxRadius (k : KeyType) (nodeBox : IBox) (radius : T) (box : Box) : option IBox :=
  let? dx := toNBitIntCeil k (radius * ilx box) in
  let? dy := toNBitIntCeil k (radius * ily box) in
  let? dz := toNBitIntCeil k (radius * ilz box) in
  Some (makeHaloBox k nodeBox dx dy dz (isPeriodic (boundaryX box)) (isPeriodic (boundaryY box)) (isPeriodic (boundaryZ box))).

Definition makeHaloBoxKeys (s : SfcKind) (k : KeyType) (codeStart codeEnd : Z) (radius : T) (box : Box) : option IBox :=
  makeHaloBoxRadius k (sfcIBoxKeys s k codeStart codeEnd) radius box.

Definition insideBox (center size : Vec3 T) (box : Box) : bool :=
  let boxMin := vsub center size in
  let boxMax := vadd center size in
  (bxmin box <=? vx boxMin) && (bymin box <=? vy boxMin) && (bzmin box <=? vz boxMin) &&
  (vx boxMax <=? bxmax box) && (vy boxMax <=? bymax box) && (vz boxMax <=? bzmax box).

(** The last two steps of every [minDistance]: negative components become 0. *)
Definition positivePart (dX : Vec3 T) : Vec3 T := vscale (vadd dX (vabs dX)) (s_ratio 1 2).

Definition minDistancePoint (X bCenter bSize : Vec3 T) : Vec3 T := positivePart (vsub (vabs (vsub bCenter X)) bSize).

Definition minDistancePointPbc (X bCenter bSize : Vec3 T) (box : Box) : Vec3 T :=
  positivePart (vsub (vabs (applyPbc (vsub bCenter X) box)) bSize).

Definition minDistanceBoxes (aCenter aSize bCenter bSize : Vec3 T) : Vec3 T :=
  positivePart (vsub (vsub (vabs (vsub bCenter aCenter)) aSize) bSize).

Definition minDistanceBoxesPbc (aCenter aSize bCenter bSize : Vec3 T) (box : Box) : Vec3 T :=
  positivePart (vsub (vsub (vabs (applyPbc (vsub bCenter aCenter) box)) aSize) bSize).

Definition overlapCoords (aCenter aSize bCenter bSize : Vec3 T) (box : Box) : bool :=
  let dX := vsub (vsub (vabs (applyPbc (vsub bCenter aCenter) box)) aSize) bSize in
  let eps := s_ofZ 0 in
  (vx dX <? eps) && (vy dX <? eps) && (vz dX <? eps).

Definition minDistanceSq (k : KeyType) (a b : IBox) (box : Box) : T :=
  let '(aCenter, aSize) := centerAndSize k a box in
  let '(bCenter, bSize) := centerAndSize k b box in
  norm2 (minDistanceBoxesPbc aCenter aSize bCenter bSize box).

End FloatBox.
Arguments Box T : clear implicits.
