(* ===== verification/GlobalBox.v ===== *)
(** * Global bounding box

    [cstone/sfc/box_mpi.hpp]: extrema of the coordinates of one rank, and the box from the extrema of all ranks.
    [INFINITY] is an argument, because the rationals have no such value. *)

From Stdlib Require Import QArith Lqa.
From S2P Require Import Prelude SfcCommon SfcBox Morton Hilbert Sfc Scalars FloatBox.
#[local] Open Scope Z_scope.

Section Extrema.
Context {T : Type} `{!Scalar T} (infinity : T).

Definition MinMax (values : list T) : T * T :=
  foldl (fun '(minimum, maximum) value => (s_min minimum value, s_max maximum value)) (infinity, s_neg infinity) values.

Record Extrema := mkExtrema { e_xmin : T; e_xmax : T; e_ymin : T; e_ymax : T; e_zmin : T; e_zmax : T }.

(** Dimensions whose limits never change. *)
Definition keepsLimits (b : BoundaryType) : bool := bool_decide (b = periodic) || bool_decide (b = fixed).

(** The extrema of one rank. *)
Definition localExtrema (points : list (Vec3 T)) (previousBox : Box T) : Extrema :=
  let dim (b : BoundaryType) (lo hi : T) (coordinate : Vec3 T -> T) :=
    if (0 <? zlen points) && negb (keepsLimits b) then MinMax (coordinate <$> points) else (lo, hi) in
  let '(x0, x1) := dim (boundaryX previousBox) (bxmin previousBox) (bxmax previousBox) vx in
  let '(y0, y1) := dim (boundaryY previousBox) (bymin previousBox) (bymax previousBox) vy in
  let '(z0, z1) := dim (boundaryZ previousBox) (bzmin previousBox) (bzmax previousBox) vz in
  mkExtrema x0 x1 y0 y1 z0 z1.

(** What a rank contributes to the minimum over all ranks, and what it reads from the result. *)
Definition negateMaxima (e : Extrema) : Extrema :=
  mkExtrema (e_xmin e) (s_neg (e_xmax e)) (e_ymin e) (s_neg (e_ymax e)) (e_zmin e) (s_neg (e_zmax e)).

(** [reduced] is the element-wise minimum over the contributions of all ranks ([MPI_Allreduce]). *)
Definition makeGlobalBox (points : list (Vec3 T)) (previousBox : Box T) (reduced : Extrema) : Box T :=
  let '(bx, by_, bz) := (boundaryX previousBox, boundaryY previousBox, boundaryZ previousBox) in
  let e := localExtrema points previousBox in
  let e := if negb (keepsLimits bx) || negb (keepsLimits by_) || negb (keepsLimits bz) then negateMaxima reduced else e in
  let max_side_length := s_max (s_max (s_sub (e_xmax e) (e_xmin e)) (s_sub (e_ymax e) (e_ymin e))) (s_sub (e_zmax e) (e_zmin e)) in
  let side (b : BoundaryType) (lo hi : T) := if bool_decide (b = cubic_open) then s_max hi (s_add lo max_side_length) else hi in
  Box_new (e_xmin e) (side bx (e_xmin e) (e_xmax e)) (e_ymin e) (side by_ (e_ymin e) (e_ymax e)) (e_zmin e) (side bz (e_zmin e) (e_zmax e)) bx by_ bz.

End Extrema.
Arguments Extrema T : clear implicits.

(** ** Boxes of exact coordinates *)

#[local] Open Scope Q_scope.

Lemma s_min_le (a b : Q) : s_min a b <= a /\ s_min a b <= b.
Proof. unfold s_min. cbn [s_ltb Exact.scalar]. destruct (Exact.ltb b a) eqn:E; [apply ltb_lt in E|apply ltb_ge in E]; split; lra. Qed.

Lemma s_max_ge (a b : Q) : a <= s_max a b /\ b <= s_max a b.
Proof. unfold s_max. cbn [s_ltb Exact.scalar]. destruct (Exact.ltb a b) eqn:E; [apply ltb_lt in E|apply ltb_ge in E]; split; lra. Qed.

Lemma MinMax_bounds infinity (values : list Q) : Forall (fun v => (MinMax infinity values).1 <= v <= (MinMax infinity values).2) values.
Proof.
  unfold MinMax. set (step := fun '(minimum, maximum) value => _).
  assert (Hmono : forall l (a b : Q), (foldl step (a, b) l).1 <= a /\ b <= (foldl step (a, b) l).2).
  { induction l as [|v l IH]; intros a b; cbn [foldl fst snd]; [split; lra|]. destruct (IH (s_min a v) (s_max b v)). destruct (s_min_le a v), (s_max_ge b v). change (step (a, b) v) with (s_min a v, s_max b v). split; lra. }
  generalize infinity, (s_neg infinity). induction values as [|v l IH]; intros a b; [by apply Forall_nil|]. cbn [foldl]. change (step (a, b) v) with (s_min a v, s_max b v). apply Forall_cons. split; [|apply IH].
  destruct (Hmono l (s_min a v) (s_max b v)). destruct (s_min_le a v), (s_max_ge b v). split; lra.
Qed.

(** [m] is the minimum of [values]. *)
Definition isMinimum (values : list Q) (m : Q) : Prop := m ∈ values /\ Forall (fun v => m <= v) values.

(** The result of the element-wise reduction with [MPI_MIN]. *)
Record isReduced (contributions : list (Extrema Q)) (r : Extrema Q) : Prop := {
  red_xmin : isMinimum (e_xmin <$> contributions) (e_xmin r);
  red_xmax : isMinimum (e_xmax <$> contributions) (e_xmax r);
  red_ymin : isMinimum (e_ymin <$> contributions) (e_ymin r);
  red_ymax : isMinimum (e_ymax <$> contributions) (e_ymax r);
  red_zmin : isMinimum (e_zmin <$> contributions) (e_zmin r);
  red_zmax : isMinimum (e_zmax <$> contributions) (e_zmax r)
}.

Lemma isMinimum_const {A} (f : A -> Q) (l : list A) m v : isMinimum (f <$> l) m -> (forall x, x ∈ l -> f x = v) -> m = v.
Proof. intros [(x & -> & Hx)%list_elem_of_fmap _] Hv. by apply Hv. Qed.

Lemma isMinimum_le {A} (f : A -> Q) (l : list A) m x : isMinimum (f <$> l) m -> x ∈ l -> m <= f x.
Proof. intros [_ H] Hx. rewrite Forall_forall in H. by apply H, list_elem_of_fmap_2. Qed.

Lemma Qopp_twice (a : Q) : Qopp (Qopp a) = a.
Proof. destruct a as [n d]. unfold Qopp. cbn. by rewrite Z.opp_involutive. Qed.

(** One dimension of the box: the limits [lo] and [hi] hold all coordinates, or are the previous ones. *)
Definition dimensionOk (b : BoundaryType) (lo0 hi0 lo hi : Q) (coordinates : list Q) : Prop :=
  if keepsLimits b then lo = lo0 /\ hi = hi0 else Forall (fun v => lo <= v <= hi) coordinates.

Section Ranks.
Context (infinity : Q) (ranks : list (list (Vec3 Q))) (previousBox : Box Q) (reduced : Extrema Q).
Local Abbreviation contribution points := (negateMaxima (localExtrema infinity points previousBox)).
Hypothesis Hred : isReduced ((fun points => contribution points) <$> ranks) reduced.

(** The limits of one dimension on one rank. *)
Definition localLimits (b : BoundaryType) (lo hi : Q) (coordinates : list Q) : Q * Q :=
  if (0 <? zlen coordinates)%Z && negb (keepsLimits b) then MinMax infinity coordinates else (lo, hi).

Lemma localExtrema_dims points : let L b lo hi f := localLimits b lo hi (f <$> points) in
  localExtrema infinity points previousBox =
    mkExtrema (L (boundaryX previousBox) (bxmin previousBox) (bxmax previousBox) vx).1 (L (boundaryX previousBox) (bxmin previousBox) (bxmax previousBox) vx).2
      (L (boundaryY previousBox) (bymin previousBox) (bymax previousBox) vy).1 (L (boundaryY previousBox) (bymin previousBox) (bymax previousBox) vy).2
      (L (boundaryZ previousBox) (bzmin previousBox) (bzmax previousBox) vz).1 (L (boundaryZ previousBox) (bzmin previousBox) (bzmax previousBox) vz).2.
Proof using.
  unfold localExtrema, localLimits. rewrite !zlen_map. destruct (0 <? zlen points)%Z; cbn [andb]; [|done].
  destruct (keepsLimits (boundaryX previousBox)), (keepsLimits (boundaryY previousBox)), (keepsLimits (boundaryZ previousBox)); cbn [negb]; repeat (destruct (MinMax infinity _) as [? ?]); done.
Qed.

(** A dimension after the reduction. *)
Lemma reduced_dimension b lo0 hi0 lo hi (f : Vec3 Q -> Q) : isMinimum ((fun points => (localLimits b lo0 hi0 (f <$> points)).1) <$> ranks) lo ->
  isMinimum ((fun points => Qopp (localLimits b lo0 hi0 (f <$> points)).2) <$> ranks) hi -> ranks <> [] ->
  Forall (fun points => dimensionOk b lo0 hi0 lo (Qopp hi) (f <$> points)) ranks.
Proof using.
  intros Hlo Hhi Hne. apply Forall_forall. intros points Hp. unfold dimensionOk. destruct (keepsLimits b) eqn:Eb.
  - assert (Hc : forall pts, localLimits b lo0 hi0 (f <$> pts) = (lo0, hi0)) by (intros pts; unfold localLimits; by rewrite Eb, andb_false_r).
    rewrite (isMinimum_const _ _ _ lo0 Hlo) by (intros x _; by rewrite Hc). rewrite (isMinimum_const _ _ _ (Qopp hi0) Hhi) by (intros x _; by rewrite Hc). by rewrite Qopp_twice.
  - pose proof (isMinimum_le _ _ _ points Hlo Hp) as H1. pose proof (isMinimum_le _ _ _ points Hhi Hp) as H2. cbn beta in H1, H2. unfold localLimits in H1, H2. rewrite Eb in H1, H2. cbn [negb] in H1, H2.
    rewrite andb_true_r in H1, H2. destruct (Z.ltb_spec 0 (zlen (f <$> points))) as [_|Hz]; [|destruct points; [by apply Forall_nil|rewrite fmap_cons, zlen_cons in Hz; pose proof (zlen_nonneg (f <$> points)); lia]].
    eapply Forall_impl; [apply (MinMax_bounds infinity)|]. cbn beta. intros v [H3 H4]. split; lra.
Qed.

Lemma extendedSide b lo0 hi0 lo hi m coordinates : dimensionOk b lo0 hi0 lo hi coordinates -> dimensionOk b lo0 hi0 lo (if bool_decide (b = cubic_open) then s_max hi (s_add lo m) else hi) coordinates.
Proof using.
  unfold dimensionOk. case_bool_decide as Hb; [|done]. subst b. change (keepsLimits cubic_open) with false. cbn iota. intros H. eapply Forall_impl; [exact H|]. cbn beta. intros v [H1 H2]. pose proof (s_max_ge hi (s_add lo m)) as [H3 _]. split; lra.
Qed.

(** The box that all ranks compute. *)
Definition commonBox : Box Q :=
  let side (b : BoundaryType) (lo hi : Q) := if bool_decide (b = cubic_open) then s_max hi (s_add lo (s_max (s_max (s_sub (Qopp (e_xmax reduced)) (e_xmin reduced)) (s_sub (Qopp (e_ymax reduced)) (e_ymin reduced))) (s_sub (Qopp (e_zmax reduced)) (e_zmin reduced)))) else hi in
  Box_new (e_xmin reduced) (side (boundaryX previousBox) (e_xmin reduced) (Qopp (e_xmax reduced))) (e_ymin reduced) (side (boundaryY previousBox) (e_ymin reduced) (Qopp (e_ymax reduced)))
    (e_zmin reduced) (side (boundaryZ previousBox) (e_zmin reduced) (Qopp (e_zmax reduced))) (boundaryX previousBox) (boundaryY previousBox) (boundaryZ previousBox).

Lemma reduced_dims : ranks <> [] -> Forall (fun points =>
  dimensionOk (boundaryX previousBox) (bxmin previousBox) (bxmax previousBox) (e_xmin reduced) (Qopp (e_xmax reduced)) (vx <$> points) /\
  dimensionOk (boundaryY previousBox) (bymin previousBox) (bymax previousBox) (e_ymin reduced) (Qopp (e_ymax reduced)) (vy <$> points) /\
  dimensionOk (boundaryZ previousBox) (bzmin previousBox) (bzmax previousBox) (e_zmin reduced) (Qopp (e_zmax reduced)) (vz <$> points)) ranks.
Proof using Hred.
  intros Hne. destruct Hred as [R1 R2 R3 R4 R5 R6]. rewrite <- list_fmap_compose in R1, R2, R3, R4, R5, R6.
  assert (Hx := reduced_dimension (boundaryX previousBox) (bxmin previousBox) (bxmax previousBox) (e_xmin reduced) (e_xmax reduced) vx).
  assert (Hy := reduced_dimension (boundaryY previousBox) (bymin previousBox) (bymax previousBox) (e_ymin reduced) (e_ymax reduced) vy).
  assert (Hz := reduced_dimension (boundaryZ previousBox) (bzmin previousBox) (bzmax previousBox) (e_zmin reduced) (e_zmax reduced) vz).
  assert (Hext : forall (g h : list (Vec3 Q) -> Q) m, (forall pts, g pts = h pts) -> isMinimum (g <$> ranks) m -> isMinimum (h <$> ranks) m) by (intros g h m E; rewrite (list_fmap_ext g h ranks); [done|intros i pts _; apply E]).
  rewrite Forall_forall in *. intros points Hp. split; [apply Hx|split; [apply Hy|apply Hz]]; try done;
    (eapply Hext; [|first [exact R1|exact R2|exact R3|exact R4|exact R5|exact R6]]); intros pts; cbn; by rewrite localExtrema_dims.
Qed.

Lemma makeGlobalBox_common points : points ∈ ranks -> makeGlobalBox infinity points previousBox reduced = commonBox.
Proof using Hred.
  intros Hp. assert (Hne : ranks <> []) by (intros ->; by apply not_elem_of_nil in Hp). pose proof (reduced_dims Hne) as Hd. rewrite Forall_forall in Hd. destruct (Hd points Hp) as (Hx & Hy & Hz).
  unfold makeGlobalBox, commonBox. destruct (negb (keepsLimits _) || _ || _) eqn:E; [done|]. rewrite !orb_false_iff, !negb_false_iff in E. destruct E as [[E1 E2] E3]. unfold dimensionOk in Hx, Hy, Hz. rewrite E1 in Hx. rewrite E2 in Hy. rewrite E3 in Hz.
  destruct Hx as [-> ->], Hy as [-> ->], Hz as [-> ->]. rewrite localExtrema_dims. unfold localLimits. by rewrite E1, E2, E3, !andb_false_r.
Qed.

End Ranks.
