(* ===== verification/Traversal.v ===== *)
(** * Tree traversal

    [cstone/traversal/traversal.hpp]: the stackless traversal of a linked octree with one
    criterion and the stack-based traversal of pairs of nodes.  The callables are arbitrary
    functions on a state [S], so that the results hold for every use of the templates. *)

From S2P Require Import Prelude Primitives SfcCommon Csarray CsInvariant CsRebalance CsCounts Octree OctreeNodes OctreeBuild OctreeQueries.

(** ** Definitions *)

Section Single.
Context {S : Type} (continuationCriterion : Z -> S -> option (bool * S)) (endpointAction : Z -> S -> option S).

(** The loop of [singleTraversal]; [initNode] is 0. *)
Fixpoint singleTraversalLoop (fuel : nat) (childOffsets parents : list Z) (node : Z) (backtrack : bool) (s : S) : option S :=
  match fuel with
  | O => None
  | Datatypes.S fuel =>
      if node =? 0 then Some s
      else
        let? c := childOffsets.[node] in
        let isLeaf := c =? 0 in
        let? (descend, s) := if backtrack then Some (false, s) else continuationCriterion node s in
        let? s := if isLeaf && descend then endpointAction node s else Some s in
        let siblingIdx := Z.rem (node - 1) 8 in
        if negb isLeaf && descend then singleTraversalLoop fuel childOffsets parents c false s
        else if siblingIdx <? 7 then singleTraversalLoop fuel childOffsets parents (node + 1) false s
        else
          let? p := parents.[Z.quot (node - 1) 8] in
          singleTraversalLoop fuel childOffsets parents p true s
  end.

(** Every node is entered at most once and every internal node is left at most once. *)
Definition singleTraversal (childOffsets parents : list Z) (s : S) : option S :=
  let initNode := 0 in
  let? (go, s) := continuationCriterion initNode s in
  if negb go then Some s
  else
    let? c := childOffsets.[initNode] in
    if c =? 0 then endpointAction initNode s
    else singleTraversalLoop (2 * length childOffsets) childOffsets parents c false s.

End Single.

Section Dual.
Context {S : Type} (continuation : Z -> Z -> option bool) (m2l p2p : Z -> Z -> S -> option S) (childOffsets : list Z).

Definition stackSize : Z := 128.

Definition isLeafNode (idx : Z) : option bool := let? c := childOffsets.[idx] in Some (c =? 0).

(** The lambda [interact]; the stack is a list with its top first, a push beyond the fixed
    size of the array is out of bounds. *)
Definition interact (a b : Z) (st : list (Z * Z) * S) : option (list (Z * Z) * S) :=
  let '(stack, s) := st in
  let? go := continuation a b in
  if go : bool then
    let? la := isLeafNode a in
    let? lb := isLeafNode b in
    if la && lb then let? s := p2p a b s in Some (stack, s)
    else if zlen stack <? stackSize then Some ((a, b) :: stack, s) else None
  else let? s := m2l a b s in Some (stack, s).

Definition dualStep (target source : Z) (st : list (Z * Z) * S) : option (list (Z * Z) * S) :=
  let? lt := isLeafNode target in
  let? ls := isLeafNode source in
  if ((target <? source) && negb lt) || ls then
    let nChildren := if lt : bool then 0 else 8 in
    for_loop 0 nChildren (fun octant st => let? c := childOffsets.[target] in interact (c + octant) source st) st
  else
    let nChildren := if ls : bool then 0 else 8 in
    for_loop 0 nChildren (fun octant st => let? c := childOffsets.[source] in interact target (c + octant) st) st.

Fixpoint dualLoop (fuel : nat) (stack : list (Z * Z)) (s : S) : option S :=
  match fuel with
  | O => None
  | Datatypes.S fuel =>
      match stack with
      | [] => Some s
      | (target, source) :: stack =>
          let? (stack, s) := dualStep target source (stack, s) in
          dualLoop fuel stack s
      end
  end.

Definition dualTraversal (fuel : nat) (a b : Z) (s : S) : option S :=
  let? la := isLeafNode a in
  let? lb := isLeafNode b in
  if la && lb then (let? go := continuation a b in if go : bool then p2p a b s else Some s)
  else dualLoop fuel [(a, b)] s.

End Dual.

(** ** The recursive traversal *)

Section Visit.
Context {S : Type} (C : Z -> S -> option (bool * S)) (A : Z -> S -> option S) (idx : Z -> Z).

(** Preorder traversal of the subtree [t] at node key [p]; [idx] gives the node indices. *)
Fixpoint visit (p : Z) (t : otree) (s : S) : option S :=
  let? (go, s) := C (idx p) s in
  if go : bool then
    match t with
    | OLeaf => A (idx p) s
    | ONode f => foldM (fun c s => visit (8 * p + c) (f c) s) octants s
    end
  else Some s.

End Visit.

(** The traversal returns if the callables do. *)
Lemma visit_total {S} (C : Z -> S -> option (bool * S)) A idx : (forall i s, is_Some (C i s)) -> (forall i s, is_Some (A i s)) ->
  forall t p s, is_Some (visit C A idx p t s).
Proof.
  intros HC HA t. induction t as [|f IH]; intros p s; cbn [visit]; destruct (HC (idx p) s) as [[[] s1] ->]; [apply HA|by eexists| |by eexists].
  revert s1. generalize octants as l. intros l. induction l as [|c l IHl]; intros s1; [by exists s1|]. cbn [foldM]. destruct (IH c (8 * p + c) s1) as [s2 ->]. apply IHl.
Qed.

(** Iterations that a subtree can take. *)
Fixpoint visitCost (t : otree) : nat :=
  match t with
  | OLeaf => 1
  | ONode f => 2 + sum_list_with (fun c => visitCost (f c)) octants
  end.

Lemma visitCost_nodes p t : Z.of_nat (visitCost t) = zlen (leafKeys p t) + 2 * zlen (innerKeys p t).
Proof.
  revert p. induction t as [|f IH]; intros p; [done|]. rewrite zlen_innerKeys, leafKeys_blocks. cbn [visitCost].
  assert (Hgen : forall n : nat, Z.of_nat (sum_list_with (fun c => visitCost (f c)) (seqZ 0 (Z.of_nat n))) =
    zlen (blocks (fun c => leafKeys (8 * p + c) (f c)) (Z.of_nat n)) + 2 * zlen (blocks (fun c => innerKeys (8 * p + c) (f c)) (Z.of_nat n))).
  { induction n as [|n IHn]; [done|]. replace (Z.of_nat (S n)) with (Z.of_nat n + 1) by lia.
    rewrite seqZ_app, sum_list_with_app, !blocks_succ, !zlen_app, Nat2Z.inj_add, IHn, Z.add_0_l by lia.
    change (seqZ (Z.of_nat n) 1) with [Z.of_nat n]. cbn [sum_list_with]. pose proof (IH (Z.of_nat n) (8 * p + Z.of_nat n)). lia. }
  specialize (Hgen 8%nat). change (Z.of_nat 8) with 8 in Hgen. unfold octants. lia.
Qed.

Section SingleCorrect.
Context {S : Type} (C : Z -> S -> option (bool * S)) (A : Z -> S -> option S).
Context (k : KeyType) (t : otree) (o : OctreeArrays).
Hypothesis Hdepth : depthLe (maxTreeLevel k) t.
Hypothesis Ho : linked k t o.

Local Abbreviation loop := (singleTraversalLoop C A).
Local Abbreviation ch := (childOffsets o).
Local Abbreviation par := (parents o).

(** The first child of a node is the first of an aligned group of eight. *)
Lemma child_aligned i p c d : (prefixes o).[i] = Some p -> p ∈ innerKeys 1 t -> (childOffsets o).[i] = Some c -> 0 <= d < 8 ->
  Z.rem (c + d - 1) 8 = d /\ Z.quot (c + d - 1) 8 = (c + d - 1) / 8.
Proof using Hdepth Ho.
  intros Hi Hp Hc Hd. destruct (lk_inner _ _ _ Ho i p Hi Hp) as (c' & Ec & Hlt & Hch). rewrite Hc in Ec. injection Ec as <-.
  destruct (Hch 0 ltac:(lia)) as [H0 _]. rewrite Z.add_0_r in H0. apply (pos_node k t o Ho) in H0.
  unfold pos in H0. rewrite Z.add_0_r in H0. rewrite (count_lt_perm _ _ _ (lk_nodes _ _ _ Ho)), (child_position t p Hp) in H0.
  pose proof (count_lt_range p (innerKeys 1 t)). rewrite Z.quot_div_nonneg, Z.rem_mod_nonneg by lia.
  split; [|done]. replace (c + d - 1) with (d + count_lt p (innerKeys 1 t) * 8) by lia. rewrite Z.mod_add by lia. apply Z.mod_small. lia.
Qed.

(** The step after a subtree is finished. *)
Definition leaveNode (fuel : nat) (node : Z) (s : S) : option S :=
  if Z.rem (node - 1) 8 <? 7 then loop fuel ch par (node + 1) false s
  else let? p := par.[Z.quot (node - 1) 8] in loop fuel ch par p true s.

(** The loop at the first child of [p] runs through all children and comes back to [p]. *)
Lemma children_visit i p c f n R :
  (prefixes o).[i] = Some p -> p ∈ innerKeys 1 t -> (childOffsets o).[i] = Some c ->
  (forall lo m Q, 0 <= lo < 8 -> (forall fuel s, (m <= fuel)%nat -> leaveNode fuel (c + lo) s = Q s) ->
    forall fuel s, (m + visitCost (f lo) <= fuel)%nat ->
    loop fuel ch par (c + lo) false s = let? s := visit C A (pos o) (8 * p + lo) (f lo) s in Q s) ->
  (forall fuel s, (n <= fuel)%nat -> loop fuel ch par i true s = R s) ->
  forall fuel s, (n + sum_list_with (fun c => visitCost (f c)) octants <= fuel)%nat ->
  loop fuel ch par c false s = let? s := foldM (fun c s => visit C A (pos o) (8 * p + c) (f c) s) octants s in R s.
Proof using Hdepth Ho.
  intros Hi Hp Ec Hchild HR.
  enough (Hrun : forall (w : nat) lo s, Z.of_nat w = 8 - lo -> 0 <= lo -> forall fuel,
      (n + sum_list_with (fun c => visitCost (f c)) (seqZ lo (Z.of_nat w)) <= fuel)%nat ->
      (if lo =? 8 then loop fuel ch par i true s else loop fuel ch par (c + lo) false s) =
      let? s := foldM (fun c s => visit C A (pos o) (8 * p + c) (f c) s) (seqZ lo (Z.of_nat w)) s in R s).
  { intros fuel s. specialize (Hrun 8%nat 0 s ltac:(done) ltac:(lia) fuel). cbn [Z.eqb] in Hrun. by rewrite Z.add_0_r in Hrun. }
  induction w as [|w IHw]; intros lo s Hw Hlo fuel Hf.
  - assert (lo = 8) as -> by lia. cbn. apply HR. cbn in Hf. lia.
  - destruct (Z.eqb_spec lo 8); [lia|]. rewrite seqZ_cons in * by lia. rewrite Nat2Z.inj_succ, Z.pred_succ in *. cbn [foldM]. cbn [sum_list_with] in Hf.
    rewrite (Hchild lo (n + sum_list_with (fun c => visitCost (f c)) (seqZ (Z.succ lo) (Z.of_nat w)))%nat
      (fun s => let? s := foldM (fun c s => visit C A (pos o) (8 * p + c) (f c) s) (seqZ (Z.succ lo) (Z.of_nat w)) s in R s)).
    + destruct (visit C A (pos o) (8 * p + lo) (f lo) s) as [s3|]; done.
    + lia.
    + intros fuel2 s3 Hf2. destruct (child_aligned i p c lo Hi Hp Ec ltac:(lia)) as [Hrem Hquot]. unfold leaveNode. rewrite Hrem, Hquot.
      destruct (lk_inner _ _ _ Ho i p Hi Hp) as (c' & Ec' & _ & Hch). rewrite Ec in Ec'. injection Ec' as <-. destruct (Hch lo ltac:(lia)) as [_ ->].
      rewrite <- (IHw (Z.succ lo) s3 ltac:(lia) ltac:(lia) fuel2 Hf2). rewrite <- Z.add_assoc.
      destruct (Z.ltb_spec lo 7), (Z.eqb_spec (Z.succ lo) 8); done || lia.
    + lia.
Qed.

(** The keys of a subtree are nodes of the tree. *)
Definition subtreeOf (p : Z) (u : otree) : Prop :=
  Forall (fun q => q ∈ leafKeys 1 t) (leafKeys p u) /\ Forall (fun q => q ∈ innerKeys 1 t) (innerKeys p u).

Lemma subtreeOf_child p f c : subtreeOf p (ONode f) -> 0 <= c < 8 -> subtreeOf (8 * p + c) (f c).
Proof using.
  intros [Hl Hn] Hc. rewrite Forall_forall in Hl, Hn. split; apply Forall_forall; intros q Hq; [apply Hl, leafKeys_elem|apply Hn, innerKeys_elem; right]; by exists c.
Qed.

Lemma subtreeOf_node p f : subtreeOf p (ONode f) -> p ∈ innerKeys 1 t.
Proof using. intros [_ Hn]. rewrite Forall_forall in Hn. apply Hn, innerKeys_elem. by left. Qed.

Lemma loop_visit p u : forall i n R,
  (prefixes o).[i] = Some p -> i <> 0 -> subtreeOf p u ->
  (forall fuel s, (n <= fuel)%nat -> leaveNode fuel i s = R s) ->
  forall fuel s, (n + visitCost u <= fuel)%nat -> loop fuel ch par i false s = let? s := visit C A (pos o) p u s in R s.
Proof using Hdepth Ho.
  revert p. induction u as [|f IH]; intros p i n R Hi Hi0 Hsub HR fuel s Hf; (destruct fuel as [|fuel]; [simpl in Hf; lia|]);
    cbn [singleTraversalLoop visit]; (destruct (Z.eqb_spec i 0); [done|]); rewrite <- (pos_node k t o Ho i p Hi).
  - destruct Hsub as [Hl _]. apply Forall_cons in Hl as [Hl _]. rewrite (lk_leaf _ _ _ Ho i p Hi Hl).
    cbn [Z.eqb negb andb]. destruct (C i s) as [[[] s1]|]; [|apply HR; simpl in Hf; lia|done].
    destruct (A i s1) as [s2|]; [|done]. apply HR. simpl in Hf. lia.
  - pose proof (subtreeOf_node p f Hsub) as Hp. destruct (lk_inner _ _ _ Ho i p Hi Hp) as (c & Ec & Hc & Hch). rewrite Ec.
    pose proof (aget_Some_range _ _ _ Hi). destruct (Z.eqb_spec c 0); [lia|]. cbn [negb andb visitCost] in *.
    destruct (C i s) as [[[] s1]|]; [|apply HR; lia|done].
    apply (children_visit i p c f (Datatypes.S n) R Hi Hp Ec); [| |lia].
    + intros lo m Q Hlo HQ. apply (IH lo (8 * p + lo) (c + lo)); [by apply Hch|lia|by apply subtreeOf_child|done].
    + intros fuel' s' Hf'. destruct fuel' as [|fuel']; [lia|]. cbn [singleTraversalLoop]. destruct (Z.eqb_spec i 0); [done|]. rewrite Ec.
      destruct (Z.eqb_spec c 0); [lia|]. cbn [negb andb]. apply HR. lia.
Qed.

(** The loop visits the same nodes in the same order as the recursive traversal. *)
Lemma singleTraversal_visit s : singleTraversal C A (childOffsets o) (parents o) s = visit C A (pos o) 1 t s.
Proof using Hdepth Ho.
  unfold singleTraversal. pose proof (prefixes_root k t o Hdepth Ho) as H0. pose proof (pos_root k t o Hdepth Ho) as E0.
  assert (Hall : subtreeOf 1 t) by (split; by apply Forall_forall). pose proof (lk_childLen _ _ _ Ho) as Hlen.
  pose proof (visitCost_nodes 1 t) as Hcost. assert (exists u, u = t) as (u & Eu) by by exists t. rewrite <- Eu at 1.
  rewrite <- Eu in Hcost, Hlen. replace (subtreeOf 1 t) with (subtreeOf 1 u) in Hall by by rewrite Eu. clear Eu. destruct u as [|f].
  - cbn [visit]. rewrite E0. destruct (C 0 s) as [[[] s1]|]; [|done|done]. destruct Hall as [Hl _]. apply Forall_cons in Hl as [Hl _].
    by rewrite (lk_leaf _ _ _ Ho 0 1 H0 Hl).
  - cbn [visit]. rewrite E0. destruct (C 0 s) as [[[] s1]|]; [|done|done]. pose proof (subtreeOf_node 1 f Hall) as Hp.
    destruct (lk_inner _ _ _ Ho 0 1 H0 Hp) as (c & Ec & Hc & Hch). rewrite Ec. cbn [negb]. destruct (Z.eqb_spec c 0); [lia|].
    rewrite (children_visit 0 1 c f 1 Some H0 Hp Ec).
    + by destruct (foldM _ octants s1).
    + intros lo m Q Hlo HQ. apply (loop_visit (8 * 1 + lo) (f lo) (c + lo)); [by apply Hch|lia|by apply subtreeOf_child|done].
    + intros [|fuel] s' Hf; [lia|done].
    + cbn [visitCost] in Hcost. unfold zlen in *. lia.
Qed.

End SingleCorrect.

(** ** Traversal with a pure criterion *)

Section Trace.
Context (crit : Z -> bool).

(** Nodes in the order of the traversal, leaves a second time for the endpoint action. *)
Fixpoint trace (p : Z) (t : otree) : list (Z * bool) :=
  if crit p then
    (p, false) ::
      match t with
      | OLeaf => [(p, true)]
      | ONode f => concat ((fun c => trace (8 * p + c) (f c)) <$> octants)
      end
  else [].

(** A node is reached exactly if the criterion holds for it and all of its ancestors. *)
Lemma trace_elem p t q last : 1 <= p ->
  (q, last) ∈ trace p t <-> q ∈ (if last : bool then leafKeys p t else allKeys p t) /\
    forall r, r ∈ allKeys p t -> below r q -> crit r = true.
Proof using.
  revert p. induction t as [|f IH]; intros p Hp; cbn [trace].
  - assert (Hall : forall r, r ∈ allKeys p OLeaf <-> r = p) by (intros r; apply list_elem_of_singleton).
    assert (Hself : q ∈ (if last then leafKeys p OLeaf else allKeys p OLeaf) <-> q = p) by (destruct last; apply list_elem_of_singleton).
    rewrite Hself. destruct (crit p) eqn:Hc; [|split; [by intros ?%not_elem_of_nil|]].
    + rewrite !elem_of_cons. split.
      * intros H. assert (q = p) as -> by (destruct H as [[= -> _]|[[= -> _]|H%not_elem_of_nil]]; done).
        split; [done|]. by intros r ->%Hall.
      * intros [-> _]. destruct last; auto.
    + intros [-> H]. rewrite (H p) in Hc; [done|by apply Hall|apply below_refl].
  - destruct (crit p) eqn:Hc.
    2: { split; [by intros ?%not_elem_of_nil|]. intros [Hq H]. rewrite (H p) in Hc; [done|apply allKeys_root|]. apply (allKeys_below p (ONode f)).
         destruct last; [|done]. apply elem_of_app. by right. }
    assert (Hkeys : q ∈ (if last then leafKeys p (ONode f) else allKeys p (ONode f)) <->
      (last = false /\ q = p) \/ exists c, 0 <= c < 8 /\ q ∈ (if last then leafKeys (8 * p + c) (f c) else allKeys (8 * p + c) (f c))).
    { destruct last.
      - rewrite leafKeys_elem. split; [intros H; by right|by intros [[? _]|?]].
      - rewrite allKeys_elem. split; [intros [->|H]; [by left|by right]|intros [[_ ->]|H]; [by left|by right]]. }
    rewrite Hkeys, elem_of_cons. change (concat _) with (blocks (fun c => trace (8 * p + c) (f c)) 8). rewrite elem_of_blocks.
    assert (Hsub : forall c, 0 <= c < 8 -> q ∈ (if last then leafKeys (8 * p + c) (f c) else allKeys (8 * p + c) (f c)) -> q ∈ allKeys (8 * p + c) (f c)).
    { intros c _. destruct last; [|done]. intros H. apply elem_of_app. by right. }
    assert (Hanc : forall c, 0 <= c < 8 -> q ∈ allKeys (8 * p + c) (f c) ->
      (forall r, r ∈ allKeys p (ONode f) -> below r q -> crit r = true) <-> (forall r, r ∈ allKeys (8 * p + c) (f c) -> below r q -> crit r = true)).
    { intros c Hc8 Hq. split; intros H r Hr Hb; [apply H; [apply allKeys_elem; right; by exists c|done]|].
      apply allKeys_elem in Hr as [->|(c' & Hc' & Hr)]; [done|]. apply H; [|done]. pose proof (allKeys_below _ _ _ Hr) as Hbr.
      rewrite (below_disjoint p c c' q Hp Hc8 Hc'); [done|by eapply allKeys_below|by eapply below_trans]. }
    split.
    + intros [[= -> ->]|(c & Hc8 & Hq)].
      * split; [by left|]. intros r [->|(c & Hc8 & Hr)]%allKeys_elem (j & Hj & Hb); [done|].
        pose proof (below_gt p c r Hp Hc8 (allKeys_below _ _ _ Hr)). pose proof (pow8_pos j Hj). nia.
      * apply (IH c (8 * p + c) ltac:(lia)) in Hq as [Hq H]. split; [right; by exists c|]. by apply (Hanc c Hc8 (Hsub c Hc8 Hq)).
    + intros [[[-> ->]|(c & Hc8 & Hq)] H]; [by left|right]. exists c. split; [done|]. apply (IH c (8 * p + c) ltac:(lia)).
      split; [done|]. by apply (Hanc c Hc8 (Hsub c Hc8 Hq)).
Qed.

Context {S : Type} (idx : Z -> Z) (C : Z -> option bool) (M A : Z -> S -> option S).

Definition traceStep (e : Z * bool) (s : S) : option S := let '(q, last) := e in if last : bool then A (idx q) s else M (idx q) s.

(** A criterion that updates the state at the nodes it accepts. *)
Definition updating (i : Z) (s : S) : option (bool * S) :=
  let? go := C i in
  if go : bool then let? s := M i s in Some (true, s) else Some (false, s).

Lemma visit_trace p t s :
  (forall q, q ∈ allKeys p t -> C (idx q) = Some (crit q)) -> visit updating A idx p t s = foldM traceStep (trace p t) s.
Proof using.
  revert p s. induction t as [|f IH]; intros p s HC; cbn [visit trace]; unfold updating at 1; rewrite (HC p (allKeys_root p _));
    (destruct (crit p); [|done]); cbn [foldM traceStep]; (destruct (M (idx p) s) as [s1|]; [|done]).
  - by destruct (A (idx p) s1).
  - assert (Hgen : forall l s, Forall (fun c => 0 <= c < 8) l ->
      foldM (fun c s => visit updating A idx (8 * p + c) (f c) s) l s = foldM traceStep (concat ((fun c => trace (8 * p + c) (f c)) <$> l)) s).
    { intros l. induction l as [|c l IHl]; intros s2 Hl; [done|]. apply Forall_cons in Hl as [Hc Hl]. cbn [foldM fmap list_fmap concat].
      rewrite foldM_app, IH; [|intros q Hq; apply HC, allKeys_elem; right; by exists c]. destruct (foldM traceStep _ s2); [by apply IHl|done]. }
    apply Hgen, Forall_forall. intros c Hc%elem_of_seqZ. lia.
Qed.

End Trace.
