(* ===== verification/DualTraversal.v ===== *)
(** * Dual traversal

    The stack-based traversal of [cstone/traversal/traversal.hpp] performs the events of a
    recursive traversal of node pairs.  Every pair of leaves is covered by exactly one event
    and the stack of 128 pairs suffices if the heights of both trees add up to at most 18. *)

From Stdlib Require Import Wf_nat.
From S2P Require Import Prelude Primitives SfcCommon Csarray CsInvariant CsRebalance CsCounts Octree OctreeNodes OctreeBuild OctreeQueries Traversal.

(** ** The recursive traversal of node pairs *)

(** Two subtrees with their node keys. *)
Record npair := mkPair { tgt : Z; tgtT : otree; src : Z; srcT : otree }.

(** An event: the two node keys and whether it is a [p2p] (leaf pair) or an [m2l]. *)
Definition event : Type := Z * Z * bool.

Definition isOLeaf (u : otree) : bool := match u with OLeaf => true | ONode _ => false end.

Fixpoint height (u : otree) : nat :=
  match u with
  | OLeaf => 0
  | ONode f => 1 + foldr Nat.max 0%nat ((fun c => height (f c)) <$> octants)
  end.

Lemma height_child f c : 0 <= c < 8 -> (height (f c) < height (ONode f))%nat.
Proof.
  intros Hc. cbn [height]. assert (Hin : c ∈ octants) by (apply elem_of_seqZ; lia). revert Hin. generalize octants as l.
  induction l as [|d l IH]; [by intros ?%not_elem_of_nil|]. intros [->|H]%elem_of_cons; cbn [fmap list_fmap foldr]; [lia|]. specialize (IH H). lia.
Qed.

Lemma height_depth m u : depthLe m u -> Z.of_nat (height u) <= m.
Proof.
  revert m. induction u as [|f IH]; intros m; cbn [depthLe height]; [lia|]. intros [Hm Hf].
  assert (Hgen : forall l, (forall c, c ∈ l -> 0 <= c < 8) -> Z.of_nat (foldr Nat.max 0%nat ((fun c => height (f c)) <$> l)) <= m - 1).
  { intros l. induction l as [|c l IHl]; intros Hl; [simpl; lia|]. cbn [fmap list_fmap foldr].
    specialize (IHl ltac:(intros; apply Hl; by right)). specialize (IH c (m - 1) (Hf c (Hl c ltac:(by left)))). lia. }
  specialize (Hgen octants). assert (forall c, c ∈ octants -> 0 <= c < 8) as Ho by (intros c Hc%elem_of_seqZ; lia). specialize (Hgen Ho). lia.
Qed.

(** A tree without leaves below level [m] has at most that height. *)
Lemma height_levels m p u l : nodeAt l p -> Forall (fun q => nodeLevel q <= m) (leafKeys p u) -> l + Z.of_nat (height u) <= m.
Proof.
  revert p l. induction u as [|f IH]; intros p l Hp Hm.
  - apply Forall_cons in Hm as [Hm _]. rewrite (nodeAt_level l p Hp) in Hm. simpl. lia.
  - assert (Hc : forall c, 0 <= c < 8 -> l + 1 + Z.of_nat (height (f c)) <= m).
    { intros c Hc. apply (IH c (8 * p + c)); [by apply nodeAt_child|]. apply Forall_forall. intros q Hq. rewrite Forall_forall in Hm. apply Hm, leafKeys_elem. by exists c. }
    cbn [height]. assert (Hgen : forall l0, (forall c, c ∈ l0 -> 0 <= c < 8) -> l + 1 + Z.of_nat (foldr Nat.max 0%nat ((fun c => height (f c)) <$> l0)) <= m).
    { intros l0. induction l0 as [|c l0 IHl]; intros Hl; [specialize (Hc 0 ltac:(lia)); simpl; lia|]. cbn [fmap list_fmap foldr].
      specialize (IHl ltac:(intros; apply Hl; by right)). specialize (Hc c (Hl c ltac:(by left))). lia. }
    specialize (Hgen octants). assert (forall c, c ∈ octants -> 0 <= c < 8) as Ho by (intros c Hc'%elem_of_seqZ; lia). specialize (Hgen Ho). lia.
Qed.

Definition bothLeaf (e : npair) : bool := isOLeaf (tgtT e) && isOLeaf (srcT e).
Definition pairHeight (e : npair) : nat := height (tgtT e) + height (srcT e).

Definition targetChild (e : npair) (f : Z -> otree) (c : Z) : npair := mkPair (8 * tgt e + c) (f c) (src e) (srcT e).
Definition sourceChild (e : npair) (f : Z -> otree) (c : Z) : npair := mkPair (tgt e) (tgtT e) (8 * src e + c) (f c).

(** The pairs that replace a pair: the children of the target if it is an internal node on a
    level not below the source, else those of the source. *)
Definition pairChild (e : npair) (c : Z) : npair :=
  match tgtT e, srcT e with
  | ONode f, OLeaf => targetChild e f c
  | ONode f, ONode g => if tgt e <? src e then targetChild e f c else sourceChild e g c
  | OLeaf, ONode g => sourceChild e g c
  | OLeaf, OLeaf => e
  end.

Section Events.
Context (crit : Z -> Z -> bool).

Definition continues (e : npair) : bool := crit (tgt e) (src e) && negb (bothLeaf e).

(** The event of a pair that is not subdivided. *)
Definition endEvent (e : npair) : event := (tgt e, src e, crit (tgt e) (src e)).

(** Events of the subdivision of [e]. *)
Fixpoint pairEvents (n : nat) (e : npair) : list event :=
  match n with
  | O => []
  | S n => concat ((fun c => let e' := pairChild e c in if continues e' then pairEvents n e' else [endEvent e']) <$> octants)
  end.

Fixpoint pairCost (n : nat) (e : npair) : nat :=
  match n with
  | O => 1
  | S n => 1 + sum_list_with (fun c => let e' := pairChild e c in if continues e' then pairCost n e' else 0%nat) octants
  end.

Definition eventsOf (e : npair) : list event := pairEvents (pairHeight e) e.
Definition costOf (e : npair) : nat := pairCost (pairHeight e) e.

Lemma pairChild_height e c : bothLeaf e = false -> 0 <= c < 8 -> (pairHeight (pairChild e c) < pairHeight e)%nat.
Proof using.
  destruct e as [p [|f] q [|g]]; unfold bothLeaf, pairHeight; cbn; try done; intros _ Hc.
  - pose proof (height_child g c Hc). cbn [height] in *. lia.
  - pose proof (height_child f c Hc). cbn [height] in *. lia.
  - pose proof (height_child f c Hc). pose proof (height_child g c Hc). cbn [height] in *. destruct (p <? q); cbn; lia.
Qed.

Lemma pairHeight_pos e : bothLeaf e = false -> (0 < pairHeight e)%nat.
Proof using. destruct e as [p [|f] q [|g]]; unfold bothLeaf, pairHeight; cbn; done || lia. Qed.

Lemma continues_inner e : continues e = true -> crit (tgt e) (src e) = true /\ bothLeaf e = false.
Proof using. unfold continues. by rewrite andb_true_iff, negb_true_iff. Qed.

(** More fuel than the height does not change the result. *)
Lemma pair_fuel n : forall m e, (pairHeight e <= n)%nat -> (pairHeight e <= m)%nat -> bothLeaf e = false ->
  pairEvents n e = pairEvents m e /\ pairCost n e = pairCost m e.
Proof using.
  induction n as [|n IH]; intros m e Hn Hm He; pose proof (pairHeight_pos e He); [lia|]. destruct m as [|m]; [lia|]. cbn [pairEvents pairCost].
  assert (Hc : forall c, c ∈ octants -> continues (pairChild e c) = true ->
    pairEvents n (pairChild e c) = pairEvents m (pairChild e c) /\ pairCost n (pairChild e c) = pairCost m (pairChild e c)).
  { intros c Hc%elem_of_seqZ [_ Hcon]%continues_inner. pose proof (pairChild_height e c He ltac:(lia)). apply IH; [lia|lia|done]. }
  split.
  - f_equal. apply list_fmap_ext. intros _ c Hin%list_elem_of_lookup_2. cbn zeta. destruct (continues (pairChild e c)) eqn:Hcon; [|done]. by apply Hc.
  - f_equal. revert Hc. generalize octants as l. intros l. induction l as [|c l IHl]; intros Hc; [done|]. cbn [sum_list_with].
    rewrite IHl by (intros; apply Hc; [by right|done]). f_equal. destruct (continues (pairChild e c)) eqn:Hcon; [|done]. apply Hc; [by left|done].
Qed.

(** The part of the events that child [c] contributes. *)
Definition childEvents (e : npair) (c : Z) : list event :=
  if continues (pairChild e c) then eventsOf (pairChild e c) else [endEvent (pairChild e c)].

Lemma eventsOf_unfold e : bothLeaf e = false -> eventsOf e = concat (childEvents e <$> octants).
Proof using.
  intros He. unfold eventsOf. pose proof (pairHeight_pos e He). destruct (pairHeight e) as [|n] eqn:En; [lia|]. cbn [pairEvents]. f_equal.
  apply list_fmap_ext. intros _ c Hin%list_elem_of_lookup_2%elem_of_seqZ. unfold childEvents. cbn zeta.
  destruct (continues (pairChild e c)) eqn:Hcon; [|done]. pose proof (pairChild_height e c He ltac:(lia)).
  apply pair_fuel; [lia|done|]. by apply continues_inner.
Qed.

Lemma costOf_unfold e : bothLeaf e = false ->
  costOf e = Datatypes.S (sum_list_with (fun c => if continues (pairChild e c) then costOf (pairChild e c) else 0%nat) octants).
Proof using.
  intros He. unfold costOf. pose proof (pairHeight_pos e He). destruct (pairHeight e) as [|n] eqn:En; [lia|]. cbn [pairCost plus]. f_equal.
  assert (Ho : forall c, c ∈ octants -> 0 <= c < 8) by (intros c Hc%elem_of_seqZ; lia). revert Ho. generalize octants as l.
  induction l as [|c l IHl]; intros Ho; [done|]. cbn [sum_list_with]. rewrite IHl by (intros; apply Ho; by right). f_equal. cbn zeta.
  destruct (continues (pairChild e c)) eqn:Hcon; [|done]. pose proof (pairChild_height e c He (Ho c ltac:(by left))).
  apply pair_fuel; [lia|done|]. by apply continues_inner.
Qed.

(** ** Coverage *)

Definition covers (v : event) (la lb : Z) : Prop := below v.1.1 la /\ below v.1.2 lb.

Definition leafPair (e : npair) (la lb : Z) : Prop := la ∈ leafKeys (tgt e) (tgtT e) /\ lb ∈ leafKeys (src e) (srcT e).

(** Well-formed node keys. *)
Definition pairKeys (e : npair) : Prop := 1 <= tgt e /\ 1 <= src e.

Lemma pairChild_keys e c : pairKeys e -> 0 <= c -> pairKeys (pairChild e c).
Proof using. destruct e as [p [|f] q [|g]]; unfold pairKeys; cbn; try (destruct (p <? q); cbn); lia. Qed.

Lemma leafPair_child e la lb :
  bothLeaf e = false -> leafPair e la lb <-> exists c, 0 <= c < 8 /\ leafPair (pairChild e c) la lb.
Proof using.
  destruct e as [p [|f] q [|g]]; unfold bothLeaf, leafPair; cbn [isOLeaf andb tgt tgtT src srcT]; [done|intros _..].
  - rewrite leafKeys_elem. split; [intros (Ha & c & Hc & Hb)|intros (c & Hc & Ha & Hb)]; eauto.
  - rewrite leafKeys_elem. split; [intros ((c & Hc & Ha) & Hb)|intros (c & Hc & Ha & Hb)]; eauto.
  - unfold pairChild. cbn. destruct (p <? q); cbn [targetChild sourceChild tgt tgtT src srcT].
    + rewrite (leafKeys_elem p f).
      split; [intros ((c & Hc & Ha) & Hb)|intros (c & Hc & Ha & Hb)]; eauto.
    + rewrite (leafKeys_elem q g). split; [intros (Ha & c & Hc & Hb)|intros (c & Hc & Ha & Hb)]; eauto.
Qed.

(** What an event of [e] covers lies below [e], and child [c] covers only its own part. *)
Lemma childEvents_below e c v :
  (forall e', (pairHeight e' < pairHeight e)%nat -> pairKeys e' -> bothLeaf e' = false -> forall v, v ∈ eventsOf e' -> below (tgt e') v.1.1 /\ below (src e') v.1.2) ->
  bothLeaf e = false -> pairKeys e -> 0 <= c < 8 -> v ∈ childEvents e c -> below (tgt (pairChild e c)) v.1.1 /\ below (src (pairChild e c)) v.1.2.
Proof using.
  intros IH He Hk Hc. unfold childEvents. destruct (continues (pairChild e c)) eqn:Hcon.
  - apply IH; [by apply pairChild_height|apply pairChild_keys; [done|lia]|by apply continues_inner].
  - intros ->%list_elem_of_singleton. split; apply below_refl.
Qed.

Lemma pairChild_below e c : 0 <= c < 8 -> pairKeys e -> below (tgt e) (tgt (pairChild e c)) /\ below (src e) (src (pairChild e c)).
Proof using.
  intros Hc _. assert (H : forall p, below p (8 * p + c)) by (intros p; apply (below_child p c); [done|apply below_refl]).
  pose proof below_refl as Hr. destruct e as [p [|f] q [|g]]; cbn; try (destruct (p <? q)); cbn; auto.
Qed.

Lemma eventsOf_below e : forall v, pairKeys e -> bothLeaf e = false -> v ∈ eventsOf e -> below (tgt e) v.1.1 /\ below (src e) v.1.2.
Proof using.
  induction e as [e IH] using (well_founded_ind (well_founded_ltof _ pairHeight)); unfold ltof in IH. intros v Hk He Hv.
  rewrite eventsOf_unfold in Hv by done. apply elem_of_blocks_range in Hv as (c & Hc & Hv).
  destruct (childEvents_below e c v) as [H1 H2]; [intros; by apply IH|done|done|lia|done|].
  destruct (pairChild_below e c ltac:(lia) Hk). split; by eapply below_trans.
Qed.

Lemma pairChild_disjoint e c c' x y :
  bothLeaf e = false -> pairKeys e -> 0 <= c < 8 -> 0 <= c' < 8 ->
  below (tgt (pairChild e c)) x -> below (src (pairChild e c)) y -> below (tgt (pairChild e c')) x -> below (src (pairChild e c')) y -> c = c'.
Proof using.
  intros He [Hp Hq] Hc Hc'. destruct e as [p [|f] q [|g]]; unfold bothLeaf, pairChild in *; cbn in *; [done| | |destruct (p <? q)]; cbn;
    intros H1 H2 H3 H4; (by apply (below_disjoint p c c' x)) || (by apply (below_disjoint q c c' y)).
Qed.

Lemma eventsOf_NoDup e : pairKeys e -> bothLeaf e = false -> NoDup (eventsOf e).
Proof using.
  induction e as [e IH] using (well_founded_ind (well_founded_ltof _ pairHeight)); unfold ltof in IH. intros Hk He.
  rewrite eventsOf_unfold by done. apply (blocks_NoDup (childEvents e) 8 0).
  - intros c Hc. unfold childEvents. destruct (continues (pairChild e c)) eqn:Hcon; [|apply NoDup_singleton].
    apply IH; [apply pairChild_height; [done|lia]|apply pairChild_keys; [done|lia]|by apply continues_inner].
  - intros c c' v Hc Hc' Hv Hv'.
    destruct (childEvents_below e c v) as [H1 H2]; [intros; by apply eventsOf_below|done|done|lia|done|].
    destruct (childEvents_below e c' v) as [H3 H4]; [intros; by apply eventsOf_below|done|done|lia|done|].
    apply (pairChild_disjoint e c c' v.1.1 v.1.2); done || lia.
Qed.

Lemma leafPair_below e la lb : leafPair e la lb -> below (tgt e) la /\ below (src e) lb.
Proof using. intros [Ha Hb]. split; by eapply leafKeys_below. Qed.

(** Every pair of leaves is covered by exactly one event. *)
Lemma eventsOf_cover e : forall la lb, pairKeys e -> bothLeaf e = false -> leafPair e la lb ->
  exists v, v ∈ eventsOf e /\ covers v la lb /\ forall v', v' ∈ eventsOf e -> covers v' la lb -> v' = v.
Proof using.
  induction e as [e IH] using (well_founded_ind (well_founded_ltof _ pairHeight)); unfold ltof in IH. intros la lb Hk He Hl.
  rewrite eventsOf_unfold by done. apply leafPair_child in Hl as (c & Hc & Hl); [|done]. pose proof (pairChild_keys e c Hk ltac:(lia)) as Hkc.
  assert (exists v, v ∈ childEvents e c /\ covers v la lb /\ forall v', v' ∈ childEvents e c -> covers v' la lb -> v' = v) as (v & Hv & Hcov & Hu).
  { unfold childEvents. destruct (continues (pairChild e c)) eqn:Hcon.
    - apply IH; [by apply pairChild_height|done|by apply continues_inner|done].
    - exists (endEvent (pairChild e c)). split; [by apply list_elem_of_singleton|]. split; [by apply leafPair_below|]. by intros v' ->%list_elem_of_singleton. }
  exists v. split; [apply elem_of_blocks_range; exists c; split; [lia|done]|]. split; [done|]. intros v' Hv' [H1 H2].
  apply elem_of_blocks_range in Hv' as (c' & Hc' & Hv'). destruct (childEvents_below e c' v') as [H3 H4]; [intros; by apply eventsOf_below|done|done|lia|done|].
  destruct (leafPair_below _ _ _ Hl) as [H5 H6]. assert (c' = c) as ->; [|by apply Hu].
  rewrite Z.add_0_l in Hc'. apply (pairChild_disjoint e c' c la lb); try done; by eapply below_trans.
Qed.

(** [m2l] only for pairs that fail the criterion, [p2p] only for leaf pairs that satisfy it. *)
Lemma eventsOf_kind e : forall a b last, bothLeaf e = false -> (a, b, last) ∈ eventsOf e ->
  crit a b = last /\ (last = true -> leafPair e a b).
Proof using.
  induction e as [e IH] using (well_founded_ind (well_founded_ltof _ pairHeight)); unfold ltof in IH. intros a b last He Hv.
  rewrite eventsOf_unfold in Hv by done. apply elem_of_blocks_range in Hv as (c & Hc & Hv). unfold childEvents in Hv.
  destruct (continues (pairChild e c)) eqn:Hcon.
  - destruct (continues_inner _ Hcon) as [_ Hb]. destruct (IH (pairChild e c) ltac:(apply pairChild_height; [done|lia]) a b last Hb Hv) as [H1 H2].
    split; [done|]. intros Hl. apply leafPair_child; [done|]. exists c. split; [lia|by apply H2].
  - apply list_elem_of_singleton in Hv. injection Hv as -> -> ->. split; [done|]. intros Hl. apply leafPair_child; [done|]. exists c. split; [lia|].
    unfold continues in Hcon. rewrite Hl in Hcon. cbn in Hcon. apply negb_false_iff, andb_true_iff in Hcon as [H1 H2].
    unfold leafPair. destruct (tgtT (pairChild e c)), (srcT (pairChild e c)); try done. split; by apply list_elem_of_singleton.
Qed.

Lemma below_pos p q : 1 <= p -> below p q -> 1 <= q.
Proof using. intros Hp (j & Hj & Hb). pose proof (pow8_pos j Hj). nia. Qed.

(** If the criterion holds for a pair whenever it holds for a pair of descendants, the [p2p]
    events are the leaf pairs that satisfy it. *)
Lemma eventsOf_monotone e :
  (forall a b la lb, 1 <= a -> 1 <= b -> below a la -> below b lb -> leafPair e la lb -> crit la lb = true -> crit a b = true) ->
  pairKeys e -> bothLeaf e = false ->
  forall la lb, (la, lb, true) ∈ eventsOf e <-> leafPair e la lb /\ crit la lb = true.
Proof using.
  intros Hmono Hk He la lb. split.
  - intros Hv. destruct (eventsOf_kind e la lb true He Hv). auto.
  - intros [Hl Hc]. destruct (eventsOf_cover e la lb Hk He Hl) as ([[a b] last] & Hv & [H1 H2] & _). cbn in H1, H2.
    destruct (eventsOf_kind e a b last He Hv) as [Hlast Hpair]. destruct (eventsOf_below e (a, b, last) Hk He Hv) as [H3 H4]. pose proof Hk as [Hp Hq].
    rewrite (Hmono a b la lb (below_pos _ _ Hp H3) (below_pos _ _ Hq H4) H1 H2 Hl Hc) in Hlast. subst last. specialize (Hpair eq_refl). destruct Hl as [Ha Hb], Hpair as [Ha' Hb'].
    assert (a = la) as -> by (by eapply leaf_below_unique; [exact Hp|apply elem_of_app; right; exact Ha|exact Ha'|]).
    by assert (b = lb) as -> by (by eapply leaf_below_unique; [exact Hq|apply elem_of_app; right; exact Hb|exact Hb'|]).
Qed.

End Events.

(** ** The stack *)

Section Stack.
Context {S : Type} (continuation : Z -> Z -> option bool) (m2l p2p : Z -> Z -> S -> option S) (crit : Z -> Z -> bool).
Context (k : KeyType) (t : otree) (o : OctreeArrays).
Hypothesis Hdepth : depthLe (maxTreeLevel k) t.
Hypothesis Ho : linked k t o.
Hypothesis Hcrit : forall a b, a ∈ allKeys 1 t -> b ∈ allKeys 1 t -> continuation (pos o a) (pos o b) = Some (crit a b).

Definition handle (v : event) (s : S) : option S :=
  let '(a, b, last) := v in if last : bool then p2p (pos o a) (pos o b) s else m2l (pos o a) (pos o b) s.

Definition validPair (e : npair) : Prop := subtreeOf t (tgt e) (tgtT e) /\ subtreeOf t (src e) (srcT e).

Lemma subtreeOf_root p u : subtreeOf t p u -> p ∈ allKeys 1 t.
Proof using.
  intros [Hl Hn]. rewrite Forall_forall in Hl, Hn. apply elem_of_app. destruct u as [|f]; [right; apply Hl; by left|left; apply Hn, innerKeys_elem; by left].
Qed.

Lemma isLeafNode_get p u : subtreeOf t p u -> isLeafNode (childOffsets o) (pos o p) = Some (isOLeaf u).
Proof using Hdepth Ho.
  intros Hs. pose proof (node_pos k t o Ho p (subtreeOf_root p u Hs)) as Hp. unfold isLeafNode. pose proof (aget_Some_range _ _ _ Hp). destruct u as [|f].
  - destruct Hs as [Hl _]. apply Forall_cons in Hl as [Hl _]. by rewrite (lk_leaf _ _ _ Ho _ p Hp Hl).
  - destruct (lk_inner _ _ _ Ho _ p Hp (subtreeOf_node t p f Hs)) as (c & -> & Hc & _). destruct (Z.eqb_spec c 0); [lia|done].
Qed.

Lemma pairChild_valid e c : validPair e -> 0 <= c < 8 -> validPair (pairChild e c).
Proof using.
  intros [Ha Hb] Hc. destruct e as [p [|f] q [|g]]; unfold pairChild, validPair in *; cbn in *; [done| | |destruct (p <? q)]; cbn;
    (split; [|done]; by apply subtreeOf_child) || (split; [done|]; by apply subtreeOf_child).
Qed.

Local Abbreviation stackOf es := ((fun e => (pos o (tgt e), pos o (src e))) <$> es).
Local Abbreviation inter := (interact continuation m2l p2p (childOffsets o)).

Lemma interact_run e stack s : validPair e -> zlen stack < stackSize ->
  inter (pos o (tgt e)) (pos o (src e)) (stack, s) =
  if continues crit e then Some ((pos o (tgt e), pos o (src e)) :: stack, s)
  else let? s := handle (endEvent crit e) s in Some (stack, s).
Proof using Hdepth Ho Hcrit.
  intros [Ha Hb] Hz. unfold interact, continues, bothLeaf, endEvent, handle.
  rewrite (Hcrit _ _ (subtreeOf_root _ _ Ha) (subtreeOf_root _ _ Hb)), (isLeafNode_get _ _ Ha), (isLeafNode_get _ _ Hb).
  destruct (crit (tgt e) (src e)); [|done]. destruct (isOLeaf (tgtT e) && isOLeaf (srcT e)); [done|]. cbn [negb andb].
  by destruct (Z.ltb_spec (zlen stack) stackSize); [|lia].
Qed.

(** The pairs that are pushed and the events that happen at once for the octants [l]. *)
Definition pushed (e : npair) (l : list Z) : list npair := filter (fun e' => continues crit e' = true) (pairChild e <$> l).
Definition immediate (e : npair) (l : list Z) : list event :=
  concat ((fun c => if continues crit (pairChild e c) then [] else [endEvent crit (pairChild e c)]) <$> l).

Lemma interact_all e l : forall es s,
  validPair e -> Forall (fun c => 0 <= c < 8) l -> zlen es + zlen l <= stackSize ->
  foldM (fun c st => inter (pos o (tgt (pairChild e c))) (pos o (src (pairChild e c))) st) l (stackOf es, s) =
  let? s := foldM handle (immediate e l) s in Some (stackOf (rev (pushed e l) ++ es), s).
Proof using Hdepth Ho Hcrit.
  induction l as [|c l IH]; intros es s He Hl Hz; [done|]. apply Forall_cons in Hl as [Hc Hl]. rewrite zlen_cons in Hz. pose proof (zlen_nonneg l).
  cbn [foldM]. rewrite (interact_run (pairChild e c)); [|by apply pairChild_valid|rewrite zlen_map; lia].
  unfold pushed, immediate. cbn [fmap list_fmap concat]. rewrite filter_cons. destruct (continues crit (pairChild e c)) eqn:Hcon.
  - rewrite decide_True by done. cbn [app rev]. rewrite <- app_assoc.
    apply (IH (pairChild e c :: es) s He Hl). rewrite zlen_cons. lia.
  - rewrite decide_False by done. cbn [app foldM]. destruct (handle (endEvent crit (pairChild e c)) s) as [s'|]; [|done]. apply (IH es s' He Hl). lia.
Qed.

Lemma dualStep_run e es s : validPair e -> bothLeaf e = false -> zlen es + 8 <= stackSize ->
  dualStep continuation m2l p2p (childOffsets o) (pos o (tgt e)) (pos o (src e)) (stackOf es, s) =
  let? s := foldM handle (immediate e octants) s in Some (stackOf (rev (pushed e octants) ++ es), s).
Proof using Hdepth Ho Hcrit.
  intros He Hb Hz. rewrite <- (interact_all e octants es s He); [|apply Forall_forall; intros c Hc%elem_of_seqZ; lia|done].
  destruct He as [Ha Hs]. unfold dualStep. rewrite (isLeafNode_get _ _ Ha), (isLeafNode_get _ _ Hs).
  assert (Hchild : forall p f, subtreeOf t p (ONode f) -> exists c, (childOffsets o).[pos o p] = Some c /\ forall d, 0 <= d < 8 -> c + d = pos o (8 * p + d)).
  { intros p f Hp. destruct (lk_inner _ _ _ Ho _ p (node_pos k t o Ho p (subtreeOf_root _ _ Hp)) (subtreeOf_node t p f Hp)) as (c & Ec & _ & Hch).
    exists c. split; [done|]. intros d Hd. apply (pos_node k t o Ho). by apply Hch. }
  assert (Hord : (pos o (tgt e) <? pos o (src e)) = (tgt e <? src e)).
  { apply eq_true_iff_eq. rewrite !Z.ltb_lt. apply (pos_lt k t o Ho); by eapply subtreeOf_root. }
  rewrite Hord. unfold for_loop. destruct e as [p [|f] q [|g]]; unfold pairChild; cbn [tgt tgtT src srcT isOLeaf negb andb orb] in *; [done|rewrite andb_false_r|rewrite orb_true_r|rewrite andb_true_r, orb_false_r].
  - destruct (Hchild q g Hs) as (c & -> & Hc). apply foldM_ext. intros d st Hd%elem_of_seqZ. cbn [sourceChild tgt src]. by rewrite Hc by lia.
  - destruct (Hchild p f Ha) as (c & -> & Hc). apply foldM_ext. intros d st Hd%elem_of_seqZ. cbn [targetChild tgt src]. by rewrite Hc by lia.
  - destruct (Hchild p f Ha) as (c & -> & Hc), (Hchild q g Hs) as (c' & -> & Hc').
    destruct (p <? q); apply foldM_ext; intros d st Hd%elem_of_seqZ; cbn [targetChild sourceChild tgt src]; by rewrite ?Hc, ?Hc' by lia.
Qed.

(** Every entry has room above it for the subdivision of its whole subtree. *)
Fixpoint fits (es : list npair) : Prop :=
  match es with
  | [] => True
  | e :: es => zlen es + 7 * Z.of_nat (pairHeight e) + 1 <= stackSize /\ fits es
  end.

Lemma fits_push e l es :
  zlen es + 7 * Z.of_nat (pairHeight e) + 1 <= stackSize -> fits es -> zlen l <= 8 ->
  Forall (fun e' => (pairHeight e' < pairHeight e)%nat) l -> fits (l ++ es).
Proof using.
  intros He Hes Hz Hl. induction Hl as [|e' l Hlt _ IH]; [done|]. rewrite zlen_cons in Hz. pose proof (zlen_nonneg l).
  cbn [app fits]. rewrite zlen_app. split; [lia|]. apply IH. lia.
Qed.

Lemma pushed_elem e l e' : e' ∈ pushed e l <-> continues crit e' = true /\ exists c, c ∈ l /\ e' = pairChild e c.
Proof using.
  unfold pushed. rewrite list_elem_of_filter, list_elem_of_fmap. split; (intros [H (c & H1 & H2)]; split; [done|]; by exists c).
Qed.

Lemma events_split e l : concat (childEvents crit e <$> l) ≡ₚ immediate e l ++ concat (eventsOf crit <$> pushed e l).
Proof using.
  induction l as [|c l IH]; [done|]. unfold immediate, pushed in *. cbn [fmap list_fmap concat]. rewrite filter_cons, IH.
  unfold childEvents at 1. destruct (continues crit (pairChild e c)).
  - rewrite decide_True by done. cbn [app fmap list_fmap concat]. solve_Permutation.
  - by rewrite decide_False by done.
Qed.

Lemma cost_split e l : sum_list_with (costOf crit) (pushed e l) =
  sum_list_with (fun c => if continues crit (pairChild e c) then costOf crit (pairChild e c) else 0%nat) l.
Proof using.
  induction l as [|c l IH]; [done|]. unfold pushed in *. cbn [fmap list_fmap sum_list_with]. rewrite filter_cons, <- IH.
  destruct (continues crit (pairChild e c)); [by rewrite decide_True by done|by rewrite decide_False by done].
Qed.

Lemma dualLoop_run (n : nat) : forall es fuel s,
  (sum_list_with (costOf crit) es <= n)%nat -> (n < fuel)%nat -> Forall (fun e => validPair e /\ bothLeaf e = false) es -> fits es ->
  exists ev, ev ≡ₚ concat (eventsOf crit <$> es) /\
    dualLoop continuation m2l p2p (childOffsets o) fuel (stackOf es) s = foldM handle ev s.
Proof using Hdepth Ho Hcrit.
  induction n as [|n IH]; intros es fuel s Hn Hf Hes Hfit; (destruct fuel as [|fuel]; [lia|]); destruct es as [|e es]; try (by exists []).
  - cbn [sum_list_with] in Hn. apply Forall_cons in Hes as [[_ He] _]. rewrite costOf_unfold in Hn by done. lia.
  - apply Forall_cons in Hes as [[Hv He] Hes]. destruct Hfit as [Hroom Hfit]. pose proof (pairHeight_pos e He).
    cbn [fmap list_fmap dualLoop sum_list_with concat] in *. rewrite dualStep_run by (done || lia).
    assert (Hin : Forall (fun e' => (validPair e' /\ bothLeaf e' = false) /\ (pairHeight e' < pairHeight e)%nat) (rev (pushed e octants))).
    { rewrite <- Permutation_rev. apply Forall_forall. intros e' (Hc & c & Hin%elem_of_seqZ & ->)%pushed_elem.
      split; [split; [apply pairChild_valid; [done|lia]|by eapply continues_inner]|apply pairChild_height; [done|lia]]. }
    assert (Hperm : forall ev, ev ≡ₚ concat (eventsOf crit <$> rev (pushed e octants) ++ es) ->
      immediate e octants ++ ev ≡ₚ eventsOf crit e ++ concat (eventsOf crit <$> es)).
    { intros ev ->. rewrite eventsOf_unfold, events_split, <- Permutation_rev, fmap_app, concat_app by done. by rewrite app_assoc. }
    destruct (foldM handle (immediate e octants) s) as [s'|] eqn:Es.
    + destruct (IH (rev (pushed e octants) ++ es) fuel s') as (ev & Hev & E).
      * rewrite sum_list_with_app, <- Permutation_rev, cost_split. rewrite costOf_unfold in Hn by done. lia.
      * lia.
      * apply Forall_app. split; [|done]. eapply Forall_impl; [exact Hin|]. by intros e' [? _].
      * apply (fits_push e); [done|done| |eapply Forall_impl; [exact Hin|]; by intros e' [_ ?]].
        unfold zlen, pushed. rewrite <- Permutation_rev. pose proof (length_filter (fun e' => continues crit e' = true) (pairChild e <$> octants)) as Hle.
        rewrite length_fmap in Hle. change (length octants) with 8%nat in Hle. lia.
      * exists (immediate e octants ++ ev). split; [by apply Hperm|]. by rewrite foldM_app, Es.
    + eexists. split; [apply Hperm; reflexivity|]. by rewrite foldM_app, Es.
Qed.

(** The traversal performs the events of the recursive traversal in some order. *)
Lemma dualTraversal_run e fuel s :
  validPair e -> bothLeaf e = false -> (pairHeight e <= 18)%nat -> (costOf crit e < fuel)%nat ->
  exists ev, ev ≡ₚ eventsOf crit e /\
    dualTraversal continuation m2l p2p (childOffsets o) fuel (pos o (tgt e)) (pos o (src e)) s = foldM handle ev s.
Proof using Hdepth Ho Hcrit.
  intros He Hb Hh Hf. unfold dualTraversal. pose proof He as [Ha Hs]. rewrite (isLeafNode_get _ _ Ha), (isLeafNode_get _ _ Hs).
  unfold bothLeaf in Hb. rewrite Hb. destruct (dualLoop_run (costOf crit e) [e] fuel s) as (ev & Hev & E).
  - cbn. lia.
  - done.
  - by apply Forall_singleton.
  - cbn. unfold stackSize. split; [|done]. change (zlen []) with 0. lia.
  - exists ev. cbn in Hev. by rewrite app_nil_r in Hev.
Qed.

End Stack.
