(* ===== verification/NodeLookup.v ===== *)
(** * Tree nodes by key range

    Node ranges, subtrees of a node, [locateNode] on a linked octree, and the nodes that span
    a range of leaves. *)

From S2P Require Import Prelude Primitives SfcCommon Csarray CsInvariant CsRebalance CsCounts Octree OctreeNodes OctreeBuild OctreeQueries FocusTree Traversal DualTraversal.

(** ** Key ranges of nodes *)

Section Ranges.
Context (k : KeyType).

Definition nodeEnd (q : Z) : Z := nodeStart k q + 8 ^ (maxTreeLevel k - nodeLevel q).
Definition treeNode (q : Z) : Prop := nodeAt (nodeLevel q) q /\ nodeLevel q <= maxTreeLevel k.

Lemma node_range q : treeNode q ->
  0 <= nodeStart k q /\ nodeEnd q <= keyMax k /\ nodeStart k q < nodeEnd q /\ (8 ^ (maxTreeLevel k - nodeLevel q) | nodeStart k q).
Proof using.
  intros [Hq Hl]. unfold nodeEnd. rewrite (nodeAt_start k _ _ Hq Hl). destruct Hq as (Hl0 & Hq). set (l := nodeLevel q) in *.
  pose proof (pow8_pos (maxTreeLevel k - l) ltac:(lia)). unfold keyMax.
  assert (8 ^ maxTreeLevel k = 8 ^ l * 8 ^ (maxTreeLevel k - l)) as -> by (rewrite <- Z.pow_add_r by lia; f_equal; lia).
  repeat split; [nia|nia|lia|apply Z.divide_factor_r].
Qed.

Lemma decode2K_node q : treeNode q -> decodePlaceholderBit2K k q = (nodeStart k q, nodeEnd q).
Proof using.
  intros [Hq Hl]. unfold nodeEnd. rewrite (nodeAt_start k _ _ Hq Hl). destruct Hq as (Hl0 & Hq). set (l := nodeLevel q) in *.
  replace q with (2 ^ (3 * l) + (q - 8 ^ l)) at 1 by (rewrite pow8_pow2 by lia; lia).
  rewrite decodePlaceholderBit2K_val by (rewrite <- ?pow8_pow2 by lia; lia).
  replace (3 * maxTreeLevel k - 3 * l) with (3 * (maxTreeLevel k - l)) by lia. rewrite <- pow8_pow2 by lia. f_equal. lia.
Qed.

Lemma node_treeLevel q : treeNode q -> treeLevel k (kwrap k (nodeEnd q - nodeStart k q)) = nodeLevel q.
Proof using.
  intros [Hq Hl]. unfold nodeEnd. destruct Hq as [Hl0 _]. pose proof (pow8_le_keyMax k (maxTreeLevel k - nodeLevel q) ltac:(lia)).
  pose proof (pow8_pos (maxTreeLevel k - nodeLevel q) ltac:(lia)). kfacts k.
  replace (nodeStart k q + 8 ^ (maxTreeLevel k - nodeLevel q) - nodeStart k q) with (8 ^ (maxTreeLevel k - nodeLevel q)) by lia.
  rewrite kwrap_small, treeLevel_pow8 by lia. lia.
Qed.

(** Ancestors of a node are nodes. *)
Lemma below_treeNode a q : 1 <= a -> below a q -> treeNode q -> treeNode a.
Proof using.
  intros Ha (j & Hj & Hb) [(Hl0 & Hq) Hl]. set (l := nodeLevel q) in *. pose proof (pow8_pos j Hj). pose proof (pow8_pos l Hl0).
  assert (j <= l).
  { destruct (Z.le_gt_cases j l) as [|Hgt]; [done|]. pose proof (pow8_mono (l + 1) j ltac:(lia)) as Hp. rewrite pow8_succ in Hp by lia. nia. }
  assert (E : 8 ^ l = 8 ^ (l - j) * 8 ^ j) by (rewrite <- Z.pow_add_r by lia; f_equal; lia). pose proof (pow8_pos (l - j) ltac:(lia)).
  assert (Hn : nodeAt (l - j) a) by (split; [lia|nia]). split; rewrite (nodeAt_level _ _ Hn); [done|lia].
Qed.

Lemma treeNode_pos q : treeNode q -> 1 <= q.
Proof using. intros [(Hl & Hq) _]. pose proof (pow8_pos (nodeLevel q) Hl). lia. Qed.

(** A node is determined by its key range. *)
Lemma node_range_inj p q : treeNode p -> treeNode q -> nodeStart k p = nodeStart k q -> nodeEnd p = nodeEnd q -> p = q.
Proof using.
  intros Hp Hq Es Ee. pose proof (node_range p Hp) as (_ & _ & Hlt & _). pose proof (proj1 (proj1 Hp)). pose proof (proj1 (proj1 Hq)). destruct Hp as [Hp Hlp], Hq as [Hq Hlq].
  assert (El : nodeLevel p = nodeLevel q).
  { unfold nodeEnd in Ee. rewrite Es in Ee. destruct (Z.lt_trichotomy (nodeLevel p) (nodeLevel q)) as [H'|[|H']]; [|done|].
    - pose proof (Z.pow_lt_mono_r 8 (maxTreeLevel k - nodeLevel q) (maxTreeLevel k - nodeLevel p)). lia.
    - pose proof (Z.pow_lt_mono_r 8 (maxTreeLevel k - nodeLevel p) (maxTreeLevel k - nodeLevel q)). lia. }
  rewrite (nodeAt_start k _ _ Hp Hlp), (nodeAt_start k _ _ Hq Hlq), El in Es. pose proof (pow8_pos (maxTreeLevel k - nodeLevel q) ltac:(lia)). nia.
Qed.

(** The node with key range [a, a + 8^n). *)
Lemma node_of_range a n :
  0 <= n <= maxTreeLevel k -> 0 <= a -> (8 ^ n | a) -> a + 8 ^ n <= keyMax k ->
  exists q, treeNode q /\ nodeStart k q = a /\ nodeEnd q = a + 8 ^ n /\ nodeLevel q = maxTreeLevel k - n.
Proof using.
  intros Hn Ha [c ->] Hb. pose proof (pow8_pos n ltac:(lia)). set (l := maxTreeLevel k - n).
  assert (E : keyMax k = 8 ^ l * 8 ^ n) by (unfold keyMax, l; rewrite <- Z.pow_add_r by lia; f_equal; lia).
  assert (Hq : nodeAt l (8 ^ l + c)) by (split; [lia|nia]). exists (8 ^ l + c). pose proof (nodeAt_level _ _ Hq) as El.
  assert (Hs : nodeStart k (8 ^ l + c) = c * 8 ^ n) by (rewrite (nodeAt_start k l) by (done || lia); unfold l; f_equal; [lia|f_equal; lia]).
  unfold treeNode, nodeEnd. rewrite El, Hs. split; [split; [exact Hq|lia]|]. split; [done|]. split; [|done]. do 2 f_equal. unfold l. lia.
Qed.

Lemma node_unique p q : treeNode p -> treeNode q -> nodeStart k p = nodeStart k q -> nodeLevel p = nodeLevel q -> p = q.
Proof using.
  intros [Hp Hlp] [Hq Hlq] E El. rewrite <- (encode_nodeStart k (nodeLevel p) p Hp Hlp), <- (encode_nodeStart k (nodeLevel q) q Hq Hlq).
  by rewrite E, El.
Qed.

End Ranges.

(** ** Nodes of a linked octree *)

Section Tree.
Context (k : KeyType) (t : otree).
Hypothesis Hdepth : depthLe (maxTreeLevel k) t.

Lemma key_treeNode q : q ∈ allKeys 1 t -> treeNode k q.
Proof using Hdepth. intros Hq. by apply (allKeys_node k t). Qed.

(** The subtree at a node of the tree: its leaves are the leaves below the node. *)
Lemma subtree_at p u q : 1 <= p -> q ∈ allKeys p u ->
  exists v, (height v <= height u)%nat /\ (forall x, x ∈ innerKeys q v -> x ∈ innerKeys p u) /\
    forall x, x ∈ leafKeys q v <-> x ∈ leafKeys p u /\ below q x.
Proof using.
  revert p. induction u as [|f IH]; intros p Hp Hq.
  { apply list_elem_of_singleton in Hq as ->. exists OLeaf. split; [done|]. split; [done|]. intros x. split; [|by intros [? _]].
    intros Hx. split; [done|]. by apply (leafKeys_below p OLeaf). }
  apply allKeys_elem in Hq as [->|(c & Hc & Hq)].
  { exists (ONode f). split; [done|]. split; [done|]. intros x. split; [|by intros [? _]]. intros Hx. split; [done|]. by eapply leafKeys_below. }
  destruct (IH c (8 * p + c) ltac:(lia) Hq) as (v & Hv & Hin & Hl). exists v. split; [pose proof (height_child f c Hc); lia|].
  split; [intros x Hx; apply innerKeys_elem; right; exists c; auto|]. intros x. rewrite Hl, leafKeys_elem. split.
  - intros [Hx Hb]. split; [by exists c|done].
  - intros [(c' & Hc' & Hx) Hb]. assert (c' = c) as ->; [|done]. apply (below_disjoint p c' c x Hp Hc' Hc); [by eapply leafKeys_below|].
    eapply below_trans; [by eapply allKeys_below|done].
Qed.

Lemma subtree_of_node q : q ∈ allKeys 1 t ->
  exists v, subtreeOf t q v /\ (height v <= height t)%nat /\ forall x, x ∈ leafKeys q v <-> x ∈ leafKeys 1 t /\ below q x.
Proof using.
  intros Hq. destruct (subtree_at 1 t q ltac:(lia) Hq) as (v & Hv & Hin & Hl). exists v. split; [|done].
  split; apply Forall_forall; intros x Hx; [by apply Hl|by apply Hin].
Qed.

(** A node that starts in the range of a node of a lower or equal level is below it. *)
Lemma below_of_range q x : treeNode k q -> treeNode k x -> nodeLevel q <= nodeLevel x -> nodeStart k q <= nodeStart k x < nodeEnd k q -> below q x.
Proof using.
  intros [Hq Hlq] [Hx Hlx] Hl. unfold nodeEnd. rewrite (nodeAt_start k _ _ Hq Hlq), (nodeAt_start k _ _ Hx Hlx).
  destruct Hq as [Hq0 Hq], Hx as [Hx0 Hx]. set (lq := nodeLevel q) in *. set (lx := nodeLevel x) in *. intros Hr.
  exists (lx - lq). split; [lia|]. pose proof (pow8_pos (maxTreeLevel k - lx) ltac:(lia)). pose proof (pow8_pos (lx - lq) ltac:(lia)).
  assert (E1 : 8 ^ (maxTreeLevel k - lq) = 8 ^ (lx - lq) * 8 ^ (maxTreeLevel k - lx)) by (rewrite <- Z.pow_add_r by lia; f_equal; lia).
  assert (E2 : 8 ^ lx = 8 ^ lq * 8 ^ (lx - lq)) by (rewrite <- Z.pow_add_r by lia; f_equal; lia). rewrite E1 in Hr. nia.
Qed.

(** The leaves below a node are those that start in its range. *)
Lemma leaf_below_iff q x : q ∈ allKeys 1 t -> x ∈ leafKeys 1 t -> below q x <-> nodeStart k q <= nodeStart k x < nodeEnd k q.
Proof using Hdepth.
  intros Hq Hx. assert (Hxk : x ∈ allKeys 1 t) by (apply elem_of_app; by right).
  pose proof (key_treeNode q Hq) as Hqn. pose proof (key_treeNode x Hxk) as Hxn. pose proof (node_range k x Hxn) as (_ & _ & Hlt & Hd). split; intros H.
  - destruct (below_range k _ q x (proj1 Hqn) H (proj2 Hxn)) as (_ & _ & H1 & H2). unfold nodeEnd in *. lia.
  - destruct (Z.le_gt_cases (nodeLevel q) (nodeLevel x)) as [Hl|Hl]; [by apply below_of_range|].
    pose proof (node_range k q Hqn) as (_ & _ & _ & Hdq). destruct Hqn as [Hqn Hlq], Hxn as [Hxn Hlx]. pose proof Hxn as [Hx0 _].
    assert (nodeStart k x = nodeStart k q) as E.
    { assert ((8 ^ (maxTreeLevel k - nodeLevel q) | nodeStart k x)) as [c Ec] by (etrans; [|exact Hd]; apply pow8_divide; lia).
      destruct Hdq as [d Ed]. unfold nodeEnd in H. rewrite Ec, Ed in *. pose proof (pow8_pos (maxTreeLevel k - nodeLevel q) ltac:(lia)). f_equal. nia. }
    assert (below x q) as Hb by (apply below_of_range; [done|done|lia|lia]).
    rewrite (leaf_below_unique 1 t x q ltac:(lia) Hq Hx Hb). apply below_refl.
Qed.

(** Leaf boundaries are not inside of leaves. *)
Lemma boundary_outside x q : x ∈ leafArray k t -> q ∈ leafKeys 1 t -> x <= nodeStart k q \/ nodeEnd k q <= x.
Proof using Hdepth.
  intros Hx Hq. destruct (Z.le_gt_cases x (nodeStart k q)); [by left|right]. destruct (Z.le_gt_cases (nodeEnd k q) x); [done|].
  exfalso. revert Hx. apply (inside_not_leaf k t Hdepth q); [done|]. unfold nodeEnd in *. lia.
Qed.

(** A leaf that meets a range between leaf boundaries is inside of it. *)
Lemma leaf_inside a b q x : a ∈ leafArray k t -> b ∈ leafArray k t -> q ∈ leafKeys 1 t ->
  a <= x < b -> nodeStart k q <= x < nodeEnd k q -> a <= nodeStart k q /\ nodeEnd k q <= b.
Proof using Hdepth. intros Ha Hb Hq Hx Hq'. destruct (boundary_outside a q Ha Hq), (boundary_outside b q Hb Hq); lia. Qed.

Section Linked.
Context (o : OctreeArrays).
Hypothesis Ho : linked k t o.

(** Nodes inside of a range between leaf boundaries whose parent is not inside are nodes of
    the tree. *)
Lemma spanNode_tree lo hi a b :
  lo ∈ leafArray k t -> hi ∈ leafArray k t -> spanNode k lo hi a b -> lo <= a -> b <= hi ->
  exists q, q ∈ allKeys 1 t /\ nodeStart k q = a /\ nodeEnd k q = b.
Proof using Hdepth Ho.
  intros Hlo Hhi (n & Hn & Ha & Hd & -> & Hk & Hpar) Hla Hbh. pose proof (pow8_pos n ltac:(lia)).
  destruct (node_of_range k a n Hn Ha Hd Hk) as (q & Hq & Es & Ee & El). exists q. split; [|by rewrite Ee].
  destruct (containingNode_correct k t o Hdepth Ho q (proj1 Hq) (proj2 Hq)) as (i & p & _ & Hp & Hb & [->|Hl]).
  { by apply (prefixes_node k t o Hdepth Ho i). }
  destruct (prefixes_node k t o Hdepth Ho i p Hp) as (Hpk & Hpn). destruct (decide (p = q)) as [->|Hne]; [done|exfalso].
  destruct (below_range k _ p q (proj1 Hpn) Hb (proj2 Hq)) as (_ & Hlev & H1 & H2). fold (nodeEnd k p) in H2. fold (nodeEnd k q) in H2.
  rewrite Es, Ee in *. destruct (leaf_inside lo hi p a Hlo Hhi Hl) as [H3 H4]; [lia|lia|].
  pose proof (node_range k p Hpn) as (Hp0 & HpE & _ & Hpd). set (lp := nodeLevel p) in *.
  assert (lp < maxTreeLevel k - n) as Hlt.
  { destruct (Z.lt_ge_cases lp (maxTreeLevel k - n)) as [|Hge]; [done|]. assert (lp = nodeLevel q) as E by lia. destruct Hne.
    apply (below_same_level lp); [apply Hpn|rewrite E; apply Hq|done]. }
  unfold nodeEnd in *. fold lp in H2, H4, HpE. set (D := 8 ^ (n + 1)) in *. set (Dp := 8 ^ (maxTreeLevel k - lp)) in *.
  assert (HD : 0 < D) by (apply pow8_pos; lia). assert ((D | Dp)) as HDp by (apply pow8_divide; lia).
  assert ((D | nodeStart k p)) as [cp Ecp] by (by etrans). destruct HDp as [cD EcD].
  pose proof (Z.mul_div_le a D HD). pose proof (Z.mul_succ_div_gt a D HD). 
  assert (cp <= a / D) by (apply Z.div_le_lower_bound; lia). assert (a / D < cp + cD) by (apply Z.div_lt_upper_bound; nia). nia.
Qed.

(** A node that is bounded by leaf boundaries is a node of the tree. *)
Lemma boundedNode_tree a b : a ∈ leafArray k t -> b ∈ leafArray k t -> isNode k a b -> exists q, q ∈ allKeys 1 t /\ nodeStart k q = a /\ nodeEnd k q = b.
Proof using Hdepth Ho.
  intros Ha Hb (n & Hn & H0 & Hd & Eb & Hk). apply (spanNode_tree a b a b Ha Hb); [|lia|lia]. exists n. split; [done|]. split; [done|]. split; [done|]. split; [done|]. split; [done|].
  destruct (Z.lt_ge_cases (a / 8 ^ (n + 1) * 8 ^ (n + 1)) a) as [|Hge]; [by left|right]. rewrite Eb. pose proof (pow8_pos n ltac:(lia)). rewrite !pow8_succ in * by lia. lia.
Qed.

(** [locateNode] finds the nodes of the tree. *)
Lemma locateNodeKeys_correct q : q ∈ allKeys 1 t ->
  locateNodeKeys k (nodeStart k q) (nodeEnd k q) (prefixes o) (levelRange o) = Some (pos o q).
Proof using Hdepth Ho.
  intros Hq. pose proof (key_treeNode q Hq) as Hn. pose proof Hn as [(Hl0 & Hqr) Hl]. set (l := nodeLevel q) in *. kfacts k.
  pose proof (pow8_pos (maxTreeLevel k - l) ltac:(lia)). pose proof (pow8_le_keyMax k (maxTreeLevel k - l) ltac:(lia)).
  unfold locateNodeKeys. unfold nodeEnd. fold l. replace (nodeStart k q + 8 ^ (maxTreeLevel k - l) - nodeStart k q - 1) with (8 ^ (maxTreeLevel k - l) - 1) by lia.
  rewrite kwrap_small, countLeadingZeros_pow8_pred, u32_small by lia.
  replace (keyBits k - 3 * (maxTreeLevel k - l) - unusedBits k) with (3 * l) by lia. rewrite (encode_nodeStart k l q) by (done || lia).
  unfold locateNode. rewrite (nodeAt_decode k l q) by (done || lia). rewrite (Z.mul_comm 3 l), Z.div_mul by lia.
  rewrite !(lk_levels _ _ _ Ho) by lia. pose proof (lk_sorted _ _ _ Ho) as Hs.
  pose proof (count_lt_range (8 ^ (l + 1)) (prefixes o)). pose proof (count_lt_range (8 ^ l) (prefixes o)). pose proof (pow8_succ l Hl0).
  assert (Hlt : pos o q < count_lt (8 ^ (l + 1)) (prefixes o)) by (eapply count_lt_gt; [done|by apply (node_pos k t o Ho)|lia]).
  rewrite (lower_bound_within (prefixes o) Hs); [|lia|lia|].
  2: { unfold pos in Hlt. split; [apply count_lt_mono; lia|lia]. }
  fold (pos o q). pose proof (count_lt_mono (8 ^ (l + 1)) (8 ^ (maxTreeLevel k + 1)) (prefixes o) ltac:(apply pow8_mono; lia)).
  destruct (Z.eqb_spec (pos o q) (count_lt (8 ^ (maxTreeLevel k + 1)) (prefixes o))); [lia|].
  by rewrite (node_pos k t o Ho q Hq), Z.eqb_refl.
Qed.

End Linked.
End Tree.

(** ** Chains *)

Lemma chain_of_bounds N a l b : (forall x y, N x y -> x < y) -> chain_of N a l b -> a <= b /\ Forall (fun x => a <= x < b) l.
Proof.
  intros HN. induction 1 as [|a b l c HN' _ [IH1 IH2]]; [split; [lia|constructor]|]. specialize (HN a b HN'). split; [lia|].
  constructor; [lia|]. eapply Forall_impl; [exact IH2|]. simpl. lia.
Qed.

Lemma chain_of_get N a l b i : (forall x y, N x y -> x < y) -> chain_of N a l b -> 0 <= i < zlen l ->
  exists x y, (l ++ [b]).[i] = Some x /\ (l ++ [b]).[i + 1] = Some y /\ N x y /\ a <= x /\ y <= b.
Proof.
  intros HN Hc. revert i. induction Hc as [|a b l c HN' Hc IH]; intros i Hi; [change (zlen (@nil Z)) with 0 in Hi; lia|].
  rewrite zlen_cons in Hi. pose proof (HN a b HN'). pose proof (chain_of_bounds N b l c HN Hc) as [Hle _]. pose proof (zlen_nonneg l).
  destruct (decide (i = 0)) as [->|].
  - exists a, b. cbn [app]. split; [done|]. rewrite aget_cons_S by lia. split; [|split; [done|lia]].
    inversion Hc; subst; done.
  - destruct (IH (i - 1) ltac:(lia)) as (x & y & H1 & H2 & H3 & H4 & H5). exists x, y. cbn [app]. rewrite !aget_cons_S by lia.
    rewrite H1. replace (i + 1 - 1) with (i - 1 + 1) by lia. rewrite H2. repeat split; (done || lia).
Qed.
