(* ===== verification/Macs.v ===== *)
(** * Acceptance criteria, collisions and peers

    [cstone/traversal/macs.hpp], [cstone/traversal/collisions.hpp] and
    [cstone/traversal/peers.hpp]: multipole acceptance criteria, the marking of halo nodes and
    of nodes that fail the criterion, and the discovery of peer ranks. *)

From S2P Require Import Prelude Primitives SfcCommon Csarray CsInvariant SfcBox Morton Hilbert Sfc Octree IndexRanges DomainDecomp Scalars BoxOverlap FloatBox Traversal.

Section Macs.
Context {T : Type} `{!Scalar T}.
#[local] Open Scope scalar_scope.

(** ** Criteria *)

Definition invThetaMinMac (theta : T) : T := s_ofZ 1 / theta + s_ratio 1 2.

(** A center and a squared radius. *)
Local Abbreviation Vec4 := (Vec3 T * T)%type.

Definition computeMinMacR2 (s : SfcKind) (k : KeyType) (prefix : Z) (invThetaEff : T) (box : Box T) : Vec4 :=
  let nodeKey := decodePlaceholderBit k prefix in
  let prefixLength := decodePrefixLength k prefix in
  let cellBox := sfcIBox s k nodeKey (Z.quot prefixLength 3) in
  let '(geoCenter, geoSize) := centerAndSize k cellBox box in
  let l := s_ofZ 2 * vmax geoSize in
  let mac := l * invThetaEff in
  (geoCenter, mac * mac).

Definition evaluateMac (sourceCenter : Vec3 T) (macSq : T) (targetCenter targetSize : Vec3 T) : bool :=
  let R2 := norm2 (positivePart (vsub (vabs (vsub targetCenter sourceCenter)) targetSize)) in
  R2 <? s_abs macSq.

Definition evaluateMacPbc (sourceCenter : Vec3 T) (macSq : T) (targetCenter targetSize : Vec3 T) (box : Box T) : bool :=
  let R2 := norm2 (positivePart (vsub (vabs (applyPbc (vsub targetCenter sourceCenter) box)) targetSize)) in
  R2 <? s_abs macSq.

(** Largest edge of two boxes. *)
Definition maxEdge (a b : IBox) : Z :=
  Z.max (xmax a - xmin a) (Z.max (ymax a - ymin a) (Z.max (zmax a - zmin a)
    (Z.max (xmax b - xmin b) (Z.max (ymax b - ymin b) (zmax b - zmin b))))).

Definition minMacMutualInt (a b : IBox) (ellipse : Vec3 T) (pbc : Z * Z * Z) : bool :=
  let l_max := s_ofZ (maxEdge a b) in
  let '(dx, dy, dz) := boxSeparation a b pbc in
  let E := mkVec3 (s_ofZ dx / vx ellipse) (s_ofZ dy / vy ellipse) (s_ofZ dz / vz ellipse) in
  l_max * l_max <? norm2 E.

(** ** Marking *)

Definition checkAndMarkMac (k : KeyType) (targetCenter targetSize : Vec3 T) (maxSourceLevel : Z) (prefixes : list Z)
    (centers : list Vec4) (box : Box T) (focusStart focusEnd : Z) (idx : Z) (markings : list Z) : option (bool * list Z) :=
  let? nodePrefix := prefixes.[idx] in
  let sourceLevel := (decodePrefixLength k nodePrefix / 3)%Z in
  let nodeStart := decodePlaceholderBit k nodePrefix in
  let nodeEnd := kwrap k (nodeStart + nodeRange k sourceLevel)%Z in
  if containedInKeys nodeStart nodeEnd focusStart focusEnd then Some (false, markings)
  else
    let? center := centers.[idx] in
    let violatesMac := evaluateMacPbc (fst center) (snd center) targetCenter targetSize box && (sourceLevel <=? maxSourceLevel)%Z in
    let? markings := if violatesMac then (let? m := markings.[idx] in if (m =? 0)%Z then aset markings idx 1%Z else Some markings) else Some markings in
    Some (violatesMac, markings).

Definition markMacPerBox (k : KeyType) (targetCenter targetSize : Vec3 T) (maxSourceLevel : Z) (prefixes childOffsets parents : list Z)
    (centers : list Vec4) (box : Box T) (focusStart focusEnd : Z) (markings : list Z) : option (list Z) :=
  singleTraversal (checkAndMarkMac k targetCenter targetSize maxSourceLevel prefixes centers box focusStart focusEnd)
    (fun _ s => Some s) childOffsets parents markings.

(** The iteration of [markMacs] for focus node [i]. *)
Definition markMacsBody (s : SfcKind) (k : KeyType) (prefixes childOffsets parents : list Z) (centers : list Vec4) (box : Box T)
    (focusNodes : list Z) (focusStart focusEnd : Z) (limitSource : bool) (i : Z) (markings : list Z) : option (list Z) :=
  let? first := focusNodes.[i] in
  let? last := focusNodes.[(i + 1)%Z] in
  let target := sfcIBoxKeys s k first last in
  let targetExt := (mkIBox (xmin target - 1) (xmax target + 1) (ymin target - 1) (ymax target + 1) (zmin target - 1) (zmax target + 1))%Z in
  if containedInBox s k focusStart focusEnd targetExt then Some markings
  else
    let '(targetCenter, targetSize) := centerAndSize k target box in
    let maxLevel := if limitSource : bool then Z.max (treeLevel k (kwrap k (last - first)) - 1) 0 else maxTreeLevel k in
    markMacPerBox k targetCenter targetSize maxLevel prefixes childOffsets parents centers box focusStart focusEnd markings.

(** The parallel loop in the execution order [order]. *)
Definition markMacsIn (order : list Z) (s : SfcKind) (k : KeyType) (prefixes childOffsets parents : list Z) (centers : list Vec4) (box : Box T)
    (focusNodes : list Z) (numFocusNodes : Z) (limitSource : bool) (markings : list Z) : option (list Z) :=
  let? focusStart := focusNodes.[0] in
  let? focusEnd := focusNodes.[numFocusNodes] in
  foldM (markMacsBody s k prefixes childOffsets parents centers box focusNodes focusStart focusEnd limitSource) order markings.

Definition markMacs (s : SfcKind) (k : KeyType) (prefixes childOffsets parents : list Z) (centers : list Vec4) (box : Box T)
    (focusNodes : list Z) (numFocusNodes : Z) (limitSource : bool) (markings : list Z) : option (list Z) :=
  markMacsIn (seqZ 0 numFocusNodes) s k prefixes childOffsets parents centers box focusNodes numFocusNodes limitSource markings.

(** ** Halos *)

(** The lambda [overlaps] of [findCollisions]. *)
Definition overlapsMark (k : KeyType) (nodePrefixes : list Z) (nodeCenters nodeSizes : list (Vec3 T)) (targetCenter targetSize : Vec3 T)
    (box : Box T) (excludeStart excludeEnd : Z) (idx : Z) (flags : list Z) : option (bool * list Z) :=
  let? prefix := nodePrefixes.[idx] in
  let '(nk1, nk2) := decodePlaceholderBit2K k prefix in
  let? bOverlap :=
    (if containedInKeys nk1 nk2 excludeStart excludeEnd then Some false
     else
       let? c := nodeCenters.[idx] in
       let? sz := nodeSizes.[idx] in
       Some (overlapCoords c sz targetCenter targetSize box)) in
  let? flags := if bOverlap : bool then aset flags idx 1%Z else Some flags in
  Some (bOverlap, flags).

Definition findCollisions (k : KeyType) (nodePrefixes childOffsets parents : list Z) (nodeCenters nodeSizes : list (Vec3 T))
    (targetCenter targetSize : Vec3 T) (box : Box T) (excludeStart excludeEnd : Z) (flags : list Z) : option (list Z) :=
  singleTraversal (overlapsMark k nodePrefixes nodeCenters nodeSizes targetCenter targetSize box excludeStart excludeEnd)
    (fun _ s => Some s) childOffsets parents flags.

Definition findHalosBody (s : SfcKind) (k : KeyType) (prefixes childOffsets parents : list Z) (nodeCenters nodeSizes : list (Vec3 T))
    (searchCenters searchSizes : list (Vec3 T)) (box : Box T) (lowestKey highestKey : Z) (leafIdx : Z) (collisionFlags : list Z) : option (list Z) :=
  let? c := searchCenters.[leafIdx] in
  let? sz := searchSizes.[leafIdx] in
  let? inside := containedInCoords s k lowestKey highestKey c sz box in
  if inside : bool then Some collisionFlags
  else findCollisions k prefixes childOffsets parents nodeCenters nodeSizes c sz box lowestKey highestKey collisionFlags.

Definition findHalosIn (order : list Z) (s : SfcKind) (k : KeyType) (prefixes childOffsets parents : list Z) (nodeCenters nodeSizes : list (Vec3 T))
    (leaves : list Z) (searchCenters searchSizes : list (Vec3 T)) (box : Box T) (firstNode lastNode : Z) (collisionFlags : list Z) : option (list Z) :=
  let? lowestKey := leaves.[firstNode] in
  let? highestKey := leaves.[lastNode] in
  foldM (findHalosBody s k prefixes childOffsets parents nodeCenters nodeSizes searchCenters searchSizes box lowestKey highestKey) order collisionFlags.

Definition findHalos (s : SfcKind) (k : KeyType) (prefixes childOffsets parents : list Z) (nodeCenters nodeSizes : list (Vec3 T))
    (leaves : list Z) (searchCenters searchSizes : list (Vec3 T)) (box : Box T) (firstNode lastNode : Z) (collisionFlags : list Z) : option (list Z) :=
  findHalosIn (seqZ firstNode (lastNode - firstNode)) s k prefixes childOffsets parents nodeCenters nodeSizes leaves searchCenters searchSizes box
    firstNode lastNode collisionFlags.

(** ** Peers *)

(** Grid periodicity. *)
Definition pbcGrid (k : KeyType) (box : Box T) : Z * Z * Z :=
  let maxCoord := u32 (Z.shiftl 1 (maxTreeLevel k)) in
  (Z.b2z (isPeriodic (boundaryX box)) * maxCoord, Z.b2z (isPeriodic (boundaryY box)) * maxCoord, Z.b2z (isPeriodic (boundaryZ box)) * maxCoord)%Z.

(** [roundOff] is the single precision number nearest to [1 + 1e-6], which is [1 + 2^-20]. *)
Definition peerEllipse (box : Box T) (invThetaEff : T) : Vec3 T :=
  let roundOff := s_ratio 1048577 1048576 in
  vscale (vscale (vscale (mkVec3 (ilx box) (ily box) (ilz box)) (Box_maxExtent box)) invThetaEff) roundOff.

Definition peerEllipseStt (box : Box T) (invThetaEff : T) : Vec3 T :=
  vscale (vscale (mkVec3 (ilx box) (ily box) (ilz box)) (Box_maxExtent box)) invThetaEff.

(** The lambda [crossFocusPairs] on the prefixes of two nodes. *)
Definition crossFocusKeys (s : SfcKind) (k : KeyType) (domainStart domainEnd : Z) (ellipse : Vec3 T) (pbc : Z * Z * Z) (pa pb : Z) : bool :=
  let '(ka1, ka2) := decodePlaceholderBit2K k pa in
  let '(kb1, kb2) := decodePlaceholderBit2K k pb in
  let aFocusOverlap := overlapTwoRanges domainStart domainEnd ka1 ka2 in
  let bInFocus := containedInKeys kb1 kb2 domainStart domainEnd in
  if negb aFocusOverlap || bInFocus then false
  else
    let aBox := sfcIBox s k ka1 (treeLevel k (kwrap k (ka2 - ka1))) in
    let bBox := sfcIBox s k kb1 (treeLevel k (kwrap k (kb2 - kb1))) in
    negb (minMacMutualInt aBox bBox ellipse pbc).

Definition crossFocusPairs (s : SfcKind) (k : KeyType) (domainStart domainEnd : Z) (ellipse : Vec3 T) (pbc : Z * Z * Z) (prefixes : list Z)
    (a b : Z) : option bool :=
  let? pa := prefixes.[a] in
  let? pb := prefixes.[b] in
  Some (crossFocusKeys s k domainStart domainEnd ellipse pbc pa pb).

(** The lambda [p2p]. *)
Definition markPeer (k : KeyType) (assignment : SfcAssignment) (prefixes : list Z) (_ b : Z) (peerRanks : list Z) : option (list Z) :=
  let? prefix := prefixes.[b] in
  let? peerRank := findRank assignment (decodePlaceholderBit k prefix) in
  let? m := peerRanks.[peerRank] in
  if (m =? 0)%Z then aset peerRanks peerRank 1%Z else Some peerRanks.

(** Indices of the non-zero elements. *)
Definition flagged (flags : list Z) : list Z := filter (fun i => nthz flags i <> 0%Z) (seqZ 0 (zlen flags)).

(** The iteration for spanning node [i]. *)
Definition findPeersBody (fuel : nat) (s : SfcKind) (k : KeyType) (assignment : SfcAssignment) (domainTree : OctreeArrays)
    (domainStart domainEnd : Z) (ellipse : Vec3 T) (pbc : Z * Z * Z) (spanningNodeKeys : list Z) (i : Z) (peerRanks : list Z) : option (list Z) :=
  let? a := spanningNodeKeys.[i] in
  let? b := spanningNodeKeys.[(i + 1)%Z] in
  let? nodeIdx := locateNodeKeys k a b (prefixes domainTree) (levelRange domainTree) in
  dualTraversal (crossFocusPairs s k domainStart domainEnd ellipse pbc (prefixes domainTree)) (fun _ _ st => Some st)
    (markPeer k assignment (prefixes domainTree)) (childOffsets domainTree) fuel nodeIdx 0 peerRanks.

(** [fuel] bounds the iterations of every traversal. *)
Definition findPeersMac (fuel : nat) (s : SfcKind) (k : KeyType) (myRank : Z) (assignment : SfcAssignment) (domainTree : OctreeArrays) (box : Box T)
    (invThetaEff : T) : option (list Z) :=
  let? domainStart := (rankBoundaries_ assignment).[myRank] in
  let? domainEnd := (rankBoundaries_ assignment).[(myRank + 1)%Z] in
  let? (_, nodes) := spanSfcRange k domainStart domainEnd in
  let spanningNodeKeys := nodes ++ [domainEnd] in
  let? peerRanks := for_loop 0 (zlen spanningNodeKeys - 1)
    (findPeersBody fuel s k assignment domainTree domainStart domainEnd (peerEllipse box invThetaEff) (pbcGrid k box) spanningNodeKeys)
    (replicate (Z.to_nat (assignmentRanks assignment)) 0%Z) in
  Some (flagged peerRanks).

(** The lambda [violatesMac] of the single traversal. *)
Definition violatesMac (s : SfcKind) (k : KeyType) (domainStart domainEnd : Z) (ellipse : Vec3 T) (pbc : Z * Z * Z) (prefixes : list Z) (target : IBox)
    (idx : Z) (peers : list Z) : option (bool * list Z) :=
  let? prefix := prefixes.[idx] in
  let '(nodeStart, nodeEnd) := decodePlaceholderBit2K k prefix in
  if containedInKeys nodeStart nodeEnd domainStart domainEnd then Some (false, peers)
  else
    let source := sfcIBox s k nodeStart (treeLevel k (kwrap k (nodeEnd - nodeStart))) in
    Some (negb (minMacMutualInt target source ellipse pbc), peers).

(** The lambda [markLeafIdx]. *)
Definition markLeafIdx (k : KeyType) (assignment : SfcAssignment) (prefixes : list Z) (idx : Z) (peers : list Z) : option (list Z) :=
  let? prefix := prefixes.[idx] in
  let? peerRank := findRank assignment (decodePlaceholderBit k prefix) in
  aset peers peerRank 1%Z.

Definition findPeersSttBody (s : SfcKind) (k : KeyType) (assignment : SfcAssignment) (octree : OctreeArrays) (leaves : list Z)
    (domainStart domainEnd : Z) (ellipse : Vec3 T) (pbc : Z * Z * Z) (i : Z) (peers : list Z) : option (list Z) :=
  let? a := leaves.[i] in
  let? b := leaves.[(i + 1)%Z] in
  singleTraversal (violatesMac s k domainStart domainEnd ellipse pbc (prefixes octree) (sfcIBoxKeys s k a b))
    (markLeafIdx k assignment (prefixes octree)) (childOffsets octree) (parents octree) peers.

Definition findPeersMacStt (s : SfcKind) (k : KeyType) (myRank : Z) (assignment : SfcAssignment) (octree : OctreeArrays) (leaves : list Z) (box : Box T)
    (invThetaEff : T) : option (list Z) :=
  let? domainStart := (rankBoundaries_ assignment).[myRank] in
  let? domainEnd := (rankBoundaries_ assignment).[(myRank + 1)%Z] in
  let? firstLeaf := findNodeAbove leaves (nNodes leaves) domainStart in
  let? lastLeaf := findNodeAbove leaves (nNodes leaves) domainEnd in
  let? peers := for_loop firstLeaf lastLeaf
    (findPeersSttBody s k assignment octree leaves domainStart domainEnd (peerEllipseStt box invThetaEff) (pbcGrid k box))
    (replicate (Z.to_nat (assignmentRanks assignment)) 0%Z) in
  Some (flagged peers).

End Macs.
