(* ===== verification/SourceCenter.v ===== *)
(** * Geometric and mass centers

    [cstone/focus/source_center.hpp]: geometric centers and sizes of the nodes, acceptance
    radii, bounding boxes of particles, and mass centers of leaves and internal nodes.  With
    rational numbers, [computeLeafMassCenter] followed by the bottom-up sweep with
    [CombineSourceCenter] gives every node of the tree the total absolute mass and the center
    of mass of the particles of its leaves. *)

From Stdlib Require Import QArith Qabs Lqa.
From S2P Require Import Prelude Primitives SfcCommon Csarray CsInvariant CsRebalance CsCounts SfcBox Morton Hilbert Sfc Octree OctreeNodes OctreeBuild OctreeQueries Scalars FloatBox Traversal NodeLookup Macs.
#[local] Open Scope Z_scope.

Section SourceCenter.
Context {T : Type} `{!Scalar T}.
#[local] Open Scope scalar_scope.

(** Three coordinates and a mass or a squared radius. *)
Local Abbreviation SourceCenterType := (Vec3 T * T)%type.

(** ** Bounding boxes of particles *)

Definition boundingBoxStep (x y z h : list T) (scale : T) (i : Z) (acc : Vec3 T * Vec3 T) : option (Vec3 T * Vec3 T) :=
  let '(commonMin, commonMax) := acc in
  let? hi := h.[i] in
  let? xi := x.[i] in
  let? yi := y.[i] in
  let? zi := z.[i] in
  let r := hi * scale in
  Some (vmin2 commonMin (mkVec3 (xi - r) (yi - r) (zi - r)), vmax2 commonMax (mkVec3 (xi + r) (yi + r) (zi + r))).

Definition computeBoundingBox (x y z h : list T) (first last : Z) (scale : T) (init : Vec3 T) : option (Vec3 T * Vec3 T) :=
  let? (commonMin, commonMax) := for_loop first last (boundingBoxStep x y z h scale) (init, init) in
  let center := vscale (vadd commonMax commonMin) (s_ratio 1 2) in
  let size := vscale (vsub commonMax commonMin) (s_ratio 1 2) in
  Some (center, size).

(** ** Mass centers *)

Definition addBody (center source : SourceCenterType) : SourceCenterType :=
  let '(c, m) := center in
  let '(p, pm) := source in
  let weight := s_abs pm in
  (mkVec3 (vx c + weight * vx p) (vy c + weight * vy p) (vz c + weight * vz p), m + weight).

(** [a != b] on numbers. *)
Definition s_neqb (a b : T) : bool := negb ((a <=? b) && (b <=? a)).

Definition normalizeMass (center : SourceCenterType) : SourceCenterType :=
  let '(c, m) := center in
  let invM := if s_neqb m (s_ofZ 0) then s_ofZ 1 / m else s_ofZ 1 in
  (mkVec3 (vx c * invM) (vy c * invM) (vz c * invM), m).

Definition noBody : SourceCenterType := (mkVec3 (s_ofZ 0) (s_ofZ 0) (s_ofZ 0), s_ofZ 0).

(** The particles [first .. last - 1] as bodies. *)
Definition bodyAt (x y z m : list T) (i : Z) : option SourceCenterType :=
  let? xi := x.[i] in
  let? yi := y.[i] in
  let? zi := z.[i] in
  let? mi := m.[i] in
  Some (mkVec3 xi yi zi, mi).

Definition massCenter (x y z m : list T) (first last : Z) : option SourceCenterType :=
  let? center := for_loop first last (fun i center => let? body := bodyAt x y z m i in Some (addBody center body)) noBody in
  Some (normalizeMass center).

Definition CombineSourceCenter (_ child : Z) (centers : list SourceCenterType) : option SourceCenterType :=
  let? center := for_loop child (child + 8)%Z (fun i center => let? c := centers.[i] in Some (addBody center c)) noBody in
  Some (normalizeMass center).

(** The iteration for leaf [leafIdx]. *)
Definition leafMassCenterBody (x y z m : list T) (leafToInternal layout : list Z) (leafIdx : Z) (sourceCenter : list SourceCenterType) : option (list SourceCenterType) :=
  let? i := leafToInternal.[leafIdx] in
  let? first := layout.[leafIdx] in
  let? last := layout.[(leafIdx + 1)%Z] in
  let? c := massCenter x y z m first last in
  aset sourceCenter i c.

Definition computeLeafMassCenter (x y z m : list T) (leafToInternal layout : list Z) (sourceCenter : list SourceCenterType) : option (list SourceCenterType) :=
  for_loop 0 (zlen leafToInternal) (leafMassCenterBody x y z m leafToInternal layout) sourceCenter.

(** ** Node geometry *)

Definition nodeFpCentersBody (s : SfcKind) (k : KeyType) (prefixes : list Z) (box : Box T) (i : Z) (st : list (Vec3 T) * list (Vec3 T)) :
    option (list (Vec3 T) * list (Vec3 T)) :=
  let '(centers, sizes) := st in
  let? prefix := prefixes.[i] in
  let startKey := decodePlaceholderBit k prefix in
  let level := (decodePrefixLength k prefix / 3)%Z in
  let nodeBox := sfcIBox s k startKey level in
  let '(center, size) := centerAndSize k nodeBox box in
  let? centers := aset centers i center in
  let? sizes := aset sizes i size in
  Some (centers, sizes).

Definition nodeFpCenters (s : SfcKind) (k : KeyType) (prefixes : list Z) (box : Box T) (centers sizes : list (Vec3 T)) : option (list (Vec3 T) * list (Vec3 T)) :=
  for_loop 0 (zlen prefixes) (nodeFpCentersBody s k prefixes box) (centers, sizes).

Definition geoMacSpheres (s : SfcKind) (k : KeyType) (prefixes : list Z) (invTheta : T) (box : Box T) (centers : list SourceCenterType) : option (list SourceCenterType) :=
  for_loop 0 (zlen prefixes) (fun i centers => let? prefix := prefixes.[i] in aset centers i (computeMinMacR2 s k prefix invTheta box)) centers.

(** ** Vector acceptance radii *)

Section Sqrt.
Context (sqrt : T -> T).

(** [1 / theta + sqrt(3) / 2]. *)
Definition invThetaMinToVec (theta : T) : T := s_ofZ 1 / theta + sqrt (s_ofZ 3) / s_ofZ 2.

Definition computeVecMacR2 (s : SfcKind) (k : KeyType) (prefix : Z) (expCenter : Vec3 T) (invTheta : T) (box : Box T) : T :=
  let nodeKey := decodePlaceholderBit k prefix in
  let prefixLength := decodePrefixLength k prefix in
  let cellBox := sfcIBox s k nodeKey (Z.quot prefixLength 3) in
  let '(geoCenter, geoSize) := centerAndSize k cellBox box in
  let dX := vsub expCenter geoCenter in
  let sep := sqrt (norm2 dX) in
  let l := s_ofZ 2 * vmax geoSize in
  let mac := l * invTheta + sep in
  mac * mac.

Definition setMac (s : SfcKind) (k : KeyType) (nodeKeys : list Z) (centers : list SourceCenterType) (invTheta : T) (box : Box T) : option (list SourceCenterType) :=
  for_loop 0 (zlen nodeKeys) (fun i centers =>
    let? center := centers.[i] in
    let? key := nodeKeys.[i] in
    let mac := computeVecMacR2 s k key (fst center) invTheta box in
    aset centers i (fst center, if s_neqb (snd center) (s_ofZ 0) then mac else s_ofZ 0)) centers.

End Sqrt.
End SourceCenter.

(** ** Mass centers in exact arithmetic *)

Abbreviation body := (Vec3 Q * Q)%type.

(** *** Weighted sums *)

(** Sum of [f] over bodies with their absolute masses as weights. *)
Fixpoint weighted (f : Vec3 Q -> Q) (bodies : list body) : Q :=
  match bodies with [] => 0%Q | b :: bodies => (Qabs b.2 * f b.1 + weighted f bodies)%Q end.
Definition totalMass (bodies : list body) : Q := weighted (fun _ => 1%Q) bodies.

Lemma weighted_app f l1 l2 : (weighted f (l1 ++ l2) == weighted f l1 + weighted f l2)%Q.
Proof. induction l1 as [|b l1 IH]; cbn [weighted app]; [ring|]. rewrite IH. ring. Qed.

#[export] Instance weighted_Permutation f : Proper ((≡ₚ) ==> Qeq) (weighted f).
Proof.
  intros l1 l2 H. induction H as [|b l1 l2 _ IH|b c l|l1 l2 l3 _ IH1 _ IH2]; cbn [weighted]; [reflexivity| | |by rewrite IH1, IH2].
  - by rewrite IH.
  - ring.
Qed.

Lemma totalMass_nonneg l : (0 <= totalMass l)%Q.
Proof.
  unfold totalMass. induction l as [|b l IH]; cbn [weighted]; [apply Qle_refl|].  pose proof (Qabs_nonneg b.2). lra.
Qed.

(** Without mass there are no weights. *)
Lemma weighted_massless f l : (totalMass l == 0)%Q -> (weighted f l == 0)%Q.
Proof.
  induction l as [|b l IH]; [reflexivity|]. unfold totalMass. cbn [weighted]. fold (totalMass l).
  pose proof (totalMass_nonneg l). pose proof (Qabs_nonneg b.2). intros H1. assert (E1 : (Qabs b.2 == 0)%Q) by lra. assert (E2 : (totalMass l == 0)%Q) by lra.
  rewrite E1, (IH E2). ring.
Qed.

(** [c] is the center and the mass of the bodies; the center is determined if the mass is
    not 0. *)
Definition isMassCenter (bodies : list body) (c : body) : Prop :=
  (c.2 == totalMass bodies)%Q /\ (vx c.1 * c.2 == weighted vx bodies)%Q /\ (vy c.1 * c.2 == weighted vy bodies)%Q /\ (vz c.1 * c.2 == weighted vz bodies)%Q.

(** The accumulated sums of the loops. *)
Definition sumsTo (bodies : list body) (c : body) : Prop :=
  (c.2 == totalMass bodies)%Q /\ (vx c.1 == weighted vx bodies)%Q /\ (vy c.1 == weighted vy bodies)%Q /\ (vz c.1 == weighted vz bodies)%Q.

#[export] Instance sumsTo_Permutation : Proper ((≡ₚ) ==> eq ==> iff) sumsTo.
Proof. intros l1 l2 H c ? <-. unfold sumsTo, totalMass. by rewrite H. Qed.

#[export] Instance isMassCenter_Permutation : Proper ((≡ₚ) ==> eq ==> iff) isMassCenter.
Proof. intros l1 l2 H c ? <-. unfold isMassCenter, totalMass. by rewrite H. Qed.

(** *** Accumulation *)

Lemma noBody_sums : sumsTo [] noBody.
Proof. repeat split; reflexivity. Qed.

(** Adding the center of some bodies adds the bodies. *)
Lemma addBody_sums bodies more acc c : sumsTo bodies acc -> isMassCenter more c -> sumsTo (bodies ++ more) (addBody acc c).
Proof.
  destruct acc as [p m], c as [q n]. unfold sumsTo, isMassCenter, totalMass. cbn [fst snd]. intros (Hm & Hx & Hy & Hz) (Hn & Kx & Ky & Kz).
  assert (Hpos : (0 <= n)%Q) by (rewrite Hn; apply totalMass_nonneg). unfold addBody. cbn [fst snd vx vy vz s_add s_mul s_abs Exact.scalar].
  rewrite !weighted_app, (Qabs_pos n Hpos), Hm, Hx, Hy, Hz, <- Kx, <- Ky, <- Kz, Hn. repeat split; ring.
Qed.

(** A body is its own center. *)
Lemma addBody_body bodies acc b : sumsTo bodies acc -> sumsTo (bodies ++ [b]) (addBody acc b).
Proof.
  destruct acc as [p m], b as [q n]. unfold sumsTo, totalMass. cbn [fst snd]. intros (Hm & Hx & Hy & Hz).
  unfold addBody. cbn [fst snd vx vy vz s_add s_mul s_abs Exact.scalar]. rewrite !weighted_app, Hm, Hx, Hy, Hz. cbn [weighted fst snd]. repeat split; ring.
Qed.

Lemma s_neqb_Q (a b : Q) : s_neqb a b = true <-> ~ (a == b)%Q.
Proof.
  unfold s_neqb. cbn [s_leb Exact.scalar]. rewrite negb_true_iff, andb_false_iff. split.
  - intros [H|H] E; rewrite E in H; rewrite (proj2 (Qle_bool_iff b b) (Qle_refl b)) in H; discriminate.
  - intros Hne. destruct (Qle_bool a b) eqn:E1; [right|by left]. apply Qle_bool_iff in E1. destruct (Qle_bool b a) eqn:E2; [|done].
    apply Qle_bool_iff in E2. destruct Hne. by apply Qle_antisym.
Qed.

Lemma normalizeMass_center bodies c : sumsTo bodies c -> isMassCenter bodies (normalizeMass c).
Proof.
  destruct c as [p m]. unfold sumsTo, isMassCenter. cbn [fst snd]. intros (Hm & Hx & Hy & Hz). unfold normalizeMass.
  cbn [fst snd vx vy vz s_mul s_div s_ofZ Exact.scalar]. change (inject_Z 0) with 0%Q. change (inject_Z 1) with 1%Q. rewrite <- Hx, <- Hy, <- Hz. split; [done|].
  destruct (s_neqb m 0%Q) eqn:E.
  - apply s_neqb_Q in E. repeat split; by field.
  - assert (E0 : (m == 0)%Q) by (destruct (Qeq_dec m 0) as [|Hne]; [done|]; apply s_neqb_Q in Hne; congruence).
    rewrite Hx, Hy, Hz, !weighted_massless, E0 by (by rewrite <- Hm). repeat split; ring.
Qed.

(** *** Particles *)

Section Bodies.
Context (bs : list body).

Local Abbreviation xs := ((fun b : body => vx b.1) <$> bs).
Local Abbreviation ys := ((fun b : body => vy b.1) <$> bs).
Local Abbreviation zs := ((fun b : body => vz b.1) <$> bs).
Local Abbreviation ms := (snd <$> bs).

Lemma bodyAt_get i b : bs.[i] = Some b -> bodyAt xs ys zs ms i = Some b.
Proof using. intros Hb. unfold bodyAt. rewrite !aget_map, Hb. by destruct b as [[] ?]. Qed.

Lemma massCenter_run first last : 0 <= first <= last -> last <= zlen bs ->
  exists c, massCenter xs ys zs ms first last = Some c /\ isMassCenter (slice bs first last) c.
Proof using.
  intros Hf Hl. unfold massCenter.
  match goal with |- context [for_loop _ _ ?bd _] => destruct (for_loop_inv (fun i acc => sumsTo (slice bs first i) acc) first last bd noBody) as (acc & -> & Hacc) end.
  - lia.
  - rewrite slice_empty. apply noBody_sums.
  - intros i acc Hi Hacc. destruct (aget_is_Some bs i ltac:(lia)) as [b Hb]. rewrite (bodyAt_get i b Hb). eexists. split; [done|].
    rewrite (slice_snoc bs first i b) by (done || lia). by apply addBody_body.
  - eexists. split; [done|]. by apply normalizeMass_center.
Qed.

(** The particles are sorted along the curve: leaf [j] holds those from [layout[j]] to
    [layout[j + 1]]. *)
Context (k : KeyType) (t : otree) (layout : list Z).
Hypothesis Hdepth : depthLe (maxTreeLevel k) t.
Hypothesis Hcs : csTree k (leafArray k t).
Hypothesis Hsorted : zsorted layout.
Hypothesis Hrange : Forall (fun x => 0 <= x <= zlen bs) layout.
Hypothesis Hlen : zlen layout = zlen (leafArray k t).

(** The particles with keys in [a, b), for leaf boundaries [a] and [b]. *)
Definition layoutAt (key : Z) : Z := nthz layout (count_lt key (leafArray k t)).
Definition bodiesIn (a b : Z) : list body := slice bs (layoutAt a) (layoutAt b).
Definition nodeBodies (q : Z) : list body := bodiesIn (nodeStart k q) (nodeEnd k q).

Lemma layoutAt_mono a b : a <= b <= keyMax k -> 0 <= layoutAt a <= layoutAt b.
Proof using Hcs Hsorted Hrange Hlen.
  intros Hab. pose proof (count_lt_range a (leafArray k t)). pose proof (count_lt_range b (leafArray k t)). pose proof (count_lt_mono a b (leafArray k t) ltac:(lia)).
  assert (count_lt b (leafArray k t) < zlen layout).
  { rewrite Hlen. pose proof (count_lt_le _ (cs_sorted k _ Hcs) _ (keyMax k) b (treelet_last _ _ _ _ Hcs) ltac:(lia)). lia. }
  unfold layoutAt. rewrite Forall_forall in Hrange. split; [apply (Hrange (nthz layout _)), (aget_elem _ (count_lt a (leafArray k t))), nthz_get; lia|].
  apply (Hsorted (count_lt a (leafArray k t)) (count_lt b (leafArray k t))); [lia|apply nthz_get; lia..].
Qed.

Lemma bodiesIn_split a b c : a <= b -> b <= c <= keyMax k -> bodiesIn a c = bodiesIn a b ++ bodiesIn b c.
Proof using Hcs Hsorted Hrange Hlen.
  intros Hab Hbc. apply slice_app; [apply layoutAt_mono; lia|]. apply (layoutAt_mono b c). lia.
Qed.

(** [CombineSourceCenter] gives a node its center if its children have theirs. *)
Lemma combine_center i q c Q : q ∈ innerKeys 1 t ->
  (forall d, 0 <= d < 8 -> holds (fun q v => isMassCenter (nodeBodies q) v) Q (c + d) (8 * q + d)) ->
  exists v, CombineSourceCenter i c Q = Some v /\ isMassCenter (nodeBodies q) v.
Proof using Hdepth Hcs Hsorted Hrange Hlen.
  intros Hq Hch. pose proof (key_treeNode k t Hdepth q ltac:(apply elem_of_app; by left)) as [Hn Hl].
  assert (Hlt : nodeLevel q < maxTreeLevel k) by (destruct (elem_aget _ _ Hq) as [j Hj]; apply (inner_node k t Hdepth j q Hj)).
  pose proof Hn as [Hl0 _]. set (l := nodeLevel q) in *. pose proof (pow8_pos (maxTreeLevel k - (l + 1)) ltac:(lia)) as HD.
  pose proof (node_range k q (conj Hn Hl)) as (_ & Hend & _). unfold nodeEnd in Hend. fold l in Hend.
  replace (maxTreeLevel k - l) with (maxTreeLevel k - (l + 1) + 1) in Hend by lia. rewrite pow8_succ in Hend by lia.
  set (D := 8 ^ (maxTreeLevel k - (l + 1))) in *. set (a := nodeStart k q) in *.
  assert (Hb : forall d, 0 <= d < 8 -> nodeBodies (8 * q + d) = bodiesIn (a + d * D) (a + (d + 1) * D)).
  { intros d Hd. unfold nodeBodies, nodeEnd. rewrite (nodeAt_level (l + 1)) by (by apply nodeAt_child). fold D.
    rewrite (nodeStart_child k l q d) by (done || lia). replace (maxTreeLevel k - l - 1) with (maxTreeLevel k - (l + 1)) by lia. fold D. f_equal. unfold a. lia. }
  unfold CombineSourceCenter.
  match goal with |- context [for_loop _ _ ?bd _] => destruct (for_loop_inv (fun j acc => sumsTo (bodiesIn a (a + (j - c) * D)) acc) c (c + 8) bd noBody) as (acc & -> & Hacc) end.
  - lia.
  - replace (a + (c - c) * D) with a by lia. unfold bodiesIn. rewrite slice_empty. apply noBody_sums.
  - intros j acc Hj Hacc. destruct (Hch (j - c) ltac:(lia)) as (v & Hv & Hc). replace (c + (j - c)) with j in Hv by lia. rewrite Hv.
    eexists. split; [done|]. rewrite (bodiesIn_split a (a + (j - c) * D) (a + (j + 1 - c) * D)) by nia.
    apply addBody_sums; [done|]. rewrite (Hb (j - c)) in Hc by lia. by replace (j + 1 - c) with (j - c + 1) by lia.
  - eexists. split; [done|]. apply normalizeMass_center. unfold nodeBodies, nodeEnd. fold a. fold l.
    replace (8 ^ (maxTreeLevel k - l)) with ((c + 8 - c) * D); [done|]. unfold D. replace (maxTreeLevel k - l) with (maxTreeLevel k - (l + 1) + 1) by lia. rewrite pow8_succ by lia. lia.
Qed.

(** *** Leaves *)

Lemma leaf_bodies j x : (leafKeys 1 t).[j] = Some x -> exists a b,
  layout.[j] = Some a /\ layout.[j + 1] = Some b /\ 0 <= a <= b /\ b <= zlen bs /\ nodeBodies x = slice bs a b.
Proof using Hdepth Hcs Hsorted Hrange Hlen.
  intros Hj. destruct (leafArray_leaf k t Hdepth j x Hj) as (E1 & E2 & _). fold (nodeEnd k x) in E2.
  pose proof (aget_Some_range _ _ _ E1). pose proof (aget_Some_range _ _ _ E2).
  destruct (aget_is_Some layout j ltac:(lia)) as [a Ha]. destruct (aget_is_Some layout (j + 1) ltac:(lia)) as [b Hb]. exists a, b. split; [done|]. split; [done|].
  rewrite Forall_forall in Hrange. pose proof (Hrange a (aget_elem _ _ _ Ha)). pose proof (Hrange b (aget_elem _ _ _ Hb)). pose proof (Hsorted j (j + 1) a b ltac:(lia) Ha Hb).
  split; [lia|]. split; [lia|]. unfold nodeBodies, bodiesIn, layoutAt. rewrite (cs_position k _ _ _ Hcs E1), (cs_position k _ _ _ Hcs E2).
  by rewrite (nthz_Some _ _ _ Ha), (nthz_Some _ _ _ Hb).
Qed.

Context (o : OctreeArrays) (leafToInternal : list Z).
Hypothesis Ho : linked k t o.
Hypothesis Hleaf : forall j x, (leafKeys 1 t).[j] = Some x -> leafToInternal.[j] = Some (pos o x).
Hypothesis Hnum : zlen leafToInternal = zlen (leafKeys 1 t).

Lemma leafMassCenters_run C : zlen C = zlen (prefixes o) ->
  exists C', computeLeafMassCenter xs ys zs ms leafToInternal layout C = Some C' /\ zlen C' = zlen (prefixes o) /\
    forall x, x ∈ leafKeys 1 t -> holds (fun q v => isMassCenter (nodeBodies q) v) C' (pos o x) x.
Proof using All.
  intros HC. unfold computeLeafMassCenter.
  destruct (for_loop_inv (fun n C => zlen C = zlen (prefixes o) /\ forall j x, (leafKeys 1 t).[j] = Some x -> j < n ->
      holds (fun q v => isMassCenter (nodeBodies q) v) C (pos o x) x) 0 (zlen leafToInternal) (leafMassCenterBody xs ys zs ms leafToInternal layout) C) as (C' & -> & HC' & Hdone).
  - apply zlen_nonneg.
  - split; [done|]. intros j x Hj Hn. apply aget_Some_range in Hj. lia.
  - intros n C1 Hn [HC1 Hd]. destruct (aget_is_Some (leafKeys 1 t) n ltac:(lia)) as [x Hx]. destruct (leaf_bodies n x Hx) as (a & b & Ea & Eb & Hab & Hb & Es).
    destruct (massCenter_run a b Hab Hb) as (c & Ec & Hc). unfold leafMassCenterBody. rewrite (Hleaf n x Hx), Ea, Eb, Ec.
    assert (Hall : forall y j, (leafKeys 1 t).[j] = Some y -> y ∈ allKeys 1 t) by (intros y j Hy; apply elem_of_app; right; by eapply aget_elem).
    pose proof (pos_range k t o Ho x (Hall x n Hx)). pose proof (aset_Some C1 (pos o x) c ltac:(lia)) as F. rewrite F. eexists. split; [done|].
    split; [by rewrite (aset_zlen _ _ _ _ F)|]. intros j y Hy Hj. unfold holds. destruct (decide (pos o x = pos o y)) as [E|Hne].
    + rewrite <- E, (aget_aset_eq _ _ _ _ F). exists c. split; [done|]. rewrite (pos_inj k t o Ho x y (Hall x n Hx) (Hall y j Hy) E) in Es. by rewrite Es.
    + rewrite (aget_aset_ne _ _ _ _ _ F Hne). destruct (decide (j = n)) as [->|]; [congruence|]. apply (Hd j y Hy). lia.
  - exists C'. split; [done|]. split; [done|]. intros x Hx. destruct (elem_aget _ _ Hx) as [j Hj]. pose proof (aget_Some_range _ _ _ Hj). apply (Hdone j x Hj). lia.
Qed.

(** Leaf centers and the sweep. *)
Lemma massCenters_run C : zlen C = zlen (prefixes o) ->
  exists C1 C2, computeLeafMassCenter xs ys zs ms leafToInternal layout C = Some C1 /\
    upsweep (levelRange o) (childOffsets o) CombineSourceCenter C1 = Some C2 /\
    forall i q, (prefixes o).[i] = Some q -> exists c, C2.[i] = Some c /\ isMassCenter (nodeBodies q) c.
Proof using All.
  intros HC. destruct (leafMassCenters_run C HC) as (C1 & E1 & HC1 & Hl). exists C1.
  destruct (upsweep_holds k t o Hdepth Ho CombineSourceCenter (fun q v => isMassCenter (nodeBodies q) v) combine_center C1 HC1) as (C2 & E2 & _ & H2).
  - intros j q Hj Hq. rewrite (pos_node k t o Ho j q Hj). by apply Hl.
  - by exists C2.
Qed.

End Bodies.

