(* ===== verification/Peers.v ===== *)
(** * Peer discovery

    [findPeersMac] of [cstone/traversal/peers.hpp] finds exactly the ranks that own a leaf
    too close to a leaf of the own rank, and being peers is mutual. *)

From S2P Require Import Prelude Primitives SfcCommon Csarray CsInvariant CsRebalance CsCounts CsUtil SfcBox Morton Hilbert Sfc BoxOverlap Octree OctreeNodes OctreeBuild OctreeQueries IndexRanges DomainDecomp Scalars FloatBox FocusTree Traversal DualTraversal NodeLookup Macs.

(** ** Separation of boxes *)

(** A non-empty range of the grid of size [M] and the periodicity of a dimension. *)
Definition gridRange (M a b : Z) : Prop := 0 <= a < b /\ b <= M.

Lemma pbcDistance_abs M R x : 0 < M -> Z.even M = true -> R = 0 \/ R = M -> - M <= x <= M ->
  Z.abs (pbcDistance x R) = if R =? 0 then Z.abs x else Z.min (Z.abs x) (M - Z.abs x).
Proof.
  intros HM [h ->]%Z.even_spec HR Hx. unfold pbcDistance. destruct (Z.eqb_spec R 0) as [->|HR0].
  - change (Z.quot (- 0) 2) with 0. change (Z.quot 0 2) with 0. repeat zcase; lia.
  - assert (R = 2 * h) as -> by lia. 
    assert (Z.quot (- (2 * h)) 2 = - h) as -> by (replace (- (2 * h)) with (- h * 2) by lia; apply Z.quot_mul; lia).
    assert (Z.quot (2 * h) 2 = h) as -> by (rewrite Z.mul_comm; apply Z.quot_mul; lia).
    repeat zcase; lia.
Qed.

(** Distance of two ranges: 0 if they overlap, else the smaller of the gaps to the left and
    to the right. *)
Lemma rangeSep_value M R a b c d :
  0 < M -> Z.even M = true -> R = 0 \/ R = M -> gridRange M a b -> gridRange M c d ->
  rangeSep a b c d R =
    if (c <? b) && (a <? d) then 0
    else if R =? 0 then Z.max (c - b) (a - d) else Z.min (Z.max (c - b) (a - d)) (M - Z.max (d - a) (b - c)).
Proof.
  intros HM He HR [Ha Hb] [Hc Hd]. unfold rangeSep, overlapTwoRanges. destruct ((c <? b) && (a <? d)) eqn:Ho; [done|].
  apply andb_false_iff in Ho. rewrite !Z.ltb_ge in Ho. unfold stl_min. rewrite !(pbcDistance_abs M) by (done || lia).
  destruct (Z.eqb_spec R 0); repeat zcase; lia.
Qed.

Lemma rangeSep_sym M R a b c d :
  0 < M -> Z.even M = true -> R = 0 \/ R = M -> gridRange M a b -> gridRange M c d -> rangeSep a b c d R = rangeSep c d a b R.
Proof.
  intros HM He HR H1 H2. rewrite !(rangeSep_value M) by done. rewrite (andb_comm (a <? d)).
  destruct ((c <? b) && (a <? d)); [done|]. destruct (R =? 0); lia.
Qed.

(** Larger ranges are closer. *)
Lemma rangeSep_mono M R a b c d a' b' c' d' :
  0 < M -> Z.even M = true -> R = 0 \/ R = M -> gridRange M a b -> gridRange M c d -> gridRange M a' b' -> gridRange M c' d' ->
  a' <= a -> b <= b' -> c' <= c -> d <= d' -> 0 <= rangeSep a' b' c' d' R <= rangeSep a b c d R.
Proof.
  intros HM He HR Hab Hcd Hab' Hcd' H1 H2 H3 H4. rewrite !(rangeSep_value M) by done. unfold gridRange in *.
  destruct (Z.eqb_spec R 0); repeat zcase; lia.
Qed.

(** ** The criterion *)

Section Mac.
Context {T : Type} `{!Scalar T} `{!MonotoneScalar T}.
Context (k : KeyType) (ellipse : Vec3 T) (pbc : Z * Z * Z).

Local Abbreviation M := (2 ^ maxTreeLevel k).

Definition gridBox (a : IBox) : Prop := gridRange M (xmin a) (xmax a) /\ gridRange M (ymin a) (ymax a) /\ gridRange M (zmin a) (zmax a).

Definition boxIncl (a b : IBox) : Prop :=
  xmin b <= xmin a /\ xmax a <= xmax b /\ ymin b <= ymin a /\ ymax a <= ymax b /\ zmin b <= zmin a /\ zmax a <= zmax b.

Hypothesis Hpbc : let '(px, py, pz) := pbc in (px = 0 \/ px = M) /\ (py = 0 \/ py = M) /\ (pz = 0 \/ pz = M).
Hypothesis Hellipse : s_ltb (s_ofZ 0) (vx ellipse) = true /\ s_ltb (s_ofZ 0) (vy ellipse) = true /\ s_ltb (s_ofZ 0) (vz ellipse) = true.

Lemma grid_even : 0 < M /\ Z.even M = true.
Proof using.
  kfacts k. split; [apply Z.pow_pos_nonneg; lia|]. replace (maxTreeLevel k) with (Z.succ (maxTreeLevel k - 1)) by lia.
  rewrite Z.pow_succ_r by lia. apply Z.even_mul.
Qed.

Lemma maxEdge_sym a b : maxEdge a b = maxEdge b a.
Proof using. unfold maxEdge. lia. Qed.

Lemma boxSeparation_sym a b : gridBox a -> gridBox b -> boxSeparation a b pbc = boxSeparation b a pbc.
Proof using Hpbc.
  intros (Ha1 & Ha2 & Ha3) (Hb1 & Hb2 & Hb3). destruct grid_even as [HM He]. unfold boxSeparation. destruct pbc as [[px py] pz], Hpbc as (H1 & H2 & H3).
  by rewrite (rangeSep_sym M px), (rangeSep_sym M py), (rangeSep_sym M pz).
Qed.

Lemma minMac_sym a b : gridBox a -> gridBox b -> minMacMutualInt a b ellipse pbc = minMacMutualInt b a ellipse pbc.
Proof using Hpbc. intros Ha Hb. unfold minMacMutualInt. by rewrite (maxEdge_sym a b), (boxSeparation_sym a b). Qed.

(** One component of the scaled separation. *)
Lemma scaled_mono x y e : 0 <= x <= y -> s_ltb (s_ofZ 0) e = true ->
  s_ltb (s_mul (s_div (s_ofZ y) e) (s_div (s_ofZ y) e)) (s_mul (s_div (s_ofZ x) e) (s_div (s_ofZ x) e)) = false.
Proof using MonotoneScalar0.
  intros Hxy He. apply ms_square; [|by apply ms_div; [|apply ms_ofZ; lia]].
  eapply ms_trans; [apply (ms_div_zero e He)|]. apply ms_div; [done|apply ms_ofZ; lia].
Qed.

Lemma lt_le_trans' (x y z : T) : s_ltb x y = true -> s_ltb z y = false -> s_ltb x z = true.
Proof using MonotoneScalar0. intros H1 H2. destruct (s_ltb x z) eqn:E; [done|]. rewrite (ms_trans y z x) in H1; done. Qed.

Lemma le_lt_trans' (x y z : T) : s_ltb y x = false -> s_ltb y z = true -> s_ltb x z = true.
Proof using MonotoneScalar0. intros H1 H2. destruct (s_ltb x z) eqn:E; [done|]. rewrite (ms_trans z x y) in H2; done. Qed.

(** Nodes whose ancestors are far apart are far apart. *)
Lemma minMac_mono a b a' b' : gridBox a -> gridBox b -> gridBox a' -> gridBox b' -> boxIncl a a' -> boxIncl b b' ->
  minMacMutualInt a' b' ellipse pbc = true -> minMacMutualInt a b ellipse pbc = true.
Proof using Hpbc Hellipse MonotoneScalar0.
  intros Ha Hb Ha' Hb' Hab Hbb. destruct grid_even as [HM He].
  assert (Hedge : 0 <= maxEdge a b <= maxEdge a' b') by (unfold maxEdge, boxIncl, gridBox, gridRange in *; lia).
  unfold minMacMutualInt. destruct (boxSeparation a b pbc) as [[dx dy] dz] eqn:E, (boxSeparation a' b' pbc) as [[dx' dy'] dz'] eqn:E'.
  assert (0 <= dx' <= dx /\ 0 <= dy' <= dy /\ 0 <= dz' <= dz) as (Hx & Hy & Hz).
  { unfold boxSeparation in E, E'. destruct pbc as [[px py] pz], Hpbc as (H1 & H2 & H3). injection E as <- <- <-. injection E' as <- <- <-.
    destruct Ha as (?&?&?), Hb as (?&?&?), Ha' as (?&?&?), Hb' as (?&?&?), Hab as (?&?&?&?&?&?), Hbb as (?&?&?&?&?&?).
    split; [|split]; by apply (rangeSep_mono M). }
  destruct Hellipse as (Hex & Hey & Hez). intros Hfar. eapply lt_le_trans'.
  - eapply le_lt_trans'; [|exact Hfar]. apply ms_square; apply ms_ofZ; lia.
  - unfold norm2. cbn [vx vy vz]. apply ms_add; [|apply ms_add]; by apply scaled_mono.
Qed.

End Mac.

(** ** Boxes of tree nodes *)

Section NodeBoxes.
Context (s : SfcKind) (k : KeyType).

Definition keyBox (q : Z) : IBox := sfcIBox s k (nodeStart k q) (nodeLevel q).

Lemma keyBox_grid q : treeNode k q -> gridBox k (keyBox q).
Proof using.
  intros Hq. pose proof (node_range k q Hq) as (H0 & HE & Hlt & Hd). destruct Hq as [(Hl0 & _) Hl]. unfold keyBox.
  rewrite sfcIBox_nodeBox by (done || lia). set (j := maxTreeLevel k - nodeLevel q). 
  assert (Hs : 0 <= nodeStart k q < keyMax k) by lia. pose proof (sfc_dec_range (enc := iSfcKey s k) (nodeStart k q) Hs) as Hc. destruct (decodeSfc s k (nodeStart k q)) as [[x y] z].
  destruct Hc as (Hx & Hy & Hz). rewrite maxCoord_pow2 in *. unfold nodeBox, divp, gridBox, gridRange. cbn [xmin xmax ymin ymax zmin zmax].
  assert (Hone : forall v, 0 <= v < 2 ^ maxTreeLevel k -> 0 <= v / 2 ^ j * 2 ^ j < v / 2 ^ j * 2 ^ j + 2 ^ j /\ v / 2 ^ j * 2 ^ j + 2 ^ j <= 2 ^ maxTreeLevel k).
  { intros v Hv. assert (0 < 2 ^ j) by (apply Z.pow_pos_nonneg; lia). 
    assert (E : 2 ^ maxTreeLevel k = 2 ^ nodeLevel q * 2 ^ j) by (rewrite <- Z.pow_add_r by lia; f_equal; lia).
    assert (0 <= v / 2 ^ j) by (apply Z.div_pos; lia). assert (v / 2 ^ j < 2 ^ nodeLevel q) by (apply Z.div_lt_upper_bound; lia). nia. }
  split; [|split]; by apply Hone.
Qed.

Lemma keyBox_cell q x y z : treeNode k q -> isCell k (x, y, z) -> inIBox (keyBox q) (x, y, z) <-> nodeStart k q <= iSfcKey s k x y z < nodeEnd k q.
Proof using.
  intros Hq Hc. pose proof (node_range k q Hq) as (H0 & HE & Hlt & Hd). destruct Hq as [(Hl0 & _) Hl]. unfold keyBox, nodeEnd.
  rewrite sfcIBox_nodeBox by (done || lia). apply (nodeBox_keys (enc := iSfcKey s k)); [lia|lia|done|done].
Qed.

Lemma keyBox_incl p q : treeNode k p -> treeNode k q -> below p q -> boxIncl (keyBox q) (keyBox p).
Proof using.
  intros Hp Hq Hb. destruct (below_range k _ p q (proj1 Hp) Hb (proj2 Hq)) as (_ & _ & H1 & H2).
  destruct (keyBox_grid q Hq) as ((Hx & Hx') & (Hy & Hy') & (Hz & Hz')).
  assert (Hin : forall x y z, inIBox (keyBox q) (x, y, z) -> inIBox (keyBox p) (x, y, z)).
  { intros x y z Hi. assert (Hc : isCell k (x, y, z)) by (unfold isCell, inIBox in *; rewrite maxCoord_pow2; lia).
    apply keyBox_cell; [done|done|]. apply keyBox_cell in Hi; [|done|done]. unfold nodeEnd in *. lia. }
  pose proof (Hin (xmin (keyBox q)) (ymin (keyBox q)) (zmin (keyBox q)) ltac:(unfold inIBox; lia)).
  pose proof (Hin (xmax (keyBox q) - 1) (ymax (keyBox q) - 1) (zmax (keyBox q) - 1) ltac:(unfold inIBox; lia)).
  unfold inIBox, boxIncl in *. lia.
Qed.

End NodeBoxes.

(** ** Peers of a rank *)

(** Finitely many bounds have a common one. *)
Lemma uniform_bound (Q : Z -> nat -> Prop) (l : list Z) :
  (forall q n m, (n <= m)%nat -> Q q n -> Q q m) -> (forall q, q ∈ l -> exists n, Q q n) -> exists n, forall q, q ∈ l -> Q q n.
Proof.
  intros Hm. induction l as [|q l IH]; intros H; [exists 0%nat; by intros q ?%not_elem_of_nil|].
  destruct (H q ltac:(by left)) as (n & Hn). destruct IH as (m & Hml); [intros; apply H; by right|]. exists (n + m)%nat.
  intros q' [->|Hq']%elem_of_cons; [eapply Hm; [|done]; lia|eapply Hm; [|by apply Hml]; lia].
Qed.

Section Peers.
Context {T : Type} `{!Scalar T} `{!MonotoneScalar T}.
Context (s : SfcKind) (k : KeyType) (t : otree) (o : OctreeArrays) (A : SfcAssignment) (ellipse : Vec3 T) (pbc : Z * Z * Z).
Hypothesis Hdepth : depthLe (maxTreeLevel k) t.
Hypothesis Ho : linked k t o.
Hypothesis HA : validAssignment k A.
Hypothesis Hbound : forall r, 0 <= r <= assignmentRanks A -> nthz (rankBoundaries_ A) r ∈ leafArray k t.
Hypothesis Hpbc : let '(px, py, pz) := pbc in (px = 0 \/ px = 2 ^ maxTreeLevel k) /\ (py = 0 \/ py = 2 ^ maxTreeLevel k) /\ (pz = 0 \/ pz = 2 ^ maxTreeLevel k).
Hypothesis Hellipse : s_ltb (s_ofZ 0) (vx ellipse) = true /\ s_ltb (s_ofZ 0) (vy ellipse) = true /\ s_ltb (s_ofZ 0) (vz ellipse) = true.

Local Abbreviation B := (nthz (rankBoundaries_ A)).
Local Abbreviation nR := (assignmentRanks A).

(** The leaf [x] belongs to rank [r]. *)
Definition leafOf (r x : Z) : Prop := x ∈ leafKeys 1 t /\ B r <= nodeStart k x < B (r + 1).

(** Two leaves that are too close. *)
Definition nearLeaves (x y : Z) : Prop := minMacMutualInt (keyBox s k x) (keyBox s k y) ellipse pbc = false.

Section Rank.
Context (r : Z).
Hypothesis Hr : 0 <= r < nR.

Local Abbreviation crit := (crossFocusKeys s k (B r) (B (r + 1)) ellipse pbc).

Lemma crit_value a b : treeNode k a -> treeNode k b ->
  crit a b = true <-> (nodeStart k a < B (r + 1) /\ B r < nodeEnd k a) /\ ~ (B r <= nodeStart k b /\ nodeEnd k b <= B (r + 1)) /\
    minMacMutualInt (keyBox s k a) (keyBox s k b) ellipse pbc = false.
Proof using.
  intros Ha Hb. unfold crossFocusKeys, keyBox. rewrite (decode2K_node k a Ha), (decode2K_node k b Hb), !node_treeLevel by done.
  unfold overlapTwoRanges, containedInKeys. set (m := minMacMutualInt _ _ _ _).
  destruct (Z.ltb_spec (nodeStart k a) (B (r + 1))), (Z.ltb_spec (B r) (nodeEnd k a)), (Z.ltb_spec (nodeStart k b) (B r)),
    (Z.ltb_spec (B (r + 1)) (nodeEnd k b)), m; cbn; (split; [intros; repeat split; (done || lia)|intros (? & ? & ?); (done || lia)]).
Qed.

Lemma leaf_node x : x ∈ leafKeys 1 t -> treeNode k x.
Proof using Hdepth. intros Hx. apply (key_treeNode k t Hdepth). apply elem_of_app. by right. Qed.

(** Leaves are inside or outside of the range of the rank. *)
Lemma leaf_in_rank x : x ∈ leafKeys 1 t -> B r <= nodeStart k x < B (r + 1) <-> B r <= nodeStart k x /\ nodeEnd k x <= B (r + 1).
Proof using Hdepth Hbound Hr.
  intros Hx. pose proof (node_range k x (leaf_node x Hx)) as (_ & _ & Hlt & _).
  destruct (boundary_outside k t Hdepth (B (r + 1)) x (Hbound (r + 1) ltac:(lia)) Hx); lia.
Qed.

Lemma leaf_overlaps x : x ∈ leafKeys 1 t -> nodeStart k x < B (r + 1) /\ B r < nodeEnd k x <-> B r <= nodeStart k x < B (r + 1).
Proof using Hdepth Hbound Hr.
  intros Hx. pose proof (node_range k x (leaf_node x Hx)) as (_ & _ & Hlt & _).
  destruct (boundary_outside k t Hdepth (B r) x (Hbound r ltac:(lia)) Hx); lia.
Qed.

(** For leaves the criterion says that they are near and on different sides of the boundary. *)
Lemma crit_leaves x y : x ∈ leafKeys 1 t -> y ∈ leafKeys 1 t ->
  crit x y = true <-> B r <= nodeStart k x < B (r + 1) /\ ~ (B r <= nodeStart k y < B (r + 1)) /\ nearLeaves x y.
Proof using Hdepth Hbound Hr.
  intros Hx Hy. rewrite crit_value by (by apply leaf_node). rewrite (leaf_overlaps x Hx). by rewrite (leaf_in_rank y Hy).
Qed.

Lemma crit_mono a b x y : 1 <= a -> 1 <= b -> below a x -> below b y -> x ∈ leafKeys 1 t -> y ∈ leafKeys 1 t ->
  crit x y = true -> crit a b = true.
Proof using Hdepth Hpbc Hellipse MonotoneScalar0.
  intros Ha1 Hb1 Hax Hby Hx%leaf_node Hy%leaf_node. pose proof (below_treeNode k a x Ha1 Hax Hx) as Ha. pose proof (below_treeNode k b y Hb1 Hby Hy) as Hb.
  rewrite !crit_value by done. intros (H1 & H2 & H3).
  destruct (below_range k _ a x (proj1 Ha) Hax (proj2 Hx)) as (_ & _ & Ha1' & Ha2). destruct (below_range k _ b y (proj1 Hb) Hby (proj2 Hy)) as (_ & _ & Hb1' & Hb2).
  fold (nodeEnd k a) in Ha2. fold (nodeEnd k x) in Ha2. fold (nodeEnd k b) in Hb2. fold (nodeEnd k y) in Hb2.
  split; [lia|]. split; [lia|]. destruct (minMacMutualInt (keyBox s k a) (keyBox s k b) ellipse pbc) eqn:E; [|done].
  rewrite (minMac_mono k ellipse pbc Hpbc Hellipse (keyBox s k x) (keyBox s k y) (keyBox s k a) (keyBox s k b)) in H3;
    [done|by apply keyBox_grid..|by apply keyBox_incl|by apply keyBox_incl|done].
Qed.

(** ** The flags *)

Definition flagsOf (P : Z -> Prop) (flags : list Z) : Prop := zlen flags = nR /\ forall r', 0 <= r' < nR -> nthz flags r' <> 0 <-> P r'.

Lemma markPeer_run a b P flags : b ∈ leafKeys 1 t -> flagsOf P flags ->
  exists flags', markPeer k A (prefixes o) a (pos o b) flags = Some flags' /\ flagsOf (fun r' => P r' \/ leafOf r' b) flags'.
Proof using Hdepth Ho HA.
  intros Hb [Hz HP]. assert (Hbk : b ∈ allKeys 1 t) by (apply elem_of_app; by right). unfold markPeer. rewrite (node_pos k t o Ho b Hbk).
  pose proof (node_range k b (leaf_node b Hb)) as (H0 & HE & Hlt & _). fold (nodeStart k b).
  destruct (findRank_total k A HA (nodeStart k b) ltac:(lia)) as (p & Hp & Ep). rewrite Ep.
  assert (Hleaf : forall r', 0 <= r' < nR -> leafOf r' b <-> r' = p).
  { intros r' Hr'. unfold leafOf. rewrite <- (findRank_iff k A HA _ r' Hr'), Ep. split; [intros [_ [= ->]]; done|intros ->; done]. }
  rewrite (nthz_get flags p) by lia. destruct (Z.eqb_spec (nthz flags p) 0) as [E0|E1].
  - pose proof (aset_Some flags p 1 ltac:(lia)) as F. rewrite F. eexists. split; [done|]. split; [by rewrite (aset_zlen _ _ _ _ F)|].
    intros r' Hr'. rewrite (Hleaf r' Hr'). destruct (decide (r' = p)) as [->|Hne].
    + rewrite (nthz_Some _ _ _ (aget_aset_eq _ _ _ _ F)). split; [by right|done].
    + unfold nthz. rewrite (aget_aset_ne _ _ _ _ _ F) by done. fold (nthz flags r'). rewrite (HP r' Hr'). split; [by left|intros [|]; done].
  - exists flags. split; [done|]. split; [done|]. intros r' Hr'. rewrite (Hleaf r' Hr'), (HP r' Hr'). split; [by left|intros [|E]; [done|]; subst r'].
    by apply (HP p Hp).
Qed.

Lemma markAll_run ev : forall P flags, Forall (fun v => v.2 = true -> v.1.2 ∈ leafKeys 1 t) ev -> flagsOf P flags ->
  exists flags', foldM (handle (fun _ _ st => Some st) (markPeer k A (prefixes o)) o) ev flags = Some flags' /\
    flagsOf (fun r' => P r' \/ exists a b, (a, b, true) ∈ ev /\ leafOf r' b) flags'.
Proof using Hdepth Ho HA.
  induction ev as [|[[a b] last] ev IH]; intros P flags Hev Hf.
  - exists flags. split; [done|]. destruct Hf as [Hz HP]. split; [done|]. intros r' Hr'. rewrite (HP r' Hr').
    split; [by left|]. intros [|(? & ? & ?%not_elem_of_nil & _)]; done.
  - apply Forall_cons in Hev as [Hb Hev]. cbn [foldM handle]. destruct last.
    + destruct (markPeer_run (pos o a) b P flags (Hb eq_refl) Hf) as (f1 & -> & Hf1).
      destruct (IH _ f1 Hev Hf1) as (f2 & -> & Hz & HP). exists f2. split; [done|]. split; [done|]. intros r' Hr'. rewrite (HP r' Hr'). split.
      * intros [[H|H]|(a' & b' & H1 & H2)]; [by left|right; exists a, b; split; [by left|done]|right; exists a', b'; split; [by right|done]].
      * intros [H|(a' & b' & [[= -> ->]|H1]%elem_of_cons & H2)]; [by left; left|by left; right|right; by exists a', b'].
    + destruct (IH P flags Hev Hf) as (f2 & -> & Hz & HP). exists f2. split; [done|]. split; [done|]. intros r' Hr'. rewrite (HP r' Hr'). split.
      * intros [H|(a' & b' & H1 & H2)]; [by left|right; exists a', b'; split; [by right|done]].
      * intros [H|(a' & b' & [[=]|H1]%elem_of_cons & H2)]; [by left|right; by exists a', b'].
Qed.

(** ** The traversals *)

Hypothesis Hheight : (height t <= 9)%nat.

Local Abbreviation traverse fuel q flags := (dualTraversal (crossFocusPairs s k (B r) (B (r + 1)) ellipse pbc (prefixes o)) (fun _ _ st => Some st)
  (markPeer k A (prefixes o)) (childOffsets o) fuel (pos o q) 0 flags).

(** What the traversal that starts at node [q] adds. *)
Definition foundFrom (q r' : Z) : Prop :=
  exists x y, x ∈ leafKeys 1 t /\ nodeStart k q <= nodeStart k x < nodeEnd k q /\ leafOf r' y /\ crit x y = true.

Lemma traverse_run q : q ∈ allKeys 1 t -> B r <= nodeStart k q -> nodeEnd k q <= B (r + 1) ->
  exists n : nat, forall fuel P flags, (n <= fuel)%nat -> flagsOf P flags ->
    exists flags', traverse fuel q flags = Some flags' /\ flagsOf (fun r' => P r' \/ foundFrom q r') flags'.
Proof using All.
  intros Hq Hq1 Hq2. destruct (subtree_of_node t q Hq) as (v & Hv & Hhv & Hlv). set (e := mkPair q v 1 t).
  assert (Hroot : subtreeOf t 1 t) by (split; by apply Forall_forall). assert (He : validPair t e) by done.
  assert (Hk : pairKeys e) by (split; cbn; [by apply (treeNode_pos k), (key_treeNode k t Hdepth)|lia]).
  assert (Hcont : forall a b, a ∈ allKeys 1 t -> b ∈ allKeys 1 t ->
    crossFocusPairs s k (B r) (B (r + 1)) ellipse pbc (prefixes o) (pos o a) (pos o b) = Some (crit a b)).
  { intros a b Ha Hb. unfold crossFocusPairs. by rewrite (node_pos k t o Ho a Ha), (node_pos k t o Ho b Hb). }
  exists (S (costOf crit e)). intros fuel P flags Hf Hflags. pose proof (pos_root k t o Hdepth Ho) as E0.
  destruct (bothLeaf e) eqn:Hb.
  - assert (q = 1 /\ t = OLeaf) as [-> Et] by (unfold bothLeaf in Hb; cbn in Hb; destruct v, t; try done; by apply list_elem_of_singleton in Hq).
    assert (Hno : crit 1 1 = false).
    { destruct (crit 1 1) eqn:E; [|done]. pose proof (key_treeNode k t Hdepth 1 Hq) as Hn. apply crit_value in E; [|done|done]. tauto. }
    exists flags. split.
    + unfold dualTraversal. pose proof (isLeafNode_get k t o Hdepth Ho 1 t Hroot) as El. rewrite E0 in El. rewrite E0, El, Et. cbn [isOLeaf andb].
      pose proof (Hcont 1 1 Hq Hq) as Ec. rewrite E0 in Ec. by rewrite Ec, Hno.
    + destruct Hflags as [Hz HP]. split; [done|]. intros r' Hr'. rewrite (HP r' Hr'). split; [by left|]. intros [|(x & y & Hx & _ & [Hy _] & Hc)]; [done|].
      rewrite Et in Hx, Hy. apply list_elem_of_singleton in Hx, Hy. subst x y. congruence.
  - destruct (dualTraversal_run (crossFocusPairs s k (B r) (B (r + 1)) ellipse pbc (prefixes o)) (fun _ _ st => Some st) (markPeer k A (prefixes o)) crit
      k t o Hdepth Ho Hcont e fuel flags He Hb) as (ev & Hev & E); [unfold pairHeight; cbn; lia|lia|]. unfold e in E; cbn [tgt src] in E. rewrite E0 in E. rewrite E.
    destruct (markAll_run ev P flags) as (flags' & -> & Hz & HP); [|done|].
    { apply Forall_forall. intros [[a b] last] Hin Hl. cbn in Hl. subst last. rewrite Hev in Hin. by destruct (eventsOf_kind crit e a b true Hb Hin) as [_ [_ ?]]. }
    exists flags'. split; [done|]. split; [done|]. intros r' Hr'. rewrite (HP r' Hr').
    assert (Hmono : forall a b la lb, 1 <= a -> 1 <= b -> below a la -> below b lb -> leafPair e la lb -> crit la lb = true -> crit a b = true).
    { intros a b la lb Ha1 Hb1 Ha2 Hb2 [Hla Hlb]. apply crit_mono; try done. by apply Hlv. }
    enough (Hiff : forall x y, (x, y, true) ∈ ev <-> (x ∈ leafKeys 1 t /\ nodeStart k q <= nodeStart k x < nodeEnd k q) /\ y ∈ leafKeys 1 t /\ crit x y = true).
    { split; (intros [H|H]; [by left|right]).
      - destruct H as (x & y & Hin & Hy). apply Hiff in Hin as ((H1 & H2) & H3 & H4). by exists x, y.
      - destruct H as (x & y & H1 & H2 & H3 & H4). exists x, y. split; [|done]. apply Hiff. by destruct H3. }
    intros x y. rewrite Hev, (eventsOf_monotone crit e Hmono Hk Hb). unfold leafPair. cbn [tgt tgtT src srcT e]. rewrite Hlv. split.
    + intros [[[H1 H2] H3] H4]. split; [|done]. split; [done|]. by apply (leaf_below_iff k t Hdepth).
    + intros [[H1 H2] [H3 H4]]. split; [|done]. split; [|done]. split; [done|]. by apply (leaf_below_iff k t Hdepth).
Qed.

(** One bound on the fuel serves every traversal of the rank. *)
Lemma traverse_all : exists n : nat, forall q, q ∈ allKeys 1 t -> B r <= nodeStart k q -> nodeEnd k q <= B (r + 1) ->
  forall fuel P flags, (n <= fuel)%nat -> flagsOf P flags ->
    exists flags', traverse fuel q flags = Some flags' /\ flagsOf (fun r' => P r' \/ foundFrom q r') flags'.
Proof using All.
  apply (uniform_bound (fun q n => B r <= nodeStart k q -> nodeEnd k q <= B (r + 1) -> forall fuel P flags, (n <= fuel)%nat -> flagsOf P flags ->
    exists flags', traverse fuel q flags = Some flags' /\ flagsOf (fun r' => P r' \/ foundFrom q r') flags')).
  - intros q n m Hnm H H1 H2 fuel P flags Hf. apply H; [done|done|lia].
  - intros q Hq. destruct (decide (B r <= nodeStart k q /\ nodeEnd k q <= B (r + 1))) as [[H1 H2]|Hno].
    + destruct (traverse_run q Hq H1 H2) as (n & Hn). by exists n.
    + exists 0%nat. intros H1 H2. by destruct Hno.
Qed.

(** ** The loop over the spanning nodes *)

(** The ranks found from the leaves below key [c]. *)
Definition foundBelow (c r' : Z) : Prop :=
  exists x y, x ∈ leafKeys 1 t /\ B r <= nodeStart k x < c /\ leafOf r' y /\ crit x y = true.

Lemma foundBelow_step q r' : treeNode k q -> B r <= nodeStart k q -> foundBelow (nodeEnd k q) r' <-> foundBelow (nodeStart k q) r' \/ foundFrom q r'.
Proof using.
  clear Hheight. intros Hn Hq. pose proof (node_range k q Hn) as (_ & _ & Hlt & _). split.
  - intros (x & y & H1 & H2 & H3). destruct (decide (nodeStart k x < nodeStart k q)); [left|right]; exists x, y; (split; [done|]); (split; [lia|done]).
  - intros [(x & y & H1 & H2 & H3)|(x & y & H1 & H2 & H3)]; exists x, y; (split; [done|]); (split; [lia|done]).
Qed.

Lemma flagsOf_iff P P' flags : (forall r', P r' <-> P' r') -> flagsOf P flags -> flagsOf P' flags.
Proof using. intros HP [Hz Hf]. split; [done|]. intros r' Hr'. by rewrite (Hf r' Hr'). Qed.

(** The spanning nodes of the range of the rank. *)
Lemma spanning_nodes : exists nodes, spanSfcRange k (B r) (B (r + 1)) = Some (zlen nodes, nodes) /\ (nodes ++ [B (r + 1)]).[0] = Some (B r) /\
  forall i, 0 <= i < zlen nodes -> exists q, q ∈ allKeys 1 t /\ (nodes ++ [B (r + 1)]).[i] = Some (nodeStart k q) /\
    (nodes ++ [B (r + 1)]).[i + 1] = Some (nodeEnd k q) /\ B r <= nodeStart k q /\ nodeEnd k q <= B (r + 1).
Proof using Hdepth Ho HA Hbound Hr.
  clear Hheight. destruct (boundary_ends k A HA) as [H0 Hn]. pose proof (boundary_mono k A HA 0 r ltac:(lia) ltac:(lia)).
  pose proof (boundary_mono k A HA r (r + 1) ltac:(lia) ltac:(lia)). pose proof (boundary_mono k A HA (r + 1) nR ltac:(lia) ltac:(lia)).
  destruct (decide (B r = B (r + 1))) as [E|Hne].
  - exists []. rewrite <- E, spanSfcRange_same by lia. split; [done|]. split; [done|]. intros i Hi. change (zlen (@nil Z)) with 0 in Hi. lia.
  - destruct (spanSfcRange_maximal k (B r) (B (r + 1))) as (nodes & E & Hc); [lia|lia|]. exists nodes. split; [done|].
    split; [inversion Hc; subst; done|]. intros i Hi. destruct (chain_of_get _ _ _ _ i (spanNode_lt k (B r) (B (r + 1))) Hc Hi) as (a & b & Ea & Eb & Hs & Hla & Hbh).
    destruct (spanNode_tree k t Hdepth o Ho (B r) (B (r + 1)) a b) as (q & Hq & <- & <-); [apply Hbound; lia|apply Hbound; lia|done..|]. by exists q.
Qed.

Local Abbreviation peerLoop fuel nodes := (for_loop 0 (zlen (nodes ++ [B (r + 1)]) - 1)
  (findPeersBody fuel s k A o (B r) (B (r + 1)) ellipse pbc (nodes ++ [B (r + 1)])) (replicate (Z.to_nat nR) 0)).

Lemma peerLoop_run : exists n nodes, spanSfcRange k (B r) (B (r + 1)) = Some (zlen nodes, nodes) /\ forall fuel, (n <= fuel)%nat ->
  exists flags, peerLoop fuel nodes = Some flags /\ flagsOf (foundBelow (B (r + 1))) flags.
Proof using All.
  destruct traverse_all as (n & Hn). destruct spanning_nodes as (nodes & E & E0 & Hnodes). exists n, nodes. split; [done|]. intros fuel Hfuel.
  pose proof (zlen_nonneg nodes). replace (zlen (nodes ++ [B (r + 1)]) - 1) with (zlen nodes) by (rewrite zlen_app; change (zlen [B (r + 1)]) with 1; lia).
  destruct (for_loop_inv (fun i flags => exists c, (nodes ++ [B (r + 1)]).[i] = Some c /\ flagsOf (foundBelow c) flags)
    0 (zlen nodes) (findPeersBody fuel s k A o (B r) (B (r + 1)) ellipse pbc (nodes ++ [B (r + 1)])) (replicate (Z.to_nat nR) 0)) as (flags & Hrun & c & Hc & Hflags).
  - done.
  - exists (B r). split; [done|]. split; [unfold zlen; rewrite length_replicate; pose proof (va_ranks _ _ HA); lia|]. intros r' Hr'. split.
    + unfold nthz. rewrite aget_lookup, lookup_replicate_2 by lia. done.
    + intros (x & y & _ & Hx & _). lia.
  - intros i flags Hi (c & Hc & Hflags). destruct (Hnodes i Hi) as (q & Hq & Ea & Eb & H1 & H2). rewrite Ea in Hc. injection Hc as <-.
    destruct (Hn q Hq H1 H2 fuel _ flags Hfuel Hflags) as (flags' & Et & Hf'). exists flags'. split.
    + unfold findPeersBody. rewrite Ea, Eb. rewrite (locateNodeKeys_correct k t Hdepth o Ho q Hq). exact Et.
    + exists (nodeEnd k q). split; [done|]. eapply flagsOf_iff; [|exact Hf']. intros r'. by rewrite (foundBelow_step q r' (key_treeNode k t Hdepth q Hq) H1).
  - rewrite aget_app_r in Hc by lia. rewrite Z.sub_diag in Hc. injection Hc as <-. by exists flags.
Qed.

End Rank.

(** The ranks other than [r] that own a leaf too close to a leaf of rank [r]. *)
Definition isPeer (r r' : Z) : Prop := r' <> r /\ exists x y, leafOf r x /\ leafOf r' y /\ nearLeaves x y.

Lemma foundBelow_isPeer r r' : 0 <= r < nR -> 0 <= r' < nR -> foundBelow r (B (r + 1)) r' <-> isPeer r r'.
Proof using Hdepth HA Hbound.
  intros Hr Hr'. assert (Hother : forall y, leafOf r' y -> ~ (B r <= nodeStart k y < B (r + 1)) <-> r' <> r).
  { intros y [Hy Hry]. split; [by intros H ->|]. intros Hne Hin.
    apply (findRank_iff k A HA _ r Hr) in Hin. apply (findRank_iff k A HA _ r' Hr') in Hry. congruence. }
  unfold foundBelow, isPeer. split.
  - intros (x & y & Hx & Hrx & Hy & Hc). apply crit_leaves in Hc as (_ & Hno & Hnear); [|done|done|apply Hy]. split; [by apply (Hother y)|].
    by exists x, y.
  - intros (Hne & x & y & [Hx Hrx] & Hy & Hnear). exists x, y. split; [done|]. split; [done|]. split; [done|].
    apply crit_leaves; [done|done|apply Hy|]. split; [done|]. split; [by apply (Hother y)|done].
Qed.

Lemma isPeer_sym r r' : isPeer r r' <-> isPeer r' r.
Proof using Hdepth Hpbc.
  assert (H : forall a b, isPeer a b -> isPeer b a); [|by split; apply H].
  intros a b (Hne & x & y & Hx & Hy & Hnear). split; [done|]. exists y, x. split; [done|]. split; [done|]. unfold nearLeaves in *.
  rewrite (minMac_sym k ellipse pbc Hpbc); [done|apply keyBox_grid, leaf_node, Hy|apply keyBox_grid, leaf_node, Hx].
Qed.

End Peers.

(** The flags of [findPeersMac]. *)
Lemma elem_of_flagged flags r : r ∈ flagged flags <-> 0 <= r < zlen flags /\ nthz flags r <> 0.
Proof. unfold flagged. rewrite list_elem_of_filter, elem_of_seqZ. split; intros [? ?]; (split; [lia || done|done || lia]). Qed.

Lemma pbcGrid_ok {T} `{!Scalar T} k (box : Box T) : let '(px, py, pz) := pbcGrid k box in
  (px = 0 \/ px = 2 ^ maxTreeLevel k) /\ (py = 0 \/ py = 2 ^ maxTreeLevel k) /\ (pz = 0 \/ pz = 2 ^ maxTreeLevel k).
Proof.
  unfold pbcGrid. assert (u32 (Z.shiftl 1 (maxTreeLevel k)) = 2 ^ maxTreeLevel k) as -> by by destruct k.
  destruct (isPeriodic (boundaryX box)), (isPeriodic (boundaryY box)), (isPeriodic (boundaryZ box)); cbn [Z.b2z]; rewrite ?Z.mul_1_l, ?Z.mul_0_l; auto.
Qed.
