(* ===== verification/Marking.v ===== *)
(** * Marking traversals

    A single traversal whose criterion marks the nodes it accepts, as in [findCollisions] of
    [cstone/traversal/collisions.hpp] and [markMacPerBox] of [cstone/traversal/macs.hpp], marks
    a node exactly if the criterion holds for the node and all of its ancestors.  Hence the
    parallel loops over the targets give the same markings in every execution order. *)

From S2P Require Import Prelude Primitives SfcCommon Csarray CsInvariant CsRebalance CsCounts SfcBox Morton Hilbert Sfc BoxOverlap Octree OctreeNodes OctreeBuild OctreeQueries IndexRanges DomainDecomp Scalars FloatBox Traversal NodeLookup Macs.

(** ** Sets of marked indices *)

(** [flags'] is [flags] with the indices of [P] marked in addition. *)
Definition marksMore (flags flags' : list Z) (P : Z -> Prop) : Prop :=
  zlen flags' = zlen flags /\ forall j, nthz flags' j <> 0 <-> nthz flags j <> 0 \/ P j.

Lemma marksMore_refl flags (P : Z -> Prop) : (forall j, ~ P j) -> marksMore flags flags P.
Proof. intros HP. split; [done|]. intros j. split; [by left|]. intros [|H]; [done|]. by destruct (HP j). Qed.

Lemma marksMore_trans f g h (P Q R : Z -> Prop) : marksMore f g P -> marksMore g h Q -> (forall j, R j <-> P j \/ Q j) -> marksMore f h R.
Proof. intros [E1 H1] [E2 H2] HR. split; [congruence|]. intros j. rewrite H2, H1, HR. tauto. Qed.

Lemma marksMore_iff f g (P Q : Z -> Prop) : (forall j, P j <-> Q j) -> marksMore f g P -> marksMore f g Q.
Proof. intros HPQ [E H]. split; [done|]. intros j. by rewrite H, HPQ. Qed.

(** The two ways in which the code marks an index. *)
Lemma aset_marks flags i : 0 <= i < zlen flags -> exists flags', aset flags i 1 = Some flags' /\ marksMore flags flags' (eq i).
Proof.
  intros Hi. pose proof (aset_Some flags i 1 Hi) as F. eexists. split; [exact F|]. split; [by apply (aset_zlen _ _ _ _ F)|].
  intros j. destruct (decide (i = j)) as [<-|Hne].
  - rewrite (nthz_Some _ _ _ (aget_aset_eq _ _ _ _ F)). split; [by right|done].
  - unfold nthz. rewrite (aget_aset_ne _ _ _ _ _ F) by done. split; [by left|by intros [|]].
Qed.

Lemma aset_unmarked_marks flags i : 0 <= i < zlen flags ->
  exists flags', (let? m := flags.[i] in if m =? 0 then aset flags i 1 else Some flags) = Some flags' /\ marksMore flags flags' (eq i).
Proof.
  intros Hi. rewrite (nthz_get flags i Hi). destruct (Z.eqb_spec (nthz flags i) 0) as [E|E]; [by apply aset_marks|].
  exists flags. split; [done|]. split; [done|]. intros j. split; [by left|]. intros [|<-]; done.
Qed.

(** A loop in which iteration [i] marks [P i]. *)
Lemma foldM_marks {A} (body : A -> list Z -> option (list Z)) (P : A -> Z -> Prop) n order : forall flags,
  (forall i flags, i ∈ order -> zlen flags = n -> exists flags', body i flags = Some flags' /\ marksMore flags flags' (P i)) -> zlen flags = n ->
  exists flags', foldM body order flags = Some flags' /\ marksMore flags flags' (fun j => exists i, i ∈ order /\ P i j).
Proof.
  induction order as [|i order IH]; intros flags Hb Hn; cbn [foldM].
  - exists flags. split; [done|]. apply marksMore_refl. intros j (i & ?%not_elem_of_nil & _). done.
  - destruct (Hb i flags ltac:(by left) Hn) as (f1 & -> & H1). destruct (IH f1) as (f2 & -> & H2); [intros; apply Hb; [by right|done]|by destruct H1 as [-> _]|].
    exists f2. split; [done|]. eapply marksMore_trans; [exact H1|exact H2|]. intros j. split.
    + intros (i' & [->|Hi']%elem_of_cons & HP); [by left|right; by exists i'].
    + intros [HP|(i' & Hi' & HP)]; [exists i; split; [by left|done]|exists i'; split; [by right|done]].
Qed.

(** ** The traversal *)

Section Marking.
Context (k : KeyType) (t : otree) (o : OctreeArrays).
Hypothesis Hdepth : depthLe (maxTreeLevel k) t.
Hypothesis Ho : linked k t o.

(** The criterion holds for the node and its ancestors. *)
Definition reached (crit : Z -> bool) (q : Z) : Prop := q ∈ allKeys 1 t /\ forall p, p ∈ allKeys 1 t -> below p q -> crit p = true.

Context (CM : Z -> list Z -> option (bool * list Z)) (C : Z -> option bool) (M : Z -> list Z -> option (list Z)) (crit : Z -> bool).
Hypothesis HCM : forall i flags, CM i flags = updating C M i flags.
Hypothesis HC : forall q, q ∈ allKeys 1 t -> C (pos o q) = Some (crit q).
Hypothesis HM : forall i flags, 0 <= i < zlen flags -> exists flags', M i flags = Some flags' /\ marksMore flags flags' (eq i).

Lemma visit_ext {S} (C1 C2 : Z -> S -> option (bool * S)) A idx : (forall i s, C1 i s = C2 i s) -> forall u p s, visit C1 A idx p u s = visit C2 A idx p u s.
Proof using.
  intros HE u. induction u as [|f IH]; intros p s; cbn [visit]; rewrite HE; destruct (C2 (idx p) s) as [[[] s1]|]; try done.
  revert s1. generalize octants as l. intros l. induction l as [|c l IHl]; intros s1; [done|]. cbn [foldM]. rewrite IH. by destruct (visit C2 A idx _ _ s1).
Qed.

Lemma marking_run flags : zlen flags = zlen (prefixes o) ->
  exists flags', singleTraversal CM (fun _ s => Some s) (childOffsets o) (parents o) flags = Some flags' /\
    marksMore flags flags' (fun j => exists q, reached crit q /\ pos o q = j).
Proof using All.
  intros Hlen. rewrite (singleTraversal_visit _ _ k t o Hdepth Ho), (visit_ext CM (updating C M)) by done.
  rewrite (visit_trace crit (pos o) C M _ 1 t flags HC).
  destruct (foldM_marks (traceStep (pos o) M (fun _ s => Some s)) (fun e j => e.2 = false /\ pos o e.1 = j) (zlen (prefixes o)) (trace crit 1 t) flags)
    as (flags' & -> & Hm); [|done|].
  - intros [q last] fl Hq Hfl. cbn [traceStep]. destruct last.
    + exists fl. split; [done|]. apply marksMore_refl. by intros j [? _].
    + apply trace_elem in Hq as [Hq _]; [|done]. destruct (HM (pos o q) fl) as (fl' & -> & Hf); [|exists fl'; split; [done|]; eapply marksMore_iff; [|exact Hf]; intros j; split; [done|by intros [_ ?]]].
      rewrite Hfl. by apply (pos_range k t o Ho).
  - exists flags'. split; [done|]. eapply marksMore_iff; [|exact Hm]. intros j. split.
    + intros ([q last] & Hq & Hl & Hj). cbn in Hl, Hj. subst last. apply trace_elem in Hq; [|done]. by exists q.
    + intros (q & Hq & Hj). exists (q, false). split; [by apply trace_elem|done].
Qed.

End Marking.

(** ** Halos *)

Section Halos.
Context {T : Type} `{!Scalar T}.
Context (s : SfcKind) (k : KeyType) (t : otree) (o : OctreeArrays) (box : Box T).
Hypothesis Hdepth : depthLe (maxTreeLevel k) t.
Hypothesis Ho : linked k t o.

(** Center and size of node [q]. *)
Definition nodeGeometry (q : Z) : Vec3 T * Vec3 T := centerAndSize k (sfcIBox s k (nodeStart k q) (nodeLevel q)) box.

(** The arrays that [nodeFpCenters] fills. *)
Definition geometryArrays (centers sizes : list (Vec3 T)) : Prop :=
  forall q, q ∈ allKeys 1 t -> centers.[pos o q] = Some (nodeGeometry q).1 /\ sizes.[pos o q] = Some (nodeGeometry q).2.

Context (nodeCenters nodeSizes : list (Vec3 T)).
Hypothesis Hgeo : geometryArrays nodeCenters nodeSizes.

(** Node [q] is not inside of the key range and overlaps the target box. *)
Definition collides (lo hi : Z) (c sz : Vec3 T) (q : Z) : bool :=
  negb (containedInKeys (nodeStart k q) (nodeEnd k q) lo hi) && overlapCoords (nodeGeometry q).1 (nodeGeometry q).2 c sz box.

Lemma findCollisions_run lo hi c sz flags : zlen flags = zlen (prefixes o) ->
  exists flags', findCollisions k (prefixes o) (childOffsets o) (parents o) nodeCenters nodeSizes c sz box lo hi flags = Some flags' /\
    marksMore flags flags' (fun j => exists q, reached t (collides lo hi c sz) q /\ pos o q = j).
Proof using Hdepth Ho Hgeo.
  intros Hlen. unfold findCollisions.
  apply (marking_run k t o Hdepth Ho (overlapsMark k (prefixes o) nodeCenters nodeSizes c sz box lo hi)
    (fun i => let? prefix := (prefixes o).[i] in let '(nk1, nk2) := decodePlaceholderBit2K k prefix in
      if containedInKeys nk1 nk2 lo hi then Some false else let? ci := nodeCenters.[i] in let? si := nodeSizes.[i] in Some (overlapCoords ci si c sz box))
    (fun i fl => aset fl i 1)); [| |intros i fl; apply aset_marks|done].
  - intros i fl. unfold overlapsMark, updating. destruct ((prefixes o).[i]) as [p|]; [|done]. destruct (decodePlaceholderBit2K k p) as [nk1 nk2].
    destruct (containedInKeys nk1 nk2 lo hi); [done|]. destruct (nodeCenters.[i]); [|done]. destruct (nodeSizes.[i]); [|done]. by destruct (overlapCoords _ _ _ _ _).
  - intros q Hq. destruct (Hgeo q Hq) as [Ec Es]. rewrite (node_pos k t o Ho q Hq), (decode2K_node k q (key_treeNode k t Hdepth q Hq)). unfold collides.
    destruct (containedInKeys _ _ lo hi); [done|]. by rewrite Ec, Es.
Qed.

(** Targets whose search box is not inside of the key range. *)
Context (searchCenters searchSizes : list (Vec3 T)) (leaves : list Z) (firstNode lastNode lo hi : Z).
Hypothesis Hlo : leaves.[firstNode] = Some lo.
Hypothesis Hhi : leaves.[lastNode] = Some hi.

Definition searchBox (i : Z) (c sz : Vec3 T) (inside : bool) : Prop :=
  searchCenters.[i] = Some c /\ searchSizes.[i] = Some sz /\ containedInCoords s k lo hi c sz box = Some inside.

Hypothesis Hsearch : forall i, firstNode <= i < lastNode -> exists c sz inside, searchBox i c sz inside.

Lemma findHalosIn_run order flags : order ≡ₚ seqZ firstNode (lastNode - firstNode) -> zlen flags = zlen (prefixes o) ->
  exists flags', findHalosIn order s k (prefixes o) (childOffsets o) (parents o) nodeCenters nodeSizes leaves searchCenters searchSizes box
      firstNode lastNode flags = Some flags' /\
    marksMore flags flags' (fun j => exists i c sz q, firstNode <= i < lastNode /\ searchBox i c sz false /\ reached t (collides lo hi c sz) q /\ pos o q = j).
Proof using All.
  intros Hord Hlen. unfold findHalosIn. rewrite Hlo, Hhi.
  assert (Hin : forall i, i ∈ order <-> firstNode <= i < lastNode) by (intros i; rewrite Hord, elem_of_seqZ; lia).
  destruct (foldM_marks (findHalosBody s k (prefixes o) (childOffsets o) (parents o) nodeCenters nodeSizes searchCenters searchSizes box lo hi)
    (fun i j => exists c sz q, searchBox i c sz false /\ reached t (collides lo hi c sz) q /\ pos o q = j) (zlen (prefixes o)) order flags) as (flags' & -> & Hm); [|done|].
  - intros i fl Hi Hfl. destruct (Hsearch i) as (c & sz & inside & Ec & Es & Eb); [by apply Hin|]. unfold findHalosBody. rewrite Ec, Es, Eb. destruct inside.
    + exists fl. split; [done|]. apply marksMore_refl. intros j (c' & sz' & q & (Ec' & Es' & Eb') & _). congruence.
    + destruct (findCollisions_run lo hi c sz fl Hfl) as (fl' & -> & Hf). exists fl'. split; [done|]. eapply marksMore_iff; [|exact Hf]. intros j. split.
      * intros (q & Hq). by exists c, sz, q.
      * intros (c' & sz' & q & (Ec' & Es' & _) & Hq). exists q. congruence.
  - exists flags'. split; [done|]. eapply marksMore_iff; [|exact Hm]. intros j. split.
    + intros (i & Hi%Hin & c & sz & q & H). by exists i, c, sz, q.
    + intros (i & c & sz & q & Hi%Hin & H). exists i. split; [done|]. by exists c, sz, q.
Qed.

End Halos.

(** ** Acceptance criteria *)

Section MacMarks.
Context {T : Type} `{!Scalar T}.
Context (s : SfcKind) (k : KeyType) (t : otree) (o : OctreeArrays) (box : Box T).
Hypothesis Hdepth : depthLe (maxTreeLevel k) t.
Hypothesis Ho : linked k t o.
Context (centers : list (Vec3 T * T)) (centerOf : Z -> Vec3 T * T).
Hypothesis Hcenters : forall q, q ∈ allKeys 1 t -> centers.[pos o q] = Some (centerOf q).

Lemma node_prefixLength q : treeNode k q -> decodePrefixLength k q / 3 = nodeLevel q.
Proof using.
  intros [Hq Hl]. rewrite (nodeAt_decode k _ q Hq Hl), (Z.mul_comm 3). by apply Z.div_mul.
Qed.

(** Node [q] is not inside of the focus, not below the level limit, and fails the criterion. *)
Definition failsMac (lo hi : Z) (c sz : Vec3 T) (maxLevel : Z) (q : Z) : bool :=
  negb (containedInKeys (nodeStart k q) (nodeEnd k q) lo hi) && (evaluateMacPbc (centerOf q).1 (centerOf q).2 c sz box && (nodeLevel q <=? maxLevel)).

Lemma markMacPerBox_run lo hi c sz maxLevel flags : zlen flags = zlen (prefixes o) ->
  exists flags', markMacPerBox k c sz maxLevel (prefixes o) (childOffsets o) (parents o) centers box lo hi flags = Some flags' /\
    marksMore flags flags' (fun j => exists q, reached t (failsMac lo hi c sz maxLevel) q /\ pos o q = j).
Proof using Hdepth Ho Hcenters.
  intros Hlen. unfold markMacPerBox.
  apply (marking_run k t o Hdepth Ho (checkAndMarkMac k c sz maxLevel (prefixes o) centers box lo hi)
    (fun i => let? prefix := (prefixes o).[i] in let level := decodePrefixLength k prefix / 3 in let start := decodePlaceholderBit k prefix in
      if containedInKeys start (kwrap k (start + nodeRange k level)) lo hi then Some false
      else let? ci := centers.[i] in Some (evaluateMacPbc ci.1 ci.2 c sz box && (level <=? maxLevel)))
    (fun i fl => let? m := fl.[i] in if m =? 0 then aset fl i 1 else Some fl)); [| |intros i fl; apply aset_unmarked_marks|done].
  - intros i fl. unfold checkAndMarkMac, updating. destruct ((prefixes o).[i]) as [p|]; [|done]. cbn zeta.
    destruct (containedInKeys _ _ lo hi); [done|]. destruct (centers.[i]) as [ci|]; [|done]. by destruct (evaluateMacPbc _ _ _ _ _ && _).
  - intros q Hq. pose proof (key_treeNode k t Hdepth q Hq) as Hn. rewrite (node_pos k t o Ho q Hq), (Hcenters q Hq), (node_prefixLength q Hn). cbn zeta.
    fold (nodeStart k q). pose proof (node_range k q Hn) as (H0 & HE & Hlt & _). unfold failsMac. destruct Hn as [[Hl0 _] Hl]. kfacts k.
    rewrite nodeRange_pow8 by lia. fold (nodeEnd k q). rewrite kwrap_small by lia. by destruct (containedInKeys _ _ lo hi).
Qed.

Context (focusNodes : list Z) (numFocusNodes lo hi : Z) (limitSource : bool).
Hypothesis Hlo : focusNodes.[0] = Some lo.
Hypothesis Hhi : focusNodes.[numFocusNodes] = Some hi.

(** Target [i]: its box, whether it is skipped, its center and size, and the level limit. *)
Definition macTarget (i : Z) : IBox := sfcIBoxKeys s k (nthz focusNodes i) (nthz focusNodes (i + 1)).
Definition macSkipped (i : Z) : bool :=
  let b := macTarget i in containedInBox s k lo hi (mkIBox (xmin b - 1) (xmax b + 1) (ymin b - 1) (ymax b + 1) (zmin b - 1) (zmax b + 1)).
Definition macLevel (i : Z) : Z :=
  if limitSource then Z.max (treeLevel k (kwrap k (nthz focusNodes (i + 1) - nthz focusNodes i)) - 1) 0 else maxTreeLevel k.
Definition failsMacWith (i q : Z) : bool :=
  failsMac lo hi (centerAndSize k (macTarget i) box).1 (centerAndSize k (macTarget i) box).2 (macLevel i) q.

Lemma markMacsIn_run order flags : order ≡ₚ seqZ 0 numFocusNodes -> zlen flags = zlen (prefixes o) ->
  exists flags', markMacsIn order s k (prefixes o) (childOffsets o) (parents o) centers box focusNodes numFocusNodes limitSource flags = Some flags' /\
    marksMore flags flags' (fun j => exists i q, 0 <= i < numFocusNodes /\ macSkipped i = false /\ reached t (failsMacWith i) q /\ pos o q = j).
Proof using All.
  intros Hord Hlen. unfold markMacsIn. rewrite Hlo, Hhi.
  assert (Hin : forall i, i ∈ order <-> 0 <= i < numFocusNodes) by (intros i; rewrite Hord, elem_of_seqZ; lia).
  destruct (foldM_marks (markMacsBody s k (prefixes o) (childOffsets o) (parents o) centers box focusNodes lo hi limitSource)
    (fun i j => exists q, macSkipped i = false /\ reached t (failsMacWith i) q /\ pos o q = j) (zlen (prefixes o)) order flags) as (flags' & -> & Hm); [|done|].
  - intros i fl Hi%Hin Hfl. pose proof (aget_Some_range _ _ _ Hhi). unfold markMacsBody. rewrite !nthz_get by lia. fold (macTarget i). cbn zeta.
    change (containedInBox _ _ _ _ _) with (macSkipped i). destruct (macSkipped i) eqn:Hs.
    + exists fl. split; [done|]. apply marksMore_refl. by intros j (q & ? & _).
    + destruct (centerAndSize k (macTarget i) box) as [c sz] eqn:E. fold (macLevel i). 
      destruct (markMacPerBox_run lo hi c sz (macLevel i) fl Hfl) as (fl' & -> & Hf). exists fl'. split; [done|]. eapply marksMore_iff; [|exact Hf].
      unfold failsMacWith. rewrite E. cbn [fst snd]. intros j. split; [intros (q & Hq); by exists q|intros (q & _ & Hq); by exists q].
  - exists flags'. split; [done|]. eapply marksMore_iff; [|exact Hm]. intros j. split.
    + intros (i & Hi%Hin & q & H). by exists i, q.
    + intros (i & q & Hi%Hin & H). exists i. split; [done|]. by exists q.
Qed.

End MacMarks.
