(* ===== verification/ExactGeometry.v ===== *)
(** * Geometry in exact arithmetic

    The periodic distance of [cstone/sfc/box.hpp] and the overlap test of
    [cstone/traversal/boxoverlap.hpp] with rational coordinates: the distance is the smallest
    over all periodic images, and a box that contains another one overlaps whatever the inner
    one overlaps. *)

From Stdlib Require Import QArith Qround Qabs Lqa.
From S2P Require Import Prelude Primitives SfcCommon Csarray CsInvariant CsRebalance CsCounts SfcBox Morton Hilbert Sfc BoxOverlap Octree OctreeNodes OctreeBuild OctreeQueries IndexRanges DomainDecomp Scalars FloatBox Traversal NodeLookup Macs Peers Marking.
#[local] Open Scope Z_scope.

(** ** Rounding *)

Lemma rint_cases x : exists q, (inject_Z q <= x < inject_Z q + 1)%Q /\
  ((Exact.rint x = q /\ (x - inject_Z q <= 1 # 2)%Q) \/ (Exact.rint x = q + 1 /\ (1 # 2 <= x - inject_Z q)%Q)).
Proof.
  exists (Qfloor x). pose proof (Qfloor_le x). pose proof (Qlt_floor x) as Hlt. rewrite inject_Z_plus in Hlt. split; [done|].
  unfold Exact.rint. set (q := Qfloor x) in *. destruct (Exact.ltb (x - inject_Z q) (1 # 2)) eqn:E1.
  - left. apply ltb_lt in E1. split; [done|lra].
  - destruct (Exact.ltb (1 # 2) (x - inject_Z q)) eqn:E2; apply ltb_ge in E1.
    + right. split; [done|lra].
    + apply ltb_ge in E2. destruct (Z.even q); [left|right]; (split; [done|lra]).
Qed.

(** No integer is nearer than [rint]. *)
Lemma rint_nearest x n : (Qabs (x - inject_Z (Exact.rint x)) <= Qabs (x - inject_Z n))%Q.
Proof.
  destruct (rint_cases x) as (q & Hq & Hr).
  assert (Hn : (inject_Z n <= inject_Z q)%Q \/ (inject_Z q + 1 <= inject_Z n)%Q).
  { destruct (Z.le_gt_cases n q); [left; by rewrite <- Zle_Qle|right]. change 1%Q with (inject_Z 1). rewrite <- inject_Z_plus, <- Zle_Qle. lia. }
  pose proof (Qle_Qabs (x - inject_Z n)) as H1. pose proof (Qle_Qabs (- (x - inject_Z n))) as H2. rewrite Qabs_opp in H2.
  apply Qabs_Qle_condition. destruct Hr as [[-> Hr]|[-> Hr]]; [|rewrite inject_Z_plus; change (inject_Z 1) with 1%Q]; destruct Hn; lra.
Qed.

(** ** Periodic distance *)

(** One coordinate of [applyPbc]. *)
Definition wrapDistance (pbc : bool) (l il x : Q) : Q := (x - s_bool pbc * l * s_rint (x * il))%Q.

Lemma wrapDistance_shift pbc l x : (0 < l)%Q -> exists n : Z, (pbc = true \/ n = 0) /\ (wrapDistance pbc l (s_ofZ 1 / l)%S x == x - l * inject_Z n)%Q.
Proof.
  intros Hl. unfold wrapDistance. cbn [s_rint Exact.scalar]. destruct pbc.
  - eexists. split; [by left|]. unfold s_bool. cbn. rewrite Qmult_1_l. reflexivity.
  - exists 0. split; [by right|]. unfold s_bool. cbn. ring.
Qed.

(** In a periodic dimension the distance is minimal over all images, in the others it is the
    difference. *)
Lemma wrapDistance_min pbc l x n : (0 < l)%Q -> pbc = true \/ n = 0 -> (Qabs (wrapDistance pbc l (s_ofZ 1 / l)%S x) <= Qabs (x - l * inject_Z n))%Q.
Proof.
  intros Hl Hn. unfold wrapDistance. cbn [s_rint s_div s_ofZ Exact.scalar]. destruct pbc.
  - assert (Hs : forall m, (x - l * inject_Z m == l * (x * (inject_Z 1 / l) - inject_Z m))%Q) by (intros m; change (inject_Z 1) with 1%Q; field; intros E; rewrite E in Hl; discriminate).
    unfold s_bool. cbn [Z.b2z s_ofZ Exact.scalar]. change (inject_Z 1) with 1%Q at 1. rewrite Qmult_1_l, !Hs, !Qabs_Qmult, (Qabs_pos l) by lra.
    rewrite (Qmult_comm l (Qabs _)), (Qmult_comm l (Qabs (_ - inject_Z n))). apply Qmult_le_compat_r; [|lra]. apply rint_nearest.
  - destruct Hn as [|Hn]; [done|]; subst n. unfold s_bool. cbn [Z.b2z s_ofZ s_mul s_sub Exact.scalar].
    change (inject_Z 0) with 0%Q. set (r := inject_Z (Exact.rint _)). assert (x - 0 * l * r == x - l * 0)%Q as -> by ring. apply Qle_refl.
Qed.

(** ** Overlap *)

(** One coordinate of the overlap test. *)
Definition overlap1 (pbc : bool) (l aCenter aSize bCenter bSize : Q) : bool :=
  (s_abs (wrapDistance pbc l (s_ofZ 1 / l) (bCenter - aCenter)) - aSize - bSize <? s_ofZ 0)%S.

(** The interval [a] is inside of [a']. *)
Lemma overlap1_mono pbc l ca sa ca' sa' cb sb : (0 < l)%Q -> (Qabs (ca - ca') + sa <= sa')%Q ->
  overlap1 pbc l ca sa cb sb = true -> overlap1 pbc l ca' sa' cb sb = true.
Proof.
  intros Hl Hin. unfold overlap1. cbn [s_ltb s_abs s_sub s_ofZ Exact.scalar]. rewrite !ltb_lt. change (inject_Z 0) with 0%Q. intros H.
  destruct (wrapDistance_shift pbc l (cb - ca) Hl) as (n & Hn & E). rewrite E in H.
  pose proof (wrapDistance_min pbc l (cb - ca') n Hl Hn) as Hmin.
  assert (Htri : (Qabs (cb - ca' - l * inject_Z n) <= Qabs (cb - ca - l * inject_Z n) + Qabs (ca - ca'))%Q).
  { assert (cb - ca' - l * inject_Z n == (cb - ca - l * inject_Z n) + (ca - ca'))%Q as -> by ring. apply Qabs_triangle. }
  cbn [s_div s_ofZ Exact.scalar] in Hmin. lra.
Qed.

(** A box with positive edges as the constructors build it. *)
Definition goodBox (box : Box Q) : Prop :=
  ((0 < lx box)%Q /\ ilx box = (s_ofZ 1 / lx box)%S) /\ ((0 < ly box)%Q /\ ily box = (s_ofZ 1 / ly box)%S) /\ ((0 < lz box)%Q /\ ilz box = (s_ofZ 1 / lz box)%S).

Lemma Box_new_good xmin xmax ymin ymax zmin zmax bx by_ bz :
  (xmin < xmax)%Q -> (ymin < ymax)%Q -> (zmin < zmax)%Q -> goodBox (Box_new xmin xmax ymin ymax zmin zmax bx by_ bz).
Proof. intros Hx Hy Hz. unfold goodBox. cbn. repeat split; lra. Qed.

Lemma overlapCoords_dims aC aS bC bS box : goodBox box ->
  overlapCoords aC aS bC bS box = overlap1 (isPeriodic (boundaryX box)) (lx box) (vx aC) (vx aS) (vx bC) (vx bS) &&
    overlap1 (isPeriodic (boundaryY box)) (ly box) (vy aC) (vy aS) (vy bC) (vy bS) && overlap1 (isPeriodic (boundaryZ box)) (lz box) (vz aC) (vz aS) (vz bC) (vz bS).
Proof.
  intros ([_ Ex] & [_ Ey] & [_ Ez]). unfold overlapCoords, overlap1, wrapDistance, applyPbc. cbn [vx vy vz vsub vabs vmap vmap2]. by rewrite Ex, Ey, Ez.
Qed.

(** ** Nodes *)

Section Nodes.
Context (s : SfcKind) (k : KeyType) (box : Box Q).
Hypothesis Hbox : goodBox box.

Lemma nested_interval (h b : Q) a1 a2 b1 b2 : (0 <= h)%Q -> b1 <= a1 -> a2 <= b2 ->
  (Qabs ((b + inject_Z (a2 + a1) * h) - (b + inject_Z (b2 + b1) * h)) + inject_Z (a2 - a1) * h <= inject_Z (b2 - b1) * h)%Q.
Proof using.
  intros Hh H1 H2.
  assert (E : (b + inject_Z (a2 + a1) * h - (b + inject_Z (b2 + b1) * h) == inject_Z (a2 + a1 - (b2 + b1)) * h)%Q).
  { unfold Z.sub. rewrite !inject_Z_plus, inject_Z_opp, inject_Z_plus. ring. }
  rewrite E, Qabs_Qmult, (Qabs_pos h Hh). change (Qabs (inject_Z ?x)) with (inject_Z (Z.abs x)).
  rewrite <- Qmult_plus_distr_l, <- inject_Z_plus. apply Qmult_le_compat_r; [|done]. rewrite <- Zle_Qle. lia.
Qed.

Lemma halfUnit_nonneg (l : Q) : (0 < l)%Q -> (0 <= s_ratio 1 2 * (s_ofZ 1 / s_ofZ (u32 (Z.shiftl 1 (maxTreeLevel k)))) * l)%S%Q.
Proof using.
  intros Hl. cbn [s_ratio s_div s_mul s_ofZ Exact.scalar]. apply Qlt_le_weak, Qmult_lt_0_compat; [|done]. by destruct k.
Qed.

(** What overlaps a node overlaps its ancestors. *)
Lemma node_overlap_mono p q c sz : treeNode k p -> treeNode k q -> below p q ->
  overlapCoords (nodeGeometry s k box q).1 (nodeGeometry s k box q).2 c sz box = true ->
  overlapCoords (nodeGeometry s k box p).1 (nodeGeometry s k box p).2 c sz box = true.
Proof using Hbox.
  intros Hp Hq Hb. destruct (keyBox_incl s k p q Hp Hq Hb) as (Hx1 & Hx2 & Hy1 & Hy2 & Hz1 & Hz2). unfold nodeGeometry. fold (keyBox s k p). fold (keyBox s k q).
  rewrite !overlapCoords_dims by done. rewrite !andb_true_iff. pose proof Hbox as ([Hlx _] & [Hly _] & [Hlz _]). unfold centerAndSize. cbn [fst snd vx vy vz].
  intros [[H1 H2] H3]. split; [split|]; (eapply overlap1_mono; [done| |eassumption]); apply nested_interval; (done || by apply halfUnit_nonneg).
Qed.

Lemma collides_mono lo hi c sz p q : treeNode k p -> treeNode k q -> below p q ->
  collides s k box lo hi c sz q = true -> collides s k box lo hi c sz p = true.
Proof using Hbox.
  intros Hp Hq Hb. unfold collides. rewrite !andb_true_iff. intros [H1 H2]. split; [|by apply (node_overlap_mono p q)].
  destruct (below_range k _ p q (proj1 Hp) Hb (proj2 Hq)) as (_ & _ & Hs & He). fold (nodeEnd k p) in He. fold (nodeEnd k q) in He.
  unfold containedInKeys in *. rewrite negb_involutive in *. rewrite orb_true_iff, !Z.ltb_lt in *. lia.
Qed.

(** With exact arithmetic a node is reached exactly if it collides itself. *)
Lemma reached_collides t lo hi c sz q : depthLe (maxTreeLevel k) t -> q ∈ allKeys 1 t ->
  reached t (collides s k box lo hi c sz) q <-> collides s k box lo hi c sz q = true.
Proof using Hbox.
  intros Hd Hq. split.
  - intros [_ H]. apply H; [done|apply below_refl].
  - intros H. split; [done|]. intros p Hp Hb. apply (collides_mono lo hi c sz p q); [by apply (key_treeNode k t Hd)|by apply (key_treeNode k t Hd)|done|done].
Qed.

End Nodes.
