(* ===== verification/ExactCoords.v ===== *)
(** * Coordinates and grid cells in exact arithmetic

    The key of a point ([sfc3D], [cstone/sfc/sfc.hpp]) and the conversion between integer and
    coordinate boxes ([centerAndSize], [createIBox], [cstone/sfc/box.hpp]) with rational
    coordinates; the arrays of node centers and sizes ([nodeFpCenters],
    [cstone/focus/source_center.hpp]) for every coordinate type. *)

From Stdlib Require Import QArith Qround Qabs Lqa.
From S2P Require Import Prelude Primitives SfcCommon Csarray CsInvariant CsRebalance CsCounts SfcBox Morton Hilbert Sfc BoxOverlap Octree OctreeNodes OctreeBuild OctreeQueries IndexRanges DomainDecomp Scalars FloatBox Traversal NodeLookup Macs SourceCenter Peers Marking ExactGeometry.
#[local] Open Scope Z_scope.

(** ** Grid coordinates *)

(** The grid cell of a coordinate with scaled distance [w] from the lower corner: the last
    cell contains the upper corner. *)
Definition cellOf (k : KeyType) (w : Q) : Z := Z.min (Qfloor w) (2 ^ maxTreeLevel k - 1).

Lemma floor_bounds (w : Q) : (inject_Z (Qfloor w) <= w < inject_Z (Qfloor w) + 1)%Q.
Proof. split; [apply Qfloor_le|]. pose proof (Qlt_floor w) as Hw. by rewrite inject_Z_plus in Hw. Qed.

Lemma inject_lt_succ a b : (inject_Z a < inject_Z b + 1)%Q -> a <= b.
Proof. intros Hlt. change 1%Q with (inject_Z 1) in Hlt. rewrite <- inject_Z_plus, <- Zlt_Qlt in Hlt. lia. Qed.

Lemma floor_unique (w : Q) z : (inject_Z z <= w < inject_Z z + 1)%Q -> Qfloor w = z.
Proof. intros Hz. pose proof (floor_bounds w). apply Z.le_antisymm; apply inject_lt_succ; lra. Qed.

(** Truncation towards zero. *)
Lemma trunc_floor (u : Q) : (-1 < u)%Q -> s_trunc u = Some (Z.max 0 (Qfloor u)).
Proof.
  intros Hu. cbn [s_trunc Exact.scalar]. destruct u as [n d]. unfold Qlt in Hu. cbn in *. f_equal.
  destruct (Z.le_gt_cases 0 n) as [Hn|Hn].
  - rewrite Z.quot_div_nonneg by lia. pose proof (Z.div_pos n (Z.pos d) Hn ltac:(lia)). lia.
  - assert (Z.quot n (Z.pos d) = 0) as ->.
    { replace n with (- - n) by lia. rewrite Z.quot_opp_l by lia. rewrite Z.quot_small; lia. }
    assert (n / Z.pos d < 0) by (apply Z.div_lt_upper_bound; lia). lia.
Qed.

(** The code rounds the scaled coordinate before it subtracts the scaled corner: the result is
    the cell or the one below it, and the cell if the scaled corner is an integer. *)
Lemma gridCoordinate_cell k (x xmin mx : Q) : (0 <= (x - xmin) * mx)%Q -> ((x - xmin) * mx <= inject_Z (2 ^ 30))%Q ->
  exists ix, gridCoordinate k x xmin mx = Some ix /\ 0 <= ix < 2 ^ maxTreeLevel k /\
    cellOf k ((x - xmin) * mx) - 1 <= ix <= cellOf k ((x - xmin) * mx) /\
    (forall n, (xmin * mx == inject_Z n)%Q -> ix = cellOf k ((x - xmin) * mx)) /\
    ix = Z.min (Z.max 0 (Qfloor (inject_Z (Qfloor (x * mx)) - xmin * mx))) (2 ^ maxTreeLevel k - 1).
Proof.
  intros H0 HM. set (w := ((x - xmin) * mx)%Q) in *. assert (E : (w == x * mx - xmin * mx)%Q) by (unfold w; ring).
  set (u := (inject_Z (Qfloor (x * mx)) - xmin * mx)%Q). pose proof (floor_bounds (x * mx)) as Hf. pose proof (floor_bounds w) as Hw. pose proof (floor_bounds u) as Hu.
  assert (Hwu : (w - 1 < u /\ u <= w)%Q) by (unfold u; rewrite E; lra).
  assert (F1 : Qfloor w - 1 <= Qfloor u).
  { apply inject_lt_succ. unfold Z.sub. rewrite inject_Z_plus. change (inject_Z (- (1))) with (-1)%Q. lra. }
  assert (F2 : Qfloor u <= Qfloor w) by (apply inject_lt_succ; lra).
  assert (F3 : 0 <= Qfloor w) by (apply inject_lt_succ; change (inject_Z 0) with 0%Q; lra).
  assert (F4 : Qfloor w <= 2 ^ 30) by (rewrite Zle_Qle; lra).
  assert (HL : 1 <= 2 ^ maxTreeLevel k <= 2 ^ 21) by by destruct k.
  exists (Z.min (Z.max 0 (Qfloor u)) (2 ^ maxTreeLevel k - 1)). split; [|split; [lia|split; [|split; [|done]]]].
  - unfold gridCoordinate, s_toInt. cbn [s_floor s_mul s_sub Exact.scalar]. fold u. rewrite trunc_floor by lra.
    destruct (Z.leb_spec (-2147483648) (Z.max 0 (Qfloor u))); [|lia]. destruct (Z.leb_spec (Z.max 0 (Qfloor u)) 2147483647); [|lia].
    cbn [andb]. unfold stl_min. f_equal. zcase; lia.
  - unfold cellOf. lia.
  - intros n Hn. assert (Qfloor u = Qfloor w); [|unfold cellOf; lia]. symmetry. apply floor_unique.
    assert (Eu : (u == inject_Z (Qfloor (x * mx) - n))%Q) by (unfold u; rewrite Hn; unfold Z.sub; rewrite inject_Z_plus, inject_Z_opp; reflexivity).
    rewrite (floor_unique u (Qfloor (x * mx) - n)) by (rewrite Eu; lra). rewrite <- Eu. unfold u. rewrite E. lra.
Qed.

(** Larger coordinates have larger cells. *)
Lemma gridCoordinate_mono k (x y xmin mx : Q) ix iy : (0 < mx)%Q -> (xmin <= x)%Q -> (x <= y)%Q -> ((y - xmin) * mx <= inject_Z (2 ^ 30))%Q ->
  gridCoordinate k x xmin mx = Some ix -> gridCoordinate k y xmin mx = Some iy -> ix <= iy.
Proof.
  intros Hm Hx Hxy HM Ex Ey. assert (Hxm : (x * mx <= y * mx)%Q) by (apply Qmult_le_compat_r; lra).
  assert (H0 : (0 <= (x - xmin) * mx)%Q) by (apply Qmult_le_0_compat; lra).
  destruct (gridCoordinate_cell k x xmin mx) as (ix' & Ex' & _ & _ & _ & Vx); [done|lra|].
  destruct (gridCoordinate_cell k y xmin mx) as (iy' & Ey' & _ & _ & _ & Vy); [lra|lra|].
  rewrite Ex in Ex'. rewrite Ey in Ey'. injection Ex' as <-. injection Ey' as <-. rewrite Vx, Vy.
  assert (Qfloor (inject_Z (Qfloor (x * mx)) - xmin * mx) <= Qfloor (inject_Z (Qfloor (y * mx)) - xmin * mx)); [|lia].
  apply Qfloor_resp_le. pose proof (Qfloor_resp_le _ _ Hxm) as Hf. rewrite Zle_Qle in Hf. lra.
Qed.

(** ** Keys of points *)

(** A box whose edge lengths are the differences of its corners. *)
Definition exactBox (box : Box Q) : Prop :=
  goodBox box /\ (lx box == bxmax box - bxmin box)%Q /\ (ly box == bymax box - bymin box)%Q /\ (lz box == bzmax box - bzmin box)%Q.

Lemma Box_new_exact xmin xmax ymin ymax zmin zmax bx by_ bz :
  (xmin < xmax)%Q -> (ymin < ymax)%Q -> (zmin < zmax)%Q -> exactBox (Box_new xmin xmax ymin ymax zmin zmax bx by_ bz).
Proof. intros Hx Hy Hz. split; [by apply Box_new_good|]. cbn. repeat split; reflexivity. Qed.

Definition insideCoords (box : Box Q) (p : Vec3 Q) : Prop :=
  (bxmin box <= vx p <= bxmax box)%Q /\ (bymin box <= vy p <= bymax box)%Q /\ (bzmin box <= vz p <= bzmax box)%Q.

(** Number of cells per unit length. *)
Definition scaleOf (k : KeyType) (il : Q) : Q := (s_ofZ (2 ^ maxTreeLevel k) * il)%S.

Lemma scaled_range k x lo hi l il : (0 < l)%Q -> (l == hi - lo)%Q -> il = (s_ofZ 1 / l)%S -> (lo <= x <= hi)%Q ->
  (0 <= (x - lo) * scaleOf k il)%Q /\ ((x - lo) * scaleOf k il <= inject_Z (2 ^ maxTreeLevel k))%Q.
Proof.
  intros Hl El -> Hx. unfold scaleOf. cbn [s_ofZ s_mul s_div Exact.scalar]. change (inject_Z 1) with 1%Q.
  assert (HM : (0 < inject_Z (2 ^ maxTreeLevel k))%Q) by by destruct k. set (M := inject_Z (2 ^ maxTreeLevel k)) in *.
  assert (E : ((x - lo) * (M * (1 / l)) == (x - lo) * M / l)%Q) by (field; lra). rewrite E. split.
  - apply Qle_shift_div_l; [done|]. rewrite Qmult_0_l. apply Qmult_le_0_compat; lra.
  - apply Qle_shift_div_r; [done|]. rewrite (Qmult_comm M l). apply Qmult_le_compat_r; lra.
Qed.

(** Scaled distance of a point from the lower corner of the box. *)
Definition scaledX (k : KeyType) (box : Box Q) (p : Vec3 Q) : Q := ((vx p - bxmin box) * scaleOf k (ilx box))%Q.
Definition scaledY (k : KeyType) (box : Box Q) (p : Vec3 Q) : Q := ((vy p - bymin box) * scaleOf k (ily box))%Q.
Definition scaledZ (k : KeyType) (box : Box Q) (p : Vec3 Q) : Q := ((vz p - bzmin box) * scaleOf k (ilz box))%Q.

(** The cell or its predecessor. *)
Definition cellOrBelow (k : KeyType) (w : Q) (i : Z) : Prop := 0 <= i < 2 ^ maxTreeLevel k /\ cellOf k w - 1 <= i <= cellOf k w.

Lemma sfc3D_cell s k p box : exactBox box -> insideCoords box p ->
  exists ix iy iz, sfc3D s k (vx p) (vy p) (vz p) box = Some (iSfcKey s k ix iy iz) /\ isCell k (ix, iy, iz) /\
    cellOrBelow k (scaledX k box p) ix /\ cellOrBelow k (scaledY k box p) iy /\ cellOrBelow k (scaledZ k box p) iz /\
    ((bxmin box == 0)%Q -> ix = cellOf k (scaledX k box p)) /\ ((bymin box == 0)%Q -> iy = cellOf k (scaledY k box p)) /\
    ((bzmin box == 0)%Q -> iz = cellOf k (scaledZ k box p)).
Proof.
  intros [([Hlx Eix] & [Hly Eiy] & [Hlz Eiz]) (Elx & Ely & Elz)] (Hx & Hy & Hz).
  destruct (scaled_range k (vx p) _ _ _ _ Hlx Elx Eix Hx) as [X1 X2]. destruct (scaled_range k (vy p) _ _ _ _ Hly Ely Eiy Hy) as [Y1 Y2].
  destruct (scaled_range k (vz p) _ _ _ _ Hlz Elz Eiz Hz) as [Z1 Z2].
  assert (HM : (inject_Z (2 ^ maxTreeLevel k) <= inject_Z (2 ^ 30))%Q) by by destruct k.
  destruct (gridCoordinate_cell k _ _ _ X1 (Qle_trans _ _ _ X2 HM)) as (ix & Ex & Rx & Cx & Nx & _). destruct (gridCoordinate_cell k _ _ _ Y1 (Qle_trans _ _ _ Y2 HM)) as (iy & Ey & Ry & Cy & Ny & _).
  destruct (gridCoordinate_cell k _ _ _ Z1 (Qle_trans _ _ _ Z2 HM)) as (iz & Ez & Rz & Cz & Nz & _). exists ix, iy, iz.
  assert (HL : 2 ^ maxTreeLevel k <= 2 ^ 21) by by destruct k.
  split; [|split; [unfold isCell; rewrite maxCoord_pow2; lia|]].
  - unfold sfc3D, sfc3DScaled. fold (scaleOf k (ilx box)). fold (scaleOf k (ily box)). fold (scaleOf k (ilz box)). rewrite Ex, Ey, Ez.
    by rewrite !u32_small by lia.
  - split; [done|]. split; [done|]. split; [done|]. split; [|split]; intros E; [apply (Nx 0)|apply (Ny 0)|apply (Nz 0)]; rewrite E; apply Qmult_0_l.
Qed.

(** ** Integer and coordinate boxes *)

Lemma s_toInt_inject z : - 2147483648 <= z <= 2147483647 -> s_toInt (inject_Z z) = Some z.
Proof.
  intros Hz. unfold s_toInt. cbn [s_trunc Exact.scalar inject_Z Qnum Qden]. rewrite Z.quot_1_r.
  destruct (Z.leb_spec (-2147483648) z); [|lia]. by destruct (Z.leb_spec z 2147483647); [|lia].
Qed.

(** One edge of a box in coordinates, scaled back to the grid. *)
Lemma edge_scaled k (b l il : Q) lo hi : (0 < l)%Q -> il = (s_ofZ 1 / l)%S ->
  let M := inject_Z (u32 (Z.shiftl 1 (maxTreeLevel k))) in
  let h := (s_ratio 1 2 * (s_ofZ 1 / M) * l)%S in
  ((b + inject_Z (hi + lo) * h - inject_Z (hi - lo) * h - b) * il * M == inject_Z lo)%Q /\
  ((b + inject_Z (hi + lo) * h + inject_Z (hi - lo) * h - b) * il * M == inject_Z hi)%Q.
Proof.
  intros Hl ->. cbn zeta. cbn [s_ratio s_div s_mul s_ofZ Exact.scalar]. unfold Z.sub. rewrite !inject_Z_plus, inject_Z_opp.
  assert (HM : (0 < inject_Z (u32 (Z.shiftl 1 (maxTreeLevel k))))%Q) by by destruct k. set (M := inject_Z _) in *. change (inject_Z 1) with 1%Q. change (inject_Z 2) with 2%Q.
  split; field; lra.
Qed.

Lemma floor_scaled (x : Q) z : (x == inject_Z z)%Q -> - 2147483648 <= z <= 2147483647 -> s_toInt (inject_Z (Qfloor x)) = Some z.
Proof. intros -> Hz. rewrite Qfloor_Z. by apply s_toInt_inject. Qed.

Lemma ceil_scaled (x : Q) z : (x == inject_Z z)%Q -> - 2147483648 <= z <= 2147483647 -> s_toInt (inject_Z (Qceiling x)) = Some z.
Proof. intros -> Hz. rewrite Qceiling_Z. by apply s_toInt_inject. Qed.

Definition intBox (b : IBox) : Prop := Forall (fun z => - 2147483648 <= z <= 2147483647) [xmin b; xmax b; ymin b; ymax b; zmin b; zmax b].

Lemma createIBox_centerAndSize_run k b box : goodBox box -> intBox b ->
  let '(center, size) := centerAndSize k b box in createIBox k center size box = Some b.
Proof.
  intros ([Hlx Eix] & [Hly Eiy] & [Hlz Eiz]) Hb. unfold intBox in Hb. rewrite !Forall_cons in Hb. destruct Hb as (R1 & R2 & R3 & R4 & R5 & R6 & _).
  destruct (edge_scaled k (bxmin box) _ _ (xmin b) (xmax b) Hlx Eix) as [X1 X2]. destruct (edge_scaled k (bymin box) _ _ (ymin b) (ymax b) Hly Eiy) as [Y1 Y2].
  destruct (edge_scaled k (bzmin box) _ _ (zmin b) (zmax b) Hlz Eiz) as [Z1 Z2].
  unfold centerAndSize, createIBox. cbn zeta. cbn [vx vy vz vadd vsub vmap2].
  cbn [s_floor s_ceil s_add s_sub s_mul s_div s_ofZ s_ratio Exact.scalar] in *.
  erewrite (floor_scaled _ (xmin b) X1), (floor_scaled _ (ymin b) Y1), (floor_scaled _ (zmin b) Z1), (ceil_scaled _ (xmax b) X2), (ceil_scaled _ (ymax b) Y2), (ceil_scaled _ (zmax b) Z2) by done.
  by destruct b.
Qed.

(** ** Search boxes inside of a key range *)

Lemma vmin_nonneg (a : Vec3 Q) : Exact.ltb (vmin a) 0 = false -> (0 <= vx a /\ 0 <= vy a /\ 0 <= vz a)%Q.
Proof.
  unfold vmin. cbn [s_ltb Exact.scalar]. destruct (Exact.ltb (vx a) (vy a)) eqn:E1.
  - apply ltb_lt in E1. destruct (Exact.ltb (vx a) (vz a)) eqn:E2; [apply ltb_lt in E2|apply ltb_ge in E2]; intros H%ltb_ge; lra.
  - apply ltb_ge in E1. destruct (Exact.ltb (vy a) (vz a)) eqn:E2; [apply ltb_lt in E2|apply ltb_ge in E2]; intros H%ltb_ge; lra.
Qed.

Lemma vmax_nonpos (a : Vec3 Q) : Exact.ltb 0 (vmax a) = false -> (vx a <= 0 /\ vy a <= 0 /\ vz a <= 0)%Q.
Proof.
  unfold vmax. cbn [s_ltb Exact.scalar]. destruct (Exact.ltb (vy a) (vx a)) eqn:E1.
  - apply ltb_lt in E1. destruct (Exact.ltb (vz a) (vx a)) eqn:E2; [apply ltb_lt in E2|apply ltb_ge in E2]; intros H%ltb_ge; lra.
  - apply ltb_ge in E1. destruct (Exact.ltb (vz a) (vy a)) eqn:E2; [apply ltb_lt in E2|apply ltb_ge in E2]; intros H%ltb_ge; lra.
Qed.

(** The coordinates of the box extended by one grid cell on the upper side. *)
Definition nearBox (k : KeyType) (box : Box Q) (p : Vec3 Q) : Prop :=
  (bxmin box <= vx p <= bxmax box + lx box * (1 / inject_Z (2 ^ maxTreeLevel k)))%Q /\ (bymin box <= vy p <= bymax box + ly box * (1 / inject_Z (2 ^ maxTreeLevel k)))%Q /\
  (bzmin box <= vz p <= bzmax box + lz box * (1 / inject_Z (2 ^ maxTreeLevel k)))%Q.

Lemma scaled_near k x lo hi l il : (0 < l)%Q -> (l == hi - lo)%Q -> il = (s_ofZ 1 / l)%S -> (lo <= x <= hi + l * (1 / inject_Z (2 ^ maxTreeLevel k)))%Q ->
  (0 < scaleOf k il)%Q /\ (0 <= (x - lo) * scaleOf k il)%Q /\ ((x - lo) * scaleOf k il <= inject_Z (2 ^ 30))%Q.
Proof.
  intros Hl El -> Hx. unfold scaleOf. cbn [s_ofZ s_mul s_div Exact.scalar]. change (inject_Z 1) with 1%Q.
  assert (HM : (1 <= inject_Z (2 ^ maxTreeLevel k))%Q) by by destruct k. assert (HM2 : (inject_Z (2 ^ maxTreeLevel k) + 1 <= inject_Z (2 ^ 30))%Q) by by destruct k.
  set (M := inject_Z (2 ^ maxTreeLevel k)) in *.
  assert (E : ((x - lo) * (M * (1 / l)) == (x - lo) * M / l)%Q) by (field; lra). rewrite E. split; [|split].
  - apply Qmult_lt_0_compat; [lra|]. apply Qlt_shift_div_l; [done|]. lra.
  - apply Qle_shift_div_l; [done|]. rewrite Qmult_0_l. apply Qmult_le_0_compat; lra.
  - apply Qle_trans with (M + 1)%Q; [|done]. apply Qle_shift_div_r; [done|].
    assert (E2 : ((M + 1) * l == (l + l * (1 / M)) * M)%Q) by (field; lra). rewrite E2. apply Qmult_le_compat_r; lra.
Qed.

(** The key of a point near the box is that of a cell, and the cells are monotone. *)
Definition cellsOf (k : KeyType) (box : Box Q) (p : Vec3 Q) (c : Z * Z * Z) : Prop :=
  let '(ix, iy, iz) := c in gridCoordinate k (vx p) (bxmin box) (scaleOf k (ilx box)) = Some ix /\
    gridCoordinate k (vy p) (bymin box) (scaleOf k (ily box)) = Some iy /\ gridCoordinate k (vz p) (bzmin box) (scaleOf k (ilz box)) = Some iz.

Lemma sfc3D_near s k p box : exactBox box -> nearBox k box p ->
  exists c, cellsOf k box p c /\ isCell k c /\ sfc3D s k (vx p) (vy p) (vz p) box = Some (encode3 (iSfcKey s k) c).
Proof.
  intros [([Hlx Eix] & [Hly Eiy] & [Hlz Eiz]) (Elx & Ely & Elz)] (Hx & Hy & Hz).
  destruct (scaled_near k (vx p) _ _ _ _ Hlx Elx Eix Hx) as (_ & X1 & X2). destruct (scaled_near k (vy p) _ _ _ _ Hly Ely Eiy Hy) as (_ & Y1 & Y2).
  destruct (scaled_near k (vz p) _ _ _ _ Hlz Elz Eiz Hz) as (_ & Z1 & Z2).
  destruct (gridCoordinate_cell k _ _ _ X1 X2) as (ix & Ex & Rx & _). destruct (gridCoordinate_cell k _ _ _ Y1 Y2) as (iy & Ey & Ry & _).
  destruct (gridCoordinate_cell k _ _ _ Z1 Z2) as (iz & Ez & Rz & _). exists (ix, iy, iz).
  assert (HL : 2 ^ maxTreeLevel k <= 2 ^ 21) by by destruct k. split; [done|]. split; [unfold isCell; rewrite maxCoord_pow2; lia|].
  unfold sfc3D, sfc3DScaled. fold (scaleOf k (ilx box)). fold (scaleOf k (ily box)). fold (scaleOf k (ilz box)). rewrite Ex, Ey, Ez. by rewrite !u32_small by lia.
Qed.

Definition vle (a b : Vec3 Q) : Prop := (vx a <= vx b)%Q /\ (vy a <= vy b)%Q /\ (vz a <= vz b)%Q.

Lemma cells_mono k box p q c d : exactBox box -> nearBox k box p -> nearBox k box q -> vle p q -> cellsOf k box p c -> cellsOf k box q d ->
  let '(x, y, z) := c in let '(x', y', z') := d in x <= x' /\ y <= y' /\ z <= z'.
Proof.
  intros [([Hlx Eix] & [Hly Eiy] & [Hlz Eiz]) (Elx & Ely & Elz)] (Hx & Hy & Hz) (Hx' & Hy' & Hz') (V1 & V2 & V3). destruct c as [[x y] z], d as [[x' y'] z'].
  intros (C1 & C2 & C3) (D1 & D2 & D3). destruct (scaled_near k (vx q) _ _ _ _ Hlx Elx Eix Hx') as (X0 & _ & X2).
  destruct (scaled_near k (vy q) _ _ _ _ Hly Ely Eiy Hy') as (Y0 & _ & Y2). destruct (scaled_near k (vz q) _ _ _ _ Hlz Elz Eiz Hz') as (Z0 & _ & Z2).
  split; [|split]; [apply (gridCoordinate_mono k (vx p) (vx q) (bxmin box) (scaleOf k (ilx box)))|apply (gridCoordinate_mono k (vy p) (vy q) (bymin box) (scaleOf k (ily box)))|
    apply (gridCoordinate_mono k (vz p) (vz q) (bzmin box) (scaleOf k (ilz box)))]; done || tauto.
Qed.

(** The test is defined, and it accepts a search box only if the keys of all its points are in
    the range. *)
Lemma containedInCoords_run s k lo hi c sz box : exactBox box -> (0 <= vx sz /\ 0 <= vy sz /\ 0 <= vz sz)%Q ->
  exists inside, containedInCoords s k lo hi c sz box = Some inside /\
    (inside = true -> forall p, insideCoords box p -> vle (vsub c sz) p -> vle p (vadd c sz) ->
       exists key, sfc3D s k (vx p) (vy p) (vz p) box = Some key /\ lo <= key < hi).
Proof.
  intros Hbox Hsz. pose proof Hbox as [([Hlx _] & [Hly _] & [Hlz _]) _]. unfold containedInCoords. cbn zeta. cbn [s_ltb s_ofZ Exact.scalar]. change (inject_Z 0) with 0%Q.
  assert (HM : (0 < 1 / inject_Z (2 ^ maxTreeLevel k))%Q) by by destruct k.
  assert (Hstep : (0 < lx box * (1 / inject_Z (2 ^ maxTreeLevel k)) /\ 0 < ly box * (1 / inject_Z (2 ^ maxTreeLevel k)) /\ 0 < lz box * (1 / inject_Z (2 ^ maxTreeLevel k)))%Q)
    by (split; [|split]; by apply Qmult_lt_0_compat).
  assert (Hnear : forall p, insideCoords box p -> nearBox k box p) by (unfold insideCoords, nearBox; intros p (P1 & P2 & P3); split; [|split]; lra).
  destruct (Exact.ltb _ 0 || _) eqn:Hout.
  - eexists. split; [done|]. rewrite andb_true_iff, !Z.eqb_eq, nodeRange_0. intros [-> ->] p Hp _ _.
    destruct (sfc3D_near s k p box Hbox (Hnear p Hp)) as (d & _ & Hd & ->). eexists. split; [done|]. by apply (sfc_enc_range (enc := iSfcKey s k) (dec := decodeSfc s k)).
  - apply orb_false_iff in Hout as [Hmin%vmin_nonneg Hmax%vmax_nonpos]. cbn [vx vy vz vsub vadd vmap2 s_sub s_add Exact.scalar] in Hmin, Hmax.
    set (pmin := vsub c sz). set (pmax := vadd (vadd c sz) _).
    assert (Hlo : nearBox k box pmin) by (unfold nearBox, pmin; cbn [vx vy vz vsub vmap2 s_sub Exact.scalar]; split; [|split]; lra).
    assert (Hhi : nearBox k box pmax).
    { unfold nearBox, pmax. cbn [vx vy vz vadd vmap2 vscale vmap s_add s_mul s_div s_ofZ Exact.scalar]. change (inject_Z 1) with 1%Q. split; [|split]; lra. }
    destruct (sfc3D_near s k pmin box Hbox Hlo) as (cmin & Cmin & Icmin & ->). destruct (sfc3D_near s k pmax box Hbox Hhi) as (cmax & Cmax & Icmax & ->).
    destruct (smallestCommonBox k _ _) as [first last] eqn:E. eexists. split; [done|]. rewrite andb_true_iff, !Z.leb_le. intros [Hfirst Hlast] p Hp H1 H2.
    destruct (sfc3D_near s k p box Hbox (Hnear p Hp)) as (d & Cd & Id & ->). eexists. split; [done|].
    pose proof (cells_mono k box pmin p cmin d Hbox Hlo (Hnear p Hp) H1 Cmin Cd) as M1.
    assert (H3 : vle p pmax).
    { destruct H2 as (V1 & V2 & V3). unfold vle, pmax. cbn [vx vy vz vadd vmap2 vscale vmap s_add s_mul s_div s_ofZ Exact.scalar] in *. change (inject_Z 1) with 1%Q. split; [|split]; lra. }
    pose proof (cells_mono k box p pmax d cmax Hbox (Hnear p Hp) Hhi H3 Cd Cmax) as M2.
    enough (first <= encode3 (iSfcKey s k) d < last) by lia. apply (corners_cover s k cmin cmax d); [done..| |done].
    destruct cmin as [[? ?] ?], cmax as [[? ?] ?], d as [[? ?] ?]. lia.
Qed.

(** ** Node centers *)

Lemma nodeFpCenters_run {T} `{!Scalar T} s k t o (box : Box T) centers sizes :
  depthLe (maxTreeLevel k) t -> linked k t o -> zlen centers = zlen (prefixes o) -> zlen sizes = zlen (prefixes o) ->
  exists centers' sizes', nodeFpCenters s k (prefixes o) box centers sizes = Some (centers', sizes') /\
    zlen centers' = zlen (prefixes o) /\ zlen sizes' = zlen (prefixes o) /\ geometryArrays s k t o box centers' sizes'.
Proof.
  intros Hd Ho Hc Hs. unfold nodeFpCenters.
  destruct (for_loop_inv (fun n '(C, Z1) => zlen C = zlen (prefixes o) /\ zlen Z1 = zlen (prefixes o) /\ forall q, q ∈ allKeys 1 t -> pos o q < n ->
      C.[pos o q] = Some (nodeGeometry s k box q).1 /\ Z1.[pos o q] = Some (nodeGeometry s k box q).2) 0 (zlen (prefixes o)) (nodeFpCentersBody s k (prefixes o) box) (centers, sizes))
    as ([C Z1] & -> & HC & HS & Hall).
  - apply zlen_nonneg.
  - split; [done|]. split; [done|]. intros q Hq Hn. pose proof (pos_range k t o Ho q Hq). lia.
  - intros i [C Z1] Hi (HC & HS & Hall). destruct (index_node k t o Hd Ho i Hi) as (q & Eq & Hq & Hp). unfold nodeFpCentersBody. rewrite Eq.
    rewrite (node_prefixLength k q (key_treeNode k t Hd q Hq)). fold (nodeStart k q). cbn zeta. fold (nodeGeometry s k box q). destruct (nodeGeometry s k box q) as [c z] eqn:Eg.
    pose proof (aset_Some C i c ltac:(lia)) as FC. pose proof (aset_Some Z1 i z ltac:(lia)) as FS. rewrite FC, FS. eexists. split; [done|].
    split; [by rewrite (aset_zlen _ _ _ _ FC)|]. split; [by rewrite (aset_zlen _ _ _ _ FS)|]. intros r Hr Hlt. destruct (decide (i = pos o r)) as [E|Hne].
    + rewrite <- E, (aget_aset_eq _ _ _ _ FC), (aget_aset_eq _ _ _ _ FS). rewrite (pos_inj k t o Ho r q Hr Hq) by lia. by rewrite Eg.
    + rewrite (aget_aset_ne _ _ _ _ _ FC Hne), (aget_aset_ne _ _ _ _ _ FS Hne). apply Hall; [done|lia].
  - exists C, Z1. split; [done|]. split; [done|]. split; [done|]. intros q Hq. apply Hall; [done|]. by apply (pos_range k t o Ho).
Qed.

Lemma geoMacSpheres_run {T} `{!Scalar T} s k prefixes invTheta (box : Box T) centers : zlen centers = zlen prefixes ->
  exists centers', geoMacSpheres s k prefixes invTheta box centers = Some centers' /\
    forall i q, prefixes.[i] = Some q -> centers'.[i] = Some (computeMinMacR2 s k q invTheta box).
Proof.
  intros Hc. unfold geoMacSpheres.
  match goal with |- context [for_loop _ _ ?bd _] =>
    destruct (for_loop_inv (fun n C => zlen C = zlen prefixes /\ forall i q, prefixes.[i] = Some q -> i < n -> C.[i] = Some (computeMinMacR2 s k q invTheta box))
      0 (zlen prefixes) bd centers) as (C & -> & _ & Hall) end.
  - apply zlen_nonneg.
  - split; [done|]. intros i q Hi Hn. apply aget_Some_range in Hi. lia.
  - intros i C Hi [HC Hall]. destruct (aget_is_Some prefixes i Hi) as [q Hq]. rewrite Hq. pose proof (aset_Some C i (computeMinMacR2 s k q invTheta box) ltac:(lia)) as F. rewrite F.
    eexists. split; [done|]. split; [by rewrite (aset_zlen _ _ _ _ F)|]. intros j r Hr Hlt. destruct (decide (i = j)) as [<-|Hne].
    + rewrite (aget_aset_eq _ _ _ _ F). congruence.
    + rewrite (aget_aset_ne _ _ _ _ _ F Hne). apply Hall; [done|lia].
  - exists C. split; [done|]. intros i q Hi. apply Hall; [done|]. apply aget_Some_range in Hi. lia.
Qed.
