(* ===== verification/Continuum.v ===== *)
(** * Trees of particle concentrations

    [cstone/tree/continuum.hpp]: cornerstone arrays for a continuous particle concentration instead of a list of particles.  The
    concentration is an arbitrary function of the coordinates; coordinates and counts have the same type ([double]). *)

From Stdlib Require Import QArith Qround Qabs Lqa.
From S2P Require Import Prelude Primitives SfcCommon Csarray CsInvariant CsRebalance CsCounts CsBuild SfcBox Morton Hilbert Sfc Scalars FloatBox ExactGeometry ExactCoords.
#[local] Open Scope Z_scope.

Section Continuum.
Context {T : Type} `{!Scalar T} (s : SfcKind) (k : KeyType) (box : Box T) (concentration : T -> T -> T -> T).
#[local] Open Scope scalar_scope.

(** [std::round]: nearest integer, ties away from zero. *)
Definition s_round (x : T) : T :=
  let a := s_abs x in
  let r := if s_ratio 1 2 <=? a - s_floor a then s_floor a + s_ofZ 1 else s_floor a in
  if x <? s_ofZ 0 then s_neg r else r.

(** The three nested loops over the signs. *)
Definition cornerSigns : list (Z * Z * Z) :=
  [(-1, -1, -1); (-1, -1, 1); (-1, 1, -1); (-1, 1, 1); (1, -1, -1); (1, -1, 1); (1, 1, -1); (1, 1, 1)]%Z.

Definition cornerCount (center size : Vec3 T) (volume : T) (sign : Z * Z * Z) (count : T) : T :=
  let '(ix, iy, iz) := sign in
  let corner := vadd center (mkVec3 (s_ratio 1 2 * (s_ofZ ix * vx size)) (s_ratio 1 2 * (s_ofZ iy * vy size)) (s_ratio 1 2 * (s_ofZ iz * vz size))) in
  let c := concentration (vx corner) (vy corner) (vz corner) in
  count + c * volume.

Definition continuumCount (nodeStart nodeEnd : Z) : option Z :=
  let nodeBox := sfcIBoxKeys s k nodeStart nodeEnd in
  let '(center, size) := centerAndSize k nodeBox box in
  let volume := vx size * vy size * vz size in
  let count := foldl (fun count sign => cornerCount center size volume sign count) (s_ofZ 0) cornerSigns in
  let? n := s_toUnsigned (s_round count) in
  Some (stl_min n 0xFFFFFFFF).

#[local] Open Scope Z_scope.

Definition computeContinuumCounts (tree counts : list Z) (numNodes : Z) : option (list Z) :=
  for_loop 0 numNodes (fun i counts =>
    let? nodeStart := tree.[i] in
    let? nodeEnd := tree.[i + 1] in
    let? count := continuumCount nodeStart nodeEnd in
    aset counts i count) counts.

Definition updateContinuumCsarray (bucketSize : Z) (tree counts : list Z) : option (bool * list Z * list Z) :=
  let nodeOps := replicate (Z.to_nat (nNodes tree + 1)) 0 in
  let? (converged, nodeOps) := rebalanceDecision k tree counts (nNodes tree) bucketSize nodeOps in
  let? (newTree, _) := rebalanceTree k tree [] nodeOps in
  let tree := newTree in
  let counts := aresize 0 counts (nNodes tree) in
  let? counts := computeContinuumCounts tree counts (nNodes tree) in
  Some (converged, tree, counts).

(** The loop of [computeContinuumCsarray] with [maxIteration] repetitions left. *)
Fixpoint continuumLoop (maxIteration : nat) (bucketSize : Z) (tree counts : list Z) : option (list Z * list Z) :=
  let? (converged, tree, counts) := updateContinuumCsarray bucketSize tree counts in
  if converged : bool then Some (tree, counts)
  else match maxIteration with
    | O => Some (tree, counts)
    | S maxIteration => continuumLoop maxIteration bucketSize tree counts
    end.

Definition computeContinuumCsarray (bucketSize : Z) : option (list Z * list Z) :=
  continuumLoop 10 bucketSize [0; nodeRange k 0] [u32 (bucketSize + 1)].

(** ** The loop *)

(** [counts] are the estimates for the leaves of [tree]. *)
Definition continuumCounts (tree counts : list Z) : Prop :=
  zlen counts = nNodes tree /\ forall i, 0 <= i < nNodes tree -> continuumCount (nthz tree i) (nthz tree (i + 1)) = Some (nthz counts i).

Hypothesis Hdefined : forall a b, isNode k a b -> is_Some (continuumCount a b).

Lemma continuumCount_range a b c : continuumCount a b = Some c -> 0 <= c < 4294967296.
Proof using.
  unfold continuumCount. destruct (centerAndSize k _ box) as [center size]. cbn zeta. unfold s_toUnsigned. destruct (s_trunc _) as [v|]; [|done]. cbn beta iota. destruct ((0 <=? v) && (v <=? 4294967295)) eqn:E; [|done]. apply andb_true_iff in E as [H1%Z.leb_le H2%Z.leb_le]. intros [= <-]. unfold stl_min. destruct (_ <? _); lia.
Qed.

Lemma continuumCounts_input tree counts bucketSize : csTree k tree -> continuumCounts tree counts -> 0 <= bucketSize /\ bucketSize * 512 < 4294967296 -> rebalanceInput k tree counts bucketSize.
Proof using.
  intros Hcs [Hz Hc] Hb. split; [done|done| |done]. apply Forall_forall. intros c [i Hi]%elem_aget. pose proof (aget_Some_range _ _ _ Hi). apply nthz_Some in Hi as <-. apply (continuumCount_range (nthz tree i) (nthz tree (i + 1))). apply Hc. lia.
Qed.

Lemma computeContinuumCounts_run tree counts : csTree k tree -> zlen counts = nNodes tree -> exists counts', computeContinuumCounts tree counts (nNodes tree) = Some counts' /\ continuumCounts tree counts'.
Proof using Hdefined.
  intros Hcs Hz. set (g := fun i => default 0 (continuumCount (nthz tree i) (nthz tree (i + 1)))). pose proof (cs_nonempty k tree Hcs).
  assert (Hg : forall i, 0 <= i < nNodes tree -> continuumCount (nthz tree i) (nthz tree (i + 1)) = Some (g i)).
  { intros i Hi. destruct (Hdefined (nthz tree i) (nthz tree (i + 1))) as [c Ec]; [by apply (cs_nodes k tree Hcs)|unfold g; by rewrite Ec]. }
  unfold computeContinuumCounts, for_loop. rewrite Z.sub_0_r.
  match goal with |- context [foldM ?body _ _] => destruct (foldM_writes body g 0 (nNodes tree) (seqZ 0 (nNodes tree)) counts) as (st & E & Hl & Hin & _) end.
  - done.
  - intros i Hi%elem_of_seqZ. lia.
  - intros i st Hi%elem_of_seqZ _. unfold nNodes in *. rewrite !(nthz_get tree) by lia. cbn beta iota. rewrite Hg by (unfold nNodes; lia). done.
  - exists st. split; [exact E|]. split; [done|]. intros i Hi. rewrite Hg by done. f_equal. symmetry. apply nthz_Some, Hin. rewrite Z.sub_0_r. apply elem_of_seqZ. lia.
Qed.

Lemma updateContinuumCsarray_run bucketSize tree counts : rebalanceInput k tree counts bucketSize ->
  exists counts', updateContinuumCsarray bucketSize tree counts = Some (forallb (Z.eqb 1) (nodeOpsOf k tree counts bucketSize), nextTree k tree counts bucketSize, counts') /\ csTree k (nextTree k tree counts bucketSize) /\ continuumCounts (nextTree k tree counts bucketSize) counts'.
Proof using Hdefined.
  intros Hin. pose proof (nextTree_csTree k tree counts bucketSize Hin) as Hcs. pose proof (cs_nonempty k _ Hcs). destruct (computeContinuumCounts_run _ (aresize 0 counts (nNodes (nextTree k tree counts bucketSize))) Hcs) as (counts' & Ec & Hc); [apply zlen_aresize; lia|].
  exists counts'. split; [|done]. unfold updateContinuumCsarray. rewrite (decision_run k tree counts bucketSize Hin). cbn beta iota. rewrite (rebalance_run k tree counts bucketSize Hin). cbn beta iota zeta. by rewrite Ec.
Qed.

(** Every leaf is within the bucket size or on the last level, and no eight siblings could be replaced by their parent. *)
Definition continuumBalanced (bucketSize : Z) (tree counts : list Z) : Prop :=
  (forall i, 0 <= i < nNodes tree -> nthz counts i <= bucketSize \/ leafLevel k tree i = maxTreeLevel k) /\ (forall g m, fullGroup k tree g m -> bucketSize < groupSum counts g).

(** The states of the loop, each after one update more that has changed the tree. *)
Inductive continuumSteps (bucketSize : Z) : nat -> list Z -> list Z -> Prop :=
  | steps_root : continuumSteps bucketSize 0 [0; nodeRange k 0] [u32 (bucketSize + 1)]
  | steps_update i tree counts tree' counts' : continuumSteps bucketSize i tree counts -> updateContinuumCsarray bucketSize tree counts = Some (false, tree', counts') -> continuumSteps bucketSize (S i) tree' counts'.

Lemma continuumCounts_unique tree counts counts' : continuumCounts tree counts -> continuumCounts tree counts' -> counts = counts'.
Proof using.
  intros [Z1 H1] [Z2 H2]. apply list_eq_aget; [lia|]. intros i Hi. rewrite !nthz_get by lia. rewrite <- H1, <- H2 by lia. done.
Qed.

Lemma continuumLoop_run bucketSize : 0 <= bucketSize /\ bucketSize * 512 < 4294967296 -> forall maxIteration i tree counts,
  continuumSteps bucketSize i tree counts -> rebalanceInput k tree counts bucketSize -> continuumCounts tree counts \/ forallb (Z.eqb 1) (nodeOpsOf k tree counts bucketSize) = false ->
  exists tree' counts', continuumLoop maxIteration bucketSize tree counts = Some (tree', counts') /\ csTree k tree' /\ continuumCounts tree' counts' /\
    (continuumBalanced bucketSize tree' counts' \/ continuumSteps bucketSize (S (i + maxIteration)) tree' counts').
Proof using Hdefined.
  intros Hb. induction maxIteration as [|maxIteration IH]; intros i tree counts Hst Hin Hex; cbn [continuumLoop]; destruct (updateContinuumCsarray_run bucketSize tree counts Hin) as (counts' & E & Hcs & Hc); rewrite E; cbn beta iota; destruct (forallb (Z.eqb 1) (nodeOpsOf k tree counts bucketSize)) eqn:Hall.
  1,3: destruct Hex as [Hex|?]; [|done]; rewrite (nextTree_fixed k tree counts bucketSize Hin Hall) in *; rewrite (continuumCounts_unique tree counts' counts Hc Hex) in *; exists tree, counts; (split; [done|]); (split; [done|]); (split; [done|]); left; by apply fixed_balanced.
  - eexists _, _. split; [done|]. split; [done|]. split; [done|]. right. rewrite Nat.add_0_r. eapply steps_update; [exact Hst|exact E].
  - destruct (IH (S i) _ counts' (steps_update bucketSize i tree counts _ counts' Hst E)) as (tree' & counts2 & E2 & H2); [by apply continuumCounts_input|by left|]. exists tree', counts2. replace (i + S maxIteration)%nat with (S i + maxIteration)%nat by lia. done.
Qed.

(** The construction from the root. *)
Lemma computeContinuumCsarray_run bucketSize : 0 <= bucketSize /\ bucketSize * 512 < 4294967296 ->
  exists tree counts, computeContinuumCsarray bucketSize = Some (tree, counts) /\ csTree k tree /\ continuumCounts tree counts /\ (continuumBalanced bucketSize tree counts \/ continuumSteps bucketSize 11 tree counts).
Proof using Hdefined.
  intros Hb. pose proof (root_csTree k) as Hcs. assert (Hin : rebalanceInput k [0; nodeRange k 0] [u32 (bucketSize + 1)] bucketSize) by (split; [done|done|repeat constructor; rewrite u32_small; lia|done]).
  apply (continuumLoop_run bucketSize Hb 10 0 [0; nodeRange k 0] [u32 (bucketSize + 1)]); [constructor|exact Hin|]. right. apply not_true_is_false. intros Hall. destruct (fixed_balanced k _ _ _ Hin Hall) as [H0 _]. destruct (H0 0) as [H1|H1]; [by unfold nNodes|change (u32 (bucketSize + 1) <= bucketSize) in H1; rewrite u32_small in H1; lia|]. by destruct k.
Qed.

End Continuum.

(** ** Exact coordinates *)

Section Exact.
Context (s : SfcKind) (k : KeyType) (box : Box Q) (concentration : Q -> Q -> Q -> Q) (limit : Q).
Hypothesis Hbox : goodBox box.
Hypothesis Hconcentration : forall x y z, (0 <= concentration x y z <= limit)%Q.
Hypothesis Hlimit : (limit * (lx box * ly box * lz box) <= inject_Z 4294967294)%Q.

Lemma round_unsigned (x : Q) : (0 <= x)%Q -> (x <= inject_Z 4294967294)%Q -> is_Some (s_toUnsigned (s_round x)).
Proof using.
  intros H0 H1. unfold s_round. cbn [s_abs s_ratio s_leb s_floor s_sub s_add s_ofZ s_ltb s_neg Exact.scalar]. rewrite (proj2 (ltb_ge x (inject_Z 0))) by done.
  assert (Hx : exists n, 0 <= n <= 4294967294 /\ Qfloor (Qabs x) = n). { exists (Qfloor (Qabs x)). split; [|done]. assert (Ha : (Qabs x == x)%Q) by by apply Qabs_pos. split; [apply (Qfloor_resp_le 0); rewrite Ha; done|]. rewrite Zle_Qle. eapply Qle_trans; [apply Qfloor_le|]. by rewrite Ha. }
  destruct Hx as (n & Hn & ->). assert (Ht : forall v, 0 <= v <= 4294967295 -> is_Some (s_toUnsigned (T := Q) (inject_Z v))). { intros v Hv. unfold s_toUnsigned. cbn [s_trunc Exact.scalar Qnum Qden inject_Z]. rewrite Z.quot_1_r. rewrite (proj2 (Z.leb_le 0 v)), (proj2 (Z.leb_le v 4294967295)) by lia. by eexists. }
  destruct (Qle_bool _ _); [|apply Ht; lia]. unfold Qplus, inject_Z. cbn [Qnum Qden]. rewrite !Z.mul_1_r. change (is_Some (s_toUnsigned (T := Q) (inject_Z (n + 1)))). apply Ht. lia.
Qed.

Lemma corners_bound center size (volume : Q) l : (0 <= volume)%Q -> forall acc, (acc <= foldl (fun count sign => cornerCount concentration center size volume sign count) acc l <= acc + inject_Z (zlen l) * (limit * volume))%Q.
Proof using Hconcentration.
  intros Hv. induction l as [|sign l IH]; intros acc; cbn [foldl]; [change (zlen (@nil (Z * Z * Z))) with 0; change (inject_Z 0) with 0%Q; lra|].
  set (acc' := cornerCount concentration center size volume sign acc). assert (Ha : (acc <= acc' <= acc + limit * volume)%Q).
  { unfold acc', cornerCount. destruct sign as [[ix iy] iz]. cbn [s_add s_mul Exact.scalar]. match goal with |- context [concentration ?x ?y ?z] => destruct (Hconcentration x y z) as [C1 C2]; set (c := concentration x y z) in * end. assert (H1 : (0 * volume <= c * volume)%Q) by by apply Qmult_le_compat_r. assert (H2 : (c * volume <= limit * volume)%Q) by by apply Qmult_le_compat_r. lra. }
  specialize (IH acc'). rewrite zlen_cons, inject_Z_plus. change (inject_Z 1) with 1%Q. lra.
Qed.

Lemma half_side (l h : Q) : (0 < l)%Q -> (0 <= h <= 1)%Q -> (0 <= h * l <= l)%Q.
Proof using. intros Hl [H0 H1]. assert (Ha : (0 * l <= h * l)%Q) by (apply Qmult_le_compat_r; lra). assert (Hb : (h * l <= 1 * l)%Q) by (apply Qmult_le_compat_r; lra). lra. Qed.

Lemma volume_bound (l1 l2 l3 h1 h2 h3 : Q) : (0 <= h1 <= l1)%Q -> (0 <= h2 <= l2)%Q -> (0 <= h3 <= l3)%Q -> (0 <= h1 * h2 * h3 <= l1 * l2 * l3)%Q.
Proof using.
  intros H1 H2 H3. assert (P1 : (0 <= h1 * h2)%Q) by (apply Qmult_le_0_compat; lra). assert (P2 : (h1 * h2 <= l1 * l2)%Q) by (eapply Qle_trans; [apply (Qmult_le_compat_r h1 l1 h2); lra|]; rewrite !(Qmult_comm l1); apply Qmult_le_compat_r; lra).
  split; [apply Qmult_le_0_compat; lra|]. eapply Qle_trans; [apply (Qmult_le_compat_r _ (l1 * l2)); lra|]. rewrite !(Qmult_comm (l1 * l2)). apply Qmult_le_compat_r; lra.
Qed.

(** The sides of the node in units of the box. *)
Lemma node_sides a b : isNode k a b -> exists h : Q, (0 <= h <= 1)%Q /\
  let size := (centerAndSize k (sfcIBoxKeys s k a b) box).2 in (vx size == h * lx box / 2 /\ vy size == h * ly box / 2 /\ vz size == h * lz box / 2)%Q.
Proof using.
  intros (m & Hm & Ha & Hd & -> & Hb). kfacts k. pose proof (pow8_pos m ltac:(lia)). exists (inject_Z (2 ^ m) / inject_Z (2 ^ maxTreeLevel k))%Q. assert (Hp : 0 < 2 ^ m <= 2 ^ maxTreeLevel k) by (split; [apply Z.pow_pos_nonneg; lia|apply Z.pow_le_mono_r; lia]).
  assert (Q1 : (0 < inject_Z (2 ^ maxTreeLevel k))%Q) by (change 0%Q with (inject_Z 0); rewrite <- Zlt_Qlt; lia). split.
  - split; [apply Qle_shift_div_l; [done|]; rewrite Qmult_0_l; change 0%Q with (inject_Z 0); rewrite <- Zle_Qle; lia|]. apply Qle_shift_div_r; [done|]. rewrite Qmult_1_l, <- Zle_Qle. lia.
  - unfold sfcIBoxKeys. replace (a + 8 ^ m - a) with (8 ^ m) by lia. pose proof (pow8_le_keyMax k m Hm). rewrite kwrap_small, treeLevel_pow8 by lia. rewrite sfcIBox_nodeBox by (replace (maxTreeLevel k - (maxTreeLevel k - m)) with m by lia; (done || lia)). replace (maxTreeLevel k - (maxTreeLevel k - m)) with m by lia. unfold nodeBox. destruct (decodeSfc s k a) as [[x y] z]. cbn [divp]. unfold centerAndSize. cbn [fst snd vx vy vz xmin xmax ymin ymax zmin zmax].
    assert (Hu : u32 (Z.shiftl 1 (maxTreeLevel k)) = 2 ^ maxTreeLevel k) by by destruct k. rewrite Hu. rewrite !Z.add_simpl_l. cbn [s_ofZ s_ratio s_div s_mul Exact.scalar]. change (inject_Z 1) with 1%Q. change (inject_Z 2) with 2%Q. repeat split; field; lra.
Qed.

Lemma continuumCount_defined a b : isNode k a b -> is_Some (continuumCount s k box concentration a b).
Proof using Hbox Hconcentration Hlimit.
  intros Hn. destruct (node_sides a b Hn) as (h & Hh & Hs). unfold continuumCount. destruct (centerAndSize k _ box) as [center size]. cbn [snd] in Hs. cbn zeta in Hs |- *. destruct Hs as (Sx & Sy & Sz). destruct Hbox as ([Lx _] & [Ly _] & [Lz _]).
  set (volume := (vx size * vy size * vz size)%S). set (V := (lx box * ly box * lz box)%Q) in *. assert (Hvol : (0 <= volume /\ 8 * volume <= V)%Q).
  { destruct (volume_bound _ _ _ _ _ _ (half_side _ _ Lx Hh) (half_side _ _ Ly Hh) (half_side _ _ Lz Hh)) as [V1 V2]. fold V in V2. assert (E : (8 * volume == h * lx box * (h * ly box) * (h * lz box))%Q) by (unfold volume; cbn [s_mul Exact.scalar]; rewrite Sx, Sy, Sz; field). set (W := (h * lx box * (h * ly box) * (h * lz box))%Q) in *. clearbody volume V W. clear - V1 V2 E. split; lra. }
  destruct Hvol as [V1 V2]. destruct (corners_bound center size volume cornerSigns V1 (s_ofZ 0)) as [B1 B2]. change (s_ofZ 0) with (inject_Z 0) in *. change (inject_Z 0) with 0%Q in *. change (inject_Z (zlen cornerSigns)) with 8%Q in B2.
  assert (H0 : (0 <= limit)%Q) by (destruct (Hconcentration 0 0 0); lra). assert (H8 : (8 * (limit * volume) <= limit * V)%Q) by (assert (E : (8 * (limit * volume) == 8 * volume * limit)%Q) by ring; rewrite E, (Qmult_comm limit); by apply Qmult_le_compat_r).
  destruct (round_unsigned (foldl (fun count sign => cornerCount concentration center size volume sign count) 0%Q cornerSigns)) as [v Ev]; [lra|lra|]. rewrite Ev. by eexists.
Qed.

End Exact.
