(* ===== verification/TraversalProperties.v ===== *)
(** * Properties of the traversals and of peer discovery

    The claims about [cstone/traversal/traversal.hpp] and [cstone/traversal/peers.hpp]. *)

From Stdlib Require Import QArith.
From S2P Require Import Prelude Primitives SfcCommon Csarray CsInvariant CsRebalance CsCounts CsBuild CsUtil SfcBox Morton Hilbert Sfc BoxOverlap Octree OctreeNodes OctreeBuild OctreeQueries OctreeProperties IndexRanges DomainDecomp Scalars FloatBox FocusTree Traversal DualTraversal NodeLookup Macs Peers.
Import OctreeClass.
#[local] Open Scope Z_scope.

(** The nodes of the tree are at most [m] levels below the root. *)
Definition shallow (m : Z) (o : OctreeClass.t) : Prop := Forall (fun q => nodeLevel q <= m) (prefixes (arrays_ o)).

Lemma shallow_height k t o m : octreeOf k t o -> shallow m o -> Z.of_nat (height t) <= m.
Proof.
  intros Ho Hs. apply (height_levels m 1 t 0 nodeAt_root). apply Forall_forall. intros q Hq. unfold shallow in Hs. rewrite Forall_forall in Hs. apply Hs.
  rewrite (lk_nodes _ _ _ (oo_linked _ _ _ Ho)). apply elem_of_app. by right.
Qed.

Lemma octree15_shallow : shallow 9 octree15.
Proof. apply (bool_decide_unpack (Forall (fun q => nodeLevel q <= 9) (prefixes (arrays_ octree15)))). vm_compute. exact I. Qed.

(** ** Claims *)

(** C28: the stackless traversal makes the same calls in the same order as the recursive
    preorder traversal, for all callables and whatever state they share, and it returns
    whenever the callables do: the loop never needs more than two iterations per node. *)
Theorem singleTraversal_preorder {S} (C : Z -> S -> option (bool * S)) (A : Z -> S -> option S) k t o s :
  octreeOf k t o ->
  singleTraversal C A (childOffsets (arrays_ o)) (parents (arrays_ o)) s = visit C A (pos (arrays_ o)) 1 t s /\
  ((forall i s, is_Some (C i s)) -> (forall i s, is_Some (A i s)) -> is_Some (singleTraversal C A (childOffsets (arrays_ o)) (parents (arrays_ o)) s)).
Proof.
  intros Ho. pose proof (singleTraversal_visit C A k t _ (oo_depth _ _ _ Ho) (oo_linked _ _ _ Ho) s) as E. split; [done|].
  intros HC HA. rewrite E. by apply visit_total.
Qed.

(** Counts the visited nodes and lists the leaves below the first four children of the root. *)
Definition countNodes (i : Z) (s : Z * list Z) : option (bool * (Z * list Z)) := Some (i <? 5, (s.1 + 1, s.2)).
Definition listLeaf (i : Z) (s : Z * list Z) : option (Z * list Z) := Some (s.1, i :: s.2).

Lemma singleTraversal_preorder_witness :
  exists t, (singleTraversal countNodes listLeaf (childOffsets (arrays_ octree15)) (parents (arrays_ octree15)) (0, []) =
    visit countNodes listLeaf (pos (arrays_ octree15)) 1 t (0, []) /\
  ((forall i s, is_Some (countNodes i s)) -> (forall i s, is_Some (listLeaf i s)) ->
     is_Some (singleTraversal countNodes listLeaf (childOffsets (arrays_ octree15)) (parents (arrays_ octree15)) (0, [])))) /\
  singleTraversal countNodes listLeaf (childOffsets (arrays_ octree15)) (parents (arrays_ octree15)) (0, []) = Some (17, [4; 3; 2]).
Proof.
  destruct octree15_octreeOf as (t & Ho & _). exists t. split; [|vm_compute; reflexivity]. by apply (singleTraversal_preorder countNodes listLeaf Key32 t octree15 (0, [])).
Defined.

(** C29: the dual traversal of two nodes of a tree of at most nine levels stays within its stack
    and ends; every pair of leaves below the two nodes is covered by exactly one call, [m2l] is
    called for pairs that fail the criterion and [p2p] for pairs of leaves that satisfy it. *)
Theorem dualTraversal_covers {S} continuation (m2l p2p : Z -> Z -> S -> option S) crit k t o a b :
  octreeOf k t o -> shallow 9 o -> a ∈ prefixes (arrays_ o) -> b ∈ prefixes (arrays_ o) ->
  isLeafNode (childOffsets (arrays_ o)) (pos (arrays_ o) a) = Some false \/ isLeafNode (childOffsets (arrays_ o)) (pos (arrays_ o) b) = Some false ->
  (forall x y, x ∈ prefixes (arrays_ o) -> y ∈ prefixes (arrays_ o) -> continuation (pos (arrays_ o) x) (pos (arrays_ o) y) = Some (crit x y)) ->
  exists n, forall fuel s, (n <= fuel)%nat -> exists calls,
    dualTraversal continuation m2l p2p (childOffsets (arrays_ o)) fuel (pos (arrays_ o) a) (pos (arrays_ o) b) s =
      foldM (handle m2l p2p (arrays_ o)) calls s /\ NoDup calls /\
    (forall x y, x ∈ leafKeys 1 t -> y ∈ leafKeys 1 t -> below a x -> below b y -> exists! v, v ∈ calls /\ covers v x y) /\
    (forall x y last, (x, y, last) ∈ calls -> crit x y = last /\ below a x /\ below b y /\ (last = true -> x ∈ leafKeys 1 t /\ y ∈ leafKeys 1 t)).
Proof.
  intros Ho Hs Ha Hb Hleaf Hcrit. pose proof (oo_depth _ _ _ Ho) as Hd. pose proof (oo_linked _ _ _ Ho) as Hl. pose proof (shallow_height k t o 9 Ho Hs) as Hh.
  rewrite (lk_nodes _ _ _ Hl) in Ha, Hb. destruct (subtree_of_node t a Ha) as (u & Hu & Hhu & Hlu). destruct (subtree_of_node t b Hb) as (v & Hv & Hhv & Hlv).
  set (e := mkPair a u b v). rewrite (isLeafNode_get k t _ Hd Hl a u Hu), (isLeafNode_get k t _ Hd Hl b v Hv) in Hleaf.
  assert (He : bothLeaf e = false) by (unfold bothLeaf; cbn; destruct Hleaf as [[= ->]|[= ->]]; [done|by rewrite andb_false_r]).
  assert (Hk : pairKeys e) by (split; cbn; by apply (treeNode_pos k), (key_treeNode k t Hd)). exists (Datatypes.S (costOf crit e)). intros fuel s Hf.
  destruct (dualTraversal_run continuation m2l p2p crit k t _ Hd Hl) with (e := e) (fuel := fuel) (s := s) as (calls & Hp & E); [|done|done|unfold pairHeight; cbn; lia|lia|].
  { intros x y Hx Hy. apply Hcrit; by rewrite (lk_nodes _ _ _ Hl). }
  exists calls. split; [exact E|]. split; [rewrite Hp; by apply eventsOf_NoDup|]. split.
  - intros x y Hx Hy Hax Hby. destruct (eventsOf_cover crit e x y Hk He) as (w & Hw & Hc & Huniq); [split; cbn; [by apply Hlu|by apply Hlv]|].
    exists w. split; [by rewrite Hp|]. intros w' [Hw' Hc']. symmetry. apply Huniq; [by rewrite <- Hp|done].
  - intros x y last Hin. rewrite Hp in Hin. destruct (eventsOf_kind crit e x y last He Hin) as [Hc Hpair]. destruct (eventsOf_below crit e _ Hk He Hin) as [H1 H2].
    split; [done|]. split; [done|]. split; [done|]. intros ->. destruct (Hpair eq_refl) as [P1 P2]. cbn in P1, P2. split; [by apply Hlu|by apply Hlv].
Qed.

(** Counts the pairs of leaves that are close in the node order. *)
Definition closePair (x y : Z) : bool := Z.abs (x - y) <? 100.
Definition countPair (_ _ : Z) (n : Z) : option Z := Some (n + 1).

Lemma dualTraversal_covers_witness : exists t n, forall fuel s, (n <= fuel)%nat -> exists calls,
    dualTraversal (fun i j => let? x := (prefixes (arrays_ octree15)).[i] in let? y := (prefixes (arrays_ octree15)).[j] in Some (closePair x y))
      (fun _ _ s => Some s) countPair (childOffsets (arrays_ octree15)) fuel (pos (arrays_ octree15) 1) (pos (arrays_ octree15) 9) s =
      foldM (handle (fun _ _ s => Some s) countPair (arrays_ octree15)) calls s /\ NoDup calls /\
    (forall x y, x ∈ leafKeys 1 t -> y ∈ leafKeys 1 t -> below 1 x -> below 9 y -> exists! v, v ∈ calls /\ covers v x y) /\
    (forall x y last, (x, y, last) ∈ calls -> closePair x y = last /\ below 1 x /\ below 9 y /\ (last = true -> x ∈ leafKeys 1 t /\ y ∈ leafKeys 1 t)).
Proof.
  destruct octree15_octreeOf as (t & Ho & _). exists t.
  apply (dualTraversal_covers (fun i j => let? x := (prefixes (arrays_ octree15)).[i] in let? y := (prefixes (arrays_ octree15)).[j] in Some (closePair x y))
    (fun _ _ s => Some s) countPair closePair Key32 t octree15 1 9 Ho octree15_shallow).
  - apply (bool_decide_unpack _). vm_compute. exact I.
  - apply (bool_decide_unpack _). vm_compute. exact I.
  - left. vm_compute. reflexivity.
  - intros x y Hx Hy. pose proof (oo_linked _ _ _ Ho) as Hl. rewrite (lk_nodes _ _ _ Hl) in Hx, Hy. by rewrite (node_pos _ _ _ Hl x Hx), (node_pos _ _ _ Hl y Hy).
Defined.

(** ** The fixed stack *)

(** Leaves of a tree in which only the last child is refined, down to level [n]. *)
Definition lastLeaves (n : nat) : list Z :=
  concat ((fun l => (fun c => keyMax Key32 - 8 ^ (10 - l) + c * 8 ^ (9 - l)) <$> seqZ 0 7) <$> seqZ 0 (Z.of_nat n)) ++
  [keyMax Key32 - 8 ^ (10 - Z.of_nat n); keyMax Key32].

Definition octreeLast (n : nat) : OctreeClass.t := default emptyOctree (update Key32 (lastLeaves n) (nNodes (lastLeaves n)) emptyOctree).

Lemma lastLeaves_csTree : csTree Key32 (lastLeaves 10).
Proof. apply (bool_decide_unpack _). vm_compute. exact I. Qed.

(** C36: the stack has a fixed size of 128 pairs.  On a valid tree with ten levels of which only
    the last child is refined, a criterion that accepts all pairs makes the traversal of the
    root with itself write past the end of the stack, whatever the endpoint actions do; the
    only protection in the code is an assertion. *)
Theorem dualTraversal_stack_overflow :
  (exists t, octreeOf Key32 t (octreeLast 10)) /\
  forall {S} (m2l p2p : Z -> Z -> S -> option S) fuel s,
    dualTraversal (fun _ _ => Some true) m2l p2p (childOffsets (arrays_ (octreeLast 10))) fuel 0 0 s = None.
Proof.
  split.
  - destruct (update_octreeOf Key32 (lastLeaves 10) emptyOctree lastLeaves_csTree) as (t & o & E & Ho & _). exists t. unfold octreeLast. by rewrite E.
  - intros S m2l p2p fuel s. assert (exists ch, ch = childOffsets (arrays_ (octreeLast 10))) as (ch & Ech) by by eexists. rewrite <- Ech. vm_compute in Ech. subst ch.
    do 20 (destruct fuel as [|fuel]; [reflexivity|]). reflexivity.
Qed.

(** ** Peers *)

Section PeerClaims.
Context {T : Type} `{!Scalar T} `{!MonotoneScalar T}.
Context (s : SfcKind) (k : KeyType) (t : otree) (o : OctreeClass.t) (A : SfcAssignment) (box : Box T) (invThetaEff : T).

(** A tree of at most nine levels whose leaf boundaries include those of the assignment, and
    positive edge lengths and opening parameter. *)
Definition peerInput : Prop :=
  octreeOf k t o /\ shallow 9 o /\ validAssignment k A /\ Forall (fun b => b ∈ cstoneTree_ o) (rankBoundaries_ A) /\
  (let e := peerEllipse box invThetaEff in s_ltb (s_ofZ 0) (vx e) = true /\ s_ltb (s_ofZ 0) (vy e) = true /\ s_ltb (s_ofZ 0) (vz e) = true).

(** Ranks that own a leaf which fails the mutual criterion with a leaf of [r]. *)
Definition peersOf (r r' : Z) : Prop := isPeer s k t A (peerEllipse box invThetaEff) (pbcGrid k box) r r'.

Lemma findPeersMac_run r : peerInput -> 0 <= r < assignmentRanks A -> exists n, forall fuel, (n <= fuel)%nat ->
  exists peers, findPeersMac fuel s k r A (arrays_ o) box invThetaEff = Some peers /\ forall r', r' ∈ peers <-> 0 <= r' < assignmentRanks A /\ peersOf r r'.
Proof using All.
  intros (Ho & Hs & HA & Hb & He) Hr. pose proof (oo_depth _ _ _ Ho) as Hd. pose proof (oo_linked _ _ _ Ho) as Hl.
  assert (Hbound : forall r, 0 <= r <= assignmentRanks A -> nthz (rankBoundaries_ A) r ∈ leafArray k t).
  { intros i Hi. rewrite <- (oo_tree _ _ _ Ho). rewrite Forall_forall in Hb. apply Hb. by eapply aget_elem, (boundary_get A). }
  destruct (peerLoop_run s k t (arrays_ o) A (peerEllipse box invThetaEff) (pbcGrid k box) Hd Hl HA Hbound (pbcGrid_ok k box) He r Hr) as (n & nodes & E & Hrun).
  { pose proof (shallow_height k t o 9 Ho Hs). lia. }
  exists n. intros fuel Hf. destruct (Hrun fuel Hf) as (flags & Eloop & Hz & Hflags). unfold findPeersMac.
  rewrite !(boundary_get A) by lia. rewrite E. cbn zeta. rewrite Eloop. eexists. split; [done|]. intros r'. rewrite elem_of_flagged, Hz. split.
  - intros [Hr' H]. split; [done|]. apply (foundBelow_isPeer s k t A _ _ Hd HA Hbound r r' Hr Hr'). by apply Hflags.
  - intros [Hr' H]. split; [done|]. apply Hflags; [done|]. by apply (foundBelow_isPeer s k t A _ _ Hd HA Hbound r r' Hr Hr').
Qed.

End PeerClaims.

(** C20: with exact (rational) coordinates and a linked octree of at most nine levels ([peerInput]; the fixed stack of the traversal
    is too small for some deeper trees), [findPeersMac] ends and returns exactly the ranks other than the own one that own a leaf
    of the tree which fails the mutual acceptance criterion with one of the own leaves, although
    it only compares the spanning nodes of the own range with the tree from its root. *)
Theorem findPeersMac_exact s k t o A (box : Box Q) invThetaEff r :
  peerInput k t o A box invThetaEff -> 0 <= r < assignmentRanks A ->
  exists n, forall fuel, (n <= fuel)%nat -> exists peers, findPeersMac fuel s k r A (arrays_ o) box invThetaEff = Some peers /\
    forall r', r' ∈ peers <-> 0 <= r' < assignmentRanks A /\ r' <> r /\ exists x y,
      leafOf k t A r x /\ leafOf k t A r' y /\ minMacMutualInt (keyBox s k x) (keyBox s k y) (peerEllipse box invThetaEff) (pbcGrid k box) = false.
Proof. apply findPeersMac_run. Qed.

(** C21: with exact (rational) coordinates and a linked octree of at most nine levels ([peerInput]), peer discovery is mutual:
    both calls end, and rank [r1] finds [r2] exactly if [r2] finds [r1], although both compute their lists without
    communication. *)
Theorem findPeersMac_mutual s k t o A (box : Box Q) invThetaEff r1 r2 :
  peerInput k t o A box invThetaEff -> 0 <= r1 < assignmentRanks A -> 0 <= r2 < assignmentRanks A ->
  exists n, forall fuel, (n <= fuel)%nat -> exists peers1 peers2,
    findPeersMac fuel s k r1 A (arrays_ o) box invThetaEff = Some peers1 /\ findPeersMac fuel s k r2 A (arrays_ o) box invThetaEff = Some peers2 /\
    (r2 ∈ peers1 <-> r1 ∈ peers2).
Proof.
  intros Hin H1 H2. destruct (findPeersMac_run s k t o A box invThetaEff r1 Hin H1) as (n1 & R1). destruct (findPeersMac_run s k t o A box invThetaEff r2 Hin H2) as (n2 & R2).
  exists (n1 + n2)%nat. intros fuel Hf. destruct (R1 fuel ltac:(lia)) as (p1 & E1 & P1). destruct (R2 fuel ltac:(lia)) as (p2 & E2 & P2). exists p1, p2.
  split; [done|]. split; [done|]. rewrite P1, P2. unfold peersOf. destruct Hin as (Ho & _).
  rewrite (isPeer_sym s k t A (peerEllipse box invThetaEff) (pbcGrid k box) (oo_depth _ _ _ Ho) (pbcGrid_ok k box) r1 r2). tauto.
Qed.

(** Four ranks: the first leaf, the rest of the refined group, three leaves and four leaves. *)
Definition assignment15 : SfcAssignment := mkSfcAssignment [0; 8 ^ 8; 8 ^ 9; 4 * 8 ^ 9; 8 ^ 10] [1; 7; 3; 4] [1; 7; 3; 4] [0; 1; 8; 11; 15].
Definition unitBox : Box Q := Box_new 0%Q 1%Q 0%Q 1%Q 0%Q 1%Q open open open.

Lemma peerInput15 t : octreeOf Key32 t octree15 -> cstoneTree_ octree15 = leaves15 -> peerInput Key32 t octree15 assignment15 unitBox (1 # 10)%Q.
Proof.
  intros Ho Et. split; [done|]. split; [apply octree15_shallow|]. split.
  - split; [vm_compute; congruence|apply zsortedb_sound; vm_compute; reflexivity|reflexivity|reflexivity].
  - split; [rewrite Et; apply (bool_decide_unpack _); vm_compute; exact I|]. vm_compute. split; [reflexivity|split; reflexivity].
Qed.

Lemma findPeersMac_exact_witness : exists t n, (forall fuel, (n <= fuel)%nat -> exists peers,
    findPeersMac fuel HilbertKey Key32 0 assignment15 (arrays_ octree15) unitBox (1 # 10)%Q = Some peers /\
    forall r', r' ∈ peers <-> 0 <= r' < assignmentRanks assignment15 /\ r' <> 0 /\ exists x y, leafOf Key32 t assignment15 0 x /\ leafOf Key32 t assignment15 r' y /\
      minMacMutualInt (keyBox HilbertKey Key32 x) (keyBox HilbertKey Key32 y) (peerEllipse unitBox (1 # 10)%Q) (pbcGrid Key32 unitBox) = false) /\
  findPeersMac 1000 HilbertKey Key32 0 assignment15 (arrays_ octree15) unitBox (1 # 10)%Q = Some [1].
Proof.
  destruct octree15_octreeOf as (t & Ho & Et). exists t.
  destruct (findPeersMac_exact HilbertKey Key32 t octree15 assignment15 unitBox (1 # 10)%Q 0 (peerInput15 t Ho Et)) as (n & Hn); [vm_compute; split; congruence|].
  exists n. split; [exact Hn|]. vm_compute. reflexivity.
Defined.

Lemma findPeersMac_mutual_witness : exists n, forall fuel, (n <= fuel)%nat -> exists peers1 peers2,
    findPeersMac fuel HilbertKey Key32 1 assignment15 (arrays_ octree15) unitBox (1 # 10)%Q = Some peers1 /\
    findPeersMac fuel HilbertKey Key32 3 assignment15 (arrays_ octree15) unitBox (1 # 10)%Q = Some peers2 /\ (3 ∈ peers1 <-> 1 ∈ peers2).
Proof.
  destruct octree15_octreeOf as (t & Ho & Et).
  apply (findPeersMac_mutual HilbertKey Key32 t octree15 assignment15 unitBox (1 # 10)%Q 1 3 (peerInput15 t Ho Et)); vm_compute; split; congruence.
Defined.
