(* ===== verification/GeometryProperties.v ===== *)
(** * Properties of halo discovery, acceptance criteria and coordinates

    The claims about [cstone/traversal/collisions.hpp], [cstone/traversal/macs.hpp],
    [cstone/focus/source_center.hpp] and the floating point functions of [cstone/sfc/box.hpp],
    [cstone/sfc/sfc.hpp] and [cstone/traversal/boxoverlap.hpp], and about [cstone/tree/continuum.hpp].  Statements about rational
    coordinates describe the code without rounding. *)

From Stdlib Require Import QArith Lqa.
From S2P Require Import Prelude Primitives SfcCommon Csarray CsInvariant CsRebalance CsCounts CsBuild CsUtil SfcBox Morton Hilbert Sfc BoxOverlap Octree OctreeNodes OctreeBuild OctreeQueries OctreeProperties IndexRanges DomainDecomp Scalars FloatBox FocusTree Traversal NodeLookup Macs SourceCenter Peers Marking ExactGeometry ExactCoords Continuum GlobalBox.
Import OctreeClass.
#[local] Open Scope Z_scope.

(** ** Claims *)

(** C24: with exact (rational) coordinates, halo discovery marks exactly the nodes outside of the own key range whose box overlaps a
    search box that is not inside of the own range ([containedInCoords]), taking periodic images into account, and
    keeps the marks it finds, in every execution order of the parallel loop over the own
    leaves.  The traversal only descends into marked nodes, so this needs that a node overlaps
    whatever its descendants overlap. *)
Theorem findHalos_exact s k t o (box : Box Q) searchCenters searchSizes centers sizes firstNode lastNode order flags :
  octreeOf k t o -> exactBox box -> 0 <= firstNode <= lastNode -> lastNode < zlen (cstoneTree_ o) ->
  lastNode <= zlen searchCenters -> zlen searchSizes = zlen searchCenters -> Forall (fun z : Vec3 Q => 0 <= vx z /\ 0 <= vy z /\ 0 <= vz z)%Q searchSizes ->
  order ≡ₚ seqZ firstNode (lastNode - firstNode) -> zlen flags = zlen (prefixes (arrays_ o)) ->
  zlen centers = zlen (prefixes (arrays_ o)) -> zlen sizes = zlen (prefixes (arrays_ o)) ->
  exists nodeCenters nodeSizes flags',
    nodeFpCenters s k (prefixes (arrays_ o)) box centers sizes = Some (nodeCenters, nodeSizes) /\
    findHalosIn order s k (prefixes (arrays_ o)) (childOffsets (arrays_ o)) (parents (arrays_ o)) nodeCenters nodeSizes (cstoneTree_ o)
      searchCenters searchSizes box firstNode lastNode flags = Some flags' /\
    forall i q, (prefixes (arrays_ o)).[i] = Some q -> nthz flags' i <> 0 <-> nthz flags i <> 0 \/ exists j c sz,
      firstNode <= j < lastNode /\ searchCenters.[j] = Some c /\ searchSizes.[j] = Some sz /\
      let lo := nthz (cstoneTree_ o) firstNode in let hi := nthz (cstoneTree_ o) lastNode in
      containedInCoords s k lo hi c sz box = Some false /\ ~ (lo <= nodeStart k q /\ nodeEnd k q <= hi) /\
      overlapCoords (nodeGeometry s k box q).1 (nodeGeometry s k box q).2 c sz box = true.
Proof.
  intros Ho Hbox Hfl Hl Hsc Hss Hpos Hord Hf Hc Hs. pose proof (oo_depth _ _ _ Ho) as Hd. pose proof (oo_linked _ _ _ Ho) as Hlk.
  destruct (nodeFpCenters_run s k t _ box centers sizes Hd Hlk Hc Hs) as (C & Z0 & EC & _ & _ & Hgeo). exists C, Z0.
  destruct (findHalosIn_run s k t _ box Hd Hlk C Z0 Hgeo searchCenters searchSizes (cstoneTree_ o) firstNode lastNode
    (nthz (cstoneTree_ o) firstNode) (nthz (cstoneTree_ o) lastNode)) with (order := order) (flags := flags) as (flags' & E & _ & Hm); [apply nthz_get; lia|apply nthz_get; lia| |done|done|].
  - intros i Hi. destruct (aget_is_Some searchCenters i ltac:(lia)) as [c Ec]. destruct (aget_is_Some searchSizes i ltac:(lia)) as [sz Es].
    rewrite Forall_forall in Hpos. destruct (containedInCoords_run s k (nthz (cstoneTree_ o) firstNode) (nthz (cstoneTree_ o) lastNode) c sz box Hbox (Hpos _ (aget_elem _ _ _ Es))) as (b & Eb & _).
    by exists c, sz, b.
  - exists flags'. split; [done|]. split; [done|]. intros i q Hq. rewrite Hm. pose proof (pos_node k t _ Hlk i q Hq) as Ei.
    assert (Hqk : q ∈ allKeys 1 t) by (rewrite <- (lk_nodes _ _ _ Hlk); by eapply aget_elem).
    assert (Hcol : forall c sz, collides s k box (nthz (cstoneTree_ o) firstNode) (nthz (cstoneTree_ o) lastNode) c sz q = true <->
      ~ (nthz (cstoneTree_ o) firstNode <= nodeStart k q /\ nodeEnd k q <= nthz (cstoneTree_ o) lastNode) /\
      overlapCoords (nodeGeometry s k box q).1 (nodeGeometry s k box q).2 c sz box = true).
    { intros c sz. unfold collides, containedInKeys. rewrite andb_true_iff, negb_involutive, orb_true_iff, !Z.ltb_lt. split; (intros [H1 H2]; split; [lia|done]). }
    split; (intros [H|H]; [by left|right]).
    + destruct H as (j & c & sz & q' & Hj & (Ec & Es & Eb) & Hr & Hp). exists j, c, sz. assert (q' = q) as -> by (apply (pos_inj k t _ Hlk); [apply Hr|done|lia]).
      apply (reached_collides s k box (proj1 Hbox) t _ _ _ _ q Hd Hqk), Hcol in Hr. done.
    + destruct H as (j & c & sz & Hj & Ec & Es & Eb & Hn). exists j, c, sz, q. split; [done|]. split; [done|]. split; [|done].
      apply (reached_collides s k box (proj1 Hbox) t _ _ _ _ q Hd Hqk). by apply Hcol.
Qed.

(** Search boxes around the leaves of the refined group: the geometric size and a margin. *)
Definition unitBox15 : Box Q := Box_new 0%Q 1%Q 0%Q 1%Q 0%Q 1%Q open open open.
Definition unitCube : Box Q := Box_new 0%Q 1%Q 0%Q 1%Q 0%Q 1%Q periodic open open.
Definition searchCenters15 : list (Vec3 Q) := replicate 15 (mkVec3 (1 # 8)%Q (1 # 8)%Q (1 # 8)%Q).
Definition searchSizes15 : list (Vec3 Q) := replicate 15 (mkVec3 (1 # 4)%Q (1 # 8)%Q (1 # 8)%Q).
Definition noVecs : list (Vec3 Q) := replicate 17 (mkVec3 0%Q 0%Q 0%Q).

Lemma unitCube_exact : exactBox unitCube.
Proof. apply Box_new_exact; reflexivity. Qed.

Lemma octree15_size : zlen (prefixes (arrays_ octree15)) = 17.
Proof. vm_compute. reflexivity. Qed.

Lemma findHalos_exact_witness :
  exists nodeCenters nodeSizes flags',
    nodeFpCenters HilbertKey Key32 (prefixes (arrays_ octree15)) unitCube noVecs noVecs = Some (nodeCenters, nodeSizes) /\
    findHalosIn [1; 0] HilbertKey Key32 (prefixes (arrays_ octree15)) (childOffsets (arrays_ octree15)) (parents (arrays_ octree15)) nodeCenters nodeSizes
      (cstoneTree_ octree15) searchCenters15 searchSizes15 unitCube 0 2 (replicate 17 0) = Some flags' /\
    forall i q, (prefixes (arrays_ octree15)).[i] = Some q -> nthz flags' i <> 0 <-> nthz (replicate 17 0) i <> 0 \/ exists j c sz,
      0 <= j < 2 /\ searchCenters15.[j] = Some c /\ searchSizes15.[j] = Some sz /\
      let lo := nthz (cstoneTree_ octree15) 0 in let hi := nthz (cstoneTree_ octree15) 2 in
      containedInCoords HilbertKey Key32 lo hi c sz unitCube = Some false /\ ~ (lo <= nodeStart Key32 q /\ nodeEnd Key32 q <= hi) /\
      overlapCoords (nodeGeometry HilbertKey Key32 unitCube q).1 (nodeGeometry HilbertKey Key32 unitCube q).2 c sz unitCube = true.
Proof.
  destruct octree15_octreeOf as (t & Ho & Et).
  apply (findHalos_exact HilbertKey Key32 t octree15 unitCube searchCenters15 searchSizes15 noVecs noVecs 0 2 [1; 0] (replicate 17 0) Ho unitCube_exact).
  - lia.
  - rewrite Et. reflexivity.
  - vm_compute. congruence.
  - reflexivity.
  - repeat (apply Forall_cons; split; [vm_compute; repeat split; congruence|]). by apply Forall_nil.
  - change (seqZ 0 (2 - 0)) with [0; 1]. apply perm_swap.
  - rewrite octree15_size. reflexivity.
  - rewrite octree15_size. reflexivity.
  - rewrite octree15_size. reflexivity.
Defined.

(** The marking of nodes that fail the acceptance criterion gives the same marks in every
    execution order of the parallel loop over the focus leaves: a node is marked if it was
    before, or if for one of the focus leaves that are not skipped the node and all of its
    ancestors are outside of the focus, not below the level limit, and fail the criterion. *)
Theorem markMacs_any_order {T} `{!Scalar T} s k t o (box : Box T) centers (centerOf : Z -> Vec3 T * T) focusNodes numFocusNodes limitSource order flags :
  octreeOf k t o -> (forall i q, (prefixes (arrays_ o)).[i] = Some q -> centers.[i] = Some (centerOf q)) ->
  0 <= numFocusNodes < zlen focusNodes -> order ≡ₚ seqZ 0 numFocusNodes -> zlen flags = zlen (prefixes (arrays_ o)) ->
  exists flags', markMacsIn order s k (prefixes (arrays_ o)) (childOffsets (arrays_ o)) (parents (arrays_ o)) centers box focusNodes numFocusNodes limitSource flags = Some flags' /\
    forall i q, (prefixes (arrays_ o)).[i] = Some q -> nthz flags' i <> 0 <-> nthz flags i <> 0 \/ exists j,
      let lo := nthz focusNodes 0 in let hi := nthz focusNodes numFocusNodes in
      0 <= j < numFocusNodes /\ macSkipped s k focusNodes lo hi j = false /\
      forall p, p ∈ prefixes (arrays_ o) -> below p q -> failsMacWith s k box centerOf focusNodes lo hi limitSource j p = true.
Proof.
  intros Ho Hc Hn Hord Hf. pose proof (oo_depth _ _ _ Ho) as Hd. pose proof (oo_linked _ _ _ Ho) as Hlk.
  destruct (markMacsIn_run s k t _ box Hd Hlk centers centerOf) with (focusNodes := focusNodes) (numFocusNodes := numFocusNodes)
    (lo := nthz focusNodes 0) (hi := nthz focusNodes numFocusNodes) (limitSource := limitSource) (order := order) (flags := flags) as (flags' & E & _ & Hm);
    [intros q Hq; by apply Hc, (node_pos k t)|apply nthz_get; lia|apply nthz_get; lia|done|done|].
  exists flags'. split; [done|]. intros i q Hq. rewrite Hm. pose proof (pos_node k t _ Hlk i q Hq) as Ei.
  assert (Hqk : q ∈ allKeys 1 t) by (rewrite <- (lk_nodes _ _ _ Hlk); by eapply aget_elem).
  split; (intros [H|H]; [by left|right]).
  - destruct H as (j & q' & Hj & Hsk & [Hq' Hr] & Hp). exists j. assert (q' = q) as -> by (apply (pos_inj k t _ Hlk); [done|done|lia]).
    split; [done|]. split; [done|]. intros p Hpp. apply Hr. by rewrite <- (lk_nodes _ _ _ Hlk).
  - destruct H as (j & Hj & Hsk & Hr). exists j, q. split; [done|]. split; [done|]. split; [|done]. split; [done|]. intros p Hp. apply Hr. by rewrite (lk_nodes _ _ _ Hlk).
Qed.

Lemma markMacs_any_order_witness : exists centers,
  geoMacSpheres HilbertKey Key32 (prefixes (arrays_ octree15)) 2%Q unitBox15 (replicate 17 (mkVec3 0%Q 0%Q 0%Q, 0%Q)) = Some centers /\
  exists flags', markMacsIn [1; 0] HilbertKey Key32 (prefixes (arrays_ octree15)) (childOffsets (arrays_ octree15)) (parents (arrays_ octree15)) centers unitBox15
      [0; 8 ^ 8; 2 * 8 ^ 8] 2 true (replicate 17 0) = Some flags' /\
    forall i q, (prefixes (arrays_ octree15)).[i] = Some q -> nthz flags' i <> 0 <-> nthz (replicate 17 0) i <> 0 \/ exists j,
      let lo := nthz [0; 8 ^ 8; 2 * 8 ^ 8] 0 in let hi := nthz [0; 8 ^ 8; 2 * 8 ^ 8] 2 in
      0 <= j < 2 /\ macSkipped HilbertKey Key32 [0; 8 ^ 8; 2 * 8 ^ 8] lo hi j = false /\
      forall p, p ∈ prefixes (arrays_ octree15) -> below p q ->
        failsMacWith HilbertKey Key32 unitBox15 (fun q => computeMinMacR2 HilbertKey Key32 q 2%Q unitBox15) [0; 8 ^ 8; 2 * 8 ^ 8] lo hi true j p = true.
Proof.
  destruct octree15_octreeOf as (t & Ho & Et).
  destruct (geoMacSpheres_run HilbertKey Key32 (prefixes (arrays_ octree15)) 2%Q unitBox15 (replicate 17 (mkVec3 0%Q 0%Q 0%Q, 0%Q))) as (centers & E & Hc); [by rewrite octree15_size|].
  exists centers. split; [exact E|].
  apply (markMacs_any_order HilbertKey Key32 t octree15 unitBox15 centers _ [0; 8 ^ 8; 2 * 8 ^ 8] 2 true [1; 0] (replicate 17 0) Ho Hc).
  - vm_compute. split; congruence.
  - change (seqZ 0 2) with [0; 1]. apply perm_swap.
  - rewrite octree15_size. reflexivity.
Defined.

(** the test whether a search box is inside of a key range is defined for all boxes with
    non-negative sizes, and it accepts only if the keys of all points of the search box are in
    the range, so halo discovery is skipped only where no halo exists.  The test compares the
    keys of two corners, the upper one moved by a grid cell. *)
Theorem containedInCoords_sound s k codeStart codeEnd center size (box : Box Q) :
  exactBox box -> (0 <= vx size /\ 0 <= vy size /\ 0 <= vz size)%Q ->
  exists inside, containedInCoords s k codeStart codeEnd center size box = Some inside /\
    (inside = true -> forall p, insideCoords box p -> vle (vsub center size) p -> vle p (vadd center size) ->
       exists key, sfc3D s k (vx p) (vy p) (vz p) box = Some key /\ codeStart <= key < codeEnd).
Proof. apply containedInCoords_run. Qed.

Lemma containedInCoords_sound_witness :
  (exists inside, containedInCoords HilbertKey Key32 0 (8 ^ 9) (mkVec3 (1 # 4) (1 # 4) (1 # 4))%Q (mkVec3 (1 # 8) (1 # 8) (1 # 8))%Q unitBox15 = Some inside /\
    (inside = true -> forall p, insideCoords unitBox15 p -> vle (vsub (mkVec3 (1 # 4) (1 # 4) (1 # 4))%Q (mkVec3 (1 # 8) (1 # 8) (1 # 8))%Q) p ->
       vle p (vadd (mkVec3 (1 # 4) (1 # 4) (1 # 4))%Q (mkVec3 (1 # 8) (1 # 8) (1 # 8))%Q) ->
       exists key, sfc3D HilbertKey Key32 (vx p) (vy p) (vz p) unitBox15 = Some key /\ 0 <= key < 8 ^ 9)) /\
  containedInCoords HilbertKey Key32 0 (8 ^ 9) (mkVec3 (1 # 4) (1 # 4) (1 # 4))%Q (mkVec3 (1 # 8) (1 # 8) (1 # 8))%Q unitBox15 = Some true.
Proof.
  split; [|vm_compute; reflexivity].
  apply (containedInCoords_sound HilbertKey Key32 0 (8 ^ 9) (mkVec3 (1 # 4) (1 # 4) (1 # 4))%Q (mkVec3 (1 # 8) (1 # 8) (1 # 8))%Q unitBox15).
  - apply Box_new_exact; reflexivity.
  - repeat split; discriminate.
Defined.

(** The key of a point inside of the box is the key of a grid cell.  The cell is the one
    that contains the point or, in each dimension, its predecessor, because the code rounds the
    scaled coordinate before it subtracts the scaled corner; for a corner at 0 it is the cell
    that contains the point. *)
Theorem sfc3D_near_cell s k p (box : Box Q) :
  exactBox box -> insideCoords box p ->
  exists ix iy iz, sfc3D s k (vx p) (vy p) (vz p) box = Some (iSfcKey s k ix iy iz) /\ isCell k (ix, iy, iz) /\
    cellOrBelow k (scaledX k box p) ix /\ cellOrBelow k (scaledY k box p) iy /\ cellOrBelow k (scaledZ k box p) iz /\
    ((bxmin box == 0)%Q -> ix = cellOf k (scaledX k box p)) /\ ((bymin box == 0)%Q -> iy = cellOf k (scaledY k box p)) /\
    ((bzmin box == 0)%Q -> iz = cellOf k (scaledZ k box p)).
Proof. apply sfc3D_cell. Qed.

(** A box whose lower corner is half a cell away from a multiple of the cell size. *)
Definition shiftedBox : Box Q := Box_new (1 # 2048)%Q (2049 # 2048)%Q 0%Q 1%Q 0%Q 1%Q open open open.

Lemma sfc3D_near_cell_witness :
  (exists ix iy iz, sfc3D MortonKey Key32 (3 # 2048)%Q (1 # 2)%Q (1 # 2)%Q shiftedBox = Some (iSfcKey MortonKey Key32 ix iy iz) /\ isCell Key32 (ix, iy, iz) /\
    cellOrBelow Key32 (scaledX Key32 shiftedBox (mkVec3 (3 # 2048) (1 # 2) (1 # 2))%Q) ix /\ cellOrBelow Key32 (scaledY Key32 shiftedBox (mkVec3 (3 # 2048) (1 # 2) (1 # 2))%Q) iy /\
    cellOrBelow Key32 (scaledZ Key32 shiftedBox (mkVec3 (3 # 2048) (1 # 2) (1 # 2))%Q) iz /\
    ((bxmin shiftedBox == 0)%Q -> ix = cellOf Key32 (scaledX Key32 shiftedBox (mkVec3 (3 # 2048) (1 # 2) (1 # 2))%Q)) /\
    ((bymin shiftedBox == 0)%Q -> iy = cellOf Key32 (scaledY Key32 shiftedBox (mkVec3 (3 # 2048) (1 # 2) (1 # 2))%Q)) /\
    ((bzmin shiftedBox == 0)%Q -> iz = cellOf Key32 (scaledZ Key32 shiftedBox (mkVec3 (3 # 2048) (1 # 2) (1 # 2))%Q))) /\
  sfc3D MortonKey Key32 (3 # 2048)%Q (1 # 2)%Q (1 # 2)%Q shiftedBox = Some (iSfcKey MortonKey Key32 0 512 512) /\
  cellOf Key32 (scaledX Key32 shiftedBox (mkVec3 (3 # 2048) (1 # 2) (1 # 2))%Q) = 1.
Proof.
  split; [|vm_compute; split; reflexivity]. apply (sfc3D_near_cell MortonKey Key32 (mkVec3 (3 # 2048) (1 # 2) (1 # 2))%Q shiftedBox).
  - apply Box_new_exact; reflexivity.
  - unfold insideCoords. cbn. repeat split; discriminate.
Defined.

(** [createIBox] inverts [centerAndSize]. *)
Theorem createIBox_centerAndSize k b (box : Box Q) :
  goodBox box -> intBox b -> let '(center, size) := centerAndSize k b box in createIBox k center size box = Some b.
Proof. apply createIBox_centerAndSize_run. Qed.

Lemma createIBox_centerAndSize_witness :
  let '(center, size) := centerAndSize Key64 (mkIBox (-7) 100 0 2097152 5 6) shiftedBox in createIBox Key64 center size shiftedBox = Some (mkIBox (-7) 100 0 2097152 5 6).
Proof.
  apply (createIBox_centerAndSize Key64 (mkIBox (-7) 100 0 2097152 5 6) shiftedBox).
  - apply Box_new_good; reflexivity.
  - repeat (apply Forall_cons; split; [vm_compute; split; congruence|]). by apply Forall_nil.
Defined.

(** C25: leaf mass centers and the bottom-up sweep give every node of the tree the total absolute
    mass of the particles inside of its key range and their center of mass, including nodes
    without mass; the particles are sorted along the curve and [layout] holds the index of the
    first particle of each leaf. *)
Theorem massCenters_exact k t o (bs : list (Vec3 Q * Q)) layout C :
  octreeOf k t o -> csTree k (cstoneTree_ o) -> zsorted layout -> Forall (fun i => 0 <= i <= zlen bs) layout -> zlen layout = zlen (cstoneTree_ o) ->
  zlen C = zlen (prefixes (arrays_ o)) ->
  exists C1 C2,
    computeLeafMassCenter ((fun b => vx b.1) <$> bs) ((fun b => vy b.1) <$> bs) ((fun b => vz b.1) <$> bs) (snd <$> bs)
      (drop (Z.to_nat (numInternalNodes_ o)) (leafToInternal (arrays_ o))) layout C = Some C1 /\
    upsweep (levelRange (arrays_ o)) (childOffsets (arrays_ o)) CombineSourceCenter C1 = Some C2 /\
    forall i q a b, (prefixes (arrays_ o)).[i] = Some q -> (cstoneTree_ o).[a] = Some (nodeStart k q) -> (cstoneTree_ o).[b] = Some (nodeEnd k q) ->
      exists c, C2.[i] = Some c /\ isMassCenter (slice bs (nthz layout a) (nthz layout b)) c.
Proof.
  intros Ho Hcs Hsort Hr Hlen HC. pose proof (oo_depth _ _ _ Ho) as Hd. pose proof (oo_linked _ _ _ Ho) as Hl. rewrite (oo_tree _ _ _ Ho) in *.
  pose proof (oo_sized _ _ _ Ho) as (Hp & _ & Hz & _). pose proof (zlen_nonneg (innerKeys 1 t)).
  destruct (massCenters_run bs k t layout Hd Hcs Hsort Hr Hlen (arrays_ o) (drop (Z.to_nat (numInternalNodes_ o)) (leafToInternal (arrays_ o))) Hl) with (C := C)
    as (C1 & C2 & E1 & E2 & H2); [| |done|].
  - intros j x Hj. destruct (lk_leafIndex _ _ _ Hl j x Hj) as (i & Ei & Hi & _). pose proof (aget_Some_range _ _ _ Hj). rewrite <- (pos_node k t _ Hl i x Hi).
    rewrite (oo_numInner _ _ _ Ho). rewrite aget_lookup in Ei |- * by lia. rewrite lookup_drop, <- Ei. f_equal. lia.
  - unfold zlen in *. rewrite length_drop, (oo_numInner _ _ _ Ho). unfold zlen. lia.
  - exists C1, C2. split; [done|]. split; [done|]. intros i q a b Hi Ha Hb. destruct (H2 i q Hi) as (c & Ec & Hc). exists c. split; [done|].
    unfold nodeBodies, bodiesIn, layoutAt in Hc. by rewrite (cs_position k _ _ _ Hcs Ha), (cs_position k _ _ _ Hcs Hb) in Hc.
Qed.

(** Three particles in the first leaf and two in the last one. *)
Definition bodies15 : list (Vec3 Q * Q) :=
  [(mkVec3 (1 # 16) (1 # 16) (1 # 16), 1); (mkVec3 (1 # 8) (1 # 16) (1 # 16), 2); (mkVec3 (1 # 16) (1 # 8) (1 # 16), -1); (mkVec3 (3 # 4) 0 0, 1); (mkVec3 (3 # 4) 0 (1 # 4), 0)]%Q.
Definition layout15 : list Z := [0] ++ replicate 14 3 ++ [5].

Lemma massCenters_exact_witness : exists C1 C2,
    computeLeafMassCenter ((fun b => vx b.1) <$> bodies15) ((fun b => vy b.1) <$> bodies15) ((fun b => vz b.1) <$> bodies15) (snd <$> bodies15)
      (drop (Z.to_nat (numInternalNodes_ octree15)) (leafToInternal (arrays_ octree15))) layout15 (replicate 17 noBody) = Some C1 /\
    upsweep (levelRange (arrays_ octree15)) (childOffsets (arrays_ octree15)) CombineSourceCenter C1 = Some C2 /\
    forall i q a b, (prefixes (arrays_ octree15)).[i] = Some q -> (cstoneTree_ octree15).[a] = Some (nodeStart Key32 q) -> (cstoneTree_ octree15).[b] = Some (nodeEnd Key32 q) ->
      exists c, C2.[i] = Some c /\ isMassCenter (slice bodies15 (nthz layout15 a) (nthz layout15 b)) c.
Proof.
  destruct octree15_octreeOf as (t & Ho & Et). apply (massCenters_exact Key32 t octree15 bodies15 layout15 (replicate 17 noBody) Ho).
  - rewrite Et. apply leaves15_csTree.
  - apply zsortedb_sound. vm_compute. reflexivity.
  - repeat (apply Forall_cons; split; [vm_compute; split; congruence|]). by apply Forall_nil.
  - rewrite Et. reflexivity.
  - rewrite octree15_size. reflexivity.
Defined.

(** ** Global bounding box *)

(** A point is inside of the limits of the dimensions that are not periodic or fixed. *)
Definition inLimits (box : Box Q) (X : Vec3 Q) : Prop :=
  (keepsLimits (boundaryX box) = false -> (bxmin box <= vx X <= bxmax box)%Q) /\ (keepsLimits (boundaryY box) = false -> (bymin box <= vy X <= bymax box)%Q) /\
  (keepsLimits (boundaryZ box) = false -> (bzmin box <= vz X <= bzmax box)%Q).

(** C26: [makeGlobalBox] gives all ranks the same box: the limits of periodic and fixed dimensions are those of the previous
    box, in all other dimensions the box holds the particles of all ranks, and if all boundaries are cubic its
    edges have equal lengths. *)
Theorem makeGlobalBox_correct infinity ranks (previousBox : Box Q) reduced :
  isReduced ((fun points => negateMaxima (localExtrema infinity points previousBox)) <$> ranks) reduced ->
  exists box, Forall (fun points => makeGlobalBox infinity points previousBox reduced = box /\ Forall (inLimits box) points) ranks /\
    boundaryX box = boundaryX previousBox /\ boundaryY box = boundaryY previousBox /\ boundaryZ box = boundaryZ previousBox /\
    (keepsLimits (boundaryX box) = true -> bxmin box = bxmin previousBox /\ bxmax box = bxmax previousBox) /\
    (keepsLimits (boundaryY box) = true -> bymin box = bymin previousBox /\ bymax box = bymax previousBox) /\
    (keepsLimits (boundaryZ box) = true -> bzmin box = bzmin previousBox /\ bzmax box = bzmax previousBox) /\
    (boundaryX box = cubic_open -> boundaryY box = cubic_open -> boundaryZ box = cubic_open -> lx box == ly box /\ ly box == lz box)%Q.
Proof.
  intros Hred. assert (Hne : ranks <> []) by (intros ->; destruct (red_xmin _ _ Hred) as [Hin _]; by apply not_elem_of_nil in Hin).
  pose proof (reduced_dims infinity ranks previousBox reduced Hred Hne) as Hd. exists (commonBox previousBox reduced). split.
  { rewrite Forall_forall in Hd |- *. intros points Hp. split; [by apply (makeGlobalBox_common infinity ranks)|]. destruct (Hd points Hp) as (Hx & Hy & Hz). apply Forall_forall. intros X HX.
    assert (Hdim : forall b lo0 hi0 lo hi (g : Vec3 Q -> Q), dimensionOk b lo0 hi0 lo hi (g <$> points) -> keepsLimits b = false -> (lo <= g X <= hi)%Q).
    { intros b lo0 hi0 lo hi g Hok Eb. unfold dimensionOk in Hok. rewrite Eb, Forall_forall in Hok. by apply Hok, list_elem_of_fmap_2. }
    split; [|split]; intros Hk; (eapply Hdim; [apply extendedSide; eassumption|exact Hk]). }
  destruct ranks as [|points ranks]; [done|]. apply Forall_cons in Hd as [(Hx & Hy & Hz) _]. split; [done|]. split; [done|]. split; [done|].
  assert (Hkeep : forall b lo0 hi0 lo hi m l, dimensionOk b lo0 hi0 lo hi l -> keepsLimits b = true -> lo = lo0 /\ (if bool_decide (b = cubic_open) then s_max hi (s_add lo m) else hi) = hi0).
  { intros b lo0 hi0 lo hi m l Hok Eb. apply (extendedSide _ _ _ _ _ m) in Hok. unfold dimensionOk in Hok. by rewrite Eb in Hok. }
  split; [|split; [|split]]; [intros Hk; eapply Hkeep; [exact Hx|exact Hk]|intros Hk; eapply Hkeep; [exact Hy|exact Hk]|intros Hk; eapply Hkeep; [exact Hz|exact Hk]|].
  unfold commonBox, Box_new. cbn [boundaryX boundaryY boundaryZ lx ly lz]. intros Ex Ey Ez. rewrite !(bool_decide_eq_true_2 _ Ex), !(bool_decide_eq_true_2 _ Ey), !(bool_decide_eq_true_2 _ Ez).
  set (sx := s_sub (Qopp (e_xmax reduced)) (e_xmin reduced)). set (sy := s_sub (Qopp (e_ymax reduced)) (e_ymin reduced)). set (sz := s_sub (Qopp (e_zmax reduced)) (e_zmin reduced)). set (m := s_max (s_max sx sy) sz).
  assert (Hm : (sx <= m /\ sy <= m /\ sz <= m)%Q) by (destruct (s_max_ge sx sy), (s_max_ge (s_max sx sy) sz); repeat split; unfold m; lra).
  assert (Hside : forall lo hi, (s_sub hi lo <= m -> s_sub (s_max hi (s_add lo m)) lo == m)%Q).
  { intros lo hi H. unfold s_max. cbn [s_ltb s_add s_sub Exact.scalar] in *. destruct (Exact.ltb hi (lo + m)) eqn:E; [apply ltb_lt in E; lra|apply ltb_ge in E; lra]. }
  destruct Hm as (H1 & H2 & H3). split; rewrite !Hside by done; reflexivity.
Qed.

(** Two ranks, one without particles. *)
Definition boxPoints : list (list (Vec3 Q)) := [[mkVec3 (-2)%Q 3%Q (1 # 2)%Q; mkVec3 5%Q 0%Q 7%Q]; []].
Definition boxReduced : Extrema Q := mkExtrema (-2)%Q (-5)%Q 0%Q (-3)%Q 0%Q (-1)%Q.

Lemma makeGlobalBox_correct_witness :
  exists box, Forall (fun points => makeGlobalBox 1000%Q points (Box_new 0%Q 1%Q 0%Q 1%Q 0%Q 1%Q open open periodic) boxReduced = box /\ Forall (inLimits box) points) boxPoints /\
    bzmax box = 1%Q.
Proof.
  destruct (makeGlobalBox_correct 1000%Q boxPoints (Box_new 0%Q 1%Q 0%Q 1%Q 0%Q 1%Q open open periodic) boxReduced) as (box & H & _ & _ & Ez & _ & _ & Hz & _).
  - assert (Hmin : forall a b m, (m = a \/ m = b) -> (m <= a)%Q -> (m <= b)%Q -> isMinimum [a; b] m).
    { intros a b m Hm Ha Hb. split; [destruct Hm as [->| ->]; [by left|right; by left]|]. repeat (apply Forall_cons; split; [done|]). by apply Forall_nil. }
    split; apply Hmin; try (vm_compute; intuition congruence); try (by left); try (by right).
  - exists box. split; [exact H|]. apply Hz. by rewrite Ez.
Defined.

(** ** Trees of concentrations *)

(** C27: For a bounded concentration, with exact coordinates, [computeContinuumCsarray] returns a cornerstone array together with the estimated
    count of each of its leaves; the estimates of all nodes that occur fit into 32 bits.  Every leaf is within the bucket size or on
    the last level and no eight siblings could be merged, unless the tree has changed in all of the eleven updates. *)
Theorem computeContinuumCsarray_correct s k (box : Box Q) concentration limit bucketSize :
  goodBox box -> (forall x y z, (0 <= concentration x y z <= limit)%Q) -> (limit * (lx box * ly box * lz box) <= inject_Z 4294967294)%Q -> 0 <= bucketSize -> bucketSize * 512 < 4294967296 ->
  exists tree counts, computeContinuumCsarray s k box concentration bucketSize = Some (tree, counts) /\ csTree k tree /\ continuumCounts s k box concentration tree counts /\
    (continuumBalanced k bucketSize tree counts \/ continuumSteps s k box concentration bucketSize 11 tree counts).
Proof. intros Hbox Hc Hl Hb Hb'. apply computeContinuumCsarray_run; [|done]. intros a b Hn. by apply (continuumCount_defined s k box concentration limit). Qed.

(** 32 particles in the half of the unit cube with x < 1/2. *)
Definition halfFilled (x y z : Q) : Q := if Exact.ltb x (1 # 2) then 64%Q else 0%Q.

Lemma computeContinuumCsarray_correct_witness :
  exists tree counts, computeContinuumCsarray HilbertKey Key32 (Box_cube (0 : Q)%Q 1%Q open) halfFilled 8 = Some (tree, counts) /\ csTree Key32 tree /\ continuumCounts HilbertKey Key32 (Box_cube (0 : Q)%Q 1%Q open) halfFilled tree counts /\
    (continuumBalanced Key32 8 tree counts \/ continuumSteps HilbertKey Key32 (Box_cube (0 : Q)%Q 1%Q open) halfFilled 8 11 tree counts).
Proof.
  apply (computeContinuumCsarray_correct HilbertKey Key32 (Box_cube (0 : Q)%Q 1%Q open) halfFilled 64%Q 8).
  - repeat split; reflexivity.
  - intros x y z. unfold halfFilled. destruct (Exact.ltb x (1 # 2)); split; vm_compute; congruence.
  - vm_compute. congruence.
  - lia.
  - lia.
Defined.

Example halfFilled_run : computeContinuumCsarray HilbertKey Key32 (Box_cube (0 : Q)%Q 1%Q open) halfFilled 8 =
  Some ([0; 8 ^ 9; 2 * 8 ^ 9; 3 * 8 ^ 9; 4 * 8 ^ 9; 5 * 8 ^ 9; 6 * 8 ^ 9; 7 * 8 ^ 9; 8 ^ 10], [8; 8; 8; 8; 0; 0; 0; 0]).
Proof. vm_compute. reflexivity. Qed.

(** The clamp follows the conversion to [unsigned], which is undefined for larger values. *)
Example continuumCount_unclamped : continuumCount HilbertKey Key32 (Box_cube (0 : Q)%Q 1%Q open) (fun _ _ _ => inject_Z (2 ^ 32)) 0 (8 ^ 10) = None.
Proof. vm_compute. reflexivity. Qed.
