(* ===== verification/Neighbors.v ===== *)
(** * Neighbor search

    [cstone/findneighbors.hpp]: the particles within the search radius of a particle, found by a
    traversal of the octree.  Coordinates and smoothing lengths have the same type [T]. *)

From S2P Require Import Prelude Primitives SfcCommon Octree Scalars FloatBox Traversal.

(** ** Definitions *)

Section Neighbors.
Context {T : Type} `{!Scalar T}.
#[local] Open Scope scalar_scope.

(** [distanceSq<true>] *)
Definition distanceSqPbc (x1 y1 z1 x2 y2 z2 : T) (box : Box T) : T :=
  let pbcX := isPeriodic (boundaryX box) in
  let pbcY := isPeriodic (boundaryY box) in
  let pbcZ := isPeriodic (boundaryZ box) in
  let dx := x1 - x2 in
  let dy := y1 - y2 in
  let dz := z1 - z2 in
  let dx := dx - s_bool pbcX * lx box * s_rint (dx * ilx box) in
  let dy := dy - s_bool pbcY * ly box * s_rint (dy * ily box) in
  let dz := dz - s_bool pbcZ * lz box * s_rint (dz * ilz box) in
  dx * dx + dy * dy + dz * dz.

(** [distanceSq<false>] *)
Definition distanceSq (x1 y1 z1 x2 y2 z2 : T) : T :=
  let xx := x1 - x2 in
  let yy := y1 - y2 in
  let zz := z1 - z2 in
  xx * xx + yy * yy + zz * zz.

(** The argument [h]: a pointer to the values of all particles or one value. *)
Inductive Smoothing := perParticle (h : list T) | uniform (h : T).

Definition loadAtIndexIfPtr (ptrOrConstant : Smoothing) (index : Z) : option T :=
  match ptrOrConstant with perParticle h => h.[index] | uniform h => Some h end.

Record OctreeNsView := mkOctreeNsView {
  ns_childOffsets : list Z;
  ns_parents : list Z;
  ns_internalToLeaf : list Z;
  ns_layout : list Z;
  ns_centers : list (Vec3 T);
  ns_sizes : list (Vec3 T);
  ns_searchExtFactor : T
}.

(** The lambdas [overlapsPbc] and [overlaps]. *)
Definition overlaps (usePbc : bool) (particle : Vec3 T) (cellRadiusSq : T) (tree : OctreeNsView) (box : Box T) {S} (idx : Z) (s : S) : option (bool * S) :=
  let? center := (ns_centers tree).[idx] in
  let? size := (ns_sizes tree).[idx] in
  let d := if usePbc then minDistancePointPbc particle center size box else minDistancePoint particle center size in
  Some (norm2 d <? cellRadiusSq, s).

(** An iteration of the loop in [searchBoxPbc] and [searchBox] on ([numNeighbors], [neighbors]);
    the pointer [neighbors] points to entry [base] of the array. *)
Definition searchParticle (usePbc : bool) (i : Z) (particle : Vec3 T) (radiusSq : T) (x y z : list T) (box : Box T) (ngmax base neighborsStride : Z)
    (j : Z) (st : Z * list Z) : option (Z * list Z) :=
  let '(numNeighbors, neighbors) := st in
  if (j =? i)%Z then Some st
  else
    let? xj := x.[j] in
    let? yj := y.[j] in
    let? zj := z.[j] in
    let d := if usePbc then distanceSqPbc xj yj zj (vx particle) (vy particle) (vz particle) box
             else distanceSq xj yj zj (vx particle) (vy particle) (vz particle) in
    if d <? radiusSq then
      let? neighbors := if (numNeighbors <? ngmax)%Z then aset neighbors (base + u64 (numNeighbors * neighborsStride))%Z j else Some neighbors in
      Some (u32 (numNeighbors + 1), neighbors)
    else Some st.

Definition searchLeaf (usePbc : bool) (i : Z) (particle : Vec3 T) (radiusSq : T) (tree : OctreeNsView) (x y z : list T) (box : Box T)
    (ngmax base neighborsStride : Z) (idx : Z) (st : Z * list Z) : option (Z * list Z) :=
  let? leafIdx := (ns_internalToLeaf tree).[idx] in
  let? firstParticle := (ns_layout tree).[leafIdx] in
  let? lastParticle := (ns_layout tree).[leafIdx + 1]%Z in
  for_loop firstParticle lastParticle (searchParticle usePbc i particle radiusSq x y z box ngmax base neighborsStride) st.

Definition anyPbc (box : Box T) : bool := isPeriodic (boundaryX box) || isPeriodic (boundaryY box) || isPeriodic (boundaryZ box).

(** The neighbor count and the updated array. *)
Definition findNeighbors (i : Z) (x y z : list T) (h : Smoothing) (tree : OctreeNsView) (box : Box T) (ngmax : Z) (neighbors : list Z)
    (base neighborsStride : Z) : option (Z * list Z) :=
  let? xi := x.[i] in
  let? yi := y.[i] in
  let? zi := z.[i] in
  let? hi := loadAtIndexIfPtr h i in
  let radiusSq := s_ofZ 4 * hi * hi in
  let cellRadiusSq := radiusSq * ns_searchExtFactor tree * ns_searchExtFactor tree in
  let particle := mkVec3 xi yi zi in
  let twoH := s_ofZ 2 * hi in
  let usePbc := anyPbc box && negb (insideBox particle (mkVec3 twoH twoH twoH) box) in
  singleTraversal (overlaps usePbc particle cellRadiusSq tree box)
    (searchLeaf usePbc i particle radiusSq tree x y z box ngmax base neighborsStride)
    (ns_childOffsets tree) (ns_parents tree) (0, neighbors)%Z.

(** The overload for a range of particles; the product of the index and [ngmax] has 32 bits.
    [order] is the order in which the parallel loop executes. *)
Definition findNeighborsIn (order : list Z) (x y z : list T) (h : Smoothing) (firstId : Z) (box : Box T) (treeView : OctreeNsView) (ngmax : Z)
    (neighbors neighborsCount : list Z) : option (list Z * list Z) :=
  foldM (fun i '(neighbors, neighborsCount) =>
    let id := u32 (i + firstId) in
    let? (count, neighbors) := findNeighbors id x y z h treeView box ngmax neighbors (u32 (i * ngmax)) 1 in
    let? neighborsCount := aset neighborsCount i count in
    Some (neighbors, neighborsCount)) order (neighbors, neighborsCount).

End Neighbors.
Arguments OctreeNsView T : clear implicits.
Arguments Smoothing T : clear implicits.
