(* ===== verification/NeighborSearch.v ===== *)
(** * The neighbor search in exact arithmetic

    Lemmas on [findNeighbors] ([cstone/findneighbors.hpp]): a traversal whose criterion rejects
    only leaves without neighbors equals the loop over all particles, and with rational
    coordinates the criterion does so. *)

From Stdlib Require Import QArith Qround Qabs Lqa.
From S2P Require Import Prelude Primitives SfcCommon Csarray CsInvariant CsRebalance CsCounts SfcBox Morton Hilbert Sfc BoxOverlap Octree OctreeNodes OctreeBuild OctreeQueries IndexRanges DomainDecomp Scalars FloatBox Traversal NodeLookup Macs Peers Marking ExactGeometry ExactCoords Neighbors.
#[local] Open Scope Z_scope.

(** ** Traversals that only skip leaves without effect *)

Lemma foldM_skip {A S} (f : A -> S -> option S) l s : (forall a s, a ∈ l -> f a s = Some s) -> foldM f l s = Some s.
Proof.
  induction l as [|a l IH]; intros H; [done|]. cbn [foldM]. rewrite H by by left. apply IH. intros. apply H. by right.
Qed.

Lemma visit_leaves {S} (C : Z -> S -> option (bool * S)) (A : Z -> S -> option S) idx (crit : Z -> bool) u : forall p s, 1 <= p ->
  (forall q s, q ∈ allKeys p u -> C (idx q) s = Some (crit q, s)) ->
  (forall q r s, q ∈ leafKeys p u -> r ∈ allKeys p u -> below r q -> crit r = false -> A (idx q) s = Some s) ->
  visit C A idx p u s = foldM (fun q => A (idx q)) (leafKeys p u) s.
Proof.
  induction u as [|f IH]; intros p s Hp HC HA; cbn [visit]; rewrite (HC p s (allKeys_root p _)).
  - cbn [leafKeys foldM]. destruct (crit p) eqn:Ec; [by destruct (A (idx p) s)|].
    by rewrite (HA p p s ltac:(by left) (allKeys_root p _) (below_refl p) Ec).
  - destruct (crit p) eqn:Ec.
    + rewrite leafKeys_blocks. change (blocks (fun c => leafKeys (8 * p + c) (f c)) 8) with (concat ((fun c => leafKeys (8 * p + c) (f c)) <$> octants)).
      assert (Hl : Forall (fun c => 0 <= c < 8) octants) by (apply Forall_forall; intros c Hc%elem_of_seqZ; lia).
      revert s. induction Hl as [|c l Hc Hl IHl]; intros s; [done|]. cbn [foldM fmap list_fmap concat]. rewrite foldM_app.
      rewrite (IH c (8 * p + c) s ltac:(lia)); [by destruct (foldM _ (leafKeys (8 * p + c) (f c)) s)| |].
      * intros q s' Hq. apply HC, allKeys_elem. right. by exists c.
      * intros q r s' Hq Hr. apply HA; [apply leafKeys_elem; by exists c|apply allKeys_elem; right; by exists c].
    + rewrite foldM_skip; [done|]. intros q s' Hq. apply (HA q p s' Hq (allKeys_root p _)); [|done].
      apply (allKeys_below p (ONode f)). apply elem_of_app. by right.
Qed.

Lemma StronglySorted_filter {A} (R : A -> A -> Prop) (P : A -> Prop) `{!forall x, Decision (P x)} l : StronglySorted R l -> StronglySorted R (filter P l).
Proof.
  induction 1 as [|x l _ IH Hx]; [constructor|]. rewrite filter_cons. destruct (decide (P x)); [|done]. constructor; [done|]. rewrite Forall_forall in Hx |- *.
  intros y [_ Hy]%list_elem_of_filter. by apply Hx.
Qed.

Lemma seqZ_sorted a n : StronglySorted Z.lt (seqZ a n).
Proof.
  destruct (Z.le_gt_cases n 0) as [Hn|Hn]; [rewrite seqZ_nil by lia; constructor|]. revert a. apply (natlike_ind (fun n => forall a, StronglySorted Z.lt (seqZ a n))); [constructor| |lia].
  intros m Hm IH a. rewrite seqZ_cons by lia. rewrite Z.pred_succ. constructor; [apply IH|]. apply Forall_forall. intros x Hx%elem_of_seqZ. lia.
Qed.

(** ** The loop over the leaves *)

Section Ranges.
Context {S : Type} (body : Z -> S -> option S) (layout : list Z).

Lemma for_loop_app a b c s : a <= b <= c -> for_loop a c body s = let? s := for_loop a b body s in for_loop b c body s.
Proof using.
  intros Hb. unfold for_loop. replace (c - a) with ((b - a) + (c - b)) by lia. rewrite seqZ_app, foldM_app by lia. by replace (a + (b - a)) with b by lia.
Qed.

(** Consecutive ranges make one range. *)
Lemma ranges_loop n s : zsorted layout -> 0 <= n < zlen layout ->
  foldM (fun j s => for_loop (nthz layout j) (nthz layout (j + 1)) body s) (seqZ 0 n) s = for_loop (nthz layout 0) (nthz layout n) body s.
Proof using.
  intros Hs Hn. destruct Hn as [Hn0 Hn]. revert Hn s. apply (natlike_ind (fun n => n < zlen layout -> forall s,
    foldM (fun j s => for_loop (nthz layout j) (nthz layout (j + 1)) body s) (seqZ 0 n) s = for_loop (nthz layout 0) (nthz layout n) body s)); [| |done].
  - intros _ s. unfold for_loop. by rewrite Z.sub_diag.
  - intros m Hm IH Hlt s. replace (Z.succ m) with (m + 1) by lia. rewrite seqZ_app, foldM_app, IH by lia. change (seqZ (0 + m) 1) with [0 + m]. rewrite Z.add_0_l. cbn [foldM].
    rewrite (for_loop_app (nthz layout 0) (nthz layout m) (nthz layout (m + 1))).
    + destruct (for_loop _ _ body s) as [s'|]; [|done]. by destruct (for_loop _ _ body s').
    + split.
      * apply (Hs 0 m); [lia|apply nthz_get; lia|apply nthz_get; lia].
      * apply (Hs m (m + 1)); [lia|apply nthz_get; lia|apply nthz_get; lia].
Qed.

End Ranges.

(** ** Collecting neighbors *)

Section Collect.
Context (near : Z -> bool) (ngmax base stride : Z).

(** The array [nbs'] is [nbs] with the first [ngmax] elements of [found] written. *)
Definition listed (found nbs nbs' : list Z) : Prop :=
  zlen nbs' = zlen nbs /\
  (forall s v, s < ngmax -> found.[s] = Some v -> nbs'.[base + s * stride] = Some v) /\
  (forall p, (forall s, 0 <= s < zlen found -> s < ngmax -> p <> base + s * stride) -> nbs'.[p] = nbs.[p]).

Definition collect (j : Z) (st : Z * list Z) : option (Z * list Z) :=
  let '(n, nbs) := st in
  if near j then
    let? nbs := if n <? ngmax then aset nbs (base + u64 (n * stride)) j else Some nbs in
    Some (u32 (n + 1), nbs)
  else Some st.

Lemma listed_nil nbs : listed [] nbs nbs.
Proof using. split; [done|]. split; [|done]. intros s v _ H. apply aget_Some_range in H. change (zlen []) with 0 in H. lia. Qed.

Hypothesis Hstride : 1 <= stride.
Hypothesis Hbase : 0 <= base.
Context (nbs : list Z).
Hypothesis Hroom : base + (ngmax - 1) * stride < zlen nbs.
Hypothesis Hsize : zlen nbs < 2 ^ 64.

Lemma listed_snoc found nbs1 j : listed found nbs nbs1 ->
  exists nbs2, (if zlen found <? ngmax then aset nbs1 (base + u64 (zlen found * stride)) j else Some nbs1) = Some nbs2 /\ listed (found ++ [j]) nbs nbs2.
Proof using Hstride Hbase Hroom Hsize.
  intros (Hz & Hin & Hout). pose proof (zlen_nonneg found). destruct (Z.ltb_spec (zlen found) ngmax) as [Hlt|Hge].
  - assert (zlen found * stride <= (ngmax - 1) * stride) by (apply Z.mul_le_mono_nonneg_r; lia). rewrite u64_small by nia.
    pose proof (aset_Some nbs1 (base + zlen found * stride) j ltac:(nia)) as F. rewrite F. eexists. split; [done|].
    split; [by rewrite (aset_zlen _ _ _ _ F)|]. split.
    + intros s v Hs Hv. destruct (decide (s = zlen found)) as [->|Hne].
      * rewrite (aget_aset_eq _ _ _ _ F). rewrite aget_app_r in Hv by lia. rewrite Z.sub_diag in Hv. exact Hv.
      * rewrite (aget_aset_ne _ _ _ _ _ F) by nia. apply Hin; [done|]. pose proof (aget_Some_range _ _ _ Hv) as Hr. rewrite zlen_app in Hr. change (zlen [j]) with 1 in Hr.
        rewrite aget_app_l in Hv by lia. exact Hv.
    + intros p Hp. rewrite (aget_aset_ne _ _ _ _ _ F).
      * apply Hout. intros s Hs Hn. apply Hp; [|done]. rewrite zlen_app. change (zlen [j]) with 1. lia.
      * intros E. apply (Hp (zlen found)); [rewrite zlen_app; change (zlen [j]) with 1; lia|done|done].
  - exists nbs1. split; [done|]. split; [done|]. split.
    + intros s v Hs Hv. apply Hin; [done|]. rewrite aget_app_l in Hv by lia. exact Hv.
    + intros p Hp. apply Hout. intros s Hs Hn. apply Hp; [|done]. rewrite zlen_app. change (zlen [j]) with 1. lia.
Qed.

Lemma collect_run l : forall found nbs1, listed found nbs nbs1 -> zlen found + zlen l < 2 ^ 32 ->
  exists nbs2, foldM collect l (zlen found, nbs1) = Some (zlen (found ++ filter (fun j => near j = true) l), nbs2) /\
    listed (found ++ filter (fun j => near j = true) l) nbs nbs2.
Proof using Hstride Hbase Hroom Hsize.
  induction l as [|j l IH]; intros found nbs1 Hl Hn; cbn [foldM].
  - exists nbs1. by rewrite app_nil_r.
  - rewrite zlen_cons in Hn. pose proof (zlen_nonneg found). pose proof (zlen_nonneg l). unfold collect at 1. rewrite filter_cons. destruct (near j).
    + rewrite decide_True by done. destruct (listed_snoc found nbs1 j Hl) as (nbs2 & -> & Hl2). cbn beta iota. rewrite u32_small by lia.
      replace (zlen found + 1) with (zlen (found ++ [j])) by (by rewrite zlen_app).
      destruct (IH (found ++ [j]) nbs2 Hl2) as (nbs3 & E & H3); [rewrite zlen_app; change (zlen [j]) with 1; lia|].
      exists nbs3. rewrite <- app_assoc in E, H3. done.
    + rewrite decide_False by done. apply IH; [done|lia].
Qed.

End Collect.

(** ** Distances *)

Lemma square_nonneg (a : Q) : (0 <= a * a)%Q.
Proof. destruct (Qlt_le_dec a 0); [|by apply Qmult_le_0_compat]. assert (a * a == (- a) * (- a))%Q as -> by ring. apply Qmult_le_0_compat; lra. Qed.

Lemma square_abs_le (a b : Q) : (Qabs a <= Qabs b)%Q -> (a * a <= b * b)%Q.
Proof.
  assert (Hsq : forall x : Q, (x * x == Qabs x * Qabs x)%Q).
  { intros x. rewrite <- Qabs_Qmult, Qabs_pos; [reflexivity|apply square_nonneg]. }
  intros H. rewrite (Hsq a), (Hsq b). apply Qmult_le_compat_nonneg; (split; [apply Qabs_nonneg|done]).
Qed.

Lemma square_ge (a h : Q) : (0 <= h)%Q -> (a <= - h \/ h <= a)%Q -> (h * h <= a * a)%Q.
Proof.
  intros Hh Ha. apply square_abs_le. rewrite (Qabs_pos h Hh). destruct Ha as [Ha|Ha].
  - rewrite Qabs_neg by lra. lra.
  - rewrite Qabs_pos by lra. done.
Qed.

Lemma mult_ge_one (x f : Q) : (0 <= x)%Q -> (1 <= f)%Q -> (x <= x * f)%Q.
Proof. intros Hx Hf. rewrite (Qmult_comm x f). rewrite <- (Qmult_1_l x) at 1. by apply Qmult_le_compat_r. Qed.

(** An image of [q] is closer to [p] than the square root of [r2]. *)
Definition imageWithin (box : Box Q) (r2 : Q) (p q : Vec3 Q) : Prop :=
  exists nx ny nz, (isPeriodic (boundaryX box) = true \/ nx = 0) /\ (isPeriodic (boundaryY box) = true \/ ny = 0) /\ (isPeriodic (boundaryZ box) = true \/ nz = 0) /\
    (let dx := vx q - vx p - lx box * inject_Z nx in let dy := vy q - vy p - ly box * inject_Z ny in let dz := vz q - vz p - lz box * inject_Z nz in
      dx * dx + dy * dy + dz * dz < r2)%Q.

Definition distPbc (box : Box Q) (p q : Vec3 Q) : Q := distanceSqPbc (vx q) (vy q) (vz q) (vx p) (vy p) (vz p) box.
Definition distPlain (p q : Vec3 Q) : Q := distanceSq (vx q) (vy q) (vz q) (vx p) (vy p) (vz p).

Lemma distPbc_dims box p q : goodBox box ->
  let wx := wrapDistance (isPeriodic (boundaryX box)) (lx box) (s_ofZ 1 / lx box)%S (vx q - vx p) in
  let wy := wrapDistance (isPeriodic (boundaryY box)) (ly box) (s_ofZ 1 / ly box)%S (vy q - vy p) in
  let wz := wrapDistance (isPeriodic (boundaryZ box)) (lz box) (s_ofZ 1 / lz box)%S (vz q - vz p) in
  distPbc box p q = (wx * wx + wy * wy + wz * wz)%Q.
Proof. intros ([_ Ex] & [_ Ey] & [_ Ez]). unfold distPbc, distanceSqPbc, wrapDistance. by rewrite Ex, Ey, Ez. Qed.

(** The periodic distance is the distance to the closest image. *)
Lemma imageWithin_iff box r2 p q : goodBox box -> (distPbc box p q < r2)%Q <-> imageWithin box r2 p q.
Proof.
  intros Hb. pose proof Hb as ([Hx _] & [Hy _] & [Hz _]). rewrite (distPbc_dims box p q Hb). split.
  - intros H. destruct (wrapDistance_shift (isPeriodic (boundaryX box)) (lx box) (vx q - vx p) Hx) as (nx & Hnx & Ex).
    destruct (wrapDistance_shift (isPeriodic (boundaryY box)) (ly box) (vy q - vy p) Hy) as (ny & Hny & Ey).
    destruct (wrapDistance_shift (isPeriodic (boundaryZ box)) (lz box) (vz q - vz p) Hz) as (nz & Hnz & Ez).
    exists nx, ny, nz. do 3 (split; [done|]). cbn zeta. by rewrite <- Ex, <- Ey, <- Ez.
  - intros (nx & ny & nz & Hnx & Hny & Hnz & H). eapply Qle_lt_trans; [|exact H]. cbn zeta.
    apply Qplus_le_compat; [apply Qplus_le_compat|]; apply square_abs_le; by apply wrapDistance_min.
Qed.

(** An interval that holds the search radius around [x] is free of other images. *)
Lemma other_image_far (lo hi l x y h : Q) n : (0 <= h)%Q -> (l == hi - lo)%Q -> (0 < l)%Q -> (lo <= x - h)%Q -> (x + h <= hi)%Q -> (lo <= y <= hi)%Q -> n <> 0 ->
  (h * h <= (y - x - l * inject_Z n) * (y - x - l * inject_Z n))%Q.
Proof.
  intros Hh El Hl H1 H2 Hy Hn. apply square_ge; [done|].
  assert (Hcase : (inject_Z n <= -1 \/ 1 <= inject_Z n)%Q).
  { destruct (Z.lt_trichotomy n 0) as [Hlt|[?|Hgt]]; [left|done|right]; [change (-1)%Q with (inject_Z (-1))|change 1%Q with (inject_Z 1)]; rewrite <- Zle_Qle; lia. }
  destruct Hcase as [Hm|Hm].
  - right. assert (l * inject_Z n <= - l)%Q; [|lra]. assert (l * inject_Z n == inject_Z n * l)%Q as -> by ring. assert (- l == -1 * l)%Q as -> by ring. apply Qmult_le_compat_r; lra.
  - left. assert (l <= l * inject_Z n)%Q; [|lra]. assert (l * inject_Z n == inject_Z n * l)%Q as -> by ring. rewrite <- (Qmult_1_l l) at 1. apply Qmult_le_compat_r; lra.
Qed.

Definition twoH (h : Q) : Vec3 Q := let d := (s_ofZ 2 * h)%S in mkVec3 d d d.

Lemma insideBox_iff p (d : Vec3 Q) box : insideBox p d box = true <->
  (bxmin box <= vx p - vx d)%Q /\ (bymin box <= vy p - vy d)%Q /\ (bzmin box <= vz p - vz d)%Q /\
  (vx p + vx d <= bxmax box)%Q /\ (vy p + vy d <= bymax box)%Q /\ (vz p + vz d <= bzmax box)%Q.
Proof. unfold insideBox. cbn [s_leb Exact.scalar]. rewrite !andb_true_iff, !Qle_bool_iff. cbn. tauto. Qed.

(** If the search radius stays inside of the box, images do not matter. *)
Lemma inside_plain box p q h : exactBox box -> (0 <= h)%Q -> insideBox p (twoH h) box = true -> insideCoords box q ->
  imageWithin box (s_ofZ 4 * h * h)%S p q <-> (distPlain p q < s_ofZ 4 * h * h)%Q.
Proof.
  intros [([Hx _] & [Hy _] & [Hz _]) (Ex & Ey & Ez)] Hh (Ix & Iy & Iz & Jx & Jy & Jz)%insideBox_iff (Qx & Qy & Qz).
  unfold twoH in *. cbn [vx vy vz s_mul s_ofZ Exact.scalar] in *. change (inject_Z 2) with 2%Q in *. change (inject_Z 4) with 4%Q in *.
  assert (H2 : (0 <= 2 * h)%Q) by lra. assert (E4 : (2 * h * (2 * h) == 4 * h * h)%Q) by ring. split.
  - intros (nx & ny & nz & _ & _ & _ & H). cbn zeta in H.
    set (dx := (vx q - vx p - lx box * inject_Z nx)%Q) in *. set (dy := (vy q - vy p - ly box * inject_Z ny)%Q) in *. set (dz := (vz q - vz p - lz box * inject_Z nz)%Q) in *.
    pose proof (square_nonneg dx). pose proof (square_nonneg dy). pose proof (square_nonneg dz).
    assert (nx = 0) as ->. { destruct (decide (nx = 0)) as [|Hn]; [done|]. pose proof (other_image_far _ _ _ _ _ _ nx H2 Ex Hx Ix Jx Qx Hn) as Hf. fold dx in Hf. lra. }
    assert (ny = 0) as ->. { destruct (decide (ny = 0)) as [|Hn]; [done|]. pose proof (other_image_far _ _ _ _ _ _ ny H2 Ey Hy Iy Jy Qy Hn) as Hf. fold dy in Hf. lra. }
    assert (nz = 0) as ->. { destruct (decide (nz = 0)) as [|Hn]; [done|]. pose proof (other_image_far _ _ _ _ _ _ nz H2 Ez Hz Iz Jz Qz Hn) as Hf. fold dz in Hf. lra. }
    eapply Qle_lt_trans; [|exact H]. unfold distPlain, distanceSq. cbn [s_sub s_mul s_add Exact.scalar]. subst dx dy dz. change (inject_Z 0) with 0%Q. apply Qle_lteq. right. ring.
  - intros H. exists 0, 0, 0. do 3 (split; [by right|]). cbn zeta. change (inject_Z 0) with 0%Q. eapply Qle_lt_trans; [|exact H].
    unfold distPlain, distanceSq. cbn [s_sub s_mul s_add Exact.scalar]. apply Qle_lteq. right. ring.
Qed.

Lemma open_plain box p q r2 : anyPbc box = false -> imageWithin box r2 p q <-> (distPlain p q < r2)%Q.
Proof.
  unfold anyPbc. rewrite !orb_false_iff. intros [[Px Py] Pz]. unfold imageWithin, distPlain, distanceSq. rewrite Px, Py, Pz. cbn zeta. cbn [s_sub s_mul s_add Exact.scalar]. split.
  - intros (nx & ny & nz & [?|Hx] & [?|Hy] & [?|Hz] & Hd); try done. subst nx ny nz. change (inject_Z 0) with 0%Q in Hd. eapply Qle_lt_trans; [|exact Hd]. apply Qle_lteq. right. ring.
  - intros H. exists 0, 0, 0. do 3 (split; [by right|]). change (inject_Z 0) with 0%Q. eapply Qle_lt_trans; [|exact H]. apply Qle_lteq. right. ring.
Qed.

(** The test that selects the periodic distance. *)
Definition needsPbc (box : Box Q) (p : Vec3 Q) (h : Q) : bool := anyPbc box && negb (insideBox p (twoH h) box).
Definition searchDist (usePbc : bool) (box : Box Q) (p q : Vec3 Q) : Q := if usePbc then distPbc box p q else distPlain p q.

Lemma searchDist_within box p q h : exactBox box -> (0 <= h)%Q -> insideCoords box q ->
  (searchDist (needsPbc box p h) box p q < s_ofZ 4 * h * h)%Q <-> imageWithin box (s_ofZ 4 * h * h)%S p q.
Proof.
  intros Hb Hh Hq. unfold searchDist, needsPbc. destruct (anyPbc box) eqn:Ea; cbn [andb].
  - destruct (insideBox p (twoH h) box) eqn:Ei; cbn [negb]; [by rewrite (inside_plain box p q h)|]. apply imageWithin_iff, Hb.
  - by rewrite open_plain.
Qed.

(** ** Cells *)

(** The point [p] is in the box with center and size [g]. *)
Definition inGeometry (g : Vec3 Q * Vec3 Q) (p : Vec3 Q) : Prop :=
  (Qabs (vx p - vx g.1) <= vx g.2)%Q /\ (Qabs (vy p - vy g.1) <= vy g.2)%Q /\ (Qabs (vz p - vz g.1) <= vz g.2)%Q.

Lemma abs_nested (x c s c' s' : Q) : (Qabs (c - c') + s <= s' -> Qabs (x - c) <= s -> Qabs (x - c') <= s')%Q.
Proof. intros Hin Hx. assert (x - c' == (x - c) + (c - c'))%Q as -> by ring. pose proof (Qabs_triangle (x - c) (c - c')). lra. Qed.

Lemma inGeometry_mono s k box p q x : goodBox box -> treeNode k p -> treeNode k q -> below p q ->
  inGeometry (nodeGeometry s k box q) x -> inGeometry (nodeGeometry s k box p) x.
Proof.
  intros ([Hlx _] & [Hly _] & [Hlz _]) Hp Hq Hb. destruct (keyBox_incl s k p q Hp Hq Hb) as (Hx1 & Hx2 & Hy1 & Hy2 & Hz1 & Hz2). unfold nodeGeometry. fold (keyBox s k p). fold (keyBox s k q).
  unfold inGeometry, centerAndSize. cbn [fst snd vx vy vz]. intros (H1 & H2 & H3).
  split; [|split]; (eapply abs_nested; [|eassumption]); apply nested_interval; (done || by apply halfUnit_nonneg).
Qed.

(** The root is the whole box. *)
Lemma inGeometry_root s k box x : exactBox box -> inGeometry (nodeGeometry s k box 1) x -> insideCoords box x.
Proof.
  intros [_ (Ex & Ey & Ez)]. assert (E : sfcIBox s k (nodeStart k 1) (nodeLevel 1) = let n := 2 ^ maxTreeLevel k in mkIBox 0 n 0 n 0 n) by (destruct s, k; vm_compute; reflexivity).
  unfold inGeometry, nodeGeometry, centerAndSize. rewrite E. cbn [fst snd vx vy vz xmin xmax ymin ymax zmin zmax s_ratio s_div s_mul s_add s_ofZ Exact.scalar]. rewrite Z.add_0_r, Z.sub_0_r.
  assert (Hu : u32 (Z.shiftl 1 (maxTreeLevel k)) = 2 ^ maxTreeLevel k) by by destruct k. rewrite Hu. assert (HM : (0 < inject_Z (2 ^ maxTreeLevel k))%Q) by by destruct k.
  set (M := inject_Z (2 ^ maxTreeLevel k)) in *. change (inject_Z 1) with 1%Q. change (inject_Z 2) with 2%Q.
  assert (Hm : forall l : Q, (M * (1 / 2 * (1 / M) * l) == l / 2)%Q) by (intros l; field; lra). rewrite !Hm, !Qabs_Qle_condition. intros (H1 & H2 & H3). unfold insideCoords.
  assert (Hhalf : forall l, (l / 2 == l * (1 # 2))%Q) by (intros l; field). rewrite Hhalf in H1. rewrite Hhalf in H2. rewrite Hhalf in H3. repeat split; lra.
Qed.

Lemma positivePart_le (d e : Q) : (d <= Qabs e)%Q -> (let p := (d + Qabs d) * (inject_Z 1 / inject_Z 2) in p * p <= e * e)%Q.
Proof.
  intros H. cbn zeta. apply square_abs_le. assert (E : forall x, (x * (inject_Z 1 / inject_Z 2) == x * (1 # 2))%Q) by (intros x; reflexivity). rewrite E.
  pose proof (Qabs_nonneg e). destruct (Qlt_le_dec d 0) as [Hd|Hd].
  - rewrite (Qabs_neg d) by lra. assert ((d + - d) * (1 # 2) == 0)%Q as -> by ring. done.
  - rewrite (Qabs_pos d Hd). assert ((d + d) * (1 # 2) == d)%Q as -> by ring. by rewrite (Qabs_pos d Hd).
Qed.

(** A node with a particle in the search radius is not further away than this. *)
Lemma minDistance_plain p g q r2 : inGeometry g q -> (distPlain p q < r2)%Q -> (norm2 (minDistancePoint p g.1 g.2) < r2)%Q.
Proof.
  intros (Hx & Hy & Hz) H. eapply Qle_lt_trans; [|exact H]. unfold distPlain, distanceSq, minDistancePoint, positivePart, norm2. cbn [s_sub s_mul s_add s_abs s_ratio Exact.scalar vscale vadd vabs vsub vmap vmap2 vx vy vz].
  rewrite Qplus_assoc. assert (Htri : forall a b c d : Q, (Qabs (c - b) <= d)%Q -> (Qabs (b - a) - d <= Qabs (c - a))%Q).
  { intros a b c d Hd. assert (b - a == (c - a) + - (c - b))%Q as -> by ring. pose proof (Qabs_triangle (c - a) (- (c - b))) as Ht. rewrite Qabs_opp in Ht. lra. }
  apply Qplus_le_compat; [apply Qplus_le_compat|]; apply positivePart_le; by apply Htri.
Qed.

Lemma minDistance_pbc box p g q r2 : goodBox box -> inGeometry g q -> imageWithin box r2 p q -> (norm2 (minDistancePointPbc p g.1 g.2 box) < r2)%Q.
Proof.
  intros ([Hlx Ex] & [Hly Ey] & [Hlz Ez]) (Hx & Hy & Hz) (nx & ny & nz & Nx & Ny & Nz & H). eapply Qle_lt_trans; [|exact H]. cbn zeta.
  unfold minDistancePointPbc, applyPbc, positivePart, norm2. cbn [s_sub s_mul s_add s_abs s_ratio Exact.scalar vscale vadd vabs vsub vmap vmap2 vx vy vz]. rewrite Ex, Ey, Ez, Qplus_assoc.
  assert (Htri : forall pbc l a b c d n, (0 < l)%Q -> pbc = true \/ n = 0 -> (Qabs (c - b) <= d)%Q -> (Qabs (wrapDistance pbc l (s_ofZ 1 / l)%S (b - a)) - d <= Qabs (c - a - l * inject_Z n))%Q).
  { intros pbc l a b c d n Hl Hn Hd. pose proof (wrapDistance_min pbc l (b - a) n Hl Hn) as Hm.
    assert (b - a - l * inject_Z n == (c - a - l * inject_Z n) + - (c - b))%Q as E by ring. rewrite E in Hm. pose proof (Qabs_triangle (c - a - l * inject_Z n) (- (c - b))) as Ht. rewrite (Qabs_opp (c - b)) in Ht. lra. }
  apply Qplus_le_compat; [apply Qplus_le_compat|]; apply positivePart_le; by apply Htri.
Qed.

(** ** The search *)

(** A tree view over the particles [ps]: the arrays of a linked octree, exact node geometry, a
    layout that assigns every particle to a leaf in which it lies. *)
Record searchWorld (s : SfcKind) (k : KeyType) (t : otree) (o : OctreeArrays) (box : Box Q) (tree : OctreeNsView Q) (ps : list (Vec3 Q)) : Prop := {
  sw_depth : depthLe (maxTreeLevel k) t;
  sw_linked : linked k t o;
  sw_box : exactBox box;
  sw_child : ns_childOffsets tree = childOffsets o;
  sw_parent : ns_parents tree = parents o;
  sw_leaf : ns_internalToLeaf tree = internalToLeaf o;
  sw_geometry : geometryArrays s k t o box (ns_centers tree) (ns_sizes tree);
  sw_ext : (1 <= ns_searchExtFactor tree)%Q;
  sw_sorted : zsorted (ns_layout tree);
  sw_layout : zlen (ns_layout tree) = zlen (leafKeys 1 t) + 1;
  sw_range : Forall (fun a => 0 <= a <= zlen ps) (ns_layout tree);
  sw_size : zlen ps < 2 ^ 32;
  sw_inside : forall j q a p, (leafKeys 1 t).[j] = Some q -> nthz (ns_layout tree) j <= a < nthz (ns_layout tree) (j + 1) -> ps.[a] = Some p ->
    inGeometry (nodeGeometry s k box q) p
}.

Lemma range_index layout n a : zsorted layout -> 0 <= n < zlen layout -> nthz layout 0 <= a < nthz layout n ->
  exists j, 0 <= j < n /\ nthz layout j <= a < nthz layout (j + 1).
Proof.
  intros Hs [Hn0 Hn]. revert Hn a. apply (natlike_ind (fun n => n < zlen layout -> forall a, nthz layout 0 <= a < nthz layout n -> exists j, 0 <= j < n /\ nthz layout j <= a < nthz layout (j + 1))); [lia| |done].
  intros m Hm IH Hlt a Ha. replace (Z.succ m) with (m + 1) in * by lia. destruct (Z.lt_ge_cases a (nthz layout m)) as [Hc|Hc].
  - destruct (IH ltac:(lia) a ltac:(lia)) as (j & Hj & Hr). exists j. split; [lia|done].
  - exists m. split; [lia|lia].
Qed.

Section Search.
Context {s : SfcKind} {k : KeyType} {t : otree} {o : OctreeArrays} {box : Box Q} {tree : OctreeNsView Q} {ps : list (Vec3 Q)}.
Hypothesis Hw : searchWorld s k t o box tree ps.

Local Abbreviation layout := (ns_layout tree).
Local Abbreviation nL := (zlen (leafKeys 1 t)).
Local Abbreviation xs := (vx <$> ps).
Local Abbreviation ys := (vy <$> ps).
Local Abbreviation zs := (vz <$> ps).

(** The particles that the tree knows. *)
Definition searched : list Z := seqZ (nthz layout 0) (nthz layout nL - nthz layout 0).

(** Particle [j] is another one than [i], and its closest image is in the search radius. *)
Definition isNeighbor (i : Z) (p : Vec3 Q) (h : Q) (j : Z) : bool :=
  negb (j =? i) && match ps.[j] with Some q => Exact.ltb (distPbc box p q) (s_ofZ 4 * h * h)%S | None => false end.

Definition neighborsOf (i : Z) (p : Vec3 Q) (h : Q) : list Z := filter (fun j => isNeighbor i p h j = true) searched.

Lemma layout_bounds j : 0 <= j <= nL -> 0 <= nthz layout j <= zlen ps.
Proof using Hw.
  intros Hj. pose proof (sw_layout _ _ _ _ _ _ _ Hw). pose proof (sw_range _ _ _ _ _ _ _ Hw) as Hr. rewrite Forall_forall in Hr. apply Hr.
  eapply aget_elem, nthz_get. lia.
Qed.

Lemma searchLayout_mono i j : 0 <= i <= j -> j <= nL -> nthz layout i <= nthz layout j.
Proof using Hw.
  intros Hi Hj. pose proof (sw_layout _ _ _ _ _ _ _ Hw). apply (sw_sorted _ _ _ _ _ _ _ Hw i j); [lia|apply nthz_get; lia|apply nthz_get; lia].
Qed.

(** A searched particle has a position, which is in its leaf and in the box. *)
Lemma searched_leaf j q a : (leafKeys 1 t).[j] = Some q -> nthz layout j <= a < nthz layout (j + 1) ->
  exists p, ps.[a] = Some p /\ inGeometry (nodeGeometry s k box q) p /\ insideCoords box p.
Proof using Hw.
  intros Hq Ha. pose proof (aget_Some_range _ _ _ Hq) as Hj. pose proof (layout_bounds j ltac:(lia)). pose proof (layout_bounds (j + 1) ltac:(lia)).
  destruct (aget_is_Some ps a ltac:(lia)) as [p Hp]. exists p. pose proof (sw_inside _ _ _ _ _ _ _ Hw j q a p Hq Ha Hp) as Hg. split; [done|]. split; [done|].
  apply (inGeometry_root s k box); [apply Hw|]. pose proof (sw_depth _ _ _ _ _ _ _ Hw) as Hd. assert (Hq' : q ∈ allKeys 1 t) by (apply elem_of_app; right; by eapply aget_elem).
  apply (inGeometry_mono s k box 1 q); [apply (sw_box _ _ _ _ _ _ _ Hw)|apply (key_treeNode k t Hd), allKeys_root|by apply (key_treeNode k t Hd)|by apply (allKeys_below 1 t)|done].
Qed.

Lemma searched_particle a : a ∈ searched -> exists p, ps.[a] = Some p /\ insideCoords box p.
Proof using Hw.
  intros Ha%elem_of_seqZ. pose proof (sw_layout _ _ _ _ _ _ _ Hw). pose proof (zlen_nonneg (leafKeys 1 t)).
  destruct (range_index layout nL a (sw_sorted _ _ _ _ _ _ _ Hw) ltac:(lia) ltac:(lia)) as (j & Hj & Hr). destruct (aget_is_Some (leafKeys 1 t) j Hj) as [q Hq].
  destruct (searched_leaf j q a Hq Hr) as (p & Hp & _ & Hin). by exists p.
Qed.

(** Neighbors are the particles with an image in the search radius. *)
Lemma neighborsOf_elem i p h j : j ∈ neighborsOf i p h <-> j ∈ searched /\ j <> i /\ exists q, ps.[j] = Some q /\ imageWithin box (s_ofZ 4 * h * h)%S p q.
Proof using Hw.
  unfold neighborsOf. rewrite list_elem_of_filter. unfold isNeighbor. rewrite andb_true_iff, negb_true_iff, Z.eqb_neq. pose proof (proj1 (sw_box _ _ _ _ _ _ _ Hw)) as Hb. split.
  - intros [[Hne Hd] Hj]. split; [done|]. split; [done|]. destruct (ps.[j]) as [q|]; [|done]. exists q. split; [done|]. apply imageWithin_iff; [done|]. by apply ltb_lt.
  - intros (Hj & Hne & q & Hq & Hd). split; [|done]. split; [done|]. rewrite Hq. apply ltb_lt. by apply imageWithin_iff.
Qed.

Section Particle.
Context (i : Z) (p : Vec3 Q) (h : Q) (ngmax base stride : Z).
Hypothesis Hh : (0 <= h)%Q.

Local Abbreviation usePbc := (needsPbc box p h).
Local Abbreviation r2 := (s_ofZ 4 * h * h)%S.
Local Abbreviation particleStep := (searchParticle usePbc i p r2 xs ys zs box ngmax base stride).

(** The distance test of the loop is the one of [isNeighbor]. *)
Lemma searchParticle_collect j q st : ps.[j] = Some q -> insideCoords box q -> particleStep j st = collect (isNeighbor i p h) ngmax base stride j st.
Proof using Hw Hh.
  intros Hq Hin. destruct st as [n nbs]. unfold searchParticle, collect, isNeighbor. rewrite Hq. destruct (Z.eqb_spec j i) as [_|_]; [done|]. cbn [negb andb].
  rewrite !aget_map, Hq. cbn [fmap option_fmap option_map]. cbn beta iota. cbn [s_ltb Exact.scalar].
  assert (E : Exact.ltb (if usePbc then distanceSqPbc (vx q) (vy q) (vz q) (vx p) (vy p) (vz p) box else distanceSq (vx q) (vy q) (vz q) (vx p) (vy p) (vz p)) r2 = Exact.ltb (distPbc box p q) r2); [|by rewrite E].
  apply eq_iff_eq_true. rewrite !ltb_lt. rewrite (imageWithin_iff box r2 p q (proj1 (sw_box _ _ _ _ _ _ _ Hw))). by apply searchDist_within; [apply Hw| |].
Qed.

(** A node that the criterion rejects has no neighbors below it. *)
Definition nodeNear (cellRadiusSq : Q) (q : Z) : bool :=
  let g := nodeGeometry s k box q in
  Exact.ltb (norm2 (if usePbc then minDistancePointPbc p g.1 g.2 box else minDistancePoint p g.1 g.2)) cellRadiusSq.

Lemma rejected_empty (cell2 : Q) j q r a : (r2 <= cell2)%Q -> (leafKeys 1 t).[j] = Some q -> r ∈ allKeys 1 t -> below r q -> nodeNear cell2 r = false ->
  nthz layout j <= a < nthz layout (j + 1) -> isNeighbor i p h a = false.
Proof using Hw Hh.
  intros Hcell Hq Hr Hb Hn Ha. destruct (searched_leaf j q a Hq Ha) as (pa & Hpa & Hg & Hin). unfold isNeighbor. rewrite Hpa. apply andb_false_iff. right.
  apply not_true_iff_false. rewrite ltb_lt. intros Hd. unfold nodeNear in Hn. apply ltb_ge in Hn. pose proof (sw_box _ _ _ _ _ _ _ Hw) as Hbox. pose proof (sw_depth _ _ _ _ _ _ _ Hw) as Hdep.
  assert (Hq' : q ∈ allKeys 1 t) by (apply elem_of_app; right; by eapply aget_elem).
  apply (inGeometry_mono s k box r q pa (proj1 Hbox)) in Hg; [|by apply (key_treeNode k t Hdep)|by apply (key_treeNode k t Hdep)|done].
  rewrite (imageWithin_iff box r2 p pa (proj1 Hbox)) in Hd. pose proof (proj2 (searchDist_within box p pa h Hbox Hh Hin) Hd) as Hs. unfold searchDist in Hs. destruct usePbc.
  - pose proof (minDistance_pbc box p _ pa r2 (proj1 Hbox) Hg Hd) as Hm. by apply (Qlt_not_le _ _ (Qlt_le_trans _ _ _ Hm Hcell)).
  - pose proof (minDistance_plain p _ pa r2 Hg Hs) as Hm. by apply (Qlt_not_le _ _ (Qlt_le_trans _ _ _ Hm Hcell)).
Qed.

Local Abbreviation leafStep := (searchLeaf usePbc i p r2 tree xs ys zs box ngmax base stride).

Lemma searchLeaf_range j q st : (leafKeys 1 t).[j] = Some q -> leafStep (pos o q) st = for_loop (nthz layout j) (nthz layout (j + 1)) particleStep st.
Proof using Hw.
  intros Hq. pose proof (aget_Some_range _ _ _ Hq). pose proof (sw_layout _ _ _ _ _ _ _ Hw). destruct (lk_leafIndex _ _ _ (sw_linked _ _ _ _ _ _ _ Hw) j q Hq) as (n & _ & Hn & Hj).
  unfold searchLeaf. rewrite <- (pos_node k t o (sw_linked _ _ _ _ _ _ _ Hw) n q Hn), (sw_leaf _ _ _ _ _ _ _ Hw), Hj. cbn beta iota. by rewrite !nthz_get by lia.
Qed.

Lemma searchLeaf_skip (cell2 : Q) q r st : (r2 <= cell2)%Q -> q ∈ leafKeys 1 t -> r ∈ allKeys 1 t -> below r q -> nodeNear cell2 r = false ->
  leafStep (pos o q) st = Some st.
Proof using Hw Hh.
  intros Hcell Hq Hr Hb Hn. destruct (elem_aget _ _ Hq) as [j Hj]. rewrite (searchLeaf_range j q st Hj). unfold for_loop. apply foldM_skip. intros a st' Ha%elem_of_seqZ.
  assert (Ha' : nthz layout j <= a < nthz layout (j + 1)) by lia. destruct (searched_leaf j q a Hj Ha') as (pa & Hpa & _ & Hin). rewrite (searchParticle_collect a pa st' Hpa Hin).
  unfold collect. rewrite (rejected_empty cell2 j q r a Hcell Hj Hr Hb Hn Ha'). by destruct st'.
Qed.

(** All leaves one after the other are one loop over the searched particles. *)
Lemma leaves_collect st : foldM (fun q => leafStep (pos o q)) (leafKeys 1 t) st = foldM (collect (isNeighbor i p h) ngmax base stride) searched st.
Proof using Hw Hh.
  pose proof (sw_layout _ _ _ _ _ _ _ Hw) as Hlen. pose proof (zlen_nonneg (leafKeys 1 t)).
  transitivity (foldM (fun j => for_loop (nthz layout j) (nthz layout (j + 1)) particleStep) (seqZ 0 nL) st).
  - transitivity (foldM (fun j => leafStep (pos o (nthz (leafKeys 1 t) j))) (seqZ 0 nL) st).
    + rewrite <- (foldM_fmap (fun q => leafStep (pos o q)) (nthz (leafKeys 1 t))). by rewrite nthz_seqZ.
    + apply foldM_ext. intros j st' Hj%elem_of_seqZ. apply searchLeaf_range, nthz_get. lia.
  - rewrite (ranges_loop particleStep layout nL st (sw_sorted _ _ _ _ _ _ _ Hw)) by lia. unfold for_loop. apply foldM_ext. intros a st' Ha.
    destruct (searched_particle a Ha) as (pa & Hpa & Hin). by apply (searchParticle_collect a pa).
Qed.

(** The search returns the number of neighbors and stores the first [ngmax] of them in ascending order. *)
Lemma findNeighbors_run hs nbs : ps.[i] = Some p -> loadAtIndexIfPtr hs i = Some h ->
  1 <= stride -> 0 <= base -> base + (ngmax - 1) * stride < zlen nbs -> zlen nbs < 2 ^ 64 ->
  exists nbs', findNeighbors i xs ys zs hs tree box ngmax nbs base stride = Some (zlen (neighborsOf i p h), nbs') /\ listed ngmax base stride (neighborsOf i p h) nbs nbs'.
Proof using Hw Hh.
  intros Hp Hload Hstride Hbase Hroom Hsize. set (f := ns_searchExtFactor tree).
  assert (Hcell : (r2 <= r2 * f * f)%S%Q).
  { pose proof (sw_ext _ _ _ _ _ _ _ Hw) as Hf. fold f in Hf. cbn [s_mul s_ofZ Exact.scalar]. change (inject_Z 4) with 4%Q.
    assert (Hr : (0 <= 4 * h * h)%Q) by (apply Qmult_le_0_compat; lra). pose proof (mult_ge_one (4 * h * h) f Hr Hf) as H1.
    eapply Qle_trans; [exact H1|]. apply mult_ge_one; lra. }
  unfold findNeighbors. rewrite !aget_map, Hp. cbn [fmap option_fmap option_map]. rewrite Hload. cbn beta iota.
  replace (mkVec3 (vx p) (vy p) (vz p)) with p by by destruct p. fold (twoH h). fold f.
  change (anyPbc box && negb (insideBox p (twoH h) box)) with usePbc.
  rewrite (sw_child _ _ _ _ _ _ _ Hw), (sw_parent _ _ _ _ _ _ _ Hw), (singleTraversal_visit _ _ k t o (sw_depth _ _ _ _ _ _ _ Hw) (sw_linked _ _ _ _ _ _ _ Hw)).
  rewrite (visit_leaves _ _ _ (nodeNear (r2 * f * f)%S) t 1 _ ltac:(lia)).
  - rewrite leaves_collect. assert (Hlen : zlen (@nil Z) + zlen searched < 2 ^ 32).
    { unfold searched. change (zlen (@nil Z)) with 0. pose proof (zlen_nonneg (leafKeys 1 t)). pose proof (layout_bounds 0 ltac:(lia)). pose proof (layout_bounds nL ltac:(lia)).
      pose proof (searchLayout_mono 0 nL ltac:(lia) ltac:(lia)). pose proof (sw_size _ _ _ _ _ _ _ Hw). rewrite zlen_seqZ; lia. }
    destruct (collect_run (isNeighbor i p h) ngmax base stride Hstride Hbase nbs Hroom Hsize searched [] nbs (listed_nil _ _ _ nbs) Hlen) as (nbs' & E & Hl).
    exists nbs'. split; [exact E|exact Hl].
  - intros q st Hq. unfold overlaps, nodeNear. destruct (sw_geometry _ _ _ _ _ _ _ Hw q Hq) as [-> ->]. cbn beta iota. by destruct usePbc.
  - intros q r st Hq Hr Hb Hn. by apply (searchLeaf_skip (r2 * f * f)%S q r).
Qed.

End Particle.

(** ** Lists of many particles *)

Section Lists.
Context (ngmax : Z) (N : Z -> list Z).
Hypothesis Hng : 0 <= ngmax.

(** The array [nbs'] holds the lists of the particles in [order], [ngmax] entries for each of them. *)
Definition allListed (order nbs nbs' : list Z) : Prop :=
  zlen nbs' = zlen nbs /\
  (forall i n v, i ∈ order -> n < ngmax -> (N i).[n] = Some v -> nbs'.[i * ngmax + n] = Some v) /\
  (forall a, (forall i, i ∈ order -> ~ i * ngmax <= a < (i + 1) * ngmax) -> nbs'.[a] = nbs.[a]).

Lemma allListed_cons i order nbs nbs1 nbs2 : i ∉ order -> 0 <= i -> Forall (fun j => 0 <= j) order ->
  listed ngmax (i * ngmax) 1 (N i) nbs nbs1 -> allListed order nbs1 nbs2 -> allListed (i :: order) nbs nbs2.
Proof using Hng.
  intros Hni Hi Hpos (Z1 & In1 & Out1) (Z2 & In2 & Out2). rewrite Forall_forall in Hpos. split; [lia|]. split.
  - intros j n v [->|Hj]%elem_of_cons Hs Hv; [|by apply In2]. pose proof (aget_Some_range _ _ _ Hv). rewrite Out2.
    + rewrite <- (Z.mul_1_r n) at 1. by apply In1.
    + intros j Hj Hr. assert (j = i); [|by subst]. pose proof (Hpos j Hj). nia.
  - intros a Ha. rewrite Out2 by (intros j Hj; apply Ha; by right). apply Out1. intros n Hs Hlt ->. apply (Ha i); [by left|]. nia.
Qed.

(** A loop that writes a list and updates another state [x] in every iteration. *)
Lemma allListed_run {X} (body : Z -> list Z * X -> option (list Z * X)) (G : Z -> Z -> X -> option X) size order : forall nbs x,
  NoDup order -> Forall (fun i => 0 <= i) order -> zlen nbs = size ->
  (forall i nbs x, i ∈ order -> zlen nbs = size -> exists nbs', body i (nbs, x) = (let? x := G i (zlen (N i)) x in Some (nbs', x)) /\ listed ngmax (i * ngmax) 1 (N i) nbs nbs') ->
  exists nbs', foldM body order (nbs, x) = (let? x := foldM (fun i => G i (zlen (N i))) order x in Some (nbs', x)) /\ allListed order nbs nbs'.
Proof using Hng.
  induction order as [|i order IH]; intros nbs x Hnd Hpos Hsz Hb; cbn [foldM].
  - exists nbs. split; [done|]. split; [done|]. split; [|done]. intros i n v Hi%not_elem_of_nil. done.
  - apply NoDup_cons in Hnd as [Hni Hnd]. apply Forall_cons in Hpos as [Hi Hpos]. destruct (Hb i nbs x ltac:(by left) Hsz) as (nbs1 & -> & H1).
    assert (Hsz1 : zlen nbs1 = size) by (destruct H1; lia).
    assert (Hb' : forall i nbs x, i ∈ order -> zlen nbs = size -> exists nbs', body i (nbs, x) = (let? x := G i (zlen (N i)) x in Some (nbs', x)) /\ listed ngmax (i * ngmax) 1 (N i) nbs nbs')
      by (intros; apply Hb; [by right|done]).
    destruct (G i (zlen (N i)) x) as [x1|]; cbn beta iota.
    + destruct (IH nbs1 x1 Hnd Hpos Hsz1 Hb') as (nbs2 & -> & H2). exists nbs2. split; [done|]. by eapply allListed_cons.
    + destruct (IH nbs1 x Hnd Hpos Hsz1 Hb') as (nbs2 & _ & H2). exists nbs2. split; [done|]. by eapply allListed_cons.
Qed.

End Lists.

(** The lists of neighbors of the particles from [firstId] on. *)
Definition listAt (hs : Smoothing Q) (firstId i : Z) : list Z :=
  match ps.[firstId + i], loadAtIndexIfPtr hs (firstId + i) with Some p, Some h => neighborsOf (firstId + i) p h | _, _ => [] end.

Lemma findNeighbors_list hs firstId numWork ngmax nbs i : (forall j, 0 <= j < zlen ps -> exists h, loadAtIndexIfPtr hs j = Some h /\ (0 <= h)%Q) ->
  0 <= ngmax -> 0 <= firstId -> firstId + numWork <= zlen ps -> numWork * ngmax <= 2 ^ 32 -> numWork * ngmax <= zlen nbs -> zlen nbs < 2 ^ 64 -> 0 <= i < numWork ->
  exists nbs', findNeighbors (u32 (i + firstId)) xs ys zs hs tree box ngmax nbs (u32 (i * ngmax)) 1 = Some (zlen (listAt hs firstId i), nbs') /\
    listed ngmax (i * ngmax) 1 (listAt hs firstId i) nbs nbs'.
Proof using Hw.
  intros Hhs Hng Hf Hn Hover Hroom Hsize Hi. pose proof (sw_size _ _ _ _ _ _ _ Hw) as Hps. destruct (aget_is_Some ps (firstId + i) ltac:(lia)) as [p Hp].
  destruct (Hhs (firstId + i) ltac:(lia)) as (h & Eh & Hh). unfold listAt. rewrite Hp, Eh. rewrite (u32_small (i + firstId)) by lia. rewrite (Z.add_comm i firstId).
  destruct (decide (ngmax = 0)) as [->|Hne].
  - rewrite Z.mul_0_r. change (u32 0) with 0. pose proof (zlen_nonneg nbs). apply (findNeighbors_run (firstId + i) p h 0 0 1 Hh hs nbs Hp Eh); lia.
  - rewrite u32_small by nia. apply (findNeighbors_run (firstId + i) p h ngmax (i * ngmax) 1 Hh hs nbs Hp Eh); nia.
Qed.

End Search.
