(* ===== verification/IjLoop.v ===== *)
(** * Particle-particle interactions

    [cstone/traversal/ijloop/]: the public interface [ijloop.hpp], the shared functions of
    [common.hpp] and the two neighborhoods for the CPU, [cpu_alwaystraverse.hpp] and
    [cpu_fullnblist.hpp].  The fields of the particles are arrays of coordinate type; a tuple of
    arrays is a list of arrays. *)

From S2P Require Import Prelude Primitives SfcCommon Octree Scalars FloatBox Traversal Neighbors.

(** ** Results of interactions *)

(** A parallel loop: pairs of a thread and an index in the order of execution. *)
Abbreviation schedule := (list (Z * Z)).

Section IjLoop.
Context {T : Type} `{!Scalar T}.
#[local] Open Scope scalar_scope.

(** A component of the result: summed up, or wrapped in [reduction::min], [reduction::max],
    [symmetric::even] or [symmetric::odd]. *)
Inductive Modified :=
| plain (value : T)
| reduction_min (value : T)
| reduction_max (value : T)
| symmetric_even (value : Modified)
| symmetric_odd (value : Modified).

(** The overloads exist for equal types only. *)
Fixpoint updateResultImpl (result value : Modified) : option Modified :=
  match result, value with
  | plain r, plain v => Some (plain (r + v))
  | reduction_min r, reduction_min v => Some (reduction_min (s_min r v))
  | reduction_max r, reduction_max v => Some (reduction_max (s_max r v))
  | symmetric_even r, symmetric_even v => let? x := updateResultImpl r v in Some (symmetric_even x)
  | symmetric_odd r, symmetric_odd v => let? x := updateResultImpl r v in Some (symmetric_odd x)
  | _, _ => None
  end.

Fixpoint updateResult (result value : list Modified) : option (list Modified) :=
  match result, value with
  | [], [] => Some []
  | r :: result, v :: value =>
      let? x := updateResultImpl r v in
      let? xs := updateResult result value in
      Some (x :: xs)
  | _, _ => None
  end.

Fixpoint unwrapModifiersImpl (result : Modified) : T :=
  match result with
  | plain v | reduction_min v | reduction_max v => v
  | symmetric_even r | symmetric_odd r => unwrapModifiersImpl r
  end.

Definition unwrapModifiers (value : list Modified) : list T := unwrapModifiersImpl <$> value.

(** ** Particle data *)

Record ParticleData := mkParticleData { pd_index : Z; pd_pos : Vec3 T; pd_h : T; pd_fields : list T }.

(** The fields of particle [index] in a tuple of arrays. *)
Fixpoint loadFields (input : list (list T)) (index : Z) : option (list T) :=
  match input with
  | [] => Some []
  | a :: input =>
      let? v := a.[index] in
      let? vs := loadFields input index in
      Some (v :: vs)
  end.

Definition loadParticleData (x y z : list T) (h : Smoothing T) (input : list (list T)) (index : Z) : option ParticleData :=
  let? xi := x.[index] in
  let? yi := y.[index] in
  let? zi := z.[index] in
  let? hi := loadAtIndexIfPtr h index in
  let? fields := loadFields input index in
  Some (mkParticleData index (mkVec3 xi yi zi) hi fields).

Fixpoint storeParticleData (output : list (list T)) (index : Z) (value : list T) : option (list (list T)) :=
  match output, value with
  | [], [] => Some []
  | a :: output, v :: value =>
      let? a := aset a index v in
      let? output := storeParticleData output index value in
      Some (a :: output)
  | _, _ => None
  end.

Definition requiresPbcHandling (box : Box T) (iData : ParticleData) : bool :=
  if negb (isPeriodic (boundaryX box)) && negb (isPeriodic (boundaryY box)) && negb (isPeriodic (boundaryZ box)) then false
  else
    let twoHi := s_ofZ 2 * pd_h iData in
    negb (insideBox (pd_pos iData) (mkVec3 twoHi twoHi twoHi) box).

Definition posDiffAndDistSq (usePbc : bool) (box : Box T) (iData jData : ParticleData) : Vec3 T * T :=
  let d := vsub (pd_pos iData) (pd_pos jData) in
  let d := if usePbc then
             mkVec3 (vx d - s_bool (isPeriodic (boundaryX box)) * lx box * s_rint (vx d * ilx box))
                    (vy d - s_bool (isPeriodic (boundaryY box)) * ly box * s_rint (vy d * ily box))
                    (vz d - s_bool (isPeriodic (boundaryZ box)) * lz box * s_rint (vz d * ilz box))
           else d in
  (d, norm2 d).

Definition radiusSq (data : ParticleData) : T := s_ofZ 4 * pd_h data * pd_h data.

(** ** Neighborhoods *)

(** The callables of [ijLoop]. *)
Record Kernel := mkKernel {
  interaction : ParticleData -> ParticleData -> Vec3 T -> T -> list Modified;
  postamble : ParticleData -> list T -> list T
}.

Record GroupView := mkGroupView { firstBody : Z; lastBody : Z; groupStart : list Z; groupEnd : list Z }.

(** The result of the interaction of a particle with itself. *)
Definition selfInteraction (K : Kernel) (iData : ParticleData) : list Modified :=
  interaction K iData iData (mkVec3 (s_ofZ 0) (s_ofZ 0) (s_ofZ 0)) (s_ofZ 0).

(** An array of [n] elements that is not initialized; [junk] is what the memory holds. *)
Definition make_unique_for_overwrite (junk : Z -> Z) (n : Z) : list Z := junk <$> seqZ 0 n.

(** [CpuAlwaysTraverseNeighborhood] *)
Record CpuAlwaysTraverseNeighborhood := mkAlwaysTraverse {
  at_tree : OctreeNsView T; at_box : Box T; at_firstBody : Z; at_lastBody : Z; at_x : list T; at_y : list T; at_z : list T; at_h : Smoothing T; at_ngmax : Z
}.

(** The loop over the neighbors of [jLoop] with the buffer of the executing thread. *)
Definition alwaysTraverse_jLoop (nb : CpuAlwaysTraverseNeighborhood) (input : list (list T)) (K : Kernel) (i : Z) (st : list (list T) * list Z) :
    option (list (list T) * list Z) :=
  let '(output, neighbors) := st in
  let load := loadParticleData (at_x nb) (at_y nb) (at_z nb) (at_h nb) input in
  let? iData := load i in
  let usePbc := requiresPbcHandling (at_box nb) iData in
  let? (found, neighbors) := findNeighbors i (at_x nb) (at_y nb) (at_z nb) (at_h nb) (at_tree nb) (at_box nb) (at_ngmax nb) neighbors 0 1 in
  let nbs := Z.min found (at_ngmax nb) in
  let? result := for_loop 0 nbs (fun n result =>
    let? j := neighbors.[n] in
    let? jData := load j in
    let '(ijPosDiff, distSq) := posDiffAndDistSq usePbc (at_box nb) iData jData in
    updateResult result (interaction K iData jData ijPosDiff distSq)) (selfInteraction K iData) in
  let? output := storeParticleData output i (postamble K iData (unwrapModifiers result)) in
  Some (output, neighbors).

(** Every thread has a buffer of its own; the state is the output and all buffers. *)
Definition withBuffer (body : Z -> list (list T) * list Z -> option (list (list T) * list Z)) (e : Z * Z) (st : list (list T) * list (list Z)) :
    option (list (list T) * list (list Z)) :=
  let '(thread, i) := e in
  let '(output, buffers) := st in
  let? buffer := buffers.[thread] in
  let? (output, buffer) := body i (output, buffer) in
  let? buffers := aset buffers thread buffer in
  Some (output, buffers).

Definition alwaysTraverse_ijLoop (threads : Z) (junk : Z -> Z) (order : schedule) (nb : CpuAlwaysTraverseNeighborhood) (input output : list (list T)) (K : Kernel) :
    option (list (list T)) :=
  let buffers := replicate (Z.to_nat threads) (make_unique_for_overwrite junk (at_ngmax nb)) in
  let? (output, _) := foldM (withBuffer (alwaysTraverse_jLoop nb input K)) order (output, buffers) in
  Some output.

(** [Subgroup::ijLoop]: the schedule holds groups. *)
Definition alwaysTraverse_subgroup_ijLoop (threads : Z) (junk : Z -> Z) (order : schedule) (nb : CpuAlwaysTraverseNeighborhood) (groups : GroupView)
    (input output : list (list T)) (K : Kernel) : option (list (list T)) :=
  let buffers := replicate (Z.to_nat threads) (make_unique_for_overwrite junk (at_ngmax nb)) in
  let? (output, _) := foldM (withBuffer (fun g st =>
    let? gs := (groupStart groups).[g] in
    let? ge := (groupEnd groups).[g] in
    for_loop gs ge (alwaysTraverse_jLoop nb input K) st)) order (output, buffers) in
  Some output.

Definition alwaysTraverse_build (ngmax : Z) (tree : OctreeNsView T) (box : Box T) (groups : GroupView) (x y z : list T) (h : Smoothing T) :
    CpuAlwaysTraverseNeighborhood :=
  mkAlwaysTraverse tree box (firstBody groups) (lastBody groups) x y z h ngmax.

(** The numbers of bodies and of bytes. *)
Definition alwaysTraverse_stats (nb : CpuAlwaysTraverseNeighborhood) : Z * Z := (u32 (at_lastBody nb - at_firstBody nb), 0%Z).

(** [CpuFullNbListNeighborhood] *)
Record CpuFullNbListNeighborhood := mkFullNbList {
  fl_tree : OctreeNsView T; fl_box : Box T; fl_firstBody : Z; fl_lastBody : Z; fl_neighborsCount : list Z; fl_neighbors : list Z;
  fl_x : list T; fl_y : list T; fl_z : list T; fl_h : Smoothing T; fl_ngmax : Z
}.

Definition fullNbList_jLoop (nb : CpuFullNbListNeighborhood) (input : list (list T)) (K : Kernel) (i : Z) (output : list (list T)) : option (list (list T)) :=
  let load := loadParticleData (fl_x nb) (fl_y nb) (fl_z nb) (fl_h nb) input in
  let? iData := load i in
  let usePbc := requiresPbcHandling (fl_box nb) iData in
  let? nbs := (fl_neighborsCount nb).[u32 (i - fl_firstBody nb)] in
  let? result := for_loop 0 nbs (fun n result =>
    let? j := (fl_neighbors nb).[u32 (u32 (u32 (i - fl_firstBody nb) * fl_ngmax nb) + n)] in
    let? jData := load j in
    let '(ijPosDiff, distSq) := posDiffAndDistSq usePbc (fl_box nb) iData jData in
    if distSq <? radiusSq iData then updateResult result (interaction K iData jData ijPosDiff distSq) else Some result) (selfInteraction K iData) in
  storeParticleData output i (postamble K iData (unwrapModifiers result)).

Definition fullNbList_ijLoop (order : schedule) (nb : CpuFullNbListNeighborhood) (input output : list (list T)) (K : Kernel) : option (list (list T)) :=
  foldM (fun e => fullNbList_jLoop nb input K e.2) order output.

Definition fullNbList_subgroup_ijLoop (order : schedule) (nb : CpuFullNbListNeighborhood) (groups : GroupView) (input output : list (list T)) (K : Kernel) :
    option (list (list T)) :=
  foldM (fun e output =>
    let? gs := (groupStart groups).[e.2] in
    let? ge := (groupEnd groups).[e.2] in
    for_loop gs ge (fullNbList_jLoop nb input K) output) order output.

Definition fullNbList_stats (nb : CpuFullNbListNeighborhood) : Z * Z :=
  let numBodies := u32 (fl_lastBody nb - fl_firstBody nb) in
  (numBodies, u64 (4 * numBodies + 4 * numBodies * fl_ngmax nb)).

Definition isOne (factor : T) : bool := (factor <=? s_ofZ 1) && (s_ofZ 1 <=? factor).

(** The smoothing lengths [hExt] with which the lists are built. *)
Definition extendedH (factor : T) (totalBodies : Z) (h : Smoothing T) : option (Smoothing T) :=
  if isOne factor then Some h
  else
    match h with
    | perParticle h => let? h := for_loop 0 totalBodies (fun i ext => let? hi := h.[i] in Some (ext ++ [hi * factor])) [] in Some (perParticle h)
    | uniform h => Some (uniform (h * factor))
    end.

(** The tree view with which the lists are built. *)
Definition extendedTree (tree : OctreeNsView T) : OctreeNsView T :=
  if isOne (ns_searchExtFactor tree) then tree
  else mkOctreeNsView (ns_childOffsets tree) (ns_parents tree) (ns_internalToLeaf tree) (ns_layout tree) (ns_centers tree) (ns_sizes tree) (s_ofZ 1).

(** The parallel loop of [build] on the arrays and [maxNeighbors]. *)
Definition buildBody (ngmax first : Z) (tree : OctreeNsView T) (box : Box T) (x y z : list T) (hExt : Smoothing T) (i : Z) (st : list Z * (list Z * Z)) :
    option (list Z * (list Z * Z)) :=
  let '(neighbors, (neighborsCount, maxNeighbors)) := st in
  let? (found, neighbors) := findNeighbors (u32 (i + first)) x y z hExt tree box ngmax neighbors (u32 (i * ngmax)) 1 in
  let neighborCount := Z.min found ngmax in
  let? neighborsCount := aset neighborsCount i neighborCount in
  Some (neighbors, (neighborsCount, Z.max maxNeighbors neighborCount)).

(** The neighborhood and whether the warning about missing neighbors is printed. *)
Definition fullNbList_build (junk : Z -> Z) (order : list Z) (ngmax : Z) (tree : OctreeNsView T) (box : Box T) (totalBodies : Z) (groups : GroupView)
    (x y z : list T) (h : Smoothing T) : option (CpuFullNbListNeighborhood * bool) :=
  let numBodies := u32 (lastBody groups - firstBody groups) in
  let neighborsCount := make_unique_for_overwrite junk numBodies in
  let neighbors := make_unique_for_overwrite junk (u64 (numBodies * ngmax)) in
  let? hExt := extendedH (ns_searchExtFactor tree) totalBodies h in
  let? (neighbors, (neighborsCount, maxNeighbors)) :=
    foldM (buildBody ngmax (firstBody groups) (extendedTree tree) box x y z hExt) order (neighbors, (neighborsCount, 0%Z)) in
  Some (mkFullNbList tree box (firstBody groups) (lastBody groups) neighborsCount neighbors x y z h ngmax, (ngmax <? maxNeighbors)%Z).

(** ** The interface *)

(** How a program runs: the number of threads, the content of fresh memory and the order of the
    loop of [build]. *)
Record Execution := mkExecution { ex_threads : Z; ex_junk : Z -> Z; ex_build : list Z }.

End IjLoop.

Arguments Kernel T : clear implicits.
Arguments ParticleData T : clear implicits.
Arguments Modified T : clear implicits.
Arguments CpuAlwaysTraverseNeighborhood T : clear implicits.
Arguments CpuFullNbListNeighborhood T : clear implicits.

(** The concept [NeighborhoodBuilder] and the neighborhoods it builds. *)
Class NeighborhoodBuilder (T B NB : Type) := {
  build : Execution -> B -> OctreeNsView T -> Box T -> Z -> GroupView -> list T -> list T -> list T -> Smoothing T -> option NB;
  ijLoop : Execution -> schedule -> NB -> list (list T) -> list (list T) -> Kernel T -> option (list (list T));
  subgroup_ijLoop : Execution -> schedule -> NB -> GroupView -> list (list T) -> list (list T) -> Kernel T -> option (list (list T));
  stats : NB -> Z * Z
}.

Record CpuAlwaysTraverseNeighborhoodBuilder := mkAlwaysTraverseBuilder { atb_ngmax : Z }.
Record CpuFullNbListNeighborhoodBuilder := mkFullNbListBuilder { flb_ngmax : Z }.

#[export] Instance alwaysTraverse_builder {T} `{!Scalar T} : NeighborhoodBuilder T CpuAlwaysTraverseNeighborhoodBuilder (CpuAlwaysTraverseNeighborhood T) := {
  build _ b tree box _ groups x y z h := Some (alwaysTraverse_build (atb_ngmax b) tree box groups x y z h);
  ijLoop ex order nb input output K := alwaysTraverse_ijLoop (ex_threads ex) (ex_junk ex) order nb input output K;
  subgroup_ijLoop ex order nb groups input output K := alwaysTraverse_subgroup_ijLoop (ex_threads ex) (ex_junk ex) order nb groups input output K;
  stats := alwaysTraverse_stats
}.

#[export] Instance fullNbList_builder {T} `{!Scalar T} : NeighborhoodBuilder T CpuFullNbListNeighborhoodBuilder (CpuFullNbListNeighborhood T) := {
  build ex b tree box totalBodies groups x y z h :=
    let? (nb, _) := fullNbList_build (ex_junk ex) (ex_build ex) (flb_ngmax b) tree box totalBodies groups x y z h in Some nb;
  ijLoop _ order nb input output K := fullNbList_ijLoop order nb input output K;
  subgroup_ijLoop _ order nb groups input output K := fullNbList_subgroup_ijLoop order nb groups input output K;
  stats := fullNbList_stats
}.

(** ** The variant of the SPH code *)

Inductive NeighborhoodType := alwaysTraverse | fullNeighborList | compressedFullNeighborList | compressedHalfNeighborList | clusteredNeighborList.

#[export] Instance NeighborhoodType_eq_dec : EqDecision NeighborhoodType.
Proof. solve_decision. Defined.

Section NeighborhoodData.
Context {T : Type} `{!Scalar T}.

Inductive Neighborhood := traversing (nb : CpuAlwaysTraverseNeighborhood T) | listing (nb : CpuFullNbListNeighborhood T).

Record NeighborhoodData := mkNeighborhoodData { neighborhood : Neighborhood; neighborhoodType : NeighborhoodType }.

(** [None] is the exception. *)
Definition setType (type : NeighborhoodType) (d : NeighborhoodData) : option NeighborhoodData :=
  if bool_decide (type <> alwaysTraverse) && bool_decide (type <> fullNeighborList) then None
  else Some (mkNeighborhoodData (neighborhood d) type).

Definition NeighborhoodData_build (ex : Execution) (ngmax : Z) (tree : OctreeNsView T) (box : Box T) (size : Z) (groups : GroupView) (x y z : list T)
    (h : Smoothing T) (d : NeighborhoodData) : option NeighborhoodData :=
  match neighborhoodType d with
  | alwaysTraverse =>
      let? nb := build ex (mkAlwaysTraverseBuilder ngmax) tree box size groups x y z h in
      Some (mkNeighborhoodData (traversing nb) (neighborhoodType d))
  | fullNeighborList =>
      let? nb := build ex (mkFullNbListBuilder ngmax) tree box size groups x y z h in
      Some (mkNeighborhoodData (listing nb) (neighborhoodType d))
  | _ => None
  end.

Definition NeighborhoodData_ijLoop (ex : Execution) (order : schedule) (d : NeighborhoodData) (input output : list (list T)) (K : Kernel T) :
    option (list (list T)) :=
  match neighborhood d with
  | traversing nb => ijLoop ex order nb input output K
  | listing nb => ijLoop ex order nb input output K
  end.

End NeighborhoodData.
Arguments Neighborhood T : clear implicits.
Arguments NeighborhoodData T : clear implicits.
