(* ===== verification/Interactions.v ===== *)
(** * The neighborhoods compute the interactions with all neighbors

    Lemmas on [cstone/traversal/ijloop/]: with exact coordinates and enough space for the lists,
    both neighborhoods for the CPU implement the same reference, which looks at all particles. *)

From Stdlib Require Import QArith Qround Qabs Lqa.
From S2P Require Import Prelude Primitives SfcCommon Csarray CsInvariant CsRebalance CsCounts SfcBox Morton Hilbert Sfc BoxOverlap Octree OctreeNodes OctreeBuild OctreeQueries IndexRanges DomainDecomp Scalars FloatBox Traversal NodeLookup Macs Peers Marking ExactGeometry ExactCoords Neighbors NeighborSearch IjLoop.
#[local] Open Scope Z_scope.

(** ** Distances of the interaction *)

Lemma wrapDistance_square pbc l x y : (0 < l)%Q -> (y == - x)%Q ->
  (wrapDistance pbc l (s_ofZ 1 / l)%S x * wrapDistance pbc l (s_ofZ 1 / l)%S x == wrapDistance pbc l (s_ofZ 1 / l)%S y * wrapDistance pbc l (s_ofZ 1 / l)%S y)%Q.
Proof.
  intros Hl Ey. assert (Hle : forall a b, (b == - a)%Q -> (Qabs (wrapDistance pbc l (s_ofZ 1 / l)%S b) <= Qabs (wrapDistance pbc l (s_ofZ 1 / l)%S a))%Q).
  { intros a b Eb. destruct (wrapDistance_shift pbc l a Hl) as (n & Hn & E). rewrite E. pose proof (wrapDistance_min pbc l b (- n) Hl ltac:(destruct Hn; [by left|right; lia])) as Hm.
    eapply Qle_trans; [exact Hm|]. rewrite inject_Z_opp, Eb. assert (- a - l * - inject_Z n == - (a - l * inject_Z n))%Q as -> by ring. rewrite Qabs_opp. apply Qle_refl. }
  apply Qle_antisym; apply square_abs_le; apply Hle; [rewrite Ey; ring|done].
Qed.

Lemma requiresPbc_needs (box : Box Q) d : requiresPbcHandling box d = needsPbc box (pd_pos d) (pd_h d).
Proof.
  unfold requiresPbcHandling, needsPbc, anyPbc, twoH. destruct (isPeriodic (boundaryX box)), (isPeriodic (boundaryY box)), (isPeriodic (boundaryZ box)); reflexivity.
Qed.

(** The distance of the interaction is the one of the search. *)
Lemma distSq_search box u (iData jData : ParticleData Q) : goodBox box ->
  ((posDiffAndDistSq u box iData jData).2 == searchDist u box (pd_pos iData) (pd_pos jData))%Q.
Proof.
  intros Hb. pose proof Hb as ([Hx Ex] & [Hy Ey] & [Hz Ez]). unfold posDiffAndDistSq, searchDist. destruct u; cbn [snd].
  - rewrite (distPbc_dims box _ _ Hb). unfold norm2. cbn [vx vy vz]. rewrite Ex, Ey, Ez. cbn [s_add s_mul Exact.scalar]. rewrite Qplus_assoc.
    set (p := pd_pos iData). set (q := pd_pos jData). cbn [vsub vmap2 vx vy vz s_sub Exact.scalar].
    apply Qplus_comp; [apply Qplus_comp|]; (apply wrapDistance_square; [done|ring]).
  - unfold norm2, distPlain, distanceSq. cbn [vsub vmap2 vx vy vz s_add s_mul s_sub Exact.scalar]. ring.
Qed.

(** ** The reference *)

Section Reference.
Context {s : SfcKind} {k : KeyType} {t : otree} {o : OctreeArrays} {box : Box Q} {tree : OctreeNsView Q} {ps : list (Vec3 Q)}.
Hypothesis Hw : searchWorld s k t o box tree ps.
Context (hs : Smoothing Q).
Hypothesis Hhs : forall j, 0 <= j < zlen ps -> exists h, loadAtIndexIfPtr hs j = Some h /\ (0 <= h)%Q.

Local Abbreviation xs := (vx <$> ps).
Local Abbreviation ys := (vy <$> ps).
Local Abbreviation zs := (vz <$> ps).
Local Abbreviation neighborsIn := (@neighborsOf t box tree ps).

(** The contribution of particle [j]. *)
Definition interactWith (input : list (list Q)) (K : Kernel Q) (iData : ParticleData Q) (j : Z) (result : list (Modified Q)) : option (list (Modified Q)) :=
  let? jData := loadParticleData xs ys zs hs input j in
  let '(ijPosDiff, distSq) := posDiffAndDistSq (requiresPbcHandling box iData) box iData jData in
  updateResult result (interaction K iData jData ijPosDiff distSq).

(** The interactions of particle [i] with all particles of which an image is in its search radius. *)
Definition referenceResult (input : list (list Q)) (K : Kernel Q) (i : Z) : option (list Q) :=
  let? iData := loadParticleData xs ys zs hs input i in
  let? result := foldM (interactWith input K iData) (neighborsIn i (pd_pos iData) (pd_h iData)) (selfInteraction K iData) in
  Some (postamble K iData (unwrapModifiers result)).

Definition referenceStep (input : list (list Q)) (K : Kernel Q) (i : Z) (output : list (list Q)) : option (list (list Q)) :=
  let? v := referenceResult input K i in storeParticleData output i v.

Lemma loadParticleData_inv input i d : loadParticleData xs ys zs hs input i = Some d ->
  ps.[i] = Some (pd_pos d) /\ loadAtIndexIfPtr hs i = Some (pd_h d) /\ (0 <= pd_h d)%Q /\ 0 <= i < zlen ps.
Proof using Hhs.
  unfold loadParticleData. rewrite !aget_map. destruct (ps.[i]) as [p|] eqn:Ep; [|done]. cbn [fmap option_fmap option_map]. pose proof (aget_Some_range _ _ _ Ep) as Hr.
  destruct (Hhs i Hr) as (h & Eh & Hh). rewrite Eh. destruct (loadFields input i); [|done]. intros [= <-]. cbn. split; [by destruct p|]. split; [done|]. split; [done|lia].
Qed.

(** Every field has a value for every particle. *)
Definition complete (input : list (list Q)) : Prop := Forall (fun a => zlen ps <= zlen a) input.

Lemma loadParticleData_total input i : complete input -> 0 <= i < zlen ps -> exists d, loadParticleData xs ys zs hs input i = Some d.
Proof using Hhs.
  intros Hin Hi. destruct (aget_is_Some ps i Hi) as [p Hp]. destruct (Hhs i Hi) as (h & Eh & _). unfold loadParticleData. rewrite !aget_map, Hp. cbn [fmap option_fmap option_map]. rewrite Eh.
  assert (exists fields, loadFields input i = Some fields) as [fields ->]; [|by eexists]. clear Hp Eh. induction Hin as [|a input Ha _ IH]; [by eexists|]. cbn [loadFields].
  destruct (aget_is_Some a i ltac:(lia)) as [v ->]. destruct IH as [vs ->]. by eexists.
Qed.

(** ** Traversing for every particle *)

Section Traversing.
Context (nb : CpuAlwaysTraverseNeighborhood Q).
Hypothesis Hnb : at_tree nb = tree /\ at_box nb = box /\ at_x nb = xs /\ at_y nb = ys /\ at_z nb = zs /\ at_h nb = hs.

Lemma alwaysTraverse_jLoop_run input K i output buffer : 0 <= at_ngmax nb -> zlen buffer = at_ngmax nb -> at_ngmax nb < 2 ^ 64 ->
  (forall p h, ps.[i] = Some p -> loadAtIndexIfPtr hs i = Some h -> zlen (neighborsIn i p h) <= at_ngmax nb) ->
  exists buffer', zlen buffer' = zlen buffer /\ alwaysTraverse_jLoop nb input K i (output, buffer) = let? output := referenceStep input K i output in Some (output, buffer').
Proof using Hw Hhs Hnb.
  destruct Hnb as (Et & Eb & Ex & Ey & Ez & Eh). intros Hng Hbuf Hmax Hcap. unfold alwaysTraverse_jLoop, referenceStep, referenceResult. rewrite Et, Eb, Ex, Ey, Ez, Eh.
  destruct (loadParticleData xs ys zs hs input i) as [iData|] eqn:Ei; [|by exists buffer]. destruct (loadParticleData_inv input i iData Ei) as (Hp & Hh & Hh0 & Hi).
  destruct (findNeighbors_run Hw i (pd_pos iData) (pd_h iData) (at_ngmax nb) 0 1 Hh0 hs buffer Hp Hh) as (buffer' & Ef & Hz & Hl & _); [lia|lia|lia|lia|].
  specialize (Hcap _ _ Hp Hh). rewrite Ef. cbn beta iota. exists buffer'. split; [done|]. rewrite Z.min_l by done.
  rewrite (for_loop_list (neighborsIn i (pd_pos iData) (pd_h iData)) _ (interactWith input K iData)).
  - by destruct (foldM _ _ (selfInteraction K iData)).
  - intros n j result Hj. pose proof (aget_Some_range _ _ _ Hj). pose proof (Hl n j ltac:(lia) Hj) as E. rewrite Z.add_0_l, Z.mul_1_r in E. by rewrite E.
Qed.

Lemma withBuffer_run (body : Z -> list (list Q) * list Z -> option (list (list Q) * list Z)) (R : Z -> list (list Q) -> option (list (list Q))) ng threads order : forall output buffers,
  (forall i output buffer, i ∈ order.*2 -> zlen buffer = ng -> exists buffer', zlen buffer' = zlen buffer /\ body i (output, buffer) = let? output := R i output in Some (output, buffer')) ->
  Forall (fun e => 0 <= e.1 < threads) order -> zlen buffers = threads -> Forall (fun b => zlen b = ng) buffers ->
  (let? (output, _) := foldM (withBuffer body) order (output, buffers) in Some output) = foldM R order.*2 output.
Proof using.
  induction order as [|[th i] order IH]; intros output buffers Hb Hth Hz Hng; [done|]. apply Forall_cons in Hth as [Hth Hths]. cbn [fst] in Hth. rewrite fmap_cons. cbn [foldM snd].
  destruct (aget_is_Some buffers th ltac:(lia)) as [buffer Eb]. pose proof (proj1 (Forall_forall _ _) Hng buffer (aget_elem _ _ _ Eb)) as Hbz.
  destruct (Hb i output buffer ltac:(by left) Hbz) as (buffer' & Hz' & E). unfold withBuffer at 1. rewrite Eb. cbn beta iota. rewrite E. destruct (R i output) as [output1|]; [|done]. cbn beta iota.
  pose proof (aset_Some buffers th buffer' ltac:(lia)) as F. rewrite F. cbn beta iota. apply IH; [|done| |].
  - intros j out b Hj. apply Hb. by right.
  - rewrite (aset_zlen _ _ _ _ F). done.
  - apply Forall_insert; [done|]. by rewrite Hz'.
Qed.

Hypothesis Hng : 0 <= at_ngmax nb < 2 ^ 64.

(** The space for a list is sufficient for particle [i]. *)
Definition fits (ngmax i : Z) : Prop := forall p h, ps.[i] = Some p -> loadAtIndexIfPtr hs i = Some h -> zlen (neighborsIn i p h) <= ngmax.

Lemma fresh_buffers junk threads : 0 <= threads ->
  let buffers := replicate (Z.to_nat threads) (make_unique_for_overwrite junk (at_ngmax nb)) in zlen buffers = threads /\ Forall (fun b => zlen b = at_ngmax nb) buffers.
Proof using Hng.
  intros Ht. split; [unfold zlen; rewrite length_replicate; lia|]. apply Forall_replicate. unfold make_unique_for_overwrite. rewrite zlen_map, zlen_seqZ; lia.
Qed.

Lemma alwaysTraverse_ijLoop_run threads junk order input output K : Forall (fun e => 0 <= e.1 < threads) order -> 0 <= threads ->
  (forall i, i ∈ order.*2 -> fits (at_ngmax nb) i) ->
  alwaysTraverse_ijLoop threads junk order nb input output K = foldM (referenceStep input K) order.*2 output.
Proof using Hw Hhs Hnb Hng.
  intros Hth Ht Hfit. destruct (fresh_buffers junk threads Ht) as [Hz Hb]. unfold alwaysTraverse_ijLoop.
  apply (withBuffer_run (alwaysTraverse_jLoop nb input K) (referenceStep input K) (at_ngmax nb) threads); [|done|done|done].
  intros i out buffer Hi Hbuf. apply alwaysTraverse_jLoop_run; [lia|done|lia|by apply Hfit].
Qed.

Lemma jLoops_run input K l : forall output buffer, zlen buffer = at_ngmax nb -> (forall i, i ∈ l -> fits (at_ngmax nb) i) ->
  exists buffer', zlen buffer' = zlen buffer /\ foldM (alwaysTraverse_jLoop nb input K) l (output, buffer) = let? output := foldM (referenceStep input K) l output in Some (output, buffer').
Proof using Hw Hhs Hnb Hng.
  induction l as [|i l IH]; intros output buffer Hbuf Hfit; [by exists buffer|]. cbn [foldM].
  destruct (alwaysTraverse_jLoop_run input K i output buffer) as (b1 & Hz1 & ->); [lia|done|lia|by apply Hfit; left|].
  destruct (referenceStep input K i output) as [out1|]; [|by exists buffer]. cbn beta iota.
  destruct (IH out1 b1 ltac:(lia)) as (b2 & Hz2 & ->); [intros; apply Hfit; by right|]. exists b2. split; [lia|done].
Qed.

(** The reference for a group of particles. *)
Definition referenceGroup (groups : GroupView) (input : list (list Q)) (K : Kernel Q) (g : Z) (output : list (list Q)) : option (list (list Q)) :=
  let? gs := (groupStart groups).[g] in
  let? ge := (groupEnd groups).[g] in
  for_loop gs ge (referenceStep input K) output.

Definition groupFits (P : Z -> Prop) (groups : GroupView) (g : Z) : Prop :=
  forall gs ge i, (groupStart groups).[g] = Some gs -> (groupEnd groups).[g] = Some ge -> gs <= i < ge -> P i.

Lemma alwaysTraverse_subgroup_run threads junk order groups input output K : Forall (fun e => 0 <= e.1 < threads) order -> 0 <= threads ->
  (forall g, g ∈ order.*2 -> groupFits (fits (at_ngmax nb)) groups g) ->
  alwaysTraverse_subgroup_ijLoop threads junk order nb groups input output K = foldM (referenceGroup groups input K) order.*2 output.
Proof using Hw Hhs Hnb Hng.
  intros Hth Ht Hfit. destruct (fresh_buffers junk threads Ht) as [Hz Hb]. unfold alwaysTraverse_subgroup_ijLoop.
  apply (withBuffer_run _ (referenceGroup groups input K) (at_ngmax nb) threads); [|done|done|done].
  intros g out buffer Hg Hbuf. unfold referenceGroup. specialize (Hfit g Hg). unfold groupFits in Hfit. destruct ((groupStart groups).[g]) as [gs|]; [|by exists buffer].
  destruct ((groupEnd groups).[g]) as [ge|]; [|by exists buffer]. cbn beta iota. unfold for_loop. apply jLoops_run; [done|]. intros i Hi%elem_of_seqZ. apply (Hfit gs ge); [done|done|lia].
Qed.

End Traversing.

(** ** Stored lists *)

Local Abbreviation factor := (ns_searchExtFactor tree).

Lemma isOne_eq (x : Q) : isOne x = true <-> (x == 1)%Q.
Proof using.
  unfold isOne. cbn [s_leb s_ofZ Exact.scalar]. rewrite andb_true_iff, !Qle_bool_iff. change (inject_Z 1) with 1%Q. split; [intros []; by apply Qle_antisym|intros ->; split; apply Qle_refl].
Qed.

Lemma extendedH_run : exists hs', extendedH factor (zlen ps) hs = Some hs' /\
  forall j h, 0 <= j < zlen ps -> loadAtIndexIfPtr hs j = Some h -> exists h', loadAtIndexIfPtr hs' j = Some h' /\ (h' == h * factor)%Q.
Proof using Hhs.
  unfold extendedH. destruct (isOne factor) eqn:E1.
  - apply isOne_eq in E1. exists hs. split; [done|]. intros j h _ Hh. exists h. split; [done|]. rewrite E1. ring.
  - destruct hs as [l|h0] eqn:Eh.
    + pose proof (zlen_nonneg ps). destruct (for_loop_inv (fun i ext => zlen ext = i /\ forall j h, 0 <= j < i -> l.[j] = Some h -> ext.[j] = Some (h * factor)%S)
        0 (zlen ps) (fun i ext => let? hi := l.[i] in Some (ext ++ [(hi * factor)%S])) []) as (ext & Ex & Hz & Hext); [lia|split; [done|lia]| |].
      * intros i ext Hi [Hz Hext]. destruct (Hhs i Hi) as (h & Hl & _). cbn [loadAtIndexIfPtr] in Hl. rewrite Hl. eexists. split; [done|]. rewrite zlen_app, Hz. split; [done|].
        intros j h' Hj Hl'. destruct (decide (j = i)) as [->|Hne].
        -- rewrite Hl in Hl'. injection Hl' as <-. rewrite aget_app_r by lia. by rewrite Hz, Z.sub_diag.
        -- rewrite aget_app_l by lia. apply Hext; [lia|done].
      * rewrite Ex. eexists. split; [done|]. intros j h Hj Hh. exists (h * factor)%Q. split; [by apply Hext|reflexivity].
    + eexists. split; [done|]. intros j h _ [= <-]. exists (h0 * factor)%Q. split; [done|reflexivity].
Qed.

Lemma extended_world : searchWorld s k t o box (extendedTree tree) ps.
Proof using Hw.
  unfold extendedTree. destruct (isOne factor); [done|]. split; cbn [ns_childOffsets ns_parents ns_internalToLeaf ns_layout ns_centers ns_sizes ns_searchExtFactor]; try apply Hw. apply Qle_refl.
Qed.

Lemma extended_neighbors i p h : @neighborsOf t box (extendedTree tree) ps i p h = neighborsIn i p h.
Proof using. unfold neighborsOf, searched, extendedTree. by destruct (isOne factor). Qed.

Lemma square_mono (a b : Q) : (0 <= a)%Q -> (a <= b)%Q -> (s_ofZ 4 * a * a <= s_ofZ 4 * b * b)%S%Q.
Proof using.
  intros Ha Hab. cbn [s_mul s_ofZ Exact.scalar]. change (inject_Z 4) with 4%Q. assert (H : (a * a <= b * b)%Q) by (apply Qmult_le_compat_nonneg; (split; [lra|done])). lra.
Qed.

Local Abbreviation near := (@isNeighbor box ps).

Lemma isNeighbor_mono i p h h' j : (0 <= h)%Q -> (h <= h')%Q -> near i p h j = true -> near i p h' j = true.
Proof using.
  intros H0 Hle. unfold isNeighbor. rewrite !andb_true_iff. intros [Hne Hd]. split; [done|]. destruct (ps.[j]); [|done]. rewrite ltb_lt in Hd |- *.
  eapply Qlt_le_trans; [exact Hd|]. by apply square_mono.
Qed.

Lemma neighborsOf_proper i p h h' : (0 <= h)%Q -> (h == h')%Q -> neighborsIn i p h = neighborsIn i p h'.
Proof using.
  intros H0 E. unfold neighborsOf. apply list_filter_iff. intros j. split; apply isNeighbor_mono; [done|rewrite E; apply Qle_refl|by rewrite <- E|rewrite E; apply Qle_refl].
Qed.

(** The list for a larger radius contains the list for a smaller one. *)
Lemma neighborsOf_filter i p h h' : (0 <= h)%Q -> (h <= h')%Q -> filter (fun j => near i p h j = true) (neighborsIn i p h') = neighborsIn i p h.
Proof using.
  intros H0 Hle. unfold neighborsOf. rewrite list_filter_filter. apply list_filter_iff. intros j. split; [by intros [? _]|]. intros Hn. split; [done|]. by apply (isNeighbor_mono i p h).
Qed.

Lemma extended_ge h : (0 <= h)%Q -> (h <= h * factor)%Q.
Proof using Hw. intros H0. apply mult_ge_one; [done|]. apply (sw_ext _ _ _ _ _ _ _ Hw). Qed.
(** The two arrays of the loop of [build]: the counts are limited, so that their maximum is. *)
Definition countStep (ngmax i n : Z) (st : list Z * Z) : option (list Z * Z) :=
  let '(counts, m) := st in
  let? counts := aset counts i (Z.min n ngmax) in
  Some (counts, Z.max m (Z.min n ngmax)).

Lemma countSteps_run ngmax (N : Z -> list Z) order : forall counts m, m <= ngmax -> Forall (fun i => 0 <= i < zlen counts) order ->
  exists counts' m', foldM (fun i => countStep ngmax i (zlen (N i))) order (counts, m) = Some (counts', m') /\ m' <= ngmax /\ zlen counts' = zlen counts /\
    (forall i, i ∈ order -> counts'.[i] = Some (Z.min (zlen (N i)) ngmax)) /\ (forall i, i ∉ order -> counts'.[i] = counts.[i]).
Proof using.
  induction order as [|i order IH]; intros counts m Hm Hr; cbn [foldM].
  - exists counts, m. split; [done|]. split; [done|]. split; [done|]. split; [|done]. by intros i ?%not_elem_of_nil.
  - apply Forall_cons in Hr as [Hi Hr]. unfold countStep at 1. pose proof (aset_Some counts i (Z.min (zlen (N i)) ngmax) Hi) as F. rewrite F. cbn beta iota.
    destruct (IH (<[Z.to_nat i:=Z.min (zlen (N i)) ngmax]> counts) (Z.max m (Z.min (zlen (N i)) ngmax))) as (counts' & m' & E & Hm' & Hz & Hin & Hout); [lia|by rewrite (aset_zlen _ _ _ _ F)|].
    exists counts', m'. split; [exact E|]. split; [done|]. split; [by rewrite Hz, (aset_zlen _ _ _ _ F)|]. split.
    + intros j Hj. destruct (decide (j ∈ order)) as [Hin'|Hni]; [by apply Hin|]. apply elem_of_cons in Hj as [->|]; [|done]. rewrite Hout by done. apply (aget_aset_eq _ _ _ _ F).
    + intros j [Hne Hni]%not_elem_of_cons. rewrite Hout by done. by apply (aget_aset_ne _ _ _ _ _ F).
Qed.

(** The groups describe a range of the particles. *)
Definition bodyRange (groups : GroupView) : Prop := 0 <= firstBody groups <= lastBody groups /\ lastBody groups <= zlen ps.
Definition numBodies (groups : GroupView) : Z := lastBody groups - firstBody groups.

(** What [build] stores: the lists for the extended search radius, cut off at [ngmax]. *)
Record builtLists (groups : GroupView) (ngmax : Z) (nb : CpuFullNbListNeighborhood Q) : Prop := {
  bl_parts : fl_tree nb = tree /\ fl_box nb = box /\ fl_firstBody nb = firstBody groups /\ fl_lastBody nb = lastBody groups /\ fl_x nb = xs /\ fl_y nb = ys /\ fl_z nb = zs /\ fl_h nb = hs /\ fl_ngmax nb = ngmax;
  bl_lists : forall i p h, 0 <= i < numBodies groups -> ps.[firstBody groups + i] = Some p -> loadAtIndexIfPtr hs (firstBody groups + i) = Some h ->
    let found := neighborsIn (firstBody groups + i) p (h * factor)%Q in
    (fl_neighborsCount nb).[i] = Some (Z.min (zlen found) ngmax) /\ forall n v, n < ngmax -> found.[n] = Some v -> (fl_neighbors nb).[i * ngmax + n] = Some v
}.

Lemma fullNbList_build_run junk order ngmax groups : bodyRange groups -> order ≡ₚ seqZ 0 (numBodies groups) -> 0 <= ngmax -> numBodies groups * ngmax <= 2 ^ 32 ->
  exists nb, fullNbList_build junk order ngmax tree box (zlen ps) groups xs ys zs hs = Some (nb, false) /\ builtLists groups ngmax nb.
Proof using Hw Hhs.
  intros [Hf Hl] Hord Hng Hover. unfold numBodies in *. pose proof (sw_size _ _ _ _ _ _ _ Hw) as Hps. set (n := lastBody groups - firstBody groups) in *.
  destruct extendedH_run as (hs' & Eh & Hext). unfold fullNbList_build. fold n. rewrite (u32_small n) by lia. rewrite u64_small by nia. rewrite Eh. cbn beta iota.
  set (N := @listAt t box (extendedTree tree) ps hs' (firstBody groups)). set (nbs0 := make_unique_for_overwrite junk (n * ngmax)). set (cnt0 := make_unique_for_overwrite junk n).
  assert (Hz0 : zlen nbs0 = n * ngmax) by (unfold nbs0, make_unique_for_overwrite; rewrite zlen_map, zlen_seqZ; nia).
  assert (Hc0 : zlen cnt0 = n) by (unfold cnt0, make_unique_for_overwrite; rewrite zlen_map, zlen_seqZ; lia).
  assert (Hhs' : forall j, 0 <= j < zlen ps -> exists h, loadAtIndexIfPtr hs' j = Some h /\ (0 <= h)%Q).
  { intros j Hj. destruct (Hhs j Hj) as (h & E & H0). destruct (Hext j h Hj E) as (h' & E' & Hq). exists h'. split; [done|]. rewrite Hq. eapply Qle_trans; [exact H0|by apply extended_ge]. }
  assert (Hin : forall i, i ∈ order <-> 0 <= i < n) by (intros i; rewrite Hord, elem_of_seqZ; lia).
  destruct (allListed_run ngmax N Hng (buildBody ngmax (firstBody groups) (extendedTree tree) box xs ys zs hs') (countStep ngmax) (n * ngmax) order nbs0 (cnt0, 0)) as (nbs & -> & Hz & Hlist & _).
  - rewrite Hord. apply NoDup_seqZ.
  - apply Forall_forall. intros i Hi%Hin. lia.
  - done.
  - intros i nbs [cnt m] Hi%Hin Hzn. destruct (findNeighbors_list extended_world hs' (firstBody groups) n ngmax nbs i Hhs') as (nbs' & E & Hl'); [lia|lia|lia|lia|lia|nia|lia|].
    exists nbs'. split; [|done]. unfold buildBody. rewrite E. unfold countStep. fold N. by destruct (aset cnt i _).
  - destruct (countSteps_run ngmax N order cnt0 0) as (cnt & m & -> & Hm & _ & Hcnt & _); [lia|apply Forall_forall; intros i Hi%Hin; lia|].
    cbn beta iota. eexists. split; [f_equal; f_equal; by apply Z.ltb_ge|]. split; [repeat split|].
    intros i p h Hi Hp Hh. cbn zeta. cbn [fl_neighborsCount fl_neighbors]. pose proof (aget_Some_range _ _ _ Hp) as Hr. destruct (Hext _ h Hr Hh) as (h' & Hh' & Eq).
    destruct (Hhs _ Hr) as (h0 & E0 & Hpos). rewrite Hh in E0. injection E0 as <-.
    assert (EN : N i = neighborsIn (firstBody groups + i) p (h * factor)%Q).
    { unfold N, listAt. rewrite Hp, Hh', extended_neighbors. apply neighborsOf_proper; [|done]. rewrite Eq. eapply Qle_trans; [exact Hpos|by apply extended_ge]. }
    rewrite <- EN. split; [by apply Hcnt, Hin|]. intros m' v. by apply Hlist, Hin.
Qed.

Section Listing.
Context (groups : GroupView) (ngmax : Z) (nb : CpuFullNbListNeighborhood Q).
Hypothesis Hbuilt : builtLists groups ngmax nb.
Hypothesis Hrange : bodyRange groups.
Hypothesis Hover : numBodies groups * ngmax <= 2 ^ 32.

(** The space is sufficient for the extended search radius. *)
Definition fitsExtended (ng i : Z) : Prop :=
  firstBody groups <= i < lastBody groups /\ forall p h, ps.[i] = Some p -> loadAtIndexIfPtr hs i = Some h -> zlen (neighborsIn i p (h * factor)%Q) <= ng.

Lemma fitsExtended_fits ng i : fitsExtended ng i -> fits ng i.
Proof using Hw Hhs.
  intros [_ H] p h Hp Hh. eapply Z.le_trans; [|by apply (H p h)]. destruct (Hhs i (aget_Some_range _ _ _ Hp)) as (h0 & E0 & H0). rewrite Hh in E0. injection E0 as <-.
  rewrite <- (neighborsOf_filter i p h (h * factor) H0 (extended_ge h H0)). unfold zlen. pose proof (length_filter (fun j => near i p h j = true) (neighborsIn i p (h * factor)%Q)). lia.
Qed.

Lemma fullNbList_jLoop_run input K i output : complete input -> fitsExtended ngmax i -> fullNbList_jLoop nb input K i output = referenceStep input K i output.
Proof using Hw Hhs Hbuilt Hrange Hover.
  intros Hcomp [Hi Hfit]. destruct Hrange as [Hf Hl]. pose proof (sw_size _ _ _ _ _ _ _ Hw) as Hps. destruct (bl_parts _ _ _ Hbuilt) as (Et & Eb & Ef & _ & Ex & Ey & Ez & Eh & En).
  unfold fullNbList_jLoop, referenceStep, referenceResult. rewrite Eb, Ef, Ex, Ey, Ez, Eh, En.
  destruct (loadParticleData xs ys zs hs input i) as [iData|] eqn:Ei; [|done]. destruct (loadParticleData_inv input i iData Ei) as (Hp & Hh & Hh0 & _). cbn beta iota.
  unfold numBodies in *. set (a := i - firstBody groups). assert (Ha : firstBody groups + a = i) by (unfold a; lia). rewrite (u32_small a) by (unfold a; lia).
  destruct (bl_lists _ _ _ Hbuilt a (pd_pos iData) (pd_h iData)) as [Ec Hn]; [unfold numBodies, a; lia|by rewrite Ha|by rewrite Ha|]. rewrite Ha in Ec, Hn.
  specialize (Hfit _ _ Hp Hh). rewrite Z.min_l in Ec by done. rewrite Ec. cbn beta iota.
  rewrite (for_loop_list (neighborsIn i (pd_pos iData) (pd_h iData * factor)) _ (fun j r => if near i (pd_pos iData) (pd_h iData) j then interactWith input K iData j r else Some r)).
  - rewrite foldM_filter, (neighborsOf_filter i _ _ _ Hh0 (extended_ge _ Hh0)). by destruct (foldM _ _ (selfInteraction K iData)).
  - intros n j r Hj. pose proof (aget_Some_range _ _ _ Hj) as Hr. assert (a * ngmax + n < 2 ^ 32) by (unfold a in *; nia). rewrite (u32_small (a * ngmax)) by (unfold a in *; nia).
    rewrite (u32_small (a * ngmax + n)) by (unfold a in *; nia). rewrite (Hn n j ltac:(lia) Hj). cbn beta iota.
    assert (Hjin : j ∈ neighborsIn i (pd_pos iData) (pd_h iData * factor)) by by eapply aget_elem. apply (neighborsOf_elem Hw) in Hjin as (Hs & Hne & q & Hq & _).
    unfold interactWith. destruct (loadParticleData xs ys zs hs input j) as [jData|] eqn:Ej.
    + destruct (loadParticleData_inv input j jData Ej) as (Hq' & _ & _ & _). rewrite Hq in Hq'. injection Hq' as ->.
      destruct (searched_particle Hw j Hs) as (q' & Hq' & Hin). rewrite Hq in Hq'. injection Hq' as <-.
      assert (Etest : s_ltb (posDiffAndDistSq (requiresPbcHandling box iData) box iData jData).2 (radiusSq iData) = near i (pd_pos iData) (pd_h iData) j).
      { unfold isNeighbor. rewrite Hq. destruct (Z.eqb_spec j i) as [|_]; [done|]. cbn [negb andb]. apply eq_iff_eq_true. cbn [s_ltb Exact.scalar]. rewrite !ltb_lt, requiresPbc_needs.
        rewrite (distSq_search box _ iData jData (proj1 (sw_box _ _ _ _ _ _ _ Hw))). unfold radiusSq.
        rewrite (searchDist_within box (pd_pos iData) (pd_pos jData) (pd_h iData) (sw_box _ _ _ _ _ _ _ Hw) Hh0 Hin). by rewrite (imageWithin_iff box _ _ _ (proj1 (sw_box _ _ _ _ _ _ _ Hw))). }
      destruct (posDiffAndDistSq (requiresPbcHandling box iData) box iData jData) as [d d2]. cbn [snd] in Etest. by rewrite Etest.
    + destruct (loadParticleData_total input j Hcomp (aget_Some_range _ _ _ Hq)). congruence.
Qed.

Lemma fullNbList_ijLoop_run order input output K : complete input -> (forall i, i ∈ order.*2 -> fitsExtended ngmax i) ->
  fullNbList_ijLoop order nb input output K = foldM (referenceStep input K) order.*2 output.
Proof using Hw Hhs Hbuilt Hrange Hover.
  intros Hc Hfit. unfold fullNbList_ijLoop. rewrite foldM_fmap. apply foldM_ext. intros e out He. apply fullNbList_jLoop_run; [done|]. apply Hfit. by apply list_elem_of_fmap_2.
Qed.

Lemma fullNbList_subgroup_run order subgroups input output K : complete input -> (forall g, g ∈ order.*2 -> groupFits (fitsExtended ngmax) subgroups g) ->
  fullNbList_subgroup_ijLoop order nb subgroups input output K = foldM (referenceGroup subgroups input K) order.*2 output.
Proof using Hw Hhs Hbuilt Hrange Hover.
  intros Hc Hfit. unfold fullNbList_subgroup_ijLoop. rewrite foldM_fmap. apply foldM_ext. intros e out He. unfold referenceGroup.
  assert (Hg : groupFits (fitsExtended ngmax) subgroups e.2) by (apply Hfit; by apply list_elem_of_fmap_2). unfold groupFits in Hg.
  destruct ((groupStart subgroups).[e.2]) as [gs|]; [|done]. destruct ((groupEnd subgroups).[e.2]) as [ge|]; [|done]. cbn beta iota.
  apply for_loop_ext. intros i out' Hi. apply fullNbList_jLoop_run; [done|]. by apply (Hg gs ge).
Qed.

End Listing.

End Reference.

(** ** Well-typed kernels *)

(** The modifiers around a value. *)
Fixpoint shape {T} (m : Modified T) : Modified unit :=
  match m with
  | plain _ => plain tt
  | reduction_min _ => reduction_min tt
  | reduction_max _ => reduction_max tt
  | symmetric_even m => symmetric_even (shape m)
  | symmetric_odd m => symmetric_odd (shape m)
  end.

Lemma updateResultImpl_total (r v : Modified Q) : shape r = shape v -> exists x, updateResultImpl r v = Some x /\ shape x = shape r.
Proof.
  revert v. induction r as [| | |r IH|r IH]; intros [| | |v|v] E; try discriminate; cbn [updateResultImpl]; try by eexists.
  - injection E as E. destruct (IH v E) as (x & -> & Ex). eexists. split; [done|]. cbn. by rewrite Ex.
  - injection E as E. destruct (IH v E) as (x & -> & Ex). eexists. split; [done|]. cbn. by rewrite Ex.
Qed.

Lemma updateResult_total (r v : list (Modified Q)) : shape <$> r = shape <$> v -> exists x, updateResult r v = Some x /\ shape <$> x = shape <$> r.
Proof.
  revert v. induction r as [|m r IH]; intros [|n v] E; try discriminate; cbn [updateResult]; [by eexists|]. rewrite !fmap_cons in E. injection E as E1 E2.
  destruct (updateResultImpl_total m n E1) as (x & -> & Hx). destruct (IH v E2) as (xs & -> & Hxs). eexists. split; [done|]. rewrite !fmap_cons. by rewrite Hx, Hxs.
Qed.

(** All interactions have results of one type, for which [postamble] gives a value per output. *)
Definition typedKernel (K : Kernel Q) (width : Z) : Prop :=
  exists shapes, (forall a b d r, shape <$> interaction K a b d r = shapes) /\ (forall d v, zlen v = zlen shapes -> zlen (postamble K d v) = width).

(** The arrays of [output'] hold the values [R i] at the indices [i] of [bodies] and those of [output] elsewhere. *)
Definition storedAt (R : Z -> option (list Q)) (bodies : list Z) (output output' : list (list Q)) : Prop :=
  zlen output' = zlen output /\ forall n a, output.[n] = Some a -> exists a', output'.[n] = Some a' /\ zlen a' = zlen a /\
    forall i, (i ∉ bodies -> a'.[i] = a.[i]) /\ (i ∈ bodies -> exists v x, R i = Some v /\ v.[n] = Some x /\ a'.[i] = Some x).

Lemma storeParticleData_total (output : list (list Q)) : forall i (value : list Q), zlen value = zlen output -> Forall (fun a => 0 <= i < zlen a) output ->
  exists output', storeParticleData output i value = Some output' /\ zlen output' = zlen output /\
    forall n a v, output.[n] = Some a -> value.[n] = Some v -> exists a', output'.[n] = Some a' /\ zlen a' = zlen a /\ a'.[i] = Some v /\ forall j, j <> i -> a'.[j] = a.[j].
Proof.
  induction output as [|a output IH]; intros i [|v value] Hlen Hr; [| |unfold zlen in Hlen; cbn in Hlen; lia|]; [|unfold zlen in Hlen; cbn in Hlen; lia|].
  - exists []. split; [done|]. split; [done|]. intros n a v Ha. apply aget_Some_range in Ha. unfold zlen in Ha. cbn in Ha. lia.
  - rewrite !zlen_cons in Hlen. apply Forall_cons in Hr as [Ha Hr]. cbn [storeParticleData]. pose proof (aset_Some a i v Ha) as F. rewrite F. destruct (IH i value ltac:(lia) Hr) as (output' & -> & Hz & Hv).
    eexists. split; [done|]. split; [by rewrite !zlen_cons, Hz|]. intros n b w Hb Hw. pose proof (aget_Some_range _ _ _ Hb) as Hn.
    destruct (decide (n = 0)) as [->|Hne].
    + injection Hb as <-. injection Hw as <-. eexists. split; [done|]. split; [by rewrite (aset_zlen _ _ _ _ F)|]. split; [apply (aget_aset_eq _ _ _ _ F)|]. intros j Hj. by apply (aget_aset_ne _ _ _ _ _ F).
    + rewrite aget_cons_S in Hb by lia. rewrite aget_cons_S in Hw by lia. rewrite aget_cons_S by lia. by apply (Hv (n - 1)).
Qed.

Lemma storedAt_run (R : Z -> option (list Q)) l : forall output, (forall i, i ∈ l -> exists v, R i = Some v /\ zlen v = zlen output) -> Forall (fun a => forall i, i ∈ l -> 0 <= i < zlen a) output ->
  exists output', foldM (fun i output => let? v := R i in storeParticleData output i v) l output = Some output' /\ storedAt R l output output'.
Proof.
  induction l as [|i l IH]; intros output HR Hr; cbn [foldM].
  - exists output. split; [done|]. split; [done|]. intros n a Ha. exists a. split; [done|]. split; [done|]. intros i. split; [done|by intros ?%not_elem_of_nil].
  - destruct (HR i ltac:(by left)) as (v & Ev & Hv). rewrite Ev. rewrite Forall_forall in Hr.
    destruct (storeParticleData_total output i v Hv) as (out1 & -> & Hz1 & H1); [apply Forall_forall; intros a Ha; apply (Hr a Ha); by left|]. cbn beta iota.
    assert (Hback : forall n a1, out1.[n] = Some a1 -> exists a w, output.[n] = Some a /\ v.[n] = Some w /\ zlen a1 = zlen a /\ a1.[i] = Some w /\ forall j, j <> i -> a1.[j] = a.[j]).
    { intros n a1 Ha1. pose proof (aget_Some_range _ _ _ Ha1). destruct (aget_is_Some output n ltac:(lia)) as [a Ha]. destruct (aget_is_Some v n ltac:(lia)) as [w Hw].
      destruct (H1 n a w Ha Hw) as (a' & Ea' & Hza & Hi & Hj). rewrite Ha1 in Ea'. injection Ea' as <-. by exists a, w. }
    destruct (IH out1) as (out2 & -> & Hz2 & H2).
    + intros j Hj. destruct (HR j ltac:(by right)) as (u & Eu & Hu). exists u. split; [done|lia].
    + apply Forall_forall. intros a1 Ha1 j Hj. destruct (elem_aget _ _ Ha1) as [n Hn]. destruct (Hback n a1 Hn) as (a & w & Ha & _ & -> & _). apply (Hr a (aget_elem _ _ _ Ha)). by right.
    + exists out2. split; [done|]. split; [lia|]. intros n a Ha. pose proof (aget_Some_range _ _ _ Ha). destruct (aget_is_Some out1 n ltac:(lia)) as [a1 Ha1].
      destruct (Hback n a1 Ha1) as (a0 & w & Ha0 & Hw & Hza & Hi & Hj). rewrite Ha in Ha0. injection Ha0 as <-. destruct (H2 n a1 Ha1) as (a2 & Ha2 & Hza2 & Hs). exists a2. split; [done|]. split; [lia|].
      intros j. destruct (Hs j) as [Hout Hin]. split.
      * intros [Hne Hni]%not_elem_of_cons. rewrite Hout by done. by apply Hj.
      * intros Hjl. destruct (decide (j ∈ l)) as [Hin'|Hni]; [by apply Hin|]. apply elem_of_cons in Hjl as [->|]; [|done]. exists v, w. rewrite Hout by done. done.
Qed.

(** ** What a neighborhood promises *)

(** Everything that a builder needs: a tree view, valid smoothing lengths, a range of bodies, enough space. *)
Record ijWorld (s : SfcKind) (k : KeyType) (t : otree) (o : OctreeArrays) (box : Box Q) (tree : OctreeNsView Q) (ps : list (Vec3 Q)) (hs : Smoothing Q) (groups : GroupView)
    (ngmax : Z) (ex : Execution) : Prop := {
  iw_search : searchWorld s k t o box tree ps;
  iw_h : forall j, 0 <= j < zlen ps -> exists h, loadAtIndexIfPtr hs j = Some h /\ (0 <= h)%Q;
  iw_bodies : 0 <= firstBody groups <= lastBody groups /\ lastBody groups <= zlen ps;
  iw_ngmax : 0 <= ngmax < 2 ^ 32;
  iw_index : numBodies groups * ngmax <= 2 ^ 32;
  iw_fits : forall i p h, firstBody groups <= i < lastBody groups -> ps.[i] = Some p -> loadAtIndexIfPtr hs i = Some h ->
    zlen (neighborsOf (t := t) (box := box) (tree := tree) (ps := ps) i p (h * ns_searchExtFactor tree)%Q) <= ngmax;
  iw_build : ex_build ex ≡ₚ seqZ 0 (numBodies groups);
  iw_threads : 0 <= ex_threads ex
}.

(** A schedule of bodies from the range of [groups]. *)
Definition validSchedule (ex : Execution) (P : Z -> Prop) (order : schedule) : Prop := Forall (fun e => 0 <= e.1 < ex_threads ex) order /\ forall i, i ∈ order.*2 -> P i.
Definition inBodies (groups : GroupView) (i : Z) : Prop := firstBody groups <= i < lastBody groups.

(** A lawful builder succeeds, and the loops of the neighborhood are the reference. *)
Class NeighborhoodLaws (B NB : Type) `{!NeighborhoodBuilder Q B NB} (ngmaxOf : B -> Z) : Prop := {
  build_reference : forall s k t o box tree ps hs groups b ex, ijWorld s k t o box tree ps hs groups (ngmaxOf b) ex ->
    exists nb, build ex b tree box (zlen ps) groups (vx <$> ps) (vy <$> ps) (vz <$> ps) hs = Some nb /\
      (forall order input output K, Forall (fun a => zlen ps <= zlen a) input -> validSchedule ex (inBodies groups) order ->
        ijLoop ex order nb input output K = foldM (referenceStep (t := t) (box := box) (tree := tree) (ps := ps) hs input K) order.*2 output) /\
      (forall order subgroups input output K, Forall (fun a => zlen ps <= zlen a) input -> validSchedule ex (groupFits (inBodies groups) subgroups) order ->
        subgroup_ijLoop ex order nb subgroups input output K = foldM (referenceGroup (t := t) (box := box) (tree := tree) (ps := ps) hs subgroups input K) order.*2 output)
}.

Lemma groupFits_mono (P R : Z -> Prop) groups g : (forall i, P i -> R i) -> groupFits P groups g -> groupFits R groups g.
Proof. intros H Hg gs ge i H1 H2 H3. apply H. by apply (Hg gs ge). Qed.

#[export] Instance alwaysTraverse_laws : NeighborhoodLaws CpuAlwaysTraverseNeighborhoodBuilder (CpuAlwaysTraverseNeighborhood Q) atb_ngmax.
Proof.
  split. intros s k t o box tree ps hs groups b ex Hw. pose proof (iw_ngmax _ _ _ _ _ _ _ _ _ _ _ Hw). eexists. split; [done|].
  assert (Hfit : forall i, inBodies groups i -> fits (t := t) (box := box) (tree := tree) (ps := ps) hs (atb_ngmax b) i).
  { intros i Hi. eapply fitsExtended_fits; [exact (iw_search _ _ _ _ _ _ _ _ _ _ _ Hw)|exact (iw_h _ _ _ _ _ _ _ _ _ _ _ Hw)|]. split; [exact Hi|]. intros p h. by apply (iw_fits _ _ _ _ _ _ _ _ _ _ _ Hw). }
  split.
  - intros order input output K Hc [Hth Hb]. eapply alwaysTraverse_ijLoop_run; [exact (iw_search _ _ _ _ _ _ _ _ _ _ _ Hw)|exact (iw_h _ _ _ _ _ _ _ _ _ _ _ Hw)|done|cbn; lia|done|exact (iw_threads _ _ _ _ _ _ _ _ _ _ _ Hw)|].
    intros i Hi. by apply Hfit, Hb.
  - intros order subgroups input output K Hc [Hth Hb]. eapply alwaysTraverse_subgroup_run; [exact (iw_search _ _ _ _ _ _ _ _ _ _ _ Hw)|exact (iw_h _ _ _ _ _ _ _ _ _ _ _ Hw)|done|cbn; lia|done|exact (iw_threads _ _ _ _ _ _ _ _ _ _ _ Hw)|].
    intros g Hg. eapply groupFits_mono; [exact Hfit|]. by apply Hb.
Qed.

#[export] Instance fullNbList_laws : NeighborhoodLaws CpuFullNbListNeighborhoodBuilder (CpuFullNbListNeighborhood Q) flb_ngmax.
Proof.
  split. intros s k t o box tree ps hs groups b ex Hw. pose proof (iw_ngmax _ _ _ _ _ _ _ _ _ _ _ Hw). pose proof (iw_search _ _ _ _ _ _ _ _ _ _ _ Hw) as Hs. pose proof (iw_h _ _ _ _ _ _ _ _ _ _ _ Hw) as Hh.
  destruct (fullNbList_build_run Hs hs Hh (ex_junk ex) (ex_build ex) (flb_ngmax b) groups (iw_bodies _ _ _ _ _ _ _ _ _ _ _ Hw) (iw_build _ _ _ _ _ _ _ _ _ _ _ Hw)) as (nb & E & Hbl); [lia|exact (iw_index _ _ _ _ _ _ _ _ _ _ _ Hw)|].
  exists nb. split; [unfold build; cbn [fullNbList_builder]; by rewrite E|].
  assert (Hfit : forall i, inBodies groups i -> fitsExtended (t := t) (box := box) (tree := tree) (ps := ps) hs groups (flb_ngmax b) i).
  { intros i Hi. split; [exact Hi|]. intros p h. by apply (iw_fits _ _ _ _ _ _ _ _ _ _ _ Hw). }
  split.
  - intros order input output K Hc [_ Hb]. apply (fullNbList_ijLoop_run Hs hs Hh groups (flb_ngmax b) nb Hbl (iw_bodies _ _ _ _ _ _ _ _ _ _ _ Hw) (iw_index _ _ _ _ _ _ _ _ _ _ _ Hw)); [exact Hc|]. intros i Hi. by apply Hfit, Hb.
  - intros order subgroups input output K Hc [_ Hb].
    apply (fullNbList_subgroup_run Hs hs Hh groups (flb_ngmax b) nb Hbl (iw_bodies _ _ _ _ _ _ _ _ _ _ _ Hw) (iw_index _ _ _ _ _ _ _ _ _ _ _ Hw)); [exact Hc|]. intros g Hg. eapply groupFits_mono; [exact Hfit|]. by apply Hb.
Qed.

Lemma interactions_total {t box tree ps s k o} (Hw : searchWorld s k t o box tree ps) hs (input : list (list Q)) K shapes iData l :
  (forall j, 0 <= j < zlen ps -> exists h, loadAtIndexIfPtr hs j = Some h /\ (0 <= h)%Q) -> Forall (fun a => zlen ps <= zlen a) input ->
  (forall a b d r, shape <$> interaction K a b d r = shapes) -> Forall (fun j => 0 <= j < zlen ps) l ->
  forall r, shape <$> r = shapes -> exists r', foldM (interactWith (box := box) (ps := ps) hs input K iData) l r = Some r' /\ shape <$> r' = shapes.
Proof.
  intros Hh Hc HK Hl. induction Hl as [|j l Hj _ IH]; intros r Hr; [by exists r|]. cbn [foldM]. unfold interactWith at 1.
  destruct (loadParticleData_total hs Hh input j Hc Hj) as [jData ->]. cbn beta iota. destruct (posDiffAndDistSq _ box iData jData) as [d d2].
  destruct (updateResult_total r (interaction K iData jData d d2)) as (r1 & -> & Hr1); [by rewrite HK|]. apply IH. congruence.
Qed.

Lemma referenceResult_total {t box tree ps s k o} (Hw : searchWorld s k t o box tree ps) hs (input : list (list Q)) K width i :
  (forall j, 0 <= j < zlen ps -> exists h, loadAtIndexIfPtr hs j = Some h /\ (0 <= h)%Q) -> Forall (fun a => zlen ps <= zlen a) input ->
  typedKernel K width -> 0 <= i < zlen ps -> exists v, referenceResult (t := t) (box := box) (tree := tree) (ps := ps) hs input K i = Some v /\ zlen v = width.
Proof.
  intros Hh Hc (shapes & HK & Hp) Hi. unfold referenceResult. destruct (loadParticleData_total hs Hh input i Hc Hi) as [iData ->].
  destruct (interactions_total Hw hs input K shapes iData (neighborsOf (t := t) (box := box) (tree := tree) (ps := ps) i (pd_pos iData) (pd_h iData)) Hh Hc HK) with (r := selfInteraction K iData) as (r & -> & Hr).
  - apply Forall_forall. intros j Hj. apply (neighborsOf_elem Hw) in Hj as (_ & _ & q & Hq & _). by apply aget_Some_range in Hq.
  - apply HK.
  - eexists. split; [done|]. apply Hp. unfold unwrapModifiers. rewrite zlen_map, <- Hr, zlen_map. done.
Qed.
