(* ===== verification/NeighborProperties.v ===== *)
(** * Properties of the neighbor search

    The claims about [cstone/findneighbors.hpp], [cstone/traversal/ijloop/] and
    [sph/neighborhood.hpp]. *)

From Stdlib Require Import QArith Qround Qabs Lqa.
From S2P Require Import Prelude Primitives SfcCommon Csarray CsInvariant CsRebalance CsCounts CsBuild TreeProperties SfcBox Morton Hilbert Sfc BoxOverlap Octree OctreeNodes OctreeBuild OctreeQueries OctreeProperties IndexRanges DomainDecomp Scalars FloatBox Traversal NodeLookup Macs SourceCenter Peers Marking ExactGeometry ExactCoords GeometryProperties Neighbors NeighborSearch IjLoop Interactions.
Import OctreeClass.
#[local] Open Scope Z_scope.

(** ** Neighbor lists *)

(** C23: For every execution order of the parallel loop, [findNeighbors] gives every particle of
    the range the exact number of other particles of which an image is in its search radius, and
    lists the first [ngmax] of them in ascending order; the periodic distance is used only near
    the boundary, which does not change the result.  The lists must fit into 2^32 entries. *)
Theorem findNeighbors_exact s k t o box tree ps hs firstId numWork ngmax order nbs cnt :
  searchWorld s k t o box tree ps -> (forall j, 0 <= j < zlen ps -> exists h, loadAtIndexIfPtr hs j = Some h /\ (0 <= h)%Q) ->
  0 <= ngmax -> 0 <= firstId -> firstId + numWork <= zlen ps -> order ≡ₚ seqZ 0 numWork ->
  numWork * ngmax <= 2 ^ 32 -> numWork * ngmax <= zlen nbs -> zlen nbs < 2 ^ 64 -> numWork <= zlen cnt ->
  exists nbs' cnt', findNeighborsIn order (vx <$> ps) (vy <$> ps) (vz <$> ps) hs firstId box tree ngmax nbs cnt = Some (nbs', cnt') /\
    forall i p h, 0 <= i < numWork -> ps.[firstId + i] = Some p -> loadAtIndexIfPtr hs (firstId + i) = Some h ->
      exists found, StronglySorted Z.lt found /\
        (forall j, j ∈ found <-> j <> firstId + i /\ nthz (ns_layout tree) 0 <= j < nthz (ns_layout tree) (zlen (ns_layout tree) - 1) /\ exists q, ps.[j] = Some q /\ imageWithin box (s_ofZ 4 * h * h)%S p q) /\
        cnt'.[i] = Some (zlen found) /\ forall n j, n < ngmax -> found.[n] = Some j -> nbs'.[i * ngmax + n] = Some j.
Proof.
  intros Hw Hhs Hng Hf Hn Hord Hover Hroom Hsize Hcnt. set (N := listAt (t := t) (box := box) (tree := tree) (ps := ps) hs firstId).
  assert (Hin : forall i, i ∈ order <-> 0 <= i < numWork) by (intros i; rewrite Hord, elem_of_seqZ; lia).
  destruct (allListed_run ngmax N Hng (fun i '(nbs, cnt) =>
      let? (count, nbs) := findNeighbors (u32 (i + firstId)) (vx <$> ps) (vy <$> ps) (vz <$> ps) hs tree box ngmax nbs (u32 (i * ngmax)) 1 in
      let? cnt := aset cnt i count in Some (nbs, cnt)) (fun i n c => aset c i n) (zlen nbs) order nbs cnt) as (nbs' & E & _ & Hlist & _).
  - rewrite Hord. apply NoDup_seqZ.
  - apply Forall_forall. intros i Hi%Hin. lia.
  - done.
  - intros i nbs1 cnt1 Hi%Hin Hz. destruct (findNeighbors_list Hw hs firstId numWork ngmax nbs1 i Hhs) as (nbs2 & -> & Hl); [lia|lia|lia|lia|lia|lia|lia|]. by exists nbs2.
  - destruct (foldM_writes (fun i c => aset c i (zlen (N i))) (fun i => zlen (N i)) 0 (zlen cnt) order cnt) as (cnt' & Ec & _ & Hc & _); [done|intros i Hi%Hin; lia|done|].
    exists nbs', cnt'. split; [unfold findNeighborsIn; by rewrite E, Ec|]. intros i p h Hi Hp Hh. exists (N i).
    assert (EN : N i = neighborsOf (t := t) (box := box) (tree := tree) (ps := ps) (firstId + i) p h) by (unfold N, listAt; by rewrite Hp, Hh). split; [|split; [|split]].
    + rewrite EN. apply StronglySorted_filter, seqZ_sorted.
    + intros j. rewrite EN, (neighborsOf_elem Hw). unfold searched. rewrite elem_of_seqZ, (sw_layout _ _ _ _ _ _ _ Hw). replace (zlen (leafKeys 1 t) + 1 - 1) with (zlen (leafKeys 1 t)) by lia.
      split; [intros (H1 & H2 & H3); split; [done|split; [lia|done]]|intros (H1 & H2 & H3); split; [lia|done]].
    + apply Hc. rewrite Z.sub_0_r. by apply Hin.
    + intros n j. by apply Hlist, Hin.
Qed.

(** Three particles in the first leaf and two in the last one, next to each other across the periodic boundary. *)
Definition particles15 : list (Vec3 Q) :=
  [mkVec3 (1 # 16) (1 # 16) (1 # 16); mkVec3 (1 # 8) (1 # 16) (1 # 16); mkVec3 (1 # 16) (1 # 8) (1 # 16); mkVec3 (15 # 16) (1 # 16) (1 # 16); mkVec3 (3 # 4) (1 # 4) (1 # 4)]%Q.
Definition geometry15 : list (Vec3 Q) * list (Vec3 Q) := default (noVecs, noVecs) (nodeFpCenters HilbertKey Key32 (prefixes (arrays_ octree15)) unitCube noVecs noVecs).
Definition view15 (factor : Q) : OctreeNsView Q :=
  mkOctreeNsView (childOffsets (arrays_ octree15)) (parents (arrays_ octree15)) (internalToLeaf (arrays_ octree15)) layout15 geometry15.1 geometry15.2 factor.
Definition h15 : Smoothing Q := uniform (1 # 8)%Q.

(** The position is in the box, as a test. *)
Definition inGeometryb (g : Vec3 Q * Vec3 Q) (p : Vec3 Q) : bool :=
  Qle_bool (Qabs (vx p - vx g.1)) (vx g.2) && Qle_bool (Qabs (vy p - vy g.1)) (vy g.2) && Qle_bool (Qabs (vz p - vz g.1)) (vz g.2).

Lemma inGeometryb_sound g p : inGeometryb g p = true -> inGeometry g p.
Proof. unfold inGeometryb, inGeometry. rewrite !andb_true_iff, !Qle_bool_iff. tauto. Qed.

Lemma searchWorld15 factor : (1 <= factor)%Q -> exists t, searchWorld HilbertKey Key32 t (arrays_ octree15) unitCube (view15 factor) particles15 /\ zlen (leafKeys 1 t) = 15.
Proof.
  intros Hf. destruct octree15_octreeOf as (t & Ho & Et). exists t. pose proof (oo_linked _ _ _ Ho) as Hl.
  assert (Hn : zlen (leafKeys 1 t) = 15) by (rewrite <- (oo_numLeaf _ _ _ Ho); vm_compute; reflexivity). split; [|exact Hn]. split.
  - apply (oo_depth _ _ _ Ho).
  - exact Hl.
  - apply unitCube_exact.
  - reflexivity.
  - reflexivity.
  - reflexivity.
  - destruct (nodeFpCenters_run HilbertKey Key32 t (arrays_ octree15) unitCube noVecs noVecs (oo_depth _ _ _ Ho) Hl) as (C & S & E & _ & _ & Hg); [by rewrite octree15_size|by rewrite octree15_size|].
    cbn [view15 ns_centers ns_sizes]. unfold geometry15. rewrite E. exact Hg.
  - exact Hf.
  - apply zsortedb_sound. vm_compute. reflexivity.
  - rewrite Hn. reflexivity.
  - repeat (apply Forall_cons; split; [vm_compute; split; congruence|]). by apply Forall_nil.
  - reflexivity.
  - intros j q a p Hq Ha Hp. pose proof (aget_Some_range _ _ _ Hq) as Hj. rewrite Hn in Hj. destruct (lk_leafIndex _ _ _ Hl j q Hq) as (i & Ei & Hi & _). rewrite <- (oo_numInner _ _ _ Ho) in Ei.
    pose proof (aget_Some_range _ _ _ Hp) as Hr. change (zlen particles15) with 5 in Hr. cbn [view15 ns_layout] in Ha. apply inGeometryb_sound.
    assert (Hcheck : forallb (fun j => forallb (fun a => match (leafToInternal (arrays_ octree15)).[numInternalNodes_ octree15 + Z.of_nat j] with
        | Some i => match (prefixes (arrays_ octree15)).[i], particles15.[Z.of_nat a] with
          | Some q, Some p => negb ((nthz layout15 (Z.of_nat j) <=? Z.of_nat a) && (Z.of_nat a <? nthz layout15 (Z.of_nat j + 1))) || inGeometryb (nodeGeometry HilbertKey Key32 unitCube q) p
          | _, _ => false end
        | None => false end) (seq 0 5)) (seq 0 15) = true) by (vm_compute; reflexivity).
    apply forallb_forall with (x := Z.to_nat j) in Hcheck; [|apply in_seq; lia]. apply forallb_forall with (x := Z.to_nat a) in Hcheck; [|apply in_seq; lia]. rewrite !Z2Nat.id in Hcheck by lia.
    rewrite Ei, Hi, Hp in Hcheck. apply orb_true_iff in Hcheck as [Hc|]; [|done]. apply negb_true_iff, andb_false_iff in Hc as [Hc|Hc]; [apply Z.leb_gt in Hc|apply Z.ltb_ge in Hc]; lia.
Qed.

Lemma h15_nonneg j : 0 <= j < zlen particles15 -> exists h, loadAtIndexIfPtr h15 j = Some h /\ (0 <= h)%Q.
Proof. intros _. exists (1 # 8)%Q. split; [done|]. vm_compute. congruence. Qed.

Lemma findNeighbors_exact_witness :
  exists nbs' cnt', findNeighborsIn [1; 0; 2] (vx <$> particles15) (vy <$> particles15) (vz <$> particles15) h15 0 unitCube (view15 1%Q) 2 (replicate 6 99) [0; 0; 0] = Some (nbs', cnt') /\
    forall i p h, 0 <= i < 3 -> particles15.[0 + i] = Some p -> loadAtIndexIfPtr h15 (0 + i) = Some h ->
      exists found, StronglySorted Z.lt found /\
        (forall j, j ∈ found <-> j <> 0 + i /\ nthz (ns_layout (view15 1%Q)) 0 <= j < nthz (ns_layout (view15 1%Q)) (zlen (ns_layout (view15 1%Q)) - 1) /\
          exists q, particles15.[j] = Some q /\ imageWithin unitCube (s_ofZ 4 * h * h)%S p q) /\
        cnt'.[i] = Some (zlen found) /\ forall n j, n < 2 -> found.[n] = Some j -> nbs'.[i * 2 + n] = Some j.
Proof.
  destruct (searchWorld15 1%Q ltac:(apply Qle_refl)) as (t & Hw & _).
  apply (findNeighbors_exact HilbertKey Key32 t (arrays_ octree15) unitCube (view15 1%Q) particles15 h15 0 3 2 [1; 0; 2] (replicate 6 99) [0; 0; 0] Hw h15_nonneg).
  - lia.
  - lia.
  - vm_compute. congruence.
  - change (seqZ 0 3) with [0; 1; 2]. apply perm_swap.
  - lia.
  - vm_compute. congruence.
  - reflexivity.
  - vm_compute. congruence.
Defined.

(** The three particles have the particle on the other side of the boundary as third neighbor. *)
Example neighborCounts15 : (let? (nbs, cnt) := findNeighborsIn [1; 0; 2] (vx <$> particles15) (vy <$> particles15) (vz <$> particles15) h15 0 unitCube (view15 1%Q) 2 (replicate 6 99) [0; 0; 0] in Some (nbs, cnt)) =
  Some ([1; 2; 0; 2; 0; 1], [3; 3; 3]).
Proof. vm_compute. reflexivity. Qed.

(** ** Interactions *)

(** The client of the interface: a lawful builder gives the interactions with all neighbors. *)
Lemma lawful_ijLoop {B NB} `{!NeighborhoodBuilder Q B NB} {ngmaxOf} `{!NeighborhoodLaws B NB ngmaxOf} b s k t o box tree ps hs groups ex order input output K :
  ijWorld s k t o box tree ps hs groups (ngmaxOf b) ex -> Forall (fun a => zlen ps <= zlen a) input -> validSchedule ex (inBodies groups) order ->
  exists nb, build ex b tree box (zlen ps) groups (vx <$> ps) (vy <$> ps) (vz <$> ps) hs = Some nb /\
    ijLoop ex order nb input output K = foldM (referenceStep (t := t) (box := box) (tree := tree) (ps := ps) hs input K) order.*2 output.
Proof. intros Hw Hc Hord. destruct (build_reference s k t o box tree ps hs groups b ex Hw) as (nb & E & Hij & _). exists nb. split; [done|]. by apply Hij. Qed.

Definition supported (type : NeighborhoodType) : Prop := type = alwaysTraverse \/ type = fullNeighborList.

(** C22: With exact (rational) coordinates, and if [ngmax] is at least the number of neighbors of every particle in the extended
    search radius ([iw_fits] of [ijWorld]), both strategies for interactions on CPUs, the traversal for every particle and the
    stored neighbor lists, compute the same output for every execution order, number of threads and content of fresh memory:
    every particle of the schedule gets the reduction over all particles
    of which an image is in its search radius, the other entries are unchanged.  The other
    strategies are refused. *)
Theorem ijLoop_strategies_agree s k t o box tree ps hs groups ngmax ex order input output K :
  ijWorld s k t o box tree ps hs groups ngmax ex -> Forall (fun a => zlen ps <= zlen a) input -> typedKernel K (zlen output) ->
  Forall (fun a => lastBody groups <= zlen a) output -> validSchedule ex (inBodies groups) order ->
  exists output', storedAt (referenceResult (t := t) (box := box) (tree := tree) (ps := ps) hs input K) order.*2 output output' /\
    (forall type d, supported type -> exists d1 d2, setType type d = Some d1 /\
      NeighborhoodData_build ex ngmax tree box (zlen ps) groups (vx <$> ps) (vy <$> ps) (vz <$> ps) hs d1 = Some d2 /\ NeighborhoodData_ijLoop ex order d2 input output K = Some output') /\
    (forall type (d : NeighborhoodData Q), ~ supported type -> setType type d = None).
Proof.
  intros Hw Hc HK Hout Hord. pose proof (iw_bodies _ _ _ _ _ _ _ _ _ _ _ Hw) as [Hb1 Hb2].
  destruct (storedAt_run (referenceResult (t := t) (box := box) (tree := tree) (ps := ps) hs input K) order.*2 output) as (output' & E & Hs).
  - intros i Hi%(proj2 Hord). unfold inBodies in Hi. apply (referenceResult_total (iw_search _ _ _ _ _ _ _ _ _ _ _ Hw)); [apply (iw_h _ _ _ _ _ _ _ _ _ _ _ Hw)|done|done|lia].
  - eapply Forall_impl; [exact Hout|]. intros a Ha i Hi%(proj2 Hord). unfold inBodies in Hi. cbn in Ha. lia.
  - exists output'. split; [done|]. split.
    + intros type d [->| ->].
      * destruct (lawful_ijLoop (NB := CpuAlwaysTraverseNeighborhood Q) (ngmaxOf := atb_ngmax) (mkAlwaysTraverseBuilder ngmax) s k t o box tree ps hs groups ex order input output K Hw Hc Hord) as (nb & Eb & El).
        eexists _, _. split; [done|]. unfold NeighborhoodData_build. cbn [neighborhoodType]. rewrite Eb. split; [done|]. etransitivity; [exact El|exact E].
      * destruct (lawful_ijLoop (NB := CpuFullNbListNeighborhood Q) (ngmaxOf := flb_ngmax) (mkFullNbListBuilder ngmax) s k t o box tree ps hs groups ex order input output K Hw Hc Hord) as (nb & Eb & El).
        eexists _, _. split; [done|]. unfold NeighborhoodData_build. cbn [neighborhoodType]. rewrite Eb. split; [done|]. etransitivity; [exact El|exact E].
    + intros type d Hn. unfold setType. by destruct type; try (destruct Hn; by left); try (destruct Hn; by right).
Qed.

(** The sum of the masses of the neighbors and the largest distance. *)
Definition massKernel : Kernel Q :=
  mkKernel (fun _ j _ d => [symmetric_even (plain (default 0%Q ((pd_fields j).[0]))); reduction_max d]) (fun _ v => v).
Definition groups15 : GroupView := mkGroupView 0 3 [] [].
Definition execution15 : Execution := mkExecution 2 (fun i => 77 + i) [2; 0; 1].
Definition masses15 : list (list Q) := [[1; 2; 3; 4; 5]]%Q.
Definition output15 : list (list Q) := [replicate 5 0; replicate 5 (-1)]%Q.

Lemma massKernel_typed : typedKernel massKernel (zlen output15).
Proof. exists [symmetric_even (plain tt); reduction_max tt]. split; [done|]. intros d v Hv. exact Hv. Qed.

Lemma ijWorld15 : exists t, ijWorld HilbertKey Key32 t (arrays_ octree15) unitCube (view15 (5 # 4)%Q) particles15 h15 groups15 5 execution15.
Proof.
  destruct (searchWorld15 (5 # 4)%Q ltac:(vm_compute; congruence)) as (t & Hw & Hn). exists t. split.
  - exact Hw.
  - apply h15_nonneg.
  - vm_compute. repeat split; congruence.
  - lia.
  - vm_compute. congruence.
  - intros i p h _ _ _. unfold neighborsOf, searched. rewrite Hn. unfold zlen. eapply Z.le_trans; [apply inj_le, length_filter|]. vm_compute. congruence.
  - change (seqZ 0 (numBodies groups15)) with [0; 1; 2]. cbn [ex_build execution15]. etransitivity; [apply perm_swap|]. apply perm_skip, perm_swap.
  - vm_compute. congruence.
Qed.

Lemma ijLoop_strategies_agree_witness : exists t output', storedAt (referenceResult (t := t) (box := unitCube) (tree := view15 (5 # 4)%Q) (ps := particles15) h15 masses15 massKernel) [2; 0; 1] output15 output' /\
    (forall type d, supported type -> exists d1 d2, setType type d = Some d1 /\
      NeighborhoodData_build execution15 5 (view15 (5 # 4)%Q) unitCube (zlen particles15) groups15 (vx <$> particles15) (vy <$> particles15) (vz <$> particles15) h15 d1 = Some d2 /\
      NeighborhoodData_ijLoop execution15 [(1, 2); (0, 0); (0, 1)] d2 masses15 output15 massKernel = Some output') /\
    (forall type (d : NeighborhoodData Q), ~ supported type -> setType type d = None).
Proof.
  destruct ijWorld15 as [t Hw]. exists t.
  apply (ijLoop_strategies_agree HilbertKey Key32 t (arrays_ octree15) unitCube (view15 (5 # 4)%Q) particles15 h15 groups15 5 execution15 [(1, 2); (0, 0); (0, 1)] masses15 output15 massKernel Hw).
  - repeat (apply Forall_cons; split; [vm_compute; congruence|]). by apply Forall_nil.
  - apply massKernel_typed.
  - repeat (apply Forall_cons; split; [vm_compute; congruence|]). by apply Forall_nil.
  - split; [repeat (apply Forall_cons; split; [vm_compute; split; congruence|]); by apply Forall_nil|].
    intros i Hi. cbn in Hi. unfold inBodies. cbn. rewrite !elem_of_cons in Hi. destruct Hi as [->|[->|[->|Hi%not_elem_of_nil]]]; lia || done.
Defined.

(** C40: The neighbor list builder never prints its warning about missing neighbors: it takes the
    maximum of counts that are already limited to [ngmax], and then compares it with [ngmax].  A
    list with too many neighbors is cut off silently. *)
Theorem missing_neighbors_unreported s k t o box tree ps hs groups ngmax junk order :
  searchWorld s k t o box tree ps -> (forall j, 0 <= j < zlen ps -> exists h, loadAtIndexIfPtr hs j = Some h /\ (0 <= h)%Q) ->
  0 <= firstBody groups <= lastBody groups /\ lastBody groups <= zlen ps -> order ≡ₚ seqZ 0 (numBodies groups) -> 0 <= ngmax -> numBodies groups * ngmax <= 2 ^ 32 ->
  exists nb, fullNbList_build junk order ngmax tree box (zlen ps) groups (vx <$> ps) (vy <$> ps) (vz <$> ps) hs = Some (nb, false) /\
    forall i p h, 0 <= i < numBodies groups -> ps.[firstBody groups + i] = Some p -> loadAtIndexIfPtr hs (firstBody groups + i) = Some h ->
      ngmax < zlen (neighborsOf (t := t) (box := box) (tree := tree) (ps := ps) (firstBody groups + i) p (h * ns_searchExtFactor tree)%Q) -> (fl_neighborsCount nb).[i] = Some ngmax.
Proof.
  intros Hw Hh Hb Hord Hng Hidx. destruct (fullNbList_build_run Hw hs Hh junk order ngmax groups Hb Hord Hng Hidx) as (nb & E & Hbl). exists nb. split; [exact E|].
  intros i p h Hi Hp Hhi Hlost. destruct (bl_lists hs _ _ _ Hbl i p h Hi Hp Hhi) as [-> _]. f_equal. lia.
Qed.

Lemma missing_neighbors_unreported_witness : exists t nb,
  fullNbList_build (fun i => i) [0; 1; 2] 2 (view15 1%Q) unitCube (zlen particles15) groups15 (vx <$> particles15) (vy <$> particles15) (vz <$> particles15) h15 = Some (nb, false) /\
    forall i p h, 0 <= i < numBodies groups15 -> particles15.[firstBody groups15 + i] = Some p -> loadAtIndexIfPtr h15 (firstBody groups15 + i) = Some h ->
      2 < zlen (neighborsOf (t := t) (box := unitCube) (tree := view15 1%Q) (ps := particles15) (firstBody groups15 + i) p (h * ns_searchExtFactor (view15 1%Q))%Q) -> (fl_neighborsCount nb).[i] = Some 2.
Proof.
  destruct (searchWorld15 1%Q ltac:(apply Qle_refl)) as (t & Hw & _). exists t.
  apply (missing_neighbors_unreported HilbertKey Key32 t (arrays_ octree15) unitCube (view15 1%Q) particles15 h15 groups15 2 (fun i => i) [0; 1; 2] Hw h15_nonneg).
  - vm_compute. repeat split; congruence.
  - reflexivity.
  - lia.
  - vm_compute. congruence.
Defined.

(** Three neighbors are found for each of the particles, and two are listed. *)
Example lostNeighbors15 : (let? (nb, warning) := fullNbList_build (fun i => i) [0; 1; 2] 2 (view15 1%Q) unitCube (zlen particles15) groups15 (vx <$> particles15) (vy <$> particles15) (vz <$> particles15) h15 in
  Some (fl_neighborsCount nb, fl_neighbors nb, warning)) = Some ([2; 2; 2], [1; 2; 0; 2; 0; 1], false).
Proof. vm_compute. reflexivity. Qed.
