(* ===== verification/Treelets.v ===== *)
(** * Exchange of focus trees

    [cstone/focus/exchange_focus.hpp]: every rank sends the part of its focus tree that covers the
    domain of a peer to this peer (a treelet), the peer rejects the keys that its own tree does not
    have, and both remove the rejected keys; afterwards the nodes of the treelets identify the cells
    whose properties are exchanged.  As in [Exchange], messages are values and [arrivals] are the
    messages with their senders in the order in which they arrive. *)

From S2P Require Import Prelude Primitives SfcCommon Csarray CsInvariant CsCounts IndexRanges DomainDecomp Layout Octree FocusRebalance GlobalTree Exchange Distribute Halos Scalars Neighbors IjLoop.

(** ** Structure *)

(** The upper key of the last node is included. *)
Definition treeletFor (assignment : list IndexPair) (leaves : list Z) (peer : Z) : option (list Z) :=
  let? a := assignment.[peer] in
  let sendCount := count a + 1 in
  subspan leaves (start a) sendCount.

Fixpoint receiveTreelets (numMessages : nat) (arrivals : list (Z * list Z)) (treelets : list (list Z)) : option (list (list Z) * list (Z * list Z)) :=
  match numMessages with
  | O => Some (treelets, arrivals)
  | S numMessages =>
      match arrivals with
      | [] => None
      | (receiveRank, keys) :: arrivals =>
          let? treelets := aset treelets receiveRank keys in
          receiveTreelets numMessages arrivals treelets
      end
  end.

(** The sent messages, the treelets, and the messages that are left. *)
Definition exchangeTreelets (exteriorPeers interiorPeers : list Z) (assignment : list IndexPair) (leaves : list Z) (arrivals : list (Z * list Z))
    (treelets : list (list Z)) : option (list (Z * list Z) * list (list Z) * list (Z * list Z)) :=
  let? sent := mapM (fun peer => let? keys := treeletFor assignment leaves peer in Some (peer, keys)) exteriorPeers in
  let? (treelets, rest) := receiveTreelets (length interiorPeers) arrivals treelets in
  Some (sent, treelets, rest).

(** An update of the treelet of [rank]. *)
Definition updateTreeletOf (f : list Z -> option (list Z)) (rank : Z) (treelets : list (list Z)) : option (list (list Z)) :=
  let? treelet := treelets.[rank] in
  let? treelet := f treelet in
  aset treelets rank treelet.

Definition checkTreelet (k : KeyType) (leaves treelet : list Z) : option (list Z) :=
  for_loop 0 (nNodes treelet) (fun i treelet =>
    let? key := treelet.[i] in
    let? j := findNodeAbove leaves (nNodes leaves) key in
    let? leaf := leaves.[j] in
    if negb (key =? leaf) then aset treelet i (maskKey k key) else Some treelet) treelet.

Definition checkTreelets (k : KeyType) (peerRanks leaves : list Z) (treelets : list (list Z)) : option (list (list Z)) :=
  foldM (fun rank => updateTreeletOf (checkTreelet k leaves) rank) peerRanks treelets.

Definition pruneTreelets (k : KeyType) (interiorPeers : list Z) (treelets : list (list Z)) : option (list (list Z)) :=
  foldM (fun rank => updateTreeletOf (fun treelet => Some (filter (fun key => isMasked k key = false) treelet)) rank) interiorPeers treelets.

(** ** Rejected keys *)

Definition rejectedKeys (k : KeyType) (treelet : list Z) : option (list Z) :=
  for_loop 0 (nNodes treelet) (fun i rejected =>
    let? key := treelet.[i] in
    Some (if isMasked k key then rejected ++ [unmaskKey k key] else rejected)) [].

Definition removeKeys (leaves keys : list Z) (nodeOps : list Z) : option (list Z) :=
  foldM (fun key nodeOps =>
    let? ki := findNodeAbove leaves (zlen leaves) key in
    aset nodeOps ki 0) keys nodeOps.

Fixpoint receiveRejected (numMessages : nat) (leaves : list Z) (arrivals : list (Z * list Z)) (nodeOps : list Z) : option (list Z * list (Z * list Z)) :=
  match numMessages with
  | O => Some (nodeOps, arrivals)
  | S numMessages =>
      match arrivals with
      | [] => None
      | (_, recvKeys) :: arrivals =>
          let? nodeOps := removeKeys leaves recvKeys nodeOps in
          receiveRejected numMessages leaves arrivals nodeOps
      end
  end.

Definition exchangeRejectedKeys (k : KeyType) (interiorPeers exteriorPeers leaves : list Z) (treelets : list (list Z)) (arrivals : list (Z * list Z)) (nodeOps : list Z) :
    option (list (Z * list Z) * list Z * list (Z * list Z)) :=
  let? sent := mapM (fun peer => let? treelet := treelets.[peer] in let? keys := rejectedKeys k treelet in Some (peer, keys)) interiorPeers in
  let? (nodeOps, rest) := receiveRejected (length exteriorPeers) leaves arrivals nodeOps in
  Some (sent, nodeOps, rest).

(** ** Synchronization *)

(** The part of [syncTreelets] after the communication. *)
Definition applyRejections (k : KeyType) (octree : OctreeData) (leaves nodeOps : list Z) : option (OctreeData * list Z) :=
  if negb (zlen (filter (fun op => op = 1) nodeOps) =? zlen nodeOps) then
    let a := arrays octree in
    let? (newLeaves, _) := rebalanceTree k leaves (prefixes a) nodeOps in
    let octree := mkOctreeData (numNodes octree) (numLeafNodes octree) (numInternalNodes octree)
      (mkOctreeArrays leaves (childOffsets a) (parents a) (levelRange a) (internalToLeaf a) (leafToInternal a)) in
    let? octree := updateInternalTree k newLeaves (OctreeData_resize k octree (nNodes newLeaves)) in
    Some (octree, newLeaves)
  else Some (octree, leaves).

(** [treeletArrivals] and [rejectArrivals] are the messages of the two exchanges.  The result holds
    the sent messages, the tree, the treelets, and the messages that are left. *)
Definition syncTreelets (k : KeyType) (exteriorPeers interiorPeers : list Z) (assignment : list IndexPair) (octree : OctreeData) (leaves : list Z)
    (treelets : list (list Z)) (treeletArrivals rejectArrivals : list (Z * list Z)) :
    option (list (Z * list Z) * list (Z * list Z) * (OctreeData * list Z * list (list Z)) * (list (Z * list Z) * list (Z * list Z))) :=
  let? (sentTreelets, treelets, rest1) := exchangeTreelets exteriorPeers interiorPeers assignment leaves treeletArrivals treelets in
  let? treelets := checkTreelets k interiorPeers leaves treelets in
  let nodeOps := replicate (length leaves) 1 in
  let? (sentKeys, nodeOps, rest2) := exchangeRejectedKeys k interiorPeers exteriorPeers leaves treelets rejectArrivals nodeOps in
  let? treelets := pruneTreelets k interiorPeers treelets in
  let? (octree, leaves) := applyRejections k octree leaves nodeOps in
  Some (sentTreelets, sentKeys, (octree, leaves, treelets), (rest1, rest2)).

(** ** Indices *)

Definition extractNumNodes (vov : list (list Z)) : list Z := (fun v => if bool_decide (v = []) then 0 else nNodes v) <$> vov.

(** The segments of [treeletIdx] are views of memory that holds [junk]. *)
Definition indexTreelet (k : KeyType) (nodeKeys levelRange treelet tlIdx : list Z) : option (list Z) :=
  for_loop 0 (nNodes treelet) (fun i tlIdx =>
    let? k1 := treelet.[i] in
    let? k2 := treelet.[i + 1] in
    let? node := locateNodeKeys k k1 k2 nodeKeys levelRange in
    if node <? zlen nodeKeys then aset tlIdx i node else None) tlIdx.

Definition indexTreelets (k : KeyType) (junk : Z -> Z) (peerRanks nodeKeys levelRange : list Z) (treelets : list (list Z)) : option (list (list Z)) :=
  let treeletIdx := make_unique_for_overwrite junk <$> extractNumNodes treelets in
  foldM (fun rank treeletIdx =>
    let? treelet := treelets.[rank] in
    updateTreeletOf (indexTreelet k nodeKeys levelRange treelet) rank treeletIdx) peerRanks treeletIdx.

(** ** Cell properties *)

(** [leafToInternal(octree)]: the nodes of the leaves. *)
Definition leafToInternalSpan (octree : OctreeData) : list Z := take (Z.to_nat (numLeafNodes octree)) (drop (Z.to_nat (numInternalNodes octree)) (leafToInternal (arrays octree))).

Section General.
Context {Q : Type} (zero : Q).

(** [sendBuffers] hold zeros before the gather. *)
Definition sendTreelet (treeletIdx : list (list Z)) (quantities : list Q) (peer : Z) : option (Z * list Q) :=
  let? idx := treeletIdx.[peer] in
  let? buffer := gather idx quantities (replicate (length idx) zero) in
  Some (peer, buffer).

(** A message that is longer than its buffer is [None]. *)
Fixpoint receiveCells (numMessages : nat) (focusAssignment : list IndexPair) (csToInternalMap : list Z) (arrivals : list (Z * list Q)) (quantities : list Q) :
    option (list Q * list (Z * list Q)) :=
  match numMessages with
  | O => Some (quantities, arrivals)
  | S numMessages =>
      match arrivals with
      | [] => None
      | (recvRank, data) :: arrivals =>
          let? a := focusAssignment.[recvRank] in
          let recvCount := zlen data in
          if count a <? recvCount then None
          else
            let? mapToInternal := subspan csToInternalMap (start a) recvCount in
            let? quantities := scatter mapToInternal data quantities in
            receiveCells numMessages focusAssignment csToInternalMap arrivals quantities
      end
  end.

Definition exchangeTreeletGeneral (interiorPeers exteriorPeers : list Z) (treeletIdx : list (list Z)) (focusAssignment : list IndexPair) (csToInternalMap : list Z)
    (arrivals : list (Z * list Q)) (quantities : list Q) : option (list (Z * list Q) * list Q * list (Z * list Q)) :=
  let? sent := mapM (sendTreelet treeletIdx quantities) interiorPeers in
  let? (quantities, rest) := receiveCells (length exteriorPeers) focusAssignment csToInternalMap arrivals quantities in
  Some (sent, quantities, rest).

End General.
