(* ===== verification/TreeletSync.v ===== *)
(** * Synchronized focus trees

    Lemmas on [cstone/focus/exchange_focus.hpp]: removing the keys that the owner of a range does
    not have leaves a cornerstone tree, and the treelets that the owner keeps are the parts of the
    remaining trees. *)

From S2P Require Import Prelude Primitives SfcCommon Csarray CsInvariant CsRebalance CsCounts CsBuild Octree OctreeNodes OctreeBuild OctreeQueries IndexRanges DomainDecomp Layout FocusRebalance GlobalTree Exchange Distribute Halos HaloExchange NodeLookup Scalars Neighbors IjLoop Treelets.

(** ** Common keys of two trees *)

(** The node that starts at key number [i] of a tree. *)
Lemma cs_next k T i x : csTree k T -> T.[i] = Some x -> x < keyMax k -> exists y, T.[i + 1] = Some y /\ isNode k x y.
Proof.
  intros Hcs Hx Hlt. pose proof (aget_Some_range _ _ _ Hx) as Hi. assert (i < zlen T - 1).
  { pose proof (treelet_last _ _ _ _ Hcs) as Hl. destruct (decide (i = zlen T - 1)) as [->|]; [|lia]. rewrite Hx in Hl. injection Hl as ->. lia. }
  destruct (aget_is_Some T (i + 1) ltac:(lia)) as [y Hy]. exists y. split; [done|]. pose proof (treelet_isNode _ _ _ _ i Hcs ltac:(lia)) as Hn.
  by rewrite (nthz_Some _ _ _ Hx), (nthz_Some _ _ _ Hy) in Hn.
Qed.

Lemma cs_lt k T i j x y : csTree k T -> T.[i] = Some x -> T.[j] = Some y -> x < y <-> i < j.
Proof.
  intros Hcs Hx Hy. pose proof (cs_position k T i x Hcs Hx) as Ei. pose proof (cs_position k T j y Hcs Hy) as Ej. pose proof (cs_sorted k T Hcs) as Hs. split; intros H.
  - destruct (Z.lt_ge_cases i j) as [|Hge]; [done|]. pose proof (Hs j i y x Hge Hy Hx). lia.
  - destruct (Z.lt_ge_cases x y) as [|Hge]; [done|]. pose proof (Hs i j x y ltac:(lia) Hx Hy). assert (x = y) by lia. subst y. lia.
Qed.

Lemma cs_elem_range k T x : csTree k T -> x ∈ T -> 0 <= x <= keyMax k.
Proof.
  intros Hcs [i Hi]%elem_aget. pose proof (aget_Some_range _ _ _ Hi). pose proof (treelet_first _ _ _ _ Hcs) as H0. pose proof (treelet_last _ _ _ _ Hcs) as Hl. pose proof (cs_sorted k T Hcs) as Hs.
  split; [apply (Hs 0 i); [lia|done|done]|apply (Hs i (zlen T - 1)); [lia|done|done]].
Qed.

(** No key lies strictly between two neighbors. *)
Lemma cs_gap k T i x y z : csTree k T -> T.[i] = Some x -> T.[i + 1] = Some y -> z ∈ T -> z <= x \/ y <= z.
Proof.
  intros Hcs Hx Hy [j Hj]%elem_aget. pose proof (cs_sorted k T Hcs) as Hs. destruct (Z.le_gt_cases j i); [left; by apply (Hs j i)|right; apply (Hs (i + 1) j); [lia|done|done]].
Qed.

(** A node that is subdivided by a tree ends at a key of the tree. *)
Lemma cs_node_end k T i x y z : csTree k T -> T.[i] = Some x -> T.[i + 1] = Some y -> isNode k x z -> y <= z -> z ∈ T.
Proof.
  intros Hcs Hx Hy (n & Hn & H0 & Hdiv & -> & Hmax) Hyz. pose proof (pow8_pos n ltac:(lia)). pose proof (treelet_last _ _ _ _ Hcs) as Hl.
  destruct (decide (x + 8 ^ n = keyMax k)) as [->|Hne]; [by eapply aget_elem|].
  pose proof (treelet_nonempty _ _ _ _ Hcs). pose proof (cs_nodes k _ Hcs) as HN.
  destruct (nodes_locate k (nNodes T) (nthz T) ltac:(pose proof (aget_Some_range _ _ _ Hy); pose proof (aget_Some_range _ _ _ Hx); unfold nNodes; lia) HN) with (x := x + 8 ^ n) as (j & Hj & Hloc);
    [apply nthz_Some, (treelet_first _ _ _ _ Hcs)|apply nthz_Some; exact Hl|lia|].
  unfold nNodes in *. pose proof (nthz_get T j ltac:(lia)) as Ej. pose proof (nthz_get T (j + 1) ltac:(lia)) as Ej1. set (u := nthz T j) in *. set (v := nthz T (j + 1)) in *.
  destruct (decide (u = x + 8 ^ n)) as [<-|Hu]; [by eapply aget_elem|]. exfalso.
  assert (Hxu : x < u). { destruct (cs_gap k T j u v x Hcs Ej Ej1 ltac:(by eapply aget_elem)) as [Hle|]; [|lia]. destruct (decide (x = u)) as [E|]; [|lia].
    assert (i = j) as <- by (rewrite <- (cs_position k T i x Hcs Hx), <- (cs_position k T j u Hcs Ej); by f_equal). rewrite Hy in Ej1. injection Ej1 as Ev. lia. }
  destruct (HN j Hj) as (m & Hm & Hu0 & Hdu & Ev & _). fold u v in Hdu, Ev. pose proof (pow8_pos m ltac:(lia)). destruct (Z.le_gt_cases n m) as [Hnm|Hmn].
  - pose proof (multiples_apart (8 ^ n) x u ltac:(lia) Hdiv (pow8_divide_trans n m u ltac:(lia) Hdu) Hxu). lia.
  - assert (Hd : (8 ^ m | x + 8 ^ n)) by (apply Z.divide_add_r; [by apply (pow8_divide_trans m n); [lia|]|apply pow8_divide; lia]).
    pose proof (multiples_apart (8 ^ m) u (x + 8 ^ n) ltac:(lia) Hdu Hd ltac:(lia)). lia.
Qed.

Lemma cs_chain_bounds k a l b : cs_chain k a l b -> a <= b /\ Forall (fun x => a <= x < b) l.
Proof.
  induction 1 as [|a c l b Hn _ [IH1 IH2]]; [split; [lia|constructor]|]. apply isNode_lt in Hn. split; [lia|]. constructor; [lia|]. eapply Forall_impl; [exact IH2|]. simpl. lia.
Qed.

(** A chain is cut at one of its keys. *)
Lemma cs_chain_split k a l b y : cs_chain k a l b -> y ∈ l \/ y = b -> a < y -> exists l1 l2, l = a :: l1 ++ l2 /\ Forall (fun z => a < z < y) l1 /\ cs_chain k y l2 b /\ (length l2 < length l)%nat.
Proof.
  induction 1 as [|a c l b Hn Hc IH]; intros Hy Hlt; [destruct Hy as [?%not_elem_of_nil|]; [done|lia]|].
  assert (Hy' : y ∈ l \/ y = b) by (destruct Hy as [[->|]%elem_of_cons|]; [lia|by left|by right]). pose proof (isNode_lt _ _ _ Hn). destruct (decide (c = y)) as [->|Hne].
  - exists [], l. split; [done|]. split; [constructor|]. split; [done|]. simpl. lia.
  - pose proof (cs_chain_bounds _ _ _ _ Hc) as [Hcb Hall]. assert (c < y) by (destruct Hy' as [Hin|]; [rewrite Forall_forall in Hall; specialize (Hall y Hin); lia|lia]).
    destruct (IH Hy' ltac:(lia)) as (l1 & l2 & -> & H1 & H2 & H3). exists (c :: l1), l2. split; [done|]. split; [|split; [done|simpl in *; lia]].
    constructor; [lia|]. eapply Forall_impl; [exact H1|]. simpl. lia.
Qed.

(** Removing keys from a chain such that the remaining ones still bound nodes. *)
Lemma cs_chain_coarsen k (keep : Z -> bool) b n : forall l a, (length l <= n)%nat -> cs_chain k a l b ->
  (forall x, x ∈ l -> keep x = true -> exists y, isNode k x y /\ (y ∈ l \/ y = b) /\ (y = b \/ keep y = true) /\ forall z, z ∈ l -> x < z < y -> keep z = false) ->
  (a = b \/ keep a = true) -> cs_chain k a (filter (fun x => keep x = true) l) b.
Proof.
  induction n as [|n IH]; intros l a Hlen Hc Hnext Ha; inversion Hc as [|? c l' ? Hn Hc' E1 E2]; subst; try (simpl in Hlen; lia); try constructor.
  pose proof (isNode_lt _ _ _ Hn). pose proof (cs_chain_bounds _ _ _ _ Hc') as [Hcb _]. destruct Ha as [|Ha]; [lia|].
  destruct (Hnext a ltac:(by left) Ha) as (y & Hay & Hy & Hky & Hz). pose proof (isNode_lt _ _ _ Hay). destruct (cs_chain_split k a (a :: l') b y Hc Hy ltac:(lia)) as (l1 & l2 & E & H1 & H2 & H3).
  rewrite E in *. rewrite filter_cons_True by done. rewrite filter_app. assert (Hnone : filter (fun x => keep x = true) l1 = []).
  { apply filter_none. rewrite Forall_forall in H1 |- *. intros z Hz1. rewrite (Hz z); [done|right; apply elem_of_app; by left|by apply H1]. }
  rewrite Hnone. cbn [app]. apply chain_cons with (b := y); [done|]. apply IH; [simpl in *; rewrite ?length_app in *; lia|done| |].
  - intros x Hx Hkx. destruct (Hnext x) as (w & Hw1 & Hw2 & Hw3 & Hw4); [right; apply elem_of_app; by right|done|]. exists w. split; [done|]. split; [|split; [done|intros z Hz2; apply Hw4; right; apply elem_of_app; by right]].
    destruct Hw2 as [Hw2|]; [|by right]. left. apply elem_of_cons in Hw2 as [->|Hw2]; [|apply elem_of_app in Hw2 as [Hw2|]; [|done]].
    + pose proof (proj2 (cs_chain_bounds _ _ _ _ H2)) as Hb2. rewrite Forall_forall in Hb2. specialize (Hb2 x Hx). apply isNode_lt in Hw1. lia.
    + pose proof (proj2 (cs_chain_bounds _ _ _ _ H2)) as Hb2. rewrite Forall_forall in Hb2, H1. specialize (Hb2 x Hx). specialize (H1 w Hw2). apply isNode_lt in Hw1. lia.
  - destruct Hky; [by left|by right].
Qed.

(** ** Removing what the owners do not have *)

(** A part of a tree: the keys [lo, hi) are owned by a rank with the tree [owner]. *)
Record TreePart := mkTreePart { tp_lo : Z; tp_hi : Z; tp_owner : list Z }.

Section Coarsen.
Context (k : KeyType) (T : list Z) (parts : list TreePart).

Definition rejectedBy (P : TreePart) (x : Z) : bool := (tp_lo P <=? x) && (x <? tp_hi P) && bool_decide (x ∉ tp_owner P).
Definition keepKey (x : Z) : bool := forallb (fun P => negb (rejectedBy P x)) parts.

(** The bounds of a part are keys of both trees. *)
Definition partOf (P : TreePart) : Prop := csTree k (tp_owner P) /\ tp_lo P ∈ T /\ tp_hi P ∈ T /\ tp_lo P <= tp_hi P /\ tp_lo P ∈ tp_owner P /\ tp_hi P ∈ tp_owner P.

Hypothesis HT : csTree k T.
Hypothesis Hparts : forall P, P ∈ parts -> partOf P.
Hypothesis Hdisjoint : forall P P', P ∈ parts -> P' ∈ parts -> P = P' \/ tp_hi P <= tp_lo P' \/ tp_hi P' <= tp_lo P.

Lemma rejectedBy_iff P x : rejectedBy P x = true <-> tp_lo P <= x < tp_hi P /\ x ∉ tp_owner P.
Proof using. unfold rejectedBy. rewrite !andb_true_iff, Z.leb_le, Z.ltb_lt, bool_decide_eq_true. tauto. Qed.

Lemma keepKey_iff x : keepKey x = true <-> forall P, P ∈ parts -> tp_lo P <= x < tp_hi P -> x ∈ tp_owner P.
Proof using.
  unfold keepKey. rewrite forallb_forall. split.
  - intros H P HP Hx. specialize (H P ltac:(by apply list_elem_of_In)). rewrite negb_true_iff in H. destruct (decide (x ∈ tp_owner P)); [done|]. exfalso.
    assert (rejectedBy P x = true) by by apply rejectedBy_iff. congruence.
  - intros H P HP%list_elem_of_In. apply negb_true_iff, not_true_iff_false. rewrite rejectedBy_iff. intros [Hx Hni]. by apply Hni, H.
Qed.

(** A key of a part that the owner has is kept, also the upper bound. *)
Lemma keepKey_part P x : P ∈ parts -> tp_lo P <= x <= tp_hi P -> x ∈ tp_owner P -> keepKey x = true.
Proof using Hparts Hdisjoint.
  intros HP Hx Ho. apply keepKey_iff. intros P' HP' Hx'. destruct (Hdisjoint P P' HP HP') as [<-|[H|H]]; [done| |lia].
  assert (x = tp_lo P') as -> by lia. by destruct (Hparts P' HP') as (_ & _ & _ & _ & ? & _).
Qed.

Lemma keepKey_bounds : keepKey 0 = true /\ keepKey (keyMax k) = true.
Proof using HT Hparts.
  split; apply keepKey_iff; intros P HP Hx; destruct (Hparts P HP) as (Ho & _ & Hhi & _).
  - eapply aget_elem, treelet_first, Ho.
  - pose proof (cs_elem_range k T _ HT Hhi). lia.
Qed.

(** The next kept key bounds a node. *)
Lemma kept_next x : x ∈ T -> x < keyMax k -> keepKey x = true ->
  exists y, isNode k x y /\ y ∈ T /\ keepKey y = true /\ forall z, z ∈ T -> x < z < y -> keepKey z = false.
Proof using HT Hparts Hdisjoint.
  intros Hx Hlt Hk. destruct (elem_aget _ _ Hx) as [i Hi]. destruct (cs_next k T i x HT Hi Hlt) as (x1 & Hi1 & Hn1). pose proof (isNode_lt _ _ _ Hn1) as Hlt1.
  assert (Hgap : forall z, z ∈ T -> x < z < x1 -> keepKey z = false) by (intros z Hz Hzx; destruct (cs_gap k T i x x1 z HT Hi Hi1 Hz); lia).
  assert (Hin1 : x1 ∈ T) by by eapply aget_elem.
  destruct (decide (Exists (fun P => tp_lo P <= x < tp_hi P) parts)) as [(P & HP & HPx)%Exists_exists|Hnone].
  - destruct (Hparts P HP) as (Ho & Hlo & Hhi & _ & Holo & Hohi). pose proof (proj1 (keepKey_iff x) Hk P HP HPx) as Hxo. destruct (elem_aget _ _ Hxo) as [j Hj].
    destruct (cs_next k (tp_owner P) j x Ho Hj Hlt) as (x2 & Hj2 & Hn2). pose proof (isNode_lt _ _ _ Hn2) as Hlt2.
    assert (Hx2 : x2 <= tp_hi P) by (destruct (cs_gap k (tp_owner P) j x x2 _ Ho Hj Hj2 Hohi); lia).
    assert (Hx1 : x1 <= tp_hi P) by (destruct (cs_gap k T i x x1 _ HT Hi Hi1 Hhi); lia).
    destruct (Z.le_gt_cases x1 x2) as [H12|H21].
    + exists x2. split; [done|]. split; [by apply (cs_node_end k T i x x1)|]. split; [apply (keepKey_part P); [done|lia|by eapply aget_elem]|].
      intros z Hz Hzx. apply not_true_iff_false. intros Hkz. pose proof (proj1 (keepKey_iff z) Hkz P HP ltac:(lia)) as Hzo. destruct (cs_gap k (tp_owner P) j x x2 z Ho Hj Hj2 Hzo); lia.
    + exists x1. split; [done|]. split; [done|]. split; [|done]. apply (keepKey_part P); [done|lia|]. apply (cs_node_end k (tp_owner P) j x x2); [done|done|done|done|lia].
  - exists x1. split; [done|]. split; [done|]. split; [|done]. apply keepKey_iff. intros P HP HPx1. destruct (Hparts P HP) as (_ & Hlo & _ & _ & Holo & _).
    destruct (cs_gap k T i x x1 _ HT Hi Hi1 Hlo) as [Hle|Hge]; [|by assert (x1 = tp_lo P) as -> by lia]. exfalso. apply Hnone, Exists_exists. exists P. split; [done|lia].
Qed.

(** The tree without the rejected keys is a cornerstone tree. *)
Lemma kept_csTree : csTree k (filter (fun x => keepKey x = true) T).
Proof using HT Hparts Hdisjoint.
  pose proof HT as (l & El & Hc). assert (Hall : Forall (fun x => 0 <= x < keyMax k) l) by apply (cs_chain_bounds _ _ _ _ Hc). rewrite Forall_forall in Hall.
  exists (filter (fun x => keepKey x = true) l). split; [rewrite El, filter_app; f_equal; rewrite filter_cons_True by apply keepKey_bounds; done|].
  apply (cs_chain_coarsen k keepKey (keyMax k) (length l)); [done|done| |right; apply keepKey_bounds].
  intros x Hx Hkx. destruct (kept_next x) as (y & H1 & H2 & H3 & H4); [rewrite El; apply elem_of_app; by left|by apply Hall|done|].
  exists y. split; [done|]. split; [|split; [by right|intros z Hz; apply H4; rewrite El; apply elem_of_app; by left]].
  rewrite El in H2. apply elem_of_app in H2 as [|H2%list_elem_of_singleton]; [by left|by right].
Qed.

End Coarsen.

(** ** The functions on one rank *)

(** A loop that replaces the elements of [l] one after the other. *)
Lemma in_place_loop {A} (f : A -> A) (body : Z -> list A -> option (list A)) (l rest : list A) :
  (forall pre x post, x ∈ l -> body (zlen pre) (pre ++ x :: post) = Some (pre ++ f x :: post)) -> for_loop 0 (zlen l) body (l ++ rest) = Some ((f <$> l) ++ rest).
Proof.
  assert (Hgen : forall l pre, (forall pre x post, x ∈ l -> body (zlen pre) (pre ++ x :: post) = Some (pre ++ f x :: post)) ->
    for_loop (zlen pre) (zlen pre + zlen l) body (pre ++ l ++ rest) = Some (pre ++ (f <$> l) ++ rest)).
  { clear l. induction l as [|x l IH]; intros pre H; [apply for_loop_nil; unfold zlen; simpl; lia|]. rewrite zlen_cons. pose proof (zlen_nonneg l). rewrite for_loop_cons by lia. cbn [app].
    rewrite H by by left. cbn beta iota. rewrite fmap_cons. cbn [app]. change (pre ++ f x :: l ++ rest) with (pre ++ [f x] ++ l ++ rest). change (pre ++ f x :: (f <$> l) ++ rest) with (pre ++ [f x] ++ (f <$> l) ++ rest).
    rewrite !(app_assoc pre [f x]). rewrite <- (IH (pre ++ [f x])); [|intros; apply H; by right]. rewrite zlen_app. change (zlen [f x]) with 1. f_equal; lia. }
  intros H. apply (Hgen l [] H).
Qed.

Lemma nNodes_snoc (l : list Z) (b : Z) : nNodes (l ++ [b]) = zlen l.
Proof. unfold nNodes. rewrite zlen_app. change (zlen [b]) with 1. lia. Qed.

(** ** Masks *)

Lemma mask_facts k x : 0 < x < keyMax k -> isMasked k (maskKey k x) = true /\ unmaskKey k (maskKey k x) = x.
Proof.
  intros Hx. assert (Hr : nodeRange k 0 = keyMax k) by by destruct k. assert (Hp : exists n, 0 <= n /\ keyMax k = 2 ^ n) by (destruct k; [exists 30|exists 63]; done). destruct Hp as (n & Hn & En).
  assert (Hland : Z.land x (2 ^ n) = 0).
  { apply Z.bits_inj'. intros m Hm. rewrite Z.land_spec, Z.bits_0, Z.pow2_bits_eqb by lia. destruct (Z.eqb_spec n m) as [<-|]; [|apply andb_false_r]. rewrite andb_true_r. apply Z.bits_above_log2; [lia|]. apply Z.log2_lt_pow2; lia. }
  assert (Hlor : Z.lor x (2 ^ n) = x + 2 ^ n) by (pose proof (Z.add_lor_land x (2 ^ n)); lia).
  unfold maskKey, isMasked, unmaskKey. rewrite Hr, En in *. destruct (Z.eqb_spec x 0); [lia|]. destruct (Z.eqb_spec x (2 ^ n)); [lia|]. cbn [orb]. rewrite Hlor. split; [apply Z.ltb_lt; lia|].
  destruct (Z.eqb_spec (x + 2 ^ n) (2 ^ n)); [lia|]. rewrite kwrap_small by (rewrite <- En; destruct k; vm_compute; intuition congruence).
  replace (2 ^ n - 1) with (Z.ones n) by (rewrite Z.ones_equiv; lia). rewrite Z.land_ones by lia. replace (x + 2 ^ n) with (x + 1 * 2 ^ n) by lia. rewrite Z.mod_add by lia. apply Z.mod_small. lia.
Qed.

Lemma unmasked_key k x : x <= keyMax k -> isMasked k x = false.
Proof. intros Hx. unfold isMasked. assert (nodeRange k 0 = keyMax k) as -> by by destruct k. by apply Z.ltb_ge. Qed.

Section OneRank.
Context (k : KeyType) (O : list Z).
Hypothesis HO : csTree k O.

Definition markKey (x : Z) : Z := if bool_decide (x ∈ O) then x else maskKey k x.

Lemma findNodeAbove_key x : 0 <= x < keyMax k -> exists j v, findNodeAbove O (nNodes O) x = Some j /\ O.[j] = Some v /\ (v = x <-> x ∈ O).
Proof using HO.
  intros Hx. pose proof (cs_sorted k O HO) as Hs. pose proof (treelet_last _ _ _ _ HO) as Hl. pose proof (treelet_nonempty _ _ _ _ HO) as Hne.
  assert (Hc : 0 <= count_lt x O <= nNodes O). { pose proof (count_lt_range x O). unfold nNodes. pose proof (count_lt_le O Hs (zlen O - 1) (keyMax k) x Hl ltac:(lia)). lia. }
  unfold findNodeAbove. rewrite (lower_bound_within O Hs 0 (nNodes O) x) by (unfold nNodes in *; lia). destruct (aget_is_Some O (count_lt x O) ltac:(unfold nNodes in *; lia)) as [v Hv].
  exists (count_lt x O), v. split; [done|]. split; [done|]. split; [intros <-; by eapply aget_elem|]. intros [j Hj]%elem_aget. rewrite (cs_position k O j x HO Hj) in Hv. congruence.
Qed.

Lemma checkTreelet_run l b : Forall (fun x => 0 <= x < keyMax k) l -> checkTreelet k O (l ++ [b]) = Some ((markKey <$> l) ++ [b]).
Proof using HO.
  intros Hl. rewrite Forall_forall in Hl. unfold checkTreelet. rewrite nNodes_snoc. apply in_place_loop. intros pre x post Hx. rewrite aget_middle. cbn beta iota.
  destruct (findNodeAbove_key x (Hl x Hx)) as (j & v & -> & -> & Hv). cbn beta iota. unfold markKey. destruct (Z.eqb_spec x v) as [E|Hne]; cbn [negb].
  - rewrite bool_decide_eq_true_2 by by apply Hv. done.
  - rewrite bool_decide_eq_false_2 by (intros Hin; apply Hne; symmetry; by apply Hv). apply aset_middle.
Qed.

Lemma markKey_masked x : 0 <= x < keyMax k -> isMasked k (markKey x) = negb (bool_decide (x ∈ O)) /\ (x ∉ O -> unmaskKey k (markKey x) = x) /\ (x ∈ O -> markKey x = x).
Proof using HO.
  intros Hx. unfold markKey. case_bool_decide as Hin; cbn [negb]; [split; [apply unmasked_key; lia|done]|].
  assert (x <> 0) by (intros ->; apply Hin; eapply aget_elem, treelet_first, HO). destruct (mask_facts k x ltac:(lia)). done.
Qed.

Lemma rejectedKeys_run l b : Forall (fun x => 0 <= x < keyMax k) l -> rejectedKeys k ((markKey <$> l) ++ [b]) = Some (filter (fun x => x ∉ O) l).
Proof using HO.
  intros Hl. unfold rejectedKeys. rewrite nNodes_snoc, zlen_map. rewrite (for_loop_list l _ (fun x r => Some (if bool_decide (x ∈ O) then r else r ++ [x])) []).
  - assert (Hgen : forall l r, foldM (fun x r => Some (if bool_decide (x ∈ O) then r else r ++ [x])) l r = Some (r ++ filter (fun x => x ∉ O) l)); [|apply Hgen].
    clear Hl l. induction l as [|x l IH]; intros r; cbn [foldM]; [by rewrite app_nil_r|]. rewrite IH, filter_cons. case_bool_decide; [by rewrite decide_False by tauto|]. rewrite decide_True by done. by rewrite <- app_assoc.
  - intros n x r Hx. rewrite Forall_forall in Hl. specialize (Hl x (aget_elem _ _ _ Hx)). destruct (markKey_masked x Hl) as (Hm & Hu & _). pose proof (aget_Some_range _ _ _ Hx).
    rewrite aget_app_l by (rewrite zlen_map; lia). rewrite aget_map, Hx. cbn [fmap option_fmap option_map]. rewrite Hm. case_bool_decide; cbn [negb]; [done|]. by rewrite Hu.
Qed.

Lemma pruned_run l b : Forall (fun x => 0 <= x < keyMax k) l -> b <= keyMax k ->
  filter (fun key => isMasked k key = false) ((markKey <$> l) ++ [b]) = filter (fun x => x ∈ O) l ++ [b].
Proof using HO.
  intros Hl Hb. rewrite filter_app. rewrite filter_cons_True by by apply unmasked_key. f_equal. induction Hl as [|x l Hx _ IH]; [done|]. rewrite fmap_cons, !filter_cons. destruct (markKey_masked x Hx) as (Hm & _ & He). rewrite IH.
  destruct (decide (x ∈ O)) as [Hin|Hni].
  - rewrite bool_decide_eq_true_2 in Hm by done. rewrite decide_True by done. by rewrite He.
  - rewrite bool_decide_eq_false_2 in Hm by done. rewrite decide_False; [done|]. by rewrite Hm.
Qed.

End OneRank.

(** ** Rejected keys on the receiving rank *)

Section Rejections.
Context (k : KeyType) (T : list Z).
Hypothesis HT : csTree k T.

(** The node operations that remove the keys [D]. *)
Definition removeOps (D : list Z) : list Z := (fun x => if bool_decide (x ∈ D) then 0 else 1) <$> T.

Lemma removeKeys_run keys : forall D, (forall x, x ∈ keys -> x ∈ T) -> removeKeys T keys (removeOps D) = Some (removeOps (D ++ keys)).
Proof using HT.
  unfold removeKeys. induction keys as [|x keys IH]; intros D Hin; cbn [foldM]; [by rewrite app_nil_r|]. destruct (elem_aget T x (Hin x ltac:(by left))) as [i Hi]. pose proof (aget_Some_range _ _ _ Hi).
  pose proof (cs_sorted k T HT) as Hs. pose proof (cs_position k T i x HT Hi) as Hc. unfold findNodeAbove. rewrite (lower_bound_within T Hs 0 (zlen T) x) by lia. cbn beta iota. rewrite Hc.
  assert (Hr : 0 <= i < zlen (removeOps D)) by (unfold removeOps; by rewrite zlen_map). assert (Es : aset (removeOps D) i 0 = Some (removeOps (D ++ [x]))).
  { rewrite aset_Some by done. f_equal. apply list_eq_aget; [unfold zlen, removeOps; by rewrite length_insert, !length_fmap|]. intros j Hj. pose proof (aset_Some (removeOps D) i 0 Hr) as Ea.
    destruct (decide (i = j)) as [<-|Hne].
    - rewrite (aget_aset_eq _ _ _ _ Ea). unfold removeOps. rewrite aget_map, Hi. cbn. rewrite bool_decide_eq_true_2; [done|]. apply elem_of_app. right. by apply list_elem_of_singleton.
    - rewrite (aget_aset_ne _ _ _ _ _ Ea) by done. unfold removeOps. rewrite !aget_map. destruct (T.[j]) as [y|] eqn:Ey; [|done]. cbn. assert (bool_decide (y ∈ D) = bool_decide (y ∈ D ++ [x])) as ->; [|done]. apply bool_decide_ext. rewrite elem_of_app, list_elem_of_singleton.
      split; [tauto|]. intros [?| ->]; [done|]. pose proof (cs_position k T j x HT Ey). lia. }
  rewrite Es. rewrite IH by (intros; apply Hin; by right). by rewrite <- app_assoc.
Qed.

Lemma receiveRejected_run arrivals : forall D, (forall x, x ∈ (arrivals ≫= snd) -> x ∈ T) ->
  receiveRejected (length arrivals) T arrivals (removeOps D) = Some (removeOps (D ++ (arrivals ≫= snd)), []).
Proof using HT.
  induction arrivals as [|[q keys] arrivals IH]; intros D Hin; [cbn; by rewrite app_nil_r|]. cbn [length receiveRejected]. rewrite bind_cons in *. cbn [snd] in *.
  rewrite removeKeys_run by (intros; apply Hin, elem_of_app; by left). cbn beta iota. rewrite IH by (intros; apply Hin, elem_of_app; by right). by rewrite <- app_assoc.
Qed.

Lemma newLeaves_remove (D l : list Z) b : newLeaves (l ++ [b]) ((fun x => if bool_decide (x ∈ D) then 0 else 1) <$> l) 0 (zlen l) = filter (fun x => x ∉ D) l.
Proof using.
  unfold newLeaves. rewrite Z.sub_0_r. assert (Hgen : forall l', concat ((fun x => if bool_decide (x ∈ D) then [] else [x]) <$> l') = filter (fun x => x ∉ D) l').
  { intros l'. induction l' as [|x l' IH]; [done|]. cbn [fmap list_fmap concat]. rewrite filter_cons. fold (fmap (M := list) (fun x => if bool_decide (x ∈ D) then [] else [x]) l'). rewrite IH. case_bool_decide; [by rewrite decide_False by tauto|by rewrite decide_True]. }
  rewrite <- (Hgen l). f_equal. pose proof (zlen_nonneg l). apply list_eq_aget; [rewrite !zlen_map, zlen_seqZ; lia|]. intros i Hi. rewrite zlen_map, zlen_seqZ in Hi by lia.
  rewrite !aget_map, aget_seqZ by lia. rewrite (nthz_get l i) by lia. cbn [fmap option_fmap option_map]. f_equal. unfold leafOutput. rewrite Z.add_0_l. assert (nthz (l ++ [b]) i = nthz l i) as -> by (apply nthz_Some; rewrite aget_app_l by lia; by apply nthz_get).
  assert (nthz ((fun x => if bool_decide (x ∈ D) then 0 else 1) <$> l) i = if bool_decide (nthz l i ∈ D) then 0 else 1) as -> by (apply nthz_Some; rewrite aget_map, (nthz_get l i) by lia; done).
  case_bool_decide; unfold splitKeys; [done|]. change (seqZ 0 1) with [0]. cbn [fmap list_fmap]. by rewrite Z.mul_0_l, Z.add_0_r.
Qed.

Lemma removeOps_fit (D l : list Z) b : T = l ++ [b] -> opsFit k T ((fun x => if bool_decide (x ∈ D) then 0 else 1) <$> l).
Proof using HT.
  intros E. assert (Hn : nNodes T = zlen l) by (rewrite E; apply nNodes_snoc). split; [by rewrite zlen_map, Hn|]. intros i Hi. rewrite Hn in Hi. destruct (treelet_isNode _ _ _ _ i HT ltac:(unfold nNodes in *; lia)) as (m & Hm & _ & _ & Ey & _). exists m.
  split; [done|]. split; [done|]. assert (nthz ((fun x => if bool_decide (x ∈ D) then 0 else 1) <$> l) i = if bool_decide (nthz l i ∈ D) then 0 else 1) as -> by (apply nthz_Some; rewrite aget_map, (nthz_get l i) by lia; done).
  case_bool_decide; [by left|]. right. exists 0. split; [lia|]. split; [lia|done].
Qed.

(** The update removes the rejected keys from the tree and from the octree. *)
Lemma applyRejections_run D octree t : keyMax k ∉ D -> csTree k (filter (fun x => x ∉ D) T) -> octreeDataOf k t octree -> T = leafArray k t ->
  exists octree' t', applyRejections k octree T (removeOps D) = Some (octree', filter (fun x => x ∉ D) T) /\ octreeDataOf k t' octree' /\ filter (fun x => x ∉ D) T = leafArray k t'.
Proof using HT.
  intros Hb Hcs Ho Et. pose proof HT as (l & El & Hc). unfold applyRejections. destruct (Z.eqb_spec (zlen (filter (fun op => op = 1) (removeOps D))) (zlen (removeOps D))) as [Eall|Hne]; cbn [negb].
  - exists octree, t. assert (filter (fun x => x ∉ D) T = T) as ->; [|done]. unfold removeOps, zlen in Eall. rewrite <- (filter_all (fun x => x ∉ D) T) at 2; [done|].
    apply Forall_forall. intros x Hx Hd. apply Nat2Z.inj in Eall. revert Eall. apply Nat.lt_neq.
    apply (length_filter_lt _ _ 0); [apply list_elem_of_fmap; exists x; split; [by rewrite bool_decide_eq_true_2|done]|lia].
  - assert (Eo : removeOps D = ((fun x => if bool_decide (x ∈ D) then 0 else 1) <$> l) ++ [1]) by (unfold removeOps; rewrite El at 1; rewrite fmap_app; cbn; by rewrite bool_decide_eq_false_2).
    rewrite Eo. rewrite (rebalanceTree_spec k T 0 (keyMax k)); [|done|by apply (removeOps_fit D l (keyMax k))]. cbn beta iota.
    assert (Hn : nNodes T = zlen l) by (rewrite El; apply nNodes_snoc). rewrite Hn. assert (newLeaves T ((fun x => if bool_decide (x ∈ D) then 0 else 1) <$> l) 0 (zlen l) = filter (fun x => x ∉ D) l) as -> by (rewrite El; apply newLeaves_remove).
    assert (Ef : filter (fun x => x ∉ D) l ++ [keyMax k] = filter (fun x => x ∉ D) T) by (rewrite El, filter_app; f_equal; by rewrite filter_cons_True). rewrite Ef.
    match goal with |- context [OctreeData_resize _ ?o _] => destruct (updateInternalTree_octreeDataOf k _ o Hcs) as (t' & o' & -> & Ho' & Et' & _) end. by exists o', t'.
Qed.

End Rejections.

(** ** Treelets of all peers *)

Lemma receiveTreelets_run (arrivals : list (Z * list Z)) : forall treelets, NoDup (fst <$> arrivals) -> Forall (fun e => 0 <= e.1 < zlen treelets) arrivals ->
  exists treelets', receiveTreelets (length arrivals) arrivals treelets = Some (treelets', []) /\ zlen treelets' = zlen treelets /\
    (forall q keys, (q, keys) ∈ arrivals -> treelets'.[q] = Some keys) /\ (forall q, q ∉ fst <$> arrivals -> treelets'.[q] = treelets.[q]).
Proof.
  induction arrivals as [|[r keys] arrivals IH]; intros treelets Hnd Hr.
  - exists treelets. split; [done|]. split; [done|]. split; [by intros q keys ?%not_elem_of_nil|done].
  - apply Forall_cons in Hr as [H1 Hr]. rewrite fmap_cons in *. apply NoDup_cons in Hnd as [Hni Hnd]. cbn [fst length receiveTreelets] in *. pose proof (aset_Some treelets r keys H1) as Es. rewrite Es. cbn beta iota.
    pose proof (aset_zlen _ _ _ _ Es) as Hz. destruct (IH _ Hnd ltac:(by rewrite Hz)) as (tl' & -> & Hz' & Hin & Hout). exists tl'. split; [done|]. split; [by rewrite Hz'|]. split.
    + intros q ks [E|Hq]%elem_of_cons; [|by apply Hin]. injection E as -> ->. rewrite Hout by done. apply (aget_aset_eq _ _ _ _ Es).
    + intros q [Hne Hq]%not_elem_of_cons. rewrite Hout by done. apply (aget_aset_ne _ _ _ _ _ Es). done.
Qed.

Lemma updateTreelets_run (f : Z -> list Z -> option (list Z)) (g h : Z -> list Z) peers : forall treelets, NoDup peers -> (forall q, q ∈ peers -> treelets.[q] = Some (g q) /\ f q (g q) = Some (h q)) ->
  exists treelets', foldM (fun q => updateTreeletOf (f q) q) peers treelets = Some treelets' /\ zlen treelets' = zlen treelets /\
    (forall q, q ∈ peers -> treelets'.[q] = Some (h q)) /\ (forall q, q ∉ peers -> treelets'.[q] = treelets.[q]).
Proof.
  induction peers as [|r peers IH]; intros treelets Hnd Hp.
  - exists treelets. split; [done|]. split; [done|]. split; [by intros q ?%not_elem_of_nil|done].
  - apply NoDup_cons in Hnd as [Hni Hnd]. destruct (Hp r ltac:(by left)) as [E1 E2]. cbn [foldM]. unfold updateTreeletOf at 1. rewrite E1. cbn beta iota. rewrite E2.
    pose proof (aset_Some treelets r (h r) (aget_Some_range _ _ _ E1)) as Es. rewrite Es. destruct (IH (<[Z.to_nat r:=h r]> treelets) Hnd) as (tl' & -> & Hz' & Hin & Hout).
    { intros q Hq. rewrite (aget_aset_ne _ _ _ _ _ Es) by (intros ->; done). apply Hp. by right. }
    exists tl'. split; [done|]. split; [rewrite Hz'; apply (aset_zlen _ _ _ _ Es)|]. split.
    + intros q [->|Hq]%elem_of_cons; [|by apply Hin]. rewrite Hout by done. apply (aget_aset_eq _ _ _ _ Es).
    + intros q [Hne Hq]%not_elem_of_cons. rewrite Hout by done. apply (aget_aset_ne _ _ _ _ _ Es). done.
Qed.
