(* ===== verification/TreeletWorld.v ===== *)
(** * Focus trees of all ranks

    Lemmas on [cstone/focus/exchange_focus.hpp] for all ranks together: what the ranks send to each
    other, and the trees and treelets that remain. *)

From S2P Require Import Prelude Primitives SfcCommon Csarray CsInvariant CsRebalance CsCounts CsBuild Octree OctreeNodes OctreeBuild OctreeQueries IndexRanges DomainDecomp Layout FocusRebalance GlobalTree Exchange Distribute Halos HaloExchange NodeLookup Scalars Neighbors IjLoop Treelets TreeletSync.

(** The focus trees of [N] ranks.  [R p q] says that [q] is an exterior peer of [p]; rank [p] assigns the leaves
    [start a, end a) with [(assign p).[q] = Some a] to [q], whose domain has the keys [B q, B (q + 1)).  The first
    and the last key of the assigned leaves are keys of the tree of [q]. *)
Record treeletWorld (k : KeyType) (N : Z) (leaves : Z -> list Z) (assign : Z -> list IndexPair) (B : Z -> Z) (R : Z -> Z -> bool) : Prop := {
  tw_tree : forall p, 0 <= p < N -> csTree k (leaves p);
  tw_domain : forall i j, 0 <= i <= j -> j <= N -> B i <= B j;
  tw_peer : forall p q, 0 <= p < N -> 0 <= q < N -> R p q = true -> p <> q /\
    exists a lo hi, (assign p).[q] = Some a /\ start a <= end_ a /\ (leaves p).[start a] = Some lo /\ (leaves p).[end_ a] = Some hi /\
      lo ∈ leaves q /\ hi ∈ leaves q /\ B q <= lo /\ hi <= B (q + 1)
}.

Definition exteriorPeersOf (N : Z) (R : Z -> Z -> bool) (p : Z) : list Z := filter (fun q => R p q = true) (seqZ 0 N).
Definition interiorPeersOf (N : Z) (R : Z -> Z -> bool) (p : Z) : list Z := filter (fun q => R q p = true) (seqZ 0 N).

(** The first and the last key of the leaves that [p] assigns to [q]. *)
Definition firstKey (leaves : Z -> list Z) (assign : Z -> list IndexPair) (p q : Z) : Z := nthz (leaves p) (start (default (mkIndexPair 0 0) ((assign p).[q]))).
Definition lastKey (leaves : Z -> list Z) (assign : Z -> list IndexPair) (p q : Z) : Z := nthz (leaves p) (end_ (default (mkIndexPair 0 0) ((assign p).[q]))).

Section World.
Context (k : KeyType) (N : Z) (leaves : Z -> list Z) (assign : Z -> list IndexPair) (B : Z -> Z) (R : Z -> Z -> bool).
Hypothesis Hw : treeletWorld k N leaves assign B R.

Local Abbreviation ext := (exteriorPeersOf N R).
Local Abbreviation int := (interiorPeersOf N R).
Local Abbreviation lo := (firstKey leaves assign).
Local Abbreviation hi := (lastKey leaves assign).

Definition innerKeysOf (p q : Z) : list Z := filter (fun x => lo p q <= x < hi p q) (leaves p).
Definition partsOf (p : Z) : list TreePart := (fun q => mkTreePart (lo p q) (hi p q) (leaves q)) <$> ext p.
Definition syncedLeaves (p : Z) : list Z := filter (fun x => keepKey (partsOf p) x = true) (leaves p).
Definition sentTreeletsOf (p : Z) : list (Z * list Z) := (fun q => (q, innerKeysOf p q ++ [hi p q])) <$> ext p.
Definition rejectedOf (q p : Z) : list Z := filter (fun x => x ∉ leaves q) (innerKeysOf p q).
Definition sentRejectsOf (q : Z) : list (Z * list Z) := (fun p => (p, rejectedOf q p)) <$> int q.

Lemma elem_ext p q : q ∈ ext p <-> 0 <= q < N /\ R p q = true.
Proof using. unfold exteriorPeersOf. rewrite list_elem_of_filter, elem_of_seqZ. intuition lia. Qed.

Lemma elem_int p q : q ∈ int p <-> 0 <= q < N /\ R q p = true.
Proof using. unfold interiorPeersOf. rewrite list_elem_of_filter, elem_of_seqZ. intuition lia. Qed.

Lemma NoDup_peers p : NoDup (ext p) /\ NoDup (int p).
Proof using. split; apply NoDup_filter, NoDup_seqZ. Qed.

Lemma peer_facts p q : 0 <= p < N -> 0 <= q < N -> R p q = true -> p <> q /\ exists a, (assign p).[q] = Some a /\ 0 <= start a <= end_ a /\ end_ a < zlen (leaves p) /\
  (leaves p).[start a] = Some (lo p q) /\ (leaves p).[end_ a] = Some (hi p q) /\ lo p q <= hi p q /\ lo p q ∈ leaves q /\ hi p q ∈ leaves q /\ B q <= lo p q /\ hi p q <= B (q + 1).
Proof using Hw.
  intros Hp Hq HR. destruct (tw_peer _ _ _ _ _ _ Hw p q Hp Hq HR) as (Hne & a & l & h & Ea & Hse & El & Eh & H1 & H2 & H3 & H4). split; [done|]. exists a.
  pose proof (aget_Some_range _ _ _ El). pose proof (aget_Some_range _ _ _ Eh). unfold firstKey, lastKey. rewrite Ea. change (default (mkIndexPair 0 0) (Some a)) with a. rewrite (nthz_Some _ _ _ El), (nthz_Some _ _ _ Eh).
  pose proof (cs_sorted _ _ (tw_tree _ _ _ _ _ _ Hw p Hp) _ _ _ _ Hse El Eh). split; [done|]. split; [lia|]. split; [lia|]. done.
Qed.

(** The slice of the leaves is described by the keys. *)
Lemma slice_keys T i j x y : csTree k T -> T.[i] = Some x -> T.[j] = Some y -> i <= j -> slice T i j = filter (fun z => x <= z < y) T.
Proof using.
  intros Hcs Hx Hy Hij. pose proof (filter_sorted_slice id T x y) as H. rewrite list_fmap_id, (cs_position k T i x Hcs Hx), (cs_position k T j y Hcs Hy) in H.
  apply H; [apply (cs_sorted k T Hcs)|by apply (cs_sorted k T Hcs i j)].
Qed.

Lemma treelet_slice p q : 0 <= p < N -> 0 <= q < N -> R p q = true -> treeletFor (assign p) (leaves p) q = Some (innerKeysOf p q ++ [hi p q]).
Proof using Hw.
  intros Hp Hq HR. destruct (peer_facts p q Hp Hq HR) as (_ & a & Ea & H1 & H2 & El & Eh & _). unfold treeletFor. rewrite Ea. cbn beta iota. unfold count. rewrite subspan_run by lia.
  replace (start a + (end_ a - start a + 1)) with (end_ a + 1) by lia. rewrite (slice_snoc _ _ _ _ H1 Eh). by rewrite (slice_keys _ _ _ _ _ (tw_tree _ _ _ _ _ _ Hw p Hp) El Eh) by lia.
Qed.

Lemma innerKeys_range p q : 0 <= p < N -> 0 <= q < N -> R p q = true -> Forall (fun x => 0 <= x < keyMax k) (innerKeysOf p q) /\ hi p q <= keyMax k.
Proof using Hw.
  intros Hp Hq HR. destruct (peer_facts p q Hp Hq HR) as (_ & a & Ea & H1 & H2 & El & Eh & _). pose proof (tw_tree _ _ _ _ _ _ Hw p Hp) as HT. pose proof (cs_elem_range k _ _ HT (aget_elem _ _ _ Eh)).
  split; [|lia]. apply Forall_forall. intros x [Hx Hin]%list_elem_of_filter. pose proof (cs_elem_range k _ _ HT Hin). lia.
Qed.

Lemma partsOf_iff p P : P ∈ partsOf p <-> exists q, 0 <= q < N /\ R p q = true /\ P = mkTreePart (lo p q) (hi p q) (leaves q).
Proof using. unfold partsOf. rewrite list_elem_of_fmap. setoid_rewrite elem_ext. split; [intros (q & -> & Hq & HR)|intros (q & Hq & HR & ->)]; by exists q. Qed.

Lemma partsOf_part p : 0 <= p < N -> (forall P, P ∈ partsOf p -> partOf k (leaves p) P) /\
  (forall P P', P ∈ partsOf p -> P' ∈ partsOf p -> P = P' \/ tp_hi P <= tp_lo P' \/ tp_hi P' <= tp_lo P).
Proof using Hw.
  intros Hp. split.
  - intros P (q & Hq & HR & ->)%partsOf_iff. destruct (peer_facts p q Hp Hq HR) as (_ & a & Ea & H1 & H2 & El & Eh & Hlh & Ho1 & Ho2 & _). unfold partOf. cbn [tp_lo tp_hi tp_owner].
    split; [apply (tw_tree _ _ _ _ _ _ Hw q Hq)|]. split; [by eapply aget_elem|]. split; [by eapply aget_elem|]. done.
  - intros P P' (q & Hq & HR & ->)%partsOf_iff (r & Hr & HR' & ->)%partsOf_iff. cbn [tp_lo tp_hi]. destruct (decide (q = r)) as [->|Hne]; [by left|right].
    destruct (peer_facts p q Hp Hq HR) as (_ & _ & _ & _ & _ & _ & _ & _ & _ & _ & B1 & B2). destruct (peer_facts p r Hp Hr HR') as (_ & _ & _ & _ & _ & _ & _ & _ & _ & _ & B3 & B4).
    pose proof (tw_domain _ _ _ _ _ _ Hw (q + 1) r). pose proof (tw_domain _ _ _ _ _ _ Hw (r + 1) q). lia.
Qed.

(** A key of the leaves is kept exactly if the rank it is assigned to has it. *)
Lemma keep_iff p x : keepKey (partsOf p) x = true <-> forall q, 0 <= q < N -> R p q = true -> lo p q <= x < hi p q -> x ∈ leaves q.
Proof using.
  rewrite keepKey_iff. split.
  - intros H q Hq HR Hx. apply (H (mkTreePart (lo p q) (hi p q) (leaves q))); [apply partsOf_iff; by exists q|done].
  - intros H P (q & Hq & HR & ->)%partsOf_iff Hx. by apply H.
Qed.

Lemma synced_tree p : 0 <= p < N -> csTree k (syncedLeaves p).
Proof using Hw. intros Hp. destruct (partsOf_part p Hp) as [H1 H2]. by apply kept_csTree; [apply (tw_tree _ _ _ _ _ _ Hw)|..]. Qed.

(** The keys inside the part that is assigned to a peer, and the ones that remain. *)
Lemma keep_inner p q x : 0 <= p < N -> 0 <= q < N -> R p q = true -> lo p q <= x < hi p q -> keepKey (partsOf p) x = true <-> x ∈ leaves q.
Proof using Hw.
  intros Hp Hq HR Hx. destruct (partsOf_part p Hp) as [H1 H2]. split; [rewrite keep_iff; intros H; by apply H|]. intros Hin.
  apply (keepKey_part k (leaves p) (partsOf p) H1 H2 (mkTreePart (lo p q) (hi p q) (leaves q))); cbn [tp_lo tp_hi tp_owner]; [apply partsOf_iff; by exists q|lia|done].
Qed.

Lemma keep_last p q : 0 <= p < N -> 0 <= q < N -> R p q = true -> keepKey (partsOf p) (hi p q) = true.
Proof using Hw.
  intros Hp Hq HR. destruct (partsOf_part p Hp) as [H1 H2]. destruct (peer_facts p q Hp Hq HR) as (_ & _ & _ & _ & _ & _ & _ & Hlh & _ & Ho & _).
  apply (keepKey_part k (leaves p) (partsOf p) H1 H2 (mkTreePart (lo p q) (hi p q) (leaves q))); cbn [tp_lo tp_hi tp_owner]; [apply partsOf_iff; by exists q|lia|done].
Qed.

(** The own part of the tree is not changed. *)
Lemma keep_own p q x : 0 <= p < N -> 0 <= q < N -> R p q = true -> lo p q <= x <= hi p q -> x ∈ leaves q -> x ∈ syncedLeaves q.
Proof using Hw.
  intros Hp Hq HR Hx Hin. apply list_elem_of_filter. split; [|done]. apply keep_iff. intros r Hr HR' Hxr. destruct (peer_facts p q Hp Hq HR) as (_ & _ & _ & _ & _ & _ & _ & _ & _ & _ & B1 & B2).
  destruct (peer_facts q r Hq Hr HR') as (Hne & _ & _ & _ & _ & _ & _ & _ & Ho & _ & B3 & B4). pose proof (tw_domain _ _ _ _ _ _ Hw (q + 1) r). pose proof (tw_domain _ _ _ _ _ _ Hw (r + 1) q).
  assert (x = lo q r) as -> by lia. done.
Qed.

(** The keys that remain in the part of a peer are keys of the peer. *)
Lemma synced_owner p q x : 0 <= p < N -> 0 <= q < N -> R p q = true -> x ∈ syncedLeaves p -> lo p q <= x <= hi p q -> x ∈ syncedLeaves q.
Proof using Hw.
  intros Hp Hq HR Hx Hr. apply (keep_own p q x Hp Hq HR Hr). apply list_elem_of_filter in Hx as [Hk Hx].
  destruct (decide (x = hi p q)) as [->|Hne]; [by destruct (peer_facts p q Hp Hq HR) as (_ & _ & _ & _ & _ & _ & _ & _ & _ & ? & _)|]. apply (keep_inner p q x Hp Hq HR); [lia|done].
Qed.

(** The treelet of [q] that remains at [p] is the part of the remaining tree of [q]. *)
Lemma keys_upto T x y : csTree k T -> y ∈ T -> x <= y -> filter (fun z => x <= z <= y) T = filter (fun z => x <= z < y) T ++ [y].
Proof using.
  intros Hcs [j Hj]%elem_aget Hxy. pose proof (aget_Some_range _ _ _ Hj) as Hr. destruct (aget_split T j y Hj) as (l1 & l2 & E & Hl1).
  assert (H1 : forall z, z ∈ l1 -> z < y) by (intros z [n Hn]%elem_aget; pose proof (aget_Some_range _ _ _ Hn); apply (cs_lt k T n j z y Hcs); [rewrite E, aget_app_l by lia; done|done|lia]).
  assert (H2 : forall z, z ∈ l2 -> y < z).
  { intros z [n Hn]%elem_aget. pose proof (aget_Some_range _ _ _ Hn). apply (cs_lt k T j (j + 1 + n) y z Hcs); [done| |lia]. rewrite E, aget_app_r by lia. rewrite aget_cons_S by lia. rewrite <- Hn. f_equal. lia. }
  clear Hj Hcs. rewrite E, !filter_app, !filter_cons, decide_True, decide_False by lia. rewrite (filter_none _ l2), (filter_none _ l2) by (apply Forall_forall; intros z Hz; specialize (H2 z Hz); lia).
  rewrite app_nil_r. f_equal. apply filter_ext_elem. intros z Hz. specialize (H1 z Hz). lia.
Qed.

Lemma synced_treelet p q : 0 <= p < N -> 0 <= q < N -> R q p = true ->
  filter (fun x => x ∈ leaves p) (innerKeysOf q p) ++ [hi q p] = filter (fun x => lo q p <= x <= hi q p) (syncedLeaves q).
Proof using Hw.
  intros Hp Hq HR. destruct (peer_facts q p Hq Hp HR) as (_ & a & Ea & H1 & H2 & El & Eh & Hlh & _). pose proof (keep_last q p Hq Hp HR) as Hk.
  rewrite keys_upto; [|by apply synced_tree|apply list_elem_of_filter; split; [done|by eapply aget_elem]|done]. f_equal. unfold innerKeysOf, syncedLeaves. rewrite !list_filter_filter.
  apply filter_ext_elem. intros x Hx. split; intros [F1 F2]; (split; [|done || by apply (keep_inner q p)]); [done|by apply (keep_inner q p x Hq Hp HR)].
Qed.

(** What the peers reject. *)
Lemma rejected_iff p arrivals x : 0 <= p < N -> arrivals ≡ₚ (fun q => (q, rejectedOf q p)) <$> ext p -> x ∈ (arrivals ≫= snd) <-> exists q, 0 <= q < N /\ R p q = true /\ x ∈ rejectedOf q p.
Proof using.
  intros Hp Ha. rewrite Ha, list_elem_of_bind. split.
  - intros (e & Hx & (q & -> & [Hq HR]%elem_ext)%list_elem_of_fmap). by exists q.
  - intros (q & Hq & HR & Hx). exists (q, rejectedOf q p). split; [done|]. apply list_elem_of_fmap. exists q. split; [done|]. by apply elem_ext.
Qed.

Lemma synced_filter p arrivals : 0 <= p < N -> arrivals ≡ₚ (fun q => (q, rejectedOf q p)) <$> ext p -> filter (fun x => x ∉ (arrivals ≫= snd)) (leaves p) = syncedLeaves p.
Proof using.
  intros Hp Ha. apply filter_ext_elem. intros x Hx. rewrite (rejected_iff p arrivals x Hp Ha), keep_iff. split.
  - intros Hn q Hq HR Hr. destruct (decide (x ∈ leaves q)) as [|Hni]; [done|]. exfalso. apply Hn. exists q. split; [done|]. split; [done|]. unfold rejectedOf, innerKeysOf. by rewrite !list_elem_of_filter.
  - intros Hk (q & Hq & HR & Hr). unfold rejectedOf, innerKeysOf in Hr. rewrite !list_elem_of_filter in Hr. destruct Hr as (Hni & Hr & _). by apply Hni, Hk.
Qed.

Lemma mapM_pairs {M} (f : Z -> option (Z * M)) (g : Z -> M) l : (forall q, q ∈ l -> f q = Some (q, g q)) -> mapM f l = Some ((fun q => (q, g q)) <$> l).
Proof using. intros H. apply mapM_Some_2. apply Forall2_fmap_r, Forall_Forall2_diag, Forall_forall. exact H. Qed.

Lemma removeOps_nil l : replicate (length l) 1 = removeOps l [].
Proof using. induction l as [|x l IH]; [done|]. cbn [length replicate]. rewrite IH. unfold removeOps. rewrite fmap_cons, bool_decide_eq_false_2; [done|]. apply not_elem_of_nil. Qed.

Lemma sync_world p octree t treelets arrivals rejects : 0 <= p < N -> octreeDataOf k t octree -> leaves p = leafArray k t -> zlen treelets = N ->
  arrivals ≡ₚ (fun q => (q, innerKeysOf q p ++ [hi q p])) <$> int p -> rejects ≡ₚ (fun q => (q, rejectedOf q p)) <$> ext p ->
  exists octree' t' treelets', syncTreelets k (ext p) (int p) (assign p) octree (leaves p) treelets arrivals rejects = Some (sentTreeletsOf p, sentRejectsOf p, (octree', syncedLeaves p, treelets'), ([], [])) /\
    octreeDataOf k t' octree' /\ syncedLeaves p = leafArray k t' /\ zlen treelets' = N /\
    (forall q, q ∈ int p -> treelets'.[q] = Some (filter (fun x => lo q p <= x <= hi q p) (syncedLeaves q))) /\ (forall q, q ∉ int p -> treelets'.[q] = treelets.[q]).
Proof using Hw.
  intros Hp Ho Et Hz Ha Hr. destruct (NoDup_peers p) as [Hnde Hndi]. pose proof (tw_tree _ _ _ _ _ _ Hw p Hp) as HT. unfold syncTreelets, exchangeTreelets.
  rewrite (mapM_pairs _ (fun q => innerKeysOf p q ++ [hi p q])) by (intros q [Hq HR]%elem_ext; by rewrite treelet_slice). cbn beta iota.
  assert (Hfst : fst <$> arrivals ≡ₚ int p) by (rewrite Ha, <- list_fmap_compose; apply reflexive_eq; apply list_fmap_id). assert (Hlen : length (int p) = length arrivals) by (by rewrite Ha, length_fmap).
  destruct (receiveTreelets_run arrivals treelets) as (tl1 & E1 & Hz1 & Hin1 & Hout1); [by rewrite Hfst| |].
  { apply Forall_forall. intros e He. assert (Hi : e.1 ∈ int p) by (rewrite <- Hfst; by apply list_elem_of_fmap_2). apply elem_int in Hi. lia. }
  rewrite Hlen, E1. cbn beta iota. assert (Hg1 : forall q, q ∈ int p -> tl1.[q] = Some (innerKeysOf q p ++ [hi q p])) by (intros q Hq; apply Hin1; rewrite Ha; by apply (list_elem_of_fmap_2 (fun q => (q, innerKeysOf q p ++ [hi q p])))).
  destruct (updateTreelets_run (fun _ => checkTreelet k (leaves p)) (fun q => innerKeysOf q p ++ [hi q p]) (fun q => (markKey k (leaves p) <$> innerKeysOf q p) ++ [hi q p]) (int p) tl1 Hndi) as (tl2 & E2 & Hz2 & Hin2 & Hout2).
  { intros q Hq. split; [by apply Hg1|]. apply elem_int in Hq as [Hq HR]. apply checkTreelet_run; [done|]. by apply innerKeys_range. }
  unfold checkTreelets. rewrite E2. cbn beta iota. unfold exchangeRejectedKeys.
  rewrite (mapM_pairs _ (fun q => rejectedOf p q)); [|intros q Hq; rewrite Hin2 by done; cbn beta iota; apply elem_int in Hq as [Hq HR]; rewrite rejectedKeys_run by (done || by apply innerKeys_range); done]. cbn beta iota.
  assert (length (ext p) = length rejects) as -> by by rewrite Hr, length_fmap. rewrite removeOps_nil.
  assert (Hrej : forall x, x ∈ (rejects ≫= snd) -> x ∈ leaves p /\ x < keyMax k).
  { intros x (q & Hq & HR & Hx)%(rejected_iff p rejects x Hp Hr). unfold rejectedOf in Hx. apply list_elem_of_filter in Hx as [_ Hx]. destruct (innerKeys_range p q Hp Hq HR) as [Hf _]. rewrite Forall_forall in Hf. specialize (Hf x Hx).
    unfold innerKeysOf in Hx. apply list_elem_of_filter in Hx as [_ Hx]. split; [done|lia]. }
  rewrite (receiveRejected_run k (leaves p) HT rejects []) by (intros x Hx; by apply Hrej). cbn beta iota.
  destruct (updateTreelets_run (fun _ treelet => Some (filter (fun key => isMasked k key = false) treelet)) (fun q => (markKey k (leaves p) <$> innerKeysOf q p) ++ [hi q p])
    (fun q => filter (fun x => lo q p <= x <= hi q p) (syncedLeaves q)) (int p) tl2 Hndi) as (tl3 & E3 & Hz3 & Hin3 & Hout3).
  { intros q Hq. split; [by apply Hin2|]. apply elem_int in Hq as [Hq HR]. destruct (innerKeys_range q p Hq Hp HR) as [F1 F2]. by rewrite (pruned_run k (leaves p) HT _ _ F1 F2), synced_treelet. }
  unfold pruneTreelets. rewrite E3. cbn beta iota. cbn [app]. destruct (applyRejections_run k (leaves p) HT (rejects ≫= snd) octree t) as (o' & t' & E4 & Ho' & Et'); [by intros ?%Hrej; lia|rewrite synced_filter by done; by apply synced_tree|done|done|].
  rewrite E4. cbn beta iota. rewrite synced_filter in * by done. exists o', t', tl3. split; [done|]. split; [done|]. split; [done|]. split; [lia|]. split; [done|].
  intros q Hq. rewrite Hout3, Hout2, Hout1 by (rewrite ?Hfst; done). done.
Qed.

End World.
