(* ===== verification/TreeletCells.v ===== *)
(** * Cell properties of synchronized focus trees

    Lemmas on [indexTreelets] and [exchangeTreeletGeneral] of [cstone/focus/exchange_focus.hpp]: the nodes of
    the treelets are nodes of the owner's octree, and the exchange gives every leaf in the part
    of a peer the value that the peer has for the same node. *)

From S2P Require Import Prelude Primitives SfcCommon Csarray CsInvariant CsRebalance CsCounts CsBuild Octree OctreeNodes OctreeBuild OctreeQueries IndexRanges DomainDecomp Layout FocusRebalance GlobalTree Exchange Distribute Halos HaloExchange NodeLookup Scalars Neighbors IjLoop Treelets TreeletSync TreeletWorld.

(** ** Nodes of a treelet *)

Lemma leafMap_get k t o j r : octreeDataOf k t o -> (leafKeys 1 t).[j] = Some r -> (leafToInternalSpan o).[j] = Some (pos (arrays o) r).
Proof.
  intros Ho Hr. pose proof (aget_Some_range _ _ _ Hr) as Hj. destruct (lk_leafIndex _ _ _ (od_linked _ _ _ Ho) j r Hr) as (i & Ei & Ep & _).
  unfold leafToInternalSpan. rewrite (od_numLeaf _ _ _ Ho), (od_numInner _ _ _ Ho). pose proof (zlen_nonneg (innerKeys 1 t)). rewrite aget_lookup by lia. rewrite lookup_take_lt by lia. rewrite lookup_drop, <- Z2Nat.inj_add by lia.
  rewrite <- aget_lookup, Ei by lia. f_equal. by apply (pos_node k t (arrays o) (od_linked _ _ _ Ho)).
Qed.

Lemma leafMap_run k t o : octreeDataOf k t o -> leafToInternalSpan o = pos (arrays o) <$> leafKeys 1 t.
Proof.
  intros Ho. apply list_eq_aget.
  - unfold leafToInternalSpan. rewrite zlen_map, (od_numLeaf _ _ _ Ho), (od_numInner _ _ _ Ho). destruct (od_sized _ _ _ Ho) as (_ & _ & Hz & _). unfold zlen in *. rewrite length_take, length_drop. lia.
  - intros j Hj. rewrite aget_map. destruct (aget_is_Some (leafKeys 1 t) j) as [r Hr]; [|rewrite Hr; by apply (leafMap_get k t)].
    unfold leafToInternalSpan in Hj. rewrite (od_numLeaf _ _ _ Ho) in Hj. unfold zlen in Hj |- *. rewrite length_take in Hj. lia.
Qed.

(** A leaf of one tree is a node of another tree that has its bounds. *)
Lemma leaf_node_elsewhere k t t' o j r : octreeDataOf k t' o -> depthLe (maxTreeLevel k) t -> (leafKeys 1 t).[j] = Some r ->
  nthz (leafArray k t) j ∈ leafArray k t' -> nthz (leafArray k t) (j + 1) ∈ leafArray k t' ->
  r ∈ allKeys 1 t' /\ locateNodeKeys k (nthz (leafArray k t) j) (nthz (leafArray k t) (j + 1)) (prefixes (arrays o)) (levelRange (arrays o)) = Some (pos (arrays o) r).
Proof.
  intros Ho Hd Hr H1 H2. destruct (leafArray_leaf k t Hd j r Hr) as (E1 & E2 & Hn & Hl). rewrite (nthz_Some _ _ _ E1), (nthz_Some _ _ _ E2) in *. fold (nodeEnd k r) in *.
  assert (Htn : treeNode k r) by by split. pose proof (node_range k r Htn) as (G1 & G2 & G3 & G4). pose proof (proj1 Hn).
  destruct (boundedNode_tree k t' (od_depth _ _ _ Ho) (arrays o) (od_linked _ _ _ Ho) _ _ H1 H2) as (q & Hq & Es & Ee); [exists (maxTreeLevel k - nodeLevel r); unfold nodeEnd in *; repeat split; (done || lia)|].
  assert (q = r) as -> by (apply (node_range_inj k); [by apply (key_treeNode k t' (od_depth _ _ _ Ho))|done|done|done]).
  split; [done|]. apply (locateNodeKeys_correct k t' (od_depth _ _ _ Ho) (arrays o) (od_linked _ _ _ Ho) r Hq).
Qed.

Lemma indexTreelet_run k nodeKeys levels treelet tlIdx (g : Z -> Z) : zlen tlIdx = nNodes treelet ->
  (forall i, 0 <= i < nNodes treelet -> locateNodeKeys k (nthz treelet i) (nthz treelet (i + 1)) nodeKeys levels = Some (g i) /\ g i < zlen nodeKeys) ->
  indexTreelet k nodeKeys levels treelet tlIdx = Some (g <$> seqZ 0 (nNodes treelet)).
Proof.
  intros Hz Hg. unfold indexTreelet. apply write_loop_all; [done|]. intros i st Hi _. destruct (Hg i Hi) as [E Hlt]. unfold nNodes in Hi. rewrite (nthz_get treelet i), (nthz_get treelet (i + 1)) by lia. cbn beta iota.
  rewrite E. cbn beta iota. by rewrite (proj2 (Z.ltb_lt _ _) Hlt).
Qed.

Lemma indexTreelets_run k junk peers nodeKeys levels treelets (h : Z -> list Z) : NoDup peers ->
  (forall q, q ∈ peers -> exists treelet, treelets.[q] = Some treelet /\ treelet <> [] /\ forall tlIdx, zlen tlIdx = nNodes treelet -> indexTreelet k nodeKeys levels treelet tlIdx = Some (h q)) ->
  exists idx, indexTreelets k junk peers nodeKeys levels treelets = Some idx /\ zlen idx = zlen treelets /\ forall q, q ∈ peers -> idx.[q] = Some (h q).
Proof.
  intros Hnd Hp. unfold indexTreelets. set (idx0 := make_unique_for_overwrite junk <$> extractNumNodes treelets).
  rewrite (foldM_ext _ (fun q => updateTreeletOf (fun l => let? treelet := treelets.[q] in indexTreelet k nodeKeys levels treelet l) q)) by (intros q st Hq; destruct (Hp q Hq) as (tl & -> & _); done).
  destruct (updateTreelets_run (fun q l => let? treelet := treelets.[q] in indexTreelet k nodeKeys levels treelet l) (fun q => default [] (idx0.[q])) h peers idx0 Hnd) as (idx & E & Hz & Hin & _).
  - intros q Hq. destruct (Hp q Hq) as (tl & Et & Hne & Hrun). assert (E0 : idx0.[q] = Some (make_unique_for_overwrite junk (nNodes tl))).
    { unfold idx0, extractNumNodes. rewrite !aget_map, Et. cbn [fmap option_fmap option_map]. by rewrite bool_decide_eq_false_2. }
    rewrite E0, Et. split; [done|]. apply Hrun. unfold make_unique_for_overwrite. cbn [default from_option id]. rewrite zlen_map, zlen_seqZ; [done|]. unfold nNodes. pose proof (zlen_nonneg tl). destruct tl; [done|]. rewrite zlen_cons in *. pose proof (zlen_nonneg tl). lia.
  - exists idx. split; [exact E|]. split; [|done]. rewrite Hz. unfold idx0, extractNumNodes. by rewrite !zlen_map.
Qed.

(** ** Messages *)

Section Messages.
Context {Q : Type} (focusAssignment : list IndexPair) (csMap : list Z) (M : Z -> list Z) (data : Z -> list Q).

Definition disjointMaps (senders : list Z) : Prop := forall q r x, q ∈ senders -> r ∈ senders -> x ∈ M q -> x ∈ M r -> q = r.

Lemma receiveCells_run senders : forall quantities, NoDup senders -> disjointMaps senders ->
  (forall q, q ∈ senders -> exists a, focusAssignment.[q] = Some a /\ zlen (data q) = count a /\ subspan csMap (start a) (count a) = Some (M q) /\ NoDup (M q) /\ zlen (M q) = zlen (data q) /\
    forall x, x ∈ M q -> 0 <= x < zlen quantities) ->
  exists quantities', receiveCells (length senders) focusAssignment csMap ((fun q => (q, data q)) <$> senders) quantities = Some (quantities', []) /\ zlen quantities' = zlen quantities /\
    (forall q i x, q ∈ senders -> (M q).[i] = Some x -> quantities'.[x] = (data q).[i]) /\ (forall x, (forall q, q ∈ senders -> x ∉ M q) -> quantities'.[x] = quantities.[x]).
Proof using.
  induction senders as [|r senders IH]; intros quantities Hnd Hdis Hs.
  - exists quantities. split; [done|]. split; [done|]. split; [by intros q i x ?%not_elem_of_nil|done].
  - apply NoDup_cons in Hnd as [Hni Hnd]. destruct (Hs r ltac:(by left)) as (a & Ea & Ez & Em & Hm & Hzm & Hr). cbn [length fmap list_fmap receiveCells]. rewrite Ea, Ez. cbn beta iota. rewrite (proj2 (Z.ltb_ge _ _)) by lia. rewrite Em. cbn beta iota.
    destruct (scatter_correct (M r) (data r) quantities Hm ltac:(lia)) as (out & -> & Hzo & Hin & Hout); [intros i x Hx; by apply Hr, (aget_elem _ _ _ Hx)|]. cbn beta iota.
    destruct (IH out Hnd) as (q' & E' & Hz' & Hin' & Hout').
    { intros q q2 x Hq Hq2. apply Hdis; by right. }
    { intros q Hq. rewrite Hzo. apply Hs. by right. }
    exists q'. split; [exact E'|]. split; [lia|]. split.
    + intros q i x [->|Hq]%elem_of_cons Hx; [|by apply (Hin' q)]. rewrite Hout'; [by apply Hin|]. intros q Hq Hxq. apply Hni. rewrite (Hdis r q x); [done|by left|by right|by eapply aget_elem|done].
    + intros x Hx. rewrite Hout' by (intros q Hq; apply Hx; by right). apply Hout. apply Hx. by left.
Qed.

End Messages.

Lemma sendTreelet_run {Q} (zero : Q) treeletIdx quantities peer idx (g : Z -> Q) : treeletIdx.[peer] = Some idx -> (forall x, x ∈ idx -> quantities.[x] = Some (g x)) ->
  sendTreelet zero treeletIdx quantities peer = Some (peer, g <$> idx).
Proof.
  intros E Hg. unfold sendTreelet. rewrite E. cbn beta iota. rewrite (gather_correct idx quantities _ g); [|unfold zlen; rewrite length_replicate; lia|intros i x Hx; by apply Hg, (aget_elem _ _ _ Hx)].
  by rewrite drop_ge, app_nil_r by (rewrite length_replicate; lia).
Qed.

(** ** All ranks *)

(** The state after [syncTreelets] on all ranks: [octree p] is linked for the tree of [p], the keys that [p] has in the
    part of a peer are keys of the peer, and the peer holds them as the treelet of [p]. *)
Record cellWorld (k : KeyType) (N : Z) (leaves : Z -> list Z) (assign : Z -> list IndexPair) (B : Z -> Z) (R : Z -> Z -> bool) (octree : Z -> OctreeData) (treelets : Z -> list (list Z)) : Prop := {
  cw_world : treeletWorld k N leaves assign B R;
  cw_octree : forall p, 0 <= p < N -> exists t, octreeDataOf k t (octree p) /\ leaves p = leafArray k t;
  cw_synced : forall p q x, 0 <= p < N -> 0 <= q < N -> R p q = true -> x ∈ leaves p -> firstKey leaves assign p q <= x <= lastKey leaves assign p q -> x ∈ leaves q;
  cw_treelets : forall p q, 0 <= p < N -> 0 <= q < N -> R q p = true ->
    (treelets p).[q] = Some (filter (fun x => firstKey leaves assign q p <= x <= lastKey leaves assign q p) (leaves q))
}.

Section Cells.
Context {Q : Type} (zero : Q) (k : KeyType) (N : Z) (leaves : Z -> list Z) (assign : Z -> list IndexPair) (B : Z -> Z) (R : Z -> Z -> bool) (octree : Z -> OctreeData) (treelets : Z -> list (list Z)) (quantities : Z -> list Q).
Hypothesis Hc : cellWorld k N leaves assign B R octree treelets.
Hypothesis Hquant : forall p, 0 <= p < N -> zlen (quantities p) = zlen (prefixes (arrays (octree p))).

Local Abbreviation ext := (exteriorPeersOf N R).
Local Abbreviation int := (interiorPeersOf N R).
Let Hw : treeletWorld k N leaves assign B R := cw_world _ _ _ _ _ _ _ _ Hc.

(** The nodes of the leaves of [p], and the ones that are assigned to [q]. *)
Definition leafNodes (p : Z) : list Z := (fun i => nthz (prefixes (arrays (octree p))) i) <$> leafToInternalSpan (octree p).
Definition nodesOf (p q : Z) : list Z := let a := default (mkIndexPair 0 0) ((assign p).[q]) in slice (leafNodes p) (start a) (end_ a).
Definition idxOf (p q : Z) : list Z := pos (arrays (octree p)) <$> nodesOf q p.
Definition cellOf (p r : Z) : Q := default zero ((quantities p).[pos (arrays (octree p)) r]).
Definition sentCellsOf (p : Z) : list (Z * list Q) := (fun q => (q, cellOf p <$> nodesOf q p)) <$> int p.

Lemma leafNodes_run p t : octreeDataOf k t (octree p) -> leafNodes p = leafKeys 1 t.
Proof using.
  intros Ho. unfold leafNodes. rewrite (leafMap_run k t _ Ho), <- list_fmap_compose. rewrite <- (list_fmap_id (leafKeys 1 t)) at 2. apply list_fmap_ext. intros i r Hr.
  apply nthz_Some, (node_pos k t (arrays (octree p)) (od_linked _ _ _ Ho)). apply elem_of_app. right. by eapply list_elem_of_lookup_2.
Qed.

Lemma elem_of_slice {A} (l : list A) a b x : 0 <= a -> x ∈ slice l a b -> exists j, a <= j < b /\ l.[j] = Some x.
Proof using.
  intros Ha [i Hi]%elem_aget. pose proof (aget_Some_range _ _ _ Hi) as Hr. unfold slice, zlen in Hr. rewrite length_take, length_drop in Hr. exists (a + i). split; [lia|]. rewrite <- Hi. symmetry. apply slice_get; lia.
Qed.

(** The nodes of the part of [q] in the tree of [p]. *)
Lemma nodesOf_facts p q t t' : 0 <= p < N -> 0 <= q < N -> R p q = true -> octreeDataOf k t (octree p) -> leaves p = leafArray k t -> octreeDataOf k t' (octree q) -> leaves q = leafArray k t' ->
  exists a, (assign p).[q] = Some a /\ 0 <= start a <= end_ a /\ end_ a <= zlen (leafKeys 1 t) /\ nodesOf p q = slice (leafKeys 1 t) (start a) (end_ a) /\
    forall j r, start a <= j < end_ a -> (leafKeys 1 t).[j] = Some r -> r ∈ allKeys 1 t' /\ (nodesOf p q).[j - start a] = Some r /\
      locateNodeKeys k (nthz (leaves p) j) (nthz (leaves p) (j + 1)) (prefixes (arrays (octree q))) (levelRange (arrays (octree q))) = Some (pos (arrays (octree q)) r).
Proof using Hc.
  intros Hp Hq HR Ho El Ho' El'. destruct (peer_facts k N leaves assign B R Hw p q Hp Hq HR) as (_ & a & Ea & H1 & H2 & E1 & E2 & _). exists a. assert (Hn : nodesOf p q = slice (leafKeys 1 t) (start a) (end_ a)) by (unfold nodesOf; by rewrite Ea, (leafNodes_run p t Ho)).
  pose proof (nNodes_leafArray k t) as Hz. rewrite <- El in Hz. unfold nNodes in Hz. split; [done|]. split; [done|]. split; [lia|]. split; [done|]. intros j r Hj Hr.
  pose proof (tw_tree _ _ _ _ _ _ Hw p Hp) as HT. assert (Hin : forall i, start a <= i <= end_ a -> nthz (leaves p) i ∈ leafArray k t').
  { intros i Hi. rewrite <- El'. pose proof (nthz_get (leaves p) i ltac:(lia)) as Ei. apply (cw_synced _ _ _ _ _ _ _ _ Hc p q); [done|done|done|by eapply aget_elem|].
    split; [apply (cs_sorted k _ HT (start a) i); (done || lia)|apply (cs_sorted k _ HT i (end_ a)); (done || lia)]. }
  rewrite El in *. destruct (leaf_node_elsewhere k t t' (octree q) j r Ho' (od_depth _ _ _ Ho) Hr) as [F1 F2]; [apply Hin; lia|apply Hin; lia|]. split; [done|]. split; [|done].
  rewrite Hn, slice_get by lia. rewrite <- Hr. f_equal. lia.
Qed.

Lemma index_world junk p : 0 <= p < N -> exists idx, indexTreelets k junk (int p) (prefixes (arrays (octree p))) (levelRange (arrays (octree p))) (treelets p) = Some idx /\ forall q, q ∈ int p -> idx.[q] = Some (idxOf p q).
Proof using Hc.
  intros Hp. destruct (cw_octree _ _ _ _ _ _ _ _ Hc p Hp) as (t & Ho & El). destruct (indexTreelets_run k junk (int p) (prefixes (arrays (octree p))) (levelRange (arrays (octree p))) (treelets p) (idxOf p)) as (idx & E & _ & Hin); [apply NoDup_peers| |by exists idx].
  intros q [Hq HR]%elem_int. destruct (cw_octree _ _ _ _ _ _ _ _ Hc q Hq) as (t' & Ho' & El'). destruct (nodesOf_facts q p t' t Hq Hp HR Ho' El' Ho El) as (a & Ea & H1 & H2 & Hn & Hj). eexists. split; [by apply (cw_treelets _ _ _ _ _ _ _ _ Hc)|].
  destruct (peer_facts k N leaves assign B R Hw q p Hq Hp HR) as (_ & b & Eb & G1 & G2 & E1 & E2 & Hlh & _). rewrite Ea in Eb. injection Eb as <-. pose proof (tw_tree _ _ _ _ _ _ Hw q Hq) as HT.
  rewrite (keys_upto k (leaves q) _ _ HT (aget_elem _ _ _ E2) Hlh), <- (slice_keys k _ _ _ _ _ HT E1 E2) by lia. rewrite <- (slice_snoc _ _ _ _ G1 E2). set (tl := slice (leaves q) (start a) (end_ a + 1)).
  assert (Hztl : zlen tl = end_ a + 1 - start a) by (apply slice_zlen; lia). split; [intros E; rewrite E in Hztl; change (zlen (@nil Z)) with 0 in Hztl; lia|]. intros tlIdx Hz.
  rewrite (indexTreelet_run k _ _ _ _ (fun i => pos (arrays (octree p)) (nthz (nodesOf q p) i)) Hz).
  - f_equal. unfold idxOf. assert (Hzn : zlen (nodesOf q p) = nNodes tl) by (unfold nNodes; rewrite Hn, Hztl, slice_zlen by lia; lia). rewrite <- Hzn. transitivity (pos (arrays (octree p)) <$> (nthz (nodesOf q p) <$> seqZ 0 (zlen (nodesOf q p)))); [by rewrite <- list_fmap_compose|by rewrite nthz_seqZ].
  - intros i Hi. unfold nNodes in Hi. rewrite Hztl in Hi. unfold tl. assert (Hnth : forall i, 0 <= i < end_ a + 1 - start a -> nthz (slice (leaves q) (start a) (end_ a + 1)) i = nthz (leaves q) (start a + i)) by (intros i' Hi'; apply nthz_Some; rewrite slice_get by lia; apply nthz_get; lia).
    rewrite !Hnth by lia. destruct (aget_is_Some (leafKeys 1 t') (start a + i) ltac:(lia)) as [r Hr]. destruct (Hj (start a + i) r ltac:(lia) Hr) as (F1 & F2 & F3). replace (start a + i - start a) with i in F2 by lia. rewrite (nthz_Some _ _ _ F2).
    replace (start a + (i + 1)) with (start a + i + 1) by lia. split; [done|]. apply (pos_range k t (arrays (octree p)) (od_linked _ _ _ Ho) r F1).
Qed.

Definition ownIdx (p q : Z) : list Z := pos (arrays (octree p)) <$> nodesOf p q.

Lemma ownIdx_facts p q t : 0 <= p < N -> 0 <= q < N -> R p q = true -> octreeDataOf k t (octree p) -> leaves p = leafArray k t ->
  exists a, (assign p).[q] = Some a /\ zlen (nodesOf p q) = count a /\ subspan (leafToInternalSpan (octree p)) (start a) (count a) = Some (ownIdx p q) /\ NoDup (ownIdx p q) /\
    forall x, x ∈ ownIdx p q -> 0 <= x < zlen (quantities p) /\ exists j r, start a <= j < end_ a /\ (leafKeys 1 t).[j] = Some r /\ x = pos (arrays (octree p)) r.
Proof using Hc Hquant.
  intros Hp Hq HR Ho El. destruct (cw_octree _ _ _ _ _ _ _ _ Hc q Hq) as (t' & Ho' & El'). destruct (nodesOf_facts p q t t' Hp Hq HR Ho El Ho' El') as (a & Ea & H1 & H2 & Hn & _). exists a. split; [done|].
  assert (Hleaf : forall x, x ∈ nodesOf p q -> exists j, start a <= j < end_ a /\ (leafKeys 1 t).[j] = Some x) by (rewrite Hn; intros x; apply elem_of_slice; lia).
  assert (Hall : forall x, x ∈ nodesOf p q -> x ∈ allKeys 1 t) by (intros x (j & _ & Hj)%Hleaf; apply elem_of_app; right; by eapply aget_elem).
  split; [rewrite Hn; apply slice_zlen; lia|]. split; [|split].
  - rewrite (leafMap_run k t _ Ho). unfold count. rewrite subspan_run by (rewrite ?zlen_map; lia). f_equal. unfold ownIdx. rewrite Hn, <- slice_fmap. f_equal. lia.
  - unfold ownIdx. apply NoDup_fmap_2_strong; [intros x y Hx Hy; apply (pos_inj k t (arrays (octree p)) (od_linked _ _ _ Ho)); by apply Hall|]. rewrite Hn. unfold slice.
    pose proof (allKeys_NoDup 1 t ltac:(lia)) as Hnd. apply NoDup_app in Hnd as (_ & _ & Hnd). rewrite <- (take_drop (Z.to_nat (start a)) (leafKeys 1 t)) in Hnd. apply NoDup_app in Hnd as (_ & _ & Hnd).
    rewrite <- (take_drop (Z.to_nat (end_ a - start a)) (drop _ _)) in Hnd. by apply NoDup_app in Hnd as (Hnd & _ & _).
  - intros x (r & -> & Hr)%list_elem_of_fmap. split; [rewrite Hquant by done; by apply (pos_range k t (arrays (octree p)) (od_linked _ _ _ Ho) r), Hall|]. destruct (Hleaf r Hr) as (j & Hj & Ej). by exists j, r.
Qed.

Lemma ownIdx_disjoint p : 0 <= p < N -> disjointMaps (ownIdx p) (ext p).
Proof using Hc Hquant.
  intros Hp q r x [Hq HRq]%elem_ext [Hr HRr]%elem_ext Hxq Hxr. destruct (cw_octree _ _ _ _ _ _ _ _ Hc p Hp) as (t & Ho & El).
  destruct (ownIdx_facts p q t Hp Hq HRq Ho El) as (a & Ea & _ & _ & _ & Ha). destruct (ownIdx_facts p r t Hp Hr HRr Ho El) as (b & Eb & _ & _ & _ & Hb).
  destruct (Ha x Hxq) as (_ & i & ri & Hi & Ei & Exi). destruct (Hb x Hxr) as (_ & j & rj & Hj & Ej & Exj).
  assert (ri = rj) as -> by (apply (pos_inj k t (arrays (octree p)) (od_linked _ _ _ Ho)); [apply elem_of_app; right; by eapply aget_elem..|congruence]).
  pose proof (allKeys_NoDup 1 t ltac:(lia)) as Hnd. apply NoDup_app in Hnd as (_ & _ & Hnd). assert (i = j) as ->.
  { pose proof (aget_Some_range _ _ _ Ei). pose proof (aget_Some_range _ _ _ Ej). rewrite aget_lookup in Ei, Ej by lia. pose proof (NoDup_lookup _ _ _ _ Hnd Ei Ej). lia. }
  destruct (peer_facts k N leaves assign B R Hw p q Hp Hq HRq) as (_ & a' & Ea' & A1 & A2 & A3 & A4 & _ & _ & _ & A5 & A6). destruct (peer_facts k N leaves assign B R Hw p r Hp Hr HRr) as (_ & b' & Eb' & B1 & B2 & B3 & B4 & _ & _ & _ & B5 & B6).
  rewrite Ea in Ea'. injection Ea' as <-. rewrite Eb in Eb'. injection Eb' as <-. pose proof (tw_tree _ _ _ _ _ _ Hw p Hp) as HT. pose proof (nthz_get (leaves p) j ltac:(lia)) as Ex. set (y := nthz (leaves p) j) in *.
  pose proof (cs_sorted k _ HT (start a) j _ _ ltac:(lia) A3 Ex). pose proof (proj2 (cs_lt k _ j (end_ a) _ _ HT Ex A4) ltac:(lia)). pose proof (cs_sorted k _ HT (start b) j _ _ ltac:(lia) B3 Ex). pose proof (proj2 (cs_lt k _ j (end_ b) _ _ HT Ex B4) ltac:(lia)).
  destruct (Z.lt_trichotomy q r) as [Hlt|[|Hlt]]; [|done|]; [pose proof (tw_domain _ _ _ _ _ _ Hw (q + 1) r)|pose proof (tw_domain _ _ _ _ _ _ Hw (r + 1) q)]; lia.
Qed.

Lemma cells_world p idx arrivals : 0 <= p < N -> (forall q, q ∈ int p -> idx.[q] = Some (idxOf p q)) -> arrivals ≡ₚ (fun q => (q, cellOf q <$> nodesOf p q)) <$> ext p ->
  exists quantities', exchangeTreeletGeneral zero (int p) (ext p) idx (assign p) (leafToInternalSpan (octree p)) arrivals (quantities p) = Some (sentCellsOf p, quantities', []) /\ zlen quantities' = zlen (quantities p) /\
    (forall q a j, 0 <= q < N -> R p q = true -> (assign p).[q] = Some a -> start a <= j < end_ a -> exists i i' node, (leafToInternalSpan (octree p)).[j] = Some i /\
      (prefixes (arrays (octree p))).[i] = Some node /\ (prefixes (arrays (octree q))).[i'] = Some node /\ quantities'.[i] = (quantities q).[i']) /\
    (forall i, (forall q a j, 0 <= q < N -> R p q = true -> (assign p).[q] = Some a -> start a <= j < end_ a -> (leafToInternalSpan (octree p)).[j] <> Some i) -> quantities'.[i] = (quantities p).[i]).
Proof using Hc Hquant.
  intros Hp Hidx Ha. destruct (cw_octree _ _ _ _ _ _ _ _ Hc p Hp) as (t & Ho & El). apply Permutation_map_inv in Ha as (senders & -> & Hsend). unfold exchangeTreeletGeneral.
  assert (Hcell : forall q r t', octreeDataOf k t' (octree q) -> 0 <= q < N -> r ∈ allKeys 1 t' -> (quantities q).[pos (arrays (octree q)) r] = Some (cellOf q r)).
  { intros q r t' Ho' Hq Hr. unfold cellOf. destruct (aget_is_Some (quantities q) (pos (arrays (octree q)) r)) as [v Hv]; [rewrite Hquant by done; by apply (pos_range k t' (arrays (octree q)) (od_linked _ _ _ Ho') r)|by rewrite Hv]. }
  rewrite (mapM_pairs _ (fun q => cellOf p <$> nodesOf q p)).
  2:{ intros q Hq. pose proof (Hidx q Hq) as Ei. apply elem_int in Hq as [Hq HR]. destruct (cw_octree _ _ _ _ _ _ _ _ Hc q Hq) as (t' & Ho' & El'). destruct (nodesOf_facts q p t' t Hq Hp HR Ho' El' Ho El) as (a & Ea & H1 & H2 & Hn & Hj).
    rewrite (sendTreelet_run zero idx (quantities p) q (idxOf p q) (fun x => default zero ((quantities p).[x]))); [|done|].
    - unfold idxOf. rewrite <- list_fmap_compose. done.
    - intros x (r & -> & Hr)%list_elem_of_fmap. rewrite Hn in Hr. apply elem_of_slice in Hr as (j & Hj1 & Hj2); [|lia]. destruct (Hj j r Hj1 Hj2) as (F1 & _). by rewrite (Hcell p r t Ho Hp F1). }
  cbn beta iota. assert (Hmem : forall q, q ∈ senders <-> q ∈ ext p) by (intros q; by rewrite Hsend).
  destruct (receiveCells_run (assign p) (leafToInternalSpan (octree p)) (ownIdx p) (fun q => cellOf q <$> nodesOf p q) senders (quantities p)) as (q' & E & Hz & Hin & Hout).
  - rewrite <- Hsend. apply NoDup_peers.
  - intros q r x Hq%Hmem Hr%Hmem. by apply ownIdx_disjoint.
  - intros q [Hq HR]%Hmem%elem_ext. destruct (ownIdx_facts p q t Hp Hq HR Ho El) as (a & Ea & Hzn & Hs & Hnd & Hx). exists a. rewrite zlen_map. split; [done|]. split; [done|]. split; [done|]. split; [done|]. split; [unfold ownIdx; by rewrite zlen_map|]. intros x Hx'. by apply Hx.
  - assert (length (ext p) = length senders) as -> by by rewrite Hsend. change (List.map ?f ?l) with (f <$> l). rewrite E. cbn beta iota. exists q'. split; [done|]. split; [done|]. split.
    + intros q a j Hq HR Ea Hj. destruct (cw_octree _ _ _ _ _ _ _ _ Hc q Hq) as (t' & Ho' & El'). destruct (nodesOf_facts p q t t' Hp Hq HR Ho El Ho' El') as (a' & Ea' & H1 & H2 & Hn & Hnode). rewrite Ea in Ea'. injection Ea' as <-.
      destruct (aget_is_Some (leafKeys 1 t) j ltac:(lia)) as [r Hr]. destruct (Hnode j r Hj Hr) as (F1 & F2 & _). exists (pos (arrays (octree p)) r), (pos (arrays (octree q)) r), r.
      split; [by apply (leafMap_get k t)|]. split; [apply (node_pos k t _ (od_linked _ _ _ Ho)); apply elem_of_app; right; by eapply aget_elem|]. split; [by apply (node_pos k t' _ (od_linked _ _ _ Ho'))|].
      rewrite (Hcell q r t' Ho' Hq F1). rewrite (Hin q (j - start a)); [by rewrite aget_map, F2|apply Hmem, elem_ext; done|unfold ownIdx; by rewrite aget_map, F2].
    + intros i Hi. apply Hout. intros q [Hq HR]%Hmem%elem_ext Hx. destruct (ownIdx_facts p q t Hp Hq HR Ho El) as (a & Ea & _ & _ & _ & Hf). destruct (Hf i Hx) as (_ & j & r & Hj & Er & ->). apply (Hi q a j Hq HR Ea Hj). by apply (leafMap_get k t).
Qed.

End Cells.

(** The synchronized trees satisfy what the exchange of cell properties needs, with the assignment that is
    translated to the new trees. *)
Lemma synced_cellWorld k N leaves assign B R assign' octree treelets : treeletWorld k N leaves assign B R ->
  (forall p q, 0 <= p < N -> 0 <= q < N -> R p q = true -> exists a, (assign' p).[q] = Some a /\ start a <= end_ a /\
    (syncedLeaves N leaves assign R p).[start a] = Some (firstKey leaves assign p q) /\ (syncedLeaves N leaves assign R p).[end_ a] = Some (lastKey leaves assign p q)) ->
  (forall p, 0 <= p < N -> exists t, octreeDataOf k t (octree p) /\ syncedLeaves N leaves assign R p = leafArray k t) ->
  (forall p q, 0 <= p < N -> 0 <= q < N -> R q p = true -> (treelets p).[q] = Some (filter (fun x => firstKey leaves assign q p <= x <= lastKey leaves assign q p) (syncedLeaves N leaves assign R q))) ->
  cellWorld k N (syncedLeaves N leaves assign R) assign' B R octree treelets.
Proof.
  intros Hw Ha Ho Ht. assert (Hkeys : forall p q, 0 <= p < N -> 0 <= q < N -> R p q = true ->
    firstKey (syncedLeaves N leaves assign R) assign' p q = firstKey leaves assign p q /\ lastKey (syncedLeaves N leaves assign R) assign' p q = lastKey leaves assign p q).
  { intros p q Hp Hq HR. destruct (Ha p q Hp Hq HR) as (a & Ea & _ & E1 & E2). unfold firstKey at 1, lastKey at 1. rewrite Ea. split; by apply nthz_Some. }
  split.
  - split; [by apply (synced_tree k N leaves assign B R Hw)|apply Hw|]. intros p q Hp Hq HR. destruct (Ha p q Hp Hq HR) as (a & Ea & Hse & E1 & E2).
    destruct (peer_facts k N leaves assign B R Hw p q Hp Hq HR) as (Hne & _ & _ & _ & _ & _ & _ & Hlh & O1 & O2 & B1 & B2). split; [done|]. exists a, (firstKey leaves assign p q), (lastKey leaves assign p q).
    split; [done|]. split; [done|]. split; [done|]. split; [done|]. split; [apply (keep_own k N leaves assign B R Hw p q _ Hp Hq HR); [lia|done]|]. split; [apply (keep_own k N leaves assign B R Hw p q _ Hp Hq HR); [lia|done]|]. done.
  - done.
  - intros p q x Hp Hq HR Hx Hr. destruct (Hkeys p q Hp Hq HR) as [E1 E2]. rewrite E1, E2 in Hr. by apply (synced_owner k N leaves assign B R Hw p q x).
  - intros p q Hp Hq HR. destruct (Hkeys q p Hq Hp HR) as [E1 E2]. rewrite E1, E2. by apply Ht.
Qed.

(** Only the ranks matter. *)
Lemma cellWorld_ext k N leaves leaves' assign assign' B R octree treelets : (forall p, 0 <= p < N -> leaves p = leaves' p /\ assign p = assign' p) ->
  cellWorld k N leaves assign B R octree treelets -> cellWorld k N leaves' assign' B R octree treelets.
Proof.
  intros He [Hw Ho Hs Ht]. assert (Hk : forall p q, 0 <= p < N -> firstKey leaves' assign' p q = firstKey leaves assign p q /\ lastKey leaves' assign' p q = lastKey leaves assign p q) by (intros p q Hp; unfold firstKey, lastKey; by destruct (He p Hp) as [-> ->]).
  split; [split| | |].
  - intros p Hp. destruct (He p Hp) as [<- _]. by apply Hw.
  - apply Hw.
  - intros p q Hp Hq HR. destruct (He p Hp) as [<- <-], (He q Hq) as [<- _]. by apply Hw.
  - intros p Hp. destruct (He p Hp) as [<- _]. by apply Ho.
  - intros p q x Hp Hq HR. destruct (Hk p q Hp) as [-> ->]. destruct (He p Hp) as [<- _], (He q Hq) as [<- _]. by apply Hs.
  - intros p q Hp Hq HR. destruct (Hk q p Hq) as [-> ->]. destruct (He q Hq) as [<- _]. by apply Ht.
Qed.
