(* ===== verification/TreeletProperties.v ===== *)
(** * Properties of the exchange of focus trees

    The claims about [cstone/focus/exchange_focus.hpp]: the synchronization of the tree structure and the exchange
    of cell properties, for all ranks together. *)

From S2P Require Import Prelude Primitives SfcCommon Csarray CsInvariant CsRebalance CsCounts CsBuild Octree OctreeNodes OctreeBuild OctreeQueries IndexRanges DomainDecomp Layout FocusRebalance GlobalTree Exchange Distribute Halos HaloExchange NodeLookup Scalars Neighbors IjLoop Treelets TreeletSync TreeletWorld TreeletCells.

(** C14: The focus trees of all ranks are synchronized for every arrival order of the treelets and
    of the rejected keys: every rank consumes exactly the messages that are sent to it; the keys
    that remain in its tree are the ones that their owners also have, they form a cornerstone tree
    and the octree is linked for it; and the owner of a part holds exactly the keys that the peer
    has in this part, all of which are keys of the owner's tree. *)
Theorem syncTreelets_correct k N leaves assign B R : treeletWorld k N leaves assign B R ->
  exists sentTreelets sentKeys leaves',
    (forall p t octree treelets arrivals rejects, 0 <= p < N -> octreeDataOf k t octree -> leaves p = leafArray k t -> zlen treelets = N ->
      arrivals ≡ₚ addressed N sentTreelets p -> rejects ≡ₚ addressed N sentKeys p ->
      exists octree' t' treelets', syncTreelets k (exteriorPeersOf N R p) (interiorPeersOf N R p) (assign p) octree (leaves p) treelets arrivals rejects =
          Some (sentTreelets p, sentKeys p, (octree', leaves' p, treelets'), ([], [])) /\ octreeDataOf k t' octree' /\ leaves' p = leafArray k t' /\ zlen treelets' = N /\
        forall q, 0 <= q < N -> treelets'.[q] = if R q p then Some (filter (fun x => firstKey leaves assign q p <= x <= lastKey leaves assign q p) (leaves' q)) else treelets.[q]) /\
    (forall p, 0 <= p < N -> csTree k (leaves' p)) /\
    (forall p x, 0 <= p < N -> x ∈ leaves' p <-> x ∈ leaves p /\ forall q, 0 <= q < N -> R p q = true -> firstKey leaves assign p q <= x < lastKey leaves assign p q -> x ∈ leaves q) /\
    (forall p q x, 0 <= p < N -> 0 <= q < N -> R p q = true -> x ∈ leaves' p -> firstKey leaves assign p q <= x <= lastKey leaves assign p q -> x ∈ leaves' q).
Proof.
  intros Hw. exists (sentTreeletsOf N leaves assign R), (sentRejectsOf N leaves assign R), (syncedLeaves N leaves assign R). split; [|split; [|split]].
  - intros p t octree treelets arrivals rejects Hp Ho Et Hz Ha Hr.
    destruct (sync_world k N leaves assign B R Hw p octree t treelets arrivals rejects Hp Ho Et Hz) as (o' & t' & tl' & E & Ho' & Et' & Hz' & Hin & Hout).
    + rewrite Ha. apply reflexive_eq. apply (addressed_single N R (fun q r => innerKeysOf leaves assign q r ++ [lastKey leaves assign q r]) p Hp).
    + rewrite Hr. apply reflexive_eq. apply (addressed_single N (fun q r => R r q) (fun q r => rejectedOf leaves assign q r) p Hp).
    + exists o', t', tl'. split; [done|]. split; [done|]. split; [done|]. split; [done|]. intros q Hq. destruct (R q p) eqn:HR; [by apply Hin, elem_int|]. apply Hout. rewrite elem_int. rewrite HR. by intros [_ ?].
  - apply (synced_tree k N leaves assign B R Hw).
  - intros p x Hp. unfold syncedLeaves. rewrite list_elem_of_filter, keep_iff. tauto.
  - intros p q x. apply (synced_owner k N leaves assign B R Hw).
Qed.

(** Two ranks that own four nodes of level one each.  Rank 0 has split node 4, which rank 1 has not. *)
Definition uniformLeaves : list Z := [0; 8 ^ 9; 2 * 8 ^ 9; 3 * 8 ^ 9; 4 * 8 ^ 9; 5 * 8 ^ 9; 6 * 8 ^ 9; 7 * 8 ^ 9; 8 ^ 10].
Definition splitLeaves : list Z := [0; 8 ^ 9; 2 * 8 ^ 9; 3 * 8 ^ 9; 32 * 8 ^ 8; 33 * 8 ^ 8; 34 * 8 ^ 8; 35 * 8 ^ 8; 36 * 8 ^ 8; 37 * 8 ^ 8; 38 * 8 ^ 8; 39 * 8 ^ 8; 5 * 8 ^ 9; 6 * 8 ^ 9; 7 * 8 ^ 9; 8 ^ 10].
Definition syncLeaves (p : Z) : list Z := if p =? 0 then splitLeaves else uniformLeaves.
Definition syncAssign (p : Z) : list IndexPair := if p =? 0 then [mkIndexPair 0 4; mkIndexPair 4 15] else [mkIndexPair 0 4; mkIndexPair 4 8].
Definition syncDomain (q : Z) : Z := 4 * 8 ^ 9 * q.
Definition bothPeers (p q : Z) : bool := negb (p =? q).

Lemma treeletWorld2 : treeletWorld Key32 2 syncLeaves syncAssign syncDomain bothPeers.
Proof.
  assert (Hp2 : forall p, 0 <= p < 2 -> p = 0 \/ p = 1) by lia. split.
  - intros p Hp. destruct (Hp2 p Hp) as [->| ->]; apply (bool_decide_unpack _); vm_compute; exact I.
  - intros i j Hij _. unfold syncDomain. lia.
  - intros p q Hp Hq HR. destruct (Hp2 p Hp) as [->| ->], (Hp2 q Hq) as [->| ->]; try done; (split; [done|]).
    + exists (mkIndexPair 4 15), (32 * 8 ^ 8), (8 ^ 10). repeat split; try done; apply (bool_decide_unpack _); vm_compute; exact I.
    + exists (mkIndexPair 0 4), 0, (4 * 8 ^ 9). repeat split; try done; apply (bool_decide_unpack _); vm_compute; exact I.
Qed.

Lemma syncTreelets_correct_witness :
  exists sentTreelets sentKeys leaves',
    (forall p t octree treelets arrivals rejects, 0 <= p < 2 -> octreeDataOf Key32 t octree -> syncLeaves p = leafArray Key32 t -> zlen treelets = 2 ->
      arrivals ≡ₚ addressed 2 sentTreelets p -> rejects ≡ₚ addressed 2 sentKeys p ->
      exists octree' t' treelets', syncTreelets Key32 (exteriorPeersOf 2 bothPeers p) (interiorPeersOf 2 bothPeers p) (syncAssign p) octree (syncLeaves p) treelets arrivals rejects =
          Some (sentTreelets p, sentKeys p, (octree', leaves' p, treelets'), ([], [])) /\ octreeDataOf Key32 t' octree' /\ leaves' p = leafArray Key32 t' /\ zlen treelets' = 2 /\
        forall q, 0 <= q < 2 -> treelets'.[q] = if bothPeers q p then Some (filter (fun x => firstKey syncLeaves syncAssign q p <= x <= lastKey syncLeaves syncAssign q p) (leaves' q)) else treelets.[q]) /\
    (forall p, 0 <= p < 2 -> csTree Key32 (leaves' p)) /\
    (forall p x, 0 <= p < 2 -> x ∈ leaves' p <-> x ∈ syncLeaves p /\ forall q, 0 <= q < 2 -> bothPeers p q = true -> firstKey syncLeaves syncAssign p q <= x < lastKey syncLeaves syncAssign p q -> x ∈ syncLeaves q) /\
    (forall p q x, 0 <= p < 2 -> 0 <= q < 2 -> bothPeers p q = true -> x ∈ leaves' p -> firstKey syncLeaves syncAssign p q <= x <= lastKey syncLeaves syncAssign p q -> x ∈ leaves' q).
Proof. apply (syncTreelets_correct Key32 2 syncLeaves syncAssign syncDomain bothPeers). exact treeletWorld2. Defined.

(** The split that rank 1 does not have is undone. *)
Example splitLeaves_synced : syncedLeaves 2 syncLeaves syncAssign bothPeers 0 = uniformLeaves.
Proof. vm_compute. reflexivity. Qed.

(** C15: On synchronized focus trees, every node of every treelet is found in the owner's octree, and the
    exchange gives each leaf in the part of a peer the value that the peer has for the same octree
    node, for every arrival order; all messages are consumed and no other cell changes. *)
Theorem exchangeTreelets_correct {Q} (zero : Q) junk k N leaves assign B R octree treelets quantities : cellWorld k N leaves assign B R octree treelets ->
  (forall p, 0 <= p < N -> zlen (quantities p) = zlen (prefixes (arrays (octree p)))) ->
  exists sent, forall p arrivals, 0 <= p < N -> arrivals ≡ₚ addressed N sent p ->
    exists treeletIdx quantities', indexTreelets k junk (interiorPeersOf N R p) (prefixes (arrays (octree p))) (levelRange (arrays (octree p))) (treelets p) = Some treeletIdx /\
      exchangeTreeletGeneral zero (interiorPeersOf N R p) (exteriorPeersOf N R p) treeletIdx (assign p) (leafToInternalSpan (octree p)) arrivals (quantities p) = Some (sent p, quantities', []) /\
      zlen quantities' = zlen (quantities p) /\
      (forall q a j, 0 <= q < N -> R p q = true -> (assign p).[q] = Some a -> start a <= j < end_ a -> exists i i' node, (leafToInternalSpan (octree p)).[j] = Some i /\
        (prefixes (arrays (octree p))).[i] = Some node /\ (prefixes (arrays (octree q))).[i'] = Some node /\ quantities'.[i] = (quantities q).[i']) /\
      (forall i, (forall q a j, 0 <= q < N -> R p q = true -> (assign p).[q] = Some a -> start a <= j < end_ a -> (leafToInternalSpan (octree p)).[j] <> Some i) -> quantities'.[i] = (quantities p).[i]).
Proof.
  intros Hc Hz. exists (sentCellsOf zero N assign R octree quantities). intros p arrivals Hp Ha. destruct (index_world k N leaves assign B R octree treelets Hc junk p Hp) as (idx & Ei & Hidx).
  destruct (cells_world zero k N leaves assign B R octree treelets quantities Hc Hz p idx arrivals Hp Hidx) as (quantities' & E & H); [|by exists idx, quantities'].
  rewrite Ha. apply reflexive_eq. apply (addressed_single N (fun q r => R r q) (fun q r => cellOf zero octree quantities q <$> nodesOf assign octree r q) p Hp).
Qed.

(** Rank 0 has split node 0 of its own part, rank 1 sees the eight nodes of level one. *)
Definition cellLeaves (p : Z) : list Z := if p =? 0 then [0; 8 ^ 8; 2 * 8 ^ 8; 3 * 8 ^ 8; 4 * 8 ^ 8; 5 * 8 ^ 8; 6 * 8 ^ 8; 7 * 8 ^ 8; 8 ^ 9; 2 * 8 ^ 9; 3 * 8 ^ 9; 4 * 8 ^ 9; 5 * 8 ^ 9; 6 * 8 ^ 9; 7 * 8 ^ 9; 8 ^ 10] else uniformLeaves.
Definition cellAssign (p : Z) : list IndexPair := if p =? 0 then [mkIndexPair 0 11; mkIndexPair 11 15] else [mkIndexPair 0 4; mkIndexPair 4 8].
Definition emptyOctree : OctreeData := mkOctreeData 0 0 0 (mkOctreeArrays [] [] [] [] [] []).
Definition cellOctree (p : Z) : OctreeData := default emptyOctree (Octree.updateInternalTree Key32 (cellLeaves p) (OctreeData_resize Key32 emptyOctree (nNodes (cellLeaves p)))).
Definition cellTreelets (p : Z) : list (list Z) := if p =? 0 then [[]; [0; 8 ^ 9; 2 * 8 ^ 9; 3 * 8 ^ 9; 4 * 8 ^ 9]] else [[4 * 8 ^ 9; 5 * 8 ^ 9; 6 * 8 ^ 9; 7 * 8 ^ 9; 8 ^ 10]; []].
Definition cellValues (p : Z) : list Z := (fun i => 100 * p + i) <$> seqZ 0 (zlen (prefixes (arrays (cellOctree p)))).

Lemma cellLeaves_csTree p : csTree Key32 (cellLeaves p).
Proof. unfold cellLeaves. destruct (p =? 0); apply (bool_decide_unpack _); vm_compute; exact I. Qed.

Lemma cellWorld2 : cellWorld Key32 2 cellLeaves cellAssign syncDomain bothPeers cellOctree cellTreelets.
Proof.
  assert (Hp2 : forall p, 0 <= p < 2 -> p = 0 \/ p = 1) by lia.
  assert (Hpair : forall p q, 0 <= p < 2 -> 0 <= q < 2 -> bothPeers p q = true -> p = 0 /\ q = 1 \/ p = 1 /\ q = 0) by (intros p q Hp Hq HR; destruct (Hp2 p Hp) as [->| ->], (Hp2 q Hq) as [->| ->]; try done; tauto).
  split.
  - split; [intros p _; apply cellLeaves_csTree|intros i j Hij _; unfold syncDomain; lia|]. intros p q Hp Hq HR. destruct (Hpair p q Hp Hq HR) as [[-> ->]|[-> ->]]; (split; [done|]).
    + exists (mkIndexPair 11 15), (4 * 8 ^ 9), (8 ^ 10). repeat split; try done; apply (bool_decide_unpack _); vm_compute; exact I.
    + exists (mkIndexPair 0 4), 0, (4 * 8 ^ 9). repeat split; try done; apply (bool_decide_unpack _); vm_compute; exact I.
  - intros p _. destruct (updateInternalTree_octreeDataOf Key32 (cellLeaves p) emptyOctree (cellLeaves_csTree p)) as (t & o & E & Ho & Et & _). exists t. unfold cellOctree. rewrite E. split; [exact Ho|exact Et].
  - intros p q x Hp Hq HR Hx Hr. assert (Hall : Forall (fun x => firstKey cellLeaves cellAssign p q <= x <= lastKey cellLeaves cellAssign p q -> x ∈ cellLeaves q) (cellLeaves p)); [|rewrite Forall_forall in Hall; by apply Hall].
    destruct (Hpair p q Hp Hq HR) as [[-> ->]|[-> ->]]; apply (bool_decide_unpack _); vm_compute; exact I.
  - intros p q Hp Hq HR. destruct (Hpair q p Hq Hp HR) as [[-> ->]|[-> ->]]; vm_compute; reflexivity.
Qed.

Lemma exchangeTreelets_correct_witness :
  exists sent, forall p arrivals, 0 <= p < 2 -> arrivals ≡ₚ addressed 2 sent p ->
    exists treeletIdx quantities', indexTreelets Key32 (fun _ => 0) (interiorPeersOf 2 bothPeers p) (prefixes (arrays (cellOctree p))) (levelRange (arrays (cellOctree p))) (cellTreelets p) = Some treeletIdx /\
      exchangeTreeletGeneral (-1) (interiorPeersOf 2 bothPeers p) (exteriorPeersOf 2 bothPeers p) treeletIdx (cellAssign p) (leafToInternalSpan (cellOctree p)) arrivals (cellValues p) = Some (sent p, quantities', []) /\
      zlen quantities' = zlen (cellValues p) /\
      (forall q a j, 0 <= q < 2 -> bothPeers p q = true -> (cellAssign p).[q] = Some a -> start a <= j < end_ a -> exists i i' node, (leafToInternalSpan (cellOctree p)).[j] = Some i /\
        (prefixes (arrays (cellOctree p))).[i] = Some node /\ (prefixes (arrays (cellOctree q))).[i'] = Some node /\ quantities'.[i] = (cellValues q).[i']) /\
      (forall i, (forall q a j, 0 <= q < 2 -> bothPeers p q = true -> (cellAssign p).[q] = Some a -> start a <= j < end_ a -> (leafToInternalSpan (cellOctree p)).[j] <> Some i) -> quantities'.[i] = (cellValues p).[i]).
Proof.
  apply (exchangeTreelets_correct (-1) (fun _ => 0) Key32 2 cellLeaves cellAssign syncDomain bothPeers cellOctree cellTreelets cellValues); [exact cellWorld2|].
  intros p _. unfold cellValues. rewrite zlen_map, zlen_seqZ; [reflexivity|apply zlen_nonneg].
Defined.

(** Rank 1 receives the values of the nodes of rank 0, the inner node included. *)
Example cellExchange_run :
  exchangeTreeletGeneral (-1) (interiorPeersOf 2 bothPeers 1) (exteriorPeersOf 2 bothPeers 1) [[5; 6; 7; 8]; []] (cellAssign 1) (leafToInternalSpan (cellOctree 1))
    [(0, [1; 2; 3; 4])] (cellValues 1) = Some ([(0, [105; 106; 107; 108])], [100; 1; 2; 3; 4; 105; 106; 107; 108], []).
Proof. vm_compute. reflexivity. Qed.
