(* ===== verification/FocusedOctree.v ===== *)
(** * Class FocusedOctree

    [cstone/focus/octree_focus_mpi.hpp]: the focused octree of one rank with the criteria that decide its
    updates, and the exchange of cell properties with peers and with all ranks.

    An operation takes the messages of the other ranks as values: [arrivals] are point-to-point messages in the
    order in which they arrive, and a collective operation takes the contributions of the ranks.  It
    returns what the rank sends.  An exception is a value of [FocusError]. *)

From S2P Require Import Prelude Primitives SfcCommon Csarray CsInvariant SfcBox Morton Hilbert Sfc Octree IndexRanges DomainDecomp Layout FocusRebalance GlobalTree Exchange Distribute Halos Scalars BoxOverlap FloatBox Traversal Macs SourceCenter Neighbors IjLoop Treelets.

Inductive FocusError := CriteriaRequired | MacFlagsNotAllocated | HaloFlagsNotAllocated.

(** [Status]. *)
Definition status_invalid : Z := 0.
Definition status_countsCriterion : Z := 1.
Definition status_macCriterion : Z := 2.
Definition status_valid : Z := Z.lor status_countsCriterion status_macCriterion.

(** [std::inclusive_scan] on 32-bit unsigned integers. *)
Fixpoint inclusive_scan_u32 (acc : Z) (l : list Z) : list Z :=
  match l with
  | [] => []
  | x :: l => let acc := u32 (acc + x) in acc :: inclusive_scan_u32 acc l
  end.

(** [MPI_Alltoall] of one flag per rank, from the flags of all ranks. *)
Definition alltoallFlags (flags : list (list Z)) (rank : Z) : option (list Z) := mapM (fun exteriorPeers => exteriorPeers.[rank]) flags.

Section Class.
Context {T : Type} `{!Scalar T} (sqrt : T -> T) (s : SfcKind) (k : KeyType).

Local Abbreviation SourceCenterType := (Vec3 T * T)%type.

Record FocusedOctree := mkFocusedOctree {
  myRank_ : Z;
  numRanks_ : Z;
  bucketSize_ : Z;
  box_ : Box T;
  exteriorPeers_ : list Z;
  interiorPeers_ : list Z;
  treelets_ : list (list Z);
  treeletIdx_ : list (list Z);
  octreeAcc_ : OctreeData;
  leaves_ : list Z;
  prevFocusStart : Z;
  prevFocusEnd : Z;
  leafCountsAcc_ : list Z;
  countsAcc_ : list Z;
  macsAcc_ : list Z;
  centersAcc_ : list SourceCenterType;
  geoCentersAcc_ : list (Vec3 T);
  geoSizesAcc_ : list (Vec3 T);
  globalCentersAcc_ : list SourceCenterType;
  assignment_ : list IndexPair;
  peerRanges_ : list IndexPair;
  globNumNodes_ : list Z;
  globDispl_ : list Z;
  rebalanceStatus_ : Z
}.

Definition zeroVec : Vec3 T := mkVec3 (s_ofZ 0) (s_ofZ 0) (s_ofZ 0).
Definition zeroCenter : SourceCenterType := (zeroVec, s_ofZ 0).

Definition newFocusedOctree (myRank numRanks bucketSize : Z) : option FocusedOctree :=
  let octree := OctreeData_resize k (mkOctreeData 0 0 0 (mkOctreeArrays [] [] [] [] [] [])) 1 in
  let leaves := [0; nodeRange k 0] in
  let leafCounts := [u32 (bucketSize + 1)] in
  let? octree := updateInternalTree k leaves octree in
  Some (mkFocusedOctree myRank numRanks bucketSize (Box_cube (s_ofZ 0) (s_ofZ 1) open) [] [] (replicate (Z.to_nat numRanks) []) [] octree leaves 0 0
    leafCounts leafCounts [1] [zeroCenter] [] [] [] [] [] (replicate (Z.to_nat numRanks) 0) (replicate (Z.to_nat (numRanks + 1)) 0) status_valid).

(** ** Assignments to members *)

Definition setCounts (leafCounts counts : list Z) (f : FocusedOctree) : FocusedOctree :=
  mkFocusedOctree (myRank_ f) (numRanks_ f) (bucketSize_ f) (box_ f) (exteriorPeers_ f) (interiorPeers_ f) (treelets_ f) (treeletIdx_ f) (octreeAcc_ f) (leaves_ f) (prevFocusStart f) (prevFocusEnd f)
    leafCounts counts (macsAcc_ f) (centersAcc_ f) (geoCentersAcc_ f) (geoSizesAcc_ f) (globalCentersAcc_ f) (assignment_ f) (peerRanges_ f) (globNumNodes_ f) (globDispl_ f) (rebalanceStatus_ f).

Definition setMacs (macs : list Z) (f : FocusedOctree) : FocusedOctree :=
  mkFocusedOctree (myRank_ f) (numRanks_ f) (bucketSize_ f) (box_ f) (exteriorPeers_ f) (interiorPeers_ f) (treelets_ f) (treeletIdx_ f) (octreeAcc_ f) (leaves_ f) (prevFocusStart f) (prevFocusEnd f)
    (leafCountsAcc_ f) (countsAcc_ f) macs (centersAcc_ f) (geoCentersAcc_ f) (geoSizesAcc_ f) (globalCentersAcc_ f) (assignment_ f) (peerRanges_ f) (globNumNodes_ f) (globDispl_ f) (rebalanceStatus_ f).

Definition setCenters (centers globalCenters : list SourceCenterType) (f : FocusedOctree) : FocusedOctree :=
  mkFocusedOctree (myRank_ f) (numRanks_ f) (bucketSize_ f) (box_ f) (exteriorPeers_ f) (interiorPeers_ f) (treelets_ f) (treeletIdx_ f) (octreeAcc_ f) (leaves_ f) (prevFocusStart f) (prevFocusEnd f)
    (leafCountsAcc_ f) (countsAcc_ f) (macsAcc_ f) centers (geoCentersAcc_ f) (geoSizesAcc_ f) globalCenters (assignment_ f) (peerRanges_ f) (globNumNodes_ f) (globDispl_ f) (rebalanceStatus_ f).

Definition setGeoCenters (centers sizes : list (Vec3 T)) (f : FocusedOctree) : FocusedOctree :=
  mkFocusedOctree (myRank_ f) (numRanks_ f) (bucketSize_ f) (box_ f) (exteriorPeers_ f) (interiorPeers_ f) (treelets_ f) (treeletIdx_ f) (octreeAcc_ f) (leaves_ f) (prevFocusStart f) (prevFocusEnd f)
    (leafCountsAcc_ f) (countsAcc_ f) (macsAcc_ f) (centersAcc_ f) centers sizes (globalCentersAcc_ f) (assignment_ f) (peerRanges_ f) (globNumNodes_ f) (globDispl_ f) (rebalanceStatus_ f).

Definition setStatus (status : Z) (f : FocusedOctree) : FocusedOctree :=
  mkFocusedOctree (myRank_ f) (numRanks_ f) (bucketSize_ f) (box_ f) (exteriorPeers_ f) (interiorPeers_ f) (treelets_ f) (treeletIdx_ f) (octreeAcc_ f) (leaves_ f) (prevFocusStart f) (prevFocusEnd f)
    (leafCountsAcc_ f) (countsAcc_ f) (macsAcc_ f) (centersAcc_ f) (geoCentersAcc_ f) (geoSizesAcc_ f) (globalCentersAcc_ f) (assignment_ f) (peerRanges_ f) (globNumNodes_ f) (globDispl_ f) status.

(** ** Structure *)

Definition updateGeoCenters (f : FocusedOctree) : option FocusedOctree :=
  let n := numNodes (octreeAcc_ f) in
  let? (centers, sizes) := nodeFpCenters s k (prefixes (arrays (octreeAcc_ f))) (box_ f) (aresize zeroVec (geoCentersAcc_ f) n) (aresize zeroVec (geoSizesAcc_ f) n) in
  Some (setGeoCenters centers sizes f).

(** [intPeers] is the result of [MPI_Alltoall] on [extPeers].  The result holds the convergence flag, the flags and
    the messages that are sent, and the messages that are left. *)
Definition updateTree (junk : Z -> Z) (assignment : SfcAssignment) (globalLeaves : list Z) (box : Box T) (intPeers : list Z) (treeletArrivals rejectArrivals : list (Z * list Z)) (f : FocusedOctree) :
    option (FocusError + (bool * (list Z * list (Z * list Z) * list (Z * list Z)) * (list (Z * list Z) * list (Z * list Z)) * FocusedOctree)) :=
  if negb (rebalanceStatus_ f =? status_valid) then Some (inl CriteriaRequired)
  else
    let? focusStart := (rankBoundaries_ assignment).[myRank_ f] in
    let? focusEnd := (rankBoundaries_ assignment).[myRank_ f + 1] in
    let? offset := (treeOffsets_ assignment).[myRank_ f] in
    let? n := (numNodesPerRank_ assignment).[myRank_ f] in
    let? enforcedKeys := subspan globalLeaves offset (n + 1) in
    let? (conv, octree, leaves) := updateFocus k (octreeAcc_ f) (leaves_ f) (bucketSize_ f) focusStart focusEnd enforcedKeys (countsAcc_ f) (macsAcc_ f) in
    let? focusAssignment := translateAssignment assignment leaves in
    let? extPeers := focusPeers (globDispl_ f) focusAssignment (myRank_ f) globalLeaves leaves in
    let? exteriorPeers := peerFlagsToList extPeers focusPeerMask in
    let? interiorPeers := peerFlagsToList intPeers focusPeerMask in
    let? _ := extractPeerRanges exteriorPeers (myRank_ f) focusAssignment in
    let? (sentTreelets, sentKeys, (octree, leaves, treelets), rest) :=
      syncTreelets k exteriorPeers interiorPeers focusAssignment octree leaves (treelets_ f) treeletArrivals rejectArrivals in
    let? treeletIdx := indexTreelets k junk interiorPeers (prefixes (arrays octree)) (levelRange (arrays octree)) treelets in
    let? focusAssignment := translateAssignment assignment leaves in
    let? peerRanges := extractPeerRanges exteriorPeers (myRank_ f) focusAssignment in
    let? globNumNodes := subspan (numNodesPerRank_ assignment) 0 (numRanks_ f) in
    let? globDispl := subspan (treeOffsets_ assignment) 0 (numRanks_ f + 1) in
    let f := mkFocusedOctree (myRank_ f) (numRanks_ f) (bucketSize_ f) box exteriorPeers interiorPeers treelets treeletIdx octree leaves focusStart focusEnd
      (leafCountsAcc_ f) (countsAcc_ f) (macsAcc_ f) (centersAcc_ f) (geoCentersAcc_ f) (geoSizesAcc_ f) (globalCentersAcc_ f) focusAssignment peerRanges globNumNodes globDispl status_invalid in
    let? f := updateGeoCenters f in
    Some (inr (conv, (extPeers, sentTreelets, sentKeys), rest, f)).

(** ** Cell properties *)

Definition peerExchange {Q} (zero : Q) (f : FocusedOctree) (arrivals : list (Z * list Q)) (q : list Q) : option (list (Z * list Q) * list Q * list (Z * list Q)) :=
  exchangeTreeletGeneral zero (interiorPeers_ f) (exteriorPeers_ f) (treeletIdx_ f) (assignment_ f) (leafToInternalSpan (octreeAcc_ f)) arrivals q.

(** The leaves that neither the rank nor its peers own. *)
Definition idxFromGlob (f : FocusedOctree) : option (list Z) :=
  let? ranges := invertRanges 0 (peerRanges_ f) (numLeafNodes (octreeAcc_ f)) in
  enumerateRanges ranges.

Definition updateCounts (particleKeys globalTreeLeaves globalCounts : list Z) (arrivals : list (Z * list Z)) (f : FocusedOctree) : option (list (Z * list Z) * list (Z * list Z) * FocusedOctree) :=
  let octree := octreeAcc_ f in
  let a := arrays octree in
  let? idx := idxFromGlob f in
  let leafCounts := aresize 0 (leafCountsAcc_ f) (numLeafNodes octree) in
  let? leafCounts := computeNodeCounts k (leaves_ f) leafCounts (nNodes (leaves_ f)) particleKeys 0xFFFFFFFF true in
  let? leafCounts := rangeCount globalTreeLeaves globalCounts (leaves_ f) idx leafCounts in
  let counts := aresize 0 (countsAcc_ f) (numNodes octree) in
  let? counts := scatter (leafToInternalSpan octree) leafCounts counts in
  let? counts := upsweep (levelRange a) (childOffsets a) NodeCount counts in
  let? (sent, counts, rest) := peerExchange 0 f arrivals counts in
  let? counts := upsweep (levelRange a) (childOffsets a) NodeCount counts in
  let? leafCounts := gather (leafToInternalSpan octree) counts leafCounts in
  Some (sent, rest, setStatus (Z.lor (rebalanceStatus_ f) status_countsCriterion) (setCounts leafCounts counts f)).

Definition populateGlobal {Q} (f : FocusedOctree) (gLeaves : list Z) (localQuantities globalQuantities : list Q) (gmap : list Z) : option (list Q) :=
  let? displ := (globDispl_ f).[myRank_ f] in
  let? n := (globNumNodes_ f).[myRank_ f] in
  let? gLeavesFoc := subspan gLeaves displ (n + 1) in
  let? gmap := for_loop 0 n (fun i gmap =>
    let? a := gLeavesFoc.[i] in
    let? b := gLeavesFoc.[i + 1] in
    let? node := locateNodeKeys k a b (prefixes (arrays (octreeAcc_ f))) (levelRange (arrays (octreeAcc_ f))) in
    aset gmap i node) gmap in
  gather gmap localQuantities globalQuantities.

Definition extractGlobal {Q} (f : FocusedOctree) (globalNodeKeys globalLevelRange : list Z) (globalQuantities localQuantities : list Q) : option (list Q) :=
  let? idx := idxFromGlob f in
  let? idx := gather idx (leafToInternalSpan (octreeAcc_ f)) idx in
  let? letToGlob := mapM (fun i =>
    let? key := (prefixes (arrays (octreeAcc_ f))).[i] in
    locateNode k key globalNodeKeys globalLevelRange) idx in
  gatherScatter letToGlob idx globalQuantities localQuantities.

(** [MPI_Allgatherv]; [contributions] are those of the other ranks. *)
Definition gatherGlobalLeaves {Q} (f : FocusedOctree) (contributions : list (list Q)) (gLeafQLoc gLeafQAll : list Q) : option (list Q) :=
  for_loop 0 (numRanks_ f) (fun rank gLeafQAll =>
    let? data := if rank =? myRank_ f then Some gLeafQLoc else contributions.[rank] in
    let? n := (globNumNodes_ f).[rank] in
    let? displ := (globDispl_ f).[rank] in
    if zlen data =? n then writeFrom data gLeafQAll displ else None) gLeafQAll.

(** The sent contribution, the quantities of the focus tree and those of the global tree [gOctree] with leaves [gLeaves]. *)
Definition globalExchange {Q} (zero : Q) (combine : Z -> Z -> list Q -> option Q) (f : FocusedOctree) (gLeaves : list Z) (gOctree : OctreeData) (contributions : list (list Q)) (quantities globQ : list Q) :
    option (list Q * list Q * list Q) :=
  let? n := (globNumNodes_ f).[myRank_ f] in
  let? gLeafQLoc := populateGlobal f gLeaves quantities (replicate (Z.to_nat n) zero) (replicate (Z.to_nat n) 0) in
  let? gLeafQAll := gatherGlobalLeaves f contributions gLeafQLoc (replicate (Z.to_nat (numLeafNodes gOctree)) zero) in
  let? globQ := scatter (leafToInternalSpan gOctree) gLeafQAll globQ in
  let? globQ := upsweep (levelRange (arrays gOctree)) (childOffsets (arrays gOctree)) combine globQ in
  let? quantities := extractGlobal f (prefixes (arrays gOctree)) (levelRange (arrays gOctree)) globQ quantities in
  Some (gLeafQLoc, quantities, globQ).

(** ** Expansion centers and criteria *)

(** Particle layout of the own leaves before the halo exchange. *)
Definition localLayout (f : FocusedOctree) (firstIdx lastIdx : Z) : option (list Z) :=
  let layout := replicate (length (leafCountsAcc_ f) + 1) 0 in
  let? counts := subspan (leafCountsAcc_ f) firstIdx (lastIdx - firstIdx) in
  writeFrom (inclusive_scan_u32 0 counts) layout (firstIdx + 1).

(** The messages that are sent, those that are left, and the contribution to the global exchange. *)
Definition updateCenters (x y z m : list T) (gLeaves : list Z) (gOctree : OctreeData) (contributions : list (list SourceCenterType)) (arrivals : list (Z * list SourceCenterType)) (f : FocusedOctree) :
    option (list SourceCenterType * list (Z * list SourceCenterType) * list (Z * list SourceCenterType) * FocusedOctree) :=
  let octree := octreeAcc_ f in
  let a := arrays octree in
  let? mine := (assignment_ f).[myRank_ f] in
  let globalCenters := aresize zeroCenter (globalCentersAcc_ f) (numNodes gOctree) in
  let centers := aresize zeroCenter (centersAcc_ f) (numNodes octree) in
  let? layout := localLayout f (start mine) (end_ mine) in
  let? centers := for_loop 0 (numLeafNodes octree) (leafMassCenterBody x y z m (leafToInternalSpan octree) layout) centers in
  let? centers := upsweep (levelRange a) (childOffsets a) CombineSourceCenter centers in
  let? (contribution, centers, globalCenters) := globalExchange zeroCenter CombineSourceCenter f gLeaves gOctree contributions centers globalCenters in
  let? (sent, centers, rest) := peerExchange zeroCenter f arrivals centers in
  let? centers := upsweep (levelRange a) (childOffsets a) CombineSourceCenter centers in
  Some (contribution, sent, rest, setCenters centers globalCenters f).

Definition setMacRadius (invTheta : T) (f : FocusedOctree) : option FocusedOctree :=
  let? centers := setMac sqrt s k (prefixes (arrays (octreeAcc_ f))) (centersAcc_ f) invTheta (box_ f) in
  Some (setCenters centers (globalCentersAcc_ f) f).

Definition updateMacs (assignment : SfcAssignment) (invTheta : T) (accumulate : bool) (f : FocusedOctree) : option (FocusError + FocusedOctree) :=
  let octree := octreeAcc_ f in
  let a := arrays octree in
  if accumulate && negb (zlen (macsAcc_ f) =? numNodes octree) then Some (inl MacFlagsNotAllocated)
  else
    let? f := setMacRadius invTheta f in
    let macs := aresize 0 (macsAcc_ f) (numNodes octree) in
    let? b0 := (rankBoundaries_ assignment).[myRank_ f] in
    let? b1 := (rankBoundaries_ assignment).[myRank_ f + 1] in
    let? fAssignStart := findNodeAbove (leaves_ f) (nNodes (leaves_ f)) b0 in
    let? fAssignEnd := findNodeAbove (leaves_ f) (nNodes (leaves_ f)) b1 in
    let macs := if accumulate then macs else replicate (length macs) 0 in
    let? macs := markMacs s k (prefixes a) (childOffsets a) (parents a) (centersAcc_ f) (box_ f) (drop (Z.to_nat fAssignStart) (leaves_ f)) (fAssignEnd - fAssignStart) false macs in
    Some (inr (setStatus (Z.lor (rebalanceStatus_ f) status_macCriterion) (setMacs macs f))).

Definition updateMinMac (assignment : SfcAssignment) (invThetaEff : T) (accumulate : bool) (f : FocusedOctree) : option (FocusError + FocusedOctree) :=
  let n := numNodes (octreeAcc_ f) in
  let? centers := for_loop 0 n (fun i centers =>
    let? key := (prefixes (arrays (octreeAcc_ f))).[i] in
    aset centers i (computeMinMacR2 s k key invThetaEff (box_ f))) (aresize zeroCenter (centersAcc_ f) n) in
  updateMacs assignment invThetaEff accumulate (setCenters centers (globalCentersAcc_ f) f).

(** ** Halos *)

(** The iteration for the own leaf number [i]. *)
Definition searchBoxBody (x y z h : list T) (layout : list Z) (scale : T) (firstNode i : Z) (st : list (Vec3 T) * list (Vec3 T)) : option (list (Vec3 T) * list (Vec3 T)) :=
  let '(searchCenters, searchSizes) := st in
  let leafIdx := firstNode + i in
  let? first := layout.[i] in
  let? last := layout.[i + 1] in
  let? init := searchCenters.[leafIdx] in
  let? (center, size) := computeBoundingBox x y z h first last scale init in
  let? searchCenters := aset searchCenters leafIdx center in
  let? searchSizes := aset searchSizes leafIdx size in
  Some (searchCenters, searchSizes).

(** [sizes] is the content of the scratch memory. *)
Definition discoverHalos (x y z h : list T) (layout : list Z) (searchExtFact : T) (sizes : list (Vec3 T)) (accumulate : bool) (f : FocusedOctree) : option (FocusError + (list Z * FocusedOctree)) :=
  let octree := octreeAcc_ f in
  let a := arrays octree in
  let? mine := (assignment_ f).[myRank_ f] in
  let firstNode := start mine in
  let lastNode := end_ mine in
  if accumulate && negb (zlen (macsAcc_ f) =? numNodes octree) then Some (inl HaloFlagsNotAllocated)
  else
    let macs := aresize 0 (macsAcc_ f) (numNodes octree) in
    let? searchCenters := gather (leafToInternalSpan octree) (geoCentersAcc_ f) (replicate (Z.to_nat (numLeafNodes octree)) zeroVec) in
    let? layout := aset layout 0 0 in
    let? counts := subspan (leafCountsAcc_ f) firstNode (lastNode - firstNode) in
    let? layout := writeFrom (inclusive_scan_u32 0 counts) layout 1 in
    let? (searchCenters, searchSizes) := for_loop 0 (lastNode - firstNode) (searchBoxBody x y z h layout (s_mul (s_ofZ 2) searchExtFact) firstNode) (searchCenters, sizes) in
    let macs := if accumulate then macs else replicate (length macs) 0 in
    let? macs := findHalos s k (prefixes a) (childOffsets a) (parents a) (geoCentersAcc_ f) (geoSizesAcc_ f) (leaves_ f) searchCenters searchSizes (box_ f) firstNode lastNode macs in
    Some (inr (layout, setMacs macs f)).

(** The status of [checkLayout] and the layout. *)
Definition computeLayout (layout : list Z) (f : FocusedOctree) : option (Z * list Z) :=
  let? mine := (assignment_ f).[myRank_ f] in
  let? layout := computeNodeLayout (leafCountsAcc_ f) (macsAcc_ f) (leafToInternalSpan (octreeAcc_ f)) mine layout in
  let? status := checkLayout (myRank_ f) (assignment_ f) layout (leaves_ f) (u32 (512 * bucketSize_ f)) in
  Some (status, layout).

(** ** Convergence *)

(** What a rank receives in one round: the flags of its interior peers, the messages, and the sum of the convergence
    flags of all ranks. *)
Record Round := mkRound {
  r_intPeers : list Z;
  r_treelets : list (Z * list Z);
  r_rejects : list (Z * list Z);
  r_counts : list (Z * list Z);
  r_converged : Z
}.

(** [None] if the messages end before the ranks have converged. *)
Fixpoint converge (junk : Z -> Z) (box : Box T) (particleKeys : list Z) (assignment : SfcAssignment) (globalTreeLeaves globalCounts : list Z) (invThetaEff : T) (rounds : list Round) (f : FocusedOctree) :
    option (FocusError + FocusedOctree) :=
  match rounds with
  | [] => None
  | r :: rounds =>
      let? res := updateMinMac assignment invThetaEff false f in
      match res with
      | inl e => Some (inl e)
      | inr f =>
          let? res := updateTree junk assignment globalTreeLeaves box (r_intPeers r) (r_treelets r) (r_rejects r) f in
          match res with
          | inl e => Some (inl e)
          | inr (_, _, _, f) =>
              let? (_, _, f) := updateCounts particleKeys globalTreeLeaves globalCounts (r_counts r) f in
              let? f := updateGeoCenters f in
              if r_converged r =? numRanks_ f then Some (inr f)
              else converge junk box particleKeys assignment globalTreeLeaves globalCounts invThetaEff rounds f
          end
      end
  end.

End Class.

Arguments mkFocusedOctree {T}.
