(* ===== verification/FocusCounts.v ===== *)
(** * Particle counts of the focused octrees

    Lemmas on [FocusedOctree::updateCounts] of [cstone/focus/octree_focus_mpi.hpp] for all ranks together: the counts of
    own leaves come from the own particles, those of the peers' leaves from the peers, and the
    remaining ones from the global tree. *)

From S2P Require Import Prelude Primitives SfcCommon Csarray CsInvariant CsRebalance CsCounts CsBuild Octree OctreeNodes OctreeBuild OctreeQueries IndexRanges DomainDecomp Layout FocusRebalance GlobalTree Exchange Distribute Halos HaloExchange NodeLookup Scalars Neighbors IjLoop Treelets TreeletSync TreeletWorld TreeletCells FocusProperties FocusedOctree.

(** ** Sorted ranges *)

Fixpoint sortedRanges (first : Z) (l : list IndexPair) (last : Z) : Prop :=
  match l with
  | [] => first <= last
  | r :: l => first <= start r <= end_ r /\ sortedRanges (end_ r) l last
  end.

Lemma sortedRanges_mono first first' l last : first' <= first -> sortedRanges first l last -> sortedRanges first' l last.
Proof. destruct l as [|r l]; cbn; [lia|]. intros H [H1 H2]. split; [lia|done]. Qed.

Lemma sortedRanges_rangesIn l : forall first last, sortedRanges first l last -> rangesIn first l last.
Proof.
  induction l as [|r l IH]; intros first last; cbn; [done|]. intros [H1 H2]. destruct (Z.eqb_spec (start r) (end_ r)); [|split; [lia|by apply IH]]. apply IH. eapply sortedRanges_mono; [|exact H2]. lia.
Qed.

Definition apart (r r' : IndexPair) : Prop := end_ r <= start r' \/ end_ r' <= start r.

Lemma insertPair_sorted p l : forall first last, sortedRanges first l last -> first <= start p <= end_ p -> end_ p <= last -> Forall (apart p) l -> sortedRanges first (insertPair p l) last.
Proof.
  induction l as [|q l IH]; intros first last Hs Hp Hl Ha; cbn [insertPair]; [cbn; lia|]. cbn in Hs. destruct Hs as [H1 H2]. apply Forall_cons in Ha as [Hq Ha]. unfold apart in Hq.
  destruct (pair_ltb q p) eqn:E; unfold pair_ltb in E.
  - apply orb_true_iff in E. rewrite andb_true_iff, !Z.ltb_lt, Z.eqb_eq in E. cbn. split; [lia|]. apply IH; [done|lia|done|done].
  - apply orb_false_iff in E as [E1 E2]. rewrite andb_false_iff, Z.eqb_neq in E2. rewrite Z.ltb_ge in E1, E2. cbn. split; [lia|]. split; [lia|done].
Qed.

Lemma elem_of_insertPair p l r : r ∈ insertPair p l <-> r = p \/ r ∈ l.
Proof. induction l as [|q l IH]; cbn [insertPair]; [by rewrite list_elem_of_singleton, elem_of_nil; tauto|]. destruct (pair_ltb q p); rewrite !elem_of_cons, ?IH; tauto. Qed.

Lemma elem_of_sortPairs l r : r ∈ sortPairs l <-> r ∈ l.
Proof. induction l as [|p l IH]; [done|]. cbn [sortPairs]. by rewrite elem_of_insertPair, IH, elem_of_cons. Qed.

Lemma sortPairs_sorted first l last : first <= last -> Forall (fun r => first <= start r <= end_ r /\ end_ r <= last) l -> ForallOrdPairs apart l -> sortedRanges first (sortPairs l) last.
Proof.
  intros Hfl Hl Ho. induction Ho as [|p l Hp _ IH]; [done|]. apply Forall_cons in Hl as [[H1 H2] Hl]. cbn [sortPairs]. apply insertPair_sorted; [by apply IH|done|done|].
  apply Forall_forall. intros r Hr. rewrite elem_of_sortPairs in Hr. rewrite Forall_forall in Hp. by apply Hp.
Qed.

Lemma extract_run peers me assignment (g : Z -> IndexPair) : (forall q, q ∈ peers ++ [me] -> assignment.[q] = Some (g q)) -> extractPeerRanges peers me assignment = Some (sortPairs (g <$> (peers ++ [me]))).
Proof.
  intros H. unfold extractPeerRanges. rewrite (gather_correct peers assignment _ g); [|unfold zlen; rewrite length_replicate; lia|intros i q Hi; apply H, elem_of_app; left; by eapply aget_elem].
  cbn beta iota. rewrite (H me) by (apply elem_of_app; right; by apply list_elem_of_singleton). cbn beta iota. rewrite drop_replicate. replace (length peers + 1 - length peers)%nat with 1%nat by lia. cbn [replicate].
  assert (El : zlen ((g <$> peers) ++ [mkIndexPair 0 0]) - 1 = zlen (g <$> peers)) by (rewrite zlen_app; change (zlen [mkIndexPair 0 0]) with 1; lia). rewrite El, aset_middle. cbn beta iota. by rewrite fmap_app.
Qed.

(** ** Numbers of particles *)

Definition countIn (L : list Z) (x y : Z) : Z := zlen (filter (fun z => x <= z < y) L).

Lemma countIn_lt L x y : x <= y -> count_lt y L - count_lt x L = countIn L x y.
Proof.
  intros Hxy. unfold countIn, count_lt, zlen. induction L as [|z L IH]; [done|]. rewrite !filter_cons. repeat case_decide; cbn [length]; lia.
Qed.

Lemma countIn_nonneg L x y : 0 <= countIn L x y.
Proof. apply zlen_nonneg. Qed.

Lemma countIn_add L x y z : x <= y -> y <= z -> countIn L x z = countIn L x y + countIn L y z.
Proof. intros. rewrite <- !countIn_lt by lia. lia. Qed.

Lemma countIn_filter_all L (P : Z -> Prop) `{!forall z, Decision (P z)} x y : (forall z, x <= z < y -> P z) -> countIn (filter P L) x y = countIn L x y.
Proof. intros HP. unfold countIn. rewrite list_filter_filter. f_equal. apply list_filter_iff. intros z. split; [tauto|]. intros Hz. split; [done|by apply HP]. Qed.

Lemma countIn_none L x y : (forall z, z ∈ L -> x <= z < y -> False) -> countIn L x y = 0.
Proof. intros H. unfold countIn. rewrite filter_none; [done|]. apply Forall_forall. intros z Hz Hr. by apply (H z). Qed.

(** Only one of the lists has elements in the range. *)
Lemma countIn_concat (L : Z -> list Z) p l x y : NoDup l -> p ∈ l -> (forall q z, q ∈ l -> q <> p -> z ∈ L q -> x <= z < y -> False) -> countIn (concat (L <$> l)) x y = countIn (L p) x y.
Proof.
  intros Hnd Hp Hq. assert (Happ : forall L1 L2, countIn (L1 ++ L2) x y = countIn L1 x y + countIn L2 x y) by (intros; unfold countIn; by rewrite filter_app, zlen_app).
  induction l as [|r l IH]; [by apply not_elem_of_nil in Hp|]. apply NoDup_cons in Hnd as [Hni Hnd]. rewrite fmap_cons. cbn [concat]. rewrite Happ. destruct (decide (r = p)) as [->|Hne].
  - rewrite (countIn_none (concat (L <$> l))); [lia|]. intros z (L' & HL & Hz)%elem_of_concat Hr. apply list_elem_of_fmap in HL as (q & -> & Hql). apply (Hq q z); [by right|by intros ->|done|done].
  - rewrite (countIn_none (L r)) by (intros z Hz; apply (Hq r z); [by left|done|done]). rewrite IH; [lia|done|by apply elem_of_cons in Hp as [|]|]. intros q z Hql. apply Hq. by right.
Qed.

(** ** Sweeps *)

Definition saturate (n : Z) : Z := Z.min 0xFFFFFFFF n.

Lemma NodeCount_countIn k t L i q c Q : depthLe (maxTreeLevel k) t -> q ∈ innerKeys 1 t ->
  (forall d, 0 <= d < 8 -> Q.[c + d] = Some (saturate (countIn L (nodeStart k (8 * q + d)) (nodeEnd k (8 * q + d))))) -> NodeCount i c Q = Some (saturate (countIn L (nodeStart k q) (nodeEnd k q))).
Proof.
  intros Hd Hq HQ. unfold NodeCount. rewrite (sum8 Q c _ HQ). f_equal. destruct (elem_aget _ _ Hq) as [j Hj]. destruct (inner_node k t Hd j q Hj) as [Hn Hl]. set (l := nodeLevel q) in *. pose proof (proj1 Hn).
  set (D := 8 ^ (maxTreeLevel k - (l + 1))). assert (HD : 0 < D) by (apply pow8_pos; lia). set (a := nodeStart k q). set (g := fun d => countIn L (a + d * D) (a + (d + 1) * D)).
  assert (Hg : forall d, 0 <= d < 8 -> countIn L (nodeStart k (8 * q + d)) (nodeEnd k (8 * q + d)) = g d).
  { intros d Hd'. unfold g, nodeEnd. assert (Hc : nodeAt (l + 1) (8 * q + d)) by (apply nodeAt_child; [done|lia]). rewrite (nodeAt_level _ _ Hc). rewrite (nodeStart_child k l q d) by (done || lia). fold a.
    replace (maxTreeLevel k - l - 1) with (maxTreeLevel k - (l + 1)) by lia. fold D. f_equal; lia. }
  assert (Hsum : zsum (g <$> seqZ 0 8) = countIn L a (nodeEnd k q)).
  { unfold nodeEnd. fold l a. replace (8 ^ (maxTreeLevel k - l)) with (8 * D) by (unfold D; rewrite <- Z.pow_succ_r by lia; f_equal; lia). change (seqZ 0 8) with [0; 1; 2; 3; 4; 5; 6; 7]. cbn [fmap list_fmap zsum foldr]. unfold g.
    rewrite <- !countIn_lt by lia. replace (a + 0 * D) with a by lia. change (0 + 1) with 1. change (1 + 1) with 2. change (2 + 1) with 3. change (3 + 1) with 4. change (4 + 1) with 5. change (5 + 1) with 6. change (6 + 1) with 7. change (7 + 1) with 8. lia. }
  assert (Em : (fun d => saturate (countIn L (nodeStart k (8 * q + d)) (nodeEnd k (8 * q + d)))) <$> seqZ 0 8 = saturate <$> (g <$> seqZ 0 8)).
  { rewrite <- list_fmap_compose. apply list_fmap_ext. intros m d Hm. apply list_elem_of_lookup_2, elem_of_seqZ in Hm. cbn. by rewrite Hg by lia. }
  rewrite Em, <- Hsum. assert (Hpos : Forall (fun c => 0 <= c) (g <$> seqZ 0 8)) by (apply Forall_fmap, Forall_forall; intros; apply countIn_nonneg).
  pose proof (zsum_bounds (saturate <$> (g <$> seqZ 0 8)) 0xFFFFFFFF) as Hb. rewrite !zlen_map, zlen_seqZ in Hb by lia. destruct Hb as [Hb0 Hb1]; [apply Forall_fmap; eapply Forall_impl; [exact Hpos|]; unfold saturate; simpl; lia|].
  change saturate with (Z.min 0xFFFFFFFF) in *. rewrite <- (min_zsum 0xFFFFFFFF (g <$> seqZ 0 8)) by (done || lia). revert Hb0 Hb1. generalize (zsum (Z.min 4294967295 <$> (g <$> seqZ 0 8))). intros x Hx0 Hx1. by rewrite u64_small, stl_min_min, u32_small by lia.
Qed.

(** ** All ranks *)

(** The state of all ranks after [updateTree]: the members belong together, every rank owns the leaves of its own domain, and a
    leaf that neither the rank nor one of its peers owns is bounded by keys of the global tree [gLeaves]. *)
Record focusWorld {T} (k : KeyType) (N : Z) (f : Z -> FocusedOctree (T := T)) (B : Z -> Z) (R : Z -> Z -> bool) (gLeaves : list Z) : Prop := {
  fw_cells : cellWorld k N (fun p => leaves_ (f p)) (fun p => assignment_ (f p)) B R (fun p => octreeAcc_ (f p)) (fun p => treelets_ (f p));
  fw_rank : forall p, 0 <= p < N -> myRank_ (f p) = p;
  fw_peers : forall p, 0 <= p < N -> exteriorPeers_ (f p) = exteriorPeersOf N R p /\ interiorPeers_ (f p) = interiorPeersOf N R p;
  fw_index : forall p, 0 <= p < N -> exists junk, indexTreelets k junk (interiorPeersOf N R p) (prefixes (arrays (octreeAcc_ (f p)))) (levelRange (arrays (octreeAcc_ (f p)))) (treelets_ (f p)) = Some (treeletIdx_ (f p));
  fw_ranges : forall p, 0 <= p < N -> extractPeerRanges (exteriorPeersOf N R p) p (assignment_ (f p)) = Some (peerRanges_ (f p));
  fw_own : forall p, 0 <= p < N -> exists a, (assignment_ (f p)).[p] = Some a /\ start a <= end_ a /\ (leaves_ (f p)).[start a] = Some (B p) /\ (leaves_ (f p)).[end_ a] = Some (B (p + 1));
  fw_tree : csTree k gLeaves;
  fw_global : forall p j, 0 <= p < N -> 0 <= j < nNodes (leaves_ (f p)) -> ~ covers (peerRanges_ (f p)) j -> nthz (leaves_ (f p)) j ∈ gLeaves /\ nthz (leaves_ (f p)) (j + 1) ∈ gLeaves
}.

Section Ranks.
Context {T : Type} (k : KeyType) (N : Z) (f : Z -> FocusedOctree (T := T)) (B : Z -> Z) (R : Z -> Z -> bool) (gLeaves : list Z) (keys : Z -> list Z).
Hypothesis Hf : focusWorld k N f B R gLeaves.

Local Abbreviation ext := (exteriorPeersOf N R).
Local Abbreviation int := (interiorPeersOf N R).
Local Abbreviation L := (fun p => leaves_ (f p)).
Local Abbreviation A := (fun p => assignment_ (f p)).
Local Abbreviation O := (fun p => octreeAcc_ (f p)).
Local Abbreviation lo := (firstKey (fun p => leaves_ (f p)) (fun p => assignment_ (f p))).
Local Abbreviation hi := (lastKey (fun p => leaves_ (f p)) (fun p => assignment_ (f p))).
Let Hcw := fw_cells _ _ _ _ _ _ Hf.
Let Hw := cw_world _ _ _ _ _ _ _ _ Hcw.

Definition rangeOf (p q : Z) : IndexPair := default (mkIndexPair 0 0) ((assignment_ (f p)).[q]).

(** The parts of the peers and the own part. *)
Lemma part_facts p q : 0 <= p < N -> q ∈ ext p ++ [p] -> 0 <= q < N /\ (assignment_ (f p)).[q] = Some (rangeOf p q) /\ 0 <= start (rangeOf p q) <= end_ (rangeOf p q) /\ end_ (rangeOf p q) <= nNodes (leaves_ (f p)) /\
  (leaves_ (f p)).[start (rangeOf p q)] = Some (lo p q) /\ (leaves_ (f p)).[end_ (rangeOf p q)] = Some (hi p q) /\ B q <= lo p q /\ hi p q <= B (q + 1).
Proof using Hf.
  intros Hp [[Hq HR]%elem_ext|Hq%list_elem_of_singleton]%elem_of_app.
  - destruct (peer_facts k N L A B R Hw p q Hp Hq HR) as (_ & a & Ea & H1 & H2 & E1 & E2 & _ & _ & _ & B1 & B2). unfold rangeOf. rewrite Ea. change (default (mkIndexPair 0 0) (Some a)) with a. unfold nNodes. split; [done|]. split; [done|]. split; [done|]. split; [lia|]. done.
  - subst q. destruct (fw_own _ _ _ _ _ _ Hf p Hp) as (a & Ea & Hse & E1 & E2). pose proof (aget_Some_range _ _ _ E1). pose proof (aget_Some_range _ _ _ E2). unfold rangeOf, firstKey, lastKey. rewrite Ea. change (default (mkIndexPair 0 0) (Some a)) with a.
    rewrite (nthz_Some _ _ _ E1), (nthz_Some _ _ _ E2). unfold nNodes. split; [done|]. split; [done|]. split; [lia|]. split; [lia|]. split; [done|]. split; [done|]. lia.
Qed.

Lemma parts_apart p q r : 0 <= p < N -> q ∈ ext p ++ [p] -> r ∈ ext p ++ [p] -> q <> r -> apart (rangeOf p q) (rangeOf p r).
Proof using Hf.
  intros Hp Hq Hr Hne. destruct (part_facts p q Hp Hq) as (Q0 & _ & Q1 & Q2 & Q3 & Q4 & Q5 & Q6). destruct (part_facts p r Hp Hr) as (R0 & _ & R1 & R2 & R3 & R4 & R5 & R6). pose proof (tw_tree _ _ _ _ _ _ Hw p Hp) as HT.
  unfold apart. destruct (Z.lt_ge_cases q r) as [Hlt|Hge].
  - left. destruct (Z.le_gt_cases (end_ (rangeOf p q)) (start (rangeOf p r))) as [|Hgt]; [done|]. apply (cs_lt k _ _ _ _ _ HT R3 Q4) in Hgt. pose proof (tw_domain _ _ _ _ _ _ Hw (q + 1) r). lia.
  - right. destruct (Z.le_gt_cases (end_ (rangeOf p r)) (start (rangeOf p q))) as [|Hgt]; [done|]. apply (cs_lt k _ _ _ _ _ HT Q3 R4) in Hgt. pose proof (tw_domain _ _ _ _ _ _ Hw (r + 1) q). lia.
Qed.

Lemma NoDup_parts p : 0 <= p < N -> NoDup (ext p ++ [p]).
Proof using Hf.
  intros Hp. apply NoDup_app. split; [apply NoDup_peers|]. split; [|apply NoDup_singleton]. intros q [Hq HR]%elem_ext Hin. apply list_elem_of_singleton in Hin as ->.
  by destruct (peer_facts k N L A B R Hw p p Hp Hp HR) as (? & _).
Qed.

Lemma OrdPairs_fmap {X} (g : X -> IndexPair) l : NoDup l -> (forall x y, x ∈ l -> y ∈ l -> x <> y -> apart (g x) (g y)) -> ForallOrdPairs apart (g <$> l).
Proof using.
  induction l as [|x l IH]; intros Hnd H; [constructor|]. apply NoDup_cons in Hnd as [Hni Hnd]. rewrite fmap_cons. constructor.
  - apply Forall_fmap, Forall_forall. intros y Hy. apply H; [by left|by right|by intros ->].
  - apply IH; [done|]. intros y z Hy Hz. apply H; by right.
Qed.

Lemma peerRanges_run p : 0 <= p < N -> peerRanges_ (f p) = sortPairs (rangeOf p <$> (ext p ++ [p])).
Proof using Hf.
  intros Hp. pose proof (fw_ranges _ _ _ _ _ _ Hf p Hp) as E. rewrite (extract_run _ _ _ (rangeOf p)) in E by (intros q Hq; by apply part_facts). by injection E as <-.
Qed.

Lemma peerRanges_covers p j : 0 <= p < N -> covers (peerRanges_ (f p)) j <-> exists q, q ∈ ext p ++ [p] /\ start (rangeOf p q) <= j < end_ (rangeOf p q).
Proof using Hf.
  intros Hp. rewrite peerRanges_run by done. unfold covers. setoid_rewrite elem_of_sortPairs. split.
  - intros (r & (q & -> & Hq)%list_elem_of_fmap & Hj). by exists q.
  - intros (q & Hq & Hj). exists (rangeOf p q). split; [by apply list_elem_of_fmap_2|done].
Qed.

Lemma idxFromGlob_run p : 0 <= p < N -> exists idx, idxFromGlob (f p) = Some idx /\ forall j, j ∈ idx <-> 0 <= j < nNodes (leaves_ (f p)) /\ ~ covers (peerRanges_ (f p)) j.
Proof using Hf.
  intros Hp. destruct (cw_octree _ _ _ _ _ _ _ _ Hcw p Hp) as (t & Ho & El). pose proof (nNodes_leafArray k t) as Hn. rewrite <- El in Hn. pose proof (zlen_nonneg (leafKeys 1 t)).
  assert (Hr : rangesIn 0 (peerRanges_ (f p)) (nNodes (leaves_ (f p)))).
  { rewrite peerRanges_run by done. apply sortedRanges_rangesIn, sortPairs_sorted; [lia| |apply OrdPairs_fmap; [by apply NoDup_parts|intros q r Hq Hr' Hne; by apply parts_apart]].
    apply Forall_fmap, Forall_forall. intros q Hq. destruct (part_facts p q Hp Hq) as (_ & _ & H1 & H2 & _). simpl. lia. }
  unfold idxFromGlob. rewrite (od_numLeaf _ _ _ Ho), <- Hn. destruct (invertRanges_complement 0 _ _ Hr) as (out & -> & F1 & F2 & F3). cbn beta iota.
  rewrite enumerateRanges_concat by (eapply Forall_impl; [exact F1|]; intros ? ?; simpl in *; lia). eexists. split; [done|]. intros j. rewrite elem_of_concat. split.
  - intros (l & (r & -> & Hr')%list_elem_of_fmap & Hj%elem_of_seqZ). unfold count in Hj. rewrite Forall_forall in F2. specialize (F2 r Hr'). simpl in F2. split; [lia|]. apply F3; [lia|]. exists r. split; [done|lia].
  - intros [Hj Hn']. apply F3 in Hn' as (r & Hr' & Hjr); [|done]. exists (seqZ (start r) (count r)). split; [by apply (list_elem_of_fmap_2 (fun r => seqZ (start r) (count r)))|]. apply elem_of_seqZ. unfold count. lia.
Qed.

(** Every rank has the particles of its domain, in key order, and the global counts are exact and fit into 32 bits. *)
Hypothesis Hkeys : forall p, 0 <= p < N -> searchableKeys k (keys p) /\ forall x, x ∈ keys p -> B p <= x < B (p + 1).

Definition particles : list Z := concat (keys <$> seqZ 0 N).
Definition globalCountsOf : list Z := totalCounts (keys <$> seqZ 0 N) gLeaves.

Hypothesis Hcounts : Forall (fun c => c <= 0xFFFFFFFF) globalCountsOf.
Hypothesis Hsize : nNodes gLeaves < 2 ^ 32.

(** The particles that [p] knows about before the exchange: all except for those in the parts of its peers. *)
Definition notOfPeers (p : Z) (z : Z) : Prop := Forall (fun q => ~ (lo p q <= z < hi p q)) (ext p).
#[local] Instance notOfPeers_dec p z : Decision (notOfPeers p z) := _.
Definition knownTo (p : Z) : list Z := filter (notOfPeers p) particles.

Lemma own_count p x y : 0 <= p < N -> B p <= x -> y <= B (p + 1) -> countIn particles x y = countIn (keys p) x y.
Proof using Hf Hkeys.
  intros Hp Hx Hy. apply (countIn_concat keys p); [apply NoDup_seqZ|apply elem_of_seqZ; lia|]. intros q z Hq%elem_of_seqZ Hne Hz Hr. destruct (Hkeys q ltac:(lia)) as [_ Hk]. specialize (Hk z Hz).
  pose proof (tw_domain _ _ _ _ _ _ Hw (q + 1) p). pose proof (tw_domain _ _ _ _ _ _ Hw (p + 1) q). lia.
Qed.

Lemma total_count x y : x <= y -> nodeTotal (keys <$> seqZ 0 N) x y = countIn particles x y.
Proof using.
  intros Hxy. rewrite <- countIn_lt by done. unfold particles. rewrite !count_lt_concat. unfold nodeTotal. induction (keys <$> seqZ 0 N) as [|ks l IH]; [done|]. rewrite !fmap_cons, !zsum_cons. lia.
Qed.

(** The global counts between two keys of the global tree. *)
Lemma global_count x y : x ∈ gLeaves -> y ∈ gLeaves -> x <= y -> countBetween gLeaves globalCountsOf x y = countIn particles x y.
Proof using Hf.
  intros [i Hi]%elem_aget [e He]%elem_aget Hxy. pose proof (fw_tree _ _ _ _ _ _ Hf) as HG. pose proof (aget_Some_range _ _ _ Hi). pose proof (aget_Some_range _ _ _ He).
  assert (Hz : zlen globalCountsOf = nNodes gLeaves) by (unfold globalCountsOf, totalCounts; rewrite zlen_map, zlen_seqZ; [done|unfold nNodes; lia]).
  assert (Hie : i <= e) by (destruct (Z.le_gt_cases i e) as [|Hgt]; [done|]; apply (cs_lt k _ _ _ _ _ HG He Hi) in Hgt; lia).
  rewrite <- (nthz_Some _ _ _ Hi), <- (nthz_Some _ _ _ He). rewrite (countBetween_slice k gLeaves globalCountsOf i e HG Hz ltac:(lia) ltac:(unfold nNodes; lia)).
  assert (Hgen : forall m : nat, i + Z.of_nat m < zlen gLeaves -> zsum (nthz globalCountsOf <$> seqZ i (Z.of_nat m)) = countIn particles (nthz gLeaves i) (nthz gLeaves (i + Z.of_nat m))).
  { induction m as [|m IH]; intros Hm; [rewrite Z.add_0_r; change (seqZ i (Z.of_nat 0)) with (@nil Z); cbn; symmetry; apply countIn_none; lia|].
    replace (Z.of_nat (S m)) with (Z.of_nat m + 1) in * by lia. rewrite seqZ_app, fmap_app, zsum_app, IH by lia. change (seqZ (i + Z.of_nat m) 1) with [i + Z.of_nat m]. cbn [fmap list_fmap zsum foldr]. rewrite Z.add_0_r.
    pose proof (cs_sorted k gLeaves HG) as Hs. assert (Hle : forall a b, 0 <= a <= b -> b < zlen gLeaves -> nthz gLeaves a <= nthz gLeaves b) by (intros a b Hab Hb; apply (Hs a b); [lia|apply nthz_get; lia..]).
    rewrite (countIn_add particles (nthz gLeaves i) (nthz gLeaves (i + Z.of_nat m)) (nthz gLeaves (i + (Z.of_nat m + 1)))) by (apply Hle; lia). f_equal. rewrite Z.add_assoc. apply nthz_Some. unfold globalCountsOf, totalCounts. rewrite aget_map, aget_seqZ by (unfold nNodes; lia). cbn. f_equal. apply total_count. apply Hle; lia. }
  replace (e - i) with (Z.of_nat (Z.to_nat (e - i))) by lia. rewrite Hgen by lia. do 2 f_equal. lia.
Qed.

(** Where a leaf lies. *)
Lemma leaf_place p j x y : 0 <= p < N -> 0 <= j < nNodes (leaves_ (f p)) -> (leaves_ (f p)).[j] = Some x -> (leaves_ (f p)).[j + 1] = Some y ->
  forall q, q ∈ ext p ++ [p] -> start (rangeOf p q) <= j < end_ (rangeOf p q) /\ lo p q <= x /\ y <= hi p q \/ ~ (start (rangeOf p q) <= j < end_ (rangeOf p q)) /\ (hi p q <= x \/ y <= lo p q).
Proof using Hf.
  intros Hp Hj Ex Ey q Hq. destruct (part_facts p q Hp Hq) as (Q0 & _ & Q1 & Q2 & Q3 & Q4 & Q5 & Q6). pose proof (cs_sorted k _ (tw_tree _ _ _ _ _ _ Hw p Hp)) as Hs.
  destruct (decide (start (rangeOf p q) <= j < end_ (rangeOf p q))) as [Hin|Hout]; [left|right]; (split; [done|]).
  - split; [apply (Hs (start (rangeOf p q)) j); (done || lia)|apply (Hs (j + 1) (end_ (rangeOf p q))); (done || lia)].
  - destruct (Z.lt_ge_cases j (start (rangeOf p q))); [right; apply (Hs (j + 1) (start (rangeOf p q))); (done || lia)|left; apply (Hs (end_ (rangeOf p q)) j); (done || lia)].
Qed.

(** A leaf in the part of a peer, and the other leaves. *)
Lemma known_peer p q x y : q ∈ ext p -> lo p q <= x -> y <= hi p q -> countIn (knownTo p) x y = 0.
Proof using. intros Hq Hx Hy. apply countIn_none. intros z [Hz _]%list_elem_of_filter Hr. unfold notOfPeers in Hz. rewrite Forall_forall in Hz. apply (Hz q Hq). lia. Qed.

Lemma known_other p x y : (forall q, q ∈ ext p -> hi p q <= x \/ y <= lo p q) -> countIn (knownTo p) x y = countIn particles x y.
Proof using. intros H. apply countIn_filter_all. intros z Hz. apply Forall_forall. intros q Hq Hr. specialize (H q Hq). lia. Qed.

(** The leaf counts before the exchange. *)
Lemma leafCounts_known p leafCounts0 : 0 <= p < N -> zlen leafCounts0 = nNodes (leaves_ (f p)) -> exists idx c1 c2, idxFromGlob (f p) = Some idx /\
  computeNodeCounts k (leaves_ (f p)) leafCounts0 (nNodes (leaves_ (f p))) (keys p) 0xFFFFFFFF true = Some c1 /\ rangeCount gLeaves globalCountsOf (leaves_ (f p)) idx c1 = Some c2 /\ zlen c2 = nNodes (leaves_ (f p)) /\
  forall j, 0 <= j < nNodes (leaves_ (f p)) -> c2.[j] = Some (saturate (countIn (knownTo p) (nthz (leaves_ (f p)) j) (nthz (leaves_ (f p)) (j + 1)))).
Proof using Hf Hkeys Hcounts Hsize.
  intros Hp Hz0. pose proof (tw_tree _ _ _ _ _ _ Hw p Hp) as HT. pose proof (cs_sorted k _ HT) as Hs. destruct (idxFromGlob_run p Hp) as (idx & Ei & Hidx). destruct (Hkeys p Hp) as [[Hsk Hsr] Hown]. pose proof (fw_tree _ _ _ _ _ _ Hf) as HG. pose proof (treelet_nonempty _ _ _ _ HG).
  assert (Hle : forall j, 0 <= j < nNodes (leaves_ (f p)) -> nthz (leaves_ (f p)) j <= nthz (leaves_ (f p)) (j + 1)) by (intros j Hj; unfold nNodes in Hj; apply (Hs j (j + 1)); [lia|apply nthz_get; lia..]).
  assert (Hz : zlen globalCountsOf = nNodes gLeaves) by (unfold globalCountsOf, totalCounts; rewrite zlen_map, zlen_seqZ; [done|unfold nNodes; lia]).
  assert (Hnn : Forall (fun c => 0 <= c <= 0xFFFFFFFF) globalCountsOf).
  { rewrite Forall_forall in Hcounts |- *. intros c Hc. split; [|by apply Hcounts]. unfold globalCountsOf, totalCounts in Hc. apply list_elem_of_fmap in Hc as (i & -> & Hi%elem_of_seqZ). unfold nNodes in Hi.
    rewrite total_count; [apply countIn_nonneg|]. apply (cs_sorted k _ HG i (i + 1)); [lia|apply nthz_get; lia..]. }
  exists idx. eexists. pose proof (computeNodeCounts_spec k (leaves_ (f p)) (keys p) 0xFFFFFFFF HT Hsk ltac:(lia) leafCounts0 true (fun _ => Hsr) Hz0) as Ec. destruct (rangeCount_exact k gLeaves globalCountsOf (leaves_ (f p)) idx (leafCounts (leaves_ (f p)) (keys p) 0xFFFFFFFF)) as (c2 & E2 & Hz2 & Hin & Hout).
  { done. } { done. } { done. } { by rewrite Hz. } { apply zlen_leafCounts. rewrite <- Hz0. apply zlen_nonneg. } { done. }
  { apply Forall_forall. intros j [Hj Hn]%Hidx. split; [done|]. by apply (fw_global _ _ _ _ _ _ Hf). }
  exists c2. split; [done|]. split; [exact Ec|]. split; [done|]. split; [rewrite Hz2; apply zlen_leafCounts; rewrite <- Hz0; apply zlen_nonneg|]. intros j Hj. pose proof (Hle j Hj) as Hxy. unfold nNodes in Hj. pose proof (nthz_get (leaves_ (f p)) j ltac:(lia)) as Ex. pose proof (nthz_get (leaves_ (f p)) (j + 1) ltac:(lia)) as Ey.
  set (x := nthz (leaves_ (f p)) j) in *. set (y := nthz (leaves_ (f p)) (j + 1)) in *. pose proof (leaf_place p j x y Hp ltac:(unfold nNodes; lia) Ex Ey) as Hpl. destruct (decide (j ∈ idx)) as [Hji|Hji].
  - rewrite (Hin j Hji). fold x y. apply Hidx in Hji as [_ Hnc]. destruct (fw_global _ _ _ _ _ _ Hf p j Hp ltac:(unfold nNodes; lia) Hnc) as [Gx Gy]. fold x in Gx. fold y in Gy. rewrite (global_count x y Gx Gy Hxy). do 2 f_equal. symmetry.
    apply known_other. intros q Hq. destruct (Hpl q ltac:(apply elem_of_app; by left)) as [[Hin' _]|[_ ?]]; [|done]. exfalso. apply Hnc, peerRanges_covers; [done|]. exists q. split; [apply elem_of_app; by left|done].
  - rewrite (Hout j Hji). unfold leafCounts. rewrite aget_map, aget_seqZ by (unfold nNodes; lia). cbn [fmap option_fmap option_map]. rewrite Z.add_0_l. unfold cappedCount. fold x y. rewrite countIn_lt by done. rewrite Z.min_comm. fold (saturate (countIn (keys p) x y)). do 2 f_equal.
    assert (Hcov : covers (peerRanges_ (f p)) j) by (destruct (decide (Exists (fun q => start (rangeOf p q) <= j < end_ (rangeOf p q)) (ext p ++ [p]))) as [(q & Hq & Hqj)%Exists_exists|Hn]; [apply peerRanges_covers; [done|]; by exists q|]; exfalso; apply Hji, Hidx; split; [unfold nNodes; lia|]; rewrite peerRanges_covers by done; intros (q & Hq & Hqj); apply Hn, Exists_exists; by exists q).
    apply peerRanges_covers in Hcov as (q & Hq & Hqj); [|done]. destruct (Hpl q Hq) as [(_ & Hx & Hy)|[Hno _]]; [|done]. destruct (part_facts p q Hp Hq) as (Q0 & _ & _ & _ & _ & _ & Q5 & Q6). apply elem_of_app in Hq as [Hq|Hq%list_elem_of_singleton].
    + rewrite (known_peer p q x y Hq Hx Hy). apply countIn_none. intros z Hz' Hr. specialize (Hown z Hz'). apply elem_ext in Hq as [_ HR]. destruct (peer_facts k N L A B R Hw p q Hp Q0 HR) as (Hne & _). pose proof (tw_domain _ _ _ _ _ _ Hw (q + 1) p). pose proof (tw_domain _ _ _ _ _ _ Hw (p + 1) q). lia.
    + subst q. rewrite known_other; [symmetry; apply own_count; (done || lia)|]. intros q Hq. destruct (Hpl q ltac:(apply elem_of_app; by left)) as [[Hqj' _]|[_ ?]]; [|done].
      assert (Hne : q <> p) by (intros ->; apply elem_ext in Hq as [_ HR]; by destruct (peer_facts k N L A B R Hw p p Hp Hp HR) as (? & _)).
      destruct (parts_apart p q p Hp ltac:(apply elem_of_app; by left) ltac:(apply elem_of_app; right; by apply list_elem_of_singleton) Hne); lia.
Qed.

Definition nodeCountOf (L : list Z) (q : Z) : Z := saturate (countIn L (nodeStart k q) (nodeEnd k q)).
Definition knownCounts (p : Z) : list Z := nodeCountOf (knownTo p) <$> prefixes (arrays (octreeAcc_ (f p))).

(** A sweep from the leaves. *)
Lemma sweep_run p t C Q : octreeDataOf k t (octreeAcc_ (f p)) -> zlen Q = zlen (prefixes (arrays (octreeAcc_ (f p)))) -> (forall q, q ∈ leafKeys 1 t -> Q.[pos (arrays (octreeAcc_ (f p))) q] = Some (nodeCountOf C q)) ->
  upsweep (levelRange (arrays (octreeAcc_ (f p)))) (childOffsets (arrays (octreeAcc_ (f p)))) NodeCount Q = Some (nodeCountOf C <$> prefixes (arrays (octreeAcc_ (f p)))).
Proof using.
  intros Ho Hz HQ. destruct (upsweep_correct k t _ (od_depth _ _ _ Ho) (od_linked _ _ _ Ho) NodeCount (nodeCountOf C) Q) as (Q' & -> & Hz' & HQ').
  - intros i q c Q1 Hq. by apply (NodeCount_countIn k t C i q c Q1 (od_depth _ _ _ Ho)).
  - done.
  - intros i q Hi Hq. rewrite (pos_node k t _ (od_linked _ _ _ Ho) i q Hi). by apply HQ.
  - f_equal. apply list_eq_aget; [by rewrite zlen_map|]. intros i Hi. rewrite aget_map. destruct (aget_is_Some (prefixes (arrays (octreeAcc_ (f p)))) i ltac:(lia)) as [q Hq]. rewrite Hq. by apply HQ'.
Qed.

Lemma scatter_leaves p t c Q C : octreeDataOf k t (octreeAcc_ (f p)) -> leaves_ (f p) = leafArray k t -> zlen Q = zlen (prefixes (arrays (octreeAcc_ (f p)))) -> zlen c = nNodes (leaves_ (f p)) ->
  (forall j, 0 <= j < nNodes (leaves_ (f p)) -> c.[j] = Some (saturate (countIn C (nthz (leaves_ (f p)) j) (nthz (leaves_ (f p)) (j + 1))))) ->
  exists Q', scatter (leafToInternalSpan (octreeAcc_ (f p))) c Q = Some Q' /\ zlen Q' = zlen Q /\ forall q, q ∈ leafKeys 1 t -> Q'.[pos (arrays (octreeAcc_ (f p))) q] = Some (nodeCountOf C q).
Proof using.
  intros Ho El Hz Hc Hv. pose proof (od_linked _ _ _ Ho) as Hl. rewrite (leafMap_run k t _ Ho). assert (Hn : nNodes (leaves_ (f p)) = zlen (leafKeys 1 t)) by (rewrite El; apply nNodes_leafArray).
  assert (Hall : forall q, q ∈ leafKeys 1 t -> q ∈ allKeys 1 t) by (intros q Hq; apply elem_of_app; by right). pose proof (allKeys_NoDup 1 t ltac:(lia)) as Hnd. apply NoDup_app in Hnd as (_ & _ & Hnd).
  destruct (scatter_correct (pos (arrays (octreeAcc_ (f p))) <$> leafKeys 1 t) c Q) as (Q' & -> & Hz' & Hin & _).
  - apply NoDup_fmap_2_strong; [|done]. intros x y Hx Hy. apply (pos_inj k t _ Hl); by apply Hall.
  - rewrite zlen_map. lia.
  - intros i o Hi. rewrite aget_map in Hi. destruct ((leafKeys 1 t).[i]) as [q|] eqn:Eq; [|done]. cbn in Hi. injection Hi as <-. rewrite Hz. apply (pos_range k t _ Hl). by apply Hall, (aget_elem _ _ _ Eq).
  - exists Q'. split; [done|]. split; [done|]. intros q [j Hj]%elem_aget. rewrite (Hin j) by (by rewrite aget_map, Hj). pose proof (aget_Some_range _ _ _ Hj). rewrite Hv by lia. destruct (leafArray_leaf k t (od_depth _ _ _ Ho) j q Hj) as (E1 & E2 & _). rewrite El, (nthz_Some _ _ _ E1), (nthz_Some _ _ _ E2). done.
Qed.

(** The counts of all nodes of [p] after the update, and the leaves' counts. *)
Definition exactCounts (p : Z) : list Z := nodeCountOf particles <$> prefixes (arrays (octreeAcc_ (f p))).
Definition exactLeafCounts (p : Z) : list Z := (fun j => saturate (countIn particles (nthz (leaves_ (f p)) j) (nthz (leaves_ (f p)) (j + 1)))) <$> seqZ 0 (nNodes (leaves_ (f p))).

Lemma counts_world p arrivals : 0 <= p < N -> arrivals ≡ₚ (fun q => (q, cellOf 0 O knownCounts q <$> nodesOf A O p q)) <$> ext p ->
  updateCounts k (keys p) gLeaves globalCountsOf arrivals (f p) =
    Some (sentCellsOf 0 N A R O knownCounts p, [], setStatus (Z.lor (rebalanceStatus_ (f p)) status_countsCriterion) (setCounts (exactLeafCounts p) (exactCounts p) (f p))).
Proof using Hf Hkeys Hcounts Hsize.
  intros Hp Ha. destruct (cw_octree _ _ _ _ _ _ _ _ Hcw p Hp) as (t & Ho & El). pose proof (od_linked _ _ _ Ho) as Hl. pose proof (nNodes_leafArray k t) as Hn. rewrite <- El in Hn. pose proof (zlen_nonneg (leafKeys 1 t)). unfold updateCounts.
  destruct (leafCounts_known p (aresize 0 (leafCountsAcc_ (f p)) (numLeafNodes (octreeAcc_ (f p)))) Hp) as (idx & c1 & c2 & -> & -> & -> & Hz2 & Hc2); [rewrite (od_numLeaf _ _ _ Ho), zlen_aresize; lia|]. cbn beta iota.
  pose proof (zlen_nonneg (prefixes (arrays (octreeAcc_ (f p))))).
  destruct (scatter_leaves p t c2 (aresize 0 (countsAcc_ (f p)) (numNodes (octreeAcc_ (f p)))) (knownTo p) Ho El) as (Q1 & -> & Hz1 & HQ1); [rewrite (od_numNodes _ _ _ Ho), zlen_aresize; lia|done|done|]. cbn beta iota.
  rewrite (od_numNodes _ _ _ Ho) in Hz1. rewrite zlen_aresize in Hz1 by lia. rewrite (sweep_run p t (knownTo p) Q1 Ho Hz1 HQ1). cbn beta iota. fold (knownCounts p).
  destruct (fw_peers _ _ _ _ _ _ Hf p Hp) as [Ee Ei]. unfold peerExchange. rewrite Ee, Ei. assert (Hzk : forall q, 0 <= q < N -> zlen (knownCounts q) = zlen (prefixes (arrays (O q)))) by (intros; unfold knownCounts; by rewrite zlen_map).
  destruct (fw_index _ _ _ _ _ _ Hf p Hp) as (junk & Eidx). destruct (index_world k N L A B R O (fun p => treelets_ (f p)) Hcw junk p Hp) as (idx' & Eidx' & Hidx'). cbn beta in Eidx'. rewrite Eidx in Eidx'. injection Eidx' as <-.
  destruct (cells_world 0 k N L A B R O (fun p => treelets_ (f p)) knownCounts Hcw Hzk p (treeletIdx_ (f p)) arrivals Hp Hidx' Ha) as (Q2 & -> & Hz3 & Hin & Hout). cbn beta iota.
  rewrite (sweep_run p t particles Q2 Ho).
  - cbn beta iota. fold (exactCounts p). rewrite (gather_correct (leafToInternalSpan (octreeAcc_ (f p))) (exactCounts p) c2 (nthz (exactCounts p))).
    + cbn beta iota. do 3 f_equal. rewrite (leafMap_run k t _ Ho), drop_ge, app_nil_r by (rewrite length_fmap; unfold zlen in Hz2, Hn; lia). f_equal. apply list_eq_aget; [unfold exactLeafCounts; rewrite !zlen_map, zlen_seqZ; lia|].
      intros j Hj. rewrite !zlen_map in Hj. destruct (aget_is_Some (leafKeys 1 t) j Hj) as [q Hq]. unfold exactLeafCounts. rewrite !aget_map, Hq, aget_seqZ by lia. cbn [fmap option_fmap option_map]. rewrite Z.add_0_l. destruct (leafArray_leaf k t (od_depth _ _ _ Ho) j q Hq) as (E1 & E2 & _).
      rewrite El, (nthz_Some _ _ _ E1), (nthz_Some _ _ _ E2). f_equal. apply nthz_Some. unfold exactCounts. rewrite aget_map, (node_pos k t _ Hl q); [done|]. apply elem_of_app. right. by eapply aget_elem.
    + rewrite (leafMap_run k t _ Ho), zlen_map. lia.
    + rewrite (leafMap_run k t _ Ho). intros i o Hi. rewrite aget_map in Hi. destruct ((leafKeys 1 t).[i]) as [q|] eqn:Eq; [|done]. cbn in Hi. injection Hi as <-. apply nthz_get. unfold exactCounts. rewrite zlen_map. apply (pos_range k t _ Hl). apply elem_of_app. right. by eapply aget_elem.
  - rewrite Hz3. by apply Hzk.
  - intros q Hq. destruct (elem_aget _ _ Hq) as [j Hj]. pose proof (aget_Some_range _ _ _ Hj) as Hjr. assert (Hqa : q ∈ allKeys 1 t) by (apply elem_of_app; by right). destruct (leafArray_leaf k t (od_depth _ _ _ Ho) j q Hj) as (E1 & E2 & _). rewrite <- El in E1, E2. fold (nodeEnd k q) in E2.
    pose proof (leaf_place p j _ _ Hp ltac:(lia) E1 E2) as Hpl. destruct (decide (Exists (fun r => start (rangeOf p r) <= j < end_ (rangeOf p r)) (ext p))) as [(r & Hr & Hrj)%Exists_exists|Hnone].
    + pose proof Hr as [Hr0 HR]%elem_ext. destruct (part_facts p r Hp ltac:(apply elem_of_app; by left)) as (_ & Ea & _ & _ & _ & _ & Q5 & Q6). destruct (Hin r (rangeOf p r) j Hr0 HR Ea Hrj) as (i & i' & node & Gi & Gn & Gn' & Gv).
      rewrite (leafMap_get k t _ j q Ho Hj) in Gi. injection Gi as <-. rewrite Gv. rewrite (node_pos k t _ Hl q Hqa) in Gn. injection Gn as <-. unfold knownCounts. rewrite aget_map, Gn'. cbn. unfold nodeCountOf. do 2 f_equal. destruct (Hpl r ltac:(apply elem_of_app; by left)) as [(_ & Hx & Hy)|[Hno _]]; [|done].
      apply known_other. intros r' [Hr' HR']%elem_ext. destruct (peer_facts k N L A B R Hw r r' Hr0 Hr' HR') as (Hne & _ & _ & _ & _ & _ & _ & _ & _ & _ & B1 & B2). pose proof (tw_domain _ _ _ _ _ _ Hw (r + 1) r'). pose proof (tw_domain _ _ _ _ _ _ Hw (r' + 1) r). lia.
    + rewrite Hout.
      * unfold knownCounts. rewrite aget_map, (node_pos k t _ Hl q Hqa). cbn. unfold nodeCountOf. do 2 f_equal. apply known_other. intros r Hr. destruct (Hpl r ltac:(apply elem_of_app; by left)) as [[Hrj _]|[_ ?]]; [|done]. exfalso. apply Hnone, Exists_exists. by exists r.
      * intros r a j' Hr HR Ea Hj' E'. pose proof (proj2 (elem_ext N R p r) (conj Hr HR)) as Hre. destruct (part_facts p r Hp ltac:(apply elem_of_app; by left)) as (_ & Ea' & H1 & H2 & _). rewrite Ea in Ea'. injection Ea' as ->.
        destruct (aget_is_Some (leafKeys 1 t) j' ltac:(lia)) as [q' Hq']. rewrite (leafMap_get k t _ j' q' Ho Hq') in E'. injection E' as E'. apply (pos_inj k t _ Hl) in E' as ->; [|apply elem_of_app; right; by eapply aget_elem|done].
        pose proof (allKeys_NoDup 1 t ltac:(lia)) as Hnd. apply NoDup_app in Hnd as (_ & _ & Hnd). pose proof (aget_Some_range _ _ _ Hq'). rewrite aget_lookup in Hj, Hq' by lia. pose proof (NoDup_lookup _ _ _ _ Hnd Hj Hq'). assert (j = j') as -> by lia. apply Hnone, Exists_exists. by exists r.
Qed.

End Ranks.
