(* ===== verification/FocusTrees.v ===== *)
(** * Update of the focused octrees

    Lemmas on [FocusedOctree::updateTree] of [cstone/focus/octree_focus_mpi.hpp] for all ranks together: the update of the
    own tree, the peers that follow from it, the state that the synchronization leaves, and the marks of the criteria and halos. *)

From S2P Require Import Prelude Primitives SfcCommon Csarray CsInvariant CsRebalance CsCounts CsBuild SfcBox Morton Hilbert Sfc Octree OctreeNodes OctreeBuild OctreeQueries IndexRanges DomainDecomp Layout FocusRebalance FocusInject FocusTree FocusOps FocusUpdate GlobalTree Exchange Distribute Halos HaloExchange ExchangeProperties NodeLookup Scalars FloatBox BoxOverlap Traversal Macs SourceCenter Marking ExactGeometry ExactCoords Neighbors IjLoop Treelets TreeletSync TreeletWorld TreeletCells FocusProperties FocusedOctree FocusCounts.

(** ** Keys inside of nodes *)

Lemma isNode_no_overlap k x y u v : isNode k x y -> isNode k u v -> u < x -> x < v -> v < y -> False.
Proof.
  intros (n & Hn & _ & Hx & -> & _) (m & Hm & _ & Hu & -> & _) H1 H2 H3. pose proof (pow8_pos n ltac:(lia)). pose proof (pow8_pos m ltac:(lia)). destruct (Z.le_gt_cases m n) as [Hmn|Hnm].
  - pose proof (multiples_apart (8 ^ m) u x ltac:(lia) Hu (pow8_divide_trans m n x ltac:(lia) Hx) H1). lia.
  - assert (Hd : (8 ^ n | u + 8 ^ m)) by (apply Z.divide_add_r; [by apply (pow8_divide_trans n m); [lia|]|apply pow8_divide; lia]). pose proof (multiples_apart (8 ^ n) x (u + 8 ^ m) ltac:(lia) Hx Hd H2). lia.
Qed.

(** The leaf that a key lies in. *)
Lemma cs_leaf_of k T x : csTree k T -> 0 <= x < keyMax k -> exists i u v, T.[i] = Some u /\ T.[i + 1] = Some v /\ isNode k u v /\ u <= x < v.
Proof.
  intros Hcs Hx. pose proof (treelet_nonempty _ _ _ _ Hcs) as Hne. pose proof (cs_nodes k _ Hcs) as HN. destruct (decide (nNodes T = 0)) as [E0|Hn0].
  - exfalso. pose proof (treelet_first _ _ _ _ Hcs) as H0. pose proof (treelet_last _ _ _ _ Hcs) as Hl. unfold nNodes in E0. rewrite E0, H0 in Hl. injection Hl as Hl. kfacts k. lia.
  - destruct (nodes_locate k (nNodes T) (nthz T) ltac:(unfold nNodes in *; lia) HN) with (x := x) as (j & Hj & Hloc); [apply nthz_Some, (treelet_first _ _ _ _ Hcs)|apply nthz_Some, (treelet_last _ _ _ _ Hcs)|lia|].
    exists j, (nthz T j), (nthz T (j + 1)). unfold nNodes in *. split; [apply nthz_get; lia|]. split; [apply nthz_get; lia|]. split; [by apply HN|done].
Qed.

(** A tree with a key inside of a node has the bounds of the node. *)
Lemma cs_inside k T x y z : csTree k T -> isNode k x y -> z ∈ T -> x < z < y -> x ∈ T /\ y ∈ T.
Proof.
  intros Hcs Hn Hz Hxz. pose proof Hn as (n & Hn' & Hx0 & _ & _ & Hyk). assert (Hx : x ∈ T).
  { destruct (cs_leaf_of k T x Hcs ltac:(lia)) as (i & u & v & Hu & Hv & Hnuv & Huv). destruct (decide (u = x)) as [<-|Hne]; [by eapply aget_elem|]. exfalso. destruct (cs_gap k T i u v z Hcs Hu Hv Hz); [lia|]. apply (isNode_no_overlap k x y u v); (done || lia). }
  split; [done|]. destruct (elem_aget _ _ Hx) as [i Hi]. destruct (cs_next k T i x Hcs Hi ltac:(lia)) as (x1 & Hi1 & _). apply (cs_node_end k T i x x1); [done|done|done|done|]. destruct (cs_gap k T i x x1 z Hcs Hi Hi1 Hz); lia.
Qed.

Lemma csTree_strong k T : csTree k T -> StronglySorted Z.lt T.
Proof.
  intros Hcs. assert (Hlt : forall i j x y, i < j -> T.[i] = Some x -> T.[j] = Some y -> x < y) by (intros i j x y Hij Hx Hy; by apply (cs_lt k T i j x y Hcs)). clear Hcs. induction T as [|x T IH]; constructor.
  - apply IH. intros i j a b Hij Ha Hb. pose proof (aget_Some_range _ _ _ Ha). apply (Hlt (i + 1) (j + 1)); [lia|rewrite aget_cons_S by lia; rewrite <- Ha; f_equal; lia|rewrite aget_cons_S by lia; rewrite <- Hb; f_equal; lia].
  - apply Forall_forall. intros y [j Hj]%elem_aget. pose proof (aget_Some_range _ _ _ Hj). apply (Hlt 0 (j + 1)); [lia|apply aget_cons_0|rewrite aget_cons_S by lia; rewrite <- Hj; f_equal; lia].
Qed.

(** ** Parts of the ranks *)

Lemma translateRank_counts k s T r : validAssignment k s -> csTree k T -> 0 <= r < assignmentRanks s ->
  translateRank s T r = Some (mkIndexPair (count_lt (nthz (rankBoundaries_ s) r) T) (Z.max (count_lt (nthz (rankBoundaries_ s) r) T) (count_lt (nthz (rankBoundaries_ s) (r + 1) + 1) T - 1))).
Proof.
  intros Hs Hcs Hr. pose proof (cs_sorted k T Hcs) as Hso. unfold translateRank. rewrite !(boundary_get s) by lia. cbn beta iota. unfold findNodeAbove, findNodeBelow. set (a := nthz _ r). set (b := nthz _ (r + 1)).
  pose proof (count_lt_range a T). pose proof (count_lt_range (b + 1) T). rewrite (lower_bound_within T Hso 0 (zlen T) a) by lia. cbn beta iota.
  rewrite (upper_bound_unique T 0 (zlen T) b (count_lt (b + 1) T)).
  - cbn beta iota. do 2 f_equal. destruct (Z.ltb_spec (count_lt (b + 1) T - 1) (count_lt a T)); lia.
  - lia.
  - lia.
  - lia.
  - intros i x Hi Hx. destruct (Z.le_gt_cases x b) as [|Hgt]; [done|]. pose proof (count_lt_le T Hso i x (b + 1) Hx ltac:(lia)). lia.
  - intros i x Hi Hx. destruct (Z.lt_ge_cases b x) as [|Hge]; [done|]. pose proof (count_lt_gt T Hso i x (b + 1) Hx ltac:(lia)). lia.
Qed.

Section Parts.
Context (k : KeyType) (s : SfcAssignment).
Hypothesis Hs : validAssignment k s.
Local Abbreviation B := (nthz (rankBoundaries_ s)).
Local Abbreviation N := (assignmentRanks s).

Definition partIn (T : list Z) (r : Z) : IndexPair := mkIndexPair (count_lt (B r) T) (Z.max (count_lt (B r) T) (count_lt (B (r + 1) + 1) T - 1)).

Lemma boundary_range r : 0 <= r <= N -> 0 <= B r <= keyMax k.
Proof using Hs. intros Hr. destruct (boundary_ends k s Hs) as [H0 Hn]. pose proof (boundary_mono k s Hs 0 r ltac:(lia) ltac:(lia)). pose proof (boundary_mono k s Hs r N ltac:(lia) ltac:(lia)). lia. Qed.

Lemma part_first T r : csTree k T -> 0 <= r <= N -> exists x, T.[count_lt (B r) T] = Some x /\ B r <= x /\ forall z, z ∈ T -> z < x -> z < B r.
Proof using Hs.
  intros Hcs Hr. pose proof (cs_sorted k T Hcs) as Hso. pose proof (treelet_last _ _ _ _ Hcs) as Hl. pose proof (boundary_range r Hr). pose proof (count_lt_range (B r) T). pose proof (count_lt_le T Hso _ _ (B r) Hl ltac:(lia)). pose proof (treelet_nonempty _ _ _ _ Hcs).
  destruct (aget_is_Some T (count_lt (B r) T) ltac:(lia)) as [x Hx]. exists x. split; [done|]. split.
  - destruct (Z.le_gt_cases (B r) x) as [|Hgt]; [done|]. pose proof (count_lt_gt T Hso _ _ (B r) Hx ltac:(lia)). lia.
  - intros z [j Hj]%elem_aget Hz. destruct (Z.lt_ge_cases z (B r)) as [|Hge]; [done|]. pose proof (count_lt_le T Hso _ _ (B r) Hj ltac:(lia)) as Hc. pose proof (Hso _ _ _ _ Hc Hx Hj). lia.
Qed.

Lemma part_last T r : csTree k T -> 0 <= r <= N -> exists x, T.[count_lt (B r + 1) T - 1] = Some x /\ x <= B r /\ forall z, z ∈ T -> x < z -> B r < z.
Proof using Hs.
  intros Hcs Hr. pose proof (cs_sorted k T Hcs) as Hso. pose proof (treelet_first _ _ _ _ Hcs) as H0. pose proof (boundary_range r Hr). pose proof (count_lt_range (B r + 1) T). pose proof (count_lt_gt T Hso _ _ (B r + 1) H0 ltac:(lia)).
  destruct (aget_is_Some T (count_lt (B r + 1) T - 1) ltac:(lia)) as [x Hx]. exists x. split; [done|]. split.
  - destruct (Z.le_gt_cases x (B r)) as [|Hgt]; [done|]. pose proof (count_lt_le T Hso _ _ (B r + 1) Hx ltac:(lia)). lia.
  - intros z [j Hj]%elem_aget Hz. destruct (Z.lt_ge_cases (B r) z) as [|Hge]; [done|]. pose proof (count_lt_gt T Hso _ _ (B r + 1) Hj ltac:(lia)) as Hc. pose proof (Hso j (count_lt (B r + 1) T - 1) _ _ ltac:(lia) Hj Hx). lia.
Qed.

Lemma part_range T r : csTree k T -> 0 <= r < N -> 0 <= start (partIn T r) <= end_ (partIn T r) /\ end_ (partIn T r) < zlen T.
Proof using Hs.
  intros Hcs Hr. destruct (part_first T r Hcs ltac:(lia)) as (x & Hx & _). destruct (part_last T (r + 1) Hcs ltac:(lia)) as (y & Hy & _). pose proof (aget_Some_range _ _ _ Hx). pose proof (aget_Some_range _ _ _ Hy). unfold partIn. cbn [start end_]. lia.
Qed.

(** The position of a key that is the first one of a part, or the last one. *)
Lemma part_at_first T r x : csTree k T -> x ∈ T -> B r <= x -> (forall z, z ∈ T -> z < x -> z < B r) -> T.[count_lt (B r) T] = Some x.
Proof using.
  intros Hcs [i Hi]%elem_aget Hx Hlt. pose proof (cs_sorted k T Hcs) as Hso. rewrite <- Hi. f_equal. apply Z.le_antisymm; [by apply (count_lt_le T Hso i x)|].
  pose proof (count_lt_range (B r) T). pose proof (aget_Some_range _ _ _ Hi). destruct (Z.le_gt_cases i (count_lt (B r) T)) as [|Hgt]; [done|]. destruct (aget_is_Some T (count_lt (B r) T) ltac:(lia)) as [z Hz].
  pose proof (proj2 (cs_lt k T _ _ _ _ Hcs Hz Hi) Hgt) as Hzx. specialize (Hlt z (aget_elem _ _ _ Hz) Hzx). pose proof (count_lt_gt T Hso _ _ (B r) Hz Hlt). lia.
Qed.

Lemma part_at_last T r x : csTree k T -> x ∈ T -> x <= B r -> (forall z, z ∈ T -> x < z -> B r < z) -> T.[count_lt (B r + 1) T - 1] = Some x.
Proof using.
  intros Hcs [i Hi]%elem_aget Hx Hlt. pose proof (cs_sorted k T Hcs) as Hso. rewrite <- Hi. f_equal. pose proof (count_lt_gt T Hso i x (B r + 1) Hi ltac:(lia)). apply Z.le_antisymm; [|lia].
  pose proof (count_lt_range (B r + 1) T). pose proof (aget_Some_range _ _ _ Hi). destruct (Z.le_gt_cases (count_lt (B r + 1) T - 1) i) as [|Hgt]; [done|]. destruct (aget_is_Some T (count_lt (B r + 1) T - 1) ltac:(lia)) as [z Hz].
  pose proof (proj2 (cs_lt k T _ _ _ _ Hcs Hi Hz) Hgt) as Hzx. specialize (Hlt z (aget_elem _ _ _ Hz) Hzx). pose proof (count_lt_le T Hso _ _ (B r + 1) Hz ltac:(lia)). lia.
Qed.

(** A rank whose bounds are keys of the tree. *)
Lemma part_own T r : csTree k T -> 0 <= r < N -> B r ∈ T -> B (r + 1) ∈ T -> T.[start (partIn T r)] = Some (B r) /\ T.[end_ (partIn T r)] = Some (B (r + 1)).
Proof using Hs.
  intros Hcs Hr H1 H2. pose proof (boundary_mono k s Hs r (r + 1) ltac:(lia) ltac:(lia)). pose proof (part_at_first T r (B r) Hcs H1 ltac:(lia) ltac:(lia)) as E1. pose proof (part_at_last T (r + 1) (B (r + 1)) Hcs H2 ltac:(lia) ltac:(lia)) as E2.
  unfold partIn. cbn [start end_]. split; [done|]. assert (count_lt (B r) T <= count_lt (B (r + 1) + 1) T - 1) by (destruct (Z.le_gt_cases (count_lt (B r) T) (count_lt (B (r + 1) + 1) T - 1)) as [|Hgt]; [done|]; apply (cs_lt k T _ _ _ _ Hcs E2 E1) in Hgt; lia). by rewrite Z.max_r.
Qed.

(** The parts are found by [translateAssignment]. *)
Lemma translate_run T : csTree k T -> translateAssignment s T = Some (partIn T <$> seqZ 0 N).
Proof using Hs.
  intros Hcs. unfold translateAssignment. rewrite (mapM_range_Some 0 N _ (partIn T)) by (intros r Hr; by apply (translateRank_counts k)). by rewrite Z.sub_0_r.
Qed.

(** A leaf between the bounds of a rank belongs to its part. *)
Lemma part_leaf T r j x y : csTree k T -> 0 <= r < N -> T.[j] = Some x -> T.[j + 1] = Some y -> B r <= x -> y <= B (r + 1) -> start (partIn T r) <= j < end_ (partIn T r).
Proof using Hs.
  intros Hcs Hr Hx Hy H1 H2. pose proof (cs_sorted k T Hcs) as Hso. pose proof (count_lt_le T Hso j x (B r) Hx H1). pose proof (count_lt_gt T Hso (j + 1) y (B (r + 1) + 1) Hy ltac:(lia)). unfold partIn. cbn [start end_]. lia.
Qed.

(** The bounds of a part that has leaves. *)
Lemma part_bounds T r : csTree k T -> 0 <= r < N -> start (partIn T r) < end_ (partIn T r) -> exists x y, T.[start (partIn T r)] = Some x /\ T.[end_ (partIn T r)] = Some y /\ B r <= x /\ x < y /\ y <= B (r + 1) /\
  (forall z, z ∈ T -> z < x -> z < B r) /\ (forall z, z ∈ T -> y < z -> B (r + 1) < z).
Proof using Hs.
  intros Hcs Hr Hlt. destruct (part_first T r Hcs ltac:(lia)) as (x & Hx & H1 & H2). destruct (part_last T (r + 1) Hcs ltac:(lia)) as (y & Hy & H3 & H4). unfold partIn in *. cbn [start end_] in *. rewrite Z.max_r in * by lia.
  exists x, y. split; [done|]. split; [done|]. split; [done|]. split; [by apply (cs_lt k T _ _ _ _ Hcs Hx Hy)|]. done.
Qed.

End Parts.

(** ** All ranks *)

(** The state of all ranks before [updateTree]: the trees and the criteria belong together, the criteria are up to date, the
    boundaries of the assignment are keys of the global tree, and the offsets that every rank remembers from the previous
    update lie inside of it ([ur_previous]; the code does not establish this when the global tree shrinks). *)
Record updateReady {T} (k : KeyType) (N : Z) (f : Z -> FocusedOctree (T := T)) (assignment : SfcAssignment) (gLeaves : list Z) : Prop := {
  ur_assignment : validAssignment k assignment;
  ur_ranks : assignmentRanks assignment = N;
  ur_offsets : zlen (treeOffsets_ assignment) = N + 1 /\ zlen (numNodesPerRank_ assignment) = N /\
    (forall r, 0 <= r <= N -> gLeaves.[nthz (treeOffsets_ assignment) r] = Some (nthz (rankBoundaries_ assignment) r)) /\
    (forall r, 0 <= r < N -> nthz (numNodesPerRank_ assignment) r = nthz (treeOffsets_ assignment) (r + 1) - nthz (treeOffsets_ assignment) r);
  ur_global : csTree k gLeaves;
  ur_members : forall p, 0 <= p < N -> myRank_ (f p) = p /\ numRanks_ (f p) = N /\ rebalanceStatus_ (f p) = status_valid /\ zlen (treelets_ (f p)) = N;
  ur_tree : forall p, 0 <= p < N -> exists t, octreeDataOf k t (octreeAcc_ (f p)) /\ leaves_ (f p) = leafArray k t;
  ur_criteria : forall p, 0 <= p < N -> focusInput (arrays (octreeAcc_ (f p))) (countsAcc_ (f p)) (macsAcc_ (f p));
  ur_previous : forall p, 0 <= p < N -> zlen (globDispl_ (f p)) = N + 1 /\
    forall r, 0 <= r < N -> 0 <= nthz (globDispl_ (f p)) r <= nthz (globDispl_ (f p)) (r + 1) /\ nthz (globDispl_ (f p)) (r + 1) <= zlen gLeaves
}.

Section Update.
Context {T : Type} `{!Scalar T} (s : SfcKind) (k : KeyType) (N : Z) (f : Z -> FocusedOctree (T := T)) (assignment : SfcAssignment) (gLeaves : list Z).
Hypothesis Hu : updateReady k N f assignment gLeaves.

Local Abbreviation B := (nthz (rankBoundaries_ assignment)).
Let Hva : validAssignment k assignment := ur_assignment _ _ _ _ _ Hu.
Let HN : assignmentRanks assignment = N := ur_ranks _ _ _ _ _ Hu.

Definition enforcedOf (p : Z) : list Z := slice gLeaves (nthz (treeOffsets_ assignment) p) (nthz (treeOffsets_ assignment) (p + 1) + 1).
Definition updatedFocus (p : Z) : option (bool * OctreeData * list Z) :=
  updateFocus k (octreeAcc_ (f p)) (leaves_ (f p)) (bucketSize_ (f p)) (B p) (B (p + 1)) (enforcedOf p) (countsAcc_ (f p)) (macsAcc_ (f p)).
Definition newLeavesOf (p : Z) : list Z := match updatedFocus p with Some (_, _, l) => l | None => [] end.
Definition partsIn (leaves : Z -> list Z) (p : Z) : list IndexPair := partIn assignment (leaves p) <$> seqZ 0 N.
Definition flagsTo (p : Z) : list Z := default [] (focusPeers (globDispl_ (f p)) (partsIn newLeavesOf p) p gLeaves (newLeavesOf p)).
Definition peerOf (p q : Z) : bool := negb (nthz (flagsTo p) q =? 0).

Lemma parts_get leaves p q : 0 <= q < N -> (partsIn leaves p).[q] = Some (partIn assignment (leaves p) q).
Proof using. intros Hq. unfold partsIn. by rewrite aget_map, aget_seqZ by lia. Qed.

Lemma global_boundary r : 0 <= r <= N -> B r ∈ gLeaves.
Proof using Hu. intros Hr. destruct (ur_offsets _ _ _ _ _ Hu) as (_ & _ & H & _). by eapply aget_elem, H. Qed.

Lemma enforced_run p : 0 <= p < N -> subspan gLeaves (nthz (treeOffsets_ assignment) p) (nthz (numNodesPerRank_ assignment) p + 1) = Some (enforcedOf p) /\ Forall (fun x => 0 <= x <= keyMax k) ([B p; B (p + 1)] ++ enforcedOf p).
Proof using Hu.
  intros Hp. destruct (ur_offsets _ _ _ _ _ Hu) as (_ & _ & Ho & Hn). pose proof (Ho p ltac:(lia)) as E1. pose proof (Ho (p + 1) ltac:(lia)) as E2. pose proof (aget_Some_range _ _ _ E1). pose proof (aget_Some_range _ _ _ E2). pose proof (ur_global _ _ _ _ _ Hu) as HG.
  pose proof (boundary_mono k assignment Hva p (p + 1) ltac:(lia) ltac:(lia)) as Hb. assert (nthz (treeOffsets_ assignment) p <= nthz (treeOffsets_ assignment) (p + 1)) by (destruct (Z.le_gt_cases (nthz (treeOffsets_ assignment) p) (nthz (treeOffsets_ assignment) (p + 1))) as [|Hgt]; [done|]; apply (cs_lt k _ _ _ _ _ HG E2 E1) in Hgt; lia).
  split; [rewrite Hn, subspan_run by lia; unfold enforcedOf; do 2 f_equal; lia|]. apply Forall_app. split.
  - apply Forall_cons. split; [apply (boundary_range k assignment Hva); lia|]. apply Forall_cons. split; [apply (boundary_range k assignment Hva); lia|by apply Forall_nil].
  - apply Forall_forall. intros x Hx. apply elem_of_slice in Hx as (j & _ & Hj); [|lia]. apply (cs_elem_range k gLeaves x HG). by eapply aget_elem.
Qed.

(** The own update. *)
Lemma focus_run p : 0 <= p < N -> exists conv o, updatedFocus p = Some (conv, o, newLeavesOf p) /\ csTree k (newLeavesOf p) /\ B p ∈ newLeavesOf p /\ B (p + 1) ∈ newLeavesOf p /\ exists t, octreeDataOf k t o /\ newLeavesOf p = leafArray k t.
Proof using Hu.
  intros Hp. destruct (ur_tree _ _ _ _ _ Hu p Hp) as (t & Ho & El). destruct (enforced_run p Hp) as [_ Hr]. unfold newLeavesOf, updatedFocus. rewrite El.
  destruct (updateFocus_run k t (octreeAcc_ (f p)) Ho (bucketSize_ (f p)) (B p) (B (p + 1)) (enforcedOf p) (countsAcc_ (f p)) (macsAcc_ (f p)) (ur_criteria _ _ _ _ _ Hu p Hp) Hr) as (conv & o & l & -> & Hcs & Hin & Ht & _).
  exists conv, o. split; [done|]. split; [done|]. split; [apply Hin; by left|]. split; [apply Hin; right; by left|done].
Qed.

Lemma flags_run p : 0 <= p < N -> focusPeers (globDispl_ (f p)) (partsIn newLeavesOf p) p gLeaves (newLeavesOf p) = Some (flagsTo p) /\ zlen (flagsTo p) = N /\
  forall q, 0 <= q < N -> (flagsTo p).[q] = Some (if peerOf p q then 1 else 0) /\
    (peerOf p q = false <-> q = p \/ forall x, x ∈ slice (newLeavesOf p) (start (partIn assignment (newLeavesOf p) q)) (end_ (partIn assignment (newLeavesOf p) q)) ->
      x ∈ slice gLeaves (nthz (globDispl_ (f p)) q) (nthz (globDispl_ (f p)) (q + 1))).
Proof using Hu.
  intros Hp. destruct (focus_run p Hp) as (conv & o & _ & Hcs & _). destruct (ur_previous _ _ _ _ _ Hu p Hp) as [Hz Hd]. pose proof (ur_global _ _ _ _ _ Hu) as HG.
  destruct (focusPeers_exact (globDispl_ (f p)) (partsIn newLeavesOf p) p gLeaves (newLeavesOf p)) as (flags & E & Hzf & Hfl).
  { lia. } { by apply (csTree_strong k). } { by apply (csTree_strong k). }
  { intros r Hr. rewrite Hz in Hr. exists (partIn assignment (newLeavesOf p) r). split; [apply parts_get; lia|]. pose proof (part_range k assignment Hva (newLeavesOf p) r Hcs ltac:(lia)). destruct (Hd r ltac:(lia)). lia. }
  assert (Ef : flagsTo p = flags) by (unfold flagsTo; by rewrite E). rewrite Hz in *. replace (N + 1 - 1) with N in * by lia. rewrite Ef. split; [done|]. split; [done|]. intros q Hq. destruct (Hfl q _ Hq (parts_get newLeavesOf p q Hq)) as (v & Ev & H01 & Hv). unfold peerOf. rewrite Ef, (nthz_Some _ _ _ Ev), Ev. destruct H01 as [->| ->]; cbn.
  - split; [done|]. tauto.
  - split; [done|]. rewrite <- Hv. done.
Qed.

Lemma peerList_run flags (g : Z -> bool) : zlen flags = N -> (forall q, 0 <= q < N -> flags.[q] = Some (if g q then 1 else 0)) -> peerFlagsToList flags focusPeerMask = Some (filter (fun q => g q = true) (seqZ 0 N)).
Proof using.
  intros Hz Hg. rewrite peerFlagsToList_run, Hz. f_equal. apply filter_ext_elem. intros q Hq%elem_of_seqZ. rewrite (nthz_Some _ _ _ (Hg q ltac:(lia))). by destruct (g q).
Qed.

(** A peer owns leaves, between its bounds. *)
Lemma peer_part p q : 0 <= p < N -> 0 <= q < N -> peerOf p q = true -> p <> q /\ start (partIn assignment (newLeavesOf p) q) < end_ (partIn assignment (newLeavesOf p) q).
Proof using Hu.
  intros Hp Hq HR. destruct (flags_run p Hp) as (_ & _ & Hfl). destruct (Hfl q Hq) as [_ Hiff]. destruct (focus_run p Hp) as (conv & o & _ & Hcs & _). pose proof (part_range k assignment Hva (newLeavesOf p) q Hcs ltac:(lia)).
  split; [intros ->; assert (peerOf q q = false) by (apply Hiff; by left); congruence|]. destruct (Z.lt_ge_cases (start (partIn assignment (newLeavesOf p) q)) (end_ (partIn assignment (newLeavesOf p) q))) as [|Hge]; [done|]. exfalso.
  assert (peerOf p q = false); [|congruence]. apply Hiff. right. intros x Hx. apply elem_of_slice in Hx as (j & Hj & _); lia.
Qed.

(** The bounds of the part of a peer are keys of the peer. *)
Lemma peer_bounds p q x y : 0 <= p < N -> 0 <= q < N -> start (partIn assignment (newLeavesOf p) q) < end_ (partIn assignment (newLeavesOf p) q) ->
  (newLeavesOf p).[start (partIn assignment (newLeavesOf p) q)] = Some x -> (newLeavesOf p).[end_ (partIn assignment (newLeavesOf p) q)] = Some y ->
  forall G, csTree k G -> B q ∈ G -> B (q + 1) ∈ G -> x ∈ G /\ y ∈ G.
Proof using Hu.
  intros Hp Hq Hlt Ex Ey G HG Gq Gq1. destruct (focus_run p Hp) as (conv & o & _ & Hcs & _). destruct (part_bounds k assignment Hva (newLeavesOf p) q Hcs ltac:(lia) Hlt) as (x' & y' & Ex' & Ey' & H1 & H2 & H3 & H4 & H5). rewrite Ex in Ex'. injection Ex' as <-. rewrite Ey in Ey'. injection Ey' as <-.
  pose proof (aget_Some_range _ _ _ Ex). pose proof (aget_Some_range _ _ _ Ey). pose proof (boundary_range k assignment Hva q ltac:(lia)). pose proof (boundary_range k assignment Hva (q + 1) ltac:(lia)). split.
  - destruct (decide (x = B q)) as [->|Hne]; [done|]. destruct (cs_leaf_of k (newLeavesOf p) (B q) Hcs ltac:(lia)) as (i & u & v & Eu & Ev & Hn & Huv). destruct (decide (u = B q)) as [E|Hneu].
    + specialize (H4 u (aget_elem _ _ _ Eu)). lia.
    + assert (v = x) as ->. { destruct (cs_gap k _ i u v x Hcs Eu Ev (aget_elem _ _ _ Ex)) as [Hle|Hle]; [lia|]. destruct (decide (v = x)) as [|Hne']; [done|]. specialize (H4 v (aget_elem _ _ _ Ev)). lia. }
      by apply (cs_inside k G u x (B q)); [|done|done|lia].
  - destruct (decide (y = B (q + 1))) as [->|Hne]; [done|]. pose proof (cs_elem_range k _ _ Hcs (aget_elem _ _ _ Ey)). destruct (cs_leaf_of k (newLeavesOf p) (B (q + 1) - 1) Hcs ltac:(lia)) as (i & u & v & Eu & Ev & Hn & Huv).
    assert (u = y) as ->. { destruct (cs_gap k _ i u v y Hcs Eu Ev (aget_elem _ _ _ Ey)) as [Hle|Hle]; [|lia]. destruct (decide (u = y)) as [|Hne']; [done|]. specialize (H5 u (aget_elem _ _ _ Eu)). lia. }
    destruct (decide (v = B (q + 1))) as [E|Hnev]; [specialize (H5 v (aget_elem _ _ _ Ev)); lia|]. by apply (cs_inside k G y v (B (q + 1))); [|done|done|lia].
Qed.

Lemma treelet_world : treeletWorld k N newLeavesOf (partsIn newLeavesOf) B peerOf.
Proof using Hu.
  split.
  - intros p Hp. by destruct (focus_run p Hp) as (_ & _ & _ & Hcs & _).
  - intros i j Hij Hj. apply (boundary_mono k assignment Hva); lia.
  - intros p q Hp Hq HR. destruct (peer_part p q Hp Hq HR) as [Hne Hlt]. split; [done|]. destruct (focus_run p Hp) as (conv & o & _ & Hcs & _). destruct (part_bounds k assignment Hva (newLeavesOf p) q Hcs ltac:(lia) Hlt) as (x & y & Ex & Ey & H1 & H2 & H3 & _).
    destruct (focus_run q Hq) as (_ & _ & _ & Hcsq & Bq & Bq1 & _). destruct (peer_bounds p q x y Hp Hq Hlt Ex Ey (newLeavesOf q) Hcsq Bq Bq1). exists (partIn assignment (newLeavesOf p) q), x, y. split; [by apply parts_get|]. split; [lia|]. done.
Qed.

(** ** After the synchronization *)

Local Abbreviation ext := (exteriorPeersOf N peerOf).
Local Abbreviation int := (interiorPeersOf N peerOf).
Definition syncedOf : Z -> list Z := syncedLeaves N newLeavesOf (partsIn newLeavesOf) peerOf.

Lemma synced_subset p x : x ∈ syncedOf p -> x ∈ newLeavesOf p.
Proof using. by intros [_ ?]%list_elem_of_filter. Qed.

Lemma synced_cs p : 0 <= p < N -> csTree k (syncedOf p).
Proof using Hu. apply (synced_tree k N _ _ B _ treelet_world). Qed.

(** The keys of the own domain stay. *)
Lemma synced_domain p x : 0 <= p < N -> B p <= x <= B (p + 1) -> x ∈ newLeavesOf p -> x ∈ syncedOf p.
Proof using Hu.
  intros Hp Hx Hin. apply list_elem_of_filter. split; [|done]. apply keep_iff. intros r Hr HR Hxr. destruct (peer_facts k N _ _ B _ treelet_world p r Hp Hr HR) as (Hne & _ & _ & _ & _ & _ & _ & _ & Ho & _ & B3 & B4).
  pose proof (tw_domain _ _ _ _ _ _ treelet_world (p + 1) r). pose proof (tw_domain _ _ _ _ _ _ treelet_world (r + 1) p). by assert (x = firstKey newLeavesOf (partsIn newLeavesOf) p r) as -> by lia.
Qed.

Lemma synced_own p : 0 <= p < N -> B p ∈ syncedOf p /\ B (p + 1) ∈ syncedOf p.
Proof using Hu.
  intros Hp. destruct (focus_run p Hp) as (_ & _ & _ & _ & H1 & H2 & _). pose proof (boundary_mono k assignment Hva p (p + 1) ltac:(lia) ltac:(lia)). split; apply synced_domain; (done || lia).
Qed.

(** The parts of the peers have the same bounds. *)
Lemma synced_parts p q : 0 <= p < N -> 0 <= q < N -> peerOf p q = true -> exists a, (partsIn syncedOf p).[q] = Some a /\ start a <= end_ a /\
  (syncedOf p).[start a] = Some (firstKey newLeavesOf (partsIn newLeavesOf) p q) /\ (syncedOf p).[end_ a] = Some (lastKey newLeavesOf (partsIn newLeavesOf) p q).
Proof using Hu.
  intros Hp Hq HR. pose proof (synced_cs p Hp) as HS. exists (partIn assignment (syncedOf p) q). split; [by apply parts_get|]. destruct (focus_run p Hp) as (_ & _ & _ & Hcs & _). destruct (peer_part p q Hp Hq HR) as [_ Hlt].
  destruct (part_bounds k assignment Hva (newLeavesOf p) q Hcs ltac:(lia) Hlt) as (x & y & Ex & Ey & H1 & H2 & H3 & H4 & H5). assert (Efl : firstKey newLeavesOf (partsIn newLeavesOf) p q = x /\ lastKey newLeavesOf (partsIn newLeavesOf) p q = y).
  { unfold firstKey, lastKey. rewrite parts_get by done. split; by apply nthz_Some. }
  destruct Efl as [E1 E2]. rewrite E1, E2. assert (Hkeep : forall z, z = x \/ z = y -> z ∈ syncedOf p).
  { intros z Hz. apply list_elem_of_filter. split; [|destruct Hz as [->| ->]; by eapply aget_elem]. destruct Hz as [->| ->].
    - apply (keep_inner k N _ _ B _ treelet_world p q x Hp Hq HR); [rewrite E1, E2; lia|]. rewrite <- E1. by destruct (peer_facts k N _ _ B _ treelet_world p q Hp Hq HR) as (_ & _ & _ & _ & _ & _ & _ & _ & ? & _).
    - rewrite <- E2. by apply (keep_last k N _ _ B _ treelet_world). }
  pose proof (part_at_first k assignment (syncedOf p) q x HS (Hkeep x ltac:(by left)) H1 ltac:(intros z Hz; by apply H4, synced_subset)) as F1. pose proof (part_at_last k assignment (syncedOf p) (q + 1) y HS (Hkeep y ltac:(by right)) H3 ltac:(intros z Hz; by apply H5, synced_subset)) as F2.
  unfold partIn. cbn [start end_]. pose proof (proj1 (cs_lt k _ _ _ _ _ HS F1 F2) H2). rewrite Z.max_r by lia. split; [lia|done].
Qed.

(** A leaf that belongs neither to the rank nor to a peer is bounded by keys of the global tree. *)
Lemma synced_global p j x y : 0 <= p < N -> (syncedOf p).[j] = Some x -> (syncedOf p).[j + 1] = Some y ->
  (forall q, q ∈ ext p ++ [p] -> ~ start (partIn assignment (syncedOf p) q) <= j < end_ (partIn assignment (syncedOf p) q)) -> x ∈ gLeaves /\ y ∈ gLeaves.
Proof using Hu.
  intros Hp Ex Ey Hnone. pose proof (synced_cs p Hp) as HS. pose proof (ur_global _ _ _ _ _ Hu) as HG. pose proof (aget_Some_range _ _ _ Ey). pose proof (proj2 (cs_lt k _ _ _ _ _ HS Ex Ey) ltac:(lia)) as Hxy. pose proof (cs_elem_range k _ _ HS (aget_elem _ _ _ Ex)). pose proof (cs_elem_range k _ _ HS (aget_elem _ _ _ Ey)).
  destruct (cs_next k _ j x HS Ex ltac:(lia)) as (y' & Ey' & Hnode). rewrite Ey in Ey'. injection Ey' as <-. destruct (findRank_total k assignment Hva x ltac:(lia)) as (q & Hq & Hrank). rewrite HN in Hq. apply (findRank_iff k assignment Hva) in Hrank; [|lia].
  pose proof (global_boundary q ltac:(lia)) as Gq. pose proof (global_boundary (q + 1) ltac:(lia)) as Gq1. destruct (Z.le_gt_cases y (B (q + 1))) as [Hin|Hout]; [|apply (cs_inside k gLeaves x y (B (q + 1))); (done || lia)].
  pose proof (part_leaf k assignment Hva (syncedOf p) q j x y HS ltac:(lia) Ex Ey ltac:(lia) Hin) as Hj. assert (Hno : peerOf p q = false /\ q <> p).
  { split; [apply not_true_iff_false; intros HR; apply (Hnone q); [apply elem_of_app; left; apply elem_ext; done|done]|intros ->; apply (Hnone p); [apply elem_of_app; right; by apply list_elem_of_singleton|done]]. }
  destruct Hno as [HR Hqp]. destruct (flags_run p Hp) as (_ & _ & Hfl). destruct (Hfl q ltac:(lia)) as [_ Hiff]. apply Hiff in HR as [|Hsub]; [done|]. destruct (ur_previous _ _ _ _ _ Hu p Hp) as [_ Hd]. specialize (Hd q ltac:(lia)).
  destruct (focus_run p Hp) as (_ & _ & _ & Hcs & _). assert (Hleaf : forall i u v, (newLeavesOf p).[i] = Some u -> (newLeavesOf p).[i + 1] = Some v -> B q <= u -> v <= B (q + 1) -> u ∈ gLeaves).
  { intros i u v Eu Ev H1' H2'. pose proof (part_leaf k assignment Hva (newLeavesOf p) q i u v Hcs ltac:(lia) Eu Ev H1' H2') as Hi. pose proof (part_range k assignment Hva (newLeavesOf p) q Hcs ltac:(lia)). pose proof (slice_get (newLeavesOf p) (start (partIn assignment (newLeavesOf p) q)) (end_ (partIn assignment (newLeavesOf p) q)) (i - start (partIn assignment (newLeavesOf p) q)) ltac:(lia) ltac:(lia)) as Esl.
    replace (start (partIn assignment (newLeavesOf p) q) + (i - start (partIn assignment (newLeavesOf p) q))) with i in Esl by lia. rewrite Eu in Esl. specialize (Hsub u (aget_elem _ _ _ Esl)). apply elem_of_slice in Hsub as (n & _ & Hn); [|lia]. by eapply aget_elem. }
  assert (Hany : forall u, u ∈ newLeavesOf p -> B q <= u < B (q + 1) -> u ∈ gLeaves).
  { intros u [i Hi]%elem_aget Hur. pose proof (boundary_range k assignment Hva (q + 1) ltac:(lia)). destruct (cs_next k _ i u Hcs Hi ltac:(lia)) as (v & Ev & Hnuv). destruct (Z.le_gt_cases v (B (q + 1))) as [Hle|Hgt]; [apply (Hleaf i u v); (done || lia)|]. by apply (cs_inside k gLeaves u v (B (q + 1))); [|done|done|lia]. }
  split; [apply Hany; [apply synced_subset; by eapply aget_elem|lia]|]. destruct (decide (y = B (q + 1))) as [->|]; [done|]. apply Hany; [apply synced_subset; by eapply aget_elem|lia].
Qed.

(** ** The whole update on one rank *)

Record updatedRank (p : Z) (g : FocusedOctree (T := T)) : Prop := {
  up_rank : myRank_ g = p;
  up_ext : exteriorPeers_ g = ext p;
  up_int : interiorPeers_ g = int p;
  up_leaves : leaves_ g = syncedOf p;
  up_octree : exists t, octreeDataOf k t (octreeAcc_ g) /\ syncedOf p = leafArray k t;
  up_treelets : forall q, 0 <= q < N -> peerOf q p = true ->
    (treelets_ g).[q] = Some (filter (fun x => firstKey newLeavesOf (partsIn newLeavesOf) q p <= x <= lastKey newLeavesOf (partsIn newLeavesOf) q p) (syncedOf q));
  up_index : exists junk, indexTreelets k junk (int p) (prefixes (arrays (octreeAcc_ g))) (levelRange (arrays (octreeAcc_ g))) (treelets_ g) = Some (treeletIdx_ g);
  up_assignment : assignment_ g = partsIn syncedOf p;
  up_ranges : extractPeerRanges (ext p) p (assignment_ g) = Some (peerRanges_ g);
  up_displ : globDispl_ g = treeOffsets_ assignment /\ globNumNodes_ g = numNodesPerRank_ assignment;
  up_status : rebalanceStatus_ g = status_invalid
}.

(** Its other members, with the geometry of the nodes in [box]. *)
Record updatedMembers (box : Box T) (p : Z) (g : FocusedOctree (T := T)) : Prop := {
  um_ranks : numRanks_ g = N;
  um_treelets : zlen (treelets_ g) = N;
  um_box : box_ g = box;
  um_geometry : exists t, octreeDataOf k t (octreeAcc_ g) /\ leaves_ g = leafArray k t /\ geometryArrays s k t (arrays (octreeAcc_ g)) box (geoCentersAcc_ g) (geoSizesAcc_ g)
}.

Lemma extract_parts leaves p : 0 <= p < N -> extractPeerRanges (ext p) p (partsIn leaves p) = Some (sortPairs (partIn assignment (leaves p) <$> (ext p ++ [p]))).
Proof using.
  intros Hp. apply extract_run. intros q [[Hq _]%elem_ext|Hq%list_elem_of_singleton]%elem_of_app; [by apply parts_get|]. subst q. by apply parts_get.
Qed.

(** The indices of the treelets exist. *)
Lemma synced_index junk p octree treelets t : 0 <= p < N -> octreeDataOf k t octree -> syncedOf p = leafArray k t ->
  (forall q, 0 <= q < N -> peerOf q p = true -> treelets.[q] = Some (filter (fun x => firstKey newLeavesOf (partsIn newLeavesOf) q p <= x <= lastKey newLeavesOf (partsIn newLeavesOf) q p) (syncedOf q))) ->
  exists idx, indexTreelets k junk (int p) (prefixes (arrays octree)) (levelRange (arrays octree)) treelets = Some idx.
Proof using Hu.
  intros Hp Ho Et Htl. set (octrees := fun q => if q =? p then octree else match Octree.updateInternalTree k (syncedOf q) (OctreeData_resize k octree (nNodes (syncedOf q))) with Some o => o | None => octree end).
  set (trl := fun q => if q =? p then treelets else (fun r => filter (fun x => firstKey newLeavesOf (partsIn newLeavesOf) r q <= x <= lastKey newLeavesOf (partsIn newLeavesOf) r q) (syncedOf r)) <$> seqZ 0 N).
  assert (Hc : cellWorld k N syncedOf (partsIn syncedOf) B peerOf octrees trl).
  { apply (synced_cellWorld k N newLeavesOf (partsIn newLeavesOf) B peerOf (partsIn syncedOf) octrees trl treelet_world); [apply synced_parts| |].
    - intros q Hq. unfold octrees. destruct (Z.eqb_spec q p) as [->|]; [by exists t|]. destruct (updateInternalTree_octreeDataOf k (syncedOf q) octree (synced_cs q Hq)) as (t' & o' & -> & Ho' & Et' & _). by exists t'.
    - intros q r Hq Hr HR. unfold trl. destruct (Z.eqb_spec q p) as [->|]; [by apply Htl|]. by rewrite aget_map, aget_seqZ by lia. }
  destruct (index_world k N syncedOf (partsIn syncedOf) B peerOf octrees trl Hc junk p Hp) as (idx & E & _). unfold octrees, trl in E. rewrite Z.eqb_refl in E. by exists idx.
Qed.

Lemma update_run junk box p intPeers arrivals rejects : 0 <= p < N -> zlen intPeers = N -> (forall q, 0 <= q < N -> intPeers.[q] = (flagsTo q).[p]) ->
  arrivals ≡ₚ (fun q => (q, innerKeysOf newLeavesOf (partsIn newLeavesOf) q p ++ [lastKey newLeavesOf (partsIn newLeavesOf) q p])) <$> int p ->
  rejects ≡ₚ (fun q => (q, rejectedOf newLeavesOf (partsIn newLeavesOf) q p)) <$> ext p ->
  exists conv g, updateTree s k junk assignment gLeaves box intPeers arrivals rejects (f p) =
    Some (inr (conv, (flagsTo p, sentTreeletsOf N newLeavesOf (partsIn newLeavesOf) peerOf p, sentRejectsOf N newLeavesOf (partsIn newLeavesOf) peerOf p), ([], []), g)) /\ updatedRank p g /\ updatedMembers box p g.
Proof using Hu.
  intros Hp Hzi Hi Ha Hr. destruct (ur_members _ _ _ _ _ Hu p Hp) as (Em & En & Es & Ez). destruct (ur_offsets _ _ _ _ _ Hu) as (Z1 & Z2 & _). unfold updateTree. rewrite Em, En, Es. change (status_valid =? status_valid) with true. cbn [negb].
  rewrite !(boundary_get assignment) by lia. rewrite (nthz_get (treeOffsets_ assignment) p), (nthz_get (numNodesPerRank_ assignment) p) by lia. cbn beta iota. rewrite (proj1 (enforced_run p Hp)). cbn beta iota.
  destruct (focus_run p Hp) as (conv & o & Ef & Hcs & _ & _ & t & Ho & Et). unfold updatedFocus in Ef. rewrite Ef. cbn beta iota. pose proof (translate_run k assignment Hva (newLeavesOf p) Hcs) as Etr. rewrite HN in Etr. rewrite Etr. cbn beta iota. fold (partsIn newLeavesOf p).
  destruct (flags_run p Hp) as (Efl & Hzf & Hfl). rewrite Efl. cbn beta iota. rewrite (peerList_run (flagsTo p) (peerOf p)) by (done || (intros q Hq; by apply Hfl)). cbn beta iota. fold (exteriorPeersOf N peerOf p).
  rewrite (peerList_run intPeers (fun q => peerOf q p)); [|done|intros q Hq; rewrite Hi by done; by apply flags_run]. cbn beta iota. fold (interiorPeersOf N peerOf p).
  rewrite (extract_parts newLeavesOf p Hp). cbn beta iota.
  destruct (sync_world k N newLeavesOf (partsIn newLeavesOf) B peerOf treelet_world p o t (treelets_ (f p)) arrivals rejects Hp Ho Et Ez Ha Hr) as (o2 & t2 & tl2 & -> & Ho2 & Et2 & Hz2 & Hin2 & _). cbn beta iota. fold syncedOf in Et2, Hin2 |- *.
  assert (Htl : forall q, 0 <= q < N -> peerOf q p = true -> tl2.[q] = Some (filter (fun x => firstKey newLeavesOf (partsIn newLeavesOf) q p <= x <= lastKey newLeavesOf (partsIn newLeavesOf) q p) (syncedOf q))) by (intros q Hq HR; apply Hin2, elem_int; done).
  destruct (synced_index junk p o2 tl2 t2 Hp Ho2 Et2 Htl) as (idx & Eidx). rewrite Eidx. cbn beta iota. pose proof (translate_run k assignment Hva (syncedOf p) (synced_cs p Hp)) as Etr2. rewrite HN in Etr2. rewrite Etr2. cbn beta iota. fold (partsIn syncedOf p).
  rewrite (extract_parts syncedOf p Hp). cbn beta iota. rewrite !subspan_run by lia. cbn beta iota. unfold updateGeoCenters. cbn [octreeAcc_ box_ geoCentersAcc_ geoSizesAcc_].
  pose proof (zlen_nonneg (prefixes (arrays o2))). destruct (nodeFpCenters_run s k t2 (arrays o2) box (aresize zeroVec (geoCentersAcc_ (f p)) (numNodes o2)) (aresize zeroVec (geoSizesAcc_ (f p)) (numNodes o2)) (od_depth _ _ _ Ho2) (od_linked _ _ _ Ho2)) as (C & S & -> & _ & _ & Hgeo).
  { rewrite (od_numNodes _ _ _ Ho2). apply zlen_aresize. lia. } { rewrite (od_numNodes _ _ _ Ho2). apply zlen_aresize. lia. }
  cbn beta iota. eexists _, _. split; [done|]. split; [|split; cbn; [done|done|done|by exists t2]]. split; cbn; try done.
  - by exists t2.
  - by exists junk.
  - by apply extract_parts.
  - split; unfold slice; rewrite Z.sub_0_r; change (Z.to_nat 0) with 0%nat; rewrite drop_0, take_ge; try done; unfold zlen in *; lia.
Qed.

(** All ranks together. *)
Lemma updated_world g : (forall p, 0 <= p < N -> updatedRank p (g p)) -> focusWorld k N g B peerOf gLeaves.
Proof using Hu.
  intros Hg. assert (Hl : forall p, 0 <= p < N -> leaves_ (g p) = syncedOf p) by (intros p Hp; apply Hg; done). assert (Ha : forall p, 0 <= p < N -> assignment_ (g p) = partsIn syncedOf p) by (intros p Hp; apply Hg; done).
  assert (Hr : forall p, 0 <= p < N -> peerRanges_ (g p) = sortPairs (partIn assignment (syncedOf p) <$> (ext p ++ [p]))).
  { intros p Hp. pose proof (up_ranges _ _ (Hg p Hp)) as E. rewrite Ha, extract_parts in E by done. by injection E as <-. }
  split.
  - apply (cellWorld_ext k N syncedOf _ (partsIn syncedOf)); [intros p Hp; split; symmetry; [by apply Hl|by apply Ha]|]. apply (synced_cellWorld k N newLeavesOf (partsIn newLeavesOf) B peerOf (partsIn syncedOf)); [apply treelet_world|apply synced_parts|intros p Hp; apply (Hg p Hp)|intros p q Hp Hq HR; by apply (Hg p Hp)].
  - intros p Hp. apply (Hg p Hp).
  - intros p Hp. split; apply (Hg p Hp).
  - intros p Hp. apply (Hg p Hp).
  - intros p Hp. apply (Hg p Hp).
  - intros p Hp. exists (partIn assignment (syncedOf p) p). rewrite Ha, Hl by done. destruct (synced_own p Hp) as [H1 H2]. destruct (part_own k assignment Hva (syncedOf p) p (synced_cs p Hp) ltac:(lia) H1 H2). split; [by apply parts_get|]. split; [apply (part_range k assignment Hva (syncedOf p) p (synced_cs p Hp)); lia|done].
  - apply Hu.
  - intros p j Hp Hj Hnc. rewrite Hl in * by done. unfold nNodes in Hj. apply (synced_global p j); [done|apply nthz_get; lia|apply nthz_get; lia|]. intros q Hq Hjq. apply Hnc. rewrite Hr by done. exists (partIn assignment (syncedOf p) q). split; [|done]. apply elem_of_sortPairs. by apply list_elem_of_fmap_2.
Qed.

(** A rank keeps the keys of the global tree in its own domain. *)
Lemma synced_enforced q x : 0 <= q < N -> x ∈ gLeaves -> B q <= x <= B (q + 1) -> x ∈ syncedOf q.
Proof using Hu.
  intros Hq [i Hi]%elem_aget Hx. apply synced_domain; [done|done|]. destruct (ur_tree _ _ _ _ _ Hu q Hq) as (t & Ho & El). destruct (enforced_run q Hq) as [_ Hr]. destruct (focus_run q Hq) as (conv & o & E & _). unfold updatedFocus in E. rewrite El in E.
  destruct (updateFocus_run k t (octreeAcc_ (f q)) Ho (bucketSize_ (f q)) (B q) (B (q + 1)) (enforcedOf q) (countsAcc_ (f q)) (macsAcc_ (f q)) (ur_criteria _ _ _ _ _ Hu q Hq) Hr) as (conv' & o' & l & E' & _ & Hin & _).
  rewrite E in E'. injection E' as <- <- ->. apply Hin. do 2 right. destruct (ur_offsets _ _ _ _ _ Hu) as (_ & _ & Hoff & _). pose proof (Hoff q ltac:(lia)) as E1. pose proof (Hoff (q + 1) ltac:(lia)) as E2.
  pose proof (ur_global _ _ _ _ _ Hu) as HG. assert (Hle : forall a b u v, gLeaves.[a] = Some u -> gLeaves.[b] = Some v -> u <= v -> a <= b) by (intros a b u v Ha Hb Huv; destruct (Z.le_gt_cases a b) as [|Hgt]; [done|]; apply (cs_lt k _ _ _ _ _ HG Hb Ha) in Hgt; lia).
  pose proof (Hle _ _ _ _ E1 Hi ltac:(lia)). pose proof (Hle _ _ _ _ Hi E2 ltac:(lia)). pose proof (aget_Some_range _ _ _ E1). pose proof (aget_Some_range _ _ _ Hi). unfold enforcedOf. set (o1 := nthz (treeOffsets_ assignment) q) in *. set (o2 := nthz (treeOffsets_ assignment) (q + 1)) in *.
  apply (aget_elem _ (i - o1)). rewrite slice_get by lia. by replace (o1 + (i - o1)) with i by lia.
Qed.

(** The keys that bound the leaves which a rank assigns to another one are keys of that rank. *)
Lemma updated_shared g : (forall p, 0 <= p < N -> updatedRank p (g p)) -> forall p q j, 0 <= p < N -> 0 <= q < N -> p <> q ->
  start (partIn assignment (leaves_ (g p)) q) <= j < end_ (partIn assignment (leaves_ (g p)) q) -> nthz (leaves_ (g p)) j ∈ leaves_ (g q) /\ nthz (leaves_ (g p)) (j + 1) ∈ leaves_ (g q).
Proof using Hu.
  intros Hg p q j Hp Hq Hne Hj. pose proof (updated_world g Hg) as Hf. pose proof (fw_cells _ _ _ _ _ _ Hf) as Hc. assert (Ea : (assignment_ (g p)).[q] = Some (partIn assignment (leaves_ (g p)) q)) by (rewrite (up_assignment _ _ (Hg p Hp)), (up_leaves _ _ (Hg p Hp)); by apply parts_get).
  pose proof (synced_cs p Hp) as HT. rewrite <- (up_leaves _ _ (Hg p Hp)) in HT. pose proof (part_range k assignment Hva (leaves_ (g p)) q HT ltac:(lia)) as Hr. assert (Hs : forall i1 i2 u v, (leaves_ (g p)).[i1] = Some u -> (leaves_ (g p)).[i2] = Some v -> i1 <= i2 -> u <= v) by (intros i1 i2 u v E1 E2 H12; by apply (cs_sorted k _ HT i1 i2)). set (a := partIn assignment (leaves_ (g p)) q) in *.
  pose proof (nthz_get (leaves_ (g p)) j ltac:(lia)) as Ex. pose proof (nthz_get (leaves_ (g p)) (j + 1) ltac:(lia)) as Ey. destruct (peerOf p q) eqn:HR.
  - assert (Hkey : forall i, start a <= i <= end_ a -> nthz (leaves_ (g p)) i ∈ leaves_ (g q)); [|split; apply Hkey; lia]. intros i Hi. pose proof (nthz_get (leaves_ (g p)) i ltac:(lia)) as Ei.
    apply (cw_synced _ _ _ _ _ _ _ _ Hc p q); [done|done|done|by eapply aget_elem|]. unfold firstKey, lastKey. rewrite Ea. change (default (mkIndexPair 0 0) (Some a)) with a. pose proof (nthz_get (leaves_ (g p)) (start a) ltac:(lia)) as E1. pose proof (nthz_get (leaves_ (g p)) (end_ a) ltac:(lia)) as E2. split; [apply (Hs (start a) i); (done || lia)|apply (Hs i (end_ a)); (done || lia)].
  - assert (Hnc : ~ covers (peerRanges_ (g p)) j).
    { rewrite (peerRanges_covers k N g B peerOf gLeaves Hf p j Hp). intros (r & Hrr & Hjr). assert (Hrn : 0 <= r < N) by (apply (part_facts k N g B peerOf gLeaves Hf p r Hp Hrr)). assert (Hrq : r <> q) by (intros ->; apply elem_of_app in Hrr as [[_ ?]%elem_ext|Hrr%list_elem_of_singleton]; congruence).
      unfold rangeOf in Hjr. rewrite (up_assignment _ _ (Hg p Hp)), parts_get in Hjr by done. rewrite <- (up_leaves _ _ (Hg p Hp)) in Hjr. change (default (mkIndexPair 0 0) (Some ?x)) with x in Hjr.
      destruct (part_bounds k assignment Hva (leaves_ (g p)) q HT ltac:(lia) ltac:(fold a; lia)) as (x & y & E1 & E2 & H1 & H2 & H3 & _). destruct (part_bounds k assignment Hva (leaves_ (g p)) r HT ltac:(lia) ltac:(lia)) as (x' & y' & E1' & E2' & H1' & H2' & H3' & _). fold a in E1, E2.
      pose proof (Hs _ _ _ _ E1 Ex ltac:(lia)). pose proof (Hs _ _ _ _ Ey E2 ltac:(lia)). pose proof (Hs _ _ _ _ E1' Ex ltac:(lia)). pose proof (Hs _ _ _ _ Ey E2' ltac:(lia)). pose proof (proj2 (cs_lt k _ _ _ _ _ HT Ex Ey) ltac:(lia)).
      destruct (Z.lt_ge_cases q r); [pose proof (boundary_mono k assignment Hva (q + 1) r ltac:(lia) ltac:(lia)); lia|pose proof (boundary_mono k assignment Hva (r + 1) q ltac:(lia) ltac:(lia)); lia]. }
    destruct (fw_global _ _ _ _ _ _ Hf p j Hp ltac:(unfold nNodes; lia) Hnc) as [Gx Gy]. destruct (part_bounds k assignment Hva (leaves_ (g p)) q HT ltac:(lia) ltac:(fold a; lia)) as (x & y & E1 & E2 & H1 & H2 & H3 & _). fold a in E1, E2.
    pose proof (Hs _ _ _ _ E1 Ex ltac:(lia)). pose proof (Hs _ _ _ _ Ey E2 ltac:(lia)). pose proof (proj2 (cs_lt k _ _ _ _ _ HT Ex Ey) ltac:(lia)). rewrite (up_leaves _ _ (Hg q Hq)). split; apply synced_enforced; (done || lia).
Qed.

End Update.

(** ** Marks of the focused octree

    Lemmas on [updateMacs], [updateMinMac] and [discoverHalos] for one rank: they stay in bounds, and a node that is marked has
    marked ancestors, which is what the next [updateTree] relies on. *)

(** ** Criteria *)

Lemma aresize_id {A} (d : A) l : aresize d l (zlen l) = l.
Proof. unfold aresize, zlen. rewrite Nat2Z.id, take_ge, Nat.sub_diag by lia. apply app_nil_r. Qed.

(** Whoever is marked has a marked parent, and no node counts more than its parent. *)
Definition marksUp (o : OctreeArrays) (macs : list Z) : Prop :=
  forall i p, 0 < i < zlen (prefixes o) -> (parents o).[Z.quot (i - 1) 8] = Some p -> nthz macs p = 0 -> nthz macs i = 0.
Definition countsUp (o : OctreeArrays) (counts : list Z) : Prop :=
  forall i p, 0 < i < zlen (prefixes o) -> (parents o).[Z.quot (i - 1) 8] = Some p -> nthz counts i <= nthz counts p.

Section Tree.
Context (k : KeyType) (t : otree) (o : OctreeData).
Hypothesis Ho : octreeDataOf k t o.

Local Abbreviation a := (arrays o).
Let Hd := od_depth _ _ _ Ho.
Let Hl := od_linked _ _ _ Ho.

Lemma parent_link i p : 0 < i < zlen (prefixes a) -> (parents a).[Z.quot (i - 1) 8] = Some p -> exists q, (prefixes a).[i] = Some q /\ q ∈ allKeys 1 t /\ q / 8 ∈ allKeys 1 t /\ below (q / 8) q /\ p = pos a (q / 8) /\ i = pos a q.
Proof using Ho.
  intros Hi Hp. destruct (index_node k t a Hd Hl i ltac:(lia)) as (q & Eq & Hq & ->). assert (Hq1 : q <> 1) by (intros ->; rewrite (pos_root k t a Hd Hl) in Hi; lia).
  destruct (node_links k t a Hd Hl q Hq Hq1) as (Hin & _ & _ & _ & Epar & _). rewrite Hp in Epar. injection Epar as ->. exists q. split; [done|]. split; [done|]. split; [apply elem_of_app; by left|]. split; [|done].
  apply below_child with (q mod 8); [apply Z.mod_pos_bound; lia|]. rewrite <- Z_div_mod_eq_full. apply below_refl.
Qed.

Lemma reached_up (crit : Z -> bool) p q : p ∈ allKeys 1 t -> below p q -> reached t crit q -> reached t crit p.
Proof using. intros Hp Hb [_ Hc]. split; [done|]. intros r Hr Hrp. apply Hc; [done|]. by apply below_trans with p. Qed.

(** A traversal that marks what it reaches keeps the property. *)
Lemma marksUp_more {X} (P : X -> Prop) (crit : X -> Z -> bool) flags flags' : marksUp a flags -> marksMore flags flags' (fun j => exists x q, P x /\ reached t (crit x) q /\ pos a q = j) -> marksUp a flags'.
Proof using Ho.
  intros Hf [_ Hm] i p Hi Hp Hz. destruct (decide (nthz flags' i = 0)) as [|Hn]; [done|]. exfalso. destruct (parent_link i p Hi Hp) as (q & _ & Hq & Hq8 & Hb & -> & ->).
  assert (nthz flags' (pos a (q / 8)) <> 0); [|done]. apply Hm. apply Hm in Hn as [Hn|(x & q' & HP & Hr & E)].
  - left. intros E. by apply Hn, (Hf (pos a q) (pos a (q / 8))).
  - right. exists x, (q / 8). split; [done|]. split; [|done]. rewrite (pos_inj k t a Hl q' q (proj1 Hr) Hq E) in Hr. by apply (reached_up _ _ q).
Qed.

Lemma nthz_zeros n i : nthz (replicate n 0) i = 0.
Proof using. unfold nthz. destruct ((replicate n 0).[i]) as [v|] eqn:E; [|done]. apply aget_elem, elem_of_replicate in E as [-> _]. done. Qed.

Lemma marksUp_zeros n : marksUp a (replicate n 0).
Proof using. intros i p _ _ _. apply nthz_zeros. Qed.

Lemma countsUp_exact particles : countsUp a (nodeCountOf k particles <$> prefixes a).
Proof using Ho.
  intros i p Hi Hp. destruct (parent_link i p Hi Hp) as (q & _ & Hq & Hq8 & Hb & -> & ->). rewrite !(nthz_Some _ _ (nodeCountOf k particles _)) by (rewrite aget_map, (node_pos k t a Hl) by done; done).
  destruct (below_range k _ (q / 8) q (proj1 (key_treeNode k t Hd _ Hq8)) Hb (proj2 (key_treeNode k t Hd _ Hq))) as (_ & _ & Hs & He). unfold nodeCountOf. change saturate with (Z.min 0xFFFFFFFF).
  assert (countIn particles (nodeStart k q) (nodeEnd k q) <= countIn particles (nodeStart k (q / 8)) (nodeEnd k (q / 8))); [|lia]. fold (nodeEnd k q) in He. fold (nodeEnd k (q / 8)) in He.
  unfold countIn. clear -Hs He. induction particles as [|x l IH]; [done|]. rewrite !filter_cons. destruct (decide (nodeStart k q <= x < nodeEnd k q)), (decide (nodeStart k (q / 8) <= x < nodeEnd k (q / 8))); rewrite ?zlen_cons; lia.
Qed.

Lemma criteria_input counts macs : zlen counts = zlen (prefixes a) -> zlen macs = zlen (prefixes a) -> countsUp a counts -> marksUp a macs -> focusInput a counts macs.
Proof using. intros Hc Hm H1 H2. split; [done|done|]. intros i p Hi Hp. split; [by apply H1|by apply H2]. Qed.

End Tree.

(** ** Acceptance criteria *)

Section Criteria.
Context {T : Type} `{!Scalar T} (sqrt : T -> T) (s : SfcKind) (k : KeyType) (t : otree) (f : FocusedOctree (T := T)) (assignment : SfcAssignment).
Hypothesis Ho : octreeDataOf k t (octreeAcc_ f).
Hypothesis El : leaves_ f = leafArray k t.
Hypothesis Ha : validAssignment k assignment.
Hypothesis Hr : 0 <= myRank_ f < assignmentRanks assignment.

Local Abbreviation a := (arrays (octreeAcc_ f)).
Local Abbreviation n := (zlen (prefixes (arrays (octreeAcc_ f)))).

Lemma setMac_run invTheta centers : zlen centers = n -> exists centers', setMac sqrt s k (prefixes a) centers invTheta (box_ f) = Some centers' /\ zlen centers' = n.
Proof using.
  intros Hz. unfold setMac. apply (for_loop_inv (fun _ c => zlen c = n)); [apply zlen_nonneg|done|]. intros i c Hi Hc. destruct (aget_is_Some c i ltac:(lia)) as [v ->]. destruct (aget_is_Some (prefixes a) i Hi) as [key ->]. cbn beta iota zeta.
  match goal with |- exists _, aset ?l ?i ?v = _ /\ _ => pose proof (aset_Some l i v ltac:(lia)) as F end. eexists. split; [exact F|]. by rewrite (aset_zlen _ _ _ _ F).
Qed.

Lemma findBoundary r : 0 <= r <= assignmentRanks assignment -> exists x, findNodeAbove (leaves_ f) (nNodes (leaves_ f)) (nthz (rankBoundaries_ assignment) r) = Some (count_lt (nthz (rankBoundaries_ assignment) r) (leaves_ f)) /\
  (leaves_ f).[count_lt (nthz (rankBoundaries_ assignment) r) (leaves_ f)] = Some x.
Proof using Ho El Ha.
  intros Hr'. assert (Hcs : csTree k (leaves_ f)) by (rewrite El; apply leafArray_csTree, Ho). destruct (part_first k assignment Ha (leaves_ f) r Hcs Hr') as (x & Hx & _). exists x. split; [|done]. pose proof (aget_Some_range _ _ _ Hx). unfold findNodeAbove, nNodes. apply (lower_bound_within _ (cs_sorted k _ Hcs)); lia.
Qed.

(** The members that [updateMacs] changes. *)
Definition criteriaSet (macs : list Z) (centers : list (Vec3 T * T)) : FocusedOctree (T := T) :=
  setStatus (Z.lor (rebalanceStatus_ f) status_macCriterion) (setMacs macs (setCenters centers (globalCentersAcc_ f) f)).

Lemma updateMacs_run invTheta (accumulate : bool) : zlen (centersAcc_ f) = n -> (if accumulate then zlen (macsAcc_ f) = n /\ marksUp a (macsAcc_ f) else True) ->
  exists macs centers, updateMacs sqrt s k assignment invTheta accumulate f = Some (inr (criteriaSet macs centers)) /\ zlen macs = n /\ zlen centers = n /\ marksUp a macs.
Proof using Ho El Ha Hr.
  intros Hc Hm. pose proof (zlen_nonneg (prefixes a)) as Hn0. pose proof (od_numNodes _ _ _ Ho) as En. unfold updateMacs. replace (accumulate && _) with false by (destruct accumulate; [|done]; rewrite En, (proj1 Hm), Z.eqb_refl; done).
  unfold setMacRadius. destruct (setMac_run invTheta (centersAcc_ f) Hc) as (C & -> & HC). cbn beta iota. cbn [setCenters myRank_ leaves_ macsAcc_ octreeAcc_ centersAcc_ box_ rebalanceStatus_].
  rewrite !(boundary_get assignment) by lia. cbn beta iota. destruct (findBoundary (myRank_ f) ltac:(lia)) as (lo & -> & Hlo). destruct (findBoundary (myRank_ f + 1) ltac:(lia)) as (hi & -> & Hhi). cbn beta iota.
  set (b0 := count_lt (nthz (rankBoundaries_ assignment) (myRank_ f)) (leaves_ f)) in *. set (b1 := count_lt (nthz (rankBoundaries_ assignment) (myRank_ f + 1)) (leaves_ f)) in *. pose proof (aget_Some_range _ _ _ Hlo). pose proof (aget_Some_range _ _ _ Hhi).
  assert (Hdrop : forall i, 0 <= i -> (drop (Z.to_nat b0) (leaves_ f)).[i] = (leaves_ f).[b0 + i]) by (intros i Hi; rewrite !aget_lookup by lia; rewrite lookup_drop; f_equal; lia). set (flags := if accumulate then _ else _).
  assert (Hb : b0 <= b1) by (apply count_lt_mono, (boundary_mono k assignment Ha); lia).
  assert (Hflags : zlen flags = n /\ marksUp a flags).
  { unfold flags. destruct accumulate; [destruct Hm as [Hm1 Hm2]; assert (Er : aresize 0 (macsAcc_ f) (numNodes (octreeAcc_ f)) = macsAcc_ f) by (rewrite En, <- Hm1; apply aresize_id); by rewrite Er|].
    split; [unfold zlen at 1; rewrite length_replicate; change (Z.of_nat (length ?l)) with (zlen l); rewrite En; apply zlen_aresize; lia|apply marksUp_zeros]. }
  destruct (markMacsIn_run s k t a (box_ f) (od_depth _ _ _ Ho) (od_linked _ _ _ Ho) C (fun q => default (zeroVec, s_ofZ 0) (C.[pos a q]))) with (focusNodes := drop (Z.to_nat b0) (leaves_ f)) (numFocusNodes := b1 - b0) (lo := lo) (hi := hi) (limitSource := false) (order := seqZ 0 (b1 - b0)) (flags := flags) as (flags' & E & Hmk).
  - intros q Hq. destruct (aget_is_Some C (pos a q)) as [v ->]; [rewrite HC; by apply (pos_range k t a (od_linked _ _ _ Ho))|done].
  - rewrite Hdrop by lia. by rewrite Z.add_0_r.
  - rewrite Hdrop by lia. by replace (b0 + (b1 - b0)) with b1 by lia.
  - done.
  - apply Hflags.
  - unfold markMacs. rewrite E. cbn beta iota. exists flags', C. split; [done|]. split; [rewrite (proj1 Hmk); apply Hflags|]. split; [done|].
    apply (marksUp_more k t (octreeAcc_ f) Ho (fun i => 0 <= i < b1 - b0 /\ macSkipped s k (drop (Z.to_nat b0) (leaves_ f)) lo hi i = false) (fun i => failsMacWith s k (box_ f) (fun q => default (zeroVec, s_ofZ 0) (C.[pos a q])) (drop (Z.to_nat b0) (leaves_ f)) lo hi false i) flags); [apply Hflags|].
    eapply marksMore_iff; [|exact Hmk]. intros j. split; [intros (i & q & H1 & H2 & H3 & H4); by exists i, q|intros (i & q & [H1 H2] & H3 & H4); by exists i, q].
Qed.

End Criteria.

Lemma updateMinMac_run {T} `{!Scalar T} sqrt s k t (f : FocusedOctree (T := T)) assignment invTheta (accumulate : bool) : octreeDataOf k t (octreeAcc_ f) -> leaves_ f = leafArray k t -> validAssignment k assignment -> 0 <= myRank_ f < assignmentRanks assignment ->
  (if accumulate then zlen (macsAcc_ f) = zlen (prefixes (arrays (octreeAcc_ f))) /\ marksUp (arrays (octreeAcc_ f)) (macsAcc_ f) else True) ->
  exists macs centers, updateMinMac sqrt s k assignment invTheta accumulate f = Some (inr (criteriaSet f macs centers)) /\ zlen macs = zlen (prefixes (arrays (octreeAcc_ f))) /\ marksUp (arrays (octreeAcc_ f)) macs.
Proof.
  intros Ho El Ha Hr Hm. set (a := arrays (octreeAcc_ f)) in *. set (n := zlen (prefixes a)) in *. pose proof (zlen_nonneg (prefixes a)) as Hn0. pose proof (od_numNodes _ _ _ Ho) as En. fold a n in En. unfold updateMinMac. rewrite En. fold a.
  destruct (for_loop_inv (fun _ c => zlen c = n) 0 n (fun i centers => let? key := (prefixes a).[i] in aset centers i (computeMinMacR2 s k key invTheta (box_ f))) (aresize zeroCenter (centersAcc_ f) n)) as (C & -> & HC); [lia|apply zlen_aresize; lia| |].
  { intros i c Hi Hc. destruct (aget_is_Some (prefixes a) i Hi) as [key ->]. cbn beta iota. match goal with |- exists _, aset ?l ?i ?v = _ /\ _ => pose proof (aset_Some l i v ltac:(lia)) as F end. eexists. split; [exact F|]. by rewrite (aset_zlen _ _ _ _ F). }
  cbn beta iota. destruct (updateMacs_run sqrt s k t (setCenters C (globalCentersAcc_ f) f) assignment Ho El Ha Hr invTheta accumulate HC Hm) as (macs & centers & E & Hz & _ & Hup). by exists macs, centers.
Qed.
