(* ===== verification/FocusedProperties.v ===== *)
(** * Properties of the focused octree class

    The claims about class [FocusedOctree] of [cstone/focus/octree_focus_mpi.hpp]. *)

From Stdlib Require Import QArith.
From S2P Require Import Prelude Primitives SfcCommon Csarray CsInvariant CsRebalance CsCounts CsBuild SfcBox Morton Hilbert Sfc Octree OctreeNodes OctreeBuild OctreeQueries IndexRanges DomainDecomp Layout FocusRebalance FocusInject FocusTree FocusOps FocusUpdate GlobalTree Exchange Distribute Halos HaloExchange NodeLookup Scalars FloatBox Macs SourceCenter Neighbors IjLoop Treelets TreeletSync TreeletWorld TreeletCells TreeletProperties FocusedOctree FocusCounts FocusTrees.

Lemma alltoall_get flags N p out : alltoallFlags (flags <$> seqZ 0 N) p = Some out -> 0 <= N -> zlen out = N /\ forall q, 0 <= q < N -> out.[q] = (flags q).[p].
Proof.
  intros E HN. unfold alltoallFlags in E. apply mapM_Some_1 in E. assert (Hz : zlen out = N) by (pose proof (Forall2_length _ _ _ E) as Hl; unfold zlen; rewrite <- Hl, length_fmap, length_seqZ; lia).
  split; [done|]. intros q Hq. destruct (aget_is_Some out q ltac:(lia)) as [v Hv]. rewrite Hv. rewrite aget_lookup in Hv by lia. destruct (Forall2_lookup_r _ _ _ _ _ E Hv) as (l & Hl & Ev). rewrite <- aget_lookup, aget_map, aget_seqZ in Hl by lia. cbn in Hl. injection Hl as <-. done.
Qed.


(** C17: After [updateCounts] on all ranks every node of every focused octree, own, of a peer or beyond, holds the
    number of the particles of all ranks in its key range, saturated at the largest 32-bit value, for every
    arrival order of the messages; all messages are consumed and the counts criterion is marked as up to date.  With 32-bit keys a rank
    may hold at most 2^30 particles, the range of the guided search. *)
Theorem updateCounts_exact {T} k N (f : Z -> FocusedOctree (T := T)) B R gLeaves keys : focusWorld k N f B R gLeaves ->
  (forall p, 0 <= p < N -> searchableKeys k (keys p) /\ forall x, x ∈ keys p -> B p <= x < B (p + 1)) -> Forall (fun c => c <= 0xFFFFFFFF) (totalCounts (keys <$> seqZ 0 N) gLeaves) -> nNodes gLeaves < 2 ^ 32 ->
  exists sent, forall p arrivals, 0 <= p < N -> arrivals ≡ₚ addressed N sent p ->
    exists g, updateCounts k (keys p) gLeaves (totalCounts (keys <$> seqZ 0 N) gLeaves) arrivals (f p) = Some (sent p, [], g) /\
      leafCountsAcc_ g = (fun j => Z.min 0xFFFFFFFF (countIn (concat (keys <$> seqZ 0 N)) (nthz (leaves_ g) j) (nthz (leaves_ g) (j + 1)))) <$> seqZ 0 (nNodes (leaves_ g)) /\
      countsAcc_ g = (fun q => Z.min 0xFFFFFFFF (countIn (concat (keys <$> seqZ 0 N)) (nodeStart k q) (nodeEnd k q))) <$> prefixes (arrays (octreeAcc_ g)) /\
      leaves_ g = leaves_ (f p) /\ octreeAcc_ g = octreeAcc_ (f p) /\ rebalanceStatus_ g = Z.lor (rebalanceStatus_ (f p)) status_countsCriterion.
Proof.
  intros Hf Hk Hc Hn. set (A := fun p => assignment_ (f p)). set (O := fun p => octreeAcc_ (f p)). exists (sentCellsOf 0 N A R O (knownCounts k N f R keys)). intros p arrivals Hp Ha. eexists. split.
  - apply (counts_world k N f B R gLeaves keys Hf Hk Hc Hn p arrivals Hp). rewrite Ha. apply reflexive_eq.
    apply (addressed_single N (fun q r => R r q) (fun q r => cellOf 0 O (knownCounts k N f R keys) q <$> nodesOf A O r q) p Hp).
  - done.
Qed.

(** ** Concrete ranks *)

(** Two ranks after construction, with four of the eight global leaves each. *)
Definition pairLeaves : list Z := [0; 8 ^ 9; 2 * 8 ^ 9; 3 * 8 ^ 9; 4 * 8 ^ 9; 5 * 8 ^ 9; 6 * 8 ^ 9; 7 * 8 ^ 9; 8 ^ 10].
Definition pairAssignment : SfcAssignment := mkSfcAssignment [0; 4 * 8 ^ 9; 8 ^ 10] [5; 5] [4; 4] [0; 4; 8].
Definition blankRank : FocusedOctree (T := Q) := mkFocusedOctree 0 2 16 (Box_cube (0 : Q)%Q 1%Q open) [] [] [] [] (mkOctreeData 0 0 0 (mkOctreeArrays [] [] [] [] [] [])) [] 0 0 [] [] [] [] [] [] [] [] [] [] [] 0.
Definition freshRank (p : Z) : FocusedOctree (T := Q) := default blankRank (newFocusedOctree Key32 p 2 16).

Lemma freshRank_octree p : exists t, octreeDataOf Key32 t (octreeAcc_ (freshRank p)) /\ leaves_ (freshRank p) = leafArray Key32 t.
Proof.
  assert (Hcs : csTree Key32 [0; 8 ^ 10]) by (apply (bool_decide_unpack _); vm_compute; exact I).
  destruct (updateInternalTree_octreeDataOf Key32 [0; 8 ^ 10] (mkOctreeData 0 0 0 (mkOctreeArrays [] [] [] [] [] [])) Hcs) as (t & o & E & Ho & Et & _). exists t.
  change (nNodes [0; 8 ^ 10]) with 1 in E. unfold freshRank, newFocusedOctree. change (nodeRange Key32 0) with (8 ^ 10). rewrite E. split; [exact Ho|exact Et].
Qed.

Lemma freshReady : updateReady Key32 2 freshRank pairAssignment pairLeaves.
Proof.
  assert (Hp2 : forall p, 0 <= p < 2 -> p = 0 \/ p = 1) by lia. assert (Hp3 : forall p, 0 <= p <= 2 -> p = 0 \/ p = 1 \/ p = 2) by lia. split.
  - split; [vm_compute; congruence|by apply zsortedb_sound|reflexivity|reflexivity].
  - reflexivity.
  - split; [reflexivity|]. split; [reflexivity|]. split; intros r Hr; [destruct (Hp3 r Hr) as [->|[->| ->]]|destruct (Hp2 r Hr) as [->| ->]]; vm_compute; reflexivity.
  - apply (bool_decide_unpack _). vm_compute. exact I.
  - intros p Hp. destruct (Hp2 p Hp) as [->| ->]; vm_compute; repeat split; reflexivity.
  - intros p _. apply freshRank_octree.
  - intros p Hp. split; [destruct (Hp2 p Hp) as [->| ->]; vm_compute; reflexivity|destruct (Hp2 p Hp) as [->| ->]; vm_compute; reflexivity|].
    intros i q Hi. exfalso. assert (zlen (prefixes (arrays (octreeAcc_ (freshRank p)))) = 1) by (destruct (Hp2 p Hp) as [->| ->]; vm_compute; reflexivity). lia.
  - intros p Hp. split; [destruct (Hp2 p Hp) as [->| ->]; vm_compute; reflexivity|]. intros r Hr. destruct (Hp2 p Hp) as [->| ->], (Hp2 r Hr) as [->| ->]; vm_compute; intuition congruence.
Qed.


(** The two ranks of [cellWorld2] as objects, and their particles. *)
Definition syncedRank (p : Z) : FocusedOctree (T := Q) :=
  mkFocusedOctree p 2 16 (Box_cube (0 : Q)%Q 1%Q open) (exteriorPeersOf 2 bothPeers p) (interiorPeersOf 2 bothPeers p) (cellTreelets p)
    (default [] (indexTreelets Key32 (fun _ => 0) (interiorPeersOf 2 bothPeers p) (prefixes (arrays (cellOctree p))) (levelRange (arrays (cellOctree p))) (cellTreelets p)))
    (cellOctree p) (cellLeaves p) (syncDomain p) (syncDomain (p + 1)) [] [] [] [] [] [] [] (cellAssign p) (default [] (extractPeerRanges (exteriorPeersOf 2 bothPeers p) p (cellAssign p))) [4; 4] [0; 4; 8] status_invalid.

Definition rankKeys (p : Z) : list Z := if p =? 0 then [0; 5; 8 ^ 8; 2 * 8 ^ 9; 3 * 8 ^ 9 + 7] else [4 * 8 ^ 9; 7 * 8 ^ 9; 8 ^ 10 - 1].

Lemma syncedWorld : focusWorld Key32 2 syncedRank syncDomain bothPeers pairLeaves.
Proof.
  assert (Hp2 : forall p, 0 <= p < 2 -> p = 0 \/ p = 1) by lia. split.
  - exact cellWorld2.
  - done.
  - done.
  - intros p Hp. exists (fun _ => 0). destruct (Hp2 p Hp) as [->| ->]; vm_compute; reflexivity.
  - intros p Hp. destruct (Hp2 p Hp) as [->| ->]; vm_compute; reflexivity.
  - intros p Hp. destruct (Hp2 p Hp) as [->| ->]; [exists (mkIndexPair 0 11)|exists (mkIndexPair 4 8)]; vm_compute; repeat split; congruence.
  - apply (bool_decide_unpack _). vm_compute. exact I.
  - intros p j Hp Hj Hn. exfalso. apply Hn. destruct (Hp2 p Hp) as [->| ->].
    + change (peerRanges_ (syncedRank 0)) with [mkIndexPair 0 11; mkIndexPair 11 15]. change (nNodes (leaves_ (syncedRank 0))) with 15 in Hj. rewrite !covers_cons. cbn [start end_]. lia.
    + change (peerRanges_ (syncedRank 1)) with [mkIndexPair 0 4; mkIndexPair 4 8]. change (nNodes (leaves_ (syncedRank 1))) with 8 in Hj. rewrite !covers_cons. cbn [start end_]. lia.
Qed.

Lemma updateCounts_exact_witness :
  exists sent, forall p arrivals, 0 <= p < 2 -> arrivals ≡ₚ addressed 2 sent p ->
    exists g, updateCounts Key32 (rankKeys p) pairLeaves (totalCounts (rankKeys <$> seqZ 0 2) pairLeaves) arrivals (syncedRank p) = Some (sent p, [], g) /\
      leafCountsAcc_ g = (fun j => Z.min 0xFFFFFFFF (countIn (concat (rankKeys <$> seqZ 0 2)) (nthz (leaves_ g) j) (nthz (leaves_ g) (j + 1)))) <$> seqZ 0 (nNodes (leaves_ g)) /\
      countsAcc_ g = (fun q => Z.min 0xFFFFFFFF (countIn (concat (rankKeys <$> seqZ 0 2)) (nodeStart Key32 q) (nodeEnd Key32 q))) <$> prefixes (arrays (octreeAcc_ g)) /\
      leaves_ g = leaves_ (syncedRank p) /\ octreeAcc_ g = octreeAcc_ (syncedRank p) /\ rebalanceStatus_ g = Z.lor (rebalanceStatus_ (syncedRank p)) status_countsCriterion.
Proof.
  apply (updateCounts_exact Key32 2 syncedRank syncDomain bothPeers pairLeaves rankKeys syncedWorld).
  - intros p Hp. assert (p = 0 \/ p = 1) as [->| ->] by lia; (split; [apply searchableKeysb_sound; vm_compute; reflexivity|]); intros x Hx; unfold rankKeys in Hx; cbn [Z.eqb] in Hx; apply list_elem_of_In in Hx; cbn in Hx; unfold syncDomain; lia.
  - apply Forall_forall. intros c Hc. apply list_elem_of_In in Hc. assert (Hb : forallb (fun c => c <=? 0xFFFFFFFF) (totalCounts (rankKeys <$> seqZ 0 2) pairLeaves) = true) by (vm_compute; reflexivity). rewrite forallb_forall in Hb. by apply Z.leb_le, Hb.
  - vm_compute. reflexivity.
Defined.

(** Rank 1 gets the counts of the nodes of rank 0. *)
Example rankCounts_run : option_map (fun r => (r.1.1, leafCountsAcc_ r.2)) (updateCounts Key32 (rankKeys 1) pairLeaves (totalCounts (rankKeys <$> seqZ 0 2) pairLeaves) [(0, [3; 0; 1; 1])] (syncedRank 1)) =
  Some ([(0, [1; 0; 0; 2])], [3; 0; 1; 1; 1; 0; 0; 2]).
Proof. vm_compute. reflexivity. Qed.

(** ** Offsets of the previous update *)

Lemma for_loop_fails {S} lo hi (body : Z -> S -> option S) st r : lo <= r < hi -> (forall st, body r st = None) -> for_loop lo hi body st = None.
Proof.
  intros Hr Hb. remember (Z.to_nat (r - lo)) as n eqn:En. revert lo st Hr En. induction n as [|n IH]; intros lo st Hr En; rewrite for_loop_cons by lia.
  - assert (lo = r) as -> by lia. by rewrite Hb.
  - destruct (body lo st); [|done]. apply IH; lia.
Qed.

(** C39: [updateTree] determines the peers with the offsets that it remembers from the previous update, but in the new global
    tree: if that tree has become smaller than a remembered offset, the range that is compared with the focus tree ends beyond
    the end of the global tree, whatever the messages are. *)
Theorem updateTree_stale_offsets {T} `{!Scalar T} s k junk assignment gLeaves box intPeers arrivals rejects (f : FocusedOctree (T := T)) r :
  rebalanceStatus_ f = status_valid -> 0 <= r < zlen (globDispl_ f) - 1 -> r <> myRank_ f -> zlen gLeaves < nthz (globDispl_ f) (r + 1) ->
  updateTree s k junk assignment gLeaves box intPeers arrivals rejects f = None.
Proof.
  intros Es Hr Hne Hlt. unfold updateTree. rewrite Es. change (status_valid =? status_valid) with true. cbn [negb].
  destruct (_.[_]) as [focusStart|]; [|done]. destruct (_.[_]) as [focusEnd|]; [|done]. destruct (_.[_]) as [offset|]; [|done]. destruct (_.[_]) as [n|]; [|done]. destruct (subspan _ _ _) as [keys|]; [|done].
  destruct (updateFocus _ _ _ _ _ _ _ _ _) as [[[conv o] leaves]|]; [|done]. destruct (translateAssignment _ _) as [parts|]; [|done].
  assert (focusPeers (globDispl_ f) parts (myRank_ f) gLeaves leaves = None) as ->; [|done]. unfold focusPeers. apply for_loop_fails with (r := r); [lia|]. intros st. unfold focusPeerFlag. rewrite (proj2 (Z.eqb_neq r (myRank_ f)) Hne).
  rewrite (nthz_get (globDispl_ f) r), (nthz_get (globDispl_ f) (r + 1)) by lia. destruct (parts.[r]) as [a|]; [|done]. unfold subspan at 1. destruct (Z.leb_spec (nthz (globDispl_ f) r + (nthz (globDispl_ f) (r + 1) - nthz (globDispl_ f) r)) (zlen gLeaves)); [lia|]. by rewrite andb_false_r.
Qed.

(** A rank that has seen a global tree of 64 leaves and now gets one of eight leaves. *)
Definition staleRank : FocusedOctree (T := Q) :=
  let f := freshRank 0 in
  mkFocusedOctree 0 2 16 (box_ f) [] [] (treelets_ f) [] (octreeAcc_ f) (leaves_ f) 0 0 (leafCountsAcc_ f) (countsAcc_ f) (macsAcc_ f) [] [] [] [] [] [] [32; 32] [0; 32; 64] status_valid.

Lemma updateTree_stale_offsets_witness : updateTree HilbertKey Key32 (fun _ => 0) pairAssignment pairLeaves (Box_cube (0 : Q)%Q 1%Q open) [0; 1] [] [] staleRank = None.
Proof. apply (updateTree_stale_offsets HilbertKey Key32 (fun _ => 0) pairAssignment pairLeaves (Box_cube (0 : Q)%Q 1%Q open) [0; 1] [] [] staleRank 1); vm_compute; [reflexivity|intuition congruence|congruence|reflexivity]. Defined.
