(* ===== verification/Domain.v ===== *)
(** * Class Domain

    [cstone/domain/domain.hpp]: the state of one rank between the calls of [sync], and the update that distributes the
    particles, adapts the focus tree, lays out the buffers and fetches the halos.

    The arrays that are reordered before halo discovery ([x], [y], [z], [h], and [m] with gravity) are one list of elements
    of type [E], the other particle properties one list of type [U]: the code checks that all arrays have the same size.
    Messages and the results of collective operations are arguments, what a rank sends is part of the result.  The
    collective update of the global tree is the argument [treeUpdate]; on all ranks it is [GlobalTree.assignTree].
    Memory that is not initialised is described by the functions [junk].  Growth rates only determine the capacity of
    vectors, which is not modelled.  [diagnostics], which prints statistics and is not called, is left out. *)

From S2P Require Import Prelude Primitives SfcCommon Csarray CsInvariant SfcBox Morton Hilbert Sfc Octree IndexRanges DomainDecomp Layout FocusRebalance GlobalTree Exchange Distribute Halos Scalars BoxOverlap FloatBox GlobalBox Traversal Macs SourceCenter Neighbors IjLoop Treelets FocusedOctree.

Inductive DomainError := BucketSizeTooSmall | SizesInconsistent | FocusFailed (e : FocusError).

(** Sequencing of operations that may throw: [None] is undefined behaviour, [inl] an exception. *)
Notation "'let!' p ':=' e 'in' r" := (match e with Some (inr p) => r | Some (inl err) => Some (inl err) | None => None end)
  (at level 10, p pattern, e at level 200, r at level 200).

Definition liftFocus {A} (r : option (FocusError + A)) : option (DomainError + A) :=
  match r with Some (inl e) => Some (inl (FocusFailed e)) | Some (inr a) => Some (inr a) | None => None end.

(** What a rank receives in one pass of the loop that adapts the focus tree, besides [Round]: the sum of the return
    values of [computeLayout], and the flags and keys of the halo requests. *)
Record Pass {C : Type} := mkPass {
  ps_round : Round;
  ps_centers : list (list C) * list (Z * list C);
  ps_fail : Z;
  ps_interior : list Z;
  ps_requests : list (Z * list Z)
}.
Arguments Pass C : clear implicits.
Arguments mkPass {C}.

(** What it sends, and the messages that are left. *)
Record PassSent {C : Type} := mkPassSent {
  pt_flags : list Z;
  pt_treelets : list (Z * list Z);
  pt_rejects : list (Z * list Z);
  pt_counts : list (Z * list Z);
  pt_centers : list C * list (Z * list C);
  pt_fail : Z;
  pt_haloFlags : list Z;
  pt_requests : list (Z * list Z);
  pt_rest : list (Z * list Z) * list (Z * list C)
}.
Arguments PassSent C : clear implicits.
Arguments mkPassSent {C}.

(** [fill], which does nothing if the range is empty. *)
Definition fillFrom (first last value : Z) (l : list Z) : option (list Z) :=
  writeFrom (replicate (Z.to_nat (last - first)) value) l first.

(** [gatherArrays] for one array and a scratch buffer of the same size. *)
Definition gatherArrays {A} (ordering : list Z) (outputOffset : Z) (source scratch : list A) : option (list A) :=
  gatherAt ordering source scratch outputOffset.

Section Class.
Context {T : Type} `{!Scalar T} (infinity : T) (sqrt : T -> T) (s : SfcKind) (k : KeyType).
Context {E U : Type} (zeroE : E) (zeroU : U) (coords : E -> Vec3 T) (radius : E -> T) (mass : E -> T) (sizes : list Z).
Context (treeUpdate : Z -> bool -> list Z -> GlobalTree -> option (bool * GlobalTree)).
Context (junkE : Z -> E) (junkU : Z -> U) (junkVec : Z -> Vec3 T) (junkIdx : Z -> Z).

Local Abbreviation SourceCenterType := (Vec3 T * T)%type.

(** ** GlobalAssignment *)

Record GlobalAssignment := mkGlobalAssignment {
  ga_bucketSize : Z;
  ga_box : Box T;
  ga_assignment : SfcAssignment;
  ga_exchanges : list Z;
  ga_recvLog : ExchangeLog;
  ga_tree : GlobalTree;
  ga_firstCall : bool
}.

Definition numSendDown (myRank : Z) (g : GlobalAssignment) : option Z := (ga_exchanges g).[myRank].
Definition numPresent (myRank : Z) (g : GlobalAssignment) : option Z := sendCount (ga_exchanges g) myRank.
Definition numAssigned (myRank : Z) (g : GlobalAssignment) : option Z := (counts_ (ga_assignment g)).[myRank].

Definition postExchangeStart (myRank : Z) (o1 : BufferDescription) (g : GlobalAssignment) : option Z :=
  let? assigned := numAssigned myRank g in
  let? present := numPresent myRank g in
  let? down := numSendDown myRank g in
  Some (u32 ((assignedEnvelope o1 (u32 (assigned - present))).1 + down)).

(** The key of a particle, if its coordinates can be converted.  Only keys that [computeKeys] has found to be defined
    are sent, so that the default value below is not used for received particles. *)
Definition particleKey (box : Box T) (p : E) : option Z := let c := coords p in sfc3D s k (vx c) (vy c) (vz c) box.
Definition definedKey (box : Box T) (p : E) : Z := default 0 (particleKey box p).

(** [computeSfcKeys] on [n] particles from [first] on. *)
Definition computeKeys (box : Box T) (first n : Z) (particles : list E) (keys : list Z) : option (list Z) :=
  let? view := subspan particles first n in
  let? old := subspan keys first n in
  if forallb (fun '(key, p) => (key =? removeKey k) || bool_decide (is_Some (particleKey box p))) (zip old view)
  then computeParticleKeys k (definedKey box) first n particles keys
  else None.

(** The contribution to the global box, the required buffer size, the keys, the ordering and the assignment. *)
Definition assign (numRanks myRank : Z) (reduced : Extrema T) (o1 : BufferDescription) (particles : list E) (keys ordering : list Z) (g : GlobalAssignment) :
    option (Extrema T * Z * list Z * list Z * GlobalAssignment) :=
  let numPart := u32 (bend o1 - bstart o1) in
  let? view := subspan particles (bstart o1) numPart in
  let contribution := negateMaxima (localExtrema infinity (coords <$> view) (ga_box g)) in
  let fittingBox := makeGlobalBox infinity (coords <$> view) (ga_box g) reduced in
  let box := if ga_firstCall g then fittingBox else limitBoxShrinking fittingBox (ga_box g) (s_ratio 1 20) in
  let? _ := computeKeys box (bstart o1) numPart particles keys in
  let? (keys, ordering) := assignKeys k (definedKey box) o1 particles keys ordering in
  let? keyView := subspan keys (bstart o1) numPart in
  let? (firstCall, tree) := treeUpdate (ga_bucketSize g) (ga_firstCall g) keyView (ga_tree g) in
  let? (assignment, exchanges, size) := assignRank numRanks myRank o1 keyView tree in
  Some (contribution, size, keys, ordering, mkGlobalAssignment (ga_bucketSize g) box assignment exchanges (ga_recvLog g) tree firstCall).

(** ** Domain *)

Record Domain := mkDomain {
  d_myRank : Z;
  d_numRanks : Z;
  bucketSizeFocus_ : Z;
  theta_ : T;
  convergeTrees : bool;
  haloSearchExt_ : T;
  allocGrowthRate_ : T;
  prevBufDesc_ : BufferDescription;
  bufDesc_ : BufferDescription;
  focusTree_ : FocusedOctree (T := T);
  layoutAcc_ : list Z;
  layout_ : list Z;
  global_ : GlobalAssignment;
  halos_ : Halos;
  firstCall_ : bool
}.

(** A member that no operation changes. *)
Definition centerDriftTol_ : T := s_ratio 21 20.

(** The arrays of the caller: keys, reordered arrays, properties, and the buffer for the ordering. *)
Record Buffers := mkBuffers { b_keys : list Z; b_ordered : list E; b_properties : list U; b_ordering : list Z }.

Definition newDomain (rank nRanks bucketSize bucketSizeFocus : Z) (theta : T) (box : Box T) : option (DomainError + Domain) :=
  let? focusTree := newFocusedOctree k rank nRanks bucketSizeFocus in
  let? tree := newGlobalAssignment k nRanks bucketSize in
  let empty := mkBufferDescription 0 0 0 in
  let global := mkGlobalAssignment bucketSize box (mkSfcAssignment [] [] [] []) [] [] tree true in
  if bucketSize <? bucketSizeFocus then Some (inl BucketSizeTooSmall)
  else Some (inr (mkDomain rank nRanks bucketSizeFocus theta false (s_ofZ 1) (s_ratio 21 20) empty empty focusTree [] [] global (newHalos rank) true)).

Definition setBounds (prev desc : BufferDescription) (layoutAcc layout : list Z) (d : Domain) : Domain :=
  mkDomain (d_myRank d) (d_numRanks d) (bucketSizeFocus_ d) (theta_ d) (convergeTrees d) (haloSearchExt_ d) (allocGrowthRate_ d) prev desc (focusTree_ d) layoutAcc layout (global_ d) (halos_ d) (firstCall_ d).
Definition setGlobal (g : GlobalAssignment) (d : Domain) : Domain :=
  mkDomain (d_myRank d) (d_numRanks d) (bucketSizeFocus_ d) (theta_ d) (convergeTrees d) (haloSearchExt_ d) (allocGrowthRate_ d) (prevBufDesc_ d) (bufDesc_ d) (focusTree_ d) (layoutAcc_ d) (layout_ d) g (halos_ d) (firstCall_ d).
Definition setFocus (f : FocusedOctree (T := T)) (d : Domain) : Domain :=
  mkDomain (d_myRank d) (d_numRanks d) (bucketSizeFocus_ d) (theta_ d) (convergeTrees d) (haloSearchExt_ d) (allocGrowthRate_ d) (prevBufDesc_ d) (bufDesc_ d) f (layoutAcc_ d) (layout_ d) (global_ d) (halos_ d) (firstCall_ d).
Definition setHalos (h : Halos) (d : Domain) : Domain :=
  mkDomain (d_myRank d) (d_numRanks d) (bucketSizeFocus_ d) (theta_ d) (convergeTrees d) (haloSearchExt_ d) (allocGrowthRate_ d) (prevBufDesc_ d) (bufDesc_ d) (focusTree_ d) (layoutAcc_ d) (layout_ d) (global_ d) h (firstCall_ d).
Definition setCalled (d : Domain) : Domain :=
  mkDomain (d_myRank d) (d_numRanks d) (bucketSizeFocus_ d) (theta_ d) (convergeTrees d) (haloSearchExt_ d) (allocGrowthRate_ d) (prevBufDesc_ d) (bufDesc_ d) (focusTree_ d) (layoutAcc_ d) (layout_ d) (global_ d) (halos_ d) false.
Definition setHaloFactor (factor : T) (d : Domain) : Domain :=
  mkDomain (d_myRank d) (d_numRanks d) (bucketSizeFocus_ d) (theta_ d) (convergeTrees d) factor (allocGrowthRate_ d) (prevBufDesc_ d) (bufDesc_ d) (focusTree_ d) (layoutAcc_ d) (layout_ d) (global_ d) (halos_ d) (firstCall_ d).
Definition setTreeConv (flag : bool) (d : Domain) : Domain :=
  mkDomain (d_myRank d) (d_numRanks d) (bucketSizeFocus_ d) (theta_ d) flag (haloSearchExt_ d) (allocGrowthRate_ d) (prevBufDesc_ d) (bufDesc_ d) (focusTree_ d) (layoutAcc_ d) (layout_ d) (global_ d) (halos_ d) (firstCall_ d).
Definition setGrowthAllocRate (factor : T) (d : Domain) : Domain :=
  mkDomain (d_myRank d) (d_numRanks d) (bucketSizeFocus_ d) (theta_ d) (convergeTrees d) (haloSearchExt_ d) factor (prevBufDesc_ d) (bufDesc_ d) (focusTree_ d) (layoutAcc_ d) (layout_ d) (global_ d) (halos_ d) (firstCall_ d).

Definition startIndex (d : Domain) : Z := bstart (bufDesc_ d).
Definition endIndex (d : Domain) : Z := bend (bufDesc_ d).
Definition setEndIndex (i : Z) (d : Domain) : Domain :=
  setBounds (prevBufDesc_ d) (mkBufferDescription (bstart (bufDesc_ d)) (u32 i) (bsize (bufDesc_ d))) (layoutAcc_ d) (layout_ d) d.
Definition nParticles (d : Domain) : Z := u32 (endIndex d - startIndex d).
Definition nParticlesWithHalos (d : Domain) : Z := bsize (bufDesc_ d).
Definition startCell (d : Domain) : option Z := let? a := (assignment_ (focusTree_ d)).[d_myRank d] in Some (start a).
Definition endCell (d : Domain) : option Z := let? a := (assignment_ (focusTree_ d)).[d_myRank d] in Some (end_ a).

Definition assignmentStart (d : Domain) : option Z := (rankBoundaries_ (ga_assignment (global_ d))).[d_myRank d].

(** The tree for the neighbor search, with the members that the search on CPUs reads. *)
Definition octreeProperties (d : Domain) : OctreeNsView T :=
  let f := focusTree_ d in
  let a := arrays (octreeAcc_ f) in
  mkOctreeNsView (childOffsets a) (parents a) (internalToLeaf a) (layoutAcc_ d) (geoCentersAcc_ f) (geoSizesAcc_ f) (s_ofZ 1).

(** On the first call all particles are assigned. *)
Definition initBounds (bufferSize : Z) (d : Domain) : Domain :=
  if firstCall_ d then
    let desc := mkBufferDescription 0 (u32 bufferSize) (u32 bufferSize) in
    setBounds desc desc (layoutAcc_ d) [0; u32 bufferSize] d
  else d.

Definition checkSizesEqual (value : Z) (lengths : list Z) : bool := forallb (Z.eqb value) lengths.

(** *** Distribution *)

(** The first part of [sync]: the contribution to the global box, the sent and the remaining messages, the keys of
    the assigned particles, and the buffers with the reordered arrays in front. *)
Definition distributeParticles (reduced : Extrema T) (arrivals : list (Z * Message (E * U))) (b : Buffers) (d : Domain) :
    option (DomainError + (Extrema T * list (list (Message (E * U))) * list (Z * Message (E * U)) * list Z * Buffers * Domain)) :=
  let size := zlen (b_ordered b) in
  let d := initBounds size d in
  if negb (checkSizesEqual size [zlen (b_keys b); zlen (b_ordered b); zlen (b_properties b)]) then Some (inl SizesInconsistent)
  else
    let o1 := bufDesc_ d in
    let? (contribution, exchangeSize, keys, ordering, g) := assign (d_numRanks d) (d_myRank d) reduced o1 (b_ordered b) (b_keys b) (b_ordering b) (global_ d) in
    let ordered := aresize zeroE (b_ordered b) exchangeSize in
    let properties := aresize zeroU (b_properties b) exchangeSize in
    let? keys := fillFrom (bsize o1) exchangeSize 0 (aresize 0 keys exchangeSize) in
    let? assigned := numAssigned (d_myRank d) g in
    let? r := distribute k (fun p => definedKey (ga_box g) p.1) (d_myRank d) assigned (ga_exchanges g) (mkBufferDescription (bstart o1) (bend o1) exchangeSize) sizes arrivals ordering keys (zip ordered properties) in
    let g := mkGlobalAssignment (ga_bucketSize g) (ga_box g) (ga_assignment g) (ga_exchanges g) (d_recvLog r) (ga_tree g) (ga_firstCall g) in
    let? first := postExchangeStart (d_myRank d) o1 g in
    let? order := subspan (d_ordering r) first assigned in
    let? ordered := gatherArrays order 0 (fst <$> d_particles r) (junkE <$> seqZ 0 exchangeSize) in
    Some (inr (contribution, d_sent r, d_rest r, d_keyView r, mkBuffers (d_keys r) ordered (snd <$> d_particles r) (d_ordering r), setGlobal g d)).

(** *** Focus tree *)

Definition xs (ordered : list E) : list T := (fun p => vx (coords p)) <$> ordered.
Definition ys (ordered : list E) : list T := (fun p => vy (coords p)) <$> ordered.
Definition zs (ordered : list E) : list T := (fun p => vz (coords p)) <$> ordered.
Definition hs (ordered : list E) : list T := radius <$> ordered.
Definition ms (ordered : list E) : list T := mass <$> ordered.

(** The end of a pass: halo discovery, layout and halo requests. *)
Definition layoutHalos (ordered : list E) (accumulate : bool) (pass : Pass SourceCenterType) (d : Domain) :
    option (DomainError + (Z * list Z * list (Z * list Z) * list (Z * list Z) * Domain)) :=
  let f := focusTree_ d in
  let n := numLeafNodes (octreeAcc_ f) + 1 in
  let layout := aresize 0 (layout_ d) n in
  let! (layoutAcc, f) := liftFocus (discoverHalos s k (xs ordered) (ys ordered) (zs ordered) (hs ordered) (aresize 0 (layoutAcc_ d) n) (haloSearchExt_ d) (junkVec <$> seqZ 0 (numLeafNodes (octreeAcc_ f))) accumulate f) in
  let? (fail, layout) := computeLayout layout f in
  let? (haloFlags, requests, halos, rest) := exchangeRequests (halos_ d) (leaves_ f) (assignment_ f) layout (ps_interior pass) (ps_requests pass) in
  Some (inr (fail, haloFlags, requests, rest, setHalos halos (setBounds (prevBufDesc_ d) (bufDesc_ d) layoutAcc layout (setFocus f d)))).

(** One pass of the loop in [sync]. *)
Definition syncPass (ordered : list E) (keyView : list Z) (pass : Pass SourceCenterType) (d : Domain) : option (DomainError + (PassSent SourceCenterType * Domain)) :=
  let g := global_ d in
  let r := ps_round pass in
  let! f := liftFocus (updateMinMac sqrt s k (ga_assignment g) (invThetaMinMac (theta_ d)) true (focusTree_ d)) in
  let! (_, (flags, treelets, rejects), (rest1, rest2), f) := liftFocus (updateTree s k junkIdx (ga_assignment g) (g_leaves (ga_tree g)) (ga_box g) (r_intPeers r) (r_treelets r) (r_rejects r) f) in
  let? (counts, rest3, f) := updateCounts k keyView (g_leaves (ga_tree g)) (g_counts (ga_tree g)) (r_counts r) f in
  let! (fail, haloFlags, requests, rest4, d) := layoutHalos ordered false pass (setFocus f d) in
  Some (inr (mkPassSent flags treelets rejects counts ([], []) fail haloFlags requests (rest1 ++ rest2 ++ rest3 ++ rest4, []), d)).

(** One pass of the loop in [syncGrav]. *)
Definition gravPass (ordered : list E) (keyView : list Z) (pass : Pass SourceCenterType) (d : Domain) : option (DomainError + (PassSent SourceCenterType * Domain)) :=
  let g := global_ d in
  let r := ps_round pass in
  let! f := liftFocus (updateMacs sqrt s k (ga_assignment g) (s_div centerDriftTol_ (theta_ d)) true (focusTree_ d)) in
  let! (_, (flags, treelets, rejects), (rest1, rest2), f) := liftFocus (updateTree s k junkIdx (ga_assignment g) (g_leaves (ga_tree g)) (ga_box g) (r_intPeers r) (r_treelets r) (r_rejects r) f) in
  let? (counts, rest3, f) := updateCounts k keyView (g_leaves (ga_tree g)) (g_counts (ga_tree g)) (r_counts r) f in
  let? (contribution, centers, rest5, f) := updateCenters k (xs ordered) (ys ordered) (zs ordered) (ms ordered) (g_leaves (ga_tree g)) (g_tree (ga_tree g)) (ps_centers pass).1 (ps_centers pass).2 f in
  let! f := liftFocus (updateMacs sqrt s k (ga_assignment g) (s_div (s_ofZ 1) (theta_ d)) false f) in
  let! (fail, haloFlags, requests, rest4, d) := layoutHalos ordered true pass (setFocus f d) in
  Some (inr (mkPassSent flags treelets rejects counts (contribution, centers) fail haloFlags requests (rest1 ++ rest2 ++ rest3 ++ rest4, rest5), d)).

(** [do { ... } while (fail && maxRep--)]; [None] if the ranks disagree on the number of passes. *)
Fixpoint passLoop (step : Pass SourceCenterType -> Domain -> option (DomainError + (PassSent SourceCenterType * Domain))) (maxRep : nat) (passes : list (Pass SourceCenterType)) (d : Domain) :
    option (DomainError + (list (PassSent SourceCenterType) * Domain)) :=
  match passes with
  | [] => None
  | pass :: passes =>
      let! (sent, d) := step pass d in
      if ps_fail pass =? 0 then Some (inr ([sent], d))
      else
        match maxRep with
        | O => Some (inr ([sent], d))
        | S maxRep => let! (sents, d) := passLoop step maxRep passes d in Some (inr (sent :: sents, d))
        end
  end.

(** *** Layout and halos *)

Definition updateLayout (keyView : list Z) (b : Buffers) (d : Domain) : option (Buffers * Domain) :=
  let? mine := (assignment_ (focusTree_ d)).[d_myRank d] in
  let? newStart := (layout_ d).[start mine] in
  let? newEnd := (layout_ d).[end_ mine] in
  let? size := (layout_ d).[zlen (layout_ d) - 1] in
  let newBufDesc := mkBufferDescription newStart newEnd size in
  let? keys := fillFrom (bsize (bufDesc_ d)) size 0 (aresize 0 (b_keys b) size) in
  let? keys := writeFrom keyView keys newStart in
  let? front := subspan (aresize zeroE (b_ordered b) size) 0 (zlen keyView) in
  let? ordered := writeFrom front (junkE <$> seqZ 0 size) newStart in
  let? first := postExchangeStart (d_myRank d) (bufDesc_ d) (global_ d) in
  let? assigned := numAssigned (d_myRank d) (global_ d) in
  let? order := subspan (b_ordering b) first assigned in
  let? properties := gatherArrays order newStart (aresize zeroU (b_properties b) size) (junkU <$> seqZ 0 size) in
  Some (mkBuffers keys ordered properties (b_ordering b), setBounds (bufDesc_ d) newBufDesc (layout_ d) (layout_ d) d).

(** [Domain::exchangeHalos] for arrays with elements of type [V]. *)
Definition exchangeDomainHalos {V} (zero : V) (arrivals : list (Z * list V)) (arrays : list V) (d : Domain) :
    option (DomainError + (list (Z * list V) * list (Z * list V) * list V * Domain)) :=
  if negb (checkSizesEqual (bsize (bufDesc_ d)) [zlen arrays]) then Some (inl SizesInconsistent)
  else
    let? (sent, halos, arrays, rest) := exchangeHalos zero (halos_ d) arrivals arrays in
    Some (inr (sent, rest, arrays, setHalos halos d)).

Definition setupHalos (arrivals : list (Z * list E)) (b : Buffers) (d : Domain) : option (DomainError + (list (Z * list E) * list (Z * list E) * Buffers * Domain)) :=
  let! (sent, rest, ordered, d) := exchangeDomainHalos zeroE arrivals (b_ordered b) d in
  let box := ga_box (global_ d) in
  let? keys := computeKeys box 0 (bstart (bufDesc_ d)) ordered (b_keys b) in
  let? keys := computeKeys box (bend (bufDesc_ d)) (zlen ordered - bend (bufDesc_ d)) ordered keys in
  Some (inr (sent, rest, mkBuffers keys ordered (b_properties b) (b_ordering b), d)).

(** The end of [sync] and [syncGrav]. *)
Definition finishSync (keyView : list Z) (arrivals : list (Z * list E)) (b : Buffers) (d : Domain) : option (DomainError + (list (Z * list E) * list (Z * list E) * Buffers * Domain)) :=
  let? (b, d) := updateLayout keyView b d in
  let! (sent, rest, b, d) := setupHalos arrivals b d in
  Some (inr (sent, rest, b, setCalled d)).

(** The loop over the passes, layout and halos. *)
Definition syncPasses (step : Pass SourceCenterType -> Domain -> option (DomainError + (PassSent SourceCenterType * Domain))) (keyView : list Z) (passes : list (Pass SourceCenterType)) (halos : list (Z * list E)) (b : Buffers) (d : Domain) :
    option (DomainError + (list (PassSent SourceCenterType) * list (Z * list E) * list (Z * list E) * Buffers * Domain)) :=
  let! (sents, d) := passLoop step 10 passes d in
  let! (sentHalos, restHalos, b, d) := finishSync keyView halos b d in
  Some (inr (sents, sentHalos, restHalos, b, d)).

(** ** The update *)

(** What a rank receives in a call of [sync]. *)
Record SyncInput := mkSyncInput {
  in_reduced : Extrema T;
  in_particles : list (Z * Message (E * U));
  in_converge : list Round;
  in_centers : list (Pass SourceCenterType);
  in_passes : list (Pass SourceCenterType);
  in_halos : list (Z * list E)
}.

(** What it sends. *)
Record SyncSent := mkSyncSent {
  out_extrema : Extrema T;
  out_particles : list (list (Message (E * U)));
  out_passes : list (PassSent SourceCenterType);
  out_halos : list (Z * list E);
  out_rest : list (Z * Message (E * U)) * list (Z * list E)
}.

Definition sync (input : SyncInput) (b : Buffers) (d : Domain) : option (DomainError + (SyncSent * Buffers * Domain)) :=
  let! (contribution, sent, rest, keyView, b, d) := distributeParticles (in_reduced input) (in_particles input) b d in
  let g := global_ d in
  let! f :=
    (if firstCall_ d then
      liftFocus (converge sqrt s k junkIdx (ga_box g) keyView (ga_assignment g) (g_leaves (ga_tree g)) (g_counts (ga_tree g)) (invThetaMinMac (theta_ d)) (in_converge input) (focusTree_ d))
    else Some (inr (focusTree_ d))) in
  let! (sents, sentHalos, restHalos, b, d) := syncPasses (syncPass (b_ordered b) keyView) keyView (in_passes input) (in_halos input) b (setFocus f d) in
  Some (inr (mkSyncSent contribution sent sents sentHalos (rest, restHalos), b, d)).

(** The loop over [updateTree], [updateCounts], [updateCenters] and [updateMacs] in the first call of [syncGrav]. *)
Fixpoint convergeCenters (ordered : list E) (keyView : list Z) (reps : nat) (passes : list (Pass SourceCenterType)) (d : Domain) : option (DomainError + Domain) :=
  match passes with
  | [] => None
  | pass :: passes =>
      let g := global_ d in
      let r := ps_round pass in
      let! (_, _, _, f) := liftFocus (updateTree s k junkIdx (ga_assignment g) (g_leaves (ga_tree g)) (ga_box g) (r_intPeers r) (r_treelets r) (r_rejects r) (focusTree_ d)) in
      let? (_, _, f) := updateCounts k keyView (g_leaves (ga_tree g)) (g_counts (ga_tree g)) (r_counts r) f in
      let? (_, _, _, f) := updateCenters k (xs ordered) (ys ordered) (zs ordered) (ms ordered) (g_leaves (ga_tree g)) (g_tree (ga_tree g)) (ps_centers pass).1 (ps_centers pass).2 f in
      let! f := liftFocus (updateMacs sqrt s k (ga_assignment g) (s_div (s_ofZ 1) (theta_ d)) false f) in
      let reps := Nat.pred reps in
      if negb (r_converged r =? d_numRanks d) || (0 <? Z.of_nat reps) then convergeCenters ordered keyView reps passes (setFocus f d)
      else Some (inr (setFocus f d))
  end.

Definition syncGrav (input : SyncInput) (b : Buffers) (d : Domain) : option (DomainError + (SyncSent * Buffers * Domain)) :=
  let! (contribution, sent, rest, keyView, b, d) := distributeParticles (in_reduced input) (in_particles input) b d in
  let g := global_ d in
  let! d :=
    (if firstCall_ d then
      let! f := liftFocus (converge sqrt s k junkIdx (ga_box g) keyView (ga_assignment g) (g_leaves (ga_tree g)) (g_counts (ga_tree g)) (s_ofZ 1) (in_converge input) (focusTree_ d)) in
      let! f := liftFocus (updateMinMac sqrt s k (ga_assignment g) (s_ofZ 1) false f) in
      convergeCenters (b_ordered b) keyView 2 (in_centers input) (setFocus f d)
    else Some (inr d)) in
  let! (sents, sentHalos, restHalos, b, d) := syncPasses (gravPass (b_ordered b) keyView) keyView (in_passes input) (in_halos input) b d in
  Some (inr (mkSyncSent contribution sent sents sentHalos (rest, restHalos), b, d)).

(** *** Further arrays *)

(** The same exchange and reordering for other arrays; [scratch] describes the memory of the send buffer. *)
Definition reapplySync {V} (zero : V) (scratch : Z -> V) (elementSizes ordering : list Z) (arrivals : list (Z * Message V)) (arrays : list V) (d : Domain) :
    option (DomainError + (list (list (Message V)) * list (Z * Message V) * list V)) :=
  if negb (checkSizesEqual (bsize (prevBufDesc_ d)) [zlen arrays]) then Some (inl SizesInconsistent)
  else
    let g := global_ d in
    let? present := numPresent (d_myRank d) g in
    let? assigned := numAssigned (d_myRank d) g in
    let? down := numSendDown (d_myRank d) g in
    let exSize := exchangeBufferSize (prevBufDesc_ d) present assigned in
    let arrays := aresize zero arrays exSize in
    let exDesc := mkBufferDescription (bstart (prevBufDesc_ d)) (bend (prevBufDesc_ d)) exSize in
    let ord := drop (Z.to_nat (assignedEnvelope exDesc (u32 (assigned - present))).1) ordering in
    let? (sent, _, arrays, rest) := redoExchange (d_myRank d) assigned (ga_exchanges g) (ga_recvLog g) exDesc ord elementSizes arrivals arrays in
    let size := bsize (bufDesc_ d) in
    let? order := subspan ord down assigned in
    let? arrays := gatherArrays order (bstart (bufDesc_ d)) (aresize zero arrays size) (scratch <$> seqZ 0 size) in
    Some (inr (sent, rest, arrays)).

(** [particles + si]: the arrays from the first assigned particle on. *)
Definition updateExpansionCenters (ordered : list E) (contributions : list (list SourceCenterType)) (arrivals : list (Z * list SourceCenterType)) (d : Domain) :
    option (list SourceCenterType * list (Z * list SourceCenterType) * list (Z * list SourceCenterType) * Domain) :=
  let ordered := drop (Z.to_nat (startIndex d)) ordered in
  let? (contribution, sent, rest, f) := updateCenters k (xs ordered) (ys ordered) (zs ordered) (ms ordered) (g_leaves (ga_tree (global_ d))) (g_tree (ga_tree (global_ d))) contributions arrivals (focusTree_ d) in
  let? f := setMacRadius sqrt s k (s_div (s_ofZ 1) (theta_ d)) f in
  Some (contribution, sent, rest, setFocus f d).

End Class.
