(* ===== verification/DomainLayout.v ===== *)
(** * Layout of the particle buffers on all ranks

    With exact counts the layout that [FocusedOctree::computeLayout] gives a rank has room for the particles of all leaves
    that the rank owns or has marked, so that the state of all ranks satisfies [haloWorld], and after the halo exchange the
    buffers hold exactly the particles of these leaves. *)

From S2P Require Import Prelude Primitives SfcCommon Csarray CsInvariant CsRebalance CsCounts CsBuild SfcBox Morton Hilbert Sfc Octree OctreeNodes OctreeBuild OctreeQueries IndexRanges DomainDecomp Layout FocusRebalance FocusInject FocusTree FocusOps FocusUpdate GlobalTree Exchange Distribute Halos HaloExchange NodeLookup Scalars FloatBox GlobalBox Macs SourceCenter Neighbors IjLoop Treelets TreeletSync TreeletWorld TreeletCells FocusedOctree FocusCounts FocusTrees Domain.

(** The particles of all ranks, in key order: [own p] are those that are assigned to rank [p]. *)
Definition particlesOf {E} (N : Z) (own : Z -> list E) : list E := concat (own <$> seqZ 0 N).

(** The state of all ranks before [computeLayout]: every rank owns the leaves of its domain, the keys that bound the leaves
    assigned to another rank are keys of that rank, and the counts are those of the particles of all ranks. *)
Record placedWorld {T E} (key : E -> Z) (k : KeyType) (N : Z) (F : Z -> FocusedOctree (T := T)) (s : SfcAssignment) (own : Z -> list E) : Prop := {
  pl_assignment : validAssignment k s;
  pl_ranks : assignmentRanks s = N;
  pl_rank : forall p, 0 <= p < N -> myRank_ (F p) = p;
  pl_tree : forall p, 0 <= p < N -> exists t, octreeDataOf k t (octreeAcc_ (F p)) /\ leaves_ (F p) = leafArray k t;
  pl_parts : forall p, 0 <= p < N -> assignment_ (F p) = partIn s (leaves_ (F p)) <$> seqZ 0 N;
  pl_bounds : forall p, 0 <= p < N -> nthz (rankBoundaries_ s) p ∈ leaves_ (F p) /\ nthz (rankBoundaries_ s) (p + 1) ∈ leaves_ (F p);
  pl_shared : forall p q j, 0 <= p < N -> 0 <= q < N -> p <> q -> start (partIn s (leaves_ (F p)) q) <= j < end_ (partIn s (leaves_ (F p)) q) ->
    nthz (leaves_ (F p)) j ∈ leaves_ (F q) /\ nthz (leaves_ (F p)) (j + 1) ∈ leaves_ (F q);
  pl_keys : forall p, 0 <= p < N -> zsorted (key <$> own p) /\ Forall (fun x => nthz (rankBoundaries_ s) p <= key x < nthz (rankBoundaries_ s) (p + 1)) (own p);
  pl_total : zlen (particlesOf N own) < 4294967296;
  pl_counts : forall p, 0 <= p < N -> leafCountsAcc_ (F p) =
    (fun j => saturate (countIn (key <$> particlesOf N own) (nthz (leaves_ (F p)) j) (nthz (leaves_ (F p)) (j + 1)))) <$> seqZ 0 (nNodes (leaves_ (F p)));
  pl_macs : forall p, 0 <= p < N -> zlen (macsAcc_ (F p)) = zlen (prefixes (arrays (octreeAcc_ (F p))))
}.

Section World.
Context {T E : Type} (key : E -> Z) (k : KeyType) (N : Z) (F : Z -> FocusedOctree (T := T)) (s : SfcAssignment) (own : Z -> list E).
Hypothesis Hw : placedWorld key k N F s own.

Local Abbreviation B := (nthz (rankBoundaries_ s)).
Local Abbreviation L p := (leaves_ (F p)).
Local Abbreviation mine p := (partIn s (leaves_ (F p)) p).
Local Abbreviation all := (particlesOf N own).
Let Hva : validAssignment k s := pl_assignment _ _ _ _ _ _ Hw.
Let HN : assignmentRanks s = N := pl_ranks _ _ _ _ _ _ Hw.

Lemma placed_tree p : 0 <= p < N -> csTree k (L p).
Proof using Hw. intros Hp. destruct (pl_tree _ _ _ _ _ _ Hw p Hp) as (t & Ho & ->). apply leafArray_csTree, Ho. Qed.

(** ** The particles *)

Lemma zsorted_concat (l : Z -> list E) (c : Z -> Z) n : forall a, (forall p, a <= p < a + Z.of_nat n -> zsorted (key <$> l p) /\ Forall (fun x => c p <= key x < c (p + 1)) (l p)) ->
  (forall p q, a <= p <= q -> q <= a + Z.of_nat n -> c p <= c q) -> zsorted (key <$> concat (l <$> seqZ a (Z.of_nat n))) /\ Forall (fun x => c a <= key x < c (a + Z.of_nat n)) (concat (l <$> seqZ a (Z.of_nat n))).
Proof using.
  induction n as [|n IH]; intros a Hl Hc; [change (seqZ a (Z.of_nat 0)) with (@nil Z); split; [intros i j x y _ Hx; by rewrite aget_None in Hx by (change (zlen (key <$> concat (l <$> []))) with 0; lia)|by apply Forall_nil]|].
  rewrite seqZ_cons by lia. replace (Z.pred (Z.of_nat (S n))) with (Z.of_nat n) by lia. replace (Z.succ a) with (a + 1) by lia. rewrite fmap_cons. cbn [concat]. rewrite fmap_app.
  destruct (IH (a + 1)) as [I1 I2]; [intros p Hp; apply Hl; lia|intros p q Hp Hq; apply Hc; lia|]. destruct (Hl a ltac:(lia)) as [H1 H2]. replace (a + 1 + Z.of_nat n) with (a + Z.of_nat (S n)) in I2 by lia. pose proof (Hc a (a + 1) ltac:(lia) ltac:(lia)). pose proof (Hc (a + 1) (a + Z.of_nat (S n)) ltac:(lia) ltac:(lia)). split.
  - apply StronglySorted_zsorted. apply StronglySorted_app. split; [|split; [by apply zsorted_StronglySorted|by apply zsorted_StronglySorted]].
    intros x y (x' & -> & Hx)%list_elem_of_fmap (y' & -> & Hy)%list_elem_of_fmap. rewrite Forall_forall in H2, I2. specialize (H2 _ Hx). specialize (I2 _ Hy). cbn beta in *. lia.
  - apply Forall_app. split; (eapply Forall_impl; [eassumption|]); cbn beta; intros x Hx; lia.
Qed.

Lemma ranks_nonneg : 0 <= N.
Proof using Hw. rewrite <- HN. destruct Hva. unfold assignmentRanks in *. lia. Qed.

Lemma all_sorted : zsorted (key <$> all).
Proof using Hw.
  pose proof ranks_nonneg. unfold particlesOf. replace N with (Z.of_nat (Z.to_nat N)) at 1 by lia. apply (zsorted_concat own B).
  - intros p Hp. apply (pl_keys _ _ _ _ _ _ Hw). lia.
  - intros p q Hp Hq. apply (boundary_mono k s Hva); lia.
Qed.

Lemma filter_concat_one (Q : E -> Prop) `{!forall x, Decision (Q x)} (l : Z -> list E) p js : NoDup js -> p ∈ js -> Forall Q (l p) -> (forall q, q ∈ js -> q <> p -> Forall (fun x => ~ Q x) (l q)) -> filter Q (concat (l <$> js)) = l p.
Proof using.
  intros Hnd Hp HQ Hn. induction js as [|r js IH]; [by apply not_elem_of_nil in Hp|]. apply NoDup_cons in Hnd as [Hni Hnd]. rewrite fmap_cons. cbn [concat]. rewrite filter_app. destruct (decide (r = p)) as [->|Hne].
  - rewrite filter_all by done. rewrite filter_none; [by rewrite app_nil_r|]. apply Forall_forall. intros x (l' & Hl & Hx)%elem_of_concat. apply list_elem_of_fmap in Hl as (q & -> & Hq). specialize (Hn q ltac:(by right) ltac:(by intros ->)). rewrite Forall_forall in Hn. by apply Hn.
  - rewrite filter_none by (apply Hn; [by left|done]). apply elem_of_cons in Hp as [->|Hp]; [done|]. cbn [app]. apply IH; [done|done|]. intros q Hq. apply Hn. by right.
Qed.

(** The particles of a rank are those in its domain. *)
Lemma own_all p : 0 <= p < N -> particlesIn key all (B p) (B (p + 1)) = own p.
Proof using Hw.
  intros Hp. unfold particlesIn, particlesOf. apply filter_concat_one; [apply NoDup_seqZ|apply elem_of_seqZ; lia|by apply (pl_keys _ _ _ _ _ _ Hw)|].
  intros q Hq%elem_of_seqZ Hne. destruct (pl_keys _ _ _ _ _ _ Hw q ltac:(lia)) as [_ Hk]. eapply Forall_impl; [exact Hk|]. cbn beta. intros x Hx.
  destruct (Z.lt_ge_cases p q); [pose proof (boundary_mono k s Hva (p + 1) q ltac:(lia) ltac:(lia)); lia|pose proof (boundary_mono k s Hva (q + 1) p ltac:(lia) ltac:(lia)); lia].
Qed.

Lemma count_particles x y : countIn (key <$> all) x y = zlen (particlesIn key all x y).
Proof using. unfold countIn, particlesIn. induction (particlesOf N own) as [|e l IH]; [done|]. rewrite fmap_cons, !filter_cons. destruct (decide (x <= key e < y)); rewrite ?zlen_cons; by rewrite IH. Qed.

(** The particles of a leaf of [p]. *)
Definition leafParticles (p j : Z) : list E := particlesIn key all (nthz (L p) j) (nthz (L p) (j + 1)).

Lemma leaf_mono p i j : 0 <= p < N -> 0 <= i <= j -> j <= nNodes (L p) -> nthz (L p) i <= nthz (L p) j.
Proof using Hw. intros Hp Hi Hj. unfold nNodes in Hj. apply (cs_sorted k _ (placed_tree p Hp) i j); [lia|apply nthz_get; lia..]. Qed.

(** The particles of consecutive leaves. *)
Lemma leaves_concat p n : 0 <= p < N -> forall i, 0 <= i -> i + Z.of_nat n <= nNodes (L p) -> particlesIn key all (nthz (L p) i) (nthz (L p) (i + Z.of_nat n)) = seqZ i (Z.of_nat n) ≫= leafParticles p.
Proof using Hw.
  intros Hp. induction n as [|n IH]; intros i Hi Hn; [rewrite Z.add_0_r; apply filter_none, Forall_forall; intros x _; lia|].
  rewrite seqZ_cons by lia. replace (Z.pred (Z.of_nat (S n))) with (Z.of_nat n) by lia. replace (Z.succ i) with (i + 1) by lia. rewrite bind_cons, <- IH by lia. replace (i + Z.of_nat (S n)) with (i + 1 + Z.of_nat n) by lia.
  apply particlesIn_app; [apply all_sorted|apply leaf_mono; (done || lia)|apply leaf_mono; (done || lia)].
Qed.

Lemma particlesIn_le x y : zlen (particlesIn key all x y) <= zlen all.
Proof using. unfold particlesIn, zlen. apply inj_le, length_filter. Qed.

Lemma leafCount_get p j : 0 <= p < N -> 0 <= j < nNodes (L p) -> (leafCountsAcc_ (F p)).[j] = Some (zlen (leafParticles p j)).
Proof using Hw.
  intros Hp Hj. rewrite (pl_counts _ _ _ _ _ _ Hw p Hp), aget_map, aget_seqZ by lia. cbn [fmap option_fmap option_map]. rewrite Z.add_0_l, count_particles. fold (leafParticles p j). f_equal. change saturate with (Z.min 0xFFFFFFFF). apply Z.min_r.
  pose proof (particlesIn_le (nthz (L p) j) (nthz (L p) (j + 1))). pose proof (pl_total _ _ _ _ _ _ Hw). unfold leafParticles. lia.
Qed.

Lemma placed_zlenCounts p : 0 <= p < N -> zlen (leafCountsAcc_ (F p)) = nNodes (L p).
Proof using Hw. intros Hp. rewrite (pl_counts _ _ _ _ _ _ Hw p Hp), zlen_map, zlen_seqZ; [done|]. pose proof (treelet_nonempty _ _ _ _ (placed_tree p Hp)). unfold nNodes. lia. Qed.

Lemma zlen_bind_sum (f : Z -> list E) l : zlen (l ≫= f) = zsum ((fun i => zlen (f i)) <$> l).
Proof using. induction l as [|i l IH]; [done|]. rewrite bind_cons, zlen_app, fmap_cons, zsum_cons. by rewrite IH. Qed.

Lemma leafCounts_total p : 0 <= p < N -> Forall (fun c => 0 <= c < 4294967296) (leafCountsAcc_ (F p)) /\ zsum (leafCountsAcc_ (F p)) < 4294967296.
Proof using Hw.
  intros Hp. pose proof (placed_zlenCounts p Hp) as Hz. pose proof (zlen_nonneg (leafCountsAcc_ (F p))). pose proof (pl_total _ _ _ _ _ _ Hw).
  assert (El : leafCountsAcc_ (F p) = (fun j => zlen (leafParticles p j)) <$> seqZ 0 (nNodes (L p))).
  { apply list_eq_aget; [rewrite zlen_map, zlen_seqZ; lia|]. intros j Hj. rewrite leafCount_get, aget_map, aget_seqZ by lia. done. }
  rewrite El. split.
  - apply Forall_fmap, Forall_forall. intros j _. unfold compose. pose proof (particlesIn_le (nthz (L p) j) (nthz (L p) (j + 1))). pose proof (zlen_nonneg (leafParticles p j)). unfold leafParticles in *. lia.
  - rewrite <- zlen_bind_sum. pose proof (leaves_concat p (Z.to_nat (nNodes (L p))) Hp 0 ltac:(lia) ltac:(lia)) as E0. rewrite Z2Nat.id in E0 by lia. rewrite <- E0. pose proof (particlesIn_le (nthz (L p) 0) (nthz (L p) (0 + nNodes (L p)))). lia.
Qed.

(** ** The layout *)

(** Leaf [j] has space in the buffers of [p]: it is an own leaf or marked. *)
Definition presentLeaf (p j : Z) : bool := present (macsAcc_ (F p)) (leafToInternalSpan (octreeAcc_ (F p))) (mine p) j.
Definition presentParticles (p j : Z) : list E := if presentLeaf p j then leafParticles p j else [].
Definition offsetOf (p j : Z) : Z := zlen (seqZ 0 j ≫= presentParticles p).
Definition layoutOf (p : Z) : list Z := offsetOf p <$> seqZ 0 (nNodes (L p) + 1).

Lemma nodes_pos p : 0 <= p < N -> 1 <= nNodes (L p).
Proof using Hw. intros Hp. pose proof (treelet_nonempty _ _ _ _ (placed_tree p Hp)). pose proof (treelet_first _ _ _ _ (placed_tree p Hp)) as H0. pose proof (treelet_last _ _ _ _ (placed_tree p Hp)) as H1. unfold nNodes. destruct (decide (zlen (L p) = 1)) as [E1|]; [|lia]. rewrite E1 in H1. change (1 - 1) with 0 in H1. rewrite H0 in H1. injection H1 as H1. destruct k; vm_compute in H1; lia. Qed.

Lemma zlen_layoutOf p : 0 <= p < N -> zlen (layoutOf p) = nNodes (L p) + 1.
Proof using Hw. intros Hp. pose proof (nodes_pos p Hp). unfold layoutOf. rewrite zlen_map, zlen_seqZ; lia. Qed.

Lemma layoutOf_get p i : 0 <= i <= nNodes (L p) -> (layoutOf p).[i] = Some (offsetOf p i).
Proof using. intros Hi. unfold layoutOf. rewrite aget_map, aget_seqZ by lia. done. Qed.

Lemma layoutOf_nth p i : 0 <= i <= nNodes (L p) -> nthz (layoutOf p) i = offsetOf p i.
Proof using. intros Hi. by apply nthz_Some, layoutOf_get. Qed.

Lemma offset_succ p i j : 0 <= i <= j -> offsetOf p j = offsetOf p i + zlen (seqZ i (j - i) ≫= presentParticles p).
Proof using. intros Hi. unfold offsetOf. replace j with (i + (j - i)) at 1 by lia. rewrite seqZ_app, bind_app, zlen_app by lia. done. Qed.

Lemma offset_next p i : 0 <= i -> offsetOf p (i + 1) = offsetOf p i + zlen (presentParticles p i).
Proof using. intros Hi. rewrite (offset_succ p i (i + 1)) by lia. rewrite Z.add_simpl_l. change (seqZ i 1) with [i]. cbn [mbind list_bind]. by rewrite app_nil_r. Qed.

Lemma offset_mono p i j : 0 <= i <= j -> offsetOf p i <= offsetOf p j.
Proof using. intros Hi. rewrite (offset_succ p i j Hi). pose proof (zlen_nonneg (seqZ i (j - i) ≫= presentParticles p)). lia. Qed.

(** The own leaves. *)
Lemma mine_range p : 0 <= p < N -> 0 <= start (mine p) <= end_ (mine p) /\ end_ (mine p) <= nNodes (L p) /\ nthz (L p) (start (mine p)) = B p /\ nthz (L p) (end_ (mine p)) = B (p + 1).
Proof using Hw.
  intros Hp. pose proof (placed_tree p Hp) as Hcs. pose proof (part_range k s Hva (L p) p Hcs ltac:(lia)). destruct (pl_bounds _ _ _ _ _ _ Hw p Hp) as [H1 H2]. destruct (part_own k s Hva (L p) p Hcs ltac:(lia) H1 H2) as [E1 E2]. unfold nNodes. split; [lia|]. split; [lia|]. split; by apply nthz_Some.
Qed.

Lemma present_mine p j : start (mine p) <= j < end_ (mine p) -> presentParticles p j = leafParticles p j.
Proof using. intros Hj. unfold presentParticles, presentLeaf, present. by rewrite (proj2 (Z.leb_le _ _) (proj1 Hj)), (proj2 (Z.ltb_lt _ _) (proj2 Hj)). Qed.

(** The own particles of the first own leaves. *)
Lemma own_prefix p j : 0 <= p < N -> start (mine p) <= j <= end_ (mine p) -> offsetOf p j - offsetOf p (start (mine p)) = count_lt (nthz (L p) j) (key <$> own p) /\
  seqZ (start (mine p)) (j - start (mine p)) ≫= presentParticles p = particlesIn key all (B p) (nthz (L p) j).
Proof using Hw.
  intros Hp Hj. destruct (mine_range p Hp) as (H1 & H2 & E1 & E2). assert (Ec : seqZ (start (mine p)) (j - start (mine p)) ≫= presentParticles p = particlesIn key all (B p) (nthz (L p) j)).
  { pose proof (leaves_concat p (Z.to_nat (j - start (mine p))) Hp (start (mine p)) ltac:(lia) ltac:(lia)) as Hc. rewrite Z2Nat.id in Hc by lia. rewrite E1 in Hc. replace (start (mine p) + (j - start (mine p))) with j in Hc by lia. rewrite Hc.
    apply Forall_bind_ext, Forall_forall. intros i Hi%elem_of_seqZ. apply present_mine. lia. }
  split; [|done]. rewrite (offset_succ p (start (mine p)) j) by lia. rewrite Ec. pose proof (leaf_mono p j (end_ (mine p)) Hp ltac:(lia) ltac:(lia)) as Hle. rewrite E2 in Hle. pose proof (leaf_mono p (start (mine p)) j Hp ltac:(lia) ltac:(lia)) as Hge. rewrite E1 in Hge.
  assert (Ei : particlesIn key all (B p) (nthz (L p) j) = particlesIn key (own p) (B p) (nthz (L p) j)).
  { rewrite <- (own_all p Hp). unfold particlesIn. rewrite list_filter_filter. apply list_filter_iff. intros x. lia. }
  rewrite Ei. destruct (pl_keys _ _ _ _ _ _ Hw p Hp) as [Hs Hk]. unfold particlesIn. rewrite <- (filter_sorted_slice key (own p) (B p) (nthz (L p) j) Hs Hge).
  assert (H0 : count_lt (B p) (key <$> own p) = 0) by (unfold count_lt; rewrite filter_none; [done|]; apply Forall_fmap; eapply Forall_impl; [exact Hk|]; intros x Hx; simpl in *; lia).
  rewrite H0. pose proof (count_lt_range (nthz (L p) j) (key <$> own p)) as Hr. rewrite zlen_map in Hr. rewrite slice_zlen by lia. lia.
Qed.

Lemma own_length p : 0 <= p < N -> offsetOf p (end_ (mine p)) - offsetOf p (start (mine p)) = zlen (own p).
Proof using Hw.
  intros Hp. destruct (mine_range p Hp) as (H1 & H2 & E1 & E2). destruct (own_prefix p (end_ (mine p)) Hp ltac:(lia)) as [-> _]. rewrite E2. destruct (pl_keys _ _ _ _ _ _ Hw p Hp) as [_ Hk]. unfold count_lt. rewrite filter_all; [apply zlen_map|]. apply Forall_fmap. eapply Forall_impl; [exact Hk|]. intros x Hx. simpl in *. lia.
Qed.

Lemma total_offset p : 0 <= p < N -> offsetOf p (nNodes (L p)) < 4294967296.
Proof using Hw.
  intros Hp. pose proof (nodes_pos p Hp). pose proof (pl_total _ _ _ _ _ _ Hw). pose proof (leaves_concat p (Z.to_nat (nNodes (L p))) Hp 0 ltac:(lia) ltac:(lia)) as E0. rewrite Z2Nat.id in E0 by lia. pose proof (particlesIn_le (nthz (L p) 0) (nthz (L p) (0 + nNodes (L p)))) as Hle. rewrite E0, zlen_bind_sum in Hle.
  unfold offsetOf. rewrite zlen_bind_sum. apply Z.le_lt_trans with (zsum ((fun i => zlen (leafParticles p i)) <$> seqZ 0 (nNodes (L p)))); [|lia]. generalize (seqZ 0 (nNodes (L p))). intros l. induction l as [|i l IH]; [done|]. rewrite !fmap_cons, !zsum_cons.
  assert (zlen (presentParticles p i) <= zlen (leafParticles p i)) by (unfold presentParticles; destruct (presentLeaf p i); [lia|apply zlen_nonneg]). lia.
Qed.

Lemma parts_in p q : 0 <= p < N -> 0 <= q < N -> (assignment_ (F p)).[q] = Some (partIn s (L p) q).
Proof using Hw. intros Hp Hq. rewrite (pl_parts _ _ _ _ _ _ Hw p Hp), aget_map, aget_seqZ by lia. done. Qed.

(** [computeLayout] returns these offsets, and zero only if every leaf that has space and is not owned by the rank belongs to
    another rank. *)
Lemma layout_run p layout0 : 0 <= p < N -> zlen layout0 = nNodes (L p) + 1 -> exists status, computeLayout layout0 (F p) = Some (status, layoutOf p) /\
  (status = 0 -> forall i, 0 <= i < nNodes (L p) -> offsetOf p i < offsetOf p (i + 1) -> covers (assignment_ (F p)) i).
Proof using Hw.
  intros Hp Hz0. destruct (mine_range p Hp) as (H1 & H2 & _). pose proof (nodes_pos p Hp). destruct (pl_tree _ _ _ _ _ _ Hw p Hp) as (t & Ho & El). destruct (leafCounts_total p Hp) as [Hc Ht]. pose proof (placed_zlenCounts p Hp) as Hzc.
  pose proof (nNodes_leafArray k t) as Hnl. rewrite <- El in Hnl. unfold computeLayout. rewrite (pl_rank _ _ _ _ _ _ Hw p Hp), (parts_in p p Hp Hp). cbn beta iota.
  destruct (computeNodeLayout_spec (leafCountsAcc_ (F p)) (macsAcc_ (F p)) (leafToInternalSpan (octreeAcc_ (F p))) (mine p) Hc Ht) with (layout := layout0) as (out & -> & Hzo & Hout).
  { rewrite (leafMap_run k t _ Ho), zlen_map. lia. }
  { intros i j Hj. rewrite (leafMap_run k t _ Ho), aget_map in Hj. destruct ((leafKeys 1 t).[i]) as [r|] eqn:Er; [|done]. cbn in Hj. injection Hj as <-. rewrite (pl_macs _ _ _ _ _ _ Hw p Hp). apply (pos_range k t _ (od_linked _ _ _ Ho)). apply elem_of_app. right. by eapply aget_elem. }
  { lia. }
  assert (Eo : out = layoutOf p).
  { apply list_eq_aget; [rewrite zlen_layoutOf by done; lia|]. intros i Hi. rewrite Hout, layoutOf_get by lia. f_equal. unfold offsetOf. rewrite zlen_bind_sum. f_equal. apply list_fmap_ext. intros n j Hj%list_elem_of_lookup_2%elem_of_seqZ.
    unfold presentCount, presentParticles. fold (presentLeaf p j). destruct (presentLeaf p j); [|done]. apply nthz_Some, leafCount_get; (done || lia). }
  subst out. cbn beta iota. unfold checkLayout. rewrite (parts_in p p Hp Hp). cbn beta iota. set (maxP := u32 (512 * bucketSize_ (F p))).
  destruct (checkLoop_spec (assignment_ (F p)) (layoutOf p) maxP 0 (start (mine p)) 0 ltac:(lia) ltac:(lia) ltac:(rewrite zlen_layoutOf by done; lia)) as (r1 & -> & Hr1). cbn beta iota.
  destruct (checkLoop_spec (assignment_ (F p)) (layoutOf p) maxP (end_ (mine p)) (nNodes (L p)) r1 ltac:(lia) ltac:(lia) ltac:(rewrite zlen_layoutOf by done; lia)) as (r2 & -> & Hr2). cbn beta iota.
  exists r2. split; [done|]. intros E0 i Hi Hlt. apply Hr2 in E0 as [E1 Hhi]. apply Hr1 in E1 as [_ Hlo]. destruct (Z.lt_ge_cases i (start (mine p))) as [Hl|Hl]; [apply (Hlo i ltac:(lia)); by rewrite !layoutOf_nth by lia|].
  destruct (Z.lt_ge_cases i (end_ (mine p))) as [Hm|Hm]; [|apply (Hhi i ltac:(lia)); by rewrite !layoutOf_nth by lia]. exists (mine p). split; [eapply aget_elem; by apply parts_in|done].
Qed.

(** ** Halos *)

Context (buf : Z -> list E).
Hypothesis Hbuf : forall p, 0 <= p < N -> zlen (buf p) = offsetOf p (nNodes (L p)) /\ slice (buf p) (offsetOf p (start (mine p))) (offsetOf p (end_ (mine p))) = own p.

Lemma part_key p q j : 0 <= p < N -> 0 <= q < N -> start (partIn s (L p) q) <= j <= end_ (partIn s (L p) q) -> start (partIn s (L p) q) < end_ (partIn s (L p) q) -> B q <= nthz (L p) j <= B (q + 1).
Proof using Hw.
  intros Hp Hq Hj Hlt. pose proof (placed_tree p Hp) as Hcs. destruct (part_bounds k s Hva (L p) q Hcs ltac:(lia) Hlt) as (x & y & E1 & E2 & H1 & H2 & H3 & _). pose proof (part_range k s Hva (L p) q Hcs ltac:(lia)).
  pose proof (leaf_mono p (start (partIn s (L p) q)) j Hp ltac:(lia) ltac:(unfold nNodes; lia)) as M1. pose proof (leaf_mono p j (end_ (partIn s (L p) q)) Hp ltac:(lia) ltac:(unfold nNodes; lia)) as M2. rewrite (nthz_Some _ _ _ E1) in M1. rewrite (nthz_Some _ _ _ E2) in M2. lia.
Qed.

(** A key of [q] in its own domain is found among its own leaves. *)
Lemma own_position q x : 0 <= q < N -> x ∈ L q -> B q <= x <= B (q + 1) -> exists j, start (mine q) <= j <= end_ (mine q) /\ nthz (L q) j = x.
Proof using Hw.
  intros Hq [j Hj]%elem_aget Hx. destruct (mine_range q Hq) as (H1 & H2 & E1 & E2). pose proof (placed_tree q Hq) as Hcs. pose proof (aget_Some_range _ _ _ Hj). exists j. split; [|by apply nthz_Some]. unfold nNodes in *.
  pose proof (nthz_get (L q) (start (mine q)) ltac:(lia)) as G1. pose proof (nthz_get (L q) (end_ (mine q)) ltac:(lia)) as G2. rewrite E1 in G1. rewrite E2 in G2. split.
  - destruct (Z.le_gt_cases (start (mine q)) j) as [|Hgt]; [done|]. apply (cs_lt k _ _ _ _ _ Hcs Hj G1) in Hgt. lia.
  - destruct (Z.le_gt_cases j (end_ (mine q))) as [|Hgt]; [done|]. apply (cs_lt k _ _ _ _ _ Hcs G2 Hj) in Hgt. lia.
Qed.

Lemma placed_haloWorld : haloWorld key all k N (fun p => L p) (fun p => assignment_ (F p)) layoutOf buf.
Proof using Hw Hbuf.
  assert (Hget : forall p q a, 0 <= p < N -> (assignment_ (F p)).[q] = Some a -> 0 <= q < N /\ a = partIn s (L p) q).
  { intros p q a Hp Ha. pose proof (aget_Some_range _ _ _ Ha) as Hq. rewrite (pl_parts _ _ _ _ _ _ Hw p Hp), zlen_map, zlen_seqZ in Hq by (pose proof ranks_nonneg; lia). rewrite parts_in in Ha by lia. injection Ha as <-. done. }
  split.
  - apply all_sorted.
  - apply placed_tree.
  - intros p Hp. rewrite (pl_parts _ _ _ _ _ _ Hw p Hp), zlen_map, zlen_seqZ; lia.
  - intros p Hp. pose proof (total_offset p Hp). pose proof (zlen_layoutOf p Hp) as Hz. rewrite (proj1 (Hbuf p Hp)). split; [unfold nNodes in Hz; lia|]. split; [|split; [|done]].
    + intros i j x y Hij Hx Hy. pose proof (aget_Some_range _ _ _ Hx). pose proof (aget_Some_range _ _ _ Hy). rewrite layoutOf_get in Hx, Hy by lia. injection Hx as <-. injection Hy as <-. apply offset_mono. lia.
    + unfold layoutOf. apply Forall_fmap, Forall_forall. intros i Hi%elem_of_seqZ. unfold compose. split; [apply zlen_nonneg|apply offset_mono; lia].
  - intros p q a Hp Ha. destruct (Hget p q a Hp Ha) as [Hq ->]. apply (part_range k s Hva (L p) q (placed_tree p Hp)). lia.
  - intros p q r a b Hp Hqr Ha Hb. destruct (Hget p q a Hp Ha) as [Hq ->]. destruct (Hget p r b Hp Hb) as [Hr ->]. unfold partIn. cbn [start end_]. pose proof (boundary_mono k s Hva (q + 1) r ltac:(lia) ltac:(lia)).
    pose proof (boundary_mono k s Hva q r ltac:(lia) ltac:(lia)). pose proof (count_lt_mono (B q) (B r) (L p) ltac:(lia)). pose proof (count_lt_mono (B (q + 1)) (B r) (L p) ltac:(lia)).
    destruct (part_last k s Hva (L p) (q + 1) (placed_tree p Hp) ltac:(lia)) as (x & Ex & Hx & _). pose proof (cs_sorted k _ (placed_tree p Hp)) as Hso. destruct (decide (x < B r)) as [Hlt|Hge]; [pose proof (count_lt_gt _ Hso _ _ _ Ex Hlt); lia|].
    assert (x = B r) as -> by lia. pose proof (count_lt_le _ Hso _ _ (B r) Ex ltac:(lia)). apply Z.max_lub; [lia|]. pose proof (part_at_first k s (L p) r (B r) (placed_tree p Hp) ltac:(by eapply aget_elem) ltac:(lia) ltac:(lia)) as E1. pose proof (cs_position k _ _ _ (placed_tree p Hp) Ex). lia.
  - intros p a i Hp Ha Hi. destruct (Hget p p a Hp Ha) as [_ ->]. destruct (mine_range p Hp) as (H1 & H2 & E1 & E2). rewrite !layoutOf_nth by lia. destruct (own_prefix p i Hp ltac:(lia)) as [O1 _]. destruct (own_prefix p (i + 1) Hp ltac:(lia)) as [O2 _]. destruct (Hbuf p Hp) as [Hz Hs].
    pose proof (own_length p Hp). pose proof (offset_mono p (start (mine p)) i ltac:(lia)). pose proof (offset_mono p i (i + 1) ltac:(lia)). pose proof (offset_mono p (i + 1) (end_ (mine p)) ltac:(lia)).
    assert (Eo : slice (buf p) (offsetOf p i) (offsetOf p (i + 1)) = slice (own p) (offsetOf p i - offsetOf p (start (mine p))) (offsetOf p (i + 1) - offsetOf p (start (mine p)))).
    { rewrite <- Hs. pose proof (zlen_nonneg (seqZ 0 (start (mine p)) ≫= presentParticles p)) as Hz0. fold (offsetOf p (start (mine p))) in Hz0. rewrite slice_slice by lia. f_equal; lia. }
    rewrite Eo, O1, O2. destruct (pl_keys _ _ _ _ _ _ Hw p Hp) as [Hso _]. rewrite (filter_sorted_slice key (own p)) by (done || (apply leaf_mono; (done || lia))). rewrite <- (own_all p Hp). unfold particlesIn. rewrite list_filter_filter. apply list_filter_iff. intros x.
    pose proof (leaf_mono p (start (mine p)) i Hp ltac:(lia) ltac:(lia)). pose proof (leaf_mono p (i + 1) (end_ (mine p)) Hp ltac:(lia) ltac:(lia)). lia.
  - intros p q a b i Hp Hq Hne Ha Hb Hi Hlt. destruct (Hget p q a Hp Ha) as [_ ->]. destruct (Hget q q b Hq Hb) as [_ ->]. pose proof (part_range k s Hva (L p) q (placed_tree p Hp) ltac:(lia)) as Hr. rewrite !layoutOf_nth in * by (unfold nNodes; lia). split.
    + rewrite offset_next in * by lia. unfold presentParticles in *. destruct (presentLeaf p i); [unfold leafParticles; lia|change (zlen (@nil E)) with 0 in Hlt; lia].
    + destruct (pl_shared _ _ _ _ _ _ Hw p q i Hp Hq ltac:(done) Hi) as [S1 S2]. pose proof (part_key p q i Hp Hq ltac:(lia) ltac:(lia)). pose proof (part_key p q (i + 1) Hp Hq ltac:(lia) ltac:(lia)). split; [by apply own_position|by apply own_position].
Qed.

(** The particles of all leaves that have space in the buffers of [p], in key order. *)
Definition presentBuffer (p : Z) : list E := seqZ 0 (nNodes (L p)) ≫= presentParticles p.

Lemma zlen_presentBuffer p : zlen (presentBuffer p) = offsetOf p (nNodes (L p)).
Proof using. done. Qed.

Lemma bind_concat {X Y} (f : X -> list Y) l : l ≫= f = concat (f <$> l).
Proof using. induction l as [|x l IH]; [done|]. rewrite bind_cons, fmap_cons. cbn [concat]. by rewrite IH. Qed.

Lemma presentBuffer_sorted p : 0 <= p < N -> zsorted (key <$> presentBuffer p).
Proof using Hw.
  intros Hp. pose proof (nodes_pos p Hp). assert (Hc := zsorted_concat (presentParticles p) (nthz (L p)) (Z.to_nat (nNodes (L p))) 0). rewrite Z2Nat.id in Hc by lia. unfold presentBuffer. rewrite bind_concat. destruct Hc as [Hs _]; [| |].
  - intros j Hj. unfold presentParticles. destruct (presentLeaf p j); [|split; [intros i i' x y _ Hx; by rewrite aget_None in Hx by (change (zlen (key <$> [])) with 0; lia)|by apply Forall_nil]]. split.
    + apply StronglySorted_zsorted. unfold leafParticles, particlesIn. pose proof (zsorted_StronglySorted _ all_sorted) as Hs. revert Hs. generalize all as l. intros l. induction l as [|x l IH]; intros Hs; [constructor|]. inversion Hs as [|? ? Hs' Hx]; subst. rewrite filter_cons. destruct (decide _); [|by apply IH].
      constructor; [by apply IH|]. apply Forall_fmap, Forall_forall. intros y [_ Hy]%list_elem_of_filter. rewrite Forall_forall in Hx. by apply Hx, list_elem_of_fmap_2.
    + apply Forall_forall. intros x [Hx _]%list_elem_of_filter. exact Hx.
  - intros i j Hi Hj. apply leaf_mono; (done || lia).
  - exact Hs.
Qed.

(** A buffer in which every leaf that has space holds its particles. *)
Lemma filled_buffer p l : 0 <= p < N -> zlen l = offsetOf p (nNodes (L p)) ->
  (forall i, 0 <= i < nNodes (L p) -> offsetOf p i < offsetOf p (i + 1) -> slice l (offsetOf p i) (offsetOf p (i + 1)) = leafParticles p i) -> l = presentBuffer p.
Proof using Hw.
  intros Hp Hz Hl. pose proof (nodes_pos p Hp). assert (Hpre : forall n : nat, Z.of_nat n <= nNodes (L p) -> slice l 0 (offsetOf p (Z.of_nat n)) = seqZ 0 (Z.of_nat n) ≫= presentParticles p).
  { induction n as [|n IH]; intros Hn; [done|]. replace (Z.of_nat (S n)) with (Z.of_nat n + 1) by lia. pose proof (offset_mono p (Z.of_nat n) (Z.of_nat n + 1) ltac:(lia)) as Hm. pose proof (zlen_nonneg (seqZ 0 (Z.of_nat n) ≫= presentParticles p)) as H0. fold (offsetOf p (Z.of_nat n)) in H0.
    rewrite (slice_app l 0 (offsetOf p (Z.of_nat n))) by lia. rewrite IH by lia. rewrite seqZ_app, bind_app by lia. f_equal. rewrite Z.add_0_l. change (seqZ (Z.of_nat n) 1) with [Z.of_nat n]. cbn [mbind list_bind]. rewrite app_nil_r.
    destruct (decide (offsetOf p (Z.of_nat n) < offsetOf p (Z.of_nat n + 1))) as [Hlt|Hge].
    - rewrite Hl by lia. rewrite offset_next in Hlt by lia. unfold presentParticles in *. destruct (presentLeaf p (Z.of_nat n)); [done|]. change (zlen (@nil E)) with 0 in Hlt. lia.
    - replace (offsetOf p (Z.of_nat n + 1)) with (offsetOf p (Z.of_nat n)) by lia. rewrite slice_empty. rewrite offset_next in Hge by lia. destruct (presentParticles p (Z.of_nat n)) as [|x l']; [done|]. rewrite zlen_cons in Hge. pose proof (zlen_nonneg l'). lia. }
  specialize (Hpre (Z.to_nat (nNodes (L p))) ltac:(lia)). rewrite Z2Nat.id in Hpre by lia. unfold presentBuffer. rewrite <- Hpre. rewrite <- Hz. unfold slice, zlen. rewrite Z.sub_0_r, Nat2Z.id. change (Z.to_nat 0) with 0%nat. by rewrite drop_0, firstn_all.
Qed.

(** The own particles in the buffer. *)
Lemma presentBuffer_own p : 0 <= p < N -> slice (presentBuffer p) (offsetOf p (start (mine p))) (offsetOf p (end_ (mine p))) = own p.
Proof using Hw.
  intros Hp. destruct (mine_range p Hp) as (H1 & H2 & E1 & E2). destruct (own_prefix p (end_ (mine p)) Hp ltac:(lia)) as [_ Ec]. rewrite E2, (own_all p Hp) in Ec. unfold presentBuffer.
  replace (nNodes (L p)) with (start (mine p) + ((end_ (mine p) - start (mine p)) + (nNodes (L p) - end_ (mine p)))) by lia. rewrite !seqZ_app, !bind_app by lia. rewrite Z.add_0_l, Ec. apply slice_block; [done|]. pose proof (own_length p Hp). lia.
Qed.

(** The particles of a leaf are at the positions that the layout gives. *)
Lemma presentBuffer_leaf p j i x : 0 <= j < nNodes (L p) -> offsetOf p j <= i < offsetOf p (j + 1) -> (presentBuffer p).[i] = Some x -> x ∈ leafParticles p j.
Proof using.
  intros Hj Hi Hx. unfold presentBuffer in Hx. replace (nNodes (L p)) with (j + (1 + (nNodes (L p) - j - 1))) in Hx by lia. rewrite !seqZ_app, !bind_app in Hx by lia. rewrite Z.add_0_l in Hx. change (seqZ j 1) with [j] in Hx. cbn [mbind list_bind] in Hx. rewrite app_nil_r in Hx.
  pose proof (offset_next p j ltac:(lia)). rewrite aget_app_r in Hx by (fold (offsetOf p j); lia). fold (offsetOf p j) in Hx. rewrite aget_app_l in Hx by lia. apply aget_elem in Hx. unfold presentParticles in Hx. destruct (presentLeaf p j); [done|]. by apply not_elem_of_nil in Hx.
Qed.

(** The particles of all ranks are those of the leaves of one rank. *)
Lemma all_leaves p : 0 <= p < N -> all = seqZ 0 (nNodes (L p)) ≫= leafParticles p.
Proof using Hw.
  intros Hp. pose proof (nodes_pos p Hp) as Hn. pose proof (leaves_concat p (Z.to_nat (nNodes (L p))) Hp 0 ltac:(lia) ltac:(lia)) as E0. rewrite Z2Nat.id in E0 by lia. rewrite <- E0, Z.add_0_l. unfold particlesIn. symmetry. apply filter_all, Forall_forall.
  intros x (l & Hl & Hx)%elem_of_concat. apply list_elem_of_fmap in Hl as (r & -> & Hr%elem_of_seqZ). destruct (pl_keys _ _ _ _ _ _ Hw r ltac:(lia)) as [_ Hk]. rewrite Forall_forall in Hk. specialize (Hk x Hx). pose proof (boundary_range k s Hva r ltac:(lia)). pose proof (boundary_range k s Hva (r + 1) ltac:(lia)).
  pose proof (nthz_Some _ _ _ (treelet_first _ _ _ _ (placed_tree p Hp))) as E1. pose proof (nthz_Some _ _ _ (treelet_last _ _ _ _ (placed_tree p Hp))) as E2. unfold nNodes. rewrite E1, E2. lia.
Qed.


(** If the buffers of [p] hold all particles with property [Q], they hold them as often and in the same order as they are in the
    list of all particles. *)
Lemma presentBuffer_filter (Q : E -> Prop) `{!forall x, Decision (Q x)} p : 0 <= p < N -> (forall y, y ∈ all -> Q y -> y ∈ presentBuffer p) -> filter Q (presentBuffer p) = filter Q all.
Proof using Hw.
  intros Hp HQ. unfold presentBuffer. rewrite (all_leaves p Hp), !filter_bind. apply Forall_bind_ext, Forall_forall. intros j Hj%elem_of_seqZ. unfold presentParticles. destruct (presentLeaf p j) eqn:Epr; [done|]. symmetry. apply filter_none, Forall_forall. intros y Hy Hq.
  assert (Hya : y ∈ all) by (unfold leafParticles, particlesIn in Hy; by apply list_elem_of_filter in Hy as [_ ?]). specialize (HQ y Hya Hq). apply list_elem_of_bind in HQ as (i & Hi & Hin%elem_of_seqZ). unfold presentParticles in Hi. destruct (presentLeaf p i) eqn:Epi; [|by apply not_elem_of_nil in Hi].
  unfold leafParticles, particlesIn in Hi, Hy. apply list_elem_of_filter in Hi as [Ki _]. apply list_elem_of_filter in Hy as [Kj _]. assert (i <> j) as Hne by (intros ->; congruence).
  destruct (Z.lt_ge_cases i j) as [Hlt|Hge]; [pose proof (leaf_mono p (i + 1) j Hp ltac:(lia) ltac:(lia)); lia|pose proof (leaf_mono p (j + 1) i Hp ltac:(lia) ltac:(lia)); lia].
Qed.

End World.
