(* ===== verification/DomainHalos.v ===== *)
(** * The end of a domain update on all ranks

    [Domain::updateLayout] and [Domain::setupHalos]: on ranks with a common layout of the leaves ([placedWorld]) they put the own
    particles and their properties behind the lower halos, fetch all halos and compute their keys. *)

From S2P Require Import Prelude Primitives SfcCommon Csarray CsInvariant CsRebalance CsCounts SfcBox Morton Hilbert Sfc Octree OctreeNodes OctreeBuild OctreeQueries IndexRanges DomainDecomp Layout FocusRebalance FocusInject FocusTree GlobalTree Exchange Distribute Halos HaloExchange Scalars FloatBox GlobalBox Macs SourceCenter Neighbors IjLoop Treelets TreeletSync TreeletWorld TreeletCells FocusedOctree FocusCounts FocusTrees Domain DomainLayout.

(** ** Buffers *)

Lemma writeFrom_written {A} (vals dst : list A) off : 0 <= off -> off + zlen vals <= zlen dst -> exists dst', writeFrom vals dst off = Some dst' /\ written dst dst' off vals.
Proof.
  intros H0 Hle. destruct (buffer_split dst off (zlen vals) H0 (zlen_nonneg vals) Hle) as (pre & mid & post & -> & <- & Hm). exists (pre ++ vals ++ post). split; [by apply writeFrom_block|by apply block_written].
Qed.

Lemma gatherAt_written {A} ordering (source vals dst : list A) off : 0 <= off -> off + zlen vals <= zlen dst -> zlen ordering = zlen vals -> (forall i, 0 <= i < zlen vals -> exists j, ordering.[i] = Some j /\ source.[j] = vals.[i]) ->
  exists dst', gatherAt ordering source dst off = Some dst' /\ written dst dst' off vals.
Proof.
  intros H0 Hle Hz Hg. unfold gatherAt. rewrite Hz. destruct (for_loop_inv (fun i d => zlen d = zlen dst /\ (forall j, 0 <= j < i -> d.[off + j] = vals.[j]) /\ forall j, ~ (off <= j < off + i) -> d.[j] = dst.[j])
    0 (zlen vals) (fun i dst => let? o := ordering.[i] in let? v := source.[o] in aset dst (off + i) v) dst) as (d & E & Hd & Hin & Hout); [apply zlen_nonneg|split; [done|split; [lia|done]]| |].
  - intros i d Hi (Hd & Hin & Hout). destruct (Hg i Hi) as (j & Ej & Es). rewrite Ej. cbn beta iota. rewrite Es. destruct (aget_is_Some vals i Hi) as [v Ev]. rewrite Ev. pose proof (aset_Some d (off + i) v ltac:(lia)) as Ea. rewrite Ea. eexists. split; [done|]. split; [rewrite (aset_zlen _ _ _ _ Ea); lia|]. split; intros j' Hj'.
    + destruct (decide (j' = i)) as [->|]; [by rewrite (aget_aset_eq _ _ _ _ Ea)|]. rewrite (aget_aset_ne _ _ _ _ _ Ea) by lia. apply Hin. lia.
    + rewrite (aget_aset_ne _ _ _ _ _ Ea) by lia. apply Hout. lia.
  - exists d. split; [done|]. by split.
Qed.

Lemma written_slice {A} (l l' : list A) off vals : 0 <= off -> off + zlen vals <= zlen l -> written l l' off vals -> slice l' off (off + zlen vals) = vals.
Proof. intros H0 Hle [Hz Hin _]. apply slice_eq; [done|done|lia|done]. Qed.

Lemma fillFrom_run first last v l (P : Z -> Prop) : 0 <= first -> last <= zlen l -> P v -> Forall P l -> exists l', fillFrom first last v l = Some l' /\ zlen l' = zlen l /\ Forall P l'.
Proof.
  intros H0 Hle Hv Hl. unfold fillFrom. destruct (Z.le_gt_cases last first) as [Hlf|Hlf]; [replace (Z.to_nat (last - first)) with 0%nat by lia; by exists l|]. set (vals := replicate _ v). assert (Hz : zlen vals = last - first) by (unfold vals, zlen; rewrite length_replicate; lia).
  destruct (writeFrom_written vals l first H0 ltac:(lia)) as (l' & E & Hw). exists l'. split; [done|]. split; [apply Hw|]. apply (written_Forall P l l' first vals Hl); [|done]. by apply Forall_replicate.
Qed.

Lemma aresize_Forall {A} (P : A -> Prop) d l n : P d -> Forall P l -> Forall P (aresize d l n).
Proof. intros Hd Hl. unfold aresize. apply Forall_app. split; [by apply Forall_take|by apply Forall_replicate]. Qed.

Lemma aresize_get {A} (d : A) l n i : 0 <= i < n -> i < zlen l -> (aresize d l n).[i] = l.[i].
Proof.
  intros Hi Hl. unfold aresize. rewrite aget_app_l by (unfold zlen in *; rewrite length_take; lia). rewrite !aget_lookup by lia. apply lookup_take_lt. lia.
Qed.

(** Keys of particles whose coordinates can be converted. *)
Section Keys.
Context {T : Type} `{!Scalar T} (s : SfcKind) (k : KeyType) {E : Type} (coords : E -> Vec3 T) (box : Box T).

Lemma computeKeys_written first (D particles : list E) keys : 0 <= first -> first + zlen D <= zlen keys -> first + zlen D <= zlen particles -> Forall (fun x => x <> removeKey k) keys ->
  slice particles first (first + zlen D) = D -> Forall (fun x => is_Some (particleKey s k coords box x)) D ->
  exists keys', computeKeys s k coords box first (zlen D) particles keys = Some keys' /\ written keys keys' first (definedKey s k coords box <$> D).
Proof.
  intros H0 Hk Hp Hn Hs Hd. pose proof (zlen_nonneg D). unfold computeKeys. rewrite !subspan_run by lia. rewrite Hs. cbn beta iota. replace (forallb _ _) with true.
  - apply computeParticleKeys_written; [done|done| |].
    + intros i Hi. rewrite Forall_forall in Hn. apply Hn, (aget_elem _ i), nthz_get. lia.
    + intros i Hi. rewrite <- Hs at 1. rewrite slice_get by lia. done.
  - symmetry. apply forallb_forall. intros [key p] Hin. apply list_elem_of_In, elem_of_zip_r in Hin. rewrite Forall_forall in Hd. specialize (Hd p Hin). rewrite bool_decide_eq_true_2 by done. by rewrite orb_true_r.
Qed.

End Keys.

(** ** All ranks *)

Section Finish.
Context {T : Type} `{!Scalar T} (s : SfcKind) (k : KeyType) {E U : Type} (zeroE : E) (zeroU : U) (coords : E -> Vec3 T) (junkE : Z -> E) (junkU : Z -> U).
Context (N : Z) (D : Z -> Domain (T := T)) (b : Z -> Buffers (E := E) (U := U)) (sa : SfcAssignment) (own : Z -> list E) (props : Z -> list U) (box : Box T).

Local Abbreviation key := (definedKey s k coords box).
Local Abbreviation F := (fun p => focusTree_ (D p)).
Local Abbreviation leaves := (fun p => leaves_ (focusTree_ (D p))).
Local Abbreviation parts := (fun p => assignment_ (focusTree_ (D p))).
Local Abbreviation layout := (layoutOf key N F sa own).
Local Abbreviation offset := (offsetOf key N F sa own).
Local Abbreviation mine p := (partIn sa (leaves_ (focusTree_ (D p))) p).
Local Abbreviation size p := (offsetOf key N F sa own p (nNodes (leaves_ (focusTree_ (D p))))).

(** The state of rank [p] after the loop over the passes: the layout and the halo requests are those of the focus tree, the own
    particles are in front of the reordered arrays, the ordering gives their properties (at positions inside of the resized arrays), and no
    stale key marks a removed particle. *)
Record finishReady (p : Z) : Prop := {
  fr_rank : d_myRank (D p) = p;
  fr_box : ga_box (global_ (D p)) = box;
  fr_layout : layout_ (D p) = layout p;
  fr_halos : halos_ (D p) = halosOf N leaves parts layout p (haloEpoch_ (halos_ (D p)));
  fr_size : 0 <= bsize (bufDesc_ (D p));
  fr_ordered : zlen (own p) <= zlen (b_ordered (b p)) /\ slice (b_ordered (b p)) 0 (zlen (own p)) = own p;
  fr_assigned : numAssigned p (global_ (D p)) = Some (zlen (own p));
  fr_properties : zlen (props p) = zlen (own p) /\ exists first order, postExchangeStart p (bufDesc_ (D p)) (global_ (D p)) = Some first /\ subspan (b_ordering (b p)) first (zlen (own p)) = Some order /\
    forall i, 0 <= i < zlen (own p) -> exists j, order.[i] = Some j /\ j < offsetOf key N F sa own p (nNodes (leaves_ (focusTree_ (D p)))) /\ (b_properties (b p)).[j] = (props p).[i];
  fr_keys : Forall (fun x => x <> removeKey k) (b_keys (b p))
}.

Hypothesis Hw : placedWorld key k N F sa own.
Hypothesis Hr : forall p, 0 <= p < N -> finishReady p.
Hypothesis Hcov : forall p i, 0 <= p < N -> 0 <= i < nNodes (leaves p) -> offset p i < offset p (i + 1) -> covers (parts p) i.
Hypothesis Hdef : Forall (fun x => is_Some (particleKey s k coords box x) /\ key x <> removeKey k) (particlesOf N own).

(** The reordered arrays after [updateLayout]. *)
Definition placedBuffer (p : Z) : list E := default [] (writeFrom (own p) (junkE <$> seqZ 0 (size p)) (offset p (start (mine p)))).

Lemma offset_nonneg p i : 0 <= offset p i.
Proof using. apply zlen_nonneg. Qed.

Lemma placed_sizes p : 0 <= p < N -> offset p (start (mine p)) + zlen (own p) = offset p (end_ (mine p)) /\ offset p (end_ (mine p)) <= size p /\ size p < 4294967296.
Proof using Hw.
  intros Hp. destruct (mine_range key k N F sa own Hw p Hp) as (H1 & H2 & _). pose proof (own_length key k N F sa own Hw p Hp). pose proof (offset_mono key N F sa own p (end_ (mine p)) (nNodes (leaves p)) ltac:(lia)). pose proof (total_offset key k N F sa own Hw p Hp). cbn beta in *. lia.
Qed.

Lemma placedBuffer_run p : 0 <= p < N -> writeFrom (own p) (junkE <$> seqZ 0 (size p)) (offset p (start (mine p))) = Some (placedBuffer p) /\ zlen (placedBuffer p) = size p /\
  slice (placedBuffer p) (offset p (start (mine p))) (offset p (end_ (mine p))) = own p.
Proof using Hw.
  intros Hp. destruct (placed_sizes p Hp) as (H1 & H2 & _). pose proof (offset_nonneg p (start (mine p))). pose proof (offset_nonneg p (nNodes (leaves p))). cbn beta in *. assert (Hz : zlen (junkE <$> seqZ 0 (size p)) = size p) by (rewrite zlen_map, zlen_seqZ; lia).
  destruct (writeFrom_written (own p) (junkE <$> seqZ 0 (size p)) (offset p (start (mine p)))) as (l & E1 & Hwr); [lia|lia|]. unfold placedBuffer. rewrite E1. change (default [] (Some l)) with l. split; [done|]. split; [rewrite (w_len _ _ _ _ Hwr); lia|].
  rewrite <- H1. apply (written_slice (junkE <$> seqZ 0 (size p)) l); [lia|lia|done].
Qed.

Lemma placed_world : haloWorld key (particlesOf N own) k N leaves parts layout placedBuffer.
Proof using Hw. apply (placed_haloWorld key k N F sa own Hw placedBuffer). intros p Hp. destruct (placedBuffer_run p Hp) as (_ & Hz & Hs). split; [exact Hz|exact Hs]. Qed.

(** The description of the new buffers. *)
Definition newBounds (p : Z) : BufferDescription := mkBufferDescription (offset p (start (mine p))) (offset p (end_ (mine p))) (size p).

Lemma updateLayout_run p : 0 <= p < N -> exists keys properties, updateLayout zeroE zeroU junkE junkU (key <$> own p) (b p) (D p) =
    Some (mkBuffers keys (placedBuffer p) properties (b_ordering (b p)), setBounds (bufDesc_ (D p)) (newBounds p) (layout p) (layout p) (D p)) /\
  zlen keys = size p /\ slice keys (offset p (start (mine p))) (offset p (end_ (mine p))) = key <$> own p /\ Forall (fun x => x <> removeKey k) keys /\
  zlen properties = size p /\ slice properties (offset p (start (mine p))) (offset p (end_ (mine p))) = props p.
Proof using Hw Hr Hdef.
  clear Hcov. intros Hp. destruct (Hr p Hp) as [R1 R2 R3 R4 R5 [R6a R6b] R7 (R8a & first & order & R8b & R8c & R8d) R9]. destruct (mine_range key k N F sa own Hw p Hp) as (M1 & M2 & _). destruct (placed_sizes p Hp) as (S1 & S2 & S3). pose proof (offset_nonneg p (start (mine p))) as O0. pose proof (offset_nonneg p (nNodes (leaves p))) as O1. pose proof (zlen_nonneg (own p)) as Z0.
  pose proof (nodes_pos key k N F sa own Hw p Hp) as N1. cbn beta in *. unfold updateLayout. rewrite R1, R3, (parts_in key k N F sa own Hw p p Hp Hp). cbn beta iota. pose proof (zlen_layoutOf key k N F sa own Hw p Hp) as Hzl. cbn beta in Hzl. rewrite Hzl, Z.add_simpl_r. rewrite !(layoutOf_get key N F sa own p) by lia. cbn beta iota.
  assert (Hk0 : Forall (fun x => x <> removeKey k) (aresize 0 (b_keys (b p)) (size p))) by (apply aresize_Forall; [by destruct k|done]).
  destruct (fillFrom_run (bsize (bufDesc_ (D p))) (size p) 0 (aresize 0 (b_keys (b p)) (size p)) (fun x => x <> removeKey k) R5 ltac:(rewrite zlen_aresize; lia) ltac:(by destruct k) Hk0) as (keys0 & -> & Hzk0 & Hk1). cbn beta iota. rewrite zlen_aresize in Hzk0 by lia.
  destruct (writeFrom_written (key <$> own p) keys0 (offset p (start (mine p)))) as (keys & -> & Hwk); [lia|rewrite zlen_map; lia|]. cbn beta iota.
  assert (Hfront : subspan (aresize zeroE (b_ordered (b p)) (size p)) 0 (zlen (key <$> own p)) = Some (own p)).
  { rewrite zlen_map, subspan_run by (rewrite ?zlen_aresize; lia). f_equal. rewrite <- R6b at 2. apply list_eq_aget; [rewrite !slice_zlen; rewrite ?zlen_aresize; lia|]. intros i Hi. rewrite slice_zlen in Hi by (rewrite ?zlen_aresize; lia). rewrite !slice_get by lia. rewrite Z.add_0_l. apply aresize_get; lia. }
  rewrite Hfront. cbn beta iota. rewrite (proj1 (placedBuffer_run p Hp)). cbn beta iota. rewrite R8b. cbn beta iota. rewrite R7. cbn beta iota. rewrite R8c. cbn beta iota.
  assert (Hzo : zlen order = zlen (props p)) by (unfold subspan in R8c; destruct (_ && _) eqn:Eb; [|done]; injection R8c as <-; zbool; rewrite slice_zlen; lia).
  destruct (gatherAt_written order (aresize zeroU (b_properties (b p)) (size p)) (props p) (junkU <$> seqZ 0 (size p)) (offset p (start (mine p)))) as (pr & Ep & Hwp).
  { lia. } { rewrite zlen_map, zlen_seqZ; lia. } { done. }
  { intros i Hi. destruct (R8d i ltac:(lia)) as (j & E1 & Hj & E2). exists j. split; [done|]. destruct (aget_is_Some (props p) i Hi) as [v Hv]. rewrite Hv in E2 |- *. pose proof (aget_Some_range _ _ _ E2). by rewrite aresize_get by lia. }
  unfold gatherArrays. rewrite Ep. cbn beta iota. exists keys, pr. split; [done|]. split; [rewrite (w_len _ _ _ _ Hwk); lia|]. split.
  { rewrite <- S1, <- (zlen_map key (own p)). apply (written_slice keys0 keys); [lia|rewrite zlen_map; lia|done]. }
  split. { apply (written_Forall _ keys0 keys (offset p (start (mine p))) (key <$> own p) Hk1); [|done]. apply Forall_fmap. rewrite Forall_forall in Hdef |- *. intros x Hx. unfold compose. apply Hdef. apply elem_of_concat. exists (own p). split; [apply list_elem_of_fmap_2, elem_of_seqZ; lia|done]. }
  split; [rewrite (w_len _ _ _ _ Hwp), zlen_map, zlen_seqZ; lia|]. rewrite <- S1, <- R8a. apply (written_slice (junkU <$> seqZ 0 (size p)) pr); [lia|rewrite zlen_map, zlen_seqZ; lia|done].
Qed.

Lemma presentBuffer_elem p x : x ∈ presentBuffer key N F sa own p -> x ∈ particlesOf N own.
Proof using. intros (j & Hx & _)%list_elem_of_bind. unfold presentParticles in Hx. destruct (presentLeaf F sa p j); [|by apply not_elem_of_nil in Hx]. by apply list_elem_of_filter in Hx as [_ ?]. Qed.

(** The halo messages. *)
Definition sentHalos (p : Z) : list (Z * list E) := (fun q => (q, haloDataTo key (particlesOf N own) leaves parts layout p q)) <$> interiorOf N parts layout p.

Lemma finish_run p arrivals : 0 <= p < N -> arrivals ≡ₚ addressed N sentHalos p -> exists b' d',
  finishSync s k zeroE zeroU coords junkE junkU (key <$> own p) arrivals (b p) (D p) = Some (inr (sentHalos p, [], b', d')) /\
  b_ordered b' = presentBuffer key N F sa own p /\ b_keys b' = key <$> presentBuffer key N F sa own p /\ zlen (b_properties b') = size p /\ slice (b_properties b') (offset p (start (mine p))) (offset p (end_ (mine p))) = props p /\
  b_ordering b' = b_ordering (b p) /\ d' = setCalled (setHalos (halosOf N leaves parts layout p (haloEpoch_ (halos_ (D p)) + 1)) (setBounds (bufDesc_ (D p)) (newBounds p) (layout p) (layout p) (D p))).
Proof using Hw Hr Hcov Hdef.
  intros Hp Ha. destruct (updateLayout_run p Hp) as (keys & properties & E1 & Hzk & Hsk & Hnk & Hzp & Hsp). unfold finishSync. rewrite E1. cbn beta iota. destruct (Hr p Hp) as [R1 R2 _ R4 _ _ _ _ _]. destruct (placedBuffer_run p Hp) as (_ & Hzb & _).
  destruct (placed_sizes p Hp) as (S1 & S2 & S3). pose proof (offset_nonneg p (start (mine p))) as O0. pose proof (zlen_nonneg (own p)) as Z0. pose proof (offset_nonneg p (nNodes (leaves p))) as O1. cbn beta in *. unfold setupHalos, exchangeDomainHalos. cbn [b_ordered b_keys b_properties b_ordering setBounds bufDesc_ halos_ newBounds bsize checkSizesEqual forallb].
  rewrite Hzb, Z.eqb_refl. cbn [andb negb]. rewrite R4.
  destruct (transfer_world key (particlesOf N own) k N leaves parts layout placedBuffer placed_world zeroE p (haloEpoch_ (halos_ (D p))) arrivals Hp) as (l & -> & Hzl & Hl).
  { rewrite Ha. apply reflexive_eq. apply (addressed_single N (fun q r => isHaloPeer r (layout r) (parts r) q) (fun q r => haloDataTo key (particlesOf N own) leaves parts layout q r) p Hp). }
  cbn beta iota. cbn [setHalos setBounds global_ bufDesc_ newBounds bstart bend bsize]. assert (El : l = presentBuffer key N F sa own p).
  { apply (filled_buffer key k N F sa own Hw p); [done|by rewrite Hzl|]. intros i Hi Hlt. destruct (Hcov p i Hp Hi Hlt) as (a & Ha' & Hia). apply elem_aget in Ha' as [q Hq]. specialize (Hl q a i Hq Hia). cbn beta in *. rewrite !(layoutOf_nth key N F sa own p) in Hl by lia. by apply Hl. }
  subst l. pose proof (presentBuffer_own key k N F sa own Hw p Hp) as Hown. set (P := presentBuffer key N F sa own p) in *. cbn beta in *. rewrite Hzb in Hzl. rewrite R2.
  assert (HP : forall l, (forall x, x ∈ l -> x ∈ P) -> Forall (fun x => is_Some (particleKey s k coords box x)) l).
  { intros l Hin. rewrite Forall_forall in Hdef |- *. intros x Hx. by apply Hdef, (presentBuffer_elem p), Hin. }
  assert (Hsl : forall a c x, 0 <= a -> x ∈ slice P a c -> x ∈ P) by (intros a c x Ha0 (j & _ & Hj)%elem_of_slice; [by eapply aget_elem|done]).
  assert (Hz1 : zlen (slice P 0 (offset p (start (mine p)))) = offset p (start (mine p))) by (rewrite slice_zlen by lia; lia).
  assert (Hz2 : zlen (slice P (offset p (end_ (mine p))) (size p)) = size p - offset p (end_ (mine p))) by (rewrite slice_zlen by lia; lia).
  destruct (computeKeys_written s k coords box 0 (slice P 0 (offset p (start (mine p)))) P keys) as (keys1 & Ek1 & W1); [lia|lia|lia|done|by rewrite Z.add_0_l, Hz1|apply HP; intros x; by apply Hsl|].
  rewrite Hz1 in Ek1. rewrite Ek1. cbn beta iota. assert (Hn1 : Forall (fun x => x <> removeKey k) keys1).
  { apply (written_Forall _ keys keys1 0 (key <$> slice P 0 (offset p (start (mine p)))) Hnk); [|done]. apply Forall_fmap, Forall_forall. intros x Hx. unfold compose. rewrite Forall_forall in Hdef. apply Hdef, (presentBuffer_elem p), (Hsl 0 (offset p (start (mine p)))); [lia|done]. }
  pose proof (w_len _ _ _ _ W1) as Hzk1.
  destruct (computeKeys_written s k coords box (offset p (end_ (mine p))) (slice P (offset p (end_ (mine p))) (size p)) P keys1) as (keys2 & Ek2 & W2); [lia|lia|lia|done|f_equal; lia|apply HP; intros x; apply Hsl; lia|].
  rewrite Hz2 in Ek2. rewrite Hzl, Ek2. cbn beta iota. eexists _, _. split; [reflexivity|]. cbn [b_ordered b_keys b_properties b_ordering]. split; [done|]. split; [|split; [done|split; [done|split; [done|done]]]].
  apply list_eq_aget; [rewrite (w_len _ _ _ _ W2), zlen_map; lia|]. intros i Hi. rewrite (w_len _ _ _ _ W2) in Hi. rewrite aget_map. destruct W1 as [_ I1 J1], W2 as [_ I2 J2]. rewrite zlen_map in I1, J1, I2, J2.
  destruct (Z.lt_ge_cases i (offset p (start (mine p)))) as [Hlo|Hlo]; [|destruct (Z.lt_ge_cases i (offset p (end_ (mine p)))) as [Hmid|Hhi]].
  - rewrite J2 by lia. specialize (I1 i ltac:(lia)). rewrite Z.add_0_l in I1. rewrite I1, aget_map, slice_get by lia. done.
  - rewrite J2, J1 by lia. assert (Ei : keys.[i] = (key <$> own p).[i - offset p (start (mine p))]) by (rewrite <- Hsk, slice_get by lia; f_equal; lia). rewrite Ei, <- Hown, aget_map, slice_get by lia. do 2 f_equal. lia.
  - assert (i < size p) by lia. specialize (I2 (i - offset p (end_ (mine p)))). rewrite Hz2 in I2. specialize (I2 ltac:(lia)). replace (offset p (end_ (mine p)) + (i - offset p (end_ (mine p)))) with i in I2 by lia. rewrite I2, aget_map, slice_get by lia. do 2 f_equal. lia.
Qed.


End Finish.
