(* ===== verification/HaloSearch.v ===== *)
(** * Halo discovery of one rank

    With exact coordinates and the lower corner of the box on the grid, a particle lies in the node that its key belongs to, a search
    box around a particle overlaps the nodes of its neighbors, and a search box inside of a key range only contains keys of the
    range, periodic images included.  For [FocusedOctree::discoverHalos] of [cstone/focus/octree_focus_mpi.hpp] it follows that the
    search boxes contain the own particles with their radii, and the marks are those of [findHalos] on these boxes. *)

From Stdlib Require Import QArith Qround Qabs Lqa.
From S2P Require Import Prelude Primitives SfcCommon Csarray CsInvariant CsRebalance CsCounts CsBuild SfcBox Morton Hilbert Sfc BoxOverlap Octree OctreeNodes OctreeBuild OctreeQueries IndexRanges DomainDecomp Layout FocusRebalance FocusInject FocusTree FocusOps FocusUpdate GlobalTree Exchange Distribute Halos HaloExchange Scalars FloatBox GlobalBox Traversal NodeLookup Macs SourceCenter Peers Marking ExactGeometry ExactCoords Neighbors NeighborSearch IjLoop Treelets TreeletSync TreeletWorld TreeletCells FocusedOctree FocusCounts FocusTrees Domain DomainLayout DomainHalos.
#[local] Open Scope Z_scope.

(** ** Particles in nodes *)

(** The lower corner of the box is a multiple of the cell size in every dimension. *)
Definition alignedBox (k : KeyType) (box : Box Q) : Prop :=
  exists nx ny nz, (bxmin box * scaleOf k (ilx box) == inject_Z nx)%Q /\ (bymin box * scaleOf k (ily box) == inject_Z ny)%Q /\ (bzmin box * scaleOf k (ilz box) == inject_Z nz)%Q.

Lemma cell_interval k (b l il x : Q) i lo hi : (0 < l)%Q -> il = (s_ofZ 1 / l)%S -> (b <= x)%Q -> (x <= b + l)%Q -> i = ExactCoords.cellOf k ((x - b) * scaleOf k il) -> lo <= i < hi ->
  let h := (s_ratio 1 2 * (s_ofZ 1 / s_ofZ (u32 (Z.shiftl 1 (maxTreeLevel k)))) * l)%S in (Qabs (x - (b + s_ofZ (hi + lo) * h)%S) <= s_ofZ (hi - lo) * h)%S%Q.
Proof.
  intros Hl -> Hb Hx -> Hi. cbn zeta. assert (Hu : u32 (Z.shiftl 1 (maxTreeLevel k)) = 2 ^ maxTreeLevel k) by by destruct k. rewrite Hu. unfold scaleOf in *. cbn [s_ratio s_div s_mul s_add s_ofZ Exact.scalar] in *. change (inject_Z 1) with 1%Q in *. change (inject_Z 2) with 2%Q.
  assert (HM : (0 < inject_Z (2 ^ maxTreeLevel k))%Q) by by destruct k. set (M := inject_Z (2 ^ maxTreeLevel k)) in *. set (w := ((x - b) * (M * (1 / l)))%Q) in *.
  assert (Ew : (x - b == w * (l / M))%Q) by (unfold w; field; split; lra). assert (HlM : (0 < l / M)%Q) by (apply Qlt_shift_div_l; lra).
  assert (Hw : (w <= M)%Q). { unfold w. assert (E : ((x - b) * (M * (1 / l)) == (x - b) * M / l)%Q) by (field; lra). rewrite E. apply Qle_shift_div_r; [done|]. rewrite (Qmult_comm M l). apply Qmult_le_compat_r; lra. }
  pose proof (floor_bounds w) as Hf. unfold ExactCoords.cellOf in Hi. assert (H1 : (inject_Z lo <= w)%Q) by (apply Qle_trans with (inject_Z (Qfloor w)); [rewrite <- Zle_Qle; lia|apply Hf]).
  assert (H2 : (w <= inject_Z hi)%Q).
  { destruct (Z.le_gt_cases (Qfloor w) (2 ^ maxTreeLevel k - 1)) as [Hc|Hc]; [rewrite Z.min_l in Hi by lia; apply Qle_trans with (inject_Z (Qfloor w) + 1)%Q; [lra|]; change 1%Q with (inject_Z 1); rewrite <- inject_Z_plus, <- Zle_Qle; lia|].
    rewrite Z.min_r in Hi by lia. apply Qle_trans with M; [done|]. unfold M. rewrite <- Zle_Qle. lia. }
  assert (Ex : (x - (b + inject_Z (hi + lo) * (1 / 2 * (1 / M) * l)) == (w - (inject_Z hi + inject_Z lo) * (1 # 2)) * (l / M))%Q).
  { rewrite inject_Z_plus. assert (E : (x - (b + (inject_Z hi + inject_Z lo) * (1 / 2 * (1 / M) * l)) == (x - b) - (inject_Z hi + inject_Z lo) * (1 / 2 * (1 / M) * l))%Q) by ring. rewrite E, Ew. field. lra. }
  assert (Es : (inject_Z (hi - lo) * (1 / 2 * (1 / M) * l) == ((inject_Z hi - inject_Z lo) * (1 # 2)) * (l / M))%Q) by (unfold Z.sub; rewrite inject_Z_plus, inject_Z_opp; field; lra).
  rewrite Ex, Es, Qabs_Qmult, (Qabs_pos (l / M)) by lra. apply Qmult_le_compat_r; [|lra]. apply Qabs_Qle_condition. lra.
Qed.

(** The edges of a grid cell. *)
Definition cellSize (k : KeyType) (box : Box Q) : Vec3 Q :=
  let M := inject_Z (2 ^ maxTreeLevel k) in mkVec3 (lx box / M)%Q (ly box / M)%Q (lz box / M)%Q.

(** How far a particle can lie outside of the node of its key: not at all if the lower corner of the box is on the grid, and otherwise less than
    a cell, because the key is computed from the difference of two rounded coordinates. *)
Definition gridSlack (k : KeyType) (box : Box Q) (d : Vec3 Q) : Prop := d = cellSize k box \/ alignedBox k box /\ d = zeroVec.

(** The point lies in the node enlarged by [d]. *)
Definition nearGeometry (g : Vec3 Q * Vec3 Q) (d p : Vec3 Q) : Prop :=
  (Qabs (vx p - vx g.1) <= vx g.2 + vx d)%Q /\ (Qabs (vy p - vy g.1) <= vy g.2 + vy d)%Q /\ (Qabs (vz p - vz g.1) <= vz g.2 + vz d)%Q.

(** With a coordinate that may be one below the cell. *)
Lemma cell_interval_below k (b l il x : Q) i lo hi : (0 < l)%Q -> il = (s_ofZ 1 / l)%S -> (b <= x)%Q -> (x <= b + l)%Q -> ExactCoords.cellOf k ((x - b) * scaleOf k il) - 1 <= i <= ExactCoords.cellOf k ((x - b) * scaleOf k il) -> lo <= i < hi ->
  let h := (s_ratio 1 2 * (s_ofZ 1 / s_ofZ (u32 (Z.shiftl 1 (maxTreeLevel k)))) * l)%S in (Qabs (x - (b + s_ofZ (hi + lo) * h)%S) <= s_ofZ (hi - lo) * h + l / inject_Z (2 ^ maxTreeLevel k))%S%Q.
Proof.
  intros Hl Eil Hb Hx Hi Hr. cbn zeta. assert (HM : (0 < inject_Z (2 ^ maxTreeLevel k))%Q) by by destruct k. assert (HlM : (0 < l / inject_Z (2 ^ maxTreeLevel k))%Q) by (apply Qlt_shift_div_l; lra).
  destruct (Z.eq_dec i (ExactCoords.cellOf k ((x - b) * scaleOf k il))) as [E|E].
  - pose proof (cell_interval k b l il x i lo hi Hl Eil Hb Hx E Hr) as H. cbn zeta in H. cbn [s_add s_mul Exact.scalar] in H |- *. lra.
  - pose proof (cell_interval k b l il x (i + 1) (lo + 1) (hi + 1) Hl Eil Hb Hx ltac:(lia) ltac:(lia)) as H. cbn zeta in H. assert (Hu : u32 (Z.shiftl 1 (maxTreeLevel k)) = 2 ^ maxTreeLevel k) by by destruct k. rewrite Hu in H |- *.
    cbn [s_ratio s_div s_mul s_add s_sub s_ofZ Exact.scalar] in H |- *. change (inject_Z 1) with 1%Q in *. change (inject_Z 2) with 2%Q in *. replace (hi + 1 - (lo + 1)) with (hi - lo) in H by lia. replace (hi + 1 + (lo + 1)) with (hi + lo + 2) in H by lia. rewrite (inject_Z_plus (hi + lo)) in H. change (inject_Z 2) with 2%Q in H.
    set (M := inject_Z (2 ^ maxTreeLevel k)) in *. set (h := (1 / 2 * (1 / M) * l)%Q) in *. assert (Eh : (l / M == 2 * h)%Q) by (unfold h; field; lra). apply Qabs_Qle_condition in H. apply Qabs_Qle_condition. rewrite Eh. set (S1 := inject_Z (hi + lo)) in *. set (S2 := inject_Z (hi - lo)) in *.
    assert (Ed : ((S1 + 2) * h == S1 * h + 2 * h)%Q) by ring. rewrite Ed in H. set (A := (S1 * h)%Q) in *. set (C := (S2 * h)%Q) in *. clearbody A C h. assert (0 < h)%Q by lra. lra.
Qed.

Lemma point_near_node s k box d p key q : exactBox box -> gridSlack k box d -> insideCoords box p -> sfc3D s k (vx p) (vy p) (vz p) box = Some key -> treeNode k q -> nodeStart k q <= key < nodeEnd k q -> nearGeometry (nodeGeometry s k box q) d p.
Proof.
  intros Hbox Hd Hp E Hq Hk. pose proof Hp as (Px & Py & Pz). pose proof Hbox as [([Hlx Eix] & [Hly Eiy] & [Hlz Eiz]) (Elx & Ely & Elz)].
  destruct (scaled_range k (vx p) _ _ _ _ Hlx Elx Eix Px) as [X1 X2]. destruct (scaled_range k (vy p) _ _ _ _ Hly Ely Eiy Py) as [Y1 Y2]. destruct (scaled_range k (vz p) _ _ _ _ Hlz Elz Eiz Pz) as [Z1 Z2].
  assert (HM : (inject_Z (2 ^ maxTreeLevel k) <= inject_Z (2 ^ 30))%Q) by by destruct k. assert (HL : 2 ^ maxTreeLevel k <= 2 ^ 21) by by destruct k.
  destruct (gridCoordinate_cell k _ _ _ X1 (Qle_trans _ _ _ X2 HM)) as (ix & Ex & Rx & Bx & Nx & _). destruct (gridCoordinate_cell k _ _ _ Y1 (Qle_trans _ _ _ Y2 HM)) as (iy & Ey & Ry & By & Ny & _). destruct (gridCoordinate_cell k _ _ _ Z1 (Qle_trans _ _ _ Z2 HM)) as (iz & Ez & Rz & Bz & Nz & _).
  unfold sfc3D, sfc3DScaled in E. fold (scaleOf k (ilx box)) in E. fold (scaleOf k (ily box)) in E. fold (scaleOf k (ilz box)) in E. rewrite Ex, Ey, Ez in E. rewrite !u32_small in E by lia. injection E as <-.
  pose proof (node_range k q Hq) as (H0 & Hmax & Hlt & Hdiv). pose proof Hq as [[Hl0 _] Hlq]. assert (Hc : isCell k (ix, iy, iz)) by (unfold isCell; rewrite maxCoord_pow2; lia).
  assert (Hin : inIBox (sfcIBox s k (nodeStart k q) (nodeLevel q)) (ix, iy, iz)).
  { rewrite sfcIBox_nodeBox by (done || lia). apply (nodeBox_keys (enc := iSfcKey s k)); [lia|lia|done|done|exact Hk]. }
  destruct Hin as (Ix & Iy & Iz). unfold nodeGeometry, nearGeometry, centerAndSize. destruct Hd as [->|[(nx & ny & nz & Ax & Ay & Az) ->]]; cbn [fst snd vx vy vz cellSize zeroVec].
  - split; [|split].
    + apply (cell_interval_below k (bxmin box) (lx box) (ilx box) (vx p) ix); (done || lra || lia).
    + apply (cell_interval_below k (bymin box) (ly box) (ily box) (vy p) iy); (done || lra || lia).
    + apply (cell_interval_below k (bzmin box) (lz box) (ilz box) (vz p) iz); (done || lra || lia).
  - specialize (Nx nx Ax). specialize (Ny ny Ay). specialize (Nz nz Az). change (s_ofZ 0) with 0%Q. rewrite !Qplus_0_r. split; [|split].
    + apply (cell_interval k (bxmin box) (lx box) (ilx box) (vx p) ix); (done || lra).
    + apply (cell_interval k (bymin box) (ly box) (ily box) (vy p) iy); (done || lra).
    + apply (cell_interval k (bzmin box) (lz box) (ilz box) (vz p) iz); (done || lra).
Qed.

Lemma point_in_node s k box p key q : exactBox box -> alignedBox k box -> insideCoords box p -> sfc3D s k (vx p) (vy p) (vz p) box = Some key -> treeNode k q -> nodeStart k q <= key < nodeEnd k q -> inGeometry (nodeGeometry s k box q) p.
Proof.
  intros Hbox Hal Hp E Hq Hk. destruct (point_near_node s k box zeroVec p key q Hbox (or_intror (conj Hal eq_refl)) Hp E Hq Hk) as (H1 & H2 & H3).
  unfold zeroVec in *. cbn [vx vy vz] in *. change (s_ofZ 0) with 0%Q in *. rewrite Qplus_0_r in H1, H2, H3. done.
Qed.

(** ** Search boxes *)

(** The box with center [c] and size [sz] contains the cube of radius [r] around [p]. *)
Definition holdsCube (c sz p : Vec3 Q) (r : Q) : Prop :=
  (vx c - vx sz <= vx p - r /\ vx p + r <= vx c + vx sz)%Q /\ (vy c - vy sz <= vy p - r /\ vy p + r <= vy c + vy sz)%Q /\ (vz c - vz sz <= vz p - r /\ vz p + r <= vz c + vz sz)%Q.

Lemma small_difference (r d : Q) : (0 <= r -> d * d < r * r -> - r < d /\ d < r)%Q.
Proof. intros Hr Hd. split; destruct (Qlt_le_dec (- r) d) as [|H1]; destruct (Qlt_le_dec d r) as [|H2]; try done; exfalso; (assert (H : (r * r <= d * d)%Q) by (apply square_ge; [done|tauto])); lra. Qed.

(** The difference of some image of [q] to [p] is below [r] minus the slack [d] in every dimension. *)
Definition imageNear (box : Box Q) (r : Q) (d p q : Vec3 Q) : Prop :=
  exists nx ny nz, (isPeriodic (boundaryX box) = true \/ nx = 0) /\ (isPeriodic (boundaryY box) = true \/ ny = 0) /\ (isPeriodic (boundaryZ box) = true \/ nz = 0) /\
    (Qabs (vx q - vx p - lx box * inject_Z nx) < r - vx d)%Q /\ (Qabs (vy q - vy p - ly box * inject_Z ny) < r - vy d)%Q /\ (Qabs (vz q - vz p - lz box * inject_Z nz) < r - vz d)%Q.

(** The components of an image within a radius. *)
Lemma imageWithin_near box r p q : (0 <= r)%Q -> imageWithin box (r * r)%Q p q -> imageNear box r zeroVec p q.
Proof.
  intros Hr (nx & ny & nz & Px & Py & Pz & H). cbn zeta in H. exists nx, ny, nz. do 3 (split; [done|]). cbn [zeroVec vx vy vz]. change (s_ofZ 0) with 0%Q.
  pose proof (square_nonneg (vx q - vx p - lx box * inject_Z nx)). pose proof (square_nonneg (vy q - vy p - ly box * inject_Z ny)). pose proof (square_nonneg (vz q - vz p - lz box * inject_Z nz)).
  destruct (small_difference r (vx q - vx p - lx box * inject_Z nx) Hr ltac:(lra)), (small_difference r (vy q - vy p - ly box * inject_Z ny) Hr ltac:(lra)), (small_difference r (vz q - vz p - lz box * inject_Z nz) Hr ltac:(lra)).
  split; [|split]; apply Qabs_Qlt_condition; lra.
Qed.

Lemma slack_nonneg k box d : goodBox box -> gridSlack k box d -> (0 <= vx d /\ 0 <= vy d /\ 0 <= vz d)%Q.
Proof.
  intros ([Hlx _] & [Hly _] & [Hlz _]) [->|[_ ->]]; [|split; [|split]; apply Qle_refl]. unfold cellSize. cbn [vx vy vz]. assert (HM : (0 < inject_Z (2 ^ maxTreeLevel k))%Q) by by destruct k.
  split; [|split]; apply Qle_shift_div_l; lra.
Qed.

Lemma overlap1_near pbc (l a sa c sz p r y : Q) n : (0 < l)%Q -> pbc = true \/ n = 0 -> (Qabs (y - a) <= sa)%Q -> (c - sz <= p - r)%Q -> (p + r <= c + sz)%Q -> (- r < y - p - l * inject_Z n < r)%Q -> overlap1 pbc l a sa c sz = true.
Proof.
  intros Hl Hn Ha H1 H2 Hy. unfold overlap1. cbn [s_ltb s_abs s_sub s_ofZ Exact.scalar]. rewrite ltb_lt. change (inject_Z 0) with 0%Q.
  pose proof (wrapDistance_min pbc l (c - a) (- n) Hl ltac:(destruct Hn; [by left|right; lia])) as Hmin. rewrite inject_Z_opp in Hmin. cbn [s_div s_ofZ Exact.scalar] in Hmin. apply Qabs_Qle_condition in Ha.
  assert (Hc : (Qabs (c - a - l * - inject_Z n) < sa + sz)%Q). { apply Qabs_Qlt_condition. assert (E : (l * - inject_Z n == - (l * inject_Z n))%Q) by ring. rewrite E. lra. }
  lra.
Qed.

Lemma geometry_size s k box q : exactBox box -> treeNode k q -> (0 <= vx (nodeGeometry s k box q).2 /\ 0 <= vy (nodeGeometry s k box q).2 /\ 0 <= vz (nodeGeometry s k box q).2)%Q.
Proof.
  intros [([Hlx _] & [Hly _] & [Hlz _]) _] Hq. destruct (keyBox_grid s k q Hq) as (Gx & Gy & Gz). unfold gridRange in Gx, Gy, Gz. unfold nodeGeometry. fold (keyBox s k q). unfold centerAndSize. cbn [snd vx vy vz s_mul Exact.scalar].
  split; [|split]; (apply Qmult_le_0_compat; [change 0%Q with (inject_Z 0); cbn [s_ofZ Exact.scalar]; rewrite <- Zle_Qle; lia|by apply halfUnit_nonneg]).
Qed.

(** A point of an interval next to a point that is at most [d] outside. *)
Lemma nearest_point (a sa d y : Q) : (0 <= sa)%Q -> (0 <= d)%Q -> (Qabs (y - a) <= sa + d)%Q -> exists y', (Qabs (y' - a) <= sa)%Q /\ (Qabs (y' - y) <= d)%Q.
Proof.
  intros Hs Hd H. apply Qabs_Qle_condition in H. destruct (Qlt_le_dec sa (y - a)); [|destruct (Qlt_le_dec (y - a) (- sa))]; [exists (a + sa)%Q|exists (a - sa)%Q|exists y]; split; apply Qabs_Qle_condition; lra.
Qed.

Lemma overlap1_slack pbc (l a sa c sz p r d y : Q) n : (0 < l)%Q -> pbc = true \/ n = 0 -> (0 <= sa)%Q -> (0 <= d)%Q -> (Qabs (y - a) <= sa + d)%Q -> (c - sz <= p - r)%Q -> (p + r <= c + sz)%Q -> (Qabs (y - p - l * inject_Z n) < r - d)%Q -> overlap1 pbc l a sa c sz = true.
Proof.
  intros Hl Hn Hs Hd Ha H1 H2 Hy. destruct (nearest_point a sa d y Hs Hd Ha) as (y' & Hy1 & Hy2). apply (overlap1_near _ _ _ _ _ _ p r y' n); try done.
  apply Qabs_Qle_condition in Hy2. apply Qabs_Qlt_condition in Hy. set (m := (l * inject_Z n)%Q) in *. lra.
Qed.

Lemma overlap_near box g c sz p r d y : goodBox box -> (0 <= vx g.2 /\ 0 <= vy g.2 /\ 0 <= vz g.2)%Q -> (0 <= vx d /\ 0 <= vy d /\ 0 <= vz d)%Q -> nearGeometry g d y -> holdsCube c sz p r -> imageNear box r d p y -> overlapCoords g.1 g.2 c sz box = true.
Proof.
  intros Hg (S1 & S2 & S3) (D1 & D2 & D3) (G1 & G2 & G3) ((H1 & H2) & (H3 & H4) & H5 & H6) (nx & ny & nz & Px & Py & Pz & N1 & N2 & N3). pose proof Hg as ([Hlx _] & [Hly _] & [Hlz _]).
  rewrite overlapCoords_dims by done. rewrite !andb_true_iff. split; [split|].
  - by apply (overlap1_slack _ _ _ _ _ _ (vx p) r (vx d) (vx y) nx).
  - by apply (overlap1_slack _ _ _ _ _ _ (vy p) r (vy d) (vy y) ny).
  - by apply (overlap1_slack _ _ _ _ _ _ (vz p) r (vz d) (vz y) nz).
Qed.

(** ** Search boxes inside of a key range *)

Lemma image_zero (b t l lo hi p r y : Q) n : (0 < l)%Q -> (l == t - b)%Q -> (b <= lo)%Q -> (hi <= t)%Q -> (lo <= p - r)%Q -> (p + r <= hi)%Q -> (b <= y <= t)%Q -> (- r < y - p - l * inject_Z n < r)%Q -> n = 0.
Proof.
  intros Hl El Hb Ht H1 H2 Hy Hn. destruct (Z.lt_trichotomy n 0) as [H|[|H]]; [|done|]; exfalso.
  - assert (Hm : (l * inject_Z n <= l * inject_Z (-1))%Q) by (apply Qmult_le_l; [done|]; rewrite <- Zle_Qle; lia). change (inject_Z (-1)) with (-1)%Q in Hm. lra.
  - assert (Hm : (l * inject_Z 1 <= l * inject_Z n)%Q) by (apply Qmult_le_l; [done|]; rewrite <- Zle_Qle; lia). change (inject_Z 1) with 1%Q in Hm. lra.
Qed.

(** What is near a particle in a search box that is inside of a key range has a key in the range. *)
Lemma contained_near s k lo hi c sz box p r d y : exactBox box -> (0 <= vx sz /\ 0 <= vy sz /\ 0 <= vz sz)%Q -> (0 <= vx d /\ 0 <= vy d /\ 0 <= vz d)%Q -> containedInCoords s k lo hi c sz box = Some true -> holdsCube c sz p r -> insideCoords box y -> imageNear box r d p y ->
  exists key, sfc3D s k (vx y) (vy y) (vz y) box = Some key /\ lo <= key < hi.
Proof.
  intros Hbox Hsz (S1 & S2 & S3) E Hh Hy Hi. pose proof Hbox as [([Hlx _] & [Hly _] & [Hlz _]) (Elx & Ely & Elz)]. destruct (containedInCoords_run s k lo hi c sz box Hbox Hsz) as (inside & E' & Hin). rewrite E in E'. injection E' as <-. specialize (Hin eq_refl).
  assert (Hcase : (lo = 0 /\ hi = keyMax k) \/ insideCoords box (vsub c sz) /\ insideCoords box (vadd c sz)).
  { unfold containedInCoords in E. cbn zeta in E. cbn [s_ltb s_ofZ Exact.scalar] in E. change (inject_Z 0) with 0%Q in E. destruct (Exact.ltb _ 0 || _) eqn:Hout.
    - left. injection E as E. rewrite andb_true_iff, !Z.eqb_eq, nodeRange_0 in E. done.
    - right. apply orb_false_iff in Hout as [Hmin%vmin_nonneg Hmax%vmax_nonpos]. unfold insideCoords. cbn [vx vy vz vsub vadd vmap2 s_sub s_add Exact.scalar] in Hmin, Hmax |- *. lra. }
  destruct Hcase as [[-> ->]|[Hlow Hhigh]].
  - assert (HM : (0 < 1 / inject_Z (2 ^ maxTreeLevel k))%Q) by by destruct k. assert (Hstep : (0 < lx box * (1 / inject_Z (2 ^ maxTreeLevel k)) /\ 0 < ly box * (1 / inject_Z (2 ^ maxTreeLevel k)) /\ 0 < lz box * (1 / inject_Z (2 ^ maxTreeLevel k)))%Q) by (split; [|split]; by apply Qmult_lt_0_compat).
    destruct (sfc3D_near s k y box Hbox) as (cell & _ & Hd & ->); [unfold nearBox; destruct Hy as (P1 & P2 & P3); split; [|split]; lra|]. eexists. split; [done|]. by apply (sfc_enc_range (enc := iSfcKey s k) (dec := decodeSfc s k)).
  - destruct Hi as (nx & ny & nz & _ & _ & _ & D1%Qabs_Qlt_condition & D2%Qabs_Qlt_condition & D3%Qabs_Qlt_condition). destruct Hh as ((H1 & H2) & (H3 & H4) & H5 & H6). destruct Hy as (Y1 & Y2 & Y3) eqn:EY. unfold insideCoords in Hlow, Hhigh. cbn [vx vy vz vsub vadd vmap2 s_sub s_add Exact.scalar] in Hlow, Hhigh.
    assert (nx = 0) as -> by (apply (image_zero (bxmin box) (bxmax box) (lx box) (vx c - vx sz) (vx c + vx sz) (vx p) r (vx y)); (done || lra)). assert (ny = 0) as -> by (apply (image_zero (bymin box) (bymax box) (ly box) (vy c - vy sz) (vy c + vy sz) (vy p) r (vy y)); (done || lra)).
    assert (nz = 0) as -> by (apply (image_zero (bzmin box) (bzmax box) (lz box) (vz c - vz sz) (vz c + vz sz) (vz p) r (vz y)); (done || lra)). change (inject_Z 0) with 0%Q in *.
    apply Hin; [done| |]; unfold vle; cbn [vx vy vz vsub vadd vmap2 s_sub s_add Exact.scalar]; split; [|split| |split]; lra.
Qed.


(** ** Search boxes *)

Lemma min2_le (a b : Q) : ((if Exact.ltb a b then a else b) <= a)%Q /\ ((if Exact.ltb a b then a else b) <= b)%Q.
Proof. destruct (Exact.ltb a b) eqn:E; [apply ltb_lt in E|apply ltb_ge in E]; lra. Qed.

Lemma max2_ge (a b : Q) : (a <= (if Exact.ltb b a then a else b))%Q /\ (b <= (if Exact.ltb b a then a else b))%Q.
Proof. destruct (Exact.ltb b a) eqn:E; [apply ltb_lt in E|apply ltb_ge in E]; lra. Qed.

Section Search.
Context {E : Type} (coords : E -> Vec3 Q) (radius : E -> Q).

Lemma boundingBox_run (particles : list E) first last (scale : Q) (init : Vec3 Q) : 0 <= first <= last -> last <= zlen particles ->
  exists c sz, computeBoundingBox (xs coords particles) (ys coords particles) (zs coords particles) (hs radius particles) first last scale init = Some (c, sz) /\ (0 <= vx sz /\ 0 <= vy sz /\ 0 <= vz sz)%Q /\
    forall i e, first <= i < last -> particles.[i] = Some e -> holdsCube c sz (coords e) (radius e * scale)%Q.
Proof using.
  intros Hf Hl. unfold computeBoundingBox.
  destruct (for_loop_inv (fun n '(lo, hi) => vle lo hi /\ forall i e, first <= i < n -> particles.[i] = Some e -> let r := (radius e * scale)%Q in
      ((vx lo <= vx (coords e) - r /\ vx (coords e) + r <= vx hi) /\ (vy lo <= vy (coords e) - r /\ vy (coords e) + r <= vy hi) /\ (vz lo <= vz (coords e) - r /\ vz (coords e) + r <= vz hi))%Q)
    first last (boundingBoxStep (xs coords particles) (ys coords particles) (zs coords particles) (hs radius particles) scale) (init, init)) as ([lo hi] & -> & (V1 & V2 & V3) & Hin).
  - lia.
  - split; [repeat split; lra|]. lia.
  - intros i [lo hi] Hi ((V1 & V2 & V3) & Hin). destruct (aget_is_Some particles i ltac:(lia)) as [e He]. unfold boundingBoxStep, xs, ys, zs, hs. rewrite !aget_map, He. cbn [fmap option_fmap option_map]. cbn beta iota. eexists. split; [done|].
    unfold vmin2, vmax2, vmap2. cbn [vx vy vz s_ltb s_sub s_add s_mul Exact.scalar]. set (r := (radius e * scale)%Q).
    destruct (min2_le (vx lo) (vx (coords e) - r)) as [A1 A2], (min2_le (vy lo) (vy (coords e) - r)) as [A3 A4], (min2_le (vz lo) (vz (coords e) - r)) as [A5 A6].
    destruct (max2_ge (vx hi) (vx (coords e) + r)) as [B1 B2], (max2_ge (vy hi) (vy (coords e) + r)) as [B3 B4], (max2_ge (vz hi) (vz (coords e) + r)) as [B5 B6]. split; [unfold vle; cbn [vx vy vz]; lra|].
    intros j e' Hj He'. destruct (decide (j = i)) as [->|Hne]; [rewrite He in He'; injection He' as <-; cbn [vx vy vz]; fold r; lra|]. specialize (Hin j e' ltac:(lia) He'). cbn zeta in Hin. cbn [vx vy vz]. lra.
  - cbn beta iota. eexists _, _. split; [done|]. unfold vscale, vsub, vadd, vmap, vmap2. cbn [vx vy vz s_ratio s_sub s_add s_mul s_div Exact.scalar]. change (inject_Z 1 / inject_Z 2)%Q with (1 # 2)%Q. split; [split; [|split]; lra|].
    intros i e Hi He. specialize (Hin i e Hi He). cbn zeta in Hin. unfold holdsCube. cbn [vx vy vz]. lra.
Qed.

End Search.

(** ** Offsets of the own leaves *)

Lemma inclusive_scan_get l : forall acc i, 0 <= acc -> Forall (fun x => 0 <= x) l -> acc + zsum l < 4294967296 -> 0 <= i < zlen l -> (inclusive_scan_u32 acc l).[i] = Some (acc + zsum (take (Z.to_nat (i + 1)) l)).
Proof.
  induction l as [|x l IH]; intros acc i Ha Hl Hs Hi; [change (zlen (@nil Z)) with 0 in Hi; lia|]. apply Forall_cons in Hl as [Hx Hl]. rewrite zsum_cons in Hs. pose proof (zsum_nonneg l Hl). cbn [inclusive_scan_u32]. cbn zeta. rewrite u32_small by lia.
  rewrite zlen_cons in Hi. destruct (decide (i = 0)) as [->|Hne].
  - change (Z.to_nat (0 + 1)) with 1%nat. rewrite aget_cons_0. rewrite firstn_cons, zsum_cons, firstn_O. change (zsum []) with 0. f_equal. lia.
  - rewrite aget_cons_S by lia. rewrite IH by (done || lia). replace (Z.to_nat (i + 1)) with (S (Z.to_nat (i - 1 + 1))) by lia. rewrite firstn_cons, zsum_cons. f_equal. lia.
Qed.

Lemma zlen_inclusive_scan l : forall acc, zlen (inclusive_scan_u32 acc l) = zlen l.
Proof. induction l as [|x l IH]; intros acc; [done|]. cbn [inclusive_scan_u32]. cbn zeta. by rewrite !zlen_cons, IH. Qed.

(** The prefix sums of differences. *)
Lemma zsum_telescope (base : Z -> Z) first n : zsum ((fun j => base (j + 1) - base j) <$> seqZ first (Z.of_nat n)) = base (first + Z.of_nat n) - base first.
Proof.
  revert first. induction n as [|n IH]; intros first; [change (seqZ first (Z.of_nat 0)) with (@nil Z); rewrite Z.add_0_r; cbn; lia|]. rewrite seqZ_cons by lia. replace (Z.pred (Z.of_nat (S n))) with (Z.of_nat n) by lia. rewrite fmap_cons, zsum_cons, IH.
  replace (Z.succ first + Z.of_nat n) with (first + Z.of_nat (S n)) by lia. replace (Z.succ first) with (first + 1) by lia. lia.
Qed.

(** ** Discovery *)

Section Discover.
Context (s : SfcKind) (k : KeyType) (t : otree) (f : FocusedOctree (T := Q)) {E : Type} (coords : E -> Vec3 Q) (radius : E -> Q) (particles : list E) (mine : IndexPair) (base : Z -> Z).
Hypothesis Ho : octreeDataOf k t (octreeAcc_ f).
Hypothesis El : leaves_ f = leafArray k t.
Hypothesis Hbox : exactBox (box_ f).
Hypothesis Hgeo : geometryArrays s k t (arrays (octreeAcc_ f)) (box_ f) (geoCentersAcc_ f) (geoSizesAcc_ f).
Hypothesis Hmine : (assignment_ f).[myRank_ f] = Some mine.
Hypothesis Hrange : 0 <= start mine <= end_ mine /\ end_ mine <= nNodes (leaves_ f).
Hypothesis Hcounts : zlen (leafCountsAcc_ f) = nNodes (leaves_ f).
Hypothesis Hown : forall j, start mine <= j < end_ mine -> (leafCountsAcc_ f).[j] = Some (base (j + 1) - base j).
Hypothesis Hmono : forall i j, start mine <= i <= j -> j <= end_ mine -> base i <= base j.
Hypothesis Hbase : base (start mine) = 0 /\ base (end_ mine) <= zlen particles /\ zlen particles < 4294967296.

Local Abbreviation a := (arrays (octreeAcc_ f)).
Local Abbreviation n := (zlen (prefixes (arrays (octreeAcc_ f)))).
Local Abbreviation lo := (nthz (leaves_ f) (start mine)).
Local Abbreviation hi := (nthz (leaves_ f) (end_ mine)).

Lemma ownCounts : slice (leafCountsAcc_ f) (start mine) (end_ mine) = (fun j => base (j + 1) - base j) <$> seqZ (start mine) (end_ mine - start mine).
Proof using Hrange Hcounts Hown.
  apply list_eq_aget; [rewrite slice_zlen, zlen_map, zlen_seqZ; lia|]. intros i Hi. rewrite slice_zlen in Hi by lia. rewrite slice_get, aget_map, aget_seqZ by lia. rewrite Hown by lia. done.
Qed.

Lemma searchLayout layout0 : zlen layout0 = nNodes (leaves_ f) + 1 -> exists layout, (let? layout := aset layout0 0 0 in writeFrom (inclusive_scan_u32 0 (slice (leafCountsAcc_ f) (start mine) (end_ mine))) layout 1) = Some layout /\
  zlen layout = zlen layout0 /\ forall i, 0 <= i <= end_ mine - start mine -> layout.[i] = Some (base (start mine + i)).
Proof using Hrange Hcounts Hown Hmono Hbase.
  intros Hz. pose proof (aset_Some layout0 0 0 ltac:(lia)) as F. pose proof (aset_zlen _ _ _ _ F) as Hz1. rewrite F. cbn beta iota. set (l1 := <[Z.to_nat 0 := 0]> layout0) in *. rewrite ownCounts. set (diffs := _ <$> _).
  assert (Hzd : zlen diffs = end_ mine - start mine) by (unfold diffs; rewrite zlen_map, zlen_seqZ; lia). assert (Hsum : zsum diffs = base (end_ mine)).
  { unfold diffs. replace (end_ mine - start mine) with (Z.of_nat (Z.to_nat (end_ mine - start mine))) by lia. rewrite zsum_telescope, Z2Nat.id by lia. replace (start mine + (end_ mine - start mine)) with (end_ mine) by lia. lia. }
  assert (Hnn : Forall (fun x => 0 <= x) diffs). { unfold diffs. apply Forall_fmap, Forall_forall. intros j Hj%elem_of_seqZ. unfold compose. pose proof (Hmono j (j + 1) ltac:(lia) ltac:(lia)). lia. }
  destruct (writeFrom_written (inclusive_scan_u32 0 diffs) l1 1) as (l2 & -> & W); [lia|rewrite zlen_inclusive_scan; lia|]. exists l2. split; [done|]. destruct W as [W1 W2 W3]. rewrite zlen_inclusive_scan in W2, W3. split; [lia|]. intros i Hi.
  destruct (decide (i = 0)) as [->|Hne]; [rewrite W3 by lia; rewrite (aget_aset_eq _ _ _ _ F), Z.add_0_r; f_equal; lia|].
  replace i with (1 + (i - 1)) at 1 by lia. rewrite W2 by lia. rewrite inclusive_scan_get; [|lia|done|lia|lia]. f_equal. replace (i - 1 + 1) with i by lia. unfold diffs.
  assert (Et : take (Z.to_nat i) (seqZ (start mine) (end_ mine - start mine)) = seqZ (start mine) (Z.of_nat (Z.to_nat i))).
  { rewrite Z2Nat.id by lia. replace (end_ mine - start mine) with (i + (end_ mine - start mine - i)) by lia. rewrite seqZ_app by lia. apply take_app_length'. rewrite length_seqZ. lia. }
  rewrite <- fmap_take, Et, zsum_telescope, Z2Nat.id by lia. lia.
Qed.

(** The search box of leaf [j] holds its particles and has been searched for. *)
Definition leafSearched (scale : Q) (macs : list Z) (j : Z) : Prop :=
  exists c sz, (forall i e, base j <= i < base (j + 1) -> particles.[i] = Some e -> holdsCube c sz (coords e) (radius e * scale)%Q) /\ (0 <= vx sz /\ 0 <= vy sz /\ 0 <= vz sz)%Q /\
    (containedInCoords s k lo hi c sz (box_ f) = Some true \/ forall q, q ∈ allKeys 1 t -> collides s k (box_ f) lo hi c sz q = true -> nthz macs (pos a q) <> 0).

Lemma searchBoxes_run scale layout centers sizes : zlen centers = nNodes (leaves_ f) -> zlen sizes = nNodes (leaves_ f) -> (forall i, 0 <= i <= end_ mine - start mine -> layout.[i] = Some (base (start mine + i))) ->
  exists centers' sizes', for_loop 0 (end_ mine - start mine) (searchBoxBody (xs coords particles) (ys coords particles) (zs coords particles) (hs radius particles) layout scale (start mine)) (centers, sizes) = Some (centers', sizes') /\
    forall j, start mine <= j < end_ mine -> exists c sz, centers'.[j] = Some c /\ sizes'.[j] = Some sz /\ (0 <= vx sz /\ 0 <= vy sz /\ 0 <= vz sz)%Q /\
      forall i e, base j <= i < base (j + 1) -> particles.[i] = Some e -> holdsCube c sz (coords e) (radius e * scale)%Q.
Proof using Hrange Hmono Hbase.
  intros Hc Hs Hl. destruct (for_loop_inv (fun m '(C, W) => zlen C = nNodes (leaves_ f) /\ zlen W = nNodes (leaves_ f) /\ forall j, start mine <= j < start mine + m -> exists c sz, C.[j] = Some c /\ W.[j] = Some sz /\ (0 <= vx sz /\ 0 <= vy sz /\ 0 <= vz sz)%Q /\
      forall i e, base j <= i < base (j + 1) -> particles.[i] = Some e -> holdsCube c sz (coords e) (radius e * scale)%Q)
    0 (end_ mine - start mine) (searchBoxBody (xs coords particles) (ys coords particles) (zs coords particles) (hs radius particles) layout scale (start mine)) (centers, sizes)) as ([C W] & -> & _ & _ & Hin).
  - lia.
  - split; [done|]. split; [done|]. lia.
  - intros i [C W] Hi (H1 & H2 & Hin). unfold searchBoxBody. rewrite !Hl by lia. cbn beta iota. destruct (aget_is_Some C (start mine + i) ltac:(lia)) as [init ->]. cbn beta iota. replace (start mine + (i + 1)) with (start mine + i + 1) by lia. set (j := start mine + i) in *.
    pose proof (Hmono (start mine) j ltac:(lia) ltac:(lia)). pose proof (Hmono j (j + 1) ltac:(lia) ltac:(lia)). pose proof (Hmono (j + 1) (end_ mine) ltac:(lia) ltac:(lia)).
    destruct (boundingBox_run coords radius particles (base j) (base (j + 1)) scale init ltac:(lia) ltac:(lia)) as (c & sz & -> & Hp & Hh). cbn beta iota. pose proof (aset_Some C j c ltac:(lia)) as F1. pose proof (aset_Some W j sz ltac:(lia)) as F2. rewrite F1, F2. cbn beta iota.
    eexists. split; [done|]. split; [by rewrite (aset_zlen _ _ _ _ F1)|]. split; [by rewrite (aset_zlen _ _ _ _ F2)|]. intros j' Hj'. destruct (decide (j' = j)) as [->|Hne].
    + exists c, sz. rewrite (aget_aset_eq _ _ _ _ F1), (aget_aset_eq _ _ _ _ F2). done.
    + rewrite (aget_aset_ne _ _ _ _ _ F1), (aget_aset_ne _ _ _ _ _ F2) by done. apply Hin. lia.
  - exists C, W. split; [done|]. intros j Hj. apply Hin. lia.
Qed.

Lemma discoverHalos_run layout0 ext sizes (accumulate : bool) : zlen layout0 = nNodes (leaves_ f) + 1 -> zlen sizes = nNodes (leaves_ f) -> (if accumulate then zlen (macsAcc_ f) = n /\ marksUp a (macsAcc_ f) else True) ->
  exists layout macs, discoverHalos s k (xs coords particles) (ys coords particles) (zs coords particles) (hs radius particles) layout0 ext sizes accumulate f = Some (inr (layout, setMacs macs f)) /\
    zlen layout = zlen layout0 /\ zlen macs = n /\ marksUp a macs /\ forall j, start mine <= j < end_ mine -> leafSearched (s_mul (s_ofZ 2) ext) macs j.
Proof using All.
  intros Hz0 Hzs Hm. pose proof (zlen_nonneg (prefixes a)) as Hn0. pose proof (od_numNodes _ _ _ Ho) as En. pose proof (od_linked _ _ _ Ho) as Hlk. pose proof (nNodes_leafArray k t) as Hnl. rewrite <- El in Hnl. unfold discoverHalos. rewrite Hmine. cbn beta iota.
  replace (accumulate && _) with false by (destruct accumulate; [|done]; rewrite En, (proj1 Hm), Z.eqb_refl; done).
  assert (Hg : gather (leafToInternalSpan (octreeAcc_ f)) (geoCentersAcc_ f) (replicate (Z.to_nat (numLeafNodes (octreeAcc_ f))) zeroVec) = Some ((fun q => (nodeGeometry s k (box_ f) q).1) <$> leafKeys 1 t)).
  { rewrite (leafMap_run k t _ Ho). rewrite (gather_correct _ _ _ (fun i => default zeroVec ((geoCentersAcc_ f).[i]))).
    - rewrite (od_numLeaf _ _ _ Ho), length_fmap. unfold zlen. rewrite Nat2Z.id, drop_replicate, Nat.sub_diag. cbn [replicate]. rewrite app_nil_r. f_equal. rewrite <- list_fmap_compose. apply list_fmap_ext. intros _ q Hq%list_elem_of_lookup_2. unfold compose. destruct (Hgeo q) as [-> _]; [apply elem_of_app; by right|done].
    - rewrite (od_numLeaf _ _ _ Ho), zlen_map. unfold zlen. rewrite length_replicate. lia.
    - intros i o Hi. rewrite aget_map in Hi. destruct ((leafKeys 1 t).[i]) as [q|] eqn:Eq; [|done]. injection Hi as <-. destruct (Hgeo q) as [-> _]; [apply elem_of_app; right; by eapply aget_elem|done]. }
  rewrite Hg. cbn beta iota. rewrite subspan_run by lia. replace (start mine + (end_ mine - start mine)) with (end_ mine) by lia.
  destruct (searchLayout layout0 Hz0) as (layout & Elay & Hzl & Hlay). destruct (aset layout0 0 0) as [l1|]; [|done]. cbn beta iota in Elay |- *. rewrite Elay. cbn beta iota.
  destruct (searchBoxes_run (s_mul (s_ofZ 2) ext) layout ((fun q => (nodeGeometry s k (box_ f) q).1) <$> leafKeys 1 t) sizes) as (C & W & -> & Hsb); [by rewrite zlen_map|done|done|]. cbn beta iota. set (flags := if accumulate then _ else _).
  assert (Hflags : zlen flags = n /\ marksUp a flags).
  { unfold flags. destruct accumulate; [destruct Hm as [Hm1 Hm2]; assert (Er : aresize 0 (macsAcc_ f) (numNodes (octreeAcc_ f)) = macsAcc_ f) by (rewrite En, <- Hm1; apply aresize_id); by rewrite Er|].
    split; [unfold zlen at 1; rewrite length_replicate; change (Z.of_nat (length ?l)) with (zlen l); rewrite En; apply zlen_aresize; lia|apply marksUp_zeros]. }
  assert (Hsearch : forall i, start mine <= i < end_ mine -> exists c sz inside, searchBox s k (box_ f) C W lo hi i c sz inside).
  { intros i Hi. destruct (Hsb i Hi) as (c & sz & Ec & Es & Hpos & _). destruct (containedInCoords_run s k lo hi c sz (box_ f) Hbox Hpos) as (b & Eb & _). by exists c, sz, b. }
  unfold findHalos. destruct (findHalosIn_run s k t a (box_ f) (od_depth _ _ _ Ho) Hlk _ _ Hgeo C W (leaves_ f) (start mine) (end_ mine) lo hi) with (order := seqZ (start mine) (end_ mine - start mine)) (flags := flags) as (flags' & Ef & Hmk);
    [apply nthz_get; unfold nNodes in *; lia|apply nthz_get; unfold nNodes in *; lia|exact Hsearch|done|apply Hflags|]. rewrite Ef. cbn beta iota.
  exists layout, flags'. split; [done|]. split; [lia|]. split; [rewrite (proj1 Hmk); apply Hflags|]. split.
  - apply (marksUp_more k t (octreeAcc_ f) Ho (fun x : Z * Vec3 Q * Vec3 Q => start mine <= x.1.1 < end_ mine /\ searchBox s k (box_ f) C W lo hi x.1.1 x.1.2 x.2 false) (fun x => collides s k (box_ f) lo hi x.1.2 x.2) flags); [apply Hflags|].
    eapply marksMore_iff; [|exact Hmk]. intros j. split; [intros (i & c & sz & q & H1 & H2 & H3); by exists (i, c, sz), q|intros ([[i c] sz] & q & [H1 H2] & H3); by exists i, c, sz, q].
  - intros j Hj. destruct (Hsb j Hj) as (c & sz & Ec & Es & Hpos & Hh). exists c, sz. split; [done|]. split; [done|]. destruct (containedInCoords_run s k lo hi c sz (box_ f) Hbox Hpos) as (b & Eb & _). rewrite Eb. destruct b; [by left|right].
    intros q Hq Hcol. apply Hmk. right. exists j, c, sz, q. split; [done|]. split; [done|]. split; [|done]. by apply (reached_collides s k (box_ f) (proj1 Hbox) t _ _ _ _ q (od_depth _ _ _ Ho) Hq).
Qed.

End Discover.
