(* ===== verification/SyncPass.v ===== *)
(** * One pass of the domain update on all ranks

    The body of the loop in [Domain::sync]: criteria, focus trees, counts, halo discovery, layout and halo requests.  Every pass
    succeeds for every arrival order of the messages, establishes what the end of the update relies on, and can be repeated. *)

From Stdlib Require Import QArith.
From S2P Require Import Prelude Primitives SfcCommon Csarray CsInvariant CsRebalance CsCounts CsBuild SfcBox Morton Hilbert Sfc Octree OctreeNodes OctreeBuild OctreeQueries IndexRanges DomainDecomp Layout FocusRebalance FocusInject FocusTree FocusOps FocusUpdate GlobalTree Exchange Distribute Halos HaloExchange NodeLookup Scalars FloatBox BoxOverlap GlobalBox Traversal Macs SourceCenter Marking ExactGeometry ExactCoords Neighbors NeighborSearch IjLoop Treelets TreeletSync TreeletWorld TreeletCells FocusedOctree FocusCounts FocusTrees FocusedProperties Domain DomainLayout DomainHalos HaloSearch.
#[local] Open Scope Z_scope.

(** The state of all ranks before a pass: [own p] are the particles assigned to rank [p], which are in front of [ordered p].  The
    assignment, the global tree and the box are common, the focus trees have counts and marks for their nodes that do not
    increase from a node to its children, and the remembered offsets lie inside of the global tree. *)
Record passReady {E} (s : SfcKind) (k : KeyType) (coords : E -> Vec3 Q) (N : Z) (D : Z -> Domain (T := Q)) (sa : SfcAssignment) (gLeaves : list Z) (box : Box Q) (own ordered : Z -> list E) : Prop := {
  pa_assignment : validAssignment k sa;
  pa_ranks : assignmentRanks sa = N;
  pa_offsets : zlen (treeOffsets_ sa) = N + 1 /\ zlen (numNodesPerRank_ sa) = N /\
    (forall r, 0 <= r <= N -> gLeaves.[nthz (treeOffsets_ sa) r] = Some (nthz (rankBoundaries_ sa) r)) /\
    (forall r, 0 <= r < N -> nthz (numNodesPerRank_ sa) r = nthz (treeOffsets_ sa) (r + 1) - nthz (treeOffsets_ sa) r);
  pa_global : csTree k gLeaves /\ nNodes gLeaves < 2 ^ 32;
  pa_box : exactBox box;
  pa_domain : forall p, 0 <= p < N -> d_myRank (D p) = p /\ h_myRank (halos_ (D p)) = p /\ ga_assignment (global_ (D p)) = sa /\ ga_box (global_ (D p)) = box /\ g_leaves (ga_tree (global_ (D p))) = gLeaves /\
    g_counts (ga_tree (global_ (D p))) = totalCounts ((fun q => definedKey s k coords box <$> own q) <$> seqZ 0 N) gLeaves;
  pa_focus : forall p, 0 <= p < N -> myRank_ (focusTree_ (D p)) = p /\ numRanks_ (focusTree_ (D p)) = N /\ zlen (treelets_ (focusTree_ (D p))) = N /\ Z.lor (rebalanceStatus_ (focusTree_ (D p))) status_macCriterion = status_valid;
  pa_tree : forall p, 0 <= p < N -> exists t, octreeDataOf k t (octreeAcc_ (focusTree_ (D p))) /\ leaves_ (focusTree_ (D p)) = leafArray k t;
  pa_counts : forall p, 0 <= p < N -> zlen (countsAcc_ (focusTree_ (D p))) = zlen (prefixes (arrays (octreeAcc_ (focusTree_ (D p))))) /\ countsUp (arrays (octreeAcc_ (focusTree_ (D p)))) (countsAcc_ (focusTree_ (D p)));
  pa_macs : forall p, 0 <= p < N -> zlen (macsAcc_ (focusTree_ (D p))) = zlen (prefixes (arrays (octreeAcc_ (focusTree_ (D p))))) /\ marksUp (arrays (octreeAcc_ (focusTree_ (D p)))) (macsAcc_ (focusTree_ (D p)));
  pa_previous : forall p, 0 <= p < N -> zlen (globDispl_ (focusTree_ (D p))) = N + 1 /\
    forall r, 0 <= r < N -> 0 <= nthz (globDispl_ (focusTree_ (D p))) r <= nthz (globDispl_ (focusTree_ (D p))) (r + 1) /\ nthz (globDispl_ (focusTree_ (D p))) (r + 1) <= zlen gLeaves;
  pa_keys : forall p, 0 <= p < N -> zsorted (definedKey s k coords box <$> own p) /\ Forall (fun x => nthz (rankBoundaries_ sa) p <= definedKey s k coords box x < nthz (rankBoundaries_ sa) (p + 1)) (own p);
  pa_total : zlen (particlesOf N own) < 4294967296 /\ zlen (particlesOf N own) <= 2 ^ (keyBits k - 2);
  pa_ordered : forall p, 0 <= p < N -> zlen (own p) <= zlen (ordered p) < 4294967296 /\ slice (ordered p) 0 (zlen (own p)) = own p
}.

Section Pass.
Context (sqrt : Q -> Q) (s : SfcKind) (k : KeyType) {E : Type} (coords : E -> Vec3 Q) (radius : E -> Q) (junkVec : Z -> Vec3 Q) (junkIdx : Z -> Z).
Context (N : Z) (D : Z -> Domain (T := Q)) (sa : SfcAssignment) (gLeaves : list Z) (box : Box Q) (own ordered : Z -> list E).
Hypothesis Hpa : passReady s k coords N D sa gLeaves box own ordered.

Local Abbreviation key := (definedKey s k coords box).
Local Abbreviation B := (nthz (rankBoundaries_ sa)).
Let Hva : validAssignment k sa := pa_assignment _ _ _ _ _ _ _ _ _ _ Hpa.
Let HN : assignmentRanks sa = N := pa_ranks _ _ _ _ _ _ _ _ _ _ Hpa.

(** ** Criteria *)

Definition criteriaOf (p : Z) : FocusedOctree (T := Q) :=
  match updateMinMac sqrt s k sa (invThetaMinMac (theta_ (D p))) true (focusTree_ (D p)) with Some (inr g) => g | _ => focusTree_ (D p) end.

Lemma criteria_run p : 0 <= p < N -> updateMinMac sqrt s k sa (invThetaMinMac (theta_ (D p))) true (focusTree_ (D p)) = Some (inr (criteriaOf p)) /\
  exists macs centers, criteriaOf p = criteriaSet (focusTree_ (D p)) macs centers /\ zlen macs = zlen (prefixes (arrays (octreeAcc_ (focusTree_ (D p))))) /\ marksUp (arrays (octreeAcc_ (focusTree_ (D p)))) macs.
Proof using Hpa.
  intros Hp. destruct (pa_tree _ _ _ _ _ _ _ _ _ _ Hpa p Hp) as (t & Ho & El). destruct (pa_focus _ _ _ _ _ _ _ _ _ _ Hpa p Hp) as (Er & _).
  destruct (updateMinMac_run sqrt s k t (focusTree_ (D p)) sa (invThetaMinMac (theta_ (D p))) true Ho El Hva ltac:(lia) (pa_macs _ _ _ _ _ _ _ _ _ _ Hpa p Hp)) as (macs & centers & Eu & Hz & Hup).
  unfold criteriaOf. rewrite Eu. split; [done|]. by exists macs, centers.
Qed.

Lemma criteria_ready : updateReady k N criteriaOf sa gLeaves.
Proof using Hpa.
  assert (Hc : forall p, 0 <= p < N -> exists macs centers, criteriaOf p = criteriaSet (focusTree_ (D p)) macs centers /\ zlen macs = zlen (prefixes (arrays (octreeAcc_ (focusTree_ (D p))))) /\ marksUp (arrays (octreeAcc_ (focusTree_ (D p)))) macs) by (intros p Hp; by apply criteria_run).
  split; [done|done|apply Hpa|apply Hpa| | | |]; intros p Hp; destruct (Hc p Hp) as (macs & centers & -> & Hz & Hup).
  - destruct (pa_focus _ _ _ _ _ _ _ _ _ _ Hpa p Hp) as (E1 & E2 & E3 & E4). done.
  - apply (pa_tree _ _ _ _ _ _ _ _ _ _ Hpa p Hp).
  - destruct (pa_counts _ _ _ _ _ _ _ _ _ _ Hpa p Hp) as [C1 C2]. by apply criteria_input.
  - apply (pa_previous _ _ _ _ _ _ _ _ _ _ Hpa p Hp).
Qed.

(** ** Counts *)

Definition keysOf (p : Z) : list Z := key <$> own p.

Lemma keys_concat : concat (keysOf <$> seqZ 0 N) = key <$> particlesOf N own.
Proof using. unfold particlesOf, keysOf. induction (seqZ 0 N) as [|p l IH]; [done|]. rewrite !fmap_cons. cbn [concat]. by rewrite fmap_app, IH. Qed.

Lemma own_le p : 0 <= p < N -> zlen (own p) <= zlen (particlesOf N own).
Proof using.
  intros Hp. unfold particlesOf. replace N with (p + (1 + (N - p - 1))) by lia. rewrite !seqZ_app, !fmap_app, !concat_app, !zlen_app by lia. change (seqZ (0 + p) 1) with [0 + p]. cbn [fmap list_fmap concat]. rewrite app_nil_r, Z.add_0_l.
  pose proof (zlen_nonneg (concat (own <$> seqZ 0 p))). pose proof (zlen_nonneg (concat (own <$> seqZ (p + 1) (N - p - 1)))). lia.
Qed.

Lemma keys_ready p : 0 <= p < N -> searchableKeys k (keysOf p) /\ forall x, x ∈ keysOf p -> B p <= x < B (p + 1).
Proof using Hpa.
  intros Hp. destruct (pa_keys _ _ _ _ _ _ _ _ _ _ Hpa p Hp) as [Hs Hf]. rewrite Forall_forall in Hf. assert (Hx : forall x, x ∈ keysOf p -> B p <= x < B (p + 1)) by (intros x (e & -> & He)%list_elem_of_fmap; by apply Hf). split; [|done].
  pose proof (boundary_range k sa Hva p ltac:(lia)). pose proof (boundary_range k sa Hva (p + 1) ltac:(lia)).
  pose proof (own_le p Hp) as Hle. pose proof (pa_total _ _ _ _ _ _ _ _ _ _ Hpa) as [Ht1 Ht2]. split; [split; [exact Hs| |]|].
  - apply Forall_forall. intros x ?%Hx. lia.
  - unfold keysOf. rewrite zlen_map. lia.
  - unfold keysOf. rewrite zlen_map. lia.
Qed.

Lemma total_counts : Forall (fun c => c <= 0xFFFFFFFF) (totalCounts (keysOf <$> seqZ 0 N) gLeaves).
Proof using Hpa.
  apply Forall_forall. intros c (i & -> & Hi)%list_elem_of_fmap. apply elem_of_seqZ in Hi. pose proof (proj1 (pa_global _ _ _ _ _ _ _ _ _ _ Hpa)) as Hcs. unfold nNodes in Hi. rewrite total_count; [unfold FocusCounts.particles; rewrite keys_concat, count_particles|].
  - pose proof (particlesIn_le key N own (nthz gLeaves i) (nthz gLeaves (i + 1))). pose proof (pa_total _ _ _ _ _ _ _ _ _ _ Hpa). lia.
  - apply (cs_sorted k _ Hcs i (i + 1)); [lia|apply nthz_get; lia|apply nthz_get; lia].
Qed.

(** ** After the update of the trees *)

Section Updated.
Context (g : Z -> FocusedOctree (T := Q)).
Hypothesis Hg : forall p, 0 <= p < N -> updatedRank k N criteriaOf sa gLeaves p (g p) /\ updatedMembers s k N box p (g p).

Local Abbreviation R := (peerOf k N criteriaOf sa gLeaves).

Lemma updated_focus : focusWorld k N g B R gLeaves.
Proof using Hpa Hg. apply (updated_world k N criteriaOf sa gLeaves criteria_ready). intros p Hp. by apply Hg. Qed.

(** The focus trees with exact counts, and with marks. *)
Definition countedOf (p : Z) : FocusedOctree (T := Q) :=
  setStatus (Z.lor (rebalanceStatus_ (g p)) status_countsCriterion) (setCounts (exactLeafCounts N g keysOf p) (exactCounts k N g keysOf p) (g p)).
Definition markedOf (macs : Z -> list Z) (p : Z) : FocusedOctree (T := Q) := setMacs (macs p) (countedOf p).

Lemma counted_parts p : 0 <= p < N -> assignment_ (g p) = partIn sa (leaves_ (g p)) <$> seqZ 0 N.
Proof using Hg. intros Hp. destruct (Hg p Hp) as [Hu _]. rewrite (up_assignment _ _ _ _ _ _ _ Hu), (up_leaves _ _ _ _ _ _ _ Hu). done. Qed.

Lemma marked_placed macs : (forall p, 0 <= p < N -> zlen (macs p) = zlen (prefixes (arrays (octreeAcc_ (g p))))) -> placedWorld key k N (markedOf macs) sa own.
Proof using Hpa Hg.
  intros Hm. pose proof updated_focus as Hf. split.
  - exact Hva.
  - exact HN.
  - intros p Hp. apply (fw_rank _ _ _ _ _ _ Hf p Hp).
  - intros p Hp. exact (cw_octree _ _ _ _ _ _ _ _ (fw_cells _ _ _ _ _ _ Hf) p Hp).
  - exact counted_parts.
  - intros p Hp. destruct (fw_own _ _ _ _ _ _ Hf p Hp) as (a & _ & _ & E1 & E2). split; by eapply aget_elem.
  - intros p q j Hp Hq Hne Hj. apply (updated_shared k N criteriaOf sa gLeaves criteria_ready g); [intros r Hr; by apply Hg|done|done|done|done].
  - apply (pa_keys _ _ _ _ _ _ _ _ _ _ Hpa).
  - apply (pa_total _ _ _ _ _ _ _ _ _ _ Hpa).
  - intros p Hp. cbn [markedOf setMacs countedOf setStatus setCounts leafCountsAcc_ leaves_]. unfold exactLeafCounts, FocusCounts.particles. by rewrite keys_concat.
  - exact Hm.
Qed.

(** ** Halo discovery *)

Local Abbreviation mine p := (partIn sa (leaves_ (g p)) p).

(** The number of own particles in front of leaf [j]. *)
Definition ownBase (p j : Z) : Z := count_lt (nthz (leaves_ (g p)) j) (keysOf p).

Definition searchOf (p : Z) : option (FocusError + (list Z * FocusedOctree (T := Q))) :=
  let n := numLeafNodes (octreeAcc_ (g p)) in
  discoverHalos s k (xs coords (ordered p)) (ys coords (ordered p)) (zs coords (ordered p)) (hs radius (ordered p)) (aresize 0 (layoutAcc_ (D p)) (n + 1)) (haloSearchExt_ (D p)) (junkVec <$> seqZ 0 n) false (countedOf p).
Definition macsOf (p : Z) : list Z := match searchOf p with Some (inr (_, f)) => macsAcc_ f | _ => [] end.
Definition accOf (p : Z) : list Z := match searchOf p with Some (inr (layout, _)) => layout | _ => [] end.

Lemma zeros_placed : placedWorld key k N (markedOf (fun p => replicate (length (prefixes (arrays (octreeAcc_ (g p))))) 0)) sa own.
Proof using Hpa Hg. apply marked_placed. intros p Hp. unfold zlen. by rewrite length_replicate. Qed.

Lemma mine_bounds p : 0 <= p < N -> 0 <= start (mine p) <= end_ (mine p) /\ end_ (mine p) <= nNodes (leaves_ (g p)) /\ nthz (leaves_ (g p)) (start (mine p)) = B p /\ nthz (leaves_ (g p)) (end_ (mine p)) = B (p + 1).
Proof using Hpa Hg. intros Hp. exact (mine_range key k N _ sa own zeros_placed p Hp). Qed.

Lemma counted_base p : 0 <= p < N -> (forall j, start (mine p) <= j < end_ (mine p) -> (leafCountsAcc_ (countedOf p)).[j] = Some (ownBase p (j + 1) - ownBase p j)) /\
  ownBase p (start (mine p)) = 0 /\ ownBase p (end_ (mine p)) = zlen (own p).
Proof using Hpa Hg.
  intros Hp. pose proof zeros_placed as Hz. destruct (mine_bounds p Hp) as (M1 & M2 & _). assert (Hpre : forall j, start (mine p) <= j <= end_ (mine p) -> offsetOf key N (markedOf (fun p => replicate (length (prefixes (arrays (octreeAcc_ (g p))))) 0)) sa own p j - offsetOf key N (markedOf (fun p => replicate (length (prefixes (arrays (octreeAcc_ (g p))))) 0)) sa own p (start (mine p)) = ownBase p j) by (intros j Hj; by apply (own_prefix key k N _ sa own Hz p j Hp)).
  split; [|split].
  - intros j Hj. pose proof (leafCount_get key k N _ sa own Hz p j Hp ltac:(cbn; lia)) as El. etransitivity; [exact El|]. f_equal. rewrite <- !Hpre by lia. rewrite (offset_next key N _ sa own p j) by lia. rewrite (present_mine key N _ sa own p j) by exact Hj. lia.
  - rewrite <- Hpre by lia. lia.
  - rewrite <- Hpre by lia. apply (own_length key k N _ sa own Hz p Hp).
Qed.

Lemma search_run p t : 0 <= p < N -> octreeDataOf k t (octreeAcc_ (g p)) -> leaves_ (g p) = leafArray k t -> geometryArrays s k t (arrays (octreeAcc_ (g p))) box (geoCentersAcc_ (g p)) (geoSizesAcc_ (g p)) ->
  searchOf p = Some (inr (accOf p, markedOf macsOf p)) /\ zlen (macsOf p) = zlen (prefixes (arrays (octreeAcc_ (g p)))) /\ marksUp (arrays (octreeAcc_ (g p))) (macsOf p) /\
  forall j, start (mine p) <= j < end_ (mine p) -> leafSearched s k t (countedOf p) coords radius (ordered p) (mine p) (ownBase p) (s_mul (s_ofZ 2) (haloSearchExt_ (D p))) (macsOf p) j.
Proof using Hpa Hg.
  intros Hp Ho El Hgeo. destruct (counted_base p Hp) as (C1 & C2 & C3). destruct (mine_bounds p Hp) as (M1 & M2 & _). destruct (Hg p Hp) as [Hu Hm]. pose proof (nNodes_leafArray k t) as Hnl. rewrite <- El in Hnl. pose proof (od_numLeaf _ _ _ Ho) as En. pose proof (zlen_nonneg (leafKeys 1 t)).
  destruct (pa_ordered _ _ _ _ _ _ _ _ _ _ Hpa p Hp) as ([O1 O2] & _). pose proof (placed_zlenCounts key k N _ sa own zeros_placed p Hp) as Hzc.
  destruct (discoverHalos_run s k t (countedOf p) coords radius (ordered p) (mine p) (ownBase p)) with (layout0 := aresize 0 (layoutAcc_ (D p)) (numLeafNodes (octreeAcc_ (g p)) + 1)) (ext := haloSearchExt_ (D p)) (sizes := junkVec <$> seqZ 0 (numLeafNodes (octreeAcc_ (g p)))) (accumulate := false) as (layout & macs & Es & _ & Hz & Hup & Hs).
  - exact Ho.
  - exact El.
  - cbn. rewrite (um_box _ _ _ _ _ _ Hm). apply Hpa.
  - cbn. by rewrite (um_box _ _ _ _ _ _ Hm).
  - cbn. rewrite (up_rank _ _ _ _ _ _ _ Hu), counted_parts, aget_map, aget_seqZ by (done || lia). done.
  - exact (conj M1 M2).
  - exact Hzc.
  - exact C1.
  - intros i j Hi Hj. apply count_lt_mono. apply (leaf_mono key k N _ sa own zeros_placed p i j Hp); [lia|change (j <= nNodes (leaves_ (g p))); lia].
  - lia.
  - change (leaves_ (countedOf p)) with (leaves_ (g p)). rewrite zlen_aresize; lia.
  - change (leaves_ (countedOf p)) with (leaves_ (g p)). rewrite zlen_map, zlen_seqZ; lia.
  - done.
  - assert (E1 : searchOf p = Some (inr (layout, setMacs macs (countedOf p)))) by exact Es. unfold accOf, markedOf, macsOf. rewrite E1. cbn [macsAcc_ setMacs]. done.
Qed.

(** ** Completeness *)

(** The leaf of rank [p] that a particle lies in. *)
Lemma leaf_of p t e : 0 <= p < N -> octreeDataOf k t (octreeAcc_ (g p)) -> leaves_ (g p) = leafArray k t -> e ∈ particlesOf N own ->
  exists j q, (leafKeys 1 t).[j] = Some q /\ 0 <= j < nNodes (leaves_ (g p)) /\ nthz (leaves_ (g p)) j = nodeStart k q /\ nthz (leaves_ (g p)) (j + 1) = nodeEnd k q /\ nodeStart k q <= key e < nodeEnd k q.
Proof using Hpa.
  intros Hp Ho El He. apply elem_of_concat in He as (l & Hl & He). apply list_elem_of_fmap in Hl as (r & -> & Hr%elem_of_seqZ). destruct (pa_keys _ _ _ _ _ _ _ _ _ _ Hpa r ltac:(lia)) as [_ Hk]. rewrite Forall_forall in Hk. specialize (Hk e He).
  pose proof (boundary_range k sa Hva r ltac:(lia)). pose proof (boundary_range k sa Hva (r + 1) ltac:(lia)). assert (Hcs : csTree k (leaves_ (g p))) by (rewrite El; apply leafArray_csTree, Ho).
  assert (Hke : 0 <= key e < keyMax k) by lia. destruct (cs_leaf_of k (leaves_ (g p)) (key e) Hcs Hke) as (j & u & v & Hu & Hv & _ & Huv). pose proof (aget_Some_range _ _ _ Hu). pose proof (aget_Some_range _ _ _ Hv). pose proof (nNodes_leafArray k t) as Hn. rewrite <- El in Hn. unfold nNodes in *.
  destruct (aget_is_Some (leafKeys 1 t) j ltac:(lia)) as [q Hq]. destruct (leafArray_leaf k t (od_depth _ _ _ Ho) j q Hq) as (E1 & E2 & _). rewrite <- El, Hu in E1. rewrite <- El, Hv in E2. injection E1 as ->. injection E2 as ->. exists j, q. rewrite (nthz_Some _ _ _ Hu), (nthz_Some _ _ _ Hv). split; [done|]. split; [lia|]. done.
Qed.

(** Own particles are in own leaves, and at the positions that their leaves have in the arrays. *)
Lemma own_leaf_position p t x : 0 <= p < N -> octreeDataOf k t (octreeAcc_ (g p)) -> leaves_ (g p) = leafArray k t -> x ∈ own p -> exists j i, start (mine p) <= j < end_ (mine p) /\ ownBase p j <= i < ownBase p (j + 1) /\ (ordered p).[i] = Some x.
Proof using Hpa Hg.
  intros Hp Ho El Hx. destruct (leaf_of p t x Hp Ho El) as (j & q & Hq & Hj & E1 & E2 & Hk); [apply elem_of_concat; exists (own p); split; [apply list_elem_of_fmap_2, elem_of_seqZ; lia|done]|]. destruct (mine_bounds p Hp) as (M1 & M2 & M3 & M4).
  destruct (pa_keys _ _ _ _ _ _ _ _ _ _ Hpa p Hp) as [Hs Hf]. rewrite Forall_forall in Hf. specialize (Hf x Hx). apply elem_aget in Hx as [i Hi]. pose proof (aget_Some_range _ _ _ Hi) as Hri. assert (Hki : (keysOf p).[i] = Some (key x)) by (unfold keysOf; by rewrite aget_map, Hi).
  exists j, i. split; [|split].
  - assert (Hcs : csTree k (leaves_ (g p))) by (rewrite El; apply leafArray_csTree, Ho). unfold nNodes in *. assert (Hlt : forall a b, 0 <= a < zlen (leaves_ (g p)) -> 0 <= b < zlen (leaves_ (g p)) -> nthz (leaves_ (g p)) a < nthz (leaves_ (g p)) b -> a < b) by (intros a b Ha Hb Hab; by apply (cs_lt k _ a b _ _ Hcs (nthz_get _ _ Ha) (nthz_get _ _ Hb))).
    pose proof (Hlt (start (mine p)) (j + 1) ltac:(lia) ltac:(lia) ltac:(lia)). pose proof (Hlt j (end_ (mine p)) ltac:(lia) ltac:(lia) ltac:(lia)). lia.
  - unfold ownBase. rewrite E1, E2. destruct Hk as [K1 K2]. pose proof (count_lt_le _ Hs i (key x) (nodeStart k q) Hki K1). pose proof (count_lt_gt _ Hs i (key x) (nodeEnd k q) Hki K2). unfold keysOf in *. lia.
  - destruct (pa_ordered _ _ _ _ _ _ _ _ _ _ Hpa p Hp) as [_ Ho']. rewrite <- Ho' in Hi. by rewrite slice_get in Hi by lia.
Qed.

Lemma neighbors_present p x y r d : 0 <= p < N -> gridSlack k box d -> x ∈ own p -> y ∈ particlesOf N own -> insideCoords box (coords y) -> is_Some (particleKey s k coords box y) -> r = (radius x * (s_ofZ 2 * haloSearchExt_ (D p))%S)%Q -> imageNear box r d (coords x) (coords y) ->
  y ∈ presentBuffer key N (markedOf macsOf) sa own p.
Proof using Hpa Hg.
  intros Hp Hsl Hx Hy Hiny [ky Hky] Er Him. assert (Eky : key y = ky) by (unfold definedKey; by rewrite Hky). unfold particleKey in Hky. pose proof (pa_box _ _ _ _ _ _ _ _ _ _ Hpa) as Hbox. destruct (um_geometry _ _ _ _ _ _ (proj2 (Hg p Hp))) as (t & Ho & El & Hgeo). destruct (search_run p t Hp Ho El Hgeo) as (_ & Hz & _ & Hs).
  destruct (own_leaf_position p t x Hp Ho El Hx) as (j & i & Hj & Hi & Ei). destruct (Hs j Hj) as (c & sz & Hcube & Hsz & Hmark). specialize (Hcube i x Hi Ei). rewrite <- Er in Hcube. destruct (leaf_of p t y Hp Ho El Hy) as (m & q & Hq & Hm & E1 & E2 & Hk).
  destruct (mine_bounds p Hp) as (M1 & M2 & M3 & M4). assert (Ebox : box_ (countedOf p) = box) by exact (um_box _ _ _ _ _ _ (proj2 (Hg p Hp))). rewrite Ebox in Hmark. change (leaves_ (countedOf p)) with (leaves_ (g p)) in Hmark. change (octreeAcc_ (countedOf p)) with (octreeAcc_ (g p)) in Hmark. rewrite M3, M4 in Hmark.
  apply list_elem_of_bind. exists m. split; [|apply elem_of_seqZ; change (leaves_ (markedOf macsOf p)) with (leaves_ (g p)); lia]. unfold presentParticles.
  assert (Hpres : presentLeaf (markedOf macsOf) sa p m = true); [|rewrite Hpres; unfold leafParticles, particlesIn; apply list_elem_of_filter; split; [|done]; change (leaves_ (markedOf macsOf p)) with (leaves_ (g p)); rewrite E1, E2; done].
  assert (Hqk : q ∈ allKeys 1 t) by (apply elem_of_app; right; by eapply aget_elem). unfold presentLeaf, present. change (leaves_ (markedOf macsOf p)) with (leaves_ (g p)). change (octreeAcc_ (markedOf macsOf p)) with (octreeAcc_ (g p)). change (macsAcc_ (markedOf macsOf p)) with (macsOf p).
  rewrite (nthz_Some _ _ _ (leafMap_get k t _ m q Ho Hq)). destruct (decide (B p <= key y < B (p + 1))) as [Hown|Hout].
  - assert (Hcs : csTree k (leaves_ (g p))) by (rewrite El; apply leafArray_csTree, Ho). unfold nNodes in *. assert (Hlt : forall a b, 0 <= a < zlen (leaves_ (g p)) -> 0 <= b < zlen (leaves_ (g p)) -> nthz (leaves_ (g p)) a < nthz (leaves_ (g p)) b -> a < b) by (intros a b Ha Hb Hab; by apply (cs_lt k _ a b _ _ Hcs (nthz_get _ _ Ha) (nthz_get _ _ Hb))).
    pose proof (Hlt (start (mine p)) (m + 1) ltac:(lia) ltac:(lia) ltac:(lia)). pose proof (Hlt m (end_ (mine p)) ltac:(lia) ltac:(lia) ltac:(lia)). apply orb_true_iff. left. apply andb_true_iff. split; [apply Z.leb_le; lia|apply Z.ltb_lt; lia].
  - apply orb_true_iff. right. apply negb_true_iff, Z.eqb_neq. destruct Hmark as [Hin|Hmark].
    + exfalso. destruct (contained_near s k _ _ c sz box (coords x) r d (coords y) Hbox Hsz (slack_nonneg k box d (proj1 Hbox) Hsl) Hin Hcube Hiny Him) as (ky' & Ek & Hrange). rewrite Hky in Ek. injection Ek as <-. lia.
    + apply Hmark; [done|]. unfold collides, containedInKeys. rewrite negb_involutive, andb_true_iff. split.
      * apply orb_true_iff. rewrite !Z.ltb_lt. lia.
      * pose proof (key_treeNode k t (od_depth _ _ _ Ho) q Hqk) as Hqt. apply (overlap_near box (nodeGeometry s k box q) c sz (coords x) r d (coords y) (proj1 Hbox)); [by apply geometry_size|exact (slack_nonneg k box d (proj1 Hbox) Hsl)| |done|done]. apply (point_near_node s k box d (coords y) ky q Hbox Hsl Hiny Hky); [done|lia].
Qed.

(** ** Layout and requests *)

Local Abbreviation W := (markedOf macsOf).
Local Abbreviation leaves := (fun p => leaves_ (markedOf macsOf p)).
Local Abbreviation parts := (fun p => assignment_ (markedOf macsOf p)).
Local Abbreviation layout := (layoutOf key N (markedOf macsOf) sa own).

Lemma search_facts p : 0 <= p < N -> searchOf p = Some (inr (accOf p, markedOf macsOf p)) /\ zlen (macsOf p) = zlen (prefixes (arrays (octreeAcc_ (g p)))) /\ marksUp (arrays (octreeAcc_ (g p))) (macsOf p).
Proof using Hpa Hg. intros Hp. destruct (um_geometry _ _ _ _ _ _ (proj2 (Hg p Hp))) as (t & Ho & El & Hgeo). destruct (search_run p t Hp Ho El Hgeo) as (H1 & H2 & H3 & _). done. Qed.

Lemma found_placed : placedWorld key k N W sa own.
Proof using Hpa Hg. apply marked_placed. intros p Hp. by apply search_facts. Qed.

Definition statusOf (p : Z) : Z :=
  match computeLayout (aresize 0 (layout_ (D p)) (numLeafNodes (octreeAcc_ (g p)) + 1)) (W p) with Some (status, _) => status | None => 0 end.

(** The state after the pass. *)
Definition passedOf (p : Z) : Domain (T := Q) :=
  setHalos (halosOf N leaves parts layout p (haloEpoch_ (halos_ (D p)))) (setBounds (prevBufDesc_ (D p)) (bufDesc_ (D p)) (accOf p) (layout p) (setFocus (W p) (D p))).

Lemma status_run p : 0 <= p < N -> computeLayout (aresize 0 (layout_ (D p)) (numLeafNodes (octreeAcc_ (g p)) + 1)) (W p) = Some (statusOf p, layout p) /\
  (statusOf p = 0 -> forall i, 0 <= i < nNodes (leaves p) -> offsetOf key N W sa own p i < offsetOf key N W sa own p (i + 1) -> covers (parts p) i).
Proof using Hpa Hg.
  intros Hp. destruct (um_geometry _ _ _ _ _ _ (proj2 (Hg p Hp))) as (t & Ho & El & _). pose proof (nNodes_leafArray k t) as Hnl. rewrite <- El in Hnl. pose proof (od_numLeaf _ _ _ Ho) as En. pose proof (zlen_nonneg (leafKeys 1 t)).
  destruct (layout_run key k N W sa own found_placed p (aresize 0 (layout_ (D p)) (numLeafNodes (octreeAcc_ (g p)) + 1)) Hp) as (st & E1 & Hst); [change (leaves_ (W p)) with (leaves_ (g p)); rewrite zlen_aresize; lia|]. unfold statusOf. rewrite E1. done.
Qed.

Lemma requests_ready : haloWorld key (particlesOf N own) k N leaves parts layout (presentBuffer key N W sa own).
Proof using Hpa Hg.
  apply (placed_haloWorld key k N W sa own found_placed). intros p Hp. split; [apply zlen_presentBuffer|]. by apply (presentBuffer_own key k N W sa own found_placed).
Qed.

Lemma layoutHalos_run p pass : 0 <= p < N -> zlen (ps_interior pass) = N -> (forall q, 0 <= q < N -> (ps_interior pass).[q] = (flagsOf N parts layout q).[p]) ->
  ps_requests pass ≡ₚ addressed N (requestsOf N leaves parts layout) p ->
  layoutHalos s k coords radius junkVec (ordered p) false pass (setFocus (countedOf p) (D p)) = Some (inr (statusOf p, flagsOf N parts layout p, requestsOf N leaves parts layout p, [], passedOf p)).
Proof using Hpa Hg.
  intros Hp Hz Hi Ha. unfold layoutHalos. cbn [setFocus focusTree_ layout_ layoutAcc_ haloSearchExt_ halos_ prevBufDesc_ bufDesc_]. destruct (search_facts p Hp) as (Es & _). unfold searchOf in Es. change (octreeAcc_ (countedOf p)) with (octreeAcc_ (g p)). rewrite Es. cbn [liftFocus]. cbn beta iota.
  rewrite (proj1 (status_run p Hp)). cbn beta iota. destruct (pa_domain _ _ _ _ _ _ _ _ _ _ Hpa p Hp) as (_ & Eh & _).
  rewrite (requests_world key (particlesOf N own) k N leaves parts layout _ requests_ready (halos_ (D p)) p (ps_interior pass) (ps_requests pass) Eh Hp Hz Hi); [done|].
  rewrite Ha. apply reflexive_eq. apply (addressed_single N (fun q r => isHaloPeer q (layout q) (parts q) r) (fun q r => keysTo leaves parts layout q r) p Hp).
Qed.

Lemma passed_ready : passReady s k coords N passedOf sa gLeaves box own ordered.
Proof using Hpa Hg.
  split; try apply Hpa; intros p Hp; destruct (Hg p Hp) as [Hu Hm].
  - destruct (pa_domain _ _ _ _ _ _ _ _ _ _ Hpa p Hp) as (D1 & D2 & D3 & D4 & D5 & D6). done.
  - cbn. rewrite (up_rank _ _ _ _ _ _ _ Hu), (um_ranks _ _ _ _ _ _ Hm), (um_treelets _ _ _ _ _ _ Hm), (up_status _ _ _ _ _ _ _ Hu). done.
  - destruct (um_geometry _ _ _ _ _ _ Hm) as (t & Ho & El & _). by exists t.
  - destruct (um_geometry _ _ _ _ _ _ Hm) as (t & Ho & El & _). split; [apply zlen_map|]. by apply (countsUp_exact k t (octreeAcc_ (g p))).
  - by apply search_facts.
  - cbn. rewrite (proj1 (up_displ _ _ _ _ _ _ _ Hu)). destruct (pa_offsets _ _ _ _ _ _ _ _ _ _ Hpa) as (O1 & _ & O3 & _). split; [done|]. intros r Hr. pose proof (O3 r ltac:(lia)) as E1. pose proof (O3 (r + 1) ltac:(lia)) as E2. pose proof (aget_Some_range _ _ _ E1). pose proof (aget_Some_range _ _ _ E2). split; [|lia]. split; [lia|].
    destruct (Z.le_gt_cases (nthz (treeOffsets_ sa) r) (nthz (treeOffsets_ sa) (r + 1))) as [|Hgt]; [done|]. apply (cs_lt k _ _ _ _ _ (proj1 (pa_global _ _ _ _ _ _ _ _ _ _ Hpa)) E2 E1) in Hgt. pose proof (boundary_mono k sa Hva r (r + 1) ltac:(lia) ltac:(lia)). lia.
Qed.

End Updated.
End Pass.

(** ** The pass *)

(** What the ranks receive: messages in any order, and the flags of the other ranks. *)
Definition delivered {A} (N : Z) (sent arrivals : Z -> list (Z * list A)) : Prop := forall p, 0 <= p < N -> arrivals p ≡ₚ addressed N sent p.
Definition flagsDelivered (N : Z) (flags received : Z -> list Z) : Prop := forall p, 0 <= p < N -> alltoallFlags (flags <$> seqZ 0 N) p = Some (received p).

(** The state after a pass: it can be repeated, the layouts have room for exactly the leaves that are owned or marked, the halo
    requests fit together, a rank that reports success has room only for leaves that are assigned to a rank, and the leaves with
    room contain all particles in the search radius of an own particle (up to a grid cell unless the box is aligned with the grid). *)
Record passDone {E} (s : SfcKind) (k : KeyType) (coords : E -> Vec3 Q) (radius : E -> Q) (N : Z) (D D' : Z -> Domain (T := Q)) (status : Z -> Z) (sa : SfcAssignment) (gLeaves : list Z) (box : Box Q) (own ordered : Z -> list E) : Prop := {
  pd_ready : passReady s k coords N D' sa gLeaves box own ordered;
  pd_placed : placedWorld (definedKey s k coords box) k N (fun p => focusTree_ (D' p)) sa own;
  pd_layout : forall p, 0 <= p < N -> layout_ (D' p) = layoutOf (definedKey s k coords box) N (fun p => focusTree_ (D' p)) sa own p;
  pd_halos : forall p, 0 <= p < N -> halos_ (D' p) = halosOf N (fun p => leaves_ (focusTree_ (D' p))) (fun p => assignment_ (focusTree_ (D' p))) (layoutOf (definedKey s k coords box) N (fun p => focusTree_ (D' p)) sa own) p (haloEpoch_ (halos_ (D p)));
  pd_kept : forall p, 0 <= p < N -> d_myRank (D' p) = d_myRank (D p) /\ d_numRanks (D' p) = d_numRanks (D p) /\ global_ (D' p) = global_ (D p) /\ bufDesc_ (D' p) = bufDesc_ (D p) /\ haloSearchExt_ (D' p) = haloSearchExt_ (D p);
  pd_covered : forall p, 0 <= p < N -> status p = 0 -> forall i, 0 <= i < nNodes (leaves_ (focusTree_ (D' p))) -> nthz (layout_ (D' p)) i < nthz (layout_ (D' p)) (i + 1) -> covers (assignment_ (focusTree_ (D' p))) i;
  pd_near : forall p x y r d, 0 <= p < N -> gridSlack k box d -> x ∈ own p -> y ∈ particlesOf N own -> insideCoords box (coords y) -> is_Some (particleKey s k coords box y) ->
    r = (radius x * (s_ofZ 2 * haloSearchExt_ (D p))%S)%Q -> imageNear box r d (coords x) (coords y) ->
    y ∈ presentBuffer (definedKey s k coords box) N (fun p => focusTree_ (D' p)) sa own p;
  pd_geometry : forall p, 0 <= p < N -> exists t, octreeDataOf k t (octreeAcc_ (focusTree_ (D' p))) /\ leaves_ (focusTree_ (D' p)) = leafArray k t /\
    geometryArrays s k t (arrays (octreeAcc_ (focusTree_ (D' p)))) box (geoCentersAcc_ (focusTree_ (D' p))) (geoSizesAcc_ (focusTree_ (D' p)))
}.

Lemma pass_world sqrt s k {E} (coords : E -> Vec3 Q) radius junkVec junkIdx N D sa gLeaves box own ordered : passReady s k coords N D sa gLeaves box own ordered ->
  exists flags treelets rejects, forall intPeers arrivals1 arrivals2, flagsDelivered N flags intPeers -> delivered N treelets arrivals1 -> delivered N rejects arrivals2 ->
  exists counts, forall arrivals3, delivered N counts arrivals3 ->
  exists status haloFlags requests D', passDone s k coords radius N D D' status sa gLeaves box own ordered /\ forall interior arrivals4, flagsDelivered N haloFlags interior -> delivered N requests arrivals4 ->
    forall p converged centers total, 0 <= p < N ->
      syncPass sqrt s k coords radius junkVec junkIdx (ordered p) (definedKey s k coords box <$> own p) (mkPass (mkRound (intPeers p) (arrivals1 p) (arrivals2 p) (arrivals3 p) converged) centers total (interior p) (arrivals4 p)) (D p) =
        Some (inr (mkPassSent (flags p) (treelets p) (rejects p) (counts p) ([], []) (status p) (haloFlags p) (requests p) ([], []), D' p)).
Proof.
  intros Hpa. set (f1 := criteriaOf sqrt s k D sa). pose proof (criteria_ready sqrt s k coords N D sa gLeaves box own ordered Hpa) as Hu. fold f1 in Hu.
  set (lv := newLeavesOf k f1 sa gLeaves). set (pt := partsIn N sa lv). set (R := peerOf k N f1 sa gLeaves).
  exists (flagsTo k N f1 sa gLeaves), (sentTreeletsOf N lv pt R), (sentRejectsOf N lv pt R). intros intPeers arrivals1 arrivals2 H1 H2 H3.
  set (run := fun p => updateTree s k junkIdx sa gLeaves box (intPeers p) (arrivals1 p) (arrivals2 p) (f1 p)). set (g := fun p => match run p with Some (inr (_, _, _, h)) => h | _ => f1 p end). set (conv := fun p => match run p with Some (inr (c, _, _, _)) => c | _ => false end).
  assert (Hrun : forall p, 0 <= p < N -> run p = Some (inr (conv p, (flagsTo k N f1 sa gLeaves p, sentTreeletsOf N lv pt R p, sentRejectsOf N lv pt R p), ([], []), g p)) /\ updatedRank k N f1 sa gLeaves p (g p) /\ updatedMembers s k N box p (g p)).
  { intros p Hp. destruct (alltoall_get _ _ _ _ (H1 p Hp) ltac:(lia)) as [Hz Hi]. destruct (update_run s k N f1 sa gLeaves Hu junkIdx box p (intPeers p) (arrivals1 p) (arrivals2 p) Hp Hz Hi) as (c & h & E1 & Hup & Hum).
    - rewrite (H2 p Hp). apply reflexive_eq. apply (addressed_single N R (fun q r => innerKeysOf lv pt q r ++ [lastKey lv pt q r]) p Hp).
    - rewrite (H3 p Hp). apply reflexive_eq. apply (addressed_single N (fun q r => R r q) (fun q r => rejectedOf lv pt q r) p Hp).
    - unfold g, conv, run. rewrite E1. done. }
  assert (Hg : forall p, 0 <= p < N -> updatedRank k N f1 sa gLeaves p (g p) /\ updatedMembers s k N box p (g p)) by (intros p Hp; by apply Hrun).
  set (keys := keysOf s k coords box own). set (A := fun p => assignment_ (g p)). set (O := fun p => octreeAcc_ (g p)). exists (sentCellsOf 0 N A R O (knownCounts k N g R keys)). intros arrivals3 H4.
  set (W := markedOf s k coords N box own g (macsOf s k coords radius junkVec N D box own ordered g)). set (L := layoutOf (definedKey s k coords box) N W sa own).
  exists (statusOf s k coords radius junkVec N D box own ordered g), (flagsOf N (fun p => assignment_ (W p)) L), (requestsOf N (fun p => leaves_ (W p)) (fun p => assignment_ (W p)) L), (passedOf s k coords radius junkVec N D sa box own ordered g).
  split; [|intros interior arrivals4 H5 H6].
  { split.
    - by apply (passed_ready sqrt).
    - by apply (found_placed sqrt s k coords radius junkVec N D sa gLeaves box own ordered Hpa g Hg).
    - done.
    - done.
    - done.
    - intros p Hp Hs i Hi Hlt. destruct (status_run sqrt s k coords radius junkVec N D sa gLeaves box own ordered Hpa g Hg p Hp) as [_ Hc]. apply (Hc Hs i Hi). cbn [passedOf setHalos setBounds layout_] in Hlt.
    rewrite !(layoutOf_nth (definedKey s k coords box) N W sa own p) in Hlt by (cbn in Hi |- *; lia). exact Hlt.
    - intros p x y r d Hp Hsl Hx Hy Hin Hk Er Him. by apply (neighbors_present sqrt s k coords radius junkVec N D sa gLeaves box own ordered Hpa g Hg p x y r d).
    - intros p Hp. exact (um_geometry _ _ _ _ _ _ (proj2 (Hg p Hp))).
  }
  intros p converged centers total Hp. destruct (Hrun p Hp) as [Er _]. destruct (pa_domain _ _ _ _ _ _ _ _ _ _ Hpa p Hp) as (_ & _ & G1 & G2 & G3 & G4). unfold syncPass. cbn [ps_round r_intPeers r_treelets r_rejects r_counts]. rewrite G1, G2, G3, G4.
    rewrite (proj1 (criteria_run sqrt s k coords N D sa gLeaves box own ordered Hpa p Hp)). cbn [liftFocus]. cbn beta iota. fold f1. unfold run in Er. rewrite Er. cbn [liftFocus]. cbn beta iota.
    pose proof (counts_world k N g (nthz (rankBoundaries_ sa)) R gLeaves keys (updated_focus sqrt s k coords N D sa gLeaves box own ordered Hpa g Hg) (keys_ready s k coords N D sa gLeaves box own ordered Hpa) (total_counts s k coords N D sa gLeaves box own ordered Hpa) (proj2 (pa_global _ _ _ _ _ _ _ _ _ _ Hpa)) p (arrivals3 p) Hp) as Ec.
    match type of Ec with _ -> ?lhs = _ => match goal with |- context [updateCounts ?a ?b ?c ?d ?e ?f] => change (updateCounts a b c d e f) with lhs end end.
    rewrite Ec by (rewrite (H4 p Hp); apply reflexive_eq; apply (addressed_single N (fun q r => R r q) (fun q r => cellOf 0 O (knownCounts k N g R keys) q <$> nodesOf A O r q) p Hp)).
    cbn beta iota. destruct (alltoall_get _ _ _ _ (H5 p Hp) ltac:(lia)) as [Hz Hi].
    pose proof (layoutHalos_run sqrt s k coords radius junkVec N D sa gLeaves box own ordered Hpa g Hg p (mkPass (mkRound (intPeers p) (arrivals1 p) (arrivals2 p) (arrivals3 p) converged) centers total (interior p) (arrivals4 p)) Hp Hz Hi (H6 p Hp)) as El.
    match type of El with ?lhs = _ => match goal with |- context [layoutHalos ?a ?b ?c ?d ?e ?f ?h ?i ?j] => change (layoutHalos a b c d e f h i j) with lhs end end. rewrite El. done.
Qed.
