(* ===== verification/SyncFinish.v ===== *)
(** * The end of the domain update on all ranks

    The loop over the passes, the new layout and the halo exchange of [Domain::sync]: what every rank ends up with.  The tree
    view that [Domain::octreeProperties] returns then describes the buffers of the rank, and the neighbor search on it finds the
    neighbors among the particles of all ranks. *)

From Stdlib Require Import QArith Lqa.
From S2P Require Import Prelude Primitives SfcCommon Csarray CsInvariant CsRebalance CsCounts CsBuild SfcBox Morton Hilbert Sfc Octree OctreeNodes OctreeBuild OctreeQueries IndexRanges DomainDecomp Layout FocusRebalance FocusInject FocusTree FocusOps FocusUpdate GlobalTree Exchange Distribute Halos HaloExchange NodeLookup Scalars FloatBox GlobalBox Macs SourceCenter Marking ExactGeometry ExactCoords Neighbors NeighborSearch IjLoop Treelets TreeletSync TreeletWorld TreeletCells TreeletProperties FocusedOctree FocusCounts FocusTrees FocusedProperties Domain DomainLayout DomainHalos HaloSearch SyncPass.
#[local] Open Scope Z_scope.

(** What the end of the update needs of the buffers of rank [p]: the ordering gives the properties [props p] of the own
    particles, and no stale key marks a removed particle. *)
Record buffersReady {E U} (k : KeyType) (d : Domain (T := Q)) (b : Buffers (E := E) (U := U)) (own : list E) (props : list U) : Prop := {
  br_size : 0 <= bsize (bufDesc_ d);
  br_assigned : numAssigned (d_myRank d) (global_ d) = Some (zlen own);
  br_properties : zlen props = zlen own /\ exists first order, postExchangeStart (d_myRank d) (bufDesc_ d) (global_ d) = Some first /\ subspan (b_ordering b) first (zlen own) = Some order /\
    forall i, 0 <= i < zlen own -> exists j, order.[i] = Some j /\ (b_properties b).[j] = props.[i];
  br_keys : Forall (fun x => x <> removeKey k) (b_keys b)
}.

(** The arrays are resized to the new layout before the properties are gathered: every position that the ordering gives for an assigned
    particle is inside of the arrays in their new size. *)
Definition gatherFits {E U} (b : Buffers (E := E) (U := U)) (d : Domain (T := Q)) : Prop :=
  exists size first assigned order, (layout_ d).[zlen (layout_ d) - 1] = Some size /\ postExchangeStart (d_myRank d) (bufDesc_ d) (global_ d) = Some first /\ numAssigned (d_myRank d) (global_ d) = Some assigned /\
    subspan (b_ordering b) first assigned = Some order /\ Forall (fun j => j < size) order.

(** What rank [p] ends up with: the particles of all leaves that it owns or has marked, in key order, with their keys; the own
    properties at the positions of the own particles; and the layout of the new state. *)
Record syncDone {E U} (s : SfcKind) (k : KeyType) (coords : E -> Vec3 Q) (N : Z) (D' : Z -> Domain (T := Q)) (sa : SfcAssignment) (box : Box Q) (own : Z -> list E) (props : Z -> list U) (p : Z) (b' : Buffers (E := E) (U := U)) (d' : Domain (T := Q)) : Prop := {
  sd_ordered : b_ordered b' = presentBuffer (definedKey s k coords box) N (fun p => focusTree_ (D' p)) sa own p;
  sd_keys : b_keys b' = definedKey s k coords box <$> b_ordered b';
  sd_own : slice (b_ordered b') (startIndex d') (endIndex d') = own p;
  sd_properties : slice (b_properties b') (startIndex d') (endIndex d') = props p;
  sd_sizes : zlen (b_ordered b') = nParticlesWithHalos d' /\ zlen (b_properties b') = nParticlesWithHalos d';
  sd_layout : layoutAcc_ d' = layoutOf (definedKey s k coords box) N (fun p => focusTree_ (D' p)) sa own p;
  sd_focus : focusTree_ d' = focusTree_ (D' p);
  sd_range : 0 <= startIndex d' <= endIndex d' /\ endIndex d' <= zlen (b_ordered b');
  sd_called : firstCall_ d' = false;
  sd_domain : d_myRank d' = d_myRank (D' p) /\ d_numRanks d' = d_numRanks (D' p) /\ global_ d' = global_ (D' p) /\ haloSearchExt_ d' = haloSearchExt_ (D' p) /\ h_myRank (halos_ d') = p
}.

(** ** All ranks *)

(** The sum that [MPI_Allreduce] returns. *)
Definition totalOf (N : Z) (values : Z -> Z) : Z := zsum (values <$> seqZ 0 N).

Section World.
Context (sqrt : Q -> Q) (s : SfcKind) (k : KeyType) {E U : Type} (zeroE : E) (zeroU : U) (coords : E -> Vec3 Q) (radius : E -> Q) (junkE : Z -> E) (junkU : Z -> U) (junkVec : Z -> Vec3 Q) (junkIdx : Z -> Z).
Context (N : Z) (box : Box Q) (own : Z -> list E) (b : Z -> Buffers (E := E) (U := U)).

Local Abbreviation Passes := (Z -> list (Pass (Vec3 Q * Q))).
Local Abbreviation Sents := (Z -> list (PassSent (Vec3 Q * Q))).
Local Abbreviation key := (definedKey s k coords box).
Local Abbreviation step p := (syncPass sqrt s k coords radius junkVec junkIdx (b_ordered (b p)) (definedKey s k coords box <$> own p)).

(** One pass on all ranks in the states [D]: whatever the order in which the messages of each exchange arrive, every rank completes
    the pass without messages that are left, and [cont] holds of what the ranks received and sent and of their new states. *)
Definition passOn (D : Z -> Domain (T := Q)) (cont : (Z -> Pass (Vec3 Q * Q)) -> (Z -> PassSent (Vec3 Q * Q)) -> (Z -> Domain (T := Q)) -> Prop) : Prop :=
  exists flags treelets rejects, forall intPeers arrivals1 arrivals2, flagsDelivered N flags intPeers -> delivered N treelets arrivals1 -> delivered N rejects arrivals2 ->
  exists counts, forall arrivals3, delivered N counts arrivals3 ->
  exists status haloFlags requests, forall interior arrivals4, flagsDelivered N haloFlags interior -> delivered N requests arrivals4 ->
  forall converged centers, exists D',
    let pass p := mkPass (mkRound (intPeers p) (arrivals1 p) (arrivals2 p) (arrivals3 p) (converged p)) (centers p) (totalOf N status) (interior p) (arrivals4 p) in
    let sent p := mkPassSent (flags p) (treelets p) (rejects p) (counts p) ([], []) (status p) (haloFlags p) (requests p) ([], []) in
    (forall p, 0 <= p < N -> step p (pass p) (D p) = Some (inr (sent p, D' p))) /\ cont pass sent D'.

(** The loop over the passes on all ranks: it is left when the reported failures add up to 0, or after [maxRep] repetitions. *)
Fixpoint loopOn (maxRep : nat) (D : Z -> Domain (T := Q)) (passes : Passes) (sents : Sents) (cont : Passes -> Sents -> (Z -> Domain (T := Q)) -> Prop) : Prop :=
  passOn D (fun pass sent D' =>
    let passes := fun p => passes p ++ [pass p] in
    let sents := fun p => sents p ++ [sent p] in
    if totalOf N (fun p => pt_fail (sent p)) =? 0 then cont passes sents D'
    else match maxRep with O => cont passes sents D' | S maxRep => loopOn maxRep D' passes sents cont end).

(** The loop and the end of [sync] on all ranks: if no rank has reported a failure in the last pass and the gathered positions are inside of
    the resized arrays, all messages are consumed, and the buffers and the state of every rank satisfy [post]. *)
Definition syncsTo (D : Z -> Domain (T := Q)) (post : Z -> Buffers (E := E) (U := U) -> Domain (T := Q) -> Prop) : Prop :=
  loopOn 10 D (fun _ => []) (fun _ => []) (fun passes sents D' => (forall p, 0 <= p < N -> pt_fail <$> last (sents p) = Some 0) -> (forall p, 0 <= p < N -> gatherFits (b p) (D' p)) ->
    exists halos, forall arrivals, delivered N halos arrivals -> forall p, 0 <= p < N ->
      exists b' d', syncPasses s k zeroE zeroU coords junkE junkU (step p) (key <$> own p) (passes p) (arrivals p) (b p) (D p) = Some (inr (sents p, halos p, [], b', d')) /\ post p b' d').

Lemma passOn_mono D (cont cont' : (Z -> Pass (Vec3 Q * Q)) -> (Z -> PassSent (Vec3 Q * Q)) -> (Z -> Domain (T := Q)) -> Prop) :
  (forall pass sent D', (forall p, 0 <= p < N -> step p (pass p) (D p) = Some (inr (sent p, D' p))) -> (forall p, ps_fail (pass p) = totalOf N (fun q => pt_fail (sent q))) -> cont pass sent D' -> cont' pass sent D') -> passOn D cont -> passOn D cont'.
Proof using.
  intros Hm (flags & treelets & rejects & H). exists flags, treelets, rejects. intros intPeers arrivals1 arrivals2 A1 A2 A3. destruct (H intPeers arrivals1 arrivals2 A1 A2 A3) as (counts & H'). exists counts. intros arrivals3 A4. destruct (H' arrivals3 A4) as (status & haloFlags & requests & Hrun). exists status, haloFlags, requests.
  intros interior arrivals4 A5 A6 converged centers. destruct (Hrun interior arrivals4 A5 A6 converged centers) as (D' & Hs & Hc). exists D'. split; [exact Hs|]. apply Hm; [exact Hs|done|exact Hc].
Qed.

Lemma loopOn_mono n : forall D passes sents (cont cont' : Passes -> Sents -> (Z -> Domain (T := Q)) -> Prop), (forall passes sents D', cont passes sents D' -> cont' passes sents D') -> loopOn n D passes sents cont -> loopOn n D passes sents cont'.
Proof using.
  induction n as [|n IH]; intros D passes sents cont cont' Hm; cbn [loopOn]; apply passOn_mono; intros pass sent D' _ _; cbn zeta; (destruct (_ =? 0); [by apply Hm|]); [by apply Hm|]. by apply IH.
Qed.

Lemma syncsTo_mono D (post post' : Z -> Buffers -> Domain -> Prop) : (forall p b' d', 0 <= p < N -> post p b' d' -> post' p b' d') -> syncsTo D post -> syncsTo D post'.
Proof using.
  intros Hm. apply loopOn_mono. intros passes sents D' Hc Hs Hg. destruct (Hc Hs Hg) as (halos & H). exists halos. intros arrivals Ha p Hp. destruct (H arrivals Ha p Hp) as (b' & d' & Er & Hpost). exists b', d'. split; [exact Er|]. by apply Hm.
Qed.

Context (sa : SfcAssignment) (gLeaves : list Z) (props : Z -> list U).
Local Abbreviation ordered := (fun p => b_ordered (b p)).

Lemma passOn_world D : passReady s k coords N D sa gLeaves box own ordered ->
  passOn D (fun _ sent D' => passDone s k coords radius N D D' (fun p => pt_fail (sent p)) sa gLeaves box own ordered).
Proof using.
  intros Hpa. destruct (pass_world sqrt s k coords radius junkVec junkIdx N D sa gLeaves box own ordered Hpa) as (flags & treelets & rejects & H). exists flags, treelets, rejects. intros intPeers arrivals1 arrivals2 A1 A2 A3.
  destruct (H intPeers arrivals1 arrivals2 A1 A2 A3) as (counts & H'). exists counts. intros arrivals3 A4. destruct (H' arrivals3 A4) as (status & haloFlags & requests & D' & Hd & Hrun). exists status, haloFlags, requests. intros interior arrivals4 A5 A6 converged centers.
  exists D'. split; [intros p Hp; by apply Hrun|exact Hd].
Qed.

(** The end of the update after a pass in which no rank has failed. *)
Lemma finish_world D D' status : passDone s k coords radius N D D' status sa gLeaves box own ordered -> (forall p, 0 <= p < N -> status p = 0) -> (forall p, 0 <= p < N -> gatherFits (b p) (D' p)) -> (forall p, 0 <= p < N -> buffersReady k (D p) (b p) (own p) (props p)) ->
  Forall (fun x => is_Some (particleKey s k coords box x) /\ key x <> removeKey k) (particlesOf N own) ->
  exists halos, forall arrivals, delivered N halos arrivals -> forall p, 0 <= p < N -> exists b' d', finishSync s k zeroE zeroU coords junkE junkU (key <$> own p) (arrivals p) (b p) (D' p) = Some (inr (halos p, [], b', d')) /\ syncDone s k coords N D' sa box own props p b' d'.
Proof using.
  intros Hd Hs Hfit Hb Hdef. set (F := fun p => focusTree_ (D' p)). pose proof (pd_placed _ _ _ _ _ _ _ _ _ _ _ _ _ Hd) as Hw. fold F in Hw.
  assert (Hr : forall p, 0 <= p < N -> finishReady s k coords N D' b sa own props box p).
  { intros p Hp. destruct (Hb p Hp) as [B1 B2 B3 B4]. destruct (pd_kept _ _ _ _ _ _ _ _ _ _ _ _ _ Hd p Hp) as (K0 & _ & K1 & K2 & _). destruct (pa_domain _ _ _ _ _ _ _ _ _ _ (pd_ready _ _ _ _ _ _ _ _ _ _ _ _ _ Hd) p Hp) as (G1 & _ & _ & G2 & _). rewrite <- K0, G1 in B2, B3.
    pose proof (pd_halos _ _ _ _ _ _ _ _ _ _ _ _ _ Hd p Hp) as Eh. destruct (pa_ordered _ _ _ _ _ _ _ _ _ _ (pd_ready _ _ _ _ _ _ _ _ _ _ _ _ _ Hd) p Hp) as [[O1 _] O2]. split; rewrite ?K1, ?K2; try done.
    - by rewrite K1 in G2.
    - by apply (pd_layout _ _ _ _ _ _ _ _ _ _ _ _ _ Hd).
    - rewrite Eh. done.
    - destruct B3 as (P1 & first & order & P2 & P3 & P4). split; [done|]. exists first, order. split; [done|]. split; [done|]. intros i Hi. destruct (P4 i Hi) as (j & E1 & E2). exists j. split; [done|]. split; [|done].
      destruct (Hfit p Hp) as (size & first' & assigned & order' & F1 & F2 & F3 & F4 & F5). rewrite K1 in F2, F3. rewrite K2 in F2. rewrite G1 in F2, F3. rewrite P2 in F2. injection F2 as <-. rewrite B2 in F3. injection F3 as <-. rewrite P3 in F4. injection F4 as <-.
      rewrite (pd_layout _ _ _ _ _ _ _ _ _ _ _ _ _ Hd p Hp) in F1. fold F in F1. pose proof (zlen_layoutOf key k N F sa own Hw p Hp) as Hzl. pose proof (nodes_pos key k N F sa own Hw p Hp) as Hpos. cbn beta in Hzl, Hpos. rewrite Hzl, Z.add_simpl_r, (layoutOf_get key N F sa own p) in F1 by lia. injection F1 as <-.
      rewrite Forall_forall in F5. apply F5. by eapply aget_elem. }
  assert (Hcov : forall q i, 0 <= q < N -> 0 <= i < nNodes (leaves_ (F q)) -> offsetOf key N F sa own q i < offsetOf key N F sa own q (i + 1) -> covers (assignment_ (F q)) i).
  { intros q i Hq Hi Hlt. apply (pd_covered _ _ _ _ _ _ _ _ _ _ _ _ _ Hd q Hq (Hs q Hq) i Hi). rewrite (pd_layout _ _ _ _ _ _ _ _ _ _ _ _ _ Hd q Hq). fold F. rewrite !(layoutOf_nth key N F sa own q) by lia. done. }
  exists (sentHalos s k coords N D' sa own box). intros arrivals Ha p Hp.
  destruct (finish_run s k zeroE zeroU coords junkE junkU N D' b sa own props box Hw Hr Hcov Hdef p (arrivals p) Hp (Ha p Hp)) as (b' & d' & Er & Eo & Ek & Hzp & Hsp & _ & Ed). exists b', d'. split; [exact Er|]. subst d'.
  pose proof (presentBuffer_own key k N F sa own Hw p Hp) as Hown. destruct (mine_range key k N F sa own Hw p Hp) as (M1 & M2 & _). split; try done.
  - by rewrite Ek, Eo.
  - by rewrite Eo.
  - split; [by rewrite Eo|done].
  - rewrite Eo, zlen_presentBuffer. split; [split; [apply zlen_nonneg|]|]; apply (offset_mono key N F sa own p); cbn beta in *; unfold F in *; lia.
Qed.

(** What a repetition of the loop knows about the state [D] after the passes [passes], which began in [D0]. *)
Record loopReady (D0 D : Z -> Domain (T := Q)) (n : nat) (passes : Passes) (sents : Sents) : Prop := {
  lr_ready : passReady s k coords N D sa gLeaves box own ordered;
  lr_kept : forall p, 0 <= p < N -> d_myRank (D p) = d_myRank (D0 p) /\ d_numRanks (D p) = d_numRanks (D0 p) /\ global_ (D p) = global_ (D0 p) /\ bufDesc_ (D p) = bufDesc_ (D0 p) /\ haloSearchExt_ (D p) = haloSearchExt_ (D0 p);
  lr_passes : forall p rest, 0 <= p < N -> passLoop (step p) 10 (passes p ++ rest) (D0 p) = (let! (more, d) := passLoop (step p) n rest (D p) in Some (inr (sents p ++ more, d)))
}.

Lemma loopReady_start D : passReady s k coords N D sa gLeaves box own ordered -> loopReady D D 10 (fun _ => []) (fun _ => []).
Proof using. intros Hpa. split; [done|done|]. intros p rest Hp. cbn [app]. by destruct (passLoop (step p) 10 rest (D p)) as [[|[]]|]. Qed.

(** A completed pass is the last one of the loop or it is followed by another one. *)
Lemma loop_last D0 D D' n passes sents pass sent p : loopReady D0 D n passes sents -> 0 <= p < N -> step p (pass p) (D p) = Some (inr (sent p, D' p)) -> ps_fail (pass p) = 0 \/ n = O ->
  passLoop (step p) 10 (passes p ++ [pass p]) (D0 p) = Some (inr (sents p ++ [sent p], D' p)).
Proof using. intros [_ _ Hl] Hp Hs Hn. rewrite (Hl p [pass p] Hp). destruct n; cbn [passLoop]; rewrite Hs; cbn beta iota; (destruct Hn as [->|?]; [done|]); [by destruct (_ =? 0)|done]. Qed.

Lemma loop_next D0 D D' n passes sents pass sent status : loopReady D0 D (S n) passes sents -> passDone s k coords radius N D D' status sa gLeaves box own ordered ->
  (forall p, 0 <= p < N -> step p (pass p) (D p) = Some (inr (sent p, D' p))) -> (forall p, ps_fail (pass p) <> 0) -> loopReady D0 D' n (fun p => passes p ++ [pass p]) (fun p => sents p ++ [sent p]).
Proof using.
  intros [_ Hk Hl] Hd Hs Hf. split; [apply Hd| |].
  - intros p Hp. destruct (Hk p Hp) as (<- & <- & <- & <- & <-). exact (pd_kept _ _ _ _ _ _ _ _ _ _ _ _ _ Hd p Hp).
  - intros p rest Hp. rewrite <- app_assoc, (Hl p _ Hp). cbn [app passLoop]. rewrite (Hs p Hp). cbn beta iota. rewrite (proj2 (Z.eqb_neq _ _) (Hf p)). destruct (passLoop (step p) n rest (D' p)) as [[|[more d]]|]; [done| |done]. by rewrite <- app_assoc.
Qed.

Lemma loop_world D0 (cont : Passes -> Sents -> (Z -> Domain (T := Q)) -> Prop) :
  (forall D D' passes sents pass sent, (exists n, loopReady D0 D n passes sents) -> passDone s k coords radius N D D' (fun p => pt_fail (sent p)) sa gLeaves box own ordered ->
    (forall p, 0 <= p < N -> passLoop (step p) 10 (passes p ++ [pass p]) (D0 p) = Some (inr (sents p ++ [sent p], D' p))) -> cont (fun p => passes p ++ [pass p]) (fun p => sents p ++ [sent p]) D') ->
  forall n D passes sents, loopReady D0 D n passes sents -> loopOn n D passes sents cont.
Proof using.
  intros Hc. induction n as [|n IH]; intros D passes sents Hl; cbn [loopOn]; (eapply passOn_mono; [|apply passOn_world, Hl]); cbn beta zeta; intros pass sent D' Hs Hf Hd.
  - assert (Hg : cont (fun p => passes p ++ [pass p]) (fun p => sents p ++ [sent p]) D') by (eapply Hc; [by eexists|exact Hd|]; intros p Hp; eapply loop_last; [exact Hl|done|by apply Hs|by right]). by destruct (_ =? 0).
  - destruct (Z.eqb_spec (totalOf N (fun p => pt_fail (sent p))) 0) as [E0|E0].
    + eapply Hc; [by eexists|exact Hd|]. intros p Hp. eapply loop_last; [exact Hl|done|by apply Hs|left; by rewrite Hf].
    + apply IH. eapply loop_next; [exact Hl|exact Hd|exact Hs|]. intros p. by rewrite Hf.
Qed.

(** From the state [D] of all ranks, the update ends in buffers that hold what the ranks need. *)
Lemma syncPasses_all D : passReady s k coords N D sa gLeaves box own ordered -> (forall p, 0 <= p < N -> buffersReady k (D p) (b p) (own p) (props p)) ->
  Forall (fun x => is_Some (particleKey s k coords box x) /\ key x <> removeKey k) (particlesOf N own) ->
  loopOn 10 D (fun _ => []) (fun _ => []) (fun passes sents D' => (forall p, 0 <= p < N -> pt_fail <$> last (sents p) = Some 0) -> (forall p, 0 <= p < N -> gatherFits (b p) (D' p)) ->
    exists D1 status, passDone s k coords radius N D1 D' status sa gLeaves box own ordered /\
      (forall p, 0 <= p < N -> d_myRank (D1 p) = d_myRank (D p) /\ d_numRanks (D1 p) = d_numRanks (D p) /\ global_ (D1 p) = global_ (D p) /\ bufDesc_ (D1 p) = bufDesc_ (D p) /\ haloSearchExt_ (D1 p) = haloSearchExt_ (D p)) /\
      exists halos, forall arrivals, delivered N halos arrivals -> forall p, 0 <= p < N ->
        exists b' d', syncPasses s k zeroE zeroU coords junkE junkU (step p) (key <$> own p) (passes p) (arrivals p) (b p) (D p) = Some (inr (sents p, halos p, [], b', d')) /\ syncDone s k coords N D' sa box own props p b' d').
Proof using.
  intros Hpa Hb Hdef. apply (loop_world D); [|by apply loopReady_start]. intros D1 D' passes sents pass sent [n [Hr Hk _]] Hd Hrun Hs Hfit.
  assert (Hs' : forall p, 0 <= p < N -> pt_fail (sent p) = 0) by (intros p Hp; specialize (Hs p Hp); rewrite last_snoc in Hs; by injection Hs).
  exists D1, (fun p => pt_fail (sent p)). split; [exact Hd|]. split; [exact Hk|]. destruct (finish_world D1 D' _ Hd Hs' Hfit) as (halos & Hfin); [|done|].
  - intros p Hp. destruct (Hk p Hp) as (K0 & _ & K1 & K2 & _). destruct (Hb p Hp) as [B1 B2 B3 B4]. split; rewrite ?K0, ?K1, ?K2; done.
  - exists halos. intros arrivals Ha p Hp. destruct (Hfin arrivals Ha p Hp) as (b' & d' & Er & Hsd). exists b', d'. unfold syncPasses. rewrite (Hrun p Hp). cbn beta iota. rewrite Er. done.
Qed.

Lemma syncPasses_world D : passReady s k coords N D sa gLeaves box own ordered -> (forall p, 0 <= p < N -> buffersReady k (D p) (b p) (own p) (props p)) ->
  Forall (fun x => is_Some (particleKey s k coords box x) /\ key x <> removeKey k) (particlesOf N own) ->
  syncsTo D (fun p b' d' => exists D1 D' status, passDone s k coords radius N D1 D' status sa gLeaves box own ordered /\ haloSearchExt_ (D1 p) = haloSearchExt_ (D p) /\ syncDone s k coords N D' sa box own props p b' d').
Proof using.
  intros Hpa Hb Hdef. eapply loopOn_mono; [|by apply syncPasses_all]. cbn beta. intros passes sents D' H Hs Hfit. destruct (H Hs Hfit) as (D1 & status & Hd & Hk & halos & Hrun). exists halos. intros arrivals Ha p Hp. destruct (Hrun arrivals Ha p Hp) as (b' & d' & Er & Hsd). exists b', d'. split; [exact Er|]. exists D1, D', status. split; [exact Hd|]. split; [apply (Hk p Hp)|exact Hsd].
Qed.

End World.

(** ** Neighbor search on the result *)


(** *** Positions *)

(** The elements at the positions that a test selects. *)
Lemma filter_positions {A} (P : A -> Prop) `{!forall x, Decision (P x)} (get : Z -> option A) (test : Z -> bool) : forall (l : list A) a, (forall i x, l.[i] = Some x -> get (a + i) = Some x /\ (test (a + i) = true <-> P x)) ->
  omap get (filter (fun j => test j = true) (seqZ a (zlen l))) = filter P l.
Proof.
  induction l as [|x l IH]; intros a Ht; [done|]. pose proof (zlen_nonneg l). rewrite seqZ_cons by (rewrite zlen_cons; lia). replace (Z.pred (zlen (x :: l))) with (zlen l) by (rewrite zlen_cons; lia). rewrite !filter_cons.
  destruct (Ht 0 x eq_refl) as [E1 E2]. rewrite Z.add_0_r in E1, E2. assert (Erest : omap get (filter (fun j => test j = true) (seqZ (Z.succ a) (zlen l))) = filter P l).
  { apply IH. intros i y Hi. pose proof (aget_Some_range _ _ _ Hi). replace (Z.succ a + i) with (a + (i + 1)) by lia. apply Ht. by rewrite aget_cons_S, Z.add_simpl_r by lia. }
  destruct (decide (test a = true)) as [Ha|Ha], (decide (P x)) as [Hx|Hx]; [|tauto|tauto|done]. cbn [omap list_omap]. by rewrite E1, Erest.
Qed.

(** Leaving one position out. *)
Lemma filter_absent (test : Z -> bool) i (l : list Z) : i ∉ l -> filter (fun j => negb (j =? i) && test j = true) l = filter (fun j => test j = true) l.
Proof. induction l as [|a l IH]; intros Hni; [done|]. apply not_elem_of_cons in Hni as [Hne Hni]. rewrite !filter_cons, IH by done. destruct (Z.eqb_spec a i) as [->|]; done. Qed.

Lemma filter_others (test : Z -> bool) i (l : list Z) : NoDup l -> i ∈ l -> test i = true -> filter (fun j => test j = true) l ≡ₚ i :: filter (fun j => negb (j =? i) && test j = true) l.
Proof.
  induction l as [|a l IH]; intros Hnd Hi Ht; [by apply not_elem_of_nil in Hi|]. apply NoDup_cons in Hnd as [Hni Hnd]. rewrite !filter_cons. destruct (Z.eqb_spec a i) as [->|Hne].
  - rewrite decide_True by done. rewrite decide_False by done. by rewrite filter_absent.
  - apply elem_of_cons in Hi as [->|Hi]; [done|]. cbn [negb andb]. destruct (decide (test a = true)); rewrite (IH Hnd Hi Ht); [apply perm_swap|done].
Qed.

(** *** The view *)

(** The closest images of [x] and [y] are closer than twice the smoothing length of [x]. *)
Definition interacting {E} (coords : E -> Vec3 Q) (radius : E -> Q) (box : Box Q) (x y : E) : bool := Exact.ltb (distPbc box (coords x) (coords y)) (s_ofZ 4 * radius x * radius x)%S.


Section Synced.
Context (s : SfcKind) (k : KeyType) {E U : Type} (coords : E -> Vec3 Q) (radius : E -> Q) (N : Z) (D D' : Z -> Domain (T := Q)) (status : Z -> Z) (sa : SfcAssignment) (gLeaves : list Z) (box : Box Q) (own ordered : Z -> list E) (props : Z -> list U).
Context (p : Z) (b' : Buffers (E := E) (U := U)) (d' : Domain (T := Q)).
Hypothesis Hd : passDone s k coords radius N D D' status sa gLeaves box own ordered.
Hypothesis Hp : 0 <= p < N.
Hypothesis Hsd : syncDone s k coords N D' sa box own props p b' d'.
Hypothesis Hal : alignedBox k box.
Hypothesis Hin : Forall (fun x => insideCoords box (coords x) /\ is_Some (particleKey s k coords box x)) (particlesOf N own).

Local Abbreviation key := (definedKey s k coords box).
Local Abbreviation F := (fun p => focusTree_ (D' p)).
Let Hw : placedWorld key k N F sa own := pd_placed _ _ _ _ _ _ _ _ _ _ _ _ _ Hd.

Lemma synced_view : exists t, searchWorld s k t (arrays (octreeAcc_ (focusTree_ d'))) box (octreeProperties d') (coords <$> b_ordered b') /\
  nthz (layoutAcc_ d') 0 = 0 /\ nthz (layoutAcc_ d') (zlen (leafKeys 1 t)) = zlen (b_ordered b').
Proof using Hd Hp Hsd Hal Hin.
  destruct (pd_geometry _ _ _ _ _ _ _ _ _ _ _ _ _ Hd p Hp) as (t & Ho & El & Hgeo). exists t. pose proof (sd_focus _ _ _ _ _ _ _ _ _ _ _ _ Hsd) as Ef. pose proof (sd_layout _ _ _ _ _ _ _ _ _ _ _ _ Hsd) as Ela. pose proof (sd_ordered _ _ _ _ _ _ _ _ _ _ _ _ Hsd) as Eo.
  pose proof (nNodes_leafArray k t) as Hn. rewrite <- El in Hn. pose proof (zlen_layoutOf key k N F sa own Hw p Hp) as Hzl. pose proof (nodes_pos key k N F sa own Hw p Hp) as Hpos. cbn beta in Hzl, Hpos. pose proof (zlen_presentBuffer key N F sa own p) as Hzb. cbn beta in Hzb.
  split; [|rewrite Ela, Eo, Hzb, <- Hn, !(layoutOf_nth key N F sa own p) by lia; done].
  split; cbn [octreeProperties ns_childOffsets ns_parents ns_internalToLeaf ns_centers ns_sizes ns_searchExtFactor ns_layout]; rewrite ?Ef, ?Ela.
  - apply Ho.
  - apply Ho.
  - apply (pa_box _ _ _ _ _ _ _ _ _ _ (pd_ready _ _ _ _ _ _ _ _ _ _ _ _ _ Hd)).
  - done.
  - done.
  - done.
  - exact Hgeo.
  - apply Qle_refl.
  - intros i j x y Hij Hx Hy. pose proof (aget_Some_range _ _ _ Hx). pose proof (aget_Some_range _ _ _ Hy). rewrite (layoutOf_get key N F sa own p) in Hx, Hy by lia. injection Hx as <-. injection Hy as <-. apply (offset_mono key N F sa own p). lia.
  - lia.
  - apply Forall_forall. intros a (j & -> & Hj%elem_of_seqZ)%list_elem_of_fmap. rewrite zlen_map, Eo, Hzb. split; [apply zlen_nonneg|]. apply (offset_mono key N F sa own p). cbn beta in *. lia.
  - rewrite zlen_map, Eo, Hzb. apply (total_offset key k N F sa own Hw p Hp).
  - intros j q a y Hq Ha Hy. pose proof (aget_Some_range _ _ _ Hq) as Hj. rewrite !(layoutOf_nth key N F sa own p) in Ha by lia. rewrite aget_map, Eo in Hy. destruct (presentBuffer key N F sa own p).[a] as [e|] eqn:Ee; [|done]. injection Hy as <-.
    pose proof (presentBuffer_leaf key N F sa own p j a e ltac:(cbn beta; lia) Ha Ee) as He. unfold leafParticles, particlesIn in He. apply list_elem_of_filter in He as [Hk He]. rewrite Forall_forall in Hin. destruct (Hin e He) as [Hb [ke Hke]].
    destruct (leafArray_leaf k t (od_depth _ _ _ Ho) j q Hq) as (E1 & E2 & _). cbn beta in Hk. rewrite El, (nthz_Some _ _ _ E1), (nthz_Some _ _ _ E2) in Hk. unfold definedKey in Hk. rewrite Hke in Hk. cbn in Hk.
    apply (point_in_node s k box (coords e) ke q (pa_box _ _ _ _ _ _ _ _ _ _ (pd_ready _ _ _ _ _ _ _ _ _ _ _ _ _ Hd)) Hal Hb Hke); [|exact Hk]. apply (key_treeNode k t (od_depth _ _ _ Ho)). apply elem_of_app. right. by eapply aget_elem.
Qed.

Lemma interacting_within x y : interacting coords radius box x y = true <-> imageWithin box (s_ofZ 4 * radius x * radius x)%S (coords x) (coords y).
Proof using Hd. unfold interacting. rewrite ltb_lt. apply imageWithin_iff. apply (pa_box _ _ _ _ _ _ _ _ _ _ (pd_ready _ _ _ _ _ _ _ _ _ _ _ _ _ Hd)). Qed.

(** The buffers hold all particles of all ranks that interact with an own particle. *)
Lemma synced_interacting x : x ∈ own p -> (0 <= radius x)%Q -> (1 <= haloSearchExt_ (D p))%Q ->
  filter (fun y => interacting coords radius box x y = true) (b_ordered b') = filter (fun y => interacting coords radius box x y = true) (particlesOf N own).
Proof using Hd Hp Hsd Hal Hin.
  intros Hx Hr Hext. rewrite (sd_ordered _ _ _ _ _ _ _ _ _ _ _ _ Hsd). apply (presentBuffer_filter key k N F sa own Hw); [done|]. intros y Hy (nx & ny & nz & Px & Py & Pz & Hd2)%interacting_within. rewrite Forall_forall in Hin. destruct (Hin y Hy) as [Hyin Hyk].
  set (r := (radius x * (s_ofZ 2 * haloSearchExt_ (D p))%S)%Q). assert (Hr2 : (2 * radius x <= r)%Q). { unfold r. cbn [s_mul s_ofZ Exact.scalar]. change (inject_Z 2) with 2%Q. assert (Hm : (radius x * 1 <= radius x * haloSearchExt_ (D p))%Q) by (rewrite !(Qmult_comm (radius x)); by apply Qmult_le_compat_r). assert (Er : (radius x * (2 * haloSearchExt_ (D p)) == 2 * (radius x * haloSearchExt_ (D p)))%Q) by ring. lra. }
  apply (pd_near _ _ _ _ _ _ _ _ _ _ _ _ _ Hd p x y r zeroVec Hp (or_intror (conj Hal eq_refl)) Hx Hy Hyin Hyk eq_refl). apply imageWithin_near; [lra|]. exists nx, ny, nz. do 3 (split; [done|]). cbn zeta in Hd2 |- *. eapply Qlt_le_trans; [exact Hd2|]. cbn [s_mul s_ofZ Exact.scalar]. change (inject_Z 4) with 4%Q.
  assert (H1 : (2 * radius x * (2 * radius x) <= r * (2 * radius x))%Q) by (apply Qmult_le_compat_r; lra). assert (H2 : (r * (2 * radius x) <= r * r)%Q) by (rewrite !(Qmult_comm r); apply Qmult_le_compat_r; lra). assert (E4 : (4 * radius x * radius x == 2 * radius x * (2 * radius x))%Q) by ring. lra.
Qed.

Lemma synced_search i x ngmax base stride nbs : startIndex d' <= i < endIndex d' -> (b_ordered b').[i] = Some x -> (0 < radius x)%Q -> (1 <= haloSearchExt_ (D p))%Q ->
  1 <= stride -> 0 <= base -> base + (ngmax - 1) * stride < zlen nbs -> zlen nbs < 2 ^ 64 ->
  exists found nbs', findNeighbors i (xs coords (b_ordered b')) (ys coords (b_ordered b')) (zs coords (b_ordered b')) (perParticle (hs radius (b_ordered b'))) (octreeProperties d') box ngmax nbs base stride = Some (zlen found, nbs') /\
    listed ngmax base stride found nbs nbs' /\ Forall (fun j => 0 <= j < zlen (b_ordered b')) found /\
    x :: omap (fun j => (b_ordered b').[j]) found ≡ₚ filter (fun y => interacting coords radius box x y = true) (particlesOf N own).
Proof using Hd Hp Hsd Hal Hin.
  intros Hi Hx Hr Hext Hst Hb Hroom Hsize. destruct synced_view as (t & Hv & L0 & L1). set (l := b_ordered b') in *. destruct (sd_range _ _ _ _ _ _ _ _ _ _ _ _ Hsd) as [R1 R2]. fold l in R2.
  assert (Ex : (coords <$> l).[i] = Some (coords x)) by by rewrite aget_map, Hx. destruct (findNeighbors_run Hv i (coords x) (radius x) ngmax base stride ltac:(lra) (perParticle (hs radius l)) nbs Ex) as (nbs' & Ef & Hl); [unfold loadAtIndexIfPtr, hs; by rewrite aget_map, Hx|done|done|done|done|].
  rewrite <- !list_fmap_compose in Ef. eexists _, nbs'. split; [exact Ef|]. split; [exact Hl|].
  assert (Es : searched (t := t) (tree := octreeProperties d') = seqZ 0 (zlen l)). { unfold searched. cbn [octreeProperties ns_layout]. rewrite L0, L1. by rewrite Z.sub_0_r. }
  assert (Hxo : x ∈ own p). { rewrite <- (sd_own _ _ _ _ _ _ _ _ _ _ _ _ Hsd). apply (aget_elem _ (i - startIndex d')). rewrite slice_get by lia. fold l. rewrite <- Hx. f_equal. lia. }
  unfold neighborsOf. rewrite Es. split; [apply Forall_forall; intros j [_ Hj%elem_of_seqZ]%list_elem_of_filter; lia|].
  rewrite <- (synced_interacting x Hxo ltac:(lra) Hext). fold l. set (test := fun j => match l.[j] with Some y => interacting coords radius box x y | None => false end).
  rewrite <- (filter_positions (fun y => interacting coords radius box x y = true) (fun j => l.[j]) test l 0) by (intros j y Hj; rewrite Z.add_0_l; unfold test; by rewrite Hj).
  assert (Hself : interacting coords radius box x x = true). { apply interacting_within. exists 0, 0, 0. do 3 (split; [by right|]). cbn zeta. cbn [s_mul s_ofZ Exact.scalar]. change (inject_Z 4) with 4%Q. change (inject_Z 0) with 0%Q. assert (Hm : (0 < radius x * radius x)%Q) by by apply Qmult_lt_0_compat.
    assert (E4 : (4 * radius x * radius x == 4 * (radius x * radius x))%Q) by ring. rewrite E4. ring_simplify. lra. }
  rewrite (filter_others test i (seqZ 0 (zlen l)) (NoDup_seqZ 0 (zlen l))); [|apply elem_of_seqZ; lia|unfold test; by rewrite Hx]. cbn [omap list_omap]. rewrite Hx. constructor. apply reflexive_eq. f_equal. apply list_filter_iff. intros j. unfold isNeighbor, test. rewrite aget_map. by destruct l.[j].
Qed.

End Synced.
