(* ===== verification/SyncDistribute.v ===== *)
(** * The distribution of the particles on all ranks

    The first part of [Domain::sync]: global box, keys, global tree, assignment and exchange of the particles, and the arrays that are
    reordered for halo discovery.  On all ranks it establishes what the passes of the loop rely on. *)

From Stdlib Require Import QArith.
From S2P Require Import Prelude Primitives SfcCommon Csarray CsInvariant CsRebalance CsCounts CsBuild CsUtil SfcBox Morton Hilbert Sfc Octree OctreeNodes OctreeBuild OctreeQueries IndexRanges DomainDecomp Layout FocusRebalance FocusInject FocusTree FocusOps FocusUpdate GlobalTree Exchange Distribute Halos HaloExchange NodeLookup Scalars FloatBox GlobalBox Macs SourceCenter Marking ExactGeometry ExactCoords Neighbors NeighborSearch IjLoop Treelets TreeletSync TreeletWorld TreeletCells FocusedOctree FocusCounts FocusTrees FocusedProperties Domain DomainLayout DomainHalos HaloSearch SyncPass SyncFinish.
#[local] Open Scope Z_scope.

(** ** Buffers of one rank *)

(** One value per rank. *)
Lemma ranks_choice {A} (d : A) (P : Z -> A -> Prop) N : (forall p, 0 <= p < N -> exists a, P p a) -> exists f, forall p, 0 <= p < N -> P p (f p).
Proof.
  intros H. destruct (Z.le_gt_cases N 0) as [Hn|Hn]; [exists (fun _ => d); intros p Hp; lia|]. revert H. apply (natlike_ind (fun N => (forall p, 0 <= p < N -> exists a, P p a) -> exists f, forall p, 0 <= p < N -> P p (f p))); [|clear N Hn|lia].
  - intros _. exists (fun _ => d). intros p Hp. lia.
  - intros N HN IH H. destruct IH as [f Hf]; [intros p Hp; apply H; lia|]. destruct (H N ltac:(lia)) as [a Ha]. exists (fun p => if decide (p = N) then a else f p). intros p Hp. case_decide as Hd; [by subst|apply Hf; lia].
Qed.

(** The size of the exchange buffer. *)
Lemma exchangeSize_run o present assigned : 0 <= bstart o <= bend o -> bend o <= bsize o < 4294967296 -> 0 <= assigned - present -> bend o + (assigned - present) < 4294967296 ->
  let size := exchangeBufferSize o present assigned in bsize o <= size < 4294967296 /\ exchangeBufferSize (mkBufferDescription (bstart o) (bend o) size) present assigned = size.
Proof.
  intros H1 H2 H3 H4 size. unfold size, exchangeBufferSize. rewrite (u32_small (assigned - present)) by lia. rewrite (u32_small (bsize o - bend o)) by lia. set (n := assigned - present) in *. cbn [bstart bend bsize].
  destruct ((n <=? bstart o) || (n <=? bsize o - bend o)) eqn:E.
  - split; [lia|]. rewrite u32_small by lia. by rewrite E.
  - apply orb_false_iff in E as [E1%Z.leb_gt E2%Z.leb_gt]. rewrite (u32_small (bend o + n)) by lia. split; [lia|]. rewrite u32_small by lia. replace (bend o + n - bend o) with n by lia. by rewrite Z.leb_refl, orb_true_r.
Qed.

(** Keys in a buffer that grows: new elements are 0. *)
Lemma grownKeys_run keys n : zlen keys <= n -> exists keys', fillFrom (zlen keys) n 0 (aresize 0 keys n) = Some keys' /\ zlen keys' = n /\ (forall i, 0 <= i < zlen keys -> keys'.[i] = keys.[i]) /\ forall i, zlen keys <= i < n -> keys'.[i] = Some 0.
Proof.
  intros Hn. pose proof (zlen_nonneg keys). assert (Hz : zlen (aresize 0 keys n) = n) by (apply zlen_aresize; lia). unfold fillFrom. set (vals := replicate _ 0). assert (Hv : zlen vals = n - zlen keys) by (unfold zlen, vals; rewrite length_replicate; unfold zlen in *; lia).
  destruct (writeFrom_written vals (aresize 0 keys n) (zlen keys)) as (l & -> & Hw); [lia|lia|]. exists l. destruct Hw as [W1 W2 W3]. split; [done|]. split; [lia|]. split.
  - intros i Hi. rewrite W3 by lia. apply aresize_get; lia.
  - intros i Hi. replace i with (zlen keys + (i - zlen keys)) by lia. rewrite W2 by lia. unfold vals. rewrite aget_lookup by lia. apply lookup_replicate_2. unfold zlen in *. lia.
Qed.

Lemma removeKey_pos k : removeKey k <> 0.
Proof. by destruct k. Qed.

Lemma zip_get {A B} (l : list A) (m : list B) i : zlen l = zlen m -> (zip l m).[i] = (let? x := l.[i] in let? y := m.[i] in Some (x, y)).
Proof.
  intros Hz. destruct (decide (0 <= i < zlen l)) as [Hi|Hi].
  - destruct (aget_is_Some l i Hi) as [x Hx]. destruct (aget_is_Some m i ltac:(lia)) as [y Hy]. rewrite Hx, Hy. cbn beta iota. rewrite aget_lookup in Hx by lia. rewrite aget_lookup in Hy by lia. rewrite aget_lookup by lia. apply lookup_zip_with_Some. by exists x, y.
  - rewrite !(aget_None l) by lia. apply aget_None. unfold zlen in *. rewrite length_zip. lia.
Qed.

Lemma filter_map_zlen {A B} (f : A -> B) (P : B -> Prop) `{!forall y, Decision (P y)} (l : list A) : zlen (filter P (f <$> l)) = zlen (filter (fun x => P (f x)) l).
Proof. induction l as [|x l IH]; [done|]. rewrite fmap_cons, !filter_cons. destruct (decide (P (f x))); rewrite ?zlen_cons; by rewrite IH. Qed.

(** Every element has one rank. *)
Lemma bind_cons_one {A} (g : Z -> list A) x r (js : list Z) : NoDup js -> r ∈ js -> js ≫= (fun p => if decide (r = p) then x :: g p else g p) ≡ₚ x :: (js ≫= g).
Proof.
  induction js as [|q js IH]; intros Hnd Hr; [by apply not_elem_of_nil in Hr|]. apply NoDup_cons in Hnd as [Hq Hnd]. rewrite !bind_cons. case_decide as Hd.
  - subst q. cbn [app]. do 2 f_equiv. apply reflexive_eq. apply Forall_bind_ext, Forall_forall. intros p Hp. rewrite decide_False; [done|]. by intros ->.
  - apply elem_of_cons in Hr as [Hr|Hr]; [done|]. rewrite (IH Hnd Hr). by rewrite Permutation_middle.
Qed.

Lemma partition_ranks {A} (f : A -> option Z) (js : list Z) (l : list A) : NoDup js -> Forall (fun x => exists p, p ∈ js /\ f x = Some p) l -> js ≫= (fun p => filter (fun x => f x = Some p) l) ≡ₚ l.
Proof.
  intros Hnd. induction l as [|x l IH]; intros Hl; [clear; induction js as [|q js IH]; [done|]; by rewrite bind_cons, IH|]. apply Forall_cons in Hl as [(r & Hr & Ex) Hl]. transitivity (x :: (js ≫= (fun p => filter (fun x => f x = Some p) l))); [|by rewrite (IH Hl)]. rewrite <- (bind_cons_one (fun p => filter (fun x => f x = Some p) l) x r js Hnd Hr). apply reflexive_eq. apply Forall_bind_ext, Forall_forall. intros p _. rewrite filter_cons. destruct (decide (r = p)) as [->|Hne]; [by rewrite decide_True|]. rewrite decide_False; [done|]. congruence.
Qed.

Lemma totalCounts_perm keys keys' leaves : concat keys ≡ₚ concat keys' -> totalCounts keys leaves = totalCounts keys' leaves.
Proof.
  intros Hp. unfold totalCounts. apply list_fmap_ext. intros _ i _. rewrite !nodeTotal_all. unfold allParticles, std_sort. rewrite !(count_lt_perm _ _ _ (merge_sort_Permutation Z.le _)). by rewrite !(count_lt_perm _ _ _ Hp).
Qed.

(** ** The collective tree update *)

#[global] Instance OctreeArrays_eq_dec : EqDecision OctreeArrays.
Proof. solve_decision. Defined.
#[global] Instance OctreeData_eq_dec : EqDecision OctreeData.
Proof. solve_decision. Defined.
#[global] Instance GlobalTree_eq_dec : EqDecision GlobalTree.
Proof. solve_decision. Defined.

(** The update of the global tree as rank [p] sees it, when the ranks call it with [keys] and [trees]. *)
Definition collectiveTree (mpiAllreduce : list (list Z) -> list Z) (fuel : nat) (k : KeyType) (keys : list (list Z)) (trees : list GlobalTree) (p : Z) (bucketSize : Z) (firstCall : bool) (keyView : list Z) (tree : GlobalTree) : option (bool * GlobalTree) :=
  if decide (keys.[p] = Some keyView /\ trees.[p] = Some tree) then
    let? (firstCall, trees) := assignTree mpiAllreduce fuel k bucketSize firstCall keys trees in
    let? tree := trees.[p] in
    Some (firstCall, tree)
  else None.

(** What the focus trees keep from the previous call: counts and marks of the nodes do not increase from a node to its children, and the
    remembered offsets lie inside of the new global tree [gLeaves]. *)
Record focusKept (k : KeyType) (N : Z) (D : Z -> Domain (T := Q)) (gLeaves : list Z) : Prop := {
  fk_global : nNodes gLeaves < 2 ^ 32;
  fk_halos : forall p, 0 <= p < N -> h_myRank (halos_ (D p)) = p;
  fk_focus : forall p, 0 <= p < N -> myRank_ (focusTree_ (D p)) = p /\ numRanks_ (focusTree_ (D p)) = N /\ zlen (treelets_ (focusTree_ (D p))) = N /\ Z.lor (rebalanceStatus_ (focusTree_ (D p))) status_macCriterion = status_valid;
  fk_tree : forall p, 0 <= p < N -> exists t, octreeDataOf k t (octreeAcc_ (focusTree_ (D p))) /\ leaves_ (focusTree_ (D p)) = leafArray k t;
  fk_counts : forall p, 0 <= p < N -> zlen (countsAcc_ (focusTree_ (D p))) = zlen (prefixes (arrays (octreeAcc_ (focusTree_ (D p))))) /\ countsUp (arrays (octreeAcc_ (focusTree_ (D p)))) (countsAcc_ (focusTree_ (D p)));
  fk_macs : forall p, 0 <= p < N -> zlen (macsAcc_ (focusTree_ (D p))) = zlen (prefixes (arrays (octreeAcc_ (focusTree_ (D p))))) /\ marksUp (arrays (octreeAcc_ (focusTree_ (D p)))) (macsAcc_ (focusTree_ (D p)));
  fk_previous : forall p, 0 <= p < N -> zlen (globDispl_ (focusTree_ (D p))) = N + 1 /\
    forall r, 0 <= r < N -> 0 <= nthz (globDispl_ (focusTree_ (D p))) r <= nthz (globDispl_ (focusTree_ (D p))) (r + 1) /\ nthz (globDispl_ (focusTree_ (D p))) (r + 1) <= zlen gLeaves
}.

(** ** All ranks *)

Section Distribution.
Context (mpiAllreduce : list (list Z) -> list Z) `{!SumsUnsigned mpiAllreduce} (fuel : nat) (infinity : Q) (s : SfcKind) (k : KeyType).
Context {E U : Type} (zeroE : E) (zeroU : U) (coords : E -> Vec3 Q) (sizes : list Z) (junkE : Z -> E).
Context (N : Z) (D : Z -> Domain (T := Q)) (b : Z -> Buffers (E := E) (U := U)) (box0 : Box Q) (first : bool) (bucketSize : Z) (leaves counts : list Z).

(** The range of the assigned particles, all particles on the first call. *)
Definition boundsOf (p : Z) : BufferDescription := bufDesc_ (initBounds (zlen (b_ordered (b p))) (D p)).

(** The assigned particles of a rank with their properties. *)
Definition heldBy (p : Z) : list (E * U) := slice (zip (b_ordered (b p)) (b_properties (b p))) (bstart (boundsOf p)) (bend (boundsOf p)).

(** The state of all ranks before [sync]: box, tree and counts are replicated, the arrays have the announced size, and no particle is
    marked as removed. *)
Record domainReady : Prop := {
  dr_ranks : 1 <= N < 2147483648;
  dr_domain : forall p, 0 <= p < N -> d_myRank (D p) = p /\ d_numRanks (D p) = N;
  dr_global : forall p, 0 <= p < N -> ga_bucketSize (global_ (D p)) = bucketSize /\ ga_box (global_ (D p)) = box0 /\ ga_firstCall (global_ (D p)) = first /\ globalCopy k leaves counts (ga_tree (global_ (D p)));
  dr_input : rebalanceInput k leaves counts bucketSize;
  dr_bounds : forall p, 0 <= p < N -> 0 <= bstart (boundsOf p) <= bend (boundsOf p) /\ bend (boundsOf p) <= bsize (boundsOf p) < 4294967296;
  dr_sizes : forall p, 0 <= p < N -> zlen (b_ordered (b p)) = bsize (boundsOf p) /\ zlen (b_keys (b p)) = bsize (boundsOf p) /\ zlen (b_properties (b p)) = bsize (boundsOf p);
  dr_keys : forall p, 0 <= p < N -> Forall (fun x => x <> removeKey k) (b_keys (b p))
}.

(** What rank [p] contributes to the global box, and the box that follows from the reduced extrema. *)
Definition contributionOf (p : Z) : Extrema Q := negateMaxima (localExtrema infinity (coords <$> slice (b_ordered (b p)) (bstart (boundsOf p)) (bend (boundsOf p))) box0).
Definition nextBox (reduced : Extrema Q) : Box Q :=
  let fittingBox := commonBox box0 reduced in
  if first then fittingBox else limitBoxShrinking fittingBox box0 (s_ratio 1 20).

Context (reduced : Extrema Q).
Hypothesis Hdr : domainReady.
Hypothesis Hred : isReduced (contributionOf <$> seqZ 0 N) reduced.

Local Abbreviation box := (nextBox reduced).
Local Abbreviation key := (definedKey s k coords (nextBox reduced)).
Local Abbreviation pairKey := (fun x : E * U => definedKey s k coords (nextBox reduced) x.1).
Local Abbreviation all := (seqZ 0 N ≫= heldBy).
Local Abbreviation O p := (boundsOf p).

Hypothesis Hbox : exactBox (nextBox reduced).
Hypothesis Hinside : Forall (fun x => insideCoords (nextBox reduced) (coords x.1)) all.
Hypothesis Hroom : forall p, 0 <= p < N -> bend (boundsOf p) + zlen all < 4294967296.
Hypothesis Hsearch : zlen all <= 2 ^ (keyBits k - 2).

Lemma inside_key (x : E) : insideCoords box (coords x) -> is_Some (particleKey s k coords box x) /\ 0 <= key x < keyMax k.
Proof using Hbox.
  intros Hx. destruct (sfc3D_cell s k (coords x) box Hbox Hx) as (ix & iy & iz & E1 & Hc & _). unfold definedKey, particleKey. rewrite E1. split; [by eexists|]. exact (sfc_enc_range (enc := iSfcKey s k) (dec := decodeSfc s k) (ix, iy, iz) Hc).
Qed.

Lemma held_all p x : 0 <= p < N -> x ∈ heldBy p -> x ∈ all.
Proof using. clear Hsearch. intros Hp Hx. apply list_elem_of_bind. exists p. split; [done|]. apply elem_of_seqZ. lia. Qed.

Lemma held_le p : 0 <= p < N -> zlen (heldBy p) <= zlen all.
Proof using.
  clear Hsearch. intros Hp. unfold zlen. apply inj_le. replace N with (p + (1 + (N - p - 1))) by lia. rewrite !seqZ_app, !bind_app, !length_app by lia. change (seqZ (0 + p) 1) with [0 + p]. cbn [mbind list_bind]. rewrite app_nil_r, Z.add_0_l. lia.
Qed.

(** The box on every rank. *)
Lemma box_run p : 0 <= p < N -> (let fittingBox := makeGlobalBox infinity (coords <$> slice (b_ordered (b p)) (bstart (O p)) (bend (O p))) box0 reduced in if first then fittingBox else limitBoxShrinking fittingBox box0 (s_ratio 1 20)) = box.
Proof using Hred. clear Hsearch.
  intros Hp. cbn zeta. set (points := fun q => coords <$> slice (b_ordered (b q)) (bstart (O q)) (bend (O q))). rewrite (makeGlobalBox_common infinity (points <$> seqZ 0 N) box0 reduced); [done| |].
  - by rewrite <- list_fmap_compose.
  - apply (list_elem_of_fmap_2 points), elem_of_seqZ. lia.
Qed.

(** The sorted keys and orderings. *)
Lemma assigned_sorted : exists (keys1 ord1 : Z -> list Z) (own : Z -> list (E * U)), forall p, 0 <= p < N ->
  assignKeys k key (O p) (b_ordered (b p)) (b_keys (b p)) (b_ordering (b p)) = Some (keys1 p, ord1 p) /\
  ready k pairKey (O p) (ord1 p) (keys1 p) (zip (b_ordered (b p)) (b_properties (b p))) (own p) /\ own p ≡ₚ heldBy p.
Proof using Hdr.
  destruct (ranks_choice ([], [], []) (fun p '(keys1, ord1, own) => assignKeys k key (O p) (b_ordered (b p)) (b_keys (b p)) (b_ordering (b p)) = Some (keys1, ord1) /\
    ready k pairKey (O p) ord1 keys1 (zip (b_ordered (b p)) (b_properties (b p))) own /\ own ≡ₚ heldBy p) N) as [f Hf].
  - intros p Hp. destruct (dr_bounds Hdr p Hp) as [B1 B2]. destruct (dr_sizes Hdr p Hp) as (S1 & S2 & S3).
    destruct (assignKeys_run k pairKey (O p) (zip (b_ordered (b p)) (b_properties (b p))) (b_keys (b p)) (b_ordering (b p)) B1 B2) as (keys1 & ord1 & own & E1 & Hr & Hp1 & _).
    + unfold zlen in *. rewrite length_zip. lia.
    + done.
    + by apply (dr_keys Hdr).
    + rewrite assignKeys_pairs in E1 by lia. by exists (keys1, ord1, own).
  - exists (fun p => (f p).1.1), (fun p => (f p).1.2), (fun p => (f p).2). intros p Hp. specialize (Hf p Hp). by destruct (f p) as [[? ?] ?].
Qed.

(** *** The global tree *)

Section Sorted.
Context (keys1 ord1 : Z -> list Z) (own : Z -> list (E * U)).
Hypothesis Hsorted : forall p, 0 <= p < N -> assignKeys k key (O p) (b_ordered (b p)) (b_keys (b p)) (b_ordering (b p)) = Some (keys1 p, ord1 p) /\
  ready k pairKey (O p) (ord1 p) (keys1 p) (zip (b_ordered (b p)) (b_properties (b p))) (own p) /\ own p ≡ₚ heldBy p.

Local Abbreviation keysP p := (pairKey <$> own p).
Local Abbreviation allKeys := ((fun p => pairKey <$> own p) <$> seqZ 0 N).
Local Abbreviation trees := ((fun p => ga_tree (global_ (D p))) <$> seqZ 0 N).

Lemma own_elem p x : 0 <= p < N -> x ∈ own p -> insideCoords box (coords x.1).
Proof using Hsorted Hinside. intros Hp Hx. destruct (Hsorted p Hp) as (_ & _ & Hperm). rewrite Hperm in Hx. rewrite Forall_forall in Hinside. by apply Hinside, (held_all p). Qed.

Lemma own_total : seqZ 0 N ≫= own ≡ₚ all.
Proof using Hsorted.
  assert (H : forall l : list Z, (forall p, p ∈ l -> 0 <= p < N) -> l ≫= own ≡ₚ l ≫= heldBy); [|apply H; intros p Hp%elem_of_seqZ; lia]. induction l as [|p l IH]; intros Hl; [done|]. rewrite !bind_cons. assert (Hp : 0 <= p < N) by (apply Hl, elem_of_cons; by left). destruct (Hsorted p Hp) as (_ & _ & ->). f_equiv. apply IH. intros q Hq. apply Hl, elem_of_cons. by right.
Qed.

Lemma own_sorted p : 0 <= p < N -> sortedKeys k (keysP p).
Proof using Hsorted Hinside Hbox Hroom Hsearch Hdr.
  intros Hp. destruct (Hsorted p Hp) as (_ & Hr & Hperm). split; [apply Hr| |].
  - apply Forall_fmap, Forall_forall. intros x Hx. by apply inside_key, (own_elem p).
  - rewrite zlen_map. assert (Hz : zlen (own p) = zlen (heldBy p)) by (unfold zlen; by rewrite Hperm). pose proof (held_le p Hp). pose proof (Hroom p Hp). pose proof (dr_bounds Hdr p Hp). lia.
Qed.

Lemma own_searchable p : 0 <= p < N -> searchableKeys k (keysP p).
Proof using Hsorted Hinside Hbox Hroom Hsearch Hdr.
  intros Hp. split; [by apply own_sorted|]. destruct (Hsorted p Hp) as (_ & _ & Hperm). rewrite zlen_map. assert (Hz : zlen (own p) = zlen (heldBy p)) by (unfold zlen; by rewrite Hperm). pose proof (held_le p Hp). lia.
Qed.

Lemma keys_total : zsum (zlen <$> allKeys) = zlen all.
Proof using Hsorted.
  assert (Hz : zlen all = zlen (seqZ 0 N ≫= own)) by (unfold zlen; by rewrite own_total). rewrite Hz. clear Hz. generalize (seqZ 0 N) as l. intros l. induction l as [|p l IH]; [done|]. rewrite !fmap_cons, zsum_cons, bind_cons, zlen_app, zlen_map. by rewrite IH.
Qed.

Lemma keys_facts : Forall (searchableKeys k) allKeys /\ allKeys <> [] /\ zsum (zlen <$> allKeys) <= unsigned_max /\ zlen allKeys = N.
Proof using Hsorted Hinside Hbox Hroom Hsearch Hdr.
  pose proof (dr_ranks Hdr). split; [apply Forall_fmap, Forall_forall; intros p Hp%elem_of_seqZ; apply own_searchable; lia|]. split; [|split].
  - rewrite seqZ_cons by lia. done.
  - rewrite keys_total. pose proof (Hroom 0 ltac:(lia)). pose proof (dr_bounds Hdr 0 ltac:(lia)). unfold unsigned_max. lia.
  - rewrite zlen_map, zlen_seqZ; lia.
Qed.

Lemma tree_run : 2 * maxTreeLevel k < Z.of_nat fuel -> exists tree gs, assignTree mpiAllreduce fuel k bucketSize first allKeys trees = Some (false, gs) /\ zlen gs = N /\ csTree k tree /\ Forall (globalCopy k tree (totalCounts allKeys tree)) gs.
Proof using SumsUnsigned0 Hsorted Hinside Hbox Hroom Hsearch Hdr.
  intros Hfuel. destruct keys_facts as (K1 & K2 & K3 & K4). pose proof (dr_input Hdr) as Hin. destruct (assignTree_run mpiAllreduce k bucketSize allKeys K1 K2 K3 (ri_bucket _ _ _ _ Hin) fuel first leaves counts trees Hin) as (tree & gs & Et & Hl & Hcs & Hg & _); [| |done|].
  - apply Forall_fmap, Forall_forall. intros p Hp%elem_of_seqZ. apply (dr_global Hdr). lia.
  - by rewrite !length_fmap.
  - exists tree, gs. rewrite (totalCounts_all k allKeys K3 tree Hcs). split; [done|]. split; [|done]. unfold zlen in *. by rewrite Hl.
Qed.

(** *** The assignment *)

(** The number of particles of a rank. *)
Lemma assigned_count sa p : validAssignment k sa -> assignmentRanks sa = N -> 0 <= p < N -> nodeTotal allKeys (nthz (rankBoundaries_ sa) p) (nthz (rankBoundaries_ sa) (p + 1)) = zlen (assignedTo pairKey sa own p).
Proof using.
  clear Hroom Hsearch. intros Hv HN Hp. pose proof (boundary_mono k sa Hv p (p + 1) ltac:(lia) ltac:(lia)) as Hm. rewrite (total_count N (fun p => keysP p) _ _ Hm). unfold FocusCounts.particles, assignedTo. rewrite HN. rewrite (list_filter_iff _ (fun x => nthz (rankBoundaries_ sa) p <= pairKey x < nthz (rankBoundaries_ sa) (p + 1))) by (intros x; apply (findRank_iff k sa Hv); lia).
  set (lo := nthz _ p). set (hi := nthz _ (p + 1)). generalize (seqZ 0 N) as l. intros l. unfold countIn. induction l as [|q l IH]; [done|]. rewrite fmap_cons, bind_cons. cbn [concat]. rewrite !filter_app, !zlen_app, IH. f_equal. by rewrite filter_map_zlen.
Qed.

(** The tree and its counts are the input of the next update. *)
Lemma tree_input tree : csTree k tree -> rebalanceInput k tree (totalCounts allKeys tree) bucketSize.
Proof using Hsorted Hinside Hbox Hroom Hsearch Hdr.
  intros Hcs. destruct keys_facts as (K1 & K2 & K3 & K4). pose proof (cs_nonempty k tree Hcs) as Hne. rewrite (totalCounts_all k allKeys K3 tree Hcs). pose proof (dr_input Hdr) as Hin. split; [done|apply zlen_leafCounts; lia| |apply Hin].
  unfold leafCounts. apply Forall_fmap, Forall_forall. intros i Hi%elem_of_seqZ. simpl. unfold cappedCount, unsigned_max. pose proof (cs_nodes k _ Hcs i ltac:(lia)) as Hn%isNode_lt. pose proof (count_lt_mono (nthz tree i) (nthz tree (i + 1)) (allParticles allKeys) ltac:(lia)). lia.
Qed.

Lemma assignment_run tree : csTree k tree -> exists sa, assignmentRanks sa = N /\ validAssignment k sa /\ zlen (counts_ sa) = N /\
  (zlen (treeOffsets_ sa) = N + 1 /\ zlen (numNodesPerRank_ sa) = N /\ (forall r, 0 <= r <= N -> tree.[nthz (treeOffsets_ sa) r] = Some (nthz (rankBoundaries_ sa) r)) /\
    (forall r, 0 <= r < N -> nthz (numNodesPerRank_ sa) r = nthz (treeOffsets_ sa) (r + 1) - nthz (treeOffsets_ sa) r)) /\
  forall p o1 g, 0 <= p < N -> globalCopy k tree (totalCounts allKeys tree) g ->
    assignRank N p o1 (keysP p) g = Some (sa, sendsOf sa (keysP p), exchangeBufferSize o1 (nthz (sendsOf sa (keysP p)) (p + 1) - nthz (sendsOf sa (keysP p)) p) (nthz (counts_ sa) p)) /\
    nthz (counts_ sa) p = zlen (assignedTo pairKey sa own p).
Proof using Hsorted Hinside Hbox Hroom Hsearch Hdr.
  intros Hcs. destruct keys_facts as (K1 & K2 & K3 & K4). pose proof (dr_ranks Hdr) as HN. pose proof (cs_nonempty k tree Hcs) as Hne. set (cs := totalCounts allKeys tree). assert (Ecs : cs = leafCounts tree (allParticles allKeys) unsigned_max) by (by apply (totalCounts_all k)).
  pose proof (allParticles_sorted k allKeys (searchable_all k _ K1) K3) as HU. destruct (tree_input tree Hcs) as [_ Hlen Hrange _]. fold cs in Hlen, Hrange.
  assert (Hsum : zsum cs = zlen all) by (rewrite Ecs, <- keys_total, <- zlen_allParticles; apply (leafCounts_zsum k); [done|done|rewrite zlen_allParticles; lia]).
  assert (Htot : zsum cs < 2 ^ 53) by (rewrite Hsum, <- keys_total; unfold unsigned_max in K3; lia).
  destruct (makeSfcAssignment_run cs Hrange Htot N HN k tree Hcs Hlen) as (sa & Es & Hns & Hv & Eo & Eb & Ec & En). exists sa. split; [done|]. split; [done|]. split; [rewrite Ec, zlen_map, zlen_seqZ; lia|].
  assert (Hoff : forall r, 0 <= r <= N -> nthz (treeOffsets_ sa) r = binStart cs N r) by (intros r Hr; rewrite Eo; apply nthz_Some, binArray_get; lia).
  split; [split; [|split; [|split]]|].
  - rewrite Eo, zlen_map, zlen_seqZ; lia.
  - rewrite En, zlen_map, zlen_seqZ; lia.
  - intros r Hr. rewrite Hoff by lia. assert (E1 : nthz (rankBoundaries_ sa) r = nthz tree (binStart cs N r)) by (rewrite Eb; apply nthz_Some; by rewrite aget_map, binArray_get by lia). rewrite E1. apply nthz_get. pose proof (binStart_range cs Hrange Htot N HN r). unfold nNodes in *. lia.
  - intros r Hr. rewrite !Hoff by lia. rewrite En. apply nthz_Some. by rewrite aget_map, aget_seqZ by lia.
  - intros p o1 g Hp Hg. assert (Hk : keysP p ∈ allKeys) by (apply (list_elem_of_fmap_2 (fun p => keysP p)), elem_of_seqZ; lia). fold cs in Hg. rewrite Ecs in Hg, Es.
    destruct (assignRank_conserves k allKeys tree (searchable_all k _ K1) K2 ltac:(lia) K3 Hcs p o1 g (keysP p) Hg ltac:(lia) Hk) as (sa' & e & Ea & Es' & Hns' & _ & Ee & _ & Hc). rewrite K4, Es in Es'. injection Es' as <-.
    destruct (own_sorted p Hp) as [So _ Sz]. rewrite (createSendRanges_run k sa Hv (keysP p) So Sz) in Ee. injection Ee as <-. rewrite K4 in Ea, Hc. split; [exact Ea|]. rewrite (Hc p Hp). by apply assigned_count.
Qed.

(** *** The exchange *)

Section Assigned.
Context (tree : list Z) (gs : list GlobalTree) (sa : SfcAssignment).
Hypothesis Htree : assignTree mpiAllreduce fuel k bucketSize first allKeys trees = Some (false, gs) /\ zlen gs = N /\ csTree k tree /\ Forall (globalCopy k tree (totalCounts allKeys tree)) gs.
Hypothesis Hvalid : assignmentRanks sa = N /\ validAssignment k sa /\ zlen (counts_ sa) = N.
Hypothesis Hassigned : forall p o1 g, 0 <= p < N -> globalCopy k tree (totalCounts allKeys tree) g ->
  assignRank N p o1 (keysP p) g = Some (sa, sendsOf sa (keysP p), exchangeBufferSize o1 (nthz (sendsOf sa (keysP p)) (p + 1) - nthz (sendsOf sa (keysP p)) p) (nthz (counts_ sa) p)) /\
  nthz (counts_ sa) p = zlen (assignedTo pairKey sa own p).

Definition sendsOn (p : Z) : list Z := sendsOf sa (keysP p).
Definition sizeOn (p : Z) : Z := exchangeBufferSize (O p) (nthz (sendsOn p) (p + 1) - nthz (sendsOn p) p) (nthz (counts_ sa) p).
Definition boundsOn (p : Z) : BufferDescription := mkBufferDescription (bstart (O p)) (bend (O p)) (sizeOn p).
Definition keysOn (p : Z) : list Z := default [] (fillFrom (bsize (O p)) (sizeOn p) 0 (aresize 0 (keys1 p) (sizeOn p))).
Definition particlesOn (p : Z) : list (E * U) := zip (aresize zeroE (b_ordered (b p)) (sizeOn p)) (aresize zeroU (b_properties (b p)) (sizeOn p)).
Definition treeOn (p : Z) : GlobalTree := default (ga_tree (global_ (D p))) (gs.[p]).
Definition globalOn (p : Z) : GlobalAssignment (T := Q) := mkGlobalAssignment bucketSize box sa (sendsOn p) (ga_recvLog (global_ (D p))) (treeOn p) false.

Lemma treeOn_copy p : 0 <= p < N -> gs.[p] = Some (treeOn p) /\ globalCopy k tree (totalCounts allKeys tree) (treeOn p).
Proof using Htree.
  intros Hp. destruct Htree as (_ & Hz & _ & Hg). destruct (aget_is_Some gs p ltac:(lia)) as [g Eg]. unfold treeOn. rewrite Eg. split; [done|]. rewrite Forall_forall in Hg. apply Hg. by eapply aget_elem.
Qed.

Lemma initBounds_kept n d : d_myRank (initBounds n d) = d_myRank (T := Q) d /\ d_numRanks (initBounds n d) = d_numRanks d /\ global_ (initBounds n d) = global_ d /\ focusTree_ (initBounds n d) = focusTree_ d /\ halos_ (initBounds n d) = halos_ d /\ haloSearchExt_ (initBounds n d) = haloSearchExt_ d /\ firstCall_ (initBounds n d) = firstCall_ d.
Proof using. unfold initBounds. by destruct (firstCall_ d) eqn:?. Qed.

Lemma keyView_run p : 0 <= p < N -> subspan (keys1 p) (bstart (O p)) (bend (O p) - bstart (O p)) = Some (keysP p).
Proof using Hsorted Hdr.
  intros Hp. destruct (Hsorted p Hp) as (_ & [R1 R2 R3 R4 R5 R6 R7 R8] & _). rewrite subspan_run by lia. f_equal. apply slice_eq; rewrite ?zlen_map; try lia. intros i Hi. destruct (R6 i Hi) as (j & x & _ & _ & _ & Ex & ->). by rewrite aget_map, Ex.
Qed.

Lemma assign_run p : 0 <= p < N -> assign infinity s k coords (collectiveTree mpiAllreduce fuel k allKeys trees p) N p reduced (O p) (b_ordered (b p)) (b_keys (b p)) (b_ordering (b p)) (global_ (D p)) =
  Some (contributionOf p, sizeOn p, keys1 p, ord1 p, globalOn p).
Proof using Htree Hassigned Hsorted Hinside Hbox Hroom Hsearch Hdr Hred.
  intros Hp. destruct (dr_bounds Hdr p Hp) as [B1 B2]. destruct (dr_sizes Hdr p Hp) as (S1 & S2 & S3). destruct (dr_global Hdr p Hp) as (G1 & G2 & G3 & G4). destruct (Hsorted p Hp) as (Ek & Hr & Hperm). unfold assign. rewrite G1, G2, G3. rewrite (u32_small (bend (O p) - bstart (O p))) by lia.
  rewrite subspan_run by lia. cbn beta iota. replace (bstart (O p) + (bend (O p) - bstart (O p))) with (bend (O p)) by lia. pose proof (box_run p Hp) as Eb. cbn zeta in Eb |- *. rewrite Eb.
  set (view := slice (b_ordered (b p)) (bstart (O p)) (bend (O p))). assert (Hzv : zlen view = bend (O p) - bstart (O p)) by (unfold view; rewrite slice_zlen; lia).
  destruct (computeKeys_written s k coords box (bstart (O p)) view (b_ordered (b p)) (b_keys (b p))) as (keys0 & Ec & _).
  { lia. } { lia. } { lia. } { by apply (dr_keys Hdr). } { rewrite Hzv. f_equal. lia. }
  { apply Forall_forall. intros x Hx. apply inside_key. unfold view in Hx. apply elem_of_slice in Hx as (j & Hj & Ex); [|lia]. destruct (aget_is_Some (b_properties (b p)) j ltac:(lia)) as [y Ey].
    rewrite Forall_forall in Hinside. apply (Hinside (x, y)), (held_all p); [done|]. unfold heldBy. apply (aget_elem _ (j - bstart (O p))). rewrite slice_get by lia. rewrite zip_get by lia. replace (bstart (O p) + (j - bstart (O p))) with j by lia. by rewrite Ex, Ey. }
  rewrite Hzv in Ec. rewrite Ec. cbn beta iota. rewrite Ek. cbn beta iota. rewrite (keyView_run p Hp). cbn beta iota.
  assert (Ht : collectiveTree mpiAllreduce fuel k allKeys trees p bucketSize first (keysP p) (ga_tree (global_ (D p))) = Some (false, treeOn p)).
  { unfold collectiveTree. rewrite decide_True by (rewrite !aget_map, !aget_seqZ by lia; done). rewrite (proj1 Htree). cbn beta iota. by rewrite (proj1 (treeOn_copy p Hp)). }
  rewrite Ht. cbn beta iota. destruct (Hassigned p (O p) (treeOn p) Hp (proj2 (treeOn_copy p Hp))) as [Ea _]. rewrite Ea. done.
Qed.

Lemma sendsOn_run p : 0 <= p < N -> createSendRanges sa (keysP p) = Some (sendsOn p).
Proof using Hvalid Hsorted Hinside Hbox Hroom Hsearch Hdr. intros Hp. destruct (own_sorted p Hp) as [So _ Sz]. apply (createSendRanges_run k sa (proj1 (proj2 Hvalid)) (keysP p) So Sz). Qed.

Lemma present_assigned p : 0 <= p < N -> 0 <= nthz (sendsOn p) (p + 1) - nthz (sendsOn p) p <= nthz (counts_ sa) p /\ nthz (counts_ sa) p <= zlen all.
Proof using Htree Hvalid Hassigned Hsorted Hinside Hbox Hroom Hsearch Hdr.
  intros Hp. destruct Hvalid as (HN & Hv & _). destruct (Hassigned p (O p) (treeOn p) Hp (proj2 (treeOn_copy p Hp))) as [_ Ec]. rewrite Ec. unfold sendsOn. rewrite (nthz_Some _ _ _ (sendsOf_get sa (keysP p) p ltac:(lia))), (nthz_Some _ _ _ (sendsOf_get sa (keysP p) (p + 1) ltac:(lia))).
  pose proof (boundary_mono k sa Hv p (p + 1) ltac:(lia) ltac:(lia)) as Hm. pose proof (count_lt_mono _ _ (keysP p) Hm). split; [split; [lia|]|].
  - rewrite (countIn_lt _ _ _ Hm). unfold countIn. rewrite filter_map_zlen. unfold assignedTo. rewrite HN, (list_filter_iff (fun x => findRank sa (pairKey x) = Some p) (fun x => nthz (rankBoundaries_ sa) p <= pairKey x < nthz (rankBoundaries_ sa) (p + 1))) by (intros x; apply (findRank_iff k sa Hv); lia).
    rewrite filter_bind. unfold zlen. apply inj_le. replace N with (p + (1 + (N - p - 1))) by lia. rewrite !seqZ_app, !bind_app, !length_app by lia. change (seqZ (0 + p) 1) with [0 + p]. cbn [mbind list_bind]. rewrite app_nil_r, Z.add_0_l. lia.
  - unfold assignedTo. rewrite HN. transitivity (zlen (seqZ 0 N ≫= own)); [unfold zlen; apply inj_le, length_filter|]. unfold zlen. by rewrite own_total.
Qed.

Lemma sizeOn_run p : 0 <= p < N -> bsize (O p) <= sizeOn p < 4294967296 /\ exchangeBufferSize (boundsOn p) (nthz (sendsOn p) (p + 1) - nthz (sendsOn p) p) (nthz (counts_ sa) p) = sizeOn p.
Proof using Htree Hvalid Hassigned Hsorted Hinside Hbox Hroom Hsearch Hdr.
  intros Hp. destruct (present_assigned p Hp) as [P1 P2]. destruct (dr_bounds Hdr p Hp) as [B1 B2]. pose proof (Hroom p Hp). apply exchangeSize_run; lia.
Qed.

Lemma keysOn_run p : 0 <= p < N -> fillFrom (bsize (O p)) (sizeOn p) 0 (aresize 0 (keys1 p) (sizeOn p)) = Some (keysOn p) /\ zlen (keysOn p) = sizeOn p /\ (forall i, 0 <= i < bsize (O p) -> (keysOn p).[i] = (keys1 p).[i]) /\ forall i, bsize (O p) <= i < sizeOn p -> (keysOn p).[i] = Some 0.
Proof using Htree Hvalid Hassigned Hsorted Hinside Hbox Hroom Hsearch Hdr.
  intros Hp. destruct (sizeOn_run p Hp) as [S1 _]. destruct (Hsorted p Hp) as (_ & Hr & _). pose proof (rd_keys _ _ _ _ _ _ _ Hr) as Hz. rewrite <- Hz in *. destruct (grownKeys_run (keys1 p) (sizeOn p) ltac:(lia)) as (l & El & H). unfold keysOn. rewrite <- Hz, El. done.
Qed.

Lemma grown_ready p : 0 <= p < N -> ready k pairKey (boundsOn p) (ord1 p) (keysOn p) (particlesOn p) (own p).
Proof using Htree Hvalid Hassigned Hsorted Hinside Hbox Hroom Hsearch Hdr.
  intros Hp. destruct (sizeOn_run p Hp) as [S1 _]. destruct (keysOn_run p Hp) as (_ & K1 & K2 & K3). destruct (Hsorted p Hp) as (_ & Hr & _). destruct (dr_sizes Hdr p Hp) as (Z1 & Z2 & Z3). destruct (dr_bounds Hdr p Hp) as [B1 B2].
  assert (Hze : zlen (aresize zeroE (b_ordered (b p)) (sizeOn p)) = sizeOn p) by (apply zlen_aresize; lia). assert (Hzu : zlen (aresize zeroU (b_properties (b p)) (sizeOn p)) = sizeOn p) by (apply zlen_aresize; lia).
  apply (ready_grow k pairKey (O p) (ord1 p) (keys1 p) (keysOn p) (zip (b_ordered (b p)) (b_properties (b p))) (particlesOn p) (own p) (sizeOn p) Hr S1).
  - unfold particlesOn, zlen in *. rewrite length_zip. lia.
  - done.
  - intros i Hi. split; [|by apply K2]. unfold particlesOn. rewrite !zip_get by lia. by rewrite !aresize_get by lia.
  - intros i Hi. rewrite (nthz_Some _ _ _ (K3 i Hi)). pose proof (removeKey_pos k). congruence.
Qed.

Hypothesis Hmessage : 1 <= maxMessage sizes.

(** The messages of a rank. *)
Definition sentOn (p : Z) : list (list (Message (E * U))) := default [] (sendMessages sizes (sendsOn p) p (drop (Z.to_nat (bstart (O p))) (ord1 p)) (particlesOn p)).

Lemma exchange_run p arrivals : 0 <= p < N -> interleaves (fun q => messagesTo p (sentOn q)) (seqZ 0 N) arrivals ->
  exists d assigned, distribute k pairKey p (nthz (counts_ sa) p) (sendsOn p) (boundsOn p) sizes arrivals (ord1 p) (keysOn p) (particlesOn p) = Some d /\
    d_sent d = sentOn p /\ d_rest d = [] /\ d_keyView d = pairKey <$> assigned /\ zsorted (d_keyView d) /\ assigned ≡ₚ assignedTo pairKey sa own p /\
    inOrder (drop (Z.to_nat (d_start d + nthz (sendsOn p) p)) (d_ordering d)) (d_particles d) assigned /\
    d_start d = (assignedEnvelope (O p) (nthz (counts_ sa) p - (nthz (sendsOn p) (p + 1) - nthz (sendsOn p) p))).1 /\ zlen assigned = nthz (counts_ sa) p /\
    zlen (d_particles d) = sizeOn p /\ 0 <= d_start d /\ d_start d + nthz (sendsOn p) p + zlen assigned <= sizeOn p /\ d_start d + nthz (sendsOn p) p + zlen assigned <= zlen (d_ordering d) /\ Forall (fun x => x <> removeKey k) (d_keys d).
Proof using Hmessage Htree Hvalid Hassigned Hsorted Hinside Hbox Hroom Hsearch Hdr.
  intros Hp Harr. destruct Hvalid as (HN & Hv & _). assert (Hready : forall q, 0 <= q < assignmentRanks sa -> ready k pairKey (boundsOn q) (ord1 q) (keysOn q) (particlesOn q) (own q)) by (intros q Hq; apply grown_ready; lia).
  assert (Hsends : forall q, 0 <= q < assignmentRanks sa -> createSendRanges sa (keysP q) = Some (sendsOn q)) by (intros q Hq; apply sendsOn_run; lia).
  assert (Hsent : forall q, 0 <= q < assignmentRanks sa -> sendMessages sizes (sendsOn q) q (drop (Z.to_nat (bstart (boundsOn q))) (ord1 q)) (particlesOn q) = Some (sentOn q)).
  { intros q Hq. destruct (world_sends pairKey k sa sizes boundsOn ord1 keysOn sendsOn particlesOn own Hv Hmessage Hready Hsends q Hq) as (sent & Es & _). unfold sentOn. cbn [boundsOn bstart] in Es |- *. by rewrite Es. }
  destruct (sizeOn_run p Hp) as [S1 S2]. destruct (Hassigned p (O p) (treeOn p) Hp (proj2 (treeOn_copy p Hp))) as [_ Ec]. destruct (present_assigned p Hp) as [[P0 P1] P2]. destruct (dr_bounds Hdr p Hp) as [B1 B2]. pose proof (Hroom p Hp) as Hrm.
  rewrite <- HN in Harr. destruct (world_distribute pairKey k sa sizes boundsOn ord1 keysOn sendsOn particlesOn own Hv Hmessage Hready Hsends sentOn Hsent p arrivals ltac:(lia) Harr (nthz (counts_ sa) p) Ec ltac:(lia) S2) as (d & assigned & Ed & D1 & D2 & D3 & D4 & D5 & D6 & D7 & (r & R1 & _ & R3 & R4 & R5 & R6 & _ & R8 & R9) & _ & Hk).
  pose proof (own_sorted p Hp) as Hso. assert (Hza : zlen assigned = nthz (counts_ sa) p) by (rewrite Ec; unfold zlen; by rewrite D5). destruct (Hsorted p Hp) as (_ & Hr & _). pose proof (rd_own _ _ _ _ _ _ _ Hr) as Hzo.
  assert (Hse : nthz (sendsOn p) (p + 1) <= zlen (own p) /\ 0 <= nthz (sendsOn p) p). { unfold sendsOn. rewrite (nthz_Some _ _ _ (sendsOf_get sa (keysP p) p ltac:(lia))), (nthz_Some _ _ _ (sendsOf_get sa (keysP p) (p + 1) ltac:(lia))). pose proof (count_lt_range (nthz (rankBoundaries_ sa) p) (keysP p)). pose proof (count_lt_range (nthz (rankBoundaries_ sa) (p + 1)) (keysP p)) as H2. rewrite zlen_map in H2. lia. }
  set (n := zlen (arrivedData arrivals)) in *. cbn [boundsOn bstart bend bsize] in R4, R6, R9, R1. exists d, assigned. do 7 (split; [done|]). split; [|split; [done|]].
  - rewrite D7, R9. unfold receiveStart in R1. cbn [boundsOn bstart bend bsize] in R1. unfold assignedEnvelope. pose proof (zlen_nonneg (arrivedData arrivals)). destruct (Z.leb_spec n (bstart (O p))) as [Hn|Hn].
    + cbn [orb] in R1. injection R1 as <-. cbn [fst]. rewrite u32_small by lia. lia.
    + cbn [orb] in R1. destruct (n <=? _); [|done]. injection R1 as <-. cbn [fst]. lia.
  - split; [rewrite (w_len _ _ _ _ R3); exact (rd_particles _ _ _ _ _ _ _ (grown_ready p Hp))|]. split; [lia|]. split; [destruct R4 as [R4|R4]; lia|]. split; [lia|]. apply Hk.
    + apply Forall_forall. intros x [i Hi]%elem_aget. pose proof (aget_Some_range _ _ _ Hi) as Hir. destruct (keysOn_run p Hp) as (_ & K1 & K2 & K3). destruct (Z.lt_ge_cases i (bsize (O p))) as [Hlt|Hge].
      * rewrite K2 in Hi by lia. destruct (decide (bstart (O p) <= i < bend (O p))) as [Hin|Hout]; [|rewrite <- (nthz_Some _ _ _ Hi); apply (rd_kept _ _ _ _ _ _ _ Hr); lia].
        destruct (rd_order _ _ _ _ _ _ _ Hr (i - bstart (O p)) ltac:(lia)) as (j & y & _ & _ & _ & Ey & Eyk). replace (bstart (O p) + (i - bstart (O p))) with i in Eyk by lia. rewrite Hi in Eyk. injection Eyk as ->. rewrite removeKey_keyMax. pose proof (proj2 (inside_key y.1 (own_elem p y Hp (aget_elem _ _ _ Ey)))). lia.
      * rewrite K3 in Hi by lia. injection Hi as <-. pose proof (removeKey_pos k). congruence.
    + rewrite HN. apply Forall_forall. intros x (q & Hx & Hq%elem_of_seqZ)%list_elem_of_bind. rewrite removeKey_keyMax. pose proof (proj2 (inside_key x.1 (own_elem q x ltac:(lia) Hx))). lia.
Qed.

(** What the distribution leaves on rank [p]: its particles in key order in front of the reordered arrays, the ordering of their
    properties, and the new assignment. *)
Record distributedRank (p : Z) (assigned : list (E * U)) (b1 : Buffers (E := E) (U := U)) (d1 : Domain (T := Q)) : Prop := {
  db_assigned : assigned ≡ₚ assignedTo pairKey sa own p;
  db_sorted : zsorted (key <$> assigned.*1);
  db_buffers : buffersReady k d1 b1 assigned.*1 assigned.*2;
  db_ordered : zlen assigned.*1 <= zlen (b_ordered b1) < 4294967296 /\ slice (b_ordered b1) 0 (zlen assigned.*1) = assigned.*1;
  db_global : exists log, global_ d1 = mkGlobalAssignment bucketSize box sa (sendsOn p) log (treeOn p) false;
  db_domain : d1 = setGlobal (global_ d1) (initBounds (zlen (b_ordered (b p))) (D p))
}.

Lemma distributeParticles_run p arrivals : 0 <= p < N -> interleaves (fun q => messagesTo p (sentOn q)) (seqZ 0 N) arrivals ->
  exists assigned b1 d1, distributeParticles infinity s k zeroE zeroU coords sizes (collectiveTree mpiAllreduce fuel k allKeys trees p) junkE reduced arrivals (b p) (D p) = Some (inr (contributionOf p, sentOn p, [], key <$> assigned.*1, b1, d1)) /\ distributedRank p assigned b1 d1.
Proof using Hmessage Htree Hvalid Hassigned Hsorted Hinside Hbox Hroom Hsearch Hdr Hred.
  intros Hp Harr. destruct (exchange_run p arrivals Hp Harr) as (d & assigned & Ed & E1 & E2 & E3 & E4 & E5 & E6 & E7 & E8 & E9 & E10 & E11 & E13 & E12). destruct Hvalid as (HN & Hv & Hzc). destruct (sizeOn_run p Hp) as [S1 _]. destruct (present_assigned p Hp) as [[P0 P1] P2]. destruct (dr_bounds Hdr p Hp) as [B1 B2]. destruct (dr_sizes Hdr p Hp) as (Z1 & Z2 & Z3). destruct (dr_domain Hdr p Hp) as [F1 F2]. destruct (initBounds_kept (zlen (b_ordered (b p))) (D p)) as (I1 & I2 & I3 & _). pose proof (Hroom p Hp) as Hrm.
  assert (Hcs : (counts_ sa).[p] = Some (nthz (counts_ sa) p)) by (apply nthz_get; lia). assert (Hs0 : (sendsOn p).[p] = Some (nthz (sendsOn p) p)) by (apply nthz_get; unfold sendsOn, sendsOf; rewrite zlen_map, zlen_seqZ; lia). assert (Hs1 : (sendsOn p).[p + 1] = Some (nthz (sendsOn p) (p + 1))) by (apply nthz_get; unfold sendsOn, sendsOf; rewrite zlen_map, zlen_seqZ; lia).
  set (n := nthz (counts_ sa) p) in *. set (first1 := d_start d + nthz (sendsOn p) p) in *. set (log := d_recvLog d). assert (Hdn : 0 <= nthz (sendsOn p) p) by (unfold sendsOn; rewrite (nthz_Some _ _ _ (sendsOf_get sa (keysP p) p ltac:(lia))); apply count_lt_range).
  assert (Hpost : postExchangeStart p (O p) (mkGlobalAssignment bucketSize box sa (sendsOn p) log (treeOn p) false) = Some first1).
  { unfold postExchangeStart, numAssigned, numPresent, numSendDown, sendCount. cbn [ga_assignment ga_exchanges]. rewrite Hcs, Hs0, Hs1. cbn beta iota. fold n. rewrite (proj2 (Z.leb_le (nthz (sendsOn p) p) (nthz (sendsOn p) (p + 1))) ltac:(lia)). rewrite (u32_small (nthz (sendsOn p) (p + 1) - nthz (sendsOn p) p)) by lia. rewrite (u32_small (n - (nthz (sendsOn p) (p + 1) - nthz (sendsOn p) p))) by lia. rewrite <- E7. fold first1. rewrite u32_small by lia. done. }
  destruct E6 as [O1 O2]. assert (Hzd : zlen (drop (Z.to_nat first1) (d_ordering d)) = Z.max 0 (zlen (d_ordering d) - first1)) by (unfold zlen; rewrite length_drop; lia).
  assert (Hord : subspan (d_ordering d) first1 n = Some (slice (d_ordering d) first1 (first1 + n))) by (apply subspan_run; lia).
  set (order := slice (d_ordering d) first1 (first1 + n)) in *. assert (Hzo : zlen order = n) by (unfold order; rewrite slice_zlen; lia).
  assert (Hget : forall i, 0 <= i < n -> exists j, order.[i] = Some j /\ (d_particles d).[j] = assigned.[i]).
  { intros i Hi. specialize (O2 i ltac:(lia)). destruct (aget_is_Some assigned i ltac:(lia)) as [x Hx]. rewrite Hx in O2 |- *. unfold order. rewrite slice_get by lia.
    assert (Hdr' : (drop (Z.to_nat first1) (d_ordering d)).[i] = (d_ordering d).[first1 + i]) by (rewrite !aget_lookup by lia; rewrite lookup_drop; f_equal; lia). rewrite Hdr' in O2. destruct ((d_ordering d).[first1 + i]) as [j|]; [|done]. by exists j. }
  destruct (gatherAt_written order (d_particles d).*1 assigned.*1 (junkE <$> seqZ 0 (sizeOn p)) 0) as (ordered1 & Eg & Hwr).
  { lia. } { rewrite !zlen_map, zlen_seqZ; lia. } { rewrite zlen_map. lia. } { intros i Hi. rewrite zlen_map in Hi. destruct (Hget i ltac:(lia)) as (j & Ej & Ex). exists j. split; [done|]. by rewrite !aget_map, Ex. }
  assert (Hzord : zlen ordered1 = sizeOn p) by (rewrite (w_len _ _ _ _ Hwr), zlen_map, zlen_seqZ; lia).
  exists assigned, (mkBuffers (d_keys d) ordered1 (d_particles d).*2 (d_ordering d)), (setGlobal (mkGlobalAssignment bucketSize box sa (sendsOn p) log (treeOn p) false) (initBounds (zlen (b_ordered (b p))) (D p))). split.
  - unfold distributeParticles. cbn zeta. rewrite I1, I2, I3, F1, F2. change (bufDesc_ (initBounds (zlen (b_ordered (b p))) (D p))) with (O p). unfold checkSizesEqual. cbn [forallb]. rewrite Z1, Z2, Z3, Z.eqb_refl. cbn [andb negb].
    rewrite (assign_run p Hp). cbn beta iota. rewrite (proj1 (keysOn_run p Hp)). cbn beta iota. unfold numAssigned at 1. cbn [globalOn ga_assignment ga_exchanges ga_box ga_bucketSize ga_tree ga_firstCall]. rewrite Hcs. cbn beta iota. fold n. fold (particlesOn p). fold (boundsOn p). rewrite Ed. cbn beta iota. fold log. rewrite Hpost. cbn beta iota. rewrite Hord. cbn beta iota. unfold gatherArrays. rewrite Eg. cbn beta iota.
    rewrite E1, E2, E3. by rewrite <- list_fmap_compose.
  - split.
    + done.
    + rewrite <- list_fmap_compose. by rewrite E3 in E4.
    + split.
      * cbn [setGlobal bufDesc_]. change (0 <= bsize (O p)). lia.
      * cbn [setGlobal d_myRank global_]. rewrite I1, F1. unfold numAssigned. cbn [ga_assignment]. rewrite Hcs, zlen_map. fold n. by rewrite E8.
      * split; [by rewrite !zlen_map|]. exists first1, order. cbn [setGlobal d_myRank global_ bufDesc_ b_ordering b_properties]. rewrite I1, F1. split; [exact Hpost|]. rewrite zlen_map, E8. split; [exact Hord|]. intros i Hi. destruct (Hget i Hi) as (j & Ej & Ex). exists j. split; [done|]. by rewrite !aget_map, Ex.
      * exact E12.
    + cbn [b_ordered]. rewrite zlen_map. split; [lia|]. rewrite <- (zlen_map fst assigned). apply (written_slice (junkE <$> seqZ 0 (sizeOn p)) ordered1 0); [lia|rewrite !zlen_map, zlen_seqZ; lia|exact Hwr].
    + by exists log.
    + done.
Qed.

Hypothesis Hoffsets : zlen (treeOffsets_ sa) = N + 1 /\ zlen (numNodesPerRank_ sa) = N /\ (forall r, 0 <= r <= N -> tree.[nthz (treeOffsets_ sa) r] = Some (nthz (rankBoundaries_ sa) r)) /\
  (forall r, 0 <= r < N -> nthz (numNodesPerRank_ sa) r = nthz (treeOffsets_ sa) (r + 1) - nthz (treeOffsets_ sa) r).

Section Done.
Context (assigned : Z -> list (E * U)) (b1 : Z -> Buffers (E := E) (U := U)) (D1 : Z -> Domain (T := Q)).
Hypothesis Hdone : forall p, 0 <= p < N -> distributedRank p (assigned p) (b1 p) (D1 p).

(** No particle is lost or duplicated. *)
Lemma assigned_total : seqZ 0 N ≫= assigned ≡ₚ all.
Proof using Hdone Hvalid Hsorted Hinside Hbox.
  destruct Hvalid as (HN & Hv & _). rewrite <- own_total. rewrite <- (partition_ranks (fun x => findRank sa (pairKey x)) (seqZ 0 N) (seqZ 0 N ≫= own) (NoDup_seqZ 0 N)).
  - assert (H : forall l : list Z, (forall p, p ∈ l -> 0 <= p < N) -> l ≫= assigned ≡ₚ l ≫= (fun p => filter (fun x => findRank sa (pairKey x) = Some p) (seqZ 0 N ≫= own))); [|apply H; intros p Hp%elem_of_seqZ; lia].
    induction l as [|p l IH]; intros Hl; [done|]. rewrite !bind_cons. assert (Hp : 0 <= p < N) by (apply Hl, elem_of_cons; by left). rewrite (db_assigned _ _ _ _ (Hdone p Hp)). unfold assignedTo. rewrite HN. f_equiv. apply IH. intros q Hq. apply Hl, elem_of_cons. by right.
  - apply Forall_forall. intros x (q & Hx & Hq%elem_of_seqZ)%list_elem_of_bind. destruct (findRank_total k sa Hv (pairKey x)) as (r & Hr & Er); [apply inside_key, (own_elem q); [lia|done]|]. exists r. split; [apply elem_of_seqZ; lia|done].
Qed.

Local Abbreviation ownE := (fun p => (assigned p).*1).

Lemma particles_assigned : particlesOf N ownE = (seqZ 0 N ≫= assigned).*1.
Proof using. clear. unfold particlesOf. generalize (seqZ 0 N) as l. intros l. induction l as [|p l IH]; [done|]. rewrite fmap_cons, bind_cons, fmap_app. cbn [concat]. by rewrite IH. Qed.

Lemma assigned_defined : Forall (fun x => insideCoords box (coords x) /\ is_Some (particleKey s k coords box x) /\ key x <> removeKey k) (particlesOf N ownE).
Proof using Hdone Hvalid Hsorted Hinside Hbox.
  rewrite particles_assigned. apply Forall_fmap. rewrite assigned_total. eapply Forall_impl; [exact Hinside|]. intros x Hx. unfold compose. destruct (inside_key x.1 Hx) as [H1 H2]. split; [done|]. split; [done|]. rewrite removeKey_keyMax. lia.
Qed.

Lemma distributed_ready : focusKept k N D tree -> passReady s k coords N D1 sa tree box ownE (fun p => b_ordered (b1 p)).
Proof using Hdone Hoffsets Htree Hvalid Hsorted Hinside Hbox Hroom Hsearch Hdr.
  intros [K1 K2 K3 K4 K5 K6 K7]. pose proof Hvalid as (HN & Hv & _). pose proof (dr_ranks Hdr).
  assert (Hf : forall p, 0 <= p < N -> focusTree_ (D1 p) = focusTree_ (D p) /\ halos_ (D1 p) = halos_ (D p) /\ d_myRank (D1 p) = p).
  { intros p Hp. rewrite (db_domain _ _ _ _ (Hdone p Hp)). cbn [setGlobal focusTree_ halos_ d_myRank]. destruct (initBounds_kept (zlen (b_ordered (b p))) (D p)) as (-> & _ & _ & -> & -> & _). by destruct (dr_domain Hdr p Hp) as [-> _]. }
  split.
  - exact Hv.
  - exact HN.
  - exact Hoffsets.
  - split; [apply Htree|exact K1].
  - exact Hbox.
  - intros p Hp. destruct (Hf p Hp) as (_ & -> & ->). split; [done|]. split; [by apply K2|]. destruct (db_global _ _ _ _ (Hdone p Hp)) as [log ->]. cbn [ga_assignment ga_box ga_tree]. destruct (treeOn_copy p Hp) as [_ [C1 C2 _]]. rewrite C1, C2. do 3 (split; [done|]). apply totalCounts_perm.
    assert (E1 : forall l : list Z, concat ((fun p => pairKey <$> own p) <$> l) = pairKey <$> (l ≫= own)) by (clear; induction l as [|q l IH]; [done|]; rewrite fmap_cons, bind_cons, fmap_app; cbn [concat]; by rewrite IH).
    assert (E2 : forall l : list Z, concat ((fun q => key <$> (assigned q).*1) <$> l) = pairKey <$> (l ≫= assigned)) by (clear; induction l as [|q l IH]; [done|]; rewrite fmap_cons, bind_cons, fmap_app; cbn [concat]; rewrite IH; f_equal; by rewrite <- list_fmap_compose).
    rewrite E1, E2. f_equiv. by rewrite assigned_total, own_total.
  - intros p Hp. destruct (Hf p Hp) as (-> & _). by apply K3.
  - intros p Hp. destruct (Hf p Hp) as (-> & _). by apply K4.
  - intros p Hp. destruct (Hf p Hp) as (-> & _). by apply K5.
  - intros p Hp. destruct (Hf p Hp) as (-> & _). by apply K6.
  - intros p Hp. destruct (Hf p Hp) as (-> & _). by apply K7.
  - intros p Hp. split; [apply (db_sorted _ _ _ _ (Hdone p Hp))|]. apply Forall_fmap. rewrite (db_assigned _ _ _ _ (Hdone p Hp)). apply Forall_forall. intros x [Hx _]%list_elem_of_filter. unfold compose. apply (findRank_iff k sa Hv); [lia|done].
  - rewrite particles_assigned, zlen_map. assert (Hz : zlen (seqZ 0 N ≫= assigned) = zlen all) by (unfold zlen; by rewrite assigned_total). pose proof (Hroom 0 ltac:(lia)). pose proof (dr_bounds Hdr 0 ltac:(lia)). lia.
  - intros p Hp. apply (db_ordered _ _ _ _ (Hdone p Hp)).
Qed.

End Done.

End Assigned.

End Sorted.

Local Abbreviation trees := ((fun p => ga_tree (global_ (D p))) <$> seqZ 0 N).

(** The state of rank [p] after the distribution. *)
Record distributedState (tree : list Z) (sa : SfcAssignment) (totals : list Z) (p : Z) (assigned : list (E * U)) (b1 : Buffers (E := E) (U := U)) (d1 : Domain (T := Q)) : Prop := {
  ds_buffers : buffersReady k d1 b1 assigned.*1 assigned.*2;
  ds_ranks : Forall (fun x => findRank sa (pairKey x) = Some p) assigned;
  ds_global : ga_bucketSize (global_ d1) = bucketSize /\ ga_box (global_ d1) = box /\ ga_assignment (global_ d1) = sa /\ ga_firstCall (global_ d1) = false /\ globalCopy k tree totals (ga_tree (global_ d1));
  ds_domain : d1 = setGlobal (global_ d1) (initBounds (zlen (b_ordered (b p))) (D p))
}.

Lemma distribution_world : 2 * maxTreeLevel k < Z.of_nat fuel -> 1 <= maxMessage sizes ->
  exists keys sent tree totals sa, rebalanceInput k tree totals bucketSize /\ forall arrivals, (forall p, 0 <= p < N -> interleaves (fun q => messagesTo p (sent q)) (seqZ 0 N) (arrivals p)) ->
  exists assigned b1 D1, (forall p, 0 <= p < N -> distributedState tree sa totals p (assigned p) (b1 p) (D1 p) /\
      distributeParticles infinity s k zeroE zeroU coords sizes (collectiveTree mpiAllreduce fuel k keys trees p) junkE reduced (arrivals p) (b p) (D p) = Some (inr (contributionOf p, sent p, [], key <$> (assigned p).*1, b1 p, D1 p))) /\
    seqZ 0 N ≫= assigned ≡ₚ all /\ Forall (fun x => insideCoords box (coords x) /\ is_Some (particleKey s k coords box x) /\ key x <> removeKey k) (particlesOf N (fun p => (assigned p).*1)) /\
    (focusKept k N D tree -> passReady s k coords N D1 sa tree box (fun p => (assigned p).*1) (fun p => b_ordered (b1 p))).
Proof using SumsUnsigned0 Hdr Hred Hbox Hinside Hroom Hsearch.
  intros Hfuel Hmsg. destruct assigned_sorted as (keys1 & ord1 & own & Hs). set (keys := (fun p => pairKey <$> own p) <$> seqZ 0 N). destruct (tree_run keys1 ord1 own Hs Hfuel) as (tree & gs & Htree). pose proof Htree as (_ & _ & Hcs & _).
  destruct (assignment_run keys1 ord1 own Hs tree Hcs) as (sa & HN & Hv & Hzc & Hoff & Ha). set (sent := sentOn ord1 own sa).
  exists keys, sent, tree, (totalCounts keys tree), sa. split; [by apply (tree_input keys1 ord1 own)|]. intros arrivals Harr. assert (Hva : assignmentRanks sa = N /\ validAssignment k sa /\ zlen (counts_ sa) = N) by done.
  destruct (ranks_choice ([], mkBuffers [] [] [] [], D 0) (fun p '(assigned, b1, d1) => distributeParticles infinity s k zeroE zeroU coords sizes (collectiveTree mpiAllreduce fuel k keys trees p) junkE reduced (arrivals p) (b p) (D p) = Some (inr (contributionOf p, sent p, [], key <$> assigned.*1, b1, d1)) /\ distributedRank own gs sa p assigned b1 d1) N) as [f Hf].
  { intros p Hp. destruct (distributeParticles_run keys1 ord1 own Hs tree gs sa Htree Hva Ha Hmsg p (arrivals p) Hp (Harr p Hp)) as (assigned & b1 & d1 & H). by exists (assigned, b1, d1). }
  set (assigned := fun p => (f p).1.1). set (b1 := fun p => (f p).1.2). set (D1 := fun p => (f p).2).
  assert (Hrun : forall p, 0 <= p < N -> distributeParticles infinity s k zeroE zeroU coords sizes (collectiveTree mpiAllreduce fuel k keys trees p) junkE reduced (arrivals p) (b p) (D p) = Some (inr (contributionOf p, sent p, [], key <$> (assigned p).*1, b1 p, D1 p)) /\ distributedRank own gs sa p (assigned p) (b1 p) (D1 p)).
  { intros p Hp. specialize (Hf p Hp). unfold assigned, b1, D1. by destruct (f p) as [[? ?] ?]. }
  assert (Hdone : forall p, 0 <= p < N -> distributedRank own gs sa p (assigned p) (b1 p) (D1 p)) by (intros p Hp; by apply Hrun). exists assigned, b1, D1. split; [|split; [|split]].
  - intros p Hp. split; [|by apply Hrun]. destruct (Hdone p Hp) as [H1 H2 H3 H4 [log H5] H6]. split; [done| | |done].
    + rewrite H1. apply Forall_forall. intros x [Hx _]%list_elem_of_filter. exact Hx.
    + rewrite H5. cbn [ga_bucketSize ga_box ga_assignment ga_firstCall ga_tree]. do 4 (split; [done|]). by apply (treeOn_copy own tree gs Htree p Hp).
  - by apply (assigned_total keys1 ord1 own Hs gs sa Hva assigned b1 D1).
  - by apply (assigned_defined keys1 ord1 own Hs gs sa Hva assigned b1 D1).
  - by apply (distributed_ready keys1 ord1 own Hs tree gs sa Htree Hva Hoff assigned b1 D1).
Qed.

End Distribution.
