(* ===== verification/SyncStep.v ===== *)
(** * The domain update on all ranks

    A call of [Domain::sync] after the first one on all ranks: distribution, passes, new layout and halo exchange, from the state that
    one call leaves to the state that the next one starts from. *)

From Stdlib Require Import QArith.
From S2P Require Import Prelude Primitives SfcCommon Csarray CsInvariant CsRebalance CsCounts CsBuild CsUtil SfcBox Morton Hilbert Sfc Octree OctreeNodes OctreeBuild OctreeQueries IndexRanges DomainDecomp Layout FocusRebalance FocusInject FocusTree FocusOps FocusUpdate GlobalTree Exchange Distribute Halos HaloExchange NodeLookup Scalars FloatBox GlobalBox Macs SourceCenter Marking ExactGeometry ExactCoords Neighbors NeighborSearch IjLoop Treelets TreeletSync TreeletWorld TreeletCells FocusedOctree FocusCounts FocusTrees FocusedProperties Domain DomainLayout DomainHalos HaloSearch SyncPass SyncFinish SyncDistribute.
#[local] Open Scope Z_scope.

(** The state of all ranks between two calls of [sync]. *)
Record betweenSyncs {E U} (k : KeyType) (N : Z) (D : Z -> Domain (T := Q)) (b : Z -> Buffers (E := E) (U := U)) (box : Box Q) (bucketSize : Z) (leaves counts : list Z) : Prop := {
  bs_ready : domainReady k N D b box false bucketSize leaves counts;
  bs_called : forall p, 0 <= p < N -> firstCall_ (D p) = false;
  bs_focus : focusKept k N D leaves
}.

(** What a call of [sync] leaves on rank [p], when [all] are the particles of all ranks with their properties: each rank holds the particles
    with keys in its range, its arrays are sorted by key, and they contain all particles in the search radius of its own ones if the lower corner
    of the box is on the grid, and otherwise those whose distance is below the search radius minus a grid cell in every dimension. *)
Record syncedBuffers {E U} (s : SfcKind) (k : KeyType) (coords : E -> Vec3 Q) (radius : E -> Q) (box : Box Q) (all : list (E * U)) (ext : Q) (p : Z) (held : list (E * U)) (b' : Buffers (E := E) (U := U)) (d' : Domain (T := Q)) : Prop := {
  sb_ranks : Forall (fun x => findRank (ga_assignment (global_ d')) (definedKey s k coords box x.1) = Some p) held;
  sb_keys : b_keys b' = definedKey s k coords box <$> b_ordered b' /\ zsorted (b_keys b');
  sb_present : forall x, x ∈ b_ordered b' -> x ∈ all.*1;
  sb_near : forall x y r, alignedBox k box -> x ∈ held -> y ∈ all -> r = (radius x.1 * (s_ofZ 2 * ext)%S)%Q -> (0 <= r)%Q -> imageWithin box (r * r)%Q (coords x.1) (coords y.1) -> y.1 ∈ b_ordered b';
  sb_nearby : forall x y r, x ∈ held -> y ∈ all -> r = (radius x.1 * (s_ofZ 2 * ext)%S)%Q -> imageNear box r (cellSize k box) (coords x.1) (coords y.1) -> y.1 ∈ b_ordered b'
}.

(** The neighbor search on rank [p] finds for each of its own particles, at index [i] of its arrays, exactly the particles of all ranks whose
    closest image is within twice the smoothing length: the positions it reports hold these particles, each once. *)
Definition neighborsExact {E U} (coords : E -> Vec3 Q) (radius : E -> Q) (box : Box Q) (all : list E) (b' : Buffers (E := E) (U := U)) (d' : Domain (T := Q)) : Prop :=
  forall i x ngmax base stride nbs, startIndex d' <= i < endIndex d' -> (b_ordered b').[i] = Some x -> (0 < radius x)%Q -> 1 <= stride -> 0 <= base -> base + (ngmax - 1) * stride < zlen nbs -> zlen nbs < 2 ^ 64 ->
  exists found nbs', findNeighbors i (xs coords (b_ordered b')) (ys coords (b_ordered b')) (zs coords (b_ordered b')) (perParticle (hs radius (b_ordered b'))) (octreeProperties d') box ngmax nbs base stride = Some (zlen found, nbs') /\
    listed ngmax base stride found nbs nbs' /\ Forall (fun j => 0 <= j < zlen (b_ordered b')) found /\
    x :: omap (fun j => (b_ordered b').[j]) found ≡ₚ filter (fun y => interacting coords radius box x y = true) all.

Lemma focusKept_grow k N D leaves tree : focusKept k N D leaves -> zlen leaves <= zlen tree -> nNodes tree < 2 ^ 32 -> focusKept k N D tree.
Proof. intros [K1 K2 K3 K4 K5 K6 K7] Hz Hn. split; try done. intros p Hp. destruct (K7 p Hp) as [Z1 Z2]. split; [done|]. intros r Hr. destruct (Z2 r Hr) as [Z3 Z4]. split; [done|lia]. Qed.

(** The focus trees after the passes. *)
Lemma passReady_kept s k {E} (coords : E -> Vec3 Q) N D D' sa gLeaves box (own ordered : Z -> list E) : passReady s k coords N D sa gLeaves box own ordered ->
  (forall p, 0 <= p < N -> focusTree_ (D' p) = focusTree_ (D p) /\ h_myRank (halos_ (D' p)) = p) -> focusKept k N D' gLeaves.
Proof.
  intros [_ _ _ G1 _ _ K3 K4 K5 K6 K7 _ _ _] Hf. split; [apply G1|intros p Hp; by apply Hf| | | | |]; intros p Hp; rewrite (proj1 (Hf p Hp)); [by apply K3|by apply K4|by apply K5|by apply K6|by apply K7].
Qed.

Lemma setFocus_id (d : Domain (T := Q)) : setFocus (focusTree_ d) d = d.
Proof. by destruct d. Qed.

Section Step.
Context (mpiAllreduce : list (list Z) -> list Z) `{!SumsUnsigned mpiAllreduce} (fuel : nat) (infinity : Q) (sqrt : Q -> Q) (s : SfcKind) (k : KeyType).
Context {E U : Type} (zeroE : E) (zeroU : U) (coords : E -> Vec3 Q) (radius : E -> Q) (sizes : list Z) (junkE : Z -> E) (junkU : Z -> U) (junkVec : Z -> Vec3 Q) (junkIdx : Z -> Z).
Context (N : Z) (D : Z -> Domain (T := Q)) (b : Z -> Buffers (E := E) (U := U)) (box0 : Box Q) (bucketSize : Z) (leaves counts : list Z) (reduced : Extrema Q).

Local Abbreviation box := (nextBox box0 false reduced).
Local Abbreviation key := (definedKey s k coords (nextBox box0 false reduced)).
Local Abbreviation all := (seqZ 0 N ≫= heldBy D b).

(** *** The end of the call *)

Section Finished.
Context (tree totals : list Z) (sa : SfcAssignment) (assigned : Z -> list (E * U)) (b1 : Z -> Buffers (E := E) (U := U)) (D1 D2 D3 : Z -> Domain (T := Q)) (status : Z -> Z) (b' : Z -> Buffers (E := E) (U := U)) (D' : Z -> Domain (T := Q)).
Hypothesis Hin : rebalanceInput k tree totals bucketSize.
Hypothesis Hranks : 1 <= N < 2147483648.
Hypothesis Hranked : forall p, 0 <= p < N -> d_myRank (D1 p) = p /\ d_numRanks (D1 p) = N.
Hypothesis Hext : forall p, 0 <= p < N -> haloSearchExt_ (D1 p) = haloSearchExt_ (D p).
Hypothesis Hst : forall p, 0 <= p < N -> distributedState s k coords D b box0 false bucketSize reduced tree sa totals p (assigned p) (b1 p) (D1 p).
Hypothesis Hperm : seqZ 0 N ≫= assigned ≡ₚ all.
Hypothesis Hdef : Forall (fun x => insideCoords box (coords x) /\ is_Some (particleKey s k coords box x) /\ key x <> removeKey k) (particlesOf N (fun p => (assigned p).*1)).
Hypothesis Hpd : passDone s k coords radius N D2 D3 status sa tree box (fun p => (assigned p).*1) (fun p => b_ordered (b1 p)).
Hypothesis Hkept : forall p, 0 <= p < N -> d_myRank (D2 p) = d_myRank (D1 p) /\ d_numRanks (D2 p) = d_numRanks (D1 p) /\ global_ (D2 p) = global_ (D1 p) /\ bufDesc_ (D2 p) = bufDesc_ (D1 p) /\ haloSearchExt_ (D2 p) = haloSearchExt_ (D1 p).
Hypothesis Hsd : forall p, 0 <= p < N -> syncDone s k coords N D3 sa box (fun p => (assigned p).*1) (fun p => (assigned p).*2) p (b' p) (D' p).

Let Hw := pd_placed _ _ _ _ _ _ _ _ _ _ _ _ _ Hpd.

Lemma finished_bounds p : 0 <= p < N -> boundsOf D' b' p = bufDesc_ (D' p).
Proof using Hsd. intros Hp. unfold boundsOf, initBounds. by rewrite (sd_called _ _ _ _ _ _ _ _ _ _ _ _ (Hsd p Hp)). Qed.

Lemma finished_held p : 0 <= p < N -> heldBy D' b' p = assigned p.
Proof using Hsd.
  intros Hp. unfold heldBy. rewrite (finished_bounds p Hp), slice_zip. destruct (Hsd p Hp) as [_ _ Ho Hu _ _ _ _ _ _]. unfold startIndex, endIndex in Ho, Hu. rewrite Ho, Hu. apply zip_fst_snd.
Qed.

Lemma finished_global p : 0 <= p < N -> global_ (D' p) = global_ (D1 p) /\ d_myRank (D' p) = p /\ d_numRanks (D' p) = N.
Proof using Hsd Hkept Hpd Hranked.
  intros Hp. destruct (sd_domain _ _ _ _ _ _ _ _ _ _ _ _ (Hsd p Hp)) as (-> & -> & -> & _). destruct (pd_kept _ _ _ _ _ _ _ _ _ _ _ _ _ Hpd p Hp) as (-> & -> & -> & _). destruct (Hkept p Hp) as (-> & -> & -> & _). destruct (Hranked p Hp) as [-> ->]. done.
Qed.

Lemma finished_total : seqZ 0 N ≫= heldBy D' b' ≡ₚ all.
Proof using Hsd Hperm.
  rewrite <- Hperm. apply reflexive_eq. apply Forall_bind_ext, Forall_forall. intros p Hp%elem_of_seqZ. apply finished_held. lia.
Qed.

Lemma finished_particles x : x ∈ particlesOf N (fun p => (assigned p).*1) <-> x ∈ all.*1.
Proof using Hperm. rewrite <- Hperm. by rewrite particles_assigned. Qed.

Lemma finished_keys p : 0 <= p < N -> Forall (fun x => x <> removeKey k) (b_keys (b' p)).
Proof using Hsd Hdef.
  intros Hp. rewrite (sd_keys _ _ _ _ _ _ _ _ _ _ _ _ (Hsd p Hp)), (sd_ordered _ _ _ _ _ _ _ _ _ _ _ _ (Hsd p Hp)). apply Forall_fmap, Forall_forall. intros x Hx%(presentBuffer_elem s k coords N D3 sa (fun p => (assigned p).*1) box p). rewrite Forall_forall in Hdef. by apply Hdef.
Qed.

Lemma finished_ready : domainReady k N D' b' box false bucketSize tree totals.
Proof using Hsd Hdef Hpd Hkept Hst Hin Hranks Hranked.
  split.
  - done.
  - intros p Hp. by destruct (finished_global p Hp) as (_ & ? & ?).
  - intros p Hp. destruct (finished_global p Hp) as (-> & _). destruct (ds_global _ _ _ _ _ _ _ _ _ _ _ _ _ _ _ _ (Hst p Hp)) as (? & ? & _ & ? & ?). done.
  - exact Hin.
  - intros p Hp. rewrite (finished_bounds p Hp). destruct (Hsd p Hp) as [Eo _ _ _ [Z1 _] _ _ [R1 R2] _ _]. unfold startIndex, endIndex in *. unfold nParticlesWithHalos in Z1. split; [done|]. rewrite <- Z1. split; [done|]. rewrite Eo, zlen_presentBuffer. exact (total_offset _ k N _ sa _ Hw p Hp).
  - intros p Hp. rewrite (finished_bounds p Hp). destruct (Hsd p Hp) as [_ Ek _ _ [Z1 Z2] _ _ _ _ _]. split; [exact Z1|]. split; [|exact Z2]. rewrite Ek, zlen_map. exact Z1.
  - exact finished_keys.
Qed.

Lemma finished_between : betweenSyncs k N D' b' box bucketSize tree totals.
Proof using Hsd Hdef Hpd Hkept Hst Hin Hranks Hranked.
  split; [exact finished_ready| |].
  - intros p Hp. exact (sd_called _ _ _ _ _ _ _ _ _ _ _ _ (Hsd p Hp)).
  - eapply passReady_kept; [exact (pd_ready _ _ _ _ _ _ _ _ _ _ _ _ _ Hpd)|]. intros p Hp. split; [exact (sd_focus _ _ _ _ _ _ _ _ _ _ _ _ (Hsd p Hp))|]. apply (sd_domain _ _ _ _ _ _ _ _ _ _ _ _ (Hsd p Hp)).
Qed.

Lemma finished_buffers p : 0 <= p < N -> syncedBuffers s k coords radius box all (haloSearchExt_ (D p)) p (heldBy D' b' p) (b' p) (D' p).
Proof using Hsd Hdef Hpd Hkept Hst Hperm Hext Hranked.
  intros Hp. rewrite (finished_held p Hp). pose proof (sd_ordered _ _ _ _ _ _ _ _ _ _ _ _ (Hsd p Hp)) as Eo. pose proof (sd_keys _ _ _ _ _ _ _ _ _ _ _ _ (Hsd p Hp)) as Ek.
  assert (near : forall x y r d, gridSlack k box d -> x ∈ assigned p -> y ∈ all -> r = (radius x.1 * (s_ofZ 2 * haloSearchExt_ (D p))%S)%Q -> imageNear box r d (coords x.1) (coords y.1) -> y.1 ∈ b_ordered (b' p)).
  { intros x y r d Hsl Hx Hy Er Him. rewrite Eo. assert (Hy' : y.1 ∈ particlesOf N (fun p => (assigned p).*1)) by (apply finished_particles, list_elem_of_fmap; by exists y). rewrite Forall_forall in Hdef. destruct (Hdef _ Hy') as (I1 & I2 & _).
    apply (pd_near _ _ _ _ _ _ _ _ _ _ _ _ _ Hpd p x.1 y.1 r d Hp Hsl); [apply list_elem_of_fmap; by exists x|done|done|done| |done]. destruct (Hkept p Hp) as (_ & _ & _ & _ & ->). by rewrite (Hext p Hp). }
  split.
  - destruct (finished_global p Hp) as (-> & _). destruct (ds_global _ _ _ _ _ _ _ _ _ _ _ _ _ _ _ _ (Hst p Hp)) as (_ & _ & -> & _). apply (ds_ranks _ _ _ _ _ _ _ _ _ _ _ _ _ _ _ _ (Hst p Hp)).
  - split; [done|]. rewrite Ek, Eo. by apply (presentBuffer_sorted _ k N _ sa _ Hw).
  - intros x. rewrite Eo. intros Hx%(presentBuffer_elem s k coords N D3 sa (fun p => (assigned p).*1) box p). by apply finished_particles.
  - intros x y r Hal Hx Hy Er Hr Him. by apply (near x y r zeroVec (or_intror (conj Hal eq_refl)) Hx Hy Er), imageWithin_near.
  - intros x y r Hx Hy Er Him. by apply (near x y r (cellSize k box) (or_introl eq_refl) Hx Hy Er).
Qed.

Lemma finished_neighbors p : 0 <= p < N -> alignedBox k box -> (1 <= haloSearchExt_ (D p))%Q -> neighborsExact coords radius box all.*1 (b' p) (D' p).
Proof using Hsd Hdef Hpd Hkept Hperm Hext.
  intros Hp Hal Hsx i x ngmax base stride nbs Hi Hx Hr Hs1 Hb Hroom Hsize. destruct (Hkept p Hp) as (_ & _ & _ & _ & E2). assert (Hin' : Forall (fun x => insideCoords box (coords x) /\ is_Some (particleKey s k coords box x)) (particlesOf N (fun p => (assigned p).*1))) by (eapply Forall_impl; [exact Hdef|]; intros e (H1 & H2 & _); done).
  destruct (synced_search s k coords radius N D2 D3 status sa tree box _ _ _ p (b' p) (D' p) Hpd Hp (Hsd p Hp) Hal Hin' i x ngmax base stride nbs Hi Hx Hr) as (found & nbs' & E1 & Hl & Hf & Hperm'); [by rewrite E2, (Hext p Hp)|done|done|done|done|].
  exists found, nbs'. split; [exact E1|]. split; [exact Hl|]. split; [exact Hf|]. rewrite Hperm'. apply filter_Permutation. rewrite particles_assigned. by rewrite Hperm.
Qed.

End Finished.

(** *** The call *)

(** [sync] on all ranks: for every arrival order of all messages, if the global tree has at least as many leaves as before, no rank reports a
    failure in the last pass, and the positions of the assigned properties are inside of the arrays in their new size, every rank completes the
    call, no messages are left, and [post] holds of the new buffers and states, and of the new global tree and its counts. *)
Definition syncOn (post : (Z -> Buffers (E := E) (U := U)) -> (Z -> Domain (T := Q)) -> list Z -> list Z -> Prop) : Prop :=
  exists keys sent tree totals, forall arrivals, (forall p, 0 <= p < N -> interleaves (fun q => messagesTo p (sent q)) (seqZ 0 N) (arrivals p)) -> zlen leaves <= zlen tree -> nNodes tree < 2 ^ 32 ->
  exists own (b1 : Z -> Buffers (E := E) (U := U)) D1, loopOn sqrt s k coords radius junkVec junkIdx N box own b1 10 D1 (fun _ => []) (fun _ => []) (fun passes sents D2 => (forall p, 0 <= p < N -> pt_fail <$> last (sents p) = Some 0) -> (forall p, 0 <= p < N -> gatherFits (b1 p) (D2 p)) ->
    exists halos, forall arrivals', delivered N halos arrivals' -> exists b' D',
      (forall p converge centers, 0 <= p < N ->
        sync infinity sqrt s k zeroE zeroU coords radius sizes (collectiveTree mpiAllreduce fuel k keys ((fun p => ga_tree (global_ (D p))) <$> seqZ 0 N) p) junkE junkU junkVec junkIdx (mkSyncInput reduced (arrivals p) converge centers (passes p) (arrivals' p)) (b p) (D p) =
          Some (inr (mkSyncSent (contributionOf infinity coords D b box0 p) (sent p) (sents p) (halos p) ([], []), b' p, D' p))) /\
      post b' D' tree totals).

Lemma syncOn_mono (post post' : (Z -> Buffers (E := E) (U := U)) -> (Z -> Domain (T := Q)) -> list Z -> list Z -> Prop) : (forall b' D' tree totals, post b' D' tree totals -> post' b' D' tree totals) -> syncOn post -> syncOn post'.
Proof using.
  intros Hm (keys & sent & tree & totals & H). exists keys, sent, tree, totals. intros arrivals Ha Hz Hn. destruct (H arrivals Ha Hz Hn) as (own & b1 & D1 & Hl). exists own, b1, D1. eapply loopOn_mono; [|exact Hl]. cbn beta. intros passes sents D2 Hc Hs Hg. destruct (Hc Hs Hg) as (halos & Hr). exists halos. intros arrivals' Ha'. destruct (Hr arrivals' Ha') as (b' & D' & Hrun & Hpost). exists b', D'. split; [exact Hrun|by apply Hm].
Qed.

Lemma syncCall_world : betweenSyncs k N D b box0 bucketSize leaves counts -> isReduced (contributionOf infinity coords D b box0 <$> seqZ 0 N) reduced -> exactBox box -> Forall (fun x => insideCoords box (coords x.1)) all ->
  (forall p, 0 <= p < N -> bend (boundsOf D b p) + zlen all < 4294967296) -> zlen all <= 2 ^ (keyBits k - 2) -> 2 * maxTreeLevel k < Z.of_nat fuel -> 1 <= maxMessage sizes ->
  syncOn (fun b' D' tree totals => betweenSyncs k N D' b' box bucketSize tree totals /\ seqZ 0 N ≫= heldBy D' b' ≡ₚ all /\
    forall p, 0 <= p < N -> syncedBuffers s k coords radius box all (haloSearchExt_ (D p)) p (heldBy D' b' p) (b' p) (D' p) /\
      (alignedBox k box -> (1 <= haloSearchExt_ (D p))%Q -> neighborsExact coords radius box all.*1 (b' p) (D' p))).
Proof using SumsUnsigned0.
  intros [Hdr Hcalled Hfocus] Hred Hbox Hinside Hroom Hsearch Hfuel Hmsg.
  destruct (distribution_world mpiAllreduce fuel infinity s k zeroE zeroU coords sizes junkE N D b box0 false bucketSize leaves counts reduced Hdr Hred Hbox Hinside Hroom Hsearch Hfuel Hmsg) as (keys & sent & tree & totals & sa & Hin & Hrun). exists keys, sent, tree, totals.
  intros arrivals Harr Hz Hn. destruct (Hrun arrivals Harr) as (assigned & b1 & D1 & Hst & Hperm & Hdef & Hpass). pose proof (Hpass (focusKept_grow k N D leaves tree Hfocus Hz Hn)) as Hpa. exists (fun p => (assigned p).*1), b1, D1.
  assert (Hd1 : forall p, 0 <= p < N -> firstCall_ (D1 p) = false /\ haloSearchExt_ (D1 p) = haloSearchExt_ (D p) /\ d_myRank (D1 p) = p /\ d_numRanks (D1 p) = N).
  { intros p Hp. rewrite (ds_domain _ _ _ _ _ _ _ _ _ _ _ _ _ _ _ _ (proj1 (Hst p Hp))). cbn [setGlobal firstCall_ haloSearchExt_ d_myRank d_numRanks]. destruct (initBounds_kept (zlen (b_ordered (b p))) (D p)) as (-> & -> & _ & _ & _ & -> & ->). destruct (dr_domain _ _ _ _ _ _ _ _ _ Hdr p Hp) as [-> ->]. by rewrite (Hcalled p Hp). }
  eapply loopOn_mono; [|apply (syncPasses_all sqrt s k zeroE zeroU coords radius junkE junkU junkVec junkIdx N box (fun p => (assigned p).*1) b1 sa tree (fun p => (assigned p).*2) D1 Hpa)].
  - cbn beta. intros passes sents D3 Hc Hs Hg. destruct (Hc Hs Hg) as (D2 & status & Hpd & Hkept & halos & Hfin). exists halos. intros arrivals' Ha'.
    destruct (ranks_choice (b 0, D 0) (fun p '(b', d') => syncPasses s k zeroE zeroU coords junkE junkU (syncPass sqrt s k coords radius junkVec junkIdx (b_ordered (b1 p)) (key <$> (assigned p).*1)) (key <$> (assigned p).*1) (passes p) (arrivals' p) (b1 p) (D1 p) = Some (inr (sents p, halos p, [], b', d')) /\ syncDone s k coords N D3 sa box (fun p => (assigned p).*1) (fun p => (assigned p).*2) p b' d') N) as [f Hf].
    { intros p Hp. destruct (Hfin arrivals' Ha' p Hp) as (b' & d' & H). by exists (b', d'). }
    set (b' := fun p => (f p).1). set (D' := fun p => (f p).2). exists b', D'.
    assert (Hf' : forall p, 0 <= p < N -> syncPasses s k zeroE zeroU coords junkE junkU (syncPass sqrt s k coords radius junkVec junkIdx (b_ordered (b1 p)) (key <$> (assigned p).*1)) (key <$> (assigned p).*1) (passes p) (arrivals' p) (b1 p) (D1 p) = Some (inr (sents p, halos p, [], b' p, D' p)) /\ syncDone s k coords N D3 sa box (fun p => (assigned p).*1) (fun p => (assigned p).*2) p (b' p) (D' p)) by (intros p Hp; specialize (Hf p Hp); unfold b', D'; by destruct (f p)).
    split.
    + intros p converge centers Hp. unfold sync. cbn [in_reduced in_particles in_passes in_halos in_converge]. rewrite (proj2 (Hst p Hp)). cbn beta iota zeta. destruct (Hd1 p Hp) as (-> & _). cbn beta iota. rewrite setFocus_id, (proj1 (Hf' p Hp)). done.
    + assert (Hsd : forall p, 0 <= p < N -> syncDone s k coords N D3 sa box (fun p => (assigned p).*1) (fun p => (assigned p).*2) p (b' p) (D' p)) by (intros p Hp; by apply Hf'). assert (Hst' : forall p, 0 <= p < N -> distributedState s k coords D b box0 false bucketSize reduced tree sa totals p (assigned p) (b1 p) (D1 p)) by (intros p Hp; by apply Hst).
      assert (Hra : forall p, 0 <= p < N -> d_myRank (D1 p) = p /\ d_numRanks (D1 p) = N) by (intros p Hp; by apply Hd1). assert (Hex : forall p, 0 <= p < N -> haloSearchExt_ (D1 p) = haloSearchExt_ (D p)) by (intros p Hp; by apply Hd1). split; [|split].
      * exact (finished_between tree totals sa assigned b1 D1 D2 D3 status b' D' Hin (dr_ranks _ _ _ _ _ _ _ _ _ Hdr) Hra Hst' Hdef Hpd Hkept Hsd).
      * exact (finished_total sa assigned D3 b' D' Hperm Hsd).
      * intros p Hp. split; [exact (finished_buffers tree totals sa assigned b1 D1 D2 D3 status b' D' Hra Hex Hst' Hperm Hdef Hpd Hkept Hsd p Hp)|].
        exact (finished_neighbors tree sa assigned b1 D1 D2 D3 status b' D' Hex Hperm Hdef Hpd Hkept Hsd p Hp).
  - intros p Hp. apply (ds_buffers _ _ _ _ _ _ _ _ _ _ _ _ _ _ _ _ (proj1 (Hst p Hp))).
  - eapply Forall_impl; [exact Hdef|]. intros x (_ & H). exact H.
Qed.

End Step.
