(* ===== verification/SyncProperties.v ===== *)
(** * Properties of class Domain

    The claims about [Domain] of [cstone/domain/domain.hpp]. *)

From Stdlib Require Import QArith.
From S2P Require Import Prelude Primitives SfcCommon Csarray CsInvariant CsRebalance CsCounts CsBuild SfcBox Morton Hilbert Sfc Octree OctreeNodes OctreeBuild OctreeQueries IndexRanges DomainDecomp Layout FocusRebalance FocusInject FocusTree FocusOps FocusUpdate GlobalTree Exchange Distribute Halos HaloExchange NodeLookup Scalars FloatBox GlobalBox Macs SourceCenter Marking ExactGeometry ExactCoords Neighbors NeighborSearch IjLoop Treelets TreeletSync TreeletWorld TreeletCells TreeletProperties FocusedOctree FocusCounts FocusTrees GlobalProperties FocusedProperties Domain DomainLayout DomainHalos HaloSearch SyncPass SyncFinish SyncDistribute SyncStep.
#[local] Open Scope Z_scope.



(** One pass of the loop in [sync] on all ranks succeeds for every arrival order of the messages of each of its exchanges, which are
    all consumed.  Afterwards ([passDone]) all ranks can repeat the pass; the layouts have room for exactly the leaves that are
    owned or marked as halos, and the halo requests fit together; a rank that reports success has only halos that are assigned to
    some rank; and, with exact coordinates, the leaves with room contain every particle of any rank that is closer to a particle
    of the rank than the radius of that particle times twice the search factor, periodic images included. *)
Theorem syncPass_correct sqrt s k {E} (coords : E -> Vec3 Q) radius junkVec junkIdx N D sa gLeaves box own ordered : passReady s k coords N D sa gLeaves box own ordered ->
  exists flags treelets rejects, forall intPeers arrivals1 arrivals2, flagsDelivered N flags intPeers -> delivered N treelets arrivals1 -> delivered N rejects arrivals2 ->
  exists counts, forall arrivals3, delivered N counts arrivals3 ->
  exists status haloFlags requests D', passDone s k coords radius N D D' status sa gLeaves box own ordered /\ forall interior arrivals4, flagsDelivered N haloFlags interior -> delivered N requests arrivals4 ->
    forall p converged centers total, 0 <= p < N ->
      syncPass sqrt s k coords radius junkVec junkIdx (ordered p) (definedKey s k coords box <$> own p) (mkPass (mkRound (intPeers p) (arrivals1 p) (arrivals2 p) (arrivals3 p) converged) centers total (interior p) (arrivals4 p)) (D p) =
        Some (inr (mkPassSent (flags p) (treelets p) (rejects p) (counts p) ([], []) (status p) (haloFlags p) (requests p) ([], []), D' p)).
Proof. apply pass_world. Qed.

(** The call of [sync] on all ranks from the loop over the passes on, for every arrival order of all messages ([syncsTo]): every pass completes,
    and if no rank reports a failure in the last one and the gathered positions are inside of the resized arrays, all messages are consumed, and
    every rank ends up with arrays of the announced
    size that are sorted by key, with the keys next to them; the assigned particles and their properties are between [startIndex] and
    [endIndex], everything else is a particle of some rank, and, with exact coordinates and a lower box corner on the grid, every particle of
    any rank in the search radius of an assigned particle is there. *)
Theorem syncPasses_correct sqrt s k {E U} (zeroE : E) (zeroU : U) (coords : E -> Vec3 Q) radius junkE junkU junkVec junkIdx N D sa gLeaves box own (b : Z -> Buffers (E := E) (U := U)) props :
  passReady s k coords N D sa gLeaves box own (fun p => b_ordered (b p)) -> (forall p, 0 <= p < N -> buffersReady k (D p) (b p) (own p) (props p)) ->
  Forall (fun x => is_Some (particleKey s k coords box x) /\ definedKey s k coords box x <> removeKey k) (particlesOf N own) ->
  syncsTo sqrt s k zeroE zeroU coords radius junkE junkU junkVec junkIdx N box own b D (fun p b' d' =>
    b_keys b' = definedKey s k coords box <$> b_ordered b' /\ zsorted (b_keys b') /\ (forall x, x ∈ b_ordered b' -> x ∈ particlesOf N own) /\
    slice (b_ordered b') (startIndex d') (endIndex d') = own p /\ slice (b_properties b') (startIndex d') (endIndex d') = props p /\
    zlen (b_ordered b') = nParticlesWithHalos d' /\ zlen (b_properties b') = nParticlesWithHalos d' /\ firstCall_ d' = false /\
    forall x y r, alignedBox k box -> x ∈ own p -> y ∈ particlesOf N own -> insideCoords box (coords y) -> r = (radius x * (s_ofZ 2 * haloSearchExt_ (D p))%S)%Q -> (0 <= r)%Q -> imageWithin box (r * r)%Q (coords x) (coords y) -> y ∈ b_ordered b').
Proof.
  intros Hpa Hb Hdef. eapply syncsTo_mono; [|by apply (syncPasses_world sqrt s k zeroE zeroU coords radius junkE junkU junkVec junkIdx N box own b sa gLeaves props D Hpa Hb)]. cbn beta. intros p b' d' Hp (D1 & D' & status & Hd & He & Hsd).
  pose proof (pd_placed _ _ _ _ _ _ _ _ _ _ _ _ _ Hd) as Hw. destruct Hsd as [Eo Ek Hown Hprops [Hz1 Hz2] _ _ _ Hc _]. split; [done|].
  split; [rewrite Ek, Eo; by apply (presentBuffer_sorted _ k N _ sa own Hw)|]. split; [intros x; rewrite Eo; apply (presentBuffer_elem s k coords N D' sa own box p)|]. do 5 (split; [done|]).
  intros x y r Hal Hx Hy Hin Hrr Hr0 Him. rewrite Eo. rewrite <- He in Hrr. apply (pd_near _ _ _ _ _ _ _ _ _ _ _ _ _ Hd p x y r zeroVec Hp (or_intror (conj Hal eq_refl)) Hx Hy Hin); [|done|by apply imageWithin_near]. rewrite Forall_forall in Hdef. by apply Hdef.
Qed.


(** ** Concrete ranks *)

(** The two ranks of [syncedRank] with three particles each, and their state before a pass. *)
Definition unitBox : Box Q := Box_cube (0 : Q)%Q 1%Q periodic.
Definition point (x y z : Z) : Vec3 Q := mkVec3 (x # 16)%Q (y # 16)%Q (z # 16)%Q.
Definition pointKey : Vec3 Q -> Z := definedKey HilbertKey Key32 (fun x => x) unitBox.
Definition pairPoints (p : Z) : list (Vec3 Q) := if p =? 0 then [point 1 1 1; point 7 7 7; point 1 1 15] else [point 9 9 7; point 9 7 9; point 15 1 1].

Definition passRank (p : Z) : FocusedOctree (T := Q) :=
  let f := syncedRank p in
  mkFocusedOctree p 2 16 (box_ f) (FocusedOctree.exteriorPeers_ f) (FocusedOctree.interiorPeers_ f) (treelets_ f) (treeletIdx_ f) (octreeAcc_ f) (leaves_ f) (prevFocusStart f) (prevFocusEnd f)
    [] (nodeCountOf Key32 (pointKey <$> particlesOf 2 pairPoints) <$> prefixes (arrays (octreeAcc_ f))) (replicate (length (prefixes (arrays (octreeAcc_ f)))) 0) [] [] [] [] (assignment_ f) (peerRanges_ f) (globNumNodes_ f) (globDispl_ f) status_countsCriterion.

Definition pairCounts : list Z := totalCounts ((fun q => pointKey <$> pairPoints q) <$> seqZ 0 2) pairLeaves.
Definition pairCopy : GlobalTree := default (mkGlobalTree (octreeAcc_ (syncedRank 1)) pairLeaves pairCounts) (newCopy Key32 pairLeaves pairCounts).

Definition pairGlobal (p : Z) : GlobalAssignment (T := Q) :=
  mkGlobalAssignment 2 unitBox (mkSfcAssignment [0; 4 * 8 ^ 9; 8 ^ 10] [3; 3] [4; 4] [0; 4; 8]) (if p =? 0 then [0; 3; 3] else [0; 0; 3]) [] pairCopy false.

Definition pairDomain (p : Z) : Domain (T := Q) :=
  mkDomain p 2 16 1%Q false 1%Q (21 # 20)%Q (mkBufferDescription 0 3 3) (mkBufferDescription 0 3 3) (passRank p) [] [] (pairGlobal p) (newHalos p) false.

(** The properties have been received in another order. *)
Definition pairBuffers (p : Z) : Buffers (E := Vec3 Q) (U := Z) := mkBuffers [0; 0; 0] (pairPoints p) [10 * p + 3; 10 * p + 1; 10 * p + 2] [1; 2; 0].
Definition pairProperties (p : Z) : list Z := [10 * p + 1; 10 * p + 2; 10 * p + 3].

Lemma unitBox_exact : exactBox unitBox.
Proof. split; [|repeat split; reflexivity]. repeat split; reflexivity. Qed.

Lemma pairReady : passReady HilbertKey Key32 (fun x => x) 2 pairDomain (ga_assignment (pairGlobal 0)) pairLeaves unitBox pairPoints (fun p => b_ordered (pairBuffers p)).
Proof.
  assert (Hp2 : forall p, 0 <= p < 2 -> p = 0 \/ p = 1) by lia. assert (Hp3 : forall p, 0 <= p <= 2 -> p = 0 \/ p = 1 \/ p = 2) by lia. split.
  - split; [vm_compute; congruence|by apply zsortedb_sound|reflexivity|reflexivity].
  - reflexivity.
  - split; [reflexivity|]. split; [reflexivity|]. split; intros r Hr; [destruct (Hp3 r Hr) as [->|[->| ->]]|destruct (Hp2 r Hr) as [->| ->]]; vm_compute; reflexivity.
  - split; [apply (bool_decide_unpack _); vm_compute; exact I|vm_compute; reflexivity].
  - apply unitBox_exact.
  - intros p Hp. done.
  - intros p Hp. destruct (Hp2 p Hp) as [->| ->]; repeat split; reflexivity.
  - intros p Hp. exact (cw_octree _ _ _ _ _ _ _ _ cellWorld2 p Hp).
  - intros p Hp. split; [apply zlen_map|]. destruct (cw_octree _ _ _ _ _ _ _ _ cellWorld2 p Hp) as (t & Ho & _). exact (countsUp_exact Key32 t (cellOctree p) Ho _).
  - intros p Hp. split; [cbn; unfold zlen; by rewrite length_replicate|]. apply marksUp_zeros.
  - intros p Hp. split; [destruct (Hp2 p Hp) as [->| ->]; vm_compute; reflexivity|]. intros r Hr. destruct (Hp2 p Hp) as [->| ->], (Hp2 r Hr) as [->| ->]; vm_compute; intuition congruence.
  - intros p Hp. destruct (Hp2 p Hp) as [->| ->]; (split; [apply zsortedb_sound; vm_compute; reflexivity|repeat (constructor; [vm_compute; split; congruence|]); constructor]).
  - split; [vm_compute; reflexivity|vm_compute; congruence].
  - intros p Hp. split; [split; [done|destruct (Hp2 p Hp) as [->| ->]; vm_compute; reflexivity]|]. destruct (Hp2 p Hp) as [->| ->]; reflexivity.
Qed.

Lemma pairBuffersReady p : 0 <= p < 2 -> buffersReady Key32 (pairDomain p) (pairBuffers p) (pairPoints p) (pairProperties p).
Proof.
  intros Hp. assert (Hp2 : p = 0 \/ p = 1) by lia. split.
  - done.
  - destruct Hp2 as [->| ->]; reflexivity.
  - split; [destruct Hp2 as [->| ->]; reflexivity|]. exists 0, [1; 2; 0]. split; [destruct Hp2 as [->| ->]; vm_compute; reflexivity|]. split; [destruct Hp2 as [->| ->]; vm_compute; reflexivity|].
    intros i Hi. assert (i = 0 \/ i = 1 \/ i = 2) as [->|[->| ->]] by (assert (Hz : zlen (pairPoints p) = 3) by (by destruct Hp2 as [->| ->]); lia); eexists; (split; [reflexivity|destruct Hp2 as [->| ->]; vm_compute; reflexivity]).
  - repeat (constructor; [vm_compute; congruence|]); constructor.
Qed.

Lemma syncPass_correct_witness :
  exists flags treelets rejects, forall intPeers arrivals1 arrivals2, flagsDelivered 2 flags intPeers -> delivered 2 treelets arrivals1 -> delivered 2 rejects arrivals2 ->
  exists counts, forall arrivals3, delivered 2 counts arrivals3 ->
  exists status haloFlags requests D', passDone HilbertKey Key32 (fun x => x) (fun _ => 1 # 16)%Q 2 pairDomain D' status (ga_assignment (pairGlobal 0)) pairLeaves unitBox pairPoints (fun p => b_ordered (pairBuffers p)) /\
    forall interior arrivals4, flagsDelivered 2 haloFlags interior -> delivered 2 requests arrivals4 -> forall p converged centers total, 0 <= p < 2 ->
      syncPass (fun x => x) HilbertKey Key32 (fun x => x) (fun _ => 1 # 16)%Q (fun _ => point 0 0 0) (fun _ => 0) (b_ordered (pairBuffers p)) (definedKey HilbertKey Key32 (fun x => x) unitBox <$> pairPoints p) (mkPass (mkRound (intPeers p) (arrivals1 p) (arrivals2 p) (arrivals3 p) converged) centers total (interior p) (arrivals4 p)) (pairDomain p) =
        Some (inr (mkPassSent (flags p) (treelets p) (rejects p) (counts p) ([], []) (status p) (haloFlags p) (requests p) ([], []), D' p)).
Proof. exact (syncPass_correct (fun x => x) HilbertKey Key32 (fun x => x) (fun _ => 1 # 16)%Q (fun _ => point 0 0 0) (fun _ => 0) 2 pairDomain (ga_assignment (pairGlobal 0)) pairLeaves unitBox pairPoints (fun p => b_ordered (pairBuffers p)) pairReady). Defined.

Lemma unitBox_aligned : alignedBox Key32 unitBox.
Proof. exists 0, 0, 0. repeat split; reflexivity. Qed.

Lemma pairDefined : Forall (fun x => is_Some (particleKey HilbertKey Key32 (fun x => x) unitBox x) /\ definedKey HilbertKey Key32 (fun x => x) unitBox x <> removeKey Key32) (particlesOf 2 pairPoints).
Proof. repeat (constructor; [split; [by eexists|vm_compute; congruence]|]); constructor. Qed.

Lemma syncPasses_correct_witness :
  syncsTo (fun x => x) HilbertKey Key32 (point 0 0 0) 0 (fun x => x) (fun _ => 1 # 16)%Q (fun _ => point 0 0 0) (fun i => i) (fun _ => point 0 0 0) (fun _ => 0) 2 unitBox pairPoints pairBuffers pairDomain (fun p b' d' =>
    b_keys b' = definedKey HilbertKey Key32 (fun x => x) unitBox <$> b_ordered b' /\ zsorted (b_keys b') /\ (forall x, x ∈ b_ordered b' -> x ∈ particlesOf 2 pairPoints) /\
    slice (b_ordered b') (startIndex d') (endIndex d') = pairPoints p /\ slice (b_properties b') (startIndex d') (endIndex d') = pairProperties p /\
    zlen (b_ordered b') = nParticlesWithHalos d' /\ zlen (b_properties b') = nParticlesWithHalos d' /\ firstCall_ d' = false /\
    forall x y r, alignedBox Key32 unitBox -> x ∈ pairPoints p -> y ∈ particlesOf 2 pairPoints -> insideCoords unitBox y -> r = ((1 # 16) * (s_ofZ 2 * haloSearchExt_ (pairDomain p))%S)%Q -> (0 <= r)%Q -> imageWithin unitBox (r * r)%Q x y -> y ∈ b_ordered b').
Proof. exact (syncPasses_correct (fun x => x) HilbertKey Key32 (point 0 0 0) 0 (fun x => x) (fun _ => 1 # 16)%Q (fun _ => point 0 0 0) (fun i => i) (fun _ => point 0 0 0) (fun _ => 0) 2 pairDomain (ga_assignment (pairGlobal 0)) pairLeaves unitBox pairPoints pairBuffers pairProperties pairReady pairBuffersReady pairDefined). Defined.

(** The update on rank 1 when the radius of all particles is a quarter of the box. *)
Definition pairRun : option (DomainError + (list (PassSent (Vec3 Q * Q)) * list (Z * list (Vec3 Q)) * list (Z * list (Vec3 Q)) * Buffers (E := Vec3 Q) (U := Z) * Domain (T := Q))) :=
  syncPasses HilbertKey Key32 (point 0 0 0) 0 (fun x => x) (fun _ => point 0 0 0) (fun i => 100 + i) (syncPass (fun x => x) HilbertKey Key32 (fun x => x) (fun _ => 1 # 4)%Q (fun _ => point 0 0 0) (fun _ => 0) (b_ordered (pairBuffers 1)) (pointKey <$> pairPoints 1)) (pointKey <$> pairPoints 1)
      [mkPass (mkRound [0; 0] [] [] [] 0) ([], []) 0 [2; 0] [(0, [536870912; 671088640; 805306368; 1073741824])]] [(0, pairPoints 0)] (pairBuffers 1) (pairDomain 1).

(** The pass on rank 1 reports success, and both ranks see all particles when their radius is a quarter of the box. *)
Example pairSync_run : option_map (fun r => match r with inr (sents, halos, rest, b, d) => Some (pt_fail <$> sents, halos, rest, b, startIndex d, endIndex d) | _ => None end)
    pairRun =
  Some (Some ([0], [(0, pairPoints 1)], [], mkBuffers (pointKey <$> particlesOf 2 pairPoints) (particlesOf 2 pairPoints) [100; 101; 102; 11; 12; 13] [1; 2; 0], 3, 6)).
Proof. vm_compute. reflexivity. Qed.

(** The first particle of rank 1 has the second one of rank 0, which is a halo, and the second one of rank 1 as neighbors. *)
Example pairNeighbors_run : match pairRun with
  | Some (inr (_, _, _, b, d)) => findNeighbors 3 (xs (fun x => x) (b_ordered b)) (ys (fun x => x) (b_ordered b)) (zs (fun x => x) (b_ordered b)) (perParticle (hs (fun _ => 1 # 4)%Q (b_ordered b))) (octreeProperties d) unitBox 4 [-1; -1; -1; -1] 0 1
  | _ => None end = Some (2, [1; 4; -1; -1]).
Proof. vm_compute. reflexivity. Qed.

(** *** A full call *)

(** The ranks after some of the particles have moved: one on each rank belongs to the other one. *)
Definition stepPoints (p : Z) : list (Vec3 Q) := if p =? 0 then [point 9 9 7; point 1 1 1; point 7 7 6] else [point 15 1 1; point 1 1 14; point 9 7 9].
Definition stepBuffers (p : Z) : Buffers (E := Vec3 Q) (U := Z) := mkBuffers [0; 0; 0] (stepPoints p) [10 * p + 1; 10 * p + 2; 10 * p + 3] [0; 1; 2].
Definition stepReduced : Extrema Q := mkExtrema 0%Q (-1)%Q 0%Q (-1)%Q 0%Q (-1)%Q.

Lemma pairCopy_ready : globalCopy Key32 pairLeaves pairCounts pairCopy.
Proof. assert (Hcs : csTree Key32 pairLeaves) by (apply (bool_decide_unpack _); vm_compute; exact I). destruct (newCopy_run Key32 pairLeaves pairCounts Hcs) as (g & Eg & Hg). unfold pairCopy. by rewrite Eg. Qed.

Lemma pairBetween : betweenSyncs Key32 2 pairDomain stepBuffers unitBox 2 pairLeaves pairCounts.
Proof.
  assert (Hp2 : forall p, 0 <= p < 2 -> p = 0 \/ p = 1) by lia. split.
  - split.
    + lia.
    + done.
    + intros p Hp. do 3 (split; [done|]). exact pairCopy_ready.
    + split; [apply (bool_decide_unpack _); vm_compute; exact I|reflexivity|repeat (constructor; [vm_compute; split; congruence|]); constructor|lia].
    + intros p Hp. cbn. lia.
    + intros p Hp. destruct (Hp2 p Hp) as [->| ->]; done.
    + intros p Hp. repeat (constructor; [vm_compute; congruence|]); constructor.
  - done.
  - destruct pairReady as [_ _ _ [_ K1] _ _ K3 K4 K5 K6 K7 _ _ _]. by split.
Qed.



(** The call on rank 1: it receives a particle with its property from rank 0, and in the pass the keys of a treelet and halo requests; it
    reports success and ends up with the six particles of both ranks, its own ones behind the halos. *)
Definition stepKeys : list (list Z) := (fun p => std_sort (pointKey <$> stepPoints p)) <$> seqZ 0 2.
Definition stepRun : option (DomainError + (SyncSent (T := Q) (E := Vec3 Q) (U := Z) * Buffers (E := Vec3 Q) (U := Z) * Domain (T := Q))) :=
  sync 1000%Q (fun x => x) HilbertKey Key32 (point 0 0 0) 0 (fun x => x) (fun _ => 1 # 8)%Q [24; 8] (collectiveTree sumVectors 21 Key32 stepKeys ((fun p => ga_tree (global_ (pairDomain p))) <$> seqZ 0 2) 1) (fun _ => point 0 0 0) (fun i => 100 + i) (fun _ => point 0 0 0) (fun _ => 0)
    (mkSyncInput stepReduced [(0, mkMessage 1 [(point 9 9 7, 1)])] [] []
      [mkPass (mkRound [1; 0] [(0, [268435456; 402653184; 536870912; 671088640; 805306368; 939524096; 1073741824])] [] [] 0) ([], []) 0 [2; 0] [(0, [536870912; 671088640; 805306368; 1073741824])]]
      [(0, [point 1 1 1; point 7 7 6; point 1 1 14])]) (stepBuffers 1) (pairDomain 1).

Example stepSync_run : option_map (fun r => match r with inr (s, b, d) => Some (pt_fail <$> out_passes s, out_particles s, out_halos s, out_rest s, b_ordered b, slice (b_properties b) (startIndex d) (endIndex d), startIndex d, endIndex d) | _ => None end) stepRun =
  Some (Some ([0], [[mkMessage 1 [(point 1 1 14, 12)]]; []], [(0, [point 9 9 7; point 9 7 9; point 15 1 1])], ([], []),
    [point 1 1 1; point 7 7 6; point 1 1 14; point 9 9 7; point 9 7 9; point 15 1 1], [1; 13; 11], 3, 6)).
Proof. vm_compute. reflexivity. Qed.
